(* ===== verification/_CoqProject ===== *)
-Q . S2P
Prelude.v
U256.v
StringTab.v
Pos.v
SourceLines.v
Opcodes.v
Crypto.v
BufferTree.v
BufferText.v
Values.v
Upload.v
Blake2b.v
Ripemd160.v
RuntimeEnv.v
Receipts.v
WalletMessages.v
Machine.v
Insns.v
InsnFacts.v
Emulator.v
Profiler.v
Debugger.v
EmulatorSafe.v
EmulatorFrame.v
EmulatorThms.v
StraightLine.v
ProfilerThms.v
TupleTree.v
Peephole.v
StripLabels.v
Types.v
TypesThms.v
TypedAst.v
Ast.v
Link.v
Assembly.v
Codegen.v
CodegenThms.v
CodegenModules.v
TypecheckOps.v
Typecheck.v
FixedArray.v
ValueTypes.v
VirtualMachine.v
Semantics.v
TypeSound.v
TypecheckSound.v
CodegenRuns.v
CodegenSound.v
CodegenStatements.v
CodegenCorrect.v
LabelMaps.v
Lowering.v
Executables.v
TypeSoundness.v
TypecheckGaps.v
Flow.v
Purity.v
Inline.v
InlineCorrect.v
Modules.v
TypeText.v
GenCode.v
ContractTemplates.v
Constants.v
ModulesThms.v
CallGraph.v
Pipeline.v
