(* ===== verification/Prelude.v ===== *)
(** * Mini compiler and AVM emulator: verification library

    Mini is a language for the Arbitrum Virtual Machine (AVM).  The repository
    holds its compiler, a linker, an emulator of the AVM, and a harness that
    runs ArbOS, which is written in Mini, on the emulator.  This library models
    the program file by file and proves what its parts promise each other.

    ** The program and its parts

    A run of the compiler goes through these stages (src/src/compile/mod.rs):

    - source files are found by following imports and stripped of comments, then
      parsed: Pipeline.v, SourceLines.v (compile/source.rs), Pos.v (pos.rs),
      StringTab.v (stringtable.rs).  The parser is generated from mini.lalrpop
      and is a parameter; what it gives are the trees of Ast.v
      (compile/ast.rs).  Constants.v is compile/miniconstants.rs;
    - imports are resolved and the named types collected: Modules.v and
      ModulesThms.v;
    - modules are type checked: Types.v and TypesThms.v (compile/ast.rs: Type,
      assignable, first_mismatch, default_value), TypecheckOps.v (operators and
      constant folding) and Typecheck.v (compile/typecheck.rs), which gives the
      trees of TypedAst.v;
    - the checked trees are analysed and transformed: Flow.v (purity, liveness,
      unreachable code, attributes), Inline.v (inlining), CallGraph.v (removal of
      functions the main function cannot reach);
    - code is generated: Codegen.v (compile/codegen.rs) gives instructions with
      virtual opcodes and labels (Opcodes.v, Values.v: mavm.rs);
    - modules are linked: Link.v (link/mod.rs) relocates them and calls the
      passes StripLabels.v (link/striplabels.rs), TupleTree.v
      (link/xformcode.rs) and Peephole.v (link/optimize.rs).

    The emulator is Machine.v (state, stacks, code store), Insns.v (one
    definition per instruction) and Emulator.v (gas, dispatch, error handler,
    run loop) for run/emulator.rs, on the integers of U256.v (uint256.rs), the
    buffers of BufferTree.v (mavm.rs), Blake2b.v (run/blake2b.rs) and
    Ripemd160.v (run/ripemd160port.rs).  Its outside world is RuntimeEnv.v, with
    WalletMessages.v and Receipts.v, for run/runtime_env.rs.  Upload.v is
    upload.rs.

    The tools around them: Profiler.v and ProfilerThms.v (run/emulator.rs:
    profile_gen, profiler_session), Debugger.v (run/emulator.rs: debug and the
    trace of run), TypeText.v (types and mismatches as text, compile/ast.rs, and
    the serialized type tree of link/mod.rs), BufferText.v (buffers as text and
    trees from byte strings, mavm.rs), GenCode.v (the generator of upgrade code,
    gen_code/mod.rs) and ContractTemplates.v (contracttemplates.rs).

    ** What the theorems show

    - Numbers and data: 256-bit arithmetic is closed and modular (U256.v); a
      buffer is an array of bytes and its cached hash is its Merkle hash
      (BufferTree.v); the hash functions compute their test vectors.
    - The emulator: [machine_type_safety], [machine_progress], [gas_accounting],
      [out_of_gas], [run_terminates], [arith_instructions] and [inbox_delivers]
      (EmulatorThms.v), by a type system for the instruction monad
      (EmulatorSafe.v) and frame rules (EmulatorFrame.v).  [straight_line] turns
      runs of the emulator into runs of the function [view_op].
    - The compiler: Semantics.v is a reference semantics of type-checked
      programs.  [type_soundness] shows that accepted modules compute values of
      their types (ValueTypes.v, TypeSound.v, TypecheckSound.v,
      TypeSoundness.v), [codegen_correct] that generated code, run by the machine
      of VirtualMachine.v, does what the semantics says (CodegenRuns.v,
      CodegenSound.v, CodegenStatements.v, CodegenCorrect.v), and
      [compiled_code_typed] puts the two together.  [inline_correct]
      (InlineCorrect.v) and [pure_functions_independent] (Purity.v) use the same
      semantics.  TypecheckGaps.v holds the programs that show why the side
      conditions of soundness are needed.
    - Subtyping: [assignable_sound], [assignable_order], [assignable_terminates].
    - The linker: large tuples and frames are trees of tuples of eight
      ([tuple_access], [variable_access], [make_frame_correct],
      [fixed_array_access]); labels become code points ([fix_nonforward_correct],
      [strip_labels_correct], [jump_table_reference]); modules do not clash
      ([modules_disjoint]); the peephole optimiser keeps the meaning of code
      that applies IsZero to truth values only ([peephole_correct]); an executable sets up its globals
      ([executable_init]).
    - Executables: [executable_correct] (Executables.v) composes the code
      generator, the linker with all its passes and the emulator: a call that has
      a meaning in the reference semantics is done by [run_one] on the linked
      program.  Relocation renames labels (LabelMaps.v); the lowered code of
      variables, tuples and backward jumps simulates the machine of
      VirtualMachine.v (Lowering.v); the optimiser, the removal of labels and the
      emulator follow (Assembly.v).
    - Whole programs: [create_program_tree_ends], [program_imports_resolve],
      [pruning_exact], [pruning_closed].
    - Codecs and the harness: [location_correct], [upload_roundtrip],
      [addresses_lossless], [recorder_complete], [evm_logs_roundtrip].
    - Tools: a profile adds up and accounts for every instruction
      ([profile_consistent], [profile_total]); neither profiling nor debugging
      changes a run ([profile_transparent], [debug_transparent]); the serialized
      type tree and buffers are read back ([type_tree_roundtrip],
      [serialize_roundtrip]); generated upgrade code declares all types it
      mentions and binds all globals ([upgrade_complete]); the code of a contract
      is not lost in a template ([template_lossless]).
    - Theorems whose name states a defect ([dynamic_gas_reads_bottom],
      [provenance_inverted], [inlined_try_escapes], ...) show, mostly on
      examples, where the code does not do what it means to.

    ** Conventions

    - A Rust panic is [None] of an outer [option], or [Panic] of [outcome];
      [Result] is [outcome]; state is passed explicitly or through a monad
      ([M] of Machine.v, [Gen] of Codegen.v, [TC] of Typecheck.v, [FM] of
      Flow.v).
    - [Uint256] is [Z] with the invariant [Uint256.wf]; [u64], [u32] and bytes
      are [Z] with their wrap-around written out, as in the release build that
      the Makefile makes.  Sizes, slots and indices of vectors are [nat]; a
      difference of such sizes that would be negative is a panic, since what
      follows indexes with it.
    - Hash maps are [gmap]s; where the order of iteration matters it is an
      argument or the order of [map_to_list].
    - Code of other crates is an argument: the classes [Crypto], [Curve] and
      [Ethers], the rlp encoder, the parser, the file system.  What is assumed
      of it is stated in [CryptoOk] and as hypotheses of the theorems, and every
      such class has an instance on which the witnesses compute.
    - Of formatted error messages of the compiler the fixed part is kept, and
      whether there is a text of a mismatch; the text itself is [mismatch_text].
    - Standard input is a list of lines; printed reports are values.
    - Fuel: the walks over syntax trees ([fits] of Flow.v says how much is
      enough), [set_byte] ([set_byte_total]), the loops of [TupleTree::new]
      ([tree_new_ok]), aliases of types ([representation_fuel]), the walk over
      the call graph ([descend_total]), the reading of files
      ([create_program_tree_ends]), the rounds of [write_subtypes] and the
      unfolding of named types ([upgrade_complete]), and the peephole loop (the
      length of the code) have fuel that is shown to be enough; [run] ends when gas bounds it
      ([run_terminates]); [assignable] ends on types without recursive functions
      ([assignable_terminates]) and not always ([assignable_diverges]); the
      fuel of the reference semantics is part of its meaning, as a bound on
      loops and calls.

    ** Not modelled

    - The generated parser (mini.lalrpop), reading and writing files, JSON
      (serde), command lines (main.rs), the colours and layout of error messages
      and the texts that the debugger and the profiler print.
    - src/src/evm: scripts that deploy and call Solidity contracts through ethabi
      on a running ArbOS and compare results.
    - Tests (minitests, buffertests.rs).
    - The reference semantics (Semantics.v) gives a meaning to a part of the
      language: not to buffers, hashes, gas, inline assembly, [loop] and [break],
      calls of imported functions, conditions other than 0 and 1, or comparisons
      of functions.  On programs without a meaning the theorems about compiled
      code say nothing.
    - Libraries written in Mini (arrays and maps of run-time size) are not Rust;
      of their values the semantics says nothing.
*)

From Stdlib Require Import ZArith Lia.
From stdpp Require Export prelude gmap strings list numbers.

(** ** Outcomes of Rust computations

    A Rust function that returns [Result<A, E>] and may also panic is
    modelled by [outcome E A]; one that may only panic, by [option A] with
    [None] for the panic. *)
Inductive outcome (E A : Type) : Type :=
| Ok (a : A)
| Err (e : E)
| Panic.
Arguments Ok {E A} a.
Arguments Err {E A} e.
Arguments Panic {E A}.

Declare Scope mini_scope.
Delimit Scope mini_scope with mini.

#[global] Instance outcome_ret {E} : MRet (outcome E) := λ A a, Ok a.
#[global] Instance outcome_bind {E} : MBind (outcome E) := λ A B f m,
  match m with
  | Ok a => f a
  | Err e => Err e
  | Panic => Panic
  end.

(** [Option::unwrap], [Vec] indexing and the like: a [None] is a panic. *)
Definition unwrap {E A} (o : option A) : outcome E A :=
  match o with
  | Some a => Ok a
  | None => Panic
  end.

(** [Option::ok_or]. *)
Definition ok_or {E A} (o : option A) (e : E) : outcome E A :=
  match o with
  | Some a => Ok a
  | None => Err e
  end.

(** ** Tactics *)

(** Case analysis on every [match]/[if] of the goal or of a hypothesis,
    closing the contradictory branches. *)
Ltac case_all :=
  repeat (case_match; simplify_eq/=; try done).

(** Turn boolean comparisons of [Z] and [nat] in the context into
    propositions. *)
Ltac bool_to_prop :=
  repeat match goal with
  | H : Z.ltb _ _ = true |- _ => apply Z.ltb_lt in H
  | H : Z.ltb _ _ = false |- _ => apply Z.ltb_ge in H
  | H : Z.leb _ _ = true |- _ => apply Z.leb_le in H
  | H : Z.leb _ _ = false |- _ => apply Z.leb_gt in H
  | H : Z.eqb _ _ = true |- _ => apply Z.eqb_eq in H
  | H : Z.eqb _ _ = false |- _ => apply Z.eqb_neq in H
  | H : Nat.ltb _ _ = true |- _ => apply Nat.ltb_lt in H
  | H : Nat.ltb _ _ = false |- _ => apply Nat.ltb_ge in H
  | H : Nat.leb _ _ = true |- _ => apply Nat.leb_le in H
  | H : Nat.leb _ _ = false |- _ => apply Nat.leb_gt in H
  | H : Nat.eqb _ _ = true |- _ => apply Nat.eqb_eq in H
  | H : Nat.eqb _ _ = false |- _ => apply Nat.eqb_neq in H
  | H : andb _ _ = true |- _ => apply andb_true_iff in H as [? ?]
  | H : orb _ _ = false |- _ => apply orb_false_iff in H as [? ?]
  | H : negb _ = true |- _ => apply negb_true_iff in H
  | H : negb _ = false |- _ => apply negb_false_iff in H
  end.

(** Split on the boolean comparisons of the goal and solve by [lia]. *)
Ltac zcases :=
  repeat (case_match; bool_to_prop; try lia); try lia.

(** Closed facts about concrete integers, by evaluation. *)
Ltac by_eval := vm_compute; repeat split; congruence.

(** ** Lists indexed by machine integers

    The emulator indexes vectors with integers popped from its stack, which
    may be anything below [2^64]; the range test comes first so that no huge
    natural number is ever built. *)
Definition lookup_z {A} (l : list A) (i : Z) : option A :=
  if ((0 <=? i) && (i <? Z.of_nat (length l)))%Z then l !! Z.to_nat i else None.

Definition insert_z {A} (l : list A) (i : Z) (x : A) : list A :=
  if ((0 <=? i) && (i <? Z.of_nat (length l)))%Z then <[Z.to_nat i := x]> l else l.

(** ** Digits of a non-negative integer in a fixed base *)
Section digits.
Local Open Scope Z_scope.
Context (B : Z).

(** Little-endian: [n] digits, and the value of a digit list. *)
Fixpoint digits_le (n : nat) (z : Z) : list Z :=
  match n with
  | O => []
  | S n => z mod B :: digits_le n (z / B)
  end.

Fixpoint undigits_le (ds : list Z) : Z :=
  match ds with
  | [] => 0
  | d :: ds => d + B * undigits_le ds
  end.

Definition digits_be (n : nat) (z : Z) : list Z := reverse (digits_le n z).
Definition undigits_be (ds : list Z) : Z := undigits_le (reverse ds).

Definition digits_ok (ds : list Z) : Prop := Forall (λ d, 0 <= d < B) ds.

Lemma length_digits_le n z : length (digits_le n z) = n.
Proof. revert z; induction n; intros; simpl; auto. Qed.

Lemma length_digits_be n z : length (digits_be n z) = n.
Proof. unfold digits_be. by rewrite length_reverse, length_digits_le. Qed.

Lemma undigits_le_app ds1 ds2 :
  undigits_le (ds1 ++ ds2) = undigits_le ds1 + B ^ Z.of_nat (length ds1) * undigits_le ds2.
Proof.
  induction ds1 as [|d ds1 IH]; cbn [undigits_le app length]; [lia|].
  rewrite IH, Nat2Z.inj_succ, Z.pow_succ_r by lia. ring.
Qed.

Context (HB : 1 < B).

Lemma digits_le_ok n z : digits_ok (digits_le n z).
Proof.
  revert z; induction n; intros; constructor; [|apply IHn].
  apply Z.mod_pos_bound. lia.
Qed.

Lemma undigits_digits_le n z :
  undigits_le (digits_le n z) = z mod B ^ Z.of_nat n.
Proof.
  revert z; induction n as [|n IH]; intros z; cbn [undigits_le digits_le].
  - by rewrite Z.pow_0_r, Z.mod_1_r.
  - rewrite IH, Nat2Z.inj_succ, Z.pow_succ_r by lia.
    rewrite Z.rem_mul_r; [done|lia|]. apply Z.pow_pos_nonneg; lia.
Qed.

Lemma undigits_le_bound ds :
  digits_ok ds → 0 <= undigits_le ds < B ^ Z.of_nat (length ds).
Proof.
  induction 1 as [|d ds Hd _ IH]; [simpl; lia|].
  cbn [undigits_le length]. rewrite Nat2Z.inj_succ, Z.pow_succ_r by lia. nia.
Qed.

Lemma digits_undigits_le ds :
  digits_ok ds → digits_le (length ds) (undigits_le ds) = ds.
Proof.
  induction 1 as [|d ds Hd _ IH]; [done|]. cbn [undigits_le length digits_le].
  rewrite (Z.mul_comm B), Z.mod_add, Z.div_add, Z.mod_small by lia.
  rewrite Z.div_small, Z.add_0_l by lia. by rewrite IH.
Qed.

Lemma digits_ok_reverse ds : digits_ok ds → digits_ok (reverse ds).
Proof. apply Forall_reverse. Qed.

Lemma digits_be_ok n z : digits_ok (digits_be n z).
Proof. apply digits_ok_reverse, digits_le_ok. Qed.

Lemma undigits_digits_be n z :
  0 <= z < B ^ Z.of_nat n → undigits_be (digits_be n z) = z.
Proof.
  intros. unfold undigits_be, digits_be.
  rewrite reverse_involutive, undigits_digits_le. by apply Z.mod_small.
Qed.

Lemma digits_undigits_be ds n :
  digits_ok ds → length ds = n → digits_be n (undigits_be ds) = ds.
Proof.
  intros Hds <-. unfold undigits_be, digits_be.
  rewrite <- (length_reverse ds), digits_undigits_le.
  - apply reverse_involutive.
  - by apply digits_ok_reverse.
Qed.

Lemma undigits_be_bound ds :
  digits_ok ds → 0 <= undigits_be ds < B ^ Z.of_nat (length ds).
Proof.
  intros. unfold undigits_be. rewrite <- (length_reverse ds).
  by apply undigits_le_bound, digits_ok_reverse.
Qed.

(** Leading zero digits do not change the value. *)
Lemma undigits_be_zeros k ds :
  undigits_be (replicate k 0 ++ ds) = undigits_be ds.
Proof.
  unfold undigits_be. rewrite reverse_app, reverse_replicate, undigits_le_app.
  enough (undigits_le (replicate k 0) = 0) as -> by lia.
  induction k; simpl; lia.
Qed.

(** A number padded with leading zeros is the same number written with
    more digits. *)
Lemma digits_be_pad n m x :
  (n <= m)%nat → 0 <= x < B ^ Z.of_nat n →
  replicate (m - n) 0 ++ digits_be n x = digits_be m x.
Proof.
  intros. rewrite <- (undigits_digits_be n x) at 2 by done.
  rewrite <- (undigits_be_zeros (m - n)). symmetry. apply digits_undigits_be.
  - apply Forall_app; split; [|apply digits_be_ok].
    apply Forall_replicate. lia.
  - rewrite length_app, length_replicate, length_digits_be. lia.
Qed.

Lemma undigits_be_app ds1 ds2 :
  undigits_be (ds1 ++ ds2) =
  undigits_be ds1 * B ^ Z.of_nat (length ds2) + undigits_be ds2.
Proof.
  unfold undigits_be. rewrite reverse_app, undigits_le_app, length_reverse. ring.
Qed.
End digits.

(** ** Machine words of [w] bits *)
Section words.
Local Open Scope Z_scope.
Context (w : Z).

Definition wrapping_add (x y : Z) : Z := (x + y) mod 2 ^ w.
Definition rotate_left (x n : Z) : Z := Z.lor (Z.shiftl x n mod 2 ^ w) (Z.shiftr x (w - n)).
Definition rotate_right (x n : Z) : Z := Z.lor (Z.shiftr x n) (Z.shiftl x (w - n) mod 2 ^ w).
(** The [!] operator of an unsigned word. *)
Definition wnot (x : Z) : Z := 2 ^ w - 1 - x.

Definition word_ok (x : Z) : Prop := 0 <= x < 2 ^ w.

Context (Hw : 0 < w).

Lemma pow_w_pos : 0 < 2 ^ w.
Proof. apply Z.pow_pos_nonneg; lia. Qed.

Lemma word_mod x : word_ok (x mod 2 ^ w).
Proof. apply Z.mod_pos_bound, pow_w_pos. Qed.

Lemma wrapping_add_ok x y : word_ok (wrapping_add x y).
Proof. apply word_mod. Qed.

(** A non-negative number with no bit at or above [w] is a word. *)
Lemma word_ok_bits x :
  word_ok x ↔ 0 <= x ∧ ∀ i, w <= i → Z.testbit x i = false.
Proof.
  pose proof pow_w_pos. split.
  - intros [??]. split; [done|]. intros i Hi.
    rewrite <- (Z.mod_small x (2 ^ w)) by done. apply Z.mod_pow2_bits_high. lia.
  - intros [Hx Hb]. split; [done|].
    destruct (decide (x = 0)) as [->|]; [done|].
    apply Z.log2_lt_pow2; [lia|]. destruct (decide (w <= Z.log2 x)) as [Hl|]; [|lia].
    specialize (Hb _ Hl). rewrite Z.bit_log2 in Hb by lia. done.
Qed.

Lemma lxor_ok x y : word_ok x → word_ok y → word_ok (Z.lxor x y).
Proof.
  rewrite !word_ok_bits. intros [? Hx] [? Hy]. split; [apply Z.lxor_nonneg; lia|].
  intros i Hi. by rewrite Z.lxor_spec, Hx, Hy.
Qed.

Lemma lor_ok x y : word_ok x → word_ok y → word_ok (Z.lor x y).
Proof.
  rewrite !word_ok_bits. intros [? Hx] [? Hy]. split; [apply Z.lor_nonneg; lia|].
  intros i Hi. by rewrite Z.lor_spec, Hx, Hy.
Qed.

Lemma land_ok x y : word_ok x → 0 <= y → word_ok (Z.land x y).
Proof.
  rewrite !word_ok_bits. intros [? Hx] ?. split; [apply Z.land_nonneg; lia|].
  intros i Hi. by rewrite Z.land_spec, Hx.
Qed.

Lemma wnot_ok x : word_ok x → word_ok (wnot x).
Proof. unfold word_ok, wnot. lia. Qed.

Lemma shiftr_ok x n : word_ok x → 0 <= n → word_ok (Z.shiftr x n).
Proof.
  intros [??] ?. unfold word_ok. rewrite Z.shiftr_div_pow2 by done.
  assert (0 < 2 ^ n) by (apply Z.pow_pos_nonneg; lia).
  split; [apply Z.div_pos; lia|]. apply Z.div_lt_upper_bound; nia.
Qed.

Lemma rotate_left_ok x n : word_ok x → 0 <= n <= w → word_ok (rotate_left x n).
Proof. intros. apply lor_ok; [apply word_mod|apply shiftr_ok; [done|lia]]. Qed.

Lemma rotate_right_ok x n : word_ok x → 0 <= n <= w → word_ok (rotate_right x n).
Proof. intros. apply lor_ok; [apply shiftr_ok; [done|lia]|apply word_mod]. Qed.
End words.

Create HintDb words.
#[export] Hint Resolve wrapping_add_ok lxor_ok lor_ok land_ok wnot_ok shiftr_ok
  rotate_left_ok rotate_right_ok word_mod : words.

(** Array reads with an index known to be in range ([v[i]]). *)
Definition at_ (l : list Z) (i : nat) : Z := default 0%Z (l !! i).

Lemma at_ok (P : Z → Prop) (l : list Z) i : Forall P l → (i < length l)%nat → P (at_ l i).
Proof.
  intros Hl Hi. unfold at_. destruct (lookup_lt_is_Some_2 l i Hi) as [x Hx]. rewrite Hx.
  by eapply Forall_lookup_1 in Hl.
Qed.

Lemma Forall2_rev {A B} (R : A → B → Prop) l k : Forall2 R l k → Forall2 R (rev l) (rev k).
Proof. induction 1; cbn [rev]; [constructor|]. apply Forall2_app; [done|]. by constructor. Qed.
