(* ===== verification/U256.v ===== *)
(** * 256-bit unsigned integers (src/src/uint256.rs)

    [Uint256] wraps an arbitrary-precision [BigUint]; the wrapped integer is
    modelled by [Z], and [wf] says that it fits 256 bits, which the type does
    not enforce by itself.  num-bigint's [BigUint] and [BigInt] are
    arbitrary-precision integers, so their operators are those of [Z]
    ([Z.quot] and [Z.rem] for the truncating [BigInt] division).  [usize] and
    [u64] are 64 bits wide.  Functions that contain an [unwrap] return
    [option], with [None] for the panic. *)

From Stdlib Require Import ZArith Lia Zpow_facts Ascii.
From S2P Require Import Prelude.
Local Open Scope Z_scope.

Definition two64 : Z := Eval cbv in 2 ^ 64.
Definition two256 : Z := Eval cbv in 2 ^ 256.
Definition two255 : Z := Eval cbv in 2 ^ 255.

Module Uint256.

(** The invariant every [Uint256] value is meant to satisfy. *)
Definition wf (x : Z) : Prop := 0 <= x < two256.

#[global] Instance wf_dec x : Decision (wf x).
Proof. unfold wf. apply _. Defined.

(** ** Helpers of the implementation *)

(** [BigUint::bits] *)
Definition bits (x : Z) : Z := if x =? 0 then 0 else Z.log2 x + 1.

(** [BigUint::new(vec![0xffff_ffff; 8])]: eight little-endian 32-bit digits *)
Definition all_ones : Z := undigits_le (2 ^ 32) (replicate 8 0xffffffff).

Definition sign_bit : Z := undigits_le (2 ^ 32) [0; 0; 0; 0; 0; 0; 0; 0x80000000].

Definition trim (bui : Z) : Z * bool :=
  if bits bui <=? 256 then (bui, true) else (Z.land bui all_ones, false).

Definition to_signed (x : Z) : Z :=
  if x <? sign_bit then x
  else x - undigits_le (2 ^ 32) [0; 0; 0; 0; 0; 0; 0; 0; 1].

(** [to_biguint().unwrap()] panics on a negative number. *)
Definition bigint_to_biguint (bi : Z) : option Z :=
  if bi <? 0 then
    let r := bi + undigits_le (2 ^ 32) [0; 0; 0; 0; 0; 0; 0; 0; 1] in
    if r <? 0 then None else Some r
  else Some bi.

(** ** Constructors *)

Definition zero : Z := 0.
Definition one : Z := 1.
Definition from_u64 (x : Z) : Z := x.
Definition from_usize (x : Z) : Z := x.
Definition from_bool (b : bool) : Z := if b then one else zero.
Definition max_uint : Z := all_ones.

(** [BigUint::from_bytes_be]: no length check, so more than 32 bytes give a
    value outside [wf]. *)
Definition from_bytes (b : list Z) : Z := undigits_be 256 b.

(** [assign_from_slice]: little-endian 32-bit digits *)
Definition from_u32_digits (b : list Z) : Z := undigits_le (2 ^ 32) b.

(** The string parsers call num-bigint's [parse_bytes], which is a
    parameter here. *)
Section parse.
Context (biguint_parse_bytes bigint_parse_bytes : string → Z → option Z).

Definition from_string (s : string) : option Z :=
  match biguint_parse_bytes s 10 with
  | Some bui =>
      match trim bui with
      | (val, true) => Some val
      | (_, false) => None
      end
  | None => None
  end.

Definition from_string_hex (s : string) : option Z :=
  match biguint_parse_bytes s 16 with
  | Some bui =>
      match trim bui with
      | (val, true) => Some val
      | (_, false) => None
      end
  | None => None
  end.

(** [s.replace("s", "")] *)
Fixpoint drop_s (s : string) : string :=
  match s with
  | EmptyString => EmptyString
  | String c s => if bool_decide (c = "s"%char) then drop_s s else String c (drop_s s)
  end.

(** The outer option is the panic of [bigint_to_biguint]. *)
Definition from_signed_string (s : string) : option (option Z) :=
  match bigint_parse_bytes (drop_s s) 10 with
  | Some bi =>
      match bigint_to_biguint bi with
      | Some bui =>
          match trim bui with
          | (val, true) => Some (Some val)
          | (_, false) => Some None
          end
      | None => None
      end
  | None => Some None
  end.
End parse.

(** ** Conversions *)

Definition to_u64 (x : Z) : option Z := if x <? two64 then Some x else None.
Definition to_usize (x : Z) : option Z := if x <? two64 then Some x else None.

(** [BigUint::to_bytes_be]: minimal length, one zero byte for zero *)
Definition biguint_to_bytes_be (x : Z) : list Z :=
  if x =? 0 then [0] else digits_be 256 (Z.to_nat (Z.log2 x / 8 + 1)) x.

Definition to_bytes_be (x : Z) : list Z :=
  let raw := biguint_to_bytes_be x in
  if Nat.ltb (length raw) 32 then replicate (32 - length raw) 0 ++ raw else raw.

(** [H160::from_slice] panics unless it is given exactly 20 bytes. *)
Definition to_h160 (x : Z) : option (list Z) :=
  let raw := biguint_to_bytes_be x in
  let ret := if Nat.ltb (length raw) 20 then replicate (20 - length raw) 0 ++ raw else raw in
  if Nat.eqb (length ret) 20 then Some ret else None.

Definition trim_to_u64 (x : Z) : Z := Z.land x 0xffffffffffffffff.

Definition is_zero (x : Z) : bool := x =? 0.

Definition to_bytes_minimal (x : Z) : list Z :=
  if is_zero x then [] else biguint_to_bytes_be x.

(** [BigUint::to_u32_digits]: little-endian, no leading zero digit *)
Definition biguint_to_u32_digits (x : Z) : list Z :=
  if x =? 0 then [] else digits_le (2 ^ 32) (Z.to_nat (Z.log2 x / 32 + 1)) x.

(** [for (i, vv) in v.iter().enumerate() { ret[top - i] = vv }]; an index
    below zero panics. *)
Fixpoint store_rev (ret : list Z) (top : nat) (v : list Z) : option (list Z) :=
  match v with
  | [] => Some ret
  | d :: v =>
      match top with
      | O => match v with [] => Some (<[O := d]> ret) | _ => None end
      | S top' => store_rev (<[top := d]> ret) top' v
      end
  end.

Definition to_u32_digits_be (x : Z) : option (list Z) :=
  store_rev (replicate 8 0) 7 (biguint_to_u32_digits x).

Definition to_u32_digits_be_2 (x ui2 : Z) : option (list Z) :=
  ret ← store_rev (replicate 16 0) 7 (biguint_to_u32_digits x);
  store_rev ret 15 (biguint_to_u32_digits ui2).

(** [rlp::encode] of a byte string is a parameter. *)
Definition rlp_encode (rlp : list Z → list Z) (x : Z) : list Z :=
  if is_zero x then [0x80] else rlp (to_bytes_minimal x).

(** ** Arithmetic *)

Definition bitwise_neg (x : Z) : Z := Z.lxor x all_ones.
Definition bitwise_and (x y : Z) : Z := Z.land x y.
Definition bitwise_or (x y : Z) : Z := Z.lor x y.
Definition bitwise_xor (x y : Z) : Z := Z.lxor x y.

Definition add (x y : Z) : Z := fst (trim (x + y)).

Definition sub (x y : Z) : option Z :=
  if x <? y then None else Some (fst (trim (x - y))).

Definition unary_minus (x : Z) : option Z :=
  if x =? sign_bit then Some x else Some (add (bitwise_neg x) one).

Definition unchecked_sub (x y : Z) : option Z :=
  if x <? y then d ← sub y x; unary_minus d else sub x y.

Definition mul (x y : Z) : Z := fst (trim (x * y)).

Definition _from_gwei (num_gwei : Z) : Z := mul (from_u64 num_gwei) (from_u64 1000000000).
Definition _from_eth (num_eth : Z) : Z := mul (from_u64 num_eth) (from_u64 1000000000000000000).

Definition div (x y : Z) : option Z := if y =? 0 then None else Some (x / y).
Definition modulo (x y : Z) : option Z := if y =? 0 then None else Some (x mod y).

(** The outer option of [sdiv] and [smodulo] is the panic of
    [bigint_to_biguint], the inner one their own result. *)
Definition sdiv (x y : Z) : option (option Z) :=
  if y =? 0 then Some None
  else Some <$> bigint_to_biguint (Z.quot (to_signed x) (to_signed y)).

Definition smodulo (x y : Z) : option (option Z) :=
  if y =? 0 then Some None
  else Some <$> bigint_to_biguint (Z.rem (to_signed x) (to_signed y)).

Definition add_mod (x denom modulus : Z) : option Z :=
  if modulus =? 0 then None else Some ((x + denom) mod modulus).

Definition mul_mod (x denom modulus : Z) : option Z :=
  if modulus =? 0 then None else Some ((x * denom) mod modulus).

(** [BigUint::modpow] with modulus [2^256] *)
Definition exp (x y : Z) : Z := Zpow_mod x y (Z.shiftl 1 256).

Definition _max_neg_int : Z := exp one (from_usize 255).

Definition shift_left (x num : Z) : Z :=
  if 256 <=? num then zero else fst (trim (Z.shiftl x num)).

Definition shift_right (x num : Z) : Z := Z.shiftr x num.

Definition shift_arith (x raw_num : Z) : Z :=
  let need_fill := bits x =? 256 in
  let num := if 256 <? raw_num then 256 else raw_num in
  let val := Z.shiftr x num in
  let val := if need_fill then val + Z.shiftl max_uint (256 - num) else val in
  fst (trim val).

Definition s_less_than (x y : Z) : bool := to_signed x <? to_signed y.

(** ** Hashes: keccak256 is a parameter *)
Definition avm_hash (keccak256 : list Z → list Z) (x : Z) : Z :=
  from_bytes (keccak256 (to_bytes_be x)).

Definition avm_hash2 (keccak256 : list Z → list Z) (v1 v2 : Z) : Z :=
  from_bytes (keccak256 (to_bytes_be v1 ++ to_bytes_be v2)).

(** ** Facts about the helpers *)

Lemma two64_eq : two64 = 2 ^ 64. Proof. reflexivity. Qed.
Lemma two255_eq : two255 = 2 ^ 255. Proof. reflexivity. Qed.
Lemma two256_eq : two256 = 2 ^ 256. Proof. reflexivity. Qed.
Lemma two256_2 : two256 = 2 * two255. Proof. reflexivity. Qed.
Lemma all_ones_eq : all_ones = two256 - 1. Proof. reflexivity. Qed.
Lemma sign_bit_eq : sign_bit = two255. Proof. reflexivity. Qed.
Lemma shift_digit_eq : undigits_le (2 ^ 32) [0; 0; 0; 0; 0; 0; 0; 0; 1] = two256.
Proof. reflexivity. Qed.
Lemma two255_pos : 0 < two255. Proof. reflexivity. Qed.
Lemma two64_lt_256 : two64 < two256. Proof. reflexivity. Qed.

#[local] Opaque two256 two255 all_ones sign_bit two64.

Lemma bits_le x n : 0 <= x → 0 <= n → bits x <= n ↔ x < 2 ^ n.
Proof.
  intros. unfold bits. case_match; bool_to_prop.
  - subst. assert (0 < 2 ^ n) by (apply Z.pow_pos_nonneg; lia). lia.
  - assert (Z.log2 x < n ↔ x < 2 ^ n) by (symmetry; apply Z.log2_lt_pow2; lia). lia.
Qed.

Lemma land_all_ones x : Z.land x all_ones = x mod two256.
Proof.
  rewrite all_ones_eq, two256_eq, Z.sub_1_r, <- Z.ones_equiv.
  by apply Z.land_ones.
Qed.

Lemma trim_fst x : 0 <= x → fst (trim x) = x mod two256.
Proof.
  intros. unfold trim. case_match; bool_to_prop; simpl.
  - symmetry. apply Z.mod_small. rewrite two256_eq. by rewrite <- bits_le.
  - apply land_all_ones.
Qed.

Lemma trim_snd x : 0 <= x → snd (trim x) = bool_decide (x < two256).
Proof.
  intros. unfold trim. rewrite two256_eq.
  case_match; bool_to_prop; simpl; symmetry.
  - apply bool_decide_eq_true. by rewrite <- bits_le.
  - apply bool_decide_eq_false. rewrite <- bits_le; lia.
Qed.

Lemma wf_mod x : wf (x mod two256).
Proof. apply Z.mod_pos_bound. reflexivity. Qed.

Lemma wf_trim x : 0 <= x → wf (fst (trim x)).
Proof. intros. rewrite trim_fst by done. apply wf_mod. Qed.

Lemma wf_log2 x : 0 < x → wf x ↔ Z.log2 x < 256.
Proof.
  intros. unfold wf. rewrite two256_eq.
  rewrite (Z.log2_lt_pow2 x 256) by lia. split; [by intros [_ ?]|]. intros; split; [lia|done].
Qed.

Lemma wf_small x : 0 <= x < two64 → wf x.
Proof. unfold wf. pose proof two64_lt_256. lia. Qed.

(** A bitwise operator whose result has no bit above both arguments keeps
    the 256-bit range. *)
Lemma wf_testbit x : 0 <= x → (∀ i, 256 <= i → Z.testbit x i = false) → wf x.
Proof.
  intros Hx Hb. unfold wf. split; [done|].
  destruct (decide (x = 0)) as [->|]; [reflexivity|].
  destruct (decide (256 <= Z.log2 x)) as [Hl|].
  - specialize (Hb _ Hl). rewrite Z.bit_log2 in Hb by lia. done.
  - apply wf_log2; lia.
Qed.

Lemma testbit_wf x i : wf x → 256 <= i → Z.testbit x i = false.
Proof.
  intros [??] ?. rewrite <- (Z.mod_small x (2 ^ 256)) by (by rewrite <- two256_eq).
  apply Z.mod_pow2_bits_high. lia.
Qed.

Lemma bitwise_neg_eq x : wf x → bitwise_neg x = two256 - 1 - x.
Proof.
  intros Hx. unfold bitwise_neg.
  assert (Z.land x (Z.lxor x all_ones) = 0) as Hd.
  { apply Z.bits_inj'; intros i Hi.
    rewrite Z.land_spec, Z.lxor_spec, Z.bits_0.
    destruct (decide (256 <= i)) as [H|H].
    - by rewrite (testbit_wf x i Hx H).
    - rewrite all_ones_eq, two256_eq, Z.sub_1_r, <- Z.ones_equiv, Z.ones_spec_low by lia.
      by destruct (Z.testbit x i). }
  apply Z.add_nocarry_lxor in Hd.
  rewrite <- Z.lxor_assoc, Z.lxor_nilpotent, Z.lxor_0_l in Hd. rewrite <- all_ones_eq. lia.
Qed.

(** ** Closure: every operation maps 256-bit integers to 256-bit integers *)

Lemma wf_add x y : wf x → wf y → wf (add x y).
Proof. intros [??] [??]. apply wf_trim. lia. Qed.

Lemma wf_mul x y : wf x → wf y → wf (mul x y).
Proof. intros [??] [??]. apply wf_trim. lia. Qed.

Lemma add_eq x y : wf x → wf y → add x y = (x + y) mod two256.
Proof. intros [??] [??]. apply trim_fst. lia. Qed.

Lemma mul_eq x y : wf x → wf y → mul x y = (x * y) mod two256.
Proof. intros [??] [??]. apply trim_fst. lia. Qed.

Lemma sub_eq x y : wf x → wf y → sub x y = if bool_decide (y <= x) then Some (x - y) else None.
Proof.
  intros [??] [??]. unfold sub. case_match; bool_to_prop.
  - by rewrite bool_decide_eq_false_2 by lia.
  - rewrite bool_decide_eq_true_2 by lia. f_equal.
    rewrite trim_fst, Z.mod_small by lia. done.
Qed.

Lemma unary_minus_eq x : wf x → unary_minus x = Some ((- x) mod two256).
Proof.
  intros Hx. unfold unary_minus. rewrite sign_bit_eq. case_match; bool_to_prop; f_equal.
  - subst. rewrite two256_2. apply Z.mod_unique with (-1); [|lia].
    pose proof two255_pos. lia.
  - pose proof Hx as [??].
    rewrite add_eq; rewrite ?bitwise_neg_eq by done; [|by unfold wf; lia|done].
    unfold one. replace (two256 - 1 - x + 1) with (- x + 1 * two256) by lia.
    rewrite Z.mod_add; [done|]. pose proof two255_pos. rewrite two256_2. lia.
Qed.

Lemma unchecked_sub_eq x y : wf x → wf y → unchecked_sub x y = Some ((x - y) mod two256).
Proof.
  intros Hx Hy. pose proof Hx as [??]. pose proof Hy as [??].
  unfold unchecked_sub. case_match; bool_to_prop.
  - rewrite sub_eq by done. rewrite bool_decide_eq_true_2 by lia. simpl.
    rewrite unary_minus_eq by (unfold wf; lia). do 2 f_equal. lia.
  - rewrite sub_eq by done. rewrite bool_decide_eq_true_2 by lia.
    rewrite Z.mod_small by lia. done.
Qed.

(** Two's complement: the signed reading of a 256-bit word and back. *)
Lemma to_signed_range x : wf x → - two255 <= to_signed x < two255.
Proof.
  intros [??]. unfold to_signed. rewrite sign_bit_eq, shift_digit_eq.
  rewrite two256_2 in *. zcases.
Qed.

Lemma to_signed_mod x : wf x → to_signed x mod two256 = x.
Proof.
  intros [??]. unfold to_signed. rewrite sign_bit_eq, shift_digit_eq.
  case_match; bool_to_prop; [by apply Z.mod_small|].
  symmetry. apply Z.mod_unique with (-1); lia.
Qed.

Lemma to_signed_inj x y : wf x → wf y → to_signed x = to_signed y → x = y.
Proof. intros Hx Hy E. by rewrite <- (to_signed_mod x), E, to_signed_mod. Qed.

Lemma bigint_to_biguint_mod z :
  - two256 <= z < two256 → bigint_to_biguint z = Some (z mod two256).
Proof.
  intros. unfold bigint_to_biguint. rewrite shift_digit_eq.
  repeat case_match; bool_to_prop; try lia; f_equal.
  - apply Z.mod_unique with (-1); lia.
  - by rewrite Z.mod_small by lia.
Qed.

Lemma quot_bound a b m : 0 < m → - m <= a < m → b ≠ 0 → - m <= Z.quot a b <= m.
Proof.
  intros. assert (Z.abs (Z.quot a b) <= m); [|lia].
  rewrite <- Z.quot_abs by done.
  rewrite Z.quot_div_nonneg by lia.
  assert (Z.abs a / Z.abs b <= Z.abs a); [apply Z.div_le_upper_bound; nia|lia].
Qed.

Lemma to_signed_nonzero y : wf y → y ≠ 0 → to_signed y ≠ 0.
Proof. intros Hy Hnz E. apply Hnz. by rewrite <- (to_signed_mod y Hy), E. Qed.

Lemma sdiv_eq x y : wf x → wf y →
  sdiv x y = Some (if bool_decide (y = 0) then None
                   else Some (Z.quot (to_signed x) (to_signed y) mod two256)).
Proof.
  intros Hx Hy. unfold sdiv. case_match; bool_to_prop.
  - by rewrite bool_decide_eq_true_2.
  - rewrite bool_decide_eq_false_2 by done. pose proof two255_pos.
    pose proof (quot_bound (to_signed x) (to_signed y) two255 ltac:(lia)
                  (to_signed_range x Hx) (to_signed_nonzero y Hy H)).
    rewrite bigint_to_biguint_mod; [done|]. rewrite two256_2. lia.
Qed.

Lemma smodulo_eq x y : wf x → wf y →
  smodulo x y = Some (if bool_decide (y = 0) then None
                      else Some (Z.rem (to_signed x) (to_signed y) mod two256)).
Proof.
  intros Hx Hy. unfold smodulo. case_match; bool_to_prop.
  - by rewrite bool_decide_eq_true_2.
  - rewrite bool_decide_eq_false_2 by done. pose proof two255_pos.
    pose proof (Z.rem_bound_abs (to_signed x) (to_signed y) (to_signed_nonzero y Hy H)).
    pose proof (to_signed_range y Hy).
    rewrite bigint_to_biguint_mod; [done|]. rewrite two256_2. lia.
Qed.

Lemma exp_eq x y : 0 <= y → exp x y = (x ^ y) mod two256.
Proof. intros. unfold exp. rewrite Zpow_mod_correct; [done|discriminate]. Qed.

Lemma shift_left_eq x n : wf x → 0 <= n → shift_left x n = (x * 2 ^ n) mod two256.
Proof.
  intros [??] ?. unfold shift_left. case_match; bool_to_prop.
  - symmetry. replace n with (256 + (n - 256)) by lia. rewrite Z.pow_add_r by lia.
    rewrite two256_eq, (Z.mul_comm (2 ^ 256)), Z.mul_assoc. by apply Z_mod_mult.
  - rewrite trim_fst; rewrite Z.shiftl_mul_pow2 by lia; [done|].
    apply Z.mul_nonneg_nonneg; [done|]. apply Z.pow_nonneg. lia.
Qed.

Lemma wf_shift_right x n : wf x → 0 <= n → wf (shift_right x n).
Proof.
  intros [??] ?. unfold shift_right, wf. rewrite Z.shiftr_div_pow2 by done.
  assert (0 < 2 ^ n) by (apply Z.pow_pos_nonneg; lia).
  split; [apply Z.div_pos; lia|]. apply Z.div_lt_upper_bound; nia.
Qed.

Lemma bits_256 x : wf x → (bits x =? 256) = negb (x <? sign_bit).
Proof.
  intros Hx. pose proof Hx as [??]. rewrite sign_bit_eq, two255_eq.
  pose proof (bits_le x 255 ltac:(lia) ltac:(lia)) as H255.
  pose proof (bits_le x 256 ltac:(lia) ltac:(lia)) as H256. rewrite <- two256_eq in H256.
  destruct (Z.ltb_spec x (2 ^ 255)), (Z.eqb_spec (bits x) 256); simpl; try done; exfalso.
  - apply H255 in H1. lia.
  - assert (¬ bits x <= 255) by (rewrite H255; lia). assert (bits x <= 256) by (by apply H256). lia.
Qed.

Lemma div_neg_small a b : - b <= a < 0 → a / b = -1.
Proof. intros. symmetry. apply Z.div_unique_pos with (a + b); lia. Qed.

(** Arithmetic shift: floor division of the signed reading. *)
Lemma shift_arith_eq x n : wf x → 0 <= n →
  shift_arith x n = (to_signed x / 2 ^ n) mod two256.
Proof.
  intros Hx Hn. pose proof Hx as [??]. pose proof two255_pos.
  unfold shift_arith. rewrite bits_256 by done.
  set (k := if 256 <? n then 256 else n).
  assert (0 <= k <= 256) as Hk by (unfold k; zcases).
  assert (∀ z, - two256 <= z < two256 → z / 2 ^ n = z / 2 ^ k) as Hdiv.
  { intros z Hz. unfold k. case_match; bool_to_prop; [|done].
    assert (2 ^ 256 < 2 ^ n) by (apply Z.pow_lt_mono_r; lia). rewrite two256_eq in Hz.
    destruct (decide (z < 0)).
    - by rewrite !div_neg_small by lia.
    - rewrite !Z.div_small; lia. }
  pose proof (to_signed_range x Hx). rewrite Hdiv by (rewrite two256_2; lia). clear Hdiv.
  assert (0 < 2 ^ k) by (apply Z.pow_pos_nonneg; lia).
  assert (2 ^ k * 2 ^ (256 - k) = two256) as Hpow.
  { rewrite <- Z.pow_add_r, two256_eq by lia. f_equal. lia. }
  assert (0 <= Z.shiftr x k) by (apply Z.shiftr_nonneg; lia).
  unfold to_signed. destruct (x <? sign_bit); cbn [negb].
  - by rewrite trim_fst, Z.shiftr_div_pow2 by lia.
  - unfold max_uint. rewrite all_ones_eq, shift_digit_eq, Z.shiftl_mul_pow2 by lia.
    assert (0 < 2 ^ (256 - k)) by (apply Z.pow_pos_nonneg; lia).
    rewrite trim_fst by nia. rewrite Z.shiftr_div_pow2 by lia.
    replace (x - two256) with (x + (- 2 ^ (256 - k)) * 2 ^ k) by lia.
    rewrite Z.div_add by lia.
    replace (x / 2 ^ k + (two256 - 1) * 2 ^ (256 - k))
      with (x / 2 ^ k + - 2 ^ (256 - k) + 2 ^ (256 - k) * two256) by lia.
    by rewrite Z.mod_add by lia.
Qed.

Lemma wf_shift_arith x n : wf x → 0 <= n → wf (shift_arith x n).
Proof. intros. rewrite shift_arith_eq by done. apply wf_mod. Qed.

Lemma wf_bitwise_neg x : wf x → wf (bitwise_neg x).
Proof. intros Hx. rewrite bitwise_neg_eq by done. destruct Hx. unfold wf. lia. Qed.

Lemma wf_bitwise_and x y : wf x → 0 <= y → wf (bitwise_and x y).
Proof.
  intros Hx ?. apply wf_testbit; [apply Z.land_nonneg; lia|].
  intros. by rewrite Z.land_spec, (testbit_wf x).
Qed.

Lemma wf_bitwise_or x y : wf x → wf y → wf (bitwise_or x y).
Proof.
  intros Hx Hy. pose proof Hx as [??]. pose proof Hy as [??].
  apply wf_testbit; [apply Z.lor_nonneg; lia|].
  intros. by rewrite Z.lor_spec, (testbit_wf x), (testbit_wf y).
Qed.

Lemma wf_bitwise_xor x y : wf x → wf y → wf (bitwise_xor x y).
Proof.
  intros Hx Hy. pose proof Hx as [??]. pose proof Hy as [??].
  apply wf_testbit; [apply Z.lxor_nonneg; lia|].
  intros. by rewrite Z.lxor_spec, (testbit_wf x), (testbit_wf y).
Qed.

Lemma wf_div x y z : wf x → 0 <= y → div x y = Some z → wf z.
Proof.
  intros [??] ? E. unfold div in E. case_match; bool_to_prop; simplify_eq.
  split; [apply Z.div_pos; lia|]. apply Z.div_lt_upper_bound; nia.
Qed.

Lemma wf_rem_pos a y : 0 <= a → wf y → y ≠ 0 → wf (a mod y).
Proof. intros ? [??] ?. pose proof (Z.mod_pos_bound a y). unfold wf. lia. Qed.

(** ** Byte and 32-bit digit representations *)

Lemma pow_digits k x :
  0 < k → 0 < x → 0 <= x < (2 ^ k) ^ Z.of_nat (Z.to_nat (Z.log2 x / k + 1)).
Proof.
  intros. split; [lia|].
  assert (0 <= Z.log2 x / k) by (apply Z.div_pos; [apply Z.log2_nonneg|lia]).
  rewrite Z2Nat.id, <- Z.pow_mul_r by lia. apply Z.log2_lt_pow2; [lia|].
  pose proof (Z.mod_pos_bound (Z.log2 x) k ltac:(lia)).
  pose proof (Z.div_mod (Z.log2 x) k ltac:(lia)). nia.
Qed.

(** How many base-[2^k] digits the minimal representation has. *)
Lemma digit_count_le k n x :
  0 < k → 0 < x < 2 ^ (k * Z.of_nat n) → (Z.to_nat (Z.log2 x / k + 1) <= n)%nat.
Proof.
  intros ? [Hx Hlt]. apply Z.log2_lt_pow2 in Hlt; [|lia].
  assert (Z.log2 x / k < Z.of_nat n) by (apply Z.div_lt_upper_bound; lia). lia.
Qed.

Lemma to_bytes_be_eq x : wf x → to_bytes_be x = digits_be 256 32 x.
Proof.
  intros [??]. unfold to_bytes_be, biguint_to_bytes_be.
  destruct (Z.eqb_spec x 0) as [->|]; [reflexivity|]. rewrite length_digits_be.
  pose proof (digit_count_le 8 32 x ltac:(lia) ltac:(rewrite two256_eq in *; lia)) as Hc.
  pose proof (pow_digits 8 x ltac:(lia) ltac:(lia)) as Hp. change (2 ^ 8) with 256 in Hp.
  case_match; bool_to_prop.
  - by apply digits_be_pad.
  - f_equal. lia.
Qed.

(** [to_h160] gives the 20 bytes of a value that has no more. *)
Lemma to_h160_eq x : wf x → to_h160 x = if bool_decide (x < 2 ^ 160) then Some (digits_be 256 20 x) else None.
Proof.
  intros [Hx _]. unfold to_h160, biguint_to_bytes_be.
  destruct (Z.eqb_spec x 0) as [->|Hne]; [reflexivity|]. rewrite length_digits_be. pose proof (Z.log2_nonneg x). case_bool_decide as Hlt.
  - pose proof (digit_count_le 8 20 x ltac:(lia) ltac:(lia)) as Hc. pose proof (pow_digits 8 x ltac:(lia) ltac:(lia)) as Hp.
    change (2 ^ 8) with 256 in Hp. destruct (Nat.ltb_spec (Z.to_nat (Z.log2 x / 8 + 1)) 20).
    + rewrite digits_be_pad by (done || lia). by rewrite length_digits_be.
    + replace (Z.to_nat (Z.log2 x / 8 + 1)) with 20%nat by lia. by rewrite length_digits_be.
  - assert (160 <= Z.log2 x) by (apply Z.log2_le_pow2; lia). assert (20 <= Z.log2 x / 8) by (apply Z.div_le_lower_bound; lia).
    rewrite (proj2 (Nat.ltb_ge _ _)), length_digits_be, (proj2 (Nat.eqb_neq _ _)) by lia. done.
Qed.

Lemma length_to_bytes_be x : wf x → length (to_bytes_be x) = 32%nat.
Proof. intros. rewrite to_bytes_be_eq by done. apply length_digits_be. Qed.

Lemma to_bytes_be_ok x : wf x → digits_ok 256 (to_bytes_be x).
Proof. intros. rewrite to_bytes_be_eq by done. by apply digits_be_ok. Qed.

Lemma from_to_bytes_be x : wf x → from_bytes (to_bytes_be x) = x.
Proof.
  intros Hx. rewrite to_bytes_be_eq by done. apply undigits_digits_be; [lia|].
  unfold wf in Hx. rewrite two256_eq in Hx. done.
Qed.

Lemma wf_from_bytes b : digits_ok 256 b → (length b <= 32)%nat → wf (from_bytes b).
Proof.
  intros Hb ?. unfold wf, from_bytes.
  pose proof (undigits_be_bound 256 ltac:(lia) b Hb).
  assert (256 ^ Z.of_nat (length b) <= 256 ^ 32) by (apply Z.pow_le_mono_r; lia).
  rewrite two256_eq. change (2 ^ 256) with (256 ^ 32). lia.
Qed.

Lemma store_rev_eq v top tail :
  (length v <= S top)%nat →
  store_rev (replicate (S top) 0 ++ tail) top v
  = Some (replicate (S top - length v) 0 ++ reverse v ++ tail).
Proof.
  revert top tail; induction v as [|d v IH]; intros top tail Hlen; [destruct top; reflexivity|].
  simpl in Hlen. rewrite reverse_cons, <- app_assoc. simpl app at 3.
  destruct top as [|top].
  - destruct v; [done|simpl in Hlen; lia].
  - cbn [store_rev length].
    replace (<[S top:=d]> (replicate (S (S top)) 0 ++ tail))
      with (replicate (S top) 0 ++ d :: tail).
    + rewrite IH by lia. done.
    + rewrite (replicate_S_end (S top)), <- app_assoc, insert_app_r_alt by (rewrite length_replicate; lia).
      rewrite length_replicate, Nat.sub_diag. done.
Qed.

Lemma biguint_to_u32_digits_spec x : wf x →
  (length (biguint_to_u32_digits x) <= 8)%nat ∧
  undigits_le (2 ^ 32) (biguint_to_u32_digits x) = x.
Proof.
  intros [??]. unfold biguint_to_u32_digits.
  destruct (Z.eqb_spec x 0) as [->|]; [split; [simpl; lia|done]|].
  rewrite length_digits_le. split.
  - apply digit_count_le; rewrite two256_eq in *; lia.
  - rewrite undigits_digits_le by lia. apply Z.mod_small, pow_digits; lia.
Qed.

Lemma to_u32_digits_be_eq x : wf x →
  ∃ ds, to_u32_digits_be x = Some ds ∧ length ds = 8%nat ∧ undigits_be (2 ^ 32) ds = x.
Proof.
  intros Hx. pose proof (biguint_to_u32_digits_spec x Hx) as [Hl Hv].
  unfold to_u32_digits_be. pose proof (store_rev_eq (biguint_to_u32_digits x) 7 [] Hl) as E.
  rewrite app_nil_r in E. rewrite E. eexists; split; [done|]. split.
  - rewrite !length_app, length_replicate, length_reverse. simpl. lia.
  - rewrite undigits_be_zeros, app_nil_r. unfold undigits_be.
    by rewrite reverse_involutive.
Qed.

Lemma wf_exp x y : wf x → wf y → wf (exp x y).
Proof. intros ? [? _]. rewrite exp_eq by done. apply wf_mod. Qed.

Lemma wf_shift_left x n : wf x → 0 <= n → wf (shift_left x n).
Proof. intros. rewrite shift_left_eq by done. apply wf_mod. Qed.

Lemma wf_unchecked_sub x y : wf x → wf y → ∃ z, unchecked_sub x y = Some z ∧ wf z.
Proof. intros. rewrite unchecked_sub_eq by done. eauto using wf_mod. Qed.

Lemma wf_div_res x y z : wf x → wf y → div x y = Some z → wf z.
Proof. intros ? [? _]. by apply wf_div. Qed.

Lemma wf_modulo x y z : wf x → wf y → modulo x y = Some z → wf z.
Proof.
  intros [? _] Hy. unfold modulo. destruct (Z.eqb_spec y 0); [done|]. intros [= <-].
  by apply wf_rem_pos.
Qed.

Lemma wf_add_mod x y m z : wf x → wf y → wf m → add_mod x y m = Some z → wf z.
Proof.
  intros [? _] [? _] Hm. unfold add_mod. destruct (Z.eqb_spec m 0); [done|]. intros [= <-].
  apply wf_rem_pos; [lia|done..].
Qed.

Lemma wf_mul_mod x y m z : wf x → wf y → wf m → mul_mod x y m = Some z → wf z.
Proof.
  intros [? _] [? _] Hm. unfold mul_mod. destruct (Z.eqb_spec m 0); [done|]. intros [= <-].
  apply wf_rem_pos; [nia|done..].
Qed.

Lemma wf_sdiv x y : wf x → wf y → ∃ o, sdiv x y = Some o ∧ ∀ z, o = Some z → wf z.
Proof.
  intros. rewrite sdiv_eq by done. eexists; split; [done|]. intros z.
  case_bool_decide; [done|]. intros [= <-]. apply wf_mod.
Qed.

Lemma wf_smodulo x y : wf x → wf y → ∃ o, smodulo x y = Some o ∧ ∀ z, o = Some z → wf z.
Proof.
  intros. rewrite smodulo_eq by done. eexists; split; [done|]. intros z.
  case_bool_decide; [done|]. intros [= <-]. apply wf_mod.
Qed.

End Uint256.

(** ** Properties *)

Section spec.
Import Uint256.

(** C34: 256-bit integers are closed under the arithmetic, bitwise and shift
    operations of uint256.rs: on values below [2^256] each returns a value below
    [2^256] and none of them panics; subtraction, division and the modular
    operations fail (with [None]) exactly when the subtrahend is larger or the
    divisor is zero.  The conversion to 20 bytes, [to_h160], panics exactly on
    values of [2^160] and more. *)
Theorem uint256_closed (x y m n : Z) :
  wf x → wf y → wf m → 0 <= n →
  wf (add x y) ∧ wf (mul x y) ∧ wf (exp x y) ∧
  (∃ z, unchecked_sub x y = Some z ∧ wf z) ∧
  (∃ z, unary_minus x = Some z ∧ wf z) ∧
  wf (bitwise_neg x) ∧ wf (bitwise_and x y) ∧ wf (bitwise_or x y) ∧ wf (bitwise_xor x y) ∧
  wf (shift_left x n) ∧ wf (shift_right x n) ∧ wf (shift_arith x n) ∧
  (if bool_decide (y <= x) then ∃ z, sub x y = Some z ∧ wf z else sub x y = None) ∧
  (if bool_decide (y = 0) then div x y = None ∧ modulo x y = None
                               ∧ sdiv x y = Some None ∧ smodulo x y = Some None
   else (∃ z, div x y = Some z ∧ wf z) ∧ (∃ z, modulo x y = Some z ∧ wf z) ∧
        (∃ z, sdiv x y = Some (Some z) ∧ wf z) ∧ (∃ z, smodulo x y = Some (Some z) ∧ wf z)) ∧
  (if bool_decide (m = 0) then add_mod x y m = None ∧ mul_mod x y m = None
   else (∃ z, add_mod x y m = Some z ∧ wf z) ∧ (∃ z, mul_mod x y m = Some z ∧ wf z)) ∧
  (if bool_decide (x < 2 ^ 160) then ∃ b, to_h160 x = Some b ∧ length b = 20%nat ∧ from_bytes b = x else to_h160 x = None).
Proof.
  intros Hx Hy Hm Hn. pose proof Hx as [??]. pose proof Hy as [??]. pose proof Hm as [??].
  rewrite unchecked_sub_eq, unary_minus_eq, sub_eq, sdiv_eq, smodulo_eq by done.
  unfold div, modulo, add_mod, mul_mod.
  split_and!; eauto using wf_add, wf_mul, wf_mod, wf_bitwise_neg, wf_bitwise_and,
    wf_bitwise_or, wf_bitwise_xor, wf_shift_right, wf_shift_arith.
  - rewrite exp_eq by lia. apply wf_mod.
  - rewrite shift_left_eq by done. apply wf_mod.
  - case_bool_decide; [|done]. eexists; split; [done|]. unfold wf. lia.
  - destruct (Z.eqb_spec y 0); case_bool_decide; try done.
    split_and!; eauto using wf_mod, wf_rem_pos.
    eexists; split; [done|]. eapply wf_div with (x := x) (y := y); [done|lia|].
    unfold div. by destruct (Z.eqb_spec y 0).
  - destruct (Z.eqb_spec m 0); case_bool_decide; try done.
    split; eexists; (split; [done|]); (apply wf_rem_pos; [nia|done|done]).
  - rewrite to_h160_eq by done. case_bool_decide; [|done]. eexists. split; [done|]. split; [apply length_digits_be|].
    apply undigits_digits_be; [lia|]. change (256 ^ Z.of_nat 20) with (2 ^ 160). lia.
Qed.

Lemma uint256_closed_witness :
  wf 7 ∧ wf (two256 - 1) ∧ wf 5 ∧ wf (add 7 (two256 - 1)).
Proof.
  split; [by_eval|]. split; [by_eval|].
  split; [by_eval|].
  destruct (uint256_closed 7 (two256 - 1) 5 3) as (H & _); [by_eval..|exact H].
Defined.

(** C35: the unsigned operations are arithmetic modulo [2^256]: addition,
    wrapping subtraction, negation, multiplication, exponentiation and left
    shift agree with the integer operation reduced modulo [2^256], and
    bitwise negation is [2^256 - 1 - x]. *)
Theorem uint256_modular (x y n : Z) :
  wf x → wf y → 0 <= n →
  add x y = (x + y) mod 2 ^ 256 ∧
  unchecked_sub x y = Some ((x - y) mod 2 ^ 256) ∧
  unary_minus x = Some ((- x) mod 2 ^ 256) ∧
  mul x y = (x * y) mod 2 ^ 256 ∧
  exp x y = (x ^ y) mod 2 ^ 256 ∧
  shift_left x n = (x * 2 ^ n) mod 2 ^ 256 ∧
  bitwise_neg x = 2 ^ 256 - 1 - x.
Proof.
  intros Hx Hy Hn. pose proof Hy as [??]. rewrite <- two256_eq.
  split_and!; eauto using add_eq, unchecked_sub_eq, unary_minus_eq, mul_eq, exp_eq,
    shift_left_eq, bitwise_neg_eq.
Qed.

Lemma uint256_modular_witness :
  wf 3 ∧ wf (two256 - 1) ∧ unchecked_sub 3 (two256 - 1) = Some 4.
Proof.
  split; [by_eval|]. split; [by_eval|].
  destruct (uint256_modular 3 (two256 - 1) 2) as (_ & H & _); [by_eval..|].
  rewrite H. reflexivity.
Defined.

(** C36: the signed operations work on the two's-complement reading: division
    truncates and remainder follows the dividend, the comparison is the
    signed one, arithmetic shift right is floor division by a power of two,
    each result reduced to its 256-bit representation (so the minimum
    divided by minus one wraps to itself). *)
Theorem uint256_signed (x y n : Z) :
  wf x → wf y → y ≠ 0 → 0 <= n →
  - 2 ^ 255 <= to_signed x < 2 ^ 255 ∧
  to_signed x mod 2 ^ 256 = x ∧
  sdiv x y = Some (Some (Z.quot (to_signed x) (to_signed y) mod 2 ^ 256)) ∧
  smodulo x y = Some (Some (Z.rem (to_signed x) (to_signed y) mod 2 ^ 256)) ∧
  (s_less_than x y = true ↔ to_signed x < to_signed y) ∧
  shift_arith x n = (to_signed x / 2 ^ n) mod 2 ^ 256.
Proof.
  intros Hx Hy Hy0 Hn. rewrite <- two256_eq, <- two255_eq.
  pose proof (sdiv_eq x y Hx Hy) as Hd. pose proof (smodulo_eq x y Hx Hy) as Hm.
  rewrite bool_decide_eq_false_2 in Hd, Hm by done.
  split_and!; eauto using shift_arith_eq, to_signed_mod; [apply to_signed_range; done..|].
  unfold s_less_than. apply Z.ltb_lt.
Qed.

Lemma uint256_signed_witness :
  wf two255 ∧ wf (two256 - 1) ∧
  sdiv two255 (two256 - 1) =
  Some (Some (Z.quot (to_signed two255) (to_signed (two256 - 1)) mod 2 ^ 256)).
Proof.
  split; [by_eval|]. split; [by_eval|].
  destruct (uint256_signed two255 (two256 - 1) 2) as (_ & _ & H & _); [by_eval..|exact H].
Defined.

(** Byte and word codecs round-trip.  [to_bytes_be] always gives 32 bytes
    and [from_bytes] reads them back; reading any 32 bytes and writing them
    again gives the same bytes; [to_u32_digits_be] gives eight digits which,
    reversed, [from_u32_digits] reads back. *)
Theorem uint256_codec_roundtrip (x : Z) (b : list Z) :
  wf x → digits_ok 256 b → length b = 32%nat →
  length (to_bytes_be x) = 32%nat ∧ from_bytes (to_bytes_be x) = x ∧
  to_bytes_be (from_bytes b) = b ∧
  (∃ ds, to_u32_digits_be x = Some ds ∧ length ds = 8%nat ∧
         from_u32_digits (reverse ds) = x).
Proof.
  intros Hx Hb Hlen. split_and!.
  - by apply length_to_bytes_be.
  - by apply from_to_bytes_be.
  - rewrite to_bytes_be_eq by (apply wf_from_bytes; [done|lia]).
    by apply digits_undigits_be.
  - by apply to_u32_digits_be_eq.
Qed.

Lemma uint256_codec_roundtrip_witness :
  wf 258 ∧ from_bytes (to_bytes_be 258) = 258.
Proof.
  split; [by_eval|].
  destruct (uint256_codec_roundtrip 258 (replicate 32 7)) as (_ & H & _);
    [by_eval|apply Forall_replicate; lia|done|exact H].
Defined.

(** [_max_neg_int] is meant to be the most negative 256-bit integer
    [2^255], but raises one instead of two to the 255th power: it is 1. *)
Theorem max_neg_int_is_one : _max_neg_int = 1 ∧ _max_neg_int ≠ 2 ^ 255.
Proof. split; [reflexivity|]. vm_compute. congruence. Qed.

End spec.
