(* ===== verification/StringTab.v ===== *)
(** * String interning (src/src/stringtable.rs)

    The compiler names every identifier by the [StringId] its table gives
    it.  The state is the counter, the hash map from strings to ids and the
    vector from ids to strings; [StringId]s are [nat]. *)

From S2P Require Import Prelude.

Module StringTable.

Record t := mk {
  next_id : nat;
  table : gmap string nat;
  by_id : list string;
}.

Definition new : t := mk 0 ∅ [].

Definition get (st : t) (name : string) : nat * t :=
  match table st !! name with
  | Some id => (id, st)
  | None =>
      let new_id := next_id st in
      (new_id, mk (S new_id) (<[name := new_id]> (table st)) (by_id st ++ [name]))
  end.

Definition get_if_exists (st : t) (name : string) : option nat := table st !! name.

(** Indexing [by_id] out of range panics. *)
Definition name_from_id (st : t) (name : nat) : option string := by_id st !! name.

(** The map and the vector are inverse to each other, and the counter is the
    number of interned strings. *)
Record wf (st : t) : Prop := {
  wf_next : next_id st = length (by_id st);
  wf_inv : ∀ s i, table st !! s = Some i ↔ by_id st !! i = Some s;
}.

(** Tables a program can build: [get] is the only operation that changes one. *)
Inductive reachable : t → Prop :=
| reach_new : reachable new
| reach_get st name : reachable st → reachable (snd (get st name)).

Lemma wf_new : wf new.
Proof. split; [done|]. intros. simpl. by rewrite lookup_empty, lookup_nil. Qed.

Lemma wf_get st name : wf st → wf (snd (get st name)).
Proof.
  intros [Hn Hi]. unfold get. destruct (table st !! name) as [id|] eqn:E; [done|].
  assert (∀ i, by_id st !! i ≠ Some name) as Hfresh.
  { intros i Hi'. apply Hi in Hi'. congruence. }
  split; simpl.
  - rewrite length_app. simpl. lia.
  - intros s i. rewrite lookup_insert. case_decide as Hs.
    + subst s. rewrite lookup_app_Some. split.
      * intros [= <-]. right. rewrite Hn, Nat.sub_diag. done.
      * intros [H|[? H]]; [by apply Hfresh in H|].
        apply list_lookup_singleton_Some in H as [? _]. f_equal. lia.
    + rewrite Hi, lookup_app_Some. split; [by left|].
      intros [?|[? H]]; [done|]. apply list_lookup_singleton_Some in H as [_ ?]. congruence.
Qed.

Lemma reachable_wf st : reachable st → wf st.
Proof. induction 1; auto using wf_new, wf_get. Qed.

Lemma get_fst_table st name :
  table (snd (get st name)) !! name = Some (fst (get st name)).
Proof.
  unfold get. destruct (table st !! name) eqn:E; [done|]. simpl. apply lookup_insert_eq.
Qed.

(** Interning never changes the id or the name of what is already there. *)
Lemma get_preserves st name s i :
  table st !! s = Some i → table (snd (get st name)) !! s = Some i.
Proof.
  intros Hs. unfold get. destruct (table st !! name) eqn:E; [done|]. simpl.
  rewrite lookup_insert_ne; [done|]. congruence.
Qed.

(** The string table interns strings.  In every table the compiler can
    reach, [get] returns an id that names the string it was given
    ([name_from_id]), [get_if_exists] finds exactly that id afterwards, the
    ids of all earlier strings stay the same, a second [get] of the same
    string returns the same id and leaves the table alone, and two strings
    share an id only when they are equal. *)
Theorem interning st name s i :
  reachable st → table st !! s = Some i →
  let '(id, st') := get st name in
  name_from_id st' id = Some name ∧
  get_if_exists st' name = Some id ∧
  get_if_exists st' s = Some i ∧ name_from_id st' i = Some s ∧
  get st' name = (id, st') ∧
  (id = i ↔ name = s).
Proof.
  intros Hr Hs. pose proof (reachable_wf _ Hr) as Hwf.
  pose proof (wf_get st name Hwf) as [_ Hi].
  pose proof (get_fst_table st name) as Hg. pose proof (get_preserves st name s i Hs) as Hp.
  destruct (get st name) as [id st'] eqn:E. simpl in *.
  unfold name_from_id, get_if_exists. split_and!; [by apply Hi|done|done|by apply Hi|..].
  - unfold get. by rewrite Hg.
  - split; intros ->; [|congruence]. apply Hi in Hg, Hp. congruence.
Qed.

Lemma interning_witness :
  let st := snd (get (snd (get new "x")) "y") in
  reachable st ∧ fst (get st "x") = 0.
Proof.
  simpl. split; [repeat constructor|].
  pose proof (interning (snd (get (snd (get new "x")) "y")) "x" "x" 0
    (reach_get _ _ (reach_get _ _ reach_new)) eq_refl) as H.
  simpl in H. apply H. reflexivity.
Defined.

End StringTable.
