(* ===== verification/Pos.v ===== *)
(** * Source positions (src/src/pos.rs) and debug information

    Lines, columns and byte positions are u32 in the source; they are [Z]
    here, and [AddAssign] on them wraps around.  [DebugInfo]
    (src/src/compile/ast.rs) is carried by every instruction. *)

From Stdlib Require Import ZArith Lia.
From S2P Require Import Prelude.
Local Open Scope Z_scope.

Module Location.

Record t := mk { line : Z; column : Z; absolute : Z; file_id : Z }.

#[global] Instance eq_dec : EqDecision t.
Proof. solve_decision. Defined.

(** [self.0 += rhs.0] on a u32 wraps around in the release build. *)
Definition add_assign (x y : Z) : Z := (x + y) mod 2 ^ 32.

(** A character is its code point; [ch.len_utf8()] *)
Definition len_utf8 (ch : Z) : Z :=
  if ch <? 0x80 then 1 else if ch <? 0x800 then 2 else if ch <? 0x10000 then 3 else 4.

Definition newline : Z := 10.

Definition shift (l : t) (ch : Z) : t :=
  let l' := if ch =? newline then mk (add_assign (line l) 1) 1 (absolute l) (file_id l)
            else mk (line l) (add_assign (column l) 1) (absolute l) (file_id l) in
  mk (line l') (column l') (add_assign (absolute l') (len_utf8 ch)) (file_id l').

(** Scanning a text from a location. *)
Definition shift_all (l : t) (text : list Z) : t := foldl shift l text.

Lemma shift_all_line l text :
  newline ∉ text → 0 <= column l → column l + Z.of_nat (length text) < 2 ^ 32 →
  column (shift_all l text) = column l + Z.of_nat (length text) ∧ line (shift_all l text) = line l.
Proof.
  revert l. induction text as [|ch text IH]; intros l Hn Hc Hl; [cbn; lia|].
  apply not_elem_of_cons in Hn as [Hch Hn]. cbn [length] in *. rewrite Nat2Z.inj_succ in *.
  assert (column (shift l ch) = column l + 1 ∧ line (shift l ch) = line l) as [Hcol Hline].
  { unfold shift. rewrite (proj2 (Z.eqb_neq ch newline)) by done. cbn. unfold add_assign.
    by rewrite Z.mod_small by lia. }
  change (shift_all l (ch :: text)) with (shift_all (shift l ch) text).
  destruct (IH (shift l ch) Hn) as [-> ->]; [lia..|]. by rewrite Hcol, Hline; split; [lia|].
Qed.

(** Columns are documented as 0-indexed, and the scan of a file starts at
    column 0, but a newline sets the column to 1: on the first line the
    column of a position is the number of characters before it, on every
    later line it is one more than that. *)
Theorem column_base_differs l pre text :
  newline ∉ text → Z.of_nat (length text) < 2 ^ 32 - 1 →
  column (shift_all l (pre ++ newline :: text)) = 1 + Z.of_nat (length text) ∧
  (column l = 0 → column (shift_all l text) = Z.of_nat (length text)).
Proof.
  intros Hn Hl. split.
  - unfold shift_all. rewrite foldl_app. cbn [foldl]. fold (shift_all (shift (foldl shift l pre) newline) text).
    destruct (shift_all_line (shift (foldl shift l pre) newline) text Hn) as [-> _]; cbn; lia.
  - intros H0. destruct (shift_all_line l text Hn) as [-> _]; lia.
Qed.

Lemma column_base_differs_witness : column (shift_all (mk 0 0 0 0) ([97] ++ newline :: [98])) = 2.
Proof.
  apply (column_base_differs (mk 0 0 0 0) [97] [98]); [|by_eval].
  intros H. apply list_elem_of_In in H. vm_compute in H. destruct H as [H|H]; congruence || done.
Defined.

End Location.

(** The three inlining modes of src/src/compile/typecheck.rs. *)
Inductive InliningMode := InlineAlways | InlineAuto | InlineNever.

#[global] Instance InliningMode_eq_dec : EqDecision InliningMode.
Proof. solve_decision. Defined.

Record Attributes := mkAttributes {
  breakpoint : bool;
  inline : InliningMode;
  codegen_print : bool;
}.

Record DebugInfo := mkDebugInfo {
  location : option Location.t;
  attributes : Attributes;
}.

Definition DebugInfo_default : DebugInfo :=
  mkDebugInfo None (mkAttributes false InlineAuto false).

#[global] Instance Attributes_eq_dec : EqDecision Attributes.
Proof. solve_decision. Defined.
#[global] Instance DebugInfo_eq_dec : EqDecision DebugInfo.
Proof. solve_decision. Defined.

(** ** Spans of positions *)
Module Span.

(** [BytePos] positions, ordered as integers. *)
Record t := mk { start : Z; end_ : Z; expansion_id : Z }.

Definition new (s e : Z) : t := mk s e 0.

Definition eq (a b : t) : bool := (start a =? start b) && (end_ a =? end_ b).

Definition cmp (a b : t) : comparison :=
  match Z.compare (start a) (start b) with
  | Eq => Z.compare (end_ a) (end_ a)
  | ord => ord
  end.

Definition partial_cmp (a b : t) : option comparison :=
  match Z.compare (start a) (start b) with
  | Eq => Some (Z.compare (end_ a) (end_ a))
  | ord => Some ord
  end.

Definition contains (a b : t) : bool := (start a <=? start b) && (end_ b <=? end_ a).

Definition containment (s : t) (pos : Z) : comparison :=
  match Z.compare pos (start s), Z.compare pos (end_ s) with
  | Eq, _ | _, Eq | Gt, Lt => Eq
  | Lt, _ => Lt
  | _, Gt => Gt
  end.

Definition containment_exclusive (s : t) (pos : Z) : comparison :=
  if end_ s =? pos then Gt else containment s pos.

(** The outer option is the [assert!] on the expansion ids. *)
Definition merge (a b : t) : option (option t) :=
  if expansion_id a =? expansion_id b then
    if ((start a <=? start b) && (start b <? end_ a))
       || ((start b <=? start a) && (start a <? end_ b))
    then Some (Some (mk (Z.min (start a) (start b)) (Z.max (end_ a) (end_ b)) (expansion_id a)))
    else Some None
  else None.

(** Merging two spans.  For non-empty spans of the same expansion, [merge]
    gives a result exactly when the half-open ranges share a position, and
    the merged span contains both and no position outside the range they
    bound; spans of different expansions panic. *)
Theorem merge_spec a b :
  start a < end_ a → start b < end_ b → expansion_id a = expansion_id b →
  match merge a b with
  | Some (Some m) =>
      (∃ p, start a <= p < end_ a ∧ start b <= p < end_ b) ∧
      contains m a = true ∧ contains m b = true ∧
      (∀ p, start m <= p < end_ m → start a <= p < end_ a ∨ start b <= p < end_ b)
  | Some None => ¬ ∃ p, start a <= p < end_ a ∧ start b <= p < end_ b
  | None => False
  end.
Proof.
  intros Ha Hb He. unfold merge, contains. rewrite (proj2 (Z.eqb_eq _ _) He).
  destruct (_ || _) eqn:E; cbn [start end_ expansion_id].
  - apply orb_true_iff in E as [E|E]; bool_to_prop;
      (split; [first [exists (start b); lia | exists (start a); lia]|]);
      rewrite !andb_true_iff, !Z.leb_le; split_and!; try lia; intros p ?; lia.
  - bool_to_prop. intros (p & ? & ?).
    apply andb_false_iff in H as [?|?]; apply andb_false_iff in H0 as [?|?]; bool_to_prop; lia.
Qed.

Lemma merge_spec_witness :
  merge (new 1 5) (new 3 9) = Some (Some (new 1 9)) ∧ contains (new 1 9) (new 3 9) = true.
Proof.
  split; [reflexivity|].
  pose proof (merge_spec (new 1 5) (new 3 9) eq_refl eq_refl eq_refl) as H.
  vm_compute in H. destruct H as (_ & _ & H & _). exact H.
Defined.

(** The order of spans compares the end of the first span with itself, so
    two spans with the same start always compare as equal, although [==]
    distinguishes them when their ends differ: [Ord] is not consistent with
    [Eq]. *)
Theorem cmp_ignores_end s e1 e2 i1 i2 :
  cmp (mk s e1 i1) (mk s e2 i2) = Eq ∧
  (eq (mk s e1 i1) (mk s e2 i2) = true ↔ e1 = e2).
Proof.
  unfold cmp, eq. cbn [start end_]. rewrite Z.compare_refl, Z.compare_refl, Z.eqb_refl.
  split; [done|]. simpl. apply Z.eqb_eq.
Qed.

End Span.
