(* ===== verification/SourceLines.v ===== *)
(** * Lines of a source file (src/src/compile/source.rs, and the removal of
    comments in src/src/compile/mod.rs)

    [Lines] maps byte offsets to lines and columns.  Bytes and positions are
    [Z]; [BytePos], [Line] and [Column] are u32, and their conversions from
    usize wrap around. *)

From Stdlib Require Import ZArith Lia.
From S2P Require Import Prelude Pos.
Local Open Scope Z_scope.

Definition as_u32 (z : Z) : Z := z mod 2 ^ 32.

Module Lines.

Record t := mk { starting_bytes : list Z; end_ : Z }.

(** The index behind every newline; [i] is the index of the first byte. *)
Fixpoint newline_starts (i : Z) (src : list Z) : list Z :=
  match src with
  | [] => []
  | b :: src => (if b =? Location.newline then [as_u32 (i + 1)] else []) ++ newline_starts (i + 1) src
  end.

Definition new (src : list Z) : t := mk (as_u32 0 :: newline_starts 0 src) (Z.of_nat (length src)).

Definition line (l : t) (line_number : Z) : option Z := starting_bytes l !! Z.to_nat line_number.

(** The index of the first line that starts behind [byte], counted from [i]. *)
Fixpoint first_above (byte i : Z) (starts : list Z) : option Z :=
  match starts with
  | [] => None
  | s :: starts => if byte <? s then Some i else first_above byte (i + 1) starts
  end.

Definition line_number_at_byte (l : t) (byte : Z) : Z :=
  let num_lines := Z.of_nat (length (starting_bytes l)) in
  as_u32 (match first_above byte 0 (starting_bytes l) with Some i => i - 1 | None => num_lines - 1 end).

Definition location (l : t) (byte file_id : Z) : option Location.t :=
  if byte <=? end_ l then
    let line_index := line_number_at_byte l byte in
    line_byte ← line l line_index;
    Some (Location.mk line_index (as_u32 (as_u32 (byte - line_byte))) byte file_id)
  else None.

(** ** Specification *)
Definition count_newlines (src : list Z) : Z := Z.of_nat (length (filter (λ b, b = Location.newline) src)).
(** The bytes since the last newline, with [cur] before the text. *)
Fixpoint last_line (cur : Z) (src : list Z) : Z :=
  match src with
  | [] => cur
  | b :: src => last_line (if b =? Location.newline then 0 else cur + 1) src
  end.

Lemma count_cons b src : count_newlines (b :: src) = (if b =? Location.newline then 1 else 0) + count_newlines src.
Proof. unfold count_newlines. rewrite filter_cons. destruct (Z.eqb_spec b Location.newline); [rewrite decide_True by done|rewrite decide_False by done]; cbn [length]; lia. Qed.

Lemma count_nonneg src : 0 <= count_newlines src <= Z.of_nat (length src).
Proof. unfold count_newlines. pose proof (length_filter (λ b, b = Location.newline) src). lia. Qed.

Lemma newline_starts_length i src : Z.of_nat (length (newline_starts i src)) = count_newlines src.
Proof.
  revert i. induction src as [|b src IH]; intros i; [done|]. cbn [newline_starts]. rewrite length_app, count_cons, Nat2Z.inj_add, IH.
  by destruct (b =? _).
Qed.

Lemma as_u32_small z : 0 <= z < 2 ^ 32 → as_u32 z = z.
Proof. apply Z.mod_small. Qed.

Lemma starts_above i src s : 0 <= i → i + Z.of_nat (length src) < 2 ^ 32 → s ∈ newline_starts i src → i < s.
Proof.
  revert i. induction src as [|b src IH]; intros i Hi Hlen; cbn [newline_starts]; [by intros ?%elem_of_nil|].
  cbn [length] in Hlen. intros [Hs|Hs]%elem_of_app.
  - destruct (b =? _); [|by apply elem_of_nil in Hs]. apply list_elem_of_singleton in Hs as ->. rewrite as_u32_small; lia.
  - apply IH in Hs; lia.
Qed.

(** The first line behind [byte] comes after the newlines before [byte]. *)
Lemma first_above_count byte i src k : 0 <= i → i + Z.of_nat (length src) < 2 ^ 32 →
  from_option (λ j, j) (k + Z.of_nat (length (newline_starts i src))) (first_above byte k (newline_starts i src)) =
  k + count_newlines (take (Z.to_nat (byte - i)) src).
Proof.
  revert i k. induction src as [|b src IH]; intros i k Hi Hlen; cbn [length] in *.
  - rewrite take_nil. cbn. unfold count_newlines. cbn. lia.
  - assert (first_above byte k (newline_starts i (b :: src)) =
      if b =? Location.newline then if byte <? i + 1 then Some k else first_above byte (k + 1) (newline_starts (i + 1) src)
      else first_above byte k (newline_starts (i + 1) src)) as ->.
    { cbn [newline_starts]. destruct (b =? _); [|done]. cbn [app first_above]. by rewrite as_u32_small by lia. }
    rewrite newline_starts_length, count_cons, <- (newline_starts_length (i + 1)).
    destruct (Z.ltb_spec byte (i + 1)) as [Hb|Hb].
    + replace (Z.to_nat (byte - i)) with 0%nat by lia. rewrite take_0. change (count_newlines []) with 0.
      destruct (b =? _); [cbn; lia|]. specialize (IH (i + 1) k). replace (Z.to_nat (byte - (i + 1))) with 0%nat in IH by lia.
      rewrite take_0 in IH. change (count_newlines []) with 0 in IH. rewrite <- IH by lia. f_equal; lia.
    + replace (Z.to_nat (byte - i)) with (S (Z.to_nat (byte - (i + 1)))) by lia. rewrite firstn_cons, count_cons.
      destruct (b =? _).
      * rewrite !Z.add_assoc. rewrite <- (IH (i + 1) (k + 1)) by lia. f_equal; lia.
      * rewrite !Z.add_0_l, <- (IH (i + 1) k) by lia. done.
Qed.

(** The line of [byte] starts as many bytes before it as follow the last newline. *)
Lemma line_start byte i cur src : 0 <= cur <= i → i <= byte → i + Z.of_nat (length src) < 2 ^ 32 →
  byte <= i + Z.of_nat (length src) →
  ((i - cur) :: newline_starts i src) !! Z.to_nat (count_newlines (take (Z.to_nat (byte - i)) src)) =
  Some (byte - last_line cur (take (Z.to_nat (byte - i)) src)).
Proof.
  revert i cur. induction src as [|b src IH]; intros i cur Hcur Hi Hlen Hb; cbn [length] in *.
  - rewrite take_nil. change (Some (i - cur) = Some (byte - cur)). f_equal. lia.
  - destruct (decide (byte = i)) as [->|Hne].
    { by rewrite Z.sub_diag. }
    replace (Z.to_nat (byte - i)) with (S (Z.to_nat (byte - (i + 1)))) by lia. rewrite firstn_cons, count_cons. cbn [newline_starts last_line].
    pose proof (count_nonneg (take (Z.to_nat (byte - (i + 1))) src)). destruct (Z.eqb_spec b Location.newline) as [->|Hn].
    + rewrite Z2Nat.inj_add by lia. cbn [app Nat.add]. change (Z.to_nat 1) with 1%nat. cbn [Nat.add lookup list_lookup].
      rewrite as_u32_small by lia. specialize (IH (i + 1) 0). rewrite Z.sub_0_r in IH. apply IH; lia.
    + rewrite Z.add_0_l. cbn [app]. specialize (IH (i + 1) (cur + 1)). replace (i + 1 - (cur + 1)) with (i - cur) in IH by lia. apply IH; lia.
Qed.

Lemma last_line_bounds cur src : 0 <= cur → 0 <= last_line cur src <= cur + Z.of_nat (length src).
Proof.
  revert cur. induction src as [|b src IH]; intros cur Hc; cbn [last_line length]; [lia|].
  destruct (b =? _); [specialize (IH 0)|specialize (IH (cur + 1))]; lia.
Qed.

(** C23: source locations are right.  In a text of less than 4 GiB every byte
    offset, the end included, has a location: its line is the number of
    newlines before it, its column the number of bytes after the last of these;
    offsets behind the end have none. *)
Theorem location_correct src byte file_id : Z.of_nat (length src) < 2 ^ 32 → 0 <= byte →
  location (new src) byte file_id =
  if byte <=? Z.of_nat (length src) then
    let before := take (Z.to_nat byte) src in
    Some (Location.mk (count_newlines before) (last_line 0 before) byte file_id)
  else None.
Proof.
  intros Hlen Hbyte. unfold location, line, line_number_at_byte, new. cbn [end_ starting_bytes].
  destruct (Z.leb_spec byte (Z.of_nat (length src))) as [Hle|Hle]; [|done]. cbv zeta.
  pose proof (first_above_count byte 0 src 1 ltac:(lia) ltac:(lia)) as Hcount.
  pose proof (line_start byte 0 0 src ltac:(lia) ltac:(lia) ltac:(lia) ltac:(lia)) as Hstart. rewrite Z.sub_0_r in Hcount. rewrite !Z.sub_0_r in Hstart.
  pose proof (count_nonneg (take (Z.to_nat byte) src)) as Hnn. pose proof (length_take src (Z.to_nat byte)).
  pose proof (last_line_bounds 0 (take (Z.to_nat byte) src) ltac:(lia)) as Hlast.
  change (as_u32 0) with 0. cbn [first_above length]. destruct (Z.ltb_spec byte 0); [lia|]. rewrite Z.add_0_l.
  assert (match first_above byte 1 (newline_starts 0 src) with Some i => i - 1 | None => Z.of_nat (S (length (newline_starts 0 src))) - 1 end
          = count_newlines (take (Z.to_nat byte) src)) as ->.
  { destruct (first_above _ _ _); cbn in Hcount; lia. }
  rewrite as_u32_small by lia. rewrite Hstart. cbn. f_equal. f_equal. rewrite !(as_u32_small (_ - _)) by lia. lia.
Qed.

Lemma location_correct_witness : location (new [65; 10; 66; 67; 10; 68]) 3 7 = Some (Location.mk 1 1 3 7).
Proof. rewrite location_correct by (cbn; lia). reflexivity. Defined.

End Lines.

(** ** Comments *)
Definition slash : Z := 47.

(** [Regex::new("//.*").replace_all(&source, "")], where [.] is every
    character but a newline; [inside] a comment. *)
Fixpoint strip_comments (inside : bool) (src : list Z) : list Z :=
  match src with
  | [] => []
  | b :: rest =>
      if b =? Location.newline then b :: strip_comments false rest
      else if inside then strip_comments true rest
      else if (b =? slash) && bool_decide (head rest = Some slash) then strip_comments true rest
      else b :: strip_comments false rest
  end.

Fixpoint split_lines (src : list Z) : list (list Z) :=
  match src with
  | [] => [[]]
  | b :: src =>
      if b =? Location.newline then [] :: split_lines src
      else match split_lines src with l :: ls => (b :: l) :: ls | [] => [[b]] end
  end.

(** A line up to its first [//] *)
Fixpoint before_comment (line : list Z) : list Z :=
  match line with
  | [] => []
  | b :: rest => if (b =? slash) && bool_decide (head rest = Some slash) then [] else b :: before_comment rest
  end.

Lemma split_lines_cons src : ∃ l ls, split_lines src = l :: ls ∧ (head src = Some slash ↔ head l = Some slash).
Proof.
  destruct src as [|b src]; cbn [split_lines]; [by eexists _, _|].
  destruct (Z.eqb_spec b Location.newline) as [->|Hb]; [by eexists _, _|]. destruct (split_lines src) as [|l ls]; by eexists _, _.
Qed.

Lemma strip_lines src :
  split_lines (strip_comments false src) = before_comment <$> split_lines src ∧
  split_lines (strip_comments true src) = [] :: (before_comment <$> tail (split_lines src)).
Proof.
  induction src as [|b src [IH1 IH2]]; [done|]. cbn [strip_comments split_lines].
  destruct (split_lines_cons src) as (l & ls & Hs & Hhead). rewrite Hs in *. cbn [tail fmap list_fmap] in *.
  destruct (Z.eqb_spec b Location.newline) as [->|Hb].
  - cbn [split_lines]. rewrite Z.eqb_refl, IH1. done.
  - split; [|exact IH2]. cbn [fmap list_fmap before_comment].
    assert (bool_decide (head src = Some slash) = bool_decide (head l = Some slash)) as -> by (by apply bool_decide_ext).
    destruct ((b =? slash) && _); [exact IH2|]. cbn [split_lines]. destruct (Z.eqb_spec b Location.newline); [done|]. by rewrite IH1.
Qed.

(** Removing comments keeps the lines.  The text that is parsed has the
    lines of the source, each up to its first [//], so that the lines and columns
    of what is left are those of the source. *)
Theorem comments_keep_lines src : split_lines (strip_comments false src) = before_comment <$> split_lines src.
Proof. apply strip_lines. Qed.
