(* ===== verification/Opcodes.v ===== *)
(** * Instructions: labels and opcodes (src/src/mavm.rs)

    The virtual [Opcode]s the code generator emits, the [AVMOpcode]s the
    machine runs, their numeric and textual encodings, and the labels that
    stand for code addresses until linking.  Constructors carry the source's
    names inside a module named as the Rust type ([Type] is spelled [Type_]). *)

From Stdlib Require Import ZArith Lia.
From S2P Require Import Prelude.

(** ** Labels *)
Module Label.

Inductive t :=
| Func (sid : nat)
| Anon (n : nat)
| External (slot : nat)   (* slot in imported funcs list *)
| Evm (pc : nat).         (* program counter in EVM contract *)

#[global] Instance eq_dec : EqDecision t.
Proof. solve_decision. Defined.

#[global] Program Instance countable : Countable t :=
  inj_countable'
    (λ l, match l with
          | Func n => inl (inl n) | Anon n => inl (inr n)
          | External n => inr (inl n) | Evm n => inr (inr n) end)
    (λ s, match s with
          | inl (inl n) => Func n | inl (inr n) => Anon n
          | inr (inl n) => External n | inr (inr n) => Evm n end) _.
Next Obligation. by intros []. Qed.

(** The relocated label and the function offset it reaches. *)
Definition relocate (l : t) (int_offset ext_offset func_offset : nat) : t * nat :=
  match l with
  | Func sid => (Func (sid + func_offset), sid + func_offset)
  | Anon pc => (Anon (pc + int_offset), func_offset)
  | External slot => (External (slot + ext_offset), func_offset)
  | Evm _ => (l, func_offset)
  end.

End Label.

(** ** Fresh anonymous labels *)
Module LabelGenerator.

Record t := mk { next_label : nat }.

Definition new : t := mk 0.

Definition next (g : t) : Label.t * t :=
  (Label.Anon (next_label g), mk (next_label g + 1)).

(** [n] successive labels drawn from a generator. *)
Fixpoint draw (n : nat) (g : t) : list Label.t :=
  match n with
  | O => []
  | S n => let '(l, g') := next g in l :: draw n g'
  end.

End LabelGenerator.

(** ** AVM opcodes *)
Module AVMOpcode.

Inductive t :=
  | Zero | Add | Mul | Sub | Div | Sdiv | Mod | Smod | AddMod | MulMod | Exp | SignExtend
  | LessThan | GreaterThan | SLessThan | SGreaterThan | Equal | IsZero | BitwiseAnd
  | BitwiseOr | BitwiseXor | BitwiseNeg | Byte | ShiftLeft | ShiftRight | ShiftArith | Hash
  | Type_ | EthHash2 | Keccakf | Sha256f | Ripemd160f | Blake2f | Pop | Spush | Rpush
  | Rset | Jump | Cjump | StackEmpty | PCpush | AuxPush | AuxPop | AuxStackEmpty | Noop
  | ErrPush | ErrSet | Dup0 | Dup1 | Dup2 | Swap1 | Swap2 | Tget | Tset | Tlen | Xget
  | Xset | Breakpoint | Log | Send | InboxPeek | Inbox | Error | Halt | SetGas | PushGas
  | ErrCodePoint | PushInsn | PushInsnImm | OpenInsn | Sideload | EcRecover | EcAdd | EcMul
  | EcPairing | DebugPrint | NewBuffer | GetBuffer8 | GetBuffer64 | GetBuffer256
  | SetBuffer8 | SetBuffer64 | SetBuffer256.

Definition to_number (op : t) : Z :=
  match op with
  | Zero => 0
  | Add => 0x01
  | Mul => 0x02
  | Sub => 0x03
  | Div => 0x04
  | Sdiv => 0x05
  | Mod => 0x06
  | Smod => 0x07
  | AddMod => 0x08
  | MulMod => 0x09
  | Exp => 0x0a
  | SignExtend => 0x0b
  | LessThan => 0x10
  | GreaterThan => 0x11
  | SLessThan => 0x12
  | SGreaterThan => 0x13
  | Equal => 0x14
  | IsZero => 0x15
  | BitwiseAnd => 0x16
  | BitwiseOr => 0x17
  | BitwiseXor => 0x18
  | BitwiseNeg => 0x19
  | Byte => 0x1a
  | ShiftLeft => 0x1b
  | ShiftRight => 0x1c
  | ShiftArith => 0x1d
  | Hash => 0x20
  | Type_ => 0x21
  | EthHash2 => 0x22
  | Keccakf => 0x23
  | Sha256f => 0x24
  | Ripemd160f => 0x25
  | Blake2f => 0x26
  | Pop => 0x30
  | Spush => 0x31
  | Rpush => 0x32
  | Rset => 0x33
  | Jump => 0x34
  | Cjump => 0x35
  | StackEmpty => 0x36
  | PCpush => 0x37
  | AuxPush => 0x38
  | AuxPop => 0x39
  | AuxStackEmpty => 0x3a
  | Noop => 0x3b
  | ErrPush => 0x3c
  | ErrSet => 0x3d
  | Dup0 => 0x40
  | Dup1 => 0x41
  | Dup2 => 0x42
  | Swap1 => 0x43
  | Swap2 => 0x44
  | Tget => 0x50
  | Tset => 0x51
  | Tlen => 0x52
  | Xget => 0x53
  | Xset => 0x54
  | Breakpoint => 0x60
  | Log => 0x61
  | Send => 0x70
  | InboxPeek => 0x71
  | Inbox => 0x72
  | Error => 0x73
  | Halt => 0x74
  | SetGas => 0x75
  | PushGas => 0x76
  | ErrCodePoint => 0x77
  | PushInsn => 0x78
  | PushInsnImm => 0x79
  | OpenInsn => 0x7a
  | Sideload => 0x7b
  | EcRecover => 0x80
  | EcAdd => 0x81
  | EcMul => 0x82
  | EcPairing => 0x83
  | DebugPrint => 0x90
  | NewBuffer => 0xa0
  | GetBuffer8 => 0xa1
  | GetBuffer64 => 0xa2
  | GetBuffer256 => 0xa3
  | SetBuffer8 => 0xa4
  | SetBuffer64 => 0xa5
  | SetBuffer256 => 0xa6
  end%Z.

Definition from_number (num : Z) : option t :=
  match num with
  | 0x00 => Some Zero
  | 0x01 => Some Add
  | 0x02 => Some Mul
  | 0x03 => Some Sub
  | 0x04 => Some Div
  | 0x05 => Some Sdiv
  | 0x06 => Some Mod
  | 0x07 => Some Smod
  | 0x08 => Some AddMod
  | 0x09 => Some MulMod
  | 0x0a => Some Exp
  | 0x0b => Some SignExtend
  | 0x10 => Some LessThan
  | 0x11 => Some GreaterThan
  | 0x12 => Some SLessThan
  | 0x13 => Some SGreaterThan
  | 0x14 => Some Equal
  | 0x15 => Some IsZero
  | 0x16 => Some BitwiseAnd
  | 0x17 => Some BitwiseOr
  | 0x18 => Some BitwiseXor
  | 0x19 => Some BitwiseNeg
  | 0x1a => Some Byte
  | 0x1b => Some ShiftLeft
  | 0x1c => Some ShiftRight
  | 0x1d => Some ShiftArith
  | 0x20 => Some Hash
  | 0x21 => Some Type_
  | 0x22 => Some EthHash2
  | 0x23 => Some Keccakf
  | 0x24 => Some Sha256f
  | 0x25 => Some Ripemd160f
  | 0x26 => Some Blake2f
  | 0x30 => Some Pop
  | 0x31 => Some Spush
  | 0x32 => Some Rpush
  | 0x33 => Some Rset
  | 0x34 => Some Jump
  | 0x35 => Some Cjump
  | 0x36 => Some StackEmpty
  | 0x37 => Some PCpush
  | 0x38 => Some AuxPush
  | 0x39 => Some AuxPop
  | 0x3a => Some AuxStackEmpty
  | 0x3b => Some Noop
  | 0x3c => Some ErrPush
  | 0x3d => Some ErrSet
  | 0x40 => Some Dup0
  | 0x41 => Some Dup1
  | 0x42 => Some Dup2
  | 0x43 => Some Swap1
  | 0x44 => Some Swap2
  | 0x50 => Some Tget
  | 0x51 => Some Tset
  | 0x52 => Some Tlen
  | 0x53 => Some Xget
  | 0x54 => Some Xset
  | 0x60 => Some Breakpoint
  | 0x61 => Some Log
  | 0x70 => Some Send
  | 0x71 => Some InboxPeek
  | 0x72 => Some Inbox
  | 0x73 => Some Error
  | 0x74 => Some Halt
  | 0x75 => Some SetGas
  | 0x76 => Some PushGas
  | 0x77 => Some ErrCodePoint
  | 0x78 => Some PushInsn
  | 0x79 => Some PushInsnImm
  | 0x7a => Some OpenInsn
  | 0x7b => Some Sideload
  | 0x80 => Some EcRecover
  | 0x81 => Some EcAdd
  | 0x82 => Some EcMul
  | 0x83 => Some EcPairing
  | 0x90 => Some DebugPrint
  | 0xa0 => Some NewBuffer
  | 0xa1 => Some GetBuffer8
  | 0xa2 => Some GetBuffer64
  | 0xa3 => Some GetBuffer256
  | 0xa4 => Some SetBuffer8
  | 0xa5 => Some SetBuffer64
  | 0xa6 => Some SetBuffer256
  | _ => None
  end%Z.

Definition to_name (op : t) : string :=
  match op with
  | Rpush => "rpush"
  | Rset => "rset"
  | Spush => "spush"
  | Tset => "tset"
  | Tget => "tget"
  | Pop => "pop"
  | StackEmpty => "stackempty"
  | AuxPush => "auxpush"
  | AuxPop => "auxpop"
  | AuxStackEmpty => "auxstackempty"
  | Xget => "xget"
  | Xset => "xset"
  | Dup0 => "dup0"
  | Dup1 => "dup1"
  | Dup2 => "dup2"
  | Swap1 => "swap1"
  | Swap2 => "swap2"
  | BitwiseNeg => "bitwiseneg"
  | Hash => "hash"
  | EthHash2 => "ethhash2"
  | Type_ => "type"
  | Keccakf => "keccakf"
  | Sha256f => "sha256f"
  | Ripemd160f => "ripemd160f"
  | Blake2f => "blake2f"
  | Tlen => "length"
  | Add => "add"
  | Sub => "sub"
  | Mul => "mul"
  | Div => "div"
  | Mod => "mod"
  | Sdiv => "sdiv"
  | Smod => "smod"
  | AddMod => "addmod"
  | MulMod => "mulmod"
  | Exp => "exp"
  | LessThan => "lt"
  | GreaterThan => "gt"
  | SLessThan => "slt"
  | SGreaterThan => "sgt"
  | Equal => "eq"
  | IsZero => "iszero"
  | Byte => "byte"
  | SignExtend => "signextend"
  | ShiftLeft => "shl"
  | ShiftRight => "shr"
  | ShiftArith => "sar"
  | BitwiseAnd => "bitwiseand"
  | BitwiseOr => "bitwiseor"
  | BitwiseXor => "bitwisexor"
  | Noop => "noop"
  | ErrPush => "errpush"
  | Inbox => "inbox"
  | Error => "error"
  | Zero => "zero"
  | Halt => "halt"
  | InboxPeek => "inboxpeek"
  | Jump => "jump"
  | Cjump => "cjump"
  | PCpush => "pcpush"
  | Breakpoint => "breakpoint"
  | Log => "log"
  | Send => "send"
  | ErrCodePoint => "errcodept"
  | PushInsn => "pushinsn"
  | PushInsnImm => "pushinsnimm"
  | OpenInsn => "openinsn"
  | DebugPrint => "debugprint"
  | SetGas => "setgas"
  | PushGas => "pushgas"
  | ErrSet => "errset"
  | Sideload => "sideload"
  | EcRecover => "ecrecover"
  | EcAdd => "ecadd"
  | EcMul => "ecmul"
  | EcPairing => "ecpairing"
  | NewBuffer => "newbuffer"
  | GetBuffer8 => "getbuffer8"
  | GetBuffer64 => "getbuffer64"
  | GetBuffer256 => "getbuffer256"
  | SetBuffer8 => "setbuffer8"
  | SetBuffer64 => "setbuffer64"
  | SetBuffer256 => "setbuffer256"
  end.

Lemma from_to_number op : from_number (to_number op) = Some op.
Proof. by destruct op. Qed.

#[global] Instance to_number_inj : Inj (=) (=) to_number.
Proof.
  intros o1 o2 E. enough (Some o1 = Some o2) by congruence.
  by rewrite <- !from_to_number, E.
Qed.

(** Equality of opcodes is equality of their numbers. *)
#[global] Instance eq_dec : EqDecision t.
Proof.
  intros o1 o2. destruct (decide (to_number o1 = to_number o2)) as [E|E].
  - left. by apply (inj to_number).
  - right. congruence.
Defined.

(** All opcodes, in numeric order. *)
Definition all : list t :=
  [Zero; Add; Mul; Sub; Div; Sdiv; Mod; Smod; AddMod; MulMod; Exp; SignExtend; LessThan;
   GreaterThan; SLessThan; SGreaterThan; Equal; IsZero; BitwiseAnd; BitwiseOr; BitwiseXor;
   BitwiseNeg; Byte; ShiftLeft; ShiftRight; ShiftArith; Hash; Type_; EthHash2; Keccakf;
   Sha256f; Ripemd160f; Blake2f; Pop; Spush; Rpush; Rset; Jump; Cjump; StackEmpty; PCpush;
   AuxPush; AuxPop; AuxStackEmpty; Noop; ErrPush; ErrSet; Dup0; Dup1; Dup2; Swap1; Swap2;
   Tget; Tset; Tlen; Xget; Xset; Breakpoint; Log; Send; InboxPeek; Inbox; Error; Halt;
   SetGas; PushGas; ErrCodePoint; PushInsn; PushInsnImm; OpenInsn; Sideload; EcRecover;
   EcAdd; EcMul; EcPairing; DebugPrint; NewBuffer; GetBuffer8; GetBuffer64; GetBuffer256;
   SetBuffer8; SetBuffer64; SetBuffer256].

Lemma elem_of_all op : op ∈ all.
Proof. destruct op; cbv [all]; repeat (apply list_elem_of_here || apply list_elem_of_further). Qed.

End AVMOpcode.

(** ** Virtual opcodes *)
Module Opcode.

Inductive t :=
| GetLocal
| SetLocal
| MakeFrame (nargs ntotal : nat) (return_address : bool)
| Label (l : Label.t)
| PushExternal (idx : nat)   (* index in imported_funcs *)
| TupleGet (size : nat)
| TupleSet (size : nat)
| ArrayGet
| UncheckedFixedArrayGet (size : nat)
| GetGlobalVar (idx : nat)
| SetGlobalVar (idx : nat)
| Return
| UnaryMinus
| Len
| LogicalAnd
| LogicalOr
| AVM (op : AVMOpcode.t).   (* Opcode::AVMOpcode *)

#[global] Instance eq_dec : EqDecision t.
Proof. solve_decision. Defined.

Definition is_pure (op : t) : bool :=
  match op with
  | AVM AVMOpcode.Log
  | AVM AVMOpcode.Inbox
  | AVM AVMOpcode.InboxPeek
  | AVM AVMOpcode.Send
  | AVM AVMOpcode.Rset
  | AVM AVMOpcode.Rpush
  | AVM AVMOpcode.PushInsn
  | AVM AVMOpcode.PushInsnImm
  | AVM AVMOpcode.ErrCodePoint
  | AVM AVMOpcode.ErrSet
  | AVM AVMOpcode.ErrPush
  | AVM AVMOpcode.SetGas
  | AVM AVMOpcode.PushGas
  | AVM AVMOpcode.Jump
  | AVM AVMOpcode.Cjump
  | AVM AVMOpcode.AuxPop
  | AVM AVMOpcode.AuxPush
  | AVM AVMOpcode.Sideload => false
  | _ => true
  end.

(** The arms of the [match] on the name, in source order. *)
Definition from_name_arms : list (string * t) := [
  ("rget", AVM AVMOpcode.Rpush);
  ("rset", AVM AVMOpcode.Rset);
  ("spush", AVM AVMOpcode.Spush);
  ("tset", AVM AVMOpcode.Tset);
  ("tget", AVM AVMOpcode.Tget);
  ("tlen", AVM AVMOpcode.Tlen);
  ("pop", AVM AVMOpcode.Pop);
  ("stackempty", AVM AVMOpcode.StackEmpty);
  ("auxpush", AVM AVMOpcode.AuxPush);
  ("auxpop", AVM AVMOpcode.AuxPop);
  ("auxstackempty", AVM AVMOpcode.AuxStackEmpty);
  ("xget", AVM AVMOpcode.Xget);
  ("xset", AVM AVMOpcode.Xset);
  ("dup0", AVM AVMOpcode.Dup0);
  ("dup1", AVM AVMOpcode.Dup1);
  ("dup2", AVM AVMOpcode.Dup2);
  ("swap1", AVM AVMOpcode.Swap1);
  ("swap2", AVM AVMOpcode.Swap2);
  ("unaryminus", UnaryMinus);
  ("bitwiseneg", AVM AVMOpcode.BitwiseNeg);
  ("hash", AVM AVMOpcode.Hash);
  ("ethhash2", AVM AVMOpcode.EthHash2);
  ("keccakf", AVM AVMOpcode.Keccakf);
  ("sha256f", AVM AVMOpcode.Sha256f);
  ("ripemd160f", AVM AVMOpcode.Ripemd160f);
  ("blake2f", AVM AVMOpcode.Blake2f);
  ("length", AVM AVMOpcode.Tlen);
  ("add", AVM AVMOpcode.Add);
  ("sub", AVM AVMOpcode.Sub);
  ("mul", AVM AVMOpcode.Mul);
  ("div", AVM AVMOpcode.Div);
  ("mod", AVM AVMOpcode.Mod);
  ("sdiv", AVM AVMOpcode.Sdiv);
  ("smod", AVM AVMOpcode.Smod);
  ("exp", AVM AVMOpcode.Exp);
  ("lt", AVM AVMOpcode.LessThan);
  ("gt", AVM AVMOpcode.GreaterThan);
  ("slt", AVM AVMOpcode.SLessThan);
  ("sgt", AVM AVMOpcode.SGreaterThan);
  ("eq", AVM AVMOpcode.Equal);
  ("iszero", AVM AVMOpcode.IsZero);
  ("byte", AVM AVMOpcode.Byte);
  ("signextend", AVM AVMOpcode.SignExtend);
  ("shl", AVM AVMOpcode.ShiftLeft);
  ("shr", AVM AVMOpcode.ShiftRight);
  ("sar", AVM AVMOpcode.ShiftArith);
  ("bitwiseand", AVM AVMOpcode.BitwiseAnd);
  ("bitwiseor", AVM AVMOpcode.BitwiseOr);
  ("bitwisexor", AVM AVMOpcode.BitwiseXor);
  ("logicaland", LogicalAnd);
  ("logicalor", LogicalOr);
  ("inbox", AVM AVMOpcode.Inbox);
  ("inboxpeek", AVM AVMOpcode.InboxPeek);
  ("jump", AVM AVMOpcode.Jump);
  ("log", AVM AVMOpcode.Log);
  ("send", AVM AVMOpcode.Send);
  ("errcodept", AVM AVMOpcode.ErrCodePoint);
  ("pushinsn", AVM AVMOpcode.PushInsn);
  ("pushinsnimm", AVM AVMOpcode.PushInsnImm);
  ("openinsn", AVM AVMOpcode.OpenInsn);
  ("debugprint", AVM AVMOpcode.DebugPrint);
  ("setgas", AVM AVMOpcode.SetGas);
  ("pushgas", AVM AVMOpcode.PushGas);
  ("errset", AVM AVMOpcode.ErrSet);
  ("sideload", AVM AVMOpcode.Sideload);
  ("ecrecover", AVM AVMOpcode.EcRecover);
  ("ecadd", AVM AVMOpcode.EcAdd);
  ("ecmul", AVM AVMOpcode.EcMul);
  ("ecpairing", AVM AVMOpcode.EcPairing);
  ("addmod", AVM AVMOpcode.AddMod);
  ("mulmod", AVM AVMOpcode.MulMod)].

(** The first arm with that name; a name without an arm panics. *)
Fixpoint first_arm (name : string) (arms : list (string * t)) : option t :=
  match arms with
  | [] => None
  | (n, op) :: arms => if bool_decide (n = name) then Some op else first_arm name arms
  end.

Definition from_name (name : string) : option t := first_arm name from_name_arms.

Definition to_name (op : t) : string :=
  match op with
  | AVM avm => AVMOpcode.to_name avm
  | UnaryMinus => "unaryminus"
  | LogicalAnd => "logicaland"
  | LogicalOr => "logicalor"
  | _ => "Unknown"
  end.

End Opcode.
(** ** Facts *)

Lemma from_number_inv n op : AVMOpcode.from_number n = Some op → AVMOpcode.to_number op = n.
Proof. unfold AVMOpcode.from_number. intros. repeat case_match; simplify_eq; reflexivity. Qed.

Lemma to_number_byte op : (0 <= AVMOpcode.to_number op < 256)%Z.
Proof. destruct op; vm_compute; split; congruence. Qed.

(** The opcodes [Opcode::from_name] has no arm for under their own name:
    they cannot be written by name in an asm block. *)
Definition not_in_asm : list AVMOpcode.t :=
  [AVMOpcode.Zero; AVMOpcode.Type_; AVMOpcode.Rpush;
   AVMOpcode.Cjump; AVMOpcode.PCpush; AVMOpcode.Noop;
   AVMOpcode.ErrPush; AVMOpcode.Breakpoint; AVMOpcode.Error;
   AVMOpcode.Halt; AVMOpcode.NewBuffer; AVMOpcode.GetBuffer8;
   AVMOpcode.GetBuffer64; AVMOpcode.GetBuffer256; AVMOpcode.SetBuffer8;
   AVMOpcode.SetBuffer64; AVMOpcode.SetBuffer256].

Lemma relocate_inj l1 l2 i e f :
  (Label.relocate l1 i e f).1 = (Label.relocate l2 i e f).1 → l1 = l2.
Proof. destruct l1, l2; simpl; intros [=]; f_equal; lia. Qed.

Lemma draw_elem n g l :
  l ∈ LabelGenerator.draw n g →
  ∃ k, l = Label.Anon k ∧ LabelGenerator.next_label g <= k.
Proof.
  revert g; induction n as [|n IH]; intros g; simpl; [by intros ?%elem_of_nil|].
  intros [->|H]%elem_of_cons; [eauto|].
  apply IH in H as (k & -> & Hk). simpl in Hk. exists k. split; [done|lia].
Qed.

(** ** Properties *)

(** The opcode numbering is a bijection between the opcodes and the codes
    [from_number] accepts: every opcode's number fits a byte and decodes to
    that opcode, and a code that decodes to an opcode is that opcode's
    number. *)
Theorem opcode_number_roundtrip op n :
  (0 <= AVMOpcode.to_number op < 256)%Z ∧
  AVMOpcode.from_number (AVMOpcode.to_number op) = Some op ∧
  (AVMOpcode.from_number n = Some op ↔ n = AVMOpcode.to_number op).
Proof.
  split_and!; [apply to_number_byte..|apply AVMOpcode.from_to_number|].
  split; [by intros ?%from_number_inv|intros ->; apply AVMOpcode.from_to_number].
Qed.

(** Names and asm parsing.  For every AVM opcode, parsing the name
    [to_name] prints gives the opcode back unless the opcode is one of the
    seventeen [not_in_asm] ones, where it panics (among them [Rpush], which
    prints as "rpush" and is parsed under "rget"); and every name that parses
    is the printed name of the opcode it gives, apart from the aliases "rget"
    and "tlen". *)
Theorem opcode_name_roundtrip op name o :
  Opcode.from_name (AVMOpcode.to_name op) =
    (if bool_decide (op ∈ not_in_asm) then None else Some (Opcode.AVM op)) ∧
  (Opcode.from_name name = Some o →
   Opcode.to_name o = name ∨ name = "rget" ∨ name = "tlen").
Proof.
  split; [by destruct op|].
  assert (Forall (λ p : string * Opcode.t,
            Opcode.to_name p.2 = p.1 ∨ p.1 = "rget" ∨ p.1 = "tlen") Opcode.from_name_arms) as Hall.
  { repeat (constructor; [vm_compute; tauto|]). constructor. }
  unfold Opcode.from_name. induction Hall as [|[n o'] arms Ho _ IH]; simpl in *; [done|].
  case_bool_decide; [|done]. intros [= <-]. by subst.
Qed.

(** The name-parsing half of the property has a hypothesis. *)
Lemma opcode_name_roundtrip_witness :
  Opcode.from_name "length" = Some (Opcode.AVM AVMOpcode.Tlen) ∧
  (Opcode.to_name (Opcode.AVM AVMOpcode.Tlen) = "length" ∨
   "length" = "rget" ∨ "length" = "tlen").
Proof.
  split; [reflexivity|].
  apply (opcode_name_roundtrip AVMOpcode.Add "length" (Opcode.AVM AVMOpcode.Tlen)).
  reflexivity.
Defined.

(** Labels drawn from one [LabelGenerator] are pairwise distinct, and
    relocation keeps distinct labels of a program distinct. *)
Theorem labels_distinct n g (ls : list Label.t) i e f :
  NoDup (LabelGenerator.draw n g) ∧
  (NoDup ls → NoDup ((λ l, (Label.relocate l i e f).1) <$> ls)).
Proof.
  split.
  - revert g; induction n as [|n IH]; intros g; simpl; [constructor|].
    constructor; [|apply IH]. intros (k & [= ->] & Hk)%draw_elem. simpl in Hk. lia.
  - intros. apply NoDup_fmap_2; [|done]. intros l1 l2. apply relocate_inj.
Qed.

Lemma labels_distinct_witness :
  NoDup [Label.Anon 0; Label.Func 0] ∧
  NoDup ((λ l, (Label.relocate l 3 4 5).1) <$> [Label.Anon 0; Label.Func 0]).
Proof.
  assert (NoDup [Label.Anon 0; Label.Func 0]) as H by (apply (bool_decide_unpack _); vm_compute; done).
  split; [exact H|]. apply (labels_distinct 2 LabelGenerator.new [Label.Anon 0; Label.Func 0] 3 4 5).
  exact H.
Defined.
