(* ===== verification/Crypto.v ===== *)
(** * Code the repository only calls: hash functions and curves

    The emulator takes its cryptography from crates that are not part of the
    repository (ethers-core, keccak, rust-crypto, parity-bn).  Those functions
    are the methods of the class [Crypto]; every definition that uses one
    takes the class as an argument.  [CryptoOk] states what the code relies
    on: the documented sizes of the results.  Bytes and words are [Z]. *)

From Stdlib Require Import ZArith Lia.
From S2P Require Import Prelude.
Local Open Scope Z_scope.

Class Crypto := {
  (** ethers_core::utils::keccak256: 32 bytes *)
  keccak256 : list Z → list Z;
  (** keccak::f1600: the permutation of 25 64-bit words *)
  f1600 : list Z → list Z;
  (** crypto::sha2::sha256_digest_block_u32 on the state (8 words) and a
      block (16 words) *)
  sha256_digest_block_u32 : list Z → list Z → list Z;
  (** ethers_core Signature::recover of the 32-byte r and s, v, and the
      message hash: the 20-byte address, or an error *)
  sig_recover : list Z → list Z → Z → list Z → option (list Z);
}.

Class CryptoOk `{Crypto} : Prop := {
  keccak256_ok b : length (keccak256 b) = 32%nat ∧ digits_ok 256 (keccak256 b);
  f1600_ok ws : length (f1600 ws) = length ws ∧ digits_ok (2 ^ 64) (f1600 ws);
  sha256_ok st blk : length (sha256_digest_block_u32 st blk) = length st ∧
    digits_ok (2 ^ 32) (sha256_digest_block_u32 st blk);
  sig_recover_ok r s v h a : sig_recover r s v h = Some a →
    length a = 20%nat ∧ digits_ok 256 a;
}.

(** A concrete instance, for evaluating the model on examples: the "hash" is
    the 32 lowest base-256 digits of a polynomial in the bytes. *)
Definition toy_hash (b : list Z) : list Z :=
  digits_be 256 32 (foldl (λ acc x, (acc * 1000003 + x + 1) mod 2 ^ 256) 7 b).

Definition toy_crypto : Crypto := {|
  keccak256 := toy_hash;
  f1600 ws := (λ w, (w + 1) mod 2 ^ 64) <$> ws;
  sha256_digest_block_u32 st blk := (λ w, (w + 1) mod 2 ^ 32) <$> st;
  sig_recover r s v h := if v =? 27 then Some (digits_be 256 20 1) else None;
|}.

Lemma fmap_mod_ok m f (ws : list Z) : 0 < m → digits_ok m ((λ w, f w mod m) <$> ws).
Proof. intros. apply Forall_fmap, Forall_true. intros. by apply Z.mod_pos_bound. Qed.

#[global] Instance toy_crypto_ok : @CryptoOk toy_crypto.
Proof.
  split.
  - intros b. split; [apply length_digits_be|by apply digits_be_ok].
  - intros ws. split; [apply length_fmap|by apply fmap_mod_ok].
  - intros st blk. split; [apply length_fmap|by apply fmap_mod_ok].
  - intros r s v h a. cbn [sig_recover toy_crypto]. case_match; intros; simplify_eq.
    split; [apply length_digits_be|by apply digits_be_ok].
Qed.

(** ** The parity-bn crate: the alt_bn128 curve *)
Class Curve := {
  Fq : Type;
  fq_from_slice : list Z → option Fq;      (* Fq::from_slice: error when not reduced *)
  fq_is_zero : Fq → bool;
  fq_to_big_endian : Fq → list Z;          (* 32 bytes *)
  Fr : Type;
  fr_from_slice : list Z → option Fr;
  G1 : Type;
  g1_zero : G1;
  affine_g1_new : Fq → Fq → option G1;     (* AffineG1::new(x, y)?.into() *)
  g1_add : G1 → G1 → G1;
  g1_mul : G1 → Fr → G1;
  affine_g1_from_jacobian : G1 → option (Fq * Fq);
  Fq2 : Type;
  fq2_new : Fq → Fq → Fq2;
  fq2_is_zero : Fq2 → bool;
  G2 : Type;
  g2_zero : G2;
  affine_g2_new : Fq2 → Fq2 → option G2;
  Gt : Type;
  gt_one : Gt;
  gt_mul : Gt → Gt → Gt;
  gt_eqb : Gt → Gt → bool;
  pairing : G1 → G2 → Gt;
}.

Class CurveOk `{Curve} : Prop := {
  fq_to_big_endian_ok x : length (fq_to_big_endian x) = 32%nat ∧ digits_ok 256 (fq_to_big_endian x);
}.

(** A concrete instance for examples: integers modulo a small number in place
    of the field, componentwise addition in place of the group. *)
Definition toy_curve : Curve := {|
  Fq := Z;
  fq_from_slice b := let x := undigits_be 256 b in if x <? 1000003 then Some x else None;
  fq_is_zero x := x =? 0;
  fq_to_big_endian x := digits_be 256 32 x;
  Fr := Z;
  fr_from_slice b := Some (undigits_be 256 b);
  G1 := Z * Z;
  g1_zero := (0, 0);
  affine_g1_new x y := if x =? y then None else Some (x, y);
  g1_add p q := ((p.1 + q.1) mod 1000003, (p.2 + q.2) mod 1000003);
  g1_mul p n := ((p.1 * n) mod 1000003, (p.2 * n) mod 1000003);
  affine_g1_from_jacobian p := if (p.1 =? 0) && (p.2 =? 0) then None else Some p;
  Fq2 := Z * Z;
  fq2_new a b := (a, b);
  fq2_is_zero p := (p.1 =? 0) && (p.2 =? 0);
  G2 := Z;
  g2_zero := 0;
  affine_g2_new a b := Some (a.1 + a.2 + b.1 + b.2);
  Gt := Z;
  gt_one := 1;
  gt_mul := Z.mul;
  gt_eqb := Z.eqb;
  pairing a b := 1 + (a.1 + a.2) * b;
|}.

#[global] Instance toy_curve_ok : @CurveOk toy_curve.
Proof. split. intros x. split; [apply length_digits_be|by apply digits_be_ok]. Qed.
