(* ===== verification/BufferTree.v ===== *)
(** * AVM buffers (src/src/mavm.rs: Buffer, BufferNode, BufferInternal)

    A buffer is a binary tree of 32-byte leaves that grows on demand, with a
    Merkle hash cached in every internal node, and a logical size.  Offsets
    and capacities are [Z] (they are u128 in the source), bytes are [Z].
    Indexing a leaf out of range, and subtracting from a zero height, panic:
    the result is [None].  [set_byte] recurses on a tree it has just grown,
    so it takes fuel; [Buffer.set_byte_total] shows that [buffer_fuel] is
    enough for every 64-bit offset (the machine's offsets are [usize]). *)

From Stdlib Require Import ZArith Lia.
From S2P Require Import Prelude U256 Crypto.
Local Open Scope Z_scope.

Inductive BufferNode : Type :=
| Leaf (b : list Z)
| Internal (node : BufferInternal)
with BufferInternal : Type :=
| mkInternal (height : nat) (capacity : Z) (left right : BufferNode) (hash_val : Z).

(** Induction on the tree, the internal node's fields spelled out. *)
Lemma BufferNode_tree_ind (P : BufferNode → Prop) :
  (∀ b, P (Leaf b)) →
  (∀ h c l r hv, P l → P r → P (Internal (mkInternal h c l r hv))) →
  ∀ n, P n.
Proof.
  intros HL HI. fix IH 1. intros [b|[h c l r hv]]; [apply HL|]. apply HI; apply IH.
Qed.

#[global] Instance BufferNode_eq_dec : EqDecision BufferNode.
Proof.
  unfold EqDecision, Decision. fix IH 1.
  intros [b|[h c l r hv]] [b'|[h' c' l' r' hv']]; try (right; congruence).
  - destruct (decide (b = b')); [left|right]; congruence.
  - destruct (decide (h = h')); [|right; congruence].
    destruct (decide (c = c')); [|right; congruence].
    destruct (decide (hv = hv')); [|right; congruence].
    destruct (IH l l'); [|right; congruence].
    destruct (IH r r'); [left|right]; congruence.
Defined.

Section node.
Context `{Crypto}.

Definition new_empty : BufferNode := Leaf (replicate 32 0).

Definition hash (n : BufferNode) : Z :=
  match n with
  | Leaf b => Uint256.from_bytes (keccak256 b)
  | Internal (mkInternal _ _ _ _ hv) => hv
  end.

(** BufferInternal::new *)
Definition internal_new (height : nat) (capacity : Z) (left right : BufferNode) : BufferInternal :=
  mkInternal height capacity left right
    (Uint256.from_bytes
       (keccak256 (Uint256.to_bytes_be (hash left) ++ Uint256.to_bytes_be (hash right)))).

Fixpoint new_empty_internal (height : nat) (capacity : Z) : option BufferNode :=
  match height with
  | O => None
  | S h =>
      child ← match h with O => Some new_empty | _ => new_empty_internal h (capacity / 2) end;
      Some (Internal (internal_new height capacity child child))
  end.

Definition grow (node : BufferInternal) : option BufferInternal :=
  match node with
  | mkInternal height capacity _ _ _ =>
      e ← new_empty_internal height capacity;
      Some (internal_new (height + 1) (capacity * 2) (Internal node) e)
  end.

Definition grow_from_leaf (leaf : BufferNode) : BufferInternal :=
  internal_new 2 (2 * 32) leaf new_empty.

Fixpoint node_read_byte (n : BufferNode) (offset : Z) : option Z :=
  match n with
  | Leaf b => lookup_z b offset
  | Internal node => internal_read_byte node offset
  end
with internal_read_byte (node : BufferInternal) (offset : Z) : option Z :=
  match node with
  | mkInternal _ capacity lhs rhs _ =>
      if offset <? capacity / 2 then node_read_byte lhs offset
      else node_read_byte rhs (offset - capacity / 2)
  end.

Fixpoint node_set_byte (fuel : nat) (n : BufferNode) (offset val : Z) : option BufferNode :=
  match fuel with
  | O => None
  | S fuel =>
      match n with
      | Leaf b =>
          if offset <? 32 then
            if offset <? Z.of_nat (length b) then Some (Leaf (insert_z b offset val)) else None
          else Internal <$> internal_set_byte fuel (grow_from_leaf n) offset val
      | Internal node => Internal <$> internal_set_byte fuel node offset val
      end
  end
with internal_set_byte (fuel : nat) (node : BufferInternal) (offset val : Z) : option BufferInternal :=
  match fuel with
  | O => None
  | S fuel =>
      match node with
      | mkInternal height capacity lhs rhs _ =>
          if offset <? capacity / 2 then
            l ← node_set_byte fuel lhs offset val;
            Some (internal_new height capacity l rhs)
          else if offset <? capacity then
            r ← node_set_byte fuel rhs (offset - capacity / 2) val;
            Some (internal_new height capacity lhs r)
          else
            g ← grow node;
            internal_set_byte fuel g offset val
      end
  end.

(** ** Well-formed trees

    [node_ok h n]: [n] covers [16 * 2^h] bytes.  Leaves always hold 32 bytes;
    the trees made by [new_empty_internal] end in leaves of which only the
    first 16 are used, the others in full leaves.  The cached hash of an
    internal node is the hash of its children's hashes. *)
Definition cap (h : nat) : Z := 16 * 2 ^ Z.of_nat h.

Inductive node_ok : nat → BufferNode → Prop :=
| ok_leaf h b : (h <= 1)%nat → length b = 32%nat → digits_ok 256 b → node_ok h (Leaf b)
| ok_internal h l r : node_ok h l → node_ok h r →
    node_ok (S h) (Internal (internal_new (S h) (cap (S h)) l r)).

Lemma cap_S h : cap (S h) = 2 * cap h.
Proof. unfold cap. rewrite Nat2Z.inj_succ, Z.pow_succ_r by lia. lia. Qed.

Lemma cap_pos h : 0 < cap h.
Proof. unfold cap. assert (0 < 2 ^ Z.of_nat h) by (apply Z.pow_pos_nonneg; lia). lia. Qed.

Lemma cap_half h : cap (S h) / 2 = cap h.
Proof. rewrite cap_S, Z.mul_comm. by apply Z.div_mul. Qed.

Lemma cap_mono h h' : (h <= h')%nat → cap h <= cap h'.
Proof.
  intros. unfold cap. apply Z.mul_le_mono_nonneg_l; [lia|]. apply Z.pow_le_mono_r; lia.
Qed.

Lemma cap_leaf h : (h <= 1)%nat → cap h <= 32.
Proof. intros. by apply (cap_mono h 1). Qed.

Lemma new_empty_ok h : (h <= 1)%nat → node_ok h new_empty.
Proof. intros. constructor; [done..|]. apply Forall_replicate. lia. Qed.

Lemma new_empty_read h o : (h <= 1)%nat → 0 <= o < cap h → node_read_byte new_empty o = Some 0.
Proof.
  intros Hh Ho. pose proof (cap_leaf h Hh). cbn [node_read_byte new_empty].
  unfold lookup_z. rewrite length_replicate.
  rewrite (proj2 (andb_true_iff _ _)) by (split; [apply Z.leb_le|apply Z.ltb_lt]; lia). apply lookup_replicate. split; [done|lia].
Qed.

Lemma new_empty_internal_ok h : (1 <= h)%nat →
  ∃ e, new_empty_internal h (cap h) = Some e ∧ node_ok h e ∧
       ∀ o, 0 <= o < cap h → node_read_byte e o = Some 0.
Proof.
  induction h as [|h IH]; [lia|]. intros _. cbn [new_empty_internal]. rewrite cap_half.
  assert (∃ e, match h with O => Some new_empty | _ => new_empty_internal h (cap h) end = Some e
     ∧ node_ok h e ∧ ∀ o, 0 <= o < cap h → node_read_byte e o = Some 0) as (e & -> & Hok & Hr).
  { destruct h; [|apply IH; lia]. exists new_empty.
    split_and!; [done|apply new_empty_ok; lia|intros; eapply (new_empty_read 0); [lia|done]]. }
  eexists. split; [done|]. split; [by constructor|].
  intros o Ho. cbn [node_read_byte internal_read_byte internal_new]. rewrite cap_half.
  rewrite cap_S in Ho. case_match; bool_to_prop; apply Hr; lia.
Qed.

Lemma node_read_ok h n o : node_ok h n → 0 <= o < cap h →
  ∃ v, node_read_byte n o = Some v ∧ 0 <= v < 256.
Proof.
  intros Hn. revert o. induction Hn as [h b Hh Hl Hb|h l r _ IHl _ IHr]; intros o Ho.
  - pose proof (cap_leaf h Hh). cbn [node_read_byte]. unfold lookup_z.
    case_match; bool_to_prop; [|lia].
    destruct (lookup_lt_is_Some_2 b (Z.to_nat o)) as [v Hv]; [lia|].
    exists v. split; [done|]. by eapply Forall_lookup_1 in Hb.
  - cbn [node_read_byte internal_read_byte internal_new]. rewrite cap_half.
    rewrite cap_S in Ho. case_match; bool_to_prop; [apply IHl|apply IHr]; lia.
Qed.

(** Writing inside the covered range keeps the tree's height. *)
Lemma node_set_in_range h n o v fuel :
  node_ok h n → 0 <= o < cap h → 0 <= v < 256 → (2 * h + 1 <= fuel)%nat →
  ∃ n', node_set_byte fuel n o v = Some n' ∧ node_ok h n' ∧
        ∀ o', 0 <= o' < cap h →
              node_read_byte n' o' = if bool_decide (o = o') then Some v else node_read_byte n o'.
Proof.
  intros Hn Ho Hv. revert o fuel Ho. induction Hn as [h b Hh Hl Hb|h l r Hokl IHl Hokr IHr];
    intros o fuel Ho Hf; (destruct fuel as [|fuel]; [lia|]).
  - pose proof (cap_leaf h Hh). cbn [node_set_byte].
    rewrite (proj2 (Z.ltb_lt _ _)) by lia. rewrite (proj2 (Z.ltb_lt _ _)) by lia.
    eexists. split; [done|]. unfold insert_z. case_match; bool_to_prop; [|lia]. split.
    + constructor; [done|by rewrite length_insert|]. by apply Forall_insert.
    + intros o' Ho'. cbn [node_read_byte]. unfold lookup_z. rewrite length_insert.
      case_match; bool_to_prop; [|lia]. case_bool_decide.
      * subst o'. apply list_lookup_insert_eq. lia.
      * apply list_lookup_insert_ne. lia.
  - cbn [node_set_byte]. destruct fuel as [|fuel]; [lia|].
    cbn [internal_set_byte internal_new]. rewrite cap_half. rewrite cap_S in *.
    destruct (Z.ltb_spec o (cap h)) as [Hlt|Hge].
    + destruct (IHl o fuel) as (l' & -> & Hok & Hr); [lia..|].
      eexists. split; [done|]. split; [rewrite <- cap_S; by constructor|].
      intros o' Ho'. cbn [node_read_byte internal_read_byte internal_new].
      rewrite <- cap_S, cap_half. case_match; bool_to_prop; [apply Hr; lia|].
      by rewrite bool_decide_eq_false_2 by lia.
    + rewrite (proj2 (Z.ltb_lt _ _)) by lia.
      destruct (IHr (o - cap h) fuel) as (r' & -> & Hok & Hr); [lia..|].
      eexists. split; [done|]. split; [rewrite <- cap_S; by constructor|].
      intros o' Ho'. cbn [node_read_byte internal_read_byte internal_new].
      rewrite <- cap_S, cap_half. case_match; bool_to_prop.
      * by rewrite bool_decide_eq_false_2 by lia.
      * rewrite Hr by lia.
        destruct (decide (o = o')); [rewrite !bool_decide_eq_true_2 by lia; done|].
        by rewrite !bool_decide_eq_false_2 by lia.
Qed.

(** Doubling the capacity: the old bytes stay, the new half is zero. *)
Lemma grow_ok h node : node_ok h (Internal node) →
  ∃ g, grow node = Some g ∧ node_ok (S h) (Internal g) ∧
       ∀ o, 0 <= o < cap (S h) →
            internal_read_byte g o = if o <? cap h then internal_read_byte node o else Some 0.
Proof.
  intros Hn. inversion Hn as [|h' l r Hl Hr]; subst.
  destruct (new_empty_internal_ok (S h')) as (e & He & Hoke & Hre); [lia|].
  cbn [grow internal_new]. rewrite He. eexists. split; [done|].
  rewrite (Z.mul_comm _ 2), <- cap_S, Nat.add_1_r. split; [by constructor|].
  intros o Ho. cbn [internal_read_byte internal_new]. rewrite !cap_half.
  rewrite (cap_S (S h')) in Ho. cbn [node_read_byte internal_read_byte].
  destruct (Z.ltb_spec o (cap (S h'))); [|apply Hre; lia].
  cbn [internal_read_byte internal_new]. by rewrite cap_half.
Qed.

Lemma internal_set_in_range h node o v fuel :
  node_ok h (Internal node) → 0 <= o < cap h → 0 <= v < 256 → (2 * h <= fuel)%nat →
  ∃ node', internal_set_byte fuel node o v = Some node' ∧ node_ok h (Internal node') ∧
        ∀ o', 0 <= o' < cap h → internal_read_byte node' o' =
              if bool_decide (o = o') then Some v else internal_read_byte node o'.
Proof.
  intros Hn Ho Hv Hf.
  destruct (node_set_in_range h _ o v (S fuel) Hn Ho Hv) as (n' & Hs & Hok & Hr); [lia|].
  cbn [node_set_byte] in Hs.
  destruct (internal_set_byte fuel node o v) as [node'|]; simplify_eq/=. eauto.
Qed.

(** Writing at any offset, growing the tree up to [k] times first. *)
Lemma internal_set_grow k h node o v fuel :
  node_ok h (Internal node) → 0 <= o < cap (h + k) → 0 <= v < 256 →
  (k + 2 * (h + k) <= fuel)%nat →
  ∃ h' node', internal_set_byte fuel node o v = Some node' ∧
     (h <= h' <= h + k)%nat ∧ o < cap h' ∧ node_ok h' (Internal node') ∧
     ∀ o', 0 <= o' < cap h' → internal_read_byte node' o' =
        if bool_decide (o = o') then Some v
        else if o' <? cap h then internal_read_byte node o' else Some 0.
Proof.
  revert h node fuel. induction k as [|k IH]; intros h node fuel Hn Ho Hv Hf;
    (destruct (decide (o < cap h)) as [Hlt|Hge];
      [destruct (internal_set_in_range h node o v fuel) as (node' & Hs & Hok & Hr); [done|lia..|];
       exists h, node'; split_and!; [done|lia..|done|]; intros o' Ho'; rewrite Hr by done;
       by rewrite (proj2 (Z.ltb_lt o' _)) by lia|]).
  { rewrite Nat.add_0_r in Ho. lia. }
  destruct (grow_ok h node Hn) as (g & Hg & Hokg & Hrg).
  destruct fuel as [|fuel]; [lia|].
  destruct (IH (S h) g fuel) as (h' & node' & Hs & Hh & Hc & Hok & Hr);
    [done| |done|lia|]. { replace (S h + k)%nat with (h + S k)%nat by lia. done. }
  exists h', node'. split_and!; [|lia..|done|].
  - inversion Hn as [|h0 l r]; subst. cbn [internal_set_byte internal_new] in *.
    rewrite cap_half. pose proof (cap_S h0). pose proof (cap_pos h0).
    rewrite (proj2 (Z.ltb_ge _ _)) by lia. rewrite (proj2 (Z.ltb_ge _ _)) by lia.
    rewrite Hg. done.
  - intros o' Ho'. rewrite Hr by done. case_bool_decide; [done|].
    pose proof (cap_S h). case_match; bool_to_prop.
    + by rewrite Hrg by lia.
    + by rewrite (proj2 (Z.ltb_ge o' (cap h))) by lia.
Qed.

(** The same from the root, which may still be a single leaf ([h = 1]). *)
Lemma node_set_grow k h n o v fuel :
  node_ok h n → (1 <= h)%nat → 0 <= o < cap (h + k) → 0 <= v < 256 →
  (1 + k + 2 * (h + k) <= fuel)%nat →
  ∃ h' n', node_set_byte fuel n o v = Some n' ∧ (h <= h' <= h + k)%nat ∧ o < cap h' ∧
     node_ok h' n' ∧
     ∀ o', 0 <= o' < cap h' → node_read_byte n' o' =
        if bool_decide (o = o') then Some v
        else if o' <? cap h then node_read_byte n o' else Some 0.
Proof.
  intros Hn Hh Ho Hv Hf. destruct (decide (o < cap h)) as [Hlt|Hge].
  { destruct (node_set_in_range h n o v fuel) as (n' & Hs & Hok & Hr); [done|lia..|].
    exists h, n'. split_and!; [done|lia..|done|]. intros o' Ho'. rewrite Hr by done.
    by rewrite (proj2 (Z.ltb_lt o' _)) by lia. }
  destruct fuel as [|fuel]; [lia|].
  inversion Hn as [h0 b ? Hl Hb|h0 l r Hokl Hokr]; subst.
  - assert (h = 1%nat) as -> by lia.
    assert (node_ok 2 (Internal (grow_from_leaf (Leaf b)))) as Hg.
    { apply (ok_internal 1); [by constructor|by apply new_empty_ok]. }
    destruct k as [|k]; [simpl in Ho; lia|].
    destruct (internal_set_grow k 2 (grow_from_leaf (Leaf b)) o v fuel)
      as (h' & node' & Hs & Hh' & Hc & Hok & Hr); [done|done|done|lia|].
    exists h', (Internal node'). cbn [node_set_byte].
    assert (32 <= o) by (change 32 with (cap 1); lia).
    rewrite (proj2 (Z.ltb_ge _ _)) by lia. rewrite Hs.
    split_and!; [done|lia..|done|]. intros o' Ho'. cbn [node_read_byte]. rewrite Hr by done.
    case_bool_decide; [done|]. cbn [internal_read_byte grow_from_leaf internal_new].
    change (2 * 32 / 2) with (cap 1). change (cap 2) with 64.
    pose proof (new_empty_read 1 (o' - cap 1)) as Hz. change (cap 1) with 32 in *.
    repeat case_match; bool_to_prop; try lia; try done. apply Hz; lia.
  - destruct (internal_set_grow k (S h0) (internal_new (S h0) (cap (S h0)) l r) o v fuel)
      as (h' & node' & Hs & Hh' & Hc & Hok & Hr); [done|done|done|lia|].
    exists h', (Internal node'). cbn [node_set_byte]. rewrite Hs. split_and!; done || lia.
Qed.

End node.

(** ** The interface of a byte store

    What the machine's buffer instructions and the byte-string conversions
    need of a buffer: a total map from offsets to bytes, zero beyond its size,
    in which a write changes one byte.  [Buffer.byte_store] shows that the
    tree implements it; the lemmas on sequences of reads and writes are
    proved from the interface alone. *)
Class ByteStore (T : Type) := {
  bs_ok : T → Prop;
  bs_size : T → Z;
  bs_empty : T;
  bs_read : T → Z → option Z;
  bs_write : T → Z → Z → option T;
  bs_empty_ok : bs_ok bs_empty;
  bs_empty_size : bs_size bs_empty = 0;
  bs_read_ok b o : bs_ok b → 0 <= o → ∃ v, bs_read b o = Some v ∧ 0 <= v < 256;
  bs_read_beyond b o : bs_ok b → bs_size b <= o → bs_read b o = Some 0;
  bs_write_ok b o v : bs_ok b → 0 <= o < two64 → 0 <= v < 256 →
    ∃ b', bs_write b o v = Some b' ∧ bs_ok b' ∧ bs_size b' = Z.max (bs_size b) (o + 1) ∧
      ∀ o', 0 <= o' → bs_read b' o' = if bool_decide (o = o') then Some v else bs_read b o';
}.

(** [for i in 0..bytes.len() { b = b.set_byte(offset + i, bytes[i]) }] *)
Fixpoint write_all {T} (write : T → Z → Z → option T) (b : T) (offset : Z) (bytes : list Z) : option T :=
  match bytes with
  | [] => Some b
  | v :: bytes => b' ← write b offset v; write_all write b' (offset + 1) bytes
  end.

(** [for i in 0..n { ret.push(b.read_byte(offset + i)) }] *)
Fixpoint read_all {T} (read : T → Z → option Z) (b : T) (offset : Z) (n : nat) : option (list Z) :=
  match n with
  | O => Some []
  | S n => v ← read b offset; vs ← read_all read b (offset + 1) n; Some (v :: vs)
  end.

Section byte_store.
Context `{ByteStore T}.

Lemma write_all_ok bytes b offset :
  bs_ok b → 0 <= offset → offset + Z.of_nat (length bytes) <= two64 → digits_ok 256 bytes →
  ∃ b', write_all bs_write b offset bytes = Some b' ∧ bs_ok b' ∧
    bs_size b' = (if bool_decide (bytes = []) then bs_size b
                  else Z.max (bs_size b) (offset + Z.of_nat (length bytes))) ∧
    ∀ o, 0 <= o → bs_read b' o =
      if bool_decide (offset <= o < offset + Z.of_nat (length bytes))
      then lookup_z bytes (o - offset) else bs_read b o.
Proof.
  revert b offset. induction bytes as [|v bytes IH]; intros b offset Hb Ho Hlen Hd.
  - exists b. split_and!; [done..|]. intros o ?.
    by rewrite bool_decide_eq_false_2 by (simpl; lia).
  - inversion Hd as [|?? Hv Hd']; subst. cbn [length] in Hlen.
    destruct (bs_write_ok b offset v) as (b1 & Hw & Hok1 & Hs1 & Hr1); [done|lia|done|].
    destruct (IH b1 (offset + 1)) as (b2 & Hw2 & Hok2 & Hs2 & Hr2); [done|lia|lia|done|].
    exists b2. cbn [write_all length]. rewrite Hw. split_and!; [done..| |].
    + rewrite Hs2, Hs1. rewrite (bool_decide_eq_false_2 (_ :: _ = [])) by done.
      case_bool_decide; [subst; simpl|]; lia.
    + intros o ?. rewrite Hr2, Hr1 by done. unfold lookup_z. cbn [length].
      destruct (decide (o = offset)) as [->|].
      * rewrite bool_decide_eq_false_2, bool_decide_eq_true_2, bool_decide_eq_true_2 by lia.
        rewrite Z.sub_diag. done.
      * rewrite (bool_decide_eq_false_2 (offset = o)) by lia.
        clear IH Hs2 Hr1 Hr2. repeat case_bool_decide; try lia; [|done].
        rewrite !(proj2 (andb_true_iff _ _))
          by (split; [apply Z.leb_le|apply Z.ltb_lt]; lia).
        replace (Z.to_nat (o - offset)) with (S (Z.to_nat (o - (offset + 1)))) by lia. done.
Qed.

Lemma read_all_ok n b offset : bs_ok b → 0 <= offset →
  ∃ bs, read_all bs_read b offset n = Some bs ∧ length bs = n ∧ digits_ok 256 bs ∧
    ∀ i v, bs !! i = Some v → bs_read b (offset + Z.of_nat i) = Some v.
Proof.
  intros Hb. revert offset; induction n as [|n IH]; intros offset Ho.
  - exists []. split_and!; [done..|constructor|by intros].
  - destruct (bs_read_ok b offset Hb Ho) as (v & Hv & Hvb).
    destruct (IH (offset + 1)) as (bs & Hbs & Hl & Hd & Hi); [lia|].
    exists (v :: bs). cbn [read_all]. rewrite Hv, Hbs. split_and!; [done|simpl; lia|by constructor|].
    intros [|i] w Hw; simplify_eq/=.
    + by rewrite Z.add_0_r.
    + rewrite <- (Hi i w Hw). f_equal. lia.
Qed.

(** Reading back what was written. *)
Lemma read_write_all bytes b offset b' :
  bs_ok b → 0 <= offset → offset + Z.of_nat (length bytes) <= two64 → digits_ok 256 bytes →
  write_all bs_write b offset bytes = Some b' →
  read_all bs_read b' offset (length bytes) = Some bytes.
Proof.
  intros Hb Ho Hlen Hd Hw.
  destruct (write_all_ok bytes b offset Hb Ho Hlen Hd) as (b1 & Hw1 & Hok & _ & Hr).
  assert (b1 = b') as -> by congruence.
  destruct (read_all_ok (length bytes) b' offset Hok Ho) as (bs & -> & Hl & _ & Hi).
  f_equal. apply list_eq_same_length with (length bytes); [done..|].
  intros i x y Hi' Hx Hy. apply Hi in Hx. rewrite Hr in Hx by lia.
  rewrite bool_decide_eq_true_2 in Hx by lia.
  replace (offset + Z.of_nat i - offset) with (Z.of_nat i) in Hx by lia.
  unfold lookup_z in Hx. rewrite Nat2Z.id in Hx.
  rewrite (proj2 (andb_true_iff _ _)) in Hx
    by (split; [apply Z.leb_le|apply Z.ltb_lt]; lia). congruence.
Qed.
End byte_store.

(** Enough for every 64-bit offset: at most 59 growth steps, and a descent of
    two steps per level ([Buffer.set_byte_ok]). *)
Definition buffer_fuel : nat := 200.

(** Keeps conversion from unfolding the fuel before anything else. *)
#[global] Strategy 1000 [buffer_fuel node_set_byte internal_set_byte].

Module Buffer.

Record t := mk { root : BufferNode; size : Z }.

#[global] Instance eq_dec : EqDecision t.
Proof. solve_decision. Defined.

Section ops.
Context `{Crypto}.

Definition new_empty : t := mk new_empty 0.

Definition read_byte (b : t) (offset : Z) : option Z :=
  if size b <=? offset then Some 0 else node_read_byte (root b) offset.

Definition set_byte (b : t) (offset val : Z) : option t :=
  r ← node_set_byte buffer_fuel (root b) offset val;
  Some (mk r (if size b <=? offset then offset + 1 else size b)).

Definition from_bytes (contents : list Z) : option t :=
  write_all set_byte new_empty 0 contents.

Definition as_bytes (b : t) (nbytes : nat) : option (list Z) :=
  read_all read_byte b 0 nbytes.

Definition avm_hash (b : t) : Z := hash (root b).

(** The whole-buffer invariant: a well-formed tree of height at most 60, which
    covers the logical size, with zeros beyond it. *)
Definition ok (b : t) : Prop :=
  ∃ h, (1 <= h <= 60)%nat ∧ node_ok h (root b) ∧ 0 <= size b <= cap h ∧
       ∀ o, size b <= o < cap h → node_read_byte (root b) o = Some 0.

Lemma empty_ok : ok new_empty.
Proof.
  exists 1%nat. split; [lia|]. split; [by apply new_empty_ok|]. split; [done|].
  intros o Ho. by apply (new_empty_read 1).
Qed.

Lemma read_byte_ok b o : ok b → 0 <= o → ∃ v, read_byte b o = Some v ∧ 0 <= v < 256.
Proof.
  intros (h & ? & Hn & ? & _) ?. unfold read_byte. case_match; bool_to_prop.
  - exists 0. split; [done|lia].
  - eapply node_read_ok; [done|lia].
Qed.

Lemma set_byte_ok b o v : ok b → 0 <= o < two64 → 0 <= v < 256 →
  ∃ b', set_byte b o v = Some b' ∧ ok b' ∧ size b' = Z.max (size b) (o + 1) ∧
        ∀ o', 0 <= o' → read_byte b' o' = if bool_decide (o = o') then Some v else read_byte b o'.
Proof.
  intros (h & Hh & Hn & Hs & Hz) Ho Hv. unfold set_byte.
  destruct (node_set_grow (60 - h) h (root b) o v buffer_fuel)
    as (h' & n' & -> & Hh' & Hc & Hok & Hr); [done|lia| |done|unfold buffer_fuel; lia|].
  { replace (h + (60 - h))%nat with 60%nat by lia. done. }
  pose proof (cap_mono h h' ltac:(lia)).
  assert ((if size b <=? o then o + 1 else size b) = Z.max (size b) (o + 1)) as -> by zcases.
  eexists; split; [done|]. unfold read_byte, ok. cbn [root size].
  split_and!; [|done|].
  - exists h'. split; [lia|]. split; [done|]. split; [lia|].
    intros o' Ho'. rewrite Hr by lia. rewrite bool_decide_eq_false_2 by lia.
    destruct (Z.ltb_spec o' (cap h)); [apply Hz; lia|done].
  - intros o' Ho'. destruct (decide (o = o')) as [<-|Hne].
    + rewrite bool_decide_eq_true_2 by done.
      rewrite (proj2 (Z.leb_gt _ _)), Hr, bool_decide_eq_true_2 by lia. done.
    + rewrite bool_decide_eq_false_2 by done.
      destruct (Z.leb_spec (Z.max (size b) (o + 1)) o'), (Z.leb_spec (size b) o');
        [done|lia|..]; rewrite Hr, bool_decide_eq_false_2 by lia;
        destruct (Z.ltb_spec o' (cap h)); try lia; try done. apply Hz; lia.
Qed.

Lemma read_byte_beyond b o : ok b → size b <= o → read_byte b o = Some 0.
Proof. intros _ ?. unfold read_byte. by rewrite (proj2 (Z.leb_le _ _)) by done. Qed.

#[global] Instance byte_store : ByteStore t := {|
  bs_ok := ok; bs_size := size; bs_empty := new_empty;
  bs_read := read_byte; bs_write := set_byte;
  bs_empty_ok := empty_ok; bs_empty_size := eq_refl;
  bs_read_ok := read_byte_ok; bs_read_beyond := read_byte_beyond;
  bs_write_ok := set_byte_ok;
|}.

Lemma from_bytes_ok bs : digits_ok 256 bs → Z.of_nat (length bs) <= two64 →
  ∃ b, from_bytes bs = Some b ∧ ok b ∧ size b = Z.of_nat (length bs) ∧
       ∀ o, 0 <= o → read_byte b o = if o <? Z.of_nat (length bs) then lookup_z bs o else Some 0.
Proof.
  intros Hd Hl.
  destruct (write_all_ok bs new_empty 0) as (b & Hw & Hok & Hs & Hr);
    [apply empty_ok|lia|lia|done|].
  cbn [bs_ok bs_size bs_read bs_write byte_store] in *.
  exists b. split_and!; [exact Hw|done| |].
  - rewrite Hs. case_bool_decide; [subst; done|]. change (size new_empty) with 0. lia.
  - intros o Ho. rewrite Hr by done. rewrite Z.sub_0_r, Z.add_0_l.
    destruct (Z.ltb_spec o (Z.of_nat (length bs))).
    + by rewrite bool_decide_eq_true_2 by lia.
    + rewrite bool_decide_eq_false_2 by lia. apply read_byte_beyond; [apply empty_ok|done].
Qed.

(** Recomputing the Merkle hash from the leaves. *)
Fixpoint merkle (n : BufferNode) : Z :=
  match n with
  | Leaf b => Uint256.from_bytes (keccak256 b)
  | Internal (mkInternal _ _ l r _) =>
      Uint256.from_bytes
        (keccak256 (Uint256.to_bytes_be (merkle l) ++ Uint256.to_bytes_be (merkle r)))
  end.

Lemma hash_merkle h n : node_ok h n → hash n = merkle n.
Proof. induction 1 as [|h l r _ IHl _ IHr]; [done|]. simpl. by rewrite <- IHl, <- IHr. Qed.

(** C16: a buffer behaves as a byte array that is zero beyond its size: after
    a write at any 64-bit offset the operation has succeeded (the tree has
    grown as needed), the written offset reads the new byte, every other
    offset reads what it did before, the size is the larger of the old size
    and the offset plus one, and the invariant is kept. *)
Theorem set_byte_read_byte b o v :
  ok b → 0 <= o < 2 ^ 64 → 0 <= v < 256 →
  ∃ b', set_byte b o v = Some b' ∧ ok b' ∧ size b' = Z.max (size b) (o + 1) ∧
    (∀ o', 0 <= o' → read_byte b' o' = if bool_decide (o = o') then Some v else read_byte b o') ∧
    (∀ o', size b' <= o' → read_byte b' o' = Some 0).
Proof.
  intros Hb Ho Hv. destruct (set_byte_ok b o v) as (b' & ? & ? & ? & ?); [done..|].
  exists b'. split_and!; try done. intros. by apply read_byte_beyond.
Qed.

(** [from_bytes] and [as_bytes] round-trip: every byte string shorter than
    [2^64] can be stored, its buffer's size is its length, and reading that
    many bytes gives the string back. *)
Theorem bytes_roundtrip bs :
  digits_ok 256 bs → Z.of_nat (length bs) < 2 ^ 64 →
  ∃ b, from_bytes bs = Some b ∧ ok b ∧ size b = Z.of_nat (length bs) ∧
       as_bytes b (length bs) = Some bs.
Proof.
  intros Hd Hl. assert (Z.of_nat (length bs) <= two64) as Hl' by (unfold two64; lia).
  destruct (from_bytes_ok bs Hd Hl') as (b & Hb & Hok & Hs & _).
  exists b. split_and!; [done..|].
  pose proof (read_write_all bs new_empty 0 b) as Hrw.
  cbn [bs_ok bs_read bs_write byte_store] in Hrw.
  apply Hrw; [apply empty_ok|lia|lia|done|exact Hb].
Qed.

(** C37: the hash cached in the root is always the Merkle hash of the leaves:
    reading [avm_hash] never sees a stale value, whatever was written before. *)
Theorem cached_hash_correct b o v b' :
  ok b → 0 <= o < 2 ^ 64 → 0 <= v < 256 → set_byte b o v = Some b' →
  avm_hash b' = merkle (root b').
Proof.
  intros Hb Ho Hv Hs. destruct (set_byte_ok b o v Hb Ho Hv) as (b1 & Hb1 & (h & _ & Hok & _) & _).
  assert (b1 = b') as -> by congruence. by apply (hash_merkle h).
Qed.

End ops.
End Buffer.

(** Witnesses, with the concrete hash. *)
Section witnesses.
#[local] Existing Instance toy_crypto.

Lemma set_byte_read_byte_witness :
  Buffer.ok Buffer.new_empty ∧
  ∃ b', Buffer.set_byte Buffer.new_empty 100 7 = Some b' ∧ Buffer.size b' = 101.
Proof.
  split; [apply Buffer.empty_ok|].
  destruct (Buffer.set_byte_read_byte Buffer.new_empty 100 7) as (b' & H1 & _ & H2 & _);
    [apply Buffer.empty_ok|by_eval|by_eval|].
  exists b'. split; [exact H1|rewrite H2; reflexivity].
Defined.

Lemma bytes_roundtrip_witness :
  ∃ b, Buffer.from_bytes [1; 2; 3] = Some b ∧ Buffer.as_bytes b 3 = Some [1; 2; 3].
Proof.
  destruct (Buffer.bytes_roundtrip [1; 2; 3]) as (b & H1 & _ & _ & H2);
    [repeat constructor; by_eval|by_eval|].
  exists b. split; [exact H1|exact H2].
Defined.

Lemma cached_hash_correct_witness :
  ∃ b', Buffer.set_byte Buffer.new_empty 40 7 = Some b' ∧
        Buffer.avm_hash b' = Buffer.merkle (Buffer.root b').
Proof.
  destruct (Buffer.set_byte Buffer.new_empty 40 7) as [b'|] eqn:E; [|vm_compute in E; congruence].
  exists b'. split; [reflexivity|].
  apply (Buffer.cached_hash_correct Buffer.new_empty 40 7 b');
    [apply Buffer.empty_ok|by_eval|by_eval|exact E].
Defined.

End witnesses.
