(* ===== verification/BufferText.v ===== *)
(** * Buffers as text and from byte strings (src/src/mavm.rs)

    The text of a buffer ([hex_encode]), its serialization, and the functions
    that build a tree from a byte string in one go.  [hex] is the hex crate.

    [hex_encode_correct]: the text of a buffer, which is put together from the
    leaves, is the text of its bytes.  [serialize_roundtrip]: a buffer that is
    written and read back has the same bytes and size.
    [minimal_internal_from_bytes_ok]: a tree built from a byte string holds it. *)

From Stdlib Require Import ZArith Lia Ascii String.
From S2P Require Import Prelude U256 Crypto BufferTree.
From stdpp Require Import list strings.
Local Open Scope Z_scope.

(** The hex crate: two characters for each byte. *)
Class Hex := { hex_string : list Z → string; hex_bytes : string → option (list Z) }.
Class HexOk `{Hex} : Prop := {
  hex_app bs bs' : hex_string (bs ++ bs') = (hex_string bs +:+ hex_string bs')%string;
  hex_length bs : String.length (hex_string bs) = (2 * length bs)%nat;
  hex_inverse bs : digits_ok 256 bs → hex_bytes (hex_string bs) = Some bs;
}.

Section text.
Context `{Crypto, HX : Hex}.

(** [x as usize] *)
Definition as_usize (x : Z) : Z := x mod two64.

(** [s[0..n]] *)
Definition str_prefix (n : Z) (s : string) : option string :=
  if (0 <=? n) && (n <=? Z.of_nat (String.length s)) then Some (substring 0 (Z.to_nat n) s) else None.

Fixpoint node_hex_encode (n : BufferNode) (size : Z) : option string :=
  match n with
  | Leaf b => str_prefix (2 * size) (hex_string b)
  | Internal node => internal_hex_encode node size
  end
with internal_hex_encode (node : BufferInternal) (size : Z) : option string :=
  match node with
  | mkInternal _ capacity lhs rhs _ =>
      let half_capacity := as_usize (capacity / 2) in
      if size =? 0 then Some ""%string
      else if size <=? half_capacity then node_hex_encode lhs size
      else
        left_str ← node_hex_encode lhs half_capacity;
        right_str ← node_hex_encode rhs (size - half_capacity);
        Some (left_str +:+ right_str)%string
  end.

Definition buffer_hex_encode (b : Buffer.t) : option string := node_hex_encode (Buffer.root b) (as_usize (Buffer.size b)).

(** [Serialize] and [Deserialize]; the error of reading is [Err]. *)
Definition buffer_serialize (b : Buffer.t) : option string :=
  bytes ← Buffer.as_bytes b (Z.to_nat (as_usize (Buffer.size b))); Some (hex_string bytes).
Definition buffer_visit_str (v : string) : outcome string Buffer.t :=
  match hex_bytes v with
  | Some bytes => unwrap (Buffer.from_bytes bytes)
  | None => Err "Could not buffer as hex string"%string
  end.

(** ** Trees from byte strings *)
Definition leaf_from_bytes (v : list Z) : option BufferNode :=
  if (length v <=? 32)%nat then Some (Leaf (v ++ replicate (32 - length v) 0)) else None.

Fixpoint internal_from_bytes (height : nat) (capacity : Z) (v : list Z) : option BufferNode :=
  match height with
  | O => None
  | S h =>
      match h with
      | O => leaf_from_bytes v
      | _ =>
          if (length v =? 0)%nat then new_empty_internal height capacity
          else if Z.of_nat (length v) <=? capacity / 2 then
            lhs ← internal_from_bytes h (capacity / 2) v;
            rhs ← new_empty_internal h (capacity / 2);
            Some (Internal (internal_new height capacity lhs rhs))
          else
            let mid := Z.to_nat (capacity / 2) in
            lhs ← internal_from_bytes h (capacity / 2) (take mid v);
            rhs ← internal_from_bytes h (capacity / 2) (drop mid v);
            Some (Internal (internal_new height capacity lhs rhs))
      end
  end.

(** [while size < x]; [None] is lack of fuel. *)
Fixpoint levels_loop (fuel : nat) (x : Z) (height : nat) (size : Z) : option (nat * Z) :=
  if size <? x then
    match fuel with
    | O => None
    | S fuel => levels_loop fuel x (height + 1) (size * 2)
    end
  else Some (height, size).
Definition levels_needed (x : Z) : option (nat * Z) := levels_loop 128 x 1 32.

Definition minimal_internal_from_bytes (v : list Z) : option BufferNode :=
  if (32 <? length v)%nat then
    '(height, size) ← levels_needed (Z.of_nat (length v));
    internal_from_bytes height size v
  else None.

(** ** The text is that of the bytes *)

(** The first bytes of a tree. *)
Definition holds (n : BufferNode) (bs : list Z) : Prop := ∀ o, 0 <= o < Z.of_nat (length bs) → node_read_byte n o = lookup_z bs o.

Lemma substring_app (s1 s2 : string) : substring 0 (String.length s1) (s1 +:+ s2)%string = s1.
Proof. induction s1 as [|a s IH]; [by destruct s2|]. change (String a (substring 0 (String.length s) (s +:+ s2)) = String a s). by rewrite IH. Qed.

Lemma as_usize_small x : 0 <= x < two64 → as_usize x = x.
Proof. apply Z.mod_small. Qed.

Lemma str_prefix_hex `{!HexOk} b n : 0 <= n <= Z.of_nat (length b) → str_prefix (2 * n) (hex_string b) = Some (hex_string (take (Z.to_nat n) b)).
Proof.
  intros Hn. unfold str_prefix. rewrite hex_length. rewrite (proj2 (Z.leb_le 0 _)), (proj2 (Z.leb_le _ _)) by lia. cbn [andb]. f_equal.
  rewrite <- (take_drop (Z.to_nat n) b) at 1. rewrite hex_app.
  replace (Z.to_nat (2 * n)) with (String.length (hex_string (take (Z.to_nat n) b))); [apply substring_app|].
  rewrite hex_length, length_take. lia.
Qed.

Lemma lookup_z_nat {A} (l : list A) (i : nat) : lookup_z l (Z.of_nat i) = l !! i.
Proof.
  unfold lookup_z. rewrite Nat2Z.id. destruct (decide (i < length l)%nat).
  - by rewrite (proj2 (andb_true_iff _ _)) by (split; [apply Z.leb_le|apply Z.ltb_lt]; lia).
  - rewrite (lookup_ge_None_2 l i) by lia. by destruct (_ && _).
Qed.

Lemma holds_leaf b bs : (length bs <= length b)%nat → holds (Leaf b) bs → bs = take (length bs) b.
Proof.
  intros Hl Hb. apply list_eq. intros i. destruct (decide (i < length bs)%nat) as [Hi|Hi].
  - rewrite lookup_take_lt by done. specialize (Hb (Z.of_nat i) ltac:(lia)). cbn in Hb. by rewrite !lookup_z_nat in Hb.
  - rewrite !lookup_ge_None_2; [done|rewrite length_take; lia|lia].
Qed.

Lemma holds_app l r hv h c bs bs' : c / 2 = Z.of_nat (length bs) → holds (Internal (mkInternal h c l r hv)) (bs ++ bs') ↔ holds l bs ∧ holds r bs'.
Proof.
  intros Hc. unfold holds. rewrite length_app. cbn [node_read_byte internal_read_byte]. rewrite Hc. split.
  - intros H1. split; intros o Ho.
    + specialize (H1 o ltac:(lia)). rewrite (proj2 (Z.ltb_lt _ _)) in H1 by lia. rewrite H1.
      rewrite <- (Z2Nat.id o), !lookup_z_nat by lia. apply lookup_app_l. lia.
    + specialize (H1 (Z.of_nat (length bs) + o) ltac:(lia)). rewrite (proj2 (Z.ltb_ge _ _)) in H1 by lia.
      replace (Z.of_nat (length bs) + o - Z.of_nat (length bs)) with o in H1 by lia. rewrite H1.
      replace (Z.of_nat (length bs) + o) with (Z.of_nat (length bs + Z.to_nat o)) by lia. rewrite <- (Z2Nat.id o) at 2 by lia.
      rewrite !lookup_z_nat, lookup_app_r by lia. f_equal. lia.
  - intros [H1 H2] o Ho. destruct (Z.ltb_spec o (Z.of_nat (length bs))) as [Hlt|Hge].
    + rewrite H1 by lia. rewrite <- (Z2Nat.id o), !lookup_z_nat by lia. symmetry. apply lookup_app_l. lia.
    + rewrite H2 by lia. replace (o - Z.of_nat (length bs)) with (Z.of_nat (Z.to_nat o - length bs)) by lia. rewrite <- (Z2Nat.id o) at 2 by lia.
      by rewrite !lookup_z_nat, lookup_app_r by lia.
Qed.

Lemma node_hex_ok `{!HexOk} h n bs : node_ok h n → (h <= 60)%nat → Z.of_nat (length bs) <= cap h → holds n bs →
  node_hex_encode n (Z.of_nat (length bs)) = Some (hex_string bs).
Proof.
  intros Hn. revert bs. induction Hn as [h b Hh Hl Hb|h l r Hnl IHl Hnr IHr]; intros bs H60 Hc Hbs.
  - pose proof (cap_leaf h Hh). cbn [node_hex_encode]. rewrite str_prefix_hex by lia. rewrite Nat2Z.id. by rewrite <- holds_leaf by (done || lia).
  - cbn [node_hex_encode internal_hex_encode internal_new]. rewrite cap_half. rewrite cap_S in Hc. pose proof (cap_pos h).
    assert (cap h < two64) by (pose proof (cap_mono h 59 ltac:(lia)); assert (cap 59 < two64) by done; lia). rewrite as_usize_small by lia.
    destruct (Z.eqb_spec (Z.of_nat (length bs)) 0) as [Hz|Hz].
    + destruct bs; [|cbn in Hz; lia]. pose proof (hex_length []) as He. by destruct (hex_string []).
    + destruct (Z.leb_spec (Z.of_nat (length bs)) (cap h)) as [Hle|Hgt].
      * apply IHl; [lia|done|]. intros o Ho. rewrite <- (Hbs o Ho). cbn [node_read_byte internal_read_byte internal_new]. rewrite cap_half.
        by rewrite (proj2 (Z.ltb_lt _ _)) by lia.
      * set (k := Z.to_nat (cap h)). assert (length (take k bs) = k) as Hk by (rewrite length_take; lia).
        rewrite <- (take_drop k bs) in Hbs. unfold internal_new in Hbs. apply holds_app in Hbs as [Hl Hr]; [|rewrite cap_half, Hk; lia].
        replace (cap h) with (Z.of_nat (length (take k bs))) at 1 by lia. rewrite IHl; [|lia|lia|done]. cbn [mbind option_bind].
        replace (Z.of_nat (length bs) - cap h) with (Z.of_nat (length (drop k bs))) by (rewrite length_drop; lia).
        rewrite IHr; [|lia|rewrite length_drop; lia|done]. cbn [mbind option_bind]. by rewrite <- hex_app, take_drop.
Qed.

(** The bytes of a buffer. *)
Lemma buffer_bytes b : Buffer.ok b → Buffer.size b < two64 →
  ∃ bs, Buffer.as_bytes b (Z.to_nat (Buffer.size b)) = Some bs ∧ Z.of_nat (length bs) = Buffer.size b ∧ digits_ok 256 bs ∧ holds (Buffer.root b) bs.
Proof.
  intros Hok Hs. pose proof Hok as (h & _ & _ & Hsz & _).
  destruct (read_all_ok (H := Buffer.byte_store) (Z.to_nat (Buffer.size b)) b 0 Hok ltac:(lia)) as (bs & Hbs & Hl & Hd & Hi). exists bs. split_and!; [exact Hbs|lia|done|].
  intros o Ho. destruct (lookup_lt_is_Some_2 bs (Z.to_nat o)) as [v Hv]; [lia|]. pose proof (Hi _ _ Hv) as Hr. cbn in Hr. unfold Buffer.read_byte in Hr.
  rewrite Z2Nat.id, Z.add_0_l in Hr by lia. rewrite (proj2 (Z.leb_gt _ _)) in Hr by lia. rewrite Hr. rewrite <- (Z2Nat.id o) by lia. by rewrite lookup_z_nat.
Qed.

(** The text of a buffer is the text of its bytes. *)
Theorem hex_encode_correct `{!HexOk} b : Buffer.ok b → Buffer.size b < two64 →
  ∃ bs, Buffer.as_bytes b (Z.to_nat (Buffer.size b)) = Some bs ∧ buffer_hex_encode b = Some (hex_string bs).
Proof.
  intros Hok Hs. destruct (buffer_bytes b Hok Hs) as (bs & Hbs & Hl & _ & Hh). exists bs. split; [done|].
  destruct Hok as (h & H60 & Hn & Hc & _). unfold buffer_hex_encode. rewrite as_usize_small, <- Hl by lia. eapply node_hex_ok; [done|lia|lia|done].
Qed.

(** A buffer is read back from its text with the same size and bytes. *)
Theorem serialize_roundtrip `{!HexOk} b : Buffer.ok b → Buffer.size b < two64 →
  ∃ s b', buffer_serialize b = Some s ∧ buffer_visit_str s = Ok b' ∧ Buffer.ok b' ∧ Buffer.size b' = Buffer.size b ∧
    ∀ o, 0 <= o → Buffer.read_byte b' o = Buffer.read_byte b o.
Proof.
  intros Hok Hs. destruct (buffer_bytes b Hok Hs) as (bs & Hbs & Hl & Hd & Hh).
  destruct (Buffer.from_bytes_ok bs Hd ltac:(lia)) as (b' & Hb' & Hok' & Hs' & Hr).
  exists (hex_string bs), b'. split; [unfold buffer_serialize; by rewrite as_usize_small, Hbs by lia|]. split; [unfold buffer_visit_str; by rewrite hex_inverse, Hb'|].
  split; [done|]. split; [lia|]. intros o Ho. rewrite Hr by done. unfold Buffer.read_byte. rewrite Hl.
  destruct (Z.ltb_spec o (Buffer.size b)), (Z.leb_spec (Buffer.size b) o); try lia; [|done]. symmetry. apply Hh. lia.
Qed.

(** ** Trees from byte strings *)
Lemma internal_from_bytes_ok h v : (1 <= h)%nat → Z.of_nat (length v) <= cap h → digits_ok 256 v →
  ∃ n, internal_from_bytes h (cap h) v = Some n ∧ node_ok h n ∧
    ∀ o, 0 <= o < cap h → node_read_byte n o = if o <? Z.of_nat (length v) then lookup_z v o else Some 0.
Proof.
  revert v. induction h as [|h IH]; intros v Hh Hc Hd; [lia|]. cbn [internal_from_bytes]. destruct h as [|h].
  - change (cap 1) with 32 in *. unfold leaf_from_bytes. rewrite (proj2 (Nat.leb_le _ _)) by lia. eexists. split; [done|]. split.
    + constructor; [lia|rewrite length_app, length_replicate; lia|]. apply Forall_app. split; [done|]. apply Forall_replicate. lia.
    + intros o Ho. cbn [node_read_byte]. rewrite <- (Z2Nat.id o), !lookup_z_nat by lia. destruct (Z.ltb_spec (Z.of_nat (Z.to_nat o)) (Z.of_nat (length v))).
      * apply lookup_app_l. lia.
      * rewrite lookup_app_r by lia. apply lookup_replicate_2. lia.
  - set (h' := S h) in *. rewrite cap_half. pose proof (cap_pos h'). rewrite cap_S in Hc.
    destruct (Nat.eqb_spec (length v) 0) as [Hz|Hz].
    { destruct (new_empty_internal_ok (S h') ltac:(lia)) as (e & He & Hok & Hr). exists e. split; [done|]. split; [done|]. intros o Ho.
      rewrite (proj2 (Z.ltb_ge _ _)) by lia. by apply Hr. }
    destruct (Z.leb_spec (Z.of_nat (length v)) (cap h')) as [Hle|Hgt].
    + destruct (IH v ltac:(lia) Hle Hd) as (l & -> & Hl & Hrl). destruct (new_empty_internal_ok h' ltac:(lia)) as (e & -> & He & Hre).
      cbn [mbind option_bind]. eexists. split; [done|]. split; [by constructor|]. intros o Ho. cbn [node_read_byte internal_read_byte internal_new].
      rewrite cap_half. rewrite cap_S in Ho. destruct (Z.ltb_spec o (cap h')); [by apply Hrl; lia|]. rewrite Hre by lia.
      by rewrite (proj2 (Z.ltb_ge _ _)) by lia.
    + set (k := Z.to_nat (cap h')). assert (length (take k v) = k) as Hk by (rewrite length_take; lia).
      destruct (IH (take k v)) as (l & -> & Hl & Hrl); [lia|lia|by apply Forall_take|].
      destruct (IH (drop k v)) as (r & -> & Hr & Hrr); [lia|rewrite length_drop; lia|by apply Forall_drop|].
      cbn [mbind option_bind]. eexists. split; [done|]. split; [by constructor|]. intros o Ho. cbn [node_read_byte internal_read_byte internal_new].
      rewrite cap_half. rewrite cap_S in Ho. destruct (Z.ltb_spec o (cap h')).
      * rewrite Hrl by lia. rewrite !(proj2 (Z.ltb_lt _ _)) by lia. rewrite <- (Z2Nat.id o), !lookup_z_nat by lia. apply lookup_take_lt. lia.
      * rewrite Hrr by lia. rewrite length_drop. destruct (Z.ltb_spec o (Z.of_nat (length v))).
        -- rewrite (proj2 (Z.ltb_lt _ _)) by lia. replace (o - cap h') with (Z.of_nat (Z.to_nat (o - cap h'))) by lia.
           rewrite <- (Z2Nat.id o) at 2 by lia. rewrite !lookup_z_nat, lookup_drop. f_equal. lia.
        -- by rewrite (proj2 (Z.ltb_ge _ _)) by lia.
Qed.

Lemma levels_loop_ok fuel x h : (1 <= h)%nat → x <= cap (h + fuel) → ∃ h', levels_loop fuel x h (cap h) = Some (h', cap h') ∧ (h <= h')%nat ∧ x <= cap h'.
Proof.
  revert h. induction fuel as [|fuel IH]; intros h Hh Hx; cbn [levels_loop]; destruct (Z.ltb_spec (cap h) x).
  - rewrite Nat.add_0_r in Hx. lia.
  - by exists h.
  - destruct (IH (h + 1)%nat ltac:(lia)) as (h' & Hl & ? & ?); [by replace (h + 1 + fuel)%nat with (h + S fuel)%nat by lia|].
    exists h'. split; [|lia]. rewrite <- Hl. f_equal. rewrite Nat.add_1_r, cap_S. lia.
  - by exists h.
Qed.

(** A tree built from more than 32 and less than [2^64] bytes holds them, with
    zeros behind. *)
Theorem minimal_internal_from_bytes_ok v : (32 < length v)%nat → Z.of_nat (length v) < two64 → digits_ok 256 v →
  ∃ h n, minimal_internal_from_bytes v = Some n ∧ node_ok h n ∧ Z.of_nat (length v) <= cap h ∧
    ∀ o, 0 <= o < cap h → node_read_byte n o = if o <? Z.of_nat (length v) then lookup_z v o else Some 0.
Proof.
  intros Hl Hs Hd. unfold minimal_internal_from_bytes, levels_needed. rewrite (proj2 (Nat.ltb_lt _ _)) by done.
  destruct (levels_loop_ok 128 (Z.of_nat (length v)) 1 ltac:(lia)) as (h & He & Hh & Hc).
  { etrans; [apply Z.lt_le_incl, Hs|]. by vm_compute. }
  change (cap 1) with 32 in He. rewrite He. cbn [mbind option_bind].
  destruct (internal_from_bytes_ok h v Hh Hc Hd) as (n & Hn & Hok & Hr). by exists h, n.
Qed.
End text.

(** ** An instance of the hex crate: lower-case digits *)
Definition hex_char (n : Z) : ascii := ascii_of_nat (Z.to_nat (if n <? 10 then 48 + n else 87 + n)).
Definition hex_value (a : ascii) : option Z :=
  let n := Z.of_nat (nat_of_ascii a) in
  if (48 <=? n) && (n <=? 57) then Some (n - 48) else if (97 <=? n) && (n <=? 102) then Some (n - 87) else None.

Fixpoint lower_hex_string (bs : list Z) : string :=
  match bs with
  | [] => EmptyString
  | x :: bs => String (hex_char (x / 16)) (String (hex_char (x mod 16)) (lower_hex_string bs))
  end.
Fixpoint lower_hex_bytes (s : string) : option (list Z) :=
  match s with
  | EmptyString => Some []
  | String a (String b s) => x ← hex_value a; y ← hex_value b; bs ← lower_hex_bytes s; Some (16 * x + y :: bs)
  | _ => None
  end.
Definition lower_hex : Hex := {| hex_string := lower_hex_string; hex_bytes := lower_hex_bytes |}.

Lemma hex_value_char n : 0 <= n < 16 → hex_value (hex_char n) = Some n.
Proof.
  intros Hn. unfold hex_value, hex_char. rewrite nat_ascii_embedding by (destruct (n <? 10); lia).
  destruct (Z.ltb_spec n 10); rewrite Z2Nat.id by lia; [rewrite (proj2 (Z.leb_le 48 _)), (proj2 (Z.leb_le _ 57)) by lia; cbn [andb]; f_equal; lia|].
  rewrite (proj2 (Z.leb_gt _ 57)), andb_false_r by lia. rewrite (proj2 (Z.leb_le 97 _)), (proj2 (Z.leb_le _ 102)) by lia. cbn [andb]. f_equal. lia.
Qed.

#[global] Instance lower_hex_ok : @HexOk lower_hex.
Proof.
  split; cbn [hex_string hex_bytes lower_hex].
  - intros bs bs'. induction bs as [|x bs IH]; [done|]. cbn [lower_hex_string app]. by rewrite IH.
  - intros bs. induction bs as [|x bs IH]; [done|]. cbn [lower_hex_string String.length length]. rewrite IH. lia.
  - intros bs. induction 1 as [|x bs Hx _ IH]; [done|]. cbn [lower_hex_string lower_hex_bytes].
    pose proof (Z.mod_pos_bound x 16 ltac:(lia)). assert (0 <= x / 16 < 16) by (split; [apply Z.div_pos; lia|apply Z.div_lt_upper_bound; lia]).
    rewrite !hex_value_char by lia. cbn [mbind option_bind]. rewrite IH. cbn [mbind option_bind]. do 2 f_equal. pose proof (Z.div_mod x 16). lia.
Qed.

(** ** Examples *)

(** The two ways to make a tree of the same bytes give different trees, and so
    different hashes: the empty parts are one level deeper when a buffer grows. *)
Theorem from_bytes_trees_differ : let v := replicate 96 1 in
  match @Buffer.from_bytes toy_crypto v, @minimal_internal_from_bytes toy_crypto v with
  | Some b, Some n => Buffer.root b ≠ n ∧ @hash toy_crypto (Buffer.root b) ≠ @hash toy_crypto n
  | _, _ => False
  end.
Proof. vm_compute. split; discriminate. Qed.
