(* ===== verification/Values.v ===== *)
(** * Code points, values and instructions (src/src/mavm.rs)

    [CodePt], [Value] and [Instruction] with the operations the linker and
    the emulator apply to them.  A Rust [panic!] is [None] in a function that
    cannot fail otherwise; [replace_labels], which returns
    [Result<Value, Label>], is an [outcome]. *)

From Stdlib Require Import ZArith Lia.
From S2P Require Import Prelude U256 Pos Opcodes Crypto BufferTree.

(** ** Code points *)
Module CodePt.

Inductive t :=
| Internal (pc : nat)
| External (slot : nat)          (* slot in imported funcs list *)
| InSegment (seg offset : nat)   (* in code segment, at offset *)
| Null.                          (* initial value of the error codepoint register *)

#[global] Instance eq_dec : EqDecision t.
Proof. solve_decision. Defined.

Definition new_internal (pc : nat) : t := Internal pc.
Definition new_external (name : nat) : t := External name.
Definition new_in_segment (seg_num offset : nat) : t := InSegment seg_num offset.

(** Code in a segment runs from high offsets to low ones. *)
Definition incr (cp : t) : option t :=
  match cp with
  | Internal pc => Some (Internal (pc + 1))
  | InSegment seg offset => if Nat.eqb offset 0 then None else Some (InSegment seg (offset - 1))
  | External _ => None
  | Null => None
  end.

(** Relocating a segment or null code point panics. *)
Definition relocate (cp : t) (int_offset ext_offset : nat) : option t :=
  match cp with
  | Internal pc => Some (Internal (pc + int_offset))
  | External off => Some (External (off + ext_offset))
  | InSegment _ _ => None
  | Null => None
  end.

End CodePt.

(** ** Values *)
Module Value.

#[warnings="-register-all"]
Inductive t : Type :=
| Int (i : Z)
| Tuple (v : list t)
| CodePoint (cp : CodePt.t)
| Label (l : Label.t)
| Buffer (b : Buffer.t).

(** Induction with the hypothesis for every component of a tuple. *)
Lemma tree_ind (P : t → Prop) :
  (∀ i, P (Int i)) → (∀ v, Forall P v → P (Tuple v)) → (∀ cp, P (CodePoint cp)) →
  (∀ l, P (Label l)) → (∀ b, P (Buffer b)) → ∀ v, P v.
Proof.
  intros HI HT HC HL HB. fix IH 1.
  intros [i|v|cp|l|b]; [apply HI| |apply HC|apply HL|apply HB].
  apply HT. induction v as [|x v IHv]; constructor; [apply IH|apply IHv].
Qed.

#[global] Instance eq_dec : EqDecision t.
Proof.
  unfold EqDecision, Decision. fix IH 1.
  intros [i|v|cp|l|b] [i'|v'|cp'|l'|b']; try (right; congruence).
  - destruct (decide (i = i')); [left|right]; congruence.
  - assert ({v = v'} + {v ≠ v'}) as [?|?]; [|left; congruence|right; congruence].
    revert v'. induction v as [|x v IHv]; intros [|y v']; try (right; congruence); [by left|].
    destruct (IH x y); [|right; congruence]. destruct (IHv v'); [left|right]; congruence.
  - destruct (decide (cp = cp')); [left|right]; congruence.
  - destruct (decide (l = l')); [left|right]; congruence.
  - destruct (decide (b = b')); [left|right]; congruence.
Defined.

(** A zero-sized tuple holds no data. *)
Definition none : t := Tuple [].
Definition new_tuple (v : list t) : t := Tuple v.
Definition copy_buffer (v : Buffer.t) : t := Buffer v.
Definition is_none (v : t) : bool := bool_decide (v = none).

Definition type_insn_result (v : t) : option Z :=
  match v with
  | Int _ => Some 0%Z
  | CodePoint _ => Some 1%Z
  | Tuple _ => Some 3%Z
  | Buffer _ => Some 4%Z
  | Label _ => None
  end.

Definition to_usize (v : t) : option Z :=
  match v with
  | Int i => Uint256.to_usize i
  | _ => None
  end.

(** Every label becomes the code point the map gives it; the first label
    without one is the error. *)
Fixpoint replace_labels (label_map : gmap Label.t CodePt.t) (v : t) : outcome Label.t t :=
  match v with
  | Int _ => Ok v
  | CodePoint _ => Ok v
  | Buffer _ => Ok v
  | Label label =>
      match label_map !! label with
      | Some pc => Ok (CodePoint pc)
      | None => Err label
      end
  | Tuple tup => new_vec ← mapM (replace_labels label_map) tup; Ok (new_tuple new_vec)
  end.

(** [l[len - 1] = f(l[len - 1])]; an empty vector panics. *)
Definition update_last {A} (f : A → option A) :=
  fix go (l : list A) : option (list A) :=
    match l with
    | [] => None
    | [x] => y ← f x; Some [y]
    | x :: l => ys ← go l; Some (x :: ys)
    end.

(** The last component, followed downwards, must end in a [none]. *)
Fixpoint replace_last_none (val : t) (self : t) : option t :=
  if is_none self then Some val
  else
    match self with
    | Tuple tup => new_tup ← update_last (replace_last_none val) tup; Some (new_tuple new_tup)
    | _ => None
    end.

(** The components in order, with the largest of their results. *)
Definition relocate_list {A} (f : A → option (A * nat)) :=
  fix go (l : list A) (max_func_offset : nat) : option (list A * nat) :=
    match l with
    | [] => Some ([], max_func_offset)
    | x :: l =>
        '(y, new_func_offset) ← f x;
        '(ys, m) ← go l (if Nat.ltb max_func_offset new_func_offset
                         then new_func_offset else max_func_offset);
        Some (y :: ys, m)
    end.

Fixpoint relocate (int_offset ext_offset func_offset : nat) (v : t) : option (t * nat) :=
  match v with
  | Int _ => Some (v, 0)
  | Buffer _ => Some (v, 0)
  | Tuple l =>
      '(rel_v, m) ← relocate_list (relocate int_offset ext_offset func_offset) l 0; Some (new_tuple rel_v, m)
  | CodePoint cpt => cp ← CodePt.relocate cpt int_offset ext_offset; Some (CodePoint cp, 0)
  | Label label =>
      let '(new_label, new_func_offset) := Label.relocate label int_offset ext_offset func_offset in
      Some (Label new_label, new_func_offset)
  end.

Fixpoint xlate_labels (label_map : gmap Label.t Label.t) (v : t) : t :=
  match v with
  | Int _ | CodePoint _ | Buffer _ => v
  | Tuple l => new_tuple (List.map (xlate_labels label_map) l)
  | Label label =>
      match label_map !! label with
      | Some label2 => Label label2
      | None => v
      end
  end.

Section hash.
Context `{Crypto}.

Definition new_buffer (v : list Z) : option t := Buffer <$> Buffer.from_bytes v.

Definition avm_hash2 (v1 v2 : t) : option t :=
  match v1, v2 with
  | Int ui, Int ui2 =>
      Some (Int (Uint256.from_bytes (keccak256 (Uint256.to_bytes_be ui ++ Uint256.to_bytes_be ui2))))
  | _, _ => None
  end.

Definition codept_avm_hash (cp : CodePt.t) : option t :=
  match cp with
  | CodePt.Internal sz => avm_hash2 (Int 3) (Int (Z.of_nat sz))
  | CodePt.External _ => Some (Int 0)
  | CodePt.InSegment _ _ => Some (Int 0)
  | CodePt.Null => Some (Int 0)
  end.

Definition label_avm_hash (l : Label.t) : option t :=
  match l with
  | Label.Func sid => avm_hash2 (Int 4) (Int (Z.of_nat sid))
  | Label.Anon n => avm_hash2 (Int 5) (Int (Z.of_nat n))
  | Label.External n => avm_hash2 (Int 6) (Int (Z.of_nat n))
  | Label.Evm _ => None
  end.

Fixpoint avm_hash (v : t) : option t :=
  match v with
  | Int ui => Some (Int (Uint256.avm_hash keccak256 ui))
  | Buffer buf => Some (Int (Buffer.avm_hash buf))
  | Tuple l =>
      let fix go (l : list t) (acc : Z) : option Z :=
        match l with
        | [] => Some acc
        | x :: l =>
            h ← avm_hash x;
            match h with
            | Int ui => go l (Uint256.avm_hash2 keccak256 acc ui)
            | _ => None
            end
        end in
      Int <$> go l 0%Z
  | CodePoint cp => h ← codept_avm_hash cp; avm_hash2 (Int 1) h
  | Label label => h ← label_avm_hash label; avm_hash2 (Int 2) h
  end.

End hash.

(** ** Well-formed run-time values: 256-bit integers, tuples whose length is a
    machine integer, well-formed buffers, and no label left (the linker replaces them by code points) *)
Section wf.
Context `{Crypto}.

Fixpoint wf (v : t) : Prop :=
  match v with
  | Int i => Uint256.wf i
  | Tuple l =>
      (Z.of_nat (length l) < two64)%Z ∧
      (fix all (l : list t) : Prop := match l with [] => True | x :: l => wf x ∧ all l end) l
  | Buffer b => Buffer.ok b
  | CodePoint _ => True
  | Label _ => False
  end.

Lemma wf_tuple l : wf (Tuple l) ↔ (Z.of_nat (length l) < two64)%Z ∧ Forall wf l.
Proof.
  cbn [wf]. apply and_iff_compat_l. induction l as [|x l IH]; [by split|].
  rewrite Forall_cons_iff, <- IH. done.
Qed.

Lemma wf_none : wf none.
Proof. done. Qed.

Lemma wf_lookup l i v : wf (Tuple l) → l !! i = Some v → wf v.
Proof. rewrite wf_tuple. intros [_ Hl] Hv. by eapply Forall_lookup_1 in Hv. Qed.

Context `{!CryptoOk}.

Lemma keccak_wf b : Uint256.wf (Uint256.from_bytes (keccak256 b)).
Proof.
  destruct (keccak256_ok b) as [Hl Hd]. apply Uint256.wf_from_bytes; [done|]. by rewrite Hl.
Qed.

Lemma node_hash_wf h n : node_ok h n → Uint256.wf (hash n).
Proof. destruct 1; apply keccak_wf. Qed.

(** A well-formed value has a hash, and it is a 256-bit integer. *)
Lemma avm_hash_wf v : wf v → ∃ h, avm_hash v = Some (Int h) ∧ Uint256.wf h.
Proof.
  induction v as [i|l IH|cp|l|b] using tree_ind; intros Hwf.
  - eexists; split; [done|]. apply keccak_wf.
  - apply wf_tuple in Hwf as [_ Hwf]. cbn [avm_hash].
    assert (Uint256.wf 0) as Hz by done. revert Hz. generalize 0%Z.
    induction IH as [|x l Hx _ IHl]; intros acc Hacc; [by eexists|].
    apply Forall_cons_iff in Hwf as [Hwx Hwl]. destruct (Hx Hwx) as (h & -> & Hh). simpl.
    apply IHl; [done|]. apply keccak_wf.
  - simpl. destruct cp; simpl; eexists; (split; [done|]); apply keccak_wf.
  - done.
  - destruct Hwf as (h & _ & Hn & _). eexists; split; [done|]. by eapply node_hash_wf.
Qed.

Lemma type_insn_result_wf v : wf v → ∃ n, type_insn_result v = Some n ∧ (0 <= n < 5)%Z.
Proof. destruct v; intros Hv; simpl in *; [..|done|]; eexists; (split; [done|lia]). Qed.

End wf.

End Value.

(** ** Instructions *)
Module Instruction.

Record t (T : Type) := mk {
  opcode : T;
  immediate : option Value.t;
  debug_info : DebugInfo;
}.
Arguments mk {T} opcode immediate debug_info.
Arguments opcode {T} _.
Arguments immediate {T} _.
Arguments debug_info {T} _.

#[global] Instance eq_dec {T} `{EqDecision T} : EqDecision (t T).
Proof. solve_decision. Defined.

Definition new {T} (op : T) (imm : option Value.t) (d : DebugInfo) : t T := mk op imm d.
Definition from_opcode {T} (op : T) (d : DebugInfo) : t T := new op None d.
Definition from_opcode_imm {T} (op : T) (imm : Value.t) (d : DebugInfo) : t T := new op (Some imm) d.

Definition replace_labels {T} (insn : t T) (label_map : gmap Label.t CodePt.t) : outcome Label.t (t T) :=
  match immediate insn with
  | Some val =>
      v ← Value.replace_labels label_map val;
      Ok (from_opcode_imm (opcode insn) v (debug_info insn))
  | None => Ok insn
  end.

Definition xlate_labels {T} (insn : t T) (xlate_map : gmap Label.t Label.t) : t T :=
  match immediate insn with
  | Some val => from_opcode_imm (opcode insn) (Value.xlate_labels xlate_map val) (debug_info insn)
  | None => insn
  end.

Definition is_pure (insn : t Opcode.t) : bool := Opcode.is_pure (opcode insn).

Definition get_label (insn : t Opcode.t) : option Label.t :=
  match opcode insn with
  | Opcode.Label label => Some label
  | _ => None
  end.

Definition relocate (insn : t Opcode.t) (int_offset ext_offset func_offset globals_offset : nat)
    : option (t Opcode.t * nat) :=
  let max_func_offset := func_offset in
  let '(op, max_func_offset) :=
    match opcode insn with
    | Opcode.PushExternal off => (Opcode.PushExternal (off + ext_offset), max_func_offset)
    | Opcode.Label label =>
        let '(new_label, new_func_offset) :=
          Label.relocate label int_offset ext_offset func_offset in
        (Opcode.Label new_label,
         if Nat.ltb max_func_offset new_func_offset then new_func_offset else max_func_offset)
    | Opcode.GetGlobalVar idx => (Opcode.GetGlobalVar (idx + globals_offset), max_func_offset)
    | Opcode.SetGlobalVar idx => (Opcode.SetGlobalVar (idx + globals_offset), max_func_offset)
    | op => (op, max_func_offset)
    end in
  match immediate insn with
  | Some imm =>
      '(new_imm, new_func_offset) ← Value.relocate int_offset ext_offset func_offset imm;
      Some (new op (Some new_imm) (debug_info insn),
            if Nat.ltb max_func_offset new_func_offset then new_func_offset else max_func_offset)
  | None => Some (new op None (debug_info insn), max_func_offset)
  end.

End Instruction.
