(* ===== verification/Upload.v ===== *)
(** * Uploading code (src/src/upload.rs and the [_upload] functions of
    src/src/mavm.rs)

    [CodeUploader] turns the instructions of a linked program, last one first,
    into batches of bytes.  A receiver is specified by [read_insn]: it reads
    back every instruction ([upload_roundtrip]).  The RLP encoding of byte
    strings (the rlp crate) is an argument; of it the receiver needs that
    encodings can be told apart from what follows them.  A Rust panic is
    [None]. *)

From Stdlib Require Import ZArith Lia.
From S2P Require Import Prelude U256 Pos Opcodes Crypto BufferTree Values.

#[local] Set Warnings "-clear-no-such-hyp".

Record CodeUploader := mkUploader {
  build_buffer : list Z;
  instructions : list (list Z);
  num_so_far : nat;
  num_total : nat;
}.
Definition _new (num_total : nat) : CodeUploader := mkUploader [] [] 0 num_total.

Definition _push_byte (u : CodeUploader) (b : Z) : CodeUploader :=
  mkUploader (build_buffer u ++ [b]) (instructions u) (num_so_far u) (num_total u).
Definition _push_bytes (u : CodeUploader) (b : list Z) : CodeUploader :=
  mkUploader (build_buffer u ++ b) (instructions u) (num_so_far u) (num_total u).

(** A difference of [usize]s, which wraps around. *)
Definition _translate_pc (u : CodeUploader) (pc : nat) : Z := ((Z.of_nat (num_total u) - Z.of_nat pc) mod two64)%Z.

Definition _finish_batch (u : CodeUploader) : CodeUploader :=
  match build_buffer u with
  | [] => u
  | _ => mkUploader [] (instructions u ++ [build_buffer u]) (num_so_far u) (num_total u)
  end.

(** ** Bytes of integers *)
Lemma minimal_bytes x : Uint256.wf x → length (Uint256.to_bytes_minimal x) <= 32 ∧ Uint256.from_bytes (Uint256.to_bytes_minimal x) = x.
Proof.
  intros [Hx0 Hx]. unfold Uint256.to_bytes_minimal, Uint256.is_zero, Uint256.biguint_to_bytes_be.
  destruct (Z.eqb_spec x 0) as [->|Hne]; [split; [cbn; lia|reflexivity]|].
  pose proof (Uint256.digit_count_le 8 32 x ltac:(lia) ltac:(rewrite Uint256.two256_eq in *; lia)) as Hc.
  pose proof (Uint256.pow_digits 8 x ltac:(lia) ltac:(lia)) as Hp. change (2 ^ 8)%Z with 256%Z in Hp.
  rewrite length_digits_be. split; [lia|]. apply undigits_digits_be; [lia|]. done.
Qed.

Lemma wf_of_nat n : (Z.of_nat n < two64)%Z → Uint256.wf (Z.of_nat n).
Proof. unfold Uint256.wf. intros. split; [lia|]. rewrite Uint256.two256_eq. unfold two64 in *. lia. Qed.

Section upload.
(** [rlp::encode] of a byte string *)
Context (rlp : list Z → list Z).

Definition codept_upload (cp : CodePt.t) (u : CodeUploader) : option CodeUploader :=
  match cp with
  | CodePt.Internal pc =>
      let u := _push_byte u 1 in
      Some (_push_bytes u (Uint256.rlp_encode rlp (Uint256.from_usize (_translate_pc u pc))))
  | _ => None
  end.

Fixpoint value_upload (v : Value.t) (u : CodeUploader) : option CodeUploader :=
  match v with
  | Value.Int ui => Some (_push_bytes (_push_byte u 0) (Uint256.rlp_encode rlp ui))
  | Value.Tuple tup =>
      (fix go (l : list Value.t) (u : CodeUploader) : option CodeUploader :=
         match l with
         | [] => Some u
         | subval :: l => u ← value_upload subval u; go l u
         end) tup (_push_byte u ((10 + Z.of_nat (length tup)) mod 256)%Z)
  | Value.CodePoint cp => codept_upload cp u
  | Value.Buffer buf => if (Buffer.size buf =? 0)%Z then Some (_push_byte u 2) else None
  | Value.Label _ => None
  end.

Definition insn_upload (i : Instruction.t AVMOpcode.t) (u : CodeUploader) : option CodeUploader :=
  let u := _push_byte u (AVMOpcode.to_number (Instruction.opcode i)) in
  match Instruction.immediate i with
  | Some val => value_upload val (_push_byte u 1)
  | None => Some (_push_byte u 0)
  end.

Definition _serialize_one (i : Instruction.t AVMOpcode.t) (u : CodeUploader) : option CodeUploader :=
  u ← insn_upload i u;
  Some (_finish_batch (mkUploader (build_buffer u) (instructions u) (num_so_far u + 1) (num_total u))).

Fixpoint serialize_all (code : list (Instruction.t AVMOpcode.t)) (u : CodeUploader) : option CodeUploader :=
  match code with
  | [] => Some u
  | i :: code => u ← _serialize_one i u; serialize_all code u
  end.

(** [_new_from_file], after the program has been read *)
Definition _new_from_code (code : list (Instruction.t AVMOpcode.t)) : option CodeUploader :=
  serialize_all (rev code) (_new (length code)).

Definition _finalize (u : CodeUploader) : list (list Z) := instructions u.
Definition _to_flat_vec (u : CodeUploader) : list Z := concat (instructions u).

(** ** The bytes of a value *)
Section bytes.
Context (total : nat).

Fixpoint value_bytes (v : Value.t) : option (list Z) :=
  match v with
  | Value.Int ui => Some (0%Z :: Uint256.rlp_encode rlp ui)
  | Value.Tuple tup =>
      bs ← (fix go (l : list Value.t) : option (list Z) :=
              match l with
              | [] => Some []
              | subval :: l => b ← value_bytes subval; bs ← go l; Some (b ++ bs)
              end) tup;
      Some (((10 + Z.of_nat (length tup)) mod 256)%Z :: bs)
  | Value.CodePoint (CodePt.Internal pc) =>
      Some (1%Z :: Uint256.rlp_encode rlp ((Z.of_nat total - Z.of_nat pc) mod two64)%Z)
  | Value.Buffer buf => if (Buffer.size buf =? 0)%Z then Some [2%Z] else None
  | _ => None
  end.
Definition insn_bytes (i : Instruction.t AVMOpcode.t) : option (list Z) :=
  match Instruction.immediate i with
  | Some val => bs ← value_bytes val; Some (AVMOpcode.to_number (Instruction.opcode i) :: 1%Z :: bs)
  | None => Some [AVMOpcode.to_number (Instruction.opcode i); 0%Z]
  end.
End bytes.

Lemma push_nil u : _push_bytes u [] = u.
Proof using Type. destruct u. unfold _push_bytes. cbn. by rewrite app_nil_r. Qed.
Lemma push_push u a b : _push_bytes (_push_bytes u a) b = _push_bytes u (a ++ b).
Proof using Type. unfold _push_bytes. cbn. by rewrite app_assoc. Qed.
Lemma push_one u b : _push_byte u b = _push_bytes u [b].
Proof using Type. done. Qed.

Lemma value_upload_bytes v : ∀ u, value_upload v u = (bs ← value_bytes (num_total u) v; Some (_push_bytes u bs)).
Proof using Type.
  induction v as [i|tup IH|cp|l|b] using Value.tree_ind; intros u; cbn [value_upload value_bytes].
  - cbn. by rewrite push_one, push_push.
  - rewrite push_one.
    assert (∀ u, (fix go (l : list Value.t) (u : CodeUploader) : option CodeUploader :=
         match l with
         | [] => Some u
         | subval :: l => u ← value_upload subval u; go l u
         end) tup u = bs ← (fix go (l : list Value.t) : option (list Z) :=
              match l with
              | [] => Some []
              | subval :: l => b ← value_bytes (num_total u) subval; bs ← go l; Some (b ++ bs)
              end) tup; Some (_push_bytes u bs)) as Hall.
    { clear u. induction IH as [|x tup Hx _ IHt]; intros u; [cbn; by rewrite push_nil|]. rewrite Hx.
      destruct (value_bytes (num_total u) x) as [bs|]; [|done]. cbn. rewrite IHt. cbn.
      destruct ((fix go (l : list Value.t) : option (list Z) := _) tup) as [bss|]; [|done]. cbn. by rewrite push_push. }
    rewrite Hall. cbn. destruct ((fix go (l : list Value.t) : option (list Z) := _) tup) as [bss|]; [|done]. cbn. by rewrite push_push.
  - destruct cp; try done. cbn. unfold _translate_pc. by rewrite push_one, push_push.
  - done.
  - by destruct (Buffer.size b =? 0)%Z.
Qed.

Lemma insn_upload_bytes i u : insn_upload i u = (bs ← insn_bytes (num_total u) i; Some (_push_bytes u bs)).
Proof using Type.
  unfold insn_upload, insn_bytes. destruct (Instruction.immediate i) as [v|].
  - rewrite value_upload_bytes. cbn. destruct (value_bytes _ v); [|done]. cbn. by rewrite !push_one, !push_push.
  - cbn. by rewrite !push_one, !push_push.
Qed.

(** Every instruction becomes one batch, whatever was there before. *)
Lemma serialize_all_bytes code : ∀ u, build_buffer u = [] →
  serialize_all code u =
  bss ← mapM (insn_bytes (num_total u)) code;
  Some (mkUploader [] (instructions u ++ bss) (num_so_far u + length code) (num_total u)).
Proof using Type.
  induction code as [|i code IH]; intros u Hu; cbn [serialize_all mapM].
  - cbn. destruct u as [b ins n t]. cbn in *. subst b. by rewrite app_nil_r, Nat.add_0_r.
  - unfold _serialize_one. rewrite insn_upload_bytes. destruct (insn_bytes (num_total u) i) as [bs|] eqn:Ei; [|done]. cbn.
    assert (bs ≠ []) as Hne.
    { unfold insn_bytes in Ei. destruct (Instruction.immediate i); [apply bind_Some in Ei as (? & _ & [= <-])|injection Ei as <-]; done. }
    unfold _finish_batch. cbn. rewrite Hu. destruct bs as [|b0 bs]; [done|]. cbn. rewrite IH by done. cbn.
    destruct (mapM _ code) as [bss|]; [|done]. cbn. rewrite <- app_assoc. do 2 f_equal. lia.
Qed.

(** ** The receiver *)
Section receiver.
(** A decoder of RLP strings: the bytes and what follows. *)
Context (unrlp : list Z → option (list Z * list Z)).
Hypothesis unrlp_rlp : ∀ b rest, (length b <= 32)%nat → unrlp (rlp b ++ rest) = Some (b, rest).
Hypothesis unrlp_empty : ∀ rest, unrlp (128%Z :: rest) = Some ([], rest).
Context (empty : Buffer.t) (total : nat).
Hypothesis empty_size : Buffer.size empty = 0%Z.

Fixpoint read_values (read : list Z → option (Value.t * list Z)) (n : nat) (bs : list Z) : option (list Value.t * list Z) :=
  match n with
  | O => Some ([], bs)
  | S n => '(v, bs) ← read bs; '(vs, bs) ← read_values read n bs; Some (v :: vs, bs)
  end.

Fixpoint read_value (fuel : nat) (bs : list Z) : option (Value.t * list Z) :=
  match fuel, bs with
  | S fuel, tag :: bs =>
      if (tag =? 0)%Z then '(b, bs) ← unrlp bs; Some (Value.Int (Uint256.from_bytes b), bs)
      else if (tag =? 1)%Z then
        '(b, bs) ← unrlp bs; Some (Value.CodePoint (CodePt.Internal (total - Z.to_nat (Uint256.from_bytes b))), bs)
      else if (tag =? 2)%Z then Some (Value.Buffer empty, bs)
      else if (tag <? 10)%Z then None
      else '(vs, bs) ← read_values (read_value fuel) (Z.to_nat (tag - 10)) bs; Some (Value.Tuple vs, bs)
  | _, _ => None
  end.

Definition read_insn (fuel : nat) (bs : list Z) : option (Instruction.t AVMOpcode.t * list Z) :=
  match bs with
  | op :: has_imm :: bs =>
      opcode ← AVMOpcode.from_number op;
      if (has_imm =? 0)%Z then Some (Instruction.mk opcode None DebugInfo_default, bs)
      else '(v, bs) ← read_value fuel bs; Some (Instruction.mk opcode (Some v) DebugInfo_default, bs)
  | _ => None
  end.

(** Values that linked programs hold: integers of 256 bits, tuples of at most
    eight values, code points inside the program, empty buffers. *)
Fixpoint uploadable (v : Value.t) : Prop :=
  match v with
  | Value.Int i => Uint256.wf i
  | Value.Tuple tup => length tup <= 8 ∧ (fix go (l : list Value.t) : Prop := match l with [] => True | x :: l => uploadable x ∧ go l end) tup
  | Value.CodePoint (CodePt.Internal pc) => pc <= total
  | Value.Buffer b => b = empty
  | _ => False
  end.
Fixpoint depth (v : Value.t) : nat :=
  match v with
  | Value.Tuple tup => S ((fix go (l : list Value.t) : nat := match l with [] => 0 | x :: l => Nat.max (depth x) (go l) end) tup)
  | _ => 1
  end.

Hypothesis total_small : (Z.of_nat total < two64)%Z.

Lemma unrlp_int x rest : Uint256.wf x → ∃ b, unrlp (Uint256.rlp_encode rlp x ++ rest) = Some (b, rest) ∧ Uint256.from_bytes b = x.
Proof using unrlp_rlp unrlp_empty.
  intros Hx. unfold Uint256.rlp_encode. destruct (Z.eqb_spec x 0) as [->|Hne]; cbn [Uint256.is_zero].
  - change (Uint256.is_zero 0) with true. cbn [app]. rewrite unrlp_empty. by exists [].
  - assert (Uint256.is_zero x = false) as -> by (unfold Uint256.is_zero; by apply Z.eqb_neq).
    destruct (minimal_bytes x Hx) as [Hl Hb]. rewrite unrlp_rlp by done. eauto.
Qed.

Lemma read_value_bytes v : uploadable v → ∃ bs, value_bytes total v = Some bs ∧
  ∀ fuel rest, depth v <= fuel → read_value fuel (bs ++ rest) = Some (v, rest).
Proof using unrlp_rlp unrlp_empty total_small empty_size.
  induction v as [i|tup IH|cp|l|b] using Value.tree_ind; cbn [uploadable value_bytes depth]; intros Hv.
  - eexists. split; [done|]. intros [|fuel] rest Hf; [lia|]. cbn [read_value app].
    destruct (unrlp_int i rest Hv) as (b & Hb & Hi). rewrite Hb. cbn. by rewrite Hi.
  - destruct Hv as [Hlen Hv].
    assert (∃ bs, (fix go (l : list Value.t) : option (list Z) :=
              match l with
              | [] => Some []
              | subval :: l => b ← value_bytes total subval; bs ← go l; Some (b ++ bs)
              end) tup = Some bs ∧
            ∀ fuel rest, (fix go (l : list Value.t) : nat := match l with [] => 0 | x :: l => Nat.max (depth x) (go l) end) tup <= fuel →
              read_values (read_value fuel) (length tup) (bs ++ rest) = Some (tup, rest)) as (bs & -> & Hread).
    { clear Hlen. induction IH as [|x tup Hx _ IHt]; [by exists []|]. destruct Hv as [Hvx Hv]. destruct (Hx Hvx) as (b & Hb & Hr).
      destruct (IHt Hv) as (bs & Hbs & Hrs). rewrite Hb. cbn. rewrite Hbs. cbn. exists (b ++ bs). split; [done|].
      intros fuel rest Hf. cbn [length read_values]. rewrite <- app_assoc, Hr by lia. cbn. by rewrite Hrs by lia. }
    cbn. eexists. split; [done|]. intros [|fuel] rest Hf; [lia|].
    assert ((10 + Z.of_nat (length tup)) mod 256 = 10 + Z.of_nat (length tup))%Z as -> by (apply Z.mod_small; lia).
    cbn [read_value app]. rewrite !(proj2 (Z.eqb_neq (10 + Z.of_nat (length tup)) _)) by lia.
    destruct (Z.ltb_spec (10 + Z.of_nat (length tup)) 10); [lia|].
    replace (Z.to_nat (10 + Z.of_nat (length tup) - 10)) with (length tup) by lia. rewrite (Hread fuel rest (le_S_n _ _ Hf)). reflexivity.
  - destruct cp as [pc| | |]; try done. rewrite Z.mod_small, <- Nat2Z.inj_sub by lia. eexists. split; [done|]. intros [|fuel] rest Hf; [lia|].
    cbn [read_value app]. destruct (unrlp_int (Z.of_nat (total - pc)) rest) as (b & Hb & Hi); [apply wf_of_nat; lia|].
    rewrite Hb. cbn. rewrite Hi, Nat2Z.id. do 4 f_equal. lia.
  - done.
  - subst b. destruct (Z.eqb_spec (Buffer.size empty) 0) as [_|Hne]; [|congruence].
    eexists. split; [done|]. intros [|fuel] rest Hf; [lia|]. done.
Qed.

Definition insn_uploadable (i : Instruction.t AVMOpcode.t) : Prop :=
  match Instruction.immediate i with Some v => uploadable v | None => True end.
Definition insn_depth (i : Instruction.t AVMOpcode.t) : nat := from_option depth 0 (Instruction.immediate i).
(** An instruction without its debug information. *)
Definition bare (i : Instruction.t AVMOpcode.t) : Instruction.t AVMOpcode.t :=
  Instruction.mk (Instruction.opcode i) (Instruction.immediate i) DebugInfo_default.

Fixpoint read_insns (fuel n : nat) (bs : list Z) : option (list (Instruction.t AVMOpcode.t) * list Z) :=
  match n with
  | O => Some ([], bs)
  | S n => '(i, bs) ← read_insn fuel bs; '(is_, bs) ← read_insns fuel n bs; Some (i :: is_, bs)
  end.

Lemma read_insn_bytes i : insn_uploadable i → ∃ bs, insn_bytes total i = Some bs ∧
  ∀ fuel rest, insn_depth i <= fuel → read_insn fuel (bs ++ rest) = Some (bare i, rest).
Proof using unrlp_rlp unrlp_empty total_small empty_size.
  unfold insn_uploadable, insn_bytes, insn_depth, bare. destruct (Instruction.immediate i) as [v|]; intros Hv; cbn [from_option].
  - destruct (read_value_bytes v Hv) as (bs & -> & Hread). cbn. eexists. split; [done|]. intros fuel rest Hf. cbn.
    rewrite AVMOpcode.from_to_number. cbn. by rewrite Hread.
  - eexists. split; [done|]. intros fuel rest _. cbn. by rewrite AVMOpcode.from_to_number.
Qed.

Lemma read_insns_bytes code : Forall insn_uploadable code → ∃ bss, mapM (insn_bytes total) code = Some bss ∧
  ∀ fuel, Forall (λ i, insn_depth i <= fuel) code → read_insns fuel (length code) (concat bss) = Some (bare <$> code, []).
Proof using unrlp_rlp unrlp_empty total_small empty_size.
  induction 1 as [|i code Hi _ (bss & Hbss & Hread)]; [by exists []|]. destruct (read_insn_bytes i Hi) as (bs & Hbs & Hr).
  exists (bs :: bss). split; [cbn [mapM]; rewrite Hbs; cbn; by rewrite Hbss|]. intros fuel [Hf Hall]%list.Forall_cons.
  cbn [length read_insns concat]. rewrite Hr by done. cbn. by rewrite Hread.
Qed.
End receiver.

(** C29: uploaded code can be read back.  For every program of a linker's values
    the uploader gives one batch per instruction, counts them all, and a receiver
    that knows the tags reads the instructions, last one first, from the bytes:
    no two programs of one length have the same upload. *)
Theorem upload_roundtrip unrlp empty code fuel :
  (∀ b rest, length b <= 32 → unrlp (rlp b ++ rest) = Some (b, rest)) → (∀ rest, unrlp (128%Z :: rest) = Some ([], rest)) →
  Buffer.size empty = 0%Z → (Z.of_nat (length code) < two64)%Z →
  Forall (insn_uploadable empty (length code)) code → Forall (λ i, insn_depth i <= fuel) code →
  ∃ u, _new_from_code code = Some u ∧ length (_finalize u) = length code ∧ num_so_far u = num_total u ∧
    read_insns unrlp empty (length code) fuel (length code) (_to_flat_vec u) = Some (bare <$> rev code, []).
Proof using Type.
  intros Hrlp Hempty Hsize Hlen Hcode Hfuel. unfold _new_from_code. rewrite serialize_all_bytes by done. cbn [_new num_total].
  destruct (read_insns_bytes unrlp Hrlp Hempty empty (length code) Hsize Hlen (rev code)) as (bss & Hbss & Hread); [by apply List.Forall_rev|].
  rewrite Hbss. cbn. eexists. split; [done|]. unfold _finalize, _to_flat_vec. cbn. rewrite length_rev in *.
  pose proof (Forall2_length (mapM_Some_1 _ _ _ Hbss)) as Hl. rewrite length_rev in Hl. split_and!; [by rewrite Hl|done|]. apply Hread. by apply List.Forall_rev.
Qed.
End upload.

(** ** Example *)

(** RLP of byte strings of less than 56 bytes *)
Definition rlp_short (b : list Z) : list Z :=
  match b with
  | [x] => if (x <? 128)%Z then [x] else [129%Z; x]
  | _ => (128 + Z.of_nat (length b))%Z :: b
  end.
Definition unrlp_short (bs : list Z) : option (list Z * list Z) :=
  match bs with
  | [] => None
  | x :: bs => if (x <? 128)%Z then Some ([x], bs) else let n := Z.to_nat (x - 128) in Some (take n bs, drop n bs)
  end.

Lemma unrlp_short_rlp b rest : length b <= 32 → unrlp_short (rlp_short b ++ rest) = Some (b, rest).
Proof.
  intros Hb. assert (∀ b : list Z, unrlp_short ((128 + Z.of_nat (length b))%Z :: b ++ rest) = Some (b, rest)) as Hlong.
  { clear. intros b. cbn. destruct (Z.ltb_spec (128 + Z.of_nat (length b)) 128); [lia|].
    replace (Z.to_nat (128 + Z.of_nat (length b) - 128)) with (length b) by lia. by rewrite take_app_length, drop_app_length. }
  destruct b as [|x [|y b]]; [apply (Hlong [])| |apply (Hlong (x :: y :: b))].
  cbn [rlp_short]. destruct (x <? 128)%Z eqn:Ex; [cbn; by rewrite Ex|]. apply (Hlong [x]).
Qed.

Definition upload_demo : list (Instruction.t AVMOpcode.t) :=
  [Instruction.mk AVMOpcode.Noop (Some (Value.Tuple [Value.Int 300; Value.CodePoint (CodePt.Internal 2); Value.Tuple []])) DebugInfo_default;
   Instruction.mk AVMOpcode.Add None DebugInfo_default; Instruction.mk AVMOpcode.Halt (Some (Value.Int 0)) DebugInfo_default].

Lemma upload_roundtrip_witness : ∃ u, _new_from_code rlp_short upload_demo = Some u ∧ length (_finalize u) = 3 ∧
  num_so_far u = num_total u ∧
  read_insns unrlp_short Buffer.new_empty 3 2 3 (_to_flat_vec u) = Some (bare <$> rev upload_demo, []).
Proof.
  apply (upload_roundtrip rlp_short unrlp_short Buffer.new_empty upload_demo 2).
  - apply unrlp_short_rlp.
  - reflexivity.
  - reflexivity.
  - vm_compute. reflexivity.
  - repeat constructor; vm_compute; intuition congruence.
  - repeat constructor; vm_compute; lia.
Defined.
