(* ===== verification/Blake2b.v ===== *)
(** * The Blake2b compression function (src/src/run/blake2b.rs)

    [u64] words and bytes are [Z], fixed-size arrays are lists.  An [assert!]
    that fails or an index out of range is a panic, i.e. [None] in the outer
    option. *)

From Stdlib Require Import ZArith Lia.
From S2P Require Import Prelude U256 Crypto BufferTree.
Local Open Scope Z_scope.

Definition BLOCK_BYTES : nat := 128.

Definition IV : list Z :=
  [0x6a09e667f3bcc908; 0xbb67ae8584caa73b; 0x3c6ef372fe94f82b; 0xa54ff53a5f1d36f1;
   0x510e527fade682d1; 0x9b05688c2b3e6c1f; 0x1f83d9abfb41bd6b; 0x5be0cd19137e2179].

Definition SIGMA : list (list nat) := [
  [0; 1; 2; 3; 4; 5; 6; 7; 8; 9; 10; 11; 12; 13; 14; 15];
  [14; 10; 4; 8; 9; 15; 13; 6; 1; 12; 0; 2; 11; 7; 5; 3];
  [11; 8; 12; 0; 5; 2; 15; 13; 10; 14; 3; 6; 7; 1; 9; 4];
  [7; 9; 3; 1; 13; 12; 11; 14; 2; 6; 5; 10; 4; 0; 15; 8];
  [9; 0; 5; 7; 2; 4; 10; 15; 14; 1; 11; 12; 6; 8; 3; 13];
  [2; 12; 6; 10; 0; 11; 8; 3; 4; 13; 7; 5; 15; 14; 1; 9];
  [12; 5; 1; 15; 14; 13; 4; 10; 0; 7; 6; 3; 9; 2; 8; 11];
  [13; 11; 7; 14; 12; 1; 3; 9; 5; 0; 15; 4; 8; 6; 2; 10];
  [6; 15; 14; 9; 11; 3; 0; 8; 12; 2; 13; 7; 1; 4; 10; 5];
  [10; 2; 8; 4; 7; 6; 1; 5; 15; 11; 9; 14; 3; 12; 13; 0]]%nat.

(** [SIGMA[r % 10][k]] *)
Definition sigma (r k : nat) : nat :=
  default 0%nat (default [] (SIGMA !! (r mod 10)%nat) !! k).

(** The macro [g!] updates four of the sixteen words in place. *)
Definition g (m : list Z) (r i a b c d : nat) (v : list Z) : list Z :=
  let add := wrapping_add 64 in
  let ror := rotate_right 64 in
  let v := <[a := add (add (at_ v a) (at_ v b)) (at_ m (sigma r (2 * i)))]> v in
  let v := <[d := ror (Z.lxor (at_ v d) (at_ v a)) 32]> v in
  let v := <[c := add (at_ v c) (at_ v d)]> v in
  let v := <[b := ror (Z.lxor (at_ v b) (at_ v c)) 24]> v in
  let v := <[a := add (add (at_ v a) (at_ v b)) (at_ m (sigma r (2 * i + 1)))]> v in
  let v := <[d := ror (Z.lxor (at_ v d) (at_ v a)) 16]> v in
  let v := <[c := add (at_ v c) (at_ v d)]> v in
  <[b := ror (Z.lxor (at_ v b) (at_ v c)) 63]> v.

Definition round (m : list Z) (r : nat) (v : list Z) : list Z :=
  let v := g m r 0 0 4 8 12 v in
  let v := g m r 1 1 5 9 13 v in
  let v := g m r 2 2 6 10 14 v in
  let v := g m r 3 3 7 11 15 v in
  let v := g m r 4 0 5 10 15 v in
  let v := g m r 5 1 6 11 12 v in
  let v := g m r 6 2 7 8 13 v in
  g m r 7 3 4 9 14 v.

(** [for i in 0..num_rounds { round!(i) }]: [n] rounds from round [i] on. *)
Fixpoint rounds (m : list Z) (i n : nat) (v : list Z) : list Z :=
  match n with
  | O => v
  | S n => rounds m (S i) n (round m i v)
  end.

(** [v |= (b[i] as u64) << (8 * i)] for the eight bytes at the front *)
Definition load64 (b : list Z) : Z :=
  foldl (λ v i, Z.lor v (Z.shiftl (at_ b i) (8 * Z.of_nat i))) 0 (seq 0 8).

(** Blake2b::compress on the fields [h], [t], [f] and [buf]; the result is the
    new [h].  The message words reloaded from [buf] are asserted to be the
    original ones. *)
Definition compress (h t f buf : list Z) (num_rounds : nat) (orig_m : list Z) : option (list Z) :=
  if Nat.leb BLOCK_BYTES (length buf) then
    let m := (λ i, load64 (drop (i * 8) buf)) <$> seq 0 16 in
    if bool_decide (m = orig_m) then
      let v := take 8 h ++ take 4 IV ++
        [Z.lxor (at_ t 0) (at_ IV 4); Z.lxor (at_ t 1) (at_ IV 5);
         Z.lxor (at_ f 0) (at_ IV 6); Z.lxor (at_ f 1) (at_ IV 7)] in
      let v := rounds m 0 num_rounds v in
      Some ((λ i, Z.lxor (Z.lxor (at_ h i) (at_ v i)) (at_ v (i + 8))) <$> seq 0 8)
    else None
  else None.

(** The inner option is the function's own: [None] for a final-block flag
    other than 0 and 1. *)
Definition eth_blake2bf (num_rounds : Z) (h m t : list Z) (f : Z) : option (option (list Z)) :=
  let flag :=
    if f =? 0 then Some [0; 0]
    else if f =? 1 then Some [0xffffffffffffffff; 0]
    else None in
  match flag with
  | None => Some None
  | Some f =>
      let buf := mjoin (digits_le 256 8 <$> m) ++ replicate (2 * BLOCK_BYTES - 8 * length m) 0 in
      Some <$> compress h t f buf (Z.to_nat num_rounds) m
  end.

(** [n] little-endian words of eight bytes from [offset] on *)
Definition le_words (b : list Z) (offset n : nat) : list Z :=
  (λ i, undigits_le 256 (take 8 (drop (offset + 8 * i) b))) <$> seq 0 n.

Definition eth_blake2bf_from_bytes (b : list Z) : option (option (list Z)) :=
  let num_rounds := undigits_be 256 (take 4 b) in
  let num_rounds := if 0xffff <? num_rounds then 0xffff else num_rounds in
  let h := le_words b 4 8 in
  let m := le_words b 68 16 in
  let t := le_words b 196 2 in
  let f := at_ b 212 in
  r ← eth_blake2bf num_rounds h m t f;
  match r with
  | None => Some None
  | Some chunks => Some (Some (take 64 (mjoin (digits_le 256 8 <$> chunks))))
  end.

Section instruction.
Context `{Crypto}.

(** The Blake2f instruction; the final flag is masked to one bit first. *)
Definition blake2bf_instruction (buf : Buffer.t) : option Buffer.t :=
  b ← Buffer.as_bytes buf 213;
  let b := <[212%nat := Z.land (at_ b 212) 1]> b in
  r ← eth_blake2bf_from_bytes b;
  result ← r;
  write_all Buffer.set_byte Buffer.new_empty 0 (take 64 result).

End instruction.

(** ** Facts *)

#[local] Arguments digits_le : simpl never.

Lemma lor_shiftl_add v x k : 0 <= k → 0 <= v < 2 ^ k → Z.lor v (Z.shiftl x k) = v + x * 2 ^ k.
Proof.
  intros Hk Hv. assert (Z.land v (Z.shiftl x k) = 0) as Hd.
  { apply Z.bits_inj'; intros i Hi. rewrite Z.land_spec, Z.bits_0.
    destruct (decide (i < k)).
    - rewrite Z.shiftl_spec_low by lia. apply andb_false_r.
    - rewrite <- (Z.mod_small v (2 ^ k)), Z.mod_pow2_bits_high by lia. done. }
  rewrite <- Z.lxor_lor, <- Z.add_nocarry_lxor, Z.shiftl_mul_pow2 by done. done.
Qed.

Lemma load64_fold bs v k :
  digits_ok 256 bs → 0 <= v < 256 ^ Z.of_nat k →
  foldl (λ v p, Z.lor v (Z.shiftl p.2 (8 * Z.of_nat p.1))) v (zip (seq k (length bs)) bs)
  = v + 256 ^ Z.of_nat k * undigits_le 256 bs.
Proof.
  intros Hb. revert v k. induction Hb as [|x bs Hx Hb IH]; intros v k Hv; simpl; [lia|].
  assert (2 ^ (8 * Z.of_nat k) = 256 ^ Z.of_nat k) as Hpow by (by rewrite Z.pow_mul_r by lia).
  rewrite lor_shiftl_add by (rewrite ?Hpow; lia).
  rewrite Hpow, IH; rewrite Nat2Z.inj_succ, Z.pow_succ_r by lia; [ring|].
  assert (0 < 256 ^ Z.of_nat k) by (apply Z.pow_pos_nonneg; lia). nia.
Qed.

(** [load64] is the little-endian value of the first eight bytes. *)
Lemma load64_eq b :
  digits_ok 256 b → (8 <= length b)%nat → load64 b = undigits_le 256 (take 8 b).
Proof.
  intros Hb Hl. do 8 (destruct b as [|? b]; [simpl in Hl; lia|]).
  set (bs := take 8 _). assert (digits_ok 256 bs) as Hbs by (by apply Forall_take).
  pose proof (load64_fold bs 0 0 Hbs ltac:(lia)) as E.
  change (256 ^ Z.of_nat 0) with 1 in E. rewrite Z.add_0_l, Z.mul_1_l in E. rewrite <- E.
  reflexivity.
Qed.

Lemma digits_ok_join (ws : list Z) : digits_ok 256 (mjoin (digits_le 256 8 <$> ws)).
Proof.
  induction ws as [|w ws IH]; [constructor|]. rewrite fmap_cons.
  change (mjoin (?x :: ?l)) with (x ++ mjoin l).
  apply Forall_app. split; [by apply (digits_le_ok 256 ltac:(lia) 8)|done].
Qed.

Lemma length_join (ws : list Z) : length (mjoin (digits_le 256 8 <$> ws)) = (8 * length ws)%nat.
Proof.
  induction ws as [|w ws IH]; [done|]. rewrite fmap_cons.
  change (mjoin (?x :: ?l)) with (x ++ mjoin l).
  rewrite length_app, IH, length_digits_le. simpl. lia.
Qed.

Lemma drop_join ws i w rest :
  ws !! i = Some w →
  take 8 (drop (i * 8) (mjoin (digits_le 256 8 <$> ws) ++ rest)) = digits_le 256 8 w.
Proof.
  revert i. induction ws as [|x ws IH]; intros i Hi; [done|].
  rewrite fmap_cons. change (mjoin (?x :: ?l)) with (x ++ mjoin l). rewrite <- app_assoc.
  destruct i as [|i]; simplify_eq/=.
  - reflexivity.
  - by apply IH.
Qed.

(** The reloaded message words are the original ones: the assertion holds. *)
Lemma reload_words m :
  length m = 16%nat → digits_ok (2 ^ 64) m →
  (λ i, load64 (drop (i * 8)
     (mjoin (digits_le 256 8 <$> m) ++ replicate (2 * BLOCK_BYTES - 8 * length m) 0))) <$> seq 0 16 = m.
Proof.
  intros Hl Hm. apply list_eq. intros i. rewrite list_lookup_fmap.
  destruct (decide (i < 16)%nat) as [Hi|Hi].
  - rewrite lookup_seq_lt by done. simpl.
    destruct (lookup_lt_is_Some_2 m i ltac:(lia)) as [w Hw]. rewrite Hw. f_equal.
    assert (digits_ok 256 (mjoin (digits_le 256 8 <$> m) ++
              replicate (2 * BLOCK_BYTES - 8 * length m) 0)) as Hok.
    { apply Forall_app; split; [apply digits_ok_join|]. apply Forall_replicate. lia. }
    rewrite load64_eq.
    + rewrite (drop_join m i w) by done. rewrite undigits_digits_le by lia.
      apply Z.mod_small. by eapply Forall_lookup_1 in Hm.
    + by apply Forall_drop.
    + rewrite length_drop, length_app, length_join, length_replicate. unfold BLOCK_BYTES. lia.
  - rewrite lookup_seq_ge by lia. symmetry. apply lookup_ge_None. lia.
Qed.

Lemma compress_total h t f m n :
  length m = 16%nat → digits_ok (2 ^ 64) m →
  ∃ r, compress h t f (mjoin (digits_le 256 8 <$> m) ++
         replicate (2 * BLOCK_BYTES - 8 * length m) 0) n m = Some r ∧ length r = 8%nat.
Proof.
  intros Hl Hm. unfold compress. rewrite reload_words by done.
  rewrite (bool_decide_eq_true_2 (m = m)) by done.
  rewrite (proj2 (Nat.leb_le _ _)).
  - eexists. split; [done|]. by rewrite length_fmap, length_seq.
  - rewrite length_app, length_join, length_replicate. unfold BLOCK_BYTES. lia.
Qed.

Lemma le_words_ok b o n : digits_ok 256 b → digits_ok (2 ^ 64) (le_words b o n).
Proof.
  intros Hb. apply Forall_fmap, Forall_true. intros i. simpl.
  assert (digits_ok 256 (take 8 (drop (o + 8 * i) b))) as Hd by (by apply Forall_take, Forall_drop).
  pose proof (undigits_le_bound 256 ltac:(lia) _ Hd) as Hbd.
  assert (256 ^ Z.of_nat (length (take 8 (drop (o + 8 * i) b))) <= 256 ^ 8); [|cbn in *; lia].
  apply Z.pow_le_mono_r; [lia|]. rewrite length_take. lia.
Qed.

Lemma from_bytes_total b :
  length b = 213%nat → digits_ok 256 b →
  match eth_blake2bf_from_bytes b with
  | Some None => at_ b 212 ≠ 0 ∧ at_ b 212 ≠ 1
  | Some (Some r) => (at_ b 212 = 0 ∨ at_ b 212 = 1) ∧ length r = 64%nat ∧ digits_ok 256 r
  | None => False
  end.
Proof.
  intros Hl Hb. unfold eth_blake2bf_from_bytes, eth_blake2bf.
  assert (length (le_words b 68 16) = 16%nat) as Hm by (unfold le_words; by rewrite length_fmap, length_seq).
  set (n := Z.to_nat _). clearbody n.
  destruct (Z.eqb_spec (at_ b 212) 0); [|destruct (Z.eqb_spec (at_ b 212) 1); [|done]].
  all: edestruct (compress_total (le_words b 4 8) (le_words b 196 2)) as (r & -> & Hr);
    [exact Hm|by apply le_words_ok|]; cbn [fmap option_fmap option_map mbind option_bind].
  all: split; [tauto|]; split; [rewrite length_take, length_join; lia|].
  all: apply Forall_take, digits_ok_join.
Qed.


Lemma land_1 x : Z.land x 1 = 0 ∨ Z.land x 1 = 1.
Proof.
  assert (Z.land x 1 = x mod 2) as -> by (apply (Z.land_ones x 1); lia).
  pose proof (Z.mod_pos_bound x 2). lia.
Qed.

(** The instruction is total on well-formed buffers. *)
Lemma blake2bf_instruction_ok `{Crypto} buf : Buffer.ok buf →
  ∃ r, blake2bf_instruction buf = Some r ∧ Buffer.ok r ∧ Buffer.size r = 64.
Proof.
  intros Hok. unfold blake2bf_instruction, Buffer.as_bytes.
  destruct (read_all_ok 213 buf 0) as (b & Hb & Hl & Hd & _); [exact Hok|lia|].
  cbn [bs_read Buffer.byte_store] in Hb. rewrite Hb. cbn [mbind option_bind].
  set (b' := <[212%nat := _]> b).
  assert (at_ b' 212 = Z.land (at_ b 212) 1) as Hat.
  { unfold b', at_. rewrite list_lookup_insert_eq by lia. done. }
  pose proof (from_bytes_total b') as Ht.
  assert (digits_ok 256 b') as Hd'.
  { apply Forall_insert; [done|]. destruct (land_1 (at_ b 212)); lia. }
  specialize (Ht ltac:(unfold b'; by rewrite length_insert) Hd'). rewrite Hat in Ht.
  destruct (eth_blake2bf_from_bytes b') as [[r|]|]; [|destruct (land_1 (at_ b 212)); lia|done].
  destruct Ht as (_ & Hlr & Hdr). cbn [mbind option_bind].
  rewrite take_ge by lia.
  destruct (Buffer.from_bytes_ok r Hdr) as (x & Hx & Hokx & Hs & _); [rewrite Hlr; done|].
  exists x. split; [exact Hx|]. split; [done|]. by rewrite Hs, Hlr.
Qed.

(** ** Properties *)

(** The Blake2b precompile is total.  On any 213-byte input no assertion
    fails and no index is out of range; the result is [None] exactly when the
    final-block flag byte is neither 0 nor 1, and 64 bytes otherwise.  The Blake2f instruction, which masks
    the flag, maps every well-formed buffer to one of 64 bytes. *)
Theorem blake2bf_total `{Crypto} b buf :
  length b = 213%nat → digits_ok 256 b → Buffer.ok buf →
  match eth_blake2bf_from_bytes b with
  | Some None => at_ b 212 ≠ 0 ∧ at_ b 212 ≠ 1
  | Some (Some r) => (at_ b 212 = 0 ∨ at_ b 212 = 1) ∧ length r = 64%nat ∧ digits_ok 256 r
  | None => False
  end ∧
  ∃ r, blake2bf_instruction buf = Some r ∧ Buffer.ok r ∧ Buffer.size r = 64.
Proof.
  intros Hl Hd Hb. split; [by apply from_bytes_total|by apply blake2bf_instruction_ok].
Qed.

Lemma blake2bf_total_witness :
  length (replicate 213 0) = 213%nat ∧
  eth_blake2bf_from_bytes (replicate 213 0) ≠ None.
Proof.
  split; [reflexivity|]. intros E.
  destruct (@blake2bf_total toy_crypto (replicate 213 0) Buffer.new_empty eq_refl
    ltac:(apply Forall_replicate; lia) Buffer.empty_ok) as [H _]. rewrite E in H. exact H.
Defined.

(** The test vectors of blake2b.rs, as numbers. *)
Definition eip152_state : Z :=
  0x48c9bdf267e6096a3ba7ca8485ae67bb2bf894fe72f36e3cf1361d5f3af54fa5d182e6ad7f520e511f6c3e2b8c68059b6bbd41fbabd9831f79217e1319cde05b.

(** rounds, state, the message "abc", the counter 3 and the flag *)
Definition eip152_input (nrounds flag : Z) : list Z :=
  digits_be 256 4 nrounds ++ digits_be 256 64 eip152_state
  ++ ([0x61; 0x62; 0x63] ++ replicate 125 0) ++ (3 :: replicate 15 0) ++ [flag].

(** The EIP-152 test vectors of the repository's own test-suite: 0, 12 (with
    and without the final flag) and 1 rounds give the expected digests, and a
    flag of 2 is rejected. *)
Theorem blake2bf_vectors :
  eth_blake2bf_from_bytes (eip152_input 0 1) = Some (Some (digits_be 256 64
    0x08c9bcf367e6096a3ba7ca8485ae67bb2bf894fe72f36e3cf1361d5f3af54fa5d282e6ad7f520e511f6c3e2b8c68059b9442be0454267ce079217e1319cde05b)) ∧
  eth_blake2bf_from_bytes (eip152_input 12 1) = Some (Some (digits_be 256 64
    0xba80a53f981c4d0d6a2797b69f12f6e94c212f14685ac4b74b12bb6fdbffa2d17d87c5392aab792dc252d5de4533cc9518d38aa8dbf1925ab92386edd4009923)) ∧
  eth_blake2bf_from_bytes (eip152_input 12 0) = Some (Some (digits_be 256 64
    0x75ab69d3190a562c51aef8d88f1c2775876944407270c42c9844252c26d2875298743e7f6d5ea2f2d3e8d226039cd31b4e426ac4f2d3d666a610c2116fde4735)) ∧
  eth_blake2bf_from_bytes (eip152_input 1 1) = Some (Some (digits_be 256 64
    0xb63a380cb2897d521994a85234ee2c181b5f844d2c624c002677e9703449d2fba551b3a8333bcdf5f2f7e08993d53923de3d64fcc68c034e717b9293fed7a421)) ∧
  eth_blake2bf_from_bytes (eip152_input 12 2) = Some None.
Proof. vm_compute. repeat split. Qed.
