(* ===== verification/Ripemd160.v ===== *)
(** * The RIPEMD-160 compression function (src/src/run/ripemd160port.rs)

    [u32] words are [Z], arrays are lists.  The macro invocation of
    [process_msg_block] lists 160 steps; each is a row of a table here: the
    permutation of the five state words, the message word and the rotation.
    Also the instruction's wrapper from src/src/run/emulator.rs. *)

From Stdlib Require Import ZArith Lia.
From S2P Require Import Prelude U256.
Local Open Scope Z_scope.

(** [h_ordering f0, f1, f2, f3, f4; data_index d; roll_shift b] *)
Record step := mkStep { f0 : nat; f1 : nat; f2 : nat; f3 : nat; f4 : nat; data_index : nat; roll_shift : Z }.

(** The macro [round!]: updates words [a] and [c] of the state in place. *)
Definition round (s : step) (x add rnd : Z) (bb : list Z) : list Z :=
  let wadd := wrapping_add 32 in
  let a := wadd (wadd (wadd (at_ bb (f0 s)) rnd) x) add in
  let bb := <[f0 s := wadd (rotate_left 32 a (roll_shift s)) (at_ bb (f4 s))]> bb in
  <[f2 s := rotate_left 32 (at_ bb (f2 s)) 10]> bb.

(** The five Boolean functions of the state words [b], [c], [d]. *)
Definition fun1 (b c d : Z) : Z := Z.lxor (Z.lxor b c) d.
Definition fun2 (b c d : Z) : Z := Z.lor (Z.land b c) (Z.land (wnot 32 b) d).
Definition fun3 (b c d : Z) : Z := Z.lxor (Z.lor b (wnot 32 c)) d.
Definition fun4 (b c d : Z) : Z := Z.lor (Z.land b d) (Z.land c (wnot 32 d)).
Definition fun5 (b c d : Z) : Z := Z.lxor b (Z.lor c (wnot 32 d)).

(** One group of sixteen steps with its function and additive constant. *)
Definition round_group (f : Z → Z → Z → Z) (add : Z) (steps : list step) (data bb : list Z) : list Z :=
  foldl (λ bb s, round s (at_ data (data_index s)) add
                   (f (at_ bb (f1 s)) (at_ bb (f2 s)) (at_ bb (f3 s))) bb) bb steps.

Definition round1_steps : list step := [
  mkStep 0 1 2 3 4 0 11;
  mkStep 4 0 1 2 3 1 14;
  mkStep 3 4 0 1 2 2 15;
  mkStep 2 3 4 0 1 3 12;
  mkStep 1 2 3 4 0 4 5;
  mkStep 0 1 2 3 4 5 8;
  mkStep 4 0 1 2 3 6 7;
  mkStep 3 4 0 1 2 7 9;
  mkStep 2 3 4 0 1 8 11;
  mkStep 1 2 3 4 0 9 13;
  mkStep 0 1 2 3 4 10 14;
  mkStep 4 0 1 2 3 11 15;
  mkStep 3 4 0 1 2 12 6;
  mkStep 2 3 4 0 1 13 7;
  mkStep 1 2 3 4 0 14 9;
  mkStep 0 1 2 3 4 15 8].

Definition round2_steps : list step := [
  mkStep 4 0 1 2 3 7 7;
  mkStep 3 4 0 1 2 4 6;
  mkStep 2 3 4 0 1 13 8;
  mkStep 1 2 3 4 0 1 13;
  mkStep 0 1 2 3 4 10 11;
  mkStep 4 0 1 2 3 6 9;
  mkStep 3 4 0 1 2 15 7;
  mkStep 2 3 4 0 1 3 15;
  mkStep 1 2 3 4 0 12 7;
  mkStep 0 1 2 3 4 0 12;
  mkStep 4 0 1 2 3 9 15;
  mkStep 3 4 0 1 2 5 9;
  mkStep 2 3 4 0 1 2 11;
  mkStep 1 2 3 4 0 14 7;
  mkStep 0 1 2 3 4 11 13;
  mkStep 4 0 1 2 3 8 12].

Definition round3_steps : list step := [
  mkStep 3 4 0 1 2 3 11;
  mkStep 2 3 4 0 1 10 13;
  mkStep 1 2 3 4 0 14 6;
  mkStep 0 1 2 3 4 4 7;
  mkStep 4 0 1 2 3 9 14;
  mkStep 3 4 0 1 2 15 9;
  mkStep 2 3 4 0 1 8 13;
  mkStep 1 2 3 4 0 1 15;
  mkStep 0 1 2 3 4 2 14;
  mkStep 4 0 1 2 3 7 8;
  mkStep 3 4 0 1 2 0 13;
  mkStep 2 3 4 0 1 6 6;
  mkStep 1 2 3 4 0 13 5;
  mkStep 0 1 2 3 4 11 12;
  mkStep 4 0 1 2 3 5 7;
  mkStep 3 4 0 1 2 12 5].

Definition round4_steps : list step := [
  mkStep 2 3 4 0 1 1 11;
  mkStep 1 2 3 4 0 9 12;
  mkStep 0 1 2 3 4 11 14;
  mkStep 4 0 1 2 3 10 15;
  mkStep 3 4 0 1 2 0 14;
  mkStep 2 3 4 0 1 8 15;
  mkStep 1 2 3 4 0 12 9;
  mkStep 0 1 2 3 4 4 8;
  mkStep 4 0 1 2 3 13 9;
  mkStep 3 4 0 1 2 3 14;
  mkStep 2 3 4 0 1 7 5;
  mkStep 1 2 3 4 0 15 6;
  mkStep 0 1 2 3 4 14 8;
  mkStep 4 0 1 2 3 5 6;
  mkStep 3 4 0 1 2 6 5;
  mkStep 2 3 4 0 1 2 12].

Definition round5_steps : list step := [
  mkStep 1 2 3 4 0 4 9;
  mkStep 0 1 2 3 4 0 15;
  mkStep 4 0 1 2 3 5 5;
  mkStep 3 4 0 1 2 9 11;
  mkStep 2 3 4 0 1 7 6;
  mkStep 1 2 3 4 0 12 8;
  mkStep 0 1 2 3 4 2 13;
  mkStep 4 0 1 2 3 10 12;
  mkStep 3 4 0 1 2 14 5;
  mkStep 2 3 4 0 1 1 12;
  mkStep 1 2 3 4 0 3 13;
  mkStep 0 1 2 3 4 8 14;
  mkStep 4 0 1 2 3 11 11;
  mkStep 3 4 0 1 2 6 8;
  mkStep 2 3 4 0 1 15 5;
  mkStep 1 2 3 4 0 13 6].

Definition par_round1_steps : list step := [
  mkStep 0 1 2 3 4 5 8;
  mkStep 4 0 1 2 3 14 9;
  mkStep 3 4 0 1 2 7 9;
  mkStep 2 3 4 0 1 0 11;
  mkStep 1 2 3 4 0 9 13;
  mkStep 0 1 2 3 4 2 15;
  mkStep 4 0 1 2 3 11 15;
  mkStep 3 4 0 1 2 4 5;
  mkStep 2 3 4 0 1 13 7;
  mkStep 1 2 3 4 0 6 7;
  mkStep 0 1 2 3 4 15 8;
  mkStep 4 0 1 2 3 8 11;
  mkStep 3 4 0 1 2 1 14;
  mkStep 2 3 4 0 1 10 14;
  mkStep 1 2 3 4 0 3 12;
  mkStep 0 1 2 3 4 12 6].

Definition par_round2_steps : list step := [
  mkStep 4 0 1 2 3 6 9;
  mkStep 3 4 0 1 2 11 13;
  mkStep 2 3 4 0 1 3 15;
  mkStep 1 2 3 4 0 7 7;
  mkStep 0 1 2 3 4 0 12;
  mkStep 4 0 1 2 3 13 8;
  mkStep 3 4 0 1 2 5 9;
  mkStep 2 3 4 0 1 10 11;
  mkStep 1 2 3 4 0 14 7;
  mkStep 0 1 2 3 4 15 7;
  mkStep 4 0 1 2 3 8 12;
  mkStep 3 4 0 1 2 12 7;
  mkStep 2 3 4 0 1 4 6;
  mkStep 1 2 3 4 0 9 15;
  mkStep 0 1 2 3 4 1 13;
  mkStep 4 0 1 2 3 2 11].

Definition par_round3_steps : list step := [
  mkStep 3 4 0 1 2 15 9;
  mkStep 2 3 4 0 1 5 7;
  mkStep 1 2 3 4 0 1 15;
  mkStep 0 1 2 3 4 3 11;
  mkStep 4 0 1 2 3 7 8;
  mkStep 3 4 0 1 2 14 6;
  mkStep 2 3 4 0 1 6 6;
  mkStep 1 2 3 4 0 9 14;
  mkStep 0 1 2 3 4 11 12;
  mkStep 4 0 1 2 3 8 13;
  mkStep 3 4 0 1 2 12 5;
  mkStep 2 3 4 0 1 2 14;
  mkStep 1 2 3 4 0 10 13;
  mkStep 0 1 2 3 4 0 13;
  mkStep 4 0 1 2 3 4 7;
  mkStep 3 4 0 1 2 13 5].

Definition par_round4_steps : list step := [
  mkStep 2 3 4 0 1 8 15;
  mkStep 1 2 3 4 0 6 5;
  mkStep 0 1 2 3 4 4 8;
  mkStep 4 0 1 2 3 1 11;
  mkStep 3 4 0 1 2 3 14;
  mkStep 2 3 4 0 1 11 14;
  mkStep 1 2 3 4 0 15 6;
  mkStep 0 1 2 3 4 0 14;
  mkStep 4 0 1 2 3 5 6;
  mkStep 3 4 0 1 2 12 9;
  mkStep 2 3 4 0 1 2 12;
  mkStep 1 2 3 4 0 13 9;
  mkStep 0 1 2 3 4 9 12;
  mkStep 4 0 1 2 3 7 5;
  mkStep 3 4 0 1 2 10 15;
  mkStep 2 3 4 0 1 14 8].

Definition par_round5_steps : list step := [
  mkStep 1 2 3 4 0 12 8;
  mkStep 0 1 2 3 4 15 5;
  mkStep 4 0 1 2 3 10 12;
  mkStep 3 4 0 1 2 4 9;
  mkStep 2 3 4 0 1 1 12;
  mkStep 1 2 3 4 0 5 5;
  mkStep 0 1 2 3 4 8 14;
  mkStep 4 0 1 2 3 7 6;
  mkStep 3 4 0 1 2 6 8;
  mkStep 2 3 4 0 1 2 13;
  mkStep 1 2 3 4 0 13 6;
  mkStep 0 1 2 3 4 14 5;
  mkStep 4 0 1 2 3 0 15;
  mkStep 3 4 0 1 2 3 13;
  mkStep 2 3 4 0 1 9 11;
  mkStep 1 2 3 4 0 11 11].

(** The end of the macro [process_block!]: combining the two lines into [h]. *)
Definition combine_results (h bb bbb : list Z) : list Z :=
  let wadd := wrapping_add 32 in
  let bbb := <[3%nat := wadd (wadd (at_ bbb 3) (at_ h 1)) (at_ bb 2)]> bbb in
  let h := <[1%nat := wadd (wadd (at_ h 2) (at_ bb 3)) (at_ bbb 4)]> h in
  let h := <[2%nat := wadd (wadd (at_ h 3) (at_ bb 4)) (at_ bbb 0)]> h in
  let h := <[3%nat := wadd (wadd (at_ h 4) (at_ bb 0)) (at_ bbb 1)]> h in
  let h := <[4%nat := wadd (wadd (at_ h 0) (at_ bb 1)) (at_ bbb 2)]> h in
  <[0%nat := at_ bbb 3]> h.

(** The rest of the body of [process_block!]: five groups on each line. *)
Definition process_block (h data : list Z) : list Z :=
  let bb := h in
  let bbb := h in
  let bb := round_group fun1 0x00000000 round1_steps data bb in
  let bb := round_group fun2 0x5a827999 round2_steps data bb in
  let bb := round_group fun3 0x6ed9eba1 round3_steps data bb in
  let bb := round_group fun4 0x8f1bbcdc round4_steps data bb in
  let bb := round_group fun5 0xa953fd4e round5_steps data bb in
  let bbb := round_group fun5 0x50a28be6 par_round1_steps data bbb in
  let bbb := round_group fun4 0x5c4dd124 par_round2_steps data bbb in
  let bbb := round_group fun3 0x6d703ef3 par_round3_steps data bbb in
  let bbb := round_group fun2 0x7a6d76e9 par_round4_steps data bbb in
  let bbb := round_group fun1 0x00000000 par_round5_steps data bbb in
  combine_results h bb bbb.

(** Sixteen little-endian words from the block: [chunks_exact(4)]. *)
Definition process_msg_block (h data : list Z) : list Z :=
  let w := (λ i, undigits_le 256 (take 4 (drop (4 * i) data))) <$> seq 0 16 in
  process_block h w.

(** ** The instruction's wrapper (src/src/run/emulator.rs) *)

Definition reverse32 (x : Z) : Z :=
  let mid := Z.lor (Z.shiftr x 16) (Z.shiftl x 16 mod 2 ^ 32) in
  Z.lor (Z.shiftl (Z.land mid 0x00ff00ff) 8 mod 2 ^ 32) (Z.shiftr (Z.land mid 0xff00ff00) 8).

(** [None] is the panic of [to_u32_digits_be]. *)
Definition ripemd160_compression (acc buf0 buf1 : Z) : option Z :=
  words ← Uint256.to_u32_digits_be acc;
  let acc_buf := [at_ words 3; at_ words 4; at_ words 5; at_ words 6; at_ words 7] in
  let buf := Uint256.to_bytes_be buf0 ++ Uint256.to_bytes_be buf1 in
  let acc_buf := process_msg_block acc_buf buf in
  Some (Uint256.from_u32_digits
    [reverse32 (at_ acc_buf 4); reverse32 (at_ acc_buf 3); reverse32 (at_ acc_buf 2);
     reverse32 (at_ acc_buf 1); reverse32 (at_ acc_buf 0); 0; 0; 0]).

(** ** Facts *)

Lemma length_round s x add rnd bb : length (round s x add rnd bb) = length bb.
Proof. unfold round. by rewrite !length_insert. Qed.

Lemma length_round_group f add steps data bb :
  length (round_group f add steps data bb) = length bb.
Proof.
  unfold round_group. revert bb. induction steps as [|s steps IH]; intros bb; [done|].
  simpl. by rewrite IH, length_round.
Qed.

Lemma at_insert_eq (l : list Z) i x : (i < length l)%nat → at_ (<[i := x]> l) i = x.
Proof. intros. unfold at_. by rewrite list_lookup_insert_eq. Qed.

(** Every word of the new state is the result of a wrapping addition. *)
Lemma combine_results_ok h bb bbb :
  length h = 5%nat → length bbb = 5%nat →
  length (combine_results h bb bbb) = 5%nat ∧ Forall (word_ok 32) (combine_results h bb bbb).
Proof.
  intros Hl Hl'. unfold combine_results. rewrite !length_insert. split; [done|].
  rewrite at_insert_eq by lia.
  do 5 (destruct h as [|? h]; [simpl in Hl; lia|]).
  destruct h; [|simpl in Hl; lia]. simpl.
  repeat (constructor; [apply wrapping_add_ok; lia|]). constructor.
Qed.

Lemma process_block_ok h data :
  length h = 5%nat →
  length (process_block h data) = 5%nat ∧ Forall (word_ok 32) (process_block h data).
Proof. intros Hl. apply combine_results_ok; [done|]. by rewrite !length_round_group. Qed.

Lemma reverse32_ok x : word_ok 32 x → word_ok 32 (reverse32 x).
Proof.
  intros Hx. unfold reverse32. apply lor_ok; [lia|apply word_mod; lia|].
  apply shiftr_ok; [lia| |lia]. apply land_ok; [lia| |lia].
  apply lor_ok; [lia|apply shiftr_ok; [lia|done|lia]|apply word_mod; lia].
Qed.

(** The accumulator with the bytes of each of its five words reversed. *)
Definition swap_words (acc : Z) : Z :=
  undigits_be (2 ^ 32) (reverse32 <$> digits_be (2 ^ 32) 5 acc).

(** RIPEMD-160's initial state, as stdlib/ripemd160.mini passes it. *)
Definition ripemd_iv : Z := 0x67452301EFCDAB8998BADCFE10325476C3D2E1F0.

(** The 80 bytes "1234567890" eight times, padded to two blocks. *)
Definition msg80 : list Z :=
  mjoin (replicate 8 [0x31; 0x32; 0x33; 0x34; 0x35; 0x36; 0x37; 0x38; 0x39; 0x30])
  ++ 0x80 :: replicate 39 0 ++ digits_le 256 8 640.

Definition word_of (b : list Z) (i : nat) : Z := undigits_be 256 (take 32 (drop (32 * i) b)).

Lemma compression_ok acc buf0 buf1 : Uint256.wf acc →
  ∃ r, ripemd160_compression acc buf0 buf1 = Some r ∧ 0 <= r < 2 ^ 160.
Proof.
  intros Ha. unfold ripemd160_compression.
  destruct (Uint256.to_u32_digits_be_eq acc Ha) as (ds & -> & _ & _).
  eexists. split; [done|]. unfold process_msg_block.
  match goal with |- context [process_block ?h ?w] =>
    pose proof (process_block_ok h w eq_refl) as [Hl Hok]; set (st := process_block h w) in * end.
  clearbody st. do 5 (destruct st as [|? st]; [simpl in Hl; lia|]). clear Hl.
  repeat match goal with H : Forall _ (_ :: _) |- _ => inversion_clear H end.
  repeat match goal with H : word_ok 32 ?z |- _ =>
    lazymatch z with reverse32 _ => fail | _ => apply reverse32_ok in H end end.
  unfold Uint256.from_u32_digits, at_. cbn [undigits_le lookup list_lookup default id].
  unfold word_ok in *. lia.
Qed.

(** ** Properties *)

(** The Ripemd160f instruction is total on 256-bit operands and its result
    is a 160-bit integer. *)
Theorem ripemd160_total acc buf0 buf1 :
  Uint256.wf acc → Uint256.wf buf0 → Uint256.wf buf1 →
  ∃ r, ripemd160_compression acc buf0 buf1 = Some r ∧ 0 <= r < 2 ^ 160.
Proof. intros. by apply compression_ok. Qed.

Lemma ripemd160_total_witness :
  Uint256.wf ripemd_iv ∧ ∃ r, ripemd160_compression ripemd_iv 7 8 = Some r.
Proof.
  split; [by_eval|].
  destruct (ripemd160_total ripemd_iv 7 8) as (r & H & _); [by_eval..|].
  exists r. exact H.
Defined.

(** One-block messages hash to the published RIPEMD-160 digests (the empty
    string and "abc"). *)
Theorem ripemd160_vectors :
  ripemd160_compression ripemd_iv
    (undigits_be 256 (0x80 :: replicate 31 0)) 0
  = Some 0x9c1185a5c5e9fc54612808977ee8f548b2258d31 ∧
  ripemd160_compression ripemd_iv
    (undigits_be 256 ([0x61; 0x62; 0x63; 0x80] ++ replicate 28 0))
    (undigits_be 256 (replicate 24 0 ++ digits_le 256 8 24))
  = Some 0x8eb208f7e05d987a9b044a8e98c6b087f15a0bfc.
Proof. vm_compute. split; reflexivity. Qed.

(** Feeding the result of one Ripemd160f back as the accumulator of the
    next, as stdlib/ripemd160.mini does for messages of more than one block,
    does not compute RIPEMD-160: the result's words have their bytes reversed
    and the accumulator's are read unreversed.  For the 80-byte test message
    the chained result differs from the published digest, which is obtained
    when the words are swapped back in between. *)
Theorem ripemd160_chaining_broken :
  ∃ acc, ripemd160_compression ripemd_iv (word_of msg80 0) (word_of msg80 1) = Some acc ∧
    ripemd160_compression acc (word_of msg80 2) (word_of msg80 3)
      ≠ Some 0x9b752e45573d4b39f4dbd3323cab82bf63326bfb ∧
    ripemd160_compression (swap_words acc) (word_of msg80 2) (word_of msg80 3)
      = Some 0x9b752e45573d4b39f4dbd3323cab82bf63326bfb.
Proof.
  eexists. split; [vm_compute; reflexivity|]. split; vm_compute; [congruence|reflexivity].
Qed.
