(* ===== verification/RuntimeEnv.v ===== *)
(** * The runtime environment (src/src/run/runtime_env.rs)

    The machine's outside world: the inbox it reads messages from, the logs
    and sends it emits, the recorder that keeps a copy of all of them, and the
    helpers that format messages.  A Rust panic is [None]; a function that
    changes the environment returns the new one.  Messages
    that need a wallet are in WalletMessages.v, receipts in Receipts.v; files and
    JSON are not modelled, and the [rlp] crate's encoder is a parameter. *)

From Stdlib Require Import ZArith Lia.
From S2P Require Import Prelude U256 Crypto BufferTree Values.
Local Open Scope Z_scope.

(** ** The recorder *)
Module RtEnvRecorder.

Record t := mk {
  format_version : Z;
  inbox : list Value.t;
  logs : list Value.t;
  sends : list (list Z);
  total_gas : Z;
}.

Definition new : t := mk 1 [] [] [] 0.
Definition add_msg (r : t) (msg : Value.t) : t :=
  mk (format_version r) (inbox r ++ [msg]) (logs r) (sends r) (total_gas r).
Definition add_log (r : t) (log_item : Value.t) : t :=
  mk (format_version r) (inbox r) (logs r ++ [log_item]) (sends r) (total_gas r).
Definition add_send (r : t) (send_item : list Z) : t :=
  mk (format_version r) (inbox r) (logs r) (sends r ++ [send_item]) (total_gas r).

End RtEnvRecorder.

(** ** Address and amount compression *)
Module TxCompressor.

Record t := mk {
  address_map : gmap (list Z) (list Z);
  next_index : Z;
}.

Definition new : t := mk ∅ 1.

Section rlp.
Context (rlp : list Z → list Z).

Definition compress_address (c : t) (addr : Z) : list Z * t :=
  match address_map c !! Uint256.to_bytes_be addr with
  | Some rlp_bytes => (rlp_bytes, c)
  | None =>
      let addr_bytes := Uint256.to_bytes_be addr in
      (148 :: take 20 (drop 12 addr_bytes),
       mk (<[addr_bytes := Uint256.rlp_encode rlp (Uint256.from_u64 (next_index c))]> (address_map c))
          ((1 + next_index c) mod two64))
  end.

(** Divide by ten while the remainder is zero; [fuel] bounds the number of
    decimal zeros of a 256-bit number (at most 77). *)
Fixpoint strip_zeroes (fuel : nat) (amt num_zeroes : Z) : option (Z * Z) :=
  match fuel with
  | O => None
  | S fuel =>
      r ← Uint256.modulo amt 10;
      if Uint256.is_zero r then
        amt' ← Uint256.div amt 10;
        strip_zeroes fuel amt' (1 + num_zeroes)
      else Some (amt, num_zeroes)
  end.

Definition strip_fuel : nat := 80.

Definition generic_compress_token_amount (amt : Z) : option (list Z) :=
  if Uint256.is_zero amt then Some (Uint256.rlp_encode rlp amt)
  else
    '(amt, num_zeroes) ← strip_zeroes strip_fuel amt 0;
    Some (Uint256.rlp_encode rlp amt ++ [num_zeroes mod 256]).

Definition compress_token_amount (c : t) (amt : Z) : option (list Z) :=
  generic_compress_token_amount amt.

End rlp.

End TxCompressor.

(** ** Byte strings as linked lists of 32-byte words *)
Section bytestack.

(** The bytes as a big-endian number, padded on the right to 32 bytes. *)
Fixpoint bytestack_build_loop (b : list Z) (n : nat) (ui : Z) : Z :=
  match n with
  | O => ui
  | S n =>
      match b with
      | x :: b =>
          bytestack_build_loop b n
            (Uint256.add (Uint256.mul ui (Uint256.from_usize 256)) (Uint256.from_usize x))
      | [] => bytestack_build_loop [] n (Uint256.mul ui (Uint256.from_usize 256))
      end
  end.

Definition _bytestack_build_uint (b : list Z) : Value.t :=
  Value.Int (bytestack_build_loop b 32 Uint256.zero).

Fixpoint _bytestack_from_bytes_2 (fuel : nat) (b : list Z) (so_far : Value.t) : option Value.t :=
  match fuel with
  | O => None
  | S fuel =>
      if Nat.ltb 32 (length b) then
        _bytestack_from_bytes_2 fuel (drop 32 b)
          (Value.new_tuple [_bytestack_build_uint (take 32 b); so_far])
      else Some (Value.new_tuple [_bytestack_build_uint b; so_far])
  end.

Definition _bytestack_from_bytes (b : list Z) : option Value.t :=
  v ← _bytestack_from_bytes_2 (S (length b)) b Value.none;
  Some (Value.new_tuple [Value.Int (Uint256.from_usize (Z.of_nat (length b))); v]).

(** The [for] loops of [_bytes_from_bytestack_2]: [n] times the remainder by
    256, stored from the last position of the array to the first. *)
Fixpoint low_bytes (n : nat) (int_val : Z) (arr : list Z) : option (list Z) :=
  match n with
  | O => Some arr
  | S n =>
      rem ← Uint256.modulo int_val 256;
      int_val' ← Uint256.div int_val 256;
      low_bytes n int_val' (rem mod 256 :: arr)
  end.

Fixpoint drop_bytes (n : nat) (int_val : Z) : option Z :=
  match n with
  | O => Some int_val
  | S n => int_val' ← Uint256.div int_val 256; drop_bytes n int_val'
  end.

(** The outer option is a panic (a failed [assert_eq!]), the inner one the
    function's own result. *)
Fixpoint _bytes_from_bytestack_2 (cell : Value.t) (nbytes : Z) : option (option (list Z)) :=
  if nbytes =? 0 then Some (Some [])
  else
    match cell with
    | Value.Tuple [Value.Int int_val; next] =>
        if nbytes mod 32 =? 0 then
          r ← _bytes_from_bytestack_2 next (nbytes - 32);
          match r with
          | None => Some None
          | Some sub_arr =>
              this_arr ← low_bytes 32 int_val [];
              Some (Some (sub_arr ++ this_arr))
          end
        else
          r ← _bytes_from_bytestack_2 next (32 * (nbytes / 32));
          match r with
          | None => Some None
          | Some sub_arr =>
              let this_size := Z.to_nat (nbytes mod 32) in
              int_val' ← drop_bytes (32 - this_size) int_val;
              this_arr ← low_bytes this_size int_val' [];
              Some (Some (sub_arr ++ this_arr))
          end
    | Value.Tuple [_; _] => Some None
    | Value.Tuple _ => None
    | _ => Some None
    end.

(** A tuple with too few components panics at the index. *)
Definition _bytes_from_bytestack (bs : Value.t) : option (option (list Z)) :=
  match bs with
  | Value.Tuple tup =>
      v0 ← tup !! 0%nat;
      match v0 with
      | Value.Int ui =>
          match Uint256.to_usize ui with
          | Some nbytes => v1 ← tup !! 1%nat; _bytes_from_bytestack_2 v1 nbytes
          | None => Some None
          end
      | _ => Some None
      end
  | _ => Some None
  end.

Context `{Crypto}.

Fixpoint hash_bytestack_loop (pair : Value.t) (acc : Z) : option (option Z) :=
  match pair with
  | Value.Tuple [] => Some (Some acc)
  | Value.Tuple (Value.Int ui2 :: rest) =>
      match rest with
      | next :: _ => hash_bytestack_loop next (Uint256.avm_hash2 keccak256 acc ui2)
      | [] => None
      end
  | _ => Some None
  end.

Definition hash_bytestack (bs : Value.t) : option (option Z) :=
  match bs with
  | Value.Tuple tup =>
      v0 ← tup !! 0%nat;
      match v0 with
      | Value.Int ui => v1 ← tup !! 1%nat; hash_bytestack_loop v1 ui
      | _ => Some None
      end
  | _ => Some None
  end.

End bytestack.

(** ** The environment *)
Module RuntimeEnvironment.

Record t := mk {
  chain_id : Z;
  l1_inbox : list Value.t;
  current_block_num : Z;
  current_timestamp : Z;
  logs : list Value.t;
  sends : list (list Z);
  next_inbox_seq_num : Z;
  caller_seq_nums : gmap Z Z;
  next_id : Z;
  recorder : RtEnvRecorder.t;
  compressor : TxCompressor.t;
  charging_policy : option (Z * Z * Z);
  num_wallets : Z;
  chain_init_message : list Z;
}.

(** Field updates. *)
Definition with_inbox (e : t) (inbox : list Value.t) : t :=
  mk (chain_id e) inbox (current_block_num e) (current_timestamp e) (logs e) (sends e)
     (next_inbox_seq_num e) (caller_seq_nums e) (next_id e) (recorder e) (compressor e)
     (charging_policy e) (num_wallets e) (chain_init_message e).
Definition with_message (e : t) (inbox : list Value.t) (seq : Z) (r : RtEnvRecorder.t) : t :=
  mk (chain_id e) inbox (current_block_num e) (current_timestamp e) (logs e) (sends e)
     seq (caller_seq_nums e) (next_id e) r (compressor e)
     (charging_policy e) (num_wallets e) (chain_init_message e).
Definition with_time (e : t) (block_num timestamp : Z) : t :=
  mk (chain_id e) (l1_inbox e) block_num timestamp (logs e) (sends e)
     (next_inbox_seq_num e) (caller_seq_nums e) (next_id e) (recorder e) (compressor e)
     (charging_policy e) (num_wallets e) (chain_init_message e).
Definition with_output (e : t) (logs : list Value.t) (sends : list (list Z))
    (r : RtEnvRecorder.t) : t :=
  mk (chain_id e) (l1_inbox e) (current_block_num e) (current_timestamp e) logs sends
     (next_inbox_seq_num e) (caller_seq_nums e) (next_id e) r (compressor e)
     (charging_policy e) (num_wallets e) (chain_init_message e).
Definition with_seq_nums (e : t) (sn : gmap Z Z) : t :=
  mk (chain_id e) (l1_inbox e) (current_block_num e) (current_timestamp e) (logs e) (sends e)
     (next_inbox_seq_num e) sn (next_id e) (recorder e) (compressor e)
     (charging_policy e) (num_wallets e) (chain_init_message e).

Definition get_chain_id (e : t) : Z := chain_id e.
Definition get_gas_price (e : t) : Z := Uint256._from_gwei 2.

Definition insert_full_inbox_contents (e : t) (contents : list Value.t) : t :=
  with_inbox e contents.

Definition get_from_inbox (e : t) : option Value.t * t :=
  match l1_inbox e with
  | [] => (None, e)
  | msg :: rest => (Some msg, with_inbox e rest)
  end.

Definition peek_at_inbox_head (e : t) : option Value.t := head (l1_inbox e).

Definition push_log (e : t) (log_item : Value.t) : t :=
  with_output e (logs e ++ [log_item]) (sends e) (RtEnvRecorder.add_log (recorder e) log_item).

Definition get_all_raw_logs (e : t) : list Value.t := logs e.

Definition get_and_incr_seq_num (e : t) (addr : Z) : Z * t :=
  let cur_seq_num := default Uint256.zero (caller_seq_nums e !! addr) in
  (cur_seq_num,
   with_seq_nums e (<[addr := Uint256.add cur_seq_num Uint256.one]> (caller_seq_nums e))).

Definition new_batch : list Z := [3].

Definition _new_sequencer_batch (e : t) (delay : option (Z * Z)) : option (list Z) :=
  let '(delay_blocks, delay_seconds) := default (Uint256.one, Uint256.one) delay in
  '(release_block_num, release_timestamp) ←
    (if (current_block_num e <=? delay_blocks) || (current_timestamp e <=? delay_seconds)
     then Some (Uint256.zero, Uint256.zero)
     else b ← Uint256.sub (current_block_num e) delay_blocks;
          s ← Uint256.sub (current_timestamp e) delay_seconds;
          Some (b, s));
  let low_order_bnum := Z.land (Uint256.trim_to_u64 release_block_num) 0xffff in
  let low_order_ts := Z.land (Uint256.trim_to_u64 release_timestamp) 0xffffff in
  Some [5;
        Z.shiftr low_order_bnum 8 mod 256;
        Z.land low_order_bnum 0xff;
        Z.shiftr low_order_ts 16 mod 256;
        Z.land (Z.shiftr low_order_ts 8) 0xff;
        Z.land low_order_ts 0xff].

Section crypto.
Context `{Crypto}.

(** The bytes of a name, as [str::as_bytes] gives them. *)
Definition string_bytes (s : string) : list Z :=
  (λ c, Z.of_N (Ascii.N_of_ascii c)) <$> String.list_ascii_of_string s.

Definition get_params_bytes (owner : option Z) (chain_id : Z) : list Z :=
  mjoin ((λ '(name, val), keccak256 (string_bytes name) ++ Uint256.to_bytes_be val) <$>
         [("ChainOwner", default Uint256.zero owner); ("ChainID", Uint256.from_u64 chain_id)]).

(** A message is an 8-tuple; the id is the hash of the chain id and the
    sequence number. *)
Definition insert_l1_message (e : t) (msg_type sender_addr : Z) (msg : list Z)
    (block_num timestamp : option Z) : option (Z * t) :=
  buf ← Value.new_buffer msg;
  let l1_msg := Value.new_tuple [
    Value.Int (Uint256.from_usize msg_type);
    Value.Int (default (current_block_num e) block_num);
    Value.Int (default (current_timestamp e) timestamp);
    Value.Int sender_addr;
    Value.Int (next_inbox_seq_num e);
    Value.Int (get_gas_price e);
    Value.Int (Uint256.from_usize (Z.of_nat (length msg)));
    buf] in
  let msg_id := Uint256.avm_hash2 keccak256 (Uint256.from_u64 (chain_id e)) (next_inbox_seq_num e) in
  Some (msg_id,
        with_message e (l1_inbox e ++ [l1_msg]) (Uint256.add (next_inbox_seq_num e) Uint256.one)
                     (RtEnvRecorder.add_msg (recorder e) l1_msg)).

Definition send_chain_init_message (e : t) : option t :=
  '(_, e) ← insert_l1_message e 4 Uint256.zero (chain_init_message e) None None;
  Some e.

Definition new_with_blocknum_timestamp (blocknum timestamp : Z)
    (charging_policy : option (Z * Z * Z)) (owner : option Z) : option t :=
  let chain_id := 42161 in
  send_chain_init_message
    (mk chain_id [] blocknum timestamp [] [] Uint256.zero ∅ Uint256.zero RtEnvRecorder.new
        TxCompressor.new charging_policy 0 (get_params_bytes owner chain_id)).

Definition new (charging_policy : option (Z * Z * Z)) : option t :=
  new_with_blocknum_timestamp (Uint256.from_u64 100000) (Uint256.from_u64 10000000)
    charging_policy None.

(** [msg[0]] panics on an empty message. *)
Definition insert_l2_message (e : t) (sender_addr : Z) (msg : list Z) (is_buddy_deploy : bool)
    : option (Z * t) :=
  '(default_id, e) ← insert_l1_message e (if is_buddy_deploy then 5 else 3) sender_addr msg None None;
  if is_buddy_deploy then Some (default_id, e)
  else
    b ← msg !! 0%nat;
    if b =? 0 then
      Some (Uint256.avm_hash2 keccak256 sender_addr
              (Uint256.avm_hash2 keccak256 (Uint256.from_u64 (chain_id e))
                 (Uint256.from_bytes (keccak256 msg))), e)
    else Some (default_id, e).

Definition insert_l2_message_with_deposit (e : t) (sender_addr : Z) (msg : list Z)
    : option (Z * t) :=
  b ← msg !! 0%nat;
  if negb (b =? 0) && negb (b =? 1) then None
  else
    '(default_id, e) ← insert_l1_message e 7 sender_addr msg None None;
    if b =? 0 then
      bs ← _bytestack_from_bytes msg;
      h ← hash_bytestack bs;
      h ← h;
      Some (Uint256.avm_hash2 keccak256 sender_addr
              (Uint256.avm_hash2 keccak256 (Uint256.from_u64 (chain_id e)) h), e)
    else Some (default_id, e).

Definition insert_tx_message (e : t) (sender_addr max_gas : Z) (gas_price_bid : option Z)
    (to_addr value : Z) (data : list Z) (with_deposit : bool) : option (Z * t) :=
  let '(seq_num, e) := get_and_incr_seq_num e sender_addr in
  let buf := [0] ++ Uint256.to_bytes_be max_gas
             ++ Uint256.to_bytes_be (default (get_gas_price e) gas_price_bid)
             ++ Uint256.to_bytes_be seq_num ++ Uint256.to_bytes_be to_addr
             ++ Uint256.to_bytes_be value ++ data in
  if with_deposit then insert_l2_message_with_deposit e sender_addr buf
  else insert_l2_message e sender_addr buf false.

Definition insert_tx_message_from_contract (e : t) (sender_addr max_gas : Z)
    (gas_price_bid : option Z) (to_addr value : Z) (data : list Z) (with_deposit : bool)
    : option (Z * t) :=
  let buf := [1] ++ Uint256.to_bytes_be max_gas
             ++ Uint256.to_bytes_be (default (get_gas_price e) gas_price_bid)
             ++ Uint256.to_bytes_be to_addr ++ Uint256.to_bytes_be value ++ data in
  if with_deposit then insert_l2_message_with_deposit e sender_addr buf
  else insert_l2_message e sender_addr buf false.

Definition insert_batch_message (e : t) (sender_addr : Z) (batch : list Z) : option t :=
  '(_, e) ← insert_l2_message e sender_addr batch false; Some e.

Definition _insert_nonmutating_call_message (e : t) (sender_addr to_addr max_gas : Z)
    (data : list Z) : option t :=
  let buf := [2] ++ Uint256.to_bytes_be max_gas ++ Uint256.to_bytes_be Uint256.zero
             ++ Uint256.to_bytes_be to_addr ++ data in
  '(_, e) ← insert_l2_message e sender_addr buf false; Some e.

Definition insert_eth_deposit_message (e : t) (sender_addr payee amount : Z) : option t :=
  '(_, e) ← insert_tx_message_from_contract e sender_addr (Uint256.from_u64 100000000) None
              payee amount [] true;
  Some e.

Definition _advance_time (e : t) (delta_blocks : Z) (delta_timestamp : option Z)
    (send_heartbeat_message : bool) : option t :=
  let e := with_time e (Uint256.add (current_block_num e) delta_blocks)
             (Uint256.add (current_timestamp e)
                (default (Uint256.mul (Uint256.from_u64 13) delta_blocks) delta_timestamp)) in
  if send_heartbeat_message then
    '(_, e) ← insert_l2_message e Uint256.zero [6] false; Some e
  else Some e.

(** [size.to_usize().unwrap()] panics on a size of [2^64] or more. *)
Definition push_send (e : t) (size : Z) (buf : Buffer.t) : option t :=
  n ← Uint256.to_usize size;
  contents ← Buffer.as_bytes buf (Z.to_nat n);
  Some (with_output e (logs e) (sends e ++ [contents])
          (RtEnvRecorder.add_send (recorder e) contents)).

(** The send contained in a log item: kind 2, the size at index 3 and the
    buffer at index 4.  The outer option is a panic. *)
Definition get_send_contents (log : Value.t) : option (option (list Z)) :=
  match log with
  | Value.Tuple tup =>
      k ← tup !! 0%nat;
      match k with
      | Value.Int kind =>
          if kind =? 2 then
            s ← tup !! 3%nat;
            match s with
            | Value.Int usz =>
                sz ← Uint256.to_usize usz;
                b ← tup !! 4%nat;
                match b with
                | Value.Buffer buf => Some <$> Buffer.as_bytes buf (Z.to_nat sz)
                | _ => None
                end
            | _ => None
            end
          else Some None
      | _ => Some None
      end
  | _ => Some None
  end.

Definition get_all_sends (e : t) : option (list (list Z)) :=
  rs ← mapM get_send_contents (logs e); Some (omap id rs).

Definition _get_last_send (e : t) : option (option (list Z)) :=
  sends ← get_all_sends e; Some (head sends).

End crypto.
End RuntimeEnvironment.

(** ** Lemmas on byte stacks *)
Section bytestack_lemmas.

Lemma build_loop_eq b n ui : digits_ok 256 b → (length b <= n)%nat → 0 <= ui →
  ui * 256 ^ Z.of_nat n + undigits_be 256 b * 256 ^ Z.of_nat (n - length b) < two256 →
  bytestack_build_loop b n ui =
  ui * 256 ^ Z.of_nat n + undigits_be 256 b * 256 ^ Z.of_nat (n - length b).
Proof.
  intros Hd. revert n ui. induction Hd as [|x b Hx Hd IH]; intros n ui Hl Hui Hlt.
  - clear Hl. cbn [length] in *. revert ui Hui Hlt. induction n as [|n IHn]; intros ui Hui Hlt; cbn [bytestack_build_loop].
    { change (undigits_be 256 []) with 0. lia. }
    change (undigits_be 256 []) with 0 in *. rewrite Nat2Z.inj_succ, Z.pow_succ_r in * by lia.
    assert (0 < 256 ^ Z.of_nat n) by (apply Z.pow_pos_nonneg; lia).
    assert (0 <= ui * 256 < two256) by nia.
    unfold Uint256.from_usize. rewrite Uint256.mul_eq, Z.mod_small
      by (done || (unfold Uint256.wf, two256 in *; nia)).
    rewrite IHn by nia. ring.
  - destruct n as [|n]; [simpl in Hl; lia|]. cbn [length] in *.
    cbn [bytestack_build_loop]. rewrite Nat2Z.inj_succ, Z.pow_succ_r in * by lia.
    rewrite Nat.sub_succ in *.
    change (x :: b) with ([x] ++ b) in *. rewrite undigits_be_app in *.
    change (undigits_be 256 [x]) with (x + 256 * 0) in *. rewrite Z.mul_0_r, Z.add_0_r in *.
    pose proof (undigits_be_bound 256 ltac:(lia) b Hd) as Hb.
    assert (0 < 256 ^ Z.of_nat (n - length b)) as Hp by (apply Z.pow_pos_nonneg; lia).
    assert (256 ^ Z.of_nat n = 256 ^ Z.of_nat (length b) * 256 ^ Z.of_nat (n - length b)) as E.
    { rewrite <- Z.pow_add_r by lia. f_equal. lia. }
    assert (0 < 256 ^ Z.of_nat n) by (apply Z.pow_pos_nonneg; lia).
    assert (0 <= ui * 256 + x < two256) by nia.
    unfold Uint256.from_usize.
    rewrite Uint256.mul_eq, (Z.mod_small (ui * 256)) by (unfold Uint256.wf, two256 in *; lia).
    rewrite Uint256.add_eq, Z.mod_small by (unfold Uint256.wf, two256 in *; lia).
    rewrite IH; nia.
Qed.

Lemma build_uint_eq b : digits_ok 256 b → (length b <= 32)%nat →
  _bytestack_build_uint b = Value.Int (undigits_be 256 b * 256 ^ Z.of_nat (32 - length b)).
Proof.
  intros Hd Hl. unfold _bytestack_build_uint. f_equal.
  pose proof (undigits_be_bound 256 ltac:(lia) b Hd) as Hb.
  rewrite build_loop_eq; [unfold Uint256.zero; lia|done|done|done|].
  assert (256 ^ 32 = 256 ^ Z.of_nat (length b) * 256 ^ Z.of_nat (32 - length b)) as E.
  { rewrite <- Z.pow_add_r by lia. f_equal. lia. }
  assert (0 < 256 ^ Z.of_nat (32 - length b)) by (apply Z.pow_pos_nonneg; lia).
  change two256 with (256 ^ 32). rewrite E. unfold Uint256.zero. nia.
Qed.

Lemma low_bytes_eq n v arr : 0 <= v → low_bytes n v arr = Some (digits_be 256 n v ++ arr).
Proof.
  revert v arr; induction n as [|n IH]; intros v arr Hv; [done|].
  cbn [low_bytes]. unfold Uint256.modulo, Uint256.div. cbn [Z.eqb mbind option_bind].
  rewrite IH by (apply Z.div_pos; lia). rewrite Z.mod_mod by lia.
  unfold digits_be. cbn [digits_le]. by rewrite reverse_cons, <- app_assoc.
Qed.

Lemma drop_bytes_eq n v : 0 <= v → drop_bytes n v = Some (v / 256 ^ Z.of_nat n).
Proof.
  revert v; induction n as [|n IH]; intros v Hv; [by rewrite Z.pow_0_r, Z.div_1_r|].
  cbn [drop_bytes]. unfold Uint256.div. cbn [Z.eqb mbind option_bind].
  rewrite IH by (apply Z.div_pos; lia).
  rewrite Nat2Z.inj_succ, Z.pow_succ_r, Z.div_div by (try apply Z.pow_pos_nonneg; lia). done.
Qed.

(** Reading the topmost cell: [pre] is what the rest of the stack holds. *)
Lemma read_cell pre b so_far :
  digits_ok 256 b → (0 < length b <= 32)%nat → Z.of_nat (length pre) mod 32 = 0 →
  _bytes_from_bytestack_2 so_far (Z.of_nat (length pre)) = Some (Some pre) →
  _bytes_from_bytestack_2 (Value.new_tuple [_bytestack_build_uint b; so_far])
    (Z.of_nat (length pre + length b)) = Some (Some (pre ++ b)).
Proof.
  intros Hd Hl Hpre Hrest. rewrite build_uint_eq by (done || lia).
  pose proof (undigits_be_bound 256 ltac:(lia) b Hd) as Hb.
  assert (0 < 256 ^ Z.of_nat (32 - length b)) as Hp by (apply Z.pow_pos_nonneg; lia).
  apply Z.mod_divide in Hpre as [k Hk]; [|lia].
  cbn [Value.new_tuple _bytes_from_bytestack_2]. rewrite (proj2 (Z.eqb_neq _ 0)) by lia.
  destruct (Nat.eq_dec (length b) 32%nat) as [E|Hne].
  - rewrite E, Nat2Z.inj_add, Hk in *.
    replace (k * 32 + Z.of_nat 32) with ((k + 1) * 32) by lia. rewrite Z.mod_mul by lia. cbn [Z.eqb].
    replace ((k + 1) * 32 - 32) with (k * 32) by lia. rewrite Hrest. cbn [mbind option_bind].
    rewrite low_bytes_eq by lia. cbn [mbind option_bind]. rewrite app_nil_r, Nat.sub_diag, Z.mul_1_r.
    rewrite digits_undigits_be by (done || lia). done.
  - assert (Z.of_nat (length pre + length b) mod 32 = Z.of_nat (length b)) as Em.
    { rewrite Nat2Z.inj_add, Hk, Z.add_comm, Z.mod_add by lia. apply Z.mod_small. lia. }
    assert (Z.of_nat (length pre + length b) / 32 = k) as Ed.
    { rewrite Nat2Z.inj_add, Hk, Z.add_comm, Z.div_add by lia. rewrite Z.div_small; lia. }
    rewrite Em, Ed, (proj2 (Z.eqb_neq _ 0)) by lia.
    replace (32 * k) with (Z.of_nat (length pre)) by lia. rewrite Hrest. cbn [mbind option_bind].
    rewrite Nat2Z.id, drop_bytes_eq by nia. cbn [mbind option_bind].
    rewrite Z.div_mul by lia. rewrite low_bytes_eq by lia. cbn [mbind option_bind].
    rewrite app_nil_r, digits_undigits_be by (done || lia). done.
Qed.

Lemma from_bytes_2_eq fuel b pre so_far :
  digits_ok 256 b → (length b < fuel)%nat → Z.of_nat (length pre) mod 32 = 0 →
  (b ≠ [] ∨ pre = []) →
  _bytes_from_bytestack_2 so_far (Z.of_nat (length pre)) = Some (Some pre) →
  ∃ v, _bytestack_from_bytes_2 fuel b so_far = Some v ∧
       _bytes_from_bytestack_2 v (Z.of_nat (length pre + length b)) = Some (Some (pre ++ b)).
Proof.
  revert b pre so_far; induction fuel as [|fuel IH]; intros b pre so_far Hd Hf Hpre Hne Hrest; [lia|].
  cbn [_bytestack_from_bytes_2]. destruct (Nat.ltb_spec 32 (length b)) as [Hlt|Hle].
  - assert (length (take 32 b) = 32%nat) as Ht by (rewrite length_take; lia).
    pose proof (read_cell pre (take 32 b) so_far) as Hcell. rewrite Ht in Hcell.
    specialize (Hcell (Forall_take _ _ _ Hd) ltac:(lia) Hpre Hrest).
    destruct (IH (drop 32 b) (pre ++ take 32 b)
      (Value.new_tuple [_bytestack_build_uint (take 32 b); so_far])) as (v & Hv & Hr).
    + by apply Forall_drop.
    + rewrite length_drop. lia.
    + rewrite length_app, Ht, Nat2Z.inj_add, Z.add_comm. by rewrite <- (Z.mod_add _ (-1)) by lia;
        replace (Z.of_nat 32 + Z.of_nat (length pre) + -1 * 32) with (Z.of_nat (length pre)) by lia.
    + left. intros E. apply (f_equal length) in E. rewrite length_drop in E. simpl in E. lia.
    + by rewrite length_app, Ht.
    + exists v. split; [done|]. rewrite <- app_assoc, take_drop in Hr. rewrite <- Hr. f_equal.
      rewrite length_app, length_drop, Ht. lia.
  - eexists. split; [done|]. destruct b as [|x b].
    + destruct Hne as [?| ->]; [done|]. done.
    + apply read_cell; try done. simpl in *. lia.
Qed.
End bytestack_lemmas.

Lemma strip_zeroes_eq fuel amt z :
  0 < amt < 10 ^ Z.of_nat fuel → (0 < fuel)%nat →
  ∃ a k, TxCompressor.strip_zeroes fuel amt z = Some (a, z + k) ∧ 0 <= k < Z.of_nat fuel ∧
         amt = a * 10 ^ k ∧ a mod 10 ≠ 0.
Proof.
  revert amt z; induction fuel as [|fuel IH]; intros amt z Ha Hf; [lia|].
  cbn [TxCompressor.strip_zeroes]. unfold Uint256.modulo, Uint256.div, Uint256.is_zero.
  cbn [Z.eqb mbind option_bind]. destruct (Z.eqb_spec (amt mod 10) 0) as [E|Hne].
  - pose proof (Z.div_mod amt 10 ltac:(lia)) as Hdm. rewrite E, Z.add_0_r in Hdm.
    rewrite Nat2Z.inj_succ, Z.pow_succ_r in Ha by lia.
    assert (0 < amt / 10) by nia.
    destruct fuel as [|fuel]; [cbn in Ha; lia|].
    destruct (IH (amt / 10) (1 + z)) as (a & k & -> & Hk & Hv & Hm); [lia|lia|].
    exists a, (k + 1). split; [do 2 f_equal; lia|]. split; [lia|]. split; [|done].
    rewrite Z.pow_add_r by lia. nia.
  - exists amt, 0. split; [do 2 f_equal; lia|]. split; [lia|]. split; [lia|done].
Qed.

(** ** The environment as a transition system *)
Section steps.
Import RuntimeEnvironment.
Context `{Crypto}.

(** What the emulator and its drivers do to the environment: messages come in,
    the machine takes them out and emits logs and sends.  [insert_l2_message] and
    what is built on it follow in [recorded_l2] and [WalletMessages]. *)
Inductive operation : t → t → Prop :=
| step_l1 e ty s msg b ts id e' : insert_l1_message e ty s msg b ts = Some (id, e') → operation e e'
| step_l2 e s msg d id e' : insert_l2_message e s msg d = Some (id, e') → operation e e'
| step_deposit e s msg id e' : insert_l2_message_with_deposit e s msg = Some (id, e') → operation e e'
| step_tx e s gas price to v data dep id e' : insert_tx_message e s gas price to v data dep = Some (id, e') → operation e e'
| step_tx_contract e s gas price to v data dep id e' :
    insert_tx_message_from_contract e s gas price to v data dep = Some (id, e') → operation e e'
| step_batch e s b e' : insert_batch_message e s b = Some e' → operation e e'
| step_call e s to gas data e' : _insert_nonmutating_call_message e s to gas data = Some e' → operation e e'
| step_eth e s payee amount e' : insert_eth_deposit_message e s payee amount = Some e' → operation e e'
| step_init e e' : send_chain_init_message e = Some e' → operation e e'
| step_time e db dt hb e' : _advance_time e db dt hb = Some e' → operation e e'
| step_get e v e' : get_from_inbox e = (v, e') → operation e e'
| step_log e v : operation e (push_log e v)
| step_send e n b e' : push_send e n b = Some e' → operation e e'
| step_seq e a : operation e (get_and_incr_seq_num e a).2.

(** What the inbox holds besides the recorded messages: nothing, or the contents
    last given to [insert_full_inbox_contents], which replace the inbox without
    being recorded, and the number of messages that had been recorded then. *)
Definition origin : Type := option (list Value.t * nat).

(** The steps of an environment with the origin of its inbox. *)
Inductive step : origin * t → origin * t → Prop :=
| step_operation o e e' : operation e e' → step (o, e) (o, e')
| step_contents o e contents :
    step (o, e) (Some (contents, length (RtEnvRecorder.inbox (recorder e))), insert_full_inbox_contents e contents).

(** The messages that came into the inbox, those taken out included. *)
Definition arrived (o : origin) (msgs : list Value.t) : list Value.t :=
  match o with
  | None => msgs
  | Some (contents, n) => contents ++ drop n msgs
  end.

(** The message at each position of the recorded inbox carries its position as
    sequence number; what is still in the inbox is the end of what arrived; logs
    and sends are recorded in full. *)
Definition seq_of (v : Value.t) : option Z :=
  match v with
  | Value.Tuple [_; _; _; _; Value.Int n; _; _; _] => Some n
  | _ => None
  end.

Definition recorded (o : origin) (e : t) : Prop :=
  (∃ taken, arrived o (RtEnvRecorder.inbox (recorder e)) = taken ++ l1_inbox e) ∧
  (∀ contents n, o = Some (contents, n) → (n <= length (RtEnvRecorder.inbox (recorder e)))%nat) ∧
  RtEnvRecorder.logs (recorder e) = logs e ∧ RtEnvRecorder.sends (recorder e) = sends e ∧
  (seq_of <$> RtEnvRecorder.inbox (recorder e)) =
    (λ i, Some (Z.of_nat i mod two256)) <$> seq 0 (length (RtEnvRecorder.inbox (recorder e))) ∧
  next_inbox_seq_num e = Z.of_nat (length (RtEnvRecorder.inbox (recorder e))) mod two256.

Lemma arrived_app o msgs m : (∀ contents n, o = Some (contents, n) → (n <= length msgs)%nat) → arrived o (msgs ++ [m]) = arrived o msgs ++ [m].
Proof.
  intros Ho. destruct o as [[contents n]|]; [|done]. cbn [arrived]. specialize (Ho _ _ eq_refl).
  by rewrite drop_app_le, <- app_assoc by done.
Qed.

Lemma recorded_l1 o e ty s msg b ts id e' : recorded o e → insert_l1_message e ty s msg b ts = Some (id, e') → recorded o e'.
Proof.
  intros ([taken Hin] & Ho & Hlogs & Hsends & Hseq & Hnext) E. unfold insert_l1_message, Value.new_buffer in E.
  destruct (Buffer.from_bytes msg); [|done]. injection E as _ <-.
  split_and!; cbn -[Uint256.add]; try done.
  - exists taken. by rewrite arrived_app, Hin, app_assoc.
  - intros contents n E. rewrite length_app. specialize (Ho _ _ E). lia.
  - rewrite fmap_app, length_app, Hseq. cbn [length]. rewrite seq_app, fmap_app. cbn [seq fmap list_fmap].
    by rewrite Hnext.
  - rewrite Hnext, length_app, Nat2Z.inj_add.
    rewrite Uint256.add_eq by (apply Uint256.wf_mod || done).
    by rewrite Zplus_mod_idemp_l.
Qed.

Lemma recorded_seq o e a : recorded o e → recorded o (get_and_incr_seq_num e a).2.
Proof. done. Qed.

Lemma recorded_l2 o e s msg d id e' : recorded o e → insert_l2_message e s msg d = Some (id, e') → recorded o e'.
Proof.
  unfold insert_l2_message. intros Hr Hs. apply bind_Some in Hs as ([i e1] & Hi & Hs). apply (recorded_l1 _ _ _ _ _ _ _ _ _ Hr) in Hi.
  destruct d; [by injection Hs as _ <-|]. apply bind_Some in Hs as (b & _ & Hs). by destruct (b =? 0); injection Hs as _ <-.
Qed.

Lemma recorded_deposit o e s msg id e' : recorded o e → insert_l2_message_with_deposit e s msg = Some (id, e') → recorded o e'.
Proof.
  unfold insert_l2_message_with_deposit. intros Hr Hs. apply bind_Some in Hs as (b & _ & Hs). destruct (_ && _); [done|].
  apply bind_Some in Hs as ([i e1] & Hi & Hs). apply (recorded_l1 _ _ _ _ _ _ _ _ _ Hr) in Hi.
  destruct (b =? 0); [|by injection Hs as _ <-]. repeat (apply bind_Some in Hs as (? & _ & Hs)). by injection Hs as _ <-.
Qed.

Lemma recorded_tx_contract o e s gas price to v data dep id e' : recorded o e →
  insert_tx_message_from_contract e s gas price to v data dep = Some (id, e') → recorded o e'.
Proof. intros Hr. destruct dep; [by apply recorded_deposit|by apply recorded_l2]. Qed.

Lemma operation_recorded o e e' : recorded o e → operation e e' → recorded o e'.
Proof.
  intros Hr Hs.
  destruct Hs as [e ty s msg b ts id e' E|e s msg d id e' E|e s msg id e' E|e s gas price to v data dep id e' E
    |e s gas price to v data dep id e' E|e s b e' E|e s to gas data e' E|e s payee amount e' E|e e' E|e db dt hb e' E|e v e' E|e v|e n b e' E|e a].
  - by eapply recorded_l1.
  - by eapply recorded_l2.
  - by eapply recorded_deposit.
  - unfold insert_tx_message in E. pose proof (recorded_seq o e s Hr) as H1. destruct (get_and_incr_seq_num e s) as [n e1].
    destruct dep; [by eapply recorded_deposit|by eapply recorded_l2].
  - by eapply recorded_tx_contract.
  - unfold insert_batch_message in E. apply bind_Some in E as ([i e1] & Hi & [= <-]). by eapply recorded_l2.
  - apply bind_Some in E as ([i e1] & Hi & [= <-]). by eapply recorded_l2.
  - unfold insert_eth_deposit_message in E. apply bind_Some in E as ([i e1] & Hi & [= <-]). by eapply recorded_tx_contract.
  - unfold send_chain_init_message in E. apply bind_Some in E as ([i e1] & Hi & [= <-]). by eapply recorded_l1.
  - unfold _advance_time in E. destruct hb; [|by injection E as <-]. apply bind_Some in E as ([i e1] & Hi & [= <-]).
    by eapply recorded_l2; [|exact Hi].
  - unfold get_from_inbox in E. destruct Hr as ([taken Hin] & Hr). destruct (l1_inbox e) as [|m rest] eqn:El.
    + injection E as <- <-. split; [exists taken; by rewrite El|done].
    + injection E as <- <-. split; [|done]. exists (taken ++ [m]). cbn. by rewrite Hin, <- app_assoc.
  - destruct Hr as (Hin & Ho & Hlogs & Hr). split_and!; try done; cbn; [congruence|apply Hr..].
  - unfold push_send in E. apply bind_Some in E as (k & _ & E). apply bind_Some in E as (bs & _ & [= <-]).
    destruct Hr as (Hin & Ho & Hlogs & Hsends & Hr). split_and!; try done; cbn; [congruence|apply Hr..].
  - done.
Qed.

Lemma step_recorded x y : recorded x.1 x.2 → step x y → recorded y.1 y.2.
Proof.
  intros Hr Hs. destruct Hs as [o e e' Hs|o e contents]; cbn [fst snd] in *; [by eapply operation_recorded|].
  destruct Hr as (_ & _ & Hr). split_and!; try apply Hr.
  - exists []. cbn. rewrite drop_ge by done. by rewrite app_nil_r.
  - intros c n [= _ <-]. done.
Qed.

Lemma new_recorded bn ts policy owner e : new_with_blocknum_timestamp bn ts policy owner = Some e → recorded None e.
Proof.
  intros Hnew. eapply (operation_recorded None _ _); [|apply step_init; exact Hnew]. split_and!; try done. by exists [].
Qed.

(** ** Properties *)

(** Byte strings survive the conversion to the linked-list format of ArbOS
    and back, whatever their length. *)
Theorem bytestack_roundtrip b :
  digits_ok 256 b → Z.of_nat (length b) < 2 ^ 64 →
  ∃ v, _bytestack_from_bytes b = Some v ∧ _bytes_from_bytestack v = Some (Some b).
Proof.
  intros Hd Hl. unfold _bytestack_from_bytes.
  destruct (from_bytes_2_eq (S (length b)) b [] Value.none) as (v & -> & Hv);
    [done|lia|done|by right|done|].
  eexists. split; [done|]. unfold _bytes_from_bytestack, Value.new_tuple, Uint256.from_usize.
  cbn [lookup list_lookup mbind option_bind]. unfold Uint256.to_usize.
  rewrite (proj2 (Z.ltb_lt _ _)) by exact Hl. exact Hv.
Qed.

(** The compressed form of a token amount is lossless: a non-zero amount is
    encoded as a mantissa that is not a multiple of ten, followed by one byte
    with the number of decimal zeros, whose product is the amount; the loop
    that divides by ten ends on every amount. *)
Theorem compress_amount_lossless rlp amt :
  Uint256.wf amt → amt ≠ 0 →
  ∃ a z, TxCompressor.generic_compress_token_amount rlp amt
           = Some (Uint256.rlp_encode rlp a ++ [z]) ∧
         amt = a * 10 ^ z ∧ a mod 10 ≠ 0 ∧ 0 <= z < 80.
Proof.
  intros [Ha0 Ha] Hne. unfold TxCompressor.generic_compress_token_amount, Uint256.is_zero.
  rewrite (proj2 (Z.eqb_neq _ _)) by done.
  destruct (strip_zeroes_eq TxCompressor.strip_fuel amt 0) as (a & k & -> & Hk & Hv & Hm).
  { split; [lia|]. eapply Z.lt_trans; [exact Ha|]. reflexivity. }
  { unfold TxCompressor.strip_fuel. lia. }
  change (Z.of_nat TxCompressor.strip_fuel) with 80 in Hk.
  exists a, k. cbn [mbind option_bind]. rewrite Z.add_0_l, Z.mod_small by lia. done.
Qed.

(** [_get_last_send] returns the first send found in the logs, not the
    last, and neither it nor [get_all_sends] sees what the Send instruction
    recorded with [push_send]. *)
Theorem last_send_is_first e e' n b :
  push_send e n b = Some e' →
  get_all_sends e' = get_all_sends e ∧ _get_last_send e' = _get_last_send e ∧
  ∀ s rest, get_all_sends e = Some (s :: rest) → _get_last_send e = Some (Some s).
Proof.
  intros E. unfold push_send in E. destruct (Uint256.to_usize n); [|done].
  cbn [mbind option_bind] in E. destruct (Buffer.as_bytes _ _); [|done]. injection E as <-.
  split; [done|]. split; [done|]. intros s rest Hs. unfold _get_last_send. by rewrite Hs.
Qed.
End steps.

(** ** Witnesses *)
Section witnesses.
Import RuntimeEnvironment.
#[local] Existing Instance toy_crypto.

Lemma bytestack_roundtrip_witness :
  ∃ v, _bytestack_from_bytes (replicate 40 7) = Some v ∧
       _bytes_from_bytestack v = Some (Some (replicate 40 7)).
Proof. apply bytestack_roundtrip; [apply Forall_replicate; lia|reflexivity]. Defined.

Lemma compress_amount_lossless_witness :
  ∃ a z, TxCompressor.generic_compress_token_amount id 1500000
           = Some (Uint256.rlp_encode id a ++ [z]) ∧ 1500000 = a * 10 ^ z.
Proof.
  destruct (compress_amount_lossless id 1500000) as (a & z & E & H & _); [by_eval|lia|].
  exists a, z. exact (conj E H).
Defined.

Definition demo_start : RuntimeEnvironment.t :=
  match new_with_blocknum_timestamp 100 1000 None None with
  | Some e => e
  | None => mk 0 [] 0 0 [] [] 0 ∅ 0 RtEnvRecorder.new TxCompressor.new None 0 []
  end.

Lemma last_send_is_first_witness :
  ∃ e', push_send demo_start 0 Buffer.new_empty = Some e' ∧ get_all_sends e' = get_all_sends demo_start.
Proof.
  eexists. split; [reflexivity|].
  apply (last_send_is_first demo_start _ 0 Buffer.new_empty). reflexivity.
Defined.
End witnesses.
