(* ===== verification/Receipts.v ===== *)
(** * Receipts and replays (src/src/run/runtime_env.rs)

    What the test harness reads out of the logs of a run: transaction receipts
    with their EVM logs, block summaries, and the comparison of a run with a
    recorded one.

    The outer option of a result is a panic: an index out of range, a value of
    another shape, a size of more than 64 bits. *)

From Stdlib Require Import ZArith Lia.
From S2P Require Import Prelude U256 Pos Opcodes Crypto BufferTree Values RuntimeEnv.
Local Open Scope Z_scope.

#[local] Set Warnings "-clear-no-such-hyp".

Definition as_int (v : Value.t) : option Z := match v with Value.Int ui => Some ui | _ => None end.
Definition as_tuple (v : Value.t) : option (list Value.t) := match v with Value.Tuple tup => Some tup | _ => None end.
(** [if let Value::Int(ui) = &tup[i] { ui } else { panic!() }] *)
Definition int_at (tup : list Value.t) (i : nat) : option Z := v ← tup !! i; as_int v.
Definition tuple_at (tup : list Value.t) (i : nat) : option (list Value.t) := v ← tup !! i; as_tuple v.

Definition size_buffer_tuple_to_bytes (val : Value.t) : option (option (list Z)) :=
  match val with
  | Value.Tuple tup =>
      sz ← tup !! 0%nat;
      buf ← tup !! 1%nat;
      match sz, buf with
      | Value.Int usz, Value.Buffer buf => n ← Uint256.to_usize usz; bytes ← Buffer.as_bytes buf (Z.to_nat n); Some (Some bytes)
      | _, _ => Some None
      end
  | _ => Some None
  end.

(** ** EVM logs *)
Record EvmLog := mkEvmLog { addr : Z; data : list Z; vals : list Z }.

Definition EvmLog_new (val : Value.t) : option EvmLog :=
  tup ← as_tuple val;
  addr ← int_at tup 0;
  v1 ← tup !! 1%nat;
  bytes ← size_buffer_tuple_to_bytes v1;
  bytes ← bytes;
  vals ← (if Nat.leb 2 (length tup) then mapM as_int (drop 2 tup) else None);
  Some (mkEvmLog addr bytes vals).

(** The list of logs: an empty tuple, or the last log and the list before it. *)
Fixpoint EvmLog_new_vec (val : Value.t) : option (list EvmLog) :=
  match val with
  | Value.Tuple [] => Some []
  | Value.Tuple (first :: rest) =>
      match rest with
      | next :: _ => rest ← EvmLog_new_vec next; last ← EvmLog_new first; Some (rest ++ [last])
      | [] => None
      end
  | _ => None
  end.

(** ** Receipts *)
Record ArbosRequestProvenance := mkProvenance {
  l1_sequence_num : Z;
  parent_request_id : option Z;
  index_in_parent : option Z;
}.
Record ArbosReceipt := mkReceipt {
  request : Value.t;
  request_id : Z;
  return_code : Z;
  return_data : list Z;
  evm_logs : list EvmLog;
  gas_used : Z;
  gas_price_wei : Z;
  provenance : ArbosRequestProvenance;
  gas_so_far : Z;
  index_in_block : Z;
  logs_so_far : Z;
  fee_stats : list (list Z);
}.

Definition unpack_return_info (val : Value.t) : option (option (Z * list Z * Value.t)) :=
  match val with
  | Value.Tuple tup =>
      v0 ← tup !! 0%nat;
      match v0 with
      | Value.Int return_code =>
          v1 ← tup !! 1%nat;
          bytes ← size_buffer_tuple_to_bytes v1;
          match bytes with
          | Some return_data => v2 ← tup !! 2%nat; Some (Some (return_code, return_data, v2))
          | None => Some None
          end
      | _ => Some None
      end
  | _ => Some None
  end.

(** The [n] integers of a tuple from index [i] on; something else is [None]. *)
Fixpoint unpack_ints (n i : nat) (tup : list Value.t) : option (option (list Z)) :=
  match n with
  | O => Some (Some [])
  | S n =>
      v ← tup !! i;
      match v with
      | Value.Int ui => r ← unpack_ints n (S i) tup; Some (match r with Some l => Some (ui :: l) | None => None end)
      | _ => Some None
      end
  end.
Definition unpack_info (n : nat) (val : Value.t) : option (option (list Z)) :=
  match val with Value.Tuple tup => unpack_ints n 0 tup | _ => Some None end.
Definition unpack_gas_info (val : Value.t) : option (option (list Z)) := unpack_info 2 val.
Definition unpack_cumulative_info (val : Value.t) : option (option (list Z)) := unpack_info 3 val.

(** [if ui.is_zero() { Some(ui) } else { None }] *)
Definition zero_only (ui : Z) : option Z := if Uint256.is_zero ui then Some ui else None.

Definition unpack_provenance (req : list Value.t) : option ArbosRequestProvenance :=
  subtup1 ← tuple_at req 7;
  subtup ← tuple_at subtup1 0;
  l1 ← int_at subtup 0;
  parent ← int_at subtup 1;
  index ← int_at subtup 2;
  Some (mkProvenance l1 (zero_only parent) (zero_only index)).

Definition unpack_fee_stats (v : Value.t) : option (list (list Z)) :=
  t2 ← as_tuple v;
  mapM (λ i, t3 ← tuple_at t2 i; mapM as_int t3) [0%nat; 1%nat; 2%nat].

Definition ArbosReceipt_new (arbos_log : Value.t) : option (option ArbosReceipt) :=
  tup ← as_tuple arbos_log;
  kind ← tup !! 0%nat;
  if bool_decide (kind = Value.Int Uint256.zero) then
    v2 ← tup !! 2%nat;
    r ← unpack_return_info v2;
    '(return_code, return_data, logs) ← r;
    v3 ← tup !! 3%nat;
    gas ← unpack_gas_info v3;
    gas ← gas;
    v4 ← tup !! 4%nat;
    cumulative ← unpack_cumulative_info v4;
    cumulative ← cumulative;
    request ← tup !! 1%nat;
    req ← as_tuple request;
    request_id ← int_at req 5;
    evm_logs ← EvmLog_new_vec logs;
    provenance ← unpack_provenance req;
    v5 ← tup !! 5%nat;
    fee_stats ← unpack_fee_stats v5;
    match gas, cumulative with
    | [gas_used; gas_price_wei], [gas_so_far; index_in_block; logs_so_far] =>
        Some (Some (mkReceipt request request_id return_code return_data evm_logs gas_used gas_price_wei provenance
                      gas_so_far index_in_block logs_so_far fee_stats))
    | _, _ => None
    end
  else Some None.

Definition succeeded (r : ArbosReceipt) : bool := return_code r =? Uint256.zero.
Definition _get_block_number (r : ArbosReceipt) : option Z := tup ← as_tuple (request r); int_at tup 1.

Definition _get_return_code_text (r : ArbosReceipt) : option string :=
  code ← Uint256.to_u64 (return_code r);
  Some (default "unknown error"
    (["success"; "transaction reverted"; "dropped due to L2 congestion"; "insufficient funds for ArbGas";
      "insufficient balance for callvalue"; "bad sequence number"; "message format error"; "cannot deploy at address";
      "exceeded tx gas limit"; "insufficient gas for base fee"; "below minimum ArbGas for contract tx"; "gas price too low";
      "no gas for auto-redeem"; "sender not permitted"; "sequence number too low"; "sequence number too high"] !! Z.to_nat code)).

(** The logs that are receipts; a panic of one is a panic. *)
Definition get_all_receipt_logs (e : RuntimeEnvironment.t) : option (list ArbosReceipt) :=
  rs ← mapM ArbosReceipt_new (RuntimeEnvironment.logs e); Some (omap id rs).

(** ** Block summaries *)
Record BlockGasAccountingSummary := mkGasSummary {
  gas_price_estimate : Z; gas_pool : Z; wei_pool : Z; wei_shortfall : Z; total_wei_paid_to_validators : Z; payout_address : Z;
}.
Definition BlockGasAccountingSummary_new (tup : list Value.t) : option BlockGasAccountingSummary :=
  a ← int_at tup 0; b ← int_at tup 1; c ← int_at tup 2; d ← int_at tup 3; e ← int_at tup 4; f ← int_at tup 5;
  Some (mkGasSummary a b c d e f).

Record ArbosBlockSummaryLog := mkBlockSummary {
  block_num : Z; timestamp : Z; gas_limit : Z;
  stats_this_block : list Value.t; stats_all_time : list Value.t; gas_summary : BlockGasAccountingSummary;
}.
(** Another log, or a field of another shape, is no summary. *)
Definition ArbosBlockSummaryLog_new (arbos_log : Value.t) : option (option ArbosBlockSummaryLog) :=
  match arbos_log with
  | Value.Tuple tup =>
      kind ← tup !! 0%nat;
      if bool_decide (kind = Value.Int Uint256.one) then
        v1 ← tup !! 1%nat;
        match v1 with
        | Value.Int bn =>
            v2 ← tup !! 2%nat;
            match v2 with
            | Value.Int ts =>
                v3 ← tup !! 3%nat;
                match v3 with
                | Value.Int gl =>
                    v4 ← tup !! 4%nat;
                    match v4 with
                    | Value.Tuple this_block =>
                        v5 ← tup !! 5%nat;
                        match v5 with
                        | Value.Tuple all_time =>
                            v6 ← tup !! 6%nat;
                            match v6 with
                            | Value.Tuple gas =>
                                g ← BlockGasAccountingSummary_new gas;
                                Some (Some (mkBlockSummary bn ts gl this_block all_time g))
                            | _ => Some None
                            end
                        | _ => Some None
                        end
                    | _ => Some None
                    end
                | _ => Some None
                end
            | _ => Some None
            end
        | _ => Some None
        end
      else Some None
  | _ => Some None
  end.
Definition _get_all_block_summary_logs (e : RuntimeEnvironment.t) : option (list ArbosBlockSummaryLog) :=
  rs ← mapM ArbosBlockSummaryLog_new (RuntimeEnvironment.logs e); Some (omap id rs).

(** ** Replays *)
Definition zero_item_in_tuple (in_val : Value.t) (index : nat) : option Value.t :=
  match in_val with
  | Value.Tuple tup => Some (Value.new_tuple (imap (λ i v, if Nat.eqb i index then Value.Int Uint256.zero else v) tup))
  | _ => None
  end.

(** A log item without what may vary: [Some None] for items that are left out. *)
Definition strip_var_from_log (log : Value.t) : option (option Value.t) :=
  tup ← as_tuple log;
  item_type ← int_at tup 0;
  v0 ← tup !! 0%nat;
  if item_type =? Uint256.zero then
    v1 ← tup !! 1%nat; v2 ← tup !! 2%nat; v3 ← tup !! 3%nat; v5 ← tup !! 5%nat;
    z ← zero_item_in_tuple v5 0;
    Some (Some (Value.new_tuple [v0; v1; v2; v3; z]))
  else if item_type =? Uint256.one then
    v1 ← tup !! 1%nat; v2 ← tup !! 2%nat; v3 ← tup !! 3%nat; v6 ← tup !! 6%nat;
    Some (Some (Value.new_tuple [v0; v1; v2; v3; v6]))
  else if item_type =? Uint256.from_u64 2 then Some (Some log)
  else if item_type =? Uint256.from_u64 3 then Some None
  else None.

Definition strip_logs (logs : list Value.t) : option (list Value.t) := l ← mapM strip_var_from_log logs; Some (omap id l).

(** The comparison at the end of [replay_and_compare]: the recorded run and the new one. *)
Definition replay_matches (require_same_gas : bool) (expected seen : RtEnvRecorder.t) : option bool :=
  logs_expected ← (if require_same_gas then Some (RtEnvRecorder.logs expected) else strip_logs (RtEnvRecorder.logs expected));
  logs_seen ← (if require_same_gas then Some (RtEnvRecorder.logs seen) else strip_logs (RtEnvRecorder.logs seen));
  Some (bool_decide (logs_expected = logs_seen) && bool_decide (RtEnvRecorder.sends expected = RtEnvRecorder.sends seen)).

(** ** The list of EVM logs *)

Section evm_logs.
Context `{CryptoOk}.

(** How a log and a list of logs are stored: the list is a chain of pairs, the
    last log outermost. *)
Definition evm_log_value (l : EvmLog) : option Value.t :=
  buf ← Value.new_buffer (data l);
  Some (Value.Tuple (Value.Int (addr l)
    :: Value.Tuple [Value.Int (Z.of_nat (length (data l))); buf] :: (Value.Int <$> vals l))).
Definition chain (vs : list Value.t) : Value.t := foldl (λ rest v, Value.Tuple [v; rest]) Value.none vs.

(** The bytes of a log fit in a buffer. *)
Definition log_ok (l : EvmLog) : Prop := digits_ok 256 (data l) ∧ Z.of_nat (length (data l)) < 2 ^ 64.

Lemma mapM_as_int us : mapM as_int (Value.Int <$> us) = Some us.
Proof. induction us as [|u us IH]; [done|]. cbn. by rewrite IH. Qed.

Lemma evm_log_read l : log_ok l → ∃ v, evm_log_value l = Some v ∧ EvmLog_new v = Some l.
Proof.
  intros [Hb Hl]. destruct (Buffer.bytes_roundtrip _ Hb Hl) as (b & Hfrom & _ & _ & Has).
  unfold evm_log_value, Value.new_buffer. rewrite Hfrom. eexists. split; [done|].
  unfold EvmLog_new, size_buffer_tuple_to_bytes, int_at, Uint256.to_usize, Uint256.to_u64, as_tuple.
  cbn -[Z.of_nat two64]. rewrite (proj2 (Z.ltb_lt _ two64) Hl).
  cbn -[Z.of_nat]. rewrite Nat2Z.id, Has. cbn [mbind option_bind]. rewrite drop_0, mapM_as_int. by destruct l.
Qed.

Lemma chain_snoc vs v : chain (vs ++ [v]) = Value.Tuple [v; chain vs].
Proof. unfold chain. by rewrite foldl_snoc. Qed.

(** The logs of a transaction are read in the order they were emitted, with the
    address, data and topics they were stored with. *)
Theorem evm_logs_roundtrip ls :
  Forall log_ok ls → ∃ vs, mapM evm_log_value ls = Some vs ∧ EvmLog_new_vec (chain vs) = Some ls.
Proof.
  induction ls as [|l ls IH] using rev_ind; intros Hok; [by exists []|].
  apply Forall_app in Hok as [Hls [Hl _]%Forall_cons_1]. destruct (IH Hls) as (vs & Hvs & Hread).
  destruct (evm_log_read l Hl) as (v & Hv & Hnew).
  exists (vs ++ [v]). split; [apply mapM_Some, Forall2_app; [by apply mapM_Some|by constructor]|].
  rewrite chain_snoc. cbn [EvmLog_new_vec]. rewrite Hread. cbn [mbind option_bind]. by rewrite Hnew.
Qed.
End evm_logs.

(** ** Provenance *)

(** The request that caused a transaction is kept only when its id is zero: the
    test for "no parent" is inverted. *)
Theorem provenance_inverted req l1 parent index more more' :
  req !! 7%nat = Some (Value.Tuple (Value.Tuple (Value.Int l1 :: Value.Int parent :: Value.Int index :: more) :: more')) →
  ∃ p, unpack_provenance req = Some p ∧
    (parent_request_id p = Some parent ↔ parent = 0) ∧ (parent_request_id p = None ↔ parent ≠ 0) ∧
    (index_in_parent p = None ↔ index ≠ 0).
Proof.
  intros Hreq. unfold unpack_provenance, tuple_at. rewrite Hreq. cbn. eexists. split; [done|]. cbn.
  unfold zero_only, Uint256.is_zero.
  destruct (Z.eqb_spec parent 0), (Z.eqb_spec index 0); naive_solver.
Qed.

(** ** Replays *)

(** A receipt with gas usage [gas] and cumulative usage [cumulative]. *)
Definition receipt_log (request result gas cumulative : Value.t) (fees : list Value.t) : Value.t :=
  Value.Tuple [Value.Int 0; request; result; gas; cumulative; Value.Tuple fees].

(** Receipts are compared up to the cumulative usage, but not up to the gas
    usage: a replay that need not use the same gas still fails when a
    transaction used another amount. *)
Theorem replay_compares_gas request result gas gas' cumulative cumulative' fees :
  strip_var_from_log (receipt_log request result gas cumulative fees)
    = strip_var_from_log (receipt_log request result gas' cumulative' fees) ↔ gas = gas'.
Proof.
  unfold strip_var_from_log, receipt_log, int_at. cbn. split; [|by intros ->].
  intros Heq. unfold Value.new_tuple in Heq. congruence.
Qed.

(** A run always matches itself, when its log items are well formed. *)
Theorem replay_reflexive same r ls : strip_logs (RtEnvRecorder.logs r) = Some ls → replay_matches same r r = Some true.
Proof.
  intros Hs. unfold replay_matches. rewrite Hs. destruct same; cbn [mbind option_bind];
    by rewrite !bool_decide_eq_true_2.
Qed.
