(* ===== verification/WalletMessages.v ===== *)
(** * Messages with signed transactions (src/src/run/runtime_env.rs)

    The messages of the test harness that need a wallet: signed and compressed
    transactions, batches of them, transactions under a joint BLS signature,
    and retryable transactions.  Wallets and transaction hashes are the ethers
    crate's: a parameter, as is the encoder of the rlp crate.  A panic is
    [None].

    Theorems: addresses survive the compression, which replaces an address that
    was sent before by its index ([addresses_lossless]), and the recorder is
    complete whatever public operations are called ([recorder_complete]). *)

From Stdlib Require Import ZArith Lia.
From S2P Require Import Prelude U256 Crypto BufferTree Values Upload RuntimeEnv.
Import RuntimeEnvironment.
Local Open Scope Z_scope.

#[local] Set Warnings "-clear-no-such-hyp".

(** The fields of [ethers_core::types::TransactionRequest] that the code sets. *)
Record TransactionRequest := mkTransaction {
  tx_from : list Z;
  tx_to : list Z;
  tx_gas : Z;
  tx_gas_price : Z;
  tx_value : Z;
  tx_data : list Z;
  tx_nonce : Z;
}.

(** A signed [Transaction]: the signature and [Transaction::rlp]. *)
Record SignedTransaction := mkSigned { tx_r : Z; tx_s : Z; tx_v : Z; tx_rlp : list Z }.

Class Ethers := {
  Wallet : Type;
  (** [Wallet::new] of a generator with this seed, then [set_chain_id] *)
  seeded_wallet : Z → Z → Wallet;
  (** [Wallet::address]: 20 bytes *)
  wallet_address : Wallet → list Z;
  (** [Signer::sign_transaction] *)
  sign_transaction : Wallet → TransactionRequest → option SignedTransaction;
  (** [TransactionRequest::sighash] for a chain id: 32 bytes *)
  sighash : TransactionRequest → Z → list Z;
}.

Definition to_u256 (x : Z) : Z := undigits_be 256 (Uint256.to_bytes_minimal x).
Definition from_u256 (x : Z) : Z := Uint256.from_bytes (digits_be 256 32 x).

Definition with_compressor (e : t) (c : TxCompressor.t) : t :=
  mk (chain_id e) (l1_inbox e) (current_block_num e) (current_timestamp e) (logs e) (sends e)
     (next_inbox_seq_num e) (caller_seq_nums e) (next_id e) (recorder e) c
     (charging_policy e) (num_wallets e) (chain_init_message e).
Definition with_num_wallets (e : t) (n : Z) : t :=
  mk (chain_id e) (l1_inbox e) (current_block_num e) (current_timestamp e) (logs e) (sends e)
     (next_inbox_seq_num e) (caller_seq_nums e) (next_id e) (recorder e) (compressor e)
     (charging_policy e) n (chain_init_message e).

Section messages.
Context `{Crypto} `{Ethers}.
Context (rlp : list Z → list Z).
Abbreviation rlp_encode := (Uint256.rlp_encode rlp).

(** The seed is a [u64] and wraps around. *)
Definition new_wallet (e : t) : Wallet * t :=
  (seeded_wallet ((42 + num_wallets e) mod two64) (get_chain_id e), with_num_wallets e ((num_wallets e + 1) mod two64)).

Definition _insert_retryable_tx_message (e : t)
    (sender destination callvalue deposit max_submission_cost credit_back_address beneficiary max_gas_immed gas_price_immed : Z)
    (calldata : list Z) : option (Z * Z * option Z * t) :=
  let msg := Uint256.to_bytes_be destination ++ Uint256.to_bytes_be callvalue ++ Uint256.to_bytes_be deposit
    ++ Uint256.to_bytes_be max_submission_cost ++ Uint256.to_bytes_be credit_back_address ++ Uint256.to_bytes_be beneficiary
    ++ Uint256.to_bytes_be max_gas_immed ++ Uint256.to_bytes_be gas_price_immed
    ++ Uint256.to_bytes_be (Uint256.from_usize (Z.of_nat (length calldata))) ++ calldata in
  '(submit_req_id, e) ← insert_l1_message e 9 sender msg None None;
  let buf := Uint256.to_bytes_be submit_req_id in
  Some (submit_req_id,
        Uint256.from_bytes (keccak256 (buf ++ replicate 32 0)),
        if bool_decide (max_gas_immed = Uint256.zero) then None
        else Some (Uint256.from_bytes (keccak256 (buf ++ Uint256.to_bytes_be Uint256.one))),
        e).

(** [self.compressor.compress_address] on the environment *)
Definition env_compress_address (e : t) (addr : Z) : list Z * t :=
  let '(bytes, c) := TxCompressor.compress_address rlp (compressor e) addr in (bytes, with_compressor e c).

Definition make_compressed_and_signed_l2_message (e : t) (gas_price : option Z) (gas_limit to_addr value : Z)
    (calldata : list Z) (wallet : Wallet) : option (list Z * list Z * t) :=
  let sender := Uint256.from_bytes (wallet_address wallet) in
  let '(seq_num, e) := get_and_incr_seq_num e sender in
  let gas_price := default (get_gas_price e) gas_price in
  let '(to_bytes, e) := env_compress_address e to_addr in
  amount ← TxCompressor.compress_token_amount rlp (compressor e) value;
  let result := [7; 0xff] ++ rlp_encode seq_num ++ rlp_encode gas_price ++ rlp_encode gas_limit ++ to_bytes ++ amount ++ calldata in
  from ← Uint256.to_h160 sender;
  to ← Uint256.to_h160 to_addr;
  tx ← sign_transaction wallet
    (mkTransaction from to (to_u256 gas_limit) (to_u256 gas_price) (to_u256 value) calldata (to_u256 seq_num));
  Some (result ++ Uint256.to_bytes_be (from_u256 (tx_r tx)) ++ Uint256.to_bytes_be (from_u256 (tx_s tx)) ++ [(tx_v tx mod 2) mod 256],
        keccak256 (tx_rlp tx), e).

Definition _make_compressed_tx_for_bls (e : t) (sender : Z) (gas_price : option Z) (gas_limit to_addr value : Z)
    (calldata : list Z) : option (list Z * list Z * t) :=
  let '(result, e) := env_compress_address e sender in
  let gas_price := default (get_gas_price e) gas_price in
  let '(seq_num, e) := get_and_incr_seq_num e sender in
  let '(to_bytes, e) := env_compress_address e to_addr in
  amount ← TxCompressor.compress_token_amount rlp (compressor e) value;
  let buf := [0xff] ++ rlp_encode seq_num ++ rlp_encode gas_price ++ rlp_encode gas_limit ++ to_bytes ++ amount ++ calldata in
  from ← Uint256.to_h160 sender;
  to ← Uint256.to_h160 to_addr;
  Some (result ++ rlp_encode (Uint256.from_usize (Z.of_nat (length buf))) ++ buf,
        sighash (mkTransaction from to (to_u256 gas_limit) (to_u256 gas_price) (to_u256 value) calldata (to_u256 seq_num)) (chain_id e),
        e).

Definition _insert_bls_batch (e : t) (senders : list Z) (msgs : list (list Z)) (aggregated_sig : list Z) (batch_sender : Z) : option t :=
  if negb (bool_decide (length senders = length msgs)) then None
  else if negb (bool_decide (length aggregated_sig = 64%nat)) then None
  else
    let buf := [8] ++ rlp_encode (Uint256.from_usize (Z.of_nat (length senders))) ++ aggregated_sig ++ mjoin msgs in
    '(_, e) ← insert_l2_message e batch_sender buf false; Some e.

(** The batch is extended in place: the new one is returned first. *)
Definition _append_compressed_and_signed_tx_message_to_batch (e : t) (batch : list Z) (max_gas : Z) (gas_price_bid : option Z)
    (to_addr value : Z) (calldata : list Z) (wallet : Wallet) : option (list Z * list Z * t) :=
  '(msg, tx_id_bytes, e) ← make_compressed_and_signed_l2_message e gas_price_bid max_gas to_addr value calldata wallet;
  Some (batch ++ rlp_encode (Uint256.from_u64 (Z.of_nat (length msg))) ++ msg, tx_id_bytes, e).

(** ** Recording *)

(** The operations that need a wallet. *)
Inductive wallet_operation : t → t → Prop :=
| wallet_new e : wallet_operation e (new_wallet e).2
| wallet_retryable e s d v dep cost cred ben gas price data r e' :
    _insert_retryable_tx_message e s d v dep cost cred ben gas price data = Some (r, e') → wallet_operation e e'
| wallet_signed e price gas to v data w msg id e' :
    make_compressed_and_signed_l2_message e price gas to v data w = Some (msg, id, e') → wallet_operation e e'
| wallet_bls e s price gas to v data msg h e' :
    _make_compressed_tx_for_bls e s price gas to v data = Some (msg, h, e') → wallet_operation e e'
| wallet_bls_batch e ss msgs sig s e' : _insert_bls_batch e ss msgs sig s = Some e' → wallet_operation e e'
| wallet_append e b gas price to v data w b' id e' :
    _append_compressed_and_signed_tx_message_to_batch e b gas price to v data w = Some (b', id, e') → wallet_operation e e'.

(** All public operations of the environment. *)
Inductive any_step : origin * t → origin * t → Prop :=
| any_base x y : step x y → any_step x y
| any_wallet o e e' : wallet_operation e e' → any_step (o, e) (o, e').

Lemma recorded_compress o e a : recorded o e → recorded o (env_compress_address e a).2.
Proof. unfold env_compress_address. by destruct (TxCompressor.compress_address _ _ _). Qed.
Lemma recorded_signed o e price gas to v data w r e' :
  recorded o e → make_compressed_and_signed_l2_message e price gas to v data w = Some (r, e') → recorded o e'.
Proof.
  unfold make_compressed_and_signed_l2_message. intros Hr.
  destruct (get_and_incr_seq_num e _) as [n e1] eqn:E1. destruct (env_compress_address e1 to) as [b e2] eqn:E2.
  pose proof (recorded_seq o e (Uint256.from_bytes (wallet_address w)) Hr) as H1. rewrite E1 in H1.
  pose proof (recorded_compress o e1 to H1) as H2. rewrite E2 in H2.
  intros Hm. repeat (apply bind_Some in Hm as (? & _ & Hm)). by injection Hm as _ <-.
Qed.
Lemma recorded_bls o e s price gas to v data r e' :
  recorded o e → _make_compressed_tx_for_bls e s price gas to v data = Some (r, e') → recorded o e'.
Proof.
  unfold _make_compressed_tx_for_bls. intros Hr.
  destruct (env_compress_address e s) as [b e1] eqn:E1. destruct (get_and_incr_seq_num e1 s) as [n e2] eqn:E2.
  destruct (env_compress_address e2 to) as [b' e3] eqn:E3.
  pose proof (recorded_compress o e s Hr) as H1. rewrite E1 in H1.
  pose proof (recorded_seq o e1 s H1) as H2. rewrite E2 in H2.
  pose proof (recorded_compress o e2 to H2) as H3. rewrite E3 in H3.
  intros Hm. repeat (apply bind_Some in Hm as (? & _ & Hm)). by injection Hm as _ <-.
Qed.

Lemma wallet_operation_recorded o e e' : recorded o e → wallet_operation e e' → recorded o e'.
Proof.
  intros Hr Hs.
  destruct Hs as [e|e s d v dep cost cred ben gas price data r e' Hs|e price gas to v data w msg id e' Hs
                 |e s price gas to v data msg h e' Hs|e ss msgs sig s e' Hs|e b gas price to v data w b' id e' Hs].
  - done.
  - unfold _insert_retryable_tx_message in Hs. apply bind_Some in Hs as ([i e1] & Hi & Hs).
    injection Hs as _ <-. by eapply recorded_l1.
  - by eapply recorded_signed.
  - by eapply recorded_bls.
  - unfold _insert_bls_batch in Hs. do 2 (case_match; [done|]).
    apply bind_Some in Hs as ([i e1] & Hi & Hs). injection Hs as <-. by eapply recorded_l2.
  - unfold _append_compressed_and_signed_tx_message_to_batch in Hs. apply bind_Some in Hs as ([[m i] e1] & Hi & Hs).
    injection Hs as _ _ <-. by eapply recorded_signed.
Qed.

Lemma any_step_recorded x y : recorded x.1 x.2 → any_step x y → recorded y.1 y.2.
Proof. intros Hr Hs. destruct Hs as [x y Hs|o e e' Hs]; [by eapply step_recorded|by eapply wallet_operation_recorded]. Qed.

Lemma any_steps_recorded x y : recorded x.1 x.2 → rtc any_step x y → recorded y.1 y.2.
Proof. intros Hr Hs. induction Hs as [|x y z Hstep _ IH]; [done|]. by apply IH, (any_step_recorded x). Qed.

(** C27: the recorder is complete.  In every environment reached from a fresh one
    by the public operations, [o] being the origin of its inbox, all logs and
    sends are recorded as emitted, and recorded message [i] carries sequence
    number [i].  If [insert_full_inbox_contents] was never called, the inbox is
    the part of the recorded messages that is not yet taken, in order; otherwise
    it is the part not yet taken of the contents last given to it, which are not
    recorded, followed by the messages recorded since. *)
Theorem recorder_complete bn ts policy owner e0 o e :
  new_with_blocknum_timestamp bn ts policy owner = Some e0 → rtc any_step (None, e0) (o, e) → recorded o e.
Proof.
  intros Hnew Hs. apply (any_steps_recorded (None, e0) (o, e)); [by eapply new_recorded|done].
Qed.

End messages.

(** ** Address compression *)
Section compression.
Context (rlp : list Z → list Z).

(** The encodings of a sequence of addresses. *)
Fixpoint compress_all (c : TxCompressor.t) (addrs : list Z) : list (list Z) :=
  match addrs with
  | [] => []
  | a :: addrs => let '(bytes, c) := TxCompressor.compress_address rlp c a in bytes :: compress_all c addrs
  end.

(** Strings of less than 56 bytes are encoded as RLP prescribes: a byte below
    128 is its own encoding, other strings follow a header with their length. *)
Definition rlp_standard : Prop := ∀ b : list Z, (length b < 56)%nat → rlp b = rlp_short b.

Context (Hrlp : rlp_standard).

Lemma index_bytes i : 0 < i < two64 →
  (1 <= length (Uint256.to_bytes_minimal i) <= 8)%nat ∧ undigits_be 256 (Uint256.to_bytes_minimal i) = i.
Proof using Type.
  intros Hi. assert (Uint256.wf i) as Hwf by (split; [lia|]; unfold two64, two256 in *; lia).
  destruct (minimal_bytes i Hwf) as [_ Hv]. split; [|exact Hv].
  unfold Uint256.to_bytes_minimal, Uint256.is_zero, Uint256.biguint_to_bytes_be.
  rewrite (proj2 (Z.eqb_neq i 0)) by lia. rewrite length_digits_be.
  assert (Z.log2 i < 64) by (apply Z.log2_lt_pow2; [lia|]; unfold two64 in *; lia).
  pose proof (Z.log2_nonneg i). pose proof (Z.div_pos (Z.log2 i) 8). pose proof (Z.div_lt_upper_bound (Z.log2 i) 8 8). lia.
Qed.

Lemma index_encoding i : 0 < i < two64 → let b := Uint256.to_bytes_minimal i in
  Uint256.rlp_encode rlp i = rlp_short b.
Proof.
  intros Hi b. destruct (index_bytes i Hi) as [Hl _]. unfold Uint256.rlp_encode, Uint256.is_zero.
  rewrite (proj2 (Z.eqb_neq i 0)) by lia. apply Hrlp. subst b. lia.
Qed.

Lemma index_encoding_inj i j : 0 < i < two64 → 0 < j < two64 →
  Uint256.rlp_encode rlp i = Uint256.rlp_encode rlp j → i = j.
Proof.
  intros Hi Hj. rewrite !index_encoding by done. unfold rlp_short. destruct (index_bytes i Hi) as [Hli Hvi], (index_bytes j Hj) as [Hlj Hvj].
  intros Heq. rewrite <- Hvi, <- Hvj. f_equal. clear Hvi Hvj.
  destruct (Uint256.to_bytes_minimal i) as [|x [|x' xs]], (Uint256.to_bytes_minimal j) as [|y [|y' ys]]; cbn [length] in *; try lia;
    repeat case_match; bool_to_prop; try congruence; injection Heq as ?; subst; try lia; congruence.
Qed.

(** An index is never taken for a whole address. *)
Lemma index_encoding_head i rest : 0 < i < two64 → length rest = 20%nat → Uint256.rlp_encode rlp i ≠ 148 :: rest.
Proof.
  intros Hi Hr. rewrite index_encoding by done. unfold rlp_short. destruct (index_bytes i Hi) as [Hl _].
  destruct (Uint256.to_bytes_minimal i) as [|x [|x' xs]]; cbn [length] in *; [lia| |].
  - case_match; intros [= ? <-]; cbn in Hr; lia.
  - intros [= ?]. lia.
Qed.

(** The table maps distinct addresses to distinct indices already given out. *)
Definition table_ok (c : TxCompressor.t) : Prop :=
  0 < TxCompressor.next_index c ∧
  (∀ k v, TxCompressor.address_map c !! k = Some v → ∃ i, 0 < i < TxCompressor.next_index c ∧ v = Uint256.rlp_encode rlp i) ∧
  (∀ k k' v, TxCompressor.address_map c !! k = Some v → TxCompressor.address_map c !! k' = Some v → k = k').

Lemma compress_ok c a : table_ok c → TxCompressor.next_index c + 1 < two64 →
  let c' := (TxCompressor.compress_address rlp c a).2 in table_ok c' ∧ TxCompressor.next_index c' <= TxCompressor.next_index c + 1.
Proof.
  intros (Hn & Hv & Hinj) Hlt. unfold TxCompressor.compress_address.
  destruct (TxCompressor.address_map c !! Uint256.to_bytes_be a) as [v|] eqn:E; [cbn; split; [done|lia]|].
  unfold table_ok. cbn. rewrite Z.mod_small by lia. unfold Uint256.from_u64. split; [|lia]. split; [lia|]. split.
  - intros k v [[<- <-]|[Hne Hk]]%lookup_insert_Some; [exists (TxCompressor.next_index c); split; [lia|done]|].
    destruct (Hv k v Hk) as (i & Hi & ->). exists i. split; [lia|done].
  - assert (∀ k, TxCompressor.address_map c !! k = Some (Uint256.rlp_encode rlp (TxCompressor.next_index c)) → False) as Hfresh.
    { intros k Hk. destruct (Hv _ _ Hk) as (i & Hi & He). apply index_encoding_inj in He; lia. }
    intros k k' v [[<- <-]|[Hne Hk]]%lookup_insert_Some [[<- He]|[Hne' Hk']]%lookup_insert_Some.
    + done.
    + by destruct (Hfresh k').
    + subst v. by destruct (Hfresh k).
    + by eapply Hinj.
Qed.

Lemma compress_inj c a b : table_ok c → TxCompressor.next_index c < two64 → 0 <= a < 2 ^ 160 → 0 <= b < 2 ^ 160 →
  (TxCompressor.compress_address rlp c a).1 = (TxCompressor.compress_address rlp c b).1 → a = b.
Proof.
  intros (Hn & Hv & Hinj) Hlt Ha Hb.
  assert (∀ x, 0 <= x < 2 ^ 160 → Uint256.wf x) as Hwf by (intros x Hx; split; [lia|]; unfold two256; lia).
  assert (∀ x, 0 <= x < 2 ^ 160 → Uint256.to_bytes_be x = replicate 12 0 ++ digits_be 256 20 x) as Hdig.
  { intros x Hx. rewrite Uint256.to_bytes_be_eq by auto. symmetry. apply (digits_be_pad 256 ltac:(lia) 20 32 x); lia. }
  assert (∀ x, 0 <= x < 2 ^ 160 → undigits_be 256 (Uint256.to_bytes_be x) = x) as Hback.
  { intros x Hx. by apply Uint256.from_to_bytes_be, Hwf. }
  unfold TxCompressor.compress_address.
  destruct (TxCompressor.address_map c !! Uint256.to_bytes_be a) as [va|] eqn:Ea,
    (TxCompressor.address_map c !! Uint256.to_bytes_be b) as [vb|] eqn:Eb; cbn [fst].
  - intros <-. rewrite <- (Hback a), <- (Hback b) by done. f_equal. by eapply Hinj.
  - intros ->. destruct (Hv _ _ Ea) as (i & Hi & He). symmetry in He. apply index_encoding_head in He; [done|lia|].
    rewrite length_take, length_drop, Uint256.length_to_bytes_be by auto. lia.
  - intros <-. destruct (Hv _ _ Eb) as (i & Hi & He). symmetry in He. apply index_encoding_head in He; [done|lia|].
    rewrite length_take, length_drop, Uint256.length_to_bytes_be by auto. lia.
  - rewrite !Hdig, !drop_app_length', !take_ge by (done || rewrite ?length_replicate, ?length_digits_be; lia).
    intros Heq. rewrite <- (Hback a), <- (Hback b), !Hdig by done. congruence.
Qed.

Lemma compress_all_inj c l1 : ∀ l2, table_ok c → TxCompressor.next_index c + Z.of_nat (length l1) < two64 →
  Forall (λ a, 0 <= a < 2 ^ 160) l1 → Forall (λ a, 0 <= a < 2 ^ 160) l2 → compress_all c l1 = compress_all c l2 → l1 = l2.
Proof.
  revert c. induction l1 as [|a l1 IH]; intros c [|b l2] Hc Hn H1 H2; cbn [compress_all].
  - done.
  - by destruct (TxCompressor.compress_address rlp c b).
  - by destruct (TxCompressor.compress_address rlp c a).
  - cbn [length] in Hn. rewrite Nat2Z.inj_succ in Hn.
    apply Forall_cons_1 in H1 as [Ha H1], H2 as [Hb H2].
    pose proof (compress_inj c a b Hc ltac:(lia) Ha Hb) as Hab. destruct (compress_ok c a Hc ltac:(lia)) as [Hok Hle].
    destruct (TxCompressor.compress_address rlp c a) as [x c1] eqn:E1, (TxCompressor.compress_address rlp c b) as [y c2] eqn:E2.
    cbn [fst snd] in *. intros Heq. injection Heq as -> Heq. rewrite (Hab eq_refl) in *.
    assert (c1 = c2) as <- by congruence. f_equal. apply (IH c1); [done|lia|done..].
Qed.

Lemma table_new : table_ok TxCompressor.new.
Proof using Type. split_and!; [done|intros k v Hk|intros k k' v Hk _]; cbn in Hk; by rewrite lookup_empty in Hk. Qed.
End compression.

(** C38: addresses are compressed without loss: sequences of addresses that have the
    same encodings are equal, although an address that was sent before is
    replaced by its index in the order of first use. *)
Theorem addresses_lossless rlp l1 l2 :
  rlp_standard rlp → Z.of_nat (length l1) + 1 < two64 →
  Forall (λ a, 0 <= a < 2 ^ 160) l1 → Forall (λ a, 0 <= a < 2 ^ 160) l2 →
  compress_all rlp TxCompressor.new l1 = compress_all rlp TxCompressor.new l2 → l1 = l2.
Proof.
  intros Hrlp Hn. apply (compress_all_inj rlp Hrlp); [apply table_new|]. change (TxCompressor.next_index TxCompressor.new) with 1. lia.
Qed.

(** The addresses 5, 7, 5 as the table sees them. *)
Example compress_demo : compress_all rlp_short TxCompressor.new [5; 7; 5] =
  [148 :: replicate 19 0 ++ [5]; 148 :: replicate 19 0 ++ [7]; [1]].
Proof. vm_compute. reflexivity. Qed.

Lemma addresses_lossless_witness : [5; 7; 5] = [5; 7; 2 + 3].
Proof.
  apply (addresses_lossless rlp_short).
  - intros b _. reflexivity.
  - by_eval.
  - repeat constructor; lia.
  - repeat constructor; lia.
  - reflexivity.
Defined.

(** A wallet that cannot sign. *)
Definition toy_ethers : Ethers := {|
  Wallet := unit;
  seeded_wallet _ _ := ();
  wallet_address _ := [];
  sign_transaction _ _ := None;
  sighash _ _ := [];
|}.

(** A replay: the contents are replaced, one message is taken, one arrives. *)
Lemma recorder_complete_witness : ∃ e, recorded (Some ([Value.Int 9; Value.Int 8], 1%nat)) e ∧
  l1_inbox e = Value.Int 8 :: drop 1 (RtEnvRecorder.inbox (recorder e)) ∧ length (RtEnvRecorder.inbox (recorder e)) = 2%nat.
Proof.
  set (e1 := insert_full_inbox_contents demo_start [Value.Int 9; Value.Int 8]).
  set (e2 := (get_from_inbox e1).2).
  destruct (@insert_l1_message toy_crypto e2 3 0 [6] None None) as [[id e3]|] eqn:E; [|vm_compute in E; discriminate E].
  exists e3. split.
  - apply (recorder_complete (H := toy_crypto) (H0 := toy_ethers) rlp_short 100 1000 None None demo_start).
    + vm_compute. reflexivity.
    + eapply rtc_l; [apply any_base, (step_contents _ demo_start [Value.Int 9; Value.Int 8])|].
      eapply rtc_l; [apply any_base, step_operation, (step_get e1 (Some (Value.Int 9)) e2); reflexivity|].
      apply rtc_once, any_base, step_operation. eapply step_l1. exact E.
  - vm_compute in E. injection E as _ <-. vm_compute. split; reflexivity.
Defined.
