(* ===== verification/Machine.v ===== *)
(** * The machine's state (src/src/run/emulator.rs)

    Errors, machine states, value stacks, the code store and the [Machine]
    record, with the state-and-error monad [M] in which the instructions of
    Insns.v are written.  A stack is a list whose head is the top, so the
    bottom element, [contents.get(0)] in the source, is the last one.  An
    operation that fails keeps the changes it has made to the machine, as the
    source does: [M A] returns the machine in every case. *)

From Stdlib Require Import ZArith Lia.
From S2P Require Import Prelude U256 Pos Opcodes Crypto BufferTree Values RuntimeEnv.

(** ** Errors and machine states *)
Inductive ExecutionError :=
| StoppedErr (why : string)
| Wrapped (why : string) (e : ExecutionError)
| RunningErr (why : string) (cp : CodePt.t) (v : option Value.t).

Inductive MachineState :=
| Stopped
| Error (e : ExecutionError)
| Running (pc : CodePt.t).

Definition ExecutionError_new (why : string) (state : MachineState) (val : option Value.t)
    : ExecutionError :=
  match state with
  | Stopped => StoppedErr why
  | Error e => Wrapped why e
  | Running cp => RunningErr why cp val
  end.

Definition is_running (s : MachineState) : bool :=
  match s with
  | Running _ => true
  | _ => false
  end.

(** ** Stacks of values *)
Module ValueStack.

Definition t := list Value.t.

Definition new : t := [].
Definition is_empty (s : t) : bool := Nat.eqb (length s) 0.
Definition num_items (s : t) : nat := length s.

Definition push (s : t) (val : Value.t) : t := val :: s.
Definition push_uint (s : t) (val : Z) : t := push s (Value.Int val).
Definition push_usize (s : t) (val : Z) : t := push_uint s (Uint256.from_usize val).
Definition push_codepoint (s : t) (val : CodePt.t) : t := push s (Value.CodePoint val).
Definition push_bool (s : t) (val : bool) : t :=
  push_uint s (if val then Uint256.one else Uint256.zero).
Definition push_buffer (s : t) (val : Buffer.t) : t := push s (Value.Buffer val).

Definition top (s : t) : option Value.t := head s.
Definition nth (s : t) (n : nat) : option Value.t := s !! n.

Definition pop (state : MachineState) (s : t) : outcome ExecutionError Value.t * t :=
  match s with
  | v :: s => (Ok v, s)
  | [] => (Err (ExecutionError_new "stack underflow" state None), s)
  end.

(** A value of the wrong kind is popped all the same. *)
Definition pop_codepoint (state : MachineState) (s : t) : outcome ExecutionError CodePt.t * t :=
  match pop state s with
  | (Ok (Value.CodePoint cp), s) => (Ok cp, s)
  | (Ok val, s) => (Err (ExecutionError_new "expected CodePoint on stack" state (Some val)), s)
  | (Err e, s) => (Err e, s)
  | (Panic, s) => (Panic, s)
  end.

Definition pop_uint (state : MachineState) (s : t) : outcome ExecutionError Z * t :=
  match pop state s with
  | (Ok (Value.Int i), s) => (Ok i, s)
  | (Ok val, s) => (Err (ExecutionError_new "expected integer on stack" state (Some val)), s)
  | (Err e, s) => (Err e, s)
  | (Panic, s) => (Panic, s)
  end.

Definition pop_usize (state : MachineState) (s : t) : outcome ExecutionError Z * t :=
  match pop_uint state s with
  | (Ok val, s) =>
      match Uint256.to_usize val with
      | Some u => (Ok u, s)
      | None =>
          (Err (ExecutionError_new "expected small integer on stack" state (Some (Value.Int val))), s)
      end
  | (Err e, s) => (Err e, s)
  | (Panic, s) => (Panic, s)
  end.

Definition pop_tuple (state : MachineState) (s : t) : outcome ExecutionError (list Value.t) * t :=
  match pop state s with
  | (Ok (Value.Tuple v), s) => (Ok v, s)
  | (Ok val, s) => (Err (ExecutionError_new "expected tuple on stack" state (Some val)), s)
  | (Err e, s) => (Err e, s)
  | (Panic, s) => (Panic, s)
  end.

Definition pop_buffer (state : MachineState) (s : t) : outcome ExecutionError Buffer.t * t :=
  match pop state s with
  | (Ok (Value.Buffer v), s) => (Ok v, s)
  | (Ok val, s) => (Err (ExecutionError_new "expected buffer on stack" state (Some val)), s)
  | (Err e, s) => (Err e, s)
  | (Panic, s) => (Panic, s)
  end.

(** The code points of a stack, from the bottom to the top. *)
Definition all_codepts (s : t) : list CodePt.t :=
  omap (λ item, match item with Value.CodePoint cp => Some cp | _ => None end) (reverse s).

End ValueStack.

(** ** Code segments *)
Module CodeStore.

Definition insn := Instruction.t AVMOpcode.t.
Definition t := list (list insn).

Definition new (runtime : list insn) : t := [runtime].

Definition segment_size (c : t) (seg_num : nat) : option nat := length <$> c !! seg_num.

(** Segment 0 always exists; indexing a missing one panics. *)
Definition runtime_segment_size (c : t) : option nat := length <$> c !! 0.

(** The outer option is a panic. *)
Definition get_insn (c : t) (codept : CodePt.t) : option (option insn) :=
  match codept with
  | CodePt.Internal pc => seg ← c !! 0; Some (seg !! pc)
  | CodePt.InSegment seg_num pc =>
      match c !! seg_num with
      | Some seg => Some (seg !! pc)
      | None => Some None
      end
  | _ => None
  end.

Definition create_segment (c : t) : CodePt.t * t :=
  let c := c ++ [[Instruction.from_opcode AVMOpcode.Zero DebugInfo_default]] in
  (CodePt.new_in_segment (length c - 1) 0, c).

(** Every unusable argument panics. *)
Definition push_insn (c : t) (op : Z) (imm : option Value.t) (codept : CodePt.t)
    : option (CodePt.t * t) :=
  match codept with
  | CodePt.InSegment seg_num old_offset =>
      match c !! seg_num with
      | None => None
      | Some segment =>
          if Nat.eqb (S old_offset) (length segment) then
            match AVMOpcode.from_number op with
            | Some opcode =>
                Some (CodePt.new_in_segment seg_num (old_offset + 1),
                      <[seg_num := segment ++ [Instruction.new opcode imm DebugInfo_default]]> c)
            | None => None
            end
          else None
      end
  | _ => None
  end.

(** An instruction that can be fetched satisfies what all of them satisfy. *)
Lemma get_insn_Forall (P : insn → Prop) (c : t) cp i :
  Forall (Forall P) c → get_insn c cp = Some (Some i) → P i.
Proof.
  unfold get_insn, t in *. intros Hc E. destruct cp as [pc| |seg pc|]; try done.
  - destruct (c !! 0) as [s|] eqn:Es; simplify_eq/=.
    eapply Forall_lookup_1 in Hc; [|exact Es]. by eapply Forall_lookup_1 in Hc.
  - destruct (c !! seg) as [s|] eqn:Es; simplify_eq/=.
    eapply Forall_lookup_1 in Hc; [|exact Es]. by eapply Forall_lookup_1 in Hc.
Qed.

End CodeStore.

(** ** The machine *)
Record Machine := mkMachine {
  stack : ValueStack.t;
  aux_stack : ValueStack.t;
  state : MachineState;
  code : CodeStore.t;
  static_val : Value.t;
  register : Value.t;
  err_codepoint : CodePt.t;
  arb_gas_remaining : Z;
  runtime_env : RuntimeEnvironment.t;
  total_gas_usage : Z;
}.

Definition set_stack (m : Machine) (s : ValueStack.t) : Machine :=
  mkMachine s (aux_stack m) (state m) (code m) (static_val m) (register m) (err_codepoint m)
    (arb_gas_remaining m) (runtime_env m) (total_gas_usage m).
Definition set_aux_stack (m : Machine) (s : ValueStack.t) : Machine :=
  mkMachine (stack m) s (state m) (code m) (static_val m) (register m) (err_codepoint m)
    (arb_gas_remaining m) (runtime_env m) (total_gas_usage m).
Definition set_state (m : Machine) (s : MachineState) : Machine :=
  mkMachine (stack m) (aux_stack m) s (code m) (static_val m) (register m) (err_codepoint m)
    (arb_gas_remaining m) (runtime_env m) (total_gas_usage m).
Definition set_code (m : Machine) (c : CodeStore.t) : Machine :=
  mkMachine (stack m) (aux_stack m) (state m) c (static_val m) (register m) (err_codepoint m)
    (arb_gas_remaining m) (runtime_env m) (total_gas_usage m).
Definition set_register (m : Machine) (v : Value.t) : Machine :=
  mkMachine (stack m) (aux_stack m) (state m) (code m) (static_val m) v (err_codepoint m)
    (arb_gas_remaining m) (runtime_env m) (total_gas_usage m).
Definition set_err_codepoint (m : Machine) (cp : CodePt.t) : Machine :=
  mkMachine (stack m) (aux_stack m) (state m) (code m) (static_val m) (register m) cp
    (arb_gas_remaining m) (runtime_env m) (total_gas_usage m).
Definition set_gas (m : Machine) (g : Z) : Machine :=
  mkMachine (stack m) (aux_stack m) (state m) (code m) (static_val m) (register m)
    (err_codepoint m) g (runtime_env m) (total_gas_usage m).
Definition set_env (m : Machine) (e : RuntimeEnvironment.t) : Machine :=
  mkMachine (stack m) (aux_stack m) (state m) (code m) (static_val m) (register m)
    (err_codepoint m) (arb_gas_remaining m) e (total_gas_usage m).
Definition set_total (m : Machine) (g : Z) : Machine :=
  mkMachine (stack m) (aux_stack m) (state m) (code m) (static_val m) (register m)
    (err_codepoint m) (arb_gas_remaining m) (runtime_env m) g.

(** [Machine::new] on the code and the static value of a linked program. *)
Definition Machine_new (program_code : list CodeStore.insn) (program_static : Value.t)
    (env : RuntimeEnvironment.t) : Machine :=
  mkMachine ValueStack.new ValueStack.new Stopped (CodeStore.new program_code) program_static
    Value.none CodePt.Null (Uint256.bitwise_neg Uint256.zero) env Uint256.zero.

Definition start_at_zero (m : Machine) : Machine := set_state m (Running (CodePt.Internal 0)).
Definition get_stack_trace (m : Machine) : list CodePt.t := ValueStack.all_codepts (aux_stack m).
Definition get_total_gas_usage (m : Machine) : Z := total_gas_usage m.

(** Arguments are pushed from the last to the first, then the return address
    just past the runtime segment. *)
Definition call_state (m : Machine) (func_addr : CodePt.t) (args : list Value.t)
    : option (CodePt.t * Machine) :=
  n ← CodeStore.runtime_segment_size (code m);
  let stop_pc := CodePt.new_internal n in
  let s := foldl ValueStack.push (stack m) (reverse args) in
  let s := ValueStack.push s (Value.CodePoint stop_pc) in
  Some (stop_pc, set_state (set_stack m s) (Running func_addr)).

Definition get_pc (m : Machine) : outcome ExecutionError CodePt.t :=
  match state m with
  | Running pc => Ok pc
  | _ => Err (ExecutionError_new "tried to get PC of non-running machine" (state m) None)
  end.

Definition next_opcode (m : Machine) : option (option CodeStore.insn) :=
  match state m with
  | Running pc => CodeStore.get_insn (code m) pc
  | _ => Some None
  end.

(** ** The monad of instructions *)
Definition M (A : Type) : Type := Machine → outcome ExecutionError A * Machine.

#[global] Instance M_ret : MRet M := λ A a m, (Ok a, m).
#[global] Instance M_bind : MBind M := λ A B f c m,
  match c m with
  | (Ok a, m') => f a m'
  | (Err e, m') => (Err e, m')
  | (Panic, m') => (Panic, m')
  end.

Definition get {A} (f : Machine → A) : M A := λ m, (Ok (f m), m).
Definition upd (f : Machine → Machine) : M unit := λ m, (Ok (), f m).
Definition panic {A} : M A := λ m, (Panic, m).
(** [Err(ExecutionError::new(why, &self.state, val))] *)
Definition fail {A} (why : string) (val : option Value.t) : M A := λ m,
  (Err (ExecutionError_new why (state m) val), m).
(** [Option::unwrap], or any other operation that panics with [None]. *)
Definition must {A} (o : option A) : M A :=
  match o with
  | Some a => mret a
  | None => panic
  end.
Definition on_stack {A} (f : MachineState → ValueStack.t → outcome ExecutionError A * ValueStack.t)
    : M A := λ m, let '(r, s) := f (state m) (stack m) in (r, set_stack m s).
Definition on_aux {A} (f : MachineState → ValueStack.t → outcome ExecutionError A * ValueStack.t)
    : M A := λ m, let '(r, s) := f (state m) (aux_stack m) in (r, set_aux_stack m s).

Definition pop : M Value.t := on_stack ValueStack.pop.
Definition pop_codepoint : M CodePt.t := on_stack ValueStack.pop_codepoint.
Definition pop_uint : M Z := on_stack ValueStack.pop_uint.
Definition pop_usize : M Z := on_stack ValueStack.pop_usize.
Definition pop_tuple : M (list Value.t) := on_stack ValueStack.pop_tuple.
Definition pop_buffer : M Buffer.t := on_stack ValueStack.pop_buffer.
Definition aux_pop : M Value.t := on_aux ValueStack.pop.
Definition aux_pop_tuple : M (list Value.t) := on_aux ValueStack.pop_tuple.

Definition push (v : Value.t) : M unit := upd (λ m, set_stack m (ValueStack.push (stack m) v)).
Definition push_uint (x : Z) : M unit := push (Value.Int x).
Definition push_usize (x : Z) : M unit := push_uint (Uint256.from_usize x).
Definition push_codepoint (cp : CodePt.t) : M unit := push (Value.CodePoint cp).
Definition push_bool (b : bool) : M unit := push_uint (if b then Uint256.one else Uint256.zero).
Definition push_buffer (b : Buffer.t) : M unit := push (Value.Buffer b).
Definition aux_push (v : Value.t) : M unit :=
  upd (λ m, set_aux_stack m (ValueStack.push (aux_stack m) v)).

Definition incr_pc : M unit := λ m,
  match state m with
  | Running pc =>
      match CodePt.incr pc with
      | Some new_pc => (Ok (), set_state m (Running new_pc))
      | None => (Panic, m)
      end
  | _ => (Panic, m)
  end.

(** [self.incr_pc(); Ok(true)], the end of most instructions. *)
Definition next : M bool := incr_pc;; mret true.
