(* ===== verification/Insns.v ===== *)
(** * The instructions (src/src/run/emulator.rs)

    One definition per arm of [run_one_dont_catch_errors], in the order of the
    source, and the helpers the arms call.  Sums of machine integers wrap, as
    in the release build the Makefile makes. *)

From Stdlib Require Import ZArith Lia.
From S2P Require Import Prelude U256 Pos Opcodes Crypto BufferTree Values Blake2b Ripemd160 RuntimeEnv Machine.

(** ** Helpers *)

Definition MAX_PAIRING_SIZE : nat := 30.

(** A [DebugPrint] trace is a linked list of tuples whose first component is
    a type code: 0 opens a level of nesting, 1 closes one, 2 and 3 are neutral.
    A malformed list fails an assertion. *)
Fixpoint check_validity_of_trace_info (val : Value.t) (nesting : Z) : option unit :=
  match val with
  | Value.Tuple [] => if (nesting =? 0)%Z then Some () else None
  | Value.Tuple [Value.Tuple (Value.Int typecode :: _); next] =>
      if (typecode =? 0)%Z then check_validity_of_trace_info next (nesting + 1)
      else if (typecode =? 1)%Z then
        if (0 <? nesting)%Z then check_validity_of_trace_info next (nesting - 1) else None
      else if (typecode <=? 3)%Z then check_validity_of_trace_info next nesting
      else None
  | _ => None
  end.

Definition check_debugprint_for_malformed_trace_info (r1 : Value.t) : option unit :=
  match r1 with
  | Value.Tuple [v0; v1] =>
      if bool_decide (v0 = Value.Int (Uint256.from_u64 20000))
      then check_validity_of_trace_info v1 0
      else Some ()
  | _ => Some ()
  end.

Section crypto.
Context `{Crypto}.

(** [for i in 0..25]: word [i] is the low 64 bits of the integer [i / 4], which
    is then shifted down. *)
Fixpoint split_words (mask64 two_to_64 : Z) (i n : nat) (inuis out : list Z) : option (list Z) :=
  match n with
  | O => Some out
  | S n =>
      x ← inuis !! (i / 4);
      x' ← Uint256.div x two_to_64;
      split_words mask64 two_to_64 (S i) n (<[(i / 4)%nat := x']> inuis)
        (out ++ [Uint256.trim_to_u64 (Uint256.bitwise_and x mask64)])
  end.

Fixpoint value_ints (l : list Value.t) : option (list Z) :=
  match l with
  | [] => Some []
  | Value.Int ui :: l => us ← value_ints l; Some (ui :: us)
  | _ :: _ => None
  end.

Definition join_words (two_to_64 : Z) (out : list Z) (i : nat) : Z :=
  let w j := Uint256.from_u64 (at_ out (4 * i + j)) in
  let x := w 3 in
  let x := Uint256.add (Uint256.mul x two_to_64) (w 2) in
  let x := Uint256.add (Uint256.mul x two_to_64) (w 1) in
  Uint256.add (Uint256.mul x two_to_64) (w 0).

Definition tuple_keccak (intup : list Value.t) : M (list Value.t) :=
  let mask64 := Uint256.from_u64 ((Z.shiftl 1 32 + 1) * (Z.shiftl 1 32 - 1)) in
  let two_to_64 := Uint256.add mask64 Uint256.one in
  if negb (Nat.eqb (length intup) 7) then fail "invalid tuple length for keccakf: " None
  else
    match value_ints intup with
    | None => fail "invalid operand for keccakf" None
    | Some inuis =>
        outtup ← must (split_words mask64 two_to_64 0 25 inuis []);
        let outtup := f1600 outtup in
        mret (Value.Int <$>
          ((join_words two_to_64 outtup <$> seq 0 6) ++ [Uint256.from_u64 (at_ outtup 24)]))
    end.

Definition do_ecrecover (first_half second_half recover_id msg_hash : Z) : Z :=
  let r := take 32 (Uint256.to_bytes_be first_half) in
  let s := take 32 (Uint256.to_bytes_be second_half) in
  let v := (if recover_id =? Uint256.zero then 27 else 28)%Z in
  let hash_to_check := take 32 (Uint256.to_bytes_be msg_hash) in
  match sig_recover r s v hash_to_check with
  | Some addr => Uint256.from_bytes addr
  | None => Uint256.zero
  end.

Definition sha256_compression (acc buf0 buf1 : Z) : option Z :=
  acc_32 ← Uint256.to_u32_digits_be acc;
  buf_32 ← Uint256.to_u32_digits_be_2 buf0 buf1;
  Some (Uint256.from_u32_digits (reverse (sha256_digest_block_u32 acc_32 buf_32))).

Context `{Curve}.

Definition fq_of (x : Z) : outcome string Fq := ok_or (fq_from_slice (Uint256.to_bytes_be x)) "Invalid slice".

Definition g1_point (px py : Fq) : outcome string G1 :=
  if fq_is_zero px && fq_is_zero py then Ok g1_zero
  else ok_or (affine_g1_new px py) "Not on curve".

Definition g1_coordinates (p : G1) : Z * Z :=
  match affine_g1_from_jacobian p with
  | Some (x, y) => (Uint256.from_bytes (fq_to_big_endian x), Uint256.from_bytes (fq_to_big_endian y))
  | None => (Uint256.zero, Uint256.zero)
  end.

Definition do_ecadd (x0 x1 y0 y1 : Z) : outcome string (Z * Z) :=
  px ← fq_of x0;
  py ← fq_of x1;
  qx ← fq_of y0;
  qy ← fq_of y1;
  p ← g1_point px py;
  q ← g1_point qx qy;
  Ok (g1_coordinates (g1_add p q)).

Definition do_ecmul (x0 x1 nui : Z) : outcome string (Z * Z) :=
  px ← fq_of x0;
  py ← fq_of x1;
  n ← ok_or (fr_from_slice (Uint256.to_bytes_be nui)) "Invalid slice";
  p ← g1_point px py;
  Ok (g1_coordinates (g1_mul p n)).

(** The contribution of one pair of points; [None]: some coordinate or point
    is invalid. *)
Definition pairing_of (uis : list Z) : option Gt :=
  let fq i := fq_from_slice (Uint256.to_bytes_be (at_ uis i)) in
  ax ← fq 0%nat;
  ay ← fq 1%nat;
  c2 ← fq 2%nat;
  c3 ← fq 3%nat;
  let ba := fq2_new c2 c3 in
  c4 ← fq 4%nat;
  c5 ← fq 5%nat;
  let bb := fq2_new c4 c5 in
  b ← (if fq2_is_zero ba && fq2_is_zero bb then Some g2_zero else affine_g2_new ba bb);
  a ← (if fq_is_zero ax && fq_is_zero ay then Some g1_zero else affine_g1_new ax ay);
  Some (pairing a b).

(** At most [n] cells of the list are visited. *)
Fixpoint ecpairing_loop (n : nat) (val : Value.t) (acc : Gt) : option bool :=
  match n with
  | O => None
  | S n =>
      match val with
      | Value.Tuple [] => Some (gt_eqb acc gt_one)
      | Value.Tuple [Value.Tuple pts_tup; next] =>
          if Nat.eqb (length pts_tup) 6 then
            match value_ints pts_tup with
            | Some uis =>
                match pairing_of uis with
                | Some g => ecpairing_loop n next (gt_mul acc g)
                | None => Some false
                end
            | None => None
            end
          else None
      | _ => None
      end
  end.

Definition do_ecpairing (val : Value.t) : option bool :=
  ecpairing_loop MAX_PAIRING_SIZE val gt_one.

End crypto.

(** [res.map_err(|msg| ExecutionError::new(&msg, &self.state, None))?] *)
Definition map_err {A} (r : outcome string A) : M A :=
  match r with
  | Ok a => mret a
  | Err msg => fail msg None
  | Panic => panic
  end.

(** ** Control, registers, tuples and stacks *)

Definition op_Noop : M bool := next.

Definition op_Zero : M bool := fail "panicked" None.

Definition op_Jump : M bool :=
  cp ← pop_codepoint;
  upd (λ m, set_state m (Running cp));;
  mret true.

Definition op_Cjump : M bool :=
  cp ← pop_codepoint;
  cond ← pop_uint;
  (if negb (cond =? Uint256.zero)%Z then upd (λ m, set_state m (Running cp)) else incr_pc);;
  mret true.

Definition op_PCpush : M bool :=
  r ← get get_pc;
  match r with
  | Ok pc => push_codepoint pc;; next
  | Err e => λ m, (Err e, m)
  | Panic => panic
  end.

Definition op_Rpush : M bool := v ← get register; push v;; next.

Definition op_Rset : M bool := val ← pop; upd (λ m, set_register m val);; next.

Definition op_Spush : M bool := v ← get static_val; push v;; next.

Definition op_Tset : M bool :=
  idx ← pop_usize;
  tup ← pop_tuple;
  val ← pop;
  if (idx <? Z.of_nat (length tup))%Z
  then push (Value.new_tuple (insert_z tup idx val));; next
  else fail "index out of bounds in Tset" None.

Definition op_Tget : M bool :=
  idx ← pop_usize;
  tup ← pop_tuple;
  match lookup_z tup idx with
  | Some v => push v;; next
  | None => fail "index out of bounds in Tget" None
  end.

Definition op_Tlen : M bool := tup ← pop_tuple; push_usize (Z.of_nat (length tup));; next.

Definition op_Pop : M bool := pop;; next.

Definition op_StackEmpty : M bool :=
  e ← get (λ m, ValueStack.is_empty (stack m)); push_bool e;; next.

Definition op_AuxPush : M bool := v ← pop; aux_push v;; next.

Definition op_AuxPop : M bool := v ← aux_pop; push v;; next.

Definition op_AuxStackEmpty : M bool :=
  e ← get (λ m, ValueStack.is_empty (aux_stack m)); push_bool e;; next.

Definition op_Xget : M bool :=
  slot_num ← pop_usize;
  t ← get (λ m, ValueStack.top (aux_stack m));
  match t with
  | None => fail "aux stack underflow" None
  | Some (Value.Tuple v) =>
      match lookup_z v slot_num with
      | Some val => push val;; next
      | None => fail "tuple access out of bounds" None
      end
  | Some aux_top => fail "expected tuple on aux stack" (Some aux_top)
  end.

(** The aux stack's tuple has been popped when the value is missing. *)
Definition op_Xset : M bool :=
  slot_num ← pop_usize;
  tup ← aux_pop_tuple;
  if (slot_num <? Z.of_nat (length tup))%Z then
    val ← pop;
    aux_push (Value.new_tuple (insert_z tup slot_num val));;
    next
  else fail "tuple access out of bounds" None.

Definition op_Dup0 : M bool := top ← pop; push top;; push top;; next.

Definition op_Dup1 : M bool :=
  top ← pop; snd ← pop; push snd;; push top;; push snd;; next.

Definition op_Dup2 : M bool :=
  top ← pop; snd ← pop; trd ← pop; push trd;; push snd;; push top;; push trd;; next.

Definition op_Swap1 : M bool := top ← pop; snd ← pop; push top;; push snd;; next.

Definition op_Swap2 : M bool :=
  top ← pop; snd ← pop; trd ← pop; push top;; push snd;; push trd;; next.

(** ** Integer arithmetic *)

Definition op_IsZero : M bool :=
  r ← pop_uint;
  push_usize (if (r =? Uint256.zero)%Z then 1 else 0);;
  next.

Definition op_BitwiseNeg : M bool := r ← pop_uint; push_uint (Uint256.bitwise_neg r);; next.

Definition op_Add : M bool :=
  r1 ← pop_uint; r2 ← pop_uint; push_uint (Uint256.add r1 r2);; next.

Definition op_Sub : M bool :=
  r1 ← pop_uint; r2 ← pop_uint;
  d ← must (Uint256.unchecked_sub r1 r2);
  push_uint d;; next.

Definition op_Mul : M bool :=
  r1 ← pop_uint; r2 ← pop_uint; push_uint (Uint256.mul r1 r2);; next.

Definition op_Div : M bool :=
  r1 ← pop_uint; r2 ← pop_uint;
  match Uint256.div r1 r2 with
  | Some res => push_uint res;; next
  | None => fail "divide by zero" None
  end.

Definition op_Mod : M bool :=
  r1 ← pop_uint; r2 ← pop_uint;
  match Uint256.modulo r1 r2 with
  | Some res => push_uint res;; next
  | None => fail "modulo by zero" None
  end.

Definition op_Sdiv : M bool :=
  r1 ← pop_uint; r2 ← pop_uint;
  ores ← must (Uint256.sdiv r1 r2);
  match ores with
  | Some res => push_uint res;; next
  | None => fail "divide by zero" None
  end.

Definition op_Smod : M bool :=
  r1 ← pop_uint; r2 ← pop_uint;
  ores ← must (Uint256.smodulo r1 r2);
  match ores with
  | Some res => push_uint res;; next
  | None => fail "modulo by zero" None
  end.

Definition op_AddMod : M bool :=
  r1 ← pop_uint; r2 ← pop_uint; r3 ← pop_uint;
  match Uint256.add_mod r1 r2 r3 with
  | Some res => push_uint res;; next
  | None => fail "modulo by zero" None
  end.

Definition op_MulMod : M bool :=
  r1 ← pop_uint; r2 ← pop_uint; r3 ← pop_uint;
  match Uint256.mul_mod r1 r2 r3 with
  | Some res => push_uint res;; next
  | None => fail "modulo by zero" None
  end.

Definition op_Exp : M bool :=
  r1 ← pop_uint; r2 ← pop_uint; push_uint (Uint256.exp r1 r2);; next.

(** The [None] is the underflow of [shifted_bit * 2 - 1]. *)
Definition sign_extend (bnum x : Z) : option Z :=
  match Uint256.to_usize bnum with
  | Some ub =>
      if (31 <=? ub)%Z then Some x
      else
        let shifted_bit := Uint256.exp (Uint256.from_usize 2) (Uint256.from_usize (8 * ub + 7)) in
        let sign_bit := negb (Uint256.bitwise_and x shifted_bit =? Uint256.zero)%Z in
        mask ← Uint256.sub (Uint256.mul shifted_bit (Uint256.from_u64 2)) Uint256.one;
        Some (if sign_bit then Uint256.bitwise_or x (Uint256.bitwise_neg mask)
              else Uint256.bitwise_and x mask)
  | None => Some x
  end.

Definition op_SignExtend : M bool :=
  bnum ← pop_uint; x ← pop_uint;
  match sign_extend bnum x with
  | Some out => push_uint out;; next
  | None => fail "underflow in signextend" None
  end.

Definition op_LessThan : M bool :=
  r1 ← pop_uint; r2 ← pop_uint; push_usize (if (r1 <? r2)%Z then 1 else 0);; next.

Definition op_GreaterThan : M bool :=
  r1 ← pop_uint; r2 ← pop_uint; push_usize (if (r2 <? r1)%Z then 1 else 0);; next.

Definition op_SLessThan : M bool :=
  r1 ← pop_uint; r2 ← pop_uint; push_usize (if Uint256.s_less_than r1 r2 then 1 else 0);; next.

Definition op_SGreaterThan : M bool :=
  r1 ← pop_uint; r2 ← pop_uint; push_usize (if Uint256.s_less_than r2 r1 then 1 else 0);; next.

Definition op_Equal : M bool :=
  r1 ← pop; r2 ← pop; push_usize (if bool_decide (r1 = r2) then 1 else 0);; next.

Definition op_Type : M bool :=
  val ← pop; n ← must (Value.type_insn_result val); push_usize n;; next.

Definition op_BitwiseAnd : M bool :=
  r1 ← pop_uint; r2 ← pop_uint; push_uint (Uint256.bitwise_and r1 r2);; next.

Definition op_BitwiseOr : M bool :=
  r1 ← pop_uint; r2 ← pop_uint; push_uint (Uint256.bitwise_or r1 r2);; next.

Definition op_BitwiseXor : M bool :=
  r1 ← pop_uint; r2 ← pop_uint; push_uint (Uint256.bitwise_xor r1 r2);; next.

Definition byte_of (r1 r2 : Z) : option Z :=
  if (r1 <? Uint256.from_usize 32)%Z then
    n ← Uint256.to_usize r1;
    let shift_factor := Uint256.exp (Uint256.from_u64 256) (Uint256.from_usize (31 - n)) in
    q ← Uint256.div r2 shift_factor;
    Some (Uint256.bitwise_and q (Uint256.from_usize 255))
  else Some Uint256.zero.

Definition op_Byte : M bool :=
  r1 ← pop_uint; r2 ← pop_uint; b ← must (byte_of r1 r2); push_uint b;; next.

(** A shift that does not fit a [usize] gives zero. *)
Definition shift_with (f : Z → Z → Z) (shift_big value : Z) : Z :=
  match Uint256.to_usize shift_big with
  | Some shift => f value shift
  | None => Uint256.zero
  end.

Definition op_ShiftLeft : M bool :=
  shift_big ← pop_uint; value ← pop_uint;
  push_uint (shift_with Uint256.shift_left shift_big value);; next.

Definition op_ShiftRight : M bool :=
  shift_big ← pop_uint; value ← pop_uint;
  push_uint (shift_with Uint256.shift_right shift_big value);; next.

Definition op_ShiftArith : M bool :=
  shift_big ← pop_uint; value ← pop_uint;
  push_uint (shift_with Uint256.shift_arith shift_big value);; next.

(** ** Inbox, error handler, code segments, gas *)

Definition op_Inbox (gas_remaining_before : Z) (has_immediate : bool) : M bool := λ m,
  match RuntimeEnvironment.get_from_inbox (runtime_env m) with
  | (Some msg, e) => (push msg;; next) (set_env m e)
  | (None, e) =>
      let m := set_gas (set_env m e) gas_remaining_before in
      let m := if has_immediate then (pop m).2 else m in
      (Ok false, m)
  end.

(** [tup[1]] panics when the message has fewer than two components. *)
Definition op_InboxPeek (gas_remaining_before : Z) : M bool :=
  bn ← pop_uint;
  head ← get (λ m, RuntimeEnvironment.peek_at_inbox_head (runtime_env m));
  match head with
  | Some (Value.Tuple tup) =>
      v ← must (tup !! 1);
      match v with
      | Value.Int msg_bn => push_bool (bn =? msg_bn)%Z;; next
      | _ => fail "inbox contents not a tuple" None
      end
  | Some _ => fail "blocknum not an integer" None
  | None =>
      upd (λ m, set_gas m gas_remaining_before);;
      push_uint bn;;
      mret false
  end.

Definition op_ErrCodePoint : M bool := λ m,
  let '(cp, c) := CodeStore.create_segment (code m) in
  (push (Value.CodePoint cp);; next) (set_code m c).

Definition op_Log : M bool :=
  val ← pop;
  upd (λ m, set_env m (RuntimeEnvironment.push_log (runtime_env m) val));;
  next.

Definition op_ErrSet : M bool :=
  cp ← pop_codepoint; upd (λ m, set_err_codepoint m cp);; next.

Definition op_ErrPush : M bool := cp ← get err_codepoint; push_codepoint cp;; next.

Definition push_insn (opcode : Z) (imm : option Value.t) (cp : CodePt.t) : M bool :=
  c ← get code;
  '(new_cp, c) ← must (CodeStore.push_insn c opcode imm cp);
  upd (λ m, set_code m c);;
  push_codepoint new_cp;;
  next.

Definition op_PushInsn : M bool :=
  opcode ← pop_usize; cp ← pop_codepoint; push_insn opcode None cp.

Definition op_PushInsnImm : M bool :=
  opcode ← pop_usize; imm ← pop; cp ← pop_codepoint; push_insn opcode (Some imm) cp.

Definition op_OpenInsn : M bool :=
  cp ← pop_codepoint;
  c ← get code;
  o ← must (CodeStore.get_insn c cp);
  insn ← must o;
  push (match Instruction.immediate insn with
        | Some val => Value.new_tuple [val]
        | None => Value.none
        end);;
  push_usize (AVMOpcode.to_number (Instruction.opcode insn));;
  next.

Definition op_Breakpoint : M bool := incr_pc;; mret false.

Definition op_Halt : M bool := upd (λ m, set_state m Stopped);; mret false.

(** The printing itself has no effect on the machine. *)
Definition op_DebugPrint : M bool :=
  r1 ← pop;
  must (check_debugprint_for_malformed_trace_info r1);;
  next.

Definition op_PushGas : M bool := g ← get arb_gas_remaining; push (Value.Int g);; next.

Definition op_SetGas : M bool := gas ← pop_uint; upd (λ m, set_gas m gas);; next.

Definition op_Sideload : M bool := _block_num ← pop_uint; push Value.none;; next.

(** ** Cryptography and buffers *)
Section crypto_ops.
Context `{Crypto}.

Definition op_Hash : M bool := v ← pop; res ← must (Value.avm_hash v); push res;; next.

Definition op_EthHash2 : M bool :=
  r1 ← pop_uint; r2 ← pop_uint; push_uint (Uint256.avm_hash2 keccak256 r1 r2);; next.

Definition op_Keccakf : M bool :=
  t1 ← pop_tuple; t2 ← tuple_keccak t1; push (Value.new_tuple t2);; next.

Definition op_Sha256f : M bool :=
  t1 ← pop_uint; t2 ← pop_uint; t3 ← pop_uint;
  r ← must (sha256_compression t1 t2 t3);
  push_uint r;; next.

Definition op_Ripemd160f : M bool :=
  t1 ← pop_uint; t2 ← pop_uint; t3 ← pop_uint;
  r ← must (ripemd160_compression t1 t2 t3);
  push_uint r;; next.

Definition op_Blake2f : M bool :=
  t ← pop_buffer; r ← must (blake2bf_instruction t); push_buffer r;; next.

Definition op_Send : M bool :=
  size ← pop_uint;
  buf ← pop_buffer;
  e ← get runtime_env;
  e' ← must (RuntimeEnvironment.push_send e size buf);
  upd (λ m, set_env m e');;
  next.

Definition op_EcRecover : M bool :=
  first_half ← pop_uint; second_half ← pop_uint; recover_id ← pop_uint; msg_hash ← pop_uint;
  push_uint (do_ecrecover first_half second_half recover_id msg_hash);; next.

Definition op_NewBuffer : M bool := b ← must (Value.new_buffer []); push b;; next.

Definition op_GetBuffer8 : M bool :=
  offset ← pop_usize; buf ← pop_buffer;
  b ← must (Buffer.read_byte buf offset);
  push_usize b;; next.

(** [offset + n < offset] in wrapping 64-bit arithmetic *)
Definition offset_overflows (offset n : Z) : bool := (wrapping_add 64 offset n <? offset)%Z.

Definition buffer_overflow {A} (offset : Z) : M A :=
  fail "buffer overflow" (Some (Value.Int (Uint256.from_usize offset))).

Definition op_GetBuffer64 : M bool :=
  offset ← pop_usize; buf ← pop_buffer;
  if offset_overflows offset 7 then buffer_overflow offset
  else
    res ← must (read_all Buffer.read_byte buf offset 8);
    push_uint (Uint256.from_bytes res);; next.

Definition op_GetBuffer256 : M bool :=
  offset ← pop_usize; buf ← pop_buffer;
  if offset_overflows offset 31 then buffer_overflow offset
  else
    res ← must (read_all Buffer.read_byte buf offset 32);
    push_uint (Uint256.from_bytes res);; next.

Definition op_SetBuffer8 : M bool :=
  offset ← pop_usize; val ← pop_uint; buf ← pop_buffer;
  let bytes := Uint256.to_bytes_be val in
  nbuf ← must (Buffer.set_byte buf offset (at_ bytes 31));
  push (Value.copy_buffer nbuf);; next.

(** The bytes written are [bytes[0]] to [bytes[7]], the most significant ones. *)
Definition op_SetBuffer64 : M bool :=
  offset ← pop_usize;
  if offset_overflows offset 7 then buffer_overflow offset
  else
    val ← pop_uint; buf ← pop_buffer;
    let bytes := Uint256.to_bytes_be val in
    nbuf ← must (write_all Buffer.set_byte buf offset (take 8 bytes));
    push (Value.copy_buffer nbuf);; next.

Definition op_SetBuffer256 : M bool :=
  offset ← pop_usize;
  if offset_overflows offset 31 then buffer_overflow offset
  else
    val ← pop_uint; buf ← pop_buffer;
    let bytes := Uint256.to_bytes_be val in
    nbuf ← must (write_all Buffer.set_byte buf offset (take 32 bytes));
    push (Value.copy_buffer nbuf);; next.

Context `{Curve}.

Definition op_EcAdd : M bool :=
  x0 ← pop_uint; x1 ← pop_uint; y0 ← pop_uint; y1 ← pop_uint;
  '(z0, z1) ← map_err (do_ecadd x0 x1 y0 y1);
  push_uint z1;; push_uint z0;; next.

Definition op_EcMul : M bool :=
  x0 ← pop_uint; x1 ← pop_uint; n ← pop_uint;
  '(z0, z1) ← map_err (do_ecmul x0 x1 n);
  push_uint z1;; push_uint z0;; next.

Definition op_EcPairing : M bool :=
  x ← pop;
  match do_ecpairing x with
  | Some result => push_bool result;; next
  | None => fail "invalid operand to EcPairing instruction" None
  end.

End crypto_ops.
