(* ===== verification/InsnFacts.v ===== *)
(** * Facts about the helpers of the instructions

    Closed forms of sign extension, byte extraction and shifts, and the ranges
    of the results of the hash and curve helpers. *)

From Stdlib Require Import ZArith Lia.
From S2P Require Import Prelude U256 Opcodes Crypto BufferTree Values Blake2b Ripemd160 Machine Insns.
Local Open Scope Z_scope.

(** ** Bits *)

Lemma land_pow2_zero x k : 0 <= k → (Z.land x (2 ^ k) =? 0) = negb (Z.testbit x k).
Proof.
  intros Hk. destruct (Z.testbit x k) eqn:Hb; simpl.
  - apply Z.eqb_neq. intros E. apply (f_equal (λ z, Z.testbit z k)) in E.
    rewrite Z.land_spec, Z.pow2_bits_true, Z.bits_0, Hb in E by done. done.
  - apply Z.eqb_eq, Z.bits_inj'. intros i Hi. rewrite Z.land_spec, Z.pow2_bits_eqb, Z.bits_0 by done.
    destruct (Z.eqb_spec k i) as [->|]; [by rewrite Hb|apply andb_false_r].
Qed.

Lemma mod_pow2_succ x k : 0 <= k →
  x mod 2 ^ (k + 1) = x mod 2 ^ k + (if Z.testbit x k then 2 ^ k else 0).
Proof.
  intros Hk. rewrite Z.pow_add_r by lia.
  rewrite Z.rem_mul_r; [|apply Z.pow_nonzero; lia|lia]. f_equal. change (2 ^ 1) with 2.
  pose proof (Z.mod_pos_bound (x / 2 ^ k) 2 ltac:(lia)).
  destruct (Z.testbit x k) eqn:Hb.
  - apply Z.testbit_true in Hb; [|done]. rewrite Hb. lia.
  - apply Z.testbit_false in Hb; [|done]. rewrite Hb. lia.
Qed.

(** Setting all bits from [n] up. *)
Lemma lor_high_ones x n : Uint256.wf x → 0 <= n <= 256 →
  Z.lor x (two256 - 2 ^ n) = x mod 2 ^ n + (two256 - 2 ^ n).
Proof.
  intros Hx Hn. assert (two256 - 2 ^ n = Z.shiftl (Z.ones (256 - n)) n) as E.
  { rewrite Z.shiftl_mul_pow2, Z.ones_equiv, Uint256.two256_eq by lia.
    replace 256 with ((256 - n) + n) at 1 by lia. rewrite Z.pow_add_r by lia. lia. }
  rewrite E, Z.shiftl_mul_pow2, <- lor_shiftl_add by (try apply Z.mod_pos_bound; lia).
  rewrite <- Z.shiftl_mul_pow2 by lia.
  apply Z.bits_inj'. intros i Hi. rewrite !Z.lor_spec, Z.shiftl_spec by lia.
  destruct (Z.ltb_spec i n).
  - by rewrite Z.mod_pow2_bits_low by lia.
  - rewrite Z.mod_pow2_bits_high by lia. destruct (Z.ltb_spec i 256).
    + rewrite Z.ones_spec_low by lia. by rewrite !orb_true_r.
    + rewrite (Uint256.testbit_wf x i) by (done || lia). done.
Qed.

(** ** Sign extension *)

(** The value of the low [b + 1] bytes of [x] as a signed number. *)
Definition sign_extend_spec (b x : Z) : Z :=
  if 31 <=? b then x
  else
    let n := 8 * b + 8 in
    let low := x mod 2 ^ n in
    if low <? 2 ^ (n - 1) then low else (low - 2 ^ n) mod two256.

Lemma sign_extend_eq b x : Uint256.wf b → Uint256.wf x →
  sign_extend b x = Some (sign_extend_spec b x).
Proof.
  intros Hb Hx. destruct Hb as [Hb0 _]. unfold sign_extend, sign_extend_spec, Uint256.to_usize.
  destruct (Z.ltb_spec b two64) as [_|Hbig].
  2: { rewrite (proj2 (Z.leb_le _ _)); [done|]. unfold two64 in Hbig. lia. }
  destruct (Z.leb_spec 31 b) as [|Hb]; [done|].
  unfold Uint256.from_usize, Uint256.from_u64, Uint256.zero, Uint256.one.
  set (k := 8 * b + 7). replace (8 * b + 8) with (k + 1) by lia.
  replace (k + 1 - 1) with k by lia. assert (0 <= k <= 247) as Hk by lia.
  assert (0 < 2 ^ k) by (apply Z.pow_pos_nonneg; lia).
  assert (2 ^ k <= 2 ^ 247) as Hle by (apply Z.pow_le_mono_r; lia).
  assert (Uint256.wf (2 ^ k)) as Hwk by (split; [lia|]; unfold two256; cbn in Hle; lia).
  assert (2 ^ (k + 1) = 2 ^ k * 2) as Hs by (rewrite Z.pow_add_r by lia; lia).
  rewrite Uint256.exp_eq by lia. rewrite (Z.mod_small (2 ^ k)) by exact Hwk.
  rewrite Uint256.mul_eq by done. rewrite <- Hs.
  assert (Uint256.wf (2 ^ (k + 1))) as Hwk1 by (split; [lia|]; unfold two256; cbn in Hle; lia).
  rewrite Z.mod_small by exact Hwk1.
  rewrite Uint256.sub_eq, bool_decide_eq_true_2 by (done || lia). cbn [mbind option_bind].
  f_equal. unfold Uint256.bitwise_and, Uint256.bitwise_or.
  rewrite land_pow2_zero by lia. rewrite negb_involutive.
  pose proof (Z.mod_pos_bound x (2 ^ k) ltac:(lia)) as Hm.
  pose proof (mod_pow2_succ x k ltac:(lia)) as Hmod.
  assert (Uint256.wf (2 ^ (k + 1) - 1)) as Hwm by (split; [lia|]; destruct Hwk1; lia).
  destruct (Z.testbit x k).
  - rewrite (proj2 (Z.ltb_ge _ _)) by lia. rewrite Uint256.bitwise_neg_eq by done.
    replace (two256 - 1 - (2 ^ (k + 1) - 1)) with (two256 - 2 ^ (k + 1)) by lia.
    rewrite lor_high_ones by (done || lia).
    destruct Hwk1. rewrite <- (Z.mod_add (_ - _) 1 two256) by (unfold two256; lia).
    rewrite (Z.mod_small (_ + _)); lia.
  - rewrite (proj2 (Z.ltb_lt _ _)) by lia.
    rewrite <- Z.land_ones by lia. rewrite Z.ones_equiv. by f_equal.
Qed.

Lemma wf_sign_extend b x : Uint256.wf b → Uint256.wf x →
  ∃ z, sign_extend b x = Some z ∧ Uint256.wf z.
Proof.
  intros Hb Hx. rewrite sign_extend_eq by done. eexists; split; [done|].
  unfold sign_extend_spec. destruct (Z.leb_spec 31 b); [done|].
  destruct (_ <? _); [|apply Uint256.wf_mod].
  destruct Hb as [Hb _], Hx. set (n := 8 * b + 8).
  assert (0 < 2 ^ n) by (apply Z.pow_pos_nonneg; lia).
  pose proof (Z.mod_pos_bound x (2 ^ n)). pose proof (Z.mod_le x (2 ^ n)).
  unfold Uint256.wf. lia.
Qed.

(** ** Bytes and shifts *)

Lemma byte_of_eq i x : Uint256.wf i → Uint256.wf x →
  byte_of i x = Some (if i <? 32 then x / 256 ^ (31 - i) mod 256 else 0).
Proof.
  intros [Hi _] Hx. unfold byte_of, Uint256.from_usize, Uint256.to_usize.
  destruct (Z.ltb_spec i 32); [|done].
  rewrite (proj2 (Z.ltb_lt i two64)) by (unfold two64; lia). cbn [mbind option_bind].
  assert (0 < 256 ^ (31 - i)) as Hpos by (apply Z.pow_pos_nonneg; lia).
  assert (256 ^ (31 - i) <= 256 ^ 31) as Hle by (apply Z.pow_le_mono_r; lia).
  unfold Uint256.from_u64, Uint256.div. rewrite Uint256.exp_eq by lia.
  rewrite (Z.mod_small (256 ^ (31 - i))) by (unfold two256; cbn in Hle; lia).
  rewrite (proj2 (Z.eqb_neq _ _)) by lia. cbn [mbind option_bind]. f_equal.
  unfold Uint256.bitwise_and. by rewrite (Z.land_ones _ 8) by lia.
Qed.

Lemma wf_byte_of i x : Uint256.wf i → Uint256.wf x → ∃ z, byte_of i x = Some z ∧ Uint256.wf z.
Proof.
  intros Hi Hx. rewrite byte_of_eq by done. eexists; split; [done|]. apply Uint256.wf_small.
  destruct (i <? 32); [|done]. pose proof (Z.mod_pos_bound (x / 256 ^ (31 - i)) 256 ltac:(lia)).
  unfold two64. lia.
Qed.

Lemma shift_with_wf f s x :
  (∀ n, 0 <= n → Uint256.wf (f x n)) → Uint256.wf s → Uint256.wf (shift_with f s x).
Proof.
  intros Hf [Hs _]. unfold shift_with, Uint256.to_usize.
  destruct (s <? two64); [by apply Hf|done].
Qed.

Lemma wf_sha_result st : length st = 8%nat → digits_ok (2 ^ 32) st →
  Uint256.wf (Uint256.from_u32_digits (reverse st)).
Proof.
  intros Hl Hd. unfold Uint256.from_u32_digits, Uint256.wf.
  pose proof (undigits_le_bound (2 ^ 32) ltac:(lia) (reverse st)) as Hb.
  rewrite length_reverse, Hl in Hb. exact (Hb (digits_ok_reverse _ _ Hd)).
Qed.

Lemma store_rev_some ret top v : (length v <= S top)%nat → is_Some (Uint256.store_rev ret top v).
Proof.
  revert ret top; induction v as [|d v IH]; intros ret top Hl; [destruct top; by eexists|].
  simpl in Hl. destruct top as [|top]; cbn [Uint256.store_rev].
  - destruct v; [by eexists|simpl in Hl; lia].
  - apply IH. lia.
Qed.

(** A word read from a list of words, in range or not. *)
Lemma wf_at_word ws i : digits_ok (2 ^ 64) ws → Uint256.wf (Uint256.from_u64 (at_ ws i)).
Proof.
  intros Hw. apply Uint256.wf_small. unfold at_.
  destruct (ws !! i) as [w|] eqn:E; [|done]. exact (Forall_lookup_1 _ _ _ _ Hw E).
Qed.

Section crypto.
Context `{HC : Crypto, !CryptoOk}.

Lemma sha256_compression_ok acc b0 b1 : Uint256.wf acc → Uint256.wf b0 → Uint256.wf b1 →
  ∃ r, sha256_compression acc b0 b1 = Some r ∧ Uint256.wf r.
Proof.
  intros Ha H0 H1. unfold sha256_compression.
  destruct (Uint256.to_u32_digits_be_eq acc Ha) as (ds & -> & Hl & _). cbn [mbind option_bind].
  unfold Uint256.to_u32_digits_be_2.
  destruct (store_rev_some (replicate 16 0) 7 (Uint256.biguint_to_u32_digits b0)) as [r1 ->].
  { pose proof (Uint256.biguint_to_u32_digits_spec b0 H0). lia. }
  cbn [mbind option_bind].
  destruct (store_rev_some r1 15 (Uint256.biguint_to_u32_digits b1)) as [r2 ->].
  { pose proof (Uint256.biguint_to_u32_digits_spec b1 H1). lia. }
  cbn [mbind option_bind]. eexists; split; [done|].
  destruct (sha256_ok ds r2) as [Hs Hd]. apply wf_sha_result; [by rewrite Hs|done].
Qed.

Lemma do_ecrecover_ok a b c d : Uint256.wf (do_ecrecover a b c d).
Proof.
  unfold do_ecrecover. destruct (sig_recover _ _ _ _) as [addr|] eqn:E; [|done].
  apply sig_recover_ok in E as [Hl Hd]. apply Uint256.wf_from_bytes; [done|]. rewrite Hl. lia.
Qed.

Lemma value_ints_some l us : value_ints l = Some us → l = Value.Int <$> us.
Proof.
  revert us; induction l as [|v l IH]; intros us; cbn [value_ints]; [by intros [= <-]|].
  destruct v; try done. destruct (value_ints l); [|done]. intros [= <-]. simpl. f_equal. by apply IH.
Qed.

Lemma split_words_some mask t i n us out :
  t ≠ 0 → length us = 7%nat → (i + n <= 28)%nat → is_Some (split_words mask t i n us out).
Proof.
  intros Ht. revert i us out; induction n as [|n IH]; intros i us out Hl Hi; [by eexists|].
  cbn [split_words]. pose proof (Nat.Div0.div_lt_upper_bound i 4 7 ltac:(lia)).
  destruct (lookup_lt_is_Some_2 us (i / 4)) as [x Hx]; [lia|]. rewrite Hx. cbn [mbind option_bind].
  unfold Uint256.div. rewrite (proj2 (Z.eqb_neq t 0)) by done. cbn [mbind option_bind].
  apply IH; [by rewrite length_insert|lia].
Qed.

(** The 64-bit words the permutation returns, packed four to an integer. *)
Definition keccak_words (us : list Z) : option (list Z) :=
  let mask64 := Uint256.from_u64 ((Z.shiftl 1 32 + 1) * (Z.shiftl 1 32 - 1)) in
  let two_to_64 := Uint256.add mask64 Uint256.one in
  outtup ← split_words mask64 two_to_64 0 25 us [];
  let outtup := f1600 outtup in
  Some ((join_words two_to_64 outtup <$> seq 0 6) ++ [Uint256.from_u64 (at_ outtup 24)]).

Lemma join_words_wf out i : digits_ok (2 ^ 64) out → Uint256.wf (join_words two64 out i).
Proof.
  intros Ho. unfold join_words. assert (Uint256.wf two64) by done.
  repeat (apply Uint256.wf_add; [apply Uint256.wf_mul; [|done]|]); by apply wf_at_word.
Qed.

Lemma keccak_words_ok us : length us = 7%nat →
  ∃ ws, keccak_words us = Some ws ∧ length ws = 7%nat ∧ Forall Uint256.wf ws.
Proof.
  intros Hl. unfold keccak_words. set (m := Uint256.from_u64 _).
  replace (Uint256.add m Uint256.one) with two64 by reflexivity. clearbody m.
  destruct (split_words_some m two64 0 25 us []) as [out ->]; [done|done|lia|].
  cbn [mbind option_bind]. eexists; split; [done|].
  destruct (f1600_ok out) as [_ Hd]. split; [done|].
  apply Forall_app; split; [|repeat constructor; by apply wf_at_word].
  apply Forall_fmap, Forall_true. intros i. by apply join_words_wf.
Qed.

Context `{HV : Curve, !CurveOk}.

Lemma g1_coordinates_ok p : Uint256.wf (g1_coordinates p).1 ∧ Uint256.wf (g1_coordinates p).2.
Proof.
  unfold g1_coordinates. destruct (affine_g1_from_jacobian p) as [[x y]|]; [|done].
  destruct (fq_to_big_endian_ok x) as [Hx ?], (fq_to_big_endian_ok y) as [Hy ?].
  split; apply Uint256.wf_from_bytes; try done; rewrite ?Hx, ?Hy; lia.
Qed.

Lemma do_ecadd_ok a b c d :
  match do_ecadd a b c d with
  | Ok z => Uint256.wf z.1 ∧ Uint256.wf z.2
  | Err _ => True
  | Panic => False
  end.
Proof.
  unfold do_ecadd, fq_of, g1_point, ok_or.
  repeat (case_match; simplify_eq/=; try done); apply g1_coordinates_ok.
Qed.

Lemma do_ecmul_ok a b c :
  match do_ecmul a b c with
  | Ok z => Uint256.wf z.1 ∧ Uint256.wf z.2
  | Err _ => True
  | Panic => False
  end.
Proof.
  unfold do_ecmul, fq_of, g1_point, ok_or.
  repeat (case_match; simplify_eq/=; try done); apply g1_coordinates_ok.
Qed.
End crypto.
