(* ===== verification/Emulator.v ===== *)
(** * The emulator (src/src/run/emulator.rs: next_op_gas, run_one, run, test_call)

    Gas costs, the dispatch over the 83 opcodes, the error handler and the
    run loop.  [run] takes fuel for its [while] loop; its outer [None] is lack
    of fuel, its inner [None] a panic. *)

From Stdlib Require Import ZArith Lia.
From S2P Require Import Prelude U256 Pos Opcodes Crypto BufferTree Values RuntimeEnv Machine Insns.

Section emulator.
Context `{Crypto, Curve}.

(** ** Gas *)

(** [for i in 0..MAX_PAIRING_SIZE]: follow the second components. *)
Fixpoint pairing_gas_loop (n : nat) (i : Z) (v : Value.t) : Z :=
  match n with
  | O => (1000 + Z.of_nat MAX_PAIRING_SIZE * 500000)%Z
  | S n =>
      match v with
      | Value.Tuple [_; next] => pairing_gas_loop n (i + 1) next
      | _ => (1000 + i * 500000)%Z
      end
  end.

(** [self.stack.contents.get(0)] is the bottom of the stack. *)
Definition gas_for_pairing (m : Machine) : Z :=
  match head (reverse (stack m)) with
  | Some val => pairing_gas_loop MAX_PAIRING_SIZE 0 val
  | None => 1000%Z
  end.

Definition gas_for_blake2f (m : Machine) : option Z :=
  match head (reverse (stack m)) with
  | Some (Value.Buffer buf) =>
      b ← Buffer.as_bytes buf 4;
      let num_rounds := undigits_be 256 b in
      Some (10 * (if 0xffff <? num_rounds then 0xffff else num_rounds))%Z
  | _ => Some 10%Z
  end.

(** The cost of an opcode; [None] for a panic. *)
Definition opcode_gas (m : Machine) (op : AVMOpcode.t) : option Z :=
  match op with
  | AVMOpcode.Zero => Some 5
  | AVMOpcode.Add => Some 3
  | AVMOpcode.Mul => Some 3
  | AVMOpcode.Sub => Some 3
  | AVMOpcode.Div => Some 4
  | AVMOpcode.Sdiv => Some 7
  | AVMOpcode.Mod => Some 4
  | AVMOpcode.Smod => Some 7
  | AVMOpcode.AddMod => Some 4
  | AVMOpcode.MulMod => Some 4
  | AVMOpcode.Exp => Some 25
  | AVMOpcode.SignExtend => Some 7
  | AVMOpcode.LessThan => Some 2
  | AVMOpcode.GreaterThan => Some 2
  | AVMOpcode.SLessThan => Some 2
  | AVMOpcode.SGreaterThan => Some 2
  | AVMOpcode.Equal => Some 2
  | AVMOpcode.IsZero => Some 1
  | AVMOpcode.BitwiseAnd => Some 2
  | AVMOpcode.BitwiseOr => Some 2
  | AVMOpcode.BitwiseXor => Some 2
  | AVMOpcode.BitwiseNeg => Some 1
  | AVMOpcode.Byte => Some 4
  | AVMOpcode.ShiftLeft => Some 4
  | AVMOpcode.ShiftRight => Some 4
  | AVMOpcode.ShiftArith => Some 4
  | AVMOpcode.Hash => Some 7
  | AVMOpcode.Type_ => Some 3
  | AVMOpcode.EthHash2 => Some 8
  | AVMOpcode.Keccakf => Some 600
  | AVMOpcode.Sha256f => Some 250
  | AVMOpcode.Ripemd160f => Some 250
  | AVMOpcode.Blake2f => gas_for_blake2f m
  | AVMOpcode.Pop => Some 1
  | AVMOpcode.Spush => Some 1
  | AVMOpcode.Rpush => Some 1
  | AVMOpcode.Rset => Some 2
  | AVMOpcode.Jump => Some 4
  | AVMOpcode.Cjump => Some 4
  | AVMOpcode.StackEmpty => Some 2
  | AVMOpcode.PCpush => Some 1
  | AVMOpcode.AuxPush => Some 1
  | AVMOpcode.AuxPop => Some 1
  | AVMOpcode.AuxStackEmpty => Some 2
  | AVMOpcode.Noop => Some 1
  | AVMOpcode.ErrPush => Some 1
  | AVMOpcode.ErrSet => Some 1
  | AVMOpcode.Dup0 => Some 1
  | AVMOpcode.Dup1 => Some 1
  | AVMOpcode.Dup2 => Some 1
  | AVMOpcode.Swap1 => Some 1
  | AVMOpcode.Swap2 => Some 1
  | AVMOpcode.Tget => Some 2
  | AVMOpcode.Tset => Some 40
  | AVMOpcode.Tlen => Some 2
  | AVMOpcode.Xget => Some 3
  | AVMOpcode.Xset => Some 41
  | AVMOpcode.Breakpoint => Some 100
  | AVMOpcode.Log => Some 100
  | AVMOpcode.Send => Some 100
  | AVMOpcode.InboxPeek => Some 40
  | AVMOpcode.Inbox => Some 40
  | AVMOpcode.Error => Some 5
  | AVMOpcode.Halt => Some 10
  | AVMOpcode.ErrCodePoint => Some 25
  | AVMOpcode.PushInsn => Some 25
  | AVMOpcode.PushInsnImm => Some 25
  | AVMOpcode.OpenInsn => Some 25
  | AVMOpcode.DebugPrint => Some 1
  | AVMOpcode.PushGas => Some 1
  | AVMOpcode.SetGas => Some 1
  | AVMOpcode.EcRecover => Some 20000
  | AVMOpcode.EcAdd => Some 3500
  | AVMOpcode.EcMul => Some 82000
  | AVMOpcode.EcPairing => Some (gas_for_pairing m)
  | AVMOpcode.Sideload => Some 10
  | AVMOpcode.NewBuffer => Some 1
  | AVMOpcode.GetBuffer8 => Some 10
  | AVMOpcode.GetBuffer64 => Some 10
  | AVMOpcode.GetBuffer256 => Some 10
  | AVMOpcode.SetBuffer8 => Some 100
  | AVMOpcode.SetBuffer64 => Some 100
  | AVMOpcode.SetBuffer256 => Some 100
  end%Z.

Definition next_op_gas (m : Machine) : option (option Z) :=
  match state m with
  | Running pc =>
      o ← CodeStore.get_insn (code m) pc;
      match o with
      | Some insn => Some <$> opcode_gas m (Instruction.opcode insn)
      | None => Some None
      end
  | _ => Some None
  end.

(** ** One instruction *)

Definition exec (op : AVMOpcode.t) (gas_remaining_before : Z) (has_immediate : bool) : M bool :=
  match op with
  | AVMOpcode.Noop => op_Noop
  | AVMOpcode.Zero | AVMOpcode.Error => op_Zero
  | AVMOpcode.Jump => op_Jump
  | AVMOpcode.Cjump => op_Cjump
  | AVMOpcode.PCpush => op_PCpush
  | AVMOpcode.Rpush => op_Rpush
  | AVMOpcode.Rset => op_Rset
  | AVMOpcode.Spush => op_Spush
  | AVMOpcode.Tset => op_Tset
  | AVMOpcode.Tget => op_Tget
  | AVMOpcode.Tlen => op_Tlen
  | AVMOpcode.Pop => op_Pop
  | AVMOpcode.StackEmpty => op_StackEmpty
  | AVMOpcode.AuxPush => op_AuxPush
  | AVMOpcode.AuxPop => op_AuxPop
  | AVMOpcode.AuxStackEmpty => op_AuxStackEmpty
  | AVMOpcode.Xget => op_Xget
  | AVMOpcode.Xset => op_Xset
  | AVMOpcode.Dup0 => op_Dup0
  | AVMOpcode.Dup1 => op_Dup1
  | AVMOpcode.Dup2 => op_Dup2
  | AVMOpcode.Swap1 => op_Swap1
  | AVMOpcode.Swap2 => op_Swap2
  | AVMOpcode.IsZero => op_IsZero
  | AVMOpcode.BitwiseNeg => op_BitwiseNeg
  | AVMOpcode.Hash => op_Hash
  | AVMOpcode.Add => op_Add
  | AVMOpcode.Sub => op_Sub
  | AVMOpcode.Mul => op_Mul
  | AVMOpcode.Div => op_Div
  | AVMOpcode.Mod => op_Mod
  | AVMOpcode.Sdiv => op_Sdiv
  | AVMOpcode.Smod => op_Smod
  | AVMOpcode.AddMod => op_AddMod
  | AVMOpcode.MulMod => op_MulMod
  | AVMOpcode.Exp => op_Exp
  | AVMOpcode.SignExtend => op_SignExtend
  | AVMOpcode.LessThan => op_LessThan
  | AVMOpcode.GreaterThan => op_GreaterThan
  | AVMOpcode.SLessThan => op_SLessThan
  | AVMOpcode.SGreaterThan => op_SGreaterThan
  | AVMOpcode.Equal => op_Equal
  | AVMOpcode.Type_ => op_Type
  | AVMOpcode.BitwiseAnd => op_BitwiseAnd
  | AVMOpcode.BitwiseOr => op_BitwiseOr
  | AVMOpcode.BitwiseXor => op_BitwiseXor
  | AVMOpcode.Byte => op_Byte
  | AVMOpcode.ShiftLeft => op_ShiftLeft
  | AVMOpcode.ShiftRight => op_ShiftRight
  | AVMOpcode.ShiftArith => op_ShiftArith
  | AVMOpcode.EthHash2 => op_EthHash2
  | AVMOpcode.Keccakf => op_Keccakf
  | AVMOpcode.Sha256f => op_Sha256f
  | AVMOpcode.Ripemd160f => op_Ripemd160f
  | AVMOpcode.Blake2f => op_Blake2f
  | AVMOpcode.Inbox => op_Inbox gas_remaining_before has_immediate
  | AVMOpcode.InboxPeek => op_InboxPeek gas_remaining_before
  | AVMOpcode.ErrCodePoint => op_ErrCodePoint
  | AVMOpcode.Send => op_Send
  | AVMOpcode.Log => op_Log
  | AVMOpcode.ErrSet => op_ErrSet
  | AVMOpcode.ErrPush => op_ErrPush
  | AVMOpcode.PushInsn => op_PushInsn
  | AVMOpcode.PushInsnImm => op_PushInsnImm
  | AVMOpcode.OpenInsn => op_OpenInsn
  | AVMOpcode.Breakpoint => op_Breakpoint
  | AVMOpcode.Halt => op_Halt
  | AVMOpcode.DebugPrint => op_DebugPrint
  | AVMOpcode.PushGas => op_PushGas
  | AVMOpcode.SetGas => op_SetGas
  | AVMOpcode.Sideload => op_Sideload
  | AVMOpcode.EcRecover => op_EcRecover
  | AVMOpcode.EcAdd => op_EcAdd
  | AVMOpcode.EcMul => op_EcMul
  | AVMOpcode.EcPairing => op_EcPairing
  | AVMOpcode.NewBuffer => op_NewBuffer
  | AVMOpcode.GetBuffer8 => op_GetBuffer8
  | AVMOpcode.GetBuffer64 => op_GetBuffer64
  | AVMOpcode.GetBuffer256 => op_GetBuffer256
  | AVMOpcode.SetBuffer8 => op_SetBuffer8
  | AVMOpcode.SetBuffer64 => op_SetBuffer64
  | AVMOpcode.SetBuffer256 => op_SetBuffer256
  end.

(** The charge for the instruction at the program counter: its gas is taken
    from the remaining gas and added to the total; the result is the gas that
    remained before. *)
Definition charge_gas : M Z :=
  g ← get next_op_gas;
  og ← must g;
  gas_remaining_before ← get arb_gas_remaining;
  match og with
  | Some gas =>
      let gas256 := Uint256.from_u64 gas in
      match Uint256.sub gas_remaining_before gas256 with
      | Some remaining =>
          upd (λ m, set_total (set_gas m remaining) (Uint256.add (total_gas_usage m) gas256));;
          mret gas_remaining_before
      | None =>
          upd (λ m, set_gas m Uint256.max_uint);;
          fail "Out of ArbGas" None
      end
  | None => mret gas_remaining_before
  end.

Definition run_one_dont_catch_errors : M bool :=
  s ← get state;
  match s with
  | Running pc =>
      c ← get code;
      o ← must (CodeStore.get_insn c pc);
      match o with
      | Some insn =>
          match Instruction.immediate insn with
          | Some val => push val
          | None => mret ()
          end;;
          gas_remaining_before ← charge_gas;
          exec (Instruction.opcode insn) gas_remaining_before
               (bool_decide (is_Some (Instruction.immediate insn)))
      | None => fail "invalid program counter" None
      end
  | _ => fail "tried to run machine that is not runnable" None
  end.

Definition run_one (m : Machine) : outcome ExecutionError bool * Machine :=
  match run_one_dont_catch_errors m with
  | (Ok b, m) => (Ok b, m)
  | (Err e, m) =>
      if bool_decide (err_codepoint m = CodePt.Null) then (Err e, m)
      else (Ok true, set_state m (Running (err_codepoint m)))
  | (Panic, m) => (Panic, m)
  end.

(** ** The run loop *)

Definition at_stop (stop_pc : option CodePt.t) (m : Machine) : bool :=
  match stop_pc, state m with
  | Some spc, Running pc => bool_decide (pc = spc)
  | _, _ => false
  end.

Fixpoint run_loop (fuel : nat) (stop_pc : option CodePt.t) (gas_used : Z) (m : Machine)
    : option (option (Z * Machine)) :=
  match fuel with
  | O => None
  | S fuel =>
      if negb (is_running (state m)) then Some (Some (gas_used, m))
      else if at_stop stop_pc m then Some (Some (gas_used, m))
      else
        match next_op_gas m with
        | None => Some None
        | Some og =>
            let gas_used := match og with Some gas => wrapping_add 64 gas_used gas | None => gas_used end in
            let gas_this_instruction := default 1%Z og in
            match run_one m with
            | (Ok true, m) => run_loop fuel stop_pc gas_used m
            | (Ok false, m) =>
                match Uint256.sub (total_gas_usage m) (Uint256.from_u64 gas_this_instruction) with
                | Some total =>
                    Some (Some (wrapping_add 64 gas_used (- gas_this_instruction), set_total m total))
                | None => Some None
                end
            | (Err e, m) => Some (Some (gas_used, set_state m (Error e)))
            | (Panic, _) => Some None
            end
        end
  end.

Definition run (fuel : nat) (stop_pc : option CodePt.t) (m : Machine) : option (option (Z * Machine)) :=
  run_loop fuel stop_pc 0 m.

(** [test_call] without the debugger; the printing is not modelled. *)
Definition test_call (fuel : nat) (m : Machine) (func_addr : CodePt.t) (args : list Value.t)
    : option (option (outcome ExecutionError ValueStack.t * Machine)) :=
  match call_state m func_addr args with
  | None => Some None
  | Some (stop_pc, m) =>
      match run fuel (Some stop_pc) m with
      | None => None
      | Some None => Some None
      | Some (Some (cost, m)) =>
          Some (Some (match state m with
                      | Stopped => Err (ExecutionError_new "execution stopped" (state m) None)
                      | Error e => Err e
                      | Running _ => Ok (stack m)
                      end, m))
      end
  end.

End emulator.
