(* ===== verification/Profiler.v ===== *)
(** * The profiler (src/src/run/emulator.rs: ProfilerData, profile_gen)

    A profile records the gas used at each source location, and for each
    function, identified by the code point at which it is entered, the events at
    which control came to it or left it.  An event that leaves a function names
    the event that enters the next one by its position.  [profile_gen] runs the
    machine and builds the profile; [session_report] is what [profiler_session]
    computes and prints; [menu] and [examine] are its dialogue.

    The stack of functions has its top first.  The machine's [file_info_chart] is
    an argument.  Printed texts are values of [FuncReport], [SessionReport] and
    [Output].  Standard input is the list of its lines, and at its end
    [read_line] gives the empty line again and again, as the operating system
    does. *)

From Stdlib Require Import ZArith Lia Ascii.
From stdpp Require Import sorting.
From S2P Require Import Prelude U256 Pos Opcodes Crypto BufferTree Values RuntimeEnv Machine Insns Emulator.

(** ** Keys of maps *)

#[global] Program Instance CodePt_countable : Countable CodePt.t :=
  inj_countable'
    (λ c, match c with
          | CodePt.Internal n => inl (inl n) | CodePt.External n => inl (inr n)
          | CodePt.InSegment s n => inr (inl (s, n)) | CodePt.Null => inr (inr ()) end)
    (λ s, match s with
          | inl (inl n) => CodePt.Internal n | inl (inr n) => CodePt.External n
          | inr (inl (s, n)) => CodePt.InSegment s n | inr (inr _) => CodePt.Null end) _.
Next Obligation. by intros []. Qed.

(** The derived order of [CodePt]: variants in their order, then the fields. *)
Definition codept_key (c : CodePt.t) : nat * nat * nat :=
  match c with
  | CodePt.Internal n => (0, n, 0)
  | CodePt.External n => (1, n, 0)
  | CodePt.InSegment s n => (2, s, n)
  | CodePt.Null => (3, 0, 0)
  end.
Definition codept_le (c c' : CodePt.t) : bool :=
  let '(a, b, d) := codept_key c in
  let '(a', b', d') := codept_key c' in
  (a <? a') || ((a =? a') && ((b <? b') || ((b =? b') && (d <=? d')))).

(** The iteration over a [BTreeMap]: by increasing keys. *)
Definition key_le {K A} (le : K → K → bool) : relation (K * A) := λ x y, le x.1 y.1 = true.
#[global] Instance key_le_dec {K A} (le : K → K → bool) : RelDecision (@key_le K A le).
Proof. intros x y. unfold key_le. apply _. Defined.
Definition by_key {K A} (le : K → K → bool) (l : list (K * A)) : list (K * A) := merge_sort (key_le le) l.

Module Profiler.

(** ** Data *)
Inductive ProfilerEvent :=
| EnterFunc (gas : Z)
| CallFunc (func : CodePt.t) (index : nat)
| Return (func : CodePt.t) (index : nat).

Record FileInfo := mkFileInfo { name : string; path : string; contents : list string }.

Abbreviation Chart := (gmap Z FileInfo).
Abbreviation Events := (list ProfilerEvent * option Location.t)%type.

Record ProfilerData := mkProfilerData {
  data : gmap string (gmap (Z * Z) Z);
  stack_tree : gmap CodePt.t Events;
  unknown_gas : Z;
  file_info_chart : Chart;
}.

Inductive ProfilerMode := Never | PostBoot | Always.

#[global] Instance ProfilerMode_eq_dec : EqDecision ProfilerMode.
Proof. solve_decision. Defined.

(** [to_lowercase]; no character outside ASCII becomes a letter of the names
    below. *)
Definition lower (a : ascii) : ascii :=
  let n := nat_of_ascii a in if (65 <=? n) && (n <=? 90) then ascii_of_nat (n + 32) else a.
Fixpoint to_lowercase (s : string) : string :=
  match s with
  | EmptyString => EmptyString
  | String a s => String (lower a) (to_lowercase s)
  end.

Definition mode_from_str (s : string) : outcome string ProfilerMode :=
  let s := to_lowercase s in
  if String.eqb s "never" then Ok Never
  else if String.eqb s "always" then Ok Always
  else if String.eqb s "post" then Ok PostBoot
  else Err "Invalid profiler mode".

Definition set_data (d : ProfilerData) (x : gmap string (gmap (Z * Z) Z)) : ProfilerData :=
  mkProfilerData x (stack_tree d) (unknown_gas d) (file_info_chart d).
Definition set_stack_tree (d : ProfilerData) (x : gmap CodePt.t Events) : ProfilerData :=
  mkProfilerData (data d) x (unknown_gas d) (file_info_chart d).
Definition set_unknown_gas (d : ProfilerData) (x : Z) : ProfilerData :=
  mkProfilerData (data d) (stack_tree d) x (file_info_chart d).

(** A mutable reference to a count: its value, and what a write does. *)
Definition get_mut (d : ProfilerData) (loc : option Location.t) (chart : Chart) : option (Z * (Z → ProfilerData)) :=
  match loc with
  | Some loc =>
      info ← chart !! Location.file_id loc;
      let filename := name info in
      tree ← data d !! filename;
      gas ← tree !! (Location.line loc, Location.column loc);
      Some (gas, λ g, set_data d (<[filename := <[(Location.line loc, Location.column loc) := g]> tree]> (data d)))
  | None => Some (unknown_gas d, set_unknown_gas d)
  end.

Definition insert (d : ProfilerData) (loc : option Location.t) (gas : Z) (chart : Chart) : option Z * ProfilerData :=
  match loc with
  | Some loc =>
      match chart !! Location.file_id loc with
      | None => (Some (unknown_gas d), set_unknown_gas d gas)
      | Some info =>
          let filename := name info in
          let btree := default ∅ (data d !! filename) in
          let key := (Location.line loc, Location.column loc) in
          (btree !! key, set_data d (<[filename := <[key := gas]> btree]> (data d)))
      end
  | None => (Some (unknown_gas d), set_unknown_gas d gas)
  end.

(** ** Building a profile *)

(** [*k -= 1] on a usize wraps around. *)
Definition wrapping_pred (k : nat) : nat :=
  match k with
  | O => Z.to_nat (two64 - 1)
  | S k => k
  end.

(** [func_info.push(event)]; a function that is not tracked is a panic. *)
Definition push_event (tree : gmap CodePt.t Events) (func : CodePt.t) (e : ProfilerEvent) : option (gmap CodePt.t Events) :=
  '(info, loc) ← tree !! func;
  Some (<[func := (info ++ [e], loc)]> tree).

(** [Ordering::Less]: a function has returned. *)
Definition leave_func (tree : gmap CodePt.t Events) (total_gas : Z) (stack : list CodePt.t) (current : CodePt.t)
    : option (gmap CodePt.t Events * list CodePt.t * CodePt.t) :=
  let stack := tail stack in
  let caller := default (CodePt.new_internal 0) (head stack) in
  let next_len := match tree !! caller with Some (info, _) => length info | None => 0 end in
  let next_len := if bool_decide (caller = current) then next_len + 1 else next_len in
  tree ← push_event tree current (Return caller next_len);
  tree ← push_event tree caller (EnterFunc total_gas);
  Some (tree, stack, caller).

(** The entry of a called function: the instruction before the first one that
    runs with the return address on the auxiliary stack. *)
Definition entered (m : Machine) : CodePt.t :=
  match get_pc m with
  | Ok (CodePt.Internal k) => CodePt.Internal (wrapping_pred k)
  | Ok cp => cp
  | _ => CodePt.Internal (wrapping_pred 0)
  end.

(** [Ordering::Greater]: a function has been called. *)
Definition enter_func (m : Machine) (tree : gmap CodePt.t Events) (total_gas : Z) (stack : list CodePt.t)
    (current : CodePt.t) : option (gmap CodePt.t Events * list CodePt.t * CodePt.t) :=
  let next_codepoint := entered m in
  '(tree, next_len) ←
    match tree !! next_codepoint with
    | Some (next_info, _) =>
        Some (tree, if bool_decide (next_codepoint = current) then length next_info + 1 else length next_info)
    | None =>
        o ← CodeStore.get_insn (code m) next_codepoint;
        let loc := insn ← o; location (Instruction.debug_info insn) in
        Some (<[next_codepoint := ([], loc)]> tree, 0)
    end;
  tree ← push_event tree current (CallFunc next_codepoint next_len);
  tree ← push_event tree next_codepoint (EnterFunc total_gas);
  Some (tree, next_codepoint :: stack, next_codepoint).

(** The variables of the loop of [profile_gen]. *)
Record Profile := mkProfile {
  loc_map : ProfilerData;
  total_gas : Z;
  stack_len : nat;
  func_stack : list CodePt.t;
  current_codepoint : CodePt.t;
}.

Section run.
Context `{Crypto, Curve}.
Variable chart : Chart.

Definition add_gas (d : ProfilerData) (loc : option Location.t) (gas : Z) : ProfilerData :=
  match get_mut d loc chart with
  | Some (gas_cost, write) => write (wrapping_add 64 gas_cost gas)
  | None => snd (insert d loc gas chart)
  end.

Definition gen_step (m : Machine) (insn : CodeStore.insn) (p : Profile) : option Profile :=
  let loc := location (Instruction.debug_info insn) in
  og ← next_op_gas m;
  let gas := default 0%Z og in
  let d := add_gas (loc_map p) loc gas in
  let total := wrapping_add 64 (total_gas p) gas in
  let alt_stack := get_stack_trace m in
  '(tree, stack, current) ←
    match Nat.compare (stack_len p) (length (func_stack p)) with
    | Lt => leave_func (stack_tree d) total (func_stack p) (current_codepoint p)
    | Eq => Some (stack_tree d, func_stack p, current_codepoint p)
    | Datatypes.Gt => enter_func m (stack_tree d) total (func_stack p) (current_codepoint p)
    end;
  Some (mkProfile (set_stack_tree d tree) total (length alt_stack) stack current).

(** The outer [None] is lack of fuel, the inner one a panic. *)
Fixpoint profile_loop (fuel : nat) (profile_enabled : bool) (p : Profile) (m : Machine)
    : option (option (Profile * Machine)) :=
  match fuel with
  | O => None
  | S fuel =>
      match next_opcode m with
      | None => Some None
      | Some None => Some (Some (p, m))
      | Some (Some insn) =>
          let profile_enabled := bool_decide (Instruction.opcode insn = AVMOpcode.Inbox) || profile_enabled in
          match (if profile_enabled then gen_step m insn p else Some p) with
          | None => Some None
          | Some p =>
              match run_one m with
              | (Ok true, m) => profile_loop fuel profile_enabled p m
              | (Ok false, m) => Some (Some (p, m))
              | (Err e, m) => Some (Some (p, set_state m (Error e)))
              | (Panic, _) => Some None
              end
          end
      end
  end.

Definition start_profile (loc : option Location.t) : Profile :=
  mkProfile (mkProfilerData ∅ {[ CodePt.new_internal 0 := ([EnterFunc 0], loc) ]} 0 chart) 0 0 [] (CodePt.new_internal 0).

Definition profile_gen (fuel : nat) (m : Machine) (args : list Value.t) (mode : ProfilerMode)
    : option (option (ProfilerData * Machine)) :=
  if bool_decide (mode = Never) then Some None
  else
    match call_state m (CodePt.new_internal 0) args with
    | None => Some None
    | Some (_, m) =>
        match CodeStore.get_insn (code m) (CodePt.new_internal 0) with
        | None => Some None
        | Some o =>
            let loc := insn ← o; location (Instruction.debug_info insn) in
            match profile_loop fuel (bool_decide (mode = Always)) (start_profile loc) m with
            | None => None
            | Some None => Some None
            | Some (Some (p, m)) => Some (Some (loc_map p, m))
            end
        end
    end.
End run.

(** ** The report *)

(** Gas by function. *)
Abbreviation Costs := (gmap CodePt.t (Z * option Location.t)).

(** The variables of the loop over the events of a function. *)
Record Tally := mkTally {
  in_func : bool;
  start_point : Z;
  in_callstack : bool;
  call_start : Z;
  current_call : option (CodePt.t * (Z * option Location.t));
  called : Costs;
  in_func_gas : Z;
  callers : Costs;
}.
Definition tally0 : Tally := mkTally false 0 false 0 None ∅ 0 ∅.

Definition sub64 (x y : Z) : Z := wrapping_add 64 x (- y).

(** Adding to the entry of a function, or a new entry. *)
Definition add_cost (c : Costs) (func : CodePt.t) (gas : Z) (loc : option Location.t) : Costs :=
  match c !! func with
  | Some (g, l) => <[func := (wrapping_add 64 g gas, l)]> c
  | None => <[func := (gas, loc)]> c
  end.

(** The gas at the event a call or return is linked with; every other link is a
    panic. *)
Definition linked_gas (tree : gmap CodePt.t Events) (func : CodePt.t) (index : nat) : option Z :=
  '(funcy, _) ← tree !! func;
  match funcy !! index with
  | Some (EnterFunc x) => Some x
  | _ => None
  end.
Definition func_location (tree : gmap CodePt.t Events) (func : CodePt.t) : option Location.t :=
  '(_, loc) ← tree !! func; loc.

Definition handle_event (tree : gmap CodePt.t Events) (event : ProfilerEvent) (t : Tally) : option Tally :=
  match event with
  | EnterFunc x =>
      if in_func t then None
      else
        let call_start := if in_callstack t then call_start t else x in
        let called :=
          match current_call t with
          | Some (func, (start, loc)) => add_cost (called t) func (sub64 x start) loc
          | None => called t
          end in
        Some (mkTally true x true call_start None called (in_func_gas t) (callers t))
  | CallFunc x y =>
      if in_func t then
        end_point ← linked_gas tree x y;
        Some (mkTally false (start_point t) (in_callstack t) (call_start t)
                (Some (x, (end_point, func_location tree x))) (called t)
                (wrapping_add 64 (in_func_gas t) (sub64 end_point (start_point t))) (callers t))
      else Some t
  | Return x y =>
      if in_func t then
        end_point ← linked_gas tree x y;
        Some (mkTally false (start_point t) false (call_start t) (current_call t) (called t)
                (wrapping_add 64 (in_func_gas t) (sub64 end_point (start_point t)))
                (add_cost (callers t) x (sub64 end_point (call_start t)) (func_location tree x)))
      else Some t
  end.

Fixpoint handle_events (tree : gmap CodePt.t Events) (events : list ProfilerEvent) (t : Tally) : option Tally :=
  match events with
  | [] => Some t
  | e :: events => t ← handle_event tree e t; handle_events tree events t
  end.

(** [.sum::<u64>()] *)
Definition sum64 (l : list Z) : Z := foldl (wrapping_add 64) 0%Z l.

(** The costs by gas, largest first, in which the last of several functions with
    the same gas stays. *)
Definition costs_by_gas (c : Costs) : list (Z * (CodePt.t * option Location.t)) :=
  let m : gmap Z (CodePt.t * option Location.t) :=
    foldl (λ m '(cpt, (gas, loc)), <[gas := (cpt, loc)]> m) ∅ (by_key codept_le (map_to_list c)) in
  reverse (by_key Z.leb (map_to_list m)).

Record FuncReport := mkFuncReport {
  fr_func : CodePt.t;
  fr_location : option Location.t;
  fr_gas : Z;
  fr_callers : list (Z * (CodePt.t * option Location.t));
  fr_called : list (Z * (CodePt.t * option Location.t));
  fr_invariant_fails : option (Z * Z);
}.
Record SessionReport := mkSessionReport {
  sr_funcs : list FuncReport;
  sr_files : list (string * Z);
  sr_unknown : Z;
  sr_total : Z;
}.

Definition func_report (func : CodePt.t) (loc : option Location.t) (t : Tally) : FuncReport :=
  let callers := costs_by_gas (callers t) in
  let total_callers := sum64 callers.*1 in
  let called := costs_by_gas (called t) in
  let total_called := sum64 called.*1 in
  let own := wrapping_add 64 total_called (in_func_gas t) in
  mkFuncReport func loc (in_func_gas t) callers called
    (if (total_callers =? own)%Z then None else Some (total_callers, own)).

(** The functions by gas, largest first; of several with the same gas the last
    one stays. *)
Definition formatted_data (tree : gmap CodePt.t Events) : option (list (Z * (Tally * CodePt.t * option Location.t))) :=
  m ← foldl
        (λ (acc : option (gmap Z (Tally * CodePt.t * option Location.t))) '(func, (events, loc)),
           m ← acc;
           t ← handle_events tree events tally0;
           Some (<[in_func_gas t := (t, func, loc)]> m))
        (Some ∅) (map_to_list tree);
  Some (reverse (by_key Z.leb (map_to_list m))).

Definition file_gas_costs (d : ProfilerData) : list (string * Z) :=
  (λ '(name, tree), (name, sum64 (map_to_list (tree : gmap (Z * Z) Z)).*2)) <$> map_to_list (data d).

(** What [profiler_session] prints before its dialogue; [None] is a panic. *)
Definition session_report (d : ProfilerData) : option SessionReport :=
  fd ← formatted_data (stack_tree d);
  let costs := file_gas_costs d in
  Some (mkSessionReport ((λ '(_, (t, func, loc)), func_report func loc t) <$> fd) costs (unknown_gas d)
          (wrapping_add 64 (foldl (wrapping_add 64) 0%Z costs.*2) (unknown_gas d))).

(** ** The dialogue *)
Inductive Output :=
| AreaCost (gas : Z)
| Message (text : string).

Inductive ProfilerAction := Exit | Change.

(** The lines typed, and those printed, the last one first. *)
Definition Console : Type := list string * list Output.
Definition read_line (c : Console) : string * Console :=
  match c with
  | (l :: input, out) => (l, (input, out))
  | ([], out) => (EmptyString, c)
  end.
Definition println (o : Output) (c : Console) : Console := (c.1, o :: c.2).

(** [trim_end] and [parse::<usize>] on ASCII texts. *)
Definition is_whitespace (a : ascii) : bool :=
  let n := nat_of_ascii a in (n =? 32) || ((9 <=? n) && (n <=? 13)).
Fixpoint trim_end (s : string) : string :=
  match s with
  | EmptyString => EmptyString
  | String a s =>
      match trim_end s with
      | EmptyString => if is_whitespace a then EmptyString else String a EmptyString
      | s => String a s
      end
  end.
Fixpoint parse_digits (limit : Z) (s : string) (acc : Z) : option Z :=
  match s with
  | EmptyString => Some acc
  | String a s =>
      let n := Z.of_nat (nat_of_ascii a) in
      if ((48 <=? n) && (n <=? 57))%Z then
        let acc := (acc * 10 + (n - 48))%Z in
        if (acc <? limit)%Z then parse_digits limit s acc else None
      else None
  end.
(** An unsigned integer below [limit], with an optional sign. *)
Definition parse_uint (limit : Z) (s : string) : option Z :=
  match s with
  | EmptyString => None
  | String "+" EmptyString => None
  | String "+" s => parse_digits limit s 0
  | s => parse_digits limit s 0
  end.
Definition parse_usize : string → option Z := parse_uint two64.

(** The gas of the rows from [start_row] to [end_row]. *)
Definition in_rows (start_row end_row : Z) (key : Z * Z) : bool :=
  let from := (Z.max start_row 1 - 1)%Z in
  (((from <? key.1) || ((from =? key.1) && (0 <=? key.2))) &&
   ((key.1 <? end_row) || ((key.1 =? end_row) && (key.2 <? 0))))%Z.
Definition area_cost (tree : gmap (Z * Z) Z) (start_row end_row : Z) : Z :=
  sum64 (filter (λ kv : (Z * Z) * Z, in_rows start_row end_row kv.1 = true) (map_to_list tree)).*2.

(** One round of the inner loop of [menu]; [true] leaves it. *)
Definition examine_once (tree : gmap (Z * Z) Z) (c : Console) : bool * Console :=
  let '(command, c) := read_line c in
  if String.eqb (trim_end command) "change" then (true, c)
  else
    match parse_usize (trim_end command) with
    | None => (false, println (Message "Invalid line number") c)
    | Some start_row =>
        let '(command, c) := read_line c in
        match parse_usize (trim_end command) with
        | None => (false, println (Message "Invalid line number") c)
        | Some end_row =>
            if (end_row <? start_row)%Z then (false, println (Message "Invalid range") c)
            else (false, println (AreaCost (area_cost tree start_row end_row)) c)
        end
    end.

(** [None] is lack of fuel. *)
Fixpoint examine (fuel : nat) (tree : gmap (Z * Z) Z) (c : Console) : option Console :=
  match fuel with
  | O => None
  | S fuel => let '(leave, c) := examine_once tree c in if leave then Some c else examine fuel tree c
  end.

Definition file_not_found (file : string) : string :=
  "Could not find file " +:+ String (ascii_of_nat 34) (file +:+ String (ascii_of_nat 34) EmptyString).

Definition menu (fuel : nat) (d : ProfilerData) (command : string) (c : Console)
    : option (outcome string ProfilerAction * Console) :=
  let trimmed_command := trim_end command in
  if String.eqb "exit" trimmed_command then Some (Ok Exit, c)
  else
    match data d !! trimmed_command with
    | Some tree => c ← examine fuel tree c; Some (Ok Change, c)
    | None => Some (Err (file_not_found trimmed_command), c)
    end.

Fixpoint session_loop (fuel : nat) (d : ProfilerData) (c : Console) : option Console :=
  match fuel with
  | O => None
  | S fuel =>
      let c := println (Message "Enter file to examine") c in
      let '(command, c) := read_line c in
      '(r, c) ← menu fuel d command c;
      match r with
      | Ok Exit => Some c
      | Ok Change => session_loop fuel d c
      | Err message => session_loop fuel d (println (Message message) c)
      | Panic => None
      end
  end.

(** The outer [None] is lack of fuel, the inner one a panic. *)
Definition profiler_session (fuel : nat) (d : ProfilerData) (input : list string)
    : option (option (SessionReport * list Output)) :=
  match session_report d with
  | None => Some None
  | Some r =>
      match session_loop fuel d (input, []) with
      | None => None
      | Some (_, out) => Some (Some (r, reverse out))
      end
  end.

End Profiler.
