(* ===== verification/Debugger.v ===== *)
(** * The debugger and the trace (src/src/run/emulator.rs: debug, run)

    [debug] runs the machine under the control of commands from standard input,
    which is the list of its lines.  Its printing is not modelled, so the
    switches for what is printed have no effect but on themselves.  At the end of
    the input every line read is empty and the prompt is repeated forever, which
    is [None] in [prompt] and [read_number].

    [debug_transparent]: whatever is typed, the machine goes the way [run] takes
    it.  [trace_entry] is the line that [run] writes for an instruction to the
    trace file. *)

From Stdlib Require Import ZArith Lia Ascii.
From S2P Require Import Prelude U256 Pos Opcodes Crypto BufferTree Values RuntimeEnv Machine Insns Emulator Profiler.

Fixpoint trim_start (s : string) : string :=
  match s with
  | EmptyString => EmptyString
  | String a s' => if Profiler.is_whitespace a then trim_start s' else s
  end.
Definition trim_both (s : string) : string := Profiler.trim_end (trim_start s).

Record Debugger := mkDebugger {
  at_breakpoint : bool;
  break_line : Z;
  break_gas_amount : Z;
  show_aux : bool;
  show_reg : bool;
}.
Definition debugger0 : Debugger := mkDebugger true 0 0 true true.

Definition set_breakpoint (d : Debugger) (b : bool) : Debugger :=
  mkDebugger b (break_line d) (break_gas_amount d) (show_aux d) (show_reg d).

Definition line_feed : string := String (ascii_of_nat 10) EmptyString.

(** Lines are read until one is a number. *)
Fixpoint read_number (limit : Z) (input : list string) : option (Z * list string) :=
  match input with
  | [] => None
  | l :: input =>
      match Profiler.parse_uint limit (trim_both l) with
      | Some val => Some (val, input)
      | None => read_number limit input
      end
  end.

(** The prompt: commands are read until one resumes the program.  [n] bounds the
    number of commands; the length of the input is enough. *)
Fixpoint prompt (n : nat) (d : Debugger) (input : list string) : option (Debugger * list string) :=
  match n, input with
  | S n, l :: input =>
      if bool_decide (l = line_feed) || bool_decide (l = "step" +:+ line_feed) then Some (d, input)
      else if bool_decide (l = "set break" +:+ line_feed) then
        '(val, input) ← read_number (2 ^ 32) input;
        Some (mkDebugger false val (break_gas_amount d) (show_aux d) (show_reg d), input)
      else if bool_decide (l = "break at gas" +:+ line_feed) then
        '(val, input) ← read_number two64 input;
        Some (mkDebugger false (break_line d) val (show_aux d) (show_reg d), input)
      else if bool_decide (l = "r" +:+ line_feed) || bool_decide (l = "run" +:+ line_feed) then
        Some (set_breakpoint d false, input)
      else if bool_decide (l = "toggle aux" +:+ line_feed) then
        prompt n (mkDebugger (at_breakpoint d) (break_line d) (break_gas_amount d) (negb (show_aux d)) (show_reg d)) input
      else if bool_decide (l = "toggle reg" +:+ line_feed) then
        prompt n (mkDebugger (at_breakpoint d) (break_line d) (break_gas_amount d) (show_aux d) (negb (show_reg d))) input
      else prompt n d input
  | _, _ => None
  end.

(** Whether the next instruction is one to stop at; [None] for a panic. *)
Definition breaks (m : Machine) (d : Debugger) : option bool :=
  if at_breakpoint d then Some true
  else
    o ← next_opcode m;
    let at_insn :=
      match o with
      | Some insn =>
          breakpoint (attributes (Instruction.debug_info insn)) ||
          match location (Instruction.debug_info insn) with
          | Some location => (Location.line location =? break_line d)%Z
          | None => false
          end
      | None => false
      end in
    Some (at_insn ||
          ((Uint256.from_u64 (break_gas_amount d) <? total_gas_usage m) && (0 <? break_gas_amount d))%Z).

Section debugger.
Context `{HC : Crypto, HV : Curve}.

(** The outer [None] is lack of fuel or of input, the inner one a panic. *)
Fixpoint debug_loop (fuel : nat) (stop_pc : option CodePt.t) (gas_cost : Z) (d : Debugger) (input : list string) (m : Machine)
    : option (option (Z * Machine * list string)) :=
  match fuel with
  | O => None
  | S fuel =>
      if negb (is_running (state m)) then Some (Some (gas_cost, m, input))
      else
        match next_op_gas m, breaks m d with
        | Some og, Some b =>
            let gas_cost := match og with Some gas => wrapping_add 64 gas_cost gas | None => gas_cost end in
            let d := set_breakpoint d b in
            '(d, input) ← (if b then prompt (length input) d input else Some (d, input));
            if at_stop stop_pc m then Some (Some (gas_cost, m, input))
            else
              match run_one m with
              | (Ok true, m) => debug_loop fuel stop_pc gas_cost d input m
              | (Ok false, m) => Some (Some (gas_cost, m, input))
              | (Err e, m) => Some (Some (gas_cost, set_state m (Error e), input))
              | (Panic, _) => Some None
              end
        | _, _ => Some None
        end
  end.

Definition debug (fuel : nat) (stop_pc : option CodePt.t) (input : list string) (m : Machine)
    : option (option (Z * Machine * list string)) :=
  debug_loop fuel stop_pc 0 debugger0 input m.

(** ** The trace *)

(** Segment, position, opcode and the hashes of the integers on top of the stack;
    the outer [None] is a panic. *)
Definition trace_entry (m : Machine) : option (option (Z * Z * Z * list Z)) :=
  match get_pc m with
  | Ok codept =>
      res ←
        match codept with
        | CodePt.Internal pc =>
            insn ← (o ← CodeStore.get_insn (code m) codept; o);
            Some (Some (0%Z, Z.of_nat pc, AVMOpcode.to_number (Instruction.opcode insn)))
        | CodePt.InSegment seg_num rev_pc =>
            size ← CodeStore.segment_size (code m) seg_num;
            insn ← (o ← CodeStore.get_insn (code m) codept; o);
            Some (Some (Z.of_nat seg_num, wrapping_add 64 (Z.of_nat size - 1) (- Z.of_nat rev_pc),
                        AVMOpcode.to_number (Instruction.opcode insn)))
        | _ => Some None
        end;
      match res with
      | Some (seg_num, pc, opcode) =>
          let hash := λ o, match o with Some (Value.Int ui) => [Uint256.avm_hash keccak256 ui] | _ => [] end in
          Some (Some (seg_num, pc, opcode, hash (ValueStack.top (stack m)) ++ hash (ValueStack.nth (stack m) 1)))
      | None => Some None
      end
  | _ => Some None
  end.
End debugger.

(** ** What the debugger does to a run *)
Section transparent.
Context `{HC : Crypto, HV : Curve}.

(** The debugger only watches.  Whatever commands are typed, when it ends the
    machine is the one [run] ends with, but for the total gas, from which [run]
    takes back the price of an instruction that is blocked and [debug] does not. *)
Theorem debug_transparent fuel stop input m gas m' rest gas_run m_run :
  debug fuel stop input m = Some (Some (gas, m', rest)) → run fuel stop m = Some (Some (gas_run, m_run)) →
  set_total m' (total_gas_usage m_run) = m_run.
Proof.
  unfold debug, run. generalize 0%Z at 1 as g. generalize 0%Z as gr. generalize debugger0 as d. revert input m.
  induction fuel as [|fuel IH]; intros input m d gr g Hd Hr; [done|]. cbn [debug_loop run_loop] in *.
  destruct (negb (is_running (state m))); [injection Hd as _ <- _; injection Hr as _ <-; by destruct m|].
  destruct (next_op_gas m) as [og|]; [|done]. destruct (breaks m d) as [b|]; [|done].
  destruct (if b then _ else _) as [[d' input']|]; [|done]. cbn [mbind option_bind] in Hd.
  destruct (at_stop stop m); [injection Hd as _ <- _; injection Hr as _ <-; by destruct m|].
  destruct (run_one m) as [[[]|e|] m1]; [by eapply IH| | |done].
  - injection Hd as _ <- _. destruct (Uint256.sub _ _) as [total|]; [|done]. by injection Hr as _ <-.
  - injection Hd as _ <- _. injection Hr as _ <-. by destruct m1.
Qed.

(** A machine with a trace file panics where one without reports an error: at a
    program counter behind the code. *)
Theorem trace_panics_off_end m pc : state m = Running (CodePt.Internal pc) →
  CodeStore.get_insn (code m) (CodePt.Internal pc) = Some None →
  trace_entry m = None ∧ (run_one_dont_catch_errors m).1 = Err (RunningErr "invalid program counter" (CodePt.Internal pc) None).
Proof.
  intros Hs Hi. split.
  - unfold trace_entry, get_pc. rewrite Hs, Hi. done.
  - unfold run_one_dont_catch_errors, mbind, M_bind, get. rewrite Hs, Hi. cbn. unfold fail, ExecutionError_new. by rewrite Hs.
Qed.
End transparent.

(** The first line of a file is line 0 and so is the initial break line: [run]
    stops again at once on an instruction of the first line. *)
Theorem first_line_breaks m pc i loc d : state m = Running pc → CodeStore.get_insn (code m) pc = Some (Some i) →
  location (Instruction.debug_info i) = Some loc → Location.line loc = 0%Z →
  prompt 1 debugger0 [("run" +:+ line_feed)%string] = Some (d, []) → breaks m d = Some true.
Proof.
  intros Hs Hi Hl H0 Hp. vm_compute in Hp. injection Hp as <-. unfold breaks. cbn [at_breakpoint]. unfold next_opcode. rewrite Hs, Hi.
  cbn [mbind option_bind]. rewrite Hl. cbn [break_line]. rewrite H0. cbn. by rewrite orb_true_r.
Qed.
