(* ===== verification/EmulatorSafe.v ===== *)
(** * Type safety of the emulator

    A type system for the instruction monad: [typed c R] says that from a
    well-formed machine the computation [c] keeps the machine well-formed,
    whether it succeeds or fails, and that a result satisfies [R]; a panic is
    excluded unless the proposition [X] of the section allows it.  Every
    instruction is typed by the rules of its primitives; the theorems at the
    end state what this gives for [run_one]. *)

From Stdlib Require Import ZArith Lia.
From S2P Require Import Prelude U256 Pos Opcodes Crypto BufferTree Values Blake2b Ripemd160 RuntimeEnv Machine Insns InsnFacts Emulator.

(** The next instruction's address exists. *)
Definition advances (s : MachineState) : Prop :=
  match s with
  | Running pc => is_Some (CodePt.incr pc)
  | _ => False
  end.

Section typing.
Context `{HC : Crypto, !CryptoOk, HV : Curve, !CurveOk}.

Definition insn_wf (i : CodeStore.insn) : Prop :=
  match Instruction.immediate i with
  | Some v => Value.wf v
  | None => True
  end.

(** Well-formed machines: every value in reach is well-formed (256-bit
    integers, consistent buffers, no labels), and there is a runtime segment. *)
Record wf_machine (m : Machine) : Prop := {
  wf_stack : Forall Value.wf (stack m);
  wf_aux : Forall Value.wf (aux_stack m);
  wf_code : Forall (Forall insn_wf) (code m);
  wf_runtime : is_Some (code m !! 0);
  wf_static : Value.wf (static_val m);
  wf_register : Value.wf (register m);
  wf_gas : Uint256.wf (arb_gas_remaining m);
  wf_total : Uint256.wf (total_gas_usage m);
  wf_inbox : Forall Value.wf (RuntimeEnvironment.l1_inbox (runtime_env m));
}.

Context (X : Prop).

Definition inv (m : Machine) : Prop := wf_machine m ∧ (X ∨ advances (state m)).

Definition wp {A} (c : M A) (Q : A → Machine → Prop) (m : Machine) : Prop :=
  match c m with
  | (Ok a, m') => Q a m'
  | (Err _, m') => wf_machine m'
  | (Panic, _) => X
  end.

(** [typed]: the program counter is still there; [typed_end]: it may have
    moved, the machine stays well-formed. *)
Definition typed {A} (c : M A) (R : A → Prop) : Prop :=
  ∀ m, inv m → wp c (λ a m', R a ∧ inv m') m.
Definition typed_end {A} (c : M A) : Prop := ∀ m, inv m → wp c (λ _ m', wf_machine m') m.

Lemma typed_bind {A B} (c : M A) (f : A → M B) R S :
  typed c R → (∀ a, R a → typed (f a) S) → typed (c ≫= f) S.
Proof.
  intros Hc Hf m Hm. specialize (Hc m Hm). unfold wp, mbind, M_bind in *.
  destruct (c m) as [[a|e|] m']; [|done|done]. destruct Hc. by apply Hf.
Qed.

Lemma typed_end_bind {A B} (c : M A) (f : A → M B) R :
  typed c R → (∀ a, R a → typed_end (f a)) → typed_end (c ≫= f).
Proof.
  intros Hc Hf m Hm. specialize (Hc m Hm). unfold wp, mbind, M_bind in *.
  destruct (c m) as [[a|e|] m']; [|done|done]. destruct Hc. by apply Hf.
Qed.

Lemma typed_end_ret {A} (a : A) : typed_end (mret a).
Proof. by intros m [Hm _]. Qed.

Lemma typed_fail {A} why val (R : A → Prop) : typed (fail why val) R.
Proof. by intros m [Hm _]. Qed.

Lemma typed_end_fail {A} why val : typed_end (fail (A := A) why val).
Proof. by intros m [Hm _]. Qed.

Lemma typed_must {A} (o : option A) (R : A → Prop) :
  (X ∨ is_Some o) → (∀ a, o = Some a → R a) → typed (must o) R.
Proof.
  intros Ho HR m Hm. destruct o as [a|]; [split; [by apply HR|done]|].
  by destruct Ho as [?|[? ?]].
Qed.

Lemma typed_get {A} (f : Machine → A) (R : A → Prop) :
  (∀ m, wf_machine m → R (f m)) → typed (get f) R.
Proof. intros Hf m Hm. split; [apply Hf, Hm|done]. Qed.

Lemma typed_upd f (R : unit → Prop) :
  (∀ m, wf_machine m → wf_machine (f m)) → (∀ m, state (f m) = state m) → R () → typed (upd f) R.
Proof.
  intros Hf Hs HR m [Hm Hp]. split; [done|]. split; [by apply Hf|]. by rewrite Hs.
Qed.

Lemma typed_end_upd f : (∀ m, wf_machine m → wf_machine (f m)) → typed_end (upd f).
Proof. intros Hf m [Hm _]. by apply Hf. Qed.

(** ** The primitives *)

Lemma typed_on_stack {A} (f : MachineState → ValueStack.t → outcome ExecutionError A * ValueStack.t)
    (R : A → Prop) :
  (∀ st s, Forall Value.wf s → Forall Value.wf (f st s).2 ∧
     match (f st s).1 with Ok a => R a | Err _ => True | Panic => False end) →
  typed (on_stack f) R.
Proof.
  intros Hf m [[] Hp]. specialize (Hf (state m) (stack m)). unfold wp, on_stack.
  destruct (f (state m) (stack m)) as [r s]; simpl in *. destruct Hf as [Hs Hr]; [done|].
  destruct r; [|by constructor|done]. split; [done|]. split; [by constructor|done].
Qed.

Lemma typed_on_aux {A} (f : MachineState → ValueStack.t → outcome ExecutionError A * ValueStack.t)
    (R : A → Prop) :
  (∀ st s, Forall Value.wf s → Forall Value.wf (f st s).2 ∧
     match (f st s).1 with Ok a => R a | Err _ => True | Panic => False end) →
  typed (on_aux f) R.
Proof.
  intros Hf m [[] Hp]. specialize (Hf (state m) (aux_stack m)). unfold wp, on_aux.
  destruct (f (state m) (aux_stack m)) as [r s]; simpl in *. destruct Hf as [Hs Hr]; [done|].
  destruct r; [|by constructor|done]. split; [done|]. split; [by constructor|done].
Qed.

Ltac pop_rule := intros st s Hs; destruct Hs as [|v s Hv Hs]; [done|]; split; [by destruct v|];
  destruct v; done.

Lemma typed_pop : typed pop Value.wf.
Proof. apply typed_on_stack. by intros st s [|v s' Hv Hs]. Qed.
Lemma typed_aux_pop : typed aux_pop Value.wf.
Proof. apply typed_on_aux. by intros st s [|v s' Hv Hs]. Qed.
Lemma typed_pop_uint : typed pop_uint Uint256.wf.
Proof. apply typed_on_stack. pop_rule. Qed.
Lemma typed_pop_codepoint : typed pop_codepoint (λ _, True).
Proof. apply typed_on_stack. pop_rule. Qed.
Lemma typed_pop_tuple : typed pop_tuple (λ l, Value.wf (Value.Tuple l)).
Proof.
  apply typed_on_stack. intros st s [|v s' Hv Hs]; [done|].
  split; destruct v; done.
Qed.
Lemma typed_aux_pop_tuple : typed aux_pop_tuple (λ l, Value.wf (Value.Tuple l)).
Proof.
  apply typed_on_aux. intros st s [|v s' Hv Hs]; [done|].
  split; destruct v; done.
Qed.
Lemma typed_pop_buffer : typed pop_buffer Buffer.ok.
Proof. apply typed_on_stack. pop_rule. Qed.
Lemma typed_pop_usize : typed pop_usize (λ n, 0 <= n < two64)%Z.
Proof.
  apply typed_on_stack. intros st s [|v s' Hv Hs]; [done|].
  unfold ValueStack.pop_usize, ValueStack.pop_uint, ValueStack.pop, Uint256.to_usize.
  destruct v as [i| | | |]; try done. destruct Hv as [??].
  destruct (Z.ltb_spec i two64); simpl; auto.
Qed.

Lemma typed_push v : Value.wf v → typed (push v) (λ _, True).
Proof.
  intros Hv. apply typed_upd; [|done|done]. intros m []. constructor; try done. by constructor.
Qed.
Lemma typed_aux_push v : Value.wf v → typed (aux_push v) (λ _, True).
Proof.
  intros Hv. apply typed_upd; [|done|done]. intros m []. constructor; try done. by constructor.
Qed.

Lemma typed_incr_pc : typed_end incr_pc.
Proof.
  intros m [Hm Hp]. unfold wp, incr_pc, advances in *.
  destruct (state m) as [|e|pc]; [by destruct Hp..|].
  destruct (CodePt.incr pc); [|destruct Hp as [?|[? ?]]; done]. destruct Hm. by constructor.
Qed.

Lemma typed_next : typed_end next.
Proof.
  intros m Hm. pose proof (typed_incr_pc m Hm) as Hi. unfold wp, next, mbind, M_bind in *.
  by destruct (incr_pc m) as [[[]|e|] m'].
Qed.

Lemma typed_end_seq_ret {A B} (c : M A) (b : B) : typed_end c → typed_end (c;; mret b).
Proof.
  intros Hc m Hm. specialize (Hc m Hm). unfold wp, mbind, M_bind in *.
  by destruct (c m) as [[a|e|] m'].
Qed.

Lemma typed_set_state s : typed_end (upd (λ m, set_state m s)).
Proof. apply typed_end_upd. by intros m []. Qed.
Lemma typed_set_register v : Value.wf v → typed (upd (λ m, set_register m v)) (λ _, True).
Proof. intros. apply typed_upd; [|done..]. by intros m []. Qed.
Lemma typed_set_err cp : typed (upd (λ m, set_err_codepoint m cp)) (λ _, True).
Proof. apply typed_upd; [|done..]. by intros m []. Qed.
Lemma typed_set_gas g : Uint256.wf g → typed (upd (λ m, set_gas m g)) (λ _, True).
Proof. intros. apply typed_upd; [|done..]. by intros m []. Qed.
Lemma typed_set_code c : Forall (Forall insn_wf) c → is_Some (c !! 0) →
  typed (upd (λ m, set_code m c)) (λ _, True).
Proof. intros. apply typed_upd; [|done..]. by intros m []. Qed.
Lemma typed_get_register : typed (get register) Value.wf.
Proof. apply typed_get. by intros m []. Qed.
Lemma typed_get_static : typed (get static_val) Value.wf.
Proof. apply typed_get. by intros m []. Qed.
Lemma typed_get_err : typed (get err_codepoint) (λ _, True).
Proof. by apply typed_get. Qed.
Lemma typed_get_gas : typed (get arb_gas_remaining) Uint256.wf.
Proof. apply typed_get. by intros m []. Qed.
Lemma typed_get_code : typed (get code) (λ c, Forall (Forall insn_wf) c ∧ is_Some (c !! 0)).
Proof. apply typed_get. by intros m []. Qed.
Lemma typed_get_bool (f : Machine → bool) : typed (get f) (λ _, True).
Proof. by apply typed_get. Qed.
Lemma typed_get_aux_top : typed (get (λ m, ValueStack.top (aux_stack m)))
  (λ o, ∀ v, o = Some v → Value.wf v).
Proof. apply typed_get. intros m [? Ha _ _ _ _ _ _ _] v Hv. destruct Ha; by simplify_eq/=. Qed.

Lemma typed_push_uint x : Uint256.wf x → typed (push_uint x) (λ _, True).
Proof. apply (typed_push (Value.Int x)). Qed.
Lemma typed_push_usize x : (0 <= x < two64)%Z → typed (push_usize x) (λ _, True).
Proof. intros. by apply typed_push_uint, Uint256.wf_small. Qed.
Lemma typed_push_bool b : typed (push_bool b) (λ _, True).
Proof. apply typed_push_uint. by destruct b. Qed.
Lemma typed_push_codepoint cp : typed (push_codepoint cp) (λ _, True).
Proof. by apply (typed_push (Value.CodePoint cp)). Qed.
Lemma typed_push_buffer b : Buffer.ok b → typed (push_buffer b) (λ _, True).
Proof. apply (typed_push (Value.Buffer b)). Qed.
Lemma typed_map_err {A} (r : outcome string A) (R : A → Prop) :
  r ≠ Panic → (∀ a, r = Ok a → R a) → typed (map_err r) R.
Proof.
  intros Hr HR. destruct r; [|apply typed_fail|done]. intros m Hm. split; [by apply HR|done].
Qed.
End typing.

Create HintDb typed.
#[export] Hint Resolve typed_pop typed_aux_pop typed_pop_uint typed_pop_codepoint typed_pop_tuple
  typed_aux_pop_tuple typed_pop_buffer typed_pop_usize typed_push typed_aux_push typed_push_uint
  typed_push_usize typed_push_bool typed_push_codepoint typed_push_buffer typed_next
  typed_end_fail typed_end_ret typed_end_seq_ret typed_incr_pc typed_set_state typed_set_register
  typed_set_err typed_set_gas typed_get_register typed_get_static typed_get_err typed_get_gas
  typed_get_code typed_get_bool typed_get_aux_top : typed.
#[export] Hint Resolve Uint256.wf_add Uint256.wf_mul Uint256.wf_mod Uint256.wf_bitwise_neg
  Uint256.wf_bitwise_or Uint256.wf_bitwise_xor Value.wf_none : typed.

(** One step of a typing derivation: a primitive from the hint database, or
    the rule for [bind] and the primitive in front. *)
Ltac typed_step :=
  lazymatch goal with
  | |- typed_end _ (_ ≫= _) =>
      first [ solve [eauto 2 with typed]
            | eapply typed_end_bind; [solve [eauto 3 with typed]|let Ha := fresh "Ha" in intros ? Ha; cbv beta in Ha] ]
  | |- typed_end _ _ => solve [eauto 2 with typed]
  end.
Ltac solve_typed := repeat typed_step.
(** The same with an explicit argument for the computation in front. *)
Tactic Notation "typed_by" tactic3(tac) :=
  eapply typed_end_bind; [solve [tac]|let Ha := fresh "Ha" in intros ? Ha; cbv beta in Ha; solve_typed].

Section ops.
Context `{HC : Crypto, !CryptoOk, HV : Curve, !CurveOk}.
Context (X : Prop).

Lemma wf_bit (b : bool) : (0 <= (if b then 1 else 0) < two64)%Z.
Proof. by destruct b. Qed.
Lemma wf_insert_z l i v :
  Value.wf (Value.Tuple l) → Value.wf v → Value.wf (Value.new_tuple (insert_z l i v)).
Proof.
  rewrite !Value.wf_tuple. intros [Hl Hf] Hv. unfold insert_z. case_match; [|done].
  rewrite length_insert. split; [done|by apply Forall_insert].
Qed.
Lemma wf_lookup_z l i v : Value.wf (Value.Tuple l) → lookup_z l i = Some v → Value.wf v.
Proof. unfold lookup_z. case_match; [|done]. by apply Value.wf_lookup. Qed.
Lemma wf_length l : Value.wf (Value.Tuple l) → (0 <= Z.of_nat (length l) < two64)%Z.
Proof. rewrite Value.wf_tuple. lia. Qed.
Hint Resolve wf_bit wf_insert_z wf_lookup_z wf_length : typed.

Lemma typed_PCpush : typed_end X op_PCpush.
Proof.
  intros m [Hm Hp]. unfold op_PCpush, wp, mbind, M_bind, get, get_pc.
  destruct (state m) as [|e|pc] eqn:Es; [done..|].
  assert (typed_end X (push_codepoint pc;; next)) as Ht by solve_typed.
  apply (Ht m). split; [done|by rewrite Es].
Qed.

Lemma typed_control :
  typed_end X op_Noop ∧ typed_end X op_Zero ∧ typed_end X op_Jump ∧ typed_end X op_Cjump ∧
  typed_end X op_Rpush ∧ typed_end X op_Rset ∧ typed_end X op_Spush ∧
  typed_end X op_Breakpoint ∧ typed_end X op_Halt ∧ typed_end X op_ErrPush ∧ typed_end X op_ErrSet ∧
  typed_end X op_PushGas ∧ typed_end X op_SetGas ∧ typed_end X op_Sideload.
Proof.
  split_and!; unfold op_Noop, op_Zero, op_Jump, op_Cjump, op_Rpush, op_Rset, op_Spush,
    op_Breakpoint, op_Halt, op_ErrPush, op_ErrSet, op_PushGas, op_SetGas, op_Sideload; solve_typed.
  case_match; solve_typed.
Qed.

Lemma typed_tuples_stacks :
  typed_end X op_Tset ∧ typed_end X op_Tget ∧ typed_end X op_Tlen ∧ typed_end X op_Pop ∧
  typed_end X op_StackEmpty ∧ typed_end X op_AuxPush ∧ typed_end X op_AuxPop ∧
  typed_end X op_AuxStackEmpty ∧ typed_end X op_Xget ∧ typed_end X op_Xset ∧
  typed_end X op_Dup0 ∧ typed_end X op_Dup1 ∧ typed_end X op_Dup2 ∧
  typed_end X op_Swap1 ∧ typed_end X op_Swap2.
Proof.
  split_and!; unfold op_Tset, op_Tget, op_Tlen, op_Pop, op_StackEmpty, op_AuxPush, op_AuxPop,
    op_AuxStackEmpty, op_Xget, op_Xset, op_Dup0, op_Dup1, op_Dup2, op_Swap1, op_Swap2; solve_typed.
  all: repeat case_match; solve_typed.
  eapply typed_end_bind; [|intros; apply typed_next].
  apply typed_push. eapply wf_lookup_z; [|done].
  match goal with Hw : ∀ v, _ → Value.wf v |- _ => by apply Hw end.
Qed.

Lemma typed_unop op : (∀ x, Uint256.wf x → Uint256.wf (op x)) →
  typed_end X (r ← pop_uint; push_uint (op r);; next).
Proof. intros. solve_typed. Qed.

Lemma typed_binop op : (∀ x y, Uint256.wf x → Uint256.wf y → Uint256.wf (op x y)) →
  typed_end X (r1 ← pop_uint; r2 ← pop_uint; push_uint (op r1 r2);; next).
Proof. intros. solve_typed. Qed.

Lemma typed_cmp (cmp : Z → Z → bool) :
  typed_end X (r1 ← pop_uint; r2 ← pop_uint; push_usize (if cmp r1 r2 then 1 else 0);; next).
Proof. solve_typed. Qed.

(** A partial operation, its failure an error. *)
Lemma typed_res (o : option Z) why : (∀ z, o = Some z → Uint256.wf z) →
  typed_end X (match o with Some res => push_uint res;; next | None => fail why None end).
Proof. intros. destruct o; solve_typed. Qed.

(** A partial operation that cannot fail here. *)
Lemma typed_must_ok {A} (o : option A) (R : A → Prop) :
  (∃ a, o = Some a ∧ R a) → typed X (must o) R.
Proof. intros (a & -> & Ha). apply typed_must; [by right|congruence]. Qed.

(** The result of a partial operation on well-formed operands. *)
Ltac wf_result :=
  intros; match goal with
  | E : Uint256.div _ _ = _ |- _ => by apply Uint256.wf_div_res in E
  | E : Uint256.modulo _ _ = _ |- _ => by apply Uint256.wf_modulo in E
  | E : Uint256.add_mod _ _ _ = _ |- _ => by apply Uint256.wf_add_mod in E
  | E : Uint256.mul_mod _ _ _ = _ |- _ => by apply Uint256.wf_mul_mod in E
  end.

Lemma typed_arith :
  typed_end X op_IsZero ∧ typed_end X op_BitwiseNeg ∧ typed_end X op_Add ∧ typed_end X op_Sub ∧
  typed_end X op_Mul ∧ typed_end X op_Div ∧ typed_end X op_Mod ∧ typed_end X op_Sdiv ∧
  typed_end X op_Smod ∧ typed_end X op_AddMod ∧ typed_end X op_MulMod ∧ typed_end X op_Exp.
Proof.
  split_and!; unfold op_IsZero, op_BitwiseNeg, op_Add, op_Sub, op_Mul, op_Div, op_Mod, op_Sdiv,
    op_Smod, op_AddMod, op_MulMod, op_Exp; solve_typed.
  all: try (apply typed_res; wf_result).
  - typed_by (by apply typed_must_ok, Uint256.wf_unchecked_sub).
  - typed_by (by apply typed_must_ok, Uint256.wf_sdiv). by apply typed_res.
  - typed_by (by apply typed_must_ok, Uint256.wf_smodulo). by apply typed_res.
  - typed_by (by apply typed_push_uint, Uint256.wf_exp).
Qed.

Lemma typed_compare_bits :
  typed_end X op_SignExtend ∧ typed_end X op_LessThan ∧ typed_end X op_GreaterThan ∧
  typed_end X op_SLessThan ∧ typed_end X op_SGreaterThan ∧ typed_end X op_Equal ∧
  typed_end X op_Type ∧ typed_end X op_BitwiseAnd ∧ typed_end X op_BitwiseOr ∧
  typed_end X op_BitwiseXor ∧ typed_end X op_Byte ∧ typed_end X op_ShiftLeft ∧
  typed_end X op_ShiftRight ∧ typed_end X op_ShiftArith.
Proof.
  split_and!; unfold op_SignExtend, op_LessThan, op_GreaterThan, op_SLessThan, op_SGreaterThan,
    op_Equal, op_Type, op_BitwiseAnd, op_BitwiseOr, op_BitwiseXor, op_Byte, op_ShiftLeft,
    op_ShiftRight, op_ShiftArith; solve_typed.
  - destruct (wf_sign_extend a a0) as (z & -> & Hz); [done..|]. solve_typed.
  - typed_by (apply typed_must_ok with (R := λ n, (0 <= n < two64)%Z);
      destruct (Value.type_insn_result_wf a) as (n & ? & ?); [done|]; exists n;
      split; [done|unfold two64; lia]).
  - typed_by (apply typed_push_uint, Uint256.wf_bitwise_and; [done|apply Ha0]).
  - typed_by (by apply typed_must_ok, wf_byte_of).
  - typed_by (apply typed_push_uint, shift_with_wf; [|done]; intros; by apply Uint256.wf_shift_left).
  - typed_by (apply typed_push_uint, shift_with_wf; [|done]; intros; by apply Uint256.wf_shift_right).
  - typed_by (apply typed_push_uint, shift_with_wf; [|done]; intros; by apply Uint256.wf_shift_arith).
Qed.

(** ** Cryptography and buffers *)

Lemma typed_tuple_keccak l : typed X (tuple_keccak l) (λ l, Value.wf (Value.Tuple l)).
Proof.
  unfold tuple_keccak. destruct (Nat.eqb_spec (length l) 7) as [Hl|]; [|apply typed_fail].
  destruct (value_ints l) as [us|] eqn:E; [|apply typed_fail]. cbn [negb].
  apply value_ints_some in E as ->. rewrite length_fmap in Hl.
  destruct (keccak_words_ok us Hl) as (ws & Hws & Hlen & Hwf). unfold keccak_words in Hws.
  destruct (split_words _ _ 0 25 us []) as [out|]; [|done].
  cbn [mbind option_bind] in Hws. apply (inj Some) in Hws. subst ws.
  intros m Hm. split; [|done]. apply Value.wf_tuple. rewrite length_fmap, Hlen.
  split; [done|]. by apply Forall_fmap.
Qed.

Lemma typed_hashes :
  typed_end X op_Hash ∧ typed_end X op_EthHash2 ∧ typed_end X op_Keccakf ∧ typed_end X op_Sha256f ∧
  typed_end X op_Ripemd160f ∧ typed_end X op_Blake2f ∧ typed_end X op_EcRecover.
Proof.
  split_and!; unfold op_Hash, op_EthHash2, op_Keccakf, op_Sha256f, op_Ripemd160f, op_Blake2f,
    op_EcRecover; solve_typed.
  - typed_by (apply typed_must_ok with (R := Value.wf);
      destruct (Value.avm_hash_wf a) as (h & ? & ?); [done|]; by exists (Value.Int h)).
  - typed_by (apply typed_push_uint, Value.keccak_wf).
  - typed_by (apply typed_tuple_keccak).
  - typed_by (by apply typed_must_ok, sha256_compression_ok).
  - typed_by (apply typed_must_ok with (R := Uint256.wf);
      destruct (compression_ok a a0 a1) as (r & ? & ?); [done|]; exists r;
      split; [done|unfold Uint256.wf, two256; lia]).
  - typed_by (apply typed_must_ok with (R := Buffer.ok);
      destruct (blake2bf_instruction_ok a) as (r & ? & ? & _); [done|]; by exists r).
  - typed_by (apply typed_push_uint, do_ecrecover_ok).
Qed.

Lemma typed_curve : typed_end X op_EcAdd ∧ typed_end X op_EcMul ∧ typed_end X op_EcPairing.
Proof.
  split_and!; unfold op_EcAdd, op_EcMul, op_EcPairing; solve_typed.
  - pose proof (do_ecadd_ok a a0 a1 a2) as Hz. destruct (do_ecadd a a0 a1 a2) as [[z0 z1]| |];
      [|by apply typed_end_bind with (λ _, False); [apply typed_fail|]|done].
    typed_by (apply typed_map_err with (R := λ z, z = (z0, z1)); congruence).
    subst. destruct Hz. solve_typed.
  - pose proof (do_ecmul_ok a a0 a1) as Hz. destruct (do_ecmul a a0 a1) as [[z0 z1]| |];
      [|by apply typed_end_bind with (λ _, False); [apply typed_fail|]|done].
    typed_by (apply typed_map_err with (R := λ z, z = (z0, z1)); congruence).
    subst. destruct Hz. solve_typed.
  - case_match; solve_typed.
Qed.

Lemma read_wf b o n : Buffer.ok b → (0 <= o)%Z → (n <= 32)%nat →
  ∃ bs, read_all Buffer.read_byte b o n = Some bs ∧ Uint256.wf (Uint256.from_bytes bs).
Proof.
  intros Hb Ho Hn. destruct (read_all_ok n b o) as (bs & Hr & Hl & Hd & _); [exact Hb|done|].
  exists bs. split; [exact Hr|]. apply Uint256.wf_from_bytes; [done|lia].
Qed.

Lemma write_ok b o bytes : Buffer.ok b → (0 <= o)%Z → digits_ok 256 bytes →
  (o + Z.of_nat (length bytes) <= two64)%Z →
  ∃ b', write_all Buffer.set_byte b o bytes = Some b' ∧ Buffer.ok b'.
Proof.
  intros Hb Ho Hd Hl. destruct (write_all_ok bytes b o) as (b' & Hw & Hok & _);
    [exact Hb|done|done|done|]. by exists b'.
Qed.

(** When the overflow test passes, the last byte's offset is a [usize]. *)
Lemma no_overflow o n : (0 <= o < two64)%Z → (0 <= n < two64)%Z → offset_overflows o n = false →
  (o + n < two64)%Z.
Proof.
  unfold offset_overflows, wrapping_add. rewrite Z.ltb_ge. change (2 ^ 64)%Z with two64.
  intros Ho Hn Hle. destruct (Z.ltb_spec (o + n) two64); [done|].
  rewrite (Z.mod_eq (o + n)) in Hle by done.
  assert ((o + n) / two64 = 1)%Z as E by (symmetry; apply Z.div_unique with (o + n - two64)%Z; lia). lia.
Qed.

Lemma typed_read buf o (n : nat) : Buffer.ok buf → (0 <= o)%Z → (n <= 32)%nat →
  typed_end X (res ← must (read_all Buffer.read_byte buf o n);
               push_uint (Uint256.from_bytes res);; next).
Proof.
  intros Hb Ho Hn.
  typed_by (by apply typed_must_ok with (R := λ bs, Uint256.wf (Uint256.from_bytes bs)), read_wf).
Qed.

Lemma typed_write buf o x (n : nat) : Buffer.ok buf → (0 <= o < two64)%Z → Uint256.wf x →
  (0 < n <= 32)%nat → offset_overflows o (Z.of_nat n - 1) = false →
  typed_end X (nbuf ← must (write_all Buffer.set_byte buf o (take n (Uint256.to_bytes_be x)));
               push (Value.copy_buffer nbuf);; next).
Proof.
  intros Hb Ho Hx Hn Hov. apply no_overflow in Hov; [|done|unfold two64; lia].
  typed_by (apply typed_must_ok with (R := Buffer.ok), write_ok; [done|lia| |];
    [by apply Forall_take, Uint256.to_bytes_be_ok|
     rewrite length_take, Uint256.length_to_bytes_be by done; lia]).
Qed.

Lemma typed_buffers :
  typed_end X op_NewBuffer ∧ typed_end X op_GetBuffer8 ∧ typed_end X op_GetBuffer64 ∧
  typed_end X op_GetBuffer256 ∧ typed_end X op_SetBuffer8 ∧ typed_end X op_SetBuffer64 ∧
  typed_end X op_SetBuffer256.
Proof.
  split_and!; unfold op_NewBuffer, op_GetBuffer8, op_GetBuffer64, op_GetBuffer256, op_SetBuffer8,
    op_SetBuffer64, op_SetBuffer256, buffer_overflow; solve_typed.
  - typed_by (apply typed_must_ok with (R := Value.wf); exists (Value.Buffer Buffer.new_empty);
      split; [done|apply Buffer.empty_ok]).
  - typed_by (apply typed_must_ok with (R := λ n, (0 <= n < two64)%Z);
      destruct (Buffer.read_byte_ok a0 a) as (v & ? & ?); [done|lia|];
      exists v; split; [done|unfold two64; lia]).
  - case_match; solve_typed. apply typed_read; [done|lia|lia].
  - case_match; solve_typed. apply typed_read; [done|lia|lia].
  - typed_by (apply typed_must_ok with (R := Buffer.ok);
      destruct (Buffer.set_byte_ok a1 a (at_ (Uint256.to_bytes_be a0) 31)) as (b & ? & ? & _);
      [done|done|apply (at_ok (λ d, 0 <= d < 256)%Z); [by apply Uint256.to_bytes_be_ok|
         rewrite Uint256.length_to_bytes_be by done; lia]|by exists b]).
  - destruct (offset_overflows a 7) eqn:E; solve_typed. apply typed_write; try done; lia.
  - destruct (offset_overflows a 31) eqn:E; solve_typed. apply typed_write; try done; lia.
Qed.

(** ** Inbox, outputs and code segments *)

Lemma typed_set_env e : Forall Value.wf (RuntimeEnvironment.l1_inbox e) →
  typed X (upd (λ m, set_env m e)) (λ _, True).
Proof. intros. apply typed_upd; [|done..]. by intros m []. Qed.

Lemma typed_Inbox g b : Uint256.wf g → typed_end X (op_Inbox g b).
Proof.
  intros Hg m [Hm Hp]. unfold op_Inbox, wp, RuntimeEnvironment.get_from_inbox. destruct Hm.
  destruct (RuntimeEnvironment.l1_inbox (runtime_env m)) as [|msg rest] eqn:E.
  - assert (Forall Value.wf (RuntimeEnvironment.l1_inbox (runtime_env m))) by (by rewrite E).
    destruct b; [|by constructor]. unfold pop, on_stack. cbn.
    destruct wf_stack0; by constructor.
  - apply Forall_cons_iff in wf_inbox0 as [Hmsg Hrest].
    assert (typed_end X (push msg;; next)) as Ht by solve_typed.
    apply (Ht (set_env m _)). split; [by constructor|done].
Qed.

Lemma typed_ErrCodePoint : typed_end X op_ErrCodePoint.
Proof.
  intros m [Hm Hp]. unfold op_ErrCodePoint, wp, CodeStore.create_segment. destruct Hm.
  match goal with |- context [(push (Value.CodePoint ?cp);; next)] =>
    assert (typed_end X (push (Value.CodePoint cp);; next)) as Ht by
      (typed_by (by apply typed_push)) end.
  apply (Ht (set_code m _)). split; [|done]. constructor; try done; cbn [code set_code].
  - apply Forall_app; split; [done|]. by repeat constructor.
  - destruct (code m); [by destruct wf_runtime0|by eexists].
Qed.

Lemma typed_Log : typed_end X op_Log.
Proof.
  unfold op_Log. solve_typed.
  typed_by (apply typed_upd with (R := λ _, True); [intros m []; by constructor|done..]).
Qed.

(** ** Instructions that can panic: only when [X] allows it *)

Lemma push_insn_wf (c : CodeStore.t) op imm cp cp' (c' : CodeStore.t) :
  Forall (Forall insn_wf) c → is_Some (c !! 0) → (∀ v, imm = Some v → Value.wf v) →
  CodeStore.push_insn c op imm cp = Some (cp', c') →
  Forall (Forall insn_wf) c' ∧ is_Some (c' !! 0).
Proof.
  intros Hc H0' Hi. unfold CodeStore.push_insn, CodeStore.t in *. destruct cp as [| |seg off|]; try done.
  destruct (c !! seg) as [s|] eqn:Es; [|done].
  destruct (Nat.eqb _ _); [|done]. destruct (AVMOpcode.from_number op); [|done].
  intros [= <- <-]. split.
  - apply Forall_insert; [done|]. apply Forall_app; split; [by eapply Forall_lookup_1 in Es|].
    repeat constructor. unfold insn_wf. simpl. destruct imm; auto.
  - apply lookup_lt_is_Some. rewrite length_insert. by apply lookup_lt_is_Some in H0'.
Qed.

Lemma typed_push_insn op imm cp : X → (∀ v, imm = Some v → Value.wf v) →
  typed_end X (push_insn op imm cp).
Proof.
  intros HX Hi. unfold push_insn. solve_typed. destruct Ha as [Hc H0'].
  eapply typed_end_bind.
  - apply typed_must with (R := λ p, Forall (Forall insn_wf) p.2 ∧ is_Some (p.2 !! 0)); [by left|].
    intros [cp' c'] E. by eapply push_insn_wf in E.
  - intros [cp' c'] [Hc' H0'']. typed_by (by apply typed_set_code).
Qed.

Lemma typed_InboxPeek g : X → Uint256.wf g → typed_end X (op_InboxPeek g).
Proof.
  intros HX Hg. unfold op_InboxPeek. solve_typed.
  eapply typed_end_bind; [by apply typed_get with (R := λ _, True)|]. intros [v|] _; solve_typed.
  - destruct v; solve_typed.
    eapply typed_end_bind; [apply typed_must with (R := λ _, True); [by left|done]|].
  intros w _. destruct w; solve_typed.
Qed.

Lemma get_insn_wf (c : CodeStore.t) cp i :
  Forall (Forall insn_wf) c → CodeStore.get_insn c cp = Some (Some i) → insn_wf i.
Proof. apply CodeStore.get_insn_Forall. Qed.

Lemma wf_opened i : insn_wf i →
  Value.wf (match Instruction.immediate i with Some v => Value.new_tuple [v] | None => Value.none end).
Proof.
  unfold insn_wf. destruct (Instruction.immediate i) as [v|]; [|done].
  intros Hv. apply Value.wf_tuple. split; [done|]. by constructor.
Qed.

Lemma push_send_inbox e size buf e' : RuntimeEnvironment.push_send e size buf = Some e' →
  RuntimeEnvironment.l1_inbox e' = RuntimeEnvironment.l1_inbox e.
Proof.
  unfold RuntimeEnvironment.push_send. destruct (Uint256.to_usize size); [|done].
  cbn [mbind option_bind]. destruct (Buffer.as_bytes _ _); [|done]. by intros [= <-].
Qed.

Lemma typed_risky : X →
  typed_end X op_PushInsn ∧ typed_end X op_PushInsnImm ∧ typed_end X op_OpenInsn ∧
  typed_end X op_DebugPrint ∧ typed_end X op_Send.
Proof.
  intros HX. split_and!; unfold op_PushInsn, op_PushInsnImm, op_OpenInsn, op_DebugPrint, op_Send;
    solve_typed.
  - by apply typed_push_insn.
  - apply typed_push_insn; [done|]. congruence.
  - destruct Ha0 as [Hc _].
    typed_by (apply typed_must with (R := λ o, ∀ i, o = Some i → insn_wf i); [by left|];
      intros o Eo i Ei; apply (get_insn_wf a0 a); [exact Hc|congruence]).
    typed_by (apply typed_must with (R := insn_wf); [by left|done]).
    typed_by (by apply typed_push, wf_opened).
    typed_by (apply typed_push_usize; pose proof (to_number_byte (Instruction.opcode a2));
      unfold two64; lia).
  - typed_by (apply typed_must with (R := λ _, True); [by left|done]).
  - typed_by (apply typed_get with (R := λ e, Forall Value.wf (RuntimeEnvironment.l1_inbox e));
      by intros m []).
    typed_by (apply typed_must with (R := λ e, Forall Value.wf (RuntimeEnvironment.l1_inbox e));
      [by left|]; intros e' E; by apply push_send_inbox in E as ->).
    typed_by (by apply typed_set_env).
Qed.

(** The opcodes whose arms can panic on a well-formed machine. *)
Definition risky (op : AVMOpcode.t) : bool :=
  match op with
  | AVMOpcode.PushInsn | AVMOpcode.PushInsnImm | AVMOpcode.OpenInsn | AVMOpcode.DebugPrint
  | AVMOpcode.Send | AVMOpcode.InboxPeek => true
  | _ => false
  end.

Lemma typed_exec op g b : Uint256.wf g → (risky op = true → X) → typed_end X (exec op g b).
Proof.
  intros Hg Hr.
  pose proof typed_control as Hops1. pose proof typed_tuples_stacks as Hops2.
  pose proof typed_arith as Hops3. pose proof typed_compare_bits as Hops4.
  pose proof typed_hashes as Hops5. pose proof typed_curve as Hops6.
  pose proof typed_buffers as Hops7. destruct_and?.
  destruct op; cbn [exec]; lazymatch goal with
  | Ht : typed_end X ?c |- typed_end X ?c => exact Ht
  | |- typed_end X op_PCpush => apply typed_PCpush
  | |- typed_end X op_ErrCodePoint => apply typed_ErrCodePoint
  | |- typed_end X op_Log => apply typed_Log
  | |- typed_end X (op_Inbox _ _) => by apply typed_Inbox
  | |- typed_end X (op_InboxPeek _) => by apply typed_InboxPeek; [apply Hr|]
  | |- _ => destruct (typed_risky (Hr eq_refl)) as (?&?&?&?&?); assumption
  end.
Qed.

(** ** Gas *)

Lemma pairing_gas_bound n i v : (0 <= i)%Z → (i + Z.of_nat n <= 30)%Z →
  (1000 <= pairing_gas_loop n i v <= 1000 + 30 * 500000)%Z.
Proof.
  revert i v; induction n as [|n IH]; intros i v Hi Hn; [cbn [pairing_gas_loop]; unfold MAX_PAIRING_SIZE; lia|].
  cbn [pairing_gas_loop].
  destruct v as [|[|v0 [|v1 [|v2 l]]]| | |]; try lia. apply IH; lia.
Qed.

Lemma gas_for_pairing_bound m : (1000 <= gas_for_pairing m < two64)%Z.
Proof.
  unfold gas_for_pairing, two64. destruct (head _) as [v|]; [|lia].
  pose proof (pairing_gas_bound MAX_PAIRING_SIZE 0 v ltac:(lia) ltac:(unfold MAX_PAIRING_SIZE; lia)). lia.
Qed.

Lemma gas_for_blake2f_bound m : Forall Value.wf (stack m) →
  ∃ g, gas_for_blake2f m = Some g ∧ (0 <= g < two64)%Z.
Proof.
  intros Hs. apply Forall_reverse in Hs. unfold gas_for_blake2f, two64.
  destruct (reverse (stack m)) as [|v l]; [eexists; split; [done|lia]|].
  apply Forall_cons_iff in Hs as [Hv _]. cbn [head hd_error].
  destruct v as [| | | |b]; try (eexists; split; [done|lia]).
  destruct (read_all_ok 4 b 0) as (bs & Hr & Hl & Hd & _); [exact Hv|lia|].
  unfold Buffer.as_bytes. change (@bs_read Buffer.t _) with Buffer.read_byte in Hr. rewrite Hr.
  cbn [mbind option_bind]. eexists; split; [done|].
  pose proof (undigits_be_bound 256 ltac:(lia) bs Hd).
  destruct (Z.ltb_spec 0xffff (undigits_be 256 bs)); lia.
Qed.

Lemma opcode_gas_bound m op : wf_machine m →
  ∃ g, opcode_gas m op = Some g ∧ (0 <= g < two64)%Z.
Proof.
  intros []. destruct op; cbn [opcode_gas];
    try (eexists; split; [reflexivity|unfold two64; lia]).
  - by apply gas_for_blake2f_bound.
  - eexists; split; [reflexivity|]. pose proof (gas_for_pairing_bound m). lia.
Qed.

(** ** One instruction, unfolded *)

Definition with_immediate (m : Machine) (i : CodeStore.insn) : Machine :=
  match Instruction.immediate i with
  | Some v => set_stack m (v :: stack m)
  | None => m
  end.

Definition charged (m : Machine) (g : Z) : Machine :=
  set_total (set_gas m (arb_gas_remaining m - g)) (Uint256.add (total_gas_usage m) g).

Lemma wf_with_immediate m i : wf_machine m → insn_wf i → wf_machine (with_immediate m i).
Proof.
  unfold with_immediate, insn_wf. intros []. destruct (Instruction.immediate i); [|by constructor].
  intros. constructor; try done. by constructor.
Qed.

Lemma wf_charged m g : wf_machine m → (0 <= g < two64)%Z → (g <= arb_gas_remaining m)%Z →
  wf_machine (charged m g).
Proof.
  intros [] Hg Hle. constructor; try done; cbn.
  - destruct wf_gas0. split; lia.
  - apply Uint256.wf_add; [done|]. by apply Uint256.wf_small.
Qed.

Lemma charge_gas_eq m pc i :
  wf_machine m → state m = Running pc → CodeStore.get_insn (code m) pc = Some (Some i) →
  ∃ g, opcode_gas m (Instruction.opcode i) = Some g ∧ (0 <= g < two64)%Z ∧
  charge_gas m =
    (if (g <=? arb_gas_remaining m)%Z then (Ok (arb_gas_remaining m), charged m g)
     else (Err (RunningErr "Out of ArbGas" pc None), set_gas m Uint256.max_uint)).
Proof.
  intros Hm Hs Hi. destruct (opcode_gas_bound m (Instruction.opcode i) Hm) as (g & Hg & Hb).
  exists g. split; [done|]. split; [done|].
  unfold charge_gas, mbind, M_bind, get, next_op_gas. rewrite Hs, Hi.
  cbn [mbind option_bind]. rewrite Hg. cbn [fmap option_fmap option_map must mret M_ret].
  unfold Uint256.from_u64. rewrite Uint256.sub_eq by (apply Hm || by apply Uint256.wf_small).
  destruct (Z.leb_spec g (arb_gas_remaining m)).
  - rewrite bool_decide_eq_true_2 by done. done.
  - rewrite bool_decide_eq_false_2 by lia. unfold upd, fail, mbind, M_bind. cbn. by rewrite Hs.
Qed.

Lemma run_one_step m pc i :
  wf_machine m → state m = Running pc → CodeStore.get_insn (code m) pc = Some (Some i) →
  let m1 := with_immediate m i in
  ∃ g, opcode_gas m1 (Instruction.opcode i) = Some g ∧ (0 <= g < two64)%Z ∧
  run_one_dont_catch_errors m =
    (if (g <=? arb_gas_remaining m)%Z
     then exec (Instruction.opcode i) (arb_gas_remaining m)
               (bool_decide (is_Some (Instruction.immediate i))) (charged m1 g)
     else (Err (RunningErr "Out of ArbGas" pc None), set_gas m1 Uint256.max_uint)).
Proof.
  intros Hm Hs Hi m1.
  assert (insn_wf i) as Hwi by (eapply get_insn_wf; [apply Hm|exact Hi]).
  assert (arb_gas_remaining m1 = arb_gas_remaining m ∧ state m1 = state m ∧ code m1 = code m)
    as (Eg & Est & Ec) by (unfold m1, with_immediate; by destruct (Instruction.immediate i)).
  destruct (charge_gas_eq m1 pc i) as (g & Hg & Hb & Hc);
    [by apply wf_with_immediate|congruence|by rewrite Ec|].
  exists g. split; [done|]. split; [done|].
  unfold run_one_dont_catch_errors, mbind, M_bind, get. rewrite Hs, Hi.
  cbn [must mret M_ret].
  replace (match Instruction.immediate i with Some val => push val | None => mret () end m)
    with ((Ok (), m1) : outcome ExecutionError () * Machine)
    by (unfold m1, with_immediate; by destruct (Instruction.immediate i)).
  rewrite Hc, Eg. by destruct (g <=? arb_gas_remaining m)%Z.
Qed.

(** The machine is about to execute an instruction that cannot panic. *)
Definition safe_to_run (m : Machine) : bool :=
  match state m with
  | Running pc =>
      bool_decide (is_Some (CodePt.incr pc)) &&
      match CodeStore.get_insn (code m) pc with
      | Some (Some i) => negb (risky (Instruction.opcode i))
      | _ => true
      end
  | _ => true
  end.
End ops.

Lemma run_one_typed `{HC : Crypto, !CryptoOk, HV : Curve, !CurveOk} m : wf_machine m →
  match run_one m with
  | (Panic, _) => safe_to_run m = false
  | (_, m') => wf_machine m'
  end.
Proof.
  intros Hm. set (X := safe_to_run m = false).
  assert (wp X run_one_dont_catch_errors (λ _, wf_machine) m) as Hw.
  { destruct (state m) as [|e|pc] eqn:Es;
      [unfold wp, run_one_dont_catch_errors, mbind, M_bind, get; by rewrite Es..|].
    assert (X ∨ is_Some (CodePt.incr pc)) as Hp.
    { unfold X, safe_to_run. rewrite Es.
      destruct (decide (is_Some (CodePt.incr pc))); [by right|left].
      by rewrite bool_decide_eq_false_2. }
    destruct (CodeStore.get_insn (code m) pc) as [[i|]|] eqn:Ei.
    - destruct (run_one_step m pc i Hm Es Ei) as (g & _ & Hb & Heq). unfold wp. rewrite Heq.
      assert (wf_machine (with_immediate m i)) as Hm1.
      { apply wf_with_immediate; [done|]. eapply get_insn_wf; [apply Hm|exact Ei]. }
      destruct (Z.leb_spec g (arb_gas_remaining m)); [|destruct Hm1; by constructor].
      apply typed_exec; [apply Hm| |].
      + intros Hr. unfold X, safe_to_run. rewrite Es, Ei, Hr. apply andb_false_r.
      + assert (arb_gas_remaining (with_immediate m i) = arb_gas_remaining m ∧
                state (with_immediate m i) = state m) as [Eg Est]
          by (unfold with_immediate; by destruct (Instruction.immediate i)).
        split; [apply wf_charged; [done|done|by rewrite Eg]|]. cbn. by rewrite Est, Es.
    - unfold wp, run_one_dont_catch_errors, mbind, M_bind, get. by rewrite Es, Ei.
    - unfold wp, run_one_dont_catch_errors, mbind, M_bind, get. rewrite Es, Ei. cbn.
      destruct Hp as [?|[pc' Hpc]]; [done|]. exfalso. unfold CodeStore.get_insn in Ei.
      destruct pc; try done; [by destruct (wf_runtime _ Hm) as [? Hr]; rewrite Hr in Ei|].
      by destruct (code m !! seg). }
  unfold wp, run_one in *. destruct (run_one_dont_catch_errors m) as [[b|e|] m']; [done| |done].
  case_bool_decide; [done|]. destruct Hw. by constructor.
Qed.
