(* ===== verification/EmulatorFrame.v ===== *)
(** * What instructions leave alone

    [frames f c]: the computation [c] does not change the part [f] of the
    machine, on any outcome.  All but seven opcodes leave the gas registers,
    the code and the error handler alone; [keeps_code] and [code_le] describe
    the ones that add code. *)

From Stdlib Require Import ZArith Lia.
From S2P Require Import Prelude U256 Pos Opcodes Crypto BufferTree Values Blake2b Ripemd160 RuntimeEnv Machine Insns Emulator.

Definition frames {T} (f : Machine → T) {A} (c : M A) : Prop := ∀ m, f (c m).2 = f m.

Section rules.
Context {T : Type} (f : Machine → T).

Lemma frames_bind {A B} (c : M A) (k : A → M B) :
  frames f c → (∀ a, frames f (k a)) → frames f (c ≫= k).
Proof.
  intros Hc Hk m. specialize (Hc m). unfold mbind, M_bind.
  destruct (c m) as [[a|e|] m']; [|done|done]. simpl in Hc. by rewrite Hk.
Qed.

Lemma frames_ret {A} (a : A) : frames f (mret a). Proof. done. Qed.
Lemma frames_get {A} (g : Machine → A) : frames f (get g). Proof. done. Qed.
Lemma frames_fail {A} why val : frames f (fail (A := A) why val). Proof. done. Qed.
Lemma frames_panic {A} : frames f (panic (A := A)). Proof. done. Qed.
Lemma frames_must {A} (o : option A) : frames f (must o). Proof. intros m. by destruct o. Qed.
Lemma frames_map_err {A} (o : outcome string A) : frames f (map_err o). Proof. intros m. by destruct o. Qed.
Lemma frames_upd g : (∀ m, f (g m) = f m) → frames f (upd g). Proof. intros Hg m. exact (Hg m). Qed.

Context (Hstack : ∀ m s, f (set_stack m s) = f m).
Context (Haux : ∀ m s, f (set_aux_stack m s) = f m).
Context (Hstate : ∀ m s, f (set_state m s) = f m).
Context (Hreg : ∀ m v, f (set_register m v) = f m).
Context (Henv : ∀ m e, f (set_env m e) = f m).

Lemma frames_on_stack {A} (g : MachineState → ValueStack.t → outcome ExecutionError A * ValueStack.t) :
  frames f (on_stack g).
Proof. intros m. unfold on_stack. destruct (g _ _). apply Hstack. Qed.
Lemma frames_on_aux {A} (g : MachineState → ValueStack.t → outcome ExecutionError A * ValueStack.t) :
  frames f (on_aux g).
Proof. intros m. unfold on_aux. destruct (g _ _). apply Haux. Qed.
Lemma frames_push v : frames f (push v).
Proof. apply frames_upd. intros. apply Hstack. Qed.
Lemma frames_aux_push v : frames f (aux_push v).
Proof. apply frames_upd. intros. apply Haux. Qed.
Lemma frames_incr_pc : frames f incr_pc.
Proof. intros m. unfold incr_pc. destruct (state m); [done..|]. destruct (CodePt.incr pc); [apply Hstate|done]. Qed.
Lemma frames_next : frames f next.
Proof. apply frames_bind; [apply frames_incr_pc|intros; apply frames_ret]. Qed.
Lemma frames_tuple_keccak `{Crypto} l : frames f (tuple_keccak l).
Proof.
  unfold tuple_keccak. destruct (negb _); [done|]. destruct (value_ints l); [|done].
  apply frames_bind; [apply frames_must|intros; apply frames_ret].
Qed.

(** The derivation follows the shape of the instruction. *)
Ltac solve_frames :=
  repeat match goal with
  | |- frames f (_ ≫= _) => apply frames_bind; [|intros ?]
  | |- frames f next => apply frames_next
  | |- frames f incr_pc => apply frames_incr_pc
  | |- frames f (mret _) => apply frames_ret
  | |- frames f (get _) => apply frames_get
  | |- frames f (fail _ _) => apply frames_fail
  | |- frames f panic => apply frames_panic
  | |- frames f (must _) => apply frames_must
  | |- frames f (map_err _) => apply frames_map_err
  | |- frames f (tuple_keccak _) => apply frames_tuple_keccak
  | |- frames f (push _) => apply frames_push
  | |- frames f (aux_push _) => apply frames_aux_push
  | |- frames f (on_stack _) => apply frames_on_stack
  | |- frames f (on_aux _) => apply frames_on_aux
  | |- frames f (upd _) => apply frames_upd; intros; solve [auto]
  | |- frames f (match ?x with _ => _ end) => destruct x
  | |- frames f ?c => unfold c
  | |- frames f (?c _) => unfold c
  | |- frames f (?c _ _) => unfold c
  | |- frames f (?c _ _ _) => unfold c
  | |- frames f (λ m, _) => intros m; done
  end.

(** The opcodes that touch the gas register, the handler and the code. *)
Definition touches_gas (op : AVMOpcode.t) : bool :=
  match op with
  | AVMOpcode.SetGas | AVMOpcode.Inbox | AVMOpcode.InboxPeek => true
  | _ => false
  end.
Definition touches_err (op : AVMOpcode.t) : bool :=
  match op with
  | AVMOpcode.ErrSet => true
  | _ => false
  end.
Definition touches_code (op : AVMOpcode.t) : bool :=
  match op with
  | AVMOpcode.ErrCodePoint | AVMOpcode.PushInsn | AVMOpcode.PushInsnImm => true
  | _ => false
  end.

Lemma frames_Inbox g b : (∀ m x, f (set_gas m x) = f m) → frames f (op_Inbox g b).
Proof.
  intros Hgas m. unfold op_Inbox. destruct (RuntimeEnvironment.get_from_inbox _) as [[msg|] e].
  - assert (frames f (push msg;; next)) as Hf by solve_frames. by rewrite Hf.
  - destruct b; cbn [snd]; [|by rewrite Hgas].
    assert (frames f pop) as Hf by solve_frames. by rewrite Hf, Hgas.
Qed.

Lemma frames_ErrCodePoint : (∀ m c, f (set_code m c) = f m) → frames f op_ErrCodePoint.
Proof.
  intros Hcode m. unfold op_ErrCodePoint. destruct (CodeStore.create_segment _) as [cp c].
  assert (frames f (push (Value.CodePoint cp);; next)) as Hf by solve_frames. by rewrite Hf.
Qed.

Lemma frames_exec `{Crypto, Curve} op g b :
  (touches_gas op = true → ∀ m x, f (set_gas m x) = f m) →
  (touches_err op = true → ∀ m x, f (set_err_codepoint m x) = f m) →
  (touches_code op = true → ∀ m x, f (set_code m x) = f m) →
  frames f (exec op g b).
Proof.
  intros Hg He Hc.
  destruct op; cbn [exec touches_gas touches_err touches_code] in *;
    try (specialize (Hg eq_refl)); try (specialize (He eq_refl)); try (specialize (Hc eq_refl));
    try (by apply frames_Inbox); try (by apply frames_ErrCodePoint); solve_frames.
Qed.

End rules.

(** ** The parts of the machine one by one *)
Section parts.
Context `{HC : Crypto, HV : Curve}.

Lemma exec_gas op g b m : touches_gas op = false →
  arb_gas_remaining (exec op g b m).2 = arb_gas_remaining m.
Proof. intros E. by apply (frames_exec arb_gas_remaining); [..|rewrite E| |]. Qed.

Lemma exec_total op g b m : total_gas_usage (exec op g b m).2 = total_gas_usage m.
Proof. by apply (frames_exec total_gas_usage). Qed.

Lemma exec_err op g b m : touches_err op = false →
  err_codepoint (exec op g b m).2 = err_codepoint m.
Proof. intros E. by apply (frames_exec err_codepoint); [..|rewrite E|]. Qed.

Lemma exec_static op g b m : static_val (exec op g b m).2 = static_val m.
Proof. by apply (frames_exec static_val). Qed.

Lemma exec_code op g b m : touches_code op = false → code (exec op g b m).2 = code m.
Proof. intros E. by apply (frames_exec code); [..|rewrite E]. Qed.

(** When an instruction that may put the gas back lets the machine go on, it
    has not done so. *)
Lemma exec_gas_continue op g b m m' :
  op ≠ AVMOpcode.SetGas → exec op g b m = (Ok true, m') →
  arb_gas_remaining m' = arb_gas_remaining m.
Proof.
  intros Hs He. destruct (touches_gas op) eqn:E.
  2: { rewrite <- (exec_gas op g b m E), He. done. }
  destruct op; try discriminate E; try done; cbn [exec] in He.
  - unfold op_InboxPeek, mbind, M_bind in He.
    pose proof (frames_on_stack arb_gas_remaining (λ _ _, eq_refl) ValueStack.pop_uint m) as Hp.
    unfold pop_uint in He. destruct (on_stack _ m) as [[bn|e|] m1]; [|done|done].
    simpl in Hp. unfold get in He.
    destruct (RuntimeEnvironment.peek_at_inbox_head _) as [[| tup | | |]|]; try done.
    destruct (tup !! 1) as [[]|]; try done. cbn [must mret M_ret] in He.
    assert (frames arb_gas_remaining (push_bool (bn =? i)%Z;; next)) as Hf.
    { apply frames_bind; [by apply frames_push|]. intros. by apply frames_next. }
    specialize (Hf m1). unfold mbind, M_bind in Hf. rewrite He in Hf. simpl in Hf. congruence.
  - unfold op_Inbox in He.
    destruct (RuntimeEnvironment.get_from_inbox _) as [[msg|] e]; [|done].
    assert (frames arb_gas_remaining (push msg;; next)) as Hf.
    { apply frames_bind; [by apply frames_push|]. intros. by apply frames_next. }
    specialize (Hf (set_env m e)). by rewrite He in Hf.
Qed.

(** ** Code only grows *)

(** Every segment of [c] is a prefix of the segment of [c'] with its number. *)
Definition code_le (c c' : CodeStore.t) : Prop :=
  ∀ n s, c !! n = Some s → ∃ s', c' !! n = Some (s ++ s').

#[global] Instance code_le_preorder : PreOrder code_le.
Proof.
  split.
  - intros c n s Hs. exists []. by rewrite app_nil_r.
  - intros c1 c2 c3 H12 H23 n s Hs. destruct (H12 n s Hs) as [s1 Hs1].
    destruct (H23 n _ Hs1) as [s2 Hs2]. exists (s1 ++ s2). by rewrite app_assoc.
Qed.

Lemma code_le_get_insn c c' cp i :
  code_le c c' → CodeStore.get_insn c cp = Some (Some i) → CodeStore.get_insn c' cp = Some (Some i).
Proof.
  intros Hle. unfold CodeStore.get_insn.
  destruct cp as [pc| |seg pc|]; try done.
  - destruct (c !! 0) as [s|] eqn:Es; [|done]. cbn [mbind option_bind]. intros [= Hi].
    destruct (Hle _ _ Es) as [s' ->]. cbn [mbind option_bind]. f_equal. by apply lookup_app_l_Some.
  - destruct (c !! seg) as [s|] eqn:Es; [|done]. intros [= Hi].
    destruct (Hle _ _ Es) as [s' ->]. f_equal. by apply lookup_app_l_Some.
Qed.

Lemma code_le_push_insn c op imm cp cp' c' :
  CodeStore.push_insn c op imm cp = Some (cp', c') → code_le c c'.
Proof.
  unfold CodeStore.push_insn, code_le, CodeStore.t, CodeStore.insn in *. destruct cp as [| |seg off|]; try done.
  destruct (c !! seg) as [sg|] eqn:Es; [|done].
  destruct (Nat.eqb _ _); [|done]. destruct (AVMOpcode.from_number op); [|done].
  intros [= <- <-] n s Hs. destruct (decide (n = seg)) as [->|Hne].
  - rewrite list_lookup_insert_eq by (by eapply lookup_lt_Some). simplify_eq. by eexists.
  - rewrite list_lookup_insert_ne by done. exists []. by rewrite app_nil_r.
Qed.

Lemma code_le_create_segment c : code_le c (CodeStore.create_segment c).2.
Proof. intros n s Hs. exists []. rewrite app_nil_r. by apply lookup_app_l_Some. Qed.

(** New instructions have no debug information: what holds of the old ones and
    of every instruction without debug information holds of all. *)
Definition code_new (c c' : CodeStore.t) : Prop :=
  ∀ P : CodeStore.insn → Prop, (∀ i, Instruction.debug_info i = DebugInfo_default → P i) →
    Forall (Forall P) c → Forall (Forall P) c'.

#[global] Instance code_new_preorder : PreOrder code_new.
Proof. split; [by intros c P|]. intros c1 c2 c3 H12 H23 P HP H1. by apply H23, H12. Qed.

Lemma code_new_push_insn c op imm cp cp' c' : CodeStore.push_insn c op imm cp = Some (cp', c') → code_new c c'.
Proof.
  unfold CodeStore.push_insn, code_new, CodeStore.t in *. destruct cp as [| |seg off|]; try done.
  destruct (c !! seg) as [sg|] eqn:Es; [|done]. destruct (Nat.eqb _ _); [|done]. destruct (AVMOpcode.from_number op); [|done].
  intros [= <- <-] P HP Hc. apply Forall_insert; [done|]. apply Forall_app. split; [by eapply Forall_lookup_1|].
  constructor; [by apply HP|done].
Qed.

Lemma code_new_create_segment c : code_new c (CodeStore.create_segment c).2.
Proof. intros P HP Hc. apply Forall_app. split; [done|]. repeat constructor. by apply HP. Qed.

Section code_relation.
(** A relation between code stores that adding a segment or an instruction
    establishes. *)
Context (R : CodeStore.t → CodeStore.t → Prop) `{!PreOrder R}.
Context (R_segment : ∀ c, R c (CodeStore.create_segment c).2).
Context (R_push : ∀ c op imm cp cp' c', CodeStore.push_insn c op imm cp = Some (cp', c') → R c c').

Lemma push_insn_code op imm cp m : R (code m) (code (push_insn op imm cp m).2).
Proof using PreOrder0 R_push.
  unfold push_insn, mbind, M_bind, get.
  destruct (CodeStore.push_insn (code m) op imm cp) as [[cp' c']|] eqn:E; [|done].
  cbn [must mret M_ret upd]. apply R_push in E.
  assert (frames code (push_codepoint cp';; next)) as Hf.
  { apply frames_bind; [by apply frames_push|]. intros. by apply frames_next. }
  specialize (Hf (set_code m c')). unfold mbind, M_bind in Hf. by rewrite Hf.
Qed.

Definition grows {A} (c : M A) : Prop := ∀ m, R (code m) (code (c m).2).

Lemma grows_bind {A B} (c : M A) (k : A → M B) :
  grows c → (∀ a, grows (k a)) → grows (c ≫= k).
Proof using PreOrder0.
  intros Hc Hk m. specialize (Hc m). unfold mbind, M_bind.
  destruct (c m) as [[a|e|] m']; [|done|done]. etrans; [exact Hc|apply Hk].
Qed.

Lemma grows_frames {A} (c : M A) : frames code c → grows c.
Proof using PreOrder0. intros Hc m. by rewrite Hc. Qed.

Lemma grows_pop {A} (f : MachineState → ValueStack.t → outcome ExecutionError A * ValueStack.t) :
  grows (on_stack f).
Proof using PreOrder0. by apply grows_frames, frames_on_stack. Qed.

Lemma exec_code_grows op g b m : R (code m) (code (exec op g b m).2).
Proof using PreOrder0 R_push R_segment.
  destruct (touches_code op) eqn:E; [|by rewrite exec_code].
  revert m. change (grows (exec op g b)).
  destruct op; try discriminate E; cbn [exec]; clear E.
  - intros m. unfold op_ErrCodePoint. destruct (CodeStore.create_segment (code m)) as [cp c] eqn:Ec. cbv zeta.
    match goal with |- context [(push ?v;; next)] => assert (frames code (push v;; next)) as Hf end.
    { apply frames_bind; [by apply frames_push|]. intros. by apply frames_next. }
    rewrite Hf. cbn [code set_code]. pose proof (R_segment (code m)) as Hseg. by rewrite Ec in Hseg.
  - repeat (apply grows_bind; [apply grows_pop|intros ?]). intros m. apply push_insn_code.
  - repeat (apply grows_bind; [apply grows_pop|intros ?]). intros m. apply push_insn_code.
Qed.

Lemma grows_charge_gas : grows charge_gas.
Proof using PreOrder0.
  apply grows_frames, frames_bind; [apply frames_get|intros g].
  apply frames_bind; [apply frames_must|intros og].
  apply frames_bind; [apply frames_get|intros g0].
  destruct og as [gas|]; [|apply frames_ret]. cbv zeta.
  destruct (Uint256.sub g0 (Uint256.from_u64 gas)); (apply frames_bind; [by apply frames_upd|intros _]);
    [apply frames_ret|apply frames_fail].
Qed.

Lemma grows_run_one_dont_catch : grows run_one_dont_catch_errors.
Proof using PreOrder0 R_push R_segment.
  apply grows_bind; [by apply grows_frames, frames_get|intros s].
  destruct s as [|e|pc]; [by apply grows_frames, frames_fail..|].
  apply grows_bind; [by apply grows_frames, frames_get|intros c].
  apply grows_bind; [by apply grows_frames, frames_must|intros o].
  destruct o as [i|]; [|by apply grows_frames, frames_fail].
  apply grows_bind.
  { apply grows_frames. destruct (Instruction.immediate i); [by apply frames_push|apply frames_ret]. }
  intros _. apply grows_bind; [apply grows_charge_gas|intros g]. intros m. apply exec_code_grows.
Qed.

Lemma run_one_code m : R (code m) (code (run_one m).2).
Proof using PreOrder0 R_push R_segment.
  pose proof (grows_run_one_dont_catch m) as Hg. unfold run_one.
  destruct (run_one_dont_catch_errors m) as [[b|e|] m']; [done| |done].
  by case_bool_decide.
Qed.
End code_relation.

Lemma run_one_code_le m : code_le (code m) (code (run_one m).2).
Proof. apply (run_one_code code_le); [apply code_le_create_segment|]. intros *. apply code_le_push_insn. Qed.

Lemma run_one_code_new m : code_new (code m) (code (run_one m).2).
Proof. apply (run_one_code code_new); [apply code_new_create_segment|]. intros *. apply code_new_push_insn. Qed.
End parts.
