(* ===== verification/EmulatorThms.v ===== *)
(** * Properties of the emulator

    Type safety and progress of [run_one] and [run], gas accounting, growth
    of the code store, termination by gas, the meaning of the arithmetic
    instructions, buffer instructions, and what the gas schedule really
    measures.  The lemmas are those of EmulatorSafe.v and EmulatorFrame.v. *)

From Stdlib Require Import ZArith Lia.
From S2P Require Import Prelude U256 Pos Opcodes Crypto BufferTree Values Blake2b Ripemd160 RuntimeEnv Machine Insns InsnFacts Emulator EmulatorSafe EmulatorFrame.

(** ** Reference semantics of the integer instructions

    The result on the mathematical integers, operands from the top of the
    stack down; [None] where the instruction fails. *)
Section reference.
Local Open Scope Z_scope.

Definition bit (b : bool) : Z := if b then 1 else 0.

(** The signed reading of a 256-bit word. *)
Definition signed (x : Z) : Z := if x <? 2 ^ 255 then x else x - 2 ^ 256.

Definition arity (op : AVMOpcode.t) : option nat :=
  match op with
  | AVMOpcode.IsZero | AVMOpcode.BitwiseNeg => Some 1%nat
  | AVMOpcode.AddMod | AVMOpcode.MulMod => Some 3%nat
  | AVMOpcode.Add | AVMOpcode.Sub | AVMOpcode.Mul | AVMOpcode.Div | AVMOpcode.Mod
  | AVMOpcode.Sdiv | AVMOpcode.Smod | AVMOpcode.Exp | AVMOpcode.SignExtend
  | AVMOpcode.LessThan | AVMOpcode.GreaterThan | AVMOpcode.SLessThan | AVMOpcode.SGreaterThan
  | AVMOpcode.BitwiseAnd | AVMOpcode.BitwiseOr | AVMOpcode.BitwiseXor | AVMOpcode.Byte
  | AVMOpcode.ShiftLeft | AVMOpcode.ShiftRight | AVMOpcode.ShiftArith => Some 2%nat
  | _ => None
  end.

Definition arith_spec (op : AVMOpcode.t) (x y z : Z) : option Z :=
  match op with
  | AVMOpcode.IsZero => Some (bit (x =? 0))
  | AVMOpcode.BitwiseNeg => Some (2 ^ 256 - 1 - x)
  | AVMOpcode.Add => Some ((x + y) mod 2 ^ 256)
  | AVMOpcode.Sub => Some ((x - y) mod 2 ^ 256)
  | AVMOpcode.Mul => Some ((x * y) mod 2 ^ 256)
  | AVMOpcode.Div => if y =? 0 then None else Some (x / y)
  | AVMOpcode.Mod => if y =? 0 then None else Some (x mod y)
  | AVMOpcode.Sdiv => if y =? 0 then None else Some (Z.quot (signed x) (signed y) mod 2 ^ 256)
  | AVMOpcode.Smod => if y =? 0 then None else Some (Z.rem (signed x) (signed y) mod 2 ^ 256)
  | AVMOpcode.AddMod => if z =? 0 then None else Some ((x + y) mod z)
  | AVMOpcode.MulMod => if z =? 0 then None else Some ((x * y) mod z)
  | AVMOpcode.Exp => Some ((x ^ y) mod 2 ^ 256)
  | AVMOpcode.SignExtend => Some (sign_extend_spec x y)
  | AVMOpcode.LessThan => Some (bit (x <? y))
  | AVMOpcode.GreaterThan => Some (bit (y <? x))
  | AVMOpcode.SLessThan => Some (bit (signed x <? signed y))
  | AVMOpcode.SGreaterThan => Some (bit (signed y <? signed x))
  | AVMOpcode.BitwiseAnd => Some (Z.land x y)
  | AVMOpcode.BitwiseOr => Some (Z.lor x y)
  | AVMOpcode.BitwiseXor => Some (Z.lxor x y)
  | AVMOpcode.Byte => Some (if x <? 32 then y / 256 ^ (31 - x) mod 256 else 0)
  | AVMOpcode.ShiftLeft => Some ((y * 2 ^ x) mod 2 ^ 256)
  | AVMOpcode.ShiftRight => Some (y / 2 ^ x)
  | AVMOpcode.ShiftArith =>
      Some (if x <? 2 ^ 64 then (signed y / 2 ^ x) mod 2 ^ 256 else 0)
  | _ => None
  end.
End reference.

(** The operands: one, two or three integers. *)
Definition operands (n : nat) (x y z : Z) : list Value.t := take n [Value.Int x; Value.Int y; Value.Int z].

Section arith.
Context `{HC : Crypto, !CryptoOk, HV : Curve, !CurveOk}.

Lemma bind_pop_uint {B} (k : Z → M B) m x rest :
  stack m = Value.Int x :: rest → (r ← pop_uint; k r) m = k x (set_stack m rest).
Proof. intros Hs. unfold mbind, M_bind, pop_uint, on_stack. by rewrite Hs. Qed.

Lemma bind_must {A B} (k : A → M B) o a m : o = Some a → (r ← must o; k r) m = k a m.
Proof. by intros ->. Qed.

Lemma push_next v m pc pc' : state m = Running pc → CodePt.incr pc = Some pc' →
  (push v;; next) m = (Ok true, set_state (set_stack m (v :: stack m)) (Running pc')).
Proof.
  intros Hs Hi. unfold push, next, upd, mbind, M_bind, incr_pc. cbn [state set_stack].
  by rewrite Hs, Hi.
Qed.

(** The instruction pops its operands and pushes the result, or fails with
    the operands gone. *)
Definition arith_result (r : option Z) (m : Machine) (rest : list Value.t) (pc' : CodePt.t)
    (o : outcome ExecutionError bool * Machine) : Prop :=
  match r with
  | Some r => o = (Ok true, set_state (set_stack m (Value.Int r :: rest)) (Running pc'))
  | None => ∃ e, o = (Err e, set_stack m rest)
  end.

Lemma shift_left_big y x : (256 <= x)%Z → ((y * 2 ^ x) mod 2 ^ 256 = 0)%Z.
Proof.
  intros. replace x with (256 + (x - 256))%Z by lia.
  rewrite Z.pow_add_r, Z.mul_assoc, (Z.mul_comm y), <- Z.mul_assoc, Z.mul_comm by lia.
  apply Z.mod_mul. done.
Qed.

Lemma div_pow2_big y x : Uint256.wf y → (256 <= x)%Z → (y / 2 ^ x = 0)%Z.
Proof.
  intros [? Hy] Hx. apply Z.div_small. split; [done|]. eapply Z.lt_le_trans; [exact Hy|].
  rewrite Uint256.two256_eq. by apply Z.pow_le_mono_r.
Qed.

Lemma res_or_fail o why m rest pc pc' m0 :
  state m = Running pc → CodePt.incr pc = Some pc' → m0 = set_stack m rest →
  arith_result o m rest pc'
    ((match o with Some res => push (Value.Int res);; next | None => fail why None end) m0).
Proof.
  intros Hs Hi ->. destruct o as [r|]; [|by eexists].
  cbn [arith_result]. by rewrite (push_next _ _ pc pc').
Qed.

(** The values computed by the helpers are the reference values. *)
Lemma arith_values x y z : Uint256.wf x → Uint256.wf y → Uint256.wf z →
  Uint256.bitwise_neg x = (2 ^ 256 - 1 - x)%Z ∧
  Uint256.add x y = ((x + y) mod 2 ^ 256)%Z ∧
  Uint256.unchecked_sub x y = Some ((x - y) mod 2 ^ 256)%Z ∧
  Uint256.mul x y = ((x * y) mod 2 ^ 256)%Z ∧
  Uint256.sdiv x y = Some (arith_spec AVMOpcode.Sdiv x y z) ∧
  Uint256.smodulo x y = Some (arith_spec AVMOpcode.Smod x y z) ∧
  Uint256.exp x y = ((x ^ y) mod 2 ^ 256)%Z ∧
  shift_with Uint256.shift_left x y = ((y * 2 ^ x) mod 2 ^ 256)%Z ∧
  shift_with Uint256.shift_right x y = (y / 2 ^ x)%Z ∧
  Some (shift_with Uint256.shift_arith x y) = arith_spec AVMOpcode.ShiftArith x y z.
Proof.
  intros Hx Hy Hz. pose proof Hx as [Hx0 _]. unfold arith_spec.
  rewrite Uint256.bitwise_neg_eq, Uint256.add_eq, Uint256.unchecked_sub_eq, Uint256.mul_eq,
    Uint256.exp_eq by (done || apply Hy).
  split_and!; try done.
  - rewrite Uint256.sdiv_eq by done. f_equal.
    destruct (Z.eqb_spec y 0); [by rewrite bool_decide_eq_true_2|by rewrite bool_decide_eq_false_2].
  - rewrite Uint256.smodulo_eq by done. f_equal.
    destruct (Z.eqb_spec y 0); [by rewrite bool_decide_eq_true_2|by rewrite bool_decide_eq_false_2].
  - unfold shift_with, Uint256.to_usize. destruct (Z.ltb_spec x two64).
    + by rewrite Uint256.shift_left_eq.
    + symmetry. apply shift_left_big. unfold two64 in *. lia.
  - unfold shift_with, Uint256.to_usize. destruct (Z.ltb_spec x two64).
    + unfold Uint256.shift_right. by apply Z.shiftr_div_pow2.
    + symmetry. apply div_pow2_big; [done|]. unfold two64 in *. lia.
  - unfold shift_with, Uint256.to_usize. change (2 ^ 64)%Z with two64.
    destruct (x <? two64)%Z; [|done]. by rewrite Uint256.shift_arith_eq.
Qed.

Lemma exec_arith op n x y z m rest pc pc' g b :
  arity op = Some n → Uint256.wf x → Uint256.wf y → Uint256.wf z →
  stack m = operands n x y z ++ rest → state m = Running pc → CodePt.incr pc = Some pc' →
  arith_result (arith_spec op x y z) m rest pc' (exec op g b m).
Proof.
  intros Ha Hx Hy Hz Hs Hst Hpc.
  destruct (arith_values x y z Hx Hy Hz) as (E1 & E2 & E3 & E4 & E5 & E6 & E7 & E8 & E9 & E10).
  destruct op; try discriminate Ha; injection Ha as <-;
    cbn [operands take app] in Hs; cbn [exec].
  all: unfold op_IsZero, op_BitwiseNeg, op_Add, op_Sub, op_Mul, op_Div, op_Mod, op_Sdiv, op_Smod,
    op_AddMod, op_MulMod, op_Exp, op_SignExtend, op_LessThan, op_GreaterThan, op_SLessThan,
    op_SGreaterThan, op_BitwiseAnd, op_BitwiseOr, op_BitwiseXor, op_Byte, op_ShiftLeft,
    op_ShiftRight, op_ShiftArith.
  all: repeat (erewrite bind_pop_uint; [|first [eassumption|reflexivity]]).
  all: rewrite ?E1, ?E2, ?E4, ?E7, ?E8, ?E9.
  all: unfold push_usize, push_uint.
  all: try (cbn [arith_result arith_spec]; erewrite push_next; [reflexivity|exact Hst|exact Hpc]).
  - erewrite bind_must by exact E3. erewrite push_next; [reflexivity|exact Hst|exact Hpc].
  - by apply res_or_fail with pc.
  - erewrite bind_must by exact E5. by apply res_or_fail with pc.
  - by apply res_or_fail with pc.
  - erewrite bind_must by exact E6. by apply res_or_fail with pc.
  - by apply res_or_fail with pc.
  - by apply res_or_fail with pc.
  - rewrite sign_extend_eq by done. erewrite push_next; [reflexivity|exact Hst|exact Hpc].
  - erewrite bind_must by (by apply byte_of_eq). erewrite push_next; [reflexivity|exact Hst|exact Hpc].
  - rewrite <- E10. erewrite push_next; [reflexivity|exact Hst|exact Hpc].
Qed.
End arith.

(** ** Lemmas on runs *)
Section runs.
Context `{HC : Crypto, HV : Curve}.

(** A property kept by every instruction, by stopping on an error and by the
    last adjustment of the total is kept by a run. *)
Lemma run_loop_inv (P : Machine → Prop) fuel stop gas m gas' m' :
  (∀ m r m', P m → run_one m = (r, m') → r ≠ Panic → P m') →
  (∀ m s, P m → P (set_state m s)) →
  (∀ m t, P m → Uint256.sub (total_gas_usage m) t ≠ None →
     P (set_total m (default 0%Z (Uint256.sub (total_gas_usage m) t)))) →
  P m → run_loop fuel stop gas m = Some (Some (gas', m')) → P m'.
Proof.
  intros Hstep Hstate Htotal. revert gas m; induction fuel as [|fuel IH]; intros gas m Hm; [done|].
  cbn [run_loop]. destruct (negb _); [by intros [= _ <-]|].
  destruct (at_stop stop m); [by intros [= _ <-]|].
  destruct (next_op_gas m) as [og|]; [|done].
  destruct (run_one m) as [r m1] eqn:E. assert (r ≠ Panic → P m1) as Hm1 by (intros; by eapply Hstep).
  destruct r as [[]|e|]; [| | |done].
  - intros Hr. eapply IH; [|exact Hr]. by apply Hm1.
  - specialize (Htotal m1 (Uint256.from_u64 (default 1%Z og)) (Hm1 ltac:(done))).
    destruct (Uint256.sub _ _) as [t|]; [|done]. intros [= _ <-]. by apply Htotal.
  - intros [= _ <-]. by apply Hstate, Hm1.
Qed.

(** ** Instructions that let a machine run only as long as it has gas *)

Definition tame (i : CodeStore.insn) : bool :=
  match Instruction.opcode i with
  | AVMOpcode.SetGas | AVMOpcode.ErrSet | AVMOpcode.PushInsn | AVMOpcode.PushInsnImm
  | AVMOpcode.Blake2f => false
  | _ => true
  end.

Lemma tame_gas m i g : tame i = true → opcode_gas m (Instruction.opcode i) = Some g → (1 <= g)%Z.
Proof.
  unfold tame. pose proof (gas_for_pairing_bound m).
  destruct (Instruction.opcode i); try done; cbn [opcode_gas]; intros _ [= <-]; lia.
Qed.

Lemma tame_code op g b m :
  touches_code op = false ∨ op = AVMOpcode.ErrCodePoint →
  Forall (Forall tame) (code m) → Forall (Forall tame) (code (exec op g b m).2).
Proof.
  intros [E| ->] Hc; [by rewrite exec_code|]. cbn [exec].
  unfold op_ErrCodePoint, CodeStore.create_segment. cbv zeta.
  match goal with |- context [(push ?v;; next)] => assert (frames code (push v;; next)) as Hf end.
  { apply frames_bind; [by apply frames_push|]. intros. by apply frames_next. }
  rewrite Hf. cbn [code set_code]. apply Forall_app; split; [done|]. by repeat constructor.
Qed.

(** One instruction of tame code: the gas falls, the conditions stay. *)
Lemma tame_step `{!CryptoOk, !CurveOk} m m1 :
  wf_machine m → Forall (Forall tame) (code m) → err_codepoint m = CodePt.Null →
  run_one m = (Ok true, m1) →
  wf_machine m1 ∧ Forall (Forall tame) (code m1) ∧ err_codepoint m1 = CodePt.Null ∧
  (arb_gas_remaining m1 < arb_gas_remaining m)%Z.
Proof.
  intros Hm Ht He E. pose proof (run_one_typed m Hm) as Hm1. rewrite E in Hm1. split; [done|].
  unfold run_one in E. destruct (state m) as [|e|pc] eqn:Es.
  1,2: unfold run_one_dont_catch_errors, mbind, M_bind, get in E; rewrite Es in E; cbn in E;
       by rewrite bool_decide_eq_true_2 in E.
  destruct (CodeStore.get_insn (code m) pc) as [[i|]|] eqn:Ei.
  2,3: unfold run_one_dont_catch_errors, mbind, M_bind, get in E; rewrite Es, Ei in E; cbn in E;
       by rewrite ?bool_decide_eq_true_2 in E.
  assert (tame i = true) as Hi by (by eapply Is_true_true, (CodeStore.get_insn_Forall tame)).
  destruct (run_one_step m pc i Hm Es Ei) as (g & Hg & Hb & Heq). rewrite Heq in E.
  assert (arb_gas_remaining (with_immediate m i) = arb_gas_remaining m ∧
          err_codepoint (with_immediate m i) = CodePt.Null ∧ code (with_immediate m i) = code m)
    as (Eg & Ee & Ec) by (unfold with_immediate; by destruct (Instruction.immediate i)).
  destruct (g <=? arb_gas_remaining m)%Z; [|cbn in E; by rewrite bool_decide_eq_true_2 in E].
  set (m0 := charged (with_immediate m i) g) in *.
  match type of E with context [exec ?op ?g0 ?b m0] =>
    pose proof (exec_err op g0 b m0) as He1; pose proof (tame_code op g0 b m0) as Hc1;
    pose proof (exec_gas_continue op g0 b m0) as Hg1; destruct (exec op g0 b m0) as [o m'] end.
  cbn [snd] in *. pose proof (tame_gas _ i g Hi Hg) as Hgpos.
  assert (err_codepoint m' = CodePt.Null) as He'.
  { rewrite He1 by (unfold tame in Hi; by destruct (Instruction.opcode i)). exact Ee. }
  destruct o as [b|e|]; [|by rewrite bool_decide_eq_true_2 in E|done]. injection E as -> ->.
  split_and!; [|done|].
  - apply Hc1; [|by cbn; rewrite Ec]. unfold tame in Hi. destruct (Instruction.opcode i); auto.
  - rewrite (Hg1 m1); [cbn; rewrite Eg; lia| |done].
    unfold tame in Hi. by destruct (Instruction.opcode i).
Qed.
End runs.

(** ** Example machines, for the witnesses *)

Definition demo_env : RuntimeEnvironment.t :=
  RuntimeEnvironment.mk 42161 [] 100000 10000000 [] [] 0 ∅ 0 RtEnvRecorder.new TxCompressor.new
    None 0 [].

Definition demo (ops : list CodeStore.insn) (s : list Value.t) : Machine :=
  start_at_zero (set_stack (Machine_new ops Value.none demo_env) s).

Definition insn_of (op : AVMOpcode.t) : CodeStore.insn := Instruction.from_opcode op DebugInfo_default.
Definition insn_imm (op : AVMOpcode.t) (v : Value.t) : CodeStore.insn :=
  Instruction.from_opcode_imm op v DebugInfo_default.

Lemma demo_wf `{Crypto} ops s : Forall insn_wf ops → Forall Value.wf s → wf_machine (demo ops s).
Proof. intros Ho Hs. constructor; try done; by repeat constructor. Qed.

Lemma wf_set_gas `{Crypto} m g : wf_machine m → Uint256.wf g → wf_machine (set_gas m g).
Proof. intros [] Hg. by constructor. Qed.

(** ** Properties *)

Section properties.
Context `{HC : Crypto, !CryptoOk, HV : Curve, !CurveOk}.

(** C2: type safety.  From a machine in which every value is well-formed
    (integers below [2^256], consistent buffers, no leftover label), each
    instruction that does not panic, whether it succeeds, fails or is caught by
    the error handler, and each complete run, leaves such a machine. *)
Theorem machine_type_safety m :
  wf_machine m →
  (∀ r m', run_one m = (r, m') → r ≠ Panic → wf_machine m') ∧
  (∀ fuel stop gas m', run fuel stop m = Some (Some (gas, m')) → wf_machine m').
Proof.
  assert (∀ m r m', wf_machine m → run_one m = (r, m') → r ≠ Panic → wf_machine m') as Hstep.
  { intros m0 r m' Hm E Hr. pose proof (run_one_typed m0 Hm) as Ht. rewrite E in Ht. by destruct r. }
  intros Hm. split; [by intros; eapply Hstep|].
  intros fuel stop gas m' Hr. eapply run_loop_inv; [exact Hstep| | |exact Hm|exact Hr].
  - intros m0 s []. by constructor.
  - intros m0 t Hm0 Hsub. destruct Hm0. constructor; try done; cbn.
    destruct (Uint256.sub (total_gas_usage m0) t) as [u|] eqn:E; [|done]. unfold Uint256.sub in E.
    destruct (Z.ltb_spec (total_gas_usage m0) t); [done|]. injection E as <-.
    apply Uint256.wf_trim. lia.
Qed.

(** C25: progress.  If the next instruction of a well-formed machine is none of
    PushInsn, PushInsnImm, OpenInsn, DebugPrint, Send and InboxPeek, and the
    program counter has a successor ([safe_to_run]: it is not Null, not External
    and not the last position, offset 0, of a segment), the step does not panic.
    If an error handler is installed after the step, the step reports no error.
    A machine that does not run satisfies the conditions. *)
Theorem machine_progress m :
  wf_machine m → safe_to_run m = true →
  ∃ r m', run_one m = (r, m') ∧ r ≠ Panic ∧ (err_codepoint m' ≠ CodePt.Null → ∃ b, r = Ok b).
Proof.
  intros Hm Hs. pose proof (run_one_typed m Hm) as Ht. unfold run_one in *.
  destruct (run_one_dont_catch_errors m) as [[b|e|] m']; [by eauto 8| |congruence].
  case_bool_decide as Hn; [|by eauto 8].
  eexists _, _. split; [done|]. split; [done|]. intros Hne. by rewrite Hn in Hne.
Qed.

(** Without enough gas, an instruction leaves its immediate operand on the stack
    and the maximum of gas; the rest is the error handler's. *)
Lemma run_one_poor m pc i g :
  wf_machine m → state m = Running pc → CodeStore.get_insn (code m) pc = Some (Some i) →
  opcode_gas (with_immediate m i) (Instruction.opcode i) = Some g → (arb_gas_remaining m < g)%Z →
  run_one m = (let m1 := set_gas (with_immediate m i) (2 ^ 256 - 1) in
               if bool_decide (err_codepoint m = CodePt.Null) then (Err (RunningErr "Out of ArbGas" pc None), m1)
               else (Ok true, set_state m1 (Running (err_codepoint m)))).
Proof.
  intros Hm Hs Hi Hg Hlt. destruct (run_one_step m pc i Hm Hs Hi) as (g' & Hg' & _ & Heq).
  rewrite Hg in Hg'. injection Hg' as <-. rewrite (proj2 (Z.leb_gt _ _) Hlt) in Heq.
  assert (err_codepoint (with_immediate m i) = err_codepoint m) as Ee
    by (unfold with_immediate; by destruct (Instruction.immediate i)).
  unfold run_one. rewrite Heq. cbn [err_codepoint set_gas]. rewrite Ee. by repeat case_bool_decide; try congruence.
Qed.

(** C18: gas accounting.  Every executed instruction is charged exactly the
    price the schedule gives at that point: the total grows by it (modulo
    [2^256]) whatever the instruction does, and the remaining gas falls by it
    unless the instruction is SetGas, Inbox or InboxPeek, which set the gas or
    give it back when they are blocked.  Without enough gas nothing of the
    instruction is executed: the machine afterwards is the one before with the
    immediate operand of the instruction on the stack, the remaining gas at its
    maximum, and, if an error handler is installed, the program counter at the
    handler; without a handler the step ends with the error Out of ArbGas. *)
Theorem gas_accounting m pc i r m' :
  wf_machine m → state m = Running pc → CodeStore.get_insn (code m) pc = Some (Some i) →
  run_one m = (r, m') →
  ∃ g, opcode_gas (with_immediate m i) (Instruction.opcode i) = Some g ∧ (0 <= g < 2 ^ 64)%Z ∧
  (if (g <=? arb_gas_remaining m)%Z
   then total_gas_usage m' = ((total_gas_usage m + g) mod 2 ^ 256)%Z ∧
        (touches_gas (Instruction.opcode i) = false →
         arb_gas_remaining m' = arb_gas_remaining m - g)%Z
   else let m1 := set_gas (with_immediate m i) (2 ^ 256 - 1) in
        (err_codepoint m = CodePt.Null → r = Err (RunningErr "Out of ArbGas" pc None) ∧ m' = m1) ∧
        (err_codepoint m ≠ CodePt.Null → r = Ok true ∧ m' = set_state m1 (Running (err_codepoint m)))).
Proof.
  intros Hm Hs Hi Hr. destruct (run_one_step m pc i Hm Hs Hi) as (g & Hg & Hb & Heq).
  exists g. split; [done|]. split; [done|]. destruct (Z.leb_spec g (arb_gas_remaining m)) as [Hle|Hlt].
  - unfold run_one in Hr. rewrite Heq in Hr.
    assert (arb_gas_remaining (with_immediate m i) = arb_gas_remaining m ∧
            total_gas_usage (with_immediate m i) = total_gas_usage m) as [Eg Et]
      by (unfold with_immediate; by destruct (Instruction.immediate i)).
    match type of Hr with context [exec ?op ?g0 ?b ?m0] =>
      pose proof (exec_total op g0 b m0) as Ht; pose proof (exec_gas op g0 b m0) as Hgas;
      destruct (exec op g0 b m0) as [o m1] end.
    cbn [snd] in *. cbn in Ht, Hgas. rewrite Et, Uint256.add_eq in Ht by (apply Hm || by apply Uint256.wf_small).
    rewrite Eg in Hgas.
    assert (total_gas_usage m' = total_gas_usage m1 ∧ arb_gas_remaining m' = arb_gas_remaining m1)
      as [-> ->] by (destruct o; [|case_bool_decide|]; by simplify_eq).
    by split.
  - rewrite (run_one_poor m pc i g) in Hr by done. cbn zeta in Hr. split; intros He; case_bool_decide; simplify_eq; done.
Qed.


(** Code is append-only.  Whatever a run executes, every code segment keeps
    its instructions as a prefix, so a code point that could be fetched before
    the run yields the same instruction after it. *)
Theorem code_append_only fuel stop gas m m' :
  run fuel stop m = Some (Some (gas, m')) →
  code_le (code m) (code m') ∧
  ∀ cp i, CodeStore.get_insn (code m) cp = Some (Some i) →
          CodeStore.get_insn (code m') cp = Some (Some i).
Proof.
  intros Hr. assert (code_le (code m) (code m')) as Hle.
  { eapply (run_loop_inv (λ x, code_le (code m) (code x))); [| | |reflexivity|exact Hr]; try done.
    intros m0 r m1 Hle E _. etrans; [exact Hle|]. pose proof (run_one_code_le m0). by rewrite E in *. }
  split; [done|]. intros cp i. by apply code_le_get_insn.
Qed.

(** C26: gas bounds runs of tame code.  When the code holds none of the instructions
    SetGas, which sets the gas, ErrSet, which installs an error handler, PushInsn
    and PushInsnImm, which write code, and Blake2f, which is free for zero rounds
    ([tame]), and no error handler is installed at the start (a handler is given
    new gas when the gas runs out), [run] on a well-formed machine comes to an end
    within as many steps as there is gas. *)
Theorem run_terminates fuel stop m :
  wf_machine m → Forall (Forall tame) (code m) → err_codepoint m = CodePt.Null →
  (arb_gas_remaining m < Z.of_nat fuel)%Z →
  run fuel stop m ≠ None.
Proof.
  unfold run. generalize 0%Z. revert m. induction fuel as [|fuel IH]; intros m gas0 Hm Ht He Hf.
  { destruct (wf_gas m Hm). lia. }
  cbn [run_loop]. destruct (negb _); [done|]. destruct (at_stop stop m); [done|].
  destruct (next_op_gas m) as [og|] eqn:Eo; [|done].
  destruct (run_one m) as [r m1] eqn:E.
  destruct r as [[]|e|]; [|by destruct (Uint256.sub _ _)|done|done].
  destruct (tame_step m m1) as (? & ? & ? & ?); [done..|]. apply IH; try done. lia.
Qed.

(** C10: the integer instructions compute the reference functions.  With
    well-formed operands on top of the stack (counting the immediate) and
    enough gas, an integer instruction replaces them by the mathematical
    result, charges its gas and moves to the next instruction; where the
    function is undefined (a zero divisor or modulus) the operands are gone
    and an error is raised, which the handler catches if there is one. *)
Theorem arith_instructions m pc pc' i n x y z rest g :
  wf_machine m → state m = Running pc → CodePt.incr pc = Some pc' →
  CodeStore.get_insn (code m) pc = Some (Some i) →
  arity (Instruction.opcode i) = Some n →
  stack (with_immediate m i) = operands n x y z ++ rest →
  Uint256.wf x → Uint256.wf y → Uint256.wf z →
  opcode_gas m (Instruction.opcode i) = Some g → (g <= arb_gas_remaining m)%Z →
  let m0 := charged (with_immediate m i) g in
  match arith_spec (Instruction.opcode i) x y z with
  | Some r => run_one m = (Ok true, set_state (set_stack m0 (Value.Int r :: rest)) (Running pc'))
  | None =>
      if bool_decide (err_codepoint m = CodePt.Null)
      then ∃ e, run_one m = (Err e, set_stack m0 rest)
      else run_one m = (Ok true, set_state (set_stack m0 rest) (Running (err_codepoint m)))
  end.
Proof.
  intros Hm Hs Hpc Hi Ha Hst Hx Hy Hz Hg Hle m0.
  destruct (run_one_step m pc i Hm Hs Hi) as (g' & Hg' & _ & Heq).
  assert (g' = g) as ->.
  { destruct (Instruction.opcode i); try discriminate Ha; cbn in Hg, Hg'; congruence. }
  rewrite (proj2 (Z.leb_le _ _)) in Heq by done. fold m0 in Heq.
  assert (state m0 = Running pc ∧ stack m0 = stack (with_immediate m i) ∧
          err_codepoint m0 = err_codepoint m) as (Es & Est & Ee)
    by (unfold m0, with_immediate; rewrite <- Hs; by destruct (Instruction.immediate i)).
  pose proof (exec_arith (Instruction.opcode i) n x y z m0 rest pc pc' (arb_gas_remaining m)
    (bool_decide (is_Some (Instruction.immediate i))) Ha Hx Hy Hz) as Hr.
  rewrite Est in Hr. specialize (Hr Hst Es Hpc). unfold run_one. rewrite Heq.
  destruct (arith_spec (Instruction.opcode i) x y z); cbn [arith_result] in Hr; [by rewrite Hr|].
  destruct Hr as [e ->]. cbn [err_codepoint set_stack]. rewrite Ee.
  clear Heq. case_bool_decide; [by eexists|done].
Qed.

(** A machine blocked on an empty inbox can be resumed.  Inbox leaves the
    machine exactly as it was, except that the total gas has been counted
    (which [run] takes back), so running again after a message has arrived
    executes the same instruction in the same state; InboxPeek does so too
    when it has no immediate operand, but with one it leaves the operand on
    the stack, where a second attempt pushes it again. *)
Theorem blocked_inbox m pc i bn rest :
  wf_machine m → state m = Running pc → CodeStore.get_insn (code m) pc = Some (Some i) →
  RuntimeEnvironment.l1_inbox (runtime_env m) = [] → (40 <= arb_gas_remaining m)%Z →
  let m' := set_total m (Uint256.add (total_gas_usage m) 40) in
  (Instruction.opcode i = AVMOpcode.Inbox → run_one m = (Ok false, m')) ∧
  (Instruction.opcode i = AVMOpcode.InboxPeek →
   stack (with_immediate m i) = Value.Int bn :: rest →
   run_one m = (Ok false, set_stack m' (Value.Int bn :: rest))).
Proof.
  intros Hm Hs Hi Hin Hgas m'.
  destruct (run_one_step m pc i Hm Hs Hi) as (g & Hg & _ & Heq).
  split; intros Hop; rewrite Hop in *; injection Hg as <-;
    rewrite (proj2 (Z.leb_le _ _)) in Heq by done; unfold run_one; rewrite Heq.
  - cbn [exec]. unfold op_Inbox, RuntimeEnvironment.get_from_inbox, with_immediate.
    destruct (Instruction.immediate i) as [v|]; cbn; rewrite Hin;
      cbn; by destruct m.
  - intros Hst. cbn [exec]. unfold op_InboxPeek.
    rewrite (bind_pop_uint _ _ bn rest) by (rewrite <- Hst; done).
    unfold with_immediate in *. destruct (Instruction.immediate i) as [v|];
      unfold mbind, M_bind, get, RuntimeEnvironment.peek_at_inbox_head;
      cbn [charged set_total set_gas set_stack runtime_env]; rewrite Hin; cbn; by destruct m.
Qed.

(** [k] attempts to execute the next instruction. *)
Fixpoint attempts (k : nat) (m : Machine) : Machine :=
  match k with O => m | S k => attempts k (run_one m).2 end.

Lemma attempts_blocked k : ∀ m pc i,
  wf_machine m → state m = Running pc → CodeStore.get_insn (code m) pc = Some (Some i) →
  RuntimeEnvironment.l1_inbox (runtime_env m) = [] → (40 <= arb_gas_remaining m)%Z → Instruction.opcode i = AVMOpcode.Inbox →
  ∃ g, attempts k m = set_total m g ∧ Uint256.wf g.
Proof.
  induction k as [|k IH]; intros m pc i Hm Hs Hi Hin Hgas Hop; cbn [attempts].
  - exists (total_gas_usage m). split; [by destruct m|apply Hm].
  - destruct (blocked_inbox m pc i 0%Z [] Hm Hs Hi Hin Hgas) as [Hb _]. rewrite (Hb Hop). cbn [snd].
    assert (wf_machine (set_total m (Uint256.add (total_gas_usage m) 40))) as Hm'.
    { destruct Hm. constructor; try done. by apply Uint256.wf_add. }
    destruct (IH _ pc i Hm') as (g & -> & Hg); try done. exists g. by destruct m.
Qed.

(** C28: a machine that waits at an Inbox instruction makes progress as soon as
    a message arrives: however often it was tried while the inbox was empty,
    the first attempt after the arrival executes the instruction, takes the
    first message out of the inbox, pushes it on the stack the machine had when
    it began to wait, and goes on at the next instruction; the waiting cost no
    gas of its budget. *)
Theorem inbox_delivers m pc pc' i k e v vs :
  wf_machine m → state m = Running pc → CodePt.incr pc = Some pc' → CodeStore.get_insn (code m) pc = Some (Some i) →
  RuntimeEnvironment.l1_inbox (runtime_env m) = [] → (40 <= arb_gas_remaining m)%Z → Instruction.opcode i = AVMOpcode.Inbox →
  RuntimeEnvironment.l1_inbox e = v :: vs → Forall Value.wf (v :: vs) →
  ∃ m', run_one (set_env (attempts k m) e) = (Ok true, m') ∧
    stack m' = v :: stack (with_immediate m i) ∧ state m' = Running pc' ∧
    RuntimeEnvironment.l1_inbox (runtime_env m') = vs ∧ arb_gas_remaining m' = (arb_gas_remaining m - 40)%Z.
Proof.
  intros Hm Hs Hpc Hi Hin Hgas Hop He Hwf. destruct (attempts_blocked k m pc i Hm Hs Hi Hin Hgas Hop) as (g & -> & Hg).
  assert (wf_machine (set_env (set_total m g) e)) as Hm'.
  { destruct Hm. constructor; try done. cbn. by rewrite He. }
  destruct (run_one_step _ pc i Hm' Hs Hi) as (c & Hc & _ & Heq). rewrite Hop in *. injection Hc as <-.
  cbn [set_env set_total arb_gas_remaining] in Heq. rewrite (proj2 (Z.leb_le _ _) Hgas) in Heq.
  unfold run_one. rewrite Heq. cbn [exec]. unfold op_Inbox, RuntimeEnvironment.get_from_inbox, with_immediate.
  destruct (Instruction.immediate i) as [w|]; cbn; rewrite He;
    unfold next, incr_pc, push, upd, mbind, M_bind; cbn; rewrite Hs, Hpc; cbn; eexists; by split_and!.
Qed.

(** The dynamic gas prices are read from the wrong end of the stack.  The
    price of EcPairing and of Blake2f depends only on the bottom element of
    the stack: with an integer at the bottom EcPairing costs 1000 and Blake2f
    costs 10 whatever operand they are applied to, for instance a Blake2f
    operand asking for any number of rounds. *)
Theorem dynamic_gas_reads_bottom m operand s n :
  stack m = operand :: s ++ [Value.Int n] →
  opcode_gas m AVMOpcode.EcPairing = Some 1000%Z ∧ opcode_gas m AVMOpcode.Blake2f = Some 10%Z.
Proof.
  intros Hs. cbn [opcode_gas]. unfold gas_for_pairing, gas_for_blake2f.
  rewrite Hs, reverse_cons, reverse_app. split; done.
Qed.

(** An arithmetic right shift by [2^64] or more gives zero even for a
    negative number, for which every shift by 255 up to [2^64 - 1] gives -1. *)
Theorem shift_arith_discontinuity s x :
  Uint256.wf s → Uint256.wf x → (2 ^ 255 <= x)%Z → (255 <= s)%Z →
  shift_with Uint256.shift_arith s x = (if s <? 2 ^ 64 then 2 ^ 256 - 1 else 0)%Z.
Proof.
  intros Hs Hx Hneg Hge. destruct (arith_values s x 0 Hs Hx ltac:(done)) as (_&_&_&_&_&_&_&_&_&E).
  cbn [arith_spec] in E. injection E as ->. destruct (s <? 2 ^ 64)%Z; [|done].
  unfold signed. rewrite (proj2 (Z.ltb_ge _ _)) by done. destruct Hx as [_ Hx].
  rewrite Uint256.two256_eq in Hx.
  rewrite Uint256.div_neg_small; [done|].
  assert (2 ^ 255 <= 2 ^ s)%Z by (apply Z.pow_le_mono_r; lia).
  change (2 ^ 256)%Z with (2 * 2 ^ 255)%Z in *. lia.
Qed.

(** A pairing list with [MAX_PAIRING_SIZE] or more pairs is rejected: the
    empty tuple that ends it is looked for only in the first thirty cells, so
    29 pairs are the most EcPairing can check, while its gas price counts 30. *)
Theorem pairing_limit (pts : list (list Z)) :
  Forall (λ us, length us = 6%nat ∧ is_Some (pairing_of us)) pts →
  let v := foldr (λ us next, Value.Tuple [Value.Tuple (Value.Int <$> us); next]) Value.none pts in
  is_Some (do_ecpairing v) ↔ (length pts < MAX_PAIRING_SIZE)%nat.
Proof.
  intros Hp v. unfold v, do_ecpairing. generalize gt_one. generalize MAX_PAIRING_SIZE.
  induction Hp as [|us pts [Hl [g Hg]] Hpts IH]; intros n acc.
  - destruct n; cbn; [split; [by intros []|lia]|]. split; [lia|by eexists].
  - destruct n as [|n]; cbn [foldr ecpairing_loop length]; [split; [by intros []|lia]|].
    rewrite length_fmap, Hl. cbn [Nat.eqb].
    assert (value_ints (Value.Int <$> us) = Some us) as ->.
    { clear. induction us; [done|]. cbn. by rewrite IHus. }
    rewrite Hg, IH. lia.
Qed.

End properties.

(** ** Buffer instructions *)
Section buffers.
Context `{HC : Crypto}.

Lemma bind_pop_usize {B} (k : Z → M B) m x rest :
  stack m = Value.Int x :: rest → (x < two64)%Z → (r ← pop_usize; k r) m = k x (set_stack m rest).
Proof.
  intros Hs Hx. unfold mbind, M_bind, pop_usize, on_stack, ValueStack.pop_usize, ValueStack.pop_uint.
  rewrite Hs. cbn [ValueStack.pop]. unfold Uint256.to_usize. by rewrite (proj2 (Z.ltb_lt _ _)).
Qed.

Lemma bind_pop_buffer {B} (k : Buffer.t → M B) m b rest :
  stack m = Value.Buffer b :: rest → (r ← pop_buffer; k r) m = k b (set_stack m rest).
Proof. intros Hs. unfold mbind, M_bind, pop_buffer, on_stack. by rewrite Hs. Qed.

Lemma offset_overflows_eq o n : (0 <= o < two64)%Z → (0 <= n < two64)%Z →
  offset_overflows o n = negb (o + n <? two64)%Z.
Proof.
  intros Ho Hn. unfold offset_overflows, wrapping_add. change (2 ^ 64)%Z with two64.
  destruct (Z.ltb_spec (o + n) two64); simpl.
  - rewrite Z.mod_small by lia. apply Z.ltb_ge. lia.
  - assert ((o + n) mod two64 = o + n - two64)%Z as ->; [|apply Z.ltb_lt; lia].
    rewrite <- (Z.mod_add _ (-1)) by (unfold two64; lia). apply Z.mod_small. lia.
Qed.

(** Writing the first [n] bytes of an integer and reading [n] bytes back. *)
Lemma write_read_int buf off x n : Buffer.ok buf → (0 <= off)%Z → Uint256.wf x → (n <= 32)%nat →
  (off + Z.of_nat n <= two64)%Z →
  ∃ buf', write_all Buffer.set_byte buf off (take n (Uint256.to_bytes_be x)) = Some buf' ∧
    Buffer.ok buf' ∧
    read_all Buffer.read_byte buf' off n = Some (take n (Uint256.to_bytes_be x)) ∧
    (∀ o, (0 <= o < off ∨ off + Z.of_nat n <= o)%Z → Buffer.read_byte buf' o = Buffer.read_byte buf o).
Proof.
  intros Hb Ho Hx Hn Hoff. set (bs := take n (Uint256.to_bytes_be x)).
  assert (length bs = n) as Hl
    by (unfold bs; rewrite length_take, Uint256.length_to_bytes_be by done; lia).
  assert (digits_ok 256 bs) as Hd by (by apply Forall_take, Uint256.to_bytes_be_ok).
  destruct (write_all_ok bs buf off) as (buf' & Hw & Hok & _ & Hr); [exact Hb|done|by rewrite Hl|done|].
  exists buf'. split; [exact Hw|]. split; [exact Hok|]. split.
  - rewrite <- Hl at 1. change Buffer.read_byte with (@bs_read Buffer.t _).
    eapply read_write_all; [exact Hb|done|by rewrite Hl|done|exact Hw].
  - intros o Hout. change (Buffer.read_byte buf' o) with (bs_read buf' o). rewrite Hr by lia.
    rewrite bool_decide_eq_false_2; [done|]. rewrite Hl. lia.
Qed.

Lemma take_bytes x n : Uint256.wf x → (n <= 32)%nat →
  Uint256.from_bytes (take n (Uint256.to_bytes_be x)) = (x / 256 ^ Z.of_nat (32 - n))%Z.
Proof.
  intros Hx Hn. pose proof (Uint256.from_to_bytes_be x Hx) as E.
  pose proof (Uint256.length_to_bytes_be x Hx) as Hl. pose proof (Uint256.to_bytes_be_ok x Hx) as Hd.
  set (bs := Uint256.to_bytes_be x) in *. clearbody bs. unfold Uint256.from_bytes in *.
  rewrite <- (take_drop n bs), undigits_be_app, length_drop, Hl in E.
  assert (digits_ok 256 (drop n bs)) as Hdd by (by apply Forall_drop).
  pose proof (undigits_be_bound 256 ltac:(lia) _ Hdd) as Hb. rewrite length_drop, Hl in Hb.
  rewrite <- E. rewrite Z.add_comm, Z.div_add by (apply Z.pow_nonzero; lia).
  rewrite Z.div_small by done. lia.
Qed.

(** SetBuffer256 and GetBuffer256 round-trip at every offset that leaves
    room for 32 bytes below [2^64], touching no other byte; at the last 31
    offsets both raise an error instead. *)
Theorem buffer256_roundtrip m pc pc' off x buf rest :
  state m = Running pc → CodePt.incr pc = Some pc' →
  stack m = Value.Int off :: Value.Int x :: Value.Buffer buf :: rest →
  Buffer.ok buf → Uint256.wf x → (0 <= off < 2 ^ 64)%Z →
  if (off + 31 <? 2 ^ 64)%Z then
    ∃ buf', op_SetBuffer256 m = (Ok true, set_state (set_stack m (Value.Buffer buf' :: rest)) (Running pc')) ∧
      Buffer.ok buf' ∧
      (∀ o, (0 <= o < off ∨ off + 32 <= o)%Z → Buffer.read_byte buf' o = Buffer.read_byte buf o) ∧
      op_GetBuffer256 (set_stack m (Value.Int off :: Value.Buffer buf' :: rest)) =
        (Ok true, set_state (set_stack m (Value.Int x :: rest)) (Running pc'))
  else
    (∃ e, op_SetBuffer256 m = (Err e, set_stack m (Value.Int x :: Value.Buffer buf :: rest))) ∧
    (∃ e, op_GetBuffer256 (set_stack m (Value.Int off :: Value.Buffer buf :: rest)) =
          (Err e, set_stack m rest)).
Proof.
  intros Hs Hpc Hst Hb Hx Hoff. change (2 ^ 64)%Z with two64 in *.
  assert (offset_overflows off 31 = negb (off + 31 <? two64)%Z) as Hov
    by (apply offset_overflows_eq; [done|done]).
  unfold op_SetBuffer256, op_GetBuffer256.
  rewrite (bind_pop_usize _ m off (Value.Int x :: Value.Buffer buf :: rest)) by (done || lia).
  destruct (Z.ltb_spec (off + 31) two64) as [Hlt|Hge]; rewrite Hov; cbn [negb].
  - destruct (write_read_int buf off x 32) as (buf' & Hw & Hok & Hr & Hframe); [done|lia|done|lia|lia|].
    exists buf'. rewrite (bind_pop_uint _ _ x (Value.Buffer buf :: rest)) by done.
    rewrite (bind_pop_buffer _ _ buf rest) by done. rewrite (bind_must _ _ _ _ Hw).
    rewrite (push_next _ _ pc pc') by done. split; [done|]. split; [done|]. split; [done|].
    rewrite (bind_pop_usize _ _ off (Value.Buffer buf' :: rest)) by (done || lia).
    rewrite (bind_pop_buffer _ _ buf' rest) by done. rewrite Hov. cbn [negb].
    rewrite (bind_must _ _ _ _ Hr), take_bytes by (done || lia).
    unfold push_uint. rewrite (push_next _ _ pc pc') by done. by rewrite Z.div_1_r.
  - split; [by eexists|]. rewrite (bind_pop_usize _ _ off (Value.Buffer buf :: rest)) by (done || lia).
    rewrite (bind_pop_buffer _ _ buf rest) by done. rewrite Hov. by eexists.
Qed.

(** SetBuffer64 stores the eight most significant bytes of its 256-bit
    operand, so GetBuffer64 reads back the operand divided by [2^192]: every
    64-bit number is stored as zero. *)
Theorem buffer64_stores_high_bytes m pc pc' off x buf rest :
  state m = Running pc → CodePt.incr pc = Some pc' →
  stack m = Value.Int off :: Value.Int x :: Value.Buffer buf :: rest →
  Buffer.ok buf → Uint256.wf x → (0 <= off)%Z → (off + 8 <= 2 ^ 64)%Z →
  ∃ buf', op_SetBuffer64 m = (Ok true, set_state (set_stack m (Value.Buffer buf' :: rest)) (Running pc')) ∧
    op_GetBuffer64 (set_stack m (Value.Int off :: Value.Buffer buf' :: rest)) =
      (Ok true, set_state (set_stack m (Value.Int (x / 2 ^ 192) :: rest)) (Running pc')) ∧
    ((x < 2 ^ 64)%Z → (x / 2 ^ 192)%Z = 0%Z).
Proof.
  intros Hs Hpc Hst Hb Hx Ho Hoff. change (2 ^ 64)%Z with two64 in *.
  assert (offset_overflows off 7 = false) as Hov.
  { rewrite offset_overflows_eq by (done || lia). by rewrite (proj2 (Z.ltb_lt _ _)) by lia. }
  unfold op_SetBuffer64, op_GetBuffer64.
  rewrite (bind_pop_usize _ m off (Value.Int x :: Value.Buffer buf :: rest)) by (done || lia).
  destruct (write_read_int buf off x 8) as (buf' & Hw & Hok & Hr & _); [done|lia|done|lia|lia|].
  exists buf'. rewrite Hov, (bind_pop_uint _ _ x (Value.Buffer buf :: rest)) by done.
  rewrite (bind_pop_buffer _ _ buf rest) by done. rewrite (bind_must _ _ _ _ Hw).
  rewrite (push_next _ _ pc pc') by done. split; [done|]. split.
  - rewrite (bind_pop_usize _ _ off (Value.Buffer buf' :: rest)) by (done || lia).
    rewrite (bind_pop_buffer _ _ buf' rest) by done. rewrite Hov.
    rewrite (bind_must _ _ _ _ Hr), take_bytes by (done || lia).
    unfold push_uint. rewrite (push_next _ _ pc pc') by done. done.
  - intros Hsmall. destruct Hx. apply Z.div_small. split; [done|].
    eapply Z.lt_le_trans; [exact Hsmall|]. done.
Qed.
End buffers.

(** ** Witnesses *)
Section witnesses.
#[local] Existing Instance toy_crypto.
#[local] Existing Instance toy_curve.

Definition adder : Machine :=
  demo [insn_imm AVMOpcode.Add (Value.Int 5); insn_of AVMOpcode.Halt] [Value.Int 7].

Lemma adder_wf : wf_machine adder.
Proof. apply demo_wf; repeat constructor; by_eval. Qed.

Lemma machine_type_safety_witness : wf_machine adder ∧ wf_machine (run_one adder).2.
Proof.
  split; [exact adder_wf|].
  destruct (machine_type_safety adder adder_wf) as [H _].
  refine (H _ _ (surjective_pairing (run_one adder)) _). vm_compute. discriminate.
Defined.

Lemma machine_progress_witness :
  safe_to_run adder = true ∧ ∃ r m', run_one adder = (r, m') ∧ r ≠ Panic.
Proof.
  split; [reflexivity|].
  destruct (machine_progress adder adder_wf eq_refl) as (r & m' & E & Hr & _).
  exists r, m'. exact (conj E Hr).
Defined.

Lemma gas_accounting_witness :
  total_gas_usage (run_one adder).2 = 3%Z ∧
  ∃ g, opcode_gas (with_immediate adder (insn_imm AVMOpcode.Add (Value.Int 5))) AVMOpcode.Add = Some g.
Proof.
  split; [reflexivity|].
  destruct (gas_accounting adder (CodePt.Internal 0) (insn_imm AVMOpcode.Add (Value.Int 5))
    (run_one adder).1 (run_one adder).2 adder_wf eq_refl eq_refl
    (surjective_pairing (run_one adder))) as (g & Hg & _).
  exists g. exact Hg.
Defined.


Definition final_of (m : Machine) : Machine :=
  match run 10 None m with
  | Some (Some (_, m')) => m'
  | _ => m
  end.

Lemma code_append_only_witness :
  CodeStore.get_insn (code (final_of adder)) (CodePt.Internal 1) = Some (Some (insn_of AVMOpcode.Halt)).
Proof.
  destruct (code_append_only 10 None 3 adder (final_of adder)) as [_ H]; [by_eval|].
  apply H. reflexivity.
Defined.

Definition looper : Machine :=
  set_gas (demo [insn_imm AVMOpcode.Jump (Value.CodePoint (CodePt.Internal 0))] []) 30.

Lemma run_terminates_witness : run 40 None looper ≠ None.
Proof.
  apply run_terminates.
  - apply wf_set_gas; [apply demo_wf; repeat constructor|by_eval].
  - repeat constructor.
  - reflexivity.
  - by_eval.
Defined.

Lemma arith_instructions_witness :
  ∃ m', run_one adder = (Ok true, m') ∧ stack m' = [Value.Int 12].
Proof.
  assert (H := arith_instructions adder (CodePt.Internal 0) (CodePt.Internal 1)
    (insn_imm AVMOpcode.Add (Value.Int 5)) 2 5 7 0 [] 3 adder_wf eq_refl eq_refl eq_refl eq_refl
    eq_refl ltac:(by_eval) ltac:(by_eval) ltac:(by_eval) eq_refl ltac:(by_eval)).
  cbv zeta in H.
  change (arith_spec (Instruction.opcode (insn_imm AVMOpcode.Add (Value.Int 5))) 5 7 0)
    with (Some 12%Z) in H.
  eexists. split; [exact H|]. reflexivity.
Defined.

Definition waiting : Machine := demo [insn_of AVMOpcode.Inbox] [].

Lemma blocked_inbox_witness :
  run_one waiting = (Ok false, set_total waiting (Uint256.add (total_gas_usage waiting) 40)).
Proof.
  destruct (blocked_inbox waiting (CodePt.Internal 0) (insn_of AVMOpcode.Inbox) 0 []) as [H _].
  - apply demo_wf; repeat constructor.
  - reflexivity.
  - reflexivity.
  - reflexivity.
  - by_eval.
  - apply H. reflexivity.
Defined.

Lemma inbox_delivers_witness :
  ∃ m', run_one (set_env (attempts 3 waiting) (RuntimeEnvironment.with_inbox demo_env [Value.Int 7])) = (Ok true, m') ∧
    stack m' = [Value.Int 7].
Proof.
  destruct (inbox_delivers waiting (CodePt.Internal 0) (CodePt.Internal 1) (insn_of AVMOpcode.Inbox) 3
              (RuntimeEnvironment.with_inbox demo_env [Value.Int 7]) (Value.Int 7) []) as (m' & Hr & Hst & _).
  - apply demo_wf; repeat constructor.
  - reflexivity.
  - reflexivity.
  - reflexivity.
  - reflexivity.
  - by_eval.
  - reflexivity.
  - reflexivity.
  - repeat constructor; by_eval.
  - exists m'. split; [exact Hr|exact Hst].
Defined.

Lemma dynamic_gas_reads_bottom_witness :
  opcode_gas (demo [] [Value.none; Value.Int 4]) AVMOpcode.EcPairing = Some 1000%Z.
Proof.
  apply (dynamic_gas_reads_bottom (demo [] [Value.none; Value.Int 4]) Value.none [] 4). reflexivity.
Defined.

Lemma shift_arith_discontinuity_witness :
  shift_with Uint256.shift_arith (2 ^ 64) (2 ^ 255) = 0%Z ∧
  shift_with Uint256.shift_arith 300 (2 ^ 255) = (2 ^ 256 - 1)%Z.
Proof. split; (rewrite shift_arith_discontinuity; by_eval). Defined.

Lemma pairing_limit_witness :
  let v := foldr (λ us next, Value.Tuple [Value.Tuple (Value.Int <$> us); next]) Value.none
             (replicate 30 [1; 2; 3; 4; 5; 6]%Z) in
  ¬ is_Some (do_ecpairing v).
Proof.
  intros v Hv. apply (pairing_limit (replicate 30 [1; 2; 3; 4; 5; 6]%Z)) in Hv.
  - vm_compute in Hv. lia.
  - apply Forall_replicate. split; [reflexivity|]. eexists. reflexivity.
Defined.

Definition bufdemo : Machine :=
  demo [insn_of AVMOpcode.SetBuffer256] [Value.Int 100; Value.Int 77; Value.Buffer Buffer.new_empty].

Lemma buffer256_roundtrip_witness :
  ∃ buf', op_SetBuffer256 bufdemo =
    (Ok true, set_state (set_stack bufdemo [Value.Buffer buf']) (Running (CodePt.Internal 1))).
Proof.
  destruct (buffer256_roundtrip bufdemo (CodePt.Internal 0) (CodePt.Internal 1) 100 77
    Buffer.new_empty [] eq_refl eq_refl eq_refl Buffer.empty_ok) as (b & H & _); [by_eval|by_eval|].
  exists b. exact H.
Defined.

Lemma buffer64_stores_high_bytes_witness :
  ∃ buf', op_GetBuffer64 (set_stack bufdemo [Value.Int 100; Value.Buffer buf']) =
    (Ok true, set_state (set_stack bufdemo [Value.Int 0]) (Running (CodePt.Internal 1))).
Proof.
  destruct (buffer64_stores_high_bytes bufdemo (CodePt.Internal 0) (CodePt.Internal 1) 100 77
    Buffer.new_empty [] eq_refl eq_refl eq_refl Buffer.empty_ok) as (b & _ & H & _); [by_eval..|].
  exists b. exact H.
Defined.
End witnesses.
