(* ===== verification/StraightLine.v ===== *)
(** * Straight-line code

    The stack instructions as a function [view_op] on what they work on: the
    two stacks and the register.  [steps] runs a sequence of instructions;
    [straight_line] shows that the emulator, given the gas, does the same.
    The correctness of generated and of optimised code is stated with
    [steps]. *)

From Stdlib Require Import ZArith Lia.
From S2P Require Import Prelude U256 Pos Opcodes Crypto BufferTree Values RuntimeEnv Machine Insns Emulator EmulatorSafe EmulatorThms.

Record view := mkView {
  v_stack : list Value.t;
  v_aux : list Value.t;
  v_reg : Value.t;
}.

Definition view_of (m : Machine) : view := mkView (stack m) (aux_stack m) (register m).

(** The result of an instruction on two integers, the top of the stack first. *)
Definition alu (op : AVMOpcode.t) (x y : Z) : option Z :=
  match op with
  | AVMOpcode.Add => Some (Uint256.add x y)
  | AVMOpcode.Mul => Some (Uint256.mul x y)
  | AVMOpcode.Sub => Uint256.unchecked_sub x y
  | AVMOpcode.Div => Uint256.div x y
  | AVMOpcode.Mod => Uint256.modulo x y
  | AVMOpcode.Sdiv => r ← Uint256.sdiv x y; r
  | AVMOpcode.Smod => r ← Uint256.smodulo x y; r
  | AVMOpcode.LessThan => Some (if (x <? y)%Z then 1 else 0)%Z
  | AVMOpcode.GreaterThan => Some (if (y <? x)%Z then 1 else 0)%Z
  | AVMOpcode.SLessThan => Some (if Uint256.s_less_than x y then 1 else 0)%Z
  | AVMOpcode.SGreaterThan => Some (if Uint256.s_less_than y x then 1 else 0)%Z
  | AVMOpcode.BitwiseAnd => Some (Uint256.bitwise_and x y)
  | AVMOpcode.BitwiseOr => Some (Uint256.bitwise_or x y)
  | AVMOpcode.BitwiseXor => Some (Uint256.bitwise_xor x y)
  | AVMOpcode.ShiftLeft => Some (shift_with Uint256.shift_left x y)
  | AVMOpcode.ShiftRight => Some (shift_with Uint256.shift_right x y)
  | _ => None
  end.

Definition view_alu (op : AVMOpcode.t) (v : view) : option view :=
  match v_stack v with
  | Value.Int x :: Value.Int y :: s => z ← alu op x y; Some (mkView (Value.Int z :: s) (v_aux v) (v_reg v))
  | _ => None
  end.

(** Opcodes outside the table have no meaning here. *)
Definition view_op (op : AVMOpcode.t) (v : view) : option view :=
  let '(mkView s a r) := v in
  match op, s with
  | AVMOpcode.Noop, _ => Some v
  | AVMOpcode.Pop, x :: s => Some (mkView s a r)
  | AVMOpcode.Dup0, x :: s => Some (mkView (x :: x :: s) a r)
  | AVMOpcode.Dup1, x :: y :: s => Some (mkView (y :: x :: y :: s) a r)
  | AVMOpcode.Dup2, x :: y :: z :: s => Some (mkView (z :: x :: y :: z :: s) a r)
  | AVMOpcode.Swap1, x :: y :: s => Some (mkView (y :: x :: s) a r)
  | AVMOpcode.Swap2, x :: y :: z :: s => Some (mkView (z :: y :: x :: s) a r)
  | AVMOpcode.AuxPush, x :: s => Some (mkView s (x :: a) r)
  | AVMOpcode.AuxPop, _ =>
      match a with x :: a => Some (mkView (x :: s) a r) | [] => None end
  | AVMOpcode.Rpush, _ => Some (mkView (r :: s) a r)
  | AVMOpcode.Rset, x :: s => Some (mkView s a x)
  | AVMOpcode.Tget, Value.Int i :: Value.Tuple t :: s =>
      if (i <? two64)%Z then x ← lookup_z t i; Some (mkView (x :: s) a r) else None
  | AVMOpcode.Tset, Value.Int i :: Value.Tuple t :: x :: s =>
      if (i <? two64)%Z && (i <? Z.of_nat (length t))%Z
      then Some (mkView (Value.new_tuple (insert_z t i x) :: s) a r) else None
  | AVMOpcode.Xget, Value.Int i :: s =>
      match a with
      | Value.Tuple t :: _ =>
          if (i <? two64)%Z then x ← lookup_z t i; Some (mkView (x :: s) a r) else None
      | _ => None
      end
  | AVMOpcode.Xset, Value.Int i :: x :: s =>
      match a with
      | Value.Tuple t :: a =>
          if (i <? two64)%Z && (i <? Z.of_nat (length t))%Z
          then Some (mkView s (Value.new_tuple (insert_z t i x) :: a) r) else None
      | _ => None
      end
  | AVMOpcode.IsZero, Value.Int x :: s =>
      Some (mkView (Value.Int (if (x =? 0)%Z then 1 else 0)%Z :: s) a r)
  | AVMOpcode.BitwiseNeg, Value.Int x :: s => Some (mkView (Value.Int (Uint256.bitwise_neg x) :: s) a r)
  | AVMOpcode.Equal, x :: y :: s =>
      Some (mkView (Value.Int (if bool_decide (x = y) then 1 else 0)%Z :: s) a r)
  | _, _ => view_alu op v
  end.

(** The gas of the opcodes of the table. *)
Definition simple_gas (op : AVMOpcode.t) : option Z :=
  match op with
  | AVMOpcode.Noop | AVMOpcode.Pop | AVMOpcode.Dup0 | AVMOpcode.Dup1 | AVMOpcode.Dup2
  | AVMOpcode.Swap1 | AVMOpcode.Swap2 | AVMOpcode.IsZero | AVMOpcode.AuxPush | AVMOpcode.AuxPop
  | AVMOpcode.Rpush => Some 1%Z
  | AVMOpcode.BitwiseNeg => Some 1%Z
  | AVMOpcode.Rset | AVMOpcode.Tget | AVMOpcode.LessThan | AVMOpcode.GreaterThan | AVMOpcode.SLessThan
  | AVMOpcode.SGreaterThan | AVMOpcode.Equal | AVMOpcode.BitwiseAnd | AVMOpcode.BitwiseOr
  | AVMOpcode.BitwiseXor => Some 2%Z
  | AVMOpcode.Xget | AVMOpcode.Add | AVMOpcode.Mul | AVMOpcode.Sub => Some 3%Z
  | AVMOpcode.Div | AVMOpcode.Mod | AVMOpcode.ShiftLeft | AVMOpcode.ShiftRight => Some 4%Z
  | AVMOpcode.Sdiv | AVMOpcode.Smod => Some 7%Z
  | AVMOpcode.Tset => Some 40%Z
  | AVMOpcode.Xset => Some 41%Z
  | _ => None
  end.

Section steps.
Context {T : Type} (sem : T → view → option view).

Definition push_imm (i : Instruction.t T) (v : view) : view :=
  match Instruction.immediate i with
  | Some x => mkView (x :: v_stack v) (v_aux v) (v_reg v)
  | None => v
  end.

Definition step (i : Instruction.t T) (v : view) : option view := sem (Instruction.opcode i) (push_imm i v).

Fixpoint steps (c : list (Instruction.t T)) (v : view) : option view :=
  match c with
  | [] => Some v
  | i :: c => v ← step i v; steps c v
  end.

Lemma steps_app c1 c2 v : steps (c1 ++ c2) v = (v' ← steps c1 v; steps c2 v').
Proof.
  revert v. induction c1 as [|i c1 IH]; intros v; [done|].
  cbn [app steps]. destruct (step i v); cbn; [apply IH|done].
Qed.

End steps.

Lemma steps_mono {T} (sem sem' : T → view → option view) c v v' :
  (∀ op v v', sem op v = Some v' → sem' op v = Some v') → steps sem c v = Some v' → steps sem' c v = Some v'.
Proof.
  intros Hsem. revert v. induction c as [|i c IH]; intros v; [done|]. cbn [steps].
  intros (w & Hw & Hc)%bind_Some. unfold step in *. rewrite (Hsem _ _ _ Hw). by apply IH.
Qed.

(** The same for the compiler's instructions: virtual opcodes have no meaning. *)
Definition lift_sem (sem : AVMOpcode.t → view → option view) (op : Opcode.t) (v : view) : option view :=
  match op with
  | Opcode.AVM op => sem op v
  | _ => None
  end.

Section refinement.
Context `{HC : Crypto, HV : Curve}.

(** [run_one], n times, while it returns true. *)
Fixpoint run_n (n : nat) (m : Machine) : outcome ExecutionError bool * Machine :=
  match n with
  | O => (Ok true, m)
  | S n =>
      match run_one m with
      | (Ok true, m) => run_n n m
      | r => r
      end
  end.

Definition code_at (cs : CodeStore.t) (k : nat) (c : list CodeStore.insn) : Prop :=
  ∀ j i, c !! j = Some i → CodeStore.get_insn cs (CodePt.Internal (k + j)) = Some (Some i).

Definition code_gas (c : list CodeStore.insn) : option Z :=
  foldr (λ i acc, g ← simple_gas (Instruction.opcode i); s ← acc; Some (g + s)%Z) (Some 0%Z) c.

(** The machine after straight-line code. *)
Definition moved (m : Machine) (v : view) (k : nat) (gas total : Z) : Machine :=
  mkMachine (v_stack v) (v_aux v) (Running (CodePt.Internal k)) (code m) (static_val m) (v_reg v)
    (err_codepoint m) gas (runtime_env m) total.

Lemma simple_gas_ok op m g : simple_gas op = Some g → opcode_gas m op = Some g ∧ (0 <= g < two64)%Z.
Proof. destruct op; intros [= <-]; (split; [reflexivity|unfold two64; lia]). Qed.

(** Evaluates an instruction on a machine given by its fields. *)
Ltac view_run :=
  unfold mbind, M_bind, pop_usize, pop_uint, pop_tuple, pop, aux_pop_tuple, on_stack, on_aux,
    ValueStack.pop_usize, ValueStack.pop_uint, ValueStack.pop_tuple, ValueStack.pop, Uint256.to_usize, Uint256.from_usize,
    Uint256.zero, get;
  repeat first
    [ progress simplify_eq/=
    | match goal with
      | H : ?o = Some _ |- context [?o] => rewrite H
      | H : ?b = true |- context [?b] => rewrite H
      | H : ?b = false |- context [?b] => rewrite H
      | H : _ && _ = true |- _ => apply andb_prop in H as [? ?]
      | H : _ ≫= _ = Some _ |- _ => apply bind_Some in H as (? & ? & ?)
      end ];
  try done.

(** An instruction of the table does on the machine what it does on the view. *)
Lemma exec_view op m k v' gb hi :
  view_op op (view_of m) = Some v' → state m = Running (CodePt.Internal k) →
  exec op gb hi m = (Ok true, moved m v' (k + 1) (arb_gas_remaining m) (total_gas_usage m)).
Proof.
  destruct m as [s a st cs sv r ec g e tt]; unfold view_of; cbn [stack aux_stack register state].
  intros Hv ->. unfold moved. cbn [code static_val err_codepoint arb_gas_remaining runtime_env total_gas_usage].
  destruct op; try (destruct s as [|[] [|[] s]]; discriminate); cbn [view_op] in Hv; unfold view_alu in Hv;
    cbn [alu v_stack v_aux v_reg] in Hv; cbn [exec];
    repeat first
      [ progress simplify_eq/=
      | case_match ]; try done.
  all: unfold op_Add, op_Mul, op_Sub, op_Sdiv, op_Smod, op_LessThan, op_GreaterThan, op_SLessThan, op_SGreaterThan,
    op_Equal, op_BitwiseAnd, op_BitwiseOr, op_BitwiseXor, op_BitwiseNeg, op_ShiftLeft, op_ShiftRight,
    op_Div, op_Mod, op_IsZero, op_Tget, op_Tset, op_Xget, op_Xset; view_run.
Qed.

(** Fetching an instruction of a fixed price, and charging for it. *)
Lemma fetch_and_charge m k i g :
  state m = Running (CodePt.Internal k) →
  CodeStore.get_insn (code m) (CodePt.Internal k) = Some (Some i) →
  opcode_gas (with_immediate m i) (Instruction.opcode i) = Some g → (0 <= g < two64)%Z →
  Uint256.wf (arb_gas_remaining m) → (g <= arb_gas_remaining m)%Z →
  run_one_dont_catch_errors m = exec (Instruction.opcode i) (arb_gas_remaining m)
    (bool_decide (is_Some (Instruction.immediate i))) (charged (with_immediate m i) g).
Proof.
  intros Hs Hi Hog Hb Hwf Hle. set (m1 := with_immediate m i) in *.
  assert (arb_gas_remaining m1 = arb_gas_remaining m ∧ state m1 = state m ∧ code m1 = code m)
    as (Eg & Est & Ec) by (unfold m1, with_immediate; by destruct (Instruction.immediate i)).
  assert (charge_gas m1 = (Ok (arb_gas_remaining m), charged m1 g)) as Hcharge.
  { unfold charge_gas, mbind, M_bind, get, next_op_gas. rewrite Est, Hs, Ec, Hi.
    cbn [mbind option_bind]. rewrite Hog. cbn [fmap option_fmap option_map must mret M_ret].
    unfold Uint256.from_u64. rewrite Eg, Uint256.sub_eq by (done || by apply Uint256.wf_small).
    rewrite bool_decide_eq_true_2 by done. unfold charged. by rewrite Eg. }
  unfold run_one_dont_catch_errors, mbind, M_bind, get. rewrite Hs, Hi. cbn [must mret M_ret].
  replace (match Instruction.immediate i with Some val => push val | None => mret () end m)
    with ((Ok (), m1) : outcome ExecutionError () * Machine)
    by (unfold m1, with_immediate; by destruct (Instruction.immediate i)).
  by rewrite Hcharge.
Qed.

Lemma run_one_view m k i g v' :
  state m = Running (CodePt.Internal k) →
  CodeStore.get_insn (code m) (CodePt.Internal k) = Some (Some i) →
  step view_op i (view_of m) = Some v' →
  simple_gas (Instruction.opcode i) = Some g → Uint256.wf (arb_gas_remaining m) →
  (g <= arb_gas_remaining m)%Z →
  run_one m = (Ok true, moved m v' (k + 1) (arb_gas_remaining m - g) (Uint256.add (total_gas_usage m) g)).
Proof.
  intros Hs Hi Hv Hg Hwf Hle. destruct (simple_gas_ok _ (with_immediate m i) _ Hg) as [Hog Hb].
  unfold run_one. rewrite (fetch_and_charge m k i g) by done.
  set (m1 := with_immediate m i).
  assert (arb_gas_remaining m1 = arb_gas_remaining m ∧ state m1 = state m ∧
          total_gas_usage m1 = total_gas_usage m ∧ moved m1 = moved m)
    as (Eg & Est & Et & Em) by (unfold m1, with_immediate; by destruct (Instruction.immediate i)).
  rewrite (exec_view _ _ k v'); [| |by rewrite <- Hs, <- Est].
  - change (moved (charged m1 g)) with (moved m1). cbn. by rewrite Em, Eg, Et.
  - rewrite <- Hv. unfold step, push_imm, m1, with_immediate, view_of.
    by destruct (Instruction.immediate i).
Qed.

Lemma code_gas_cons i c g : code_gas (i :: c) = Some g →
  ∃ g1 g2, simple_gas (Instruction.opcode i) = Some g1 ∧ code_gas c = Some g2 ∧ g = (g1 + g2)%Z.
Proof.
  cbn [code_gas foldr]. fold (code_gas c). intros Hg.
  apply bind_Some in Hg as (g1 & Hg1 & Hg). apply bind_Some in Hg as (g2 & Hg2 & [= <-]). eauto.
Qed.

Lemma code_gas_nonneg c g : code_gas c = Some g → (0 <= g)%Z.
Proof.
  revert g. induction c as [|i c IH]; intros g Hg; [simplify_eq/=; lia|].
  apply code_gas_cons in Hg as (g1 & g2 & Hg1 & Hg2 & ->). specialize (IH _ Hg2).
  destruct (Instruction.opcode i); simplify_eq/=; lia.
Qed.

(** The emulator runs straight-line code as [steps] does.  If the
    instructions [c] lie at the program counter, [steps] gives a result on the
    two stacks and the register, and the gas suffices, then after
    [length c] calls of [run_one] the machine has exactly that result, the
    program counter is behind the code, precisely the gas of the instructions
    is spent, and nothing else has changed but the gas counters. *)
Theorem straight_line c m k v' g :
  state m = Running (CodePt.Internal k) → code_at (code m) k c →
  steps view_op c (view_of m) = Some v' →
  code_gas c = Some g → Uint256.wf (arb_gas_remaining m) → (g <= arb_gas_remaining m)%Z →
  ∃ total, run_n (length c) m = (Ok true, moved m v' (k + length c) (arb_gas_remaining m - g) total).
Proof.
  revert m k g. induction c as [|i c IH]; intros m k g Hs Hc Hv Hg Hwf Hle.
  { exists (total_gas_usage m). simplify_eq/=. rewrite Z.sub_0_r, Nat.add_0_r.
    unfold moved. rewrite <- Hs. by destruct m. }
  cbn [steps] in Hv. apply bind_Some in Hv as (v1 & Hv1 & Hv).
  apply code_gas_cons in Hg as (g1 & g2 & Hg1 & Hg2 & ->).
  destruct (simple_gas_ok _ m _ Hg1) as [_ Hb].
  pose proof (code_gas_nonneg c g2 Hg2) as Hb2.
  cbn [length run_n]. rewrite (run_one_view m k i g1 v1); [|done| |done|done|done|lia].
  - destruct (IH (moved m v1 (k + 1) (arb_gas_remaining m - g1) (Uint256.add (total_gas_usage m) g1)) (k + 1) g2)
      as (total & Hrun); cbn; [done| |by destruct v1|done| |lia|].
    + intros j i' Hj. replace (k + 1 + j) with (k + S j) by lia. by apply Hc.
    + destruct Hwf. split; lia.
    + exists total. rewrite Hrun. unfold moved. cbn. rewrite Z.sub_add_distr, <- Nat.add_assoc. done.
  - rewrite <- (Nat.add_0_r k). by apply Hc.
Qed.

End refinement.

(** Reading element 1 of a pair into the register, on a machine with no more
    gas than that costs. *)
Definition reader : list CodeStore.insn := [insn_imm AVMOpcode.Tget (Value.Int 1); insn_of AVMOpcode.Rset].
Definition reader_machine : Machine :=
  set_gas (demo reader [Value.Tuple [Value.Int 5; Value.Int 6]]) 4.

Lemma reader_at : code_at (code reader_machine) 0 reader.
Proof. intros [|[|j]] i Hi; try discriminate; by injection Hi as <-. Qed.

Section witnesses.
#[local] Existing Instance toy_crypto.
#[local] Existing Instance toy_curve.

Lemma straight_line_witness :
  ∃ total, run_n 2 reader_machine =
    (Ok true, moved reader_machine (mkView [] [] (Value.Int 6)) 2 0 total).
Proof.
  apply (straight_line reader reader_machine 0 (mkView [] [] (Value.Int 6)) 4 eq_refl reader_at eq_refl eq_refl).
  - by_eval.
  - by_eval.
Defined.
End witnesses.
