(* ===== verification/ProfilerThms.v ===== *)
(** * What a profile shows (src/src/run/emulator.rs: profile_gen, profiler_session)

    - [profile_transparent]: profiling a run neither changes it nor panics where
      the run does not.
    - [profile_consistent]: the report on a profile never panics on a broken link
      or on events out of order; every function that has returned used, itself
      and through the functions it called, exactly the gas its callers were
      charged for it; and the gas up to the last call or return is divided among
      the functions.
    - [profile_total]: the total the report gives is the gas of the instructions
      that were profiled.
    - [unknown_file_resets], [equal_gas_dropped] and [session_needs_exit] show
      where the report or the dialogue go wrong.

    Counters are 64-bit integers, so sums are compared modulo [2^64]. *)

From Stdlib Require Import ZArith Lia.
From stdpp Require Import sorting.
From S2P Require Import Prelude U256 Pos Opcodes Crypto BufferTree Values RuntimeEnv Machine Insns Emulator Profiler EmulatorSafe EmulatorFrame EmulatorThms StraightLine.
From stdpp Require Import list_basics list.

Import Profiler.
#[local] Set Warnings "-clear-no-such-hyp".

(** ** Arithmetic modulo [2^64] *)
Definition cong (x y : Z) : Prop := ((x - y) mod 2 ^ 64 = 0)%Z.

Ltac cong := unfold cong, sub64, wrapping_add in *; change (2 ^ 64)%Z with 18446744073709551616%Z in *;
  Z.to_euclidean_division_equations; lia.

#[global] Instance cong_equiv : Equivalence cong.
Proof. split; repeat intro; cong. Qed.

(** ** Sums over maps *)
Section sums.
Context `{Countable K} {A : Type}.
Implicit Type m : gmap K A.

Definition msum (f : A → Z) (m : gmap K A) : Z := map_fold (λ _ x acc, f x + acc)%Z 0%Z m.

Lemma msum_empty f : msum f ∅ = 0%Z.
Proof. apply map_fold_empty. Qed.

Lemma msum_new f m k x : m !! k = None → msum f (<[k := x]> m) = (f x + msum f m)%Z.
Proof. intros Hk. unfold msum. rewrite map_fold_insert_L; [done| |done]. intros. lia. Qed.

Lemma msum_delete f m k x : m !! k = Some x → msum f m = (f x + msum f (delete k m))%Z.
Proof. intros Hk. rewrite <- (insert_delete_id m k x Hk) at 1. apply msum_new, lookup_delete_eq. Qed.

Lemma msum_insert f m k x y : m !! k = Some x → msum f (<[k := y]> m) = (msum f m - f x + f y)%Z.
Proof.
  intros Hk. rewrite <- insert_delete_eq, msum_new by apply lookup_delete_eq. rewrite (msum_delete f m k x Hk). lia.
Qed.

Lemma msum_ext f g m : (∀ k x, m !! k = Some x → f x = g x) → msum f m = msum g m.
Proof.
  induction m as [|k x m Hk IH] using map_ind; intros Hfg; [done|]. rewrite !msum_new by done.
  rewrite (Hfg k x) by apply lookup_insert_eq. rewrite IH; [done|]. intros k' x' Hk'. apply (Hfg k'). rewrite lookup_insert_ne; [done|].
  intros ->. congruence.
Qed.

Lemma sum64_acc l acc : cong (foldl (wrapping_add 64) acc l) (acc + foldr Z.add 0%Z l).
Proof.
  revert acc. induction l as [|x l IH]; intros acc; cbn [foldl foldr]; [cong|]. specialize (IH (wrapping_add 64 acc x)).
  revert IH. generalize (foldl (wrapping_add 64) (wrapping_add 64 acc x) l) (foldr Z.add 0%Z l). intros. cong.
Qed.

(** A sum over the entries of a map, as the program computes it. *)
Lemma sum64_map f m : cong (sum64 (f <$> (map_to_list m).*2)) (msum f m).
Proof.
  unfold sum64. etrans; [apply sum64_acc|]. unfold msum. rewrite map_fold_foldr. cbn [Z.add].
  generalize (map_to_list m). intros l. induction l as [|[k x] l IH]; [done|]. rewrite !fmap_cons. cbn [foldr uncurry snd].
  revert IH. generalize (foldr Z.add 0%Z (f <$> l.*2)) (foldr (uncurry (λ (_ : K) x acc, f x + acc)%Z) 0%Z l). intros. cong.
Qed.
End sums.

Lemma sum64_ok l : (0 <= sum64 l < 2 ^ 64)%Z.
Proof.
  unfold sum64. assert (∀ acc, (0 <= acc < 2 ^ 64)%Z → (0 <= foldl (wrapping_add 64) acc l < 2 ^ 64)%Z) as Hl; [|by apply Hl].
  induction l as [|x l IH]; intros acc Hacc; [done|]. cbn [foldl]. apply IH, wrapping_add_ok. lia.
Qed.

Lemma cong_eq x y : cong x y → (0 <= x < 2 ^ 64)%Z → (0 <= y < 2 ^ 64)%Z → x = y.
Proof. cong. Qed.

(** ** Events in order *)

Definition is_enter (e : ProfilerEvent) : bool := match e with EnterFunc _ => true | _ => false end.

(** The gas at an event: for a call or return, at the event it is linked with. *)
Definition event_gas (tree : gmap CodePt.t Events) (e : ProfilerEvent) : option Z :=
  match e with
  | EnterFunc x => Some x
  | CallFunc f i | Return f i => linked_gas tree f i
  end.

(** A function is entered and left in turns, and every link leads to an event
    that enters a function. *)
Record events_ok (tree : gmap CodePt.t Events) (open : bool) (evs : list ProfilerEvent) : Prop := {
  ev_turns : ∀ i e, evs !! i = Some e → is_enter e = Nat.even i;
  ev_open : Nat.odd (length evs) = open;
  ev_links : ∀ e, e ∈ evs → is_Some (event_gas tree e);
}.

(** Functions on the stack are tracked, the one on top is the current one, and
    of it alone the last event enters it. *)
Record tracked (tree : gmap CodePt.t Events) (stack : list CodePt.t) (current : CodePt.t) : Prop := {
  tr_current : current = default (CodePt.new_internal 0) (head stack);
  tr_known : ∀ f, f ∈ CodePt.new_internal 0 :: stack → is_Some (tree !! f);
  tr_events : ∀ f evs loc, tree !! f = Some (evs, loc) → events_ok tree (bool_decide (f = current)) evs;
}.

(** A tree with more functions and more events. *)
Definition tree_le (t t' : gmap CodePt.t Events) : Prop :=
  ∀ f evs loc, t !! f = Some (evs, loc) → ∃ evs', t' !! f = Some (evs ++ evs', loc).

#[global] Instance tree_le_preorder : PreOrder tree_le.
Proof.
  split.
  - intros t f evs loc Hf. exists []. by rewrite app_nil_r.
  - intros t1 t2 t3 H12 H23 f evs loc Hf. destruct (H12 _ _ _ Hf) as [e1 H1]. destruct (H23 _ _ _ H1) as [e2 H2].
    exists (e1 ++ e2). by rewrite app_assoc.
Qed.

Lemma linked_gas_le t t' f i g : tree_le t t' → linked_gas t f i = Some g → linked_gas t' f i = Some g.
Proof.
  intros Hle Hg. unfold linked_gas in *. apply bind_Some in Hg as ([evs loc] & Hf & Hg). destruct (Hle _ _ _ Hf) as [evs' ->].
  cbn [mbind option_bind]. destruct (evs !! i) as [e|] eqn:He; [|done]. by rewrite (lookup_app_l_Some _ _ _ _ He).
Qed.

Lemma event_gas_le t t' e g : tree_le t t' → event_gas t e = Some g → event_gas t' e = Some g.
Proof. destruct e; [done|apply linked_gas_le..]. Qed.

Lemma events_ok_le t t' open evs : tree_le t t' → events_ok t open evs → events_ok t' open evs.
Proof. intros Hle [H1 H2 H3]. split; [done..|]. intros e [g Hg]%H3. exists g. by eapply event_gas_le. Qed.

Lemma events_ok_snoc t open evs e : events_ok t open evs → is_enter e = negb open → is_Some (event_gas t e) →
  events_ok t (negb open) (evs ++ [e]).
Proof.
  intros [H1 H2 H3] He Hg. split.
  - intros i e' [Hi|[Hi Hi']]%lookup_app_Some; [by apply H1|]. apply list_lookup_singleton_Some in Hi' as [Hlen <-].
    replace i with (length evs) by lia. rewrite He, <- H2. by rewrite <- Nat.negb_odd.
  - rewrite length_app, Nat.add_1_r, Nat.odd_succ, <- Nat.negb_odd. by rewrite H2.
  - intros e' [?|?%list_elem_of_singleton]%elem_of_app; [auto|by subst].
Qed.

(** ** Calls and returns *)

(** Control goes from [current] to [target], with the event [e i] where [i] is
    the position of the event that enters [target]. *)
Definition switch (tree : gmap CodePt.t Events) (current target : CodePt.t) (e : nat → ProfilerEvent) (gas : Z)
    : option (gmap CodePt.t Events) :=
  '(info, _) ← tree !! target;
  t ← push_event tree current (e (if bool_decide (target = current) then length info + 1 else length info));
  push_event t target (EnterFunc gas).

Lemma push_event_le t f e t' : push_event t f e = Some t' → tree_le t t' ∧
  ∃ evs loc, t !! f = Some (evs, loc) ∧ t' = <[f := (evs ++ [e], loc)]> t.
Proof.
  intros ([evs loc] & Hf & [= <-])%bind_Some. split; [|by eauto]. intros f' evs' loc' Hf'.
  destruct (decide (f' = f)) as [->|Hne]; [rewrite lookup_insert_eq|rewrite lookup_insert_ne by done].
  - exists [e]. congruence.
  - exists []. by rewrite app_nil_r.
Qed.

Definition leaves_to (e : nat → ProfilerEvent) (target : CodePt.t) : Prop :=
  ∀ i t, is_enter (e i) = false ∧ event_gas t (e i) = linked_gas t target i.

(** The two functions concerned, after a switch; the others stay. *)
Lemma switch_spec t cur target e gas t' :
  is_Some (t !! cur) → switch t cur target e gas = Some t' →
  tree_le t t' ∧ ∃ i evs loc, t !! cur = Some (evs, loc) ∧
    t' = (if decide (target = cur) then <[cur := (evs ++ [e i; EnterFunc gas], loc)]> t
          else match t !! target with
               | Some (evs', loc') => <[target := (evs' ++ [EnterFunc gas], loc')]> (<[cur := (evs ++ [e i], loc)]> t)
               | None => t end) ∧
    linked_gas t' target i = Some gas.
Proof.
  intros [[evs loc] Hcur] Hs. unfold switch in Hs. apply bind_Some in Hs as ([info il] & Ht & Hs).
  apply bind_Some in Hs as (t1 & H1 & H2). apply push_event_le in H1 as (Hle1 & evs1 & loc1 & Hcur1 & ->).
  apply push_event_le in H2 as (Hle2 & evs2 & loc2 & Ht2 & ->). split; [by etrans|].
  rewrite Hcur in Hcur1. injection Hcur1 as <- <-. 
  exists (if bool_decide (target = cur) then length info + 1 else length info), evs, loc. split; [done|]. unfold linked_gas.
  destruct (decide (target = cur)) as [->|Hne].
  - rewrite Hcur in Ht. injection Ht as <- <-. rewrite lookup_insert_eq in Ht2. injection Ht2 as <- <-. split.
    + rewrite insert_insert_eq, <- app_assoc. reflexivity.
    + rewrite lookup_insert_eq. cbn [mbind option_bind]. rewrite bool_decide_true by done.
      rewrite lookup_app_r by (rewrite length_app; cbn; lia). rewrite length_app. cbn [length].
      by rewrite Nat.sub_diag.
  - rewrite lookup_insert_ne in Ht2 by done. rewrite Ht in Ht2. injection Ht2 as <- <-. rewrite Ht. split; [reflexivity|].
    rewrite lookup_insert_eq. cbn [mbind option_bind]. rewrite bool_decide_false by done.
    by rewrite list_lookup_middle.
Qed.

Lemma switch_tracked t stack stack' cur target e gas t' :
  tracked t stack cur → leaves_to e target → target = default (CodePt.new_internal 0) (head stack') →
  (∀ f, f ∈ stack' → is_Some (t !! f)) → switch t cur target e gas = Some t' → tracked t' stack' target.
Proof.
  intros [Hc Hk He] Hlv Ht Hst Hs.
  assert (is_Some (t !! cur)) as Hcur by (rewrite Hc; apply Hk; destruct stack; cbn; set_solver).
  destruct (switch_spec _ _ _ _ _ _ Hcur Hs) as (Hle & i & evs & loc & Hcur' & Ht' & Hlink).
  assert (is_Some (event_gas t' (e i))) as Hge by (rewrite (proj2 (Hlv i t')), Hlink; done).
  pose proof (proj1 (Hlv i t')) as Hx.
  split; [done| |].
  - intros f Hf. assert (is_Some (t !! f)) as [[evs1 loc1] Hf1].
    { apply elem_of_cons in Hf as [->|Hf]; [apply Hk; by left|by apply Hst]. }
    destruct (Hle _ _ _ Hf1) as [? ->]. done.
  - pose proof (He _ _ _ Hcur') as Hok. rewrite bool_decide_true in Hok by done. apply (events_ok_le _ t') in Hok; [|done].
    assert (events_ok t' false (evs ++ [e i])) as Hok1 by (by apply (events_ok_snoc _ true)).
    assert (∀ evs, events_ok t' false evs → events_ok t' true (evs ++ [EnterFunc gas])) as Henter.
    { intros evs1 H1. by apply (events_ok_snoc _ false). }
    intros f evs1 loc1 Hf. rewrite Ht' in Hf. destruct (decide (target = cur)) as [->|Hne].
    + destruct (decide (f = cur)) as [->|Hfc].
      * rewrite lookup_insert_eq in Hf. injection Hf as <- <-. rewrite bool_decide_true by done.
        specialize (Henter _ Hok1). by rewrite <- app_assoc in Henter.
      * rewrite lookup_insert_ne in Hf by done. apply He in Hf. rewrite bool_decide_false in * by done. by eapply events_ok_le.
    + unfold switch in Hs. apply bind_Some in Hs as ([info il] & Htg & _). rewrite Htg in Hf.
      pose proof (He _ _ _ Htg) as Hokt. rewrite bool_decide_false in Hokt by done. apply (events_ok_le _ t') in Hokt; [|done].
      destruct (decide (f = target)) as [->|Hft].
      * rewrite lookup_insert_eq in Hf. injection Hf as <- <-. rewrite bool_decide_true by done. by apply Henter.
      * rewrite lookup_insert_ne in Hf by done. rewrite bool_decide_false by done. destruct (decide (f = cur)) as [->|Hfc].
        -- rewrite lookup_insert_eq in Hf. by injection Hf as <- <-.
        -- rewrite lookup_insert_ne in Hf by done. apply He in Hf. rewrite bool_decide_false in Hf by done. by eapply events_ok_le.
Qed.

Lemma switch_total t cur target e gas : is_Some (t !! cur) → is_Some (t !! target) → is_Some (switch t cur target e gas).
Proof.
  intros [[evs loc] Hc] [[evs' loc'] Ht]. unfold switch. rewrite Ht. cbn [mbind option_bind]. unfold push_event at 2. rewrite Hc.
  cbn [mbind option_bind]. unfold push_event. destruct (decide (target = cur)) as [->|Hne].
  - by rewrite lookup_insert_eq.
  - by rewrite lookup_insert_ne, Ht.
Qed.

Lemma tree_le_new t f loc : t !! f = None → tree_le t (<[f := ([], loc)]> t).
Proof. intros Hf f' evs l Hf'. exists []. rewrite app_nil_r, lookup_insert_ne; [done|]. intros ->. congruence. Qed.

(** A function that has no events yet. *)
Lemma tracked_new t stack cur f loc : tracked t stack cur → t !! f = None → tracked (<[f := ([], loc)]> t) stack cur.
Proof.
  intros [Hc Hk He] Hf. pose proof (tree_le_new t f loc Hf) as Hle.
  split; [done| |].
  - intros f' Hf'. destruct (Hk f' Hf') as [[evs l] Hl]. destruct (Hle _ _ _ Hl) as [? ->]. done.
  - intros f' evs l Hf'. destruct (decide (f' = f)) as [->|Hne].
    + rewrite lookup_insert_eq in Hf'. injection Hf' as <- <-. rewrite bool_decide_false.
      * split; [done|done|]. by intros e ?%elem_of_nil.
      * intros ->. rewrite Hc in Hf. destruct (Hk (default (CodePt.new_internal 0) (head stack))); [destruct stack; cbn; set_solver|congruence].
    + rewrite lookup_insert_ne in Hf' by done. eapply events_ok_le; [done|]. by eapply He.
Qed.

Lemma tracked_current t stack cur : tracked t stack cur → is_Some (t !! cur).
Proof. intros [Hc Hk _]. rewrite Hc. apply Hk. destruct stack; cbn; set_solver. Qed.

Lemma leave_func_switch t gas stack cur : tracked t stack cur →
  let caller := default (CodePt.new_internal 0) (head (tail stack)) in
  is_Some (t !! caller) ∧ leaves_to (Return caller) caller ∧
  leave_func t gas stack cur = (λ t', (t', tail stack, caller)) <$> switch t cur caller (Return caller) gas.
Proof.
  intros Htr caller. assert (is_Some (t !! caller)) as [[evs loc] Hcl].
  { apply (tr_known _ _ _ Htr). unfold caller. destruct stack as [|x [|y stack]]; cbn; set_solver. }
  split; [by eauto|]. split; [by intros i t'|]. unfold leave_func, switch. fold caller. rewrite Hcl. cbn [mbind option_bind].
  destruct (push_event t cur _) as [t1|]; [|done]. cbn [mbind option_bind]. by destruct (push_event t1 _ _).
Qed.

Lemma enter_func_switch m t gas stack cur insn : next_opcode m = Some (Some insn) →
  ∃ t1, (t1 = t ∨ ∃ loc, t !! entered m = None ∧ t1 = <[entered m := ([], loc)]> t) ∧
  is_Some (t1 !! entered m) ∧ leaves_to (CallFunc (entered m)) (entered m) ∧
  (tracked t stack cur → enter_func m t gas stack cur
     = (λ t', (t', entered m :: stack, entered m)) <$> switch t1 cur (entered m) (CallFunc (entered m)) gas).
Proof.
  intros Hop. unfold next_opcode in Hop. destruct (state m) as [| |pc] eqn:Hs; try done.
  assert (∃ o, CodeStore.get_insn (code m) (entered m) = Some o) as [o Ho].
  { unfold entered, get_pc, CodeStore.get_insn in *. rewrite Hs. destruct pc; try done.
    - destruct (code m !! 0); [|done]. cbn. by eexists.
    - destruct (code m !! seg); by eexists. }
  assert (∀ stack cur, enter_func m t gas stack cur =
    ('(tree, next_len) ←
       match t !! entered m with
       | Some (next_info, _) =>
           Some (t, if bool_decide (entered m = cur) then length next_info + 1 else length next_info)
       | None => Some (<[entered m := ([], (insn ← o; location (Instruction.debug_info insn)))]> t, 0)
       end;
     tree ← push_event tree cur (CallFunc (entered m) next_len);
     tree ← push_event tree (entered m) (EnterFunc gas);
     Some (tree, entered m :: stack, entered m))) as Heq.
  { intros stack0 cur0. unfold enter_func. destruct (t !! entered m) as [[info il]|]; [done|]. by rewrite Ho. }
  destruct (t !! entered m) as [[info il]|] eqn:Ht.
  - exists t. split; [by left|]. split; [by rewrite Ht|]. split; [by intros i t'|]. intros Htr. rewrite Heq. unfold switch. rewrite Ht.
    cbn [mbind option_bind]. destruct (push_event t cur _) as [t1|]; [|done]. cbn [mbind option_bind]. by destruct (push_event t1 _ _).
  - set (loc := insn ← o; location (Instruction.debug_info insn)) in *. exists (<[entered m := ([], loc)]> t).
    split; [right; by exists loc|]. split; [rewrite lookup_insert_eq; by eexists|]. split; [by intros i t0|].
    intros Htr. rewrite Heq. cbn [mbind option_bind]. unfold switch. rewrite lookup_insert_eq. cbn [mbind option_bind length].
    destruct (tracked_current _ _ _ Htr) as [x Hx]. rewrite bool_decide_false by (intros He; congruence).
    destruct (push_event _ cur _) as [t1|]; [|done]. cbn [mbind option_bind]. by destruct (push_event t1 _ _).
Qed.

(** ** Gas between events *)

(** Gas when left minus gas when entered, over the events of a function. *)
Definition signed (t : gmap CodePt.t Events) (evs : list ProfilerEvent) : Z :=
  foldr (λ e acc, (if is_enter e then - default 0 (event_gas t e) else default 0 (event_gas t e)) + acc)%Z 0%Z evs.

Lemma signed_app t evs evs' : signed t (evs ++ evs') = (signed t evs + signed t evs')%Z.
Proof. induction evs as [|e evs IH]; [done|]. cbn [signed foldr app]. fold (signed t (evs ++ evs')) (signed t evs). rewrite IH. lia. Qed.

Lemma signed_le t t' open evs : tree_le t t' → events_ok t open evs → signed t' evs = signed t evs.
Proof.
  intros Hle [_ _ Hl]. induction evs as [|e evs IH]; [done|]. cbn [signed foldr]. fold (signed t' evs) (signed t evs).
  destruct (Hl e) as [g Hg]; [by left|]. rewrite IH by (intros; apply Hl; by right). by rewrite (event_gas_le _ _ _ _ Hle Hg), Hg.
Qed.

Definition total_signed (t : gmap CodePt.t Events) : Z := msum (λ x, signed t x.1) t.

Lemma total_signed_le t t' stack cur : tree_le t t' → tracked t stack cur → msum (λ x, signed t' x.1) t = total_signed t.
Proof. intros Hle [_ _ He]. apply msum_ext. intros f [evs loc] Hf. eapply signed_le; [done|]. by eapply He. Qed.

(** What a function gains at a switch another loses. *)
Lemma switch_signed t stack cur target e gas t' :
  tracked t stack cur → leaves_to e target → switch t cur target e gas = Some t' → total_signed t' = total_signed t.
Proof.
  intros Htr Hlv Hs.
  destruct (switch_spec _ _ _ _ _ _ (tracked_current _ _ _ Htr) Hs) as (Hle & i & evs & loc & Hcur & Ht' & Hlink).
  rewrite <- (total_signed_le t t' stack cur Hle Htr). unfold total_signed.
  assert (∀ evs, signed t' (evs ++ [e i]) = signed t' evs + gas)%Z as He.
  { intros evs0. rewrite signed_app. cbn. destruct (Hlv i t') as [-> ->]. rewrite Hlink. cbn. lia. }
  assert (∀ evs, signed t' (evs ++ [EnterFunc gas]) = signed t' evs - gas)%Z as Hn by (intros evs0; rewrite signed_app; cbn; lia).
  set (F := λ x : Events, signed t' x.1). destruct (decide (target = cur)) as [->|Hne].
  - rewrite Ht'. rewrite (msum_insert _ _ _ _ _ Hcur). unfold F. cbn [fst].
    change [e i; EnterFunc gas] with ([e i] ++ [EnterFunc gas]). rewrite app_assoc, Hn, He. lia.
  - unfold switch in Hs. apply bind_Some in Hs as ([info il] & Htg & _). rewrite Htg in Ht'. rewrite Ht'.
    rewrite (msum_insert _ _ target (info, il)) by (by rewrite lookup_insert_ne). rewrite (msum_insert _ _ _ _ _ Hcur). unfold F. cbn [fst].
    rewrite Hn, He. lia.
Qed.

(** ** Profiles under construction *)
Record profile_ok (p : Profile) : Prop := {
  po_tracked : tracked (stack_tree (loc_map p)) (func_stack p) (current_codepoint p);
  po_signed : total_signed (stack_tree (loc_map p)) = 0%Z;
}.

Lemma start_profile_ok chart loc : profile_ok (start_profile chart loc).
Proof.
  split; cbn [loc_map stack_tree start_profile func_stack current_codepoint].
  - split; [done| |].
    + intros f Hf%list_elem_of_singleton. subst f. by rewrite lookup_singleton_eq.
    + intros f evs l [<- [= <- <-]]%lookup_singleton_Some. rewrite bool_decide_true by done. split; [|done|].
      * by intros [|i] e [= <-].
      * intros e ->%list_elem_of_singleton. by eexists.
  - unfold total_signed. rewrite <- insert_empty, msum_new by apply lookup_empty. by rewrite msum_empty.
Qed.

Section steps.
Context `{HC : Crypto, HV : Curve}.
Variable chart : Chart.

Lemma add_gas_tree d loc gas : stack_tree (add_gas chart d loc gas) = stack_tree d.
Proof.
  unfold add_gas, get_mut, insert. destruct loc as [loc|]; [|done]. destruct (chart !! _) as [info|]; [|done]. cbn [mbind option_bind].
  destruct (data d !! name info) as [tree|]; [|done]. cbn [mbind option_bind default]. by destruct (tree !! _).
Qed.

Lemma gen_step_ok m insn p : next_opcode m = Some (Some insn) → profile_ok p → is_Some (next_op_gas m) →
  ∃ p', gen_step chart m insn p = Some p' ∧ profile_ok p' ∧
    total_gas p' = wrapping_add 64 (total_gas p) (default 0%Z (default None (next_op_gas m))) ∧
    ∃ tree, loc_map p' = set_stack_tree (add_gas chart (loc_map p) (location (Instruction.debug_info insn))
                                           (default 0%Z (default None (next_op_gas m)))) tree.
Proof.
  intros Hop [Htr Hsg] [og Hog]. unfold gen_step. rewrite Hog. cbn [mbind option_bind default]. rewrite add_gas_tree.
  set (d := add_gas _ _ _ _). set (gas := wrapping_add 64 _ _).
  set (t := stack_tree (loc_map p)) in *.
  assert (∃ t' stack' cur',
    match Nat.compare (stack_len p) (length (func_stack p)) with
    | Lt => leave_func t gas (func_stack p) (current_codepoint p)
    | Eq => Some (t, func_stack p, current_codepoint p)
    | Datatypes.Gt => enter_func m t gas (func_stack p) (current_codepoint p)
    end = Some (t', stack', cur') ∧ tracked t' stack' cur' ∧ total_signed t' = 0%Z) as (t' & stack' & cur' & -> & Htr' & Hsg').
  { pose proof (tracked_current _ _ _ Htr) as Hcur. destruct (Nat.compare _ _).
    - by exists t, (func_stack p), (current_codepoint p).
    - destruct (leave_func_switch t gas (func_stack p) (current_codepoint p) Htr) as (Hcl & Hlv & ->).
      destruct (switch_total t (current_codepoint p) _ (Return (default (CodePt.new_internal 0) (head (tail (func_stack p))))) gas Hcur Hcl) as [t' Hs].
      rewrite Hs. eexists t', _, _. split; [reflexivity|]. split; [|by rewrite (switch_signed _ _ _ _ _ _ _ Htr Hlv Hs)].
      eapply switch_tracked; [exact Htr|exact Hlv|done| |exact Hs]. intros f Hf. apply (tr_known _ _ _ Htr). right.
      destruct (func_stack p); [done|by right].
    - destruct (enter_func_switch m t gas (func_stack p) (current_codepoint p) insn Hop) as (t1 & Ht1 & Hen & Hlv & ->); [|done].
      assert (tracked t1 (func_stack p) (current_codepoint p) ∧ total_signed t1 = 0%Z) as [Htr1 Hsg1].
      { destruct Ht1 as [->|(loc & Hnone & ->)]; [done|]. split; [by apply tracked_new|]. rewrite <- Hsg.
        rewrite <- (total_signed_le t (<[entered m := ([], loc)]> t) (func_stack p) (current_codepoint p)); [|by apply tree_le_new|done].
        unfold total_signed. rewrite msum_new by done. done. }
      destruct (switch_total t1 (current_codepoint p) _ (CallFunc (entered m)) gas (tracked_current _ _ _ Htr1) Hen) as [t' Hs].
      rewrite Hs. eexists t', _, _. split; [reflexivity|]. split; [|by rewrite (switch_signed _ _ _ _ _ _ _ Htr1 Hlv Hs)].
      eapply switch_tracked; [exact Htr1|exact Hlv|done| |exact Hs]. intros f [->|Hf]%elem_of_cons; [done|].
      apply (tr_known _ _ _ Htr1). by right. }
  eexists. split; [reflexivity|]. split; [by split|]. split; [done|]. by eexists.
Qed.

(** The loop keeps profiles well formed, and does with the machine what running
    it does. *)
Lemma profile_loop_run fuel enabled p m : profile_ok p → (∀ k mk, run_n k m = (Ok true, mk) → next_opcode mk ≠ None → is_Some (next_op_gas mk)) →
  match profile_loop chart fuel enabled p m with
  | None => ∃ mk, run_n fuel m = (Ok true, mk)
  | Some None => ∃ k mk, run_n k m = (Ok true, mk) ∧ (run_one mk).1 = Panic
  | Some (Some (p', m')) => profile_ok p' ∧ ∃ k mk, run_n k m = (Ok true, mk) ∧
      (next_opcode mk = Some None ∧ m' = mk ∨ run_one mk = (Ok false, m') ∨
       ∃ e m1, run_one mk = (Err e, m1) ∧ m' = set_state m1 (Error e))
  end.
Proof.
  revert enabled p m. induction fuel as [|fuel IH]; intros enabled p m Hp Hgas; [by exists m|]. cbn [profile_loop].
  destruct (next_opcode m) as [[insn|]|] eqn:Hop.
  - set (en := _ || _).
    assert (∃ p', (if en then gen_step chart m insn p else Some p) = Some p' ∧ profile_ok p') as (p' & -> & Hp').
    { destruct en; [|by exists p]. destruct (gen_step_ok m insn p Hop Hp) as (p' & ? & ? & _); [|by exists p'].
      apply (Hgas 0 m); [done|by rewrite Hop]. }
    destruct (run_one m) as [[[]|e|] m1] eqn:Hr.
    + assert (∀ k mk, run_n k m1 = (Ok true, mk) → run_n (S k) m = (Ok true, mk)) as Hs by (intros k mk Hk; cbn [run_n]; by rewrite Hr).
      specialize (IH en p' m1 Hp'). destruct (profile_loop chart fuel en p' m1) as [[[p2 m2]|]|].
      * destruct IH as (Hp2 & k & mk & Hk & Hend); [eauto|]. eauto 10.
      * destruct IH as (k & mk & Hk & Hend); [eauto|]. eauto 10.
      * destruct IH as (mk & Hk); [eauto|]. eauto.
    + split; [done|]. exists 0, m. eauto.
    + split; [done|]. exists 0, m. eauto 10.
    + exists 0, m. by rewrite Hr.
  - split; [done|]. exists 0, m. eauto.
  - exists 0, m. split; [done|]. unfold next_opcode in Hop. unfold run_one, run_one_dont_catch_errors, mbind, M_bind, get.
    destruct (state m); [done..|]. unfold must. by rewrite Hop.
Qed.
End steps.

(** ** Tallies *)
Definition csum (c : Costs) : Z := msum fst c.

Lemma csum_add c f gas loc : cong (csum (add_cost c f gas loc)) (csum c + gas).
Proof.
  unfold add_cost, csum. destruct (c !! f) as [[g l]|] eqn:Hf.
  - rewrite (msum_insert _ _ _ _ _ Hf). cbn [fst]. generalize (msum fst c). intros. cong.
  - rewrite msum_new by done. cbn [fst]. generalize (msum fst c). intros. cong.
Qed.

(** The gas a function has used since it was called, as far as it has not
    returned. *)
Definition pending (t : Tally) : Z :=
  if in_callstack t then
    ((if in_func t then start_point t else match current_call t with Some (_, (gas, _)) => gas | None => 0 end) - call_start t)%Z
  else 0%Z.

(** After the events [pre]. *)
Record tallied (tree : gmap CodePt.t Events) (pre : list ProfilerEvent) (t : Tally) : Prop := {
  ta_in : in_func t = Nat.odd (length pre);
  ta_stack : in_callstack t = match last pre with Some (EnterFunc _) | Some (CallFunc _ _) => true | _ => false end;
  ta_call : match last pre with Some (CallFunc _ _) => is_Some (current_call t) | _ => current_call t = None end;
  ta_start : ∀ x, last pre = Some (EnterFunc x) → start_point t = x;
  ta_own : cong (in_func_gas t) (signed tree pre + (if in_func t then start_point t else 0));
  ta_balance : cong (csum (callers t) + pending t) (csum (called t) + in_func_gas t);
}.

Lemma tallied_nil tree : tallied tree [] tally0.
Proof. by split. Qed.

(** The last of events in turns enters a function just if their number is odd. *)
Lemma turns_last (pre : list ProfilerEvent) : (∀ i x, pre !! i = Some x → is_enter x = Nat.even i) →
  match last pre with Some x => is_enter x = Nat.odd (length pre) | None => Nat.odd (length pre) = false end.
Proof.
  intros Hturns. rewrite last_lookup. destruct (pre !! pred (length pre)) as [x|] eqn:Ex.
  - rewrite (Hturns _ _ Ex). destruct pre as [|? pre]; [done|]. cbn [length pred]. by rewrite Nat.odd_succ.
  - apply lookup_ge_None in Ex. destruct pre; [done|]. cbn in Ex. lia.
Qed.

Ltac tally := cbn [in_func start_point in_callstack call_start current_call called in_func_gas callers].
Ltac cong_sums := repeat match goal with |- context [csum ?c] => generalize (csum c); intros ? end; intros; cong.

Lemma handle_event_tallied tree pre t e : tallied tree pre t → (∀ i x, pre !! i = Some x → is_enter x = Nat.even i) →
  is_enter e = Nat.even (length pre) → is_Some (event_gas tree e) →
  ∃ t', handle_event tree e t = Some t' ∧ tallied tree (pre ++ [e]) t'.
Proof.
  intros [Hin Hst Hcall Hstart Hown Hbal] Hl%turns_last He [g Hg]. rewrite <- Hin in Hl.
  assert (in_func t = negb (is_enter e)) as Hin' by (rewrite Hin, He; by rewrite <- Nat.negb_even).
  assert (signed tree (pre ++ [e]) = signed tree pre + (if is_enter e then - g else g))%Z as Hsg.
  { rewrite signed_app. cbn. rewrite Hg. cbn. destruct (is_enter e); lia. }
  assert (Nat.odd (length (pre ++ [e])) = is_enter e) as Hodd by (rewrite length_app, Nat.add_1_r, Nat.odd_succ; by rewrite He).
  clear Hin He. unfold pending in Hbal. rewrite Hin' in Hl, Hown, Hbal.
  destruct e as [x|f i|f i]; cbn [handle_event is_enter negb event_gas] in *; rewrite Hin'.
  - injection Hg as <-. eexists. split; [reflexivity|].
    split; tally; rewrite ?last_snoc, ?Hsg, ?Hodd; try done; [by intros x' [= <-]|cong|].
    unfold pending. tally. destruct (in_callstack t) eqn:Es.
    + destruct (last pre) as [[]|]; try done. destruct Hcall as [[f' [st loc]] Hc]. rewrite Hc in *.
      pose proof (csum_add (called t) f' (sub64 x st) loc) as Hadd. revert Hadd Hbal. cong_sums.
    + assert (current_call t = None) as -> by (destruct (last pre) as [[]|]; done). revert Hbal. cong_sums.
  - destruct (last pre) as [[x| |]|]; try done. specialize (Hstart x eq_refl). rewrite Hst in Hbal. rewrite Hg. eexists. split; [reflexivity|].
    split; tally; rewrite ?last_snoc, ?Hsg, ?Hodd; try done; [cong|]. unfold pending. tally. rewrite Hst. revert Hbal. cong_sums.
  - destruct (last pre) as [[x| |]|]; try done. specialize (Hstart x eq_refl). rewrite Hst in Hbal. rewrite Hg. eexists. split; [reflexivity|].
    split; tally; rewrite ?last_snoc, ?Hsg, ?Hodd; try done; [cong|]. unfold pending. tally.
    pose proof (csum_add (callers t) f (sub64 g (call_start t)) (func_location tree f)) as Hadd. revert Hadd Hbal. cong_sums.
Qed.

(** The events of a tracked function can be tallied. *)
Lemma handle_events_tallied tree open evs : events_ok tree open evs →
  ∃ t, handle_events tree evs tally0 = Some t ∧ tallied tree evs t.
Proof.
  intros [Hturns _ Hlinks].
  assert (∀ post pre t, pre ++ post = evs → tallied tree pre t → ∃ t', handle_events tree post t = Some t' ∧ tallied tree evs t') as Hgen.
  { intros post. induction post as [|e post IH]; intros pre t Heq Ht.
    - rewrite app_nil_r in Heq. subst. by exists t.
    - destruct (handle_event_tallied tree pre t e Ht) as (t1 & He & Ht1).
      + intros i x Hi. apply Hturns. rewrite <- Heq. by apply lookup_app_l_Some.
      + apply Hturns. by rewrite <- Heq, list_lookup_middle.
      + apply Hlinks. rewrite <- Heq. set_solver.
      + cbn [handle_events]. rewrite He. apply (IH (pre ++ [e])); [|done]. by rewrite <- app_assoc. }
  apply (Hgen evs [] tally0); [done|apply tallied_nil].
Qed.

(** ** The report *)
Definition own_gas (tree : gmap CodePt.t Events) (evs : list ProfilerEvent) : Z :=
  default 0%Z (in_func_gas <$> handle_events tree evs tally0).

Lemma own_gas_signed tree open evs : events_ok tree open evs →
  cong (own_gas tree evs) (signed tree evs + (if open then match last evs with Some (EnterFunc x) => x | _ => 0 end else 0)).
Proof.
  intros Hok. destruct (handle_events_tallied _ _ _ Hok) as (t & Ht & []). unfold own_gas. rewrite Ht. cbn [fmap option_fmap option_map default].
  destruct Hok as [Hturns Hopen _]. rewrite Hopen in ta_in0. rewrite ta_in0 in ta_own0. apply turns_last in Hturns. rewrite Hopen in Hturns.
  destruct open; [|done]. destruct (last evs) as [[x| |]|]; try done. by rewrite <- (ta_start0 x).
Qed.

Lemma msum_cong `{Countable K} {A} (f g : A → Z) (m : gmap K A) :
  (∀ k x, m !! k = Some x → cong (f x) (g x)) → cong (msum f m) (msum g m).
Proof.
  induction m as [|k x m Hk IH] using map_ind; intros Hfg; [done|]. rewrite !msum_new by done.
  assert (cong (f x) (g x)) as H1 by (apply (Hfg k), lookup_insert_eq).
  assert (cong (msum f m) (msum g m)) as H2.
  { apply IH. intros k' x' Hk'. apply (Hfg k'). rewrite lookup_insert_ne; [done|]. intros ->. congruence. }
  revert H1 H2. generalize (msum f m) (msum g m). intros. cong.
Qed.

(** The gas up to the last switch is divided among the functions. *)
Lemma own_gas_sum tree stack cur : tracked tree stack cur → total_signed tree = 0%Z →
  ∃ evs loc gas, tree !! cur = Some (evs, loc) ∧ last evs = Some (EnterFunc gas) ∧
    cong (msum (λ x, own_gas tree x.1) tree) gas.
Proof.
  intros Htr H0. destruct (tracked_current _ _ _ Htr) as [[evs loc] Hcur]. pose proof (tr_events _ _ _ Htr _ _ _ Hcur) as Hok.
  rewrite bool_decide_true in Hok by done.
  assert (∃ gas, last evs = Some (EnterFunc gas)) as [gas Hgas].
  { destruct Hok as [Hturns Hopen _]. apply turns_last in Hturns. rewrite Hopen in Hturns. destruct (last evs) as [[x| |]|]; try done. by eexists. }
  exists evs, loc, gas. split; [done|]. split; [done|].
  assert (cong (msum (λ x, own_gas tree x.1) (delete cur tree)) (msum (λ x, signed tree x.1) (delete cur tree))) as Hothers.
  { apply msum_cong. intros f [evs1 loc1] [Hne Hf]%lookup_delete_Some. pose proof (tr_events _ _ _ Htr _ _ _ Hf) as Hok1.
    rewrite bool_decide_false in Hok1 by done. pose proof (own_gas_signed _ _ _ Hok1) as Ho. cbn [fst]. by rewrite Z.add_0_r in Ho. }
  pose proof (own_gas_signed _ _ _ Hok) as Hown. rewrite Hgas in Hown. unfold total_signed in H0.
  rewrite (msum_delete _ _ _ _ Hcur) in H0. rewrite (msum_delete _ _ _ _ Hcur). cbn [fst] in *. revert Hothers H0 Hown.
  generalize (own_gas tree evs) (signed tree evs) (msum (λ x : Events, own_gas tree x.1) (delete cur tree))
    (msum (λ x : Events, signed tree x.1) (delete cur tree)). intros. cong.
Qed.

Lemma formatted_data_total tree : (∀ f evs loc, tree !! f = Some (evs, loc) → is_Some (handle_events tree evs tally0)) →
  is_Some (formatted_data tree).
Proof.
  intros Hev. unfold formatted_data.
  assert (∀ l, (∀ f evs loc, (f, (evs, loc)) ∈ l → is_Some (handle_events tree evs tally0)) → ∀ m, ∃ m',
    foldl (λ (acc : option (gmap Z (Tally * CodePt.t * option Location.t))) '(func, (events, loc)),
      m ← acc; t ← handle_events tree events tally0; Some (<[in_func_gas t := (t, func, loc)]> m)) (Some m) l = Some m') as Hl.
  { induction l as [|[f [evs loc]] l IH]; intros Hin m; [by exists m|]. cbn [foldl mbind option_bind].
    destruct (Hin f evs loc) as [t ->]; [by left|]. cbn [mbind option_bind]. apply IH. intros f' evs' loc' Hf. eapply Hin. right. exact Hf. }
  destruct (Hl (map_to_list tree)) with (m := ∅ : gmap Z (Tally * CodePt.t * option Location.t)) as [m' ->]; [|by eexists].
  intros f evs loc Hf%elem_of_map_to_list. by eapply Hev.
Qed.

(** All the gas of a profile. *)
Definition profiled (d : ProfilerData) : Z := (unknown_gas d + msum (msum id) (data d))%Z.

Lemma session_total d r : session_report d = Some r → sr_total r = (profiled d mod 2 ^ 64)%Z.
Proof.
  intros (fd & _ & [= <-])%bind_Some. cbn [sr_total]. apply cong_eq; [|apply wrapping_add_ok; lia|apply Z.mod_pos_bound; lia].
  assert (cong (foldl (wrapping_add 64) 0%Z (file_gas_costs d).*2) (msum (msum id) (data d))) as Hs.
  { assert ((file_gas_costs d).*2 = (λ tree : gmap (Z * Z) Z, sum64 (map_to_list tree).*2) <$> (map_to_list (data d)).*2) as ->.
    { unfold file_gas_costs. generalize (map_to_list (data d)). intros l. induction l as [|[n t] l IH]; [done|]. rewrite !fmap_cons. by rewrite IH. }
    etrans; [apply (sum64_map (λ tree : gmap (Z * Z) Z, sum64 (map_to_list tree).*2))|]. apply msum_cong. intros n t _.
    etrans; [|apply (sum64_map id)]. by rewrite list_fmap_id. }
  unfold profiled. revert Hs. generalize (foldl (wrapping_add 64) 0%Z (file_gas_costs d).*2) (msum (msum id) (data d)) (unknown_gas d). intros. cong.
Qed.

(** ** Totals *)

(** The file of an instruction's location is in the chart. *)
Definition located (chart : Chart) (i : CodeStore.insn) : Prop :=
  match location (Instruction.debug_info i) with
  | Some loc => is_Some (chart !! Location.file_id loc)
  | None => True
  end.

Lemma add_gas_total chart d loc gas : match loc with Some l => is_Some (chart !! Location.file_id l) | None => True end →
  cong (profiled (add_gas chart d loc gas)) (profiled d + gas).
Proof.
  unfold add_gas, get_mut, insert, profiled. destruct loc as [loc|]; [|intros _; cbn; generalize (msum (msum id) (data d)); intros; cong].
  intros [info ->]. cbn [mbind option_bind]. set (key := (_, _)).
  destruct (data d !! name info) as [tree|] eqn:Ht; cbn [mbind option_bind default].
  - destruct (tree !! key) as [g|] eqn:Hg; cbn [mbind option_bind snd unknown_gas data set_data];
      rewrite (msum_insert _ _ _ _ _ Ht); [rewrite (msum_insert _ _ _ _ _ Hg)|rewrite msum_new by done];
      unfold id; generalize (msum (λ x : Z, x) tree) (msum (msum (λ x : Z, x)) (data d)); intros; cong.
  - cbn [snd unknown_gas data set_data]. rewrite msum_new by done. rewrite msum_new by apply lookup_empty. rewrite msum_empty.
    unfold id. generalize (msum (msum (λ x : Z, x)) (data d)). intros. cong.
Qed.

Section runs.
Context `{HC : Crypto, HV : Curve}.
Variable chart : Chart.

(** The gas of the instructions of a run from the point where profiling is
    enabled. *)
Fixpoint profiled_gas (fuel : nat) (enabled : bool) (m : Machine) : Z :=
  match fuel with
  | O => 0%Z
  | S fuel =>
      match next_opcode m with
      | Some (Some insn) =>
          let enabled := bool_decide (Instruction.opcode insn = AVMOpcode.Inbox) || enabled in
          ((if enabled then default 0%Z (default None (next_op_gas m)) else 0) +
           match run_one m with (Ok true, m) => profiled_gas fuel enabled m | _ => 0 end)%Z
      | _ => 0%Z
      end
  end.

Lemma gen_step_gas m insn p p' : gen_step chart m insn p = Some p' → is_Some (next_op_gas m).
Proof. unfold gen_step. by intros (og & -> & _)%bind_Some. Qed.

Lemma profile_loop_total fuel enabled p m p' m' : profile_ok p → Forall (Forall (located chart)) (code m) →
  profile_loop chart fuel enabled p m = Some (Some (p', m')) →
  profile_ok p' ∧ cong (profiled (loc_map p')) (profiled (loc_map p) + profiled_gas fuel enabled m).
Proof.
  revert enabled p m. induction fuel as [|fuel IH]; intros enabled p m Hp Hc Hl; [done|]. cbn [profile_loop profiled_gas] in *.
  destruct (next_opcode m) as [[insn|]|] eqn:Hop; [|injection Hl as <- <-; split; [done|rewrite Z.add_0_r; done]|done].
  set (en := _ || _) in *.
  destruct (if en then gen_step chart m insn p else Some p) as [p1|] eqn:Hg; [|done].
  assert (profile_ok p1 ∧ cong (profiled (loc_map p1)) (profiled (loc_map p) + (if en then default 0%Z (default None (next_op_gas m)) else 0))) as [Hp1 Ht1].
  { destruct en; [|injection Hg as <-; split; [done|by rewrite Z.add_0_r]].
    destruct (gen_step_ok chart m insn p Hop Hp (gen_step_gas _ _ _ _ Hg)) as (p2 & Hg2 & Hp2 & _ & tree & Hd). rewrite Hg in Hg2.
    injection Hg2 as <-. split; [done|]. rewrite Hd. apply add_gas_total. unfold next_opcode in Hop. destruct (state m); [done..|].
    exact (CodeStore.get_insn_Forall _ _ _ _ Hc Hop). }
  revert Ht1. generalize (if en then default 0%Z (default None (next_op_gas m)) else 0%Z). intros gas Ht1.
  pose proof (run_one_code_new m (located chart)) as Hnew.
  destruct (run_one m) as [[[]|e|] m1]; [|injection Hl as <- _; rewrite Z.add_0_r; done..|done].
  destruct (IH _ _ _ Hp1 (Hnew ltac:(intros i Hi; unfold located; by rewrite Hi) Hc) Hl) as [Hp' Ht']. split; [done|].
  cbn [snd] in Ht'. revert Ht1 Ht'.
  generalize (profiled (loc_map p')) (profiled (loc_map p1)) (profiled (loc_map p)) (profiled_gas fuel en m1). intros. cong.
Qed.

(** The steps before the loop. *)
Lemma profile_gen_loop fuel m args mode r : profile_gen chart fuel m args mode = r → mode ≠ Never → is_Some (code m !! 0) →
  ∃ stop m0 loc, call_state m (CodePt.new_internal 0) args = Some (stop, m0) ∧ code m0 = code m ∧
    r = match profile_loop chart fuel (bool_decide (mode = Always)) (start_profile chart loc) m0 with
        | None => None | Some None => Some None | Some (Some (p, m)) => Some (Some (loc_map p, m)) end.
Proof.
  intros <- Hm [seg Hseg]. unfold profile_gen. rewrite bool_decide_false by done.
  destruct (call_state m (CodePt.new_internal 0) args) as [[stop m0]|] eqn:Hcall; unfold call_state, CodeStore.runtime_segment_size in Hcall; rewrite Hseg in Hcall; [|done].
  injection Hcall as <- <-. cbn [CodeStore.get_insn code set_state set_stack CodePt.new_internal]. rewrite Hseg. cbn [mbind option_bind].
  eexists _, _, _. split; [reflexivity|]. split; reflexivity.
Qed.

Lemma profile_gen_ok fuel m args mode d m' : profile_gen chart fuel m args mode = Some (Some (d, m')) →
  ∃ p m0 loc, profile_loop chart fuel (bool_decide (mode = Always)) (start_profile chart loc) m0 = Some (Some (p, m')) ∧ d = loc_map p ∧
    code m0 = code m ∧ ∃ stop, call_state m (CodePt.new_internal 0) args = Some (stop, m0).
Proof.
  intros Hgen. assert (mode ≠ Never) as Hm by (intros ->; done).
  assert (is_Some (code m !! 0)) as Hseg.
  { unfold profile_gen in Hgen. rewrite bool_decide_false in Hgen by done. unfold call_state, CodeStore.runtime_segment_size in Hgen.
    destruct (code m !! 0); [by eexists|done]. }
  destruct (profile_gen_loop _ _ _ _ _ Hgen Hm Hseg) as (stop & m0 & loc & Hcall & Hc & Hr).
  destruct (profile_loop _ _ _ _ _) as [[[p m1]|]|] eqn:Hl; try done. injection Hr as -> ->. eauto 10.
Qed.

(** The invariant of the loop, without the hypothesis on locations. *)
Lemma profile_loop_ok fuel enabled p m p' m' : profile_ok p → profile_loop chart fuel enabled p m = Some (Some (p', m')) → profile_ok p'.
Proof.
  revert enabled p m. induction fuel as [|fuel IH]; intros enabled p m Hp Hl; [done|]. cbn [profile_loop] in *.
  destruct (next_opcode m) as [[insn|]|] eqn:Hop; [|by injection Hl as <- <-|done]. set (en := _ || _) in *.
  destruct (if en then gen_step chart m insn p else Some p) as [p1|] eqn:Hg; [|done].
  assert (profile_ok p1) as Hp1.
  { destruct en; [|by injection Hg as <-].
    destruct (gen_step_ok chart m insn p Hop Hp (gen_step_gas _ _ _ _ Hg)) as (p2 & Hg2 & Hp2 & _). congruence. }
  destruct (run_one m) as [[[]|e|] m1]; [by eapply IH|by injection Hl as <- _..|done].
Qed.

Lemma session_report_total p : profile_ok p → is_Some (session_report (loc_map p)).
Proof.
  intros [Htr _]. destruct (formatted_data_total (stack_tree (loc_map p))) as [fd Hfd].
  - intros f evs loc Hf. destruct (handle_events_tallied _ _ _ (tr_events _ _ _ Htr _ _ _ Hf)) as (t & -> & _). by eexists.
  - unfold session_report. rewrite Hfd. by eexists.
Qed.

(** C30: a profile is consistent.  On every profile that [profile_gen] gives, the
    report of [profiler_session] does not panic: the events of each function
    enter and leave it in turns and every link leads to an event that enters a
    function.  For each function that has returned from its last call, the gas
    charged to its callers is the gas of the functions it called and its own;
    and the own gas of all functions is the gas at the last call or return, which
    entered the function that is still running.  (Counters are modulo [2^64].) *)
Theorem profile_consistent fuel m args mode d m' :
  profile_gen chart fuel m args mode = Some (Some (d, m')) →
  is_Some (session_report d) ∧
  (∀ f evs loc, stack_tree d !! f = Some (evs, loc) → ∃ t, handle_events (stack_tree d) evs tally0 = Some t ∧
    ∀ caller i, last evs = Some (Return caller i) →
      (csum (callers t) mod 2 ^ 64 = (csum (called t) + in_func_gas t) mod 2 ^ 64)%Z) ∧
  ∃ f evs loc gas, stack_tree d !! f = Some (evs, loc) ∧ last evs = Some (EnterFunc gas) ∧
    (msum (λ x, own_gas (stack_tree d) x.1) (stack_tree d) mod 2 ^ 64 = gas mod 2 ^ 64)%Z.
Proof.
  intros Hgen. destruct (profile_gen_ok _ _ _ _ _ _ Hgen) as (p & m0 & loc & Hl & -> & _).
  pose proof (profile_loop_ok _ _ _ _ _ _ (start_profile_ok chart loc) Hl) as Hp. split; [by apply session_report_total|].
  destruct Hp as [Htr Hsg]. split.
  - intros f evs l Hf. destruct (handle_events_tallied _ _ _ (tr_events _ _ _ Htr _ _ _ Hf)) as (t & Ht & [_ Hst _ _ _ Hbal]).
    exists t. split; [done|]. intros caller i Hl'. rewrite Hl' in Hst. unfold pending in Hbal. rewrite Hst in Hbal. revert Hbal. cong_sums.
  - destruct (own_gas_sum _ _ _ Htr Hsg) as (evs & l & gas & Hf & Hlast & Hsum). eexists _, evs, l, gas. split; [exact Hf|]. split; [done|].
    revert Hsum. generalize (msum (λ x : Events, own_gas (stack_tree (loc_map p)) x.1) (stack_tree (loc_map p))). intros. cong.
Qed.

(** C31: the total of a profile.  If the files of all instructions are in the
    chart, the total that [profiler_session] prints is the gas of the
    instructions that ran while profiling was enabled: all of them, or those from
    the first [Inbox] instruction on. *)
Theorem profile_total fuel m args mode d m' stop m0 :
  profile_gen chart fuel m args mode = Some (Some (d, m')) → Forall (Forall (located chart)) (code m) →
  call_state m (CodePt.new_internal 0) args = Some (stop, m0) →
  ∃ r, session_report d = Some r ∧ sr_total r = (profiled_gas fuel (bool_decide (mode = Always)) m0 mod 2 ^ 64)%Z.
Proof.
  intros Hgen Hc Hcall. destruct (profile_gen_ok _ _ _ _ _ _ Hgen) as (p & m1 & loc & Hl & -> & Hcode & stop1 & Hcall1).
  rewrite Hcall in Hcall1. injection Hcall1 as <- <-. rewrite <- Hcode in Hc.
  destruct (profile_loop_total _ _ _ _ _ _ (start_profile_ok chart loc) Hc Hl) as [Hp Ht].
  destruct (session_report_total p Hp) as [r Hr]. exists r. split; [done|]. rewrite (session_total _ _ Hr).
  replace (profiled (loc_map (start_profile chart loc))) with 0%Z in Ht by done. revert Ht.
  generalize (profiled (loc_map p)) (profiled_gas fuel (bool_decide (mode = Always)) m0). intros. cong.
Qed.
End runs.

(** Profiling does not change a run.  On a well-formed machine, [profile_gen]
    stops where running the machine instruction by instruction stops, with the
    same machine, and panics only if an instruction does. *)
Theorem profile_transparent `{HC : Crypto, !CryptoOk, HV : Curve, !CurveOk} chart fuel m args mode stop m0 :
  wf_machine m0 → mode ≠ Never → call_state m (CodePt.new_internal 0) args = Some (stop, m0) →
  match profile_gen chart fuel m args mode with
  | None => ∃ mk, run_n fuel m0 = (Ok true, mk)
  | Some None => ∃ k mk, run_n k m0 = (Ok true, mk) ∧ (run_one mk).1 = Panic
  | Some (Some (_, m')) => ∃ k mk, run_n k m0 = (Ok true, mk) ∧
      (next_opcode mk = Some None ∧ m' = mk ∨ run_one mk = (Ok false, m') ∨
       ∃ e m1, run_one mk = (Err e, m1) ∧ m' = set_state m1 (Error e))
  end.
Proof.
  intros Hwf Hm Hcall.
  assert (code m = code m0) as Hcm.
  { unfold call_state in Hcall. destruct (CodeStore.runtime_segment_size (code m)); [|done]. by injection Hcall as _ <-. }
  pose proof (wf_runtime _ Hwf) as Hseg. rewrite <- Hcm in Hseg.
  destruct (profile_gen_loop chart fuel m args mode _ eq_refl Hm Hseg) as (stop1 & m1 & loc & Hcall1 & _ & ->).
  rewrite Hcall in Hcall1. injection Hcall1 as <- <-.
  assert (∀ k mk, run_n k m0 = (Ok true, mk) → wf_machine mk) as Hruns.
  { intros k. clear Hcall Hcm. revert m0 Hwf. induction k as [|k IH]; intros m0 Hwf mk Hk; [by injection Hk as <-|]. cbn [run_n] in Hk.
    pose proof (run_one_typed m0 Hwf) as Ht. destruct (run_one m0) as [[[]| |] m1]; try done. by eapply IH. }
  assert (∀ k mk, run_n k m0 = (Ok true, mk) → next_opcode mk ≠ None → is_Some (next_op_gas mk)) as Hgas.
  { intros k mk Hk Hop. unfold next_op_gas, next_opcode in *. destruct (state mk); [by eexists..|].
    destruct (CodeStore.get_insn (code mk) pc) as [[i|]|]; [|by eexists|done]. cbn [mbind option_bind].
    destruct (opcode_gas_bound mk (Instruction.opcode i) (Hruns _ _ Hk)) as (g & -> & _). by eexists. }
  pose proof (profile_loop_run chart fuel (bool_decide (mode = Always)) _ m0 (start_profile_ok chart loc) Hgas) as Hl.
  destruct (profile_loop _ _ _ _ _) as [[[p m2]|]|]; [by destruct Hl|done..].
Qed.

(** ** Where the report and the dialogue go wrong *)

(** Gas at a location whose file is not in the chart is not added to the unknown
    gas but replaces it: what was counted there is lost. *)
Theorem unknown_file_resets chart d loc gas : chart !! Location.file_id loc = None →
  unknown_gas (add_gas chart d (Some loc) gas) = gas.
Proof. intros Hf. unfold add_gas, get_mut, insert. by rewrite Hf. Qed.

(** Entries are keyed by their gas before they are printed, so of two callers
    that cost the same one is dropped, and the report claims that the invariant
    fails although the costs add up. *)
Theorem equal_gas_dropped f f' loc : f ≠ f' →
  let t := mkTally false 0 false 0 None ∅ 6 {[ f := (3%Z, loc); f' := (3%Z, loc) ]} in
  csum (callers t) = (csum (called t) + in_func_gas t)%Z ∧ length (costs_by_gas (callers t)) = 1 ∧
  fr_invariant_fails (func_report f loc t) = Some (3, 6)%Z.
Proof.
  intros Hne t.
  assert ({[ f := (3%Z, loc) ]} !! f' = @None (Z * option Location.t)) as Hf' by (by rewrite lookup_singleton_ne).
  assert (∃ x, costs_by_gas (callers t) = [(3%Z, x)]) as [x Hx].
  { unfold costs_by_gas. cbn [callers t].
    assert (map_to_list ({[ f := (3%Z, loc); f' := (3%Z, loc) ]} : Costs) ≡ₚ [(f, (3%Z, loc)); (f', (3%Z, loc))]) as Hp.
    { rewrite map_to_list_insert by (by rewrite lookup_singleton_ne). by rewrite map_to_list_singleton. }
    assert (by_key codept_le (map_to_list ({[ f := (3%Z, loc); f' := (3%Z, loc) ]} : Costs)) ≡ₚ [(f, (3%Z, loc)); (f', (3%Z, loc))]) as Hs.
    { rewrite <- Hp. apply merge_sort_Permutation. }
    symmetry in Hs. apply Permutation_length_2_inv in Hs as [->| ->]; cbn [foldl];
      (rewrite insert_insert_eq, insert_empty, map_to_list_singleton; by eexists). }
  split; [|split].
  - unfold csum, t. cbn [callers called in_func_gas]. rewrite msum_new by (by rewrite lookup_singleton_ne).
    rewrite <- insert_empty, msum_new by apply lookup_empty. by rewrite msum_empty.
  - by rewrite Hx.
  - unfold func_report. rewrite Hx. reflexivity.
Qed.

(** At the end of the input [read_line] succeeds with an empty line, so the
    dialogue goes on forever unless the user has typed exit. *)
Lemma examine_forever fuel tree out : examine fuel tree ([], out) = None.
Proof.
  assert (∀ fuel out, ∃ out', examine (S fuel) tree ([], out) = examine fuel tree ([], out')) as Hstep by (intros; by eexists).
  revert out. induction fuel as [|fuel IH]; intros out; [done|]. destruct (Hstep fuel out) as [out' ->]. apply IH.
Qed.

Theorem session_needs_exit fuel d out : session_loop fuel d ([], out) = None.
Proof.
  assert (∀ fuel out, session_loop (S fuel) d ([], out) =
    match data d !! "" with
    | Some tree => c ← examine fuel tree ([], Message "Enter file to examine" :: out); session_loop fuel d c
    | None => session_loop fuel d ([], Message (file_not_found "") :: Message "Enter file to examine" :: out)
    end) as Hstep.
  { intros n o. cbn [session_loop]. unfold read_line, println, menu. cbn. destruct (data d !! "") as [tree|]; [|done].
    by destruct (examine n tree _). }
  revert out. induction fuel as [|fuel IH]; intros out; [done|]. rewrite Hstep.
  destruct (data d !! "") as [tree|]; [by rewrite examine_forever|apply IH].
Qed.

(** ** An example *)

(** A call at line 2 of a function of two instructions. *)
Definition line_insn (line : Z) (op : AVMOpcode.t) : CodeStore.insn :=
  Instruction.from_opcode op (mkDebugInfo (Some (Location.mk line 0 0 7)) (mkAttributes false InlineAuto false)).
Definition call_program : Machine :=
  demo [line_insn 1 AVMOpcode.Noop; line_insn 1 AVMOpcode.PCpush; line_insn 2 AVMOpcode.AuxPush; line_insn 3 AVMOpcode.Noop;
        line_insn 3 AVMOpcode.Noop; line_insn 4 AVMOpcode.AuxPop; line_insn 5 AVMOpcode.Noop; line_insn 5 AVMOpcode.Noop;
        line_insn 6 AVMOpcode.Halt] [].
Definition one_file : gmap Z FileInfo := {[ 7%Z := mkFileInfo "main.mini" "main.mini" [] ]}.
Definition empty_data : ProfilerData := mkProfilerData ∅ ∅ 0 ∅.
Definition call_profile : ProfilerData :=
  match profile_gen (H := toy_crypto) (H0 := toy_curve) one_file 20 call_program [] Always with
  | Some (Some (d, _)) => d
  | _ => empty_data
  end.

Lemma call_profile_gen : ∃ m', profile_gen (H := toy_crypto) (H0 := toy_curve) one_file 20 call_program [] Always = Some (Some (call_profile, m')).
Proof. eexists. vm_compute. reflexivity. Qed.

Lemma profile_consistent_witness : ∃ evs loc t, stack_tree call_profile !! CodePt.Internal 3 = Some (evs, loc) ∧
  handle_events (stack_tree call_profile) evs tally0 = Some t ∧ in_func_gas t = 3%Z ∧
  (csum (callers t) mod 2 ^ 64 = (csum (called t) + 3) mod 2 ^ 64)%Z.
Proof.
  destruct call_profile_gen as [m' Hgen].
  destruct (profile_consistent (HC := toy_crypto) (HV := toy_curve) one_file 20 call_program [] Always call_profile m' Hgen) as (_ & H & _).
  destruct (stack_tree call_profile !! CodePt.Internal 3) as [[evs loc]|] eqn:E; [|vm_compute in E; discriminate E].
  destruct (H _ _ _ E) as (t & Ht & Hbal). exists evs, loc, t. split; [done|]. split; [done|].
  vm_compute in E. injection E as <- <-. assert (in_func_gas t = 3%Z) as Hg by (vm_compute in Ht; by injection Ht as <-).
  split; [done|]. rewrite <- Hg. by apply (Hbal (CodePt.Internal 0) 2).
Defined.

Lemma profile_total_witness : ∃ r, session_report call_profile = Some r ∧ sr_total r = 18%Z.
Proof.
  destruct call_profile_gen as [m' Hgen].
  destruct (call_state call_program (CodePt.new_internal 0) []) as [[stop m0]|] eqn:E; [|vm_compute in E; discriminate E].
  destruct (profile_total (HC := toy_crypto) (HV := toy_curve) one_file 20 call_program [] Always call_profile m' stop m0 Hgen) as (r & Hr & Ht).
  - repeat constructor; by eexists.
  - exact E.
  - exists r. split; [done|]. rewrite Ht. injection E as _ <-. vm_compute. reflexivity.
Defined.
