(* ===== verification/TupleTree.v ===== *)
(** * Nested tuples (src/src/link/xformcode.rs)

    The AVM limits tuples to eight components; the linker lays larger ones out
    as trees.  [tree_new] chooses the shape, [read_code] and [write_code]
    generate the instructions that reach an element, [fix_tuple_size] rewrites
    a program with them.  Sizes and indices are [nat]; the loops of
    [TupleTree::new] take fuel, and [tree_new_ok] shows that the fuel given is
    always enough.  [read_correct] and [write_correct] run the generated code
    with the emulator's own instructions. *)

From Stdlib Require Import ZArith Lia.
From S2P Require Import Prelude U256 Pos Opcodes Crypto BufferTree Values Machine Insns Emulator StraightLine.

(** ** Compile errors (src/src/compile/mod.rs)

    Descriptions built with [format!] keep their fixed text only. *)
Record CompileError := mkCompileError {
  title : string;
  description : string;
  locations : list Location.t;
  is_warning : bool;
}.

Definition CompileError_new (t d : string) (locs : list Location.t) : CompileError :=
  mkCompileError t d locs false.
Definition CompileError_new_warning (t d : string) (locs : list Location.t) : CompileError :=
  mkCompileError t d locs true.

(** [debug_info.location.into_iter().collect()] *)
Definition error_at {A} (t d : string) (di : DebugInfo) : outcome CompileError A :=
  Err (CompileError_new t d (option_list (location di))).

Definition TUPLE_SIZE : nat := 8.

Definition insn := Instruction.t Opcode.t.
Definition op_ (op : AVMOpcode.t) (di : DebugInfo) : insn := Instruction.from_opcode (Opcode.AVM op) di.
Definition op_imm (op : AVMOpcode.t) (v : Value.t) (di : DebugInfo) : insn :=
  Instruction.from_opcode_imm (Opcode.AVM op) v di.
Definition slot_val (slot : nat) : Value.t := Value.Int (Uint256.from_usize (Z.of_nat slot)).

(** ** Shapes *)
#[warnings="-register-all"]
Inductive TupleTree :=
| Single
| Tree (size : nat) (v : list TupleTree).

Lemma tuple_tree_ind (P : TupleTree → Prop) :
  P Single → (∀ sz v, Forall P v → P (Tree sz v)) → ∀ t, P t.
Proof.
  intros HS HT. fix IH 1. intros [|sz v]; [apply HS|]. apply HT.
  induction v as [|t v IHv]; constructor; [apply IH|apply IHv].
Qed.

(** [while current_size * 64 <= size { current_size *= 8 }] *)
Fixpoint first_size (fuel current_size size : nat) : option nat :=
  match fuel with
  | O => None
  | S fuel =>
      if Nat.leb (current_size * (TUPLE_SIZE * TUPLE_SIZE)) size
      then first_size fuel (current_size * TUPLE_SIZE) size
      else Some current_size
  end.

(** The loop that fills the slots; a slot count of zero would underflow. *)
Fixpoint fill (new_sub : nat → option TupleTree) (fuel current_size remaining_size remaining_slots : nat)
    (v : list TupleTree) : option (list TupleTree) :=
  match fuel with
  | O => None
  | S fuel =>
      if Nat.eqb remaining_size 0 then Some v
      else if Nat.leb remaining_size current_size then
        t ← new_sub remaining_size;
        fill new_sub fuel current_size 0 remaining_slots (v ++ [t])
      else
        match remaining_slots with
        | O => None
        | S slots =>
            if Nat.leb remaining_size (current_size * (1 + slots * TUPLE_SIZE)) then
              t ← new_sub current_size;
              fill new_sub fuel current_size (remaining_size - current_size) slots (v ++ [t])
            else fill new_sub fuel (current_size * TUPLE_SIZE) remaining_size remaining_slots v
        end
  end.

Definition fill_fuel : nat := 20.

Fixpoint tree_new_fuel (fuel size : nat) (is_local : bool) : option TupleTree :=
  match fuel with
  | O => None
  | S fuel =>
      if Nat.eqb size 1 && negb is_local then Some Single
      else
        current_size ← first_size (S size) 1 size;
        v ← fill (λ n, tree_new_fuel fuel n false) fill_fuel current_size size TUPLE_SIZE [];
        Some (Tree size v)
  end.

(** [TupleTree::new] *)
Definition tree_new (size : nat) (is_local : bool) : option TupleTree :=
  tree_new_fuel (S (S size)) size is_local.

Definition tsize (t : TupleTree) : nat :=
  match t with
  | Single => 1
  | Tree sz _ => sz
  end.

(** ** Values of a shape *)
Fixpoint make_empty (t : TupleTree) : Value.t :=
  match t with
  | Single => Value.new_tuple []
  | Tree _ v => Value.new_tuple (List.map make_empty v)
  end.

(** [for subtree in subtrees { (subval, vals) = ..; ret.push(subval) }] *)
Definition for_subtrees (f : TupleTree → list Value.t → option (Value.t * list Value.t)) :=
  fix go (ts : list TupleTree) (vals : list Value.t) : option (list Value.t * list Value.t) :=
    match ts with
    | [] => Some ([], vals)
    | t :: ts =>
        '(subval, vals) ← f t vals;
        '(ret, vals) ← go ts vals;
        Some (subval :: ret, vals)
    end.

Fixpoint make_value_2 (t : TupleTree) (vals : list Value.t) : option (Value.t * list Value.t) :=
  match t with
  | Single =>
      match vals with
      | v :: vals => Some (v, vals)
      | [] => None
      end
  | Tree _ subtrees =>
      '(ret, vals) ← for_subtrees make_value_2 subtrees vals;
      Some (Value.new_tuple ret, vals)
  end.

Definition make_value (t : TupleTree) (vals : list Value.t) : option Value.t :=
  '(val, _) ← make_value_2 t vals; Some val.

Definition value_from_field_list (lis : list Value.t) : option Value.t :=
  t ← tree_new (length lis) false; make_value t lis.

Definition make_uninitialized_tuple (size : nat) : option Value.t :=
  t ← tree_new size false; Some (make_empty t).

Definition jump_table_to_value (jump_table : list CodePt.t) : option Value.t :=
  t ← tree_new (length jump_table) false; make_value t (Value.CodePoint <$> jump_table).

(** ** Generated code *)

(** [for (slot, subtree) in v.iter().enumerate()]: the subtree that holds the
    index, or the error of an index that is too large. *)
Definition in_slot {A} (body : nat → TupleTree → nat → outcome CompileError A)
    (out_of_bounds : outcome CompileError A) :=
  fix go (slot : nat) (ts : list TupleTree) (index : nat) : outcome CompileError A :=
    match ts with
    | [] => out_of_bounds
    | subtree :: ts =>
        if Nat.ltb index (tsize subtree) then body slot subtree index
        else go (S slot) ts (index - tsize subtree)
    end.

Fixpoint read_code (t : TupleTree) (is_local : bool) (index : nat) (di : DebugInfo)
    : outcome CompileError (list insn) :=
  match t with
  | Single =>
      Ok (if is_local then [op_ AVMOpcode.AuxPop di; op_ AVMOpcode.Dup0 di; op_ AVMOpcode.AuxPush di]
          else [])
  | Tree _ v =>
      in_slot (λ slot subtree index,
          rest ← read_code subtree false index di;
          Ok (op_imm (if is_local then AVMOpcode.Xget else AVMOpcode.Tget) (slot_val slot) di :: rest))
        (error_at "Compile error: TupleTree::read_code" "out-of-bounds read" di) 0 v index
  end.

Fixpoint write_code (t : TupleTree) (is_local : bool) (index_in : nat) (di : DebugInfo)
    : outcome CompileError (list insn) :=
  match t with
  | Single => Ok [op_ AVMOpcode.Pop di]
  | Tree _ v =>
      in_slot (λ slot subtree index,
          match subtree with
          | Single => Ok [op_imm (if is_local then AVMOpcode.Xset else AVMOpcode.Tset) (slot_val slot) di]
          | Tree _ _ =>
              rest ← write_code subtree false index di;
              Ok (if is_local
                  then op_imm AVMOpcode.Xget (slot_val slot) di :: rest
                       ++ [op_imm AVMOpcode.Xset (slot_val slot) di]
                  else op_ AVMOpcode.Swap1 di :: op_ AVMOpcode.Dup1 di
                       :: op_imm AVMOpcode.Tget (slot_val slot) di :: rest
                       ++ [op_ AVMOpcode.Swap1 di; op_imm AVMOpcode.Tset (slot_val slot) di])
          end)
        (error_at "Compile error: TupleTree::write_code" "out-of-bounds write" di) 0 v index_in
  end.

(** ** The whole pass *)
Definition index_of (imm : option Value.t) (di : DebugInfo) (too_large missing : string)
    : outcome CompileError nat :=
  match imm with
  | Some index =>
      match Value.to_usize index with
      | Some iu => Ok (Z.to_nat iu)
      | None => error_at "Compile error: fix_tuple_size" too_large di
      end
  | None => error_at "Compile error: fix_tuple_size" missing di
  end.

(** One level of an unchecked array access:  stack before [idx arr], after
    [subindex subarr]. *)
Definition array_level (di : DebugInfo) : list insn :=
  let tup_size_val := slot_val TUPLE_SIZE in
  [op_imm AVMOpcode.Dup1 tup_size_val di; op_ AVMOpcode.Mod di; op_ AVMOpcode.Swap1 di;
   op_imm AVMOpcode.Swap1 tup_size_val di; op_ AVMOpcode.Div di; op_ AVMOpcode.Swap2 di;
   op_ AVMOpcode.Swap1 di; op_ AVMOpcode.Tget di; op_ AVMOpcode.Swap1 di].

Fixpoint array_code (fuel remaining_size : nat) (di : DebugInfo) : option (list insn) :=
  match fuel with
  | O => None
  | S fuel =>
      if Nat.ltb TUPLE_SIZE remaining_size then
        rest ← array_code fuel ((remaining_size + (TUPLE_SIZE - 1)) / TUPLE_SIZE) di;
        Some (array_level di ++ rest)
      else Some [op_ AVMOpcode.Tget di]
  end.

(** [for lnum in 0..nargs { locals_tree.write_code(true, lnum, ..)? }] *)
Fixpoint write_args (t : TupleTree) (lnum n : nat) (di : DebugInfo) : outcome CompileError (list insn) :=
  match n with
  | O => Ok []
  | S n => c ← write_code t true lnum di; rest ← write_args t (S lnum) n di; Ok (c ++ rest)
  end.

(** The code an instruction becomes, and the shape of the locals after it. *)
Definition fix_insn (global_tree locals_tree : TupleTree) (i : insn)
    : outcome CompileError (list insn * TupleTree) :=
  let di := Instruction.debug_info i in
  let imm := Instruction.immediate i in
  match Instruction.opcode i with
  | Opcode.MakeFrame nargs ntotal return_address =>
      locals_tree ← unwrap (tree_new ntotal true);
      args ← write_args locals_tree 0 nargs di;
      Ok ((if return_address then [op_ AVMOpcode.AuxPush di] else [])
          ++ match imm with Some v => [op_imm AVMOpcode.Noop v di] | None => [] end
          ++ [op_imm AVMOpcode.AuxPush (make_empty locals_tree) di]
          ++ args, locals_tree)
  | Opcode.TupleGet size =>
      ttree ← unwrap (tree_new size false);
      iu ← index_of imm di "index too large" "TupleGet without immediate arg";
      c ← read_code ttree false iu di;
      Ok (c, locals_tree)
  | Opcode.TupleSet size =>
      ttree ← unwrap (tree_new size false);
      iu ← index_of imm di "TupleSet index too large" "TupleSet without immediate arg";
      c ← write_code ttree false iu di;
      Ok (c, locals_tree)
  | Opcode.SetLocal =>
      iu ← index_of imm di "index too large" "SetLocal without immediate arg";
      c ← write_code locals_tree true iu di;
      Ok (c, locals_tree)
  | Opcode.GetLocal =>
      iu ← index_of imm di "index too large" "GetLocal without immediate arg";
      c ← read_code locals_tree true iu di;
      Ok (c, locals_tree)
  | Opcode.SetGlobalVar idx =>
      c ← write_code global_tree false idx di;
      Ok (op_ AVMOpcode.Rpush di :: c ++ [op_ AVMOpcode.Rset di], locals_tree)
  | Opcode.GetGlobalVar idx =>
      c ← read_code global_tree false idx di;
      Ok (op_ AVMOpcode.Rpush di :: c, locals_tree)
  | Opcode.Return =>
      Ok ([Instruction.new (Opcode.AVM AVMOpcode.AuxPop) imm di; op_ AVMOpcode.Pop di;
           op_ AVMOpcode.AuxPop di; op_ AVMOpcode.Jump di], locals_tree)
  | Opcode.UncheckedFixedArrayGet sz =>
      c ← unwrap (array_code (S sz) sz di);
      Ok (c, locals_tree)
  | _ => Ok ([i], locals_tree)
  end.

Fixpoint fix_tuple_size_loop (global_tree locals_tree : TupleTree) (code_in : list insn)
    : outcome CompileError (list insn) :=
  match code_in with
  | [] => Ok []
  | i :: code_in =>
      '(c, locals_tree) ← fix_insn global_tree locals_tree i;
      rest ← fix_tuple_size_loop global_tree locals_tree code_in;
      Ok (c ++ rest)
  end.

Definition fix_tuple_size (code_in : list insn) (num_globals : nat) : outcome CompileError (list insn) :=
  locals_tree ← unwrap (tree_new 1 true);
  global_tree ← unwrap (tree_new num_globals false);
  fix_tuple_size_loop global_tree locals_tree code_in.

(** ** Well-formed shapes: at most eight subtrees, none of them empty, whose
    sizes add up *)
#[warnings="-register-all"]
Inductive tree_ok : TupleTree → Prop :=
| single_ok : tree_ok Single
| tree_node_ok v : length v <= TUPLE_SIZE → Forall tree_ok v → Forall (λ t, 0 < tsize t) v →
    tree_ok (Tree (sum_list (tsize <$> v)) v).

Lemma first_size_ok fuel c size :
  1 <= c → 1 <= fuel → size < c + fuel → (c = 1 ∨ c * 8 <= size) →
  ∃ c', first_size fuel c size = Some c' ∧ 1 <= c' ∧ size < c' * 64 ∧ (c' = 1 ∨ c' * 8 <= size).
Proof.
  unfold TUPLE_SIZE. revert c; induction fuel as [|fuel IH]; intros c Hc Hf Hs Hd; [lia|].
  cbn [first_size]. unfold TUPLE_SIZE. destruct (Nat.leb_spec (c * (8 * 8)) size).
  - destruct fuel as [|fuel]; [lia|]. apply IH; lia.
  - exists c. split; [done|]. lia.
Qed.

(** The slots never run out: as long as something remains there are enough of
    them for subtrees of eight times the current size, and the current size
    grows at most once. *)
Lemma fill_ok new_sub size fuel c r s v :
  (∀ n, 1 <= n <= size → n < size ∨ n = 1 → ∃ t, new_sub n = Some t ∧ tree_ok t ∧ tsize t = n) →
  1 <= c → 1 <= s → r <= size → r <= c * 8 * s →
  (r < size ∨ (s = 8 ∧ (c < size ∨ size <= 1))) →
  s + 2 <= fuel → (r <= c * s ∨ s + 3 <= fuel) →
  ∃ v', fill new_sub fuel c r s v = Some (v ++ v') ∧ length v' <= s ∧
        sum_list (tsize <$> v') = r ∧ Forall tree_ok v' ∧ Forall (λ t, 0 < tsize t) v'.
Proof.
  intros Hnew. revert c r s v; induction fuel as [|fuel IH]; intros c r s v Hc Hs Hr Hb Hj Hf Hf'; [lia|].
  cbn [fill]. unfold TUPLE_SIZE in *. destruct (Nat.eqb_spec r 0) as [->|Hr0].
  { exists []. rewrite app_nil_r. split; [done|]. simpl. split_and!; try done; lia. }
  destruct (Nat.leb_spec r c) as [Hle|Hgt].
  { destruct (Hnew r) as (t & -> & Ht & Hts); [lia|lia|]. cbn [mbind option_bind].
    destruct fuel as [|fuel]; [lia|]. cbn [fill Nat.eqb]. exists [t]. split; [done|]. simpl.
    split_and!; [lia|lia|by constructor|constructor; [lia|done]]. }
  destruct s as [|s]; [lia|]. destruct (Nat.leb_spec r (c * (1 + s * 8))) as [Hle|Hgt'].
  - destruct (Hnew c) as (t & -> & Ht & Hts); [lia|lia|]. cbn [mbind option_bind].
    destruct (IH c (r - c) s (v ++ [t])) as (v' & -> & Hl & Hsum & Hok & Hpos); try nia.
    exists (t :: v'). rewrite <- app_assoc. split; [done|].
    change (sum_list (tsize <$> t :: v')) with (tsize t + sum_list (tsize <$> v')).
    split_and!; [simpl; lia|lia|by constructor|constructor; [lia|done]].
  - apply IH; try nia.
Qed.

(** Keeps conversion from unfolding the loops. *)
#[global] Strategy 1000 [fill_fuel fill first_size].

Lemma tree_new_fuel_S fuel size is_local :
  tree_new_fuel (S fuel) size is_local =
  if Nat.eqb size 1 && negb is_local then Some Single
  else
    current_size ← first_size (S size) 1 size;
    v ← fill (λ n, tree_new_fuel fuel n false) fill_fuel current_size size TUPLE_SIZE [];
    Some (Tree size v).
Proof. reflexivity. Qed.

Lemma fill_new_ok new_sub size c :
  (∀ n, 1 <= n <= size → n < size ∨ n = 1 → ∃ t, new_sub n = Some t ∧ tree_ok t ∧ tsize t = n) →
  1 <= c → size < c * 64 → (c = 1 ∨ c * 8 <= size) →
  ∃ v, fill new_sub fill_fuel c size TUPLE_SIZE [] = Some v ∧ tree_ok (Tree size v).
Proof.
  intros Hnew Hc Hlt Hd.
  edestruct (fill_ok new_sub size fill_fuel c size TUPLE_SIZE []) as (v & Hfill & Hl & Hsum & Hok & Hpos);
    [exact Hnew|..|exists v; split; [exact Hfill|rewrite <- Hsum; by constructor]].
  all: unfold fill_fuel, TUPLE_SIZE; lia.
Qed.

Lemma tree_new_fuel_ok fuel size is_local : size < fuel →
  ∃ t, tree_new_fuel fuel size is_local = Some t ∧ tree_ok t ∧ tsize t = size.
Proof.
  revert size is_local; induction fuel as [|fuel IH]; intros size is_local Hf; [lia|].
  rewrite tree_new_fuel_S. destruct (Nat.eqb size 1 && negb is_local) eqn:E.
  { bool_to_prop. subst. exists Single. split; [done|]. split; [constructor|done]. }
  destruct (first_size_ok (S size) 1 size) as (c & Hfirst & Hc & Hlt & Hd); [lia..|].
  destruct (fill_new_ok (λ n, tree_new_fuel fuel n false) size c) as (v & Hfill & Hok); [|lia..|].
  { intros n Hn Hlt'. destruct (decide (n = 1)) as [->|]; [|apply IH; lia].
    destruct fuel as [|fuel]; [lia|]. exists Single. split; [apply tree_new_fuel_S|]. split; [constructor|done]. }
  exists (Tree size v). rewrite Hfirst. unfold mbind, option_bind. rewrite Hfill. done.
Qed.

(** ** What a nested value stands for *)

(** The elements of a list of values, tree by tree. *)
Definition leaves_list (leaves : TupleTree → Value.t → option (list Value.t)) :=
  fix go (ts : list TupleTree) (vs : list Value.t) : option (list Value.t) :=
    match ts, vs with
    | [], [] => Some []
    | t :: ts, v :: vs => x ← leaves t v; xs ← go ts vs; Some (x ++ xs)
    | _, _ => None
    end.

(** The elements of a value of a given shape, from left to right; [None] if
    the value does not have the shape. *)
Fixpoint leaves (t : TupleTree) (v : Value.t) : option (list Value.t) :=
  match t, v with
  | Single, x => Some [x]
  | Tree _ ts, Value.Tuple vs => leaves_list leaves ts vs
  | Tree _ _, _ => None
  end.

Lemma leaves_list_cons f t ts v vs xs : leaves_list f (t :: ts) (v :: vs) = Some xs →
  ∃ ys zs, f t v = Some ys ∧ leaves_list f ts vs = Some zs ∧ xs = ys ++ zs.
Proof.
  cbn [leaves_list]. intros Hx. apply bind_Some in Hx as (ys & Hy & Hx).
  apply bind_Some in Hx as (zs & Hz & [= <-]). eauto 10.
Qed.

Lemma leaves_length t v xs : tree_ok t → leaves t v = Some xs → length xs = tsize t.
Proof.
  intros Ht. revert v xs. induction t as [|sz ts IH] using tuple_tree_ind; intros v xs Hx.
  { simplify_eq/=. done. }
  inversion Ht as [|? Hl Hok Hpos]; subst. destruct v as [|vs| | |]; try done. cbn [leaves tsize] in *.
  clear Hl Ht Hpos. revert vs xs Hx. induction ts as [|t ts IHts]; intros [|v vs] xs Hx; try done.
  { by simplify_eq/=. }
  apply leaves_list_cons in Hx as (ys & zs & Hy & Hz & ->).
  apply Forall_cons_iff in IH as [IH1 IH2]. apply Forall_cons_iff in Hok as [Hok1 Hok2].
  rewrite length_app, (IH1 Hok1 _ _ Hy), (IHts IH2 Hok2 _ _ Hz). done.
Qed.

(** The slot that holds element [i], for reading and for writing. *)
Lemma in_slot_spec ts vs xs i x :
  Forall tree_ok ts → leaves_list leaves ts vs = Some xs → xs !! i = Some x →
  ∃ j t v ys i', ts !! j = Some t ∧ vs !! j = Some v ∧ leaves t v = Some ys ∧ ys !! i' = Some x ∧
    (∀ A (body : nat → TupleTree → nat → outcome CompileError A) oob slot,
       in_slot body oob slot ts i = body (slot + j) t i') ∧
    (∀ v' y, leaves t v' = Some (<[i' := y]> ys) →
       leaves_list leaves ts (<[j := v']> vs) = Some (<[i := y]> xs)).
Proof.
  revert vs xs i. induction ts as [|t ts IH]; intros [|v vs] xs i Hok Hx Hi; try done.
  { simplify_eq/=. }
  apply leaves_list_cons in Hx as (ys & zs & Hy & Hz & ->).
  apply Forall_cons_iff in Hok as [Hok1 Hok2]. pose proof (leaves_length t v ys Hok1 Hy) as Hlen.
  destruct (decide (i < tsize t)) as [Hlt|Hge].
  - exists 0, t, v, ys, i. rewrite lookup_app_l in Hi by lia. split_and!; try done.
    + intros A body oob slot. cbn [in_slot]. apply Nat.ltb_lt in Hlt. rewrite Hlt. by rewrite Nat.add_0_r.
    + intros v' y Hv'. cbn [insert list_insert leaves_list]. fold (leaves_list leaves).
      rewrite Hv', Hz. cbn [mbind option_bind]. by rewrite insert_app_l by lia.
  - rewrite lookup_app_r, Hlen in Hi by lia.
    destruct (IH vs zs (i - tsize t) Hok2 Hz Hi) as (j & t' & v' & ys' & i' & Hj & Hvj & Hl' & Hi' & Hb & Hw).
    exists (S j), t', v', ys', i'. split_and!; try done.
    + intros A body oob slot. cbn [in_slot]. apply Nat.nlt_ge, Nat.ltb_ge in Hge. rewrite Hge.
      fold (in_slot body oob). rewrite Hb. f_equal; lia.
    + intros w y Hw'. change (<[S j:=w]> (v :: vs)) with (v :: <[j:=w]> vs). cbn [leaves_list].
      fold (leaves_list leaves). rewrite Hy, (Hw _ _ Hw'). cbn [mbind option_bind].
      by rewrite insert_app_r_alt, Hlen by lia.
Qed.

(** ** The generated code at work *)

Abbreviation run_code := (steps (lift_sem view_op)).

(** Where the nested value is: on the stack, or, for locals, on the aux stack. *)
Definition holding (is_local : bool) (v : Value.t) (s a : list Value.t) (r : Value.t) : view :=
  if is_local then mkView s (v :: a) r else mkView (v :: s) a r.

Lemma run_op op di c v v' : view_op op v = Some v' → run_code (op_ op di :: c) v = run_code c v'.
Proof.
  intros Hv. change (run_code (op_ op di :: c) v) with (view_op op v ≫= run_code c). by rewrite Hv.
Qed.

Lemma run_op_imm op x di c v v' :
  view_op op (mkView (x :: v_stack v) (v_aux v) (v_reg v)) = Some v' →
  run_code (op_imm op x di :: c) v = run_code c v'.
Proof.
  intros Hv. change (run_code (op_imm op x di :: c) v)
    with (view_op op (mkView (x :: v_stack v) (v_aux v) (v_reg v)) ≫= run_code c). by rewrite Hv.
Qed.

Lemma slot_range {A} (l : list A) j x :
  length l <= TUPLE_SIZE → l !! j = Some x →
  (Z.of_nat j <? two64)%Z = true ∧ (Z.of_nat j <? Z.of_nat (length l))%Z = true ∧ (0 <=? Z.of_nat j)%Z = true.
Proof.
  intros Hl Hj. apply lookup_lt_Some in Hj. unfold TUPLE_SIZE, two64 in *.
  split_and!; [apply Z.ltb_lt|apply Z.ltb_lt|apply Z.leb_le]; lia.
Qed.

Lemma run_get (is_local : bool) vs j x di c s a r :
  length vs <= TUPLE_SIZE → vs !! j = Some x →
  run_code (op_imm (if is_local then AVMOpcode.Xget else AVMOpcode.Tget) (slot_val j) di :: c)
    (holding is_local (Value.Tuple vs) s a r) =
  run_code c (if is_local then mkView (x :: s) (Value.Tuple vs :: a) r else mkView (x :: s) a r).
Proof.
  intros Hl Hj. destruct (slot_range vs j x Hl Hj) as (H1 & H2 & H3).
  apply run_op_imm. unfold slot_val, Uint256.from_usize, holding.
  destruct is_local; cbn [v_stack v_aux v_reg view_op]; unfold lookup_z;
    rewrite H1, H2, H3; cbn; by rewrite Nat2Z.id, Hj.
Qed.

Lemma run_set (is_local : bool) vs j x y di c s a r :
  length vs <= TUPLE_SIZE → vs !! j = Some x →
  run_code (op_imm (if is_local then AVMOpcode.Xset else AVMOpcode.Tset) (slot_val j) di :: c)
    (holding is_local (Value.Tuple vs) (y :: s) a r) =
  run_code c (holding is_local (Value.Tuple (<[j := y]> vs)) s a r).
Proof.
  intros Hl Hj. destruct (slot_range vs j x Hl Hj) as (H1 & H2 & H3).
  apply run_op_imm. unfold slot_val, Uint256.from_usize, holding.
  destruct is_local; cbn [v_stack v_aux v_reg view_op]; unfold insert_z, Value.new_tuple;
    rewrite H1, H2, H3; cbn; by rewrite Nat2Z.id.
Qed.

(** The children of a node of a well-formed shape. *)
Lemma leaves_node sz ts v xs : tree_ok (Tree sz ts) → leaves (Tree sz ts) v = Some xs →
  ∃ vs, v = Value.Tuple vs ∧ length vs <= TUPLE_SIZE ∧ leaves_list leaves ts vs = Some xs ∧ Forall tree_ok ts.
Proof.
  intros Ht Hx. destruct v as [|vs| | |]; try done. exists vs. inversion Ht; subst.
  split_and!; try done. enough (length vs = length ts) by lia. clear -Hx. cbn [leaves] in Hx.
  revert vs xs Hx. induction ts as [|t ts IH]; intros [|v vs] xs Hx; try done.
  apply leaves_list_cons in Hx as (ys & zs & _ & Hz & _). cbn. f_equal. by eapply IH.
Qed.

Lemma read_code_ok t (is_local : bool) i di v xs x s a r :
  tree_ok t → leaves t v = Some xs → xs !! i = Some x →
  ∃ c, read_code t is_local i di = Ok c ∧
    run_code c (holding is_local v s a r) =
    Some (if is_local then mkView (x :: s) (v :: a) r else mkView (x :: s) a r).
Proof.
  intros Ht. revert is_local i v xs s a.
  induction t as [|sz ts IH] using tuple_tree_ind; intros is_local i v xs s a Hx Hi.
  { simplify_eq/=. apply list_lookup_singleton_Some in Hi as [-> ->].
    eexists. split; [done|]. by destruct is_local. }
  apply leaves_node in Hx as (vs & -> & Hl & Hx & Hok); [|done].
  destruct (in_slot_spec ts vs xs i x Hok Hx Hi) as (j & t & v & ys & i' & Hj & Hv & Hy & Hi' & Hb & _).
  eapply Forall_lookup_1 in IH; [|exact Hj]. eapply Forall_lookup_1 in Hok; [|exact Hj].
  destruct (IH Hok false i' v ys s (if is_local then Value.Tuple vs :: a else a) Hy Hi') as (c & Hc & Hrun).
  eexists. split; [cbn [read_code]; rewrite Hb, Hc; reflexivity|].
  rewrite (run_get is_local vs j v) by done. cbn [holding] in Hrun. destruct is_local; exact Hrun.
Qed.

Lemma run_code_app c1 c2 v v' : run_code c1 v = Some v' → run_code (c1 ++ c2) v = run_code c2 v'.
Proof. intros Hv. by rewrite steps_app, Hv. Qed.

Lemma write_code_ok t (is_local : bool) i di v xs x y s a r :
  tree_ok t → (t = Single → is_local = false) → leaves t v = Some xs → xs !! i = Some x →
  ∃ c v', write_code t is_local i di = Ok c ∧ leaves t v' = Some (<[i := y]> xs) ∧
    run_code c (holding is_local v (y :: s) a r) = Some (holding is_local v' s a r).
Proof.
  intros Ht. revert is_local i v xs s a.
  induction t as [|sz ts IH] using tuple_tree_ind; intros is_local i v xs s a Hloc Hx Hi.
  { simplify_eq/=. apply list_lookup_singleton_Some in Hi as [-> ->]. rewrite Hloc by done.
    eexists _, y. done. }
  apply leaves_node in Hx as (vs & -> & Hl & Hx & Hok); [|done].
  destruct (in_slot_spec ts vs xs i x Hok Hx Hi) as (j & t & v & ys & i' & Hj & Hv & Hy & Hi' & Hb & Hw).
  eapply Forall_lookup_1 in IH; [|exact Hj]. eapply Forall_lookup_1 in Hok; [|exact Hj].
  destruct t as [|sz' ts'].
  { simplify_eq/=. apply list_lookup_singleton_Some in Hi' as [-> ->].
    eexists _, (Value.Tuple (<[j := y]> vs)). split; [rewrite Hb; reflexivity|].
    split; [by apply Hw|]. by erewrite run_set. }
  destruct (IH Hok false i' v ys (if is_local then s else Value.Tuple vs :: s)
              (if is_local then Value.Tuple vs :: a else a)) as (c & v' & Hc & Hv' & Hrun); [done..|].
  eexists _, (Value.Tuple (<[j := v']> vs)). split; [cbn [write_code]; rewrite Hb, Hc; reflexivity|].
  split; [by apply Hw|]. cbn [holding] in Hrun. destruct is_local; cbn [Nat.add].
  - rewrite (run_get true vs j v) by done. erewrite run_code_app by exact Hrun.
    exact (run_set true vs j v v' di [] s a r Hl Hv).
  - cbn [holding]. do 2 (erewrite run_op by reflexivity).
    etransitivity; [exact (run_get false vs j v di _ (y :: Value.Tuple vs :: s) a r Hl Hv)|].
    erewrite run_code_app by exact Hrun. erewrite run_op by reflexivity.
    exact (run_set false vs j v v' di [] s a r Hl Hv).
Qed.

Lemma make_value_2_ok t vals rest : tree_ok t → length vals = tsize t →
  ∃ v, make_value_2 t (vals ++ rest) = Some (v, rest) ∧ leaves t v = Some vals.
Proof.
  intros Ht. revert vals rest. induction t as [|sz ts IH] using tuple_tree_ind; intros vals rest Hl.
  { destruct vals as [|x [|]]; try done. by exists x. }
  inversion Ht as [|? _ Hok _]; subst. cbn [tsize] in Hl. clear Ht.
  cbn [make_value_2 leaves].
  assert (∃ vs, for_subtrees make_value_2 ts (vals ++ rest) = Some (vs, rest) ∧ leaves_list leaves ts vs = Some vals) as (vs & -> & Hvs);
    [|by exists (Value.Tuple vs)].
  revert vals Hl. induction ts as [|t ts IHts]; intros vals Hl.
  { destruct vals; [|done]. by exists []. }
  apply Forall_cons_iff in IH as [IH1 IH2]. apply Forall_cons_iff in Hok as [Hok1 Hok2].
  rewrite <- (take_drop (tsize t) vals), <- app_assoc. cbn in Hl.
  destruct (IH1 Hok1 (take (tsize t) vals) (drop (tsize t) vals ++ rest)) as (v & Hv & Hlv).
  { rewrite length_take. lia. }
  destruct (IHts IH2 Hok2 (drop (tsize t) vals)) as (vs & Hvs & Hlvs).
  { rewrite length_drop. lia. }
  exists (v :: vs). cbn [for_subtrees leaves_list].
  fold (leaves_list leaves) (for_subtrees make_value_2).
  rewrite Hv. cbn [mbind option_bind]. rewrite Hvs, Hlv, Hlvs. done.
Qed.

Lemma make_value_ok t vals : tree_ok t → length vals = tsize t →
  ∃ v, make_value t vals = Some v ∧ leaves t v = Some vals.
Proof.
  intros Ht Hl. destruct (make_value_2_ok t vals [] Ht Hl) as (v & Hv & Hx). exists v.
  rewrite app_nil_r in Hv. unfold make_value. rewrite Hv. done.
Qed.

Lemma make_empty_leaves t : tree_ok t → leaves t (make_empty t) = Some (replicate (tsize t) Value.none).
Proof.
  intros Ht. induction t as [|sz ts IH] using tuple_tree_ind; [done|].
  inversion Ht as [|? _ Hok _]; subst. clear Ht. cbn [leaves make_empty tsize Value.new_tuple].
  induction ts as [|t ts IHts]; [done|].
  apply Forall_cons_iff in IH as [IH1 IH2]. apply Forall_cons_iff in Hok as [Hok1 Hok2].
  cbn [List.map leaves_list]. fold (leaves_list leaves). rewrite IH1 by done. cbn [mbind option_bind].
  unfold Value.new_tuple in *. rewrite IHts by done. cbn [mbind option_bind]. by rewrite <- replicate_add.
Qed.

Lemma write_args_ok t di args : tree_ok t → t ≠ Single →
  ∀ lnum v xs s a r, leaves t v = Some xs → lnum + length args <= length xs →
  ∃ c v', write_args t lnum (length args) di = Ok c ∧ leaves t v' = Some (list_inserts lnum args xs) ∧
    run_code c (mkView (args ++ s) (v :: a) r) = Some (mkView s (v' :: a) r).
Proof.
  intros Ht Hns. induction args as [|y args IH]; intros lnum v xs s a r Hx Hl.
  { exists [], v. done. }
  cbn [length] in Hl. destruct (lookup_lt_is_Some_2 xs lnum) as [x Hi]; [lia|].
  destruct (write_code_ok t true lnum di v xs x y (args ++ s) a r) as (c & v1 & Hc & Hv1 & Hrun); try done.
  destruct (IH (S lnum) v1 (<[lnum := y]> xs) s a r Hv1) as (c' & v' & Hc' & Hv' & Hrun').
  { rewrite length_insert. lia. }
  exists (c ++ c'), v'. cbn [length write_args]. rewrite Hc. cbn [mbind outcome_bind]. rewrite Hc'.
  split; [done|]. split.
  - cbn [list_inserts]. rewrite list_insert_inserts_lt by lia. exact Hv'.
  - by erewrite run_code_app by exact Hrun.
Qed.

Lemma tree_new_local n t : tree_new n true = Some t → t ≠ Single.
Proof.
  unfold tree_new. rewrite tree_new_fuel_S, andb_false_r. intros Ht ->.
  apply bind_Some in Ht as (c & _ & Ht). apply bind_Some in Ht as (v & _ & Ht). done.
Qed.

Lemma tree_new_spec n is_local :
  ∃ t, tree_new n is_local = Some t ∧ tree_ok t ∧ tsize t = n.
Proof. apply tree_new_fuel_ok. lia. Qed.

Lemma tree_new_inv n is_local t : tree_new n is_local = Some t → tree_ok t ∧ tsize t = n.
Proof. intros Ht. destruct (tree_new_spec n is_local) as (t' & ? & ?). by simplify_eq. Qed.

Lemma index_of_slot n di e1 e2 : (Z.of_nat n < two64)%Z → index_of (Some (slot_val n)) di e1 e2 = Ok n.
Proof.
  intros Hn. unfold index_of, slot_val, Uint256.from_usize. cbn. unfold Uint256.to_usize.
  apply Z.ltb_lt in Hn. rewrite Hn. by rewrite Nat2Z.id.
Qed.

(** ** Properties *)

(** The shape of every size exists: [TupleTree::new] terminates for every
    size, its loops never run out of slots, and the tree has the requested
    number of leaves, at most eight subtrees in every node, no empty subtree,
    and sizes that add up.  For locals it is never a bare leaf. *)
Theorem tree_new_ok n is_local :
  ∃ t, tree_new n is_local = Some t ∧ tree_ok t ∧ tsize t = n ∧ (is_local = true → t ≠ Single).
Proof.
  destruct (tree_new_spec n is_local) as (t & Ht & Hok & Hs). exists t. split_and!; try done.
  intros ->. by eapply tree_new_local.
Qed.

(** [value_from_field_list] loses nothing: the nested value it builds for
    any list of fields has the shape for that many fields, and its leaves are
    the fields in order.  The unset tuple of every size has the shape too. *)
Theorem field_list_roundtrip fields n :
  (∃ t v, tree_new (length fields) false = Some t ∧ value_from_field_list fields = Some v ∧
          leaves t v = Some fields) ∧
  (∃ t v, tree_new n false = Some t ∧ make_uninitialized_tuple n = Some v ∧
          leaves t v = Some (replicate n Value.none)).
Proof.
  split.
  - destruct (tree_new_spec (length fields) false) as (t & Ht & Hok & Hs).
    destruct (make_value_ok t fields) as (v & Hv & Hl); [done..|].
    exists t, v. unfold value_from_field_list. rewrite Ht. done.
  - destruct (tree_new_spec n false) as (t & Ht & Hok & Hs). exists t, (make_empty t).
    unfold make_uninitialized_tuple. rewrite Ht. split; [done|]. split; [done|].
    rewrite make_empty_leaves, Hs; done.
Qed.

(** C20: wide tuples work as if they were flat.  The code for [TupleGet(n)] with
    index [i] replaces a nested tuple on the stack by its [i]-th element; the
    code for [TupleSet(n)] replaces the tuple and the value below it by the
    tuple with that element changed and all others as before. *)
Theorem tuple_access gt lt n i di t v xs x y s a r :
  tree_new n false = Some t → leaves t v = Some xs → xs !! i = Some x → (Z.of_nat i < two64)%Z →
  (∃ c, fix_insn gt lt (Instruction.from_opcode_imm (Opcode.TupleGet n) (slot_val i) di) = Ok (c, lt) ∧
     run_code c (mkView (v :: s) a r) = Some (mkView (x :: s) a r)) ∧
  (∃ c v', fix_insn gt lt (Instruction.from_opcode_imm (Opcode.TupleSet n) (slot_val i) di) = Ok (c, lt) ∧
     leaves t v' = Some (<[i := y]> xs) ∧
     run_code c (mkView (v :: y :: s) a r) = Some (mkView (v' :: s) a r)).
Proof.
  intros Ht Hx Hi Hb. pose proof (tree_new_inv _ _ _ Ht) as [Hok Hs].
  destruct (read_code_ok t false i di v xs x s a r Hok Hx Hi) as (c & Hc & Hrun).
  destruct (write_code_ok t false i di v xs x y s a r Hok) as (c' & v' & Hc' & Hv' & Hrun'); try done.
  unfold fix_insn. cbn [Instruction.opcode Instruction.immediate Instruction.debug_info
    Instruction.from_opcode_imm Instruction.new]. rewrite Ht. cbn [unwrap mbind outcome_bind].
  rewrite !index_of_slot by done. cbn [mbind outcome_bind]. rewrite Hc, Hc'. eauto 10.
Qed.

(** C12: global and local variables.  With the globals in the register and the
    locals on the aux stack, both in the shapes the pass uses for them, the code
    for [GetGlobalVar]/[GetLocal] pushes the variable and changes nothing else,
    and the code for [SetGlobalVar]/[SetLocal] pops a value and stores it in
    exactly that variable. *)
Theorem variable_access ng nl gt lt i di gv lv gs ls x y s a :
  tree_new ng false = Some gt → tree_new nl true = Some lt →
  leaves gt gv = Some gs → leaves lt lv = Some ls → (Z.of_nat i < two64)%Z →
  (gs !! i = Some x →
   (∃ c, fix_insn gt lt (Instruction.from_opcode (Opcode.GetGlobalVar i) di) = Ok (c, lt) ∧
      run_code c (mkView s a gv) = Some (mkView (x :: s) a gv)) ∧
   (∃ c gv', fix_insn gt lt (Instruction.from_opcode (Opcode.SetGlobalVar i) di) = Ok (c, lt) ∧
      leaves gt gv' = Some (<[i := y]> gs) ∧
      run_code c (mkView (y :: s) a gv) = Some (mkView s a gv'))) ∧
  (ls !! i = Some x →
   (∃ c, fix_insn gt lt (Instruction.from_opcode_imm Opcode.GetLocal (slot_val i) di) = Ok (c, lt) ∧
      run_code c (mkView s (lv :: a) gv) = Some (mkView (x :: s) (lv :: a) gv)) ∧
   (∃ c lv', fix_insn gt lt (Instruction.from_opcode_imm Opcode.SetLocal (slot_val i) di) = Ok (c, lt) ∧
      leaves lt lv' = Some (<[i := y]> ls) ∧
      run_code c (mkView (y :: s) (lv :: a) gv) = Some (mkView s (lv' :: a) gv))).
Proof.
  intros Hgt Hlt Hgs Hls Hb. pose proof (tree_new_inv _ _ _ Hgt) as [Hgok _].
  pose proof (tree_new_inv _ _ _ Hlt) as [Hlok _]. pose proof (tree_new_local _ _ Hlt) as Hns.
  unfold fix_insn. cbn [Instruction.opcode Instruction.immediate Instruction.debug_info
    Instruction.from_opcode_imm Instruction.from_opcode Instruction.new]. rewrite !index_of_slot by done.
  cbn [mbind outcome_bind]. split; intros Hi.
  - destruct (read_code_ok gt false i di gv gs x s a gv Hgok Hgs Hi) as (c & Hc & Hrun).
    destruct (write_code_ok gt false i di gv gs x y s a gv Hgok) as (c' & v' & Hc' & Hv' & Hrun'); try done.
    rewrite Hc, Hc'. split; eexists; [split; [done|]|exists v'; split; [done|]; split; [done|]].
    + by erewrite run_op.
    + erewrite run_op by reflexivity. cbn [holding] in Hrun'. by erewrite run_code_app by exact Hrun'.
  - destruct (read_code_ok lt true i di lv ls x s a gv Hlok Hls Hi) as (c & Hc & Hrun).
    destruct (write_code_ok lt true i di lv ls x y s a gv Hlok) as (c' & v' & Hc' & Hv' & Hrun'); try done.
    rewrite Hc, Hc'. eauto 10.
Qed.

(** Function entry.  The code for [MakeFrame(nargs, ntotal, _)] moves the
    return address to the aux stack, pushes a fresh frame there and pops the
    arguments into its first slots: local [k] is the [k]-th value from the top
    of the stack, every other local is unset, and the rest of the stack is
    untouched. *)
Theorem make_frame_correct gt lt ntotal args ra di s a r :
  length args <= ntotal →
  ∃ c t v, fix_insn gt lt (Instruction.from_opcode (Opcode.MakeFrame (length args) ntotal true) di) = Ok (c, t) ∧
    tree_new ntotal true = Some t ∧
    leaves t v = Some (args ++ replicate (ntotal - length args) Value.none) ∧
    run_code c (mkView (ra :: args ++ s) a r) = Some (mkView s (v :: ra :: a) r).
Proof.
  intros Hl. destruct (tree_new_spec ntotal true) as (t & Ht & Hok & Hs).
  destruct (write_args_ok t di args Hok (tree_new_local _ _ Ht) 0 (make_empty t) (replicate ntotal Value.none) s
              (ra :: a) r) as (c & v & Hc & Hv & Hrun).
  { by rewrite make_empty_leaves, Hs. }
  { rewrite length_replicate. lia. }
  unfold fix_insn. cbn [Instruction.opcode Instruction.immediate Instruction.debug_info
    Instruction.from_opcode Instruction.new]. rewrite Ht. cbn [unwrap mbind outcome_bind]. rewrite Hc.
  eexists _, t, v. split; [reflexivity|]. split; [done|]. split.
  - rewrite Hv. replace ntotal with (length args + (ntotal - length args)) at 1 by lia.
    rewrite replicate_add, list_inserts_0_r; [done|by rewrite length_replicate].
  - cbn [app]. erewrite run_op by reflexivity. by erewrite run_op_imm by reflexivity.
Qed.

(** ** Examples *)
Definition demo_fields : list Value.t := (λ k, Value.Int (Z.of_nat k)) <$> seq 0 10.
Definition demo_tree : TupleTree := Eval vm_compute in default Single (tree_new 10 false).
Definition demo_locals : TupleTree := Eval vm_compute in default Single (tree_new 10 true).
Definition demo_tuple : Value.t := Eval vm_compute in default Value.none (value_from_field_list demo_fields).

(** Element 9 of a ten-element tuple, read and written. *)
Lemma tuple_access_witness :
  tree_new 10 false = Some demo_tree ∧ leaves demo_tree demo_tuple = Some demo_fields ∧
  (∃ c, fix_insn Single Single
          (Instruction.from_opcode_imm (Opcode.TupleGet 10) (slot_val 9) DebugInfo_default) = Ok (c, Single) ∧
     run_code c (mkView [demo_tuple] [] Value.none) = Some (mkView [Value.Int 9] [] Value.none)) ∧
  (∃ c v', fix_insn Single Single
          (Instruction.from_opcode_imm (Opcode.TupleSet 10) (slot_val 9) DebugInfo_default) = Ok (c, Single) ∧
     leaves demo_tree v' = Some (<[9 := Value.Int 77]> demo_fields) ∧
     run_code c (mkView [demo_tuple; Value.Int 77] [] Value.none) = Some (mkView [v'] [] Value.none)).
Proof.
  split; [vm_compute; reflexivity|]. split; [vm_compute; reflexivity|].
  apply (tuple_access Single Single 10 9 DebugInfo_default demo_tree demo_tuple demo_fields (Value.Int 9) (Value.Int 77));
    vm_compute; reflexivity.
Defined.

(** Ten globals in the register, ten locals on the aux stack. *)
Lemma variable_access_witness :
  (∃ c, fix_insn demo_tree demo_locals (Instruction.from_opcode (Opcode.GetGlobalVar 3) DebugInfo_default)
        = Ok (c, demo_locals) ∧
     run_code c (mkView [] [demo_tuple] demo_tuple) = Some (mkView [Value.Int 3] [demo_tuple] demo_tuple)) ∧
  (∃ c, fix_insn demo_tree demo_locals
          (Instruction.from_opcode_imm Opcode.GetLocal (slot_val 3) DebugInfo_default) = Ok (c, demo_locals) ∧
     run_code c (mkView [] [demo_tuple] demo_tuple) = Some (mkView [Value.Int 3] [demo_tuple] demo_tuple)).
Proof.
  destruct (variable_access 10 10 demo_tree demo_locals 3 DebugInfo_default demo_tuple demo_tuple
              demo_fields demo_fields (Value.Int 3) (Value.Int 77) [] [demo_tuple]) as [Hg _];
    [vm_compute; reflexivity..|].
  destruct (variable_access 10 10 demo_tree demo_locals 3 DebugInfo_default demo_tuple demo_tuple
              demo_fields demo_fields (Value.Int 3) (Value.Int 77) [] []) as [_ Hl];
    [vm_compute; reflexivity..|].
  split; [apply Hg|apply Hl]; vm_compute; reflexivity.
Defined.

(** A function of two arguments and nine locals. *)
Lemma make_frame_witness :
  ∃ c t v, fix_insn Single Single (Instruction.from_opcode (Opcode.MakeFrame 2 9 true) DebugInfo_default) = Ok (c, t) ∧
    tree_new 9 true = Some t ∧
    leaves t v = Some ([Value.Int 5; Value.Int 6] ++ replicate 7 Value.none) ∧
    run_code c (mkView [Value.CodePoint (CodePt.Internal 1); Value.Int 5; Value.Int 6; Value.Int 7] [] Value.none)
    = Some (mkView [Value.Int 7] [v; Value.CodePoint (CodePt.Internal 1)] Value.none).
Proof.
  apply (make_frame_correct Single Single 9 [Value.Int 5; Value.Int 6] (Value.CodePoint (CodePt.Internal 1))
           DebugInfo_default [Value.Int 7]). vm_compute. lia.
Defined.
