(* ===== verification/Peephole.v ===== *)
(** * The peephole optimiser (src/src/link/optimize.rs)

    [code_out] is kept with its last instruction first.  Every rule that fires
    shortens it, so its length is fuel enough for the [while] loop.

    [peephole_correct] is proved for any meaning that agrees with the emulator on
    the opcodes of the rules, and for runs that apply [IsZero] to truth values
    only, as the rule for two [IsZero] in a row demands
    ([iszero_pair_normalises]). *)

From Stdlib Require Import ZArith Lia.
From S2P Require Import Prelude U256 Pos Opcodes Crypto BufferTree Values StraightLine TupleTree.

#[local] Set Warnings "-clear-no-such-hyp".

(** [useless_opcodes_layer] *)
Definition useless (i : insn) : bool :=
  match Instruction.opcode i, Instruction.immediate i with
  | Opcode.AVM AVMOpcode.Noop, None => true
  | Opcode.AVM AVMOpcode.Pop, Some _ => true
  | _, _ => false
  end.

Definition useless_opcodes_layer (iter : list insn) : list insn :=
  List.filter (λ i, negb (useless i)) iter.

(** [if let Instruction { opcode: Opcode::AVMOpcode(op), immediate: imm, .. } = i] *)
Definition avm_imm (op : AVMOpcode.t) (i : insn) : option (option Value.t) :=
  if bool_decide (Instruction.opcode i = Opcode.AVM op) then Some (Instruction.immediate i) else None.

(** One turn of the loop on the last instruction [i1], the one before it, and
    the rest; [None] for [done = true]. *)
Definition rewrite_top (i1 i2 : insn) (rest : list insn) : option (list insn) :=
  let loc1 := Instruction.debug_info i1 in
  let loc2 := Instruction.debug_info i2 in
  match Instruction.opcode i1, Instruction.immediate i1 with
  | Opcode.AVM AVMOpcode.Pop, None =>
      match avm_imm AVMOpcode.Dup0 i2 with
      | Some None => Some rest
      | _ => None
      end
  | Opcode.AVM AVMOpcode.AuxPush, None =>
      match avm_imm AVMOpcode.AuxPop i2, avm_imm AVMOpcode.Noop i2 with
      | Some (Some val), _ => Some (op_imm AVMOpcode.Noop val loc2 :: rest)
      | Some None, _ => Some rest
      | None, Some (Some val) => Some (op_imm AVMOpcode.AuxPush val loc1 :: rest)
      | _, _ => None
      end
  | Opcode.AVM AVMOpcode.AuxPop, Some val =>
      match avm_imm AVMOpcode.AuxPush i2 with
      | Some None => Some (op_imm AVMOpcode.Swap1 val loc1 :: rest)
      | _ => None
      end
  | Opcode.AVM AVMOpcode.AuxPop, None =>
      match avm_imm AVMOpcode.AuxPush i2, avm_imm AVMOpcode.Noop i2 with
      | Some (Some val), _ => Some (op_imm AVMOpcode.Noop val loc2 :: rest)
      | Some None, _ => Some rest
      | None, Some (Some val) => Some (op_imm AVMOpcode.AuxPop val loc1 :: rest)
      | _, _ => None
      end
  | Opcode.AVM AVMOpcode.IsZero, None =>
      match avm_imm AVMOpcode.IsZero i2 with
      | Some (Some val) => Some (op_imm AVMOpcode.Noop val loc2 :: rest)
      | Some None => Some rest
      | None => None
      end
  | Opcode.AVM avm_opcode, None =>
      match avm_imm AVMOpcode.Noop i2 with
      | Some (Some val) => Some (op_imm avm_opcode val loc1 :: rest)
      | _ => None
      end
  | _, _ => None
  end.

(** [while (!done) && (code_out.len() > 1)] *)
Fixpoint rewrite_loop (fuel : nat) (code_out : list insn) : list insn :=
  match fuel, code_out with
  | S fuel, i1 :: i2 :: rest =>
      match rewrite_top i1 i2 rest with
      | Some code_out => rewrite_loop fuel code_out
      | None => code_out
      end
  | _, _ => code_out
  end.

Definition peephole_push (code_out : list insn) (i : insn) : list insn :=
  let code_out := i :: code_out in
  rewrite_loop (length code_out) code_out.

Definition peephole (code_in : list insn) : list insn :=
  rev (foldl peephole_push [] (useless_opcodes_layer code_in)).

(** ** What the rules rely on *)

(** A meaning with [IsZero] confined to the truth values 0 and 1. *)
Definition iszero_on_truth (sem : AVMOpcode.t → view → option view) (op : AVMOpcode.t) (v : view) : option view :=
  match op with
  | AVMOpcode.IsZero =>
      match v_stack v with
      | Value.Int x :: _ => if (x =? 0)%Z || (x =? 1)%Z then sem op v else None
      | _ => None
      end
  | _ => sem op v
  end.
Definition bool_view_op : AVMOpcode.t → view → option view := iszero_on_truth view_op.

(** The six stack opcodes of the rules are the emulator's, and [IsZero] is the
    emulator's on truth values and has no meaning elsewhere. *)
Class PeepholeSem (sem : AVMOpcode.t → view → option view) : Prop := {
  sem_stack op v :
    op ∈ [AVMOpcode.Noop; AVMOpcode.Pop; AVMOpcode.Dup0; AVMOpcode.Swap1; AVMOpcode.AuxPush; AVMOpcode.AuxPop] →
    sem op v = view_op op v;
  sem_iszero v v1 : sem AVMOpcode.IsZero v = Some v1 → bool_view_op AVMOpcode.IsZero v = Some v1;
}.

(** A meaning that agrees with the emulator on the seven opcodes of the rules;
    the other opcodes may do anything. *)
Class MachineSem (sem : AVMOpcode.t → view → option view) : Prop := {
  sem_machine op v :
    op ∈ [AVMOpcode.Noop; AVMOpcode.Pop; AVMOpcode.Dup0; AVMOpcode.Swap1; AVMOpcode.AuxPush; AVMOpcode.AuxPop; AVMOpcode.IsZero] →
    sem op v = view_op op v;
}.

#[global] Instance view_op_machine : MachineSem view_op.
Proof. by split. Qed.

#[global] Instance iszero_on_truth_ok sem : MachineSem sem → PeepholeSem (iszero_on_truth sem).
Proof.
  intros Hsem. split.
  - intros op v Hop. rewrite <- sem_machine by (rewrite !elem_of_cons in *; naive_solver).
    repeat (apply elem_of_cons in Hop as [->|Hop]; [done|]). by apply elem_of_nil in Hop.
  - intros [s a r] v1. cbn. destruct s as [|[x| | | |] s]; try done. case_match; [|done].
    by rewrite sem_machine by (rewrite !elem_of_cons; naive_solver).
Qed.
#[global] Instance bool_view_op_ok : PeepholeSem bool_view_op.
Proof. apply (iszero_on_truth_ok view_op), _. Qed.

(** On truth values [IsZero] undoes itself. *)
Lemma iszero_twice v v1 v2 : bool_view_op AVMOpcode.IsZero v = Some v1 → bool_view_op AVMOpcode.IsZero v1 = Some v2 → v2 = v.
Proof.
  intros H1 H2. destruct v as [s a r]. cbn in H1. destruct s as [|[x| | | |] s]; try done.
  destruct ((x =? 0)%Z || (x =? 1)%Z) eqn:E; [|done]. apply orb_true_iff in E.
  destruct E as [->%Z.eqb_eq| ->%Z.eqb_eq]; simplify_eq/=; done.
Qed.

Lemma iszero_on_truth_sub sem op v v' : iszero_on_truth sem op v = Some v' → sem op v = Some v'.
Proof. unfold iszero_on_truth. destruct op; try done. by repeat case_match. Qed.

Lemma steps_on_truth sem code v v' : steps (lift_sem (iszero_on_truth sem)) code v = Some v' → steps (lift_sem sem) code v = Some v'.
Proof.
  revert v. induction code as [|i code IH]; intros v; [done|]. cbn [steps]. intros (v1 & H1 & Hr)%bind_Some.
  assert (step (lift_sem sem) i v = Some v1) as ->; [|by apply IH].
  revert H1. unfold step, lift_sem. destruct (Instruction.opcode i); try done. apply iszero_on_truth_sub.
Qed.

(** ** Every rule preserves the meaning *)
Lemma avm_imm_Some op i imm : avm_imm op i = Some imm →
  i = Instruction.mk (Opcode.AVM op) imm (Instruction.debug_info i).
Proof. unfold avm_imm. case_bool_decide as E; [|done]. intros [= <-]. destruct i. by simplify_eq/=. Qed.

Lemma avm_imm_other op op' i imm : avm_imm op i = Some imm → op ≠ op' → avm_imm op' i = None.
Proof.
  unfold avm_imm. case_bool_decide as E; [|done]. intros _ Hne. rewrite bool_decide_eq_false_2; [done|].
  rewrite E. congruence.
Qed.

(** A rule looks at two instructions and leaves the rest alone; what it puts
    in their place is at most one instruction. *)
Lemma rewrite_top_rest i1 i2 rest : rewrite_top i1 i2 rest = (λ l, l ++ rest) <$> rewrite_top i1 i2 [].
Proof.
  unfold rewrite_top. destruct (Instruction.opcode i1) as [ | | | | | | | | | | | | | | | | op1]; try done.
  destruct op1, (Instruction.immediate i1); try reflexivity;
  repeat match goal with |- context [avm_imm ?op i2] => destruct (avm_imm op i2) as [[|]|] end; reflexivity.
Qed.

Lemma rewrite_top_short i1 i2 l : rewrite_top i1 i2 [] = Some l → length l <= 1.
Proof.
  unfold rewrite_top. destruct (Instruction.opcode i1) as [ | | | | | | | | | | | | | | | | op1]; try done.
  destruct op1, (Instruction.immediate i1); try discriminate;
  repeat match goal with |- context [avm_imm ?op i2] => destruct (avm_imm op i2) as [[|]|] end;
  intros Hl; simplify_eq; cbn; lia.
Qed.

Section rules.
Context (sem : AVMOpcode.t → view → option view) `{!PeepholeSem sem}.

Abbreviation run := (steps (lift_sem sem)).

Lemma step_insn op imm d s a r :
  step (lift_sem sem) (Instruction.mk (Opcode.AVM op) imm d) (mkView s a r) =
  sem op (mkView (option_list imm ++ s) a r).
Proof. by destruct imm. Qed.

Lemma run_single op x d s a r : run [op_imm op x d] (mkView s a r) = sem op (mkView (x :: s) a r).
Proof.
  change (run [op_imm op x d] (mkView s a r)) with (sem op (mkView (x :: s) a r) ≫= Some).
  by destruct (sem _ _).
Qed.

Lemma sem_noop v : sem AVMOpcode.Noop v = Some v.
Proof. rewrite sem_stack by (repeat constructor). by destruct v. Qed.

(** The meaning of two instructions. *)
Lemma run_pair i1 i2 v v' :
  run [i2; i1] v = Some v' → ∃ v1, step (lift_sem sem) i2 v = Some v1 ∧ step (lift_sem sem) i1 v1 = Some v'.
Proof.
  intros Hr. cbn [steps] in Hr. apply bind_Some in Hr as (v1 & H1 & Hr).
  apply bind_Some in Hr as (v2 & H2 & [= ->]). eauto.
Qed.

(** Takes the two instructions and the rewritten one apart. *)
Ltac rule_opened :=
  repeat match goal with
  | H : avm_imm _ ?i = Some _ |- _ =>
      apply avm_imm_Some in H; rewrite H in *; cbn [Instruction.debug_info] in *; clear H
  end;
  repeat match goal with v : view |- _ => destruct v as [?s ?a ?r] end;
  rewrite ?step_insn in *; cbn [option_list app] in *; rewrite ?run_single.

Ltac rule_stack :=
  rewrite ?sem_stack in * by (repeat constructor);
  unfold view_op in *; repeat (progress simplify_eq/= || case_match); try done.

(** A single rule, on the code it looks at. *)
Lemma rewrite_pair i1 i2 l v v' :
  rewrite_top i1 i2 [] = Some l → run [i2; i1] v = Some v' → run l v = Some v'.
Proof.
  intros Hl Hr. apply run_pair in Hr as (v1 & H2 & H1).
  destruct i1 as [o1 imm1 d1]. unfold rewrite_top in Hl.
  cbn [Instruction.opcode Instruction.immediate Instruction.debug_info] in Hl.
  destruct o1 as [ | | | | | | | | | | | | | | | | op1]; try discriminate.
  destruct (decide (op1 = AVMOpcode.IsZero)) as [->|Hz].
  { destruct imm1 as [|]; [done|].
    destruct (avm_imm AVMOpcode.IsZero i2) as [[x|]|] eqn:E; simplify_eq; rule_opened.
    - rewrite sem_noop. symmetry. f_equal. by eapply iszero_twice; apply sem_iszero.
    - cbn [steps]. symmetry. f_equal. by eapply iszero_twice; apply sem_iszero. }
  destruct (avm_imm AVMOpcode.Noop i2) as [[y|]|] eqn:En.
  { assert (l = [op_imm op1 y d1] ∧ imm1 = None) as [-> ->].
    { rewrite !(avm_imm_other _ _ _ _ En) in Hl by done. destruct imm1, op1; by simplify_eq. }
    rule_opened. rewrite sem_noop in H2. by simplify_eq. }
  { rewrite !(avm_imm_other _ _ _ _ En) in Hl by done. by destruct imm1, op1. }
  destruct op1; try (destruct imm1; discriminate); try done; destruct imm1; try discriminate;
  repeat (match goal with
           | H : context [match avm_imm ?op ?i with _ => _ end] |- _ => destruct (avm_imm op i) as [[|]|] eqn:?
           end; try discriminate); simplify_eq; rule_opened; rule_stack.
Qed.

Lemma rewrite_loop_ok fuel out v v' :
  run (rev out) v = Some v' → run (rev (rewrite_loop fuel out)) v = Some v'.
Proof.
  revert out. induction fuel as [|fuel IH]; intros [|i1 [|i2 rest]] Hr; try done.
  cbn [rewrite_loop]. rewrite rewrite_top_rest.
  destruct (rewrite_top i1 i2 []) as [l|] eqn:E; [|done]. apply IH.
  cbn [rev] in Hr. rewrite <- app_assoc, steps_app in Hr. apply bind_Some in Hr as (v1 & Hr1 & Hr).
  unfold insn in *. rewrite rev_app_distr, steps_app, Hr1. cbn [mbind option_bind].
  pose proof (rewrite_top_short _ _ _ E). apply (rewrite_pair _ _ _ _ _ E) in Hr.
  by destruct l as [|? [|]]; [| |cbn in *; lia].
Qed.

Lemma useless_ok i v v1 : useless i = true → step (lift_sem sem) i v = Some v1 → v1 = v.
Proof.
  destruct i as [[ | | | | | | | | | | | | | | | | op] imm d], v as [s a r]; try discriminate.
  destruct op, imm; try discriminate; intros _; rewrite step_insn, sem_stack by (repeat constructor);
    cbn; by intros [= <-].
Qed.

Lemma peephole_ok code out v v' :
  run (rev out ++ code) v = Some v' →
  run (rev (foldl peephole_push out (useless_opcodes_layer code))) v = Some v'.
Proof.
  revert out. induction code as [|i code IH]; intros out Hr.
  { by rewrite app_nil_r in Hr. }
  rewrite steps_app in Hr. apply bind_Some in Hr as (v0 & Hr0 & Hr).
  cbn [steps] in Hr. apply bind_Some in Hr as (v1 & Hr1 & Hr).
  cbn [useless_opcodes_layer List.filter]. fold (useless_opcodes_layer code).
  destruct (useless i) eqn:E; cbn [negb foldl]; apply IH; rewrite steps_app.
  - rewrite Hr0. cbn [mbind option_bind]. apply useless_ok in Hr1; [by subst|done].
  - unfold peephole_push. rewrite (rewrite_loop_ok _ _ v v1); [done|].
    cbn [rev]. rewrite steps_app, Hr0. cbn [mbind option_bind steps]. by rewrite Hr1.
Qed.

End rules.

(** ** Barriers: instructions no rule applies to, such as labels *)
Definition virtual (i : insn) : bool :=
  match Instruction.opcode i with
  | Opcode.AVM _ => false
  | _ => true
  end.

Definition inert (b : insn) : Prop :=
  useless b = false ∧ (∀ i rest, rewrite_top i b rest = None) ∧ (∀ i rest, rewrite_top b i rest = None).

(** No rule mentions the instruction as the earlier of the two. *)
Lemma not_earlier b :
  (∀ op, op ∈ [AVMOpcode.Dup0; AVMOpcode.AuxPop; AVMOpcode.Noop; AVMOpcode.AuxPush; AVMOpcode.IsZero] →
     Instruction.opcode b ≠ Opcode.AVM op) → ∀ i rest, rewrite_top i b rest = None.
Proof.
  intros Hb i rest. assert (∀ op, op ∈ [AVMOpcode.Dup0; AVMOpcode.AuxPop; AVMOpcode.Noop; AVMOpcode.AuxPush;
    AVMOpcode.IsZero] → avm_imm op b = None) as Hn.
  { intros op Hop. unfold avm_imm. rewrite bool_decide_eq_false_2; [done|]. by apply Hb. }
  unfold rewrite_top. destruct (Instruction.opcode i) as [ | | | | | | | | | | | | | | | | op]; try done.
  destruct op, (Instruction.immediate i); rewrite ?Hn by (repeat constructor); done.
Qed.

Lemma virtual_inert b : virtual b = true → inert b.
Proof.
  unfold virtual. intros Hb. split_and!.
  - unfold useless. by destruct (Instruction.opcode b).
  - apply not_earlier. intros op _ E. by rewrite E in Hb.
  - intros i rest. unfold rewrite_top. by destruct (Instruction.opcode b).
Qed.

Lemma rset_inert v di : inert (op_imm AVMOpcode.Rset v di).
Proof.
  split_and!; try done. apply not_earlier. intros op Hop. cbn. intros [= <-].
  repeat (apply elem_of_cons in Hop as [?|Hop]; [done|]). by apply elem_of_nil in Hop.
Qed.

Lemma rewrite_loop_inert fuel b out : inert b → rewrite_loop fuel (b :: out) = b :: out.
Proof.
  intros (_ & _ & Hb). destruct fuel, out as [|i out]; try done. cbn [rewrite_loop]. by rewrite Hb.
Qed.

(** Nothing before a barrier is touched by what comes after it. *)
Lemma rewrite_loop_barrier fuel1 fuel2 l b out : inert b →
  length l <= fuel1 → length l <= fuel2 → l ≠ [] →
  rewrite_loop fuel2 (l ++ b :: out) = rewrite_loop fuel1 l ++ b :: out.
Proof.
  intros Hb. revert fuel2 l. induction fuel1 as [|fuel1 IH]; intros [|fuel2] [|i1 l] H1 H2 Hl; cbn in H1, H2; try (done || lia).
  destruct l as [|i2 rest].
  { cbn [app rewrite_loop]. destruct Hb as (_ & Hb & _). by rewrite Hb. }
  cbn [app rewrite_loop]. rewrite rewrite_top_rest, (rewrite_top_rest _ _ rest).
  destruct (rewrite_top i1 i2 []) as [l'|] eqn:E; cbn [fmap option_fmap option_map]; [|done].
  rewrite app_assoc. pose proof (rewrite_top_short _ _ _ E) as Hs. cbn [length] in *.
  destruct (l' ++ rest) as [|i l''] eqn:El.
  - cbn [app]. rewrite rewrite_loop_inert by done. by destruct fuel1.
  - assert (length (i :: l'') <= S (length rest)) by (rewrite <- El, length_app; lia).
    by apply IH; [lia..|].
Qed.

Lemma peephole_push_inert out b : inert b → peephole_push out b = b :: out.
Proof. intros Hb. unfold peephole_push. by rewrite rewrite_loop_inert. Qed.

Lemma peephole_fold_barrier l b out c : inert b →
  foldl peephole_push (l ++ b :: out) c = foldl peephole_push l c ++ b :: out.
Proof.
  intros Hb. revert l. induction c as [|i c IH]; intros l; [done|]. cbn [foldl].
  replace (peephole_push (l ++ b :: out) i) with (peephole_push l i ++ b :: out); [apply IH|].
  unfold peephole_push. change (i :: l ++ b :: out) with ((i :: l) ++ b :: out). symmetry.
  apply rewrite_loop_barrier; [done|lia| |done]. rewrite length_app. lia.
Qed.

(** Code after a barrier is optimised on its own. *)
Lemma peephole_inert c1 b c2 : inert b → peephole (c1 ++ b :: c2) = peephole c1 ++ b :: peephole c2.
Proof.
  intros Hb. unfold peephole, useless_opcodes_layer. rewrite List.filter_app. cbn [List.filter].
  destruct (Hb) as (Hu & _). rewrite Hu. cbn [negb]. rewrite foldl_app. cbn [foldl].
  set (out := foldl peephole_push [] _). rewrite peephole_push_inert by done.
  change (b :: out) with ([] ++ b :: out). rewrite peephole_fold_barrier, rev_app_distr by done.
  cbn [rev]. by rewrite <- app_assoc.
Qed.

(** ** Properties *)

(** C11: the optimiser preserves the meaning of straight-line code.  Let the
    opcodes of the rules mean what they mean in the emulator ([MachineSem]), and
    all others anything.  If the code runs to completion and applies [IsZero] to
    the truth values 0 and 1 only ([iszero_on_truth]), the optimised code runs to
    completion with the same stacks and register.  Without the condition on
    [IsZero] this is false ([iszero_pair_normalises]). *)
Theorem peephole_correct sem `{!MachineSem sem} code v v' :
  steps (lift_sem (iszero_on_truth sem)) code v = Some v' →
  steps (lift_sem sem) code v = Some v' ∧ steps (lift_sem sem) (peephole code) v = Some v'.
Proof. intros Hr. split; [by apply steps_on_truth|]. by apply steps_on_truth, (peephole_ok _ code [] v v'). Qed.

(** The optimiser works block by block.  No rule reaches across an
    instruction that is not an AVM instruction; in particular every label, and
    so every jump target, stays between the optimised code that precedes it and
    the optimised code that follows it. *)
Theorem peephole_blocks c1 b c2 :
  virtual b = true → peephole (c1 ++ b :: c2) = peephole c1 ++ b :: peephole c2.
Proof. intros Hb. by apply peephole_inert, virtual_inert. Qed.

(** The rule for [IsZero IsZero] is not an identity of the machine.  Two
    [IsZero] in a row turn 2 into 1, the optimised code leaves the 2. *)
Theorem iszero_pair_normalises di :
  let code := [op_ AVMOpcode.IsZero di; op_ AVMOpcode.IsZero di] in
  steps (lift_sem view_op) code (mkView [Value.Int 2] [] Value.none)
  = Some (mkView [Value.Int 1] [] Value.none) ∧
  steps (lift_sem view_op) (peephole code) (mkView [Value.Int 2] [] Value.none)
  = Some (mkView [Value.Int 2] [] Value.none).
Proof. done. Qed.

Definition demo_code : list insn :=
  [op_imm AVMOpcode.Noop (Value.Int 1) DebugInfo_default; op_ AVMOpcode.AuxPush DebugInfo_default;
   op_imm AVMOpcode.AuxPop (Value.Int 3) DebugInfo_default; op_ AVMOpcode.IsZero DebugInfo_default;
   op_ AVMOpcode.IsZero DebugInfo_default].

Lemma peephole_correct_witness :
  length (peephole demo_code) = 2 ∧
  steps (lift_sem view_op) (peephole demo_code) (mkView [] [] Value.none)
  = Some (mkView [Value.Int 1; Value.Int 3] [] Value.none).
Proof.
  split; [vm_compute; reflexivity|].
  apply (peephole_correct view_op demo_code). vm_compute. reflexivity.
Defined.

Lemma peephole_blocks_witness :
  peephole ([op_ AVMOpcode.Dup0 DebugInfo_default] ++
            Instruction.from_opcode (Opcode.Label (Label.Anon 1)) DebugInfo_default ::
            [op_ AVMOpcode.Pop DebugInfo_default])
  = [op_ AVMOpcode.Dup0 DebugInfo_default;
     Instruction.from_opcode (Opcode.Label (Label.Anon 1)) DebugInfo_default;
     op_ AVMOpcode.Pop DebugInfo_default].
Proof.
  exact (peephole_blocks [op_ AVMOpcode.Dup0 DebugInfo_default]
           (Instruction.from_opcode (Opcode.Label (Label.Anon 1)) DebugInfo_default)
           [op_ AVMOpcode.Pop DebugInfo_default] eq_refl).
Defined.
