(* ===== verification/StripLabels.v ===== *)
(** * Labels (src/src/link/striplabels.rs)

    [fix_nonforward_labels] sends every reference to a label already passed
    through the jump table, [strip_labels] turns labels into code points.
    Hash maps are finite maps, their iteration order is never used. *)

From Stdlib Require Import ZArith Lia.
From S2P Require Import Prelude U256 Pos Opcodes Crypto BufferTree Values TupleTree.

#[local] Set Warnings "-clear-no-such-hyp".

(** [ImportedFunc] (src/src/link/mod.rs) *)
Record ImportedFunc := mkImportedFunc {
  name_id : nat;
  slot_num : nat;
  if_name : string;
}.

(** ** strip_labels *)

Definition import_labels (imported_funcs : list ImportedFunc) : gmap Label.t CodePt.t :=
  foldl (λ label_map imp_func,
    let new_codept := CodePt.new_external (slot_num imp_func) in
    <[Label.Func (name_id imp_func) := new_codept]>
      (<[Label.External (slot_num imp_func) := new_codept]> label_map)) ∅ imported_funcs.

(** The first loop: the position of every label. *)
Fixpoint collect_labels (code_in : list insn) (after_count : nat) (label_map : gmap Label.t CodePt.t)
    : outcome CompileError (gmap Label.t CodePt.t) :=
  match code_in with
  | [] => Ok label_map
  | i :: code_in =>
      match Instruction.get_label i with
      | Some label =>
          let old_value := label_map !! label in
          let label_map := <[label := CodePt.new_internal after_count]> label_map in
          match old_value with
          | Some (CodePt.Internal _) =>
              error_at "Compile error: Internal error" "Duplicate instance of internal label"
                (Instruction.debug_info i)
          | _ => collect_labels code_in after_count label_map
          end
      | None => collect_labels code_in (S after_count) label_map
      end
  end.

(** The second loop: labels go, immediates are translated. *)
Fixpoint replace_all (code_in : list insn) (label_map : gmap Label.t CodePt.t)
    : outcome CompileError (list insn) :=
  match code_in with
  | [] => Ok []
  | i :: code_in =>
      match Instruction.get_label i with
      | Some _ => replace_all code_in label_map
      | None =>
          match Instruction.replace_labels i label_map with
          | Ok i' => code_out ← replace_all code_in label_map; Ok (i' :: code_out)
          | Err _ =>
              error_at "Compile error" "Couldn't find a definition for label" (Instruction.debug_info i)
          | Panic => Panic
          end
      end
  end.

(** The third loop. *)
Fixpoint lookup_all (jump_table : list Label.t) (label_map : gmap Label.t CodePt.t)
    : outcome CompileError (list CodePt.t) :=
  match jump_table with
  | [] => Ok []
  | jt_item :: jump_table =>
      match label_map !! jt_item with
      | Some index => rest ← lookup_all jump_table label_map; Ok (index :: rest)
      | None =>
          Err (CompileError_new "Compile error: strip_labels" "lookup failed for jump table item" [])
      end
  end.

Definition strip_labels (code_in : list insn) (jump_table : list Label.t)
    (imported_funcs : list ImportedFunc) : outcome CompileError (list insn * list CodePt.t) :=
  label_map ← collect_labels code_in 0 (import_labels imported_funcs);
  code_out ← replace_all code_in label_map;
  jump_table_out ← lookup_all jump_table label_map;
  Ok (code_out, jump_table_out).

(** ** fix_nonforward_labels *)

(** The variables of the first loop that change. *)
Record fix_state := mkFix {
  jump_table : list Label.t;
  jump_table_index : gmap Label.t nat;
  imm_labels_seen : gset Label.t;
}.

(** The index of a label in the jump table, added if it is new. *)
Definition table_index (st : fix_state) (label : Label.t) : nat * fix_state :=
  match jump_table_index st !! label with
  | Some index => (index, st)
  | None =>
      let index := length (jump_table st) in
      (index, mkFix (jump_table st ++ [label]) (<[label := index]> (jump_table_index st))
                    (imm_labels_seen st))
  end.

Definition see_label (st : fix_state) (op : Opcode.t) : fix_state :=
  match op with
  | Opcode.Label label =>
      mkFix (jump_table st) (jump_table_index st) ({[label]} ∪ imm_labels_seen st)
  | _ => st
  end.

Definition fix_label (imported_func_set : gset Label.t) (jump_table_index_in_globals : nat)
    (st : fix_state) (i : insn) : list insn * fix_state :=
  let di := Instruction.debug_info i in
  let '(code, st) :=
    match Instruction.immediate i with
    | Some (Value.Label label) =>
        if bool_decide (label ∈ imm_labels_seen st) || bool_decide (label ∈ imported_func_set) then
          let '(idx, st) := table_index st label in
          ([Instruction.from_opcode (Opcode.GetGlobalVar jump_table_index_in_globals) di;
            Instruction.from_opcode (Opcode.PushExternal idx) di;
            Instruction.from_opcode (Instruction.opcode i) di], st)
        else ([Instruction.from_opcode_imm (Instruction.opcode i) (Value.Label label) di], st)
    | Some val => ([Instruction.from_opcode_imm (Instruction.opcode i) val di], st)
    | None => ([Instruction.from_opcode (Instruction.opcode i) di], st)
    end in
  (code, see_label st (Instruction.opcode i)).

Fixpoint fix_labels (imported_func_set : gset Label.t) (jump_table_index_in_globals : nat)
    (st : fix_state) (code_in : list insn) : list insn * fix_state :=
  match code_in with
  | [] => ([], st)
  | i :: code_in =>
      let '(c, st) := fix_label imported_func_set jump_table_index_in_globals st i in
      let '(rest, st) := fix_labels imported_func_set jump_table_index_in_globals st code_in in
      (c ++ rest, st)
  end.

(** The second loop. *)
Definition xform_external (table_len : nat) (i : insn) : list insn :=
  let di := Instruction.debug_info i in
  match Instruction.opcode i with
  | Opcode.PushExternal idx =>
      match Instruction.immediate i with
      | Some val => [op_imm AVMOpcode.Noop val di]
      | None => []
      end ++ [Instruction.from_opcode_imm (Opcode.TupleGet table_len) (slot_val idx) di]
  | _ => [i]
  end.

Definition imported_labels (imported_funcs : list ImportedFunc) : gset Label.t :=
  list_to_set ((λ f, Label.External (slot_num f)) <$> imported_funcs).

Definition fix_nonforward_labels (code_in : list insn) (imported_funcs : list ImportedFunc)
    (jump_table_index_in_globals : nat) : list insn * list Label.t :=
  let '(code_out, st) :=
    fix_labels (imported_labels imported_funcs) jump_table_index_in_globals (mkFix [] ∅ ∅) code_in in
  (concat (xform_external (length (jump_table st)) <$> code_out), jump_table st).

(** ** What the passes compute *)

(** The labels a program defines, in order, and its other instructions. *)
Definition defined_labels (code : list insn) : list Label.t := omap Instruction.get_label code.
Definition unlabelled (code : list insn) : list insn :=
  List.filter (λ i, bool_decide (Instruction.get_label i = None)) code.

(** A map has no code point of this program for the labels given. *)
Definition no_internal (m : gmap Label.t CodePt.t) (ls : list Label.t) : Prop :=
  ∀ l k, l ∈ ls → m !! l ≠ Some (CodePt.Internal k).

Lemma unlabelled_cons i code :
  unlabelled (i :: code) = match Instruction.get_label i with Some _ => [] | None => [i] end ++ unlabelled code.
Proof. unfold unlabelled. cbn [List.filter]. by destruct (Instruction.get_label i). Qed.

Lemma defined_labels_cons i code :
  defined_labels (i :: code) = option_list (Instruction.get_label i) ++ defined_labels code.
Proof. unfold defined_labels. cbn. by destruct (Instruction.get_label i). Qed.

Lemma import_labels_external imps l k : import_labels imps !! l ≠ Some (CodePt.Internal k).
Proof.
  unfold import_labels.
  assert (∀ m : gmap Label.t CodePt.t, m !! l ≠ Some (CodePt.Internal k) →
    foldl (λ label_map imp_func,
      <[Label.Func (name_id imp_func) := CodePt.new_external (slot_num imp_func)]>
        (<[Label.External (slot_num imp_func) := CodePt.new_external (slot_num imp_func)]> label_map)) m imps
      !! l ≠ Some (CodePt.Internal k)) as Hi; [|by apply Hi].
  induction imps as [|f imps IH]; intros m Hm; [done|]. cbn [foldl]. apply IH.
  unfold CodePt.new_external. rewrite !lookup_insert. by repeat case_decide.
Qed.

(** Collecting succeeds exactly on distinct labels, and gives each label the
    number of instructions before it. *)
Lemma collect_labels_ok code k m0 m : collect_labels code k m0 = Ok m →
  NoDup (defined_labels code) ∧ no_internal m0 (defined_labels code) ∧
  (∀ pre i post l, code = pre ++ i :: post → Instruction.get_label i = Some l →
     m !! l = Some (CodePt.Internal (k + length (unlabelled pre)))) ∧
  (∀ l, l ∉ defined_labels code → m !! l = m0 !! l).
Proof.
  revert k m0. induction code as [|i code IH]; intros k m0 Hc.
  { simplify_eq/=. split_and!; try done; [constructor|by intros ? ? ?%elem_of_nil|].
    intros [|] ? ? ? ?; discriminate. }
  rewrite defined_labels_cons. cbn [collect_labels] in Hc.
  destruct (Instruction.get_label i) as [l|] eqn:El; cbn [option_list app].
  - assert (∀ x, m0 !! l ≠ Some (CodePt.Internal x)) as Hl.
    { intros x E. rewrite E in Hc. discriminate. }
    assert (collect_labels code k (<[l := CodePt.new_internal k]> m0) = Ok m) as Hc'.
    { destruct (m0 !! l) as [[]|]; done. }
    clear Hc. destruct (IH _ _ Hc') as (Hnd & Hni & Hpos & Hold).
    assert (l ∉ defined_labels code) as Hnin.
    { intros Hin. apply (Hni l k Hin). apply lookup_insert_eq. }
    split_and!; [by constructor| | |].
    + intros l' x [->|Hin]%elem_of_cons; [apply Hl|]. intros E.
      apply (Hni l' x Hin). rewrite lookup_insert_ne; [done|]. by intros ->.
    + intros [|j pre] i' post l' Heq Hl'; cbn [app] in Heq; simplify_eq.
      * rewrite Hold, lookup_insert_eq by done. by rewrite Nat.add_0_r.
      * rewrite unlabelled_cons, El. cbn [app]. by eapply Hpos.
    + intros l' Hn. apply not_elem_of_cons in Hn as [Hne Hn]. by rewrite Hold, lookup_insert_ne.
  - destruct (IH _ _ Hc) as (Hnd & Hni & Hpos & Hold). split_and!; try done.
    intros [|j pre] i' post l' Heq Hl'; cbn [app] in Heq; simplify_eq.
    rewrite unlabelled_cons, El. cbn [app length]. rewrite (Hpos pre i' post) by done. f_equal. f_equal. lia.
Qed.

Lemma collect_labels_no_panic code k m : collect_labels code k m ≠ Panic.
Proof.
  revert k m. induction code as [|i code IH]; intros k m; [done|]. cbn [collect_labels].
  destruct (Instruction.get_label i) as [l|]; [|apply IH]. destruct (m !! l) as [[]|]; try apply IH. done.
Qed.

Lemma collect_labels_total code k m0 :
  NoDup (defined_labels code) → no_internal m0 (defined_labels code) →
  ∃ m, collect_labels code k m0 = Ok m.
Proof.
  revert k m0. induction code as [|i code IH]; intros k m0 Hnd Hni; [by eexists|].
  rewrite defined_labels_cons in *. cbn [collect_labels].
  destruct (Instruction.get_label i) as [l|] eqn:El; [|by apply IH].
  change (option_list (Some l) ++ defined_labels code) with (l :: defined_labels code) in *.
  inversion_clear Hnd as [|? ? Hl Hnd'].
  assert (∃ m, collect_labels code k (<[l := CodePt.new_internal k]> m0) = Ok m) as Hm.
  { apply IH; [done|]. intros l' x Hin. rewrite lookup_insert_ne; [by apply Hni; right|]. by intros ->. }
  destruct (m0 !! l) as [[x| | |]|] eqn:E; try done. exfalso. apply (Hni l x); [left|]; done.
Qed.

Lemma replace_all_ok code m code' : replace_all code m = Ok code' →
  Forall2 (λ i i', Instruction.replace_labels i m = Ok i') (unlabelled code) code'.
Proof.
  revert code'. induction code as [|i code IH]; intros code' Hr; [simplify_eq/=; constructor|].
  cbn [replace_all] in Hr. rewrite unlabelled_cons.
  destruct (Instruction.get_label i); [by apply IH|].
  destruct (Instruction.replace_labels i m) as [i'| |] eqn:Ei; try done.
  destruct (replace_all code m) as [c| |] eqn:Ec; simplify_eq/=. constructor; [done|]. by apply IH.
Qed.

Lemma lookup_all_ok jt m jt' : lookup_all jt m = Ok jt' → Forall2 (λ l cp, m !! l = Some cp) jt jt'.
Proof.
  revert jt'. induction jt as [|l jt IH]; intros jt' Hr; [simplify_eq/=; constructor|].
  cbn [lookup_all] in Hr. destruct (m !! l) eqn:El; [|done].
  destruct (lookup_all jt m) eqn:Ej; simplify_eq/=. constructor; [done|]. by apply IH.
Qed.

(** The labels inside a value. *)
Fixpoint value_labels (v : Value.t) : list Label.t :=
  match v with
  | Value.Label l => [l]
  | Value.Tuple vs => flat_map value_labels vs
  | _ => []
  end.

Definition imm_labels (i : insn) : list Label.t :=
  match Instruction.immediate i with
  | Some v => value_labels v
  | None => []
  end.

Lemma replace_labels_total m v :
  (∀ l, l ∈ value_labels v → is_Some (m !! l)) → ∃ v', Value.replace_labels m v = Ok v'.
Proof.
  induction v as [i|vs IH|cp|l|b] using Value.tree_ind; intros Hl; try by eexists.
  - cbn [Value.replace_labels].
    enough (∃ vs', mapM (Value.replace_labels m) vs = Ok vs') as (vs' & ->) by by eexists.
    induction IH as [|v vs Hv _ IHvs]; [by eexists|]. cbn [value_labels flat_map] in Hl.
    destruct Hv as (v' & Hv'). { intros l Hin. apply Hl, elem_of_app. by left. }
    destruct IHvs as (vs' & Hvs'). { intros l Hin. apply Hl, elem_of_app. right. exact Hin. }
    cbn [mapM]. rewrite Hv'. cbn [mbind outcome_bind]. rewrite Hvs'. by eexists.
  - destruct (Hl l) as [cp Hcp]; [by constructor|]. cbn. rewrite Hcp. by eexists.
Qed.

(** What replacing labels leaves has none. *)
Lemma replace_labels_free m v v' : Value.replace_labels m v = Ok v' → value_labels v' = [].
Proof.
  revert v'. induction v as [i|vs IH|cp|l|b] using Value.tree_ind; intros v' Hr; try by simplify_eq/=.
  - cbn [Value.replace_labels] in Hr.
    destruct (mapM (Value.replace_labels m) vs) as [vs'| |] eqn:E; simplify_eq/=.
    revert vs' E. induction IH as [|v vs Hv _ IHvs]; intros vs' E; cbn [mapM] in E; unfold mret, outcome_ret in E;
      [by simplify_eq/=|].
    destruct (Value.replace_labels m v) as [v'| |] eqn:Ev; try done. cbn [mbind outcome_bind] in E.
    destruct (mapM (Value.replace_labels m) vs) as [ws| |] eqn:Ew; simplify_eq/=.
    by rewrite (Hv v'), (IHvs ws).
  - cbn in Hr. destruct (m !! l); by simplify_eq/=.
Qed.

Lemma replace_all_total code m :
  (∀ i l, i ∈ unlabelled code → l ∈ imm_labels i → is_Some (m !! l)) → ∃ code', replace_all code m = Ok code'.
Proof.
  induction code as [|i code IH]; intros Hl; [by eexists|]. rewrite unlabelled_cons in Hl.
  cbn [replace_all]. destruct (Instruction.get_label i); [by apply IH|].
  destruct IH as (c & Hc); [intros j l Hj; apply Hl, elem_of_app; by right|]. rewrite Hc.
  enough (∃ i', Instruction.replace_labels i m = Ok i') as (i' & ->) by by eexists.
  unfold Instruction.replace_labels. specialize (Hl i). unfold imm_labels in Hl.
  destruct (Instruction.immediate i) as [v|]; [|by eexists].
  destruct (replace_labels_total m v) as (v' & ->); [|by eexists].
  intros l Hin. apply Hl; [by left|done].
Qed.

Lemma lookup_all_total jt m : (∀ l, l ∈ jt → is_Some (m !! l)) → ∃ jt', lookup_all jt m = Ok jt'.
Proof.
  induction jt as [|l jt IH]; intros Hl; [by eexists|].
  cbn [lookup_all]. destruct (Hl l) as [cp ->]; [by left|].
  destruct IH as (jt' & ->); [intros; apply Hl; by right|]. by eexists.
Qed.

(** Where a label leads: to the first instruction behind it, or, if the
    program does not define it, into the imports. *)
Definition resolves (code : list insn) (imps : list ImportedFunc) (m : gmap Label.t CodePt.t) : Prop :=
  (∀ pre i post l, code = pre ++ i :: post → Instruction.get_label i = Some l →
     m !! l = Some (CodePt.Internal (length (unlabelled pre)))) ∧
  (∀ l, l ∉ defined_labels code → m !! l = import_labels imps !! l).

(** C22: stripping labels.  When [strip_labels] succeeds, no label is defined
    twice, the instructions are those of the program without its labels, in
    order, each with the labels of its immediate replaced by code points and no
    label left, the jump table has the code points of its labels, and the code
    point of a label is the position of the first instruction behind it (for an
    imported function, its slot). *)
Theorem strip_labels_correct code jt imps code' jt' :
  strip_labels code jt imps = Ok (code', jt') →
  NoDup (defined_labels code) ∧
  ∃ m, resolves code imps m ∧
    Forall2 (λ i i', Instruction.replace_labels i m = Ok i' ∧ imm_labels i' = []) (unlabelled code) code' ∧
    Forall2 (λ l cp, m !! l = Some cp) jt jt'.
Proof.
  unfold strip_labels. intros Hs.
  destruct (collect_labels code 0 (import_labels imps)) as [m| |] eqn:Em; try done. cbn in Hs.
  destruct (replace_all code m) as [c| |] eqn:Ec; try done. cbn in Hs.
  destruct (lookup_all jt m) as [j| |] eqn:Ej; simplify_eq/=.
  apply collect_labels_ok in Em as (Hnd & _ & Hpos & Hold). split; [done|]. exists m.
  split; [done|]. split; [|by apply lookup_all_ok].
  apply replace_all_ok in Ec. eapply Forall2_impl; [|exact Ec].
  intros i i' Hi. split; [done|]. unfold Instruction.replace_labels, imm_labels in *.
  destruct (Instruction.immediate i) as [v|] eqn:Ei; [|simplify_eq/=; by rewrite Ei].
  destruct (Value.replace_labels m v) as [v'| |] eqn:Ev; simplify_eq/=. by eapply replace_labels_free.
Qed.

(** Stripping fails only for a reason.  If no label is defined twice and
    every label that an instruction or the jump table mentions is defined in the
    program or imported, [strip_labels] succeeds; if a label is defined twice it
    returns an error. *)
Theorem strip_labels_total code jt imps :
  (NoDup (defined_labels code) →
   (∀ l, (∃ i, i ∈ unlabelled code ∧ l ∈ imm_labels i) ∨ l ∈ jt →
      l ∈ defined_labels code ∨ is_Some (import_labels imps !! l)) →
   ∃ r, strip_labels code jt imps = Ok r) ∧
  (~ NoDup (defined_labels code) → ∃ e, strip_labels code jt imps = Err e).
Proof.
  split.
  - intros Hnd Hl. destruct (collect_labels_total code 0 (import_labels imps)) as (m & Hm); [done| |].
    { intros l k _. apply import_labels_external. }
    unfold strip_labels. rewrite Hm. cbn [mbind outcome_bind].
    apply collect_labels_ok in Hm as (_ & _ & Hpos & Hold).
    assert (∀ l, l ∈ defined_labels code ∨ is_Some (import_labels imps !! l) → is_Some (m !! l)) as Hsome.
    { intros l Hor. destruct (decide (l ∈ defined_labels code)) as [Hin|Hnin].
      - unfold defined_labels in Hin. apply list_elem_of_omap in Hin as (i & Hi & Hli).
        apply list_elem_of_split in Hi as (pre & post & ->). rewrite (Hpos pre i post) by done. by eexists.
      - rewrite Hold by done. by destruct Hor. }
    destruct (replace_all_total code m) as (c & ->); [intros; apply Hsome, Hl; left; by eexists|].
    destruct (lookup_all_total jt m) as (j & ->); [intros; apply Hsome, Hl; by right|]. by eexists.
  - intros Hnd. unfold strip_labels.
    destruct (collect_labels code 0 (import_labels imps)) as [m|e|] eqn:Em; [|by eexists|].
    + by apply collect_labels_ok in Em as (? & _).
    + by apply collect_labels_no_panic in Em.
Qed.

(** ** The jump table *)

(** The index is the inverse of the table, which has no duplicates. *)
Definition table_ok (st : fix_state) : Prop :=
  NoDup (jump_table st) ∧
  ∀ l k, jump_table_index st !! l = Some k ↔ jump_table st !! k = Some l.

Lemma table_index_ok st l k st' : table_ok st → table_index st l = (k, st') →
  table_ok st' ∧ jump_table st `prefix_of` jump_table st' ∧ jump_table st' !! k = Some l ∧
  imm_labels_seen st' = imm_labels_seen st.
Proof.
  intros [Hnd Hidx] Ht. unfold table_index in Ht. destruct (jump_table_index st !! l) as [j|] eqn:El.
  { simplify_eq. split_and!; try done. by apply Hidx. }
  assert (l ∉ jump_table st) as Hn.
  { intros Hin. apply list_elem_of_lookup in Hin as [j Hj]. apply Hidx in Hj. congruence. }
  simplify_eq. cbn. split_and!; try done; [split; cbn| |].
  - apply list.NoDup_app. split; [done|]. split; [|apply NoDup_singleton]. by intros x Hx ->%list_elem_of_singleton.
  - intros l' j. destruct (decide (l' = l)) as [->|Hne].
    + rewrite lookup_insert_eq. split.
      * intros [= <-]. by rewrite lookup_app_r, Nat.sub_diag by lia.
      * intros Hj. apply lookup_app_Some in Hj as [Hj|[Hge Hj]].
        -- by apply list_elem_of_lookup_2 in Hj.
        -- apply list_lookup_singleton_Some in Hj as [Hj _]. f_equal. lia.
    + rewrite lookup_insert_ne, Hidx by done. split.
      * intros Hj. rewrite lookup_app_l; [done|]. by eapply lookup_lt_Some.
      * intros Hj. apply lookup_app_Some in Hj as [Hj|[_ Hj]]; [done|].
        by apply list_lookup_singleton_Some in Hj as [_ ->].
  - by apply prefix_app_r.
  - by rewrite lookup_app_r, Nat.sub_diag by lia.
Qed.

(** What an instruction becomes in the first loop, given the final table:
    itself, or a reference to its label in the table. *)
Definition expands (jt : list Label.t) (gidx : nat) (i : insn) (g : list insn) : Prop :=
  g = [i] ∨
  ∃ l k, Instruction.immediate i = Some (Value.Label l) ∧ jt !! k = Some l ∧
    g = [Instruction.from_opcode (Opcode.GetGlobalVar gidx) (Instruction.debug_info i);
         Instruction.from_opcode (Opcode.PushExternal k) (Instruction.debug_info i);
         Instruction.from_opcode (Instruction.opcode i) (Instruction.debug_info i)].

Lemma expands_prefix jt jt' gidx i g : jt `prefix_of` jt' → expands jt gidx i g → expands jt' gidx i g.
Proof.
  intros Hp [->|(l & k & Hi & Hk & ->)]; [by left|]. right. exists l, k. split; [done|]. split; [|done].
  by eapply prefix_lookup_Some.
Qed.

Lemma see_label_table st op :
  jump_table (see_label st op) = jump_table st ∧ (table_ok st → table_ok (see_label st op)).
Proof. by destruct op. Qed.

Lemma fix_label_ok imps gidx st i c st' : table_ok st → fix_label imps gidx st i = (c, st') →
  table_ok st' ∧ jump_table st `prefix_of` jump_table st' ∧ expands (jump_table st') gidx i c.
Proof.
  intros Hok Hf. unfold fix_label in Hf. destruct i as [op imm d].
  cbn [Instruction.opcode Instruction.immediate Instruction.debug_info] in *.
  destruct (see_label_table st op) as [Hj Hst].
  assert (∀ c, ([Instruction.mk op imm d], see_label st op) = (c, st') →
    table_ok st' ∧ jump_table st `prefix_of` jump_table st' ∧
    expands (jump_table st') gidx (Instruction.mk op imm d) c) as Hsame.
  { intros c0 [= <- <-]. rewrite Hj. split_and!; [by apply Hst|done|by left]. }
  destruct imm as [[x|vs|cp|l|b]|]; try by apply Hsame.
  destruct (bool_decide (l ∈ imm_labels_seen st) || bool_decide (l ∈ imps)); [|by apply Hsame].
  destruct (table_index st l) as [k st1] eqn:Et. simplify_eq.
  apply table_index_ok in Et as (Hok1 & Hp & Hk & _); [|done].
  destruct (see_label_table st1 op) as [Hj1 Hst1]. rewrite Hj1.
  split_and!; [by apply Hst1|done|]. right. by exists l, k.
Qed.

Lemma fix_labels_ok imps gidx code st c st' : table_ok st → fix_labels imps gidx st code = (c, st') →
  table_ok st' ∧ jump_table st `prefix_of` jump_table st' ∧
  ∃ groups, c = concat groups ∧ Forall2 (expands (jump_table st') gidx) code groups.
Proof.
  revert st c. induction code as [|i code IH]; intros st c Hok Hf; cbn [fix_labels] in Hf.
  { simplify_eq. split_and!; try done. exists []. split; [done|constructor]. }
  destruct (fix_label imps gidx st i) as [c1 st1] eqn:E1.
  destruct (fix_labels imps gidx st1 code) as [c2 st2] eqn:E2. simplify_eq.
  apply fix_label_ok in E1 as (Hok1 & Hp1 & He1); [|done].
  destruct (IH _ _ Hok1 E2) as (Hok2 & Hp2 & groups & -> & Hg).
  split_and!; [done|by etrans|]. exists (c1 :: groups). split; [done|]. constructor; [|done].
  by eapply expands_prefix.
Qed.

(** ** Only forward references remain *)

(** No instruction refers to a label that has been passed, or to an import. *)
Fixpoint forward_only (imps seen : gset Label.t) (code : list insn) : Prop :=
  match code with
  | [] => True
  | i :: code =>
      (∀ l, Instruction.immediate i = Some (Value.Label l) → (l ∉ seen) ∧ (l ∉ imps)) ∧
      forward_only imps (list_to_set (option_list (Instruction.get_label i)) ∪ seen) code
  end.

Lemma forward_only_app imps seen c1 c2 :
  forward_only imps seen (c1 ++ c2) ↔
  forward_only imps seen c1 ∧ forward_only imps (list_to_set (defined_labels c1) ∪ seen) c2.
Proof.
  revert seen. induction c1 as [|i c1 IH]; intros seen.
  { cbn. rewrite (left_id_L ∅ (∪)). tauto. }
  cbn [app forward_only]. rewrite IH, defined_labels_cons, list_to_set_app_L.
  replace (list_to_set (defined_labels c1) ∪ (list_to_set (option_list (Instruction.get_label i)) ∪ seen))
    with (list_to_set (option_list (Instruction.get_label i)) ∪ list_to_set (defined_labels c1) ∪ seen)
    by set_solver. tauto.
Qed.

Lemma forward_only_split imps code pre i post l :
  forward_only imps ∅ code → code = pre ++ i :: post → Instruction.immediate i = Some (Value.Label l) →
  (l ∉ defined_labels pre) ∧ (l ∉ imps).
Proof.
  intros Hf -> Hi. apply forward_only_app in Hf as [_ [Hl _]]. apply Hl in Hi as [? ?]. set_solver.
Qed.

Lemma xform_external_labels n i : defined_labels (xform_external n i) = option_list (Instruction.get_label i).
Proof.
  destruct i as [op imm d]. unfold xform_external. cbn. destruct op; try done. by destruct imm.
Qed.

Lemma xform_external_forward n imps seen i :
  (∀ l, Instruction.immediate i = Some (Value.Label l) → (l ∉ seen) ∧ (l ∉ imps)) →
  forward_only imps seen (xform_external n i).
Proof.
  intros Hi. destruct i as [op imm d]. unfold xform_external. cbn in *. destruct op; try done.
  destruct imm as [v|]; cbn; split_and!; try done.
Qed.

Lemma xform_concat n imps seen code : forward_only imps seen code →
  forward_only imps seen (concat (xform_external n <$> code)).
Proof.
  revert seen. induction code as [|i code IH]; intros seen Hf; [done|]. destruct Hf as [Hi Hf].
  change (concat (xform_external n <$> i :: code)) with (xform_external n i ++ concat (xform_external n <$> code)).
  apply forward_only_app. split; [by apply xform_external_forward|].
  rewrite xform_external_labels. by apply IH.
Qed.

Lemma fix_label_forward imps gidx st i c st' : fix_label imps gidx st i = (c, st') →
  forward_only imps (imm_labels_seen st) c ∧
  imm_labels_seen st' = list_to_set (defined_labels c) ∪ imm_labels_seen st.
Proof.
  intros Hf. unfold fix_label in Hf. destruct i as [op imm d].
  cbn [Instruction.opcode Instruction.immediate Instruction.debug_info] in *.
  assert (∀ o, imm_labels_seen (see_label st o) =
    list_to_set (option_list (Instruction.get_label (Instruction.mk o imm d))) ∪ imm_labels_seen st) as Hs.
  { intros []; cbn; set_solver. }
  destruct imm as [[x|vs|cp|l|b]|]; simplify_eq;
    try (split; [done|]; rewrite defined_labels_cons, Hs; cbn; set_solver).
  destruct (bool_decide (l ∈ imm_labels_seen st) || bool_decide (l ∈ imps)) eqn:Eb.
  - unfold table_index in Hf. destruct (jump_table_index st !! l); simplify_eq; (split; [done|]);
    rewrite !defined_labels_cons; cbn; destruct op; cbn; set_solver.
  - simplify_eq. apply orb_false_iff in Eb as [E1%bool_decide_eq_false E2%bool_decide_eq_false]. split.
    + cbn. split; [|done]. by intros ? [= <-].
    + rewrite defined_labels_cons, Hs. cbn. set_solver.
Qed.

Lemma fix_labels_forward imps gidx code st c st' : fix_labels imps gidx st code = (c, st') →
  forward_only imps (imm_labels_seen st) c.
Proof.
  revert st c. induction code as [|i code IH]; intros st c Hf; cbn [fix_labels] in Hf; [by simplify_eq|].
  destruct (fix_label imps gidx st i) as [c1 st1] eqn:E1.
  destruct (fix_labels imps gidx st1 code) as [c2 st2] eqn:E2. simplify_eq.
  apply fix_label_forward in E1 as [Hf1 Hs1]. apply forward_only_app. split; [done|].
  rewrite <- Hs1. by eapply IH.
Qed.

(** The same after the second loop: an instruction stays, or its label is
    fetched from the jump table, which is global number [gidx]. *)
Definition via_table (jt : list Label.t) (gidx : nat) (i : insn) (g : list insn) : Prop :=
  let di := Instruction.debug_info i in
  g = xform_external (length jt) i ∨
  ∃ l k, Instruction.immediate i = Some (Value.Label l) ∧ jt !! k = Some l ∧
    g = [Instruction.from_opcode (Opcode.GetGlobalVar gidx) di;
         Instruction.from_opcode_imm (Opcode.TupleGet (length jt)) (slot_val k) di]
        ++ xform_external (length jt) (Instruction.from_opcode (Instruction.opcode i) di).

Lemma expands_via_table jt gidx i g :
  expands jt gidx i g → via_table jt gidx i (concat (xform_external (length jt) <$> g)).
Proof.
  intros [->|(l & k & Hi & Hk & ->)].
  - left. cbn. by rewrite app_nil_r.
  - right. exists l, k. split; [done|]. split; [done|].
    cbn [fmap list_fmap concat]. rewrite app_nil_r. done.
Qed.

Lemma concat_fmap_concat {A B} (f : A → list B) (ls : list (list A)) :
  concat (f <$> concat ls) = concat ((λ l, concat (f <$> l)) <$> ls).
Proof.
  induction ls as [|l ls IH]; [done|].
  change (concat (l :: ls)) with (l ++ concat ls). rewrite fmap_app, concat_app, IH. done.
Qed.

Lemma via_table_labels jt gidx code groups : Forall2 (via_table jt gidx) code groups →
  defined_labels (concat groups) = defined_labels code.
Proof.
  induction 1 as [|i g code groups Hg _ IH]; [done|]. rewrite defined_labels_cons, <- IH.
  change (concat (g :: groups)) with (g ++ concat groups). unfold defined_labels at 1. rewrite omap_app.
  f_equal. fold (defined_labels g). destruct Hg as [->|(l & k & _ & _ & ->)].
  - apply xform_external_labels.
  - cbn [app]. rewrite !defined_labels_cons, xform_external_labels. done.
Qed.

Lemma fix_nonforward_groups code imps gidx code' jt : fix_nonforward_labels code imps gidx = (code', jt) →
  NoDup jt ∧ ∃ groups, code' = concat groups ∧ Forall2 (via_table jt gidx) code groups.
Proof.
  unfold fix_nonforward_labels. intros Hf.
  destruct (fix_labels (imported_labels imps) gidx (mkFix [] ∅ ∅) code) as [c st] eqn:E.
  apply pair_equal_spec in Hf as [<- <-].
  apply fix_labels_ok in E as ([Hnd _] & _ & groups & -> & Hg).
  2: { split; [constructor|]. intros l k. cbn. by rewrite lookup_empty, lookup_nil. }
  split; [done|]. rewrite concat_fmap_concat. eexists. split; [done|].
  apply Forall2_fmap_r. eapply Forall2_impl; [|exact Hg]. intros. by apply expands_via_table.
Qed.

(** C14: the jump table.  After [fix_nonforward_labels] no instruction refers
    directly to a label that precedes it or to an imported function; the jump
    table has no duplicates; and the code is the old one in which some
    references to a label have become: fetch the jump table from its global,
    take the element at which the table has exactly that label, and go on with
    the instruction.  No label definition is lost, added or moved. *)
Theorem fix_nonforward_correct code imps gidx code' jt :
  fix_nonforward_labels code imps gidx = (code', jt) →
  NoDup jt ∧
  (∀ pre i post l, code' = pre ++ i :: post → Instruction.immediate i = Some (Value.Label l) →
     (l ∉ defined_labels pre) ∧ (l ∉ imported_labels imps)) ∧
  (∃ groups, code' = concat groups ∧ Forall2 (via_table jt gidx) code groups) ∧
  defined_labels code' = defined_labels code.
Proof.
  intros Hf. destruct (fix_nonforward_groups _ _ _ _ _ Hf) as (Hnd & groups & Hc & Hg).
  split_and!; [done| |by exists groups|rewrite Hc; by eapply via_table_labels].
  intros pre i post l Heq Hi. eapply forward_only_split; [|exact Heq|exact Hi]. unfold fix_nonforward_labels in Hf.
  destruct (fix_labels (imported_labels imps) gidx (mkFix [] ∅ ∅) code) as [c st] eqn:E.
  apply pair_equal_spec in Hf as [<- _]. apply xform_concat. exact (fix_labels_forward _ _ _ _ _ _ E).
Qed.

(** ** Examples *)

(** A loop: the jump back to label 7 goes through the table. *)
Definition loop_code : list insn :=
  [Instruction.from_opcode (Opcode.Label (Label.Anon 7)) DebugInfo_default;
   op_ AVMOpcode.Noop DebugInfo_default;
   op_imm AVMOpcode.Jump (Value.Label (Label.Anon 7)) DebugInfo_default].

Lemma fix_nonforward_correct_witness :
  NoDup (fix_nonforward_labels loop_code [] 0).2 ∧
  defined_labels (fix_nonforward_labels loop_code [] 0).1 = [Label.Anon 7].
Proof.
  destruct (fix_nonforward_correct loop_code [] 0 _ _ (surjective_pairing _)) as (H1 & _ & _ & H2).
  split; [exact H1|exact H2].
Defined.

Definition stripped_loop : list insn * list CodePt.t :=
  ([op_ AVMOpcode.Noop DebugInfo_default;
    op_imm AVMOpcode.Jump (Value.CodePoint (CodePt.Internal 0)) DebugInfo_default], [CodePt.Internal 0]).

Lemma strip_labels_correct_witness :
  strip_labels loop_code [Label.Anon 7] [] = Ok stripped_loop ∧
  ∃ m, resolves loop_code [] m ∧ Forall2 (λ l cp, m !! l = Some cp) [Label.Anon 7] stripped_loop.2.
Proof.
  assert (strip_labels loop_code [Label.Anon 7] [] = Ok stripped_loop) as H by (vm_compute; reflexivity).
  split; [exact H|].
  destruct (strip_labels_correct loop_code [Label.Anon 7] [] _ _ H) as (_ & m & Hm & _ & Hj).
  exists m. split; [exact Hm|exact Hj].
Defined.

Lemma strip_labels_total_witness :
  (∃ r, strip_labels loop_code [Label.Anon 7] [] = Ok r) ∧
  (∃ e, strip_labels (loop_code ++ loop_code) [] [] = Err e).
Proof.
  split.
  - apply (proj1 (strip_labels_total loop_code [Label.Anon 7] [])).
    + apply (bool_decide_unpack _). vm_compute. exact I.
    + intros l [(i & Hi & Hl)|Hl]; left.
      * assert (Forall (λ i, Forall (λ l, l ∈ defined_labels loop_code) (imm_labels i)) (unlabelled loop_code)) as Hall
          by (apply (bool_decide_unpack _); vm_compute; exact I).
        rewrite list.Forall_forall in Hall. specialize (Hall i Hi). rewrite list.Forall_forall in Hall. exact (Hall l Hl).
      * exact Hl.
  - apply (proj2 (strip_labels_total (loop_code ++ loop_code) [] [])).
    apply (bool_decide_unpack _). vm_compute. exact I.
Defined.
