(* ===== verification/Types.v ===== *)
(** * Types of the Mini language (src/src/compile/ast.rs)

    The type [Type] with its equality, subtyping ([assignable]), the search for
    the first mismatch, and default values.

    [get_representation] follows type aliases with a [while] loop and
    [assignable] recurses through the type tree, so both take fuel; [None] is
    lack of fuel.  For [get_representation] one step more than the type tree
    has entries is enough whenever the loop ends at all
    ([representation_fuel]). *)

From Stdlib Require Import ZArith Lia.
From S2P Require Import Prelude U256 Pos Opcodes Crypto BufferTree Values StraightLine TupleTree.

#[local] Set Warnings "-clear-no-such-hyp".

Record StructField (T : Type) := mkStructField { sf_name : string; sf_tipe : T }.
Arguments mkStructField {T}.
Arguments sf_name {T}.
Arguments sf_tipe {T}.

Module Tipe.

#[warnings="-register-all"]
Inductive t :=
| Void
| Uint
| Int
| Bool
| Bytes32
| EthAddress
| Buffer
| Tuple (ts : list t)
| Array (e : t)
| FixedArray (e : t) (size : nat)
| Struct (fields : list (StructField t))
| Nominal (path : list string) (id : nat)
| Func (impure : bool) (args : list t) (ret : t)
| Map (key value : t)
| Any
| Every
| Option (inner : t)
| Union (ts : list t).

(** Induction with the hypothesis for every component. *)
Lemma nested_ind (P : t → Prop) :
  P Void → P Uint → P Int → P Bool → P Bytes32 → P EthAddress → P Buffer →
  (∀ ts, Forall P ts → P (Tuple ts)) → (∀ e, P e → P (Array e)) →
  (∀ e n, P e → P (FixedArray e n)) →
  (∀ fs, Forall (λ f, P (sf_tipe f)) fs → P (Struct fs)) →
  (∀ p i, P (Nominal p i)) → (∀ b args ret, Forall P args → P ret → P (Func b args ret)) →
  (∀ k v, P k → P v → P (Map k v)) → P Any → P Every → (∀ e, P e → P (Option e)) →
  (∀ ts, Forall P ts → P (Union ts)) → ∀ x, P x.
Proof.
  intros HVoid HUint HInt HBool HBytes HEth HBuf HTup HArr HFix HStr HNom HFun HMap HAny HEv HOpt HUni.
  fix IH 1. intros [ | | | | | | |ts|e|e n|fs|p i|b args ret|k v| | |e|ts];
    [exact HVoid|exact HUint|exact HInt|exact HBool|exact HBytes|exact HEth|exact HBuf| | | | | | | |exact HAny|exact HEv| |].
  - apply HTup. induction ts; constructor; [apply IH|assumption].
  - apply HArr, IH.
  - apply HFix, IH.
  - apply HStr. induction fs as [|f fs IHfs]; constructor; [apply IH|assumption].
  - apply HNom.
  - apply HFun; [|apply IH]. induction args; constructor; [apply IH|assumption].
  - apply HMap; apply IH.
  - apply HOpt, IH.
  - apply HUni. induction ts; constructor; [apply IH|assumption].
Qed.

End Tipe.

(** ** Equality *)

(** Element by element, with equal lengths. *)
Definition list_eqb {A} (eqb : A → A → bool) :=
  fix go (l1 l2 : list A) : bool :=
    match l1, l2 with
    | [], [] => true
    | x :: l1, y :: l2 => eqb x y && go l1 l2
    | _, _ => false
    end.

(** [PartialEq for Type] *)
Fixpoint type_eq (self other : Tipe.t) : bool :=
  match self, other with
  | Tipe.Void, Tipe.Void | Tipe.Uint, Tipe.Uint | Tipe.Int, Tipe.Int | Tipe.Bool, Tipe.Bool
  | Tipe.Bytes32, Tipe.Bytes32 | Tipe.EthAddress, Tipe.EthAddress | Tipe.Any, Tipe.Any
  | Tipe.Buffer, Tipe.Buffer | Tipe.Every, Tipe.Every => true
  | Tipe.Tuple v1, Tipe.Tuple v2 => list_eqb type_eq v1 v2
  | Tipe.Array a1, Tipe.Array a2 => type_eq a1 a2
  | Tipe.FixedArray a1 s1, Tipe.FixedArray a2 s2 => Nat.eqb s1 s2 && type_eq a1 a2
  | Tipe.Struct f1, Tipe.Struct f2 =>
      list_eqb (λ f g, bool_decide (sf_name f = sf_name g) && type_eq (sf_tipe f) (sf_tipe g)) f1 f2
  | Tipe.Map k1 v1, Tipe.Map k2 v2 => type_eq k1 k2 && type_eq v1 v2
  | Tipe.Func i1 a1 r1, Tipe.Func i2 a2 r2 => eqb i1 i2 && list_eqb type_eq a1 a2 && type_eq r1 r2
  | Tipe.Nominal p1 id1, Tipe.Nominal p2 id2 => bool_decide (p1 = p2) && Nat.eqb id1 id2
  | Tipe.Option x, Tipe.Option y => type_eq x y
  | Tipe.Union x, Tipe.Union y => list_eqb type_eq x y
  | _, _ => false
  end.

Lemma list_eqb_spec {A} (eqb : A → A → bool) l1 l2 :
  Forall (λ x, ∀ y, eqb x y = true ↔ x = y) l1 → list_eqb eqb l1 l2 = true ↔ l1 = l2.
Proof.
  intros Hl. revert l2. induction Hl as [|x l1 Hx _ IH]; intros [|y l2]; cbn [list_eqb]; try done.
  rewrite andb_true_iff, Hx. fold (list_eqb eqb l1 l2). rewrite IH. split; [intros [-> ->]; done|by intros [= -> ->]].
Qed.

Lemma type_eq_spec x y : type_eq x y = true ↔ x = y.
Proof.
  revert y. induction x as [| | | | | | |ts IH|e IH|e n IH|fs IH|p i|b args ret IHa IHr|k v IHk IHv| | |e IH|ts IH]
    using Tipe.nested_ind; intros []; cbn [type_eq]; try done;
    rewrite ?andb_true_iff, ?IH, ?IHr, ?IHk, ?IHv, ?Nat.eqb_eq, ?bool_decide_eq_true, ?eqb_true_iff;
    try (rewrite list_eqb_spec by done); try naive_solver.
  rewrite list_eqb_spec; [naive_solver|]. eapply Forall_impl; [|exact IH].
  intros [n1 t1] Ht [n2 t2]. cbn in *. rewrite andb_true_iff, Ht, bool_decide_eq_true. naive_solver.
Qed.

#[global] Instance tipe_eq_dec : EqDecision Tipe.t.
Proof. intros x y. destruct (type_eq x y) eqn:E; [left|right]; rewrite <- type_eq_spec; congruence. Defined.

(** The tree of named types of a program. *)
Definition TypeTree := gmap (list string * nat) (Tipe.t * string).

(** [name_id] is a [usize]; [usize::MAX] marks the linker's own global. *)
Record GlobalVarDecl := mkGlobalVarDecl {
  gv_name_id : Z;
  gv_name : string;
  gv_tipe : Tipe.t;
  gv_location : option Location.t;
}.

(** ** Named types *)

(** [while let Type::Nominal(path, id) = base_type] *)
Fixpoint representation_loop (fuel : nat) (tt : TypeTree) (base_type : Tipe.t)
    : option (outcome CompileError Tipe.t) :=
  match base_type with
  | Tipe.Nominal path id =>
      match fuel with
      | O => None
      | S fuel =>
          match tt !! (path, id) with
          | Some (t, _) => representation_loop fuel tt t
          | None => Some (Err (CompileError_new "Typecheck Error" "No type at" []))
          end
      end
  | _ => Some (Ok base_type)
  end.

Definition get_representation (tt : TypeTree) (self : Tipe.t) : option (outcome CompileError Tipe.t) :=
  representation_loop (S (size tt)) tt self.

Fixpoint find_nominals (self : Tipe.t) : list nat :=
  match self with
  | Tipe.Nominal _ id => [id]
  | Tipe.Array t | Tipe.FixedArray t _ | Tipe.Option t => find_nominals t
  | Tipe.Tuple entries => flat_map find_nominals entries
  | Tipe.Func _ args ret => find_nominals ret ++ flat_map find_nominals args
  | Tipe.Struct fields => flat_map (λ f, find_nominals (sf_tipe f)) fields
  | Tipe.Map domain codomain => find_nominals domain ++ find_nominals codomain
  | _ => []
  end.

Definition get_struct_slot_by_name (self : Tipe.t) (name : string) : option nat :=
  match self with
  | Tipe.Struct fields =>
      (fix go (i : nat) (l : list (StructField Tipe.t)) : option nat :=
         match l with
         | [] => None
         | f :: l => if bool_decide (sf_name f = name) then Some i else go (S i) l
         end) 0 fields
  | _ => None
  end.

(** ** Subtyping *)

(** [a && b], where [b] is not evaluated if [a] is false. *)
Definition and_then (a b : option bool) : option bool :=
  match a with
  | Some true => b
  | _ => a
  end.

(** [zip(..).all(..)] *)
Definition all2 {A} (f : A → A → option bool) :=
  fix go (l1 l2 : list A) : option bool :=
    match l1, l2 with
    | x :: l1, y :: l2 => and_then (f x y) (go l1 l2)
    | _, _ => Some true
    end.

(** [type_vectors_assignable], [arg_vectors_assignable] and
    [field_vectors_assignable]: equal lengths, then every pair. *)
Definition vectors_assignable {A} (f : A → A → option bool) (v1 v2 : list A) : option bool :=
  if Nat.eqb (length v1) (length v2) then all2 f v1 v2 else Some false.

(** The pairs of types under comparison; [insert] tells whether the pair is new. *)
Definition seen_t := list (Tipe.t * Tipe.t).
Definition insert (seen : seen_t) (p : Tipe.t * Tipe.t) : option seen_t :=
  if bool_decide (p ∈ seen) then None else Some (p :: seen).

Fixpoint assignable (fuel : nat) (tt : TypeTree) (seen : seen_t) (self rhs : Tipe.t) : option bool :=
  match fuel with
  | O => None
  | S fuel =>
      let rec_ := assignable fuel tt in
      if type_eq rhs Tipe.Every then Some true
      else
        match self with
        | Tipe.Any => Some (negb (type_eq rhs Tipe.Void))
        | Tipe.Void | Tipe.Uint | Tipe.Int | Tipe.Bool | Tipe.Bytes32 | Tipe.EthAddress | Tipe.Buffer
        | Tipe.Every => Some (type_eq self rhs)
        | Tipe.Tuple tvec =>
            r ← get_representation tt rhs;
            match r with
            | Ok (Tipe.Tuple tvec2) => vectors_assignable (rec_ seen) tvec tvec2
            | _ => Some false
            end
        | Tipe.Array t =>
            r ← get_representation tt rhs;
            match r with
            | Ok (Tipe.Array t2) => rec_ seen t t2
            | _ => Some false
            end
        | Tipe.FixedArray t s =>
            r ← get_representation tt rhs;
            match r with
            | Ok (Tipe.FixedArray t2 s2) => and_then (Some (Nat.eqb s s2)) (rec_ seen t t2)
            | _ => Some false
            end
        | Tipe.Struct fields =>
            r ← get_representation tt rhs;
            match r with
            | Ok (Tipe.Struct fields2) =>
                vectors_assignable
                  (λ f1 f2, and_then (rec_ seen (sf_tipe f1) (sf_tipe f2))
                                     (Some (bool_decide (sf_name f1 = sf_name f2)))) fields fields2
            | _ => Some false
            end
        | Tipe.Nominal _ _ =>
            l ← get_representation tt self;
            r ← get_representation tt rhs;
            match l, r with
            | Ok l_rep, Ok r_rep =>
                match insert seen (l_rep, r_rep) with
                | Some seen => rec_ seen l_rep r_rep
                | None => Some true
                end
            | _, _ => Some false
            end
        | Tipe.Func is_impure args ret =>
            match rhs with
            | Tipe.Func is_impure2 args2 ret2 =>
                and_then (and_then (Some (is_impure || negb is_impure2))
                                   (vectors_assignable (rec_ seen) args2 args))
                         (rec_ seen ret ret2)
            | _ => Some false
            end
        | Tipe.Map key1 val1 =>
            match rhs with
            | Tipe.Map key2 val2 =>
                v ← get_representation tt val2;
                match v with
                | Ok val2 => and_then (rec_ seen key1 key2) (rec_ seen val1 val2)
                | _ => Some false
                end
            | _ => Some false
            end
        | Tipe.Option inner =>
            r ← get_representation tt rhs;
            match r with
            | Ok (Tipe.Option inner2) => rec_ seen inner inner2
            | _ => Some false
            end
        | Tipe.Union types =>
            r ← get_representation tt rhs;
            match r with
            | Ok (Tipe.Union types2) => vectors_assignable (rec_ seen) types types2
            | _ => Some false
            end
        end
  end.

(** ** The first mismatch *)
Inductive TypeMismatch :=
| MType (l r : Tipe.t)
| FieldName (l r : string)
| FieldType (name : string) (m : TypeMismatch)
| UnresolvedRight (t : Tipe.t)
| UnresolvedLeft (t : Tipe.t)
| UnresolvedBoth (l r : Tipe.t)
| MLength (l r : nat)
| ArrayMismatch (m : TypeMismatch)
| ArrayLength (l r : nat)
| MTuple (index : nat) (m : TypeMismatch)
| TupleLength (l r : nat)
| FuncArg (index : nat) (m : TypeMismatch)
| FuncArgLength (l r : nat)
| FuncReturn (m : TypeMismatch)
| MMap (is_key : bool) (inner : TypeMismatch)
| MOption (m : TypeMismatch)
| MUnion (index : nat) (m : TypeMismatch)
| UnionLength (l r : nat)
| Purity.

(** [for (index, (left, right)) in zip(..).enumerate()]: the first pair with a
    mismatch, wrapped; otherwise what follows the loop. *)
Definition first_pair {A} (f : A → A → option (option TypeMismatch)) (wrap : nat → TypeMismatch → TypeMismatch)
    (otherwise : option (option TypeMismatch)) :=
  fix go (index : nat) (l1 l2 : list A) : option (option TypeMismatch) :=
    match l1, l2 with
    | x :: l1, y :: l2 =>
        r ← f x y;
        match r with
        | Some inner => Some (Some (wrap index inner))
        | None => go (S index) l1 l2
        end
    | _, _ => otherwise
    end.

(** [if v1.len() != v2.len() { return Some(..) }] *)
Definition length_mismatch {A} (v1 v2 : list A) (c : nat → nat → TypeMismatch) : option TypeMismatch :=
  if Nat.eqb (length v1) (length v2) then None else Some (c (length v1) (length v2)).

(** [field_vectors_mismatch]: the type of a field is compared before its name. *)
Definition field_vectors_mismatch (f : Tipe.t → Tipe.t → option (option TypeMismatch))
    (tvec1 tvec2 : list (StructField Tipe.t)) : option (option TypeMismatch) :=
  (fix go (l1 l2 : list (StructField Tipe.t)) : option (option TypeMismatch) :=
     match l1, l2 with
     | t1 :: l1, t2 :: l2 =>
         r ← f (sf_tipe t1) (sf_tipe t2);
         match r with
         | Some mismatch => Some (Some (FieldType (sf_name t1) mismatch))
         | None =>
             if bool_decide (sf_name t1 = sf_name t2) then go l1 l2
             else Some (Some (FieldName (sf_name t1) (sf_name t2)))
         end
     | _, _ => Some (length_mismatch tvec1 tvec2 MLength)
     end) tvec1 tvec2.

Fixpoint first_mismatch (fuel : nat) (tt : TypeTree) (seen : seen_t) (self rhs : Tipe.t)
    : option (option TypeMismatch) :=
  match fuel with
  | O => None
  | S fuel =>
      let rec_ := first_mismatch fuel tt in
      let here := Some (Some (MType self rhs)) in
      if type_eq rhs Tipe.Every then Some None
      else
        match self with
        | Tipe.Any =>
            Some (if type_eq rhs Tipe.Void then Some (MType Tipe.Any Tipe.Void) else None)
        | Tipe.Void | Tipe.Uint | Tipe.Int | Tipe.Bool | Tipe.Bytes32 | Tipe.EthAddress | Tipe.Buffer
        | Tipe.Every => if type_eq self rhs then Some None else here
        | Tipe.Tuple tvec =>
            r ← get_representation tt rhs;
            match r with
            | Ok (Tipe.Tuple tvec2) =>
                first_pair (rec_ seen) MTuple (Some (length_mismatch tvec tvec2 TupleLength)) 0 tvec tvec2
            | _ => here
            end
        | Tipe.Array t =>
            r ← get_representation tt rhs;
            match r with
            | Ok (Tipe.Array t2) => m ← rec_ seen t t2; Some (option_map ArrayMismatch m)
            | _ => here
            end
        | Tipe.FixedArray t s =>
            r ← get_representation tt rhs;
            match r with
            | Ok (Tipe.FixedArray t2 s2) =>
                m ← rec_ seen t t2;
                Some (match m with
                      | Some inner => Some (ArrayMismatch inner)
                      | None => if Nat.eqb s s2 then None else Some (ArrayLength s s2)
                      end)
            | _ => here
            end
        | Tipe.Struct fields =>
            r ← get_representation tt rhs;
            match r with
            | Ok (Tipe.Struct fields2) => field_vectors_mismatch (rec_ seen) fields fields2
            | _ => here
            end
        | Tipe.Nominal _ _ =>
            l ← get_representation tt self;
            r ← get_representation tt rhs;
            match l, r with
            | Ok l_rep, Ok r_rep =>
                match insert seen (self, rhs) with
                | Some seen => rec_ seen l_rep r_rep
                | None => Some None
                end
            | Ok _, _ => Some (Some (UnresolvedRight self))
            | _, Ok _ => Some (Some (UnresolvedLeft rhs))
            | _, _ => Some (Some (UnresolvedBoth self rhs))
            end
        | Tipe.Func is_impure args ret =>
            match rhs with
            | Tipe.Func is_impure2 args2 ret2 =>
                first_pair (rec_ seen) FuncArg
                  (match length_mismatch args args2 FuncArgLength with
                   | Some m => Some (Some m)
                   | None =>
                       m ← rec_ seen ret ret2;
                       Some (match m with
                             | Some inner => Some (FuncReturn inner)
                             | None => if negb is_impure && is_impure2 then Some Purity else None
                             end)
                   end) 0 args args2
            | _ => here
            end
        | Tipe.Map key1 val1 =>
            match rhs with
            | Tipe.Map key2 val2 =>
                v ← get_representation tt val2;
                match v with
                | Ok val2 =>
                    k ← rec_ seen key1 key2;
                    match k with
                    | Some m => Some (Some (MMap true m))
                    | None => m ← rec_ seen val1 val2; Some (option_map (MMap false) m)
                    end
                | _ => here
                end
            | _ => here
            end
        | Tipe.Option inner =>
            r ← get_representation tt rhs;
            match r with
            | Ok (Tipe.Option inner2) => m ← rec_ seen inner inner2; Some (option_map MOption m)
            | _ => here
            end
        | Tipe.Union types =>
            r ← get_representation tt rhs;
            match r with
            | Ok (Tipe.Union types2) =>
                first_pair (rec_ seen) MUnion (Some (length_mismatch types types2 UnionLength)) 0 types types2
            | _ => here
            end
        end
  end.

(** ** Default values *)

(** [while chunk_size * 8 < sz { val = vec![val; 8]; chunk_size *= 8 }] *)
Fixpoint wrap_chunks (fuel chunk_size sz : nat) (val : Value.t) : option Value.t :=
  match fuel with
  | O => None
  | S fuel =>
      if Nat.ltb (chunk_size * TUPLE_SIZE) sz
      then wrap_chunks fuel (chunk_size * 8) sz (Value.new_tuple (replicate 8 val))
      else Some val
  end.

Section default.
Context `{Crypto}.

(** The default value and whether its use is type-safe; [None] never happens
    ([default_value_total]). *)
Fixpoint default_value (self : Tipe.t) : option (Value.t * bool) :=
  match self with
  | Tipe.Void => Some (Value.none, false)
  | Tipe.Buffer => b ← Value.new_buffer []; Some (b, true)
  | Tipe.Uint | Tipe.Int | Tipe.Bytes32 | Tipe.EthAddress | Tipe.Bool => Some (Value.Int Uint256.zero, true)
  | Tipe.Tuple tvec =>
      ds ← mapM default_value tvec;
      Some (Value.new_tuple (ds.*1), forallb snd ds)
  | Tipe.Array t =>
      '(def, safe) ← default_value t;
      Some (Value.new_tuple [Value.Int Uint256.one; Value.Int Uint256.one; Value.new_tuple [def]], safe)
  | Tipe.FixedArray t sz =>
      '(default_val, safe) ← default_value t;
      val ← wrap_chunks (S sz) 1 sz (Value.new_tuple (replicate 8 default_val));
      Some (val, safe)
  | Tipe.Struct fields =>
      ds ← mapM (λ f, default_value (sf_tipe f)) fields;
      v ← value_from_field_list (ds.*1);
      Some (v, forallb snd ds)
  | Tipe.Map _ _ | Tipe.Func _ _ _ | Tipe.Nominal _ _ => Some (Value.none, false)
  | Tipe.Any => Some (Value.none, true)
  | Tipe.Every => Some (Value.none, false)
  | Tipe.Option _ => Some (Value.new_tuple [Value.Int Uint256.zero], true)
  | Tipe.Union _ => Some (Value.none, false)
  end.
End default.
