(* ===== verification/TypesThms.v ===== *)
(** * Properties of types

    Subtyping as a relation and its agreement with [assignable] and
    [first_mismatch] on types without names, termination of [assignable] on
    recursive types without functions, and a type on which it does not
    terminate. *)

From Stdlib Require Import ZArith Lia.
From S2P Require Import Prelude U256 Pos Opcodes Crypto BufferTree Values StraightLine TupleTree Types.

#[local] Set Warnings "-clear-no-such-hyp".

(** ** Sizes and parts of types *)
Fixpoint tipe_size (t : Tipe.t) : nat :=
  match t with
  | Tipe.Tuple ts | Tipe.Union ts => S (sum_list (tipe_size <$> ts))
  | Tipe.Array e | Tipe.FixedArray e _ | Tipe.Option e => S (tipe_size e)
  | Tipe.Struct fs => S (sum_list ((λ f, tipe_size (sf_tipe f)) <$> fs))
  | Tipe.Func _ args ret => S (sum_list (tipe_size <$> args) + tipe_size ret)
  | Tipe.Map k v => S (tipe_size k + tipe_size v)
  | _ => 1
  end.

(** No type satisfying [bad] occurs anywhere inside. *)
Fixpoint free_of (bad : Tipe.t → bool) (t : Tipe.t) : bool :=
  negb (bad t) &&
  match t with
  | Tipe.Tuple ts | Tipe.Union ts => forallb (free_of bad) ts
  | Tipe.Array e | Tipe.FixedArray e _ | Tipe.Option e => free_of bad e
  | Tipe.Struct fs => forallb (λ f, free_of bad (sf_tipe f)) fs
  | Tipe.Func _ args ret => forallb (free_of bad) args && free_of bad ret
  | Tipe.Map k v => free_of bad k && free_of bad v
  | _ => true
  end.

Definition is_nominal (t : Tipe.t) : bool := match t with Tipe.Nominal _ _ => true | _ => false end.
Definition is_func (t : Tipe.t) : bool := match t with Tipe.Func _ _ _ => true | _ => false end.
Definition nominal_free := free_of is_nominal.
Definition func_free := free_of is_func.

Lemma sum_list_elem {A} (f : A → nat) l x : x ∈ l → f x <= sum_list (f <$> l).
Proof.
  induction 1 as [x l|x y l _ IH].
  - change (f x <= f x + sum_list (f <$> l)). lia.
  - change (f x <= f y + sum_list (f <$> l)). lia.
Qed.

Lemma forallb_elem {A} (p : A → bool) l x : forallb p l = true → x ∈ l → p x = true.
Proof.
  intros Hl Hx. rewrite forallb_forall in Hl. apply Hl. by apply list_elem_of_In.
Qed.

(** ** Subtyping *)
Definition base (t : Tipe.t) : bool :=
  match t with
  | Tipe.Void | Tipe.Uint | Tipe.Int | Tipe.Bool | Tipe.Bytes32 | Tipe.EthAddress | Tipe.Buffer
  | Tipe.Every => true
  | _ => false
  end.

(** [sub t u]: a value of type [u] can be used where a [t] is expected. *)
#[warnings="-register-all"]
Inductive sub : Tipe.t → Tipe.t → Prop :=
| sub_every t : sub t Tipe.Every
| sub_any t : t ≠ Tipe.Void → sub Tipe.Any t
| sub_base t : base t = true → sub t t
| sub_tuple ts us : Forall2 sub ts us → sub (Tipe.Tuple ts) (Tipe.Tuple us)
| sub_array t u : sub t u → sub (Tipe.Array t) (Tipe.Array u)
| sub_fixed t u n : sub t u → sub (Tipe.FixedArray t n) (Tipe.FixedArray u n)
| sub_struct fs gs :
    Forall2 (λ f g, sub (sf_tipe f) (sf_tipe g) ∧ sf_name f = sf_name g) fs gs →
    sub (Tipe.Struct fs) (Tipe.Struct gs)
| sub_func b c args brgs r q :
    (c = true → b = true) → Forall2 sub brgs args → sub r q →
    sub (Tipe.Func b args r) (Tipe.Func c brgs q)
| sub_map k l v w : sub k l → sub v w → sub (Tipe.Map k v) (Tipe.Map l w)
| sub_option t u : sub t u → sub (Tipe.Option t) (Tipe.Option u)
| sub_union ts us : Forall2 sub ts us → sub (Tipe.Union ts) (Tipe.Union us).

Lemma Forall2_refl_of {A} (R : A → A → Prop) l : Forall (λ x, R x x) l → Forall2 R l l.
Proof. induction 1; by constructor. Qed.

Lemma sub_refl t : nominal_free t = true → sub t t.
Proof.
  unfold nominal_free.
  induction t as [| | | | | | |ts IH|e IH|e n IH|fs IH|p i|b args ret IHa IHr|k v IHk IHv| | |e IH|ts IH]
    using Tipe.nested_ind; intros Hn; cbn in Hn; try done; try (by apply sub_base); try (by apply sub_any).
  - apply sub_tuple, Forall2_refl_of. rewrite list.Forall_forall in *. intros x Hx.
    apply IH; [done|]. by eapply forallb_elem.
  - apply sub_array. by apply IH.
  - apply sub_fixed. by apply IH.
  - apply sub_struct, Forall2_refl_of. rewrite list.Forall_forall in *. intros x Hx. split; [|done].
    apply IH; [done|]. by eapply (forallb_elem (λ f, free_of is_nominal (sf_tipe f))).
  - apply andb_prop in Hn as [Hn1 Hn2]. apply sub_func; [done| |by apply IHr].
    apply Forall2_refl_of. rewrite list.Forall_forall in *. intros x Hx.
    apply IHa; [done|]. by eapply forallb_elem.
  - apply andb_prop in Hn as [Hn1 Hn2]. apply sub_map; auto.
  - apply sub_option. by apply IH.
  - apply sub_union, Forall2_refl_of. rewrite list.Forall_forall in *. intros x Hx.
    apply IH; [done|]. by eapply forallb_elem.
Qed.

Lemma Forall2_trans_mid {A} (R : A → A → Prop) l1 l2 l3 :
  Forall (λ y, ∀ x z, R x y → R y z → R x z) l2 → Forall2 R l1 l2 → Forall2 R l2 l3 → Forall2 R l1 l3.
Proof.
  intros Hm H12. revert l3. induction H12 as [|x y l1 l2 Hxy _ IH]; intros l3 H23.
  - inversion H23; subst. constructor.
  - inversion H23 as [|? z ? l3' Hyz H23']; subst. apply Forall_cons_iff in Hm as [Hm1 Hm2].
    constructor; [by eapply Hm1|by apply IH].
Qed.

(** Closes the cases of a composition in which one side is a base type, [Any]
    or [Every]. *)
Ltac sub_trivial :=
  first [ done | by apply sub_every | by apply sub_any | by apply sub_base ].

Lemma sub_trans u : ∀ t w, sub t u → sub u w → sub t w.
Proof.
  induction u as [| | | | | | |ts IH|e IH|e n IH|fs IH|p i|b args ret IHa IHr|k v IHk IHv| | |e IH|ts IH]
    using Tipe.nested_ind; intros t w Htu Huw; inversion Huw; subst; try sub_trivial;
    inversion Htu; subst; try sub_trivial.
  - apply sub_tuple. by eapply Forall2_trans_mid.
  - apply sub_array. by eapply IH.
  - apply sub_fixed. by eapply IH.
  - apply sub_struct. eapply Forall2_trans_mid; [|done..]. eapply Forall_impl; [|exact IH].
    intros y Hy x z [? ?] [? ?]. split; [by eapply Hy|congruence].
  - apply sub_func; [auto| |by eapply IHr]. by eapply Forall2_trans_mid.
  - apply sub_map; [by eapply IHk|by eapply IHv].
  - apply sub_option. by eapply IH.
  - apply sub_union. by eapply Forall2_trans_mid.
Qed.

Lemma Forall2_antisym {A} (R : A → A → Prop) l1 l2 :
  Forall (λ x, ∀ y, R x y → R y x → x = y) l1 → Forall2 R l1 l2 → Forall2 R l2 l1 → l1 = l2.
Proof.
  intros Hl H12. induction H12 as [|x y l1 l2 Hxy _ IH]; intros H21; [done|].
  inversion H21; subst. apply Forall_cons_iff in Hl as [Hx Hl]. f_equal; [by apply Hx|by apply IH].
Qed.

Lemma sub_antisym t : ∀ u, sub t u → sub u t → t = u.
Proof.
  induction t as [| | | | | | |ts IH|e IH|e n IH|fs IH|p i|b args ret IHa IHr|k v IHk IHv| | |e IH|ts IH]
    using Tipe.nested_ind; intros u Htu Hut; inversion Htu; subst; try done; inversion Hut; subst; try done.
  - f_equal. by eapply Forall2_antisym.
  - f_equal. by apply IH.
  - f_equal. by apply IH.
  - f_equal. eapply Forall2_antisym; [|done..]. eapply Forall_impl; [|exact IH].
    intros [n1 t1] Hx [n2 t2] [? ?] [? ?]. cbn in *. f_equal; [done|]. by apply Hx.
  - f_equal.
    + destruct b, c; auto. symmetry. auto.
    + by eapply Forall2_antisym.
    + by apply IHr.
  - f_equal; [by apply IHk|by apply IHv].
  - f_equal. by apply IH.
  - f_equal. by eapply Forall2_antisym.
Qed.

(** ** [assignable] decides subtyping *)

(** A fuelled computation whose result decides [P]. *)
Definition decides (o : option bool) (P : Prop) : Prop := ∃ r, o = Some r ∧ (r = true ↔ P).

Lemma decides_true P : P → decides (Some true) P.
Proof. intros. by exists true. Qed.
Lemma decides_false (P : Prop) : ¬ P → decides (Some false) P.
Proof. intros. exists false. by split. Qed.
Lemma decides_bool b P : (b = true ↔ P) → decides (Some b) P.
Proof. intros. by exists b. Qed.

Lemma decides_iff o P Q : (P ↔ Q) → decides o P → decides o Q.
Proof. intros HPQ (r & -> & Hr). exists r. split; [done|]. by rewrite Hr. Qed.

Lemma decides_and a b P Q : decides a P → (P → decides b Q) → decides (and_then a b) (P ∧ Q).
Proof.
  intros (r & -> & Hr) Hb. destruct r; cbn.
  - assert P as HP by by apply Hr. destruct (Hb HP) as (q & -> & Hq). exists q. split; [done|]. rewrite Hq. tauto.
  - exists false. split; [done|]. split; [done|]. intros [HP _]. by apply Hr.
Qed.

Lemma decides_vectors {A} (f : A → A → option bool) R l1 l2 :
  (∀ x y, x ∈ l1 → y ∈ l2 → decides (f x y) (R x y)) → decides (vectors_assignable f l1 l2) (Forall2 R l1 l2).
Proof.
  intros Hf. unfold vectors_assignable. destruct (Nat.eqb_spec (length l1) (length l2)) as [Hl|Hl].
  - revert l2 Hl Hf. induction l1 as [|x l1 IH]; intros [|y l2] Hl Hf; try done.
    { by apply decides_true. }
    cbn [all2]. apply (decides_iff _ (R x y ∧ Forall2 R l1 l2)); [split; [by intros [? ?]; constructor|by inversion 1]|].
    apply decides_and.
    + apply Hf; constructor.
    + intros _. apply IH; [by injection Hl|]. intros x' y' Hx Hy. apply Hf; by constructor.
  - apply decides_false. by intros ?%Forall2_length.
Qed.

(** The parts of a type are smaller and contain no name either. *)
Ltac part_size :=
  repeat match goal with
  | H : ?x ∈ ?l |- _ =>
      first [ pose proof (sum_list_elem tipe_size l x H)
            | pose proof (sum_list_elem (λ f, tipe_size (sf_tipe f)) l x H) ]; clear H
  end; cbn [tipe_size] in *; lia.

Lemma representation_id tt t : is_nominal t = false → get_representation tt t = Some (Ok t).
Proof. by destruct t. Qed.

Lemma nominal_free_root t : nominal_free t = true → is_nominal t = false.
Proof. by destruct t. Qed.

(** Right-hand sides with another outermost constructor are not subtypes. *)
Ltac other_constructor rhs :=
  destruct rhs; try discriminate; try (apply decides_false; by inversion 1).

Lemma nominal_free_func b args ret : nominal_free (Tipe.Func b args ret) = true →
  forallb nominal_free args = true ∧ nominal_free ret = true.
Proof. exact (andb_prop (forallb nominal_free args) (nominal_free ret)). Qed.

Lemma nominal_free_map k v : nominal_free (Tipe.Map k v) = true → nominal_free k = true ∧ nominal_free v = true.
Proof. exact (andb_prop (nominal_free k) (nominal_free v)). Qed.

Lemma assignable_sub n : ∀ fuel tt seen self rhs,
  tipe_size self + tipe_size rhs <= n → n < fuel → nominal_free self = true → nominal_free rhs = true →
  decides (assignable fuel tt seen self rhs) (sub self rhs).
Proof.
  induction n as [|n IH]; intros fuel tt seen self rhs Hs Hf Hself Hrhs; [destruct self; cbn in Hs; lia|].
  destruct fuel as [|fuel]; [lia|]. cbn [assignable].
  destruct (type_eq rhs Tipe.Every) eqn:Ee.
  { apply type_eq_spec in Ee as ->. apply decides_true, sub_every. }
  assert (rhs ≠ Tipe.Every) as Hne by (rewrite <- type_eq_spec; congruence).
  assert (∀ x y, tipe_size x + tipe_size y <= n → nominal_free x = true → nominal_free y = true →
    decides (assignable fuel tt seen x y) (sub x y)) as IH' by (intros; apply IH; done || lia).
  assert (base self = true → decides (Some (type_eq self rhs)) (sub self rhs)) as Hbase.
  { intros Hb. apply decides_bool. rewrite type_eq_spec. split; [intros <-; by apply sub_base|].
    inversion 1; subst; done. }
  destruct self as [| | | | | | |ts|e|e n'|fs|p i|b args ret|k v| | |e|ts]; try (by apply Hbase); try discriminate.
  - rewrite representation_id by (by apply nominal_free_root). cbn [mbind option_bind]. other_constructor rhs.
    eapply decides_iff; [|apply decides_vectors; intros x y Hx Hy; apply IH'].
    + split; [apply sub_tuple|by inversion 1].
    + part_size.
    + exact (forallb_elem nominal_free _ _ Hself Hx).
    + exact (forallb_elem nominal_free _ _ Hrhs Hy).
  - rewrite representation_id by (by apply nominal_free_root). cbn [mbind option_bind]. other_constructor rhs.
    eapply decides_iff; [|apply IH'; [part_size|done..]]. split; [apply sub_array|by inversion 1].
  - rewrite representation_id by (by apply nominal_free_root). cbn [mbind option_bind]. other_constructor rhs.
    eapply decides_iff; [|apply decides_and; [apply decides_bool, Nat.eqb_eq|intros _; apply IH'; [part_size|done..]]].
    split; [intros [-> ?]; by apply sub_fixed|by inversion 1].
  - rewrite representation_id by (by apply nominal_free_root). cbn [mbind option_bind]. other_constructor rhs.
    eapply decides_iff; [|apply decides_vectors; intros x y Hx Hy; apply decides_and;
      [apply IH'|intros _; apply decides_bool, bool_decide_eq_true]].
    + split; [apply sub_struct|by inversion 1].
    + part_size.
    + exact (forallb_elem (λ f, nominal_free (sf_tipe f)) _ _ Hself Hx).
    + exact (forallb_elem (λ f, nominal_free (sf_tipe f)) _ _ Hrhs Hy).
  - other_constructor rhs. apply nominal_free_func in Hself as [Hself1 Hself2], Hrhs as [Hrhs1 Hrhs2].
    eapply decides_iff; [|apply decides_and; [apply decides_and;
      [apply decides_bool|intros _; apply decides_vectors; intros x y Hx Hy; apply IH']|intros _; apply IH'; [part_size|done..]]].
    + split; [intros [[? ?] ?]; by apply sub_func|by inversion 1].
    + destruct b, impure; naive_solver.
    + part_size.
    + exact (forallb_elem nominal_free _ _ Hrhs1 Hx).
    + exact (forallb_elem nominal_free _ _ Hself1 Hy).
  - other_constructor rhs. apply nominal_free_map in Hself as [Hself1 Hself2], Hrhs as [Hrhs1 Hrhs2].
    rewrite representation_id by (by apply nominal_free_root). cbn [mbind option_bind].
    eapply decides_iff; [|apply decides_and; [apply IH'; [part_size|done..]|intros _; apply IH'; [part_size|done..]]].
    split; [intros [? ?]; by apply sub_map|by inversion 1].
  - apply decides_bool. rewrite negb_true_iff, <- not_true_iff_false, type_eq_spec.
    split; [apply sub_any|by inversion 1].
  - rewrite representation_id by (by apply nominal_free_root). cbn [mbind option_bind]. other_constructor rhs.
    eapply decides_iff; [|apply IH'; [part_size|done..]]. split; [apply sub_option|by inversion 1].
  - rewrite representation_id by (by apply nominal_free_root). cbn [mbind option_bind]. other_constructor rhs.
    eapply decides_iff; [|apply decides_vectors; intros x y Hx Hy; apply IH'].
    + split; [apply sub_union|by inversion 1].
    + part_size.
    + exact (forallb_elem nominal_free _ _ Hself Hx).
    + exact (forallb_elem nominal_free _ _ Hrhs Hy).
Qed.

(** ** [first_mismatch] finds something exactly when [assignable] says no *)

Definition mdecides (o : option (option TypeMismatch)) (P : Prop) : Prop := ∃ r, o = Some r ∧ (r = None ↔ P).

Lemma mdecides_none (P : Prop) : P → mdecides (Some None) P.
Proof. intros. by exists None. Qed.
Lemma mdecides_some m (P : Prop) : ¬ P → mdecides (Some (Some m)) P.
Proof. intros. exists (Some m). by split. Qed.
Lemma mdecides_iff o P Q : (P ↔ Q) → mdecides o P → mdecides o Q.
Proof. intros HPQ (r & -> & Hr). exists r. split; [done|]. by rewrite Hr. Qed.
Lemma mdecides_wrap o P c : mdecides o P → mdecides (m ← o; Some (option_map c m)) P.
Proof. intros (r & -> & Hr). exists (option_map c r). split; [done|]. rewrite <- Hr. by destruct r. Qed.

(** The relation holds at every position both lists have. *)
Definition zip_all {A} (R : A → A → Prop) (l1 l2 : list A) : Prop :=
  ∀ j x y, l1 !! j = Some x → l2 !! j = Some y → R x y.

Lemma zip_all_cons {A} (R : A → A → Prop) x y l1 l2 :
  zip_all R (x :: l1) (y :: l2) ↔ R x y ∧ zip_all R l1 l2.
Proof.
  split.
  - intros Hz. split; [by apply (Hz 0)|]. intros j. apply (Hz (S j)).
  - intros [Hx Hz] [|j] x' y' H1 H2; [by simplify_eq/=|]. by eapply (Hz j).
Qed.

Lemma Forall2_zip {A} (R : A → A → Prop) l1 l2 : Forall2 R l1 l2 ↔ length l1 = length l2 ∧ zip_all R l1 l2.
Proof.
  split.
  - intros HF. split; [by eapply Forall2_length|]. intros j x y. by eapply Forall2_lookup_lr.
  - intros [Hl Hz]. apply Forall2_same_length_lookup. done.
Qed.

Lemma length_mismatch_none {A} (v1 v2 : list A) c : length_mismatch v1 v2 c = None ↔ length v1 = length v2.
Proof. unfold length_mismatch. by destruct (Nat.eqb_spec (length v1) (length v2)). Qed.

Lemma first_pair_spec {A} (f : A → A → option (option TypeMismatch)) wrap om R l1 : ∀ l2 idx,
  (∀ x y, x ∈ l1 → y ∈ l2 → mdecides (f x y) (R x y)) →
  mdecides (first_pair f wrap (Some om) idx l1 l2) (om = None ∧ zip_all R l1 l2).
Proof.
  induction l1 as [|x l1 IH]; intros [|y l2] idx Hf; cbn [first_pair];
    try (by exists om; split; [done|]; split; [intros ->; split; [done|intros [|j]; done]|intros [? _]]).
  destruct (Hf x y) as (r & Hr & HR); [by constructor..|]. rewrite Hr. cbn [mbind option_bind].
  destruct r as [m|].
  - apply mdecides_some. rewrite zip_all_cons. intros [_ [Hx _]]. by apply HR in Hx.
  - fold (first_pair f wrap (Some om)). eapply mdecides_iff; [|apply IH].
    + rewrite zip_all_cons. assert (R x y) by by apply HR. tauto.
    + intros; apply Hf; by constructor.
Qed.

Lemma fields_mismatch_spec f R fs gs :
  (∀ x y, x ∈ fs → y ∈ gs → mdecides (f (sf_tipe x) (sf_tipe y)) (R (sf_tipe x) (sf_tipe y))) →
  mdecides (field_vectors_mismatch f fs gs) (Forall2 (λ x y, R (sf_tipe x) (sf_tipe y) ∧ sf_name x = sf_name y) fs gs).
Proof.
  intros Hf. unfold field_vectors_mismatch. eapply mdecides_iff; [symmetry; apply Forall2_zip|].
  generalize (length_mismatch_none fs gs MLength). generalize (length_mismatch fs gs MLength).
  generalize (length fs = length gs). intros P om HP.
  eapply mdecides_iff; [rewrite <- HP; reflexivity|]. clear HP P.
  revert gs Hf. induction fs as [|x fs IH]; intros [|y gs] Hf;
    try (by exists om; split; [done|]; split; [intros ->; split; [done|intros [|j]; done]|intros [? _]]).
  destruct (Hf x y) as (r & Hr & HR); [by constructor..|]. rewrite Hr. cbn [mbind option_bind].
  destruct r as [m|].
  - apply mdecides_some. rewrite zip_all_cons. intros [_ [[Hx _] _]]. by apply HR in Hx.
  - case_bool_decide as Hn.
    + eapply mdecides_iff; [|apply IH].
      * rewrite zip_all_cons. assert (R (sf_tipe x) (sf_tipe y)) by by apply HR. tauto.
      * intros; apply Hf; by constructor.
    + apply mdecides_some. rewrite zip_all_cons. tauto.
Qed.

Ltac other_mismatch rhs :=
  destruct rhs; try discriminate; try (apply mdecides_some; by inversion 1).

Lemma mismatch_sub n : ∀ fuel tt seen self rhs,
  tipe_size self + tipe_size rhs <= n → n < fuel → nominal_free self = true → nominal_free rhs = true →
  func_free self = true → mdecides (first_mismatch fuel tt seen self rhs) (sub self rhs).
Proof.
  induction n as [|n IH]; intros fuel tt seen self rhs Hs Hf Hself Hrhs Hff; [destruct self; cbn in Hs; lia|].
  destruct fuel as [|fuel]; [lia|]. cbn [first_mismatch].
  destruct (type_eq rhs Tipe.Every) eqn:Ee.
  { apply type_eq_spec in Ee as ->. apply mdecides_none, sub_every. }
  assert (rhs ≠ Tipe.Every) as Hne by (rewrite <- type_eq_spec; congruence).
  assert (∀ x y, tipe_size x + tipe_size y <= n → nominal_free x = true → nominal_free y = true →
    func_free x = true → mdecides (first_mismatch fuel tt seen x y) (sub x y)) as IH' by (intros; apply IH; done || lia).
  assert (base self = true → mdecides (if type_eq self rhs then Some None else Some (Some (MType self rhs))) (sub self rhs)) as Hbase.
  { intros Hb. destruct (type_eq self rhs) eqn:E.
    - apply type_eq_spec in E as <-. by apply mdecides_none, sub_base.
    - apply mdecides_some. assert (self ≠ rhs) by (rewrite <- type_eq_spec; congruence). inversion 1; subst; done. }
  destruct self as [| | | | | | |ts|e|e n'|fs|p i|b args ret|k v| | |e|ts]; try (by apply Hbase); try discriminate.
  - rewrite representation_id by (by apply nominal_free_root). cbn [mbind option_bind]. other_mismatch rhs.
    eapply mdecides_iff; [|apply first_pair_spec; intros x y Hx Hy; apply IH'].
    + rewrite length_mismatch_none, <- Forall2_zip. split; [apply sub_tuple|by inversion 1].
    + part_size.
    + exact (forallb_elem nominal_free _ _ Hself Hx).
    + exact (forallb_elem nominal_free _ _ Hrhs Hy).
    + exact (forallb_elem func_free _ _ Hff Hx).
  - rewrite representation_id by (by apply nominal_free_root). cbn [mbind option_bind]. other_mismatch rhs.
    apply mdecides_wrap. eapply mdecides_iff; [|apply IH'; [part_size|done..]]. split; [apply sub_array|by inversion 1].
  - rewrite representation_id by (by apply nominal_free_root). cbn [mbind option_bind]. other_mismatch rhs.
    destruct (IH' e rhs) as (r & Hr & HR); [part_size|done..|]. rewrite Hr. cbn [mbind option_bind].
    destruct r as [m|]; [apply mdecides_some; inversion 1; subst; by assert (Some m = None) by by apply HR|].
    destruct (Nat.eqb_spec n' size) as [->|Hn]; [apply mdecides_none, sub_fixed; by apply HR|].
    apply mdecides_some. by inversion 1.
  - rewrite representation_id by (by apply nominal_free_root). cbn [mbind option_bind]. other_mismatch rhs.
    eapply mdecides_iff; [|apply (fields_mismatch_spec _ sub); intros x y Hx Hy; apply IH'].
    + split; [apply sub_struct|by inversion 1].
    + part_size.
    + exact (forallb_elem (λ f, nominal_free (sf_tipe f)) _ _ Hself Hx).
    + exact (forallb_elem (λ f, nominal_free (sf_tipe f)) _ _ Hrhs Hy).
    + exact (forallb_elem (λ f, func_free (sf_tipe f)) _ _ Hff Hx).
  - other_mismatch rhs. apply nominal_free_map in Hself as [Hself1 Hself2], Hrhs as [Hrhs1 Hrhs2].
    apply (andb_prop (func_free k) (func_free v)) in Hff as [Hff1 Hff2].
    rewrite representation_id by (by apply nominal_free_root). cbn [mbind option_bind].
    destruct (IH' k rhs1) as (r & Hr & HR); [part_size|done..|]. rewrite Hr. cbn [mbind option_bind].
    destruct r as [m|]; [apply mdecides_some; inversion 1; subst; by assert (Some m = None) by by apply HR|].
    apply mdecides_wrap. eapply mdecides_iff; [|apply IH'; [part_size|done..]].
    split; [intros; apply sub_map; [by apply HR|done]|by inversion 1].
  - destruct (type_eq rhs Tipe.Void) eqn:E.
    + apply type_eq_spec in E as ->. apply mdecides_some. by inversion 1.
    + apply mdecides_none, sub_any. rewrite <- type_eq_spec. congruence.
  - rewrite representation_id by (by apply nominal_free_root). cbn [mbind option_bind]. other_mismatch rhs.
    apply mdecides_wrap. eapply mdecides_iff; [|apply IH'; [part_size|done..]]. split; [apply sub_option|by inversion 1].
  - rewrite representation_id by (by apply nominal_free_root). cbn [mbind option_bind]. other_mismatch rhs.
    eapply mdecides_iff; [|apply first_pair_spec; intros x y Hx Hy; apply IH'].
    + rewrite length_mismatch_none, <- Forall2_zip. split; [apply sub_union|by inversion 1].
    + part_size.
    + exact (forallb_elem nominal_free _ _ Hself Hx).
    + exact (forallb_elem nominal_free _ _ Hrhs Hy).
    + exact (forallb_elem func_free _ _ Hff Hx).
Qed.

(** ** Chains of names *)

Lemma not_NoDup {A} `{EqDecision A} (l : list A) : ¬ NoDup l →
  ∃ i j x, i < j ∧ l !! i = Some x ∧ l !! j = Some x.
Proof.
  induction l as [|x l IH]; intros Hl; [by destruct Hl; constructor|].
  destruct (decide (x ∈ l)) as [Hx|Hx].
  - apply list_elem_of_lookup in Hx as [j Hj]. exists 0, (S j), x. split_and!; [lia|done|done].
  - destruct IH as (i & j & y & Hij & Hi & Hj); [intros Hnd; apply Hl; by constructor|].
    exists (S i), (S j), y. split_and!; [lia|done|done].
Qed.

Abbreviation key := (list string * nat)%type.
Definition named (k : key) : Tipe.t := Tipe.Nominal k.1 k.2.

(** The name after [n] steps along aliases. *)
Fixpoint follow (tt : TypeTree) (n : nat) (k : key) : option key :=
  match n with
  | O => Some k
  | S n =>
      match tt !! k with
      | Some (Tipe.Nominal p i, _) => follow tt n (p, i)
      | _ => None
      end
  end.

Lemma representation_None n tt k : representation_loop n tt (named k) = None ↔ is_Some (follow tt n k).
Proof.
  revert k. induction n as [|n IH]; intros [p i]; cbn; [by split|].
  destruct (tt !! (p, i)) as [[t ?]|]; [|by split; [|intros [? ?]]].
  destruct t as [| | | | | | |ts|e|e m|fs|p' i'|b args ret|kt vt| | |e|ts];
    try (destruct n; cbn; (split; [done|by intros [? ?]])).
  exact (IH (p', i')).
Qed.

Lemma follow_add tt n m k : follow tt (n + m) k = follow tt n k ≫= follow tt m.
Proof.
  revert k. induction n as [|n IH]; intros k; [done|]. cbn [Nat.add follow].
  destruct (tt !! k) as [[[] ?]|]; try done.
Qed.

Lemma follow_le tt n m k : m <= n → is_Some (follow tt n k) → is_Some (follow tt m k).
Proof.
  intros Hm. replace n with (m + (n - m)) by lia. rewrite follow_add. by destruct (follow tt m k); [|intros [? ?]].
Qed.

(** A chain that comes back to a name never ends. *)
Lemma follow_cycle tt k d k' : 0 < d → follow tt d k' = Some k' → ∀ i, follow tt i k = Some k' →
  ∀ n, is_Some (follow tt n k).
Proof.
  intros Hd Hc i Hi n.
  assert (∀ j, follow tt (j * d) k' = Some k') as Hj.
  { induction j as [|j IHj]; [done|]. cbn [Nat.mul]. rewrite follow_add, Hc. exact IHj. }
  apply (follow_le tt (i + n * d)); [nia|]. rewrite follow_add, Hi. cbn. rewrite Hj. by eexists.
Qed.

Lemma follow_dom tt n k j k' : is_Some (follow tt n k) → j < n → follow tt j k = Some k' → k' ∈ dom tt.
Proof.
  intros Hn Hj Hk. apply (follow_le tt n (j + 1)) in Hn; [|lia]. rewrite follow_add, Hk in Hn. cbn in Hn.
  apply elem_of_dom. destruct (tt !! k') as [d|] eqn:E in Hn; [by exists d|by destruct Hn].
Qed.

(** If the loop of [get_representation] does not end within one step more than
    there are names, it never ends. *)
Lemma representation_fuel tt t : get_representation tt t = None → ∀ n, representation_loop n tt t = None.
Proof.
  destruct (is_nominal t) eqn:En; [|by intros E; rewrite representation_id in E].
  destruct t as [| | | | | | |ts|e|e m|fs|p i|b args ret|kt vt| | |e|ts]; try discriminate.
  unfold get_representation. intros Hnone n. set (k := (p, i)). change (Tipe.Nominal p i) with (named k) in *.
  apply representation_None. apply representation_None in Hnone.
  assert (∀ j, j <= size tt → ∃ k', follow tt j k = Some k' ∧ k' ∈ dom tt) as Hchain.
  { intros j Hj. destruct (follow_le tt (S (size tt)) j k) as [k' Hk']; [lia|done|].
    exists k'. split; [done|]. eapply follow_dom; [exact Hnone| |exact Hk']. lia. }
  set (chain := (λ j, default k (follow tt j k)) <$> seq 0 (S (size tt))).
  destruct (decide (NoDup chain)) as [Hnd|Hnd].
  - exfalso. assert (chain ⊆+ elements (dom tt)) as Hlen%submseteq_length.
    { apply NoDup_submseteq; [done|]. intros x Hx. apply list_elem_of_fmap in Hx as (j & -> & Hj).
      apply elem_of_seq in Hj. destruct (Hchain j) as (k' & -> & ?); [lia|]. by apply elem_of_elements. }
    unfold chain in Hlen. rewrite length_fmap, length_seq in Hlen.
    assert (length (elements (dom tt)) = size tt) by exact (size_dom tt). lia.
  - apply not_NoDup in Hnd as (i' & j' & x & Hij & Hi & Hj). unfold chain in Hi, Hj.
    rewrite list_lookup_fmap in Hi, Hj. apply fmap_Some in Hi as (i1 & Hi & Hxi), Hj as (j1 & Hj & Hxj).
    apply lookup_seq in Hi as [-> Hi], Hj as [-> Hj]. cbn [Nat.add] in *.
    destruct (Hchain i') as (ki & Hki & _); [lia|]. destruct (Hchain j') as (kj & Hkj & _); [lia|].
    rewrite Hki in Hxi. rewrite Hkj in Hxj. cbn in Hxi, Hxj. subst ki kj.
    eapply (follow_cycle tt k (j' - i') x); [lia| |exact Hki].
    replace j' with (i' + (j' - i')) in Hkj by lia. rewrite follow_add, Hki in Hkj. exact Hkj.
Qed.

(** ** Termination of [assignable] on types without functions *)

(** With enough fuel the result is there, and always the same. *)
Definition converges (g : nat → option bool) : Prop := ∃ f0 r, ∀ f, f0 <= f → g f = Some r.

Lemma converges_const b : converges (λ _, Some b).
Proof. by exists 0, b. Qed.
Lemma converges_S g g' : (∀ f, g (S f) = g' f) → converges g' → converges g.
Proof.
  intros Hg (f0 & r & Hr). exists (S f0), r. intros [|f] Hf; [lia|]. rewrite Hg. apply Hr. lia.
Qed.
Lemma converges_and a b : converges a → converges b → converges (λ f, and_then (a f) (b f)).
Proof.
  intros (fa & ra & Ha) (fb & rb & Hb). exists (fa + fb), (ra && rb). intros f Hf.
  rewrite Ha, Hb by lia. by destruct ra.
Qed.
Lemma converges_vectors {A} (g : nat → A → A → option bool) l1 l2 :
  (∀ x y, x ∈ l1 → y ∈ l2 → converges (λ f, g f x y)) → converges (λ f, vectors_assignable (g f) l1 l2).
Proof.
  intros Hg. unfold vectors_assignable. destruct (Nat.eqb (length l1) (length l2)); [|apply converges_const].
  revert l2 Hg. induction l1 as [|x l1 IH]; intros [|y l2] Hg; try apply converges_const.
  cbn [all2]. apply converges_and; [apply Hg; constructor|]. apply IH. intros; apply Hg; by constructor.
Qed.

(** The immediate components of a type. *)
Definition parts (t : Tipe.t) : list Tipe.t :=
  match t with
  | Tipe.Tuple ts | Tipe.Union ts => ts
  | Tipe.Array e | Tipe.FixedArray e _ | Tipe.Option e => [e]
  | Tipe.Struct fs => sf_tipe <$> fs
  | Tipe.Func _ args ret => args ++ [ret]
  | Tipe.Map k v => [k; v]
  | _ => []
  end.

Lemma parts_smaller t x : x ∈ parts t → tipe_size x < tipe_size t.
Proof.
  destruct t as [| | | | | | |ts|e|e n|fs|p i|b args ret|k v| | |e|ts]; cbn [parts tipe_size]; intros Hx;
    try (by apply elem_of_nil in Hx); try (apply list_elem_of_singleton in Hx as ->; lia).
  - pose proof (sum_list_elem tipe_size ts x Hx). lia.
  - apply list_elem_of_fmap in Hx as (f & -> & Hf).
    pose proof (sum_list_elem (λ f, tipe_size (sf_tipe f)) fs f Hf). cbn in *. lia.
  - apply elem_of_app in Hx as [Hx|Hx]; [pose proof (sum_list_elem tipe_size args x Hx); lia|].
    apply list_elem_of_singleton in Hx as ->. lia.
  - apply elem_of_cons in Hx as [->|Hx]; [lia|]. apply list_elem_of_singleton in Hx as ->. lia.
  - pose proof (sum_list_elem tipe_size ts x Hx). lia.
Qed.

Section termination.
Context (tt : TypeTree) (U : list Tipe.t).
Hypothesis U_parts : ∀ t x, t ∈ U → x ∈ parts t → x ∈ U.
Hypothesis U_rep : ∀ t r, t ∈ U → get_representation tt t = Some (Ok r) → r ∈ U.
Hypothesis U_resolves : ∀ t, t ∈ U → get_representation tt t ≠ None.
Hypothesis U_no_func : ∀ t, t ∈ U → is_func t = false.

Definition seen_ok (seen : seen_t) : Prop := NoDup seen ∧ ∀ p, p ∈ seen → p ∈ list_prod U U.

Lemma seen_bound seen : seen_ok seen → length seen <= length U * length U.
Proof.
  intros [Hnd Hin]. rewrite <- length_prod. apply submseteq_length. by apply NoDup_submseteq.
Qed.

Lemma seen_insert seen l r seen' : seen_ok seen → l ∈ U → r ∈ U → insert seen (l, r) = Some seen' →
  seen_ok seen' ∧ length seen' = S (length seen).
Proof.
  intros [Hnd Hin] Hl Hr Hi. unfold insert in Hi. case_bool_decide as Hs; [done|]. simplify_eq. split; [|done].
  split; [by constructor|]. intros p [->|Hp]%elem_of_cons; [|by apply Hin].
  apply list_elem_of_In, in_prod; by apply list_elem_of_In.
Qed.

(** The right-hand side is replaced by its representation; [k] looks at it. *)
Lemma converges_rep rhs (k : nat → outcome CompileError Tipe.t → option bool) :
  rhs ∈ U → (∀ r, get_representation tt rhs = Some r → (∀ t, r = Ok t → t ∈ U) → converges (λ f, k f r)) →
  converges (λ f, r ← get_representation tt rhs; k f r).
Proof.
  intros Hr Hk. destruct (get_representation tt rhs) as [r|] eqn:E; [|by destruct (U_resolves rhs)].
  apply Hk; [done|]. intros t ->. by eapply U_rep.
Qed.

Ltac look_at_rep :=
  match goal with
  | |- converges (λ f, get_representation tt ?x ≫= @?k f) => apply (converges_rep x k); [done|]; cbv beta
  end.

(** One call: it converges when the calls on the components of [self], and the
    call after a new pair has been recorded, do. *)
Lemma assignable_step self rhs seen :
  self ∈ U → rhs ∈ U →
  (∀ x y, x ∈ parts self → y ∈ U → converges (λ f, assignable f tt seen x y)) →
  (∀ l r seen', l ∈ U → r ∈ U → insert seen (l, r) = Some seen' → converges (λ f, assignable f tt seen' l r)) →
  converges (λ f, assignable f tt seen self rhs).
Proof.
  intros Hs Hr Hparts Hnew. eapply converges_S; [intros f; cbn [assignable]; reflexivity|]. cbv beta zeta.
  destruct (type_eq rhs Tipe.Every); [apply converges_const|].
  destruct self as [| | | | | | |ts|e|e n|fs|p i|b args ret|k v| | |e|ts]; try apply converges_const.
  - look_at_rep.
    intros r _ Hu. destruct r as [[]| |]; try apply converges_const. apply converges_vectors.
    intros x y Hx Hy. apply Hparts; [done|]. eapply U_parts; [by apply Hu|done].
  - look_at_rep.
    intros r _ Hu. destruct r as [[]| |]; try apply converges_const.
    apply Hparts; [constructor|]. eapply U_parts; [by apply Hu|constructor].
  - look_at_rep.
    intros r _ Hu. destruct r as [[]| |]; try apply converges_const.
    apply (converges_and (λ _, Some _)); [apply converges_const|].
    apply Hparts; [constructor|]. eapply U_parts; [by apply Hu|constructor].
  - look_at_rep.
    intros r _ Hu. destruct r as [[]| |]; try apply converges_const.
    apply (converges_vectors (λ f f1 f2, and_then (assignable f tt seen (sf_tipe f1) (sf_tipe f2))
             (Some (bool_decide (sf_name f1 = sf_name f2))))).
    intros x y Hx Hy. apply (converges_and _ (λ _, Some _)); [|apply converges_const].
    apply Hparts; [by apply list_elem_of_fmap_2|]. eapply U_parts; [by apply Hu|by apply list_elem_of_fmap_2].
  - look_at_rep.
    intros l _ Hul. look_at_rep. intros r _ Hur.
    destruct l as [l| |], r as [r| |]; try apply converges_const.
    destruct (insert seen (l, r)) eqn:Hi; [|apply converges_const]. apply Hnew; auto.
  - by apply U_no_func in Hs.
  - destruct rhs as [| | | | | | | | | | | | |k2 v2| | | |]; try apply converges_const.
    assert (k2 ∈ U) by (eapply U_parts; [exact Hr|constructor]).
    assert (v2 ∈ U) by (eapply U_parts; [exact Hr|do 2 constructor]).
    look_at_rep.
    intros r _ Hu. destruct r; try apply converges_const.
    apply (converges_and (λ f, assignable f tt seen k k2)); apply Hparts; auto; [constructor|do 2 constructor].
  - look_at_rep.
    intros r _ Hu. destruct r as [[]| |]; try apply converges_const.
    apply Hparts; [constructor|]. eapply U_parts; [by apply Hu|constructor].
  - look_at_rep.
    intros r _ Hu. destruct r as [[]| |]; try apply converges_const. apply converges_vectors.
    intros x y Hx Hy. apply Hparts; [done|]. eapply U_parts; [by apply Hu|done].
Qed.

Lemma assignable_converges room : ∀ sz self rhs seen,
  seen_ok seen → length U * length U <= length seen + room → tipe_size self < sz → self ∈ U → rhs ∈ U →
  converges (λ f, assignable f tt seen self rhs).
Proof.
  induction room as [|room IHroom]; intros sz; induction sz as [|sz IHsz];
    intros self rhs seen Hseen Hroom Hsz Hs Hr; [lia| |lia|].
  all: apply assignable_step; [done..| |].
  all: try (intros x y Hx Hy; apply IHsz; eauto; apply parts_smaller in Hx; lia).
  all: intros l r seen' Hl Hr' Hi.
  - destruct (seen_insert seen l r seen') as [Hok Hlen]; [done..|]. apply seen_bound in Hok. lia.
  - destruct (seen_insert seen l r seen') as [Hok Hlen]; [done..|].
    apply (IHroom (S (tipe_size l))); auto; lia.
Qed.
End termination.

(** Everything inside a type, the type itself included. *)
Fixpoint subterms (t : Tipe.t) : list Tipe.t :=
  t :: match t with
       | Tipe.Tuple ts | Tipe.Union ts => flat_map subterms ts
       | Tipe.Array e | Tipe.FixedArray e _ | Tipe.Option e => subterms e
       | Tipe.Struct fs => flat_map (λ f, subterms (sf_tipe f)) fs
       | Tipe.Func _ args ret => flat_map subterms args ++ subterms ret
       | Tipe.Map k v => subterms k ++ subterms v
       | _ => []
       end.

Lemma subterms_self t : t ∈ subterms t.
Proof. destruct t; constructor. Qed.

Lemma elem_of_flat_map {A B} (f : A → list B) l y : y ∈ flat_map f l ↔ ∃ x, y ∈ f x ∧ x ∈ l.
Proof.
  rewrite list_elem_of_In, in_flat_map. split; intros (x & ? & ?); exists x; by rewrite ?list_elem_of_In in *.
Qed.

Lemma subterms_parts t x y : x ∈ parts t → y ∈ subterms x → y ∈ subterms t.
Proof.
  destruct t as [| | | | | | |ts|e|e n|fs|p i|b args ret|k v| | |e|ts]; cbn [parts subterms]; intros Hx Hy;
    try (by apply elem_of_nil in Hx); right; try (by apply list_elem_of_singleton in Hx as ->);
    try (apply elem_of_flat_map; by exists x).
  - apply list_elem_of_fmap in Hx as (f & -> & Hf). apply elem_of_flat_map. by exists f.
  - apply elem_of_app in Hx as [Hx|Hx]; apply elem_of_app; [left; apply elem_of_flat_map; by exists x|right].
    by apply list_elem_of_singleton in Hx as ->.
  - apply elem_of_cons in Hx as [->|Hx]; apply elem_of_app; [by left|right].
    by apply list_elem_of_singleton in Hx as ->.
Qed.

(** The other way: a proper subterm lies in a component. *)
Lemma subterms_inv t y : y ∈ subterms t → y = t ∨ ∃ x, x ∈ parts t ∧ y ∈ subterms x.
Proof.
  destruct t as [| | | | | | |ts|e|e n|fs|p i|b args ret|k v| | |e|ts]; cbn [parts subterms];
    intros [->|Hy]%elem_of_cons; auto; try (by apply elem_of_nil in Hy); right;
    try (by exists e; split; [constructor|]);
    try (apply elem_of_flat_map in Hy as (x & ? & ?); by exists x).
  - apply elem_of_flat_map in Hy as (f & ? & ?). exists (sf_tipe f). split; [by apply list_elem_of_fmap_2|done].
  - apply elem_of_app in Hy as [(x & ? & ?)%elem_of_flat_map|Hy].
    + exists x. split; [apply elem_of_app; by left|done].
    + exists ret. split; [apply elem_of_app; right; constructor|done].
  - apply elem_of_app in Hy as [Hy|Hy]; [exists k|exists v]; split; auto; repeat constructor.
Qed.

Lemma subterms_closed n t x y : tipe_size t < n → x ∈ subterms t → y ∈ parts x → y ∈ subterms t.
Proof.
  revert t. induction n as [|n IH]; intros t Hn Hx Hy; [lia|].
  apply subterms_inv in Hx as [->|(z & Hz & Hx)].
  - eapply subterms_parts; [exact Hy|apply subterms_self].
  - eapply subterms_parts; [exact Hz|]. apply IH; [|done..]. apply parts_smaller in Hz. lia.
Qed.

Lemma func_free_parts t x : func_free t = true → x ∈ parts t → func_free x = true.
Proof.
  unfold func_free. destruct t as [| | | | | | |ts|e|e n|fs|p i|b args ret|k v| | |e|ts]; cbn; intros Ht Hx;
    try (by apply elem_of_nil in Hx); try (by apply list_elem_of_singleton in Hx as ->); try discriminate.
  - by eapply forallb_elem.
  - apply list_elem_of_fmap in Hx as (f & -> & Hf). by eapply (forallb_elem (λ f, free_of is_func (sf_tipe f))).
  - apply andb_prop in Ht as [? ?]. apply elem_of_cons in Hx as [->|Hx]; [done|].
    by apply list_elem_of_singleton in Hx as ->.
  - by eapply forallb_elem.
Qed.

Lemma func_free_subterms n t x : tipe_size t < n → func_free t = true → x ∈ subterms t → is_func x = false.
Proof.
  revert t. induction n as [|n IH]; intros t Hn Ht Hx; [lia|].
  apply subterms_inv in Hx as [->|(z & Hz & Hx)]; [by destruct t|].
  apply (IH z); [|by eapply func_free_parts|done]. apply parts_smaller in Hz. lia.
Qed.

(** The types a comparison of [self] with [rhs] can meet. *)
Definition universe (tt : TypeTree) (self rhs : Tipe.t) : list Tipe.t :=
  flat_map subterms (self :: rhs :: ((λ kv : list string * nat * (Tipe.t * string), kv.2.1) <$> map_to_list tt)).

Lemma universe_entry tt self rhs k d : tt !! k = Some d → d.1 ∈ universe tt self rhs.
Proof.
  intros Hk. apply elem_of_flat_map. exists d.1. split; [apply subterms_self|]. right; right.
  apply list_elem_of_fmap. exists (k, d). split; [done|]. by apply elem_of_map_to_list.
Qed.

Lemma representation_in tt (U : list Tipe.t) n t r :
  (∀ k d, tt !! k = Some d → d.1 ∈ U) → t ∈ U → representation_loop n tt t = Some (Ok r) → r ∈ U.
Proof.
  intros HU. revert t. induction n as [|n IH]; intros t Ht; destruct t; cbn; try (by intros [= <-]); try discriminate.
  destruct (tt !! _) as [d|] eqn:E; [|discriminate]. destruct d as [u s].
  apply IH. exact (HU _ _ E).
Qed.

(** A type tree in which every chain of aliases ends and no type mentions a
    function type. *)
Definition first_order_tree (tt : TypeTree) : Prop :=
  (∀ k, get_representation tt (named k) ≠ None) ∧ ∀ k d, tt !! k = Some d → func_free d.1 = true.

(** ** The properties *)

(** [y] can be assigned to [x], with fuel for every nested component. *)
Definition assigns (tt : TypeTree) (x y : Tipe.t) : Prop :=
  assignable (S (tipe_size x + tipe_size y)) tt [] x y = Some true.

Lemma assigns_sub tt x y : nominal_free x = true → nominal_free y = true → assigns tt x y ↔ sub x y.
Proof.
  intros Hx Hy. unfold assigns. destruct (assignable_sub (tipe_size x + tipe_size y)
    (S (tipe_size x + tipe_size y)) tt [] x y) as (r & -> & Hr); [lia..|done|done|].
  rewrite <- Hr. split; [by intros [= ->]|by intros ->].
Qed.

(** On types without names, whatever the type tree, [Type::assignable]
    decides subtyping ([sub]: covariant in components and results,
    contravariant in function arguments) and is a partial order: every type is
    assignable to itself, assignability composes, and two types assignable to
    each other are equal; [every] is assignable to everything and everything
    but [void] to [any]. *)
Theorem assignable_order tt x y z :
  nominal_free x = true → nominal_free y = true → nominal_free z = true →
  (assigns tt x y ↔ sub x y) ∧
  assigns tt x x ∧ (assigns tt x y → assigns tt y z → assigns tt x z) ∧
  (assigns tt x y → assigns tt y x → x = y) ∧
  assigns tt x Tipe.Every ∧ (x ≠ Tipe.Void → assigns tt Tipe.Any x).
Proof.
  intros Hx Hy Hz. rewrite !assigns_sub by done. split; [done|]. split; [by apply sub_refl|].
  split; [apply sub_trans|]. split; [apply sub_antisym|]. split; [apply sub_every|apply sub_any].
Qed.

(** C40: [Type::assignable] ends on recursive types without functions and endless
    aliases: if every chain of aliases in the type tree ends, so that
    [get_representation] does, and neither the types of the tree nor the two types
    mention function types, some recursion depth is enough, and the answer is the
    same for every greater one. *)
Theorem assignable_terminates tt self rhs :
  first_order_tree tt → func_free self = true → func_free rhs = true →
  ∃ f0 r, ∀ f, f0 <= f → assignable f tt [] self rhs = Some r.
Proof.
  intros [Hres Hfree] Hs Hr. set (U := universe tt self rhs).
  assert (∀ t, t ∈ U → ∃ u, t ∈ subterms u ∧ func_free u = true ∧ ∀ y, y ∈ subterms u → y ∈ U) as HU.
  { intros t (u & Ht & Hu)%elem_of_flat_map. exists u. split; [done|]. split; [|intros y Hy; apply elem_of_flat_map; by exists u].
    apply elem_of_cons in Hu as [->|[->|Hu]%elem_of_cons]; [done..|].
    apply list_elem_of_fmap in Hu as ([k d] & -> & Hk%elem_of_map_to_list). by eapply Hfree. }
  apply (assignable_converges tt U) with (room := length U * length U) (sz := S (tipe_size self)).
  - intros t x Ht Hx. destruct (HU t Ht) as (u & Htu & _ & Hin). apply Hin.
    by eapply (subterms_closed (S (tipe_size u))); [lia|..].
  - intros t r Ht. apply representation_in; [|done]. intros k d. apply universe_entry.
  - intros t Ht. destruct (is_nominal t) eqn:E; [|by rewrite representation_id].
    destruct t as [| | | | | | | | | | |p i| | | | | |]; try discriminate. exact (Hres (p, i)).
  - intros t Ht. destruct (HU t Ht) as (u & Htu & Hf & _).
    by apply (func_free_subterms (S (tipe_size u)) u); [lia|..].
  - split; [constructor|]. intros p Hp%elem_of_nil. done.
  - cbn. lia.
  - lia.
  - apply elem_of_flat_map. exists self. split; [apply subterms_self|constructor].
  - apply elem_of_flat_map. exists rhs. split; [apply subterms_self|do 2 constructor].
Qed.

(** A legal type tree with one entry, [type N = (func((func(N))))]. *)
Definition loop_name : Tipe.t := Tipe.Nominal [] 0.
Definition loop_self : Tipe.t := Tipe.Tuple [Tipe.Func false [loop_name] Tipe.Void].
Definition loop_tree : TypeTree :=
  {[ ([], 0) := (Tipe.Tuple [Tipe.Func false [loop_self] Tipe.Void], "N"%string) ]}.

(** With a recursive function type the recursion need not end, although the
    comparison records the pairs it has visited: the pair is recorded only when
    the left-hand type is a name, and contravariance keeps the name on the
    right.  Comparing [(func(N))] with [N], where [type N = (func((func(N))))],
    exhausts every recursion depth. *)
Theorem assignable_diverges fuel seen : assignable fuel loop_tree seen loop_self loop_name = None.
Proof.
  induction (lt_wf fuel) as [fuel _ IH]. destruct fuel as [|[|fuel]]; [done..|].
  change (assignable (S (S fuel)) loop_tree seen loop_self loop_name) with
    (vectors_assignable (assignable (S fuel) loop_tree seen) [Tipe.Func false [loop_name] Tipe.Void]
                        [Tipe.Func false [loop_self] Tipe.Void]).
  change (vectors_assignable _ _ _) with
    (and_then (and_then (and_then (assignable fuel loop_tree seen loop_self loop_name) (Some true))
       (assignable fuel loop_tree seen Tipe.Void Tipe.Void)) (Some true)).
  rewrite IH by lia. done.
Qed.

(** On types without names, the expected one without functions, the error message is right
    about the verdict: [Type::first_mismatch] reports no mismatch exactly when
    [Type::assignable] accepts. *)
Theorem mismatch_agrees tt x y fuel :
  nominal_free x = true → nominal_free y = true → func_free x = true →
  tipe_size x + tipe_size y < fuel →
  first_mismatch fuel tt [] x y = Some None ↔ assignable fuel tt [] x y = Some true.
Proof.
  intros Hx Hy Fx Hf.
  destruct (assignable_sub (tipe_size x + tipe_size y) fuel tt [] x y) as (r & -> & Hr); [lia..|done|done|].
  destruct (mismatch_sub (tipe_size x + tipe_size y) fuel tt [] x y) as (m & -> & Hm); [lia..|done|done|done|].
  split; intros [= E]; f_equal; [by apply Hr, Hm|by apply Hm, Hr].
Qed.

(** Function arguments are compared the other way round by the two functions. *)
Lemma mismatch_disagrees :
  let f := Tipe.Func false [Tipe.Any] Tipe.Void in
  let g := Tipe.Func false [Tipe.Uint] Tipe.Void in
  assignable 10 ∅ [] f g = Some false ∧ first_mismatch 10 ∅ [] f g = Some None ∧
  assignable 10 ∅ [] g f = Some true ∧
  first_mismatch 10 ∅ [] g f = Some (Some (FuncArg 0 (MType Tipe.Uint Tipe.Any))).
Proof. by vm_compute. Qed.

(** A recursive list type, [type L = option((uint, L))], satisfies the
    hypotheses of termination. *)
Definition list_tree : TypeTree :=
  {[ ([], 0) := (Tipe.Option (Tipe.Tuple [Tipe.Uint; Tipe.Nominal [] 0]), "L"%string) ]}.

Lemma list_tree_first_order : first_order_tree list_tree.
Proof.
  split.
  - intros [p i]. unfold get_representation, named. cbn [representation_loop fst snd].
    match goal with |- context [list_tree !! ?k] => destruct (list_tree !! k) as [[u s]|] eqn:E end; [|done].
    unfold list_tree in E. apply lookup_singleton_Some in E as [_ [= <- _]]. done.
  - intros k d Hk. unfold list_tree in Hk. apply lookup_singleton_Some in Hk as [_ <-]. done.
Qed.

Lemma assignable_terminates_witness :
  ∃ f0 r, ∀ f, f0 <= f → assignable f list_tree [] (Tipe.Nominal [] 0)
    (Tipe.Option (Tipe.Tuple [Tipe.Uint; Tipe.Nominal [] 0])) = Some r.
Proof. apply (assignable_terminates list_tree); [apply list_tree_first_order|reflexivity..]. Defined.

Lemma assignable_order_witness :
  let x := Tipe.Func true [Tipe.Uint] (Tipe.Option Tipe.Any) in
  let y := Tipe.Func false [Tipe.Any] (Tipe.Option Tipe.Bool) in
  assigns ∅ x y ∧ (assigns ∅ x y ↔ sub x y).
Proof.
  split; [reflexivity|].
  apply (assignable_order ∅ (Tipe.Func true [Tipe.Uint] (Tipe.Option Tipe.Any))
           (Tipe.Func false [Tipe.Any] (Tipe.Option Tipe.Bool)) Tipe.Any); reflexivity.
Defined.

Lemma mismatch_agrees_witness :
  first_mismatch 20 ∅ [] (Tipe.Tuple [Tipe.Any; Tipe.Uint]) (Tipe.Tuple [Tipe.Bool; Tipe.Uint]) = Some None ∧
  assignable 20 ∅ [] (Tipe.Tuple [Tipe.Any; Tipe.Uint]) (Tipe.Tuple [Tipe.Bool; Tipe.Uint]) = Some true.
Proof.
  split; [reflexivity|]. apply (mismatch_agrees ∅ (Tipe.Tuple [Tipe.Any; Tipe.Uint])
    (Tipe.Tuple [Tipe.Bool; Tipe.Uint]) 20); cbn; first [reflexivity | lia].
Defined.
