(* ===== verification/TypedAst.v ===== *)
(** * Type-checked syntax trees (src/src/compile/typecheck.rs, src/src/compile/ast.rs)

    The trees the type checker hands to the code generator: expressions,
    statements, blocks, match patterns and functions.  The constructors have
    the names of the source; those of statements carry an [S] in front, since
    an expression and a statement may share a name.  [tc_ind] is the induction
    principle over all of them. *)

From Stdlib Require Import ZArith Lia.
From S2P Require Import Prelude U256 StringTab Pos Opcodes Crypto BufferTree Values Types.

Module UnaryOp.
Inductive t := Minus | BitwiseNeg | Not | Hash | Len | ToUint | ToInt | ToBytes32 | ToAddress.
#[global] Instance eq_dec : EqDecision t.
Proof. solve_decision. Defined.
End UnaryOp.

Module BinaryOp.
Inductive t :=
| Plus | Minus | Times | Div | Mod | Sdiv | Smod | LessThan | GreaterThan | LessEq | GreaterEq
| SLessThan | SGreaterThan | SLessEq | SGreaterEq | Equal | NotEqual | BitwiseAnd | BitwiseOr
| BitwiseXor | ShiftLeft | ShiftRight | LogicalAnd_ | LogicalOr | Hash | GetBuffer8 | GetBuffer64
| GetBuffer256.
#[global] Instance eq_dec : EqDecision t.
Proof. solve_decision. Defined.
End BinaryOp.

Module TrinaryOp.
Inductive t := SetBuffer8 | SetBuffer64 | SetBuffer256.
#[global] Instance eq_dec : EqDecision t.
Proof. solve_decision. Defined.
End TrinaryOp.

Record PropertiesList := mkPropertiesList { pure : bool }.

Record FieldInitializer (T : Type) := mkFieldInitializer { fi_name : string; fi_value : T }.
Arguments mkFieldInitializer {T}.
Arguments fi_name {T}.
Arguments fi_value {T}.

(** [MatchPattern<Type>]: the tree of a [let] pattern with the type of each part. *)
Inductive MatchPattern : Set := mkMatchPattern (kind : MatchPatternKind) (debug_info : DebugInfo) (cached : Tipe.t)
with MatchPatternKind : Set :=
| PBind (id : nat)
| PAssign (id : nat)
| PTuple (pats : list MatchPattern).

Definition new_bind (id : nat) (di : DebugInfo) (cached : Tipe.t) : MatchPattern := mkMatchPattern (PBind id) di cached.
Definition new_tuple (pats : list MatchPattern) (di : DebugInfo) (cached : Tipe.t) : MatchPattern :=
  mkMatchPattern (PTuple pats) di cached.

(** The variables of a pattern, from left to right, each with the flag for
    assignment to an existing one. *)
Fixpoint collect_identifiers (p : MatchPattern) : list (nat * bool * DebugInfo) :=
  match p with
  | mkMatchPattern (PBind id) di _ => [(id, false, di)]
  | mkMatchPattern (PAssign id) di _ => [(id, true, di)]
  | mkMatchPattern (PTuple pats) _ _ => flat_map collect_identifiers pats
  end.

Inductive TypeCheckedExpr : Set := mkExpr (kind : TypeCheckedExprKind) (debug_info : DebugInfo)
with TypeCheckedExprKind : Set :=
| NewBuffer
| Unary (op : UnaryOp.t) (e : TypeCheckedExpr) (t : Tipe.t)
| Binary (op : BinaryOp.t) (e1 e2 : TypeCheckedExpr) (t : Tipe.t)
| Trinary (op : TrinaryOp.t) (e1 e2 e3 : TypeCheckedExpr) (t : Tipe.t)
| ShortcutOr (e1 e2 : TypeCheckedExpr)
| ShortcutAnd (e1 e2 : TypeCheckedExpr)
| LocalVariableRef (id : nat) (t : Tipe.t)
| GlobalVariableRef (idx : nat) (t : Tipe.t)
| Variant (e : TypeCheckedExpr)
| FuncRef (id : nat) (t : Tipe.t)
| TupleRef (e : TypeCheckedExpr) (idx : Z) (t : Tipe.t)
| DotRef (e : TypeCheckedExpr) (slot_num s_size : nat) (t : Tipe.t)
| Const (v : Value.t) (t : Tipe.t)
| FunctionCall (f : TypeCheckedExpr) (args : list TypeCheckedExpr) (t : Tipe.t) (p : PropertiesList)
| CodeBlock (b : TypeCheckedCodeBlock)
| StructInitializer (fields : list (FieldInitializer TypeCheckedExpr)) (t : Tipe.t)
| ArrayRef (e1 e2 : TypeCheckedExpr) (t : Tipe.t)
| FixedArrayRef (e1 e2 : TypeCheckedExpr) (size : nat) (t : Tipe.t)
| MapRef (e1 e2 : TypeCheckedExpr) (t : Tipe.t)
| TupleExpr (fields : list TypeCheckedExpr) (t : Tipe.t)
| NewArray (sz : TypeCheckedExpr) (base_type array_type : Tipe.t)
| NewFixedArray (sz : nat) (e : option TypeCheckedExpr) (t : Tipe.t)
| NewMap (t : Tipe.t)
| ArrayMod (e1 e2 e3 : TypeCheckedExpr) (t : Tipe.t)
| FixedArrayMod (e1 e2 e3 : TypeCheckedExpr) (size : nat) (t : Tipe.t)
| MapMod (e1 e2 e3 : TypeCheckedExpr) (t : Tipe.t)
| StructMod (struc : TypeCheckedExpr) (index : nat) (val : TypeCheckedExpr) (t : Tipe.t)
| Cast (e : TypeCheckedExpr) (t : Tipe.t)
| Asm (t : Tipe.t) (insns : list (Instruction.t Opcode.t)) (args : list TypeCheckedExpr)
| Error
| GetGas
| SetGas (e : TypeCheckedExpr)
| Try (e : TypeCheckedExpr) (t : Tipe.t)
| If (cond : TypeCheckedExpr) (block : TypeCheckedCodeBlock) (else_block : option TypeCheckedCodeBlock) (t : Tipe.t)
| IfLet (name : nat) (e : TypeCheckedExpr) (block : TypeCheckedCodeBlock)
        (else_block : option TypeCheckedCodeBlock) (t : Tipe.t)
| Loop (body : list TypeCheckedStatement)
with TypeCheckedStatement : Set := mkStatement (kind : TypeCheckedStatementKind) (debug_info : DebugInfo)
with TypeCheckedStatementKind : Set :=
| SNoop
| SReturnVoid
| SReturn (e : TypeCheckedExpr)
| SBreak (e : option TypeCheckedExpr) (scope : string)
| SExpression (e : TypeCheckedExpr)
| SLet (pat : MatchPattern) (e : TypeCheckedExpr)
| SAssignLocal (name : nat) (e : TypeCheckedExpr)
| SAssignGlobal (idx : nat) (e : TypeCheckedExpr)
| SWhile (cond : TypeCheckedExpr) (body : list TypeCheckedStatement)
| SAsm (insns : list (Instruction.t Opcode.t)) (args : list TypeCheckedExpr)
| SDebugPrint (e : TypeCheckedExpr)
| SAssert (e : TypeCheckedExpr)
with TypeCheckedCodeBlock : Set :=
  mkBlock (body : list TypeCheckedStatement) (ret_expr : option TypeCheckedExpr) (scope : option string).

Definition expr_kind (e : TypeCheckedExpr) : TypeCheckedExprKind := let '(mkExpr k _) := e in k.
Definition expr_debug_info (e : TypeCheckedExpr) : DebugInfo := let '(mkExpr _ di) := e in di.
Definition statement_kind (s : TypeCheckedStatement) : TypeCheckedStatementKind := let '(mkStatement k _) := s in k.

(** The type of an expression; a block without a value is [void]. *)
Fixpoint get_type (e : TypeCheckedExpr) : Tipe.t :=
  match expr_kind e with
  | NewBuffer => Tipe.Buffer
  | Error => Tipe.Every
  | GetGas => Tipe.Uint
  | SetGas _ => Tipe.Void
  | Unary _ _ t | Binary _ _ _ t | Trinary _ _ _ _ t => t
  | ShortcutOr _ _ | ShortcutAnd _ _ => Tipe.Bool
  | LocalVariableRef _ t | GlobalVariableRef _ t | FuncRef _ t | TupleRef _ _ t => t
  | Variant e => Tipe.Option (get_type e)
  | DotRef _ _ _ t | Const _ t | FunctionCall _ _ t _ => t
  | CodeBlock (mkBlock _ ret_expr _) =>
      match ret_expr with
      | Some r => get_type r
      | None => Tipe.Void
      end
  | StructInitializer _ t | ArrayRef _ _ t | FixedArrayRef _ _ _ t | MapRef _ _ t | TupleExpr _ t
  | NewArray _ _ t | NewFixedArray _ _ t | NewMap t | ArrayMod _ _ _ t | FixedArrayMod _ _ _ _ t
  | MapMod _ _ _ t | StructMod _ _ _ t | Cast _ t | Asm t _ _ | Try _ t | If _ _ _ t | IfLet _ _ _ _ t => t
  | Loop _ => Tipe.Every
  end.

Record FuncArg := mkFuncArg { fa_name : nat; fa_tipe : Tipe.t; fa_debug_info : DebugInfo }.

Inductive FuncDeclKind := Public | Private.

(** [Func<TypeCheckedStatement>] *)
Record TypeCheckedFunc := mkFunc {
  f_name : nat;
  f_args : list FuncArg;
  f_ret_type : Tipe.t;
  f_code : list TypeCheckedStatement;
  f_tipe : Tipe.t;
  f_kind : FuncDeclKind;
  f_debug_info : DebugInfo;
  f_properties : PropertiesList;
}.

(** ** Immediate components and induction *)
Definition olist {A} (o : option A) : list A := match o with Some x => [x] | None => [] end.

Definition sub_exprs (k : TypeCheckedExprKind) : list TypeCheckedExpr :=
  match k with
  | NewBuffer | LocalVariableRef _ _ | GlobalVariableRef _ _ | FuncRef _ _ | Const _ _ | NewMap _
  | GetGas | Error | CodeBlock _ | Loop _ => []
  | Unary _ e _ | Variant e | SetGas e | TupleRef e _ _ | DotRef e _ _ _ | NewArray e _ _ | Cast e _
  | Try e _ | If e _ _ _ | IfLet _ e _ _ _ => [e]
  | Binary _ e1 e2 _ | ShortcutOr e1 e2 | ShortcutAnd e1 e2 | ArrayRef e1 e2 _ | FixedArrayRef e1 e2 _ _
  | MapRef e1 e2 _ | StructMod e1 _ e2 _ => [e1; e2]
  | Trinary _ e1 e2 e3 _ | ArrayMod e1 e2 e3 _ | FixedArrayMod e1 e2 e3 _ _ | MapMod e1 e2 e3 _ => [e1; e2; e3]
  | FunctionCall f args _ _ => f :: args
  | StructInitializer fields _ => fi_value <$> fields
  | TupleExpr es _ | Asm _ _ es => es
  | NewFixedArray _ o _ => olist o
  end.

Definition sub_stats (k : TypeCheckedExprKind) : list TypeCheckedStatement :=
  match k with
  | Loop body => body
  | _ => []
  end.

Definition sub_blocks (k : TypeCheckedExprKind) : list TypeCheckedCodeBlock :=
  match k with
  | CodeBlock b => [b]
  | If _ b o _ | IfLet _ _ b o _ => b :: olist o
  | _ => []
  end.

Definition stat_exprs (k : TypeCheckedStatementKind) : list TypeCheckedExpr :=
  match k with
  | SNoop | SReturnVoid => []
  | SReturn e | SExpression e | SLet _ e | SAssignLocal _ e | SAssignGlobal _ e | SWhile e _ | SDebugPrint e
  | SAssert e => [e]
  | SBreak o _ => olist o
  | SAsm _ args => args
  end.

Definition stat_stats (k : TypeCheckedStatementKind) : list TypeCheckedStatement :=
  match k with
  | SWhile _ body => body
  | _ => []
  end.

Section induction.
Context (PE : TypeCheckedExpr → Prop) (PS : TypeCheckedStatement → Prop) (PB : TypeCheckedCodeBlock → Prop).
Hypothesis HE : ∀ k di, Forall PE (sub_exprs k) → Forall PS (sub_stats k) → Forall PB (sub_blocks k) → PE (mkExpr k di).
Hypothesis HS : ∀ k di, Forall PE (stat_exprs k) → Forall PS (stat_stats k) → PS (mkStatement k di).
Hypothesis HB : ∀ body ret scope, Forall PS body → Forall PE (olist ret) → PB (mkBlock body ret scope).

Lemma tc_ind : (∀ e, PE e) ∧ (∀ s, PS s) ∧ (∀ b, PB b).
Proof.
  assert (∀ e, PE e) as H1.
  { fix IHe 1 with (IHs (s : TypeCheckedStatement) {struct s} : PS s)
                   (IHb (b : TypeCheckedCodeBlock) {struct b} : PB b).
    - destruct e as [k di]. apply HE; destruct k; cbn [sub_exprs sub_stats sub_blocks olist];
        repeat first [apply List.Forall_nil | apply List.Forall_cons];
        try (apply IHe); try (apply IHb).
      all: try match goal with
        | |- Forall PE (fi_value <$> ?l) => induction l; constructor; [apply IHe|assumption]
        | |- Forall PE (olist ?o) => destruct o; constructor; [apply IHe|constructor]
        | |- Forall PE ?l => induction l; constructor; [apply IHe|assumption]
        | |- Forall PS ?l => induction l; constructor; [apply IHs|assumption]
        | |- Forall PB (olist ?o) => destruct o; constructor; [apply IHb|constructor]
        end.
    - destruct s as [k di]. apply HS; destruct k; cbn [stat_exprs stat_stats olist];
        repeat first [apply List.Forall_nil | apply List.Forall_cons]; try (apply IHe).
      all: try match goal with
        | |- Forall PE (olist ?o) => destruct o; constructor; [apply IHe|constructor]
        | |- Forall PE ?l => induction l; constructor; [apply IHe|assumption]
        | |- Forall PS ?l => induction l; constructor; [apply IHs|assumption]
        end.
    - destruct b as [body ret scope]. apply HB.
      + induction body; constructor; [apply IHs|assumption].
      + destruct ret; constructor; [apply IHe|constructor]. }
  assert (∀ s, PS s) as H2.
  { fix IHs 1. destruct s as [k di]. apply HS.
    - apply list.Forall_forall. intros; apply H1.
    - destruct k; cbn [stat_stats]; try apply List.Forall_nil. induction body; constructor; [apply IHs|assumption]. }
  split; [exact H1|]. split; [exact H2|].
  intros [body ret scope]. apply HB; apply list.Forall_forall; intros; [apply H2|apply H1].
Qed.
End induction.
