(* ===== verification/Ast.v ===== *)
(** * Syntax trees before type checking (src/src/compile/ast.rs, src/src/link/mod.rs)

    What the parser hands to the type checker: expressions, statements, blocks,
    patterns, constants, functions and top-level declarations.  The constructors
    have the names of the source inside the module [Ast]; those of statements
    carry an [S] in front, as in TypedAst.v.  Patterns have no cached type here
    ([MatchPattern<()>]). *)

From Stdlib Require Import ZArith Lia.
From S2P Require Import Prelude U256 StringTab Pos Opcodes Crypto BufferTree Values Types TypedAst.

Module Ast.

(** ** Constants *)
Inductive Constant : Set :=
| CUint (n : Z)
| CInt (n : Z)
| CBool (b : bool)
| COption (o : OptionConst)
| CNull
with OptionConst : Set :=
| Some_ (c : Constant)
| None_ (t : Tipe.t).

Fixpoint type_of (c : Constant) : Tipe.t :=
  match c with
  | CUint _ => Tipe.Uint
  | CInt _ => Tipe.Int
  | CBool _ => Tipe.Bool
  | COption inner => option_type_of inner
  | CNull => Tipe.Void
  end
with option_type_of (o : OptionConst) : Tipe.t :=
  Tipe.Option (match o with
               | Some_ c => type_of c
               | None_ t => t
               end).

Fixpoint value (c : Constant) : Value.t :=
  match c with
  | CUint ui => Value.Int ui
  | CInt i => Value.Int i
  | CBool b => Value.Int (Uint256.from_bool b)
  | COption c => option_value c
  | CNull => Value.none
  end
with option_value (o : OptionConst) : Value.t :=
  match o with
  | Some_ c => Value.new_tuple [Value.Int Uint256.one; value c]
  | None_ _ => Value.new_tuple [Value.Int Uint256.zero]
  end.

(** ** Patterns *)
Inductive Pattern : Set := mkPattern (kind : PatternKind) (debug_info : DebugInfo)
with PatternKind : Set :=
| PBind (id : nat)
| PAssign (id : nat)
| PTuple (pats : list Pattern).

Definition pattern_kind (p : Pattern) : PatternKind := let '(mkPattern k _) := p in k.
Definition pattern_debug_info (p : Pattern) : DebugInfo := let '(mkPattern _ di) := p in di.

(** [collect_identifiers] of TypedAst.v for patterns without types *)
Fixpoint identifiers (p : Pattern) : list (nat * bool * DebugInfo) :=
  match p with
  | mkPattern (PBind id) di => [(id, false, di)]
  | mkPattern (PAssign id) di => [(id, true, di)]
  | mkPattern (PTuple pats) _ => flat_map identifiers pats
  end.

(** ** Expressions, statements and blocks *)
Inductive Expr : Set := mkExpr (kind : ExprKind) (debug_info : DebugInfo)
with ExprKind : Set :=
| UnaryOp (op : UnaryOp.t) (e : Expr)
| Binary (op : BinaryOp.t) (e1 e2 : Expr)
| Trinary (op : TrinaryOp.t) (e1 e2 e3 : Expr)
| ShortcutOr (e1 e2 : Expr)
| ShortcutAnd (e1 e2 : Expr)
| VariableRef (name : nat)
| TupleRef (e : Expr) (idx : Z)
| DotRef (e : Expr) (name : string)
| Const (c : Constant)
| OptionInitializer (e : Expr)
| FunctionCall (f : Expr) (args : list Expr)
| CodeBlockExpr (b : CodeBlock)
| ArrayOrMapRef (e1 e2 : Expr)
| StructInitializer (fields : list (FieldInitializer Expr))
| Tuple (fields : list Expr)
| NewArray (sz : Expr) (t : Tipe.t)
| NewFixedArray (sz : nat) (e : option Expr)
| NewMap (key_type value_type : Tipe.t)
| NewUnion (types : list Tipe.t) (e : Expr)
| ArrayOrMapMod (e1 e2 e3 : Expr)
| StructMod (struc : Expr) (name : string) (val : Expr)
| UnsafeCast (e : Expr) (t : Tipe.t)
| Asm (t : Tipe.t) (insns : list (Instruction.t Opcode.t)) (args : list Expr)
| Error
| GetGas
| SetGas (e : Expr)
| Try (e : Expr)
| If (cond : Expr) (block : CodeBlock) (else_block : option CodeBlock)
| IfLet (name : nat) (e : Expr) (block : CodeBlock) (else_block : option CodeBlock)
| Loop (body : list Statement)
| UnionCast (e : Expr) (t : Tipe.t)
| NewBuffer
with Statement : Set := mkStatement (kind : StatementKind) (debug_info : DebugInfo)
with StatementKind : Set :=
| SNoop
| SReturnVoid
| SReturn (e : Expr)
| SBreak (e : option Expr) (scope : option string)
| SExpression (e : Expr)
| SLet (pat : Pattern) (e : Expr)
| SAssign (name : nat) (e : Expr)
| SWhile (cond : Expr) (body : list Statement)
| SAsm (insns : list (Instruction.t Opcode.t)) (args : list Expr)
| SDebugPrint (e : Expr)
| SAssert (e : Expr)
with CodeBlock : Set := mkBlock (body : list Statement) (ret_expr : option Expr).

Definition statement_kind (s : Statement) : StatementKind := let '(mkStatement k _) := s in k.
Definition statement_debug_info (s : Statement) : DebugInfo := let '(mkStatement _ di) := s in di.

(** ** Functions and declarations *)

(** [Func<Statement>] *)
Record Func := mkFunc {
  name : nat;
  args : list FuncArg;
  ret_type : Tipe.t;
  code : list Statement;
  tipe : Tipe.t;
  kind : FuncDeclKind;
  debug_info : DebugInfo;
  properties : PropertiesList;
}.

Definition Func_new (name : nat) (is_impure : bool) (args : list FuncArg) (ret_type : Tipe.t) (code : list Statement)
    (exported : bool) (debug_info : DebugInfo) : Func :=
  mkFunc name args ret_type code (Tipe.Func is_impure (fa_tipe <$> args) ret_type)
    (if exported then Public else Private) debug_info (mkPropertiesList (negb is_impure)).

(** An import made by a [use] statement. *)
Record Import := mkImport {
  i_path : list string;
  i_name : string;
  i_id : option nat;
  i_location : option Location.t;
}.

Definition new_builtin (virtual_file name : string) : Import := mkImport ["core"; virtual_file] name None None.

Inductive TopLevelDecl :=
| TypeDecl (name : nat) (t : Tipe.t)
| FuncDecl (f : Func)
| VarDecl (v : GlobalVarDecl)
| UseDecl (i : Import)
| ConstDecl.

(** ** Immediate components and induction *)
Definition sub_exprs (k : ExprKind) : list Expr :=
  match k with
  | VariableRef _ | Const _ | CodeBlockExpr _ | NewMap _ _ | Error | GetGas | Loop _ | NewBuffer => []
  | UnaryOp _ e | TupleRef e _ | DotRef e _ | OptionInitializer e | NewArray e _ | NewUnion _ e | UnsafeCast e _
  | SetGas e | Try e | If e _ _ | IfLet _ e _ _ | UnionCast e _ => [e]
  | Binary _ e1 e2 | ShortcutOr e1 e2 | ShortcutAnd e1 e2 | ArrayOrMapRef e1 e2 | StructMod e1 _ e2 => [e1; e2]
  | Trinary _ e1 e2 e3 | ArrayOrMapMod e1 e2 e3 => [e1; e2; e3]
  | FunctionCall f args => f :: args
  | StructInitializer fields => fi_value <$> fields
  | Tuple es | Asm _ _ es => es
  | NewFixedArray _ o => olist o
  end.

Definition sub_stats (k : ExprKind) : list Statement :=
  match k with
  | Loop body => body
  | _ => []
  end.

Definition sub_blocks (k : ExprKind) : list CodeBlock :=
  match k with
  | CodeBlockExpr b => [b]
  | If _ b o | IfLet _ _ b o => b :: olist o
  | _ => []
  end.

Definition stat_exprs (k : StatementKind) : list Expr :=
  match k with
  | SNoop | SReturnVoid => []
  | SReturn e | SExpression e | SLet _ e | SAssign _ e | SWhile e _ | SDebugPrint e | SAssert e => [e]
  | SBreak o _ => olist o
  | SAsm _ args => args
  end.

Definition stat_stats (k : StatementKind) : list Statement :=
  match k with
  | SWhile _ body => body
  | _ => []
  end.

Section induction.
Context (PE : Expr → Prop) (PS : Statement → Prop) (PB : CodeBlock → Prop).
Hypothesis HE : ∀ k di, Forall PE (sub_exprs k) → Forall PS (sub_stats k) → Forall PB (sub_blocks k) → PE (mkExpr k di).
Hypothesis HS : ∀ k di, Forall PE (stat_exprs k) → Forall PS (stat_stats k) → PS (mkStatement k di).
Hypothesis HB : ∀ body ret, Forall PS body → Forall PE (olist ret) → PB (mkBlock body ret).

Lemma ast_ind : (∀ e, PE e) ∧ (∀ s, PS s) ∧ (∀ b, PB b).
Proof.
  assert (∀ e, PE e) as H1.
  { fix IHe 1 with (IHs (s : Statement) {struct s} : PS s) (IHb (b : CodeBlock) {struct b} : PB b).
    - destruct e as [k di]. apply HE; destruct k; cbn [sub_exprs sub_stats sub_blocks olist];
        repeat first [apply List.Forall_nil | apply List.Forall_cons];
        try (apply IHe); try (apply IHb).
      all: try match goal with
        | |- Forall PE (fi_value <$> ?l) => induction l; constructor; [apply IHe|assumption]
        | |- Forall PE (olist ?o) => destruct o; constructor; [apply IHe|constructor]
        | |- Forall PE ?l => induction l; constructor; [apply IHe|assumption]
        | |- Forall PS ?l => induction l; constructor; [apply IHs|assumption]
        | |- Forall PB (olist ?o) => destruct o; constructor; [apply IHb|constructor]
        end.
    - destruct s as [k di]. apply HS; destruct k; cbn [stat_exprs stat_stats olist];
        repeat first [apply List.Forall_nil | apply List.Forall_cons]; try (apply IHe).
      all: try match goal with
        | |- Forall PE (olist ?o) => destruct o; constructor; [apply IHe|constructor]
        | |- Forall PE ?l => induction l; constructor; [apply IHe|assumption]
        | |- Forall PS ?l => induction l; constructor; [apply IHs|assumption]
        end.
    - destruct b as [body ret]. apply HB.
      + induction body; constructor; [apply IHs|assumption].
      + destruct ret; constructor; [apply IHe|constructor]. }
  assert (∀ s, PS s) as H2.
  { fix IHs 1. destruct s as [k di]. apply HS.
    - apply list.Forall_forall. intros; apply H1.
    - destruct k; cbn [stat_stats]; try apply List.Forall_nil. induction body; constructor; [apply IHs|assumption]. }
  split; [exact H1|]. split; [exact H2|].
  intros [body ret]. apply HB; apply list.Forall_forall; intros; [apply H2|apply H1].
Qed.
End induction.
End Ast.
