(* ===== verification/Link.v ===== *)
(** * Linking (src/src/link/mod.rs, and CompiledProgram and SourceFileMap of
    src/src/compile/mod.rs)

    [link] relocates the compiled modules behind each other and resolves
    imports by name; [postlink_compile] is the sequence of passes that makes the
    result executable.  Left out: printing, [file_info_chart], and the ArbOS
    version number that is read from a file. *)

From Stdlib Require Import ZArith Lia.
From S2P Require Import Prelude U256 Pos StringTab Opcodes Crypto BufferTree Values StraightLine TupleTree Peephole StripLabels Types.

#[local] Set Warnings "-clear-no-such-hyp".

(** ** Source files of a program *)
Module SourceFileMap.

Record t := mk { offsets : list (nat * string); end_ : nat }.

Definition new (size : nat) (first_filepath : string) : t := mk [(0, first_filepath)] size.
Definition new_empty : t := mk [] 0.

Definition push (m : t) (size : nat) (filepath : string) : t :=
  mk (offsets m ++ [(end_ m, filepath)]) (end_ m + size).

(** The loop of [get] over the entries and their successors, then the test
    for the last entry; an empty map and an offset behind the end panic. *)
Fixpoint get_from (offset : nat) (l : list (nat * string)) (e : nat) : option string :=
  match l with
  | [] => None
  | (_, path) :: rest =>
      match rest with
      | [] => if Nat.ltb offset e then Some path else None
      | (next, _) :: _ => if Nat.ltb offset next then Some path else get_from offset rest e
      end
  end.

Definition get (m : t) (offset : nat) : option string := get_from offset (offsets m) (end_ m).

End SourceFileMap.

(** ** Compiled programs *)
Record ExportedFunc := mkExportedFunc {
  ef_name : string;
  ef_label : Label.t;
  ef_tipe : Tipe.t;
}.

Definition ImportedFunc_new (slot : nat) (id : nat) (st : StringTable.t) : option ImportedFunc :=
  name ← StringTable.name_from_id st id; Some (mkImportedFunc id slot name).
Definition ImportedFunc_relocate (f : ImportedFunc) (ext_offset : nat) : ImportedFunc :=
  mkImportedFunc (name_id f) (slot_num f + ext_offset) (if_name f).

Definition ExportedFunc_new (id : nat) (label : Label.t) (tipe : Tipe.t) (st : StringTable.t)
    : option ExportedFunc :=
  name ← StringTable.name_from_id st id; Some (mkExportedFunc name label tipe).
Definition ExportedFunc_relocate (f : ExportedFunc) (int_offset ext_offset func_offset : nat)
    : ExportedFunc * nat :=
  let '(relocated_label, new_func_offset) := Label.relocate (ef_label f) int_offset ext_offset func_offset in
  (mkExportedFunc (ef_name f) relocated_label (ef_tipe f), new_func_offset).

Record CompiledProgram := mkCompiledProgram {
  cp_code : list insn;
  exported_funcs : list ExportedFunc;
  imported_funcs : list ImportedFunc;
  globals : list GlobalVarDecl;
  source_file_map : option SourceFileMap.t;
  type_tree : TypeTree;
}.

(** [None] for the panic of relocating a code point. *)
Definition CompiledProgram_relocate (p : CompiledProgram) (int_offset ext_offset func_offset : nat)
    (globals_offset : list GlobalVarDecl) (sfm : option SourceFileMap.t) : option (CompiledProgram * nat) :=
  '(relocated_code, m) ←
    Value.relocate_list (λ i, Instruction.relocate i int_offset ext_offset func_offset (length globals_offset))
      (cp_code p) func_offset;
  '(relocated_exported_funcs, m) ←
    Value.relocate_list (λ f, Some (ExportedFunc_relocate f int_offset ext_offset func_offset))
      (exported_funcs p) m;
  let relocated_imported_funcs := (λ f, ImportedFunc_relocate f ext_offset) <$> imported_funcs p in
  Some (mkCompiledProgram relocated_code relocated_exported_funcs relocated_imported_funcs
          (globals_offset ++ globals p) sfm (type_tree p), m).

(** ** link *)

(** The first loop: where the code and the imports of each program go. *)
Fixpoint assign_offsets (progs : list CompiledProgram) (insns_so_far imports_so_far : nat)
    (merged : SourceFileMap.t) : option (list (nat * nat) * SourceFileMap.t) :=
  match progs with
  | [] => Some ([], merged)
  | prog :: progs =>
      path ← match source_file_map prog with
             | Some sfm => SourceFileMap.get sfm 0
             | None => Some ""%string
             end;
      let merged := SourceFileMap.push merged (length (cp_code prog)) path in
      '(rest, merged) ← assign_offsets progs (insns_so_far + length (cp_code prog))
                          (imports_so_far + length (imported_funcs prog)) merged;
      Some ((insns_so_far, imports_so_far) :: rest, merged)
  end.

(** The second loop. *)
Fixpoint relocate_all (progs : list (CompiledProgram * (nat * nat))) (func_offset : nat)
    (global_num_limit : list GlobalVarDecl) : option (list CompiledProgram * list GlobalVarDecl) :=
  match progs with
  | [] => Some ([], global_num_limit)
  | (prog, (int_offset, ext_offset)) :: progs =>
      '(relocated_prog, new_func_offset) ←
        CompiledProgram_relocate prog int_offset ext_offset func_offset global_num_limit (source_file_map prog);
      '(rest, gs) ← relocate_all progs (new_func_offset + 1) (globals relocated_prog);
      Some (relocated_prog :: rest, gs)
  end.

Definition jump_table_decl : GlobalVarDecl :=
  mkGlobalVarDecl (two64 - 1) "_jump_table" Tipe.Any None.

(** The three instructions in front of every program. *)
Definition init_code (test_mode : bool) (num_globals : nat) : option (list insn) :=
  empty ← make_uninitialized_tuple num_globals;
  Some (if test_mode
        then [op_imm AVMOpcode.Noop Value.none DebugInfo_default;
              op_imm AVMOpcode.Noop empty DebugInfo_default;
              op_ AVMOpcode.Rset DebugInfo_default]
        else [op_ AVMOpcode.Rpush DebugInfo_default;
              op_imm AVMOpcode.Noop Value.none DebugInfo_default;
              op_imm AVMOpcode.Rset empty DebugInfo_default]).

Definition exports_map (exports : list ExportedFunc) : gmap string Label.t :=
  foldl (λ m e, <[ef_name e := ef_label e]> m) ∅ exports.

(** The translation of external labels, and a warning per unresolved import. *)
Fixpoint xlate_map (em : gmap string Label.t) (imports : list ImportedFunc)
    (m : gmap Label.t Label.t) (warnings : list CompileError) : gmap Label.t Label.t * list CompileError :=
  match imports with
  | [] => (m, warnings)
  | imp :: imports =>
      match em !! if_name imp with
      | Some label => xlate_map em imports (<[Label.External (slot_num imp) := label]> m) warnings
      | None =>
          xlate_map em imports m
            (warnings ++ [CompileError_new_warning "Compile warning" "Failed to resolve import" []])
      end
  end.

(** The program and the warnings; [None] for a panic. *)
Definition link (progs_in : list CompiledProgram) (test_mode : bool) (warnings : list CompileError)
    : option (CompiledProgram * list CompileError) :=
  first ← head progs_in;
  '(offsets, merged_source_file_map) ← assign_offsets progs_in 3 0 SourceFileMap.new_empty;
  '(relocated_progs, global_num_limit) ← relocate_all (zip progs_in offsets) 0 [];
  let global_num_limit := global_num_limit ++ [jump_table_decl] in
  init ← init_code test_mode (length global_num_limit);
  let linked_code := init ++ concat (cp_code <$> relocated_progs) in
  let linked_exports := concat (exported_funcs <$> relocated_progs) in
  let linked_imports := concat (imported_funcs <$> relocated_progs) in
  let '(label_xlate_map, warnings) := xlate_map (exports_map linked_exports) linked_imports ∅ warnings in
  Some (mkCompiledProgram ((λ i, Instruction.xlate_labels i label_xlate_map) <$> linked_code)
          linked_exports linked_imports global_num_limit (Some merged_source_file_map) (type_tree first),
        warnings).

(** ** postlink_compile *)

(** Out-of-range code, a missing immediate and an immediate without a last
    [none] panic. *)
Definition hardcode_jump_table_into_register (code : list insn) (jump_table : Value.t) (test_mode : bool)
    : option (list insn) :=
  let offset := if test_mode then 1 else 2 in
  i ← code !! offset;
  old_imm ← Instruction.immediate i;
  new_imm ← Value.replace_last_none jump_table old_imm;
  Some (<[offset := Instruction.from_opcode_imm (Instruction.opcode i) new_imm (Instruction.debug_info i)]> code).

(** Virtual opcodes must be gone. *)
Definition to_avm (i : insn) : outcome CompileError (Instruction.t AVMOpcode.t) :=
  match Instruction.opcode i with
  | Opcode.AVM inner => Ok (Instruction.new inner (Instruction.immediate i) (Instruction.debug_info i))
  | _ => error_at "Postlink error" "In final output encountered virtual opcode" (Instruction.debug_info i)
  end.

Record LinkedProgram := mkLinkedProgram {
  lp_code : list (Instruction.t AVMOpcode.t);
  lp_static_val : Value.t;
  lp_globals : list GlobalVarDecl;
  lp_type_tree : TypeTree;
}.

(** [program.globals.len() - 1] underflows without globals; [link] always
    adds one. *)
Definition postlink_compile (program : CompiledProgram) (test_mode : bool) : outcome CompileError LinkedProgram :=
  jump_table_index ← unwrap (match globals program with [] => None | _ => Some (length (globals program) - 1) end);
  let '(code_2, jump_table) :=
    fix_nonforward_labels (cp_code program) (imported_funcs program) jump_table_index in
  code_3 ← fix_tuple_size code_2 (length (globals program));
  let code_4 := peephole code_3 in
  '(code_5, jump_table_final) ← strip_labels code_4 jump_table (imported_funcs program);
  jump_table_value ← unwrap (jump_table_to_value jump_table_final);
  code_5 ← unwrap (hardcode_jump_table_into_register code_5 jump_table_value test_mode);
  code_final ← mapM to_avm code_5;
  Ok (mkLinkedProgram code_final Value.none (globals program) (type_tree program)).

(** ** Labels after relocation *)

(** The labels an instruction defines or mentions. *)
Definition insn_labels (i : insn) : list Label.t := option_list (Instruction.get_label i) ++ imm_labels i.
Definition prog_labels (p : CompiledProgram) : list Label.t := flat_map insn_labels (cp_code p).

(** What the code generator gives the linker: anonymous labels are numbered
    below the length of the code, external ones below the number of imports,
    and there are no EVM labels. *)
Definition source_label (p : CompiledProgram) (l : Label.t) : bool :=
  match l with
  | Label.Anon n => Nat.ltb n (length (cp_code p))
  | Label.External n => Nat.ltb n (length (imported_funcs p))
  | Label.Func _ => true
  | Label.Evm _ => false
  end.
Definition prog_ok (p : CompiledProgram) : bool := forallb (source_label p) (prog_labels p).

(** The part of the label space from the given offsets on, and up to them. *)
Definition above (i e f : nat) (l : Label.t) : Prop :=
  match l with
  | Label.Anon n => i <= n
  | Label.External n => e <= n
  | Label.Func n => f <= n
  | Label.Evm _ => False
  end.
Definition below (i e f : nat) (l : Label.t) : Prop :=
  match l with
  | Label.Anon n => n < i
  | Label.External n => n < e
  | Label.Func n => n < f
  | Label.Evm _ => False
  end.

(** [if a < b { a = b }] *)
Lemma ltb_max a b : (if Nat.ltb a b then b else a) = Nat.max a b.
Proof. destruct (Nat.ltb_spec a b); lia. Qed.

Section relocation.
Context (p : CompiledProgram) (io eo fo : nat).

(** Where the labels of [p] end up if the function offset reaches [m]. *)
Definition placed (m : nat) (l : Label.t) : Prop :=
  above io eo fo l ∧ below (io + length (cp_code p)) (eo + length (imported_funcs p)) (S m) l.

Lemma placed_le m m' l : m <= m' → placed m l → placed m' l.
Proof. intros Hm [Ha Hb]. split; [done|]. destruct l; cbn in *; lia. Qed.

Lemma label_placed l l' m : source_label p l = true → Label.relocate l io eo fo = (l', m) → placed m l'.
Proof.
  intros Hl Hr. unfold placed. destruct l; cbn in *; simplify_eq/=; try apply Nat.ltb_lt in Hl; lia.
Qed.

Lemma relocate_list_ok {A} (f : A → option (A * nat)) l m0 l' m :
  Value.relocate_list f l m0 = Some (l', m) →
  m0 <= m ∧ Forall2 (λ x y, ∃ k, f x = Some (y, k) ∧ k <= m) l l'.
Proof.
  revert m0 l'. induction l as [|x l IH]; intros m0 l' Hr; cbn [Value.relocate_list] in Hr.
  { simplify_eq. split; [lia|constructor]. }
  apply bind_Some in Hr as ([y k] & Hf & Hr). apply bind_Some in Hr as ([ys m'] & Hl & Hr). simplify_eq.
  apply IH in Hl as [Hm Hl]. destruct (Nat.ltb_spec m0 k); (split; [lia|]); constructor; try done;
    exists k; split; (done || lia).
Qed.

Lemma value_placed v v' m : Value.relocate io eo fo v = Some (v', m) →
  Forall (λ l, source_label p l = true) (value_labels v) → Forall (placed m) (value_labels v').
Proof.
  revert v' m. induction v as [i|vs IH|cp|l|b] using Value.tree_ind; intros v' m Hr Hl; cbn [Value.relocate] in Hr.
  - simplify_eq. constructor.
  - apply bind_Some in Hr as ([ws k] & Hr & Hw). simplify_eq. apply relocate_list_ok in Hr as [_ Hr].
    cbn [value_labels Value.new_tuple] in *. revert Hl. induction Hr as [|v w vs ws (k & Hv & Hk) _ IHr]; [constructor|].
    cbn [flat_map]. intros [Hl1 Hl2]%Forall_app. apply Forall_cons_iff in IH as [IH1 IH2].
    apply Forall_app. split; [|by apply IHr].
    eapply Forall_impl; [|by eapply IH1]. intros l. by apply placed_le.
  - apply bind_Some in Hr as (c & _ & Hr). simplify_eq. constructor.
  - destruct (Label.relocate l io eo fo) as [l' k] eqn:El. simplify_eq. cbn in *.
    apply Forall_cons_iff in Hl as [Hl _]. constructor; [|constructor]. by eapply label_placed.
  - simplify_eq. constructor.
Qed.

Lemma insn_placed i go i' m : Instruction.relocate i io eo fo go = Some (i', m) →
  Forall (λ l, source_label p l = true) (insn_labels i) → Forall (placed m) (insn_labels i').
Proof.
  destruct i as [op imm d]. unfold Instruction.relocate, insn_labels, imm_labels.
  cbn [Instruction.opcode Instruction.immediate Instruction.debug_info Instruction.get_label].
  set (pair := match op with Opcode.PushExternal _ => _ | _ => _ end).
  assert (Forall (λ l, source_label p l = true)
            (option_list (match op with Opcode.Label l => Some l | _ => None end)) →
          Forall (placed pair.2) (option_list (Instruction.get_label (Instruction.mk pair.1 imm d)))) as Hop.
  { unfold pair. destruct op as [| |na nt ra|l| | | | | | | | | | | | |]; cbn; try (constructor; done).
    destruct (Label.relocate l io eo fo) as [l' k] eqn:El. cbn. intros [Hl _]%Forall_cons_iff.
    constructor; [|constructor]. eapply placed_le; [|eapply label_placed; [exact Hl|exact El]].
    change (k <= (if Nat.ltb fo k then k else fo)). rewrite ltb_max. lia. }
  destruct pair as [op' k]. cbn [fst snd] in Hop. intros Hr [Hl1 Hl2]%Forall_app.
  specialize (Hop Hl1). destruct imm as [v|].
  - apply bind_Some in Hr as ([w j] & Hw & Hr). rewrite ltb_max in Hr. simplify_eq.
    cbn [Instruction.new Instruction.immediate]. apply Forall_app. split.
    + eapply Forall_impl; [|exact Hop]. intros l. apply placed_le. lia.
    + eapply Forall_impl; [|by eapply value_placed]. intros l. apply placed_le. lia.
  - simplify_eq. cbn. rewrite app_nil_r. exact Hop.
Qed.

Lemma prog_placed gs sfm p' m : CompiledProgram_relocate p io eo fo gs sfm = Some (p', m) →
  prog_ok p = true → fo <= m ∧ Forall (placed m) (prog_labels p').
Proof.
  unfold CompiledProgram_relocate, prog_ok. intros Hr Hok.
  apply bind_Some in Hr as ([c k] & Hc & Hr). apply bind_Some in Hr as ([x k'] & Hx & Hr). simplify_eq.
  apply relocate_list_ok in Hc as [Hm Hc]. apply relocate_list_ok in Hx as [Hm' _]. split; [lia|].
  assert (Forall (λ l, source_label p l = true) (prog_labels p)) as Hall
    by (apply List.Forall_forall; apply forallb_forall; exact Hok).
  clear Hok. unfold prog_labels in *. cbn [cp_code].
  induction Hc as [|i i' code c (j & Hi & Hj) _ IH]; [constructor|]. cbn [flat_map] in *.
  apply Forall_app in Hall as [Hi1 Hi2]. apply Forall_app. split; [|by apply IH].
  eapply Forall_impl; [|by eapply insn_placed]. intros l. apply placed_le. lia.
Qed.
End relocation.

(** The labels of the first program stay below, those of the others above,
    the offsets that come after it. *)
Lemma relocate_all_above progs i e sfm offs sfm' f gs rps gs' :
  assign_offsets progs i e sfm = Some (offs, sfm') →
  relocate_all (zip progs offs) f gs = Some (rps, gs') → forallb prog_ok progs = true →
  Forall (λ p, Forall (above i e f) (prog_labels p)) rps ∧
  (∀ j k p q l, j < k → rps !! j = Some p → rps !! k = Some q → l ∈ prog_labels p → l ∉ prog_labels q).
Proof.
  revert i e sfm offs f gs rps. induction progs as [|prog progs IH]; intros i e sfm offs f gs rps Ho Hr Hok.
  { cbn in Ho. simplify_eq. cbn in Hr. simplify_eq. split; [constructor|]. intros ? ? ? ? ? ? Hj. by rewrite lookup_nil in Hj. }
  cbn [assign_offsets] in Ho. apply bind_Some in Ho as (path & _ & Ho).
  apply bind_Some in Ho as ([offs' sfm1] & Ho & Hs). simplify_eq.
  cbn [zip zip_with relocate_all] in Hr. apply bind_Some in Hr as ([p m] & Hp & Hr).
  apply bind_Some in Hr as ([rest gs1] & Hr & Hs). simplify_eq.
  cbn [forallb] in Hok. apply andb_prop in Hok as [Hok1 Hok2].
  destruct (prog_placed _ _ _ _ _ _ _ _ Hp Hok1) as [Hfm Hpl].
  destruct (IH _ _ _ _ _ _ _ Ho Hr Hok2) as [Hab Hdis]. split.
  - constructor.
    + eapply Forall_impl; [|exact Hpl]. intros l [Ha _]. exact Ha.
    + eapply Forall_impl; [|exact Hab]. intros q Hq. eapply Forall_impl; [|exact Hq].
      intros []; cbn; lia.
  - intros [|j] [|k] p' q l Hjk Hj Hk Hl; cbn in Hj, Hk; try lia; [|by eapply Hdis; [..|exact Hl]; [|done|done]; lia].
    simplify_eq. intros Hq. rewrite list.Forall_forall in Hpl. destruct (Hpl l Hl) as [_ Hb].
    rewrite list.Forall_forall in Hab. specialize (Hab q). rewrite list.Forall_forall in Hab.
    assert (above (i + length (cp_code prog)) (e + length (imported_funcs prog)) (m + 1) l) as Ha.
    { apply Hab; [|done]. by eapply list_elem_of_lookup_2. }
    destruct l; cbn in Ha, Hb; lia.
Qed.

(** ** The jump table in the register *)

Lemma leaves_list_eq f t ts v vs :
  leaves_list f (t :: ts) (v :: vs) = (x ← f t v; xs ← leaves_list f ts vs; Some (x ++ xs)).
Proof. reflexivity. Qed.

Lemma replace_last_none_ok val t : tree_ok t → 0 < tsize t →
  ∃ v', Value.replace_last_none val (make_empty t) = Some v' ∧
        leaves t v' = Some (replicate (tsize t - 1) Value.none ++ [val]).
Proof.
  intros Ht. induction t as [|sz ts IH] using tuple_tree_ind; intros Hpos; [by eexists|].
  inversion Ht as [|? _ Hok Hpt]; subst. clear Ht. cbn [make_empty tsize leaves] in *.
  assert (∀ f, (∀ v, f v = Value.replace_last_none val v) → ∃ vs, Value.update_last f (List.map make_empty ts) = Some vs ∧
    leaves_list leaves ts vs = Some (replicate (sum_list (tsize <$> ts) - 1) Value.none ++ [val])) as Hu.
  { intros f Hf. induction ts as [|t ts IHts]; [cbn in Hpos; lia|].
    apply Forall_cons_iff in IH as [IH1 IH2]. apply Forall_cons_iff in Hok as [Hok1 Hok2].
    apply Forall_cons_iff in Hpt as [Hp1 Hp2].
    change (sum_list (tsize <$> t :: ts)) with (tsize t + sum_list (tsize <$> ts)) in *.
    destruct ts as [|t2 ts].
    - destruct (IH1 Hok1 Hp1) as (v' & Hv' & Hl'). exists [v']. cbn. rewrite Hf, Hv', Hl'. cbn.
      rewrite app_nil_r. by replace (tsize t + 0 - 1) with (tsize t - 1) by lia.
    - destruct (IHts IH2) as (vs & Hvs & Hlv); [|done..|].
      { apply Forall_cons_iff in Hp2 as [? _]. cbn. lia. }
      exists (make_empty t :: vs). cbn [List.map Value.update_last] in Hvs |- *. fold (Value.update_last f) in Hvs |- *.
      split; [by rewrite Hvs|]. rewrite leaves_list_eq, make_empty_leaves, Hlv by done. cbn [mbind option_bind].
      rewrite app_assoc, <- replicate_add. do 3 f_equal.
      apply Forall_cons_iff in Hp2 as [? _]. cbn. lia. }
  destruct (Hu (Value.replace_last_none val)) as (vs & Hvs & Hl); [done|].
  exists (Value.Tuple vs). split; [|exact Hl].
  destruct ts as [|t ts]; [cbn in Hpos; lia|].
  change (Value.replace_last_none val (Value.new_tuple (List.map make_empty (t :: ts)))) with
    (new_tup ← Value.update_last (Value.replace_last_none val) (List.map make_empty (t :: ts));
     Some (Value.new_tuple new_tup)).
  by rewrite Hvs.
Qed.

(** ** The initialisation code through the passes *)

(** An AVM instruction without labels: every pass but the optimiser leaves it
    as it is. *)
Definition plain (i : insn) : Prop := virtual i = false ∧ imm_labels i = [].

Lemma value_no_labels_ind (P : Value.t → Prop) :
  (∀ v, (∀ vs, v ≠ Value.Tuple vs) → value_labels v = [] → P v) →
  (∀ vs, Forall P vs → P (Value.Tuple vs)) → ∀ v, value_labels v = [] → P v.
Proof.
  intros Hb Ht v. induction v as [i|vs IH|cp|l|b] using Value.tree_ind; intros Hv; try (by apply Hb).
  apply Ht. cbn [value_labels] in Hv. induction IH as [|v vs H1 _ IHvs]; [constructor|].
  cbn [flat_map] in Hv. apply app_nil in Hv as [Hv1 Hv2]. constructor; [by apply H1|by apply IHvs].
Qed.

Lemma replace_labels_none m v : value_labels v = [] → Value.replace_labels m v = Ok v.
Proof.
  revert v. apply value_no_labels_ind.
  - intros [] Hn Hl; try done. by destruct (Hn v).
  - intros vs Hvs. cbn [Value.replace_labels].
    enough (mapM (Value.replace_labels m) vs = Ok vs) as -> by done.
    induction Hvs as [|v vs Hv _ IH]; [done|]. cbn [mapM]. rewrite Hv. cbn [mbind outcome_bind]. by rewrite IH.
Qed.

Lemma xlate_labels_none m v : value_labels v = [] → Value.xlate_labels m v = v.
Proof.
  revert v. apply value_no_labels_ind.
  - intros [] Hn Hl; try done. by destruct (Hn v).
  - intros vs Hvs. cbn [Value.xlate_labels]. unfold Value.new_tuple. f_equal.
    induction Hvs as [|v vs Hv _ IH]; [done|]. cbn. by rewrite Hv, IH.
Qed.

Lemma make_empty_no_labels t : value_labels (make_empty t) = [].
Proof.
  induction t as [|sz ts IH] using tuple_tree_ind; [done|]. cbn [make_empty Value.new_tuple value_labels].
  induction IH as [|t ts Ht _ IHts]; [done|]. cbn. by rewrite Ht, IHts.
Qed.

Lemma plain_xlate m i : plain i → Instruction.xlate_labels i m = i.
Proof.
  destruct i as [op [v|] d]; [|done]. intros [_ Hl]. unfold Instruction.xlate_labels. cbn in *.
  by rewrite xlate_labels_none.
Qed.

Lemma plain_fix_label imps gidx st i : plain i → fix_label imps gidx st i = ([i], st).
Proof.
  destruct i as [[] imm d]; intros [Hv Hl]; try done. unfold fix_label. cbn in *.
  by destruct imm as [[]|].
Qed.

Lemma plain_fix_labels imps gidx st pre c : Forall plain pre →
  fix_labels imps gidx st (pre ++ c) =
  (pre ++ (fix_labels imps gidx st c).1, (fix_labels imps gidx st c).2).
Proof.
  induction 1 as [|i pre Hi _ IH]; [cbn [app]; by destruct (fix_labels imps gidx st c)|].
  cbn [app fix_labels]. by rewrite plain_fix_label, IH.
Qed.

Lemma plain_xform n pre : Forall plain pre → concat (xform_external n <$> pre) = pre.
Proof.
  induction 1 as [|i pre [Hv _] _ IH]; [done|].
  change (xform_external n i ++ concat (xform_external n <$> pre) = i :: pre). rewrite IH.
  unfold xform_external, virtual in *. by destruct (Instruction.opcode i).
Qed.

Lemma plain_fix_nonforward pre c imps gidx c' jt : Forall plain pre →
  fix_nonforward_labels (pre ++ c) imps gidx = (c', jt) → ∃ c2, c' = pre ++ c2.
Proof.
  intros Hpre. unfold fix_nonforward_labels. rewrite plain_fix_labels by done.
  destruct (fix_labels _ _ _ c) as [c1 st]. cbn [fst snd]. intros Hf. apply pair_equal_spec in Hf as [<- <-].
  rewrite fmap_app, concat_app, plain_xform by done. by eexists.
Qed.

Lemma plain_fix_tuple_size gt lt pre c c' : Forall plain pre →
  fix_tuple_size_loop gt lt (pre ++ c) = Ok c' → ∃ c2, c' = pre ++ c2.
Proof.
  intros Hpre. revert c'. induction Hpre as [|i pre [Hv _] _ IH]; intros c' Hf; [by exists c'|].
  cbn [app fix_tuple_size_loop] in Hf.
  assert (fix_insn gt lt i = Ok ([i], lt)) as Hi.
  { unfold fix_insn, virtual in *. by destruct (Instruction.opcode i). }
  rewrite Hi in Hf. cbn [mbind outcome_bind] in Hf.
  destruct (fix_tuple_size_loop gt lt (pre ++ c)) as [c1| |] eqn:E; try done.
  destruct (IH _ eq_refl) as [c2 ->]. simplify_eq/=. by exists c2.
Qed.

Lemma plain_replace_all m pre c c' : Forall plain pre →
  replace_all (pre ++ c) m = Ok c' → ∃ c2, c' = pre ++ c2 ∧ replace_all c m = Ok c2.
Proof.
  intros Hpre. revert c'. induction Hpre as [|i pre [Hv Hl] _ IH]; intros c' Hf; [by exists c'; split|].
  cbn [app replace_all] in Hf.
  assert (Instruction.get_label i = None) as Hg by (unfold Instruction.get_label, virtual in *; by destruct (Instruction.opcode i)).
  assert (Instruction.replace_labels i m = Ok i) as Hi.
  { destruct i as [op [v|] d]; [|done]. unfold Instruction.replace_labels. cbn in *. by rewrite replace_labels_none. }
  rewrite Hg, Hi in Hf. destruct (replace_all (pre ++ c) m) as [c1| |] eqn:E; try done.
  destruct (IH _ eq_refl) as (c2 & -> & Hc2). simplify_eq/=. by exists c2.
Qed.

(** What the optimiser makes of the initialisation code. *)
Definition init_short (test_mode : bool) (empty : Value.t) : list insn :=
  (if test_mode then [] else [op_ AVMOpcode.Rpush DebugInfo_default])
  ++ [op_imm AVMOpcode.Noop Value.none DebugInfo_default; op_imm AVMOpcode.Rset empty DebugInfo_default].

Lemma peephole_init (test_mode : bool) empty c :
  peephole ((if test_mode
             then [op_imm AVMOpcode.Noop Value.none DebugInfo_default;
                   op_imm AVMOpcode.Noop empty DebugInfo_default;
                   op_ AVMOpcode.Rset DebugInfo_default]
             else [op_ AVMOpcode.Rpush DebugInfo_default;
                   op_imm AVMOpcode.Noop Value.none DebugInfo_default;
                   op_imm AVMOpcode.Rset empty DebugInfo_default]) ++ c)
  = init_short test_mode empty ++ peephole c.
Proof.
  destruct test_mode.
  - unfold peephole, useless_opcodes_layer. rewrite List.filter_app, foldl_app.
    replace (foldl peephole_push [] (List.filter _ _))
      with ([] ++ op_imm AVMOpcode.Rset empty DebugInfo_default :: [op_imm AVMOpcode.Noop Value.none DebugInfo_default])
      by reflexivity.
    rewrite peephole_fold_barrier, rev_app_distr by apply rset_inert. done.
  - change (_ ++ c) with ([op_ AVMOpcode.Rpush DebugInfo_default;
                           op_imm AVMOpcode.Noop Value.none DebugInfo_default]
      ++ op_imm AVMOpcode.Rset empty DebugInfo_default :: c).
    rewrite peephole_inert by apply rset_inert. done.
Qed.

(** ** What [link] puts in front *)
Definition init_insns (test_mode : bool) (empty : Value.t) : list insn :=
  if test_mode
  then [op_imm AVMOpcode.Noop Value.none DebugInfo_default;
        op_imm AVMOpcode.Noop empty DebugInfo_default;
        op_ AVMOpcode.Rset DebugInfo_default]
  else [op_ AVMOpcode.Rpush DebugInfo_default;
        op_imm AVMOpcode.Noop Value.none DebugInfo_default;
        op_imm AVMOpcode.Rset empty DebugInfo_default].

Lemma init_plain test_mode t : Forall plain (init_insns test_mode (make_empty t)).
Proof.
  destruct test_mode; repeat constructor; unfold imm_labels; cbn; apply make_empty_no_labels.
Qed.

Lemma init_code_eq test_mode n t : tree_new n false = Some t →
  init_code test_mode n = Some (init_insns test_mode (make_empty t)).
Proof. intros Ht. unfold init_code, make_uninitialized_tuple. rewrite Ht. done. Qed.

Lemma link_init progs test_mode w program w' : link progs test_mode w = Some (program, w') →
  0 < length (globals program) ∧ ∃ t rest, tree_new (length (globals program)) false = Some t ∧
  cp_code program = init_insns test_mode (make_empty t) ++ rest.
Proof.
  unfold link. intros Hl. apply bind_Some in Hl as (first & _ & Hl).
  apply bind_Some in Hl as ([offs sfm] & _ & Hl). apply bind_Some in Hl as ([rps gs] & _ & Hl).
  apply bind_Some in Hl as (init & Hi & Hl). destruct (xlate_map _ _ _ _) as [xm w1]. simplify_eq. cbn [globals cp_code].
  rewrite length_app. split; [cbn; lia|].
  destruct (tree_new_spec (length (gs ++ [jump_table_decl])) false) as (t & Ht & _).
  rewrite (init_code_eq _ _ t Ht) in Hi. simplify_eq. exists t. eexists.
  rewrite <- length_app. split; [done|]. rewrite fmap_app. f_equal.
  rewrite <- (list_fmap_id (init_insns _ _)) at 2. apply list_fmap_ext.
  intros j i Hj. apply plain_xlate. by eapply Forall_lookup_1; [apply init_plain|exact Hj].
Qed.

Lemma hardcode_init test_mode empty c val v' : Value.replace_last_none val empty = Some v' →
  hardcode_jump_table_into_register (init_short test_mode empty ++ c) val test_mode
  = Some (init_short test_mode v' ++ c).
Proof.
  intros Hv. unfold hardcode_jump_table_into_register.
  destruct test_mode; cbn [init_short app lookup list_lookup mbind option_bind op_imm Instruction.from_opcode_imm
    Instruction.new Instruction.immediate]; rewrite Hv; done.
Qed.

Lemma init_short_plain test_mode t : Forall plain (init_short test_mode (make_empty t)).
Proof.
  destruct test_mode; repeat constructor; unfold imm_labels; cbn; apply make_empty_no_labels.
Qed.

(** The passes of [postlink_compile] on a linked program, with the
    initialisation code apart: [c3] is the program before optimisation, [m] the
    positions of its labels, [c6] its machine code. *)
Lemma postlink_parts progs test_mode w program w' lp :
  link progs test_mode w = Some (program, w') → postlink_compile program test_mode = Ok lp →
  let n := length (globals program) in
  ∃ t code_2 jt c3 m c5 cps jtv reg c6,
    0 < n ∧ tree_new n false = Some t ∧
    fix_nonforward_labels (cp_code program) (imported_funcs program) (n - 1) = (code_2, jt) ∧
    fix_tuple_size code_2 n = Ok (init_insns test_mode (make_empty t) ++ c3) ∧
    collect_labels (init_short test_mode (make_empty t) ++ peephole c3) 0 (import_labels (imported_funcs program)) = Ok m ∧
    replace_all (peephole c3) m = Ok c5 ∧ lookup_all jt m = Ok cps ∧
    jump_table_to_value cps = Some jtv ∧ leaves t reg = Some (replicate (n - 1) Value.none ++ [jtv]) ∧
    mapM to_avm c5 = Ok c6 ∧
    mapM to_avm (init_short test_mode reg ++ c5) = Ok (lp_code lp) ∧
    strip_labels (init_short test_mode (make_empty t) ++ peephole c3) jt (imported_funcs program)
    = Ok (init_short test_mode (make_empty t) ++ c5, cps).
Proof.
  intros Hl Hp n. destruct (link_init _ _ _ _ _ Hl) as (Hn & t & rest & Ht & Hcode). clear Hl.
  destruct (tree_new_inv _ _ _ Ht) as [Hok Hsz].
  unfold postlink_compile in Hp. replace (match globals program with [] => None | _ => _ end)
    with (Some (n - 1)) in Hp by (unfold n; destruct (globals program); [cbn in Hn; lia|done]).
  cbn [unwrap mbind outcome_bind] in Hp. rewrite Hcode in *.
  destruct (fix_nonforward_labels (init_insns test_mode (make_empty t) ++ rest) (imported_funcs program) (n - 1))
    as [code_2 jt] eqn:E2.
  destruct (plain_fix_nonforward _ _ _ _ _ _ (init_plain test_mode t) E2) as [c2 ->].
  destruct (fix_tuple_size _ _) as [code_3| |] eqn:E3 in Hp; try done. cbn [mbind outcome_bind] in Hp.
  assert (∃ c3, code_3 = init_insns test_mode (make_empty t) ++ c3) as [c3 ->].
  { pose proof E3 as E4. unfold fix_tuple_size in E4. destruct (unwrap _) as [lt| |] in E4; try done.
    cbn [mbind outcome_bind] in E4. destruct (unwrap _) as [gt| |] in E4; try done.
    by eapply plain_fix_tuple_size; [apply init_plain|]. }
  unfold init_insns in Hp. rewrite peephole_init in Hp.
  destruct (strip_labels _ _ _) as [[code_5 cps]| |] eqn:E5 in Hp; try done. cbn [mbind outcome_bind] in Hp.
  pose proof E5 as Es. unfold strip_labels in E5. destruct (collect_labels _ _ _) as [m| |] eqn:Em in E5; try done. cbn in E5.
  destruct (replace_all _ m) as [c| |] eqn:Ec in E5; try done. cbn in E5.
  destruct (lookup_all jt m) as [cps'| |] eqn:Ej in E5; simplify_eq/=.
  destruct (plain_replace_all _ _ _ _ (init_short_plain test_mode t) Ec) as (c5 & -> & Hc5).
  destruct (jump_table_to_value cps) as [jtv|] eqn:Ejt; [|done]. cbn [unwrap mbind outcome_bind] in Hp.
  destruct (replace_last_none_ok jtv t Hok) as (reg & Hreg & Hleaves); [lia|].
  rewrite (hardcode_init _ _ _ _ _ Hreg) in Hp. cbn [unwrap mbind outcome_bind] in Hp.
  destruct (mapM to_avm (init_short test_mode reg ++ c5)) as [cf| |] eqn:Ef; try done. injection Hp as <-.
  assert (∃ c6, mapM to_avm c5 = Ok c6) as [c6 H6].
  { destruct test_mode; cbn [init_short app mapM to_avm op_imm op_ Instruction.from_opcode_imm Instruction.from_opcode
      Instruction.new Instruction.opcode mbind outcome_bind mret outcome_ret] in Ef;
    destruct (mapM to_avm c5) as [c6| |]; simplify_eq/=; by eexists. }
  exists t, (init_insns test_mode (make_empty t) ++ c2), jt, c3, m, c5, cps, jtv, reg, c6.
  split_and!; try done. rewrite Hsz in Hleaves. exact Hleaves.
Qed.

(** The first instructions of the executable. *)
Lemma init_steps test_mode reg c5 c6 final s a r : mapM to_avm c5 = Ok c6 → mapM to_avm (init_short test_mode reg ++ c5) = Ok final →
  steps view_op (take (if test_mode then 2 else 3) final) (mkView s a r)
  = Some (mkView (Value.none :: if test_mode then s else r :: s) a reg).
Proof.
  intros H6 Hf. destruct test_mode; cbn [init_short app mapM to_avm op_imm op_ Instruction.from_opcode_imm Instruction.from_opcode
    Instruction.new Instruction.opcode mbind outcome_bind mret outcome_ret] in Hf;
  rewrite H6 in Hf; injection Hf as <-; done.
Qed.

(** ** Properties *)

(** C21: modules do not interfere.  After the relocation done by [link], no
    label (of a function, a jump target or an import) occurs in two modules,
    provided the modules number their own anonymous labels and imports within
    bounds. *)
Theorem modules_disjoint progs sfm offs sfm' rps gs j k p q l :
  assign_offsets progs 3 0 sfm = Some (offs, sfm') →
  relocate_all (zip progs offs) 0 [] = Some (rps, gs) → forallb prog_ok progs = true →
  rps !! j = Some p → rps !! k = Some q → j ≠ k → l ∈ prog_labels p → l ∉ prog_labels q.
Proof.
  intros Ho Hr Hok Hj Hk Hne Hl Hq. destruct (relocate_all_above _ _ _ _ _ _ _ _ _ _ Ho Hr Hok) as [_ Hd].
  destruct (decide (j < k)).
  - by eapply (Hd j k).
  - eapply (Hd k j q p); eauto. lia.
Qed.

(** C13: the executable sets up its globals.  For every program that links and
    compiles, the first instructions of the executable (two of the three that
    [link] put there remain in test mode) load a register whose leaves are the
    globals, all unset but the last, which is the jump table with the code
    points of the labels [fix_nonforward_labels] collected. *)
Theorem executable_init progs test_mode w program w' lp s a r :
  link progs test_mode w = Some (program, w') → postlink_compile program test_mode = Ok lp →
  let n := length (globals program) in
  ∃ t code_2 jt code_3 code_5 cps jtv reg,
    tree_new n false = Some t ∧
    fix_nonforward_labels (cp_code program) (imported_funcs program) (n - 1) = (code_2, jt) ∧
    fix_tuple_size code_2 n = Ok code_3 ∧
    strip_labels (peephole code_3) jt (imported_funcs program) = Ok (code_5, cps) ∧
    jump_table_to_value cps = Some jtv ∧
    leaves t reg = Some (replicate (n - 1) Value.none ++ [jtv]) ∧
    steps view_op (take (if test_mode then 2 else 3) (lp_code lp)) (mkView s a r)
    = Some (mkView (Value.none :: if test_mode then s else r :: s) a reg).
Proof.
  intros Hl Hp n. destruct (postlink_parts _ _ _ _ _ _ Hl Hp)
    as (t & code_2 & jt & c3 & m & c5 & cps & jtv & reg & c6 & Hn & Ht & H2 & H3 & _ & _ & _ & Hj & Hr & H6 & Hf & Hs).
  exists t, code_2, jt, (init_insns test_mode (make_empty t) ++ c3), (init_short test_mode (make_empty t) ++ c5), cps, jtv, reg.
  split_and!; try done; [unfold init_insns; by rewrite peephole_init|].
  by apply (init_steps test_mode reg c5 c6).
Qed.

(** A backward reference reaches its label.  With the jump table of the
    code points [cps] as the last of the globals in the register, the code that
    replaces a reference to entry [k] pushes exactly that code point and leaves
    everything else alone. *)
Theorem jump_table_reference n t lt di cps jtv gs reg k cp s a :
  tree_new n false = Some t → leaves t reg = Some gs → gs !! (n - 1) = Some jtv →
  jump_table_to_value cps = Some jtv → cps !! k = Some cp → (Z.of_nat k < two64)%Z →
  ∃ c1 c2,
    fix_insn t lt (Instruction.from_opcode (Opcode.GetGlobalVar (n - 1)) di) = Ok (c1, lt) ∧
    fix_insn t lt (Instruction.from_opcode_imm (Opcode.TupleGet (length cps)) (slot_val k) di) = Ok (c2, lt) ∧
    run_code (c1 ++ c2) (mkView s a reg) = Some (mkView (Value.CodePoint cp :: s) a reg).
Proof.
  intros Ht Hreg Hgs Hjt Hk Hb. destruct (tree_new_inv _ _ _ Ht) as [Hok _].
  destruct (read_code_ok t false (n - 1) di reg gs jtv s a reg Hok Hreg Hgs) as (c & Hc & Hrun).
  destruct (tree_new_spec (length cps) false) as (t2 & Ht2 & Hok2 & Hsz2).
  unfold jump_table_to_value in Hjt. rewrite Ht2 in Hjt. cbn [mbind option_bind] in Hjt.
  destruct (make_value_ok t2 (Value.CodePoint <$> cps) Hok2) as (v & Hv & Hlv); [by rewrite length_fmap|].
  assert (jtv = v) as -> by congruence.
  destruct (read_code_ok t2 false k di v (Value.CodePoint <$> cps) (Value.CodePoint cp) s a reg Hok2 Hlv)
    as (c' & Hc' & Hrun'); [by rewrite list_lookup_fmap, Hk|].
  unfold fix_insn. cbn [Instruction.opcode Instruction.immediate Instruction.debug_info
    Instruction.from_opcode_imm Instruction.from_opcode Instruction.new]. rewrite Hc, Ht2.
  cbn [unwrap mbind outcome_bind]. rewrite index_of_slot by done. cbn [mbind outcome_bind]. rewrite Hc'.
  eexists _, c'. split; [done|]. split; [done|]. cbn [app]. erewrite run_op by reflexivity.
  erewrite run_code_app by exact Hrun. exact Hrun'.
Qed.

(** The limit on globals is the right one.  The compiler refuses programs
    with 58 globals or more so that the first global is component 0 of the
    register; it is, for every smaller number from two on, and is not for 58. *)
Theorem first_global_slot :
  (∀ n, 2 <= n < 58 → ∃ ts, tree_new n false = Some (Tree n (Single :: ts))) ∧
  ¬ ∃ ts, tree_new 58 false = Some (Tree 58 (Single :: ts)).
Proof.
  assert (forallb (λ n, match tree_new n false with
                        | Some (Tree m (Single :: _)) => Nat.eqb m n
                        | _ => false end) (seq 2 56) = true) as Hall by (vm_compute; reflexivity).
  split.
  - intros n Hn. rewrite forallb_forall in Hall. specialize (Hall n).
    destruct (tree_new n false) as [[|m [|[|] ts]]|]; rewrite in_seq in Hall;
      try (exfalso; discriminate Hall; lia).
    exists ts. f_equal. f_equal. apply Nat.eqb_eq, Hall. lia.
  - intros [ts Ht]. vm_compute in Ht. discriminate.
Qed.

Lemma assign_offsets_empty progs i e sfm prog path :
  prog ∈ progs → cp_code prog = [] →
  source_file_map prog = Some (SourceFileMap.new (length (cp_code prog)) path) →
  assign_offsets progs i e sfm = None.
Proof.
  intros Hin Hc Hs. revert i e sfm. induction Hin as [prog progs|prog q progs Hin IH]; intros i e sfm; cbn [assign_offsets].
  - rewrite Hs, Hc. done.
  - destruct (source_file_map q) as [m|]; [|cbn; by rewrite IH].
    destruct (SourceFileMap.get m 0); cbn; [by rewrite IH|done].
Qed.

(** A module without code cannot be linked.  If a module generates no
    instructions (it declares only types, or all its functions were removed as
    unreachable), [link] panics on its source map. *)
Theorem empty_module_panics progs test_mode w prog path :
  prog ∈ progs → cp_code prog = [] →
  source_file_map prog = Some (SourceFileMap.new (length (cp_code prog)) path) →
  link progs test_mode w = None.
Proof.
  intros Hin Hc Hs. unfold link. destruct (head progs); [|done]. cbn [mbind option_bind].
  by rewrite (assign_offsets_empty progs 3 0 _ prog path).
Qed.

(** ** Examples *)

(** Two modules with a loop each; the first calls a function of the second. *)
Definition demo_module (call : Value.t) (imps : list ImportedFunc) (exps : list ExportedFunc) : CompiledProgram :=
  mkCompiledProgram
    [Instruction.from_opcode (Opcode.Label (Label.Func 0)) DebugInfo_default;
     Instruction.from_opcode (Opcode.Label (Label.Anon 0)) DebugInfo_default;
     op_imm AVMOpcode.Noop call DebugInfo_default;
     op_ AVMOpcode.Pop DebugInfo_default;
     op_imm AVMOpcode.Jump (Value.Label (Label.Anon 0)) DebugInfo_default]
    exps imps [mkGlobalVarDecl 1 "g" Tipe.Uint None] (Some (SourceFileMap.new 5 "m.mini")) ∅.
Definition demo_progs : list CompiledProgram :=
  [demo_module (Value.Label (Label.External 0)) [mkImportedFunc 1 0 "f"] [];
   demo_module Value.none [] [mkExportedFunc "f" (Label.Func 0) Tipe.Any]].

Definition demo_offsets : list (nat * nat) := [(3, 0); (8, 1)].
Definition demo_relocated : list CompiledProgram :=
  (default ([], []) (relocate_all (zip demo_progs demo_offsets) 0 [])).1.

Lemma modules_disjoint_witness :
  Label.Anon 8 ∉ prog_labels (default (demo_module Value.none [] []) (demo_relocated !! 0)).
Proof.
  refine (modules_disjoint demo_progs SourceFileMap.new_empty demo_offsets _ demo_relocated _ 1 0 _ _ (Label.Anon 8)
    _ _ _ _ _ _ _).
  - vm_compute. reflexivity.
  - vm_compute. reflexivity.
  - vm_compute. reflexivity.
  - vm_compute. reflexivity.
  - vm_compute. reflexivity.
  - discriminate.
  - apply (bool_decide_unpack _). vm_compute. exact I.
Defined.

Definition demo_linked : CompiledProgram :=
  default (demo_module Value.none [] []) (fst <$> link demo_progs false []).
Definition demo_executable : LinkedProgram :=
  match postlink_compile demo_linked false with
  | Ok lp => lp
  | _ => mkLinkedProgram [] Value.none [] ∅
  end.

Lemma executable_init_witness :
  ∃ jtv reg, leaves (default Single (tree_new 3 false)) reg = Some [Value.none; Value.none; jtv] ∧
    steps view_op (take 3 (lp_code demo_executable)) (mkView [] [] Value.none)
    = Some (mkView [Value.none; Value.none] [] reg).
Proof.
  destruct (executable_init demo_progs false [] demo_linked [] demo_executable [] [] Value.none)
    as (t & c2 & jt & c3 & c5 & cps & jtv & reg & Ht & _ & _ & _ & _ & Hl & Hs).
  - vm_compute. reflexivity.
  - vm_compute. reflexivity.
  - exists jtv, reg. split; [|exact Hs]. change (length (globals demo_linked)) with 3 in Ht, Hl.
    rewrite Ht. exact Hl.
Defined.

Lemma jump_table_reference_witness :
  ∃ c1 c2 reg,
    leaves (default Single (tree_new 3 false)) reg
    = Some [Value.none; Value.none; Value.Tuple [Value.CodePoint (CodePt.Internal 3); Value.CodePoint (CodePt.Internal 6)]] ∧
    run_code (c1 ++ c2) (mkView [] [] reg) = Some (mkView [Value.CodePoint (CodePt.Internal 6)] [] reg).
Proof.
  set (reg := Value.Tuple [Value.none; Value.none;
    Value.Tuple [Value.CodePoint (CodePt.Internal 3); Value.CodePoint (CodePt.Internal 6)]]).
  destruct (jump_table_reference 3 (Tree 3 [Single; Single; Single]) Single DebugInfo_default
    [CodePt.Internal 3; CodePt.Internal 6]
    (Value.Tuple [Value.CodePoint (CodePt.Internal 3); Value.CodePoint (CodePt.Internal 6)])
    [Value.none; Value.none; Value.Tuple [Value.CodePoint (CodePt.Internal 3); Value.CodePoint (CodePt.Internal 6)]]
    reg 1 (CodePt.Internal 6) [] [])
    as (c1 & c2 & _ & _ & Hrun); [vm_compute; reflexivity..|].
  exists c1, c2, reg. split; [vm_compute; reflexivity|exact Hrun].
Defined.

Lemma empty_module_panics_witness :
  let empty := mkCompiledProgram [] [] [] [] (Some (SourceFileMap.new 0 "types.mini")) ∅ in
  link (demo_progs ++ [empty]) false [] = None.
Proof.
  intros empty. apply (empty_module_panics (demo_progs ++ [empty]) false [] empty "types.mini").
  - apply elem_of_app. right. by constructor.
  - reflexivity.
  - reflexivity.
Defined.
