(* ===== verification/Assembly.v ===== *)
(** * Labelled assembly and the last passes of the linker

    An abstract machine for code of AVM instructions and labels, as it is after
    [fix_tuple_size]: the two stacks and the register of [view_op], and jumps
    from code points to labels.  Immediates already hold code points.

    [peephole_simulates]: what the machine does on a program between two labels
    it does on the optimised program too; here the optimiser works on a whole
    program with jumps.  [emulator_simulates]: the emulator does it on the code
    without labels.  [assembled_code_runs] puts the two together for the
    executables of [postlink_compile]. *)

From Stdlib Require Import ZArith Lia.
From stdpp Require Import relations.
From S2P Require Import Prelude U256 Pos Opcodes Crypto BufferTree Values RuntimeEnv Machine Insns Emulator EmulatorSafe EmulatorThms StraightLine TupleTree Peephole StripLabels Types Link.

#[local] Set Warnings "-clear-no-such-hyp".

(** ** The machine *)
Record asm := mkAsm { a_pc : nat; a_view : view }.

Definition is_jump (op : AVMOpcode.t) : bool :=
  match op with AVMOpcode.Jump | AVMOpcode.Cjump => true | _ => false end.
Definition straight (i : insn) : bool :=
  match Instruction.opcode i with Opcode.AVM op => negb (is_jump op) | _ => false end.

Definition with_stack (v : view) (s : list Value.t) : view := mkView s (v_aux v) (v_reg v).

Section asm_machine.
Context (lm : gmap Label.t CodePt.t) (code : list insn).

(** A label with the code point [cp] stands at [p]. *)
Definition target (cp : CodePt.t) (p : nat) : Prop :=
  ∃ i l, code !! p = Some i ∧ Instruction.get_label i = Some l ∧ lm !! l = Some cp.

Inductive asm_step : asm → asm → Prop :=
| asm_label pc v i l :
    code !! pc = Some i → Instruction.get_label i = Some l → asm_step (mkAsm pc v) (mkAsm (S pc) v)
| asm_op pc v i v' :
    code !! pc = Some i → straight i = true → step (lift_sem bool_view_op) i v = Some v' →
    asm_step (mkAsm pc v) (mkAsm (S pc) v')
| asm_jump pc v i cp s p :
    code !! pc = Some i → Instruction.opcode i = Opcode.AVM AVMOpcode.Jump →
    v_stack (push_imm i v) = Value.CodePoint cp :: s → target cp p → asm_step (mkAsm pc v) (mkAsm p (with_stack v s))
| asm_cjump pc v i cp c s p :
    code !! pc = Some i → Instruction.opcode i = Opcode.AVM AVMOpcode.Cjump →
    v_stack (push_imm i v) = Value.CodePoint cp :: Value.Int c :: s → c ≠ 0%Z → target cp p →
    asm_step (mkAsm pc v) (mkAsm p (with_stack v s))
| asm_cjump_not pc v i cp s :
    code !! pc = Some i → Instruction.opcode i = Opcode.AVM AVMOpcode.Cjump →
    v_stack (push_imm i v) = Value.CodePoint cp :: Value.Int 0 :: s →
    asm_step (mkAsm pc v) (mkAsm (S pc) (with_stack v s)).

Definition asm_star : asm → asm → Prop := rtc asm_step.

(** Straight-line code. *)
Lemma asm_steps pre c post v v' :
  code = pre ++ c ++ post → Forall (λ i, straight i = true) c → steps (lift_sem bool_view_op) c v = Some v' →
  asm_star (mkAsm (length pre) v) (mkAsm (length pre + length c) v').
Proof.
  revert pre v. induction c as [|i c IH]; intros pre v Hcode Hs Hv.
  - injection Hv as <-. rewrite Nat.add_0_r. apply rtc_refl.
  - apply Forall_cons_1 in Hs as [Hi Hs]. cbn [steps] in Hv. apply bind_Some in Hv as (v1 & Hv1 & Hv).
    eapply rtc_l.
    + eapply asm_op; [|exact Hi|exact Hv1]. rewrite Hcode. by rewrite lookup_app_r, Nat.sub_diag by lia.
    + specialize (IH (pre ++ [i]) v1). rewrite length_app in IH. cbn [length] in *. rewrite Nat.add_1_r in IH.
      rewrite <- plus_n_Sm. apply IH; [by rewrite <- app_assoc|done|done].
Qed.
End asm_machine.

(** ** The optimiser on programs with jumps *)

(** Instructions that no rule mentions as the earlier of two. *)
Definition closing (b : insn) : Prop := ∀ i rest, rewrite_top i b rest = None.
(** No rule applies at the end. *)
Definition normal (l : list insn) : Prop := ∀ fuel, rewrite_loop fuel l = l.

Lemma closing_jump i op : Instruction.opcode i = Opcode.AVM op → is_jump op = true → closing i.
Proof.
  intros Hop Hj. refine (not_earlier i _). intros op' Hin E. rewrite Hop in E. injection E as ->.
  repeat (apply elem_of_cons in Hin as [->|Hin]; [done|]). by apply elem_of_nil in Hin.
Qed.

(** What comes after such an instruction does not touch what is before. *)
Lemma rewrite_loop_closed fuel1 fuel2 l b out : closing b → normal (b :: out) →
  length l <= fuel1 → length l <= fuel2 → l ≠ [] →
  rewrite_loop fuel2 (l ++ b :: out) = rewrite_loop fuel1 l ++ b :: out.
Proof.
  intros Hb Hn. revert fuel2 l. induction fuel1 as [|fuel1 IH]; intros [|fuel2] [|i1 l] H1 H2 Hl; cbn in H1, H2; try (done || lia).
  destruct l as [|i2 rest].
  { cbn [app rewrite_loop]. by rewrite Hb. }
  cbn [app rewrite_loop]. rewrite rewrite_top_rest, (rewrite_top_rest _ _ rest).
  destruct (rewrite_top i1 i2 []) as [l'|] eqn:E; cbn [fmap option_fmap option_map]; [|done].
  rewrite app_assoc. pose proof (rewrite_top_short _ _ _ E) as Hs. cbn [length] in *.
  destruct (l' ++ rest) as [|i l''] eqn:El.
  - cbn [app]. rewrite Hn. by destruct fuel1.
  - assert (length (i :: l'') <= S (length rest)) by (rewrite <- El, length_app; lia).
    by apply IH; [lia..|].
Qed.

Lemma peephole_fold_closed l b out c : closing b → normal (b :: out) →
  foldl peephole_push (l ++ b :: out) c = foldl peephole_push l c ++ b :: out.
Proof.
  intros Hb Hn. revert l. induction c as [|i c IH]; intros l; [done|]. cbn [foldl].
  replace (peephole_push (l ++ b :: out) i) with (peephole_push l i ++ b :: out); [apply IH|].
  unfold peephole_push. change (i :: l ++ b :: out) with ((i :: l) ++ b :: out). symmetry.
  apply rewrite_loop_closed; [done|done|lia| |done]. rewrite length_app. lia.
Qed.

(** A jump takes over the immediate of a [Noop] before it, and nothing else happens. *)
Lemma push_jump out i op : Instruction.opcode i = Opcode.AVM op → is_jump op = true →
  ∃ i' out', peephole_push out i = i' :: out' ∧ Instruction.opcode i' = Opcode.AVM op ∧ normal (i' :: out') ∧ out' `suffix_of` out.
Proof.
  intros Hop Hj. destruct i as [o imm d]. cbn in Hop. subst o. unfold peephole_push.
  assert (∀ v d' l, normal (Instruction.mk (Opcode.AVM op) (Some v) d' :: l)) as Hdone.
  { intros v d' l [|fuel]; [done|]. destruct l as [|i2 l]; [done|]. cbn [rewrite_loop].
    unfold rewrite_top. cbn [Instruction.opcode Instruction.immediate]. by destruct op. }
  destruct imm as [v|]; [eexists _, out; split_and!; [apply Hdone|done|apply Hdone|done]|].
  destruct out as [|i2 rest].
  { eexists _, []. split_and!; [done|done| |done]. by intros [|]. }
  destruct (avm_imm AVMOpcode.Noop i2) as [[v|]|] eqn:En.
  { exists (op_imm op v d), rest. split_and!; [|done|apply Hdone|by exists [i2]].
    assert (rewrite_top (Instruction.mk (Opcode.AVM op) None d) i2 rest = Some (op_imm op v d :: rest)) as Htop.
    { unfold rewrite_top. cbn [Instruction.opcode Instruction.immediate Instruction.debug_info].
      destruct op; try discriminate; by rewrite En. }
    cbn [length]. generalize (S (length rest)). intros fuel. cbn [rewrite_loop]. rewrite Htop. apply Hdone. }
  all: assert (rewrite_top (Instruction.mk (Opcode.AVM op) None d) i2 rest = None) as Hnone
    by (unfold rewrite_top; cbn [Instruction.opcode Instruction.immediate]; destruct op; try discriminate; by rewrite En).
  all: eexists _, _; split_and!; [cbn [length rewrite_loop]; by rewrite Hnone|done| |done].
  all: intros [|fuel]; [done|]; cbn [rewrite_loop]; by rewrite Hnone.
Qed.

(** ** What the optimiser emits *)
Lemma rewrite_top_straight i1 i2 l : rewrite_top i1 i2 [] = Some l → straight i1 = true → Forall (λ i, straight i = true) l.
Proof.
  unfold rewrite_top, straight. intros Hl Hs. destruct (Instruction.opcode i1) as [ | | | | | | | | | | | | | | | | op1]; try done.
  destruct op1, (Instruction.immediate i1); try discriminate;
  repeat match type of Hl with context [avm_imm ?op i2] => destruct (avm_imm op i2) as [[|]|] end;
  simplify_eq; by repeat constructor.
Qed.

Lemma rewrite_loop_straight fuel l : Forall (λ i, straight i = true) l → Forall (λ i, straight i = true) (rewrite_loop fuel l).
Proof.
  revert l. induction fuel as [|fuel IH]; intros [|i1 [|i2 rest]] Hl; try done. cbn [rewrite_loop]. rewrite rewrite_top_rest.
  destruct (rewrite_top i1 i2 []) as [l|] eqn:E; [|done]. apply IH.
  apply Forall_cons_1 in Hl as [H1 [H2 Hr]%Forall_cons_1]. apply Forall_app. split; [by eapply rewrite_top_straight|done].
Qed.

Definition fold_out (c : list insn) : list insn := foldl peephole_push [] (useless_opcodes_layer c).
Lemma peephole_out c : peephole c = rev (fold_out c).
Proof. done. Qed.

Lemma fold_out_straight c : Forall (λ i, straight i = true) c → Forall (λ i, straight i = true) (fold_out c).
Proof.
  unfold fold_out. intros Hc. assert (Forall (λ i, straight i = true) (@nil insn)) as Hnil by constructor.
  revert Hnil. generalize (@nil insn). induction Hc as [|i c Hi _ IH]; intros out Hout; [done|].
  unfold useless_opcodes_layer. cbn [List.filter]. fold (useless_opcodes_layer c). destruct (useless i); cbn [negb]; [by apply IH|].
  cbn [foldl]. apply IH. unfold peephole_push. apply rewrite_loop_straight. by constructor.
Qed.

Lemma fold_out_snoc c i : useless i = false → fold_out (c ++ [i]) = peephole_push (fold_out c) i.
Proof.
  intros Hu. unfold fold_out, useless_opcodes_layer. rewrite List.filter_app, foldl_app. cbn [List.filter]. by rewrite Hu.
Qed.

Lemma fold_out_app c i c2 : useless i = false →
  fold_out (c ++ i :: c2) = foldl peephole_push (peephole_push (fold_out c) i) (useless_opcodes_layer c2).
Proof.
  intros Hu. unfold fold_out, useless_opcodes_layer. rewrite List.filter_app, foldl_app. cbn [List.filter]. by rewrite Hu.
Qed.

Lemma useless_jump i op : Instruction.opcode i = Opcode.AVM op → is_jump op = true → useless i = false.
Proof. unfold useless. intros -> Hj. by destruct op. Qed.

(** A block that ends with a jump: the optimised block ends with the same jump,
    and what follows is optimised on its own. *)
Lemma peephole_jump c (i : insn) op c2 : Instruction.opcode i = Opcode.AVM op → is_jump op = true → Forall (λ i, straight i = true) c →
  ∃ c' i', peephole (c ++ [i]) = c' ++ [i'] ∧ peephole (c ++ i :: c2) = c' ++ i' :: peephole c2 ∧
    Instruction.opcode i' = Opcode.AVM op ∧ Forall (λ i, straight i = true) c'.
Proof.
  intros Hop Hj Hc. destruct (push_jump (fold_out c) i op Hop Hj) as (i' & out' & Hpush & Hop' & Hn & [p Hp]).
  exists (rev out'), i'. split_and!.
  - rewrite peephole_out, fold_out_snoc by (by eapply useless_jump). by rewrite Hpush.
  - rewrite peephole_out, fold_out_app, Hpush by (by eapply useless_jump).
    change (i' :: out') with ([] ++ i' :: out'). rewrite peephole_fold_closed; [|by eapply closing_jump|done].
    rewrite rev_app_distr. cbn [rev app]. by rewrite <- app_assoc.
  - done.
  - apply Forall_rev. pose proof (fold_out_straight c Hc) as Ho. rewrite Hp in Ho. by apply Forall_app in Ho as [_ ?].
Qed.

(** ** The simulation *)

(** Jumps leave their operands; the machine takes them. *)
Definition jump_sem (op : AVMOpcode.t) (v : view) : option view := if is_jump op then Some v else bool_view_op op v.

#[global] Instance jump_sem_ok : PeepholeSem jump_sem.
Proof.
  split.
  - intros op v Hop. pose proof (sem_stack (sem := bool_view_op) op v Hop) as <-.
    repeat (apply elem_of_cons in Hop as [->|Hop]; [done|]). by apply elem_of_nil in Hop.
  - exact (sem_iszero (sem := bool_view_op)).
Qed.

Lemma steps_straight c v : Forall (λ i, straight i = true) c → steps (lift_sem jump_sem) c v = steps (lift_sem bool_view_op) c v.
Proof.
  intros Hc. revert v. induction Hc as [|i c Hi _ IH]; intros v; [done|]. cbn [steps].
  assert (step (lift_sem jump_sem) i v = step (lift_sem bool_view_op) i v) as ->.
  { unfold step, straight in *. destruct (Instruction.opcode i); try done. cbn. unfold jump_sem. by destruct (is_jump op). }
  destruct (step _ i v); [apply IH|done].
Qed.

(** A block with its jump, on the stacks: the optimised block hands the same
    operands to the same jump. *)
Lemma peephole_jump_steps c (i : insn) op c2 v v' : Instruction.opcode i = Opcode.AVM op → is_jump op = true →
  Forall (λ i, straight i = true) c → steps (lift_sem bool_view_op) c v = Some v' →
  ∃ c' i' v1, peephole (c ++ i :: c2) = c' ++ i' :: peephole c2 ∧ Instruction.opcode i' = Opcode.AVM op ∧
    Forall (λ i, straight i = true) c' ∧ steps (lift_sem bool_view_op) c' v = Some v1 ∧ push_imm i' v1 = push_imm i v'.
Proof.
  intros Hop Hj Hc Hv. destruct (peephole_jump c i op c2 Hop Hj Hc) as (c' & i' & H1 & H2 & Hop' & Hc').
  assert (steps (lift_sem jump_sem) (c ++ [i]) v = Some (push_imm i v')) as Hrun.
  { unfold insn. rewrite steps_app, steps_straight, Hv by done. cbn. unfold step. rewrite Hop. cbn. unfold jump_sem. by rewrite Hj. }
  apply (peephole_ok jump_sem (c ++ [i]) []) in Hrun.
  change (steps (lift_sem jump_sem) (peephole (c ++ [i])) v = Some (push_imm i v')) in Hrun.
  rewrite H1 in Hrun. unfold insn in Hrun. rewrite steps_app in Hrun.
  apply bind_Some in Hrun as (v1 & Hv1 & Hrun). rewrite steps_straight in Hv1 by done.
  exists c', i', v1. split_and!; try done. cbn in Hrun. unfold step in Hrun. rewrite Hop' in Hrun. cbn in Hrun.
  unfold jump_sem in Hrun. rewrite Hj in Hrun. by injection Hrun.
Qed.

Section peephole_simulation.
Context (lm : gmap Label.t CodePt.t) (code : list insn).

(** The optimised program lags behind: it still is where the current block
    begins; [c1] is the part of the block that the program has executed. *)
Definition lags (m m' : asm) : Prop :=
  ∃ A P c1 c2, code = A ++ c1 ++ c2 ∧ peephole code = P ++ peephole (c1 ++ c2) ∧
    a_pc m = length A + length c1 ∧ a_pc m' = length P ∧ Forall (λ i, straight i = true) c1 ∧
    steps (lift_sem bool_view_op) c1 (a_view m') = Some (a_view m).

Lemma label_virtual i l : Instruction.get_label i = Some l → virtual i = true.
Proof using Type. unfold Instruction.get_label, virtual. by destruct (Instruction.opcode i). Qed.

Lemma peephole_label c (i : insn) l c2 : Instruction.get_label i = Some l → peephole (c ++ i :: c2) = peephole c ++ i :: peephole c2.
Proof using Type. intros Hl. by eapply peephole_inert, virtual_inert, label_virtual. Qed.

(** At a label the optimised program is at its block. *)
Lemma lags_label p (i : insn) l v : code !! p = Some i → Instruction.get_label i = Some l →
  ∃ p', peephole code !! p' = Some i ∧ lags (mkAsm p v) (mkAsm p' v).
Proof using Type.
  intros Hi Hl. apply list_elem_of_split_length in Hi as (A & B & Hc & Hp).
  exists (length (peephole A)). rewrite Hc, (peephole_label A i l B Hl).
  split; [by apply list_lookup_middle|].
  exists A, (peephole A), [], (i :: B). split_and!; try done.
  - rewrite Hc. etrans; [apply (peephole_label A i l B Hl)|]. f_equal. symmetry. apply (peephole_label [] i l B Hl).
  - cbn. lia.
Qed.

Lemma lags_target cp p v : target lm code cp p → ∃ p', target lm (peephole code) cp p' ∧ lags (mkAsm p v) (mkAsm p' v).
Proof using Type.
  intros (i & l & Hi & Hl & Hcp). destruct (lags_label p i l v Hi Hl) as (p' & Hi' & Hlag).
  exists p'. split; [by exists i, l|done].
Qed.

(** The optimised program catches up at a label. *)
Lemma lags_catch_up m m' (i : insn) l : lags m m' → code !! a_pc m = Some i → Instruction.get_label i = Some l →
  ∃ p, asm_star lm (peephole code) m' (mkAsm p (a_view m)) ∧ peephole code !! p = Some i ∧
    ∀ s, lags (mkAsm (S (a_pc m)) s) (mkAsm (S p) s).
Proof using Type.
  destruct m as [pc v], m' as [pc' v']. intros (A & P & c1 & c2 & Hc & Hp & Hpc & Hpc' & Hs & Hv) Hi Hl. cbn [a_pc a_view] in *.
  rewrite Hc, app_assoc, lookup_app_r, length_app in Hi by (rewrite length_app; lia).
  replace (pc - (length A + length c1)) with 0 in Hi by lia. destruct c2 as [|i' c2]; [done|]. injection Hi as ->.
  rewrite (peephole_label c1 i l c2 Hl) in Hp.
  exists (length P + length (peephole c1)). subst pc'. split_and!.
  - eapply asm_steps; [exact Hp| |].
    + rewrite peephole_out. apply Forall_rev. by apply fold_out_straight.
    + by apply (peephole_ok bool_view_op c1 []).
  - rewrite Hp, app_assoc, lookup_app_r, length_app, Nat.sub_diag by (rewrite length_app; lia). done.
  - intros s. exists (A ++ c1 ++ [i]), (P ++ peephole c1 ++ [i]), [], c2. split_and!; try done.
    + by rewrite Hc, <- !app_assoc.
    + by rewrite Hp, <- !app_assoc.
    + cbn. rewrite !length_app. cbn. lia.
    + cbn. rewrite !length_app. cbn. lia.
Qed.

(** The optimised program up to and with the jump that ends the block. *)
Lemma lags_jump m m' (i : insn) op : lags m m' → code !! a_pc m = Some i → Instruction.opcode i = Opcode.AVM op → is_jump op = true →
  ∃ p i' v1, asm_star lm (peephole code) m' (mkAsm p v1) ∧ peephole code !! p = Some i' ∧ Instruction.opcode i' = Opcode.AVM op ∧
    push_imm i' v1 = push_imm i (a_view m) ∧ ∀ s, lags (mkAsm (S (a_pc m)) s) (mkAsm (S p) s).
Proof using Type.
  destruct m as [pc v], m' as [pc' v']. intros (A & P & c1 & c2 & Hc & Hp & Hpc & Hpc' & Hs & Hv) Hi Hop Hj. cbn [a_pc a_view] in *.
  rewrite Hc, app_assoc, lookup_app_r, length_app in Hi by (rewrite length_app; lia).
  replace (pc - (length A + length c1)) with 0 in Hi by lia. destruct c2 as [|i0 c2]; [done|]. injection Hi as ->.
  destruct (peephole_jump_steps c1 i op c2 _ _ Hop Hj Hs Hv) as (c' & i' & v1 & Hpe & Hop' & Hs' & Hv1 & Himm).
  rewrite Hpe in Hp. exists (length P + length c'), i', v1. subst pc'. split_and!; try done.
  - by eapply asm_steps.
  - rewrite Hp, app_assoc, lookup_app_r, length_app, Nat.sub_diag by (rewrite length_app; lia). done.
  - intros s. exists (A ++ c1 ++ [i]), (P ++ c' ++ [i']), [], c2. split_and!; try done.
    + by rewrite Hc, <- !app_assoc.
    + by rewrite Hp, <- !app_assoc.
    + cbn. rewrite !length_app. cbn. lia.
    + cbn. rewrite !length_app. cbn. lia.
Qed.

Lemma with_stack_imm (i i' : insn) v v1 s : push_imm i' v1 = push_imm i v → with_stack v1 s = with_stack v s.
Proof using Type.
  unfold push_imm, with_stack. destruct (Instruction.immediate i), (Instruction.immediate i'), v, v1; cbn; congruence.
Qed.

Lemma lags_step m1 m2 m1' : asm_step lm code m1 m2 → lags m1 m1' →
  ∃ m2', asm_star lm (peephole code) m1' m2' ∧ lags m2 m2'.
Proof using Type.
  intros Hstep Hlag. destruct Hstep as [pc v i l Hi Hl|pc v i v' Hi Hs Hv|pc v i cp s p Hi Hop Hst Ht|pc v i cp c s p Hi Hop Hst Hc Ht|pc v i cp s Hi Hop Hst].
  - destruct (lags_catch_up _ _ i l Hlag Hi Hl) as (p & Hstar & Hp & Hnext). eexists. split; [|apply Hnext].
    eapply rtc_r; [exact Hstar|by eapply asm_label].
  - exists m1'. split; [apply rtc_refl|]. destruct Hlag as (A & P & c1 & c2 & Hc & Hp & Hpc & Hpc' & Hs1 & Hv1). cbn [a_pc a_view] in *.
    rewrite Hc, app_assoc, lookup_app_r, length_app in Hi by (rewrite length_app; lia).
    replace (pc - (length A + length c1)) with 0 in Hi by lia. destruct c2 as [|i0 c2]; [done|]. injection Hi as ->.
    exists A, P, (c1 ++ [i]), c2. rewrite <- !app_assoc. cbn [app a_pc a_view]. split_and!; try done.
    + rewrite length_app. cbn. lia.
    + apply Forall_app. split; [done|by constructor].
    + unfold insn. rewrite steps_app, Hv1. cbn. by rewrite Hv.
  - destruct (lags_jump _ _ i _ Hlag Hi Hop eq_refl) as (q & i' & v1 & Hstar & Hq & Hop' & Himm & _). cbn [a_view] in *.
    destruct (lags_target cp p (with_stack v s) Ht) as (p' & Ht' & Hlag'). eexists. split; [|exact Hlag'].
    eapply rtc_r; [exact Hstar|]. rewrite <- (with_stack_imm i i' v v1 s Himm). eapply asm_jump; [done|done| |done]. by rewrite Himm.
  - destruct (lags_jump _ _ i _ Hlag Hi Hop eq_refl) as (q & i' & v1 & Hstar & Hq & Hop' & Himm & _). cbn [a_view] in *.
    destruct (lags_target cp p (with_stack v s) Ht) as (p' & Ht' & Hlag'). eexists. split; [|exact Hlag'].
    eapply rtc_r; [exact Hstar|]. rewrite <- (with_stack_imm i i' v v1 s Himm). eapply asm_cjump; [done|done| |done|done]. by rewrite Himm.
  - destruct (lags_jump _ _ i _ Hlag Hi Hop eq_refl) as (q & i' & v1 & Hstar & Hq & Hop' & Himm & Hnext). cbn [a_view] in *.
    eexists. split; [|apply Hnext]. eapply rtc_r; [exact Hstar|]. rewrite <- (with_stack_imm i i' v v1 s Himm).
    eapply asm_cjump_not; [done|done|]. by rewrite Himm.
Qed.

Lemma lags_star m1 m2 m1' : asm_star lm code m1 m2 → lags m1 m1' → ∃ m2', asm_star lm (peephole code) m1' m2' ∧ lags m2 m2'.
Proof using Type.
  intros Hstar. revert m1'. induction Hstar as [m|m1 m2 m3 Hstep _ IH]; intros m1' Hlag; [by exists m1'; split; [apply rtc_refl|]|].
  destruct (lags_step _ _ _ Hstep Hlag) as (m2' & H1 & Hlag2). destruct (IH _ Hlag2) as (m3' & H2 & Hlag3).
  exists m3'. split; [by etrans|done].
Qed.

(** The optimiser on whole programs: a run from a label to a label is a run of
    the optimised program between the same labels, with the same stacks and
    register. *)
Lemma peephole_simulates p1 (i1 : insn) l1 v1 p2 (i2 : insn) l2 v2 :
  asm_star lm code (mkAsm p1 v1) (mkAsm p2 v2) →
  code !! p1 = Some i1 → Instruction.get_label i1 = Some l1 → code !! p2 = Some i2 → Instruction.get_label i2 = Some l2 →
  ∃ p1' p2', peephole code !! p1' = Some i1 ∧ peephole code !! p2' = Some i2 ∧
    asm_star lm (peephole code) (mkAsm p1' v1) (mkAsm p2' v2).
Proof using Type.
  intros Hstar Hi1 Hl1 Hi2 Hl2. destruct (lags_label p1 i1 l1 v1 Hi1 Hl1) as (p1' & Hp1 & Hlag).
  destruct (lags_star _ _ _ Hstar Hlag) as (m' & H1 & Hlag').
  destruct (lags_catch_up _ _ i2 l2 Hlag' Hi2 Hl2) as (p2' & H2 & Hp2 & _).
  exists p1', p2'. split_and!; [done|done|by etrans].
Qed.
End peephole_simulation.

(** ** The emulator *)
Section emulator_simulation.
Context `{HC : Crypto, HV : Curve}.

Lemma view_op_gas op v v' : view_op op v = Some v' → ∃ g, simple_gas op = Some g.
Proof.
  destruct v as [s a r]. destruct op; cbn [view_op]; unfold view_alu; cbn [alu v_stack]; try (intros; by eexists);
    destruct s as [|[] [|[] s]]; discriminate.
Qed.

Lemma bool_view_op_view op v v' : bool_view_op op v = Some v' → view_op op v = Some v'.
Proof. destruct op; try done. cbn. destruct (v_stack v) as [|[] s]; try done. by case_match. Qed.

Lemma run_n_app n k m : run_n (n + k) m = match run_n n m with (Ok true, m) => run_n k m | r => r end.
Proof.
  revert m. induction n as [|n IH]; intros m; [done|]. cbn [Nat.add run_n]. destruct (run_one m) as [[[]| |] m1]; done || apply IH.
Qed.

(** The code of the program. *)
Definition code_of (m : Machine) : option (list CodeStore.insn) := code m !! 0.

(** The machine after a jump: where it goes, and what is left on the stack. *)
Lemma run_one_jump m k i cp s :
  state m = Running (CodePt.Internal k) → CodeStore.get_insn (code m) (CodePt.Internal k) = Some (Some i) →
  Instruction.opcode i = AVMOpcode.Jump → v_stack (push_imm i (view_of m)) = Value.CodePoint cp :: s →
  Uint256.wf (arb_gas_remaining m) → (4 <= arb_gas_remaining m)%Z →
  run_one m = (Ok true, set_state (moved m (with_stack (view_of m) s) k (arb_gas_remaining m - 4)
                                     (Uint256.add (total_gas_usage m) 4)) (Running cp)).
Proof.
  intros Hs Hi Hop Hst Hwf Hle. unfold run_one.
  rewrite (fetch_and_charge m k i 4) by (rewrite ?Hop; done || lia).
  rewrite Hop. destruct m as [st au sm cs sv rg ec g e tt]. unfold with_immediate, push_imm, view_of, moved, with_stack in *. cbn in *.
  destruct (Instruction.immediate i) as [v|]; cbn in *; [injection Hst as -> ->|subst st]; reflexivity.
Qed.

Lemma run_one_cjump m k i cp c s :
  state m = Running (CodePt.Internal k) → CodeStore.get_insn (code m) (CodePt.Internal k) = Some (Some i) →
  Instruction.opcode i = AVMOpcode.Cjump → v_stack (push_imm i (view_of m)) = Value.CodePoint cp :: Value.Int c :: s →
  Uint256.wf (arb_gas_remaining m) → (4 <= arb_gas_remaining m)%Z →
  run_one m = (Ok true, set_state (moved m (with_stack (view_of m) s) k (arb_gas_remaining m - 4)
                                     (Uint256.add (total_gas_usage m) 4))
                          (Running (if (c =? 0)%Z then CodePt.Internal (k + 1) else cp))).
Proof.
  intros Hs Hi Hop Hst Hwf Hle. unfold run_one.
  rewrite (fetch_and_charge m k i 4) by (rewrite ?Hop; done || lia).
  rewrite Hop. destruct m as [st au sm cs sv rg ec g e tt]. unfold with_immediate, push_imm, view_of, moved, with_stack in *. cbn in *.
  destruct (Instruction.immediate i) as [v|]; cbn in *; [injection Hst as -> ->|subst st]; subst sm;
    unfold op_Cjump, mbind, M_bind, pop_codepoint, pop_uint, on_stack, ValueStack.pop_codepoint, ValueStack.pop_uint,
      ValueStack.pop, Uint256.zero; cbn; by destruct (c =? 0)%Z.
Qed.

(** [code] is labelled code, [final] the executable, which agrees with it from
    position [start] on; [lm] gives labels their positions in the executable. *)
Context (lm : gmap Label.t CodePt.t) (code : list insn) (final : list CodeStore.insn) (start : nat).

Definition index (p : nat) : nat := length (unlabelled (take p code)).

Record assembled : Prop := {
  final_code p (i : insn) op : start <= p → code !! p = Some i → Instruction.opcode i = Opcode.AVM op →
    final !! index p = Some (Instruction.mk op (Instruction.immediate i) (Instruction.debug_info i));
  final_label p (i : insn) l : code !! p = Some i → Instruction.get_label i = Some l →
    start <= p ∧ lm !! l = Some (CodePt.Internal (index p));
}.

Context (Hasm : assembled).

Lemma index_S p (i : insn) : code !! p = Some i → index (S p) = match Instruction.get_label i with Some _ => index p | None => index p + 1 end.
Proof using Type.
  intros Hi. unfold index. rewrite (take_S_r code p i Hi). unfold unlabelled. rewrite List.filter_app, length_app. cbn.
  destruct (Instruction.get_label i); cbn; [apply Nat.add_0_r|done].
Qed.

(** The emulator stands where the labelled program stands. *)
Definition located (m : asm) (M : Machine) : Prop :=
  start <= a_pc m ∧ state M = Running (CodePt.Internal (index (a_pc m))) ∧ code_of M = Some final ∧ view_of M = a_view m.

(** Where the emulator is after [k] instructions that cost [c]. *)
Definition reaches (c : Z) (k : nat) (m m' : asm) : Prop :=
  (0 <= c)%Z ∧ start <= a_pc m' ∧
  ∀ M, located m M → Uint256.wf (arb_gas_remaining M) → (c <= arb_gas_remaining M)%Z →
    ∃ total, run_n k M = (Ok true, moved M (a_view m') (index (a_pc m')) (arb_gas_remaining M - c) total).

Lemma located_moved m m' M g total : located m M → start <= a_pc m' → located m' (moved M (a_view m') (index (a_pc m')) g total).
Proof using Type. intros (_ & _ & Hc & _) Hs. split_and!; try done. by destruct (a_view m'). Qed.

Lemma reaches_trans c1 c2 k1 k2 m1 m2 m3 : reaches c1 k1 m1 m2 → reaches c2 k2 m2 m3 → reaches (c1 + c2) (k1 + k2) m1 m3.
Proof using Type.
  intros (H1 & Hs2 & Hr1) (H2 & Hs3 & Hr2). split_and!; [lia|done|]. intros M Hl Hwf Hle.
  destruct (Hr1 M Hl Hwf ltac:(lia)) as (t1 & E1).
  destruct (Hr2 (moved M (a_view m2) (index (a_pc m2)) (arb_gas_remaining M - c1) t1)) as (t2 & E2).
  - by apply (located_moved m1).
  - destruct Hwf. split; cbn; lia.
  - cbn. lia.
  - exists t2. rewrite (run_n_app k1 k2), E1. rewrite E2. unfold moved. cbn. do 2 f_equal. lia.
Qed.

Lemma located_insn m M (i : insn) op : located m M → code !! a_pc m = Some i → Instruction.opcode i = Opcode.AVM op →
  CodeStore.get_insn (Machine.code M) (CodePt.Internal (index (a_pc m)))
  = Some (Some (Instruction.mk op (Instruction.immediate i) (Instruction.debug_info i))).
Proof using Hasm.
  intros (Hs & _ & Hc & _) Hi Hop. unfold CodeStore.get_insn. unfold code_of in Hc. rewrite Hc. cbn.
  f_equal. exact (final_code Hasm _ i op Hs Hi Hop).
Qed.

Lemma reaches_step m m' : start <= a_pc m → asm_step lm code m m' → ∃ c k, reaches c k m m'.
Proof using Hasm.
  intros Hstart Hstep.
  assert (∀ cp p, target lm code cp p → start <= p ∧ cp = CodePt.Internal (index p)) as Htarget.
  { intros cp p (i & l & Hi & Hl & Hcp). destruct (final_label Hasm p i l Hi Hl) as [Hs Hm]. split; [done|congruence]. }
  destruct Hstep as [pc v i l Hi Hl|pc v i v' Hi Hs Hv|pc v i cp s p Hi Hop Hst Ht|pc v i cp c s p Hi Hop Hst Hc Ht|pc v i cp s Hi Hop Hst].
  - exists 0%Z, 0. split_and!; [done|cbn in *; lia|]. intros M (Hs & Hpc & Hcode & Hview) _ _. exists (total_gas_usage M).
    cbn [run_n a_pc a_view] in *. rewrite (index_S pc i Hi), Hl. do 2 f_equal. rewrite Z.sub_0_r, <- Hview. unfold moved. rewrite <- Hpc. by destruct M.
  - unfold straight in Hs. destruct (Instruction.opcode i) as [ | | | | | | | | | | | | | | | | op] eqn:Hop; try done.
    assert (step view_op (Instruction.mk op (Instruction.immediate i) (Instruction.debug_info i)) v = Some v') as Hv'.
    { unfold step in *. rewrite Hop in Hv. cbn in Hv. by apply bool_view_op_view in Hv. }
    destruct (view_op_gas _ _ _ Hv') as (g & Hg). exists g, 1.
    assert (Instruction.get_label i = None) as Hnl by (unfold Instruction.get_label; by rewrite Hop).
    destruct (simple_gas_ok op (mkMachine [] [] Stopped [] Value.none Value.none CodePt.Null 0 (RuntimeEnvironment.mk 0 [] 0 0 [] [] 0 ∅ 0 RtEnvRecorder.new TxCompressor.new None 0 []) 0) _ Hg) as [_ Hb].
    split_and!; [lia|cbn in *; lia|]. intros M Hloc Hwf Hle. pose proof Hloc as (_ & Hpc & _ & Hview). cbn [a_pc a_view] in *.
    eexists. cbn [run_n]. rewrite (run_one_view M (index pc) _ g v' Hpc (located_insn _ M i op Hloc Hi Hop)); [|by rewrite Hview|done|done|done].
    by rewrite (index_S pc i Hi), Hnl.
  - destruct (Htarget _ _ Ht) as [Hsp ->]. exists 4%Z, 1. split_and!; [done|done|]. intros M Hloc Hwf Hle.
    pose proof Hloc as (_ & Hpc & _ & Hview). cbn [a_pc a_view] in *. eexists. cbn [run_n].
    rewrite (run_one_jump M (index pc) _ (CodePt.Internal (index p)) s Hpc (located_insn _ M i _ Hloc Hi Hop)); [|done|by rewrite Hview|done|done].
    by rewrite Hview.
  - destruct (Htarget _ _ Ht) as [Hsp ->]. exists 4%Z, 1. split_and!; [done|done|]. intros M Hloc Hwf Hle.
    pose proof Hloc as (_ & Hpc & _ & Hview). cbn [a_pc a_view] in *. eexists. cbn [run_n].
    rewrite (run_one_cjump M (index pc) _ (CodePt.Internal (index p)) c s Hpc (located_insn _ M i _ Hloc Hi Hop)); [|done|by rewrite Hview|done|done].
    rewrite (proj2 (Z.eqb_neq c 0) Hc). by rewrite Hview.
  - exists 4%Z, 1. split_and!; [done|cbn in *; lia|]. intros M Hloc Hwf Hle.
    assert (Instruction.get_label i = None) as Hnl by (unfold Instruction.get_label; by rewrite Hop).
    pose proof Hloc as (_ & Hpc & _ & Hview). cbn [a_pc a_view] in *. eexists. cbn [run_n].
    rewrite (run_one_cjump M (index pc) _ cp 0 s Hpc (located_insn _ M i _ Hloc Hi Hop)); [|done|by rewrite Hview|done|done].
    rewrite (index_S pc i Hi), Hnl. by rewrite Hview.
Qed.

(** The emulator does what the labelled program does, for a certain amount of gas. *)
Lemma emulator_simulates m m' : start <= a_pc m → asm_star lm code m m' → ∃ c k, reaches c k m m'.
Proof using Hasm.
  intros Hs Hstar. induction Hstar as [m|m1 m2 m3 Hstep _ IH].
  - exists 0%Z, 0. split_and!; [done|done|]. intros M (_ & Hpc & _ & Hview) _ _. exists (total_gas_usage M). cbn [run_n]. do 2 f_equal.
    rewrite Z.sub_0_r, <- Hview. unfold moved. rewrite <- Hpc. by destruct M.
  - destruct (reaches_step _ _ Hs Hstep) as (c1 & k1 & H1). destruct (IH (proj1 (proj2 H1))) as (c2 & k2 & H2).
    exists (c1 + c2)%Z, (k1 + k2). by eapply reaches_trans.
Qed.
End emulator_simulation.

(** ** Resolved labels *)

(** A value with its labels replaced. *)
Fixpoint vmap (f : Label.t → Value.t) (v : Value.t) : Value.t :=
  match v with
  | Value.Label l => f l
  | Value.Tuple vs => Value.Tuple (vmap f <$> vs)
  | _ => v
  end.

(** Code points for labels; unknown labels stay. *)
Definition code_point (lm : gmap Label.t CodePt.t) (l : Label.t) : Value.t :=
  match lm !! l with Some cp => Value.CodePoint cp | None => Value.Label l end.
Definition resolve (lm : gmap Label.t CodePt.t) : Value.t → Value.t := vmap (code_point lm).
Definition resolve_insn (lm : gmap Label.t CodePt.t) (i : insn) : insn :=
  Instruction.mk (Instruction.opcode i) (resolve lm <$> Instruction.immediate i) (Instruction.debug_info i).

Lemma replace_labels_resolve lm v v' : Value.replace_labels lm v = Ok v' → v' = resolve lm v.
Proof.
  unfold resolve. revert v'. induction v as [i|vs IH|cp|l|b] using Value.tree_ind; intros v' Hr; try by simplify_eq/=.
  - cbn [Value.replace_labels] in Hr. destruct (mapM (Value.replace_labels lm) vs) as [vs'| |] eqn:E; simplify_eq/=.
    f_equal. revert vs' E. induction IH as [|v vs Hv _ IHvs]; intros vs' E; cbn [mapM] in E; unfold mret, outcome_ret in E; [by simplify_eq/=|].
    destruct (Value.replace_labels lm v) as [v'| |] eqn:Ev; try done. cbn [mbind outcome_bind] in E.
    destruct (mapM (Value.replace_labels lm) vs) as [ws| |] eqn:Ew; simplify_eq/=.
    by rewrite <- (Hv v'), <- (IHvs ws).
  - cbn in Hr. cbn. unfold code_point. destruct (lm !! l); by simplify_eq/=.
Qed.

Section map_imm.
Context (f : Value.t → Value.t).
Definition map_imm (i : insn) : insn := Instruction.mk (Instruction.opcode i) (f <$> Instruction.immediate i) (Instruction.debug_info i).

Lemma avm_imm_map op i : avm_imm op (map_imm i) = (λ imm : option Value.t, f <$> imm) <$> avm_imm op i.
Proof using Type. unfold avm_imm. cbn. by case_bool_decide. Qed.

(** The optimiser does not look at values. *)
Lemma rewrite_top_map i1 i2 rest : rewrite_top (map_imm i1) (map_imm i2) (map_imm <$> rest) = (λ l : list insn, map_imm <$> l) <$> rewrite_top i1 i2 rest.
Proof using Type.
  unfold rewrite_top. cbn [map_imm Instruction.opcode Instruction.immediate Instruction.debug_info].
  destruct (Instruction.opcode i1) as [ | | | | | | | | | | | | | | | | op1]; try done. rewrite !avm_imm_map.
  destruct op1, (Instruction.immediate i1); try reflexivity;
    repeat match goal with |- context [avm_imm ?op i2] => destruct (avm_imm op i2) as [[|]|] end; reflexivity.
Qed.

Lemma rewrite_loop_map fuel l : rewrite_loop fuel (map_imm <$> l) = map_imm <$> rewrite_loop fuel l.
Proof using Type.
  revert l. induction fuel as [|fuel IH]; intros [|i1 [|i2 rest]]; try done. cbn [fmap list_fmap rewrite_loop].
  change (list_fmap insn insn map_imm rest) with (map_imm <$> rest). rewrite rewrite_top_map.
  destruct (rewrite_top i1 i2 rest) as [l|]; cbn [fmap option_fmap option_map]; [apply IH|done].
Qed.

Lemma peephole_map c : peephole (map_imm <$> c) = map_imm <$> peephole c.
Proof using Type.
  rewrite !peephole_out. unfold fold_out. etrans; [|symmetry; exact (List.map_rev map_imm _)]. f_equal.
  assert (useless_opcodes_layer (map_imm <$> c) = map_imm <$> useless_opcodes_layer c) as ->.
  { induction c as [|i c IH]; [done|]. unfold useless_opcodes_layer in *. cbn [fmap list_fmap List.filter].
    assert (useless (map_imm i) = useless i) as -> by (unfold useless; cbn; by destruct (Instruction.opcode i) as [ | | | | | | | | | | | | | | | | []], (Instruction.immediate i)).
    destruct (useless i); cbn [negb]; [done|]. cbn [fmap list_fmap]. f_equal. exact IH. }
  generalize (useless_opcodes_layer c). intros c'. change (@nil insn) with (map_imm <$> []) at 1. generalize (@nil insn).
  induction c' as [|i c' IH]; intros out; [done|]. cbn [fmap list_fmap foldl]. rewrite <- IH. f_equal.
  unfold peephole_push. rewrite <- rewrite_loop_map. cbn [length]. by rewrite length_fmap.
Qed.
End map_imm.

(** ** Executables *)
Lemma unlabelled_app c1 c2 : unlabelled (c1 ++ c2) = unlabelled c1 ++ unlabelled c2.
Proof. unfold unlabelled. by rewrite List.filter_app. Qed.

Lemma unlabelled_map f c : unlabelled (map_imm f <$> c) = map_imm f <$> unlabelled c.
Proof.
  induction c as [|i c IH]; [done|]. rewrite fmap_cons, !unlabelled_cons, fmap_app, IH. f_equal.
  unfold Instruction.get_label. cbn. by destruct (Instruction.opcode i).
Qed.

Lemma unlabelled_lookup c q (i : insn) : c !! q = Some i → Instruction.get_label i = None →
  unlabelled c !! length (unlabelled (take q c)) = Some i.
Proof.
  intros Hi Hl. assert (unlabelled c = unlabelled (take q c) ++ i :: unlabelled (drop (S q) c)) as ->; [|by apply list_lookup_middle].
  etrans; [exact (f_equal unlabelled (eq_sym (take_drop_middle c q i Hi)))|].
  etrans; [exact (unlabelled_app _ _)|]. f_equal. etrans; [exact (unlabelled_cons _ _)|]. by rewrite Hl.
Qed.

Lemma mapM_outcome_lookup {A B E} (f : A → outcome E B) (l : list A) l' k x : mapM f l = Ok l' → l !! k = Some x →
  ∃ y, f x = Ok y ∧ l' !! k = Some y.
Proof.
  revert l' k. induction l as [|a l IH]; intros l' k Hm Hk; [done|]. cbn [mapM] in Hm.
  destruct (f a) as [b| |] eqn:Ea; try done. cbn [mbind outcome_bind] in Hm.
  destruct (mapM f l) as [bs| |] eqn:El; try done. cbn [mbind outcome_bind mret outcome_ret] in Hm. injection Hm as <-.
  destruct k as [|k]; [injection Hk as ->; by exists b|]. by apply (IH bs).
Qed.

Lemma init_short_length test_mode v : length (init_short test_mode v) = if test_mode then 2 else 3.
Proof. by destruct test_mode. Qed.

Lemma init_short_unlabelled test_mode v : unlabelled (init_short test_mode v) = init_short test_mode v.
Proof. by destruct test_mode. Qed.

(** The executable of a program is its assembled code. *)
Lemma assembled_executable test_mode empty reg c4 imps m c5 final :
  collect_labels (init_short test_mode empty ++ c4) 0 (import_labels imps) = Ok m →
  replace_all c4 m = Ok c5 → mapM to_avm (init_short test_mode reg ++ c5) = Ok final →
  assembled m (resolve_insn m <$> (init_short test_mode empty ++ c4)) final (if test_mode then 2 else 3).
Proof.
  intros Hm Hr Hf. set (X := init_short test_mode empty ++ c4) in *.
  assert (∀ p, index (resolve_insn m <$> X) p = length (unlabelled (take p X))) as Hindex.
  { intros p. unfold index. rewrite <- fmap_take. change (resolve_insn m) with (map_imm (resolve m)).
    rewrite unlabelled_map. by rewrite length_fmap. }
  apply collect_labels_ok in Hm as (_ & _ & Hpos & _). apply replace_all_ok in Hr. split.
  - intros p i op Hp Hi Hop. rewrite Hindex. apply list_lookup_fmap_Some_1 in Hi as (i0 & -> & Hi). cbn [resolve_insn Instruction.opcode] in Hop.
    unfold X in *. rewrite lookup_app_r in Hi by (rewrite init_short_length; lia). rewrite init_short_length in Hi.
    rewrite take_app_ge, unlabelled_app, length_app, init_short_unlabelled, !init_short_length by (rewrite init_short_length; lia).
    set (q := p - (if test_mode then 2 else 3)) in *.
    assert (Instruction.get_label i0 = None) as Hl by (unfold Instruction.get_label; by rewrite Hop).
    pose proof (unlabelled_lookup c4 q i0 Hi Hl) as Hu. destruct (Forall2_lookup_l _ _ _ _ _ Hr Hu) as (i' & Hi' & Hrep).
    destruct (mapM_outcome_lookup to_avm (init_short test_mode reg ++ c5) final
      ((if test_mode then 2 else 3) + length (unlabelled (take q c4))) i' Hf) as (y & Hy & Hfy).
    { rewrite lookup_app_r by (rewrite init_short_length; lia). rewrite init_short_length. etrans; [|exact Hi']. f_equal. lia. }
    etrans; [exact Hfy|]. f_equal. unfold Instruction.replace_labels in Hrep. cbn.
    destruct (Instruction.immediate i0) as [v|] eqn:Ev.
    + destruct (Value.replace_labels m v) as [v'| |] eqn:Er; try done. injection Hrep as <-. apply replace_labels_resolve in Er as ->.
      unfold to_avm in Hy. cbn in Hy. rewrite Hop in Hy. by injection Hy as <-.
    + injection Hrep as <-. unfold to_avm in Hy. rewrite Hop, Ev in Hy. by injection Hy as <-.
  - intros p i l Hi Hl. rewrite Hindex. apply list_lookup_fmap_Some_1 in Hi as (i0 & -> & Hi).
    assert (Instruction.get_label i0 = Some l) as Hl0 by exact Hl. split.
    + destruct (decide ((if test_mode then 2 else 3) <= p)) as [|Hlt]; [done|]. exfalso. unfold X in Hi.
      rewrite lookup_app_l in Hi by (rewrite init_short_length; lia).
      assert (Forall (λ i : insn, Instruction.get_label i = None) (init_short test_mode empty)) as Hno by (destruct test_mode; by repeat constructor).
      eapply Forall_lookup_1 in Hno; [|exact Hi]. congruence.
    + pose proof (take_drop_middle X p i0 Hi) as Hx. by rewrite (Hpos (take p X) i0 (drop (S p) X) l (eq_sym Hx) Hl0).
Qed.

(** An executable does what its labelled code does: between two labels,
    every run of the code after [fix_tuple_size], its labels resolved by the
    table of [strip_labels], is a run of the emulator on the linked program from
    the code point of the first label to that of the second, with the same
    stacks and register (the first instructions of the executable load the
    register with unset globals and the jump table); it needs a fixed amount of gas and a fixed number of
    instructions.  So the optimiser and the removal of labels are correct on
    whole programs with jumps and loops. *)
Lemma assembled_code_runs `{HC : Crypto, HV : Curve} progs test_mode w program w' lp :
  link progs test_mode w = Some (program, w') → postlink_compile program test_mode = Ok lp →
  ∃ t code_2 jt code_3 lm cps jtv reg,
    tree_new (length (globals program)) false = Some t ∧
    leaves t reg = Some (replicate (length (globals program) - 1) Value.none ++ [jtv]) ∧
    (∀ s a r, steps view_op (take (if test_mode then 2 else 3) (lp_code lp)) (mkView s a r)
      = Some (mkView (Value.none :: if test_mode then s else r :: s) a reg)) ∧
    fix_nonforward_labels (cp_code program) (imported_funcs program) (length (globals program) - 1) = (code_2, jt) ∧
    fix_tuple_size code_2 (length (globals program)) = Ok code_3 ∧
    collect_labels (peephole code_3) 0 (import_labels (imported_funcs program)) = Ok lm ∧
    lookup_all jt lm = Ok cps ∧ jump_table_to_value cps = Some jtv ∧
    ∀ p1 (i1 : insn) l1 v1 p2 (i2 : insn) l2 v2,
      code_3 !! p1 = Some i1 → Instruction.get_label i1 = Some l1 →
      code_3 !! p2 = Some i2 → Instruction.get_label i2 = Some l2 →
      asm_star lm (resolve_insn lm <$> code_3) (mkAsm p1 v1) (mkAsm p2 v2) →
      ∃ k1 k2 cost n, lm !! l1 = Some (CodePt.Internal k1) ∧ lm !! l2 = Some (CodePt.Internal k2) ∧
        ∀ M, state M = Running (CodePt.Internal k1) → code M !! 0 = Some (lp_code lp) → view_of M = v1 →
          Uint256.wf (arb_gas_remaining M) → (cost <= arb_gas_remaining M)%Z →
          ∃ total, run_n n M = (Ok true, moved M v2 k2 (arb_gas_remaining M - cost) total).
Proof.
  intros Hl Hp. destruct (postlink_parts _ _ _ _ _ _ Hl Hp)
    as (t & code_2 & jt & c3 & m & c5 & cps & jtv & reg & c6 & _ & Ht & Hfix & Htup & Hcol & Hrep & Hjt & Hjtv & Hreg & H6 & Hfin & _).
  exists t, code_2, jt, (init_insns test_mode (make_empty t) ++ c3), m, cps, jtv, reg.
  pose proof (peephole_init test_mode (make_empty t) c3) as Hopt.
  split_and!; [done|done|intros; by apply (init_steps test_mode reg c5 c6)|done|done|unfold init_insns; by rewrite Hopt|done|done|].
  intros p1 i1 l1 v1 p2 i2 l2 v2 Hi1 Hl1 Hi2 Hl2 Hstar.
  pose proof (assembled_executable test_mode (make_empty t) reg (peephole c3) _ m c5 (lp_code lp) Hcol Hrep Hfin) as Hasm.
  destruct (peephole_simulates m (resolve_insn m <$> (init_insns test_mode (make_empty t) ++ c3))
    p1 (resolve_insn m i1) l1 v1 p2 (resolve_insn m i2) l2 v2) as (q1 & q2 & Hq1 & Hq2 & Hrun); try done.
  1,2: rewrite list_lookup_fmap; by rewrite ?Hi1, ?Hi2.
  rewrite (peephole_map (resolve m)) in Hq1, Hq2, Hrun. unfold init_insns in Hq1, Hq2, Hrun. rewrite Hopt in Hq1, Hq2, Hrun.
  destruct (final_label _ _ _ _ Hasm q1 (resolve_insn m i1) l1 Hq1 Hl1) as [Hs1 Hk1].
  destruct (final_label _ _ _ _ Hasm q2 (resolve_insn m i2) l2 Hq2 Hl2) as [_ Hk2].
  destruct (emulator_simulates m _ (lp_code lp) _ Hasm (mkAsm q1 v1) (mkAsm q2 v2) Hs1 Hrun) as (cost & n & _ & _ & Hr).
  eexists _, _, cost, n. split_and!; [exact Hk1|exact Hk2|]. intros M Hst Hc Hv. by apply Hr.
Qed.
