(* ===== verification/Codegen.v ===== *)
(** * Code generation (src/src/compile/codegen.rs)

    From type-checked functions to instructions with virtual opcodes and
    labels.  The source appends to a vector of instructions and threads the
    label generator, the stack of scopes and the list of warnings through every
    call; [Gen A] is that: a computation gives a value, the instructions it
    appends, and the new state, or an error, or a panic.  The tables that only
    are read ([string_table], [import_func_map], [global_var_map],
    [release_build]) form the section's context.

    Local slots, sizes and indices are natural numbers.  Of formatted error
    texts the fixed part is kept. *)

From Stdlib Require Import ZArith Lia.
From S2P Require Import Prelude U256 StringTab Pos Opcodes Crypto BufferTree Values StraightLine TupleTree StripLabels Types TypedAst Link.

Record CodegenError := mkCodegenError { reason : string; error_location : option Location.t }.

(** A scope that can be left with [break]: its name, the label behind it, and
    the type of the value it is left with, once known. *)
Definition scope : Type := string * Label.t * option Tipe.t.

Record gen := mkGen {
  g_labels : LabelGenerator.t;
  g_scopes : list scope;          (* the vector, its last element first *)
  g_warnings : list CompileError;
}.

Definition Gen (A : Type) : Type := gen → outcome CodegenError (A * list insn * gen).

#[global] Instance gen_ret : MRet Gen := λ A a g, Ok (a, [], g).
#[global] Instance gen_bind : MBind Gen := λ A B f m g,
  match m g with
  | Ok (a, c1, g1) =>
      match f a g1 with
      | Ok (b, c2, g2) => Ok (b, c1 ++ c2, g2)
      | Err e => Err e
      | Panic => Panic
      end
  | Err e => Err e
  | Panic => Panic
  end.

Definition emit (c : list insn) : Gen () := λ g, Ok ((), c, g).
Definition throw {A} (reason : string) (loc : option Location.t) : Gen A := λ g, Err (mkCodegenError reason loc).
Definition panic {A} : Gen A := λ g, Panic.
Definition get_or_panic {A} (o : option A) : Gen A := λ g, match o with Some a => Ok (a, [], g) | None => Panic end.

(** [label_gen.next()] *)
Definition new_label : Gen Label.t := λ g,
  let '(l, lg) := LabelGenerator.next (g_labels g) in Ok (l, [], mkGen lg (g_scopes g) (g_warnings g)).

Definition push_scope (s : scope) : Gen () := λ g, Ok ((), [], mkGen (g_labels g) (s :: g_scopes g) (g_warnings g)).
Definition pop_scope : Gen () := λ g, Ok ((), [], mkGen (g_labels g) (tail (g_scopes g)) (g_warnings g)).
Definition warn (w : CompileError) : Gen () := λ g, Ok ((), [], mkGen (g_labels g) (g_scopes g) (g_warnings g ++ [w])).
Definition get_scopes : Gen (list scope) := λ g, Ok (g_scopes g, [], g).
Definition set_scopes (s : list scope) : Gen () := λ g, Ok ((), [], mkGen (g_labels g) s (g_warnings g)).

(** Instructions of virtual opcodes. *)
Definition vop (op : Opcode.t) (di : DebugInfo) : insn := Instruction.from_opcode op di.
Definition vop_imm (op : Opcode.t) (v : Value.t) (di : DebugInfo) : insn := Instruction.from_opcode_imm op v di.
Definition label_ (l : Label.t) (di : DebugInfo) : insn := vop (Opcode.Label l) di.

(** [DebugInfo::from(loc)] *)
Definition di_from (loc : option Location.t) : DebugInfo := mkDebugInfo loc (mkAttributes false InlineAuto false).

(** ** Patterns of [let] *)

(** [if !assignments.insert(name) { return Err(..) }] for every new name. *)
Definition insert_assignments (string_table : StringTable.t) (assignments new_assignments : gset nat)
    (loc : option Location.t) : Gen (gset nat) :=
  match elements (new_assignments ∩ assignments) with
  | [] => mret (new_assignments ∪ assignments)
  | name :: _ =>
      _ ← get_or_panic (StringTable.name_from_id string_table name);
      throw "assigned to variable in mixed let multiple times" loc
  end.

(** The elements of a tuple pattern, given the generator of one. *)
Definition pattern_loop (f : MatchPattern → nat → Gen (nat * gmap nat nat * gset nat)) (string_table : StringTable.t)
    (pat_size local_slot_num_base : nat) (di : DebugInfo) :=
  fix go (i : nat) (pats : list MatchPattern) (num_bindings : nat) (bindings : gmap nat nat) (assignments : gset nat)
      : Gen (nat * gmap nat nat * gset nat) :=
    match pats with
    | [] => mret (num_bindings, bindings, assignments)
    | pat :: pats =>
        emit ((if Nat.ltb i (pat_size - 1) then [op_ AVMOpcode.Dup0 di] else [])
              ++ [vop_imm (Opcode.TupleGet pat_size) (slot_val i) di]);;
        '(num_new_bindings, new_bindings, new_assignments) ← f pat (local_slot_num_base + num_bindings);
        assignments ← insert_assignments string_table assignments new_assignments (location di);
        go (S i) pats (num_bindings + num_new_bindings) (new_bindings ∪ bindings) assignments
    end.

(** Generates the stores of a tuple on the stack into the variables of a
    pattern; gives the number of new slots, the new bindings and the variables
    assigned. *)
Fixpoint codegen_tuple_pattern (string_table : StringTable.t) (global_var_map : gmap nat nat)
    (pattern : MatchPattern) (local_slot_num_base : nat) (locals : gmap nat nat) (di : DebugInfo)
    : Gen (nat * gmap nat nat * gset nat) :=
  match pattern with
  | mkMatchPattern (PBind name) _ _ =>
      emit [vop_imm Opcode.SetLocal (slot_val local_slot_num_base) di];;
      mret (1, {[ name := local_slot_num_base ]}, ∅)
  | mkMatchPattern (PAssign id) _ _ =>
      match locals !! id with
      | Some val => emit [vop_imm Opcode.SetLocal (slot_val val) di]
      | None =>
          match global_var_map !! id with
          | Some idx => emit [vop (Opcode.SetGlobalVar idx) di]
          | None => throw "assigned to non-existent variable in mixed let" (location di)
          end
      end;;
      mret (0, ∅, {[ id ]})
  | mkMatchPattern (PTuple sub_pats) _ _ =>
      pattern_loop (λ pat base, codegen_tuple_pattern string_table global_var_map pat base locals di)
                   string_table (length sub_pats) local_slot_num_base di 0 sub_pats 0 ∅ ∅
  end.

(** ** Fixed-size arrays *)

(** Seven copies of the value on the stack, and a tuple of the eight. *)
Definition fill_tuple (di : DebugInfo) : list insn :=
  replicate 7 (op_ AVMOpcode.Dup0 di)
  ++ [op_imm AVMOpcode.Noop (Value.new_tuple (replicate 8 (Value.new_tuple []))) di]
  ++ ((λ i, op_imm AVMOpcode.Tset (slot_val i) di) <$> seq 0 8).

(** [while tuple_size < *sz { ..; tuple_size *= 8 }] *)
Fixpoint fixed_array_levels (fuel tuple_size sz : nat) (di : DebugInfo) : option (list insn) :=
  match fuel with
  | O => None
  | S fuel =>
      if Nat.ltb tuple_size sz
      then rest ← fixed_array_levels fuel (tuple_size * 8) sz di; Some (fill_tuple di ++ rest)
      else Some []
  end.

(** The run-time test of an index that is not covered by the size of a tuple. *)
Definition bounds_check (size : nat) (di : DebugInfo) : Gen () :=
  if Nat.eqb size 8 then mret ()
  else
    cont_label ← new_label;
    emit [op_ AVMOpcode.Dup0 di;
          op_imm AVMOpcode.GreaterThan (slot_val size) di;
          op_imm AVMOpcode.Cjump (Value.Label cont_label) di;
          op_ AVMOpcode.Error di;
          label_ cont_label di].

(** Stack before: idx tuple val; after: the updated tuple. *)
Fixpoint codegen_fixed_array_mod_2 (fuel size : nat) (di : DebugInfo) : option (list insn) :=
  match fuel with
  | O => None
  | S fuel =>
      if Nat.leb size 8 then Some [op_ AVMOpcode.Tset di]
      else
        let tuple_size := slot_val TUPLE_SIZE in
        inner ← codegen_fixed_array_mod_2 fuel ((size + (TUPLE_SIZE - 1)) / TUPLE_SIZE) di;
        Some ([op_imm AVMOpcode.Dup2 tuple_size di; op_ AVMOpcode.AuxPush di; op_ AVMOpcode.Dup1 di;
               op_ AVMOpcode.Mod di; op_ AVMOpcode.Dup0 di; op_ AVMOpcode.AuxPush di;
               op_ AVMOpcode.Swap1 di; op_imm AVMOpcode.Swap1 tuple_size di; op_ AVMOpcode.Div di;
               op_ AVMOpcode.Swap2 di; op_ AVMOpcode.Swap1 di; op_ AVMOpcode.Tget di; op_ AVMOpcode.Swap1 di]
              ++ inner
              ++ [op_ AVMOpcode.AuxPop di; op_ AVMOpcode.AuxPop di; op_ AVMOpcode.Swap1 di; op_ AVMOpcode.Tset di])
  end.

(** ** Operators *)
Definition unary_op (op : UnaryOp.t) (loc : option Location.t) : Gen (option Opcode.t * option Value.t) :=
  match op with
  | UnaryOp.Minus => mret (Some Opcode.UnaryMinus, None)
  | UnaryOp.BitwiseNeg => mret (Some (Opcode.AVM AVMOpcode.BitwiseNeg), None)
  | UnaryOp.Not => mret (Some (Opcode.AVM AVMOpcode.IsZero), None)
  | UnaryOp.Hash => mret (Some (Opcode.AVM AVMOpcode.Hash), None)
  | UnaryOp.ToUint | UnaryOp.ToInt | UnaryOp.ToBytes32 => mret (None, None)
  | UnaryOp.ToAddress =>
      match Uint256.sub (Uint256.exp (Uint256.from_usize 2) (Uint256.from_usize 160)) Uint256.one with
      | Some mask => mret (Some (Opcode.AVM AVMOpcode.BitwiseAnd), Some (Value.Int mask))
      | None => throw "Underflow on subtraction" loc
      end
  | UnaryOp.Len => mret (Some (Opcode.TupleGet 3), Some (Value.Int Uint256.zero))
  end.

Definition unary_code (op : UnaryOp.t) (di : DebugInfo) : Gen () :=
  '(maybe_opcode, maybe_imm) ← unary_op op (location di);
  emit (match maybe_opcode with Some opcode => [Instruction.new opcode maybe_imm di] | None => [] end).

Definition binary_op (op : BinaryOp.t) : Opcode.t :=
  match op with
  | BinaryOp.GetBuffer8 => Opcode.AVM AVMOpcode.GetBuffer8
  | BinaryOp.GetBuffer64 => Opcode.AVM AVMOpcode.GetBuffer64
  | BinaryOp.GetBuffer256 => Opcode.AVM AVMOpcode.GetBuffer256
  | BinaryOp.Plus => Opcode.AVM AVMOpcode.Add
  | BinaryOp.Minus => Opcode.AVM AVMOpcode.Sub
  | BinaryOp.Times => Opcode.AVM AVMOpcode.Mul
  | BinaryOp.Div => Opcode.AVM AVMOpcode.Div
  | BinaryOp.Mod => Opcode.AVM AVMOpcode.Mod
  | BinaryOp.Sdiv => Opcode.AVM AVMOpcode.Sdiv
  | BinaryOp.Smod => Opcode.AVM AVMOpcode.Smod
  | BinaryOp.LessThan => Opcode.AVM AVMOpcode.LessThan
  | BinaryOp.GreaterThan => Opcode.AVM AVMOpcode.GreaterThan
  | BinaryOp.LessEq => Opcode.AVM AVMOpcode.GreaterThan
  | BinaryOp.GreaterEq => Opcode.AVM AVMOpcode.LessThan
  | BinaryOp.SLessThan => Opcode.AVM AVMOpcode.SLessThan
  | BinaryOp.SGreaterThan => Opcode.AVM AVMOpcode.SGreaterThan
  | BinaryOp.SLessEq => Opcode.AVM AVMOpcode.SGreaterThan
  | BinaryOp.SGreaterEq => Opcode.AVM AVMOpcode.SLessThan
  | BinaryOp.Equal => Opcode.AVM AVMOpcode.Equal
  | BinaryOp.NotEqual => Opcode.AVM AVMOpcode.Equal
  | BinaryOp.BitwiseAnd => Opcode.AVM AVMOpcode.BitwiseAnd
  | BinaryOp.BitwiseOr => Opcode.AVM AVMOpcode.BitwiseOr
  | BinaryOp.ShiftLeft => Opcode.AVM AVMOpcode.ShiftLeft
  | BinaryOp.ShiftRight => Opcode.AVM AVMOpcode.ShiftRight
  | BinaryOp.BitwiseXor => Opcode.AVM AVMOpcode.BitwiseXor
  | BinaryOp.LogicalAnd_ => Opcode.LogicalAnd
  | BinaryOp.LogicalOr => Opcode.LogicalOr
  | BinaryOp.Hash => Opcode.AVM AVMOpcode.EthHash2
  end.

(** Comparisons that are computed as the negation of their opposite. *)
Definition negated (op : BinaryOp.t) : bool :=
  match op with
  | BinaryOp.NotEqual | BinaryOp.LessEq | BinaryOp.GreaterEq | BinaryOp.SLessEq | BinaryOp.SGreaterEq => true
  | _ => false
  end.

Definition binary_code (op : BinaryOp.t) (di : DebugInfo) : list insn :=
  vop (binary_op op) di :: (if negated op then [op_ AVMOpcode.IsZero di] else []).

Definition trinary_op (op : TrinaryOp.t) : Opcode.t :=
  match op with
  | TrinaryOp.SetBuffer8 => Opcode.AVM AVMOpcode.SetBuffer8
  | TrinaryOp.SetBuffer64 => Opcode.AVM AVMOpcode.SetBuffer64
  | TrinaryOp.SetBuffer256 => Opcode.AVM AVMOpcode.SetBuffer256
  end.

(** Clearing the values pushed before the result of an early return. *)
Definition drop_prepushed (prepushed_vals : nat) (di : DebugInfo) : list insn :=
  if Nat.ltb 0 prepushed_vals
  then op_ AVMOpcode.AuxPush di :: replicate prepushed_vals (op_ AVMOpcode.Pop di) ++ [op_ AVMOpcode.AuxPop di]
  else [].

(** [scopes.iter_mut().rev().find(|(s, _, _)| scope_id == s)]: the label of the
    innermost scope of that name, and the scopes with its type set if it was
    not yet known. *)
Fixpoint find_scope (scope_id : string) (t : Tipe.t) (scopes : list scope) : option (Label.t * list scope) :=
  match scopes with
  | [] => None
  | (s, lab, ot) :: scopes =>
      if bool_decide (scope_id = s)
      then Some (lab, (s, lab, match ot with Some _ => ot | None => Some t end) :: scopes)
      else '(l, scopes) ← find_scope scope_id t scopes; Some (l, (s, lab, ot) :: scopes)
  end.

(** ** Expressions, statements and blocks *)

(** What generates the code of an expression, given [num_locals], [locals] and
    [prepushed_vals]: the result is the number of locals the expression uses. *)
Definition expr_gen : Type := nat → gmap nat nat → nat → Gen nat.
Definition stat_gen : Type := nat → gmap nat nat → nat → Gen (nat * gmap nat nat).

(** [for i in 0..n { mavm_codegen_expr(&args[n - 1 - i], .., prepushed_vals + i, ..) }]
    on the reversed list. *)
Fixpoint args_loop (gs : list expr_gen) (num_locals : nat) (locals : gmap nat nat) (prepushed_vals i args_locals : nat)
    : Gen nat :=
  match gs with
  | [] => mret args_locals
  | g :: gs =>
      arg_locals ← g num_locals locals (prepushed_vals + i);
      args_loop gs num_locals locals prepushed_vals (S i) (max args_locals arg_locals)
  end.

(** [mavm_codegen_statements]: every statement sees the bindings of those before it. *)
Definition statements_loop (f : TypeCheckedStatement → stat_gen) (locals : gmap nat nat) (prepushed_vals : nat) :=
  fix go (statements : list TypeCheckedStatement) (num_locals : nat) (bindings : gmap nat nat)
      : Gen (nat * gmap nat nat) :=
    match statements with
    | [] => mret (num_locals, bindings)
    | statement :: statements =>
        '(statement_locals, statement_bindings) ← f statement num_locals (bindings ∪ locals) prepushed_vals;
        go statements (max statement_locals num_locals) (statement_bindings ∪ bindings)
    end.

(** The stores that fill an empty tuple of [n] fields. *)
Definition tuple_sets (n : nat) (di : DebugInfo) : list insn :=
  (λ i, vop_imm (Opcode.TupleSet n) (slot_val i) di) <$> seq 0 n.

(** [BTreeMap::insert]: the entries in the order of their keys. *)
Fixpoint btree_insert {A} (k : nat) (a : A) (l : list (nat * A)) : list (nat * A) :=
  match l with
  | [] => [(k, a)]
  | (k', a') :: l' =>
      if Nat.ltb k k' then (k, a) :: l
      else if Nat.eqb k k' then (k, a) :: l'
      else (k', a') :: btree_insert k a l'
  end.

Section codegen.
Context `{Crypto}.
Context (string_table : StringTable.t) (import_func_map : gmap nat Label.t) (global_var_map : gmap nat nat)
        (release_build : bool).

Definition func_ref_gen (name : nat) (di : DebugInfo) : expr_gen := λ num_locals _ _,
  let the_label := match import_func_map !! name with Some label => label | None => Label.Func name end in
  emit [op_imm AVMOpcode.Noop (Value.Label the_label) di];;
  mret num_locals.

Definition const_gen (val : Value.t) (di : DebugInfo) : expr_gen := λ num_locals _ _,
  emit [op_imm AVMOpcode.Noop val di];;
  mret num_locals.

(** Calling a function: the arguments, the return address, the function. *)
Definition call_gen (fexpr : expr_gen) (args : list expr_gen) (func_type : Tipe.t) (di : DebugInfo) : expr_gen :=
  λ num_locals locals prepushed_vals,
  ret_label ← new_label;
  args_locals ← args_loop (rev args) num_locals locals prepushed_vals 0 0;
  emit (if type_eq Tipe.Every func_type then [] else [op_imm AVMOpcode.Noop (Value.Label ret_label) di]);;
  fexpr_locals ← fexpr num_locals locals (prepushed_vals + length args + 1);
  emit [op_ AVMOpcode.Jump di; label_ ret_label di];;
  mret (max num_locals (max fexpr_locals args_locals)).

(** A call of a function of the builtin library. *)
Definition builtin_gen (name : string) (args : list expr_gen) (call_type : Tipe.t) (loc : option Location.t) : expr_gen :=
  λ num_locals locals prepushed_vals,
  id ← get_or_panic (StringTable.get_if_exists string_table name);
  call_gen (func_ref_gen id (di_from loc)) args call_type (di_from loc) num_locals locals prepushed_vals.

Definition fields_gen (gs : list expr_gen) (empty : Value.t) (di : DebugInfo) : expr_gen :=
  λ num_locals locals prepushed_vals,
  tuple_locals ← args_loop (rev gs) num_locals locals prepushed_vals 0 0;
  emit (op_imm AVMOpcode.Noop empty di :: tuple_sets (length gs) di);;
  mret (max num_locals tuple_locals).

Definition try_code (extract : Label.t) (prepushed_vals : nat) (di : DebugInfo) : list insn :=
  [op_ AVMOpcode.Dup0 di; op_imm AVMOpcode.Tget (Value.Int Uint256.zero) di;
   op_imm AVMOpcode.Cjump (Value.Label extract) di]
  ++ drop_prepushed prepushed_vals di
  ++ [vop Opcode.Return di; label_ extract di; op_imm AVMOpcode.Tget (Value.Int Uint256.one) di].

(** *** The kinds of expressions, given the generators of their parts *)
Definition then_code (e : expr_gen) (c : list insn) : expr_gen := λ num_locals locals prepushed_vals,
  exp_locals ← e num_locals locals prepushed_vals;
  emit c;;
  mret (max num_locals exp_locals).

Definition simple_gen (c : list insn) : expr_gen := λ num_locals _ _, emit c;; mret num_locals.

Definition set_gas_gen (tce : expr_gen) (debug : DebugInfo) : expr_gen := then_code tce [op_ AVMOpcode.SetGas debug].

Definition unary_gen (op : UnaryOp.t) (tce : expr_gen) (debug : DebugInfo) : expr_gen :=
  λ num_locals locals prepushed_vals,
  exp_locals ← tce num_locals locals prepushed_vals;
  unary_code op debug;;
  mret (max num_locals exp_locals).

Definition variant_gen (inner : expr_gen) (debug : DebugInfo) : expr_gen :=
  then_code inner
    [op_imm AVMOpcode.Noop (Value.new_tuple [Value.Int (Uint256.from_usize 1); Value.none]) debug;
     op_imm AVMOpcode.Tset (slot_val 1) debug].

Definition binary_gen (op : BinaryOp.t) (tce1 tce2 : expr_gen) (debug : DebugInfo) : expr_gen :=
  λ num_locals locals prepushed_vals,
  left_locals ← tce2 num_locals locals prepushed_vals;
  right_locals ← tce1 num_locals locals (prepushed_vals + 1);
  emit (binary_code op debug);;
  mret (max num_locals (max left_locals right_locals)).

Definition trinary_gen (op : TrinaryOp.t) (tce1 tce2 tce3 : expr_gen) (debug : DebugInfo) : expr_gen :=
  λ num_locals locals prepushed_vals,
  locals3 ← tce3 num_locals locals prepushed_vals;
  locals2 ← tce2 num_locals locals (prepushed_vals + 1);
  locals1 ← tce1 num_locals locals (prepushed_vals + 2);
  emit [vop (trinary_op op) debug];;
  mret (max num_locals (max locals1 (max locals2 locals3))).

Definition shortcut_or_gen (tce1 tce2 : expr_gen) (debug : DebugInfo) : expr_gen :=
  λ num_locals locals prepushed_vals,
  left_locals ← tce1 num_locals locals prepushed_vals;
  lab ← new_label;
  emit [op_ AVMOpcode.Dup0 debug; op_imm AVMOpcode.Cjump (Value.Label lab) debug; op_ AVMOpcode.Pop debug];;
  right_locals ← tce2 num_locals locals prepushed_vals;
  emit [label_ lab debug];;
  mret (max num_locals (max left_locals right_locals)).

Definition shortcut_and_gen (tce1 tce2 : expr_gen) (debug : DebugInfo) : expr_gen :=
  λ num_locals locals prepushed_vals,
  left_locals ← tce1 num_locals locals prepushed_vals;
  lab ← new_label;
  emit [op_ AVMOpcode.Dup0 debug; op_ AVMOpcode.IsZero debug;
        op_imm AVMOpcode.Cjump (Value.Label lab) debug; op_ AVMOpcode.Pop debug];;
  right_locals ← tce2 num_locals locals prepushed_vals;
  emit [label_ lab debug];;
  mret (max num_locals (max left_locals right_locals)).

Definition local_ref_gen (name : nat) (debug : DebugInfo) : expr_gen := λ num_locals locals _,
  match locals !! name with
  | Some n => emit [vop_imm Opcode.GetLocal (slot_val n) debug];; mret num_locals
  | None => throw "tried to access non-existent local variable" (location debug)
  end.

Definition tuple_ref_gen (tce : expr_gen) (tce_type : Tipe.t) (idx : Z) (debug : DebugInfo) : expr_gen :=
  λ num_locals locals prepushed_vals,
  match tce_type with
  | Tipe.Tuple fields =>
      then_code tce [vop_imm (Opcode.TupleGet (length fields)) (Value.Int idx) debug] num_locals locals prepushed_vals
  | _ => throw "type-checking bug: tuple lookup in non-tuple type" (location debug)
  end.

Definition dot_ref_gen (tce : expr_gen) (slot_num s_size : nat) (debug : DebugInfo) : expr_gen :=
  then_code tce [vop_imm (Opcode.TupleGet s_size) (slot_val slot_num) debug].

Definition struct_gen (fields : list expr_gen) (debug : DebugInfo) : expr_gen :=
  λ num_locals locals prepushed_vals,
  empty_vec ← get_or_panic (tree_new (length fields) false);
  fields_gen fields (make_empty empty_vec) debug num_locals locals prepushed_vals.

Definition tuple_gen (fields : list expr_gen) (debug : DebugInfo) : expr_gen :=
  fields_gen fields (Value.new_tuple (replicate (length fields) Value.none)) debug.

Definition array_ref_gen (e1 e2 : expr_gen) (t : Tipe.t) (debug : DebugInfo) : expr_gen :=
  builtin_gen "builtin_arrayGet" [e1; e2] (Tipe.Func false [Tipe.Array Tipe.Any; Tipe.Uint] t) (location debug).

Definition fixed_array_ref_gen (e1 e2 : expr_gen) (size : nat) (debug : DebugInfo) : expr_gen :=
  λ num_locals locals prepushed_vals,
  exp1_locals ← e1 num_locals locals prepushed_vals;
  exp2_locals ← e2 num_locals locals (prepushed_vals + 1);
  bounds_check size debug;;
  emit [vop (Opcode.UncheckedFixedArrayGet size) debug];;
  mret (max num_locals (max exp1_locals exp2_locals)).

Definition map_ref_gen (map_expr key_expr : expr_gen) (debug : DebugInfo) : expr_gen :=
  builtin_gen "builtin_kvsGet" [map_expr; key_expr]
    (Tipe.Func false [Tipe.Any; Tipe.Any] (Tipe.Option Tipe.Any)) (location debug).

Definition new_array_gen (sz_expr : expr_gen) (base_type array_type : Tipe.t) (debug : DebugInfo) : expr_gen :=
  λ num_locals locals prepushed_vals,
  '(default_val, _) ← get_or_panic (default_value base_type);
  builtin_gen "builtin_arrayNew" [sz_expr; const_gen default_val (di_from (location debug))]
    (Tipe.Func false [Tipe.Uint; Tipe.Any] array_type) (location debug) num_locals locals prepushed_vals.

Definition new_fixed_array_gen (sz : nat) (bo_expr : option expr_gen) (debug : DebugInfo) : expr_gen :=
  λ num_locals locals prepushed_vals,
  expr_locals ←
    match bo_expr with
    | Some e => some_locals ← e num_locals locals prepushed_vals;
                emit (fill_tuple debug);; mret some_locals
    | None => emit [op_imm AVMOpcode.Noop (Value.new_tuple (replicate 8 (Value.new_tuple []))) debug];; mret 0
    end;
  levels ← get_or_panic (fixed_array_levels (S sz) 8 sz debug);
  emit levels;;
  mret (max num_locals expr_locals).

Definition new_map_gen (debug : DebugInfo) : expr_gen :=
  builtin_gen "builtin_kvsNew" [] (Tipe.Func false [] Tipe.Any) (location debug).

Definition array_mod_gen (arr index val : expr_gen) (ta ti tv : Tipe.t) (debug : DebugInfo) : expr_gen :=
  builtin_gen "builtin_arraySet" [arr; index; val] (Tipe.Func false [ta; ti; tv] ta) (location debug).

Definition codegen_fixed_array_mod (arr index val : expr_gen) (size : nat) (debug : DebugInfo) : expr_gen :=
  λ num_locals locals prepushed_vals,
  val_locals ← val num_locals locals prepushed_vals;
  arr_locals ← arr num_locals locals (prepushed_vals + 1);
  idx_locals ← index num_locals locals (prepushed_vals + 2);
  bounds_check size debug;;
  code ← get_or_panic (codegen_fixed_array_mod_2 (S size) size debug);
  emit code;;
  mret (max num_locals (max val_locals (max arr_locals idx_locals))).

Definition map_mod_gen (map_expr key_expr val_expr : expr_gen) (tm tk tv : Tipe.t) (debug : DebugInfo) : expr_gen :=
  builtin_gen "builtin_kvsSet" [map_expr; key_expr; val_expr] (Tipe.Func false [tm; tk; tv] tm) (location debug).

Definition struct_mod_gen (struc : expr_gen) (index : nat) (val : expr_gen) (t : Tipe.t) (debug : DebugInfo) : expr_gen :=
  λ num_locals locals prepushed_vals,
  val_locals ← val num_locals locals prepushed_vals;
  struc_locals ← struc num_locals locals (prepushed_vals + 1);
  match t with
  | Tipe.Struct v => emit [vop_imm (Opcode.TupleSet (length v)) (slot_val index) debug]
  | _ => panic
  end;;
  mret (max num_locals (max val_locals struc_locals)).

Definition asm_gen (insns : list insn) (args : list expr_gen) : expr_gen := λ num_locals locals prepushed_vals,
  args_locals ← args_loop (rev args) num_locals locals prepushed_vals 0 0;
  emit insns;;
  mret (max num_locals args_locals).

Definition try_gen (exp : expr_gen) (debug : DebugInfo) : expr_gen := λ num_locals locals prepushed_vals,
  exp_locals ← exp num_locals locals prepushed_vals;
  extract ← new_label;
  emit (try_code extract prepushed_vals debug);;
  mret (max num_locals exp_locals).

Definition else_gen (else_block : option expr_gen) : expr_gen := λ num_locals locals prepushed_vals,
  match else_block with
  | Some block => block num_locals locals prepushed_vals
  | None => mret 0
  end.

Definition if_gen (cond block : expr_gen) (else_block : option expr_gen) (debug : DebugInfo) : expr_gen :=
  λ num_locals locals prepushed_vals,
  cond_locals ← cond num_locals locals prepushed_vals;
  after_label ← new_label;
  end_label ← new_label;
  emit [op_ AVMOpcode.IsZero debug; op_imm AVMOpcode.Cjump (Value.Label after_label) debug];;
  block_locals ← block num_locals locals prepushed_vals;
  emit ((if else_block is Some _ then [op_imm AVMOpcode.Jump (Value.Label end_label) debug] else [])
        ++ [label_ after_label debug]);;
  else_locals ← else_gen else_block num_locals locals prepushed_vals;
  emit [label_ end_label debug];;
  mret (max cond_locals (max block_locals else_locals)).

Definition if_let_gen (name : nat) (expr block : expr_gen) (else_block : option expr_gen) (debug : DebugInfo) : expr_gen :=
  λ num_locals locals prepushed_vals,
  after_label ← new_label;
  let slot_num := num_locals in
  let new_locals := <[ name := slot_num ]> locals in
  exp_locals ← expr num_locals locals prepushed_vals;
  emit [op_ AVMOpcode.Dup0 debug; op_imm AVMOpcode.Tget (slot_val 0) debug; op_ AVMOpcode.IsZero debug;
        op_imm AVMOpcode.Cjump (Value.Label after_label) debug; op_imm AVMOpcode.Tget (slot_val 1) debug;
        vop_imm Opcode.SetLocal (slot_val slot_num) debug];;
  total_locals ← block (num_locals + 1) new_locals prepushed_vals;
  outside_label ← new_label;
  emit [op_imm AVMOpcode.Jump (Value.Label outside_label) debug; label_ after_label debug;
        op_ AVMOpcode.Pop debug];;
  else_locals ← else_gen else_block num_locals locals prepushed_vals;
  emit [label_ outside_label debug];;
  mret (max (max total_locals exp_locals) else_locals).

(** A sequence of statements, given [num_locals], [locals] and [prepushed_vals]. *)
Definition stats_gen : Type := nat → gmap nat nat → nat → Gen (nat * gmap nat nat).

Definition loop_gen (body : stats_gen) (debug : DebugInfo) : expr_gen := λ num_locals locals prepushed_vals,
  let slot_num := slot_val num_locals in
  top_label ← new_label;
  bottom_label ← new_label;
  push_scope ("_"%string, bottom_label, Some (Tipe.Tuple []));;
  emit [op_imm AVMOpcode.Noop (Value.Label top_label) debug; vop_imm Opcode.SetLocal slot_num debug;
        label_ top_label debug];;
  '(nl, _) ← body (num_locals + 1) locals prepushed_vals;
  pop_scope;;
  emit [vop_imm Opcode.GetLocal slot_num debug; op_ AVMOpcode.Jump debug; label_ bottom_label debug];;
  mret (max (num_locals + 1) nl).

Definition code_block_gen (body : stats_gen) (ret_expr : option expr_gen) (block_scope : option string)
    (debug_info : DebugInfo) : expr_gen := λ num_locals locals prepushed_vals,
  bottom_label ← new_label;
  push_scope (default "_"%string block_scope, bottom_label, None);;
  '(nl, block_locals) ← body num_locals locals prepushed_vals;
  match ret_expr with
  | Some ret_expr =>
      exp_locals ← ret_expr nl (block_locals ∪ locals) prepushed_vals;
      emit [label_ bottom_label debug_info];;
      pop_scope;;
      mret (max num_locals (max exp_locals nl))
  | None =>
      emit [label_ bottom_label debug_info];;
      mret (max num_locals nl)
  end.

(** *** The kinds of statements *)
Definition return_gen (expr : expr_gen) (debug : DebugInfo) : stat_gen := λ num_locals locals prepushed_vals,
  exp_locals ← expr num_locals locals prepushed_vals;
  emit (drop_prepushed prepushed_vals debug ++ [vop Opcode.Return debug]);;
  mret (exp_locals, ∅).

Definition break_gen (oexpr : option expr_gen) (t : Tipe.t) (scope_id : string) (debug : DebugInfo) : stat_gen :=
  λ num_locals locals prepushed_vals,
  inner_scopes ← get_scopes;
  match find_scope scope_id t inner_scopes with
  | None => throw "could not find scope" (location debug)
  | Some (lab, scopes) =>
      num_locals ← match oexpr with
                   | Some expr => expr num_locals locals prepushed_vals
                   | None => mret prepushed_vals
                   end;
      set_scopes scopes;;
      emit [op_imm AVMOpcode.Jump (Value.Label lab) debug];;
      mret (num_locals, ∅)
  end.

Definition expression_gen (expr : expr_gen) (t : Tipe.t) (debug : DebugInfo) : stat_gen :=
  λ num_locals locals prepushed_vals,
  exp_locals ← expr num_locals locals prepushed_vals;
  (if type_eq t Tipe.Void || type_eq t Tipe.Every then mret ()
   else
     emit [op_ AVMOpcode.Pop debug];;
     if type_eq t (Tipe.Tuple []) then mret ()
     else warn (CompileError_new_warning "Compile warning"
                  "expression statement returns value of type, which is discarded" (option_list (location debug))));;
  mret (exp_locals, ∅).

Definition let_gen (pat : MatchPattern) (expr : expr_gen) (debug : DebugInfo) : stat_gen :=
  λ num_locals locals prepushed_vals,
  exp_locals ← expr num_locals locals prepushed_vals;
  '(new_locals, bindings, _) ← codegen_tuple_pattern string_table global_var_map pat num_locals locals debug;
  mret (max (num_locals + new_locals) exp_locals, bindings).

Definition assign_local_gen (name : nat) (expr : expr_gen) (debug : DebugInfo) : stat_gen :=
  λ num_locals locals prepushed_vals,
  match locals !! name with
  | None => throw "assigned to non-existent variable" (location debug)
  | Some slot_num =>
      exp_locals ← expr num_locals locals prepushed_vals;
      emit [vop_imm Opcode.SetLocal (slot_val slot_num) debug];;
      mret (exp_locals, ∅)
  end.

(** Assignment to a global variable, and [debug_print]. *)
Definition consume_gen (expr : expr_gen) (i : insn) : stat_gen := λ num_locals locals prepushed_vals,
  exp_locals ← expr num_locals locals prepushed_vals;
  emit [i];;
  mret (exp_locals, ∅).

Definition while_gen (cond : expr_gen) (body : stats_gen) (debug : DebugInfo) : stat_gen :=
  λ num_locals locals prepushed_vals,
  let slot_num := slot_val num_locals in
  top_label ← new_label;
  cond_label ← new_label;
  emit [op_imm AVMOpcode.Noop (Value.Label top_label) debug; vop_imm Opcode.SetLocal slot_num debug;
        op_imm AVMOpcode.Jump (Value.Label cond_label) debug; label_ top_label debug];;
  '(nl, _) ← body (num_locals + 1) locals prepushed_vals;
  emit [label_ cond_label debug];;
  cond_locals ← cond nl locals prepushed_vals;
  emit [vop_imm Opcode.GetLocal slot_num debug; op_ AVMOpcode.Cjump debug];;
  mret (max cond_locals nl, ∅).

Definition asm_stat_gen (insns : list insn) (args : list expr_gen) : stat_gen := λ num_locals locals prepushed_vals,
  exp_locals ← args_loop (rev args) num_locals locals prepushed_vals 0 0;
  emit insns;;
  mret (exp_locals, ∅).

Definition assert_gen (expr : expr_gen) (debug : DebugInfo) : stat_gen := λ num_locals locals prepushed_vals,
  if release_build then mret (0, ∅)
  else
    exp_locals ← builtin_gen "builtin_assert" [expr] (Tipe.Func false [Tipe.Tuple [Tipe.Bool; Tipe.Any]] Tipe.Void)
                   (location debug) num_locals locals prepushed_vals;
    mret (exp_locals, ∅).

(** *** All of them *)
Fixpoint mavm_codegen_expr (expr : TypeCheckedExpr) : expr_gen :=
  let '(mkExpr kind debug) := expr in
  match kind with
  | NewBuffer => simple_gen [op_ AVMOpcode.NewBuffer debug]
  | Error => simple_gen [op_ AVMOpcode.Error debug]
  | GetGas => simple_gen [op_ AVMOpcode.PushGas debug]
  | SetGas tce => set_gas_gen (mavm_codegen_expr tce) debug
  | Unary op tce _ => unary_gen op (mavm_codegen_expr tce) debug
  | Variant inner => variant_gen (mavm_codegen_expr inner) debug
  | Binary op tce1 tce2 _ => binary_gen op (mavm_codegen_expr tce1) (mavm_codegen_expr tce2) debug
  | Trinary op tce1 tce2 tce3 _ =>
      trinary_gen op (mavm_codegen_expr tce1) (mavm_codegen_expr tce2) (mavm_codegen_expr tce3) debug
  | ShortcutOr tce1 tce2 => shortcut_or_gen (mavm_codegen_expr tce1) (mavm_codegen_expr tce2) debug
  | ShortcutAnd tce1 tce2 => shortcut_and_gen (mavm_codegen_expr tce1) (mavm_codegen_expr tce2) debug
  | LocalVariableRef name _ => local_ref_gen name debug
  | GlobalVariableRef idx _ => simple_gen [vop (Opcode.GetGlobalVar idx) debug]
  | FuncRef name _ => func_ref_gen name debug
  | TupleRef tce idx _ => tuple_ref_gen (mavm_codegen_expr tce) (get_type tce) idx debug
  | DotRef tce slot_num s_size _ => dot_ref_gen (mavm_codegen_expr tce) slot_num s_size debug
  | Const val _ => const_gen val debug
  | FunctionCall fexpr args func_type _ =>
      call_gen (mavm_codegen_expr fexpr) (map mavm_codegen_expr args) func_type debug
  | CodeBlock block => mavm_codegen_code_block block debug
  | StructInitializer fields _ => struct_gen (map (λ f, mavm_codegen_expr (fi_value f)) fields) debug
  | TupleExpr fields _ => tuple_gen (map mavm_codegen_expr fields) debug
  | ArrayRef expr1 expr2 t => array_ref_gen (mavm_codegen_expr expr1) (mavm_codegen_expr expr2) t debug
  | FixedArrayRef expr1 expr2 size _ =>
      fixed_array_ref_gen (mavm_codegen_expr expr1) (mavm_codegen_expr expr2) size debug
  | MapRef map_expr key_expr _ => map_ref_gen (mavm_codegen_expr map_expr) (mavm_codegen_expr key_expr) debug
  | NewArray sz_expr base_type array_type => new_array_gen (mavm_codegen_expr sz_expr) base_type array_type debug
  | NewFixedArray sz bo_expr _ =>
      new_fixed_array_gen sz (match bo_expr with Some e => Some (mavm_codegen_expr e) | None => None end) debug
  | NewMap _ => new_map_gen debug
  | ArrayMod arr index val _ =>
      array_mod_gen (mavm_codegen_expr arr) (mavm_codegen_expr index) (mavm_codegen_expr val)
                    (get_type arr) (get_type index) (get_type val) debug
  | FixedArrayMod arr index val size _ =>
      codegen_fixed_array_mod (mavm_codegen_expr arr) (mavm_codegen_expr index) (mavm_codegen_expr val) size debug
  | MapMod map_expr key_expr val_expr _ =>
      map_mod_gen (mavm_codegen_expr map_expr) (mavm_codegen_expr key_expr) (mavm_codegen_expr val_expr)
                  (get_type map_expr) (get_type key_expr) (get_type val_expr) debug
  | StructMod struc index val t => struct_mod_gen (mavm_codegen_expr struc) index (mavm_codegen_expr val) t debug
  | Cast expr _ => mavm_codegen_expr expr
  | Asm _ insns args => asm_gen insns (map mavm_codegen_expr args)
  | Try exp _ => try_gen (mavm_codegen_expr exp) debug
  | If cond block else_block _ =>
      if_gen (mavm_codegen_expr cond) (mavm_codegen_code_block block debug)
             (match else_block with Some b => Some (mavm_codegen_code_block b debug) | None => None end) debug
  | IfLet name expr block else_block _ =>
      if_let_gen name (mavm_codegen_expr expr) (mavm_codegen_code_block block debug)
                 (match else_block with Some b => Some (mavm_codegen_code_block b debug) | None => None end) debug
  | Loop body =>
      loop_gen (λ num_locals locals prepushed_vals,
                  statements_loop mavm_codegen_statement locals prepushed_vals body num_locals ∅) debug
  end
with mavm_codegen_statement (statement : TypeCheckedStatement) : stat_gen :=
  let '(mkStatement kind debug) := statement in
  match kind with
  | SNoop => λ _ _ _, mret (0, ∅)
  | SReturnVoid => λ _ _ _, emit [vop Opcode.Return debug];; mret (0, ∅)
  | SReturn expr => return_gen (mavm_codegen_expr expr) debug
  | SBreak oexpr scope_id =>
      break_gen (match oexpr with Some e => Some (mavm_codegen_expr e) | None => None end)
                (match oexpr with Some e => get_type e | None => Tipe.Tuple [] end) scope_id debug
  | SExpression expr => expression_gen (mavm_codegen_expr expr) (get_type expr) debug
  | SLet pat expr => let_gen pat (mavm_codegen_expr expr) debug
  | SAssignLocal name expr => assign_local_gen name (mavm_codegen_expr expr) debug
  | SAssignGlobal idx expr => consume_gen (mavm_codegen_expr expr) (vop (Opcode.SetGlobalVar idx) debug)
  | SWhile cond body =>
      while_gen (mavm_codegen_expr cond)
                (λ num_locals locals prepushed_vals,
                   statements_loop mavm_codegen_statement locals prepushed_vals body num_locals ∅) debug
  | SAsm insns args => asm_stat_gen insns (map mavm_codegen_expr args)
  | SDebugPrint e => consume_gen (mavm_codegen_expr e) (op_ AVMOpcode.DebugPrint debug)
  | SAssert expr => assert_gen (mavm_codegen_expr expr) debug
  end
with mavm_codegen_code_block (block : TypeCheckedCodeBlock) : DebugInfo → expr_gen :=
  let '(mkBlock body ret_expr block_scope) := block in
  code_block_gen (λ num_locals locals prepushed_vals,
                    statements_loop mavm_codegen_statement locals prepushed_vals body num_locals ∅)
                 (match ret_expr with Some e => Some (mavm_codegen_expr e) | None => None end) block_scope.

(** [statement.kind == ReturnVoid()] for the last statement *)
Definition ends_with_return_void (code : list TypeCheckedStatement) : bool :=
  match list.last code with
  | Some (mkStatement SReturnVoid _) => true
  | _ => false
  end.

(** The body of a function, with a final return if its type is [void]. *)
Definition with_final_return (func : TypeCheckedFunc) : list TypeCheckedStatement :=
  if type_eq (f_ret_type func) Tipe.Void && negb (ends_with_return_void (f_code func))
  then f_code func ++ [mkStatement SReturnVoid
         (mkDebugInfo None (mkAttributes false InlineAuto (codegen_print (attributes (f_debug_info func)))))]
  else f_code func.

(** [for (index, arg) in func.args.iter().enumerate() { locals.insert(arg.name, index) }] *)
Fixpoint arg_slots (index : nat) (args : list FuncArg) (locals : gmap nat nat) : gmap nat nat :=
  match args with
  | [] => locals
  | arg :: args => arg_slots (S index) args (<[ fa_name arg := index ]> locals)
  end.

(** Gives the generated code, the label generator and the warnings after it. *)
Definition mavm_codegen_func (func : TypeCheckedFunc) (label_gen : LabelGenerator.t) (warnings : list CompileError)
    : outcome CodegenError (LabelGenerator.t * list insn * list CompileError) :=
  let debug_info := f_debug_info func in
  let num_args := length (f_args func) in
  let locals := arg_slots 0 (f_args func) ∅ in
  '((max_num_locals, _), code, g) ←
    statements_loop mavm_codegen_statement locals 0 (with_final_return func) num_args ∅ (mkGen label_gen [] warnings);
  match f_tipe func with
  | Tipe.Func _ _ ret =>
      Ok (g_labels g,
          label_ (Label.Func (f_name func)) debug_info
            :: vop (Opcode.MakeFrame num_args max_num_locals (negb (type_eq ret Tipe.Every))) debug_info :: code,
          g_warnings g)
  | _ => Err (mkCodegenError "type checking bug: function with non function type" (location debug_info))
  end.

(** The functions in the order of their ids; [funcs_code], keyed by the function's name. *)
Fixpoint codegen_funcs (funcs : list (nat * TypeCheckedFunc)) (label_gen : LabelGenerator.t) (warnings : list CompileError)
    (funcs_code : list (nat * list insn)) : outcome CodegenError (list (nat * list insn) * list CompileError) :=
  match funcs with
  | [] => Ok (funcs_code, warnings)
  | (_, func) :: funcs =>
      '(label_gen, function_code, warnings) ← mavm_codegen_func func label_gen warnings;
      codegen_funcs funcs label_gen warnings (btree_insert (f_name func) function_code funcs_code)
  end.
End codegen.

(** The labels of imported functions and the slots of global variables. *)
Fixpoint import_map (imported : list ImportedFunc) (m : gmap nat Label.t) : gmap nat Label.t :=
  match imported with
  | [] => m
  | f :: imported => import_map imported (<[ name_id f := Label.External (slot_num f) ]> m)
  end.

Fixpoint global_map (idx : nat) (global_vars : list GlobalVarDecl) (m : gmap nat nat) : gmap nat nat :=
  match global_vars with
  | [] => m
  | gv :: global_vars => global_map (S idx) global_vars (<[ Z.to_nat (gv_name_id gv) := idx ]> m)
  end.

(** [funcs] is the content of the [BTreeMap] in the order of its keys; the
    result also has the warnings added to [error_system]. *)
Definition mavm_codegen `{Crypto} (funcs : list (nat * TypeCheckedFunc)) (string_table : StringTable.t)
    (imported_funcs : list ImportedFunc) (global_vars : list GlobalVarDecl) (warnings : list CompileError)
    (release_build : bool) : outcome CodegenError (list insn * list CompileError) :=
  '(funcs_code, warnings) ←
    codegen_funcs string_table (import_map imported_funcs ∅) (global_map 0 global_vars ∅) release_build
                  funcs LabelGenerator.new warnings [];
  Ok (concat (funcs_code.*2), warnings).
