(* ===== verification/CodegenThms.v ===== *)
(** * The labels and the local variables of generated code

    [wp] is the weakest precondition of a generator: what its result must
    satisfy if it succeeds.  [frag] says that a fragment of code defines exactly
    the labels drawn while it was generated, each once, refers only to those, to
    enclosing scopes and to functions, and uses only local slots below a bound.
    The theorems show it for every expression, statement, block, function and
    module. *)

From Stdlib Require Import ZArith Lia.
From S2P Require Import Prelude U256 StringTab Pos Opcodes Crypto BufferTree Values StraightLine TupleTree StripLabels Types TypedAst Link Codegen.

#[local] Set Warnings "-clear-no-such-hyp".

(** ** Weakest preconditions *)
Definition wp {A} (m : Gen A) (g : gen) (Q : A → list insn → gen → Prop) : Prop :=
  ∀ a c g', m g = Ok (a, c, g') → Q a c g'.

Lemma wp_ret {A} (a : A) g Q : Q a [] g → wp (mret a) g Q.
Proof. by intros HQ ? ? ? [= <- <- <-]. Qed.
Lemma wp_bind {A B} (m : Gen A) (f : A → Gen B) g Q :
  wp m g (λ a c1 g1, wp (f a) g1 (λ b c2 g2, Q b (c1 ++ c2) g2)) → wp (m ≫= f) g Q.
Proof.
  intros Hm b c g'. unfold mbind, gen_bind. destruct (m g) as [[[a c1] g1]| |] eqn:E; try discriminate.
  destruct (f a g1) as [[[b' c2] g2]| |] eqn:E2; try discriminate.
  intros [= <- <- <-]. exact (Hm _ _ _ E _ _ _ E2).
Qed.
Lemma wp_mono {A} (m : Gen A) g (P Q : A → list insn → gen → Prop) :
  wp m g P → (∀ a c g', P a c g' → Q a c g') → wp m g Q.
Proof. intros Hm HPQ a c g' E. by apply HPQ, Hm. Qed.
Lemma wp_emit c g Q : Q () c g → wp (emit c) g Q.
Proof. by intros HQ ? ? ? [= <- <- <-]. Qed.
Lemma wp_throw {A} r l g (Q : A → list insn → gen → Prop) : wp (throw r l) g Q.
Proof. by intros ? ? ?. Qed.
Lemma wp_panic {A} g (Q : A → list insn → gen → Prop) : wp panic g Q.
Proof. by intros ? ? ?. Qed.
Lemma wp_get_or_panic {A} (o : option A) g Q : (∀ a, o = Some a → Q a [] g) → wp (get_or_panic o) g Q.
Proof. unfold get_or_panic. intros HQ a c g'. destruct o; [|done]. intros [= <- <- <-]. by apply HQ. Qed.

Abbreviation next g := (LabelGenerator.next_label (g_labels g)).

(** The state after one label has been drawn. *)
Definition drawn (g : gen) : gen := mkGen (LabelGenerator.mk (next g + 1)) (g_scopes g) (g_warnings g).

Lemma wp_new_label g Q : Q (Label.Anon (next g)) [] (drawn g) → wp new_label g Q.
Proof. by intros HQ ? ? ? [= <- <- <-]. Qed.
Lemma wp_push_scope s g Q : Q () [] (mkGen (g_labels g) (s :: g_scopes g) (g_warnings g)) → wp (push_scope s) g Q.
Proof. by intros HQ ? ? ? [= <- <- <-]. Qed.
Lemma wp_pop_scope g Q : Q () [] (mkGen (g_labels g) (tail (g_scopes g)) (g_warnings g)) → wp pop_scope g Q.
Proof. by intros HQ ? ? ? [= <- <- <-]. Qed.
Lemma wp_warn w g Q : Q () [] (mkGen (g_labels g) (g_scopes g) (g_warnings g ++ [w])) → wp (warn w) g Q.
Proof. by intros HQ ? ? ? [= <- <- <-]. Qed.
Lemma wp_get_scopes g Q : Q (g_scopes g) [] g → wp get_scopes g Q.
Proof. by intros HQ ? ? ? [= <- <- <-]. Qed.
Lemma wp_set_scopes s g Q : Q () [] (mkGen (g_labels g) s (g_warnings g)) → wp (set_scopes s) g Q.
Proof. by intros HQ ? ? ? [= <- <- <-]. Qed.

Ltac wp_step :=
  lazymatch goal with
  | |- wp (mbind _ _) _ _ => apply wp_bind
  | |- wp (mret _) _ _ => apply wp_ret
  | |- wp (emit _) _ _ => apply wp_emit
  | |- wp (throw _ _) _ _ => apply wp_throw
  | |- wp panic _ _ => apply wp_panic
  | |- wp (get_or_panic _) _ _ => apply wp_get_or_panic; intros ? ?
  | |- wp new_label _ _ => apply wp_new_label
  | |- wp (push_scope _) _ _ => apply wp_push_scope
  | |- wp pop_scope _ _ => apply wp_pop_scope
  | |- wp (warn _) _ _ => apply wp_warn
  | |- wp get_scopes _ _ => apply wp_get_scopes
  | |- wp (set_scopes _) _ _ => apply wp_set_scopes
  end.

(** ** Labels and slots of code *)

(** The numbers of the anonymous labels defined in a piece of code. *)
Definition dl1 (i : insn) : list nat :=
  match Instruction.opcode i with
  | Opcode.Label (Label.Anon k) => [k]
  | _ => []
  end.
Definition dl (c : list insn) : list nat := flat_map dl1 c.

Lemma dl_app c1 c2 : dl (c1 ++ c2) = dl c1 ++ dl c2.
Proof. apply flat_map_app. Qed.
Lemma dl_cons i c : dl (i :: c) = dl1 i ++ dl c.
Proof. done. Qed.

Section labels.
(** The labels of functions and imports, which are not drawn from the generator. *)
Context (global_label : Label.t → Prop).

Definition scope_labels (g : gen) : list Label.t := (λ s : scope, s.1.2) <$> g_scopes g.

(** A label that code generated between [g] and [g'] may mention. *)
Definition within (g g' : gen) (l : Label.t) : Prop :=
  global_label l ∨ l ∈ scope_labels g ∨ ∃ k, l = Label.Anon k ∧ next g <= k < next g'.

(** [g'] can be reached from [g]: labels are only added, and every scope is an
    old one or was opened in between. *)
Definition reach (g g' : gen) : Prop := next g <= next g' ∧ ∀ l, l ∈ scope_labels g' → within g g' l.

Lemma within_mono g a b l : within g a l → next a <= next b → within g b l.
Proof. intros [?|[?|(k & -> & ?)]] Hab; [by left|by right; left|]. right; right. exists k. split; [done|lia]. Qed.

Lemma within_trans g a b l : reach g a → next a <= next b → within a b l → within g b l.
Proof.
  intros [Hn Hs] Hab [?|[Hl|(k & -> & ?)]]; [by left| |].
  - eapply within_mono; [by apply Hs|done].
  - right; right. exists k. split; [done|lia].
Qed.

Lemma reach_refl g : reach g g.
Proof. split; [done|]. intros l Hl. by right; left. Qed.
Lemma reach_trans g a b : reach g a → reach a b → reach g b.
Proof.
  intros Hga [Hab Hs]. split; [destruct Hga; lia|]. intros l Hl. eapply within_trans; [done|done|]. by apply Hs.
Qed.
Lemma reach_drawn g : reach g (drawn g).
Proof. split; [cbn; lia|]. intros l Hl. by right; left. Qed.

(** An instruction of code generated between [g] and [g'] for a frame of [n] locals. *)
Record insn_ok (g g' : gen) (n : nat) (i : insn) : Prop := {
  ok_refs : ∀ l, l ∈ imm_labels i → within g g' l;
  ok_label : ∀ l, Instruction.get_label i = Some l → ∃ k, l = Label.Anon k;
  ok_slot : Instruction.opcode i = Opcode.GetLocal ∨ Instruction.opcode i = Opcode.SetLocal →
            ∃ k, Instruction.immediate i = Some (slot_val k) ∧ k < n;
  ok_frame : ∀ nargs ntotal ra, Instruction.opcode i ≠ Opcode.MakeFrame nargs ntotal ra;
}.

Record frag (g g' : gen) (n : nat) (c : list insn) : Prop := {
  frag_reach : reach g g';
  frag_nodup : NoDup (dl c);
  frag_dl : ∀ k, k ∈ dl c ↔ next g <= k < next g';
  frag_insns : Forall (insn_ok g g' n) c;
}.

Lemma insn_ok_weaken g a b g' m n i :
  reach g a → next a <= next b → next b <= next g' → m <= n → insn_ok a b m i → insn_ok g g' n i.
Proof.
  intros Ha Hab Hb Hn [H1 H2 H3 H4]. split; [|done| |done].
  - intros l Hl. eapply within_mono; [|done]. eapply within_trans; [done..|]. by apply H1.
  - intros Ho. destruct (H3 Ho) as (k & ? & ?). exists k. split; [done|lia].
Qed.

(** An instruction that neither defines nor mentions a label nor uses a local
    nor reserves a frame. *)
Definition plain_insn (i : insn) : bool :=
  bool_decide (imm_labels i = []) &&
  match Instruction.opcode i with
  | Opcode.Label _ | Opcode.GetLocal | Opcode.SetLocal | Opcode.MakeFrame _ _ _ => false
  | _ => true
  end.

Lemma plain_ok g g' n i : plain_insn i = true → insn_ok g g' n i.
Proof.
  unfold plain_insn. intros [Hi Ho]%andb_prop. apply bool_decide_eq_true in Hi. split.
  - intros l. rewrite Hi. by intros ?%elem_of_nil.
  - unfold Instruction.get_label. intros l. by destruct (Instruction.opcode i).
  - by intros [E|E]; rewrite E in Ho.
  - intros ? ? ? E. by rewrite E in Ho.
Qed.

Lemma plain_dl c : forallb plain_insn c = true → dl c = [].
Proof.
  induction c as [|i c IH]; [done|]. cbn [forallb]. intros [Hi Hc]%andb_prop.
  rewrite dl_cons, (IH Hc). unfold plain_insn in Hi. apply andb_prop in Hi as [_ Hi]. unfold dl1.
  by destruct (Instruction.opcode i).
Qed.

Lemma plain_all g g' n c : forallb plain_insn c = true → Forall (insn_ok g g' n) c.
Proof.
  intros Hc. apply List.Forall_forall. intros i Hi. apply plain_ok. by apply (proj1 (forallb_forall _ _) Hc).
Qed.

(** ** Composition *)
Lemma frag_plain g n c : forallb plain_insn c = true → frag g g n c.
Proof.
  intros Hc. split; [apply reach_refl|rewrite plain_dl by done; constructor| |by apply plain_all].
  intros k. rewrite plain_dl by done. split; [by intros ?%elem_of_nil|lia].
Qed.

Lemma frag_app g a b n c1 c2 : frag g a n c1 → frag a b n c2 → frag g b n (c1 ++ c2).
Proof.
  intros [R1 N1 D1 I1] [R2 N2 D2 I2]. destruct R1 as [L1 S1], R2 as [L2 S2]. split.
  - by apply (reach_trans g a).
  - rewrite dl_app. apply list.NoDup_app. split; [done|]. split; [|done].
    intros k Hk1 Hk2. apply D1 in Hk1. apply D2 in Hk2. lia.
  - intros k. rewrite dl_app, elem_of_app, D1, D2. lia.
  - apply Forall_app. split.
    + eapply Forall_impl; [|exact I1]. intros i. apply insn_ok_weaken; [apply reach_refl|done..].
    + eapply Forall_impl; [|exact I2]. intros i. by apply insn_ok_weaken.
Qed.

Lemma frag_le g g' m n c : m <= n → frag g g' m c → frag g g' n c.
Proof.
  intros Hmn [R N D I]. split; [done..|]. eapply Forall_impl; [|exact I].
  intros i. destruct R. by apply insn_ok_weaken; [apply reach_refl|..].
Qed.

Lemma reach_draw g a : reach g a → reach g (drawn a).
Proof. intros Ha. eapply reach_trans; [done|apply reach_drawn]. Qed.

(** The label instruction of a label drawn in between. *)
Lemma label_ok g g' n l di : (∃ k, l = Label.Anon k) → insn_ok g g' n (label_ l di).
Proof. intros Hl. split; cbn; [by intros ? ?%elem_of_nil|by intros ? [= <-]|by intros [|]|done]. Qed.

(** An instruction whose immediate is a label. *)
Lemma ref_ok g g' n op l di : within g g' l → insn_ok g g' n (op_imm op (Value.Label l) di).
Proof. intros Hl. split; cbn; [|done|by intros [|]|done]. by intros ? ->%list_elem_of_singleton. Qed.

Lemma slot_ok g g' n op k di : op = Opcode.GetLocal ∨ op = Opcode.SetLocal → k < n →
  insn_ok g g' n (vop_imm op (slot_val k) di).
Proof.
  intros Ho Hk. split; cbn; [by intros ? ?%elem_of_nil|by destruct Ho as [-> | ->]| |by destruct Ho as [-> | ->]]. intros _. by exists k.
Qed.

(** Opening and closing scopes, and warnings. *)
Lemma reach_push g a s : reach g a → within g a s.1.2 → reach g (mkGen (g_labels a) (s :: g_scopes a) (g_warnings a)).
Proof. intros [Hn Hs] Hw. split; [done|]. intros l [->|Hl]%elem_of_cons; [done|]. by apply Hs. Qed.
Lemma reach_pop g a : reach g a → reach g (mkGen (g_labels a) (tail (g_scopes a)) (g_warnings a)).
Proof.
  intros [Hn Hs]. split; [done|]. intros l Hl. apply Hs. unfold scope_labels in *. cbn in Hl.
  destruct (g_scopes a); [done|]. by right.
Qed.
Lemma reach_warn g a w : reach g a → reach g (mkGen (g_labels a) (g_scopes a) w).
Proof. by intros [Hn Hs]. Qed.

Lemma within_drawn g a g' : reach g a → next a < next g' → within g g' (Label.Anon (next a)).
Proof. intros [? _] ?. right; right. exists (next a). split; [done|lia]. Qed.
End labels.

(** The states met so far are reachable from the first one. *)
Ltac note_reach :=
  repeat match goal with
  | F : frag ?G ?a ?b ?n ?c |- _ =>
      let R := fresh "R" in pose proof (frag_reach G _ _ _ _ F) as R;
      let D := fresh "D" in pose proof (frag_dl G _ _ _ _ F) as D;
      let N := fresh "N" in pose proof (frag_nodup G _ _ _ _ F) as N;
      let I := fresh "I" in pose proof (frag_insns G _ _ _ _ F) as I; clear F
  end;
  repeat match goal with
  | R : reach _ ?a ?b |- _ =>
      lazymatch goal with
      | _ : next a <= next b |- _ => fail
      | _ => pose proof (proj1 R)
      end
  end.

Ltac reach_tac :=
  first [ assumption | apply reach_refl | apply reach_draw; reach_tac
        | apply reach_push; [reach_tac|apply within_drawn; [reach_tac|cbn in *; lia]]
        | apply reach_pop; reach_tac | apply reach_warn; reach_tac
        | eapply reach_trans; [|eassumption]; reach_tac ].

Ltac insns_tac :=
  repeat (rewrite !Forall_app || rewrite !Forall_cons); repeat apply conj; try apply List.Forall_nil;
  repeat match goal with
  | |- Forall _ [] => apply List.Forall_nil
  | |- Forall _ (_ :: _) => apply List.Forall_cons
  | |- Forall _ (_ ++ _) => apply Forall_app; split
  | I : Forall _ ?c |- Forall _ ?c =>
      eapply Forall_impl; [|exact I]; intros ?; apply insn_ok_weaken; [reach_tac|cbn in *; lia..]
  | |- Forall _ _ => apply plain_all; reflexivity
  | |- insn_ok _ _ _ _ (label_ _ _) => apply label_ok; by eexists
  | |- insn_ok _ _ _ _ (op_imm _ (Value.Label _) _) => apply ref_ok; apply within_drawn; [reach_tac|cbn in *; lia]
  | |- insn_ok _ _ _ _ (vop_imm _ (slot_val _) _) => apply slot_ok; [tauto|lia]
  | |- insn_ok _ _ _ _ _ => apply plain_ok; reflexivity
  end.

Ltac dl_simpl :=
  rewrite ?dl_app; repeat rewrite dl_cons; change (dl []) with (@nil nat);
  cbn [dl1 Instruction.opcode label_ op_ op_imm vop vop_imm Instruction.from_opcode Instruction.from_opcode_imm
       Instruction.new app];
  rewrite ?app_nil_r.

Ltac dl_tac :=
  dl_simpl; cbn [app];
  repeat match goal with
  | |- NoDup (_ ++ _) => apply list.NoDup_app
  | |- NoDup (_ :: _) => apply list.NoDup_cons
  | |- _ ∧ _ => split
  | |- NoDup [] => constructor
  | |- ∀ _, _ => intro
  | H : _ ∈ _ ++ _ |- _ => apply elem_of_app in H as [H|H]
  | H : _ ∈ _ :: _ |- _ => apply elem_of_cons in H as [H|H]
  | H : _ ∈ [] |- _ => apply elem_of_nil in H
  | |- _ ∉ _ => intro
  | D : (∀ k, k ∈ dl ?c ↔ _), H : _ ∈ dl ?c |- _ => apply D in H
  end; cbn in *; try done; try lia.

Ltac mem_tac :=
  intros ?; dl_simpl; repeat (rewrite elem_of_app || rewrite elem_of_cons || rewrite elem_of_nil);
  repeat match goal with
  | D : (∀ k, k ∈ dl ?c ↔ _) |- context [_ ∈ dl ?c] => rewrite D
  end; cbn in *; lia.

Ltac frag_tac := note_reach; split; [reach_tac|dl_tac|mem_tac|insns_tac].

(** ** Hypotheses on the syntax tree *)

(** Inline assembly and constants mention no labels and no local slots. *)
Definition plain_kind (k : TypeCheckedExprKind) : bool :=
  match k with
  | Const v _ => bool_decide (value_labels v = [])
  | Asm _ insns _ => forallb plain_insn insns
  | _ => true
  end.
Definition plain_stat (k : TypeCheckedStatementKind) : bool :=
  match k with
  | SAsm insns _ => forallb plain_insn insns
  | _ => true
  end.

#[warnings="-register-all"]
Inductive plain_expr : TypeCheckedExpr → Prop :=
| plain_expr_intro k di :
    plain_kind k = true → Forall plain_expr (sub_exprs k) → Forall plain_statement (sub_stats k) →
    Forall plain_block (sub_blocks k) → plain_expr (mkExpr k di)
with plain_statement : TypeCheckedStatement → Prop :=
| plain_statement_intro k di :
    plain_stat k = true → Forall plain_expr (stat_exprs k) → Forall plain_statement (stat_stats k) →
    plain_statement (mkStatement k di)
with plain_block : TypeCheckedCodeBlock → Prop :=
| plain_block_intro body ret scope :
    Forall plain_statement body → Forall plain_expr (olist ret) → plain_block (mkBlock body ret scope).

(** ** The parts of the generator *)
Create HintDb plain.
Create HintDb codegen.

Section parts.
Context `{Crypto} (string_table : StringTable.t) (import_func_map : gmap nat Label.t) (global_var_map : gmap nat nat)
        (release_build : bool).
Context (G : Label.t → Prop).
Hypothesis G_func : ∀ id, G (Label.Func id).
Hypothesis G_import : ∀ id l, import_func_map !! id = Some l → G l.

Definition slots_below (n : nat) (locals : gmap nat nat) : Prop := ∀ id k, locals !! id = Some k → k < n.

(** A generator of an expression that keeps the discipline. *)
Definition expr_good (e : expr_gen) : Prop :=
  ∀ num_locals locals pre g, slots_below num_locals locals →
    wp (e num_locals locals pre) g (λ n c g', num_locals <= n ∧ frag G g g' n c).
Definition stat_good (s : stat_gen) : Prop :=
  ∀ num_locals locals pre g, slots_below num_locals locals →
    wp (s num_locals locals pre) g (λ r c g', frag G g g' (max r.1 num_locals) c ∧ slots_below (max r.1 num_locals) r.2).

Lemma args_loop_good gs : Forall expr_good gs → ∀ num_locals locals pre i acc g, slots_below num_locals locals →
  wp (args_loop gs num_locals locals pre i acc) g (λ n c g', acc <= n ∧ frag G g g' (max n num_locals) c).
Proof.
  induction 1 as [|e gs He _ IH]; intros num_locals locals pre i acc g Hl; cbn [args_loop].
  - wp_step. split; [done|]. by apply frag_plain.
  - wp_step. eapply wp_mono; [by apply He|]. intros n c g1 [Hn F1]. eapply wp_mono; [by apply IH|].
    intros n2 c2 g2 [Hn2 F2]. split; [lia|]. eapply frag_app; [|exact F2]. eapply frag_le; [|exact F1]. lia.
Qed.

Lemma slots_below_le m n locals : m <= n → slots_below m locals → slots_below n locals.
Proof. intros Hmn Hl id k Hk. apply Hl in Hk. lia. Qed.
Lemma slots_below_union n l1 l2 : slots_below n l1 → slots_below n l2 → slots_below n (l1 ∪ l2).
Proof. intros H1 H2 id k [Hk|[_ Hk]]%lookup_union_Some_raw; [by eapply H1|by eapply H2]. Qed.
Lemma slots_below_empty n : slots_below n ∅.
Proof. intros id k. by rewrite lookup_empty. Qed.
Lemma slots_below_insert n l id k : k < n → slots_below n l → slots_below n (<[id := k]> l).
Proof. intros Hk Hl id' k' [[<- <-]|[_ Hk']]%lookup_insert_Some; [done|by eapply Hl]. Qed.

Lemma statements_loop_good f ss : Forall (λ s, stat_good (f s)) ss → ∀ num_locals locals pre bindings g,
  slots_below num_locals locals → slots_below num_locals bindings →
  wp (statements_loop f locals pre ss num_locals bindings) g
     (λ r c g', num_locals <= r.1 ∧ frag G g g' r.1 c ∧ slots_below r.1 r.2).
Proof.
  induction 1 as [|s ss Hs _ IH]; intros num_locals locals pre bindings g Hl Hb; cbn [statements_loop].
  - wp_step. split; [done|]. split; [by apply frag_plain|done].
  - wp_step. eapply wp_mono; [apply Hs; by apply slots_below_union|]. intros [n b] c g1 [F1 B1]. cbn [fst snd] in *.
    eapply wp_mono; [apply IH|].
    + eapply slots_below_le; [|done]. lia.
    + apply slots_below_union; [done|]. eapply slots_below_le; [|done]. lia.
    + intros [n2 b2] c2 g2 (Hn2 & F2 & B2). cbn [fst snd] in *. split; [lia|]. split; [|done].
      eapply frag_app; [|exact F2]. eapply frag_le; [|exact F1]. lia.
Qed.

Lemma func_ref_good id di : expr_good (func_ref_gen import_func_map id di).
Proof.
  intros num_locals locals pre g Hl. unfold func_ref_gen. cbv zeta. repeat wp_step. split; [done|].
  split; [apply reach_refl|constructor|intros k; split; [by intros ?%elem_of_nil|lia]|].
  apply List.Forall_cons; [|constructor]. apply ref_ok. left.
  destruct (import_func_map !! id) as [l|] eqn:E; [by eapply G_import|apply G_func].
Qed.

Lemma const_good v di : value_labels v = [] → expr_good (const_gen v di).
Proof.
  intros Hv num_locals locals pre g Hl. unfold const_gen. repeat wp_step. split; [done|].
  apply frag_plain. cbn. unfold plain_insn, imm_labels. cbn. by rewrite Hv.
Qed.

Lemma Forall_rev_good gs : Forall expr_good gs → Forall expr_good (rev gs).
Proof. apply List.Forall_rev. Qed.

Lemma call_good f args t di : expr_good f → Forall expr_good args → expr_good (call_gen f args t di).
Proof.
  intros Hf Ha num_locals locals pre g Hl. unfold call_gen. repeat wp_step.
  eapply wp_mono; [apply args_loop_good; [by apply Forall_rev_good|done]|]. intros n1 c1 g1 [_ F1]. repeat wp_step.
  eapply wp_mono; [by apply Hf|]. intros n2 c2 g2 [Hn2 F2]. repeat wp_step. split; [lia|].
  destruct (type_eq _ _); frag_tac.
Qed.

Lemma builtin_good name args t loc :
  Forall expr_good args → expr_good (builtin_gen string_table import_func_map name args t loc).
Proof.
  intros Ha num_locals locals pre g Hl. unfold builtin_gen. repeat wp_step. cbn [app].
  by apply (call_good _ _ _ _ (func_ref_good _ _) Ha).
Qed.

Lemma tuple_sets_plain n di : forallb plain_insn (tuple_sets n di) = true.
Proof.
  apply forallb_forall. intros i Hi%list_elem_of_In. unfold tuple_sets in Hi.
  by apply list_elem_of_fmap in Hi as (k & -> & _).
Qed.

Lemma fields_good gs empty di : value_labels empty = [] → Forall expr_good gs → expr_good (fields_gen gs empty di).
Proof.
  intros He Hg num_locals locals pre g Hl. unfold fields_gen. repeat wp_step.
  eapply wp_mono; [apply args_loop_good; [by apply Forall_rev_good|done]|]. intros n1 c1 g1 [_ F1]. repeat wp_step.
  split; [lia|]. eapply frag_app; [eapply frag_le; [|exact F1]; lia|]. rewrite app_nil_r. apply frag_plain.
  cbn [forallb]. rewrite tuple_sets_plain. unfold plain_insn, imm_labels. cbn. by rewrite He.
Qed.

Lemma bounds_check_good size di g n : wp (bounds_check size di) g (λ _ c g', frag G g g' n c).
Proof.
  unfold bounds_check. destruct (Nat.eqb size 8); repeat wp_step; [by apply frag_plain|]. frag_tac.
Qed.

Lemma fill_tuple_plain di : forallb plain_insn (fill_tuple di) = true.
Proof. done. Qed.
Lemma levels_plain fuel : ∀ ts sz di c, fixed_array_levels fuel ts sz di = Some c → forallb plain_insn c = true.
Proof.
  induction fuel as [|fuel IH]; intros ts sz di c; cbn [fixed_array_levels]; [done|].
  destruct (Nat.ltb ts sz); [|by intros [= <-]]. intros (rest & Hr & Hc)%bind_Some. apply (inj Some) in Hc as <-.
  rewrite forallb_app, fill_tuple_plain. by eapply IH.
Qed.
Lemma array_mod_plain fuel : ∀ sz di c, codegen_fixed_array_mod_2 fuel sz di = Some c → forallb plain_insn c = true.
Proof.
  induction fuel as [|fuel IH]; intros sz di c; cbn [codegen_fixed_array_mod_2]; [done|].
  destruct (Nat.leb sz 8); [by intros [= <-]|]. intros (inner & Hr & Hc)%bind_Some. apply (inj Some) in Hc as <-.
  apply IH in Hr. cbn [app forallb]. by rewrite forallb_app, Hr.
Qed.
Lemma drop_plain pre di : forallb plain_insn (drop_prepushed pre di) = true.
Proof.
  unfold drop_prepushed. destruct (Nat.ltb 0 pre); [|done]. cbn [forallb]. rewrite forallb_app. cbn.
  rewrite andb_true_r. apply forallb_forall. intros i Hi%list_elem_of_In. by apply elem_of_replicate in Hi as [-> _].
Qed.
Lemma binary_plain op di : forallb plain_insn (binary_code op di) = true.
Proof. by destruct op. Qed.

#[local] Hint Resolve tuple_sets_plain fill_tuple_plain levels_plain array_mod_plain drop_plain binary_plain : plain.

Lemma unary_good op di g n : wp (unary_code op di) g (λ _ c g', frag G g g' n c).
Proof.
  unfold unary_code. repeat wp_step. destruct op; cbn [unary_op];
    try (destruct (Uint256.sub _ _)); repeat wp_step; by apply frag_plain.
Qed.

(** [let] patterns: the new slots start at [base]. *)
Definition pattern_good (p : MatchPattern) : Prop :=
  ∀ base locals di g, slots_below base locals →
    wp (codegen_tuple_pattern string_table global_var_map p base locals di) g
       (λ r c g', frag G g g' (base + r.1.1) c ∧ slots_below (base + r.1.1) r.1.2).

Lemma insert_assignments_good a b loc g : wp (insert_assignments string_table a b loc) g (λ _ c g', c = [] ∧ g' = g).
Proof. unfold insert_assignments. destruct (elements _); repeat wp_step; done. Qed.

Lemma pattern_loop_cons f sz base di i pat pats nb bs asg :
  pattern_loop f string_table sz base di i (pat :: pats) nb bs asg =
  (emit ((if Nat.ltb i (sz - 1) then [op_ AVMOpcode.Dup0 di] else []) ++ [vop_imm (Opcode.TupleGet sz) (slot_val i) di]);;
   '(n, new, new_asg) ← f pat (base + nb);
   asg ← insert_assignments string_table asg new_asg (location di);
   pattern_loop f string_table sz base di (S i) pats (nb + n) (new ∪ bs) asg).
Proof. done. Qed.

Lemma pattern_all_good : ∀ p, pattern_good p.
Proof.
  fix IH 1. intros [kind pdi t] base locals di g Hl. destruct kind as [name|id|pats]; cbn [codegen_tuple_pattern].
  - repeat wp_step. cbn [fst snd]. split; [frag_tac|]. intros id k [_ <-]%lookup_singleton_Some. lia.
  - destruct (locals !! id) as [v|] eqn:E; [|destruct (global_var_map !! id)]; repeat wp_step; cbn [fst snd];
      (split; [|apply slots_below_empty]); rewrite Nat.add_0_r; [|by apply frag_plain].
    apply Hl in E. frag_tac.
  - generalize (length pats) as pat_size. intros pat_size.
    assert (∀ i nb bindings asg g, slots_below (base + nb) bindings →
      wp (pattern_loop (λ pat base, codegen_tuple_pattern string_table global_var_map pat base locals di)
            string_table pat_size base di i pats nb bindings asg) g
        (λ r c g', nb <= r.1.1 ∧ frag G g g' (base + r.1.1) c ∧ slots_below (base + r.1.1) r.1.2)) as Hgo.
    { induction pats as [|pat pats IHp]; intros i nb bindings asg g0 Hb.
      - cbn [pattern_loop]. wp_step. split; [constructor|]. split; [apply frag_plain; reflexivity|exact Hb].
      - rewrite pattern_loop_cons. repeat wp_step. eapply wp_mono; [apply (IH pat); eapply slots_below_le; [|exact Hl]; lia|].
        intros [[nn b] asg'] c1 g1 [F1 B1]. cbn [fst snd] in *. repeat wp_step.
        eapply wp_mono; [apply insert_assignments_good|]. intros asg2 c2 g2 [-> ->]. eapply wp_mono; [apply IHp|].
        + apply slots_below_union; [eapply slots_below_le; [|exact B1]; lia|eapply slots_below_le; [|exact Hb]; lia].
        + intros [[n3 b3] asg3] c3 g3 (Hn3 & F3 & B3). cbn [fst snd] in *. split; [lia|]. split; [|exact B3].
          apply (frag_app G g0 g0); [apply frag_plain; destruct (Nat.ltb _ _); reflexivity|].
          cbn [app]. eapply frag_app; [|exact F3]. eapply frag_le; [|exact F1]. lia. }
    eapply wp_mono; [apply (Hgo 0 0 ∅ ∅ g); apply slots_below_empty|]. intros r c g' (_ & F & B). split; [exact F|exact B].
Qed.

Lemma value_labels_replicate n v : value_labels v = [] → flat_map value_labels (replicate n v) = [].
Proof. intros Hv. induction n as [|n IH]; [done|]. cbn. by rewrite Hv, IH. Qed.

Lemma wrap_chunks_labels fuel : ∀ cs sz v v', wrap_chunks fuel cs sz v = Some v' → value_labels v = [] → value_labels v' = [].
Proof.
  induction fuel as [|fuel IH]; intros cs sz v v'; cbn [wrap_chunks]; [done|].
  destruct (Nat.ltb _ _); [|by intros [= <-]]. intros Hw Hv. eapply IH; [exact Hw|].
  by apply (value_labels_replicate 8).
Qed.
Definition label_free (v : Value.t) : Prop := value_labels v = [].

Lemma flat_map_free vs : Forall label_free vs → label_free (Value.new_tuple vs).
Proof. unfold label_free. induction 1 as [|v vs Hv _ IH]; [done|]. cbn in *. by rewrite Hv, IH. Qed.

Lemma make_value_free t : ∀ vals v rest, Forall label_free vals → make_value_2 t vals = Some (v, rest) →
  label_free v ∧ Forall label_free rest.
Proof.
  induction t as [|sz ts IH] using tuple_tree_ind; intros vals v rest Hv; cbn [make_value_2].
  - destruct vals as [|x vals]; [done|]. intros [= <- <-]. by inversion Hv.
  - intros ([ret rest'] & Hr & [= <- <-])%bind_Some. enough (Forall label_free ret ∧ Forall label_free rest') as [? ?]
      by (split; [by apply flat_map_free|done]).
    revert vals ret rest' Hv Hr. induction IH as [|t ts Ht _ IHts]; intros vals ret rest' Hv; cbn [for_subtrees].
    + by intros [= <- <-].
    + intros ([x vals'] & Hx & ([ret' rest''] & Hr & [= <- <-])%bind_Some)%bind_Some.
      destruct (Ht _ _ _ Hv Hx) as [? Hv']. destruct (IHts _ _ _ Hv' Hr). split; [by constructor|done].
Qed.

Lemma mapM_free {A} (f : A → option (Value.t * bool)) l ds :
  Forall (λ x, ∀ d b, f x = Some (d, b) → label_free d) l → mapM f l = Some ds → Forall label_free (ds.*1).
Proof.
  intros Hl Hm. apply mapM_Some in Hm. induction Hm as [|x [d b] l ds Hx _ IH]; [constructor|].
  apply Forall_cons_iff in Hl as [H1 H2]. cbn. constructor; [by eapply H1|by apply IH].
Qed.

(** Default values contain no labels. *)
Lemma default_value_free t : ∀ d b, default_value t = Some (d, b) → label_free d.
Proof.
  induction t as [| | | | | | |ts IH|e IH|e n IH|fs IH|p i|b0 args ret IHa IHr|k v IHk IHv| | |e IH|ts IH]
    using Tipe.nested_ind; intros d b Hd; cbn [default_value] in Hd; try (by injection Hd as <- _).
  - apply bind_Some in Hd as (ds & Hm & Hd). injection Hd as <- _. apply flat_map_free. by eapply mapM_free.
  - apply bind_Some in Hd as ([d0 b1] & Hm & Hd). injection Hd as <- _. apply IH in Hm. unfold label_free in *.
    cbn. by rewrite Hm.
  - apply bind_Some in Hd as ([d0 b1] & Hm & (v & Hw & [= <- _])%bind_Some). apply IH in Hm.
    eapply wrap_chunks_labels; [exact Hw|]. by apply (value_labels_replicate 8).
  - apply bind_Some in Hd as (ds & Hm & (v & Hw & [= <- _])%bind_Some).
    unfold value_from_field_list in Hw. apply bind_Some in Hw as (t & _ & Hw). unfold make_value in Hw.
    apply bind_Some in Hw as ([v' r] & Hw & [= <-]). apply make_value_free in Hw; [tauto|].
    by eapply (mapM_free (λ f, default_value (sf_tipe f))).
Qed.

Lemma make_empty_free t : label_free (make_empty t).
Proof.
  induction t as [|sz ts IH] using tuple_tree_ind; [done|]. cbn [make_empty]. apply flat_map_free.
  induction IH; by constructor.
Qed.

(** Runs the generator of a subexpression by its hypothesis. *)
Ltac sub_wp :=
  match goal with
  | |- wp (?e _ _ _) _ _ =>
      is_var e; eapply wp_mono; [match goal with Hg : expr_good e |- _ => apply Hg; assumption end|];
      let F := fresh "F" in let Hn := fresh "Hn" in intros ? ? ? [Hn F]
  end.

Ltac wp_go := repeat first [wp_step | sub_wp].

(** Fragments generated one after the other, with plain code in between. *)
Ltac frag_seq :=
  rewrite <- ?app_assoc; cbn [app]; repeat first
    [ apply frag_plain; rewrite ?app_nil_r; first [ reflexivity | assumption | solve [auto with plain] ]
    | eapply frag_app; [first [ eapply frag_le; [|eassumption]; lia
                              | apply frag_plain; first [ reflexivity | assumption | solve [auto with plain] ] ]|] ].

Ltac start_good := intros num_locals locals pre g Hl; cbv beta zeta.

Lemma Forall_map_good {A} (f : A → expr_gen) l : Forall (λ x, expr_good (f x)) l → Forall expr_good (List.map f l).
Proof. induction 1; by constructor. Qed.

(** *** Expressions *)
Lemma simple_good c : forallb plain_insn c = true → expr_good (simple_gen c).
Proof. intros Hc. unfold simple_gen. start_good. wp_go. split; [lia|]. frag_seq. Qed.

Lemma then_good e c : forallb plain_insn c = true → expr_good e → expr_good (then_code e c).
Proof. intros Hc He. unfold then_code. start_good. wp_go. split; [lia|]. frag_seq. Qed.

Lemma unary_gen_good op e di : expr_good e → expr_good (unary_gen op e di).
Proof.
  intros He. unfold unary_gen. start_good. wp_go.
  eapply wp_mono; [apply (unary_good _ _ _ (max num_locals a))|]. intros [] c2 g2 F2. wp_go. split; [lia|]. frag_seq.
Qed.

Lemma binary_good op e1 e2 di : expr_good e1 → expr_good e2 → expr_good (binary_gen op e1 e2 di).
Proof. intros H1 H2. unfold binary_gen. start_good. wp_go. split; [lia|]. frag_seq. Qed.

Lemma trinary_good op e1 e2 e3 di : expr_good e1 → expr_good e2 → expr_good e3 → expr_good (trinary_gen op e1 e2 e3 di).
Proof. intros H1 H2 H3. unfold trinary_gen. start_good. wp_go. split; [lia|]. destruct op; frag_seq. Qed.

Lemma shortcut_or_good e1 e2 di : expr_good e1 → expr_good e2 → expr_good (shortcut_or_gen e1 e2 di).
Proof. intros H1 H2. unfold shortcut_or_gen. start_good. wp_go. split; [lia|]. frag_tac. Qed.
Lemma shortcut_and_good e1 e2 di : expr_good e1 → expr_good e2 → expr_good (shortcut_and_gen e1 e2 di).
Proof. intros H1 H2. unfold shortcut_and_gen. start_good. wp_go. split; [lia|]. frag_tac. Qed.

Lemma local_ref_good name di : expr_good (local_ref_gen name di).
Proof.
  unfold local_ref_gen. start_good. destruct (locals !! name) as [v|] eqn:E; wp_go. split; [lia|]. apply Hl in E. frag_tac.
Qed.

Lemma tuple_ref_good e t idx di : expr_good e → expr_good (tuple_ref_gen e t idx di).
Proof. intros He. unfold tuple_ref_gen. start_good. destruct t; try apply wp_throw. by apply then_good. Qed.

Lemma struct_good gs di : Forall expr_good gs → expr_good (struct_gen gs di).
Proof. intros Hg. unfold struct_gen. start_good. wp_go. apply fields_good; [apply make_empty_free|done|done]. Qed.
Lemma tuple_good gs di : Forall expr_good gs → expr_good (tuple_gen gs di).
Proof. intros Hg. unfold tuple_gen. by apply fields_good; [apply value_labels_replicate|]. Qed.

Lemma fixed_array_ref_good e1 e2 size di : expr_good e1 → expr_good e2 → expr_good (fixed_array_ref_gen e1 e2 size di).
Proof.
  intros H1 H2. unfold fixed_array_ref_gen. start_good. wp_go.
  eapply wp_mono; [apply (bounds_check_good _ _ _ 0)|]. intros [] c4 g4 F4. wp_go. split; [lia|]. frag_seq.
Qed.

Lemma new_array_good e bt at_ di : expr_good e → expr_good (new_array_gen string_table import_func_map e bt at_ di).
Proof.
  intros He. unfold new_array_gen. start_good. wp_go. destruct a as [d b]. apply builtin_good; [|done].
  apply List.Forall_cons; [done|]. apply List.Forall_cons; [|apply List.Forall_nil].
  apply const_good. by eapply default_value_free.
Qed.

Lemma new_fixed_array_good sz o di : Forall expr_good (olist o) → expr_good (new_fixed_array_gen sz o di).
Proof.
  intros Ho. unfold new_fixed_array_gen. start_good. wp_step.
  destruct o as [e|]; [apply List.Forall_inv in Ho|]; wp_go; (split; [lia|]);
    repeat match goal with Hc : fixed_array_levels _ _ _ _ = Some _ |- _ => apply levels_plain in Hc end; frag_seq.
Qed.

Lemma fixed_array_mod_good e1 e2 e3 size di :
  expr_good e1 → expr_good e2 → expr_good e3 → expr_good (codegen_fixed_array_mod e1 e2 e3 size di).
Proof.
  intros H1 H2 H3. unfold codegen_fixed_array_mod. start_good. wp_go.
  eapply wp_mono; [apply (bounds_check_good _ _ _ 0)|]. intros [] c4 g4 F4. wp_go. split; [lia|].
  match goal with Hc : codegen_fixed_array_mod_2 _ _ _ = Some _ |- _ => apply array_mod_plain in Hc end. frag_seq.
Qed.

Lemma struct_mod_good e1 idx e2 t di : expr_good e1 → expr_good e2 → expr_good (struct_mod_gen e1 idx e2 t di).
Proof. intros H1 H2. unfold struct_mod_gen. start_good. wp_go. destruct t; wp_go. split; [lia|]. frag_seq. Qed.

Lemma asm_good insns gs : forallb plain_insn insns = true → Forall expr_good gs → expr_good (asm_gen insns gs).
Proof.
  intros Hi Hg. unfold asm_gen. start_good. wp_go.
  eapply wp_mono; [apply args_loop_good; [by apply Forall_rev_good|done]|]. intros n c1 g1 [_ F1]. wp_go.
  split; [lia|]. frag_seq.
Qed.

Lemma try_good e di : expr_good e → expr_good (try_gen e di).
Proof.
  intros He. unfold try_gen. start_good. wp_go. split; [lia|]. unfold try_code. note_reach.
  pose proof (drop_plain pre di) as Hd. split; [reach_tac| | |].
  - dl_simpl. rewrite (plain_dl _ Hd). dl_tac.
  - intros k. dl_simpl. rewrite (plain_dl _ Hd). revert k. mem_tac.
  - insns_tac. by apply plain_all.
Qed.

(** The optional block behind [else]. *)
Lemma else_good o : Forall expr_good (olist o) →
  ∀ num_locals locals pre g, slots_below num_locals locals →
  wp (else_gen o num_locals locals pre) g (λ n c g', frag G g g' (max n num_locals) c).
Proof.
  intros Ho num_locals locals pre g Hl. unfold else_gen. destruct o as [b|]; [|wp_step; by apply frag_plain].
  apply List.Forall_inv in Ho. eapply wp_mono; [by apply Ho|]. intros n c g' [Hn F]. eapply frag_le; [|exact F]. lia.
Qed.

Lemma if_good cond b o di : expr_good cond → expr_good b → Forall expr_good (olist o) → expr_good (if_gen cond b o di).
Proof.
  intros Hc Hb Ho. unfold if_gen. start_good. wp_go.
  eapply wp_mono; [apply (else_good o); [done|exact Hl]|]. intros n3 c3 g3 F3. wp_go. split; [lia|].
  apply (frag_le _ _ _ _ (max a (max a0 n3))) in F3; [|lia]. destruct o; frag_tac.
Qed.

Lemma if_let_good name e b o di :
  expr_good e → expr_good b → Forall expr_good (olist o) → expr_good (if_let_gen name e b o di).
Proof.
  intros He Hb Ho. unfold if_let_gen. start_good. wp_go.
  eapply wp_mono; [apply Hb; apply slots_below_insert; [lia|]; eapply slots_below_le; [|exact Hl]; lia|].
  intros n2 c2 g2 [Hn2 F2]. wp_go.
  eapply wp_mono; [apply (else_good o); [done|exact Hl]|]. intros n3 c3 g3 F3. wp_go.
  split; [lia|]. apply (frag_le _ _ _ _ (max (max n2 a) n3)) in F3; [|lia]. frag_tac.
Qed.

(** A generator of a sequence of statements. *)
Definition stats_good (ss : stats_gen) : Prop :=
  ∀ num_locals locals pre g, slots_below num_locals locals →
    wp (ss num_locals locals pre) g (λ r c g', num_locals <= r.1 ∧ frag G g g' r.1 c ∧ slots_below r.1 r.2).

Lemma loop_good body di : stats_good body → expr_good (loop_gen body di).
Proof.
  intros Hb. unfold loop_gen. start_good. wp_go.
  eapply wp_mono; [apply Hb; eapply slots_below_le; [|exact Hl]; lia|].
  intros [nl bl] c1 g1 (Hn & F1 & _). cbn [fst snd] in *. wp_go. split; [lia|]. frag_tac.
Qed.

Lemma code_block_good body ret scope di : stats_good body → Forall expr_good (olist ret) →
  expr_good (code_block_gen body ret scope di).
Proof.
  intros Hb Hr. unfold code_block_gen. start_good. wp_go. eapply wp_mono; [apply Hb; exact Hl|].
  intros [nl bl] c1 g1 (Hn & F1 & B1). cbn [fst snd] in *. destruct ret as [e|].
  - apply List.Forall_inv in Hr. wp_step.
    eapply wp_mono; [apply Hr; apply slots_below_union; [exact B1|by eapply slots_below_le]|].
    intros n2 c2 g2 [Hn2 F2]. wp_go. split; [lia|]. frag_tac.
  - wp_go. split; [lia|]. frag_tac.
Qed.

(** *** Statements *)
Ltac stat_done := cbn [fst snd]; split; [|apply slots_below_empty].

Lemma return_good e di : expr_good e → stat_good (return_gen e di).
Proof. intros He. unfold return_gen. start_good. wp_go. stat_done. frag_seq. Qed.

(** Leaving a scope keeps the labels of all scopes. *)
Lemma find_scope_labels scope_id t : ∀ ss lab ss', find_scope scope_id t ss = Some (lab, ss') →
  lab ∈ ((λ s : scope, s.1.2) <$> ss) ∧ ((λ s : scope, s.1.2) <$> ss') = ((λ s : scope, s.1.2) <$> ss).
Proof.
  induction ss as [|[[s l] ot] ss IH]; intros lab ss'; cbn [find_scope]; [done|].
  case_bool_decide; [intros [= <- <-]; split; [constructor|done]|].
  intros ([l' ss''] & Hf & [= <- <-])%bind_Some. apply IH in Hf as [Hl Hs]. split; [by right|]. cbn. by f_equal.
Qed.

Lemma break_good o t scope_id di : Forall expr_good (olist o) → stat_good (break_gen o t scope_id di).
Proof.
  intros Ho. unfold break_gen. start_good. wp_go.
  destruct (find_scope _ _ _) as [[lab ss']|] eqn:Ef; wp_go. apply find_scope_labels in Ef as [Hlab Hss].
  assert (wp (match o with Some e => e num_locals locals pre | None => mret pre end) g
            (λ n c g', frag G g g' (max n num_locals) c)) as Ho'.
  { destruct o as [e|]; [apply List.Forall_inv in Ho|wp_step; by apply frag_plain].
    eapply wp_mono; [by apply Ho|]. intros n c g' [_ F]. eapply frag_le; [|exact F]. lia. }
  eapply wp_mono; [exact Ho'|]. intros n c g' F. cbv beta in F. wp_go. stat_done. note_reach.
  assert (reach G g (mkGen (g_labels g') ss' (g_warnings g'))) as Hr.
  { split; [cbn in *; lia|]. intros l Hl'. right; left. unfold scope_labels in *. cbn in Hl'. by rewrite Hss in Hl'. }
  split; [done|dl_tac|mem_tac|]. insns_tac. apply ref_ok. by right; left.
Qed.

Lemma expression_good e t di : expr_good e → stat_good (expression_gen e t di).
Proof.
  intros He. unfold expression_gen. start_good. wp_go.
  destruct (_ || _); [|destruct (type_eq _ (Tipe.Tuple []))]; wp_go; stat_done; frag_tac.
Qed.

Lemma let_good p e di : expr_good e → stat_good (let_gen string_table global_var_map p e di).
Proof.
  intros He. unfold let_gen. start_good. wp_go.
  eapply wp_mono; [apply pattern_all_good; exact Hl|]. intros [[nn b] asg] c1 g1 [F1 B1]. cbn [fst snd] in *.
  wp_go. cbn [fst snd]. split; [|eapply slots_below_le; [|exact B1]; lia]. frag_seq.
Qed.

Lemma assign_local_good name e di : expr_good e → stat_good (assign_local_gen name e di).
Proof.
  intros He. unfold assign_local_gen. start_good. destruct (locals !! name) as [v|] eqn:E; wp_go.
  apply Hl in E. stat_done. frag_tac.
Qed.

Lemma consume_good e i : plain_insn i = true → expr_good e → stat_good (consume_gen e i).
Proof.
  intros Hi He. unfold consume_gen. start_good. wp_go. stat_done. eapply frag_app; [eapply frag_le; [|exact F]; lia|].
  apply frag_plain. cbn. by rewrite Hi.
Qed.

Lemma while_good cond body di : expr_good cond → stats_good body → stat_good (while_gen cond body di).
Proof.
  intros Hc Hb. unfold while_gen. start_good. wp_go.
  eapply wp_mono; [apply Hb; eapply slots_below_le; [|exact Hl]; lia|].
  intros [nl bl] c1 g1 (Hn & F1 & _). cbn [fst snd] in *. wp_step. wp_step. wp_step.
  eapply wp_mono; [apply Hc; eapply slots_below_le; [|exact Hl]; lia|]. intros n2 c2 g2 [Hn2 F2]. wp_go.
  stat_done. frag_tac.
Qed.

Lemma asm_stat_good insns gs : forallb plain_insn insns = true → Forall expr_good gs → stat_good (asm_stat_gen insns gs).
Proof.
  intros Hi Hg. unfold asm_stat_gen. start_good. wp_go.
  eapply wp_mono; [apply args_loop_good; [by apply Forall_rev_good|done]|]. intros n c1 g1 [_ F1]. wp_go.
  stat_done. frag_seq.
Qed.

Lemma assert_good e di : expr_good e → stat_good (assert_gen string_table import_func_map release_build e di).
Proof.
  intros He. unfold assert_gen. start_good. destruct release_build; wp_go; [stat_done; frag_seq|].
  eapply wp_mono; [apply builtin_good; [apply List.Forall_cons; [done|apply List.Forall_nil]|exact Hl]|].
  intros n c1 g1 [Hn F1]. wp_go. stat_done. frag_seq.
Qed.

(** *** Everything *)
Abbreviation cg_expr := (mavm_codegen_expr string_table import_func_map global_var_map release_build).
Abbreviation cg_stat := (mavm_codegen_statement string_table import_func_map global_var_map release_build).
Abbreviation cg_block := (mavm_codegen_code_block string_table import_func_map global_var_map release_build).

Ltac forall_inv :=
  repeat match goal with
  | Hf : Forall _ (_ :: _) |- _ =>
      let h := fresh "Hg" in let t := fresh "Ht" in
      pose proof (List.Forall_inv Hf) as h; pose proof (List.Forall_inv_tail Hf) as t; clear Hf; cbn beta in h
  | Hf : Forall _ [] |- _ => clear Hf
  end.

Lemma olist_good {A} (f : A → expr_gen) (o : option A) : Forall (λ x, expr_good (f x)) (olist o) →
  Forall expr_good (olist (match o with Some x => Some (f x) | None => None end)).
Proof. destruct o; [|done]. intros Ho%List.Forall_inv. by constructor. Qed.

Lemma stats_loop_good ss : Forall (λ s, stat_good (cg_stat s)) ss →
  stats_good (λ num_locals locals pre, statements_loop cg_stat locals pre ss num_locals ∅).
Proof. intros Hs num_locals locals pre g Hl. apply statements_loop_good; [done|done|apply slots_below_empty]. Qed.

Lemma else_blocks_good o di : Forall (λ b, ∀ di, expr_good (cg_block b di)) (olist o) →
  Forall expr_good (olist (match o with Some b => Some (cg_block b di) | None => None end)).
Proof. destruct o; [|done]. intros Ho%List.Forall_inv. constructor; [apply Ho|constructor]. Qed.

#[local] Hint Resolve simple_good then_good unary_gen_good binary_good trinary_good shortcut_or_good shortcut_and_good
  local_ref_good tuple_ref_good struct_good tuple_good fixed_array_ref_good new_array_good new_fixed_array_good
  fixed_array_mod_good struct_mod_good asm_good try_good if_good if_let_good loop_good code_block_good func_ref_good
  call_good builtin_good olist_good stats_loop_good Forall_map_good return_good break_good expression_good let_good
  assign_local_good consume_good while_good asm_stat_good assert_good List.Forall_nil List.Forall_cons : codegen.

Lemma expr_kind_good k di :
  plain_kind k = true → Forall (λ e, expr_good (cg_expr e)) (sub_exprs k) →
  Forall (λ s, stat_good (cg_stat s)) (sub_stats k) → Forall (λ b, ∀ di, expr_good (cg_block b di)) (sub_blocks k) →
  expr_good (cg_expr (mkExpr k di)).
Proof.
  intros Hp He Hs Hb.
  destruct k; cbn [sub_exprs sub_stats sub_blocks plain_kind] in *; forall_inv; cbn [mavm_codegen_expr];
    unfold set_gas_gen, variant_gen, dot_ref_gen, array_ref_gen, map_ref_gen, new_map_gen, array_mod_gen, map_mod_gen;
    try (solve [auto 6 with codegen]).
  - apply bool_decide_eq_true in Hp. by apply const_good.
  - apply struct_good, Forall_map_good. exact (proj1 (Forall_fmap fi_value (λ e, expr_good (cg_expr e)) fields) He).
  - apply if_good; [done|apply Hg|]. by apply else_blocks_good.
  - apply if_let_good; [done|apply Hg|]. by apply else_blocks_good.
Qed.

Lemma stat_kind_good k di :
  plain_stat k = true → Forall (λ e, expr_good (cg_expr e)) (stat_exprs k) →
  Forall (λ s, stat_good (cg_stat s)) (stat_stats k) → stat_good (cg_stat (mkStatement k di)).
Proof.
  intros Hp He Hs. destruct k; cbn [stat_exprs stat_stats plain_stat] in *; forall_inv; cbn [mavm_codegen_statement];
    try (solve [auto 6 with codegen]).
  - start_good. wp_go. stat_done. frag_seq.
  - start_good. wp_go. stat_done. frag_seq.
Qed.

Lemma block_good body ret scope di :
  Forall (λ s, stat_good (cg_stat s)) body → Forall (λ e, expr_good (cg_expr e)) (olist ret) →
  expr_good (cg_block (mkBlock body ret scope) di).
Proof. intros Hb Hr. cbn [mavm_codegen_code_block]. auto with codegen. Qed.

Lemma all_good :
  (∀ e, plain_expr e → expr_good (cg_expr e)) ∧ (∀ s, plain_statement s → stat_good (cg_stat s)) ∧
  (∀ b, plain_block b → ∀ di, expr_good (cg_block b di)).
Proof.
  apply tc_ind.
  - intros k di IHe IHs IHb Hp. inversion Hp as [? ? Hk He Hs Hb]; subst. apply expr_kind_good; [done|..].
    + rewrite list.Forall_forall in *. auto.
    + rewrite list.Forall_forall in *. auto.
    + rewrite list.Forall_forall in *. auto.
  - intros k di IHe IHs Hp. inversion Hp as [? ? Hk He Hs]; subst. apply stat_kind_good; [done|..].
    + rewrite list.Forall_forall in *. auto.
    + rewrite list.Forall_forall in *. auto.
  - intros body ret scope IHs IHe Hp di. inversion Hp as [? ? ? Hs He]; subst. apply block_good.
    + rewrite list.Forall_forall in *. auto.
    + rewrite list.Forall_forall in *. auto.
Qed.
End parts.
