(* ===== verification/CodegenModules.v ===== *)
(** * Generated functions and modules

    What the label and slot discipline of [CodegenThms] gives for whole
    functions and modules, and what the later passes rely on: locals fit the
    frame, labels are defined once, references are resolved, and the linker may
    relocate the module. *)

From Stdlib Require Import ZArith Lia.
From S2P Require Import Prelude U256 StringTab Pos Opcodes Crypto BufferTree Values StraightLine TupleTree StripLabels Types TypedAst Link Codegen CodegenThms.

#[local] Set Warnings "-clear-no-such-hyp".

Definition plain_func (f : TypeCheckedFunc) : Prop := Forall plain_statement (f_code f).

#[global] Instance defined_labels_proper : Proper (Permutation ==> Permutation) defined_labels.
Proof. intros c1 c2 Hc. unfold defined_labels. by rewrite Hc. Qed.

Section modules.
Context `{Crypto} (string_table : StringTable.t) (import_func_map : gmap nat Label.t) (global_var_map : gmap nat nat)
        (release_build : bool).

Abbreviation cg_func := (mavm_codegen_func string_table import_func_map global_var_map release_build).

(** Labels of functions and of imports. *)
Definition module_label (l : Label.t) : Prop := (∃ id, l = Label.Func id) ∨ ∃ id, import_func_map !! id = Some l.

Lemma final_return_plain f : plain_func f → Forall plain_statement (with_final_return f).
Proof.
  intros Hf. unfold with_final_return. destruct (_ && _); [|done]. apply Forall_app. split; [done|].
  repeat constructor.
Qed.

Lemma arg_slots_below args : ∀ i m, slots_below (i + length args) m → slots_below (i + length args) (arg_slots i args m).
Proof.
  induction args as [|a args IH]; intros i m Hm; [done|]. cbn [arg_slots length] in *.
  replace (i + S (length args)) with (S i + length args) in * by lia. apply IH. apply slots_below_insert; [lia|done].
Qed.

(** The shape of a generated function. *)
Lemma func_shape f lg w lg' code w' : plain_func f → cg_func f lg w = Ok (lg', code, w') →
  ∃ di ntotal ra body g',
    code = label_ (Label.Func (f_name f)) di :: vop (Opcode.MakeFrame (length (f_args f)) ntotal ra) di :: body ∧
    length (f_args f) <= ntotal ∧ g_labels g' = lg' ∧ frag module_label (mkGen lg [] w) g' ntotal body.
Proof.
  intros Hf. unfold mavm_codegen_func.
  destruct (statements_loop _ _ _ _ _ _ _) as [[[[n b] c] g']| |] eqn:E; cbn [mbind outcome_bind]; try discriminate.
  destruct (f_tipe f); try discriminate. intros [= <- <- <-].
  destruct (statements_loop_good module_label _ _
    (Forall_impl _ (proj1 (proj2 (all_good string_table import_func_map global_var_map release_build module_label
       (λ id, or_introl (ex_intro _ id eq_refl)) (λ id l Hl, or_intror (ex_intro _ id Hl))))) (final_return_plain f Hf))
    (length (f_args f)) (arg_slots 0 (f_args f) ∅) 0 ∅ (mkGen lg [] w)) with (n, b) c g' as (Hn & F & _); [| |exact E|].
  - apply (arg_slots_below (f_args f) 0). apply slots_below_empty.
  - apply slots_below_empty.
  - do 5 eexists. split; [reflexivity|]. by split; [|split].
Qed.

(** Reading and writing a slot of the frame always has code. *)
Lemma local_access_fixed gt lt ntotal i k :
  tree_new ntotal true = Some lt → (Z.of_nat ntotal <= two64)%Z →
  Instruction.opcode i = Opcode.GetLocal ∨ Instruction.opcode i = Opcode.SetLocal →
  Instruction.immediate i = Some (slot_val k) → k < ntotal → ∃ c, fix_insn gt lt i = Ok (c, lt).
Proof.
  intros Hlt Hb Ho Hi Hk. pose proof (tree_new_inv _ _ _ Hlt) as [Hok Hs].
  pose proof (make_empty_leaves lt Hok) as Hl. rewrite Hs in Hl.
  assert (replicate ntotal Value.none !! k = Some Value.none) as Hx by (apply lookup_replicate; done).
  pose proof (tree_new_local _ _ Hlt) as Hns.
  unfold fix_insn. destruct Ho as [-> | ->]; rewrite Hi, index_of_slot by lia; cbn [mbind outcome_bind].
  - destruct (read_code_ok lt true k (Instruction.debug_info i) _ _ _ [] [] Value.none Hok Hl Hx) as (c & -> & _). eauto.
  - destruct (write_code_ok lt true k (Instruction.debug_info i) (make_empty lt) (replicate ntotal Value.none) Value.none
      Value.none [] [] Value.none Hok) as (c & v' & -> & _); [done|done|done|eauto].
Qed.

(** ** Labels of whole functions *)
Lemma defined_anon c : (∀ i l, i ∈ c → Instruction.get_label i = Some l → ∃ k, l = Label.Anon k) →
  defined_labels c = Label.Anon <$> dl c.
Proof.
  induction c as [|i c IH]; intros Hc; [done|]. rewrite dl_cons, fmap_app, <- IH.
  - unfold defined_labels, dl1. cbn [omap list_omap]. unfold Instruction.get_label.
    destruct (Instruction.opcode i) eqn:E; try done. destruct (Hc i l) as (k & ->); [by constructor| |done].
    unfold Instruction.get_label. by rewrite E.
  - intros i' l Hi. apply Hc. by right.
Qed.

(** What one function contributes: its own label, and the anonymous labels
    drawn while it was generated. *)
Record func_labels (name lo hi : nat) (code : list insn) : Prop := {
  fl_le : lo <= hi;
  fl_defined : defined_labels code = Label.Func name :: (Label.Anon <$> dl code);
  fl_nodup : NoDup (dl code);
  fl_range : ∀ k, k ∈ dl code ↔ lo <= k < hi;
  fl_refs : ∀ i l, i ∈ code → l ∈ imm_labels i → module_label l ∨ ∃ k, l = Label.Anon k ∧ lo <= k < hi;
}.

Lemma func_labels_ok f lg w lg' code w' : plain_func f → cg_func f lg w = Ok (lg', code, w') →
  func_labels (f_name f) (LabelGenerator.next_label lg) (LabelGenerator.next_label lg') code.
Proof.
  intros Hf E. destruct (func_shape _ _ _ _ _ _ Hf E) as (di & n & ra & body & g' & -> & _ & <- & F).
  destruct F as [[Hle _] Hnd Hdl Hins]. rewrite list.Forall_forall in Hins.
  assert (dl (label_ (Label.Func (f_name f)) di :: vop (Opcode.MakeFrame (length (f_args f)) n ra) di :: body) = dl body)
    as Hd by done.
  split; rewrite ?Hd; [done| |done|done|].
  - change (defined_labels _) with (Label.Func (f_name f) :: defined_labels body). rewrite defined_anon; [done|].
    intros i l Hi. apply (Hins i Hi).
  - intros i l [->|[->|Hi]%elem_of_cons]%elem_of_cons Hl; [by apply elem_of_nil in Hl..|].
    destruct (ok_refs _ _ _ _ _ (Hins i Hi) l Hl) as [?|[Hs|?]]; [by left|by apply elem_of_nil in Hs|by right].
Qed.

(** ** The loop over the functions of a module *)
Definition code_of (fc : list (nat * list insn)) : list insn := concat (fc.*2).

Record codes_ok (fc : list (nat * list insn)) (hi : nat) : Prop := {
  co_names : NoDup (fc.*1);
  co_defined : defined_labels (code_of fc) ≡ₚ (Label.Func <$> fc.*1) ++ (Label.Anon <$> seq 0 hi);
  co_refs : ∀ i l, i ∈ code_of fc → l ∈ imm_labels i → module_label l ∨ ∃ k, l = Label.Anon k ∧ k < hi;
}.

Lemma btree_insert_perm {A} k (a : A) l : k ∉ l.*1 → btree_insert k a l ≡ₚ (k, a) :: l.
Proof.
  induction l as [|[k' a'] l IH]; [done|]. cbn [btree_insert fmap list_fmap fst]. intros Hk.
  apply not_elem_of_cons in Hk as [Hne Hk]. destruct (Nat.ltb k k'); [done|].
  rewrite (proj2 (Nat.eqb_neq k k') Hne). rewrite IH by done. apply Permutation_swap.
Qed.

Lemma dl_seq lo hi l : lo <= hi → NoDup l → (∀ k, k ∈ l ↔ lo <= k < hi) → l ≡ₚ seq lo (hi - lo).
Proof.
  intros Hle Hnd Hr. apply NoDup_Permutation; [done|apply NoDup_seq|]. intros k. rewrite Hr, elem_of_seq. lia.
Qed.

Lemma codes_insert fc lo hi name code :
  codes_ok fc lo → func_labels name lo hi code → name ∉ fc.*1 → codes_ok (btree_insert name code fc) hi.
Proof.
  intros [Hn Hd Hr] [Hle Fd Fn Fr Frefs] Hfresh. pose proof (btree_insert_perm name code fc Hfresh) as Hp.
  assert (code_of (btree_insert name code fc) ≡ₚ code ++ code_of fc) as Hc.
  { unfold code_of. rewrite Hp. done. }
  assert ((btree_insert name code fc).*1 ≡ₚ name :: fc.*1) as Hnames by (by rewrite Hp). split.
  - rewrite Hnames. by constructor.
  - rewrite Hnames, Hc. unfold defined_labels in *. rewrite omap_app, Hd, Fd. cbn [app fmap list_fmap].
    apply Permutation_skip. rewrite (dl_seq lo hi _ Hle Fn Fr), Permutation_app_comm, <- app_assoc, <- fmap_app.
    replace hi with (lo + (hi - lo)) at 2 by lia. by rewrite seq_app.
  - intros i l Hi Hl. rewrite Hc in Hi. apply elem_of_app in Hi as [Hi|Hi].
    + destruct (Frefs i l Hi Hl) as [?|(k & -> & ?)]; [by left|right]. exists k. split; [done|lia].
    + destruct (Hr i l Hi Hl) as [?|(k & -> & ?)]; [by left|right]. exists k. split; [done|lia].
Qed.


Abbreviation cg_funcs := (codegen_funcs string_table import_func_map global_var_map release_build).

Lemma codegen_funcs_ok funcs : ∀ lg w fc fc' w',
  Forall (λ kf, plain_func kf.2) funcs → NoDup ((λ kf, f_name kf.2) <$> funcs) →
  (∀ kf, kf ∈ funcs → f_name kf.2 ∉ fc.*1) → codes_ok fc (LabelGenerator.next_label lg) →
  cg_funcs funcs lg w fc = Ok (fc', w') → ∃ hi, codes_ok fc' hi.
Proof.
  induction funcs as [|[id f] funcs IH]; intros lg w fc fc' w' Hp Hnd Hfresh Hok; cbn [codegen_funcs].
  { intros [= <- <-]. eauto. }
  destruct (cg_func f lg w) as [[[lg1 code] w1]| |] eqn:E; cbn [mbind outcome_bind]; try discriminate.
  apply Forall_cons_iff in Hp as [Hf Hp]. cbn [fmap list_fmap] in Hnd. apply list.NoDup_cons in Hnd as [Hnin Hnd].
  assert (f_name f ∉ fc.*1) as Hfn by (apply (Hfresh (id, f)); constructor).
  pose proof (codes_insert _ _ _ _ _ Hok (func_labels_ok _ _ _ _ _ _ Hf E) Hfn) as Hok1.
  apply IH; [done|done| |done]. intros kf Hkf. rewrite (btree_insert_perm _ code fc Hfn). cbn [fmap list_fmap fst].
  apply not_elem_of_cons. split; [|apply Hfresh; by right].
  intros Heq. apply Hnin. cbn [snd]. rewrite <- Heq. by apply (list_elem_of_fmap_2 (λ kf : nat * TypeCheckedFunc, f_name kf.2)).
Qed.

End modules.

Lemma import_map_label imps : ∀ m id l, import_map imps m !! id = Some l →
  m !! id = Some l ∨ ∃ f, f ∈ imps ∧ l = Label.External (slot_num f).
Proof.
  induction imps as [|f imps IH]; intros m id l; cbn [import_map]; [by left|].
  intros [Hl|(f' & Hf & ->)]%IH; [|right; exists f'; split; [by right|done]].
  apply lookup_insert_Some in Hl as [[_ <-]|[_ Hl]]; [right; exists f; split; [constructor|done]|by left].
Qed.

Lemma defined_length c : length (defined_labels c) <= length c.
Proof.
  induction c as [|i c IH]; [done|]. unfold defined_labels in *. cbn [omap list_omap length].
  destruct (Instruction.get_label i); cbn [length]; lia.
Qed.

(** ** Properties *)
Section properties.
Context `{Crypto}.

(** The frame is large enough.  In the code of every function the frame
    instruction comes first and reserves at least as many locals as there are
    arguments, every later read or write of a local names a slot of that frame,
    and the pass that replaces these instructions by accesses to nested tuples
    finds code for each of them. *)
Theorem codegen_locals st imps gvs rb f lg w lg' code w' :
  plain_func f → mavm_codegen_func st imps gvs rb f lg w = Ok (lg', code, w') →
  ∃ di ntotal ra body,
    code = label_ (Label.Func (f_name f)) di :: vop (Opcode.MakeFrame (length (f_args f)) ntotal ra) di :: body ∧
    length (f_args f) <= ntotal ∧
    ∀ i, i ∈ body → Instruction.opcode i = Opcode.GetLocal ∨ Instruction.opcode i = Opcode.SetLocal →
      (∃ k, Instruction.immediate i = Some (slot_val k) ∧ k < ntotal) ∧
      ((Z.of_nat ntotal <= two64)%Z → ∀ gt lt, tree_new ntotal true = Some lt → ∃ c, fix_insn gt lt i = Ok (c, lt)).
Proof.
  intros Hf E. destruct (func_shape _ _ _ _ _ _ _ _ _ _ Hf E) as (di & n & ra & body & g' & -> & Hn & _ & F).
  exists di, n, ra, body. split; [done|]. split; [done|]. intros i Hi Ho.
  pose proof (frag_insns _ _ _ _ _ F) as Hins. rewrite list.Forall_forall in Hins.
  destruct (ok_slot _ _ _ _ _ (Hins i Hi) Ho) as (k & Hk & Hlt). split; [by exists k|].
  intros Hb gt lt Htree. by eapply local_access_fixed.
Qed.

Lemma codegen_facts funcs st imps gvs w rb code w' :
  Forall (λ kf, plain_func kf.2) funcs → NoDup ((λ kf, f_name kf.2) <$> funcs) →
  mavm_codegen funcs st imps gvs w rb = Ok (code, w') →
  NoDup (defined_labels code) ∧
  (∃ names n, defined_labels code ≡ₚ (Label.Func <$> names) ++ (Label.Anon <$> seq 0 n) ∧ n <= length code) ∧
  ∀ i l, i ∈ code → l ∈ imm_labels i →
    l ∈ defined_labels code ∨ (∃ id, l = Label.Func id) ∨ ∃ f, f ∈ imps ∧ l = Label.External (slot_num f).
Proof.
  intros Hp Hnd E. unfold mavm_codegen in E.
  destruct (codegen_funcs _ _ _ _ _ _ _ _) as [[fc w1]| |] eqn:Ef; cbn [mbind outcome_bind] in E; try discriminate.
  injection E as <- <-. apply codegen_funcs_ok in Ef as (hi & [Hn Hd Hr]); [|done|done| |].
  - change (concat (fc.*2)) with (code_of fc). split; [|split].
    + rewrite Hd. apply list.NoDup_app. split; [apply NoDup_fmap_2; [by intros ? ? [= ->]|done]|].
      split; [|apply NoDup_fmap_2; [by intros ? ? [= ->]|apply NoDup_seq]].
      intros l (n1 & -> & _)%list_elem_of_fmap (n2 & ? & _)%list_elem_of_fmap. done.
    + exists (fc.*1), hi. split; [done|]. pose proof (Permutation_length Hd) as Hlen.
      rewrite length_app, !length_fmap, length_seq in Hlen.
      pose proof (defined_length (code_of fc)). lia.
    + intros i l Hi Hl. destruct (Hr i l Hi Hl) as [[?|(id & Hm)]|(k & -> & Hk)]; [by right; left| |].
      * apply import_map_label in Hm as [Hm|?]; [by rewrite lookup_empty in Hm|by right; right].
      * left. rewrite Hd. apply elem_of_app. right. apply list_elem_of_fmap_2, elem_of_seq. lia.
  - intros kf _ Hin%elem_of_nil. done.
  - split; [constructor|done|]. intros i l Hi%elem_of_nil. done.
Qed.

(** Labels of a module.  If its functions have different names, the code
    of a module defines every label exactly once: the labels of its functions
    and the anonymous labels numbered from zero on, of which there are no more
    than instructions; and every label an instruction mentions is one of these,
    the label of some function, or the label of an import. *)
Theorem codegen_labels funcs st imps gvs w rb code w' :
  Forall (λ kf, plain_func kf.2) funcs → NoDup ((λ kf, f_name kf.2) <$> funcs) →
  mavm_codegen funcs st imps gvs w rb = Ok (code, w') →
  NoDup (defined_labels code) ∧
  (∃ names n, defined_labels code ≡ₚ (Label.Func <$> names) ++ (Label.Anon <$> seq 0 n) ∧ n <= length code) ∧
  ∀ i l, i ∈ code → l ∈ imm_labels i →
    l ∈ defined_labels code ∨ (∃ id, l = Label.Func id) ∨ ∃ f, f ∈ imps ∧ l = Label.External (slot_num f).
Proof. apply codegen_facts. Qed.

(** The linker may relocate generated modules.  A module whose code comes
    from the code generator and whose imports are numbered within the import
    list satisfies what the relocation of modules requires. *)
Theorem codegen_relocatable funcs st gvs w rb w' p :
  Forall (λ kf, plain_func kf.2) funcs → NoDup ((λ kf, f_name kf.2) <$> funcs) →
  mavm_codegen funcs st (imported_funcs p) gvs w rb = Ok (cp_code p, w') →
  Forall (λ f, slot_num f < length (imported_funcs p)) (imported_funcs p) → prog_ok p = true.
Proof.
  intros Hp Hnd E Hslots. destruct (codegen_facts _ _ _ _ _ _ _ _ Hp Hnd E) as (_ & (names & n & Hd & Hn) & Hr).
  assert (∀ l, l ∈ defined_labels (cp_code p) → source_label p l = true) as Hdef.
  { intros l Hl. rewrite Hd in Hl. apply elem_of_app in Hl as [(id & -> & _)%list_elem_of_fmap|(k & -> & Hk)%list_elem_of_fmap];
      [done|]. apply elem_of_seq in Hk. cbn. apply Nat.ltb_lt. lia. }
  unfold prog_ok. apply forallb_forall. intros l Hl%list_elem_of_In. unfold prog_labels in Hl.
  apply list_elem_of_In, in_flat_map in Hl as (i & Hi%list_elem_of_In & Hl%list_elem_of_In).
  unfold insn_labels in Hl. apply elem_of_app in Hl as [Hl|Hl].
  - apply Hdef. unfold defined_labels. apply list_elem_of_omap. exists i. split; [done|].
    destruct (Instruction.get_label i); [|by apply elem_of_nil in Hl]. by apply list_elem_of_singleton in Hl as ->.
  - destruct (Hr i l Hi Hl) as [?|[(id & ->)|(f & Hf & ->)]]; [by apply Hdef|done|].
    cbn. apply Nat.ltb_lt. rewrite list.Forall_forall in Hslots. by apply Hslots.
Qed.
End properties.

(** ** An example module *)
Definition dbg : DebugInfo := DebugInfo_default.
Definition ex (k : TypeCheckedExprKind) : TypeCheckedExpr := mkExpr k dbg.
Definition st_ (k : TypeCheckedStatementKind) : TypeCheckedStatement := mkStatement k dbg.
Definition num (n : Z) : TypeCheckedExpr := ex (Const (Value.Int n) Tipe.Uint).
Definition var (id : nat) : TypeCheckedExpr := ex (LocalVariableRef id Tipe.Uint).

(** [func f(n) { let (a, b) = (n, 0); while a { a = a - 1; b = g(b); } return b || a; }] *)
Definition demo_f : TypeCheckedFunc :=
  mkFunc 1 [mkFuncArg 10 Tipe.Uint dbg] Tipe.Uint
    [st_ (SLet (new_tuple [new_bind 11 dbg Tipe.Uint; new_bind 12 dbg Tipe.Uint] dbg (Tipe.Tuple [Tipe.Uint; Tipe.Uint]))
               (ex (TupleExpr [var 10; num 0] (Tipe.Tuple [Tipe.Uint; Tipe.Uint]))));
     st_ (SWhile (var 11)
            [st_ (SAssignLocal 11 (ex (Binary BinaryOp.Minus (var 11) (num 1) Tipe.Uint)));
             st_ (SAssignLocal 12 (ex (FunctionCall (ex (FuncRef 2 (Tipe.Func false [Tipe.Uint] Tipe.Uint))) [var 12] Tipe.Uint
                                                    (mkPropertiesList true))))]);
     st_ (SReturn (ex (ShortcutOr (var 12) (var 11))))]
    (Tipe.Func false [Tipe.Uint] Tipe.Uint) Public dbg (mkPropertiesList true).

(** [func g(n) { return if n { h(n) } else { n + 1 }; }], where [h] is imported. *)
Definition demo_g : TypeCheckedFunc :=
  mkFunc 2 [mkFuncArg 10 Tipe.Uint dbg] Tipe.Uint
    [st_ (SReturn (ex (If (var 10)
       (mkBlock [] (Some (ex (FunctionCall (ex (FuncRef 3 (Tipe.Func false [Tipe.Uint] Tipe.Uint))) [var 10] Tipe.Uint
                                           (mkPropertiesList true)))) None)
       (Some (mkBlock [] (Some (ex (Binary BinaryOp.Plus (var 10) (num 1) Tipe.Uint))) None)) Tipe.Uint)))]
    (Tipe.Func false [Tipe.Uint] Tipe.Uint) Private dbg (mkPropertiesList true).

Definition demo_funcs : list (nat * TypeCheckedFunc) := [(1, demo_f); (2, demo_g)].
Definition demo_imports : list ImportedFunc := [mkImportedFunc 3 0 "h"].
Definition demo_code : list insn :=
  Eval vm_compute in
  match mavm_codegen (H := toy_crypto) demo_funcs StringTable.new demo_imports [] [] false with
  | Ok (c, _) => c
  | _ => []
  end.
Definition demo_program : CompiledProgram := mkCompiledProgram demo_code [] demo_imports [] None ∅.

Lemma demo_plain : Forall (λ kf, plain_func kf.2) demo_funcs.
Proof. unfold plain_func. repeat first [apply List.Forall_nil | apply List.Forall_cons | constructor]. Qed.

Lemma demo_names : NoDup ((λ kf : nat * TypeCheckedFunc, f_name kf.2) <$> demo_funcs).
Proof. apply (bool_decide_unpack _). vm_compute. done. Qed.

Lemma codegen_labels_witness : NoDup (defined_labels demo_code) ∧ length (defined_labels demo_code) = 11.
Proof.
  split; [|reflexivity]. apply (codegen_labels (H := toy_crypto) demo_funcs StringTable.new demo_imports [] [] false demo_code []);
    [apply demo_plain|apply demo_names|reflexivity].
Defined.

Lemma codegen_locals_witness :
  ∃ ntotal ra di, 1 <= ntotal ∧ demo_code !! 1 = Some (vop (Opcode.MakeFrame 1 ntotal ra) di).
Proof.
  destruct (codegen_locals (H := toy_crypto) StringTable.new ∅ ∅ false demo_f LabelGenerator.new []
              (LabelGenerator.mk 4) (take 37 demo_code) []) as (di & n & ra & body & Hc & Hn & _).
  - apply (List.Forall_inv demo_plain).
  - reflexivity.
  - exists n, ra, di. split; [exact Hn|]. change (demo_code !! 1) with (take 37 demo_code !! 1).
    rewrite Hc. reflexivity.
Defined.

Lemma codegen_relocatable_witness : prog_ok demo_program = true.
Proof.
  apply (codegen_relocatable (H := toy_crypto) demo_funcs StringTable.new [] [] false [] demo_program);
    [apply demo_plain|apply demo_names|reflexivity|repeat constructor].
Defined.

(** ** Scopes *)

(** [loop { if c { x = 7; } break; }] *)
Definition leaky_loop : TypeCheckedExpr :=
  ex (Loop [st_ (SExpression (ex (If (num 1) (mkBlock [st_ (SAssignLocal 5 (num 7))] None None) None Tipe.Void)));
            st_ (SBreak None "_")]).

(** The position of the jump of the [break], its target and the positions of
    the two labels. *)
Definition leaky_code : list insn :=
  Eval vm_compute in
  match mavm_codegen_expr (H := toy_crypto) StringTable.new ∅ ∅ false leaky_loop 1 {[ 5 := 0 ]} 0
          (mkGen LabelGenerator.new [] []) with
  | Ok (_, c, _) => c
  | _ => []
  end.

(** A [break] may jump backwards.  [mavm_codegen_code_block] closes the
    scope it has opened only when the block has a value, so after an [if]
    statement its scope is still open, and the [break] that should leave the
    loop [loop { if c { x = 7; } break; }] jumps to the end of the [if] block
    instead, before the [break] itself: the loop never ends. *)
Theorem break_jumps_backwards :
  (∃ g, mavm_codegen_expr (H := toy_crypto) StringTable.new ∅ ∅ false leaky_loop 1 {[ 5 := 0 ]} 0
          (mkGen LabelGenerator.new [] []) = Ok (2, leaky_code, g)) ∧
  leaky_code !! 11 = Some (op_imm AVMOpcode.Jump (Value.Label (Label.Anon 4)) dbg) ∧
  leaky_code !! 8 = Some (label_ (Label.Anon 4) dbg) ∧
  leaky_code !! 14 = Some (label_ (Label.Anon 1) dbg).
Proof. split; [eexists; vm_compute; reflexivity|]. repeat split. Qed.
