(* ===== verification/TypecheckOps.v ===== *)
(** * Type checking of operators and constant folding (src/src/compile/typecheck.rs)

    [typecheck_unary_op], [typecheck_binary_op], [typecheck_trinary_op] and
    [typecheck_binary_op_const]: which operand types an operator accepts, which
    signed or unsigned operator it becomes, and what the compiler computes
    itself when the operands are constants.

    The results are wrapped in [option] because they resolve named types
    ([get_representation]); [None] is an endless chain of aliases.  Of formatted
    error texts the fixed part is kept. *)

From Stdlib Require Import ZArith Lia.
From S2P Require Import Prelude U256 StringTab Pos Opcodes Crypto BufferTree Values Insns StraightLine TupleTree Types TypedAst Codegen.

#[local] Set Warnings "-clear-no-such-hyp".

Definition new_type_error (description : string) (loc : option Location.t) : CompileError :=
  CompileError_new "Typecheck Error" description (option_list loc).

Abbreviation result := (outcome CompileError TypeCheckedExprKind).

Definition type_error {A} (description : string) (loc : option Location.t) : outcome CompileError A :=
  Err (new_type_error description loc).

(** [t.get_representation(type_tree)?] *)
Definition with_representation {A} (tt : TypeTree) (t : Tipe.t) (k : Tipe.t → option (outcome CompileError A))
    : option (outcome CompileError A) :=
  r ← get_representation tt t;
  match r with
  | Ok t => k t
  | Err e => Some (Err e)
  | Panic => Some Panic
  end.

(** An expression that is an integer constant. *)
Definition int_const (e : TypeCheckedExpr) : option (Z * Tipe.t) :=
  match expr_kind e with
  | Const (Value.Int ui) t => Some (ui, t)
  | _ => None
  end.

Section ops.
Context `{Crypto} (biguint_parse_bytes : string → Z → option Z).

(** ** Binary operators on two constants *)
Definition bool_const (b : bool) : result := Ok (Const (Value.Int (Uint256.from_bool b)) Tipe.Bool).

(** [match val1.div(&val2) { Some(v) => Ok(Const(v, t1)), None => Err(..) }] *)
Definition div_const (v : option Z) (t1 : Tipe.t) (loc : option Location.t) : result :=
  match v with
  | Some v => Ok (Const (Value.Int v) t1)
  | None => type_error "divide by constant zero" loc
  end.

Definition compare_const (t1 t2 : Tipe.t) (unsigned signed : bool) (message : string) (loc : option Location.t) : result :=
  match t1, t2 with
  | Tipe.Uint, Tipe.Uint => bool_const unsigned
  | Tipe.Int, Tipe.Int => bool_const signed
  | _, _ => type_error message loc
  end.

Definition shift_const (f : Z → Z → Z) (val1 : Z) (t1 : Tipe.t) (val2 : Z) (t2 : Tipe.t) (loc : option Location.t) : result :=
  if type_eq t1 Tipe.Uint then
    match t2 with
    | Tipe.Uint | Tipe.Int | Tipe.Bytes32 =>
        match Uint256.to_usize val1 with
        | Some x => Ok (Const (Value.Int (f val2 x)) t1)
        | None => type_error "Attempt to shift, causing overflow" loc
        end
    | _ => type_error "Attempt to shift, must shift an integer type by a uint" loc
    end
  else type_error "Attempt to shift, must shift an integer type by a uint" loc.

Definition typecheck_binary_op_const (op : BinaryOp.t) (val1 : Z) (t1 : Tipe.t) (val2 : Z) (t2 : Tipe.t)
    (loc : option Location.t) : result :=
  match op with
  | BinaryOp.Plus | BinaryOp.Minus | BinaryOp.Times =>
      match t1, t2 with
      | Tipe.Uint, Tipe.Uint | Tipe.Int, Tipe.Int =>
          match op with
          | BinaryOp.Plus => Ok (Const (Value.Int (Uint256.add val1 val2)) t1)
          | BinaryOp.Minus =>
              match Uint256.sub val1 val2 with
              | Some val => Ok (Const (Value.Int val) t1)
              | None => type_error "underflow on substraction" loc
              end
          | _ => Ok (Const (Value.Int (Uint256.mul val1 val2)) t1)
          end
      | _, _ => type_error "invalid argument types to binary op" loc
      end
  | BinaryOp.Div =>
      match t1, t2 with
      | Tipe.Uint, Tipe.Uint => div_const (Uint256.div val1 val2) t1 loc
      | Tipe.Int, Tipe.Int => v ← unwrap (Uint256.sdiv val1 val2); div_const v t1 loc
      | _, _ => type_error "invalid argument types to divide" loc
      end
  | BinaryOp.Mod =>
      match t1, t2 with
      | Tipe.Uint, Tipe.Uint => div_const (Uint256.modulo val1 val2) t1 loc
      | Tipe.Int, Tipe.Int => v ← unwrap (Uint256.smodulo val1 val2); div_const v t1 loc
      | _, _ => type_error "invalid argument types to mod" loc
      end
  | BinaryOp.LessThan =>
      compare_const t1 t2 (val1 <? val2)%Z (Uint256.s_less_than val1 val2) "invalid argument types to <" loc
  | BinaryOp.GreaterThan =>
      compare_const t1 t2 (val2 <? val1)%Z (Uint256.s_less_than val2 val1) "invalid argument types to >" loc
  | BinaryOp.LessEq =>
      compare_const t1 t2 (val1 <=? val2)%Z (negb (Uint256.s_less_than val2 val1)) "invalid argument types to <=" loc
  | BinaryOp.GreaterEq =>
      compare_const t1 t2 (val2 <=? val1)%Z (negb (Uint256.s_less_than val1 val2)) "invalid argument types to >=" loc
  | BinaryOp.Equal | BinaryOp.NotEqual | BinaryOp.BitwiseAnd | BinaryOp.BitwiseOr | BinaryOp.BitwiseXor
  | BinaryOp.Hash =>
      if type_eq t1 t2 then
        match op with
        | BinaryOp.Equal => bool_const (val1 =? val2)%Z
        | BinaryOp.NotEqual => bool_const (negb (val1 =? val2)%Z)
        | BinaryOp.BitwiseAnd => Ok (Const (Value.Int (Uint256.bitwise_and val1 val2)) Tipe.Bool)
        | BinaryOp.BitwiseOr => Ok (Const (Value.Int (Uint256.bitwise_or val1 val2)) Tipe.Bool)
        | BinaryOp.BitwiseXor => Ok (Const (Value.Int (Uint256.bitwise_xor val1 val2)) Tipe.Bool)
        | _ =>
            match t1 with
            | Tipe.Bytes32 =>
                v ← unwrap (Value.avm_hash2 (Value.Int val1) (Value.Int val2)); Ok (Const v Tipe.Bool)
            | _ => type_error "invalid argument types to binary op" loc
            end
        end
      else type_error "invalid argument types to binary op" loc
  | BinaryOp.LogicalAnd_ =>
      if type_eq t1 Tipe.Bool && type_eq t2 Tipe.Bool
      then bool_const (negb (val1 =? 0)%Z && negb (val2 =? 0)%Z)
      else type_error "invalid argument types to logical and" loc
  | BinaryOp.LogicalOr =>
      if type_eq t1 Tipe.Bool && type_eq t2 Tipe.Bool
      then bool_const (negb (val1 =? 0)%Z || negb (val2 =? 0)%Z)
      else type_error "invalid argument types to logical or" loc
  | BinaryOp.ShiftLeft => shift_const Uint256.shift_left val1 t1 val2 t2 loc
  | BinaryOp.ShiftRight => shift_const Uint256.shift_right val1 t1 val2 t2 loc
  | BinaryOp.Smod | BinaryOp.GetBuffer8 | BinaryOp.GetBuffer64 | BinaryOp.GetBuffer256 | BinaryOp.Sdiv
  | BinaryOp.SLessThan | BinaryOp.SGreaterThan | BinaryOp.SLessEq | BinaryOp.SGreaterEq => Panic
  end.

(** ** Binary operators *)

(** With a constant on the right, commutative operators and comparisons are
    turned around. *)
Definition swap_op (op : BinaryOp.t) : option BinaryOp.t :=
  match op with
  | BinaryOp.Plus | BinaryOp.Times | BinaryOp.Equal | BinaryOp.NotEqual | BinaryOp.BitwiseAnd
  | BinaryOp.BitwiseOr | BinaryOp.BitwiseXor => Some op
  | BinaryOp.LessThan => Some BinaryOp.GreaterThan
  | BinaryOp.GreaterThan => Some BinaryOp.LessThan
  | BinaryOp.LessEq => Some BinaryOp.GreaterEq
  | BinaryOp.GreaterEq => Some BinaryOp.LessEq
  | _ => None
  end.

(** The operands are of type [uint], or of type [int] for the signed operator. *)
Definition arith_op (op signed : BinaryOp.t) (e1 e2 : TypeCheckedExpr) (s1 s2 : Tipe.t) (tu ti : Tipe.t)
    (message : string) (loc : option Location.t) : result :=
  match s1, s2 with
  | Tipe.Uint, Tipe.Uint => Ok (Binary op e1 e2 tu)
  | Tipe.Int, Tipe.Int => Ok (Binary signed e1 e2 ti)
  | _, _ => type_error message loc
  end.

Definition get_buffer_op (op : BinaryOp.t) (e1 e2 : TypeCheckedExpr) (s1 s2 : Tipe.t) (message : string)
    (loc : option Location.t) : result :=
  match s1, s2 with
  | Tipe.Uint, Tipe.Buffer => Ok (Binary op e1 e2 Tipe.Uint)
  | _, _ => type_error message loc
  end.

(** The operator chosen for operands of representation [s1] and [s2]. *)
Definition binary_by_type (op : BinaryOp.t) (tcs1 tcs2 : TypeCheckedExpr) (s1 s2 : Tipe.t) (loc : option Location.t)
    : result :=
  match op with
  | BinaryOp.Plus | BinaryOp.Minus | BinaryOp.Times =>
      arith_op op op tcs1 tcs2 s1 s2 Tipe.Uint Tipe.Int "invalid argument types to binary op" loc
  | BinaryOp.Div => arith_op op BinaryOp.Sdiv tcs1 tcs2 s1 s2 Tipe.Uint Tipe.Int "invalid argument types to divide" loc
  | BinaryOp.GetBuffer8 => get_buffer_op op tcs1 tcs2 s1 s2 "invalid argument types to getbuffer8" loc
  | BinaryOp.GetBuffer64 => get_buffer_op op tcs1 tcs2 s1 s2 "invalid argument types to getbuffer64" loc
  | BinaryOp.GetBuffer256 => get_buffer_op op tcs1 tcs2 s1 s2 "invalid argument types to getbuffer256" loc
  | BinaryOp.Mod => arith_op op BinaryOp.Smod tcs1 tcs2 s1 s2 Tipe.Uint Tipe.Int "invalid argument types to mod" loc
  | BinaryOp.LessThan =>
      arith_op op BinaryOp.SLessThan tcs1 tcs2 s1 s2 Tipe.Bool Tipe.Bool "invalid argument types to <" loc
  | BinaryOp.GreaterThan =>
      arith_op op BinaryOp.SGreaterThan tcs1 tcs2 s1 s2 Tipe.Bool Tipe.Bool "invalid argument types to >" loc
  | BinaryOp.LessEq =>
      arith_op op BinaryOp.SLessEq tcs1 tcs2 s1 s2 Tipe.Bool Tipe.Bool "invalid argument types to <=" loc
  | BinaryOp.GreaterEq =>
      arith_op op BinaryOp.SGreaterEq tcs1 tcs2 s1 s2 Tipe.Bool Tipe.Bool "invalid argument types to >=" loc
  | BinaryOp.Equal | BinaryOp.NotEqual =>
      if negb (type_eq s1 Tipe.Void) && negb (type_eq s2 Tipe.Void)
         && (type_eq s1 Tipe.Any || type_eq s2 Tipe.Any || type_eq s1 s2)
      then Ok (Binary op tcs1 tcs2 Tipe.Bool)
      else type_error "invalid argument types to equality comparison" loc
  | BinaryOp.BitwiseAnd | BinaryOp.BitwiseOr | BinaryOp.BitwiseXor | BinaryOp.ShiftLeft | BinaryOp.ShiftRight =>
      match s1, s2 with
      | Tipe.Uint, Tipe.Uint => Ok (Binary op tcs1 tcs2 Tipe.Uint)
      | Tipe.Int, Tipe.Int => Ok (Binary op tcs1 tcs2 Tipe.Int)
      | Tipe.Bytes32, Tipe.Bytes32 => Ok (Binary op tcs1 tcs2 Tipe.Bytes32)
      | _, _ => type_error "invalid argument types to binary bitwise operator" loc
      end
  | BinaryOp.LogicalAnd_ | BinaryOp.LogicalOr =>
      match s1, s2 with
      | Tipe.Bool, Tipe.Bool => Ok (Binary op tcs1 tcs2 Tipe.Bool)
      | _, _ => type_error "invalid argument types to binary logical operator" loc
      end
  | BinaryOp.Hash =>
      match s1, s2 with
      | Tipe.Bytes32, Tipe.Bytes32 => Ok (Binary op tcs1 tcs2 Tipe.Bytes32)
      | _, _ => type_error "invalid argument types to binary hash operator" loc
      end
  | BinaryOp.Smod | BinaryOp.Sdiv | BinaryOp.SLessThan | BinaryOp.SGreaterThan | BinaryOp.SLessEq
  | BinaryOp.SGreaterEq => Panic
  end.

Definition is_get_buffer (op : BinaryOp.t) : bool :=
  match op with
  | BinaryOp.GetBuffer256 | BinaryOp.GetBuffer64 | BinaryOp.GetBuffer8 => true
  | _ => false
  end.

(** The general case, after the operands may have been swapped. *)
Definition binary_general (op : BinaryOp.t) (tcs1 tcs2 : TypeCheckedExpr) (tt : TypeTree) (loc : option Location.t)
    : option result :=
  with_representation tt (get_type tcs1) (λ s1,
  with_representation tt (get_type tcs2) (λ s2, Some (binary_by_type op tcs1 tcs2 s1 s2 loc))).

Definition typecheck_binary_op (op : BinaryOp.t) (tcs1 tcs2 : TypeCheckedExpr) (tt : TypeTree) (loc : option Location.t)
    : option result :=
  match int_const tcs2 with
  | Some (val2, t2) =>
      match int_const tcs1 with
      | Some (val1, t1) =>
          if is_get_buffer op then binary_general op tcs1 tcs2 tt loc
          else Some (typecheck_binary_op_const op val1 t1 val2 t2 loc)
      | None =>
          match swap_op op with
          | Some op' => binary_general op' tcs2 tcs1 tt loc
          | None => binary_general op tcs1 tcs2 tt loc
          end
      end
  | None => binary_general op tcs1 tcs2 tt loc
  end.

(** ** Trinary operators *)
Definition typecheck_trinary_op (op : TrinaryOp.t) (tcs1 tcs2 tcs3 : TypeCheckedExpr) (tt : TypeTree)
    (loc : option Location.t) : option result :=
  with_representation tt (get_type tcs1) (λ s1,
  with_representation tt (get_type tcs2) (λ s2,
  with_representation tt (get_type tcs3) (λ s3,
    Some (match s1, s2, s3 with
          | Tipe.Uint, Tipe.Uint, Tipe.Buffer => Ok (Trinary op tcs1 tcs2 tcs3 Tipe.Buffer)
          | _, _, _ => type_error "invalid argument types to 3-ary op" loc
          end)))).

(** ** Unary operators *)
Definition is_integer_like (t : Tipe.t) : bool :=
  match t with
  | Tipe.Uint | Tipe.Int | Tipe.Bytes32 | Tipe.EthAddress | Tipe.Bool => true
  | _ => false
  end.

(** A conversion that keeps the value of a constant. *)
Definition convert (op : UnaryOp.t) (sub_expr : TypeCheckedExpr) (tc_type to : Tipe.t) (folded : Z → result)
    (message : string) (loc : option Location.t) : result :=
  match int_const sub_expr with
  | Some (val, _) => folded val
  | None => if is_integer_like tc_type then Ok (Unary op sub_expr to) else type_error message loc
  end.

(** 2^160, one more than the greatest address *)
Definition address_bound : string := "1__0000_0000__0000_0000__0000_0000__0000_0000__0000_0000".

Definition typecheck_unary_op (op : UnaryOp.t) (sub_expr : TypeCheckedExpr) (loc : option Location.t) (tt : TypeTree)
    : option result :=
  with_representation tt (get_type sub_expr) (λ tc_type, Some (
  match op with
  | UnaryOp.Minus =>
      match tc_type with
      | Tipe.Int =>
          match int_const sub_expr with
          | Some (ui, _) => v ← unwrap (Uint256.unary_minus ui); Ok (Const (Value.Int v) Tipe.Int)
          | None => Ok (Unary UnaryOp.Minus sub_expr Tipe.Int)
          end
      | _ => type_error "invalid operand type for unary minus" loc
      end
  | UnaryOp.BitwiseNeg =>
      match tc_type with
      | Tipe.Uint | Tipe.Int | Tipe.Bytes32 =>
          match int_const sub_expr with
          | Some (ui, _) => Ok (Const (Value.Int (Uint256.bitwise_neg ui)) tc_type)
          | None => Ok (Unary UnaryOp.BitwiseNeg sub_expr tc_type)
          end
      | _ => type_error "invalid operand type for bitwise negation" loc
      end
  | UnaryOp.Not =>
      match tc_type with
      | Tipe.Bool =>
          match int_const sub_expr with
          | Some (ui, _) =>
              b ← unwrap (Uint256.to_usize ui);
              (* [1 - b] on usize *)
              Ok (Const (Value.Int (Uint256.from_usize ((1 - b) mod two64))) Tipe.Bool)
          | None => Ok (Unary UnaryOp.Not sub_expr Tipe.Bool)
          end
      | _ => type_error "invalid operand type for logical negation" loc
      end
  | UnaryOp.Hash =>
      match int_const sub_expr with
      | Some (ui, _) => Ok (Const (Value.Int (Uint256.avm_hash keccak256 ui)) Tipe.Bytes32)
      | None => Ok (Unary UnaryOp.Hash sub_expr Tipe.Bytes32)
      end
  | UnaryOp.Len =>
      match tc_type with
      | Tipe.Tuple tv => Ok (Const (slot_val (length tv)) Tipe.Uint)
      | Tipe.FixedArray _ sz => Ok (Const (slot_val sz) Tipe.Uint)
      | Tipe.Array _ => Ok (Unary UnaryOp.Len sub_expr Tipe.Uint)
      | _ => type_error "invalid operand type for len" loc
      end
  | UnaryOp.ToUint =>
      convert UnaryOp.ToUint sub_expr tc_type Tipe.Uint (λ val, Ok (Const (Value.Int val) Tipe.Uint))
              "invalid operand type for uint()" loc
  | UnaryOp.ToInt =>
      convert UnaryOp.ToInt sub_expr tc_type Tipe.Int (λ val, Ok (Const (Value.Int val) Tipe.Int))
              "invalid operand type for int()" loc
  | UnaryOp.ToBytes32 =>
      convert UnaryOp.ToBytes32 sub_expr tc_type Tipe.Bytes32 (λ val, Ok (Const (Value.Int val) Tipe.Bytes32))
              "invalid operand type for bytes32()" loc
  | UnaryOp.ToAddress =>
      convert UnaryOp.ToAddress sub_expr tc_type Tipe.EthAddress
        (λ val, bound ← unwrap (Uint256.from_string_hex biguint_parse_bytes address_bound);
                v ← unwrap (Uint256.modulo val bound);
                Ok (Const (Value.Int v) Tipe.EthAddress))
        "invalid operand type for address cast" loc
  end)).
End ops.


(** ** Folding computes what the generated code would compute *)

(** The operators whose code is an instruction of [view_op]: the hash is not in
    the table, and the two logical operators have no machine instruction. *)
Definition table_op (op : BinaryOp.t) : bool :=
  match op with
  | BinaryOp.Hash | BinaryOp.LogicalAnd_ | BinaryOp.LogicalOr => false
  | _ => true
  end.

Definition bitwise (op : BinaryOp.t) : bool :=
  match op with
  | BinaryOp.BitwiseAnd | BinaryOp.BitwiseOr | BinaryOp.BitwiseXor => true
  | _ => false
  end.

(** The code of an operator on the two values on top of the stack. *)
Definition computes (op : BinaryOp.t) (di : DebugInfo) (x y : Value.t) (v : view) : option view :=
  steps (lift_sem view_op) (binary_code op di) (mkView (x :: y :: v_stack v) (v_aux v) (v_reg v)).

Lemma computes_alu op aop f di x y v :
  binary_op op = Opcode.AVM aop → (∀ w, view_op aop w = view_alu aop w) → alu aop x y = Some f →
  computes op di (Value.Int x) (Value.Int y) v =
  Some (mkView (Value.Int (if negated op then (if (f =? 0)%Z then 1 else 0)%Z else f) :: v_stack v) (v_aux v) (v_reg v)).
Proof.
  intros Hop Hv Hf. unfold computes, binary_code. cbn [steps].
  unfold step, vop, op_. cbn. rewrite Hop. cbn [lift_sem]. rewrite Hv. unfold view_alu. cbn. rewrite Hf. cbn.
  by destruct (negated op).
Qed.

Lemma computes_equal op di (x y : Value.t) v : binary_op op = Opcode.AVM AVMOpcode.Equal →
  computes op di x y v =
  Some (mkView (Value.Int (if bool_decide (x = y) then (if negated op then 0 else 1) else (if negated op then 1 else 0))%Z
                :: v_stack v) (v_aux v) (v_reg v)).
Proof. destruct op; intros [=]; cbn; by case_bool_decide. Qed.

Lemma computes_alu_eq op aop f di x y r v :
  binary_op op = Opcode.AVM aop → (∀ w, view_op aop w = view_alu aop w) → alu aop x y = Some f →
  r = Value.Int (if negated op then (if (f =? 0)%Z then 1 else 0)%Z else f) →
  computes op di (Value.Int x) (Value.Int y) v = Some (mkView (r :: v_stack v) (v_aux v) (v_reg v)).
Proof. intros Hop Hv Hf ->. by apply (computes_alu op aop f). Qed.

Lemma computes_swap_alu op op' aop aop' di x y v :
  binary_op op = Opcode.AVM aop → binary_op op' = Opcode.AVM aop' → negated op = negated op' →
  (∀ w, view_op aop w = view_alu aop w) → (∀ w, view_op aop' w = view_alu aop' w) →
  (∀ a b, alu aop a b = alu aop' b a) →
  computes op di x y v = computes op' di y x v.
Proof.
  intros E E' En Hv Hv' Ha. unfold computes, binary_code. cbn [steps]. rewrite <- En.
  unfold step, vop, op_. cbn. rewrite E, E'. cbn [lift_sem]. rewrite Hv, Hv'. unfold view_alu.
  destruct x, y; cbn; try done. by rewrite Ha.
Qed.

Lemma add_comm x y : Uint256.add x y = Uint256.add y x.
Proof. unfold Uint256.add. by rewrite Z.add_comm. Qed.

Lemma mul_comm x y : Uint256.mul x y = Uint256.mul y x.
Proof. unfold Uint256.mul. by rewrite Z.mul_comm. Qed.

Lemma from_bool_if (b : bool) : Uint256.from_bool b = (if b then 1 else 0)%Z.
Proof. by destruct b. Qed.

Lemma if_zero (b : bool) : (if ((if b then 1 else 0) =? 0)%Z then 1 else 0)%Z = (if negb b then 1 else 0)%Z.
Proof. by destruct b. Qed.

(** Runs the one instruction of an operator, given its result. *)
Ltac by_alu := eapply computes_alu_eq; [reflexivity|intros [[|[] [|[]]]]; reflexivity|cbn [alu]|].

Ltac fold_compare :=
  by_alu; [reflexivity|]; cbn [negated]; rewrite ?Z.leb_antisym, ?from_bool_if, ?if_zero; reflexivity.

Ltac swap_alu :=
  eapply computes_swap_alu;
    [reflexivity|reflexivity|reflexivity|intros [[|[] [|[]]]]; reflexivity|intros [[|[] [|[]]]]; reflexivity|];
  intros a b; cbn [alu];
  rewrite 1?add_comm, 1?mul_comm, 1?Z.land_comm, 1?Z.lor_comm, 1?Z.lxor_comm; reflexivity.

Section folding.
Context `{Crypto}.

Lemma arith_fold op sop e1 e2 s1 s2 tu ti m loc op' t :
  arith_op op sop e1 e2 s1 s2 tu ti m loc = Ok (Binary op' e1 e2 t) →
  (s1 = Tipe.Uint ∧ s2 = Tipe.Uint ∧ op' = op ∧ t = tu) ∨ (s1 = Tipe.Int ∧ s2 = Tipe.Int ∧ op' = sop ∧ t = ti).
Proof. destruct s1, s2; cbn; try discriminate; intros [= <- <-]; auto. Qed.

Lemma shift_fold f v1 t1 v2 t2 loc r t : shift_const f v1 t1 v2 t2 loc = Ok (Const r t) →
  t1 = Tipe.Uint ∧ t = t1 ∧ ∃ x, Uint256.to_usize v1 = Some x ∧ r = Value.Int (f v2 x).
Proof.
  unfold shift_const. destruct (type_eq t1 Tipe.Uint) eqn:E; [|discriminate]. apply type_eq_spec in E as ->.
  destruct (Uint256.to_usize v1); destruct t2; try discriminate; intros [= <- <-]; eauto.
Qed.

Lemma unwrap_bind_Ok {E A B} (o : option A) (f : A → outcome E B) b :
  (unwrap o ≫= f) = Ok b → ∃ a, o = Some a ∧ f a = Ok b.
Proof. destruct o; [eauto|discriminate]. Qed.

Lemma int_eq_if {A} x y (p q : A) : (if bool_decide (Value.Int x = Value.Int y) then p else q) = if (x =? y)%Z then p else q.
Proof. case_bool_decide; destruct (Z.eqb_spec x y); congruence. Qed.

Lemma minus_sound v1 v2 z : Uint256.wf v1 → Uint256.wf v2 → Uint256.sub v1 v2 = Some z → Uint256.unchecked_sub v1 v2 = Some z.
Proof.
  intros H1 H2 Hz. rewrite Uint256.sub_eq in Hz by done. rewrite Uint256.unchecked_sub_eq by done.
  case_bool_decide; simplify_eq. f_equal. apply Z.mod_small. unfold Uint256.wf in *. lia.
Qed.

Lemma div_fold o t1 loc r t : div_const o t1 loc = Ok (Const r t) → t = t1 ∧ ∃ z, o = Some z ∧ r = Value.Int z.
Proof. destruct o; cbn; [intros [= <- <-]; eauto|discriminate]. Qed.


Lemma const_fold_type op v1 t1 v2 t2 e1 e2 op' t' r t loc :
  table_op op = true →
  typecheck_binary_op_const op v1 t1 v2 t2 loc = Ok (Const r t) →
  binary_by_type op e1 e2 t1 t2 loc = Ok (Binary op' e1 e2 t') →
  t = if bitwise op then Tipe.Bool else t'.
Proof.
  intros Ht Hc Hb. destruct op; try discriminate Ht; cbn [typecheck_binary_op_const binary_by_type bitwise] in Hc, Hb |- *;
    try discriminate Hc.
  all: try (destruct (arith_fold _ _ _ _ _ _ _ _ _ _ _ _ Hb) as [(-> & -> & -> & ->)|(-> & -> & -> & ->)]).
  all: try (unfold compare_const, bool_const in Hc; by simplify_eq).
  all: try (match type of Hc with context [Uint256.sub ?x ?y] => destruct (Uint256.sub x y) end; by simplify_eq).
  all: try (destruct (type_eq t1 t2); [by simplify_eq|discriminate]).
  all: try solve [by apply div_fold in Hc as [-> _]].
  all: try solve [apply unwrap_bind_Ok in Hc as (? & _ & Hc); by apply div_fold in Hc as [-> _]].
  all: try (apply shift_fold in Hc as (-> & -> & _); destruct t2; by simplify_eq).
  all: destruct (type_eq t1 t2); [injection Hc as <- <-|discriminate];
    match type of Hb with (if ?b then _ else _) = _ => destruct b end; by simplify_eq.
Qed.

(** C17: the compiler's own arithmetic on two integer constants agrees with the
    code it would otherwise generate: whenever [typecheck_binary_op_const] folds
    an operator to a constant, and the operator is also typed for run time,
    becoming [op'], the instructions of [op'] run on the two operands leave
    exactly that constant, for the arithmetic, comparison, bitwise and shift
    operators, signed and unsigned.  Its type is the operator's type too, except
    that bitwise operations of constants become truth values. *)
Theorem const_fold_sound op v1 t1 v2 t2 e1 e2 op' t' r t loc di v :
  table_op op = true → Uint256.wf v1 → Uint256.wf v2 →
  typecheck_binary_op_const op v1 t1 v2 t2 loc = Ok (Const r t) →
  binary_by_type op e1 e2 t1 t2 loc = Ok (Binary op' e1 e2 t') →
  computes op' di (Value.Int v1) (Value.Int v2) v = Some (mkView (r :: v_stack v) (v_aux v) (v_reg v)) ∧
  t = if bitwise op then Tipe.Bool else t'.
Proof.
  intros Ht H1 H2 Hc Hb. split; [|by apply (const_fold_type op v1 t1 v2 t2 e1 e2 op' t' r t loc)].
  destruct op; try discriminate Ht; cbn [typecheck_binary_op_const binary_by_type] in Hc, Hb.
  all: try discriminate Hc.
  all: try (destruct (arith_fold _ _ _ _ _ _ _ _ _ _ _ _ Hb) as [(-> & -> & -> & _)|(-> & -> & -> & _)]).
  all: try (unfold compare_const, bool_const in Hc; simplify_eq).
  all: try solve [fold_compare].
  all: try solve [by_alu; reflexivity].
  1, 2: destruct (Uint256.sub v1 v2) as [z|] eqn:Ez; [injection Hc as <- <-|discriminate];
    by_alu; [by apply minus_sound|reflexivity].
  all: try solve [apply div_fold in Hc as (_ & z & Hz & ->); by_alu; [exact Hz|reflexivity]].
  1, 2: apply unwrap_bind_Ok in Hc as (o & Ho & Hc); apply div_fold in Hc as (_ & z & -> & ->); by_alu;
    [by rewrite Ho|reflexivity].
  1, 2: destruct (type_eq t1 t2); [injection Hc as <- <-|discriminate];
    match type of Hb with (if ?b then _ else _) = _ => destruct b end; [injection Hb as <- <-|discriminate];
    rewrite computes_equal, int_eq_if by reflexivity; unfold Uint256.from_bool; by destruct (v1 =? v2)%Z.
  1, 2, 3: destruct (type_eq t1 t2); [injection Hc as <- <-|discriminate]; destruct t1, t2; simplify_eq; by_alu; reflexivity.
  all: apply shift_fold in Hc as (-> & _ & x & Hx & ->); destruct t2; simplify_eq; by_alu;
    [unfold shift_with; by rewrite Hx|reflexivity].
Qed.

(** ** Swapped operands *)
Lemma type_eq_sym x y : type_eq x y = type_eq y x.
Proof. apply eq_bool_prop_intro. rewrite !Is_true_true, !type_eq_spec. split; congruence. Qed.

(** Turning an operator around is sound.  When the compiler exchanges the
    operands of an operator because the right one is a constant, the exchanged
    operator is accepted for the same types and gives the same type, and its
    instructions on the exchanged values do exactly what the original's do on
    the original values: the same result, and the same failure on values that
    are not integers. *)
Theorem operand_swap_sound op op' e1 e2 s1 s2 opa t loc :
  swap_op op = Some op' → binary_by_type op e1 e2 s1 s2 loc = Ok (Binary opa e1 e2 t) →
  ∃ opb, binary_by_type op' e2 e1 s2 s1 loc = Ok (Binary opb e2 e1 t) ∧
         ∀ di x y v, computes opa di x y v = computes opb di y x v.
Proof.
  intros Hs Hb. destruct op; try discriminate Hs; injection Hs as <-; cbn [binary_by_type] in Hb |- *.
  all: try (destruct (arith_fold _ _ _ _ _ _ _ _ _ _ _ _ Hb) as [(-> & -> & -> & ->)|(-> & -> & -> & ->)]; eexists;
    (split; [reflexivity|]); intros di x y v; swap_alu).
  1, 2: rewrite (type_eq_sym s2 s1), (andb_comm (negb (type_eq s2 _))), (orb_comm (type_eq s2 _));
    match type of Hb with (if ?b then _ else _) = _ => destruct b end; [injection Hb as <- <-|discriminate]; eexists;
    (split; [reflexivity|]); intros di x y v; rewrite !computes_equal, (bool_decide_ext (x = y) (y = x)) by done;
    reflexivity.
  all: destruct s1, s2; try discriminate Hb; injection Hb as <- <-; eexists;
    (split; [reflexivity|]); intros di x y v; swap_alu.
Qed.

(** ** Unary operators *)

(** The operators on integers whose code is an instruction of [view_op], or no code. *)
Definition table_unary (op : UnaryOp.t) : bool :=
  match op with
  | UnaryOp.Minus | UnaryOp.Hash | UnaryOp.Len => false
  | _ => true
  end.

(** What num-bigint's parser does with the bound: digits to base 16, underscores skipped. *)
Definition parses_bound (biguint_parse_bytes : string → Z → option Z) : Prop :=
  biguint_parse_bytes address_bound 16%Z = Some (2 ^ 160)%Z.

Lemma address_mask : Uint256.sub (Uint256.exp (Uint256.from_usize 2) (Uint256.from_usize 160)) Uint256.one
  = Some (Z.ones 160).
Proof. vm_compute. reflexivity. Qed.

Lemma address_parse parse : parses_bound parse →
  Uint256.from_string_hex parse address_bound = Some (2 ^ 160)%Z.
Proof. intros E. unfold Uint256.from_string_hex. rewrite E. vm_compute. reflexivity. Qed.

Lemma get_type_int_const e v t : int_const e = Some (v, t) → get_type e = t.
Proof. destruct e as [[] ?]; cbn; try discriminate. destruct v0; try discriminate. by intros [= <- <-]. Qed.

(** The compiler's own unary operators agree with the generated code:
    folding a bitwise negation, a logical negation of a truth value or a
    conversion of an integer constant gives exactly the value which the code of
    that operator leaves in place of the constant.  In particular an address is
    cut to 160 bits, by a remainder when folding and by a mask at run time. *)
Theorem unary_fold_sound parse op e v t0 r t loc tt di g w :
  parses_bound parse → table_unary op = true → int_const e = Some (v, t0) → Uint256.wf v →
  (op = UnaryOp.Not → (v <= 1)%Z) →
  typecheck_unary_op parse op e loc tt = Some (Ok (Const r t)) →
  ∃ c, unary_code op di g = Ok ((), c, g) ∧
       steps (lift_sem view_op) c (mkView (Value.Int v :: v_stack w) (v_aux w) (v_reg w)) =
       Some (mkView (r :: v_stack w) (v_aux w) (v_reg w)).
Proof.
  intros Hp Ht Hi Hv Hn Hc. unfold typecheck_unary_op, with_representation, convert in Hc.
  apply bind_Some in Hc as ([rep| |] & _ & Hc); try discriminate. apply (inj Some) in Hc. rewrite Hi in Hc.
  destruct op; try discriminate Ht.
  - destruct rep; try discriminate Hc; injection Hc as <- <-; by eexists.
  - destruct rep; try discriminate Hc. specialize (Hn eq_refl).
    assert (v = 0 ∨ v = 1)%Z as [-> | ->] by (unfold Uint256.wf in Hv; lia);
      vm_compute in Hc; injection Hc as <- <-; by eexists.
  - injection Hc as <- <-; by eexists.
  - injection Hc as <- <-; by eexists.
  - injection Hc as <- <-; by eexists.
  - rewrite address_parse in Hc by done. cbn [unwrap] in Hc. unfold Uint256.modulo in Hc. cbn in Hc.
    injection Hc as <- <-. unfold unary_code, unary_op. rewrite address_mask.
    eexists. split; [reflexivity|]. cbn. unfold Uint256.bitwise_and. by rewrite Z.land_comm, Z.land_ones by done.
Qed.

End folding.

(** ** Where folding and the generated code differ *)
Definition const_expr (v : Z) (t : Tipe.t) : TypeCheckedExpr := mkExpr (Const (Value.Int v) t) DebugInfo_default.

Section witnesses.
#[local] Existing Instance toy_crypto.

(** -7 / 2 on signed constants, and the instruction [sdiv]. *)
Lemma const_fold_sound_witness :
  let m7 := (two256 - 7)%Z in
  computes BinaryOp.Sdiv DebugInfo_default (Value.Int m7) (Value.Int 2) (mkView [] [] (Value.Int 0)) =
    Some (mkView [Value.Int (two256 - 3)] [] (Value.Int 0)) ∧ Tipe.Int = Tipe.Int.
Proof.
  apply (const_fold_sound BinaryOp.Div (two256 - 7) Tipe.Int 2 Tipe.Int (const_expr (two256 - 7) Tipe.Int)
    (const_expr 2 Tipe.Int) BinaryOp.Sdiv Tipe.Int (Value.Int (two256 - 3)) Tipe.Int None).
  - reflexivity.
  - by_eval.
  - by_eval.
  - vm_compute. reflexivity.
  - vm_compute. reflexivity.
Defined.

Lemma operand_swap_sound_witness :
  ∃ opb, binary_by_type BinaryOp.GreaterThan (const_expr 5 Tipe.Int) (const_expr 4 Tipe.Int) Tipe.Int Tipe.Int None =
           Ok (Binary opb (const_expr 5 Tipe.Int) (const_expr 4 Tipe.Int) Tipe.Bool) ∧
         ∀ di x y v, computes BinaryOp.SLessThan di x y v = computes opb di y x v.
Proof.
  apply (operand_swap_sound BinaryOp.LessThan BinaryOp.GreaterThan (const_expr 4 Tipe.Int) (const_expr 5 Tipe.Int)
    Tipe.Int Tipe.Int BinaryOp.SLessThan Tipe.Bool None); reflexivity.
Defined.

Lemma unary_fold_sound_witness : ∃ c,
  unary_code UnaryOp.ToAddress DebugInfo_default (mkGen LabelGenerator.new [] []) =
    Ok ((), c, mkGen LabelGenerator.new [] []) ∧
  steps (lift_sem view_op) c (mkView [Value.Int (2 ^ 200 + 5)] [] (Value.Int 0)) =
    Some (mkView [Value.Int 5] [] (Value.Int 0)).
Proof.
  apply (unary_fold_sound (λ _ _, Some (2 ^ 160)%Z) UnaryOp.ToAddress (const_expr (2 ^ 200 + 5) Tipe.Uint)
    (2 ^ 200 + 5) Tipe.Uint (Value.Int 5) Tipe.EthAddress None ∅ _ _ (mkView [] [] (Value.Int 0))).
  - reflexivity.
  - reflexivity.
  - reflexivity.
  - by_eval.
  - discriminate.
  - vm_compute. reflexivity.
Defined.

(** The conjunction of two unsigned constants is typed as a truth value, so that
    the compiler rejects [(6 & 3) + 1] and accepts [!(6 & 3)], whose folded value
    is not a truth value. *)
Lemma bitwise_fold_mistyped :
  typecheck_binary_op_const BinaryOp.BitwiseAnd 6 Tipe.Uint 3 Tipe.Uint None = Ok (Const (Value.Int 2) Tipe.Bool) ∧
  typecheck_unary_op (λ _ _, None) UnaryOp.Not (const_expr 2 Tipe.Bool) None ∅ =
    Some (Ok (Const (Value.Int (two64 - 1)) Tipe.Bool)).
Proof. split; vm_compute; reflexivity. Qed.

(** Signed constants cannot be subtracted to a negative result, which at run time is no error. *)
Lemma signed_sub_rejected di :
  typecheck_binary_op_const BinaryOp.Minus 1 Tipe.Int 2 Tipe.Int None = type_error "underflow on substraction" None ∧
  computes BinaryOp.Minus di (Value.Int 1) (Value.Int 2) (mkView [] [] (Value.Int 0)) =
    Some (mkView [Value.Int (two256 - 1)] [] (Value.Int 0)).
Proof. split; vm_compute; reflexivity. Qed.
End witnesses.
