(* ===== verification/Typecheck.v ===== *)
(** * The type checker (src/src/compile/typecheck.rs)

    From the trees of Ast.v to those of TypedAst.v: [typecheck_expr],
    [typecheck_statement], [typecheck_codeblock], [typecheck_function] and
    [typecheck_top_level_decls].  One definition per kind of expression and
    statement, given the checkers of its parts ([check]).

    [TC A] is a computation on the stack of scopes (innermost first) that gives
    an [A], an error or a panic; its outer [None] is non-termination of the
    comparison of types, whose [fuel] is a parameter ([assignable] of Types.v).
    Tables that are only read form the section's context.  Of formatted error
    texts the fixed part is kept. *)

From Stdlib Require Import ZArith Lia.
From S2P Require Import Prelude U256 StringTab Pos Opcodes Crypto BufferTree Values TupleTree Types TypedAst Ast Link Codegen TypecheckOps.

Definition scopes_t : Type := list (string * option Tipe.t).
Definition TC (A : Type) : Type := scopes_t → option (outcome CompileError (A * scopes_t)).

#[global] Instance tc_ret : MRet TC := λ A a s, Some (Ok (a, s)).
#[global] Instance tc_bind : MBind TC := λ A B k m s,
  r ← m s;
  match r with
  | Ok (a, s) => k a s
  | Err e => Some (Err e)
  | Panic => Some Panic
  end.

Definition fail_tc {A} (description : string) (locations : list Location.t) : TC A :=
  λ _, Some (Err (CompileError_new "Typecheck Error" description locations)).
Definition fail_at {A} (description : string) (loc : option Location.t) : TC A := fail_tc description (option_list loc).
Definition panic {A} : TC A := λ _, Some Panic.

(** A computation that does not touch the scopes. *)
Definition lift {A} (o : option (outcome CompileError A)) : TC A := λ s,
  r ← o;
  Some (match r with
        | Ok a => Ok (a, s)
        | Err e => Err e
        | Panic => Panic
        end).

Definition type_table_t : Type := gmap nat Tipe.t.
Definition check : Type := type_table_t → TC TypeCheckedExpr.

(** [opt.map(|e| typecheck_expr(..)).transpose()?] *)
Definition option_tc {A B} (f : A → TC B) (o : option A) : TC (option B) :=
  match o with
  | Some a => b ← f a; mret (Some b)
  | None => mret None
  end.

(** Bindings inserted one after the other. *)
Definition extend (tbl : type_table_t) (bindings : list (nat * Tipe.t)) : type_table_t :=
  foldl (λ tbl b, <[ b.1 := b.2 ]> tbl) tbl bindings.

(** [TypeCheckedCodeBlock::get_type] *)
Definition block_type (b : TypeCheckedCodeBlock) : Tipe.t :=
  let '(mkBlock _ ret _) := b in
  match ret with
  | Some r => get_type r
  | None => Tipe.Void
  end.

Section typecheck.
Context `{Crypto} (biguint_parse_bytes : string → Z → option Z).
Context (fuel : nat) (type_tree : TypeTree).

Definition representation (t : Tipe.t) : TC Tipe.t := lift (get_representation type_tree t).

(** [t.assignable(&rhs, type_tree, HashSet::new())] *)
Definition assigns (t rhs : Tipe.t) : TC bool := λ s, b ← assignable fuel type_tree [] t rhs; Some (Ok (b, s)).

(** [mismatch_string]: whether there is a text *)
Definition mismatch_string (self rhs : Tipe.t) : option bool :=
  l ← get_representation type_tree self;
  r ← get_representation type_tree rhs;
  match l, r with
  | Ok _, Ok _ => m ← first_mismatch fuel type_tree [] self rhs; Some (match m with Some _ => true | None => false end)
  | _, _ => Some false
  end.

(** An error with the text of the mismatch, if there is one: [.expect(..)]
    panics without one, [.unwrap_or(..)] does not. *)
Definition fail_expect {A} (description : string) (self rhs : Tipe.t) (loc : option Location.t) : TC A := λ s,
  m ← mismatch_string self rhs;
  if (m : bool) then fail_at description loc s else Some Panic.
Definition fail_unwrap_or {A} (description : string) (self rhs : Tipe.t) (loc : option Location.t) : TC A := λ s,
  _ ← mismatch_string self rhs;
  fail_at description loc s.

Context (return_type : Tipe.t).
Context (global_vars : gmap nat (Tipe.t * nat)) (func_table : gmap nat Tipe.t)
        (undefinable_ids : gmap nat (option Location.t)).

(** ** Expressions *)
Definition kind_check : Type := type_table_t → TC TypeCheckedExprKind.

(** [Ok(TypeCheckedExpr { kind: .., debug_info })] *)
Definition with_debug_info (k : kind_check) (di : DebugInfo) : check := λ tbl, kind ← k tbl; mret (mkExpr kind di).

Definition tc_unary (op : UnaryOp.t) (sub : check) (loc : option Location.t) : kind_check := λ tbl,
  tc_sub ← sub tbl;
  lift (typecheck_unary_op biguint_parse_bytes op tc_sub loc type_tree).

Definition tc_binary (op : BinaryOp.t) (sub1 sub2 : check) (loc : option Location.t) : kind_check := λ tbl,
  tc_sub1 ← sub1 tbl;
  tc_sub2 ← sub2 tbl;
  lift (typecheck_binary_op op tc_sub1 tc_sub2 type_tree loc).

Definition tc_trinary (op : TrinaryOp.t) (sub1 sub2 sub3 : check) (loc : option Location.t) : kind_check := λ tbl,
  tc_sub1 ← sub1 tbl;
  tc_sub2 ← sub2 tbl;
  tc_sub3 ← sub3 tbl;
  lift (typecheck_trinary_op op tc_sub1 tc_sub2 tc_sub3 type_tree loc).

Definition tc_shortcut (c : TypeCheckedExpr → TypeCheckedExpr → TypeCheckedExprKind) (message : string)
    (sub1 sub2 : check) (loc : option Location.t) : kind_check := λ tbl,
  tc_sub1 ← sub1 tbl;
  tc_sub2 ← sub2 tbl;
  if type_eq (get_type tc_sub1) Tipe.Bool && type_eq (get_type tc_sub2) Tipe.Bool
  then mret (c tc_sub1 tc_sub2)
  else fail_at message loc.

Definition tc_shortcut_or : check → check → option Location.t → kind_check :=
  tc_shortcut ShortcutOr "operands to logical or must be boolean".
Definition tc_shortcut_and : check → check → option Location.t → kind_check :=
  tc_shortcut ShortcutAnd "operands to logical and must be boolean".

Definition tc_option_initializer (inner : check) : kind_check := λ tbl, e ← inner tbl; mret (Variant e).

Definition tc_variable_ref (name : nat) (loc : option Location.t) : kind_check := λ tbl,
  match func_table !! name with
  | Some t => mret (FuncRef name t)
  | None =>
      match tbl !! name with
      | Some t => mret (LocalVariableRef name t)
      | None =>
          match global_vars !! name with
          | Some (t, idx) => mret (GlobalVariableRef idx t)
          | None => fail_at "reference to unrecognized identifier" loc
          end
      end
  end.

Definition tc_tuple_ref (tref : check) (idx : Z) (loc : option Location.t) : kind_check := λ tbl,
  tc_sub ← tref tbl;
  match Uint256.to_usize idx with
  | None => panic
  | Some uidx =>
      match get_type tc_sub with
      | Tipe.Tuple tv =>
          match tv !! Z.to_nat uidx with
          | Some t => mret (TupleRef tc_sub idx t)
          | None => fail_at "tuple field access to non-existent field" loc
          end
      | _ => fail_at "tuple field access to non-tuple value" loc
      end
  end.

Definition tc_dot_ref (sref : check) (name : string) (loc : option Location.t) : kind_check := λ tbl,
  tc_sub ← sref tbl;
  t ← representation (get_type tc_sub);
  match t with
  | Tipe.Struct v =>
      match list_find (λ sf, sf_name sf = name) v with
      | Some (_, sf) =>
          t ← representation (get_type tc_sub);
          match get_struct_slot_by_name t name with
          | Some slot_num => mret (DotRef tc_sub slot_num (length v) (sf_tipe sf))
          | None => fail_at "Could not find name of struct field" loc
          end
      | None => fail_at "reference to non-existent struct field" loc
      end
  | _ => fail_at "struct field access to non-struct value" loc
  end.

Definition tc_constant (c : Ast.Constant) : kind_check := λ _,
  mret (match c with
        | Ast.CUint n => Const (Value.Int n) Tipe.Uint
        | Ast.CInt n => Const (Value.Int n) Tipe.Int
        | Ast.CBool b => Const (Value.Int (Uint256.from_bool b)) Tipe.Bool
        | Ast.COption o => Const (Ast.option_value o) (Ast.option_type_of o)
        | Ast.CNull => Const Value.none Tipe.Any
        end).

(** [for i in 0..args.len()] *)
Fixpoint tc_args (args : list check) (arg_types : list Tipe.t) (loc : option Location.t) (tbl : type_table_t)
    : TC (list TypeCheckedExpr) :=
  match args, arg_types with
  | arg :: args, arg_type :: arg_types =>
      tc_arg ← arg tbl;
      t ← representation (get_type tc_arg);
      ok ← assigns arg_type t;
      if (ok : bool) then rest ← tc_args args arg_types loc tbl; mret (tc_arg :: rest)
      else fail_unwrap_or "wrong argument type in function call" arg_type (get_type tc_arg) loc
  | _, _ => mret []
  end.

Definition tc_function_call (fexpr : check) (args : list check) (loc : option Location.t) : kind_check := λ tbl,
  tc_fexpr ← fexpr tbl;
  t ← representation (get_type tc_fexpr);
  match t with
  | Tipe.Func impure arg_types ret_type =>
      if Nat.eqb (length args) (length arg_types) then
        tc_args ← tc_args args arg_types loc tbl;
        mret (FunctionCall tc_fexpr tc_args ret_type (mkPropertiesList (negb impure)))
      else fail_at "wrong number of args passed to function" loc
  | _ => _ ← representation (get_type tc_fexpr); fail_at "function call to non-function value" loc
  end.

Definition tc_array_or_map_ref (array index : check) (loc : option Location.t) : kind_check := λ tbl,
  tc_arr ← array tbl;
  tc_idx ← index tbl;
  t ← representation (get_type tc_arr);
  match t with
  | Tipe.Array t =>
      if type_eq (get_type tc_idx) Tipe.Uint then mret (ArrayRef tc_arr tc_idx t)
      else fail_at "array index must be Uint" loc
  | Tipe.FixedArray t sz =>
      if type_eq (get_type tc_idx) Tipe.Uint then mret (FixedArrayRef tc_arr tc_idx sz t)
      else fail_at "fixedarray index must be uint" loc
  | Tipe.Map kt vt =>
      if type_eq (get_type tc_idx) kt then mret (MapRef tc_arr tc_idx (Tipe.Option vt))
      else fail_expect "invalid key value in map lookup" kt (get_type tc_idx) loc
  | _ => _ ← representation (get_type tc_arr); fail_at "fixedarray lookup in non-array type" loc
  end.

Definition tc_new_array (size_expr : check) (t : Tipe.t) : kind_check := λ tbl,
  e ← size_expr tbl;
  base ← representation t;
  mret (NewArray e base (Tipe.Array t)).

Definition tc_new_fixed_array (size : nat) (maybe_expr : option check) : kind_check := λ tbl,
  match maybe_expr with
  | Some expr =>
      tc_expr ← expr tbl;
      mret (NewFixedArray size (Some tc_expr) (Tipe.FixedArray (get_type tc_expr) size))
  | None => mret (NewFixedArray size None (Tipe.FixedArray Tipe.Any size))
  end.

(** [types.iter().any(|t| t.assignable(..))] *)
Fixpoint any_assigns (types : list Tipe.t) (rhs : Tipe.t) : TC bool :=
  match types with
  | [] => mret false
  | t :: types => ok ← assigns t rhs; if (ok : bool) then mret true else any_assigns types rhs
  end.

Definition tc_new_union (types : list Tipe.t) (expr : check) (loc : option Location.t) : kind_check := λ tbl,
  tc_expr ← expr tbl;
  ok ← any_assigns types (get_type tc_expr);
  if (ok : bool) then mret (Cast tc_expr (Tipe.Union types))
  else fail_at "Type is not a member of type union" loc.

Fixpoint tc_fields (fields : list (FieldInitializer check)) (tbl : type_table_t)
    : TC (list (FieldInitializer TypeCheckedExpr)) :=
  match fields with
  | [] => mret []
  | field :: fields =>
      tc_expr ← fi_value field tbl;
      rest ← tc_fields fields tbl;
      mret (mkFieldInitializer (fi_name field) tc_expr :: rest)
  end.

Definition tc_struct_initializer (fields : list (FieldInitializer check)) : kind_check := λ tbl,
  tc_fields ← tc_fields fields tbl;
  mret (StructInitializer tc_fields
          (Tipe.Struct ((λ f, mkStructField (fi_name f) (get_type (fi_value f))) <$> tc_fields))).

Fixpoint tc_list (exprs : list check) (tbl : type_table_t) : TC (list TypeCheckedExpr) :=
  match exprs with
  | [] => mret []
  | e :: exprs => tc_e ← e tbl; rest ← tc_list exprs tbl; mret (tc_e :: rest)
  end.

Definition tc_tuple (fields : list check) : kind_check := λ tbl,
  tc_fields ← tc_list fields tbl;
  mret (TupleExpr tc_fields (Tipe.Tuple (get_type <$> tc_fields))).

Definition tc_array_or_map_mod (arr index val : check) (loc : option Location.t) : kind_check := λ tbl,
  tc_arr ← arr tbl;
  tc_index ← index tbl;
  tc_val ← val tbl;
  t ← representation (get_type tc_arr);
  match t with
  | Tipe.Array t =>
      ok ← assigns t (get_type tc_val);
      if (ok : bool) then
        if type_eq (get_type tc_index) Tipe.Uint then mret (ArrayMod tc_arr tc_index tc_val (Tipe.Array t))
        else fail_at "array modifier requires uint index" loc
      else fail_expect "mismatched types in array modifier" t (get_type tc_val) loc
  | Tipe.FixedArray t sz =>
      if type_eq (get_type tc_index) Tipe.Uint
      then mret (FixedArrayMod tc_arr tc_index tc_val sz (Tipe.FixedArray t sz))
      else fail_at "array modifier requires uint index" loc
  | Tipe.Map kt vt =>
      if type_eq (get_type tc_index) kt then
        ok ← assigns vt (get_type tc_val);
        if (ok : bool) then mret (MapMod tc_arr tc_index tc_val (Tipe.Map kt vt))
        else fail_expect "invalid value type for map modifier" vt (get_type tc_val) loc
      else fail_expect "invalid key type for map modifier" kt (get_type tc_index) loc
  | _ => fail_at "[] modifier must operate on array or block" loc
  end.

Definition tc_struct_mod (struc : check) (name : string) (val : check) (loc : option Location.t) : kind_check := λ tbl,
  tc_struc ← struc tbl;
  tc_val ← val tbl;
  tcs_type ← representation (get_type tc_struc);
  match tcs_type with
  | Tipe.Struct fields =>
      match get_struct_slot_by_name tcs_type name with
      | Some index =>
          match fields !! index with
          | Some field =>
              ok ← assigns (sf_tipe field) (get_type tc_val);
              if (ok : bool) then mret (StructMod tc_struc index tc_val tcs_type)
              else fail_expect "incorrect value type in struct modifier" (sf_tipe field) (get_type tc_val) loc
          | None => panic
          end
      | None => fail_at "struct modifier must use valid field name" loc
      end
  | _ => fail_at "struct modifier must operate on a struct" loc
  end.

Definition tc_unsafe_cast (expr : check) (t : Tipe.t) : kind_check := λ tbl, e ← expr tbl; mret (Cast e t).

Definition tc_asm (ret_type : Tipe.t) (insns : list (Instruction.t Opcode.t)) (args : list check)
    (loc : option Location.t) : kind_check := λ tbl,
  if type_eq ret_type Tipe.Void then fail_at "asm expression cannot return void" loc
  else tc_args ← tc_list args tbl; mret (Asm ret_type insns tc_args).

Definition tc_try (inner : check) (loc : option Location.t) : kind_check := λ tbl,
  match return_type with
  | Tipe.Option _ | Tipe.Any =>
      res ← inner tbl;
      t ← representation (get_type res);
      match t with
      | Tipe.Option t => mret (Try res t)
      | _ => fail_at "Try expression requires option type" loc
      end
  | _ => fail_at "Can only use ? operator in functions that can return option" loc
  end.

Definition tc_set_gas (expr : check) (loc : option Location.t) : kind_check := λ tbl,
  e ← expr tbl;
  if type_eq (get_type e) Tipe.Uint then mret (SetGas e) else fail_at "SetGas(_) requires a uint" loc.

(** The type of an [if] with the blocks' types: one that the other is a subtype of. *)
Definition branch_type (block_type else_type : Tipe.t) (loc : option Location.t) : TC Tipe.t :=
  ok ← assigns block_type else_type;
  if (ok : bool) then mret block_type
  else
    ok ← assigns else_type block_type;
    if (ok : bool) then mret else_type else fail_at "Mismatch of if and else types found" loc.

Definition else_type (o : option TypeCheckedCodeBlock) : Tipe.t :=
  match o with
  | Some b => block_type b
  | None => Tipe.Void
  end.

Definition block_check : Type := type_table_t → TC TypeCheckedCodeBlock.

Definition tc_if (cond : check) (block : block_check) (else_block : option block_check) (loc : option Location.t)
    : kind_check := λ tbl,
  cond_expr ← cond tbl;
  block ← block tbl;
  else_block ← option_tc (λ b : block_check, b tbl) else_block;
  if type_eq (get_type cond_expr) Tipe.Bool then
    if_type ← branch_type (block_type block) (else_type else_block) loc;
    mret (If cond_expr block else_block if_type)
  else fail_at "Condition of if expression must be bool" loc.

Definition tc_if_let (l : nat) (r : check) (if_block : block_check) (else_block : option block_check)
    (loc : option Location.t) : kind_check := λ tbl,
  tcr ← r tbl;
  match get_type tcr with
  | Tipe.Option tct =>
      checked_block ← if_block (<[ l := tct ]> tbl);
      checked_else ← option_tc (λ b : block_check, b tbl) else_block;
      if_let_type ← branch_type (block_type checked_block) (else_type checked_else) loc;
      mret (IfLet l tcr checked_block checked_else if_let_type)
  | _ => fail_at "Expected option type" loc
  end.

Definition tc_union_cast (expr : check) (t : Tipe.t) (loc : option Location.t) : kind_check := λ tbl,
  tc_expr ← expr tbl;
  r ← representation (get_type tc_expr);
  match r with
  | Tipe.Union types =>
      if existsb (λ t', type_eq t' t) types then mret (Cast tc_expr t)
      else fail_at "Type is not a member" loc
  | _ => fail_at "Tried to unioncast from non-union type" loc
  end.

(** ** Statements *)

(** The statement and the variables it binds. *)
Definition stat_kind_check : Type := type_table_t → TC (TypeCheckedStatementKind * list (nat * Tipe.t)).
Definition stat_check : Type := type_table_t → TC (TypeCheckedStatement * list (nat * Tipe.t)).

Definition tc_return_void (loc : option Location.t) : stat_kind_check := λ _,
  ok ← assigns Tipe.Void return_type;
  if (ok : bool) then mret (SReturnVoid, [])
  else fail_at "Tried to return without type in function that returns a value" loc.

Definition tc_return (expr : check) (loc : option Location.t) : stat_kind_check := λ tbl,
  tc_expr ← expr tbl;
  ok ← assigns return_type (get_type tc_expr);
  if (ok : bool) then mret (SReturn tc_expr, [])
  else fail_unwrap_or "return statement has wrong type" return_type (get_type tc_expr) loc.

(** [te.map(|te| te.get_type()).unwrap_or(Type::Tuple(vec![]))] *)
Definition break_type (te : option TypeCheckedExpr) : Tipe.t :=
  match te with
  | Some e => get_type e
  | None => Tipe.Tuple []
  end.

(** [scopes.iter_mut().rev().find(|(s, _)| key == *s)] *)
Definition break_scope (key : string) (te : option TypeCheckedExpr) (loc : option Location.t) : TC unit := λ scopes,
  match list_find (λ s, s.1 = key) scopes with
  | None => fail_at "No valid scope to break from" loc scopes
  | Some (_, (_, None)) => Some (Ok ((), scopes))
  | Some (i, (s, Some t)) =>
      if type_eq t (break_type te) then Some (Ok ((), <[ i := (s, Some (break_type te)) ]> scopes))
      else fail_expect "mismatched types in break statement" (break_type te) t loc scopes
  end.

Definition scope_key (scope : option string) : string := match scope with Some s => s | None => "_" end.

(** The expression is checked twice. *)
Definition tc_break (exp : option check) (scope : option string) (loc : option Location.t) : stat_kind_check := λ tbl,
  te ← option_tc (λ e : check, e tbl) exp;
  _ ← break_scope (scope_key scope) te loc;
  te ← option_tc (λ e : check, e tbl) exp;
  mret (SBreak te (scope_key scope), []).

Fixpoint tc_patterns (tvec : list Tipe.t) (patterns : list Ast.Pattern) (loc : option Location.t)
    : outcome CompileError (list MatchPattern * list (nat * Tipe.t)) :=
  match tvec, patterns with
  | rhs_type :: tvec, pat :: patterns =>
      if type_eq rhs_type Tipe.Void then type_error "attempted to assign void in tuple binding" loc
      else
        let di := Ast.pattern_debug_info pat in
        match Ast.pattern_kind pat with
        | Ast.PBind name =>
            '(tc_pats, bindings) ← tc_patterns tvec patterns loc;
            Ok (new_bind name di rhs_type :: tc_pats, (name, rhs_type) :: bindings)
        | Ast.PAssign name =>
            '(tc_pats, bindings) ← tc_patterns tvec patterns loc;
            Ok (mkMatchPattern (PAssign name) di rhs_type :: tc_pats, bindings)
        | Ast.PTuple _ => type_error "nested pattern not yet supported in let" loc
        end
  | _, _ => Ok ([], [])
  end.

Definition typecheck_patvec (rhs_type : Tipe.t) (patterns : list Ast.Pattern) (loc : option Location.t)
    : outcome CompileError (list MatchPattern * list (nat * Tipe.t)) :=
  match rhs_type with
  | Tipe.Tuple tvec =>
      if Nat.eqb (length tvec) (length patterns) then tc_patterns tvec patterns loc
      else type_error "tuple-match let must receive tuple of equal size" loc
  | _ => type_error "tuple-match let must receive tuple value" loc
  end.

(** [for (id, _, _) in pat.collect_identifiers()] *)
Fixpoint check_definable (ids : list (nat * bool * DebugInfo)) (loc : option Location.t) : TC unit :=
  match ids with
  | [] => mret ()
  | (id, _, _) :: ids =>
      match undefinable_ids !! id with
      | Some location => fail_tc "Variable has the same name as a top-level symbol" (option_list location ++ option_list loc)
      | None => check_definable ids loc
      end
  end.

Definition tc_let (pat : Ast.Pattern) (expr : check) (loc : option Location.t) : stat_kind_check := λ tbl,
  tc_expr ← expr tbl;
  let tce_type := get_type tc_expr in
  if type_eq tce_type Tipe.Void then fail_at "Assignment of void value to local variable" loc
  else
    r ← (match Ast.pattern_kind pat with
         | Ast.PBind name =>
             mret (SLet (new_bind name (Ast.pattern_debug_info pat) tce_type) tc_expr, [(name, tce_type)])
         | Ast.PAssign _ => panic
         | Ast.PTuple pats =>
             '(tc_pats, bindings) ← lift (Some (typecheck_patvec tce_type pats loc));
             mret (SLet (new_tuple tc_pats (Ast.pattern_debug_info pat) tce_type) tc_expr, bindings)
         end);
    _ ← check_definable (Ast.identifiers pat) loc;
    mret r.

Definition tc_assign (name : nat) (expr : check) (loc : option Location.t) : stat_kind_check := λ tbl,
  tc_expr ← expr tbl;
  match tbl !! name with
  | Some var_type =>
      ok ← assigns var_type (get_type tc_expr);
      if (ok : bool) then mret (SAssignLocal name tc_expr, [])
      else fail_expect "mismatched types in assignment statement" var_type (get_type tc_expr) loc
  | None =>
      match global_vars !! name with
      | Some (var_type, idx) =>
          ok ← assigns var_type (get_type tc_expr);
          if (ok : bool) then mret (SAssignGlobal idx tc_expr, [])
          else fail_expect "mismatched types in assignment statement" var_type (get_type tc_expr) loc
      | None => fail_at "assignment to non-existent variable" loc
      end
  end.

Definition stats_check : Type := type_table_t → TC (list TypeCheckedStatement).

Definition tc_while (cond : check) (body : stats_check) (loc : option Location.t) : stat_kind_check := λ tbl,
  tc_cond ← cond tbl;
  match get_type tc_cond with
  | Tipe.Bool => tc_body ← body tbl; mret (SWhile tc_cond tc_body, [])
  | _ => fail_at "while condition must be bool" loc
  end.

Definition tc_asm_stat (insns : list (Instruction.t Opcode.t)) (args : list check) : stat_kind_check := λ tbl,
  tc_args ← tc_list args tbl;
  mret (SAsm insns tc_args, []).

Definition tc_assert (expr : check) (loc : option Location.t) : stat_kind_check := λ tbl,
  tce ← expr tbl;
  match get_type tce with
  | Tipe.Tuple [t0; _] =>
      if type_eq t0 Tipe.Bool then mret (SAssert tce, []) else fail_at "assert condition must be of type (bool, any)" loc
  | _ => fail_at "assert condition must be of type (bool, any)" loc
  end.

(** [typecheck_statement_sequence]: the bindings of a statement are visible in the next ones. *)
Definition sequence_loop {A} (f : A → stat_check) :=
  fix go (stats : list A) (inner_type_table : type_table_t) : TC (list TypeCheckedStatement * type_table_t) :=
    match stats with
    | [] => mret ([], inner_type_table)
    | stat :: stats =>
        '(tcs, bindings) ← f stat inner_type_table;
        '(output, tbl) ← go stats (extend inner_type_table bindings);
        mret (tcs :: output, tbl)
    end.

Definition statement_sequence {A} (f : A → stat_check) (stats : list A) : stats_check := λ tbl,
  '(output, _) ← sequence_loop f stats tbl; mret output.

(** [scopes.push(("_".to_string(), None))]; the scope is not removed. *)
Definition push_scope : TC unit := λ scopes, Some (Ok ((), ("_", None) :: scopes)).

Definition codeblock_check {A B} (f : A → stat_check) (e : B → check) (body : list A) (ret_expr : option B) : block_check :=
  λ tbl,
  _ ← push_scope;
  '(output, inner_type_table) ← sequence_loop f body tbl;
  ret ← option_tc (λ x, e x inner_type_table) ret_expr;
  mret (mkBlock output ret None).

(** ** All of them *)
Fixpoint typecheck_expr (expr : Ast.Expr) : check :=
  let '(Ast.mkExpr kind debug_info) := expr in
  let loc := location debug_info in
  with_debug_info
    (match kind with
     | Ast.NewBuffer => λ _, mret NewBuffer
     | Ast.Error => λ _, mret Error
     | Ast.UnaryOp op e => tc_unary op (typecheck_expr e) loc
     | Ast.Binary op e1 e2 => tc_binary op (typecheck_expr e1) (typecheck_expr e2) loc
     | Ast.Trinary op e1 e2 e3 => tc_trinary op (typecheck_expr e1) (typecheck_expr e2) (typecheck_expr e3) loc
     | Ast.ShortcutOr e1 e2 => tc_shortcut_or (typecheck_expr e1) (typecheck_expr e2) loc
     | Ast.ShortcutAnd e1 e2 => tc_shortcut_and (typecheck_expr e1) (typecheck_expr e2) loc
     | Ast.OptionInitializer e => tc_option_initializer (typecheck_expr e)
     | Ast.VariableRef name => tc_variable_ref name loc
     | Ast.TupleRef e idx => tc_tuple_ref (typecheck_expr e) idx loc
     | Ast.DotRef e name => tc_dot_ref (typecheck_expr e) name loc
     | Ast.Const c => tc_constant c
     | Ast.FunctionCall f args => tc_function_call (typecheck_expr f) (map typecheck_expr args) loc
     | Ast.CodeBlockExpr b => λ tbl, b ← typecheck_codeblock b tbl; mret (CodeBlock b)
     | Ast.ArrayOrMapRef e1 e2 => tc_array_or_map_ref (typecheck_expr e1) (typecheck_expr e2) loc
     | Ast.NewArray e t => tc_new_array (typecheck_expr e) t
     | Ast.NewFixedArray sz o => tc_new_fixed_array sz (match o with Some e => Some (typecheck_expr e) | None => None end)
     | Ast.NewMap k v => λ _, mret (NewMap (Tipe.Map k v))
     | Ast.NewUnion types e => tc_new_union types (typecheck_expr e) loc
     | Ast.StructInitializer fields =>
         tc_struct_initializer (map (λ f, mkFieldInitializer (fi_name f) (typecheck_expr (fi_value f))) fields)
     | Ast.Tuple fields => tc_tuple (map typecheck_expr fields)
     | Ast.ArrayOrMapMod e1 e2 e3 => tc_array_or_map_mod (typecheck_expr e1) (typecheck_expr e2) (typecheck_expr e3) loc
     | Ast.StructMod e name v => tc_struct_mod (typecheck_expr e) name (typecheck_expr v) loc
     | Ast.UnsafeCast e t => tc_unsafe_cast (typecheck_expr e) t
     | Ast.Asm t insns args => tc_asm t insns (map typecheck_expr args) loc
     | Ast.Try e => tc_try (typecheck_expr e) loc
     | Ast.GetGas => λ _, mret GetGas
     | Ast.SetGas e => tc_set_gas (typecheck_expr e) loc
     | Ast.If cond b o =>
         tc_if (typecheck_expr cond) (typecheck_codeblock b)
               (match o with Some b => Some (typecheck_codeblock b) | None => None end) loc
     | Ast.IfLet name e b o =>
         tc_if_let name (typecheck_expr e) (typecheck_codeblock b)
                   (match o with Some b => Some (typecheck_codeblock b) | None => None end) loc
     | Ast.Loop body => λ tbl, b ← statement_sequence typecheck_statement body tbl; mret (Loop b)
     | Ast.UnionCast e t => tc_union_cast (typecheck_expr e) t loc
     end) debug_info
with typecheck_statement (statement : Ast.Statement) : stat_check :=
  let '(Ast.mkStatement kind debug_info) := statement in
  let loc := location debug_info in
  λ tbl,
  '(stat, binds) ←
    (match kind with
     | Ast.SNoop => λ _, mret (SNoop, [])
     | Ast.SReturnVoid => tc_return_void loc
     | Ast.SReturn e => tc_return (typecheck_expr e) loc
     | Ast.SBreak o scope => tc_break (match o with Some e => Some (typecheck_expr e) | None => None end) scope loc
     | Ast.SExpression e => λ tbl, e ← typecheck_expr e tbl; mret (SExpression e, [])
     | Ast.SLet pat e => tc_let pat (typecheck_expr e) loc
     | Ast.SAssign name e => tc_assign name (typecheck_expr e) loc
     | Ast.SWhile cond body => tc_while (typecheck_expr cond) (statement_sequence typecheck_statement body) loc
     | Ast.SAsm insns args => tc_asm_stat insns (map typecheck_expr args)
     | Ast.SDebugPrint e => λ tbl, e ← typecheck_expr e tbl; mret (SDebugPrint e, [])
     | Ast.SAssert e => tc_assert (typecheck_expr e) loc
     end) tbl;
  mret (mkStatement stat debug_info, binds)
with typecheck_codeblock (block : Ast.CodeBlock) : block_check :=
  let '(Ast.mkBlock body ret_expr) := block in
  codeblock_check typecheck_statement typecheck_expr body ret_expr.

Definition typecheck_statement_sequence (statements : list Ast.Statement) : stats_check :=
  statement_sequence typecheck_statement statements.
End typecheck.

(** ** Functions *)
Section functions.
Context `{Crypto} (biguint_parse_bytes : string → Z → option Z) (fuel : nat) (string_table : StringTable.t).

#[local] Abbreviation tc_res A := (option (outcome CompileError A)).

(** An error whose text has names from the string table. *)
Definition named_error {A} (description : string) (ids : list nat) (locations : list Location.t) : tc_res A :=
  Some (match mapM (StringTable.name_from_id string_table) ids with
        | Some _ => Err (CompileError_new "Typecheck Error" description locations)
        | None => Panic
        end).

(** [if fd.ret_type != Type::Void { .. }]: the body is not empty and ends with a return. *)
Definition check_last_return {A} (fd : Ast.Func) (k : tc_res A) : tc_res A :=
  if type_eq (Ast.ret_type fd) Tipe.Void then k
  else
    match list.last (Ast.code fd) with
    | None => named_error "Func never returns" [Ast.name fd] (option_list (location (Ast.debug_info fd)))
    | Some stat =>
        match Ast.statement_kind stat with
        | Ast.SReturn _ => k
        | _ => named_error "Func's last statement is not a return" [Ast.name fd]
                 (option_list (location (Ast.debug_info fd)) ++ option_list (location (Ast.statement_debug_info stat)))
        end
    end.

(** [for arg in fd.args.iter()]: the table [hm] of the arguments *)
Fixpoint check_func_args (name : nat) (args : list FuncArg) (type_tree : TypeTree)
    (undefinable_ids : gmap nat (option Location.t)) (hm : type_table_t) : tc_res type_table_t :=
  match args with
  | [] => Some (Ok hm)
  | arg :: args =>
      r ← get_representation type_tree (fa_tipe arg);
      match r with
      | Err _ => named_error "Unknown type for function argument" [fa_name arg] (option_list (location (fa_debug_info arg)))
      | Panic => Some Panic
      | Ok _ =>
          match undefinable_ids !! fa_name arg with
          | Some location_option =>
              named_error "Func's argument has the same name as a top-level symbol" [name; fa_name arg]
                (option_list location_option ++ option_list (location (fa_debug_info arg)))
          | None => check_func_args name args type_tree undefinable_ids (<[ fa_name arg := fa_tipe arg ]> hm)
          end
      end
  end.

(** The function and the table of names that may not be defined again. *)
Definition typecheck_function (fd : Ast.Func) (type_table : type_table_t) (global_vars : gmap nat (Tipe.t * nat))
    (func_table : gmap nat Tipe.t) (type_tree : TypeTree) (undefinable_ids : gmap nat (option Location.t))
    : tc_res (TypeCheckedFunc * gmap nat (option Location.t)) :=
  check_last_return fd
    (match undefinable_ids !! Ast.name fd with
     | Some location_option =>
         named_error "Func has the same name as another top-level symbol" [Ast.name fd]
           (option_list location_option ++ option_list (location (Ast.debug_info fd)))
     | None =>
         let undefinable_ids := <[ Ast.name fd := location (Ast.debug_info fd) ]> undefinable_ids in
         hm ← check_func_args (Ast.name fd) (Ast.args fd) type_tree undefinable_ids ∅;
         match hm with
         | Err e => Some (Err e)
         | Panic => Some Panic
         | Ok hm =>
             r ← typecheck_statement_sequence biguint_parse_bytes fuel type_tree (Ast.ret_type fd) global_vars func_table
                   undefinable_ids (Ast.code fd) (hm ∪ type_table) [];
             Some (match r with
                   | Ok (tc_stats, _) =>
                       Ok (mkFunc (Ast.name fd) (Ast.args fd) (Ast.ret_type fd) tc_stats (Ast.tipe fd) (Ast.kind fd)
                             (Ast.debug_info fd) (Ast.properties fd), undefinable_ids)
                   | Err e => Err e
                   | Panic => Panic
                   end)
         end
     end).

(** ** Modules *)

(** [funcs.iter()] is in the order of the ids. *)
Fixpoint typecheck_functions (funcs : list (nat * Ast.Func)) (type_table : type_table_t)
    (global_vars : gmap nat (Tipe.t * nat)) (func_table : gmap nat Tipe.t) (type_tree : TypeTree)
    (undefinable_ids : gmap nat (option Location.t)) (exported_funcs : list ExportedFunc)
    (checked_funcs : list (nat * TypeCheckedFunc)) : tc_res (list ExportedFunc * list (nat * TypeCheckedFunc)) :=
  match funcs with
  | [] => Some (Ok (exported_funcs, checked_funcs))
  | (id, func) :: funcs =>
      r ← typecheck_function func type_table global_vars func_table type_tree undefinable_ids;
      match r with
      | Err e => Some (Err e)
      | Panic => Some Panic
      | Ok (f, undefinable_ids) =>
          match Ast.kind func with
          | Public =>
              match ExportedFunc_new (f_name f) (Label.Func (f_name f)) (f_tipe f) string_table with
              | Some ef =>
                  typecheck_functions funcs type_table global_vars func_table type_tree undefinable_ids
                    (exported_funcs ++ [ef]) (btree_insert id f checked_funcs)
              | None => Some Panic
              end
          | Private =>
              typecheck_functions funcs type_table global_vars func_table type_tree undefinable_ids exported_funcs
                (btree_insert id f checked_funcs)
          end
      end
  end.

(** [global_vars.swap(0, var)] for the first variable named [__fixedLocationGlobal] *)
Definition move_fixed_global (global_vars : list GlobalVarDecl) : list GlobalVarDecl :=
  match list_find (λ v, gv_name v = "__fixedLocationGlobal") global_vars, head global_vars with
  | Some (i, v), Some first => <[ 0 := v ]> (<[ i := first ]> global_vars)
  | _, _ => global_vars
  end.

Fixpoint global_vars_map (idx : nat) (global_vars : list GlobalVarDecl) (m : gmap nat (Tipe.t * nat))
    : gmap nat (Tipe.t * nat) :=
  match global_vars with
  | [] => m
  | var :: global_vars => global_vars_map (S idx) global_vars (<[ Z.to_nat (gv_name_id var) := (gv_tipe var, idx) ]> m)
  end.

(** The names of the imports; a name that is not in the string table is a panic. *)
Fixpoint import_ids (imports : list Ast.Import) (m : gmap nat (option Location.t)) : option (gmap nat (option Location.t)) :=
  match imports with
  | [] => Some m
  | import :: imports =>
      id ← StringTable.get_if_exists string_table (Ast.i_name import);
      import_ids imports (<[ id := Ast.i_location import ]> m)
  end.

Definition typecheck_top_level_decls (funcs : list (nat * Ast.Func)) (named_types : gmap nat Tipe.t)
    (global_vars : list GlobalVarDecl) (imports : list Ast.Import) (func_map : gmap nat Tipe.t)
    (checked_funcs : list (nat * TypeCheckedFunc)) (type_tree : TypeTree)
    : tc_res (list ExportedFunc * list (nat * TypeCheckedFunc) * list GlobalVarDecl) :=
  let global_vars := move_fixed_global global_vars in
  match import_ids imports ∅ with
  | None => Some Panic
  | Some undefinable_ids =>
      r ← typecheck_functions funcs named_types (global_vars_map 0 global_vars ∅) func_map type_tree undefinable_ids []
            checked_funcs;
      Some ('(exported_funcs, checked_funcs) ← r; Ok (exported_funcs, checked_funcs, global_vars))
  end.
End functions.

(** ** Declarations *)
Definition builtin_func_decls : list Ast.Import :=
  [Ast.new_builtin "array" "builtin_arrayNew"; Ast.new_builtin "array" "builtin_arrayGet";
   Ast.new_builtin "array" "builtin_arraySet"; Ast.new_builtin "kvs" "builtin_kvsNew";
   Ast.new_builtin "kvs" "builtin_kvsGet"; Ast.new_builtin "kvs" "builtin_kvsSet"].

Record sorted_decls := mkSorted {
  sd_imports : list Ast.Import;
  sd_funcs : list (nat * Ast.Func);
  sd_named_types : gmap nat Tipe.t;
  sd_global_vars : list GlobalVarDecl;
  sd_func_table : gmap nat Tipe.t;
}.

Definition sort_decl (d : sorted_decls) (decl : Ast.TopLevelDecl) : sorted_decls :=
  match decl with
  | Ast.UseDecl ud => mkSorted (sd_imports d ++ [ud]) (sd_funcs d) (sd_named_types d) (sd_global_vars d) (sd_func_table d)
  | Ast.FuncDecl fd =>
      mkSorted (sd_imports d) (btree_insert (Ast.name fd) fd (sd_funcs d)) (sd_named_types d) (sd_global_vars d)
               (<[ Ast.name fd := Ast.tipe fd ]> (sd_func_table d))
  | Ast.TypeDecl name t =>
      mkSorted (sd_imports d) (sd_funcs d) (<[ name := t ]> (sd_named_types d)) (sd_global_vars d) (sd_func_table d)
  | Ast.VarDecl vd => mkSorted (sd_imports d) (sd_funcs d) (sd_named_types d) (sd_global_vars d ++ [vd]) (sd_func_table d)
  | Ast.ConstDecl => d
  end.

Definition sort_top_level_decls (decls : list Ast.TopLevelDecl) (file_path : list string) (builtins : bool) : sorted_decls :=
  foldl sort_decl
    (mkSorted (if builtins then filter (λ imp, Ast.i_path imp ≠ file_path) builtin_func_decls else []) [] ∅ [] ∅) decls.
