(* ===== verification/FixedArray.v ===== *)
(** * Fixed-size arrays (src/src/compile/codegen.rs, src/src/link/xformcode.rs, src/src/compile/ast.rs)

    A fixed-size array is a tree of tuples of eight.  Three places agree on its
    layout without sharing code: the code generator, which builds arrays and
    updates them ([fill_tuple], [fixed_array_levels],
    [codegen_fixed_array_mod_2]), the linker, which reads them ([array_code]),
    and the default values of types ([wrap_chunks]).  [array_of] is that
    layout: element [i] of an array of more than eight elements lies in slot
    [i mod 8], at index [i / 8] of the array there.  The theorems show that each
    of the three respects it. *)

From Stdlib Require Import ZArith Lia.
From S2P Require Import Prelude U256 StringTab Pos Opcodes Crypto BufferTree Values StraightLine TupleTree Types TypedAst Codegen.

(** The size of the parts of an array of [size] elements. *)
Definition part_size (size : nat) : nat := (size + (TUPLE_SIZE - 1)) / TUPLE_SIZE.

#[warnings="-register-all"]
Inductive array_of : nat → Value.t → (nat → Value.t) → Prop :=
| array_leaf size l f :
    size <= TUPLE_SIZE → length l = TUPLE_SIZE → (∀ i x, l !! i = Some x → x = f i) →
    array_of size (Value.Tuple l) f
| array_node size l f :
    TUPLE_SIZE < size → length l = TUPLE_SIZE →
    (∀ j v, l !! j = Some v → array_of (part_size size) v (λ q, f (TUPLE_SIZE * q + j))) →
    array_of size (Value.Tuple l) f.

(** The value [v] is an array with the elements [xs]. *)
Definition is_array (v : Value.t) (xs : list Value.t) : Prop :=
  ∃ f, array_of (length xs) v f ∧ ∀ i, i < length xs → xs !! i = Some (f i).

Lemma part_size_lt size : TUPLE_SIZE < size → part_size size < size.
Proof. unfold part_size, TUPLE_SIZE. intros. apply Nat.Div0.div_lt_upper_bound. lia. Qed.

Lemma part_index size i : i < size → i / TUPLE_SIZE < part_size size.
Proof.
  unfold part_size, TUPLE_SIZE. intros Hi. apply Nat.Div0.div_lt_upper_bound.
  pose proof (Nat.div_mod (size + (8 - 1)) 8 ltac:(done)). pose proof (Nat.mod_upper_bound (size + (8 - 1)) 8 ltac:(done)). lia.
Qed.

Lemma index_split i : TUPLE_SIZE * (i / TUPLE_SIZE) + i mod TUPLE_SIZE = i.
Proof. symmetry. by apply Nat.div_mod. Qed.

Lemma slot_bound i : i mod TUPLE_SIZE < TUPLE_SIZE.
Proof. by apply Nat.mod_upper_bound. Qed.

Lemma array_of_ext size v f g : (∀ i, f i = g i) → array_of size v f → array_of size v g.
Proof.
  intros Hfg Hv. revert g Hfg. induction Hv as [size l f Hs Hl Hx|size l f Hs Hl Hx IH]; intros g Hfg.
  - apply array_leaf; try done. intros i x Hi. rewrite <- Hfg. eauto.
  - apply array_node; try done. intros j v Hj. apply (IH j v Hj). intros q. apply Hfg.
Qed.

(** ** Reading *)
Lemma div_slot i : (Z.of_nat i / Z.of_nat TUPLE_SIZE)%Z = Z.of_nat (i / TUPLE_SIZE).
Proof. symmetry. apply Nat2Z.inj_div. Qed.
Lemma mod_slot i : (Z.of_nat i mod Z.of_nat TUPLE_SIZE)%Z = Z.of_nat (i mod TUPLE_SIZE).
Proof. symmetry. apply Nat2Z.inj_mod. Qed.

Lemma modulo_slot i : Uint256.modulo (Z.of_nat i) (Z.of_nat TUPLE_SIZE) = Some (Z.of_nat (i mod TUPLE_SIZE)).
Proof. unfold Uint256.modulo. rewrite mod_slot. reflexivity. Qed.
Lemma div_slot' i : Uint256.div (Z.of_nat i) (Z.of_nat TUPLE_SIZE) = Some (Z.of_nat (i / TUPLE_SIZE)).
Proof. unfold Uint256.div. rewrite div_slot. reflexivity. Qed.

Lemma mod_op i s a r : view_op AVMOpcode.Mod (mkView (slot_val i :: slot_val TUPLE_SIZE :: s) a r) =
  Some (mkView (slot_val (i mod TUPLE_SIZE) :: s) a r).
Proof.
  unfold slot_val, Uint256.from_usize. cbn [view_op]. unfold view_alu. cbn [v_stack alu v_aux v_reg]. by rewrite modulo_slot.
Qed.

Lemma div_op i s a r : view_op AVMOpcode.Div (mkView (slot_val i :: slot_val TUPLE_SIZE :: s) a r) =
  Some (mkView (slot_val (i / TUPLE_SIZE) :: s) a r).
Proof.
  unfold slot_val, Uint256.from_usize. cbn [view_op]. unfold view_alu. cbn [v_stack alu v_aux v_reg]. by rewrite div_slot'.
Qed.

Lemma small_slot {A} (l : list A) j x : j < TUPLE_SIZE → l !! j = Some x →
  (Z.of_nat j <? two64)%Z = true ∧ (Z.of_nat j <? Z.of_nat (length l))%Z = true ∧ (0 <=? Z.of_nat j)%Z = true.
Proof.
  intros Hb Hj. apply lookup_lt_Some in Hj. unfold TUPLE_SIZE, two64 in *.
  split_and!; [apply Z.ltb_lt|apply Z.ltb_lt|apply Z.leb_le]; lia.
Qed.

Lemma tget_slot l j x s a r : j < TUPLE_SIZE → l !! j = Some x →
  view_op AVMOpcode.Tget (mkView (slot_val j :: Value.Tuple l :: s) a r) = Some (mkView (x :: s) a r).
Proof.
  intros Hl Hj. destruct (small_slot l j x Hl Hj) as (H1 & H2 & H3). unfold slot_val, Uint256.from_usize.
  cbn [view_op]. unfold lookup_z. rewrite H1, H2, H3. cbn. by rewrite Nat2Z.id, Hj.
Qed.

Lemma tset_slot l j x y s a r : j < TUPLE_SIZE → l !! j = Some x →
  view_op AVMOpcode.Tset (mkView (slot_val j :: Value.Tuple l :: y :: s) a r) =
  Some (mkView (Value.Tuple (<[j := y]> l) :: s) a r).
Proof.
  intros Hl Hj. destruct (small_slot l j x Hl Hj) as (H1 & H2 & H3). unfold slot_val, Uint256.from_usize.
  cbn [view_op]. unfold insert_z, Value.new_tuple. rewrite H1, H2, H3. cbn. by rewrite Nat2Z.id.
Qed.

(** The slot an index selects. *)
Lemma slot_at (l : list Value.t) i : length l = TUPLE_SIZE → ∃ v, l !! (i mod TUPLE_SIZE) = Some v.
Proof. intros Hl. apply lookup_lt_is_Some. rewrite Hl. apply slot_bound. Qed.

Lemma array_level_ok l i v di s a r : l !! (i mod TUPLE_SIZE) = Some v →
  run_code (array_level di) (mkView (slot_val i :: Value.Tuple l :: s) a r) =
  Some (mkView (slot_val (i / TUPLE_SIZE) :: v :: s) a r).
Proof.
  intros Hv. unfold array_level. erewrite run_op_imm by reflexivity.
  erewrite run_op by apply mod_op.
  erewrite run_op by reflexivity. erewrite run_op_imm by reflexivity.
  erewrite run_op by apply div_op.
  do 2 (erewrite run_op by reflexivity).
  erewrite run_op by (apply (tget_slot l _ v); [apply slot_bound|done]). by erewrite run_op by reflexivity.
Qed.

Lemma array_code_ok fuel : ∀ size v f i di s a r, size < fuel → i < size → array_of size v f →
  ∃ c, array_code fuel size di = Some c ∧
    run_code c (mkView (slot_val i :: v :: s) a r) = Some (mkView (f i :: s) a r).
Proof.
  induction fuel as [|fuel IH]; intros size v f i di s a r Hf Hi Hv; [lia|].
  cbn [array_code]. inversion Hv as [? l ? Hs Hl Hx|? l ? Hs Hl Hx]; subst.
  - destruct (Nat.ltb_spec TUPLE_SIZE size); [lia|]. eexists; split; [done|].
    destruct (lookup_lt_is_Some_2 l i) as [x Hxi]; [lia|]. rewrite <- (Hx i x Hxi).
    by erewrite run_op by (apply (tget_slot l _ x); [lia|done]).
  - apply Nat.ltb_lt in Hs as Hs'. rewrite Hs'. destruct (slot_at l i Hl) as [w Hw].
    destruct (IH (part_size size) w _ (i / TUPLE_SIZE) di s a r ltac:(pose proof (part_size_lt _ Hs); lia)
                (part_index _ _ Hi) (Hx _ _ Hw)) as (c & Hc & Hrun).
    fold (part_size size). rewrite Hc. cbn [mbind option_bind]. eexists. split; [done|].
    erewrite run_code_app by (by apply array_level_ok).
    by rewrite Hrun, index_split.
Qed.

(** ** Writing *)

(** The function [f] with [y] at [i]. *)
Definition changed (f : nat → Value.t) (i : nat) (y : Value.t) : nat → Value.t := λ k, if Nat.eqb k i then y else f k.

(** Stack [idx tuple val], with the slot and the tuple kept aside. *)
Lemma mod_enter l i v di y s a r rest : l !! (i mod TUPLE_SIZE) = Some v →
  run_code ([op_imm AVMOpcode.Dup2 (slot_val TUPLE_SIZE) di; op_ AVMOpcode.AuxPush di; op_ AVMOpcode.Dup1 di;
             op_ AVMOpcode.Mod di; op_ AVMOpcode.Dup0 di; op_ AVMOpcode.AuxPush di; op_ AVMOpcode.Swap1 di;
             op_imm AVMOpcode.Swap1 (slot_val TUPLE_SIZE) di; op_ AVMOpcode.Div di; op_ AVMOpcode.Swap2 di;
             op_ AVMOpcode.Swap1 di; op_ AVMOpcode.Tget di; op_ AVMOpcode.Swap1 di] ++ rest)
    (mkView (slot_val i :: Value.Tuple l :: y :: s) a r) =
  run_code rest (mkView (slot_val (i / TUPLE_SIZE) :: v :: y :: s)
                        (slot_val (i mod TUPLE_SIZE) :: Value.Tuple l :: a) r).
Proof.
  intros Hv. cbn [app]. erewrite run_op_imm by reflexivity. do 2 (erewrite run_op by reflexivity).
  erewrite run_op by apply mod_op.
  do 3 (erewrite run_op by reflexivity). erewrite run_op_imm by reflexivity.
  erewrite run_op by apply div_op.
  do 2 (erewrite run_op by reflexivity).
  erewrite run_op by (apply (tget_slot l _ v); [apply slot_bound|done]). by erewrite run_op by reflexivity.
Qed.

Lemma mod_leave l j v w di s a r : j < TUPLE_SIZE → l !! j = Some v →
  run_code [op_ AVMOpcode.AuxPop di; op_ AVMOpcode.AuxPop di; op_ AVMOpcode.Swap1 di; op_ AVMOpcode.Tset di]
    (mkView (w :: s) (slot_val j :: Value.Tuple l :: a) r) =
  Some (mkView (Value.Tuple (<[j := w]> l) :: s) a r).
Proof.
  intros Hl Hv. do 3 (erewrite run_op by reflexivity). by erewrite run_op by (apply (tset_slot l _ v); [lia|done]).
Qed.

Lemma changed_part f i y j q :
  changed f i y (TUPLE_SIZE * q + j) =
  if Nat.eqb (TUPLE_SIZE * q + j) i then y else f (TUPLE_SIZE * q + j).
Proof. done. Qed.

Lemma same_index q j i : j < TUPLE_SIZE → TUPLE_SIZE * q + j = i ↔ q = i / TUPLE_SIZE ∧ j = i mod TUPLE_SIZE.
Proof.
  intros Hj. split.
  - intros <-. rewrite (Nat.mul_comm TUPLE_SIZE), Nat.div_add_l, Nat.div_small, (Nat.add_comm _ j), Nat.Div0.mod_add,
      Nat.mod_small by done. lia.
  - intros [-> ->]. apply index_split.
Qed.

Lemma array_leaf_changed size l f i y : size <= TUPLE_SIZE → length l = TUPLE_SIZE →
  (∀ i x, l !! i = Some x → x = f i) → array_of size (Value.Tuple (<[i := y]> l)) (changed f i y).
Proof.
  intros Hs Hl Hx. apply array_leaf; [done|by rewrite length_insert|]. intros k z Hk. unfold changed.
  apply list_lookup_insert_Some in Hk as [(-> & -> & _)|[Hne Hk]]; [by rewrite Nat.eqb_refl|].
  destruct (Nat.eqb_spec k i); [congruence|eauto].
Qed.

Lemma array_node_changed size l f i y w : TUPLE_SIZE < size → length l = TUPLE_SIZE →
  (∀ j v, l !! j = Some v → array_of (part_size size) v (λ q, f (TUPLE_SIZE * q + j))) →
  array_of (part_size size) w (changed (λ q, f (TUPLE_SIZE * q + i mod TUPLE_SIZE)) (i / TUPLE_SIZE) y) →
  array_of size (Value.Tuple (<[i mod TUPLE_SIZE := w]> l)) (changed f i y).
Proof.
  intros Hs Hl Hx Hw. apply array_node; [done|by rewrite length_insert|]. intros j u Hj.
  assert (j < TUPLE_SIZE) as Hjb by (apply lookup_lt_Some in Hj; by rewrite length_insert, Hl in Hj).
  apply list_lookup_insert_Some in Hj as [(<- & <- & _)|[Hne Hj]].
  - eapply array_of_ext; [|exact Hw]. intros q. unfold changed.
    destruct (Nat.eqb_spec q (i / TUPLE_SIZE)) as [->|Hq]; [by rewrite index_split, Nat.eqb_refl|].
    destruct (Nat.eqb_spec (TUPLE_SIZE * q + i mod TUPLE_SIZE) i) as [E|]; [|done]. by apply same_index in E as [? _].
  - eapply array_of_ext; [|exact (Hx _ _ Hj)]. intros q. unfold changed.
    destruct (Nat.eqb_spec (TUPLE_SIZE * q + j) i) as [E|]; [|done]. apply same_index in E as [_ E]; [congruence|done].
Qed.

Lemma array_mod_ok fuel : ∀ size v f i y di s a r, size < fuel → i < size → array_of size v f →
  ∃ c v', codegen_fixed_array_mod_2 fuel size di = Some c ∧ array_of size v' (changed f i y) ∧
    run_code c (mkView (slot_val i :: v :: y :: s) a r) = Some (mkView (v' :: s) a r).
Proof.
  induction fuel as [|fuel IH]; intros size v f i y di s a r Hf Hi Hv; [lia|].
  cbn [codegen_fixed_array_mod_2]. change 8 with TUPLE_SIZE.
  inversion Hv as [? l ? Hs Hl Hx|? l ? Hs Hl Hx]; subst.
  - destruct (Nat.leb_spec size TUPLE_SIZE); [|lia]. destruct (lookup_lt_is_Some_2 l i) as [x Hxi]; [lia|].
    eexists _, (Value.Tuple (<[i := y]> l)). split; [done|]. split.
    + by apply array_leaf_changed.
    + by erewrite run_op by (apply (tset_slot l _ x); [lia|done]).
  - destruct (Nat.leb_spec size TUPLE_SIZE); [lia|]. destruct (slot_at l i Hl) as [w Hw].
    destruct (IH (part_size size) w _ (i / TUPLE_SIZE) y di s (slot_val (i mod TUPLE_SIZE) :: Value.Tuple l :: a) r
                ltac:(pose proof (part_size_lt _ Hs); lia) (part_index _ _ Hi) (Hx _ _ Hw)) as (c & w' & Hc & Hw' & Hrun).
    fold (part_size size). rewrite Hc. cbn [mbind option_bind].
    eexists _, (Value.Tuple (<[i mod TUPLE_SIZE := w']> l)). split; [done|]. split.
    + by apply array_node_changed.
    + rewrite (mod_enter l i w) by done. erewrite run_code_app by exact Hrun. by apply (mod_leave l _ w); [apply slot_bound|].
Qed.

(** ** New arrays *)

(** [d] levels of eight copies each. *)
Fixpoint full (d : nat) (x : Value.t) : Value.t :=
  match d with
  | O => x
  | S d => Value.Tuple (replicate TUPLE_SIZE (full d x))
  end.

Lemma part_size_range d size : TUPLE_SIZE ^ S d < size → size <= TUPLE_SIZE ^ S (S d) →
  TUPLE_SIZE ^ d < part_size size ∧ part_size size <= TUPLE_SIZE ^ S d.
Proof.
  unfold part_size. rewrite !Nat.pow_succ_r'. set (p := TUPLE_SIZE ^ d). unfold TUPLE_SIZE. intros H1 H2.
  split.
  - apply Nat.div_le_lower_bound; lia.
  - apply Nat.lt_succ_r, Nat.Div0.div_lt_upper_bound. lia.
Qed.

Lemma full_array d size x : size <= TUPLE_SIZE ^ S d → d = 0 ∨ TUPLE_SIZE ^ d < size →
  array_of size (full (S d) x) (λ _, x).
Proof.
  revert size. induction d as [|d IH]; intros size Hs Hd.
  - apply array_leaf; [by rewrite Nat.pow_1_r in Hs|done|]. intros i y Hi. by apply lookup_replicate in Hi as [-> _].
  - destruct Hd as [?|Hd]; [done|]. destruct (part_size_range d size Hd Hs) as [H1 H2].
    assert (1 <= TUPLE_SIZE ^ d) by (apply Nat.neq_0_lt_0, Nat.pow_nonzero; done).
    apply array_node; [rewrite Nat.pow_succ_r' in Hd; unfold TUPLE_SIZE in *; lia|done|].
    intros j v Hj. apply lookup_replicate in Hj as [-> _]. apply IH; [done|]. destruct d; [by left|by right].
Qed.

Lemma fill_tuple_ok di x s a r :
  run_code (fill_tuple di) (mkView (x :: s) a r) = Some (mkView (Value.Tuple (replicate 8 x) :: s) a r).
Proof. reflexivity. Qed.

(** The depth that fits a size, at least [d]. *)
Definition fits (d d' size : nat) : Prop := size <= TUPLE_SIZE ^ S d' ∧ (d' = d ∨ TUPLE_SIZE ^ d' < size).

Lemma pow_next d : TUPLE_SIZE ^ d * 8 = TUPLE_SIZE ^ S d.
Proof. rewrite Nat.pow_succ_r'. apply Nat.mul_comm. Qed.

Lemma levels_S fuel ts sz di : fixed_array_levels (S fuel) ts sz di =
  if Nat.ltb ts sz then rest ← fixed_array_levels fuel (ts * 8) sz di; Some (fill_tuple di ++ rest) else Some [].
Proof. done. Qed.

Lemma chunks_S fuel cs sz v : wrap_chunks (S fuel) cs sz v =
  if Nat.ltb (cs * 8) sz then wrap_chunks fuel (cs * 8) sz (Value.new_tuple (replicate 8 v)) else Some v.
Proof. done. Qed.

Lemma levels_ok fuel : ∀ d size di x s a r, size < fuel + TUPLE_SIZE ^ S d →
  ∃ c d', fixed_array_levels (S fuel) (TUPLE_SIZE ^ S d) size di = Some c ∧ fits d d' size ∧
    run_code c (mkView (full (S d) x :: s) a r) = Some (mkView (full (S d') x :: s) a r).
Proof.
  induction fuel as [|fuel IH]; intros d size di x s a r Hf; rewrite levels_S;
    destruct (Nat.ltb_spec (TUPLE_SIZE ^ S d) size) as [Hlt|Hge]; try lia.
  all: try (by exists [], d; split; [done|]; split; [split; [lia|by left]|]).
  pose proof (Nat.pow_nonzero TUPLE_SIZE (S d) ltac:(done)).
  destruct (IH (S d) size di x s a r) as (c & d' & Hc & [Hs Hd] & Hrun).
  { rewrite (Nat.pow_succ_r' _ (S d)). unfold TUPLE_SIZE in *. lia. }
  rewrite <- pow_next in Hc. rewrite Hc. cbn [mbind option_bind].
  exists (fill_tuple di ++ c), d'. split; [done|]. split; [split; [done|right; destruct Hd as [->|]; lia]|].
  by erewrite run_code_app by apply fill_tuple_ok.
Qed.

Lemma wrap_chunks_ok fuel : ∀ d size x, size < fuel + TUPLE_SIZE ^ S d →
  ∃ d', wrap_chunks (S fuel) (TUPLE_SIZE ^ d) size (full (S d) x) = Some (full (S d') x) ∧ fits d d' size.
Proof.
  induction fuel as [|fuel IH]; intros d size x Hf; rewrite chunks_S, pow_next;
    destruct (Nat.ltb_spec (TUPLE_SIZE ^ S d) size) as [Hlt|Hge]; try lia.
  all: try (by exists d; split; [done|]; split; [lia|by left]).
  pose proof (Nat.pow_nonzero TUPLE_SIZE (S d) ltac:(done)).
  destruct (IH (S d) size x) as (d' & Hc & [Hs Hd]).
  { rewrite (Nat.pow_succ_r' _ (S d)). unfold TUPLE_SIZE in *. lia. }
  exists d'. split; [exact Hc|]. split; [done|right; destruct Hd as [->|]; lia].
Qed.

Lemma full_is_array d size x : fits 0 d size → is_array (full (S d) x) (replicate size x).
Proof.
  intros [Hs Hd]. exists (λ _, x). rewrite length_replicate. split; [by apply full_array|].
  intros i Hi. by apply lookup_replicate.
Qed.

(** ** The theorems *)

(** C15: reading and writing fixed-size arrays.  If [v] is an array with the
    elements [xs], the linker's code for an access at index [i] leaves element
    [i], and the code generator's code for an update leaves an array whose
    elements are [xs] with [y] at [i], all others as before.  Both codes exist
    for every size, so the two loops over the size terminate. *)
Theorem fixed_array_access v xs i x y di s a r :
  is_array v xs → xs !! i = Some x →
  (∃ c, array_code (S (length xs)) (length xs) di = Some c ∧
     run_code c (mkView (slot_val i :: v :: s) a r) = Some (mkView (x :: s) a r)) ∧
  (∃ c v', codegen_fixed_array_mod_2 (S (length xs)) (length xs) di = Some c ∧
     is_array v' (<[i := y]> xs) ∧
     run_code c (mkView (slot_val i :: v :: y :: s) a r) = Some (mkView (v' :: s) a r)).
Proof.
  intros (f & Hv & Hf) Hi. pose proof (lookup_lt_Some _ _ _ Hi) as Hlt. split.
  - destruct (array_code_ok (S (length xs)) (length xs) v f i di s a r ltac:(lia) Hlt Hv) as (c & Hc & Hrun).
    exists c. split; [done|]. rewrite Hrun. specialize (Hf i Hlt). congruence.
  - destruct (array_mod_ok (S (length xs)) (length xs) v f i y di s a r ltac:(lia) Hlt Hv) as (c & v' & Hc & Hv' & Hrun).
    exists c, v'. split; [done|]. split; [|done]. exists (changed f i y). rewrite length_insert. split; [done|].
    intros k Hk. unfold changed. destruct (Nat.eqb_spec k i) as [->|Hne].
    + by apply list_lookup_insert_eq.
    + rewrite list_lookup_insert_ne by done. by apply Hf.
Qed.

(** New fixed-size arrays.  The code that builds an array of [size] elements
    from an initial value leaves an array all of whose elements are that value;
    the default value of an array type is an array of the default value of its
    elements.  Both have exactly the depth that reading expects. *)
Theorem fixed_array_new `{Crypto} size t x safe di s a r :
  (∃ levels v, fixed_array_levels (S size) 8 size di = Some levels ∧ is_array v (replicate size x) ∧
     run_code (fill_tuple di ++ levels) (mkView (x :: s) a r) = Some (mkView (v :: s) a r)) ∧
  (default_value t = Some (x, safe) →
     ∃ v, default_value (Tipe.FixedArray t size) = Some (v, safe) ∧ is_array v (replicate size x)).
Proof.
  split.
  - destruct (levels_ok size 0 size di x s a r) as (c & d & Hc & Hd & Hrun); [cbn; lia|].
    exists c, (full (S d) x). split; [exact Hc|]. split; [by apply full_is_array|].
    erewrite run_code_app by apply fill_tuple_ok. exact Hrun.
  - intros Hx. destruct (wrap_chunks_ok size 0 size x) as (d & Hd & Hfit); [cbn; lia|].
    exists (full (S d) x). split; [|by apply full_is_array].
    cbn [default_value]. rewrite Hx. cbn [mbind option_bind].
    change (Value.new_tuple (replicate 8 x)) with (full 1 x). change 1 with (TUPLE_SIZE ^ 0) at 1. by rewrite Hd.
Qed.

(** An array of ten numbers needs two levels. *)
Definition ten : list Value.t := replicate 10 (Value.Int 7).
Definition ten_array : Value.t := full 2 (Value.Int 7).

Lemma ten_is_array : is_array ten_array ten.
Proof. apply (full_is_array 1). split; [cbn; lia|right; cbn; lia]. Qed.

Lemma fixed_array_access_witness : let di := DebugInfo_default in
  (∃ c, array_code 11 10 di = Some c ∧
     run_code c (mkView [slot_val 9; ten_array] [] Value.none) = Some (mkView [Value.Int 7] [] Value.none)) ∧
  (∃ c v', codegen_fixed_array_mod_2 11 10 di = Some c ∧ is_array v' (<[9 := Value.Int 3]> ten) ∧
     run_code c (mkView [slot_val 9; ten_array; Value.Int 3] [] Value.none) = Some (mkView [v'] [] Value.none)).
Proof.
  intros di. apply (fixed_array_access ten_array ten 9 (Value.Int 7) (Value.Int 3) di [] [] Value.none).
  - exact ten_is_array.
  - reflexivity.
Defined.

Section witness.
#[local] Existing Instance toy_crypto.
Lemma fixed_array_new_witness :
  ∃ v, default_value (Tipe.FixedArray Tipe.Uint 100) = Some (v, true) ∧ is_array v (replicate 100 (Value.Int 0)).
Proof.
  apply (fixed_array_new 100 Tipe.Uint (Value.Int 0) true DebugInfo_default [] [] Value.none). reflexivity.
Defined.
End witness.
