(* ===== verification/ValueTypes.v ===== *)
(** * The values of a type

    What it means for a run-time value to have a type of the Mini language: the
    specification against which the type checker is proved sound.  A type is a
    set of values; named types unfold through the type tree, so a recursive type
    has the values with a finite derivation ([typed_at n] bounds its height).
    [assignable_sound]: a type that [assignable] accepts in place of another has
    no more values, for recursive types too, where [assignable] assumes the pairs
    it has seen.

    Arrays and maps of run-time size are values of the libraries written in
    Mini, of which nothing is said here; of a function value only that it is a
    label. *)

From Stdlib Require Import ZArith Lia.
From S2P Require Import Prelude U256 StringTab Pos Opcodes Crypto BufferTree Values TupleTree Types TypesThms FixedArray.

Section values.
Context (tt : TypeTree).

Fixpoint typed_at (n : nat) (v : Value.t) (t : Tipe.t) : Prop :=
  match n with
  | O => False
  | S n =>
      match t with
      | Tipe.Void | Tipe.Every => False
      | Tipe.Uint | Tipe.Int | Tipe.Bool | Tipe.Bytes32 | Tipe.EthAddress => ∃ z, v = Value.Int z ∧ Uint256.wf z
      | Tipe.Buffer => ∃ b, v = Value.Buffer b
      | Tipe.Tuple ts =>
          ∃ tree xs, tree_new (length ts) false = Some tree ∧ leaves tree v = Some xs ∧ Forall2 (typed_at n) xs ts
      | Tipe.Struct fs =>
          ∃ tree xs, tree_new (length fs) false = Some tree ∧ leaves tree v = Some xs ∧
                     Forall2 (λ x f, typed_at n x (sf_tipe f)) xs fs
      | Tipe.FixedArray t size => ∃ xs, length xs = size ∧ is_array v xs ∧ Forall (λ x, typed_at n x t) xs
      | Tipe.Option t =>
          v = Value.Tuple [Value.Int 0] ∨
          ∃ tag x, v = Value.Tuple [Value.Int tag; x] ∧ tag ≠ 0%Z ∧ typed_at n x t
      | Tipe.Union ts => Exists (typed_at n v) ts
      | Tipe.Nominal path id => ∃ t name, tt !! (path, id) = Some (t, name) ∧ typed_at n v t
      | Tipe.Func _ _ _ => ∃ l, v = Value.Label l
      | Tipe.Array _ | Tipe.Map _ _ | Tipe.Any => True
      end
  end.

Definition has_type (v : Value.t) (t : Tipe.t) : Prop := ∃ n, typed_at n v t.

Lemma typed_at_mono n : ∀ m v t, n <= m → typed_at n v t → typed_at m v t.
Proof.
  induction n as [|n IH]; intros [|m] v t Hle; try done; [lia|].
  assert (∀ v t, typed_at n v t → typed_at m v t) as Hm by (intros; apply IH; [lia|done]).
  destruct t; cbn [typed_at]; try done.
  - intros (tree & xs & Ht & Hl & Hf). exists tree, xs. split_and!; try done. eapply Forall2_impl; [|exact Hf]. auto.
  - intros (xs & Hl & Ha & Hf). exists xs. split_and!; try done. eapply list.Forall_impl; [exact Hf|]. cbn. auto.
  - intros (tree & xs & Ht & Hl & Hf). exists tree, xs. split_and!; try done. eapply Forall2_impl; [|exact Hf]. cbn. auto.
  - intros (t & name & Hp & Hv). eauto.
  - intros [?|(tag & x & ? & ? & ?)]; [by left|right; eauto 10].
  - rewrite !list.Exists_exists. intros (t & ? & ?). eauto.
Qed.

(** Finitely many derivations have a common height. *)
Lemma typed_all {A} (f : A → Tipe.t) xs ys : Forall2 (λ x y, has_type x (f y)) xs ys →
  ∃ n, Forall2 (λ x y, typed_at n x (f y)) xs ys.
Proof.
  induction 1 as [|x y xs ys [n Hn] _ [m Hm]]; [by exists 0|].
  exists (n `max` m). constructor; [eapply typed_at_mono; [|done]; lia|].
  eapply Forall2_impl; [|exact Hm]. cbn. intros a b. apply typed_at_mono. lia.
Qed.

Lemma has_tuple tree xs v ts : tree_new (length ts) false = Some tree → leaves tree v = Some xs →
  Forall2 has_type xs ts → has_type v (Tipe.Tuple ts).
Proof.
  intros Ht Hl [n Hn]%(typed_all (λ t, t)). exists (S n). cbn [typed_at]. eauto 10.
Qed.

Lemma has_struct tree xs v fs : tree_new (length fs) false = Some tree → leaves tree v = Some xs →
  Forall2 (λ x f, has_type x (sf_tipe f)) xs fs → has_type v (Tipe.Struct fs).
Proof. intros Ht Hl [n Hn]%typed_all. exists (S n). cbn [typed_at]. eauto 10. Qed.

Lemma has_array xs v t : is_array v xs → Forall (λ x, has_type x t) xs → has_type v (Tipe.FixedArray t (length xs)).
Proof.
  intros Ha Hf. assert (∃ n, Forall (λ x, typed_at n x t) xs) as [n Hn].
  { clear Ha. induction Hf as [|x xs [n Hn] _ [m Hm]]; [by exists 0|].
    exists (n `max` m). constructor; [eapply typed_at_mono; [|done]; lia|].
    eapply list.Forall_impl; [exact Hm|]. cbn. intros a. apply typed_at_mono. lia. }
  exists (S n). cbn [typed_at]. eauto 10.
Qed.

Lemma has_none t : has_type (Value.Tuple [Value.Int 0]) (Tipe.Option t).
Proof. exists 1. by left. Qed.

Lemma has_some tag x t : tag ≠ 0%Z → has_type x t → has_type (Value.Tuple [Value.Int tag; x]) (Tipe.Option t).
Proof. intros Hz [n Hn]. exists (S n). right. eauto. Qed.

Lemma has_any v : has_type v Tipe.Any.
Proof. by exists 1. Qed.

Lemma has_member v t ts : t ∈ ts → has_type v t → has_type v (Tipe.Union ts).
Proof. intros Ht [n Hn]. exists (S n). cbn [typed_at]. apply list.Exists_exists. eauto. Qed.

(** ** Named types *)
Lemma typed_representation fuel t r n v : representation_loop fuel tt t = Some (Ok r) →
  typed_at n v t → ∃ m, m <= n ∧ typed_at m v r.
Proof.
  revert t n. induction fuel as [|fuel IH]; intros t n Hr Hv.
  { destruct t; simplify_eq/=; eauto. }
  destruct t; try (simplify_eq/=; by eauto). cbn [representation_loop] in Hr.
  destruct n as [|n]; [done|]. destruct Hv as (t & name & Ht & Hv). rewrite Ht in Hr.
  destruct (IH t n Hr Hv) as (m & Hm & ?). exists m. split; [lia|done].
Qed.

Lemma typed_unfold fuel t r n v : representation_loop fuel tt t = Some (Ok r) →
  typed_at n v t → ∃ k, k < n ∧ typed_at (S k) v r.
Proof. intros Hr Hv. destruct (typed_representation fuel t r n v Hr Hv) as ([|k] & Hk & Hv'); [done|]. eauto. Qed.

Lemma has_representation t r v : get_representation tt t = Some (Ok r) → has_type v t → has_type v r.
Proof. intros Hr [n Hn]. destruct (typed_representation _ _ _ _ _ Hr Hn) as (m & _ & Hm). by exists m. Qed.

Lemma has_named fuel t r v : representation_loop fuel tt t = Some (Ok r) → has_type v r → has_type v t.
Proof.
  revert t. induction fuel as [|fuel IH]; intros t Hr Hv.
  { destruct t; by simplify_eq/=. }
  destruct t; try (by simplify_eq/=). cbn [representation_loop] in Hr.
  destruct (tt !! (path, id)) as [[t name]|] eqn:Et; [|done].
  destruct (IH t Hr Hv) as [n Hn]. exists (S n). cbn [typed_at]. eauto.
Qed.

Lemma representation_not_named fuel t r : representation_loop fuel tt t = Some (Ok r) → ∀ p i, r ≠ Tipe.Nominal p i.
Proof.
  revert t. induction fuel as [|fuel IH]; intros t Hr p i; [destruct t; by simplify_eq/=|].
  destruct t; try (by simplify_eq/=). cbn [representation_loop] in Hr.
  destruct (tt !! (path, id)) as [[t name]|]; [|done]. by apply (IH t).
Qed.

(** ** Subtyping *)

(** The pairs under comparison hold for derivations up to a height. *)
Definition seen_ok (n : nat) (seen : seen_t) : Prop :=
  ∀ l r, (l, r) ∈ seen → ∀ m v, m <= n → typed_at m v r → has_type v l.

Definition is_nominal (t : Tipe.t) : bool := match t with Tipe.Nominal _ _ => true | _ => false end.

Definition sub_ok (n : nat) : Prop := ∀ fuel seen t1 t2, assignable fuel tt seen t1 t2 = Some true →
  seen_ok (if is_nominal t1 then n else pred n) seen → ∀ v, typed_at n v t2 → has_type v t1.

Lemma seen_ok_mono n m seen : m <= n → seen_ok n seen → seen_ok m seen.
Proof. intros Hle Hs l r Hin k v Hk. apply (Hs l r Hin). lia. Qed.

Lemma sub_below k n fuel seen t1 t2 v : (∀ m, m < n → sub_ok m) → k < n → seen_ok (pred n) seen →
  assignable fuel tt seen t1 t2 = Some true → typed_at k v t2 → has_type v t1.
Proof.
  intros IH Hk Hs Ha. apply (IH k Hk fuel seen t1 t2 Ha). eapply seen_ok_mono; [|exact Hs].
  destruct (is_nominal t1); lia.
Qed.

Lemma all2_typed {A} (f : A → A → option bool) (g : A → Tipe.t) (P : Value.t → Tipe.t → Prop) l1 l2 xs :
  vectors_assignable f l1 l2 = Some true → (∀ a b x, f a b = Some true → P x (g b) → has_type x (g a)) →
  Forall2 (λ x b, P x (g b)) xs l2 → length l1 = length l2 ∧ Forall2 (λ x a, has_type x (g a)) xs l1.
Proof.
  unfold vectors_assignable. destruct (Nat.eqb_spec (length l1) (length l2)) as [Hl|]; [|done]. intros Ha Hf Hx.
  split; [done|]. revert l1 Hl Ha. induction Hx as [|x b xs l2 Hxb _ IH]; intros [|a l1] Hl Ha; try done.
  cbn [all2] in Ha. destruct (f a b) as [[]|] eqn:Eab; try done. constructor; [by eapply Hf|]. apply IH; [by injection Hl|done].
Qed.

Lemma member_of {A} (f : A → A → option bool) l1 l2 b : vectors_assignable f l1 l2 = Some true → b ∈ l2 →
  ∃ a, a ∈ l1 ∧ f a b = Some true.
Proof.
  unfold vectors_assignable. destruct (Nat.eqb_spec (length l1) (length l2)) as [Hl|]; [|done].
  revert l1 Hl. induction l2 as [|b' l2 IH]; intros [|a l1] Hl Ha Hb; try done; [by apply elem_of_nil in Hb|].
  cbn [all2] in Ha. destruct (f a b') as [[]|] eqn:Eab; try done. apply elem_of_cons in Hb as [->|Hb].
  - exists a. split; [by left|done].
  - destruct (IH l1) as (a' & Ha' & ?); [by injection Hl|done|done|]. exists a'. split; [by right|done].
Qed.

(** The type on the left is not a name. *)
Lemma sub_structural n fuel seen t1 t2 v : (∀ m, m < n → sub_ok m) → is_nominal t1 = false → seen_ok (pred n) seen →
  assignable fuel tt seen t1 t2 = Some true → typed_at n v t2 → has_type v t1.
Proof.
  intros IH Hnom Hs Ha Hv. destruct fuel as [|fuel]; [done|]. cbn [assignable] in Ha.
  destruct (type_eq t2 Tipe.Every) eqn:Ee.
  { apply type_eq_spec in Ee as ->. by destruct n. }
  assert (∀ k w a b, k < n → assignable fuel tt seen a b = Some true → typed_at k w b → has_type w a) as Hsub
    by (intros; by eapply (sub_below k n)).
  destruct t1; try discriminate Hnom; try (apply (inj Some), type_eq_spec in Ha; subst t2; by exists n); try apply has_any.
  - apply bind_Some in Ha as ([rep| |] & Hr & Ha); try done. destruct rep; try done.
    destruct (typed_unfold _ _ _ _ _ Hr Hv) as (k & Hk & tree & xs & Ht & Hl & Hf).
    destruct (all2_typed _ (λ t, t) (typed_at k) _ _ xs Ha) with (2 := Hf) as [Hlen Hxs].
    { intros a b x Hab Hb. by apply (Hsub k x a b). }
    eapply has_tuple; [by rewrite Hlen|done|done].
  - by exists 1.
  - apply bind_Some in Ha as ([rep| |] & Hr & Ha); try done. destruct rep; try done.
    destruct (typed_unfold _ _ _ _ _ Hr Hv) as (k & Hk & xs & Hl & Hx & Hf).
    destruct (Nat.eqb_spec size size0) as [->|]; [|done]. cbn [and_then] in Ha. rewrite <- Hl.
    apply has_array; [done|]. eapply list.Forall_impl; [exact Hf|]. intros x Hxt. by apply (Hsub k x t1 rep).
  - apply bind_Some in Ha as ([rep| |] & Hr & Ha); try done. destruct rep; try done.
    destruct (typed_unfold _ _ _ _ _ Hr Hv) as (k & Hk & tree & xs & Ht & Hl & Hf).
    destruct (all2_typed _ sf_tipe (typed_at k) _ _ xs Ha) with (2 := Hf) as [Hlen Hxs].
    { intros a b x Hab Hb. destruct (assignable fuel tt seen (sf_tipe a) (sf_tipe b)) as [[]|] eqn:Eab; try done.
      by apply (Hsub k x _ _ ltac:(lia) Eab). }
    eapply has_struct; [by rewrite Hlen|done|done].
  - destruct t2; try done. destruct n as [|n]; [done|]. destruct Hv as [l ->]. exists 1. by exists l.
  - by exists 1.
  - apply bind_Some in Ha as ([rep| |] & Hr & Ha); try done. destruct rep; try done.
    destruct (typed_unfold _ _ _ _ _ Hr Hv) as (k & Hk & [->|(tag & x & -> & Hz & Hx)]).
    + apply has_none.
    + apply has_some; [done|]. by apply (Hsub k x t1 rep).
  - apply bind_Some in Ha as ([rep| |] & Hr & Ha); try done. destruct rep; try done.
    destruct (typed_unfold _ _ _ _ _ Hr Hv) as (k & Hk & Hx). cbn [typed_at] in Hx.
    apply list.Exists_exists in Hx as (t2' & Hin & Hx).
    destruct (member_of _ _ _ _ Ha Hin) as (t1' & Hin1 & Ha1). apply (has_member _ t1'); [done|]. by apply (Hsub k v t1' t2').
Qed.

(** A pair of representations, assumed while it is compared. *)
Lemma sub_assumed n fuel seen l r : (∀ m, m < n → sub_ok m) → is_nominal l = false → seen_ok n seen →
  assignable fuel tt ((l, r) :: seen) l r = Some true → ∀ m, m <= n → seen_ok (pred m) ((l, r) :: seen).
Proof.
  intros IH Hl Hs Ha m. induction m as [m IHm] using lt_wf_ind. intros Hm l' r' [[= -> ->]|Hin]%elem_of_cons k v Hk Hv.
  - destruct (decide (k = 0)) as [->|]; [done|].
    apply (IH k ltac:(lia) fuel ((l, r) :: seen) l r Ha); [|done]. rewrite Hl. apply IHm; lia.
  - apply (Hs l' r' Hin k); [lia|done].
Qed.

Lemma sub_all n : sub_ok n.
Proof.
  induction n as [n IH] using lt_wf_ind. intros fuel seen t1 t2 Ha Hs v Hv.
  destruct (is_nominal t1) eqn:En; [|by eapply sub_structural].
  destruct t1; try discriminate En. destruct fuel as [|fuel]; [done|]. cbn [assignable] in Ha.
  destruct (type_eq t2 Tipe.Every) eqn:Ee.
  { apply type_eq_spec in Ee as ->. by destruct n. }
  apply bind_Some in Ha as (lr & Hl & Ha). apply bind_Some in Ha as (rr & Hr & Ha).
  destruct lr as [l| |]; try done. destruct rr as [r| |]; try done.
  apply (has_named _ _ l v Hl). destruct (typed_unfold _ _ _ _ _ Hr Hv) as (k & Hk & Hvr).
  assert (is_nominal l = false) as Hnl by (pose proof (representation_not_named _ _ _ Hl); destruct l; naive_solver).
  unfold insert in Ha. destruct (bool_decide ((l, r) ∈ seen)) eqn:Eb.
  - apply bool_decide_eq_true in Eb. by apply (Hs l r Eb (S k)).
  - eapply (sub_structural (S k)); [|exact Hnl| |exact Ha|exact Hvr]; [intros m Hm; apply IH; lia|].
    eapply (sub_assumed (S k)); [|done| |exact Ha|lia]; [intros m Hm; apply IH; lia|].
    by eapply seen_ok_mono.
Qed.

(** Subtyping is inclusion of values. *)
Lemma assignable_has fuel t1 t2 v : assignable fuel tt [] t1 t2 = Some true → has_type v t2 → has_type v t1.
Proof.
  intros Ha [n Hn]. eapply (sub_all n); [exact Ha| |exact Hn]. by intros l r Hin%elem_of_nil.
Qed.

(** C39: subtyping is sound.  Whenever [assignable] lets a value of type [t2] be
    used where a value of type [t1] is expected, every value of type [t2] is a
    value of type [t1], also for recursive named types, where the comparison
    stops at pairs it has met before. *)
Theorem assignable_sound fuel t1 t2 v : assignable fuel tt [] t1 t2 = Some true → has_type v t2 → has_type v t1.
Proof. apply assignable_has. Qed.
End values.

(** Two recursive types: lists of anything and lists of integers. *)
Definition lists_tree : TypeTree :=
  <[ (["l"], 1) := (Tipe.Option (Tipe.Tuple [Tipe.Any; Tipe.Nominal ["l"] 1]), "any_list") ]>
  (<[ (["l"], 2) := (Tipe.Option (Tipe.Tuple [Tipe.Uint; Tipe.Nominal ["l"] 2]), "uint_list") ]> ∅).

Lemma assignable_sound_witness :
  has_type lists_tree (Value.Tuple [Value.Int 1; Value.Tuple [Value.Int 7; Value.Tuple [Value.Int 0]]]) (Tipe.Nominal ["l"] 1).
Proof.
  apply (assignable_sound lists_tree 20 _ (Tipe.Nominal ["l"] 2)); [vm_compute; reflexivity|].
  assert (has_type lists_tree (Value.Tuple [Value.Int 0]) (Tipe.Nominal ["l"] 2)) as [n Hn].
  { eapply (has_named lists_tree 1); [reflexivity|]. apply has_none. }
  eapply (has_named lists_tree 1); [reflexivity|]. apply has_some; [done|].
  eapply has_tuple; [reflexivity|reflexivity|]. repeat constructor; [|by exists n]. exists 1, 7%Z. by split.
Defined.
