(* ===== verification/VirtualMachine.v ===== *)
(** * The machine of the compiler's instructions

    What generated code means before linking: an abstract machine for the
    virtual opcodes of src/src/mavm.rs ([GetLocal], [TupleGet], [MakeFrame],
    ...), with labels as jump targets.  A frame of locals is a list, where the
    linker lays out a tree of tuples ([variable_access] and [make_frame_correct]
    in TupleTree.v relate the two); the globals are a list too.  Machine
    instructions on the stack are those of [view_op].

    The machine stops where the later passes would not keep the meaning of code:
    where [IsZero] is applied to something else than a truth value, where labels
    are compared, and where a local is accessed in a frame of another size than
    the code last reserved.  Generated code does none of it. *)

From Stdlib Require Import ZArith Lia.
From stdpp Require Import relations.
From S2P Require Import Prelude U256 StringTab Pos Opcodes Crypto BufferTree Values StraightLine TupleTree Peephole StripLabels Types TypedAst Codegen FixedArray.

Inductive aux_item :=
| Plain (v : Value.t)
| Frame (locals : list Value.t).

Record vm := mkVm {
  vm_pc : nat;
  vm_stack : list Value.t;
  vm_aux : list aux_item;
  vm_globals : list Value.t;
}.

(** The position of a label. *)
Fixpoint find_label (code : list insn) (l : Label.t) : option nat :=
  match code with
  | [] => None
  | i :: code =>
      if bool_decide (Instruction.get_label i = Some l) then Some 0
      else n ← find_label code l; Some (S n)
  end.

(** Instructions that only work on the stack. *)
Definition stack_op (op : AVMOpcode.t) : bool :=
  match op with
  | AVMOpcode.AuxPush | AVMOpcode.AuxPop | AVMOpcode.Rpush | AVMOpcode.Rset | AVMOpcode.Xget | AVMOpcode.Xset
  | AVMOpcode.Jump | AVMOpcode.Cjump => false
  | _ => true
  end.

Definition label_free (v : Value.t) : bool := bool_decide (value_labels v = []).
Definition is_truth (x : Z) : bool := (x =? 0)%Z || (x =? 1)%Z.

Definition tame_op (op : AVMOpcode.t) (v : view) : option view :=
  match op with
  | AVMOpcode.Equal =>
      match v_stack v with
      | x :: y :: _ => if label_free x && label_free y then view_op op v else None
      | _ => None
      end
  | _ => bool_view_op op v
  end.

Definition on_values (op : AVMOpcode.t) (s : list Value.t) : option (list Value.t) :=
  if stack_op op then v ← tame_op op (mkView s [] Value.none); Some (v_stack v) else None.

Definition slot_of (imm : option Value.t) : option nat :=
  match imm with
  | Some (Value.Int i) => Some (Z.to_nat i)
  | _ => None
  end.

(** Element [i] of a tuple of [size] elements, and the tuple with that element changed. *)
Definition tuple_get (size i : nat) (v : Value.t) : option Value.t :=
  t ← tree_new size false; xs ← leaves t v; xs !! i.
Definition tuple_set (size i : nat) (v y : Value.t) : option Value.t :=
  t ← tree_new size false; xs ← leaves t v; _ ← xs !! i; make_value t (<[i := y]> xs).

#[global] Arguments tuple_get : simpl never.
#[global] Arguments tuple_set : simpl never.

(** Instructions that go on to the next one, in code for a frame of [size] locals. *)
Definition vm_exec (size : nat) (i : insn) (s : list Value.t) (a : list aux_item) (g : list Value.t)
    : option (list Value.t * list aux_item * list Value.t) :=
  let imm := Instruction.immediate i in
  match Instruction.opcode i, imm with
  | Opcode.Label _, None => Some (s, a, g)
  | Opcode.AVM AVMOpcode.AuxPush, _ =>
      match option_list imm ++ s with v :: s => Some (s, Plain v :: a, g) | [] => None end
  | Opcode.AVM AVMOpcode.AuxPop, _ =>
      match a with Plain v :: a => Some (v :: option_list imm ++ s, a, g) | _ => None end
  | Opcode.AVM op, _ => s ← on_values op (option_list imm ++ s); Some (s, a, g)
  | Opcode.GetLocal, _ =>
      match a with
      | Frame l :: _ =>
          if Nat.eqb (length l) size then k ← slot_of imm; v ← l !! k; Some (v :: s, a, g) else None
      | _ => None
      end
  | Opcode.SetLocal, _ =>
      match a, s with
      | Frame l :: a, v :: s =>
          if Nat.eqb (length l) size then k ← slot_of imm; _ ← l !! k; Some (s, Frame (<[k := v]> l) :: a, g) else None
      | _, _ => None
      end
  | Opcode.GetGlobalVar idx, None => v ← g !! idx; Some (v :: s, a, g)
  | Opcode.SetGlobalVar idx, None =>
      match s with v :: s => _ ← g !! idx; Some (s, a, <[idx := v]> g) | [] => None end
  | Opcode.TupleGet size, _ =>
      match s with v :: s => k ← slot_of imm; x ← tuple_get size k v; Some (x :: s, a, g) | [] => None end
  | Opcode.TupleSet size, _ =>
      match s with v :: y :: s => k ← slot_of imm; x ← tuple_set size k v y; Some (x :: s, a, g) | _ => None end
  | Opcode.UncheckedFixedArrayGet size, None =>
      c ← array_code (S size) size (Instruction.debug_info i);
      v ← run_code c (mkView s [] Value.none); Some (v_stack v, a, g)
  | Opcode.MakeFrame nargs ntotal return_address, None =>
      let frame s := Frame (take nargs s ++ replicate (ntotal - nargs) Value.none) in
      match return_address, s with
      | true, r :: s => if Nat.leb nargs (length s) && Nat.leb nargs ntotal then Some (drop nargs s, frame s :: Plain r :: a, g) else None
      | false, s => if Nat.leb nargs (length s) && Nat.leb nargs ntotal then Some (drop nargs s, frame s :: a, g) else None
      | _, _ => None
      end
  | _, _ => None
  end.

Section machine.
Context (code : list insn).

(** The size of the frame last reserved before [pc]; a program starts with a
    frame of one local. *)
Definition made_frame (i : insn) : option nat :=
  match Instruction.opcode i with Opcode.MakeFrame _ ntotal _ => Some ntotal | _ => None end.
Definition frame_size (pc : nat) : nat := foldl (λ n i, default n (made_frame i)) 1 (take pc code).

Definition vm_step_at (i : insn) (pc : nat) (s : list Value.t) (a : list aux_item) (g : list Value.t) : option vm :=
  match Instruction.opcode i with
  | Opcode.AVM AVMOpcode.Jump =>
      match option_list (Instruction.immediate i) ++ s with
      | Value.Label l :: s => p ← find_label code l; Some (mkVm p s a g)
      | _ => None
      end
  | Opcode.AVM AVMOpcode.Cjump =>
      match option_list (Instruction.immediate i) ++ s with
      | Value.Label l :: Value.Int c :: s =>
          p ← find_label code l; Some (mkVm (if (c =? 0)%Z then S pc else p) s a g)
      | _ => None
      end
  | Opcode.Return =>
      match a, Instruction.immediate i with
      | Frame _ :: Plain (Value.Label l) :: a, None => p ← find_label code l; Some (mkVm p s a g)
      | _, _ => None
      end
  | _ => '(s, a, g) ← vm_exec (frame_size pc) i s a g; Some (mkVm (S pc) s a g)
  end.

Definition vm_step (m : vm) : option vm :=
  i ← code !! vm_pc m; vm_step_at i (vm_pc m) (vm_stack m) (vm_aux m) (vm_globals m).

Definition vm_rel (m m' : vm) : Prop := vm_step m = Some m'.
Definition star : vm → vm → Prop := rtc vm_rel.

(** [c] lies at [pc]. *)
Definition code_is (pc : nat) (c : list insn) : Prop := ∀ j i, c !! j = Some i → code !! (pc + j) = Some i.

Lemma code_is_app pc c1 c2 : code_is pc (c1 ++ c2) ↔ code_is pc c1 ∧ code_is (pc + length c1) c2.
Proof.
  split.
  - intros Hc. split; intros j i Hj.
    + apply Hc. by apply lookup_app_l_Some.
    + rewrite <- Nat.add_assoc. apply Hc. rewrite lookup_app_r by lia. by replace (length c1 + j - length c1) with j by lia.
  - intros [H1 H2] j i Hj. apply lookup_app_Some in Hj as [Hj|[Hge Hj]]; [by apply H1|].
    apply H2 in Hj. by replace (pc + j) with (pc + length c1 + (j - length c1)) by lia.
Qed.

Lemma code_is_cons pc i c : code_is pc (i :: c) ↔ code !! pc = Some i ∧ code_is (S pc) c.
Proof.
  change (i :: c) with ([i] ++ c). rewrite code_is_app. cbn. rewrite Nat.add_1_r. split.
  - intros [H1 H2]. split; [|done]. specialize (H1 0 i eq_refl). by rewrite Nat.add_0_r in H1.
  - intros [H1 H2]. split; [|done]. intros [|j] i' Hj; [|done]. injection Hj as <-. by rewrite Nat.add_0_r.
Qed.

(** The same in code for a frame of [size] locals. *)
Definition body_is (size pc : nat) (c : list insn) : Prop :=
  code_is pc c ∧ ∀ j, j < length c → frame_size (pc + j) = size.

Lemma body_is_app size pc c1 c2 : body_is size pc (c1 ++ c2) ↔ body_is size pc c1 ∧ body_is size (pc + length c1) c2.
Proof.
  unfold body_is. rewrite code_is_app, length_app. split.
  - intros [[H1 H2] Hf]. split_and!; [done|intros j Hj; apply Hf; lia|done|].
    intros j Hj. rewrite <- Nat.add_assoc. apply Hf. lia.
  - intros [[H1 Hf1] [H2 Hf2]]. split; [done|]. intros j Hj. destruct (decide (j < length c1)); [by apply Hf1|].
    replace (pc + j) with (pc + length c1 + (j - length c1)) by lia. apply Hf2. lia.
Qed.

Lemma body_is_cons size pc i c :
  body_is size pc (i :: c) ↔ code !! pc = Some i ∧ frame_size pc = size ∧ body_is size (S pc) c.
Proof.
  change (i :: c) with ([i] ++ c). rewrite body_is_app. cbn [length]. rewrite Nat.add_1_r. unfold body_is at 1.
  rewrite code_is_cons. split.
  - intros [[[H1 _] H2] H3]. split_and!; [done| |done]. specialize (H2 0). rewrite Nat.add_0_r in H2. apply H2. cbn. lia.
  - intros (H1 & H2 & H3). split_and!; try done. intros j Hj. cbn in Hj. replace (pc + j) with pc by lia. done.
Qed.

Lemma body_is_one size pc i : code !! pc = Some i → frame_size pc = size → body_is size pc [i].
Proof. intros Hi Hs. apply body_is_cons. split_and!; [done|done|]. split; [done|]. cbn. lia. Qed.

Lemma frame_size_S pc i : code !! pc = Some i → frame_size (S pc) = default (frame_size pc) (made_frame i).
Proof. intros Hi. unfold frame_size. by rewrite (take_S_r code pc i Hi), foldl_app. Qed.

(** The code after the instruction that reserves the frame. *)
Lemma body_after_frame pc i n c : code !! pc = Some i → made_frame i = Some n → code_is (S pc) c →
  Forall (λ i, made_frame i = None) c → body_is n (S pc) c.
Proof.
  intros Hi Hn Hc Hf. split; [done|]. assert (frame_size (S pc) = n) as H0 by (by rewrite (frame_size_S pc i Hi), Hn).
  intros j. induction j as [|j IH]; intros Hj; [by rewrite Nat.add_0_r|].
  destruct (lookup_lt_is_Some_2 c j) as [i' Hi']; [lia|]. rewrite <- plus_n_Sm, (frame_size_S _ i' (Hc _ _ Hi')).
  rewrite (Forall_lookup_1 _ _ _ _ Hf Hi'). apply IH. lia.
Qed.

(** Labels are defined once. *)
Hypothesis labels_unique : NoDup (defined_labels code).

Lemma find_label_at pc i l : code !! pc = Some i → Instruction.get_label i = Some l → find_label code l = Some pc.
Proof using labels_unique.
  revert pc. induction code as [|i' c IH]; intros pc Hi Hl; [done|]. rewrite defined_labels_cons in labels_unique.
  apply list.NoDup_app in labels_unique as (_ & Hd & Hu). cbn [find_label]. destruct pc as [|pc].
  - injection Hi as ->. by rewrite bool_decide_eq_true_2.
  - rewrite bool_decide_eq_false_2, (IH Hu pc Hi Hl); [done|].
    intros E. apply (Hd l); [by rewrite E; left|].
    apply list_elem_of_omap. exists i. split; [|done]. by apply (list_elem_of_lookup_2 c pc).
Qed.
End machine.
