(* ===== verification/Semantics.v ===== *)
(** * A reference semantics of type-checked programs

    The meaning of the trees of TypedAst.v, without machine code: an evaluator
    over environments of named variables.  It is the specification which the
    code generator (src/src/compile/codegen.rs) is compared with.

    - An expression gives a value, or none if its type is [void], or returns
      from its function ([RRet]).
    - An environment is a list of variables, the innermost first, so that a
      variable may be shadowed; a block forgets the variables it has added.
    - Operands, fields and arguments are evaluated from the last to the first,
      the function of a call after its arguments.
    - [fuel] bounds the iterations of each loop and, in [call], the depth of
      calls; [None] is a program without a meaning here: an error, a value of the
      wrong kind, or exhausted fuel.
    - Truth values are 0 and 1; functions are not compared.
    - Buffers, hashes, gas, inline assembly, [break] and [loop] have no meaning
      here, nor has [return;] while operands are pending. *)

From Stdlib Require Import ZArith Lia.
From S2P Require Import Prelude U256 StringTab Pos Opcodes Crypto BufferTree Values Insns StraightLine TupleTree StripLabels Types TypedAst Link Codegen FixedArray VirtualMachine.

Record st := mkSt { env : list (nat * Value.t); globals : list Value.t }.

Inductive res :=
| RVal (v : option Value.t) (σ : st)
| RRet (v : option Value.t) (σ : st).

Definition sem : Type := st → option res.

(** ** Variables *)
Fixpoint assoc {A} (x : nat) (l : list (nat * A)) : option A :=
  match l with
  | [] => None
  | (y, a) :: l => if Nat.eqb x y then Some a else assoc x l
  end.

Fixpoint update {A} (x : nat) (a : A) (l : list (nat * A)) : option (list (nat * A)) :=
  match l with
  | [] => None
  | (y, b) :: l => if Nat.eqb x y then Some ((y, a) :: l) else l ← update x a l; Some ((y, b) :: l)
  end.

(** ** Operators *)
Definition bool_val (b : bool) : option Value.t := Some (Value.Int (if b then 1 else 0)%Z).

Definition int_op (op : BinaryOp.t) (x y : Z) : option Value.t :=
  match op with
  | BinaryOp.Plus => Some (Value.Int (Uint256.add x y))
  | BinaryOp.Minus => Value.Int <$> Uint256.unchecked_sub x y
  | BinaryOp.Times => Some (Value.Int (Uint256.mul x y))
  | BinaryOp.Div => Value.Int <$> Uint256.div x y
  | BinaryOp.Mod => Value.Int <$> Uint256.modulo x y
  | BinaryOp.Sdiv => Value.Int <$> (r ← Uint256.sdiv x y; r)
  | BinaryOp.Smod => Value.Int <$> (r ← Uint256.smodulo x y; r)
  | BinaryOp.LessThan => bool_val (x <? y)%Z
  | BinaryOp.GreaterThan => bool_val (y <? x)%Z
  | BinaryOp.LessEq => bool_val (x <=? y)%Z
  | BinaryOp.GreaterEq => bool_val (y <=? x)%Z
  | BinaryOp.SLessThan => bool_val (Uint256.s_less_than x y)
  | BinaryOp.SGreaterThan => bool_val (Uint256.s_less_than y x)
  | BinaryOp.SLessEq => bool_val (negb (Uint256.s_less_than y x))
  | BinaryOp.SGreaterEq => bool_val (negb (Uint256.s_less_than x y))
  | BinaryOp.BitwiseAnd => Some (Value.Int (Uint256.bitwise_and x y))
  | BinaryOp.BitwiseOr => Some (Value.Int (Uint256.bitwise_or x y))
  | BinaryOp.BitwiseXor => Some (Value.Int (Uint256.bitwise_xor x y))
  | BinaryOp.ShiftLeft => Some (Value.Int (shift_with Uint256.shift_left x y))
  | BinaryOp.ShiftRight => Some (Value.Int (shift_with Uint256.shift_right x y))
  | _ => None
  end.

Definition binary_val (op : BinaryOp.t) (v1 v2 : Value.t) : option Value.t :=
  match op with
  | BinaryOp.Equal => if label_free v1 && label_free v2 then bool_val (bool_decide (v1 = v2)) else None
  | BinaryOp.NotEqual => if label_free v1 && label_free v2 then bool_val (negb (bool_decide (v1 = v2))) else None
  | _ => match v1, v2 with Value.Int x, Value.Int y => int_op op x y | _, _ => None end
  end.

Definition unary_val (op : UnaryOp.t) (v : Value.t) : option Value.t :=
  match op, v with
  | UnaryOp.BitwiseNeg, Value.Int x => Some (Value.Int (Uint256.bitwise_neg x))
  | UnaryOp.Not, Value.Int x => if is_truth x then bool_val (x =? 0)%Z else None
  | (UnaryOp.ToUint | UnaryOp.ToInt | UnaryOp.ToBytes32), _ => Some v
  | UnaryOp.ToAddress, Value.Int x => Some (Value.Int (x mod 2 ^ 160)%Z)
  | UnaryOp.Len, _ => tuple_get 3 0 v
  | _, _ => None
  end.

(** The tag of an optional value, and what it holds. *)
Definition option_parts (v : Value.t) : option (Z * option Value.t) :=
  match v with
  | Value.Tuple (Value.Int tag :: rest) => Some (tag, rest !! 0)
  | _ => None
  end.

(** ** Fixed-size arrays: the layout of FixedArray.v *)
Fixpoint array_get (fuel size i : nat) (v : Value.t) : option Value.t :=
  match fuel, v with
  | S fuel, Value.Tuple l =>
      if Nat.leb size TUPLE_SIZE then l !! i
      else w ← l !! (i mod TUPLE_SIZE); array_get fuel (part_size size) (i / TUPLE_SIZE) w
  | _, _ => None
  end.

Fixpoint array_set (fuel size i : nat) (y v : Value.t) : option Value.t :=
  match fuel, v with
  | S fuel, Value.Tuple l =>
      if Nat.leb size TUPLE_SIZE then _ ← l !! i; Some (Value.Tuple (<[i := y]> l))
      else w ← l !! (i mod TUPLE_SIZE);
           w ← array_set fuel (part_size size) (i / TUPLE_SIZE) y w;
           Some (Value.Tuple (<[i mod TUPLE_SIZE := w]> l))
  | _, _ => None
  end.

(** ** Combinators *)

(** One of two branches, by a truth value. *)
Definition choose (c : Z) (then_ else_ : sem) : sem :=
  if is_truth c then if (c =? 0)%Z then else_ else then_ else λ _, None.

Lemma choose_inv c t e σ r : choose c t e σ = Some r →
  is_truth c = true ∧ (if (c =? 0)%Z then e else t) σ = Some r.
Proof. unfold choose. by destruct (is_truth c). Qed.

(** The value of [m], with which [k] goes on; [pending] says that operands
    evaluated before are waiting. *)
Definition value_of (pending : bool) (m : sem) (k : Value.t → sem) : sem := λ σ,
  r ← m σ;
  match r with
  | RVal (Some v) σ => k v σ
  | RVal None _ => None
  | RRet (Some v) σ => Some (RRet (Some v) σ)
  | RRet None σ => if pending then None else Some (RRet None σ)
  end.

(** [m], whose value is not used, then [k]. *)
Definition then_sem (m k : sem) : sem := λ σ,
  r ← m σ;
  match r with
  | RVal _ σ => k σ
  | RRet v σ => Some (RRet v σ)
  end.

Definition give (o : option Value.t) : sem := λ σ, v ← o; Some (RVal (Some v) σ).
Definition skip : sem := λ σ, Some (RVal None σ).

Definition is_empty {A} (l : list A) : bool := match l with [] => true | _ => false end.

(** Evaluates the operands [ms], each put in front of [vals]. *)
Fixpoint operands (ms : list sem) (vals : list Value.t) (k : list Value.t → sem) : sem :=
  match ms with
  | [] => k vals
  | m :: ms => value_of (negb (is_empty vals)) m (λ v, operands ms (v :: vals) k)
  end.

(** Forgets the variables added by [m]. *)
Definition scoped (m : sem) : sem := λ σ,
  r ← m σ;
  match r with
  | RVal v σ' => Some (RVal v (mkSt (drop (length (env σ') - length (env σ)) (env σ')) (globals σ')))
  | RRet v σ' => Some (RRet v σ')
  end.

Fixpoint sequence (ms : list sem) : sem :=
  match ms with
  | [] => skip
  | m :: ms => then_sem m (sequence ms)
  end.

(** ** Expressions *)
Definition sem_local (x : nat) : sem := λ σ, give (assoc x (env σ)) σ.
Definition sem_global (idx : nat) : sem := λ σ, give (globals σ !! idx) σ.

Definition sem_unary (op : UnaryOp.t) (m : sem) : sem := value_of false m (λ v, give (unary_val op v)).
Definition sem_binary (op : BinaryOp.t) (m1 m2 : sem) : sem :=
  value_of false m2 (λ v2, value_of true m1 (λ v1, give (binary_val op v1 v2))).
Definition sem_variant (m : sem) : sem := value_of false m (λ v, give (Some (Value.Tuple [Value.Int 1; v]))).

Definition sem_or (m1 m2 : sem) : sem :=
  value_of false m1 (λ v, match v with Value.Int x => if (x =? 0)%Z then m2 else give (Some v) | _ => λ _, None end).
Definition sem_and (m1 m2 : sem) : sem :=
  value_of false m1 (λ v, match v with Value.Int x => choose x m2 (give (Some v)) | _ => λ _, None end).

Definition sem_field (size i : nat) (m : sem) : sem := value_of false m (λ v, give (tuple_get size i v)).
Definition sem_tuple_ref (t : Tipe.t) (idx : Z) (m : sem) : sem :=
  match t with
  | Tipe.Tuple fields => sem_field (length fields) (Z.to_nat idx) m
  | _ => λ _, None
  end.

Definition sem_struct (ms : list sem) : sem :=
  operands (rev ms) [] (λ vals, give (value_from_field_list vals)).
(** Wider tuples are not built as trees. *)
Definition sem_tuple (ms : list sem) : sem :=
  if Nat.leb (length ms) TUPLE_SIZE then sem_struct ms else λ _, None.
Definition sem_struct_mod (t : Tipe.t) (i : nat) (m mv : sem) : sem :=
  value_of false mv (λ y, value_of true m (λ v,
    match t with Tipe.Struct fields => give (tuple_set (length fields) i v y) | _ => λ _, None end)).

(** An index is tested against the size. *)
Definition with_index (size : nat) (v : Value.t) (k : nat → option Value.t) : option Value.t :=
  match v with
  | Value.Int i => if (0 <=? i)%Z && (i <? Z.of_nat size)%Z then k (Z.to_nat i) else None
  | _ => None
  end.
Definition sem_array_ref (size : nat) (m1 m2 : sem) : sem :=
  value_of false m1 (λ arr, value_of true m2 (λ idx, give (with_index size idx (λ i, array_get (S size) size i arr)))).
Definition sem_array_mod (size : nat) (arr idx val : sem) : sem :=
  value_of false val (λ y, value_of true arr (λ v, value_of true idx (λ i,
    give (with_index size i (λ i, array_set (S size) size i y v))))).

(** The depth of a new array of [size] elements. *)
Fixpoint array_depth (fuel tuple_size size : nat) : nat :=
  match fuel with
  | O => 0
  | S fuel => if Nat.ltb tuple_size size then S (array_depth fuel (tuple_size * TUPLE_SIZE) size) else 0
  end.
Definition new_array_val (size : nat) (x : Value.t) : Value.t := full (S (array_depth size TUPLE_SIZE size)) x.
Definition sem_new_array (size : nat) (o : option sem) : sem :=
  match o with
  | Some m => value_of false m (λ x, give (Some (new_array_val size x)))
  | None => give (Some (new_array_val size Value.none))
  end.

(** [e?]: the value held, or an immediate return of the empty option. *)
Definition sem_try (m : sem) : sem :=
  value_of false m (λ v σ,
    '(tag, held) ← option_parts v;
    if (tag =? 0)%Z then Some (RRet (Some v) σ) else give held σ).

Definition sem_if (cond then_ else_ : sem) : sem :=
  value_of false cond (λ v, match v with Value.Int c => choose c then_ else_ | _ => λ _, None end).

Definition bind_local (x : nat) (v : Value.t) (m : sem) : sem :=
  scoped (λ σ, m (mkSt ((x, v) :: env σ) (globals σ))).

Definition sem_if_let (x : nat) (m then_ else_ : sem) : sem :=
  value_of false m (λ v σ,
    '(tag, held) ← option_parts v;
    choose tag (λ σ, y ← held; bind_local x y then_ σ) else_ σ).

(** ** Calls *)
Section calls.
(** What a function does with its arguments and the globals. *)
Context (callf : Label.t → list Value.t → list Value.t → option (option Value.t * list Value.t)).

Definition sem_call (f : sem) (args : list sem) (t : Tipe.t) : sem :=
  if type_eq Tipe.Every t then λ _, None
  else
    operands (rev args) [] (λ vals, value_of true f (λ fv σ,
      match fv with
      | Value.Label l => '(v, g) ← callf l vals (globals σ); Some (RVal v (mkSt (env σ) g))
      | _ => None
      end)).

Context `{Crypto}.
Context (string_table : StringTable.t) (import_func_map : gmap nat Label.t) (global_var_map : gmap nat nat)
        (release_build : bool) (fuel : nat).

Definition sem_func_ref (name : nat) : sem :=
  give (Some (Value.Label (match import_func_map !! name with Some label => label | None => Label.Func name end))).

Definition sem_builtin (name : string) (args : list sem) (t : Tipe.t) : sem :=
  match StringTable.get_if_exists string_table name with
  | Some id => sem_call (sem_func_ref id) args t
  | None => λ _, None
  end.

Definition sem_new_heap_array (m : sem) (base_type array_type : Tipe.t) : sem :=
  match default_value base_type with
  | Some (d, _) =>
      sem_builtin "builtin_arrayNew" [m; give (Some d)] (Tipe.Func false [Tipe.Uint; Tipe.Any] array_type)
  | None => λ _, None
  end.

(** ** Statements *)

Definition bind_loop (f : MatchPattern → Value.t → list (nat * Value.t) → st → option (list (nat * Value.t) * st))
    (size : nat) (v : Value.t) :=
  fix go (i : nat) (pats : list MatchPattern) (new : list (nat * Value.t)) (σ : st)
      : option (list (nat * Value.t) * st) :=
    match pats with
    | [] => Some (new, σ)
    | p :: pats =>
        x ← tuple_get size i v;
        '(new, σ) ← f p x new σ;
        go (S i) pats new σ
    end.

(** The variables of a pattern: the new ones, the last first, and the state
    after assignments to old ones. *)
Fixpoint bind_pattern (p : MatchPattern) (v : Value.t) (new : list (nat * Value.t)) (σ : st)
    : option (list (nat * Value.t) * st) :=
  match p with
  | mkMatchPattern (PBind id) _ _ => Some ((id, v) :: new, σ)
  | mkMatchPattern (PAssign id) _ _ =>
      match update id v (env σ) with
      | Some e => Some (new, mkSt e (globals σ))
      | None =>
          idx ← global_var_map !! id;
          _ ← globals σ !! idx;
          Some (new, mkSt (env σ) (<[idx := v]> (globals σ)))
      end
  | mkMatchPattern (PTuple pats) _ _ =>
      if is_empty pats then None else bind_loop bind_pattern (length pats) v 0 pats new σ
  end.

Definition sem_let (p : MatchPattern) (m : sem) : sem :=
  value_of false m (λ v σ,
    '(new, σ) ← bind_pattern p v [] σ;
    Some (RVal None (mkSt (new ++ env σ) (globals σ)))).

Definition sem_assign_local (x : nat) (m : sem) : sem :=
  value_of false m (λ v σ, e ← update x v (env σ); Some (RVal None (mkSt e (globals σ)))).

Definition sem_assign_global (idx : nat) (m : sem) : sem :=
  value_of false m (λ v σ, _ ← globals σ !! idx; Some (RVal None (mkSt (env σ) (<[idx := v]> (globals σ))))).

Definition sem_return (m : sem) : sem := value_of false m (λ v σ, Some (RRet (Some v) σ)).

(** An expression of type [void] gives no value; any other value is dropped. *)
Definition sem_expression (t : Tipe.t) (m : sem) : sem :=
  if type_eq t Tipe.Void || type_eq t Tipe.Every
  then λ σ, r ← m σ; match r with RVal (Some _) _ => None | r => Some r end
  else value_of false m (λ _, skip).

Fixpoint sem_while (fuel : nat) (cond body : sem) : sem :=
  match fuel with
  | O => λ _, None
  | S fuel => sem_if cond (then_sem (scoped body) (sem_while fuel cond body)) skip
  end.

Definition sem_assert (m : sem) : sem :=
  if release_build then skip
  else
    λ σ,
    r ← sem_builtin "builtin_assert" [m] (Tipe.Func false [Tipe.Tuple [Tipe.Bool; Tipe.Any]] Tipe.Void) σ;
    match r with RVal (Some _) _ => None | r => Some r end.

Definition sem_block (body : list sem) (ret : option sem) : sem :=
  scoped (then_sem (sequence body) (match ret with Some m => m | None => skip end)).

(** ** All of them *)
Fixpoint eval_expr (expr : TypeCheckedExpr) : sem :=
  let '(mkExpr kind _) := expr in
  match kind with
  | Unary op e _ => sem_unary op (eval_expr e)
  | Variant e => sem_variant (eval_expr e)
  | Binary op e1 e2 _ => sem_binary op (eval_expr e1) (eval_expr e2)
  | ShortcutOr e1 e2 => sem_or (eval_expr e1) (eval_expr e2)
  | ShortcutAnd e1 e2 => sem_and (eval_expr e1) (eval_expr e2)
  | LocalVariableRef name _ => sem_local name
  | GlobalVariableRef idx _ => sem_global idx
  | FuncRef name _ => sem_func_ref name
  | TupleRef e idx _ => sem_tuple_ref (get_type e) idx (eval_expr e)
  | DotRef e slot_num s_size _ => sem_field s_size slot_num (eval_expr e)
  | Const val _ => give (Some val)
  | FunctionCall f args t _ => sem_call (eval_expr f) (map eval_expr args) t
  | CodeBlock block => eval_block block
  | StructInitializer fields _ => sem_struct (map (λ f, eval_expr (fi_value f)) fields)
  | TupleExpr fields _ => sem_tuple (map eval_expr fields)
  | ArrayRef e1 e2 t =>
      sem_builtin "builtin_arrayGet" [eval_expr e1; eval_expr e2] (Tipe.Func false [Tipe.Array Tipe.Any; Tipe.Uint] t)
  | FixedArrayRef e1 e2 size _ => sem_array_ref size (eval_expr e1) (eval_expr e2)
  | MapRef e1 e2 _ =>
      sem_builtin "builtin_kvsGet" [eval_expr e1; eval_expr e2]
                  (Tipe.Func false [Tipe.Any; Tipe.Any] (Tipe.Option Tipe.Any))
  | NewArray e base_type array_type => sem_new_heap_array (eval_expr e) base_type array_type
  | NewFixedArray sz o _ => sem_new_array sz (match o with Some e => Some (eval_expr e) | None => None end)
  | NewMap _ => sem_builtin "builtin_kvsNew" [] (Tipe.Func false [] Tipe.Any)
  | ArrayMod e1 e2 e3 _ =>
      sem_builtin "builtin_arraySet" [eval_expr e1; eval_expr e2; eval_expr e3]
                  (Tipe.Func false [get_type e1; get_type e2; get_type e3] (get_type e1))
  | FixedArrayMod e1 e2 e3 size _ => sem_array_mod size (eval_expr e1) (eval_expr e2) (eval_expr e3)
  | MapMod e1 e2 e3 _ =>
      sem_builtin "builtin_kvsSet" [eval_expr e1; eval_expr e2; eval_expr e3]
                  (Tipe.Func false [get_type e1; get_type e2; get_type e3] (get_type e1))
  | StructMod e1 index e2 t => sem_struct_mod t index (eval_expr e1) (eval_expr e2)
  | Cast e _ => eval_expr e
  | Try e _ => sem_try (eval_expr e)
  | If cond block else_block _ =>
      sem_if (eval_expr cond) (eval_block block) (match else_block with Some b => eval_block b | None => skip end)
  | IfLet name e block else_block _ =>
      sem_if_let name (eval_expr e) (eval_block block) (match else_block with Some b => eval_block b | None => skip end)
  | NewBuffer | Error | GetGas | SetGas _ | Trinary _ _ _ _ _ | Asm _ _ _ | Loop _ => λ _, None
  end
with eval_statement (statement : TypeCheckedStatement) : sem :=
  let '(mkStatement kind _) := statement in
  match kind with
  | SNoop => skip
  | SReturnVoid => λ σ, Some (RRet None σ)
  | SReturn e => sem_return (eval_expr e)
  | SExpression e => sem_expression (get_type e) (eval_expr e)
  | SLet pat e => sem_let pat (eval_expr e)
  | SAssignLocal name e => sem_assign_local name (eval_expr e)
  | SAssignGlobal idx e => sem_assign_global idx (eval_expr e)
  | SWhile cond body => sem_while fuel (eval_expr cond) (sequence (map eval_statement body))
  | SAssert e => sem_assert (eval_expr e)
  | SBreak _ _ | SAsm _ _ | SDebugPrint _ => λ _, None
  end
with eval_block (block : TypeCheckedCodeBlock) : sem :=
  let '(mkBlock body ret _) := block in
  sem_block (map eval_statement body) (match ret with Some e => Some (eval_expr e) | None => None end).

End calls.

(** ** Functions *)
Section program.
Context `{Crypto}.
Context (string_table : StringTable.t) (import_func_map : gmap nat Label.t) (global_var_map : gmap nat nat)
        (release_build : bool) (funcs : list TypeCheckedFunc).

Definition returns (f : TypeCheckedFunc) : bool :=
  match f_tipe f with
  | Tipe.Func _ _ ret => negb (type_eq ret Tipe.Every)
  | _ => false
  end.

(** The function with a given label. *)
Definition find_func (l : Label.t) : option TypeCheckedFunc :=
  match l with
  | Label.Func name => list_find (λ f, f_name f = name) funcs ≫= λ kf, Some kf.2
  | _ => None
  end.

(** A call of a function: its arguments become its variables, a later one of
    the same name hides an earlier one.  A function ends with a return. *)
Fixpoint call (fuel : nat) (l : Label.t) (vals : list Value.t) (g : list Value.t) : option (option Value.t * list Value.t) :=
  match fuel with
  | O => None
  | S fuel =>
      f ← find_func l;
      if returns f && Nat.eqb (length vals) (length (f_args f)) then
        r ← sequence (map (eval_statement (call fuel) string_table import_func_map global_var_map release_build fuel)
                          (with_final_return f))
              (mkSt (rev (zip (fa_name <$> f_args f) vals)) g);
        match r with
        | RRet v σ => Some (v, globals σ)
        | RVal _ _ => None
        end
      else None
  end.
End program.
