(* ===== verification/TypeSound.v ===== *)
(** * The type checker is sound: state and combinators

    A state is well typed if every variable and every global has a value of its
    type.  [sem_ok]: from a well-typed state an evaluation that succeeds gives a
    value of the type, in a well-typed state, or returns a value of the
    function's type.  The lemmas show it for the combinators of Semantics.v;
    TypecheckSound.v puts them together. *)

From Stdlib Require Import ZArith Lia.
From S2P Require Import Prelude U256 StringTab Pos Opcodes Crypto BufferTree Values Insns InsnFacts StraightLine TupleTree StripLabels Types TypedAst Link Codegen FixedArray ValueTypes VirtualMachine Semantics.

Section sound.
Context (tt : TypeTree) (return_type : Tipe.t) (global_vars : gmap nat (Tipe.t * nat)).

Abbreviation has_type := (has_type tt).

(** Only [void] has no value. *)
Definition gives (t : Tipe.t) (o : option Value.t) : Prop :=
  match o with
  | Some v => has_type v t
  | None => t = Tipe.Void
  end.

Definition returns_ok (o : option Value.t) : Prop :=
  match o with
  | Some v => has_type v return_type
  | None => return_type = Tipe.Void ∨ return_type = Tipe.Every
  end.

(** ** Well-typed states *)

(** The variables [e] have the types [Δ], the innermost first. *)
Definition env_ok (e : list (nat * Value.t)) (Δ : list (nat * Tipe.t)) : Prop :=
  Forall2 (λ xv xt, xv.1 = xt.1 ∧ has_type xv.2 xt.2) e Δ.
Definition globals_ok (g : list Value.t) : Prop :=
  ∀ x t idx v, global_vars !! x = Some (t, idx) → g !! idx = Some v → has_type v t.

(** The table of the type checker knows the visible variables. *)
Definition table_of (tbl : gmap nat Tipe.t) (Δ : list (nat * Tipe.t)) : Prop :=
  ∀ x t, assoc x Δ = Some t → tbl !! x = Some t.

Definition state_ok (Δ : list (nat * Tipe.t)) (σ : st) : Prop := env_ok (env σ) Δ ∧ globals_ok (globals σ).

Definition sem_ok (tbl : gmap nat Tipe.t) (t : Tipe.t) (m : sem) : Prop :=
  ∀ Δ σ r, table_of tbl Δ → state_ok Δ σ → m σ = Some r →
    match r with
    | RVal o σ' => gives t o ∧ state_ok Δ σ'
    | RRet o σ' => returns_ok o ∧ globals_ok (globals σ')
    end.

(** A sequence of statements may add variables. *)
Definition stats_ok (tbl tbl' : gmap nat Tipe.t) (m : sem) : Prop :=
  ∀ Δ σ r, table_of tbl Δ → state_ok Δ σ → m σ = Some r →
    match r with
    | RVal _ σ' => ∃ new, table_of tbl' (new ++ Δ) ∧ state_ok (new ++ Δ) σ'
    | RRet o σ' => returns_ok o ∧ globals_ok (globals σ')
    end.

(** ** Environments *)
Lemma env_lookup e Δ x v : env_ok e Δ → assoc x e = Some v → ∃ t, assoc x Δ = Some t ∧ has_type v t.
Proof.
  induction 1 as [|[y w] [z t] e Δ [Hyz Hw] _ IH]; [done|]. cbn in *. subst z.
  destruct (Nat.eqb_spec x y); [intros [= <-]; eauto|done].
Qed.

Lemma env_update e Δ x v e' t : env_ok e Δ → update x v e = Some e' → assoc x Δ = Some t → has_type v t → env_ok e' Δ.
Proof.
  intros He. revert e'. induction He as [|[y w] [z t'] e Δ [Hyz Hw] He IH]; intros e' Hu Ht Hv; [done|]. cbn in *. subst z.
  destruct (Nat.eqb_spec x y) as [->|].
  - injection Hu as <-. injection Ht as ->. by constructor.
  - apply bind_Some in Hu as (e1 & Hu & [= <-]). constructor; [done|]. by apply IH.
Qed.

Lemma update_assoc {A} x (a : A) l l' : update x a l = Some l' → is_Some (assoc x l).
Proof.
  revert l'. induction l as [|[y b] l IH]; intros l'; [done|]. cbn. destruct (Nat.eqb x y); [done|].
  intros (l1 & Hl & _)%bind_Some. eauto.
Qed.

Lemma globals_update g idx v : globals_ok g → (∀ x t, global_vars !! x = Some (t, idx) → has_type v t) →
  globals_ok (<[idx := v]> g).
Proof.
  intros Hg Hv x t i w Hx Hw. destruct (decide (i = idx)) as [->|Hne].
  - apply list_lookup_insert_Some in Hw as [(_ & <- & _)|[? _]]; [by eapply Hv|done].
  - rewrite list_lookup_insert_ne in Hw by congruence. by eapply Hg.
Qed.

(** ** Combinators *)
Lemma none_ok tbl t : sem_ok tbl t (λ _, None).
Proof. by intros Δ σ r. Qed.

Lemma give_ok tbl t o : (∀ v, o = Some v → has_type v t) → sem_ok tbl t (give o).
Proof. intros Ho Δ σ r _ Hσ (v & Hv & [= <-])%bind_Some. split; [by apply Ho|done]. Qed.

Lemma value_ok tbl t t' pend m k : sem_ok tbl t m → (∀ v, has_type v t → sem_ok tbl t' (k v)) →
  sem_ok tbl t' (value_of pend m k).
Proof.
  intros Hm Hk Δ σ r Ht Hσ (r1 & H1 & Hr)%bind_Some. specialize (Hm Δ σ r1 Ht Hσ H1).
  destruct r1 as [[v|] σ1|[v|] σ1]; try done.
  - destruct Hm as [Hv Hσ1]. by apply (Hk v Hv Δ σ1).
  - by injection Hr as <-.
  - destruct pend; [done|]. by injection Hr as <-.
Qed.

Lemma skip_ok tbl : sem_ok tbl Tipe.Void skip.
Proof. by intros Δ σ r _ Hσ [= <-]. Qed.

(** Operands from the last to the first. *)
Lemma operands_ok tbl t ms ts vals vts k : Forall2 (sem_ok tbl) ts ms → Forall2 has_type vals vts →
  (∀ vals, Forall2 has_type vals (rev ts ++ vts) → sem_ok tbl t (k vals)) → sem_ok tbl t (operands ms vals k).
Proof.
  intros Hms. revert vals vts. induction Hms as [|t1 m ts ms Hm _ IH]; intros vals vts Hv Hk; [by apply Hk|].
  cbn [operands]. eapply value_ok; [exact Hm|]. intros v Hvt. apply (IH (v :: vals) (t1 :: vts)); [by constructor|].
  intros vals' Hv'. apply Hk. cbn [rev]. by rewrite <- app_assoc.
Qed.

Lemma stats_nil tbl : stats_ok tbl tbl skip.
Proof. intros Δ σ r Ht Hσ [= <-]. by exists []. Qed.

Lemma stats_cons tbl1 tbl2 tbl3 m k : stats_ok tbl1 tbl2 m → stats_ok tbl2 tbl3 k → stats_ok tbl1 tbl3 (then_sem m k).
Proof.
  intros Hm Hk Δ σ r Ht Hσ (r1 & H1 & Hr)%bind_Some. specialize (Hm Δ σ r1 Ht Hσ H1).
  destruct r1 as [o σ1|o σ1]; [|by injection Hr as <-]. destruct Hm as (new & Ht1 & Hσ1).
  specialize (Hk _ σ1 r Ht1 Hσ1 Hr). destruct r as [o2 σ2|o2 σ2]; [|done].
  destruct Hk as (new2 & Ht2 & Hσ2). exists (new2 ++ new). by rewrite <- app_assoc.
Qed.

(** A statement that binds nothing. *)
Lemma stats_plain tbl t m : sem_ok tbl t m → stats_ok tbl tbl m.
Proof.
  intros Hm Δ σ r Ht Hσ Hr. specialize (Hm Δ σ r Ht Hσ Hr). destruct r; [|done]. exists []. by destruct Hm.
Qed.

(** ** Conditions and loops *)
Lemma choose_ok tbl t c then_ else_ : sem_ok tbl t then_ → sem_ok tbl t else_ → sem_ok tbl t (choose c then_ else_).
Proof. intros Ht He. unfold choose. destruct (is_truth c); [|apply none_ok]. by destruct (c =? 0)%Z. Qed.

Lemma if_ok tbl t tc cond then_ else_ : sem_ok tbl tc cond → sem_ok tbl t then_ → sem_ok tbl t else_ →
  sem_ok tbl t (sem_if cond then_ else_).
Proof.
  intros Hc Ht He. eapply value_ok; [exact Hc|]. intros v _. destruct v; try apply none_ok. by apply choose_ok.
Qed.

(** A computation whose value is not used and that binds nothing. *)
Definition quiet (tbl : gmap nat Tipe.t) (m : sem) : Prop :=
  ∀ Δ σ r, table_of tbl Δ → state_ok Δ σ → m σ = Some r →
    match r with
    | RVal _ σ' => state_ok Δ σ'
    | RRet o σ' => returns_ok o ∧ globals_ok (globals σ')
    end.

Lemma drop_new σ Δ new σ' : env_ok (env σ) Δ → state_ok (new ++ Δ) σ' →
  state_ok Δ (mkSt (drop (length (env σ') - length (env σ)) (env σ')) (globals σ')).
Proof.
  intros He [He' Hg]. split; [|done]. cbn [env].
  assert (length (env σ') - length (env σ) = length new) as ->.
  { rewrite (Forall2_length He'), (Forall2_length He), length_app. lia. }
  apply (Forall2_drop _ _ _ (length new)) in He'. by rewrite drop_app_length in He'.
Qed.

Lemma quiet_scoped tbl tbl' m : stats_ok tbl tbl' m → quiet tbl (scoped m).
Proof.
  intros Hm Δ σ r Ht Hσ (r1 & H1 & Hr)%bind_Some. specialize (Hm Δ σ r1 Ht Hσ H1).
  destruct r1 as [o σ1|o σ1]; injection Hr as <-; [|done]. destruct Hm as (new & _ & Hσ1).
  by apply (drop_new σ Δ new); [apply Hσ|].
Qed.

Lemma quiet_then tbl t m k : quiet tbl m → sem_ok tbl t k → sem_ok tbl t (then_sem m k).
Proof.
  intros Hm Hk Δ σ r Ht Hσ (r1 & H1 & Hr)%bind_Some. specialize (Hm Δ σ r1 Ht Hσ H1).
  destruct r1 as [o σ1|o σ1]; [|by injection Hr as <-]. by apply (Hk Δ σ1).
Qed.

Lemma while_ok tbl tbl' tc cond body n : sem_ok tbl tc cond → stats_ok tbl tbl' body →
  sem_ok tbl Tipe.Void (sem_while n cond body).
Proof.
  intros Hc Hb. induction n as [|n IH]; [apply none_ok|]. cbn [sem_while]. eapply if_ok; [exact Hc| |apply skip_ok].
  apply quiet_then; [by eapply quiet_scoped|exact IH].
Qed.

(** A block, and a block with one variable more. *)
Lemma block_ok tbl tbl' m t k : stats_ok tbl tbl' m → sem_ok tbl' t k → sem_ok tbl t (scoped (then_sem m k)).
Proof.
  intros Hm Hk Δ σ r Ht Hσ (r1 & H1 & Hr)%bind_Some. apply bind_Some in H1 as (r0 & H0 & H1).
  specialize (Hm Δ σ r0 Ht Hσ H0). destruct r0 as [o σ1|o σ1].
  2: { injection H1 as <-. by injection Hr as <-. }
  destruct Hm as (new & Ht1 & Hσ1). specialize (Hk _ σ1 r1 Ht1 Hσ1 H1).
  destruct r1 as [v σ2|v σ2]; injection Hr as <-; [|done]. destruct Hk as [Hv Hσ2]. split; [done|].
  by apply (drop_new σ Δ new); [apply Hσ|].
Qed.

Lemma bind_local_ok tbl t x tx v m : has_type v tx → sem_ok (<[x := tx]> tbl) t m → sem_ok tbl t (bind_local x v m).
Proof.
  intros Hv Hm Δ σ r Ht Hσ (r1 & H1 & Hr)%bind_Some.
  assert (table_of (<[x := tx]> tbl) ((x, tx) :: Δ)) as Ht'.
  { intros y t'. cbn. destruct (Nat.eqb_spec y x) as [->|]; [rewrite lookup_insert_eq; congruence|].
    rewrite lookup_insert_ne by congruence. apply Ht. }
  assert (state_ok ((x, tx) :: Δ) (mkSt ((x, v) :: env σ) (globals σ))) as Hσ'.
  { destruct Hσ as [He Hg]. split; [by constructor|done]. }
  specialize (Hm _ _ _ Ht' Hσ' H1). destruct r1 as [o σ1|o σ1]; injection Hr as <-; [|done].
  destruct Hm as [Ho Hσ1]. split; [done|]. apply (drop_new σ Δ [(x, tx)]); [apply Hσ|done].
Qed.

Lemma weaken_ok tbl t t' m : (∀ o, gives t o → gives t' o) → sem_ok tbl t m → sem_ok tbl t' m.
Proof.
  intros Hg Hm Δ σ r Ht Hσ Hr. specialize (Hm Δ σ r Ht Hσ Hr). destruct r; [|done]. destruct Hm. auto.
Qed.

(** ** Operators *)
Definition int_like (t : Tipe.t) : bool :=
  match t with
  | Tipe.Uint | Tipe.Int | Tipe.Bool | Tipe.Bytes32 | Tipe.EthAddress => true
  | _ => false
  end.

Definition word (v : Value.t) : Prop := ∃ z, v = Value.Int z ∧ Uint256.wf z.

Lemma word_type v t : int_like t = true → word v → has_type v t.
Proof. intros Ht Hv. exists 1. by destruct t. Qed.
Lemma type_word v t : int_like t = true → has_type v t → word v.
Proof. intros Ht [[|n] Hv]; [done|]. by destruct t. Qed.

Lemma bool_word b v : bool_val b = Some v → word v.
Proof. intros [= <-]. eexists; split; [done|]. destruct b; done. Qed.

Lemma fmap_word (o : option Z) v : Value.Int <$> o = Some v → (∀ z, o = Some z → Uint256.wf z) → word v.
Proof. intros (z & -> & Hz)%fmap_Some Ho. exists z. auto. Qed.

Lemma int_op_word op x y v : Uint256.wf x → Uint256.wf y → int_op op x y = Some v → word v.
Proof.
  intros Hx Hy Hv. destruct op; cbn [int_op] in Hv; try discriminate Hv;
    try (by eapply bool_word); try (injection Hv as <-; eexists; split; [done|]);
    try (eapply fmap_word; [exact Hv|]; intros z Hz).
  - by apply Uint256.wf_add.
  - destruct (Uint256.wf_unchecked_sub x y Hx Hy) as (w & Hw & ?). congruence.
  - by apply Uint256.wf_mul.
  - by apply (Uint256.wf_div_res x y).
  - by apply (Uint256.wf_modulo x y).
  - destruct (Uint256.wf_sdiv x y Hx Hy) as (o & Ho & Hw). rewrite Ho in Hz. auto.
  - destruct (Uint256.wf_smodulo x y Hx Hy) as (o & Ho & Hw). rewrite Ho in Hz. auto.
  - apply Uint256.wf_bitwise_and; [done|]. apply Hy.
  - by apply Uint256.wf_bitwise_or.
  - by apply Uint256.wf_bitwise_xor.
  - apply shift_with_wf; [|done]. intros. by apply Uint256.wf_shift_left.
  - apply shift_with_wf; [|done]. intros. by apply Uint256.wf_shift_right.
Qed.

Definition equality (op : BinaryOp.t) : bool := match op with BinaryOp.Equal | BinaryOp.NotEqual => true | _ => false end.

Lemma binary_val_word op v1 v2 v : equality op = true ∨ word v1 ∧ word v2 → binary_val op v1 v2 = Some v → word v.
Proof.
  intros Hop Hv. destruct (equality op) eqn:Eop.
  - destruct op; try discriminate Eop; cbn [binary_val] in Hv; destruct (label_free v1 && label_free v2); try done;
      by eapply bool_word.
  - destruct Hop as [|[(x & -> & Hx) (y & -> & Hy)]]; [done|].
    apply (int_op_word op x y); [done..|]. destruct op; try discriminate Eop; exact Hv.
Qed.

Lemma unary_val_word op v v' : op ≠ UnaryOp.Len → word v → unary_val op v = Some v' → word v'.
Proof.
  intros Hop (x & -> & Hx) Hv. destruct op; cbn [unary_val] in Hv; try done;
    try (injection Hv as <-; by exists x); try (destruct (is_truth x); [by eapply bool_word|done]).
  - injection Hv as <-. eexists; split; [done|]. by apply Uint256.wf_bitwise_neg.
  - injection Hv as <-. eexists; split; [done|]. pose proof (Z.mod_pos_bound x (2 ^ 160) ltac:(done)).
    unfold Uint256.wf, two256 in *. lia.
Qed.

(** ** Tuples, structs and arrays *)
Lemma tuple_get_type {A} (f : A → Tipe.t) ts tree v xs i x y : tree_new (length ts) false = Some tree →
  leaves tree v = Some xs → Forall2 (λ x y, has_type x (f y)) xs ts → ts !! i = Some y →
  tuple_get (length ts) i v = Some x → has_type x (f y).
Proof.
  unfold tuple_get. intros -> Hl Hf Hi Hx. cbn in Hx. rewrite Hl in Hx. cbn in Hx.
  destruct (Forall2_lookup_l _ _ _ _ _ Hf Hx) as (y' & Hy' & ?). congruence.
Qed.

Lemma typed_tuple ts v : has_type v (Tipe.Tuple ts) →
  ∃ tree xs, tree_new (length ts) false = Some tree ∧ leaves tree v = Some xs ∧ Forall2 (λ x t, has_type x t) xs ts.
Proof.
  intros [[|n] Hv]; [done|]. destruct Hv as (tree & xs & Ht & Hl & Hf). exists tree, xs. split_and!; try done.
  eapply Forall2_impl; [|exact Hf]. intros a b ?. by exists n.
Qed.

Lemma typed_struct fs v : has_type v (Tipe.Struct fs) →
  ∃ tree xs, tree_new (length fs) false = Some tree ∧ leaves tree v = Some xs ∧ Forall2 (λ x f, has_type x (sf_tipe f)) xs fs.
Proof.
  intros [[|n] Hv]; [done|]. destruct Hv as (tree & xs & Ht & Hl & Hf). exists tree, xs. split_and!; try done.
  eapply Forall2_impl; [|exact Hf]. intros a b ?. by exists n.
Qed.

Lemma fields_typed xs v : value_from_field_list xs = Some v →
  ∃ tree, tree_new (length xs) false = Some tree ∧ leaves tree v = Some xs.
Proof.
  unfold value_from_field_list. intros (tree & Ht & Hv)%bind_Some. exists tree. split; [done|].
  destruct (tree_new_inv _ _ _ Ht) as [Hok Hs]. destruct (make_value_ok tree xs Hok) as (v' & Hv' & Hl); [done|]. congruence.
Qed.

Lemma struct_set_type fs v y i f w : has_type v (Tipe.Struct fs) → fs !! i = Some f → has_type y (sf_tipe f) →
  tuple_set (length fs) i v y = Some w → has_type w (Tipe.Struct fs).
Proof.
  intros (tree & xs & Ht & Hl & Hf)%typed_struct Hi Hy Hw. unfold tuple_set in Hw. rewrite Ht in Hw. cbn in Hw.
  rewrite Hl in Hw. cbn in Hw. apply bind_Some in Hw as (x & Hx & Hw).
  destruct (tree_new_inv _ _ _ Ht) as [Hok Hs]. pose proof (leaves_length _ _ _ Hok Hl) as Hlen.
  destruct (make_value_ok tree (<[i := y]> xs) Hok) as (w' & Hw' & Hl'); [by rewrite length_insert|].
  eapply (has_struct tt tree (<[i := y]> xs)); [done|congruence|].
  rewrite <- (list_insert_id fs i f Hi). by apply Forall2_insert.
Qed.

Lemma array_get_of fuel size i v f x : array_of size v f → i < size → array_get fuel size i v = Some x → x = f i.
Proof.
  revert size i v f. induction fuel as [|fuel IH]; intros size i v f Hv Hi Hx; [done|].
  inversion Hv as [? l ? Hs Hl Hf|? l ? Hs Hl Hf]; subst; cbn [array_get] in Hx; destruct (Nat.leb_spec size TUPLE_SIZE); try lia.
  - by apply (Hf i x).
  - apply bind_Some in Hx as (w & Hw & Hx). apply (IH _ _ w _ (Hf _ _ Hw)) in Hx as ->; [|by apply part_index].
    by rewrite index_split.
Qed.

Lemma array_set_of fuel size i y v f w : array_of size v f → array_set fuel size i y v = Some w →
  array_of size w (changed f i y).
Proof.
  revert size i v f w. induction fuel as [|fuel IH]; intros size i v f w Hv Hw; [done|].
  inversion Hv as [? l ? Hs Hl Hf|? l ? Hs Hl Hf]; subst; cbn [array_set] in Hw; destruct (Nat.leb_spec size TUPLE_SIZE); try lia.
  - apply bind_Some in Hw as (x & Hx & [= <-]). by apply array_leaf_changed.
  - apply bind_Some in Hw as (u & Hu & Hw). apply bind_Some in Hw as (u' & Hu' & [= <-]).
    apply array_node_changed; [done..|]. by apply (IH _ _ u _ u' (Hf _ _ Hu)).
Qed.

Lemma array_depth_fits fuel : ∀ d size, size < fuel + TUPLE_SIZE ^ S d →
  fits d (array_depth fuel (TUPLE_SIZE ^ S d) size + d) size.
Proof.
  induction fuel as [|fuel IH]; intros d size Hf; cbn [array_depth].
  { cbn [Nat.add]. split; [lia|by left]. }
  destruct (Nat.ltb_spec (TUPLE_SIZE ^ S d) size) as [Hlt|Hge]; [|cbn [Nat.add]; split; [lia|by left]].
  pose proof (Nat.pow_nonzero TUPLE_SIZE (S d) ltac:(done)).
  destruct (IH (S d) size) as [Hs Hd].
  { rewrite (Nat.pow_succ_r' _ (S d)). unfold TUPLE_SIZE in *. lia. }
  rewrite (Nat.mul_comm _ TUPLE_SIZE), <- Nat.pow_succ_r', Nat.add_succ_comm.
  split; [done|right]. destruct Hd as [->|]; [done|]. done.
Qed.

Lemma new_array_type size x t : has_type x t → has_type (new_array_val size x) (Tipe.FixedArray t size).
Proof.
  intros Hx. rewrite <- (length_replicate size x). apply has_array.
  - rewrite length_replicate. apply full_is_array. pose proof (array_depth_fits size 0 size) as Hf.
    rewrite Nat.add_0_r in Hf. apply Hf. cbn. lia.
  - by apply list.Forall_replicate.
Qed.

Lemma typed_array t size v : has_type v (Tipe.FixedArray t size) →
  ∃ f, array_of size v f ∧ ∀ i, i < size → has_type (f i) t.
Proof.
  intros [[|n] Hv]; [done|]. destruct Hv as (xs & <- & (f & Ha & Hf) & Ht). exists f. split; [done|]. intros i Hi.
  rewrite list.Forall_forall in Ht. exists n. apply Ht. apply list_elem_of_lookup. exists i. auto.
Qed.

Lemma array_typed t size v f : array_of size v f → (∀ i, i < size → has_type (f i) t) → has_type v (Tipe.FixedArray t size).
Proof.
  intros Ha Hf. assert (length (f <$> seq 0 size) = size) as Hl by (by rewrite length_fmap, length_seq).
  rewrite <- Hl. apply has_array.
  - exists f. rewrite Hl. split; [done|]. intros i Hi. rewrite list_lookup_fmap, lookup_seq_lt by done. done.
  - apply list.Forall_forall. intros x (i & -> & Hi%elem_of_seq)%list_elem_of_fmap. apply Hf. lia.
Qed.

Lemma with_index_some size v k w : with_index size v k = Some w → ∃ i, i < size ∧ k i = Some w.
Proof.
  unfold with_index. destruct v as [z| | | |]; try done. destruct (_ && _) eqn:Eb; [|done]. apply andb_prop in Eb as [H1 H2].
  intros Hk. exists (Z.to_nat z). split; [lia|done].
Qed.
End sound.
