(* ===== verification/TypecheckSound.v ===== *)
(** * The type checker is sound: expressions

    Every kind of expression that [typecheck_expr] accepts gives, when the
    reference semantics gives it a meaning, a value of its type.  Four things the
    checker lets through would break this, so [careful_expr] excludes them: an
    unchecked cast to a smaller type, an update of a fixed-size array with a value
    of another type, a pattern that assigns to a variable of another type, and
    the length of a run-time array.  Calls are of named functions. *)

From Stdlib Require Import ZArith Lia.
From S2P Require Import Prelude U256 StringTab Pos Opcodes Crypto BufferTree Values Insns InsnFacts StraightLine TupleTree StripLabels Types TypesThms TypedAst Ast Link Codegen TypecheckOps Typecheck FixedArray ValueTypes VirtualMachine Semantics TypeSound.

#[local] Set Warnings "-clear-no-such-hyp,-register-all".

(** ** Running the checker *)
Lemma tc_bind_ok {A B} (m : TC A) (k : A → TC B) s b s' : mbind k m s = Some (Ok (b, s')) →
  ∃ a s1, m s = Some (Ok (a, s1)) ∧ k a s1 = Some (Ok (b, s')).
Proof. unfold mbind, tc_bind. intros ([[a s1]| |] & Hm & Hk)%bind_Some; try done. eauto. Qed.

Lemma lift_ok {A} (o : option (outcome CompileError A)) s a s' : lift o s = Some (Ok (a, s')) → o = Some (Ok a).
Proof. unfold lift. intros ([x| |] & Ho & H)%bind_Some; try done. congruence. Qed.

Lemma fail_tc_ok {A} d l s (a : A) s' : fail_tc d l s = Some (Ok (a, s')) → False.
Proof. done. Qed.

Lemma forall_olist {A B} (P : B → Prop) (f : A → B) o : Forall (λ x, P (f x)) (olist o) →
  Forall P (olist (match o with Some x => Some (f x) | None => None end)).
Proof. destruct o; [|constructor]. intros [? _]%list.Forall_cons. by repeat constructor. Qed.

Section careful.
Context (fuel : nat) (tt : TypeTree).

Definition assign_ok (t from : Tipe.t) : bool := match assignable fuel tt [] t from with Some true => true | _ => false end.

(** A cast that every value of the type survives. *)
Definition upcast (t from : Tipe.t) : bool :=
  assign_ok t from ||
  match t with
  | Tipe.Union ts => negb (type_eq from Tipe.Void) && existsb (λ m, assign_ok m from) ts
  | _ => false
  end.

Fixpoint const_ok (v : Value.t) (t : Tipe.t) {struct t} : bool :=
  match t with
  | Tipe.Any => true
  | Tipe.Option t =>
      match v with
      | Value.Tuple [Value.Int 0] => true
      | Value.Tuple [Value.Int 1; x] => const_ok x t
      | _ => false
      end
  | _ => int_like t && match v with Value.Int z => (0 <=? z)%Z && (z <? two256)%Z | _ => false end
  end.

Definition careful_kind (k : TypeCheckedExprKind) : bool :=
  match k with
  | Cast e t => upcast t (get_type e)
  | FixedArrayMod _ _ e _ t => match t with Tipe.FixedArray t _ => assign_ok t (get_type e) | _ => false end
  | FunctionCall f _ _ _ => match expr_kind f with FuncRef _ _ => true | _ => false end
  | Unary UnaryOp.Len _ _ => false
  | Const v t => const_ok v t
  | _ => true
  end.

Fixpoint binds_only (p : MatchPattern) : bool :=
  match p with
  | mkMatchPattern (PBind _) _ _ => true
  | mkMatchPattern (PAssign _) _ _ => false
  | mkMatchPattern (PTuple pats) _ _ => forallb binds_only pats
  end.

Definition careful_stat_kind (k : TypeCheckedStatementKind) : bool :=
  match k with
  | SLet pat _ => binds_only pat
  | _ => true
  end.

Inductive careful_expr : TypeCheckedExpr → Prop :=
| careful_e k di : careful_kind k = true → Forall careful_expr (sub_exprs k) → Forall careful_stat (sub_stats k) →
    Forall careful_block (sub_blocks k) → careful_expr (mkExpr k di)
with careful_stat : TypeCheckedStatement → Prop :=
| careful_s k di : careful_stat_kind k = true → Forall careful_expr (stat_exprs k) → Forall careful_stat (stat_stats k) →
    careful_stat (mkStatement k di)
with careful_block : TypeCheckedCodeBlock → Prop :=
| careful_b body ret scope : Forall careful_stat body → Forall careful_expr (olist ret) →
    careful_block (mkBlock body ret scope).

Lemma careful_inv k di : careful_expr (mkExpr k di) →
  careful_kind k = true ∧ Forall careful_expr (sub_exprs k) ∧ Forall careful_stat (sub_stats k) ∧
  Forall careful_block (sub_blocks k).
Proof. by inversion 1. Qed.
End careful.

Section sound.
Context `{Crypto} (parse : string → Z → option Z) (fuel : nat) (tt : TypeTree) (return_type : Tipe.t)
        (global_vars : gmap nat (Tipe.t * nat)) (func_table : gmap nat Tipe.t) (undefinable_ids : gmap nat (option Location.t)).
Context (callf : Label.t → list Value.t → list Value.t → option (option Value.t * list Value.t))
        (string_table : StringTable.t) (imports : gmap nat Label.t) (global_map : gmap nat nat) (release : bool) (sfuel : nat).

Abbreviation has_type := (has_type tt).
Abbreviation gives := (gives tt).
Abbreviation globals_ok := (globals_ok tt global_vars).
Abbreviation sem_ok := (sem_ok tt return_type global_vars).
Abbreviation stats_ok := (stats_ok tt return_type global_vars).
Abbreviation careful := (careful_expr fuel tt).
Abbreviation ev_expr := (eval_expr callf string_table imports global_map release sfuel).
Abbreviation ev_stat := (eval_statement callf string_table imports global_map release sfuel).
Abbreviation ev_block := (eval_block callf string_table imports global_map release sfuel).

(** The label of a function. *)
Definition func_label (name : nat) : Label.t := match imports !! name with Some l => l | None => Label.Func name end.

(** No name stands for [void]. *)
Hypothesis no_void_names : ∀ k t n, tt !! k = Some (t, n) → t ≠ Tipe.Void.
(** Functions of the table have function types, respect them, and leave the globals well typed. *)
Hypothesis functions_typed : ∀ name t, func_table !! name = Some t → ∃ impure ts ret, t = Tipe.Func impure ts ret.
Hypothesis functions_ok : ∀ name impure ts ret vals g v g',
  func_table !! name = Some (Tipe.Func impure ts ret) →
  Forall2 has_type vals ts → globals_ok g → callf (func_label name) vals g = Some (v, g') →
  gives ret v ∧ globals_ok g'.
(** The libraries written in Mini are not part of the module: nothing is known of arrays and maps. *)
Hypothesis libraries : ∀ b id vals g,
  b ∈ ["builtin_arrayNew"; "builtin_arrayGet"; "builtin_arraySet"; "builtin_kvsNew"; "builtin_kvsGet"; "builtin_kvsSet"] →
  StringTable.get_if_exists string_table b = Some id → callf (func_label id) vals g = None.
Hypothesis assert_ok : ∀ id vals g v g', StringTable.get_if_exists string_table "builtin_assert" = Some id →
  globals_ok g → callf (func_label id) vals g = Some (v, g') → globals_ok g'.

(** A global has one place. *)
Hypothesis globals_distinct : ∀ x y t1 t2 idx,
  global_vars !! x = Some (t1, idx) → global_vars !! y = Some (t2, idx) → t1 = t2.

(** ** Types *)
Lemma void_representation n t : representation_loop n tt t = Some (Ok Tipe.Void) → t = Tipe.Void.
Proof using no_void_names.
  revert t. induction n as [|n IH]; intros t Hr; destruct t; try (by simplify_eq/=). cbn [representation_loop] in Hr.
  destruct (tt !! (path, id)) as [[t name]|] eqn:Et; [|done]. apply IH in Hr as ->. by apply no_void_names in Et.
Qed.

Lemma assignable_void n seen t : assignable n tt seen t Tipe.Void = Some true → seen = [] → t = Tipe.Void.
Proof using no_void_names.
  intros Ha ->. destruct n as [|n]; [done|]. cbn [assignable type_eq] in Ha. destruct t; try (by simplify_eq/=).
  apply bind_Some in Ha as (lr & Hl & Ha). apply bind_Some in Ha as (rr & Hr & Ha).
  destruct lr as [l| |]; try done. destruct rr as [r| |]; try done. injection Hr as <-.
  pose proof (representation_not_named tt _ _ _ Hl) as Hn.
  assert (l ≠ Tipe.Void) as Hv by (intros ->; by apply void_representation in Hl).
  unfold insert in Ha. rewrite bool_decide_eq_false_2 in Ha by (by intros ?%elem_of_nil).
  destruct n as [|n]; [done|]. cbn [assignable type_eq] in Ha. destruct l; try (by simplify_eq/=). by destruct (Hn path0 id0).
Qed.

Lemma assignable_gives t1 t2 o : assignable fuel tt [] t1 t2 = Some true → gives t2 o → gives t1 o.
Proof using no_void_names.
  intros Ha. destruct o as [v|]; cbn; [by apply (assignable_has tt fuel)|]. intros ->. by apply (assignable_void fuel []).
Qed.

Lemma const_ok_type v t : const_ok v t = true → has_type v t.
Proof using Type.
  revert v. induction t; intros v Hv; try discriminate Hv; try apply has_any;
    try (by destruct v as [z| | | |]; try discriminate Hv; apply andb_prop in Hv as [H1 H2]; exists 1, z; split;
         [done|]; unfold Uint256.wf; lia).
  destruct v as [|l| | |]; try done. destruct l as [|x l]; [done|]. destruct x as [z| | | |]; try done.
  destruct z as [|[]|]; try done; destruct l as [|y [|]]; try done; [apply has_none|by apply has_some; [|apply IHt]].
Qed.

(** ** Operators *)
Definition check_ok (c : check) : Prop := ∀ tbl s e s', c tbl s = Some (Ok (e, s')) → careful e →
  sem_ok tbl (get_type e) (ev_expr e).
Definition kind_ok (k : kind_check) : Prop := ∀ tbl s kd s' di, k tbl s = Some (Ok (kd, s')) → careful (mkExpr kd di) →
  sem_ok tbl (get_type (mkExpr kd di)) (ev_expr (mkExpr kd di)).

Lemma with_debug_ok k di : kind_ok k → check_ok (with_debug_info k di).
Proof using Type.
  intros Hk tbl s e s' He. apply tc_bind_ok in He as (kd & s1 & Hkd & [= <- <-]). intros Hc. by eapply Hk.
Qed.

Lemma const_sem_ok v t di tbl : careful (mkExpr (Const v t) di) → sem_ok tbl t (ev_expr (mkExpr (Const v t) di)).
Proof using Type.
  intros [Hc _]%careful_inv. apply give_ok. intros w [= <-]. by apply const_ok_type.
Qed.

(** What an operator may become. *)
Definition operator_result (k : TypeCheckedExprKind) (good : TypeCheckedExprKind → Prop) : Prop :=
  (∃ v t, k = Const v t) ∨ good k.

Lemma representation_word e rep v : get_representation tt (get_type e) = Some (Ok rep) → int_like rep = true →
  has_type v (get_type e) → word v.
Proof using Type. intros Hr Hi Hv. by eapply (type_word tt), has_representation. Qed.

Lemma with_representation_ok {A} t (k : Tipe.t → option (outcome CompileError A)) a :
  with_representation tt t k = Some (Ok a) → ∃ r, get_representation tt t = Some (Ok r) ∧ k r = Some (Ok a).
Proof using Type. unfold with_representation. intros ([r| |] & Hr & Hk)%bind_Some; try done. eauto. Qed.

Lemma unary_shape op e loc k : typecheck_unary_op parse op e loc tt = Some (Ok k) →
  operator_result k (λ k, ∃ t rep, k = Unary op e t ∧ int_like t = true ∧
    get_representation tt (get_type e) = Some (Ok rep) ∧ (op = UnaryOp.Len ∨ op = UnaryOp.Hash ∨ int_like rep = true)).
Proof using Type.
  intros (rep & Hr & Hk)%with_representation_ok. apply (inj Some) in Hk. unfold convert in Hk.
  destruct op; cbn beta iota in Hk;
    repeat (case_match; simplify_eq; try (by left; eauto); try (by right; eauto 12)).
  all: try (destruct (unwrap _); cbn in *; simplify_eq; left; eauto; fail).
  destruct (unwrap (Uint256.from_string_hex _ _)) as [b| |]; try discriminate Hk. cbn in Hk.
  destruct (unwrap (Uint256.modulo _ _)); try discriminate Hk. injection Hk as <-. left; eauto.
Qed.

Lemma tc_unary_ok op sub loc : check_ok sub → kind_ok (tc_unary parse tt op sub loc).
Proof using Type.
  intros Hs tbl s kd s' di Hk Hc. apply tc_bind_ok in Hk as (e & s1 & He & Hk%lift_ok).
  destruct (unary_shape _ _ _ _ Hk) as [(v & t & ->)|(t & rep & -> & Ht & Hr & Hop)]; [by apply const_sem_ok|].
  apply careful_inv in Hc as (Hl & Hce & _). pose proof (List.Forall_inv Hce) as Hce'.
  eapply value_ok; [by eapply Hs|]. intros v Hv. apply give_ok. intros w Hw.
  apply word_type; [done|]. destruct Hop as [->|[->|Hrep]]; [done|by destruct v|].
  apply (unary_val_word op v); [by intros ->|by eapply representation_word|done].
Qed.

(** The operands of a binary operator other than an equality are integers. *)
Definition binary_good (k : TypeCheckedExprKind) (a b : TypeCheckedExpr) : Prop :=
  ∃ op t ra rb, k = Binary op a b t ∧ int_like t = true ∧
    get_representation tt (get_type a) = Some (Ok ra) ∧ get_representation tt (get_type b) = Some (Ok rb) ∧
    (equality op = true ∨ is_get_buffer op = true ∨ op = BinaryOp.LogicalAnd_ ∨ (int_like ra = true ∧ int_like rb = true)).

Lemma binary_by_type_good op a b ra rb loc k : binary_by_type op a b ra rb loc = Ok k →
  get_representation tt (get_type a) = Some (Ok ra) → get_representation tt (get_type b) = Some (Ok rb) →
  binary_good k a b.
Proof using Type.
  intros Hk Ha Hb. unfold binary_good.
  destruct op; cbn [binary_by_type] in Hk; unfold arith_op, get_buffer_op in Hk; try discriminate Hk;
    repeat (case_match; try discriminate Hk);
    injection Hk as <-; do 4 eexists; (split; [done|]; split; [done|]; split; [exact Ha|]; split; [exact Hb|]);
    first [by left | by right; left | by right; right; left | by right; right; right].
Qed.

Lemma fold_shape op v1 t1 v2 t2 loc k : typecheck_binary_op_const op v1 t1 v2 t2 loc = Ok k → ∃ v t, k = Const v t.
Proof using Type.
  intros Hk. destruct op; cbn [typecheck_binary_op_const] in Hk; unfold div_const, compare_const, shift_const, bool_const in Hk;
    try discriminate Hk; repeat (case_match; try discriminate Hk); try (injection Hk as <-; eauto);
    match type of Hk with mbind _ ?o = _ => destruct o; cbn in Hk; try discriminate Hk end;
    repeat (case_match; try discriminate Hk); injection Hk as <-; eauto.
Qed.

Lemma binary_shape op e1 e2 loc k : typecheck_binary_op op e1 e2 tt loc = Some (Ok k) →
  operator_result k (λ k, binary_good k e1 e2 ∨ binary_good k e2 e1).
Proof using Type.
  assert (∀ op a b k, binary_general op a b tt loc = Some (Ok k) → binary_good k a b) as Hgen.
  { intros op' a b k' (ra & Ha & (rb & Hb & Hk)%with_representation_ok)%with_representation_ok.
    apply (inj Some) in Hk. by eapply binary_by_type_good. }
  unfold typecheck_binary_op. intros Hk. repeat (case_match; try (by right; eauto)).
  left. apply (inj Some) in Hk. by eapply fold_shape.
Qed.

Lemma binary_good_ok k a b tbl di : binary_good k a b → sem_ok tbl (get_type a) (ev_expr a) →
  sem_ok tbl (get_type b) (ev_expr b) → sem_ok tbl (get_type (mkExpr k di)) (ev_expr (mkExpr k di)).
Proof using Type.
  intros (op & t & ra & rb & -> & Ht & Ha & Hb & Hop) Hsa Hsb.
  eapply value_ok; [exact Hsb|]. intros v2 Hv2. eapply value_ok; [exact Hsa|]. intros v1 Hv1.
  apply give_ok. intros w Hw. apply word_type; [done|].
  destruct Hop as [Heq|[Hg|[->|[Hia Hib]]]].
  - apply (binary_val_word op v1 v2); [by left|done].
  - destruct op; try discriminate Hg; cbn in Hw; by destruct v1, v2.
  - cbn in Hw. by destruct v1, v2.
  - apply (binary_val_word op v1 v2); [right|done].
    exact (conj (representation_word a ra v1 Ha Hia Hv1) (representation_word b rb v2 Hb Hib Hv2)).
Qed.

Lemma tc_binary_ok op sub1 sub2 loc : check_ok sub1 → check_ok sub2 → kind_ok (tc_binary tt op sub1 sub2 loc).
Proof using Type.
  intros H1 H2 tbl s kd s' di Hk Hc. apply tc_bind_ok in Hk as (e1 & s1 & He1 & Hk).
  apply tc_bind_ok in Hk as (e2 & s2 & He2 & Hk%lift_ok).
  destruct (binary_shape _ _ _ _ _ Hk) as [(v & t & ->)|Hgood]; [by apply const_sem_ok|].
  assert (careful e1 ∧ careful e2) as [Hc1 Hc2].
  { apply careful_inv in Hc as (_ & Hce & _).
    destruct Hgood as [(op' & t & ra & rb & -> & _)|(op' & t & ra & rb & -> & _)]; cbn [sub_exprs] in Hce;
      by do 2 (apply list.Forall_cons in Hce as [? Hce]). }
  destruct Hgood; eapply binary_good_ok; try done; by eauto.
Qed.

(** Expressions without a meaning. *)
Lemma undefined_ok k tbl di : ev_expr (mkExpr k di) = (λ _, None) → sem_ok tbl (get_type (mkExpr k di)) (ev_expr (mkExpr k di)).
Proof using Type. intros ->. apply none_ok. Qed.

Lemma tc_trinary_ok op sub1 sub2 sub3 loc : kind_ok (tc_trinary tt op sub1 sub2 sub3 loc).
Proof using Type.
  intros tbl s kd s' di Hk _. do 3 (apply tc_bind_ok in Hk as (? & ? & _ & Hk)). apply lift_ok in Hk.
  apply with_representation_ok in Hk as (? & _ & Hk). apply with_representation_ok in Hk as (? & _ & Hk).
  apply with_representation_ok in Hk as (? & _ & Hk). apply (inj Some) in Hk.
  repeat (case_match; try discriminate Hk). injection Hk as <-. by apply undefined_ok.
Qed.

(** One sub-expression. *)
Ltac sub_careful Hc := apply careful_inv in Hc as (Hkind & Hsubs & _ & Hblocks);
  cbn [sub_exprs olist] in Hsubs; repeat match goal with
  | Hf : Forall _ (_ :: _) |- _ => apply list.Forall_cons in Hf as [? ?]
  end.
Ltac tc_next Hk := let e := fresh "e" in let s := fresh "s" in let He := fresh "He" in
  apply tc_bind_ok in Hk as (e & s & He & Hk).

Lemma tc_shortcut_ok c m sub1 sub2 loc (sem : sem → sem → sem) : check_ok sub1 → check_ok sub2 →
  (∀ e1 e2, sub_exprs (c e1 e2) = [e1; e2] ∧ (∀ di, get_type (mkExpr (c e1 e2) di) = Tipe.Bool) ∧
            (∀ di, ev_expr (mkExpr (c e1 e2) di) = sem (ev_expr e1) (ev_expr e2))) →
  (∀ tbl m1 m2, sem_ok tbl Tipe.Bool m1 → sem_ok tbl Tipe.Bool m2 → sem_ok tbl Tipe.Bool (sem m1 m2)) →
  kind_ok (tc_shortcut c m sub1 sub2 loc).
Proof using Type.
  intros H1 H2 Hsem Hok tbl s kd s' di Hk Hc. unfold tc_shortcut in Hk. tc_next Hk. tc_next Hk.
  destruct (type_eq (get_type e) _) eqn:E1; [|done]. destruct (type_eq (get_type e0) _) eqn:E2; [|done].
  injection Hk as <- <-. destruct (Hsem e e0) as (Hs & Ht & Hev). apply careful_inv in Hc as (_ & Hc & _).
  rewrite Hs in Hc. apply list.Forall_cons in Hc as [Hc1 Hc]. apply list.Forall_cons in Hc as [Hc2 _].
  rewrite Ht, Hev. apply type_eq_spec in E1, E2. apply Hok; [rewrite <- E1|rewrite <- E2]; by eauto.
Qed.

Lemma or_ok tbl m1 m2 : sem_ok tbl Tipe.Bool m1 → sem_ok tbl Tipe.Bool m2 → sem_ok tbl Tipe.Bool (sem_or m1 m2).
Proof using Type.
  intros H1 H2. eapply value_ok; [exact H1|]. intros v Hv. destruct v as [x| | | |]; try apply none_ok.
  destruct (x =? 0)%Z; [done|]. apply give_ok. by intros w [= <-].
Qed.
Lemma and_ok tbl m1 m2 : sem_ok tbl Tipe.Bool m1 → sem_ok tbl Tipe.Bool m2 → sem_ok tbl Tipe.Bool (sem_and m1 m2).
Proof using Type.
  intros H1 H2. eapply value_ok; [exact H1|]. intros v Hv. destruct v as [x| | | |]; try apply none_ok.
  apply choose_ok; [done|]. apply give_ok. by intros w [= <-].
Qed.

Lemma tc_shortcut_or_ok sub1 sub2 loc : check_ok sub1 → check_ok sub2 → kind_ok (tc_shortcut_or sub1 sub2 loc).
Proof using Type. intros H1 H2. eapply tc_shortcut_ok; [done|done|by intros|]. apply or_ok. Qed.
Lemma tc_shortcut_and_ok sub1 sub2 loc : check_ok sub1 → check_ok sub2 → kind_ok (tc_shortcut_and sub1 sub2 loc).
Proof using Type. intros H1 H2. eapply tc_shortcut_ok; [done|done|by intros|]. apply and_ok. Qed.

(** ** Variables and parts *)
Lemma tc_option_initializer_ok inner : check_ok inner → kind_ok (tc_option_initializer inner).
Proof using Type.
  intros Hi tbl s kd s' di Hk Hc. unfold tc_option_initializer in Hk. tc_next Hk. injection Hk as <- <-. sub_careful Hc.
  eapply value_ok; [by eapply Hi|]. intros v Hv. apply give_ok. intros w [= <-]. by apply has_some.
Qed.

Lemma local_ok tbl x t : tbl !! x = Some t → sem_ok tbl t (sem_local x).
Proof using Type.
  intros Ht Δ σ r Htbl Hσ (v & Hv & [= <-])%bind_Some. split; [|done].
  destruct (env_lookup tt _ _ _ _ (proj1 Hσ) Hv) as (t' & Ht' & Hvt). apply Htbl in Ht'. cbn. congruence.
Qed.

Lemma global_ok tbl x t idx : global_vars !! x = Some (t, idx) → sem_ok tbl t (sem_global idx).
Proof using Type.
  intros Ht Δ σ r _ Hσ (v & Hv & [= <-])%bind_Some. split; [|done]. destruct Hσ as [_ Hg]. by apply (Hg x t idx v).
Qed.

Lemma tc_variable_ref_ok name loc : kind_ok (tc_variable_ref global_vars func_table name loc).
Proof using functions_typed.
  intros tbl s kd s' di Hk _. unfold tc_variable_ref in Hk. destruct (func_table !! name) as [t|] eqn:Ef.
  { injection Hk as <- <-. destruct (functions_typed _ _ Ef) as (i & a & r & ->). apply give_ok. intros w [= <-].
    exists 1. by eexists. }
  destruct (tbl !! name) as [t|] eqn:Et; [injection Hk as <- <-; by apply local_ok|].
  destruct (global_vars !! name) as [[t idx]|] eqn:Eg; [injection Hk as <- <-; by eapply global_ok|done].
Qed.

Lemma to_usize_id x y : Uint256.to_usize x = Some y → y = x.
Proof using Type. unfold Uint256.to_usize. destruct (_ <? _)%Z; congruence. Qed.

Lemma tc_tuple_ref_ok tref idx loc : check_ok tref → kind_ok (tc_tuple_ref tref idx loc).
Proof using Type.
  intros Hi tbl s kd s' di Hk Hc. unfold tc_tuple_ref in Hk. tc_next Hk.
  destruct (Uint256.to_usize idx) as [u|] eqn:Eu; [|done]. apply to_usize_id in Eu as ->.
  destruct (get_type e) as [| | | | | | |tv| | | | | | | | | |] eqn:Et; try done.
  destruct (tv !! Z.to_nat idx) as [t|] eqn:Etv; [|done]. injection Hk as <- <-. sub_careful Hc.
  cbn [eval_expr get_type expr_kind]. rewrite Et. eapply value_ok; [by eapply Hi|].
  intros v Hv. rewrite Et in Hv. apply typed_tuple in Hv as (tree & xs & Htr & Hl & Hf).
  apply give_ok. intros w Hw. by apply (tuple_get_type tt (λ t, t) tv tree v xs (Z.to_nat idx)).
Qed.

Lemma slot_by_name fields name slot : get_struct_slot_by_name (Tipe.Struct fields) name = Some slot →
  ∃ sf, list_find (λ sf, sf_name sf = name) fields = Some (slot, sf) ∧ fields !! slot = Some sf.
Proof using Type.
  cbn [get_struct_slot_by_name].
  assert (∀ fields i, (fix go (i : nat) (l : list (StructField Tipe.t)) : option nat :=
         match l with
         | [] => None
         | f :: l => if bool_decide (sf_name f = name) then Some i else go (S i) l
         end) i fields = Some slot → ∃ j sf, slot = i + j ∧ list_find (λ sf, sf_name sf = name) fields = Some (j, sf) ∧
                                       fields !! j = Some sf) as Hgo.
  { clear fields. induction fields as [|f fields IH]; intros i Hs; [done|]. cbn [list_find].
    destruct (decide (sf_name f = name)) as [Hn|Hn].
    - rewrite bool_decide_eq_true_2 in Hs by done. injection Hs as <-. exists 0, f. split_and!; [lia|done|done].
    - rewrite bool_decide_eq_false_2 in Hs by done. destruct (IH _ Hs) as (j & sf & -> & Hf & Hl).
      exists (S j), sf. rewrite Hf. split_and!; [lia|done|done]. }
  intros Hs. destruct (Hgo fields 0 Hs) as (j & sf & -> & Hf & Hl). exists sf. done.
Qed.

Lemma field_ok tbl t size i f m : sem_ok tbl t m → ∀ fields, get_representation tt t = Some (Ok (Tipe.Struct fields)) →
  size = length fields → fields !! i = Some f → sem_ok tbl (sf_tipe f) (sem_field size i m).
Proof using Type.
  intros Hm fields Hr -> Hf. eapply value_ok; [exact Hm|]. intros v Hv.
  eapply has_representation in Hv; [|exact Hr]. apply typed_struct in Hv as (tree & xs & Htr & Hl & Hx).
  apply give_ok. intros w Hw. by apply (tuple_get_type tt sf_tipe fields tree v xs i).
Qed.

Lemma tc_dot_ref_ok sref name loc : check_ok sref → kind_ok (tc_dot_ref tt sref name loc).
Proof using Type.
  intros Hi tbl s kd s' di Hk Hc. unfold tc_dot_ref in Hk. tc_next Hk. tc_next Hk. apply lift_ok in He0 as Hr.
  destruct e0 as [| | | | | | | | | |v| | | | | | |]; try done.
  destruct (list_find _ v) as [[j sf]|] eqn:Ef; [|done]. tc_next Hk. apply lift_ok in He1. rewrite Hr in He1.
  injection He1 as <-. destruct (get_struct_slot_by_name _ name) as [slot|] eqn:Es; [|done]. injection Hk as <- <-.
  sub_careful Hc. apply slot_by_name in Es as (sf' & Hf' & Hl). rewrite Ef in Hf'. injection Hf' as -> ->.
  cbn [get_type expr_kind eval_expr]. by eapply (field_ok tbl (get_type e)); [eapply Hi| | |].
Qed.

Lemma tc_constant_ok c : kind_ok (tc_constant c).
Proof using Type.
  intros tbl s kd s' di Hk Hc. unfold tc_constant in Hk. injection Hk as <- <-. destruct c; by apply const_sem_ok.
Qed.

(** ** Calls *)
Lemma fail_unwrap_or_ok {A} d a b loc s (x : A) s' : fail_unwrap_or fuel tt d a b loc s = Some (Ok (x, s')) → False.
Proof using Type. unfold fail_unwrap_or. by intros (m & _ & Hm)%bind_Some. Qed.
Lemma fail_expect_ok {A} d a b loc s (x : A) s' : fail_expect fuel tt d a b loc s = Some (Ok (x, s')) → False.
Proof using Type. unfold fail_expect. by intros ([] & _ & Hm)%bind_Some. Qed.

(** The branch that is not an error. *)
Ltac tc_fails Hk := first [discriminate Hk | by apply fail_unwrap_or_ok in Hk | by apply fail_expect_ok in Hk
  | by let H := fresh in apply tc_bind_ok in Hk as (? & ? & _ & H)].

Lemma gives_representation t r o : get_representation tt t = Some (Ok r) → gives t o → gives r o.
Proof using Type.
  intros Hr. destruct o as [v|]; cbn; [by apply has_representation|]. intros ->. by injection Hr as <-.
Qed.

Lemma assigns_ok t rhs s s' : assigns fuel tt t rhs s = Some (Ok (true, s')) → assignable fuel tt [] t rhs = Some true.
Proof using Type. unfold assigns. intros (b & Hb & [= -> _])%bind_Some. done. Qed.

Lemma tc_args_ok args loc tbl : Forall check_ok args → ∀ ts s es s', length args = length ts →
  tc_args fuel tt args ts loc tbl s = Some (Ok (es, s')) → Forall careful es → Forall2 (sem_ok tbl) ts (map ev_expr es).
Proof using no_void_names.
  induction 1 as [|c args Hc _ IH]; intros [|t ts] s es s' Hl Hk Hes; try done; [injection Hk as <- _; constructor|].
  cbn [tc_args] in Hk. tc_next Hk. tc_next Hk. apply lift_ok in He0. tc_next Hk. destruct e1; [|tc_fails Hk].
  apply assigns_ok in He1. tc_next Hk. injection Hk as <- <-. apply list.Forall_cons in Hes as [Hce Hes]. cbn [map].
  constructor; [|by eapply IH; [injection Hl| |]]. eapply weaken_ok; [|by eapply Hc]. intros o Ho.
  eapply assignable_gives; [exact He1|]. by eapply gives_representation.
Qed.

Lemma call_ok tbl name impure ts ret args t : func_table !! name = Some (Tipe.Func impure ts ret) →
  (t = ret ∨ t = Tipe.Every) → Forall2 (sem_ok tbl) ts args →
  sem_ok tbl t (sem_call callf (sem_func_ref imports name) args t).
Proof using functions_ok.
  intros Hf Ht Hargs. unfold sem_call. destruct (type_eq Tipe.Every t) eqn:Ee; [apply none_ok|].
  destruct Ht as [->| ->]; [|done].
  eapply operands_ok; [by apply Forall2_rev|by constructor|]. intros vals Hv. rewrite rev_involutive, app_nil_r in Hv.
  intros Δ σ r Htbl [He Hg] Hr. cbn in Hr. apply bind_Some in Hr as ([v g'] & Hcall & [= <-]).
  destruct (functions_ok name impure ts ret vals (globals σ) v g' Hf Hv Hg Hcall) as [Hgv Hg']. done.
Qed.

(** A call of a library function has no meaning. *)
Lemma builtin_none tbl t b ms ft : b ∈ ["builtin_arrayNew"; "builtin_arrayGet"; "builtin_arraySet"; "builtin_kvsNew"; "builtin_kvsGet"; "builtin_kvsSet"] →
  Forall (λ m, ∃ t, sem_ok tbl t m) ms → sem_ok tbl t (sem_builtin callf string_table imports b ms ft).
Proof using libraries.
  intros Hb Hms. unfold sem_builtin. destruct (StringTable.get_if_exists string_table b) as [id|] eqn:Eid; [|apply none_ok].
  unfold sem_call. destruct (type_eq _ _); [apply none_ok|].
  assert (∃ ts, Forall2 (sem_ok tbl) ts ms) as [ts Hts].
  { induction Hms as [|m ms [u Hm] _ [ts IH]]; [by exists []|]. exists (u :: ts). by constructor. }
  eapply operands_ok; [by apply Forall2_rev|by constructor|]. intros vals _ Δ σ r _ _ Hr. cbn in Hr.
  fold (func_label id) in Hr. by rewrite (libraries b id vals (globals σ) Hb Eid) in Hr.
Qed.

(** A reference to a function has the type of the table. *)
Definition func_known (c : check) : Prop := ∀ tbl s name t di s',
  c tbl s = Some (Ok (mkExpr (FuncRef name t) di, s')) → func_table !! name = Some t.

Lemma tc_function_call_ok f args loc : func_known f → Forall check_ok args →
  kind_ok (tc_function_call fuel tt f args loc).
Proof using no_void_names functions_typed functions_ok.
  intros Hf Hargs tbl s kd s' di Hk Hc. unfold tc_function_call in Hk. tc_next Hk. tc_next Hk. apply lift_ok in He0.
  destruct e0; try (tc_next Hk; done). destruct (Nat.eqb_spec (length args) (length args0)) as [Hl|]; [|done].
  tc_next Hk. injection Hk as <- <-. apply careful_inv in Hc as (Hkind & Hsubs & _).
  apply list.Forall_cons in Hsubs as [_ Hsubs]. destruct e as [[] di0]; try discriminate Hkind.
  apply Hf in He. destruct (functions_typed _ _ He) as (i & ts & r & ->). cbn in He0. injection He0 as -> -> ->.
  cbn [get_type expr_kind eval_expr]. eapply call_ok; [exact He|by left|]. by eapply tc_args_ok.
Qed.

(** ** Arrays, structs and tuples *)
Ltac library := cbn [get_type expr_kind eval_expr]; apply builtin_none;
  [repeat first [apply list_elem_of_here | apply list_elem_of_further]
  |repeat match goal with |- Forall _ (_ :: _) => apply List.Forall_cons | |- Forall _ [] => apply List.Forall_nil end;
   try match goal with
     Hc : check_ok ?c, He : ?c _ _ = Some (Ok (?e, _)) |- ∃ _, sem_ok _ _ (ev_expr ?e) => eexists; by eapply Hc
   end].

Lemma tc_array_or_map_ref_ok array index loc : check_ok array → check_ok index →
  kind_ok (tc_array_or_map_ref fuel tt array index loc).
Proof using libraries.
  intros Ha Hi tbl s kd s' di Hk Hc. unfold tc_array_or_map_ref in Hk. do 3 tc_next Hk. apply lift_ok in He1 as Hr.
  destruct e1; try (tc_next Hk; done); (destruct (type_eq _ _); [|tc_fails Hk]); injection Hk as <- <-; sub_careful Hc;
    cbn [get_type expr_kind eval_expr];
    try (library).
  eapply value_ok; [by eapply Ha|]. intros v Hv. eapply has_representation in Hv; [|exact Hr].
  eapply value_ok; [by eapply Hi|]. intros w _. apply give_ok. intros x (i & Hlt & Hx)%with_index_some.
  apply typed_array in Hv as (f & Hf & Ht). apply (array_get_of _ _ _ _ f) in Hx as ->; [|done..]. by apply Ht.
Qed.

Lemma tc_new_array_ok size t : check_ok size → kind_ok (tc_new_array tt size t).
Proof using libraries.
  intros Hs tbl s kd s' di Hk Hc. unfold tc_new_array in Hk. do 2 tc_next Hk. injection Hk as <- <-. sub_careful Hc.
  cbn [get_type expr_kind eval_expr]. unfold sem_new_heap_array. destruct (default_value e0) as [[d b]|]; [|apply none_ok].
  library. exists Tipe.Any. apply give_ok. intros. apply has_any.
Qed.

Lemma tc_new_fixed_array_ok size o : Forall check_ok (olist o) → kind_ok (tc_new_fixed_array size o).
Proof using Type.
  intros Ho tbl s kd s' di Hk Hc. unfold tc_new_fixed_array in Hk. destruct o as [c|].
  - apply list.Forall_cons in Ho as [Ho _]. tc_next Hk. injection Hk as <- <-. sub_careful Hc. eapply value_ok; [by eapply Ho|].
    intros v Hv. apply give_ok. intros w [= <-]. by apply new_array_type.
  - injection Hk as <- <-. apply give_ok. intros w [= <-]. apply new_array_type, has_any.
Qed.

Lemma assign_ok_spec t from : assign_ok fuel tt t from = true → assignable fuel tt [] t from = Some true.
Proof using Type. unfold assign_ok. by destruct (assignable _ _ _ _ _) as [[]|]. Qed.

Lemma upcast_gives t from o : upcast fuel tt t from = true → gives from o → gives t o.
Proof using no_void_names.
  unfold upcast. intros [Ha%assign_ok_spec|Hu]%orb_prop; [by apply assignable_gives|].
  destruct t; try done. apply andb_prop in Hu as [Hv Hex]. apply existsb_exists in Hex as (m & Hm & Ha%assign_ok_spec).
  destruct o as [v|]; [|by intros ->]. intros Hf. eapply has_member; [by apply list_elem_of_In|].
  by apply (assignable_has tt fuel m from).
Qed.

Lemma cast_ok e t tbl di : careful (mkExpr (Cast e t) di) → sem_ok tbl (get_type e) (ev_expr e) →
  sem_ok tbl t (ev_expr (mkExpr (Cast e t) di)).
Proof using no_void_names.
  intros [Hkind _]%careful_inv He. eapply weaken_ok; [|exact He]. intros o. by apply upcast_gives.
Qed.

Lemma tc_new_union_ok types c loc : check_ok c → kind_ok (tc_new_union fuel tt types c loc).
Proof using no_void_names.
  intros Hs tbl s kd s' di Hk Hc. unfold tc_new_union in Hk. do 2 tc_next Hk. destruct e0; [|done].
  injection Hk as <- <-. apply cast_ok; [done|]. sub_careful Hc. by eapply Hs.
Qed.
Lemma tc_unsafe_cast_ok c t : check_ok c → kind_ok (tc_unsafe_cast c t).
Proof using no_void_names.
  intros Hs tbl s kd s' di Hk Hc. unfold tc_unsafe_cast in Hk. tc_next Hk.
  injection Hk as <- <-. apply cast_ok; [done|]. sub_careful Hc. by eapply Hs.
Qed.
Lemma tc_union_cast_ok c t loc : check_ok c → kind_ok (tc_union_cast tt c t loc).
Proof using no_void_names.
  intros Hs tbl s kd s' di Hk Hc. unfold tc_union_cast in Hk. do 2 tc_next Hk. destruct e0; try done.
  destruct (existsb _ _); [|done]. injection Hk as <- <-. apply cast_ok; [done|]. sub_careful Hc. by eapply Hs.
Qed.

(** Fields of a struct or a tuple, each with its type. *)
Lemma fields_ok {A} (f : A → Tipe.t) (mk : list A → Tipe.t) tbl (l : list A) ms :
  (∀ tree xs v, tree_new (length l) false = Some tree → leaves tree v = Some xs →
     Forall2 (λ x a, has_type x (f a)) xs l → has_type v (mk l)) →
  Forall2 (sem_ok tbl) (f <$> l) ms → sem_ok tbl (mk l) (sem_struct ms).
Proof using Type.
  intros Hmk Hms. eapply operands_ok; [by apply Forall2_rev|by constructor|]. intros vals Hv.
  rewrite rev_involutive, app_nil_r in Hv. apply give_ok. intros v (tree & Ht & Hl)%fields_typed.
  apply (Hmk tree vals v); [|done|].
  - by rewrite <- (length_fmap f l), <- (Forall2_length Hv).
  - exact (proj1 (Forall2_fmap_r f (λ x t, has_type x t) vals l) Hv).
Qed.

Lemma tc_list_ok cs tbl : Forall check_ok cs → ∀ s es s', tc_list cs tbl s = Some (Ok (es, s')) → Forall careful es →
  Forall2 (sem_ok tbl) (get_type <$> es) (map ev_expr es).
Proof using Type.
  induction 1 as [|c cs Hc _ IH]; intros s es s' Hk Hes; cbn [tc_list] in Hk; [injection Hk as <- _; constructor|].
  do 2 tc_next Hk. injection Hk as <- <-. apply list.Forall_cons in Hes as [Hce Hes].
  constructor; [by eapply Hc|by eapply IH].
Qed.

Lemma tc_tuple_ok cs : Forall check_ok cs → kind_ok (tc_tuple cs).
Proof using Type.
  intros Hcs tbl s kd s' di Hk Hc. unfold tc_tuple in Hk. tc_next Hk. injection Hk as <- <-.
  apply careful_inv in Hc as (_ & Hsubs & _). cbn [get_type expr_kind eval_expr]. unfold sem_tuple.
  destruct (Nat.leb _ _); [|apply none_ok].
  apply (fields_ok (λ t, t) Tipe.Tuple).
  - intros tree xs v Ht Hl Hf. by eapply has_tuple.
  - rewrite list_fmap_id. by eapply tc_list_ok.
Qed.

Lemma tc_fields_ok cs tbl : Forall check_ok (fi_value <$> cs) → ∀ s es s', tc_fields cs tbl s = Some (Ok (es, s')) →
  Forall careful (fi_value <$> es) →
  Forall2 (sem_ok tbl) ((λ f, get_type (fi_value f)) <$> es) (map (λ f, ev_expr (fi_value f)) es).
Proof using Type.
  induction cs as [|c cs IH]; intros Hcs s es s' Hk Hes; cbn [tc_fields] in Hk; [injection Hk as <- _; constructor|].
  do 2 tc_next Hk. injection Hk as <- <-. cbn in Hcs, Hes. apply list.Forall_cons in Hes as [Hce Hes], Hcs as [Hc Hcs].
  constructor; [by eapply Hc|by eapply IH].
Qed.

Lemma tc_struct_initializer_ok cs : Forall check_ok (fi_value <$> cs) → kind_ok (tc_struct_initializer cs).
Proof using Type.
  intros Hcs tbl s kd s' di Hk Hc. unfold tc_struct_initializer in Hk. tc_next Hk. injection Hk as <- <-.
  apply careful_inv in Hc as (_ & Hsubs & _). cbn [get_type expr_kind eval_expr].
  apply (fields_ok sf_tipe Tipe.Struct).
  - intros tree xs v Ht Hl Hf. by eapply has_struct.
  - rewrite <- list_fmap_compose. by eapply tc_fields_ok.
Qed.

Lemma tc_array_or_map_mod_ok arr index val loc : check_ok arr → check_ok index → check_ok val →
  kind_ok (tc_array_or_map_mod fuel tt arr index val loc).
Proof using libraries.
  intros Ha Hi Hv tbl s kd s' di Hk Hc. unfold tc_array_or_map_mod in Hk. do 4 tc_next Hk. apply lift_ok in He2 as Hr.
  destruct e2; try done.
  - tc_next Hk. destruct e3; [|tc_fails Hk]. destruct (type_eq _ _); [|done]. injection Hk as <- <-. sub_careful Hc.
    library.
  - destruct (type_eq _ _); [|done]. injection Hk as <- <-. sub_careful Hc.
    eapply value_ok; [by eapply Hv|]. intros y Hy. apply (assignable_has tt fuel _ _ _ (assign_ok_spec _ _ Hkind)) in Hy.
    eapply value_ok; [by eapply Ha|]. intros v Hvt. eapply has_representation in Hvt; [|exact Hr].
    eapply value_ok; [by eapply Hi|]. intros w _. apply give_ok. intros x (i & Hlt & Hx)%with_index_some.
    apply typed_array in Hvt as (f & Hf & Ht). apply (array_set_of _ _ _ _ _ f) in Hx; [|done].
    eapply array_typed; [exact Hx|]. intros j Hj. unfold changed. destruct (Nat.eqb_spec j i); auto.
  - destruct (type_eq _ _); [|tc_fails Hk]. tc_next Hk. destruct e2; [|tc_fails Hk]. injection Hk as <- <-. sub_careful Hc.
    library.
Qed.

Lemma tc_struct_mod_ok struc name val loc : check_ok struc → check_ok val →
  kind_ok (tc_struct_mod fuel tt struc name val loc).
Proof using Type.
  intros Hs Hv tbl s kd s' di Hk Hc. unfold tc_struct_mod in Hk. do 3 tc_next Hk. apply lift_ok in He1 as Hr.
  destruct e1; try done. destruct (get_struct_slot_by_name _ name) as [i|]; [|done].
  destruct (_ !! i) as [f|] eqn:Ef; [|done]. tc_next Hk. destruct e1; [|tc_fails Hk]. apply assigns_ok in He2.
  injection Hk as <- <-. sub_careful Hc. cbn [get_type expr_kind eval_expr].
  eapply value_ok; [by eapply Hv|]. intros y Hy. eapply value_ok; [by eapply Hs|]. intros v Hvt.
  eapply has_representation in Hvt; [|exact Hr]. apply give_ok. intros w Hw.
  eapply struct_set_type; [exact Hvt|exact Ef| |exact Hw]. by eapply (assignable_has tt fuel).
Qed.

Lemma tc_asm_ok t insns cs loc : kind_ok (tc_asm t insns cs loc).
Proof using Type.
  intros tbl s kd s' di Hk _. unfold tc_asm in Hk. destruct (type_eq _ _); [done|]. tc_next Hk. injection Hk as <- <-.
  by apply undefined_ok.
Qed.
Lemma tc_set_gas_ok c loc : kind_ok (tc_set_gas c loc).
Proof using Type.
  intros tbl s kd s' di Hk _. unfold tc_set_gas in Hk. tc_next Hk. destruct (type_eq _ _); [|done]. injection Hk as <- <-.
  by apply undefined_ok.
Qed.

(** ** Conditions and blocks *)
Lemma tc_try_ok c loc : check_ok c → kind_ok (tc_try tt return_type c loc).
Proof using Type.
  intros Hi tbl s kd s' di Hk Hc. unfold tc_try in Hk.
  assert (has_type (Value.Tuple [Value.Int 0]) return_type) as Hnone.
  { destruct return_type; try discriminate Hk; [apply has_any|apply has_none]. }
  assert ((e ← c tbl; t ← representation tt (get_type e);
           match t with Tipe.Option t => mret (Try e t) | _ => fail_at "Try expression requires option type" loc end) s
          = Some (Ok (kd, s'))) as Hk'.
  { destruct return_type; try discriminate Hk; exact Hk. }
  clear Hk. do 2 tc_next Hk'. apply lift_ok in He0 as Hr. destruct e0; try done.
  injection Hk' as <- <-. sub_careful Hc. eapply value_ok; [by eapply Hi|]. intros v Hv.
  eapply has_representation in Hv; [|exact Hr]. intros Δ σ r _ [He' Hg] Hres.
  destruct Hv as [[|n] Hv]; [done|]. destruct Hv as [->|(tag & x & -> & Htag & Hx)]; cbn in Hres.
  - by injection Hres as <-.
  - rewrite (proj2 (Z.eqb_neq _ _) Htag) in Hres. injection Hres as <-. split; [by exists n|done].
Qed.

Lemma branch_type_ok b e loc s t s' : branch_type fuel tt b e loc s = Some (Ok (t, s')) →
  (∀ o, gives b o → gives t o) ∧ (∀ o, gives e o → gives t o).
Proof using no_void_names.
  unfold branch_type. intros Hk. tc_next Hk. destruct e0.
  - injection Hk as <- <-. apply assigns_ok in He. split; [done|]. intros o. by apply assignable_gives.
  - tc_next Hk. destruct e0; [|done]. injection Hk as <- <-. apply assigns_ok in He0. split; [|done].
    intros o. by apply assignable_gives.
Qed.

Abbreviation careful_s := (careful_stat fuel tt).
Abbreviation careful_b := (careful_block fuel tt).

Definition block_check_ok (c : block_check) : Prop := ∀ tbl s b s', c tbl s = Some (Ok (b, s')) → careful_b b →
  sem_ok tbl (block_type b) (ev_block b).
Definition stat_check_ok (c : stat_check) : Prop := ∀ tbl s st binds s', c tbl s = Some (Ok ((st, binds), s')) →
  careful_s st → stats_ok tbl (extend tbl binds) (ev_stat st).
Definition stat_kind_ok (k : stat_kind_check) : Prop := ∀ tbl s kd binds s' di, k tbl s = Some (Ok ((kd, binds), s')) →
  careful_s (mkStatement kd di) → stats_ok tbl (extend tbl binds) (ev_stat (mkStatement kd di)).

Lemma else_ok o tbl s eb s' : Forall block_check_ok (olist o) →
  option_tc (λ b : block_check, b tbl) o s = Some (Ok (eb, s')) → Forall careful_b (olist eb) →
  sem_ok tbl (else_type eb) (match eb with Some b => ev_block b | None => skip end).
Proof using Type.
  intros Ho Hk Hc. destruct o as [c|]; cbn [option_tc] in Hk.
  - tc_next Hk. injection Hk as <- <-. apply list.Forall_cons in Ho as [Ho _], Hc as [Hc _]. by eapply Ho.
  - injection Hk as <- <-. apply skip_ok.
Qed.

Lemma tc_if_ok cond b o loc : check_ok cond → block_check_ok b → Forall block_check_ok (olist o) →
  kind_ok (tc_if fuel tt cond b o loc).
Proof using no_void_names.
  intros Hcond Hb Ho tbl s kd s' di Hk Hc. unfold tc_if in Hk. do 3 tc_next Hk. destruct (type_eq _ _); [|done].
  tc_next Hk. injection Hk as <- <-. sub_careful Hc. cbn [sub_blocks] in Hblocks. apply list.Forall_cons in Hblocks as [Hcb Hco].
  destruct (branch_type_ok _ _ _ _ _ _ He2) as [Ht1 Ht2]. cbn [get_type expr_kind eval_expr].
  eapply if_ok; [by eapply Hcond| |].
  - eapply weaken_ok; [exact Ht1|]. by eapply Hb.
  - eapply weaken_ok; [exact Ht2|]. by eapply else_ok.
Qed.

Lemma tc_if_let_ok x r b o loc : check_ok r → block_check_ok b → Forall block_check_ok (olist o) →
  kind_ok (tc_if_let fuel tt x r b o loc).
Proof using no_void_names.
  intros Hr Hb Ho tbl s kd s' di Hk Hc. unfold tc_if_let in Hk. tc_next Hk.
  destruct (get_type e) eqn:Et; try done. do 3 tc_next Hk. injection Hk as <- <-.
  sub_careful Hc. cbn [sub_blocks] in Hblocks. apply list.Forall_cons in Hblocks as [Hcb Hco].
  destruct (branch_type_ok _ _ _ _ _ _ He2) as [Ht1 Ht2]. cbn [get_type expr_kind eval_expr].
  eapply value_ok; [by eapply Hr|]. intros v Hv. rewrite Et in Hv. destruct Hv as [[|n] Hv]; [done|].
  destruct Hv as [->|(tag & y & -> & Htag & Hy)].
  - change (sem_ok tbl e2 (match e1 with Some b => ev_block b | None => skip end)).
    eapply weaken_ok; [exact Ht2|]. by eapply else_ok.
  - intros Δ σ res Htbl Hσ Hres. cbn in Hres.
    apply choose_inv in Hres as [_ Hres]. rewrite (proj2 (Z.eqb_neq _ _) Htag) in Hres.
    revert Δ σ res Htbl Hσ Hres. change (sem_ok tbl e2 (bind_local x y (ev_block e0))).
    eapply bind_local_ok; [by exists n|]. eapply weaken_ok; [exact Ht1|]. by eapply Hb.
Qed.

Lemma sequence_loop_ok {A} (f : A → stat_check) stats : Forall (λ a, stat_check_ok (f a)) stats → ∀ tbl s out tbl' s',
  sequence_loop f stats tbl s = Some (Ok ((out, tbl'), s')) → Forall careful_s out →
  stats_ok tbl tbl' (sequence (map ev_stat out)).
Proof using Type.
  induction 1 as [|a stats Ha _ IH]; intros tbl s out tbl' s' Hk Hc; cbn [sequence_loop] in Hk.
  - injection Hk as <- <- _. apply stats_nil.
  - tc_next Hk. destruct e as [st binds]. tc_next Hk. destruct e as [output tbl1]. injection Hk as <- <- <-.
    apply list.Forall_cons in Hc as [Hc1 Hc2]. cbn [map sequence]. eapply stats_cons; [by eapply Ha|by eapply IH].
Qed.

Lemma codeblock_ok {A B} (f : A → stat_check) (e : B → check) body ret : Forall (λ a, stat_check_ok (f a)) body →
  Forall (λ x, check_ok (e x)) (olist ret) → block_check_ok (codeblock_check f e body ret).
Proof using Type.
  intros Hf He tbl s b s' Hk Hc. unfold codeblock_check in Hk. tc_next Hk. tc_next Hk. destruct e1 as [out tbl'].
  tc_next Hk. injection Hk as <- <-. inversion Hc; subst. cbn [eval_block block_type]. eapply block_ok.
  - by eapply sequence_loop_ok.
  - destruct ret as [x|]; cbn [option_tc] in He2.
    + tc_next He2. injection He2 as <- <-. apply list.Forall_cons in He as [He _].
      match goal with Hf : Forall _ (olist _) |- _ => apply list.Forall_cons in Hf as [Hce _] end. by eapply He.
    + injection He2 as <- <-. apply skip_ok.
Qed.

(** ** Statements *)
Lemma table_extend tbl bs Δ : table_of tbl Δ → table_of (extend tbl bs) (rev bs ++ Δ).
Proof using Type.
  revert tbl Δ. induction bs as [|[x t] bs IH]; intros tbl Δ Ht; [done|]. cbn [extend foldl rev]. rewrite <- app_assoc.
  apply IH. intros y u. cbn. destruct (Nat.eqb_spec y x) as [->|].
  - intros [= <-]. apply (lookup_insert_eq (M := gmap nat) tbl).
  - intros Hy. etransitivity; [apply (lookup_insert_ne (M := gmap nat) tbl); congruence|by apply Ht].
Qed.

(** New variables with their types. *)
Lemma bind_stat_ok tbl t bs m k : sem_ok tbl t m →
  (∀ v σ r, has_type v t → k v σ = Some r → ∃ new, r = RVal None (mkSt (new ++ env σ) (globals σ)) ∧ env_ok tt new (rev bs)) →
  stats_ok tbl (extend tbl bs) (value_of false m k).
Proof using Type.
  intros Hm Hk Δ σ r Htbl Hσ (r1 & H1 & Hr)%bind_Some. specialize (Hm Δ σ r1 Htbl Hσ H1).
  destruct r1 as [[v|] σ1|[v|] σ1]; try done; [|by injection Hr as <-..]. destruct Hm as [Hv [He Hg]].
  destruct (Hk v σ1 r Hv Hr) as (new & -> & Hnew). exists (rev bs). split; [by apply table_extend|].
  split; [|done]. by apply Forall2_app.
Qed.

Lemma bind_loop_ok loc size v pats : ∀ tvec out bs i new Δ σ new' σ',
  tc_patterns tvec pats loc = Ok (out, bs) → length tvec = length pats → forallb binds_only out = true →
  (∀ j t x, tvec !! j = Some t → tuple_get size (i + j) v = Some x → has_type x t) → env_ok tt new Δ →
  bind_loop (bind_pattern global_map) size v i out new σ = Some (new', σ') →
  σ' = σ ∧ env_ok tt new' (rev bs ++ Δ).
Proof using Type.
  induction pats as [|p pats IH]; intros [|t tvec] out bs i new Δ σ new' σ' Hp Hl Hb Ht Hn Hr; try done.
  { injection Hp as <- <-. by injection Hr as <- <-. }
  cbn [tc_patterns] in Hp. destruct (type_eq t Tipe.Void); [done|].
  destruct (Ast.pattern_kind p); try done; destruct (tc_patterns tvec pats loc) as [[o bs']| |] eqn:Ep; try done;
    cbn in Hp; injection Hp as <- <-; [|done].
  cbn [forallb] in Hb. apply andb_prop in Hb as [_ Hb]. cbn [bind_loop] in Hr. apply bind_Some in Hr as (x & Hx & Hr).
  cbn in Hr. injection Hl as Hl. cbn [rev]. rewrite <- app_assoc. eapply (IH tvec o bs' (S i)); try done.
  - intros j u y Hj Hy. apply (Ht (S j) u y); [done|]. by rewrite <- plus_n_Sm.
  - constructor; [|done]. split; [done|]. apply (Ht 0 t x); [done|]. by rewrite Nat.add_0_r.
Qed.

Lemma tc_patterns_length tvec pats loc out bs : tc_patterns tvec pats loc = Ok (out, bs) → length tvec = length pats →
  length out = length tvec.
Proof using Type.
  revert tvec out bs. induction pats as [|p pats IH]; intros [|t tvec] out bs Hp Hl; try done; [by injection Hp as <- <-|].
  cbn [tc_patterns] in Hp. destruct (type_eq t Tipe.Void); [done|]. injection Hl as Hl.
  destruct (Ast.pattern_kind p); try done; destruct (tc_patterns tvec pats loc) as [[o bs']| |] eqn:Ep; try done;
    cbn in Hp; injection Hp as <- <-; cbn; f_equal; by eapply IH.
Qed.

Lemma check_definable_ok ids loc s s' u : check_definable undefinable_ids ids loc s = Some (Ok (u, s')) → s' = s.
Proof using Type.
  induction ids as [|[[id b] di] ids IH]; cbn [check_definable]; [by intros [= _ ->]|].
  by destruct (undefinable_ids !! id).
Qed.

Lemma tc_let_ok pat c loc : check_ok c → stat_kind_ok (tc_let undefinable_ids pat c loc).
Proof using Type.
  intros Hc tbl s kd binds s' di Hk Hcar. unfold tc_let in Hk. tc_next Hk. destruct (type_eq (get_type e) Tipe.Void); [done|].
  tc_next Hk. tc_next Hk. injection Hk as -> <-. clear He1.
  destruct (Ast.pattern_kind pat) as [x|x|pats]; [|done|].
  - injection He0 as <- <- <-. inversion Hcar as [? ? Hb Hes _]; subst. apply list.Forall_cons in Hes as [Hce _].
    eapply bind_stat_ok; [by eapply Hc|]. intros v σ r Hv [= <-]. exists [(x, v)]. split; [done|]. by repeat constructor.
  - tc_next He0. destruct e0 as [out bs]. injection He0 as <- <- <-. apply lift_ok, (inj Some) in He1.
    unfold typecheck_patvec in He1. destruct (get_type e) as [| | | | | | |tvec| | | | | | | | | |] eqn:Et; try done.
    destruct (Nat.eqb_spec (length tvec) (length pats)) as [Hl|]; [|done].
    inversion Hcar as [? ? Hb Hes _]; subst. apply list.Forall_cons in Hes as [Hce _]. cbn in Hb.
    eapply bind_stat_ok; [by eapply Hc|]. rewrite Et. intros v σ r Hv Hr. apply bind_Some in Hr as ([new σ'] & Hr & [= <-]).
    cbn [bind_pattern new_tuple] in Hr. destruct (is_empty out); [done|]. pose proof (tc_patterns_length _ _ _ _ _ He1 Hl) as Ho.
    rewrite Ho in Hr. apply typed_tuple in Hv as (tree & xs & Htr & Hlv & Hf).
    eapply (bind_loop_ok loc (length tvec) v pats tvec out bs 0 [] [] σ) in Hr as [-> Hn]; [|done..| |constructor].
    + exists new. by rewrite app_nil_r in Hn.
    + intros j t x Hj Hx. by eapply (tuple_get_type tt (λ t, t)).
Qed.

Lemma tc_assign_ok x c loc : check_ok c → stat_kind_ok (tc_assign fuel tt global_vars x c loc).
Proof using no_void_names globals_distinct.
  intros Hc tbl s kd binds s' di Hk Hcar. unfold tc_assign in Hk. tc_next Hk.
  destruct (tbl !! x) as [t|] eqn:Ex; [|destruct (global_vars !! x) as [[t idx]|] eqn:Eg; [|done]];
    (tc_next Hk; destruct e0; [|tc_fails Hk]); apply assigns_ok in He0; injection Hk as <- <- <-;
    inversion Hcar as [? ? _ Hes _]; subst; apply list.Forall_cons in Hes as [Hce _]; eapply (stats_plain _ _ _ _ Tipe.Void);
    (eapply value_ok; [by eapply Hc|]); intros v Hv; apply (assignable_has tt fuel t) in Hv; try done; intros Δ σ r Htbl [He' Hg] Hr;
    apply bind_Some in Hr as (e' & Hu & [= <-]).
  - split; [done|]. split; [|done]. destruct (update_assoc _ _ _ _ Hu) as [w Hw].
    destruct (env_lookup tt _ _ _ _ He' Hw) as (t' & Ht' & _). 
    assert (Some t' = Some t) as [= ->] by (etransitivity; [symmetry; exact (Htbl _ _ Ht')|exact Ex]). by eapply env_update.
  - split; [done|]. split; [done|]. apply globals_update; [done|]. intros y t' Hy.
    by rewrite <- (globals_distinct x y t t' idx Eg Hy).
Qed.

Lemma tc_return_void_ok loc : stat_kind_ok (tc_return_void fuel tt return_type loc).
Proof using Type.
  intros tbl s kd binds s' di Hk _. unfold tc_return_void in Hk. tc_next Hk. destruct e; [|done]. injection Hk as <- <- <-.
  apply assigns_ok in He. apply (stats_plain _ _ _ _ Tipe.Void). intros Δ σ r _ [_ Hg] [= <-]. split; [|done].
  destruct fuel as [|n]; [done|]. cbn [assignable] in He. destruct (type_eq return_type Tipe.Every) eqn:Ee.
  - right. by apply type_eq_spec.
  - left. injection He as He. symmetry. by apply type_eq_spec.
Qed.

Lemma tc_return_ok c loc : check_ok c → stat_kind_ok (tc_return fuel tt return_type c loc).
Proof using Type.
  intros Hc tbl s kd binds s' di Hk Hcar. unfold tc_return in Hk. tc_next Hk. tc_next Hk. destruct e0; [|tc_fails Hk].
  injection Hk as <- <- <-. apply assigns_ok in He0. inversion Hcar as [? ? _ Hes _]; subst.
  apply list.Forall_cons in Hes as [Hce _]. apply (stats_plain _ _ _ _ Tipe.Void). eapply value_ok; [by eapply Hc|].
  intros v Hv Δ σ r _ [_ Hg] [= <-]. split; [|done]. by apply (assignable_has tt fuel _ _ _ He0).
Qed.

Lemma tc_while_ok cond body loc : check_ok cond →
  (∀ tbl s out s', body tbl s = Some (Ok (out, s')) → Forall careful_s out →
     ∃ tbl', stats_ok tbl tbl' (sequence (map ev_stat out))) →
  stat_kind_ok (tc_while cond body loc).
Proof using Type.
  intros Hc Hb tbl s kd binds s' di Hk Hcar. unfold tc_while in Hk. tc_next Hk. destruct (get_type e) eqn:Et; try done.
  tc_next Hk. injection Hk as <- <- <-. inversion Hcar as [? ? _ Hes Hss]; subst. apply list.Forall_cons in Hes as [Hce _].
  destruct (Hb _ _ _ _ He0 Hss) as [tbl' Hbody]. apply (stats_plain _ _ _ _ Tipe.Void).
  eapply while_ok; [by eapply Hc|exact Hbody].
Qed.

(** A statement without a meaning. *)
Lemma undefined_stat k tbl tbl' di : ev_stat (mkStatement k di) = (λ _, None) → stats_ok tbl tbl' (ev_stat (mkStatement k di)).
Proof using Type. intros ->. by intros Δ σ r. Qed.

Lemma sem_assert_ok tbl t m : sem_ok tbl t m → sem_ok tbl Tipe.Void (sem_assert callf string_table imports release m).
Proof using assert_ok.
  intros Hm. unfold sem_assert. destruct release; [apply skip_ok|].
  intros Δ σ r Htbl Hσ (r1 & Hr1 & Hr)%bind_Some. unfold sem_builtin in Hr1.
  destruct (StringTable.get_if_exists string_table "builtin_assert") as [id|] eqn:Eid; [|done].
  apply bind_Some in Hr1 as (r2 & H2 & Hr1). specialize (Hm Δ σ r2 Htbl Hσ H2).
  destruct r2 as [[v|] σ2|[v|] σ2]; try done; [|by injection Hr1 as <-; injection Hr as <-..].
  destruct Hm as [_ [He2 Hg2]]. cbn in Hr1. apply bind_Some in Hr1 as ([o g'] & Hcall & [= <-]).
  destruct o as [w|]; [done|]. injection Hr as <-. split; [done|]. split; [done|]. by eapply assert_ok.
Qed.

Lemma tc_assert_ok c loc : check_ok c → stat_kind_ok (tc_assert c loc).
Proof using assert_ok.
  intros Hc tbl s kd binds s' di Hk Hcar. unfold tc_assert in Hk. tc_next Hk.
  assert (kd = SAssert e ∧ binds = []) as [-> ->].
  { repeat (case_match; try discriminate Hk). by injection Hk as <- <- _. }
  inversion Hcar as [? ? _ Hes _]; subst. apply list.Forall_cons in Hes as [Hce _].
  apply (stats_plain _ _ _ _ Tipe.Void). eapply sem_assert_ok. by eapply Hc.
Qed.

Lemma expression_ok tbl t m : sem_ok tbl t m → sem_ok tbl Tipe.Void (sem_expression t m).
Proof using Type.
  intros Hm. unfold sem_expression. destruct (_ || _); [|eapply value_ok; [exact Hm|intros; apply skip_ok]].
  intros Δ σ r Htbl Hσ (r1 & H1 & Hr)%bind_Some. specialize (Hm Δ σ r1 Htbl Hσ H1).
  destruct r1 as [[v|] σ1|o σ1]; [done| |]; injection Hr as <-; [|done]. by destruct Hm.
Qed.

(** ** All of them *)
Abbreviation tc_expr := (typecheck_expr parse fuel tt return_type global_vars func_table undefinable_ids).
Abbreviation tc_stat := (typecheck_statement parse fuel tt return_type global_vars func_table undefinable_ids).
Abbreviation tc_block := (typecheck_codeblock parse fuel tt return_type global_vars func_table undefinable_ids).

Lemma func_ref_known e : func_known (tc_expr e).
Proof using Type.
  intros tbl s name t di s' Hk. destruct e as [k di0]. cbn [typecheck_expr] in Hk. unfold with_debug_info in Hk.
  apply tc_bind_ok in Hk as (kd & s1 & Hk & [= -> <- <-]). destruct k.
  1: { tc_next Hk. apply lift_ok in Hk. by destruct (unary_shape _ _ _ _ Hk) as [(v & u & ?)|(? & ? & ? & _)]. }
  1: { do 2 tc_next Hk. apply lift_ok in Hk.
       by destruct (binary_shape _ _ _ _ _ Hk) as [(v & u & ?)|[(? & ? & ? & ? & ? & _)|(? & ? & ? & ? & ? & _)]]. }
  1: { do 3 tc_next Hk. apply lift_ok in Hk.
       do 3 apply with_representation_ok in Hk as (? & _ & Hk). apply (inj Some) in Hk. by repeat (case_match; try discriminate Hk). }
  3: { unfold tc_variable_ref in Hk. repeat (case_match; try discriminate Hk). by injection Hk as -> -> ->. }
  all: unfold tc_shortcut_or, tc_shortcut_and, tc_shortcut, tc_tuple_ref, tc_dot_ref, tc_constant, tc_option_initializer, tc_function_call,
    tc_array_or_map_ref, tc_struct_initializer, tc_tuple, tc_new_array, tc_new_fixed_array, tc_new_union, tc_array_or_map_mod,
    tc_struct_mod, tc_unsafe_cast, tc_asm, tc_set_gas, tc_try, tc_if, tc_if_let, tc_union_cast in Hk.
  all: repeat first [discriminate Hk | tc_next Hk | case_match | by apply fail_expect_ok in Hk].
Qed.

Lemma tc_all_ok : (∀ e, check_ok (tc_expr e)) ∧ (∀ st, stat_check_ok (tc_stat st)) ∧ (∀ b, block_check_ok (tc_block b)).
Proof using no_void_names functions_typed functions_ok libraries assert_ok globals_distinct.
  apply Ast.ast_ind.
  - intros k di He Hs Hb. cbn [typecheck_expr]. apply with_debug_ok.
    destruct k; cbn [Ast.sub_exprs Ast.sub_stats Ast.sub_blocks olist] in He, Hs, Hb;
      repeat match goal with Hf : Forall _ (_ :: _) |- _ => apply list.Forall_cons in Hf as [? ?] end.
    + by apply tc_unary_ok.
    + by apply tc_binary_ok.
    + apply tc_trinary_ok.
    + by apply tc_shortcut_or_ok.
    + by apply tc_shortcut_and_ok.
    + apply tc_variable_ref_ok.
    + by apply tc_tuple_ref_ok.
    + by apply tc_dot_ref_ok.
    + apply tc_constant_ok.
    + by apply tc_option_initializer_ok.
    + apply tc_function_call_ok; [apply func_ref_known|by apply list.Forall_fmap].
    + intros tbl s kd s' di' Hk Hc. tc_next Hk. injection Hk as <- <-. apply careful_inv in Hc as (_ & _ & _ & Hcb).
      apply list.Forall_cons in Hcb as [Hcb _]. destruct e as [body ret sc].
      change (sem_ok tbl (block_type (mkBlock body ret sc)) (ev_block (mkBlock body ret sc))). by eapply H0.
    + by apply tc_array_or_map_ref_ok.
    + apply tc_struct_initializer_ok. apply list.Forall_fmap, list.Forall_fmap. exact (proj1 (list.Forall_fmap _ _ _) He).
    + apply tc_tuple_ok. by apply list.Forall_fmap.
    + by apply tc_new_array_ok.
    + apply tc_new_fixed_array_ok. by apply forall_olist.
    + intros tbl s kd s' di' Hk Hc. injection Hk as <- <-. library.
    + by apply tc_new_union_ok.
    + by apply tc_array_or_map_mod_ok.
    + by apply tc_struct_mod_ok.
    + by apply tc_unsafe_cast_ok.
    + apply tc_asm_ok.
    + intros tbl s kd s' di' Hk _. injection Hk as <- <-. by apply undefined_ok.
    + intros tbl s kd s' di' Hk _. injection Hk as <- <-. by apply undefined_ok.
    + apply tc_set_gas_ok.
    + by apply tc_try_ok.
    + apply tc_if_ok; [done..|]. by apply forall_olist.
    + apply tc_if_let_ok; [done..|]. by apply forall_olist.
    + intros tbl s kd s' di' Hk _. tc_next Hk. injection Hk as <- <-. by apply undefined_ok.
    + by apply tc_union_cast_ok.
    + intros tbl s kd s' di' Hk _. injection Hk as <- <-. by apply undefined_ok.
  - intros k di He Hs tbl s st binds s' Hk Hc. cbn [typecheck_statement] in Hk. apply tc_bind_ok in Hk as ([kd bs] & s1 & Hk & Hr).
    injection Hr as <- <- <-. revert tbl s kd bs s1 Hk Hc.
    destruct k; cbn [Ast.stat_exprs Ast.stat_stats olist] in He, Hs;
      repeat match goal with Hf : Forall _ (_ :: _) |- _ => apply list.Forall_cons in Hf as [? ?] end; intros tbl s kd bs s1 Hk Hc.
    + injection Hk as <- <- <-. apply stats_nil.
    + by eapply tc_return_void_ok.
    + by eapply tc_return_ok.
    + tc_next Hk. tc_next Hk. tc_next Hk. injection Hk as <- <- <-. by apply undefined_stat.
    + tc_next Hk. injection Hk as <- <- <-. inversion Hc as [? ? _ Hes _]; subst. apply list.Forall_cons in Hes as [Hce _].
      eapply stats_plain, expression_ok. by eapply H0.
    + by eapply tc_let_ok.
    + by eapply tc_assign_ok.
    + eapply tc_while_ok; [done| |exact Hk|done]. intros tbl1 s2 out s3 Hseq Hcs. tc_next Hseq. destruct e as [out1 tbl2].
      injection Hseq as <- <-. exists tbl2. by eapply sequence_loop_ok.
    + tc_next Hk. injection Hk as <- <- <-. by apply undefined_stat.
    + tc_next Hk. injection Hk as <- <- <-. by apply undefined_stat.
    + by eapply tc_assert_ok.
  - intros body ret Hb Hr. by apply codeblock_ok.
Qed.
End sound.
