(* ===== verification/CodegenRuns.v ===== *)
(** * Runs of generated code

    What it means for generated code to be correct, and how runs are put
    together.  [expr_sound g m]: code made by the generator [g], run by the
    virtual machine in a frame that holds the variables of the state, leaves the
    value which [m] gives, the variables as [m] leaves them, and everything else
    as it was; if [m] returns, the machine stands at a return instruction with
    the result on the stack and the pending operands gone. *)

From Stdlib Require Import ZArith Lia.
From stdpp Require Import relations.
From S2P Require Import Prelude U256 StringTab Pos Opcodes Crypto BufferTree Values Insns StraightLine TupleTree StripLabels Types TypedAst Link Codegen CodegenThms TypecheckOps FixedArray VirtualMachine Semantics.

#[local] Set Warnings "-clear-no-such-hyp".

(** ** Instruction sequences *)
Definition is_jump (i : insn) : bool :=
  match Instruction.opcode i with
  | Opcode.AVM AVMOpcode.Jump | Opcode.AVM AVMOpcode.Cjump | Opcode.Return => true
  | _ => false
  end.

Definition regs : Type := list Value.t * list aux_item * list Value.t.

Section exec_list.
(** The size of the frame. *)
Context (size : nat).

Fixpoint exec_list (c : list insn) (x : regs) : option regs :=
  match c with
  | [] => Some x
  | i :: c => if is_jump i then None else let '(s, a, g) := x in x ← vm_exec size i s a g; exec_list c x
  end.

Lemma exec_list_app c1 c2 x : exec_list (c1 ++ c2) x = (y ← exec_list c1 x; exec_list c2 y).
Proof.
  revert x. induction c1 as [|i c1 IH]; intros x; [done|]. cbn [app exec_list].
  destruct (is_jump i); [done|]. destruct x as [[s a] g]. destruct (vm_exec size i s a g); cbn; [apply IH|done].
Qed.
End exec_list.

(** Instructions on the stack do not see the rest. *)
Definition framed (op : list Value.t → Value.t → option view) : Prop :=
  ∀ a r v, op a r = Some v → v_aux v = a ∧ v_reg v = r ∧ ∀ a' r', op a' r' = Some (mkView (v_stack v) a' r').

Lemma framed_some s : framed (λ a r, Some (mkView s a r)).
Proof. intros a r v [= <-]. done. Qed.
Lemma framed_none : framed (λ _ _, None).
Proof. by intros a r v. Qed.
Lemma framed_if (b : bool) f : framed f → framed (λ a r, if b then f a r else None).
Proof. destruct b; [done|intros _; apply framed_none]. Qed.
Lemma framed_bind {A} (o : option A) f : framed (λ a r, x ← o; Some (mkView (f x) a r)).
Proof. destruct o; [apply framed_some|apply framed_none]. Qed.

Lemma alu_frame op s : framed (λ a r, view_alu op (mkView s a r)).
Proof.
  destruct s as [|[x| | | |] s]; try apply framed_none. destruct s as [|[y| | | |] s]; try apply framed_none.
  apply (framed_bind (alu op x y) (λ z, Value.Int z :: s)).
Qed.

Ltac frame_step :=
  first [ apply framed_none | apply framed_some | apply alu_frame
        | match goal with
          | |- framed (λ a r, view_op AVMOpcode.Tget (mkView (Value.Int ?i :: Value.Tuple ?t :: ?s) _ _)) =>
              apply framed_if, (framed_bind (lookup_z t i) (λ x, x :: s))
          | |- framed (λ a r, view_op AVMOpcode.Tset (mkView (Value.Int ?i :: Value.Tuple ?t :: ?x :: ?s) _ _)) =>
              apply framed_if, framed_some
          end ].

Lemma view_op_frame op s : stack_op op = true → framed (λ a r, view_op op (mkView s a r)).
Proof.
  intros Hop. destruct op; try discriminate Hop; try apply alu_frame; try frame_step.
  all: destruct s as [|x s]; try frame_step.
  all: try (destruct x; frame_step).
  all: try (destruct s as [|y s]; frame_step).
  all: try (destruct s as [|y [|z s]]; frame_step).
  all: destruct x; try frame_step; destruct s as [|[] s]; try frame_step; destruct s as [|z s]; frame_step.
Qed.

(** Instructions which the virtual machine executes on all values. *)
Definition untested (op : AVMOpcode.t) : bool :=
  match op with AVMOpcode.IsZero | AVMOpcode.Equal => false | _ => true end.

Lemma tame_untested op v : untested op = true → tame_op op v = view_op op v.
Proof. by destruct op. Qed.

Definition view_insn (i : insn) : bool :=
  match Instruction.opcode i with
  | Opcode.AVM op => stack_op op && untested op || bool_decide (op = AVMOpcode.AuxPush) || bool_decide (op = AVMOpcode.AuxPop)
  | _ => false
  end.

Lemma exec_stack_op size op imm di s s' a g : stack_op op = true → on_values op (option_list imm ++ s) = Some s' →
  vm_exec size (Instruction.mk (Opcode.AVM op) imm di) s a g = Some (s', a, g).
Proof.
  intros Hop Ho. unfold vm_exec. cbn [Instruction.opcode Instruction.immediate].
  destruct op; try discriminate Hop; by rewrite Ho.
Qed.

Lemma exec_view_insn size i s va r v a g : view_insn i = true → step (lift_sem view_op) i (mkView s va r) = Some v →
  is_jump i = false ∧ v_reg v = r ∧
  vm_exec size i s ((Plain <$> va) ++ a) g = Some (v_stack v, (Plain <$> v_aux v) ++ a, g).
Proof.
  destruct i as [op imm di]. unfold view_insn, step. cbn [Instruction.opcode].
  destruct op; try discriminate. cbn [lift_sem].
  assert (push_imm (Instruction.mk (Opcode.AVM op) imm di) (mkView s va r) = mkView (option_list imm ++ s) va r)
    as -> by (by destruct imm).
  destruct (stack_op op && untested op) eqn:Et; cbn [orb].
  - apply andb_prop in Et as [Eop Et]. intros _ Hv. destruct (view_op_frame _ _ Eop _ _ _ Hv) as (Ea & Er & Hf). split; [by destruct op|]. split; [done|].
    rewrite Ea. apply (exec_stack_op size op imm di _ _ _ _ Eop). unfold on_values. by rewrite Eop, tame_untested, (Hf [] Value.none).
  - intros Hop Hv. destruct op; try discriminate Et; try discriminate Hop; cbn [view_op] in Hv.
    + unfold vm_exec. cbn [Instruction.opcode Instruction.immediate].
      destruct (option_list imm ++ s) as [|x s'] eqn:Es; [discriminate|]. by injection Hv as <-.
    + destruct va as [|x va]; [discriminate|]. by injection Hv as <-.
Qed.

Lemma exec_view_list size c : ∀ s va r v a g, forallb view_insn c = true → run_code c (mkView s va r) = Some v →
  exec_list size c (s, (Plain <$> va) ++ a, g) = Some (v_stack v, (Plain <$> v_aux v) ++ a, g).
Proof.
  induction c as [|i c IH]; intros s va r v a g Hc Hv; [by simplify_eq/=|].
  cbn [forallb] in Hc. apply andb_prop in Hc as [Hi Hc]. cbn [steps] in Hv. apply bind_Some in Hv as (w & Hw & Hv).
  destruct (exec_view_insn size i s va r w a g Hi Hw) as (Hj & Hr & He). cbn [exec_list]. rewrite Hj, He. cbn [mbind option_bind].
  destruct w as [s' va' r']. cbn in Hr. subst r'. by apply (IH s' va' r).
Qed.

(** Code on the values on top of the stack. *)
Lemma exec_values size c s s' a g : forallb view_insn c = true →
  run_code c (mkView s [] Value.none) = Some (mkView s' [] Value.none) → exec_list size c (s, a, g) = Some (s', a, g).
Proof. intros Hc Hv. exact (exec_view_list size c s [] Value.none _ a g Hc Hv). Qed.

Lemma exec_is_zero size x di s a g : is_truth x = true →
  exec_list size [op_ AVMOpcode.IsZero di] (Value.Int x :: s, a, g)
  = Some (Value.Int (if (x =? 0)%Z then 1 else 0)%Z :: s, a, g).
Proof. unfold is_truth. intros Hx. cbn. unfold on_values. cbn. by rewrite Hx. Qed.

Section machine.
Context {code : list insn} {fsz : nat}.
Hypothesis labels_unique : NoDup (defined_labels code).

Abbreviation star := (star code).
Abbreviation code_is := (body_is code fsz).
Abbreviation exec_list := (exec_list fsz).
Abbreviation find_label := (find_label code).

Lemma star_one m m' : vm_step code m = Some m' → star m m'.
Proof. intros Hm. by apply rtc_once. Qed.

Lemma vm_step_insn pc i s a g : code !! pc = Some i → vm_step code (mkVm pc s a g) = vm_step_at code i pc s a g.
Proof using Type. intros Hi. unfold vm_step. cbn [vm_pc]. by rewrite Hi. Qed.

Lemma star_list pc c s a g s' a' g' : code_is pc c → exec_list c (s, a, g) = Some (s', a', g') →
  star (mkVm pc s a g) (mkVm (pc + length c) s' a' g').
Proof using Type.
  revert pc s a g. induction c as [|i c IH]; intros pc s a g Hc He.
  { simplify_eq/=. rewrite Nat.add_0_r. apply rtc_refl. }
  apply body_is_cons in Hc as (Hi & Hf & Hc). cbn [CodegenRuns.exec_list] in He. destruct (is_jump i) eqn:Hj; [discriminate|].
  apply bind_Some in He as ([[s1 a1] g1] & H1 & He). replace (pc + length (i :: c)) with (S pc + length c) by (cbn; lia).
  eapply rtc_l; [|by apply (IH (S pc))].
  unfold vm_rel. rewrite (vm_step_insn pc i) by done. unfold vm_step_at. rewrite Hf. unfold is_jump in Hj.
  destruct (Instruction.opcode i) as [| | | | | | | | | | | | | | | |op]; try discriminate Hj; try by rewrite H1.
  destruct op; try discriminate Hj; by rewrite H1.
Qed.

Lemma star_cjump pc l di p (x : Z) s a g : code !! pc = Some (op_imm AVMOpcode.Cjump (Value.Label l) di) →
  find_label l = Some p → star (mkVm pc (Value.Int x :: s) a g) (mkVm (if (x =? 0)%Z then S pc else p) s a g).
Proof using Type. intros Hi Hl. apply star_one. erewrite vm_step_insn by exact Hi. cbn. by rewrite Hl. Qed.

Lemma star_jump pc l di p s a g : code !! pc = Some (op_imm AVMOpcode.Jump (Value.Label l) di) →
  find_label l = Some p → star (mkVm pc s a g) (mkVm p s a g).
Proof using Type. intros Hi Hl. apply star_one. erewrite vm_step_insn by exact Hi. cbn. by rewrite Hl. Qed.

Lemma star_jump_to pc l di p s a g : code !! pc = Some (op_ AVMOpcode.Jump di) →
  find_label l = Some p → star (mkVm pc (Value.Label l :: s) a g) (mkVm p s a g).
Proof using Type. intros Hi Hl. apply star_one. erewrite vm_step_insn by exact Hi. cbn. by rewrite Hl. Qed.

Lemma label_at pc l di : code !! pc = Some (label_ l di) → find_label l = Some pc.
Proof using labels_unique. intros Hi. by apply (find_label_at code labels_unique pc (label_ l di)). Qed.

(** ** Variables and frames *)
Record shape (locals : gmap nat nat) (nl : nat) (names slots : list nat) : Prop := {
  sh_length : length names = length slots;
  sh_nodup : NoDup slots;
  sh_below : ∀ k, k ∈ slots → k < nl;
  sh_map : ∀ x, locals !! x = assoc x (zip names slots);
}.

(** The variables lie in their slots. *)
Definition holds (e : list (nat * Value.t)) (slots : list nat) (L : list Value.t) : Prop :=
  Forall2 (λ xv k, L !! k = Some xv.2) e slots.

(** Slots below [nl] which are not those of visible variables are unchanged. *)
Definition keeps (nl : nat) (slots : list nat) (L L' : list Value.t) : Prop :=
  length L' = length L ∧ ∀ k, k < nl → k ∉ slots → L' !! k = L !! k.

Lemma keeps_refl nl slots L : keeps nl slots L L.
Proof using Type. done. Qed.
Lemma keeps_trans nl slots L1 L2 L3 : keeps nl slots L1 L2 → keeps nl slots L2 L3 → keeps nl slots L1 L3.
Proof using Type. intros [H1 H2] [H3 H4]. split; [congruence|]. intros k Hk Hs. rewrite H4; auto. Qed.

(** The result of a piece of code that starts in [m] in a frame [L] and should
    end at [pc'] above the stack [s]. *)
Record place := mkPlace { p_nl : nat; p_slots : list nat; p_names : list nat; p_frame : list Value.t; p_pre : nat }.

Definition finishes (P : place) (m : vm) (pc' : nat) (s : list Value.t) (a : list aux_item) (r : res) : Prop :=
  match r with
  | RVal v σ =>
      ∃ L, star m (mkVm pc' (option_list v ++ s) (Frame L :: a) (globals σ)) ∧
        holds (env σ) (p_slots P) L ∧ (env σ).*1 = p_names P ∧ keeps (p_nl P) (p_slots P) (p_frame P) L
  | RRet v σ =>
      ∀ junk s0, s = junk ++ s0 → length junk = p_pre P →
      ∃ pr di L, code !! pr = Some (vop Opcode.Return di) ∧
        star m (mkVm pr (match v with Some v => v :: s0 | None => s end) (Frame L :: a) (globals σ))
  end.

(** The state [σ] in the frame [L]. *)
Definition fits_frame (P : place) (σ : st) (L : list Value.t) : Prop :=
  holds (env σ) (p_slots P) L ∧ (env σ).*1 = p_names P ∧ keeps (p_nl P) (p_slots P) (p_frame P) L.

(** Code [c] made for [nl] variables in scope, in a frame of at least [n] slots. *)
Definition expr_runs (m : sem) (nl : nat) (locals : gmap nat nat) (pre n : nat) (c : list insn) : Prop :=
  ∀ slots names L0 pc σ L s a r, code_is pc c → n <= length L0 ∧ length L0 = fsz → shape locals nl names slots →
    fits_frame (mkPlace nl slots names L0 pre) σ L → m σ = Some r →
    finishes (mkPlace nl slots names L0 pre) (mkVm pc s (Frame L :: a) (globals σ)) (pc + length c) s a r.

Definition expr_sound (e : expr_gen) (m : sem) : Prop :=
  ∀ nl locals pre gs, wp (e nl locals pre) gs (λ n c _, nl <= n ∧ expr_runs m nl locals pre n c).

(** A statement may add variables, in new slots. *)
Definition stat_finishes (P : place) (locals : gmap nat nat) (n : nat) (m : vm) (pc' : nat) (s : list Value.t)
    (a : list aux_item) (r : res) : Prop :=
  match r with
  | RVal v σ =>
      v = None ∧ ∃ L new_names new_slots,
        star m (mkVm pc' s (Frame L :: a) (globals σ)) ∧
        holds (env σ) (new_slots ++ p_slots P) L ∧ (env σ).*1 = new_names ++ p_names P ∧
        shape locals n (new_names ++ p_names P) (new_slots ++ p_slots P) ∧ (∀ k, k ∈ new_slots → p_nl P <= k) ∧
        keeps (p_nl P) (p_slots P) (p_frame P) L
  | RRet v σ => finishes P m pc' s a (RRet v σ)
  end.

Definition stat_runs (m : sem) (nl : nat) (locals locals' : gmap nat nat) (pre n : nat) (c : list insn) : Prop :=
  ∀ slots names L0 pc σ L s a r, code_is pc c → n <= length L0 ∧ length L0 = fsz → shape locals nl names slots →
    fits_frame (mkPlace nl slots names L0 pre) σ L → m σ = Some r →
    stat_finishes (mkPlace nl slots names L0 pre) locals' n (mkVm pc s (Frame L :: a) (globals σ)) (pc + length c) s a r.

Definition stat_sound (g : stat_gen) (m : sem) : Prop :=
  ∀ nl locals pre gs, wp (g nl locals pre) gs (λ r c _, stat_runs m nl locals (r.2 ∪ locals) pre (max r.1 nl) c).

Definition stats_sound (g : stats_gen) (m : sem) : Prop :=
  ∀ nl locals pre gs, wp (g nl locals pre) gs (λ r c _, nl <= r.1 ∧ stat_runs m nl locals (r.2 ∪ locals) pre r.1 c).

(** ** Chaining *)
Lemma fin_star P m m' pc' s a r : star m m' → finishes P m' pc' s a r → finishes P m pc' s a r.
Proof using Type.
  intros Hm. destruct r as [v σ|v σ]; cbn.
  - intros (L & Hs & HL). exists L. split; [by transitivity m'|done].
  - intros Hr junk s0 Es Ep. destruct (Hr junk s0 Es Ep) as (pr & di & L & Hi & Hs). exists pr, di, L. split; [done|by transitivity m'].
Qed.

Lemma fin_code P c pc s1 a1 g1 s2 a2 g2 pc' s a r : code_is pc c → exec_list c (s1, a1, g1) = Some (s2, a2, g2) →
  finishes P (mkVm (pc + length c) s2 a2 g2) pc' s a r → finishes P (mkVm pc s1 a1 g1) pc' s a r.
Proof using Type. intros Hc He. by apply fin_star, star_list. Qed.

Lemma fin_val P v σ L pc s a : fits_frame P σ L →
  finishes P (mkVm pc (option_list v ++ s) (Frame L :: a) (globals σ)) pc s a (RVal v σ).
Proof using Type. intros (H1 & H2 & H3). exists L. split; [apply rtc_refl|done]. Qed.

Lemma fin_pc P m pc1 pc2 s a r : pc1 = pc2 → finishes P m pc1 s a r → finishes P m pc2 s a r.
Proof using Type. by intros ->. Qed.

(** The value of [m], then [k], while the operands [ops] are pending. *)
Lemma value_step m nl locals pre' n c slots names L0 pre pend k σ r pc pc' ops s a L :
  expr_runs m nl locals pre' n c → code_is pc c → n <= length L0 ∧ length L0 = fsz → shape locals nl names slots →
  fits_frame (mkPlace nl slots names L0 pre) σ L → value_of pend m k σ = Some r →
  pre' = pre + length ops → (pend = false → ops = []) →
  (∀ v σ1 L1, fits_frame (mkPlace nl slots names L0 pre) σ1 L1 → k v σ1 = Some r →
     finishes (mkPlace nl slots names L0 pre) (mkVm (pc + length c) (v :: ops ++ s) (Frame L1 :: a) (globals σ1)) pc' s a r) →
  finishes (mkPlace nl slots names L0 pre) (mkVm pc (ops ++ s) (Frame L :: a) (globals σ)) pc' s a r.
Proof using Type.
  intros Hm Hc Hn Hsh HL Hr -> Hops Hk. unfold value_of in Hr. apply bind_Some in Hr as (r1 & H1 & Hr).
  specialize (Hm slots names L0 pc σ L (ops ++ s) a r1 Hc Hn Hsh HL H1).
  destruct r1 as [[v|] σ1|[v|] σ1]; try discriminate.
  - destruct Hm as (L1 & Hs & H2). eapply fin_star; [exact Hs|]. by apply Hk.
  - injection Hr as <-. intros junk s0 -> Hj. apply (Hm (ops ++ junk) s0); [by rewrite app_assoc|].
    rewrite length_app. cbn [p_pre] in *. lia.
  - destruct pend; [discriminate|]. injection Hr as <-. rewrite Hops in * by done. cbn [app length] in *.
    intros junk s0 Es Hj. apply (Hm junk s0 Es). cbn [p_pre] in *. lia.
Qed.

Lemma give_inv o σ r : give o σ = Some r → ∃ v, o = Some v ∧ r = RVal (Some v) σ.
Proof using Type. unfold give. intros Hr. apply bind_Some in Hr as (v & Hv & [= <-]). eauto. Qed.

(** The last piece of code, which leaves the value. *)
Lemma fin_give P o σ r L pc pc' s s1 a c : give o σ = Some r → fits_frame P σ L → code_is pc c → pc' = pc + length c →
  (∀ v, o = Some v → exec_list c (s1, Frame L :: a, globals σ) = Some (v :: s, Frame L :: a, globals σ)) →
  finishes P (mkVm pc s1 (Frame L :: a) (globals σ)) pc' s a r.
Proof using Type.
  intros Hg HL Hc -> He. apply give_inv in Hg as (v & Hv & ->). eapply fin_code; [exact Hc|by apply He|].
  by apply (fin_val _ (Some v)).
Qed.

(** One instruction at a time. *)
Lemma fin_insn P i pc s1 a1 g1 s2 a2 g2 pc' s a r : code !! pc = Some i → frame_size code pc = fsz → exec_list [i] (s1, a1, g1) = Some (s2, a2, g2) →
  finishes P (mkVm (S pc) s2 a2 g2) pc' s a r → finishes P (mkVm pc s1 a1 g1) pc' s a r.
Proof using Type.
  intros Hi Hsz He Hf. eapply (fin_code _ [i]); [|exact He|cbn [length]; by rewrite Nat.add_1_r].
  by apply body_is_one.
Qed.

Lemma fin_cjump P l di pc p x s1 a1 g1 pc' s a r : code !! pc = Some (op_imm AVMOpcode.Cjump (Value.Label l) di) →
  find_label l = Some p → finishes P (mkVm (if (x =? 0)%Z then S pc else p) s1 a1 g1) pc' s a r →
  finishes P (mkVm pc (Value.Int x :: s1) a1 g1) pc' s a r.
Proof using Type. intros Hi Hl. eapply fin_star, star_cjump; [exact Hi|done]. Qed.

Lemma fin_jump P l di pc p s1 a1 g1 pc' s a r : code !! pc = Some (op_imm AVMOpcode.Jump (Value.Label l) di) →
  find_label l = Some p → finishes P (mkVm p s1 a1 g1) pc' s a r → finishes P (mkVm pc s1 a1 g1) pc' s a r.
Proof using Type. intros Hi Hl. eapply fin_star, star_jump; [exact Hi|done]. Qed.

Lemma give_fits P v σ r L pc s a : give (Some v) σ = Some r → fits_frame P σ L →
  finishes P (mkVm pc (v :: s) (Frame L :: a) (globals σ)) pc s a r.
Proof using Type. intros [= <-] HL. by apply (fin_val _ (Some v)). Qed.

(** The last part, then a label or a jump. *)
Lemma fin_move P m pc1 pc2 s a r : (∀ s a g, star (mkVm pc1 s a g) (mkVm pc2 s a g)) →
  finishes P m pc1 s a r → finishes P m pc2 s a r.
Proof using Type.
  intros Hi. destruct r as [v σ|v σ]; cbn; [|done].
  intros (L & Hs & HL). exists L. split; [|done]. etransitivity; [exact Hs|]. apply Hi.
Qed.

Lemma star_label pc l di s a g : code !! pc = Some (label_ l di) → star (mkVm pc s a g) (mkVm (S pc) s a g).
Proof using Type. intros Hi. apply star_one. by rewrite (vm_step_insn _ _ _ _ _ Hi). Qed.

Lemma fin_label P l di m pc s a r : code !! pc = Some (label_ l di) → finishes P m pc s a r → finishes P m (S pc) s a r.
Proof using Type. intros Hi. apply fin_move. intros. by eapply star_label. Qed.

Lemma fin_then_jump P l di m pc pc' s a r : code !! pc = Some (op_imm AVMOpcode.Jump (Value.Label l) di) →
  find_label l = Some pc' → finishes P m pc s a r → finishes P m pc' s a r.
Proof using Type. intros Hi Hl. apply fin_move. intros. by eapply star_jump. Qed.

End machine.

(** ** Tactics *)
(** The generator of a part. *)
Ltac part H :=
  lazymatch goal with |- wp (mbind _ _) _ _ => apply wp_bind | _ => idtac end; eapply wp_mono; [apply H|];
  let n := fresh "n" in let c := fresh "c" in let g := fresh "g" in let Hn := fresh "Hle" in let Hr := fresh "Hrun" in
  intros n c g [Hn Hr].
(** The code, split into its pieces. *)
Ltac enter :=
  split; [lia|]; intros slots names L0 pc σ L s a r Hc Hn Hsh HL Hr;
  rewrite ?app_nil_r, ?app_nil_l in *; rewrite ?body_is_app in Hc; rewrite ?length_app, ?Nat.add_assoc in *; destruct_and? Hc;
  unfold sem_unary, sem_binary, sem_or, sem_and, sem_struct, sem_array_ref, sem_array_mod, sem_struct_mod, sem_new_array,
    sem_try, sem_if, sem_if_let, sem_call in Hr.
(** [Hr] says that a value is computed first, by the code of [Hrun]. *)
Ltac value Hrun Hr ops :=
  eapply (value_step _ _ _ _ _ _ _ _ _ _ _ _ _ _ _ _ ops _ _ _ Hrun);
  [eassumption|lia|eassumption|eassumption|exact Hr|cbn [length]; lia|done|cbn [app]].

(** Positions of single instructions. *)
Ltac flat :=
  cbn [length] in *; rewrite ?body_is_cons in *; rewrite ?Nat.add_assoc in *;
  rewrite ?Nat.add_succ_r, ?Nat.add_0_r in *; rewrite ?Nat.add_succ_l in *; destruct_and?.
Ltac insn := eapply fin_insn; [eassumption|eassumption|reflexivity|];
  cbn [v_stack option_list Instruction.immediate op_imm Instruction.from_opcode_imm Instruction.new app].
(** The test of a truth value. *)
Ltac zero_test Hx := eapply fin_insn; [eassumption|eassumption|by apply exec_is_zero, Hx|].
Ltac cjump := eapply fin_cjump; [eassumption|eapply label_at; eassumption|].
Ltac jump := eapply fin_jump; [eassumption|eapply label_at; eassumption|].

(** The code of [Hrun] ends the expression. *)
Ltac last_part Hrun :=
  eapply fin_pc; [|eapply Hrun; [eassumption|lia|eassumption|eassumption|eassumption]]; rewrite ?length_app; cbn [length]; lia.
