(* ===== verification/CodegenSound.v ===== *)
(** * The code generator is correct: expressions

    Every generator of an expression (src/src/compile/codegen.rs) against the
    matching combinator of Semantics.v. *)

From Stdlib Require Import ZArith Lia.
From stdpp Require Import relations.
From S2P Require Import Prelude U256 StringTab Pos Opcodes Crypto BufferTree Values Insns StraightLine TupleTree StripLabels Types TypedAst Link Codegen CodegenThms TypecheckOps FixedArray VirtualMachine Semantics CodegenRuns.

#[local] Set Warnings "-clear-no-such-hyp".

Section machine.
Context {code : list insn} {fsz : nat}.
Hypothesis labels_unique : NoDup (defined_labels code).

Abbreviation star := (star code).
Abbreviation code_is := (body_is code fsz).
Abbreviation exec_list := (exec_list fsz).
Abbreviation find_label := (find_label code).
Abbreviation finishes := (@finishes code).
Abbreviation expr_runs := (@expr_runs code fsz).
Abbreviation expr_sound := (@expr_sound code fsz).

Lemma simple_sound c o : (∀ s a g v, o = Some v → exec_list c (s, a, g) = Some (v :: s, a, g)) →
  expr_sound (simple_gen c) (give o).
Proof using Type.
  intros He nl locals pre gs. unfold simple_gen. repeat wp_step. enter.
  eapply fin_give; [done..|]. auto.
Qed.

Lemma const_sound v di : expr_sound (const_gen v di) (give (Some v)).
Proof using Type. apply (simple_sound [op_imm AVMOpcode.Noop v di] (Some v)). by intros s a g ? [= <-]. Qed.

(** One operand. *)
Lemma then_code_sound e m c f :
  (∀ v w s a g, f v = Some w → exec_list c (v :: s, a, g) = Some (w :: s, a, g)) →
  expr_sound e m → expr_sound (then_code e c) (value_of false m (λ v, give (f v))).
Proof using Type.
  intros Hf He nl locals pre gs. unfold then_code. part He. repeat wp_step. enter.
  value Hrun Hr (@nil Value.t). intros v σ1 L1 HL1 Hr1. eapply fin_give; [done..|cbn; lia|]. intros w Hw. by apply Hf.
Qed.

Lemma exec_tuple_get size z di v w s a g : tuple_get size (Z.to_nat z) v = Some w →
  exec_list [vop_imm (Opcode.TupleGet size) (Value.Int z) di] (v :: s, a, g) = Some (w :: s, a, g).
Proof using Type. intros Hw. cbn [CodegenRuns.exec_list is_jump Instruction.opcode vop_imm Instruction.from_opcode_imm Instruction.new]. unfold vm_exec. cbn. by rewrite Hw. Qed.

Lemma unary_exec op di v w s a g gs :
  unary_val op v = Some w →
  wp (unary_code op di) gs (λ _ c _, exec_list c (v :: s, a, g) = Some (w :: s, a, g)).
Proof using Type.
  intros Hv. unfold unary_code. apply wp_bind.
  destruct op; try discriminate Hv; cbn [unary_op]; rewrite ?address_mask; repeat wp_step; rewrite ?app_nil_l.
  - destruct v; try discriminate Hv. by injection Hv as <-.
  - destruct v as [x| | | |]; try discriminate Hv. cbn [unary_val] in Hv.
    destruct (is_truth x) eqn:Hx; [|discriminate Hv]. injection Hv as <-. by apply exec_is_zero.
  - by apply exec_tuple_get.
  - by injection Hv as <-.
  - by injection Hv as <-.
  - by injection Hv as <-.
  - destruct v; try discriminate Hv. injection Hv as <-. apply exec_values; [done|]. cbn.
    unfold Uint256.bitwise_and. by rewrite Z.land_comm, Z.land_ones.
Qed.

Lemma binary_insns op di x y w : int_op op x y = Some w → negated op = false → forallb view_insn (binary_code op di) = true.
Proof using Type. by destruct op. Qed.

Lemma int_op_exec op di x y w v : int_op op x y = Some w →
  computes op di (Value.Int x) (Value.Int y) v = Some (mkView (w :: v_stack v) (v_aux v) (v_reg v)).
Proof using Type.
  intros Hw. destruct op; try discriminate Hw; cbn [int_op] in Hw; unfold bool_val in Hw.
  all: try (apply fmap_Some in Hw as (z & Hz & ->); by_alu; [exact Hz|reflexivity]).
  all: injection Hw as <-; try (by_alu; reflexivity).
  all: by_alu; [reflexivity|]; cbn [negated]; rewrite ?Z.leb_antisym, ?if_zero; reflexivity.
Qed.

(** Comparisons whose result is negated. *)
Lemma negated_exec op di x y w s a g : int_op op x y = Some w → negated op = true →
  exec_list (binary_code op di) (Value.Int x :: Value.Int y :: s, a, g) = Some (w :: s, a, g).
Proof using Type.
  intros Hw Hn. destruct op; try discriminate; injection Hw as <-; rewrite ?Z.leb_antisym; cbn; unfold on_values; cbn;
    match goal with |- context [if ?b then 1%Z else 0%Z] => by destruct b end.
Qed.

Lemma binary_exec op di v1 v2 w s a g : binary_val op v1 v2 = Some w →
  exec_list (binary_code op di) (v1 :: v2 :: s, a, g) = Some (w :: s, a, g).
Proof using Type.
  assert (∀ x y, int_op op x y = Some w →
    exec_list (binary_code op di) (Value.Int x :: Value.Int y :: s, a, g) = Some (w :: s, a, g)) as Hint.
  { intros x y Hw. destruct (negated op) eqn:Hn; [by apply negated_exec|]. apply exec_values; [by eapply binary_insns|].
    exact (int_op_exec op di x y w (mkView s [] Value.none) Hw). }
  intros Hw. destruct op; try (destruct v1, v2; try discriminate Hw; by apply Hint).
  all: cbn [binary_val] in Hw; destruct (label_free v1 && label_free v2) eqn:Hl; try discriminate; injection Hw as <-.
  all: cbn; unfold on_values; cbn; rewrite Hl; by case_bool_decide.
Qed.

Lemma unary_sound op e m di : expr_sound e m → expr_sound (unary_gen op e di) (sem_unary op m).
Proof using Type.
  intros He nl locals pre gs. unfold unary_gen. part He.
  apply wp_bind. intros u c' g' Hu. repeat wp_step. enter.
  value Hrun Hr (@nil Value.t). intros v σ1 L1 HL1 Hr1. eapply fin_give; [done..|lia|]. intros w Hw.
  exact (unary_exec op di v w s _ _ g Hw _ _ _ Hu).
Qed.

Lemma variant_sound e m di : expr_sound e m → expr_sound (variant_gen e di) (sem_variant m).
Proof using Type. apply (then_code_sound e m _ (λ v, Some (Value.Tuple [Value.Int 1; v]))). by intros v w s a g [= <-]. Qed.

Lemma binary_sound op e1 e2 m1 m2 di : expr_sound e1 m1 → expr_sound e2 m2 →
  expr_sound (binary_gen op e1 e2 di) (sem_binary op m1 m2).
Proof using Type.
  intros H1 H2 nl locals pre gs. unfold binary_gen. part H2. part H1. repeat wp_step. enter.
  value Hrun Hr (@nil Value.t). intros v2 σ1 L1 HL1 Hr1. value Hrun0 Hr1 [v2]. intros v1 σ2 L2 HL2 Hr2.
  eapply fin_give; [done..|lia|]. intros w Hw. by apply binary_exec.
Qed.

Lemma field_sound size i e m di : expr_sound e m →
  expr_sound (then_code e [vop_imm (Opcode.TupleGet size) (slot_val i) di]) (sem_field size i m).
Proof using Type.
  apply (then_code_sound e m _ (tuple_get size i)). intros v w s a g Hw. apply exec_tuple_get.
  unfold Uint256.from_usize. by rewrite Nat2Z.id.
Qed.

Lemma tuple_ref_sound e t idx m di : expr_sound e m → expr_sound (tuple_ref_gen e t idx di) (sem_tuple_ref t idx m).
Proof using Type.
  intros He nl locals pre gs. unfold tuple_ref_gen. destruct t; try apply wp_throw.
  revert nl locals pre gs. apply (then_code_sound e m _ (tuple_get (length _) (Z.to_nat idx))); [|done].
  intros v w s a g. apply exec_tuple_get.
Qed.

Lemma shortcut_or_sound e1 e2 m1 m2 di : expr_sound e1 m1 → expr_sound e2 m2 →
  expr_sound (shortcut_or_gen e1 e2 di) (sem_or m1 m2).
Proof using labels_unique.
  intros H1 H2 nl locals pre gs. unfold shortcut_or_gen. part H1. repeat wp_step. part H2. repeat wp_step. enter.
  flat. value Hrun Hr (@nil Value.t). intros v σ1 L1 HL1 Hr1. destruct v as [x| | | |]; try discriminate.
  insn. cjump. eapply fin_label; [eassumption|]. destruct (x =? 0)%Z.
  - insn. last_part Hrun0.
  - by apply give_fits.
Qed.

Lemma shortcut_and_sound e1 e2 m1 m2 di : expr_sound e1 m1 → expr_sound e2 m2 →
  expr_sound (shortcut_and_gen e1 e2 di) (sem_and m1 m2).
Proof using labels_unique.
  intros H1 H2 nl locals pre gs. unfold shortcut_and_gen. part H1. repeat wp_step. part H2. repeat wp_step. enter.
  flat. value Hrun Hr (@nil Value.t). intros v σ1 L1 HL1 Hr1. destruct v as [x| | | |]; try discriminate.
  apply choose_inv in Hr1 as [Hx Hr1].
  insn. zero_test Hx. cjump. eapply fin_label; [eassumption|]. destruct (x =? 0)%Z; cbn [Z.eqb].
  - by apply give_fits.
  - insn. last_part Hrun0.
Qed.

(** *** Variables *)
Lemma holds_assoc x e slots L : holds e slots L →
  match assoc x e, assoc x (zip e.*1 slots) with
  | Some v, Some k => L !! k = Some v
  | None, None => True
  | _, _ => False
  end.
Proof using Type.
  intros Hh. induction Hh as [|[y v] k e slots Hv Hh IH]; [done|].
  cbn. by destruct (Nat.eqb x y).
Qed.

Lemma fits_lookup P σ L locals x v : shape locals (p_nl P) (p_names P) (p_slots P) → fits_frame P σ L →
  assoc x (env σ) = Some v → ∃ k, locals !! x = Some k ∧ L !! k = Some v.
Proof using Type.
  intros Hsh (Hh & Hn & _) Hx. rewrite (sh_map _ _ _ _ Hsh), <- Hn.
  pose proof (holds_assoc x _ _ _ Hh) as Ha. rewrite Hx in Ha.
  destruct (assoc x (zip (env σ).*1 (p_slots P))) as [k|]; [eauto|done].
Qed.

Lemma fits_size nl slots names L0 pre σ L : fits_frame (mkPlace nl slots names L0 pre) σ L → length L0 = fsz → length L = fsz.
Proof using Type. intros (_ & _ & Hk & _). cbn in Hk. congruence. Qed.

Lemma exec_get_local k di v L s a g : length L = fsz → L !! k = Some v →
  exec_list [vop_imm Opcode.GetLocal (slot_val k) di] (s, Frame L :: a, g) = Some (v :: s, Frame L :: a, g).
Proof using Type. intros Hl Hk. cbn. unfold vm_exec. cbn. unfold Uint256.from_usize. by rewrite Hl, Nat.eqb_refl, Nat2Z.id, Hk. Qed.

Lemma local_ref_sound x di : expr_sound (local_ref_gen x di) (sem_local x).
Proof using Type.
  intros nl locals pre gs. unfold local_ref_gen. destruct (locals !! x) as [k|] eqn:Ek; [|apply wp_throw].
  repeat wp_step. enter. unfold sem_local in Hr.
  eapply fin_give; [done..|]. intros v Hv.
  destruct (fits_lookup (mkPlace nl slots names L0 pre) σ L locals x v Hsh HL Hv) as (k' & Hk' & HLk). rewrite Ek in Hk'. injection Hk' as <-.
  apply exec_get_local; [|done]. by eapply fits_size, Hn.
Qed.

Lemma global_ref_sound idx di : expr_sound (simple_gen [vop (Opcode.GetGlobalVar idx) di]) (sem_global idx).
Proof using Type.
  intros nl locals pre gs. unfold simple_gen. repeat wp_step. enter. unfold sem_global in Hr.
  eapply fin_give; [done..|]. intros v Hv. cbn. unfold vm_exec. cbn. by rewrite Hv.
Qed.

(** *** Operands *)
Lemma operands_step gs ms : Forall2 expr_sound gs ms → ∀ nl locals pre0 i acc g,
  wp (args_loop gs nl locals pre0 i acc) g (λ n c _, acc <= n ∧
    ∀ vals k slots names L0 pc σ L s a r pc', code_is pc c → n <= length L0 ∧ length L0 = fsz → shape locals nl names slots →
      fits_frame (mkPlace nl slots names L0 pre0) σ L → length vals = i → operands ms vals k σ = Some r →
      (∀ vals' σ1 L1, fits_frame (mkPlace nl slots names L0 pre0) σ1 L1 → length vals' = i + length gs → k vals' σ1 = Some r →
         finishes (mkPlace nl slots names L0 pre0) (mkVm (pc + length c) (vals' ++ s) (Frame L1 :: a) (globals σ1)) pc' s a r) →
      finishes (mkPlace nl slots names L0 pre0) (mkVm pc (vals ++ s) (Frame L :: a) (globals σ)) pc' s a r).
Proof using Type.
  intros Hms. induction Hms as [|e m gs ms He Hms IH]; intros nl locals pre0 i acc g; cbn [args_loop].
  - wp_step. split; [done|]. intros vals k slots names L0 pc σ L s a r pc' Hc Hn Hsh HL Hl Hr Hk.
    specialize (Hk vals σ L HL). cbn [length] in Hk. rewrite !Nat.add_0_r in Hk. by apply Hk.
  - part He. eapply wp_mono; [apply IH|]. cbv beta. intros n' c' g' [Hacc Hloop].
    split; [lia|]. intros vals k slots names L0 pc σ L s a r pc' Hc Hn Hsh HL Hl Hr Hk.
    rewrite body_is_app in Hc. destruct Hc as [Hc Hc']. cbn [operands] in Hr.
    eapply (value_step _ _ _ _ _ _ _ _ _ _ _ _ _ _ _ _ vals _ _ _ Hrun);
      [eassumption|lia|eassumption|eassumption|exact Hr|lia|by destruct vals|].
    intros v σ1 L1 HL1 Hr1. change (v :: vals ++ s) with ((v :: vals) ++ s).
    eapply Hloop; [eassumption|lia|eassumption|eassumption|cbn; lia|exact Hr1|].

    intros vals' σ2 L2 HL2 Hl' Hr2. rewrite <- Nat.add_assoc, <- length_app. apply Hk; [done|cbn; lia|done].
Qed.

(** *** Tuples and structures *)
Lemma leaves_make t xs v : tree_ok t → length xs = tsize t → make_value t xs = Some v → leaves t v = Some xs.
Proof using Type. intros Ht Hl Hv. destruct (make_value_ok t xs Ht Hl) as (v' & Hv' & Hx). congruence. Qed.

(** Setting the fields [i], [i+1], ... of a tuple of [n]. *)
Lemma exec_tuple_sets n t di vals : tree_new n false = Some t → ∀ i xs v s a g,
  leaves t v = Some xs → i + length vals <= n → n = length xs →
  ∃ w, exec_list ((λ i, vop_imm (Opcode.TupleSet n) (slot_val i) di) <$> seq i (length vals)) (v :: vals ++ s, a, g) =
         Some (w :: s, a, g) ∧ leaves t w = Some (list_inserts i vals xs).
Proof using Type.
  intros Ht. pose proof (tree_new_inv _ _ _ Ht) as [Hok Hs].
  induction vals as [|y vals IH]; intros i xs v s a g Hx Hi Hn; [by exists v|].
  cbn [length] in *. destruct (lookup_lt_is_Some_2 xs i) as [z Hz]; [lia|].
  destruct (make_value_ok t (<[i := y]> xs) Hok) as (w & Hw & Hwx); [rewrite length_insert; lia|].
  destruct (IH (S i) (<[i := y]> xs) w s a g) as (w' & He & Hw'); [done|lia|by rewrite length_insert|].
  exists w'. split; [|by cbn [list_inserts]; rewrite list_insert_inserts_lt by lia].
  change (seq i (S (length vals))) with (i :: seq (S i) (length vals)). rewrite fmap_cons.
  assert (tuple_set n i v y = Some w) as Hset.
  { unfold tuple_set. rewrite Ht. cbn. rewrite Hx. cbn. by rewrite Hz. }
  cbn [CodegenRuns.exec_list]. change (is_jump _) with false. cbn iota. unfold vm_exec at 1. cbn -[seq].
  unfold Uint256.from_usize. rewrite Nat2Z.id, Hset. exact He.
Qed.

(** A value of a given shape is determined by its elements. *)
Lemma leaves_list_inj ts : Forall tree_ok ts →
  Forall (λ t, ∀ v w xs, tree_ok t → leaves t v = Some xs → leaves t w = Some xs → v = w) ts →
  ∀ vs ws xs, leaves_list leaves ts vs = Some xs → leaves_list leaves ts ws = Some xs → vs = ws.
Proof using Type.
  intros Hok IH. induction ts as [|t ts IHts]; intros [|v vs] [|w ws] xs Hv Hw; try done.
  apply leaves_list_cons in Hv as (ys & zs & Hy & Hz & ->). apply leaves_list_cons in Hw as (ys' & zs' & Hy' & Hz' & E).
  apply Forall_cons_iff in Hok as [Ht Hok]. apply Forall_cons_iff in IH as [IH1 IH].
  apply app_inj_1 in E as [<- <-]; [|by rewrite (leaves_length _ _ _ Ht Hy), (leaves_length _ _ _ Ht Hy')].
  f_equal; [by apply (IH1 v w ys)|by apply (IHts Hok IH vs ws zs)].
Qed.

Lemma leaves_inj t : ∀ v w xs, tree_ok t → leaves t v = Some xs → leaves t w = Some xs → v = w.
Proof using Type.
  induction t as [|sz ts IH] using tuple_tree_ind; intros v w xs Ht Hv Hw.
  - cbn in *. congruence.
  - destruct v as [|vs| | |], w as [|ws| | |]; try done. f_equal. inversion Ht; subst.
    by apply (leaves_list_inj ts) with xs.
Qed.

(** The code that fills a tuple of the right shape makes the tuple of the values. *)
Lemma exec_fields vals t e xs v di s a g : tree_new (length vals) false = Some t → leaves t e = Some xs →
  value_from_field_list vals = Some v →
  exec_list (op_imm AVMOpcode.Noop e di :: tuple_sets (length vals) di) (vals ++ s, a, g) = Some (v :: s, a, g).
Proof using Type.
  intros Ht He Hv. pose proof (tree_new_inv _ _ _ Ht) as [Hok Hs]. pose proof (leaves_length _ _ _ Hok He) as Hl.
  unfold value_from_field_list in Hv. rewrite Ht in Hv. cbn [mbind option_bind] in Hv.
  destruct (exec_tuple_sets (length vals) t di vals Ht 0 xs e s a g) as (w & Hw & Hx); [done|done|congruence|].
  rewrite <- (app_nil_r xs), list_inserts_0_r, app_nil_r in Hx by congruence.
  rewrite (leaves_inj t v w vals Hok (leaves_make t vals v Hok (eq_sym Hs) Hv) Hx). exact Hw.
Qed.

Lemma fields_sound es ms empty di : Forall2 expr_sound es ms →
  (∀ t, tree_new (length es) false = Some t → is_Some (leaves t empty)) →
  expr_sound (fields_gen es empty di) (sem_struct ms).
Proof using Type.
  intros Hms Hempty nl locals pre gs. unfold fields_gen. apply wp_bind.
  eapply wp_mono; [apply (operands_step (rev es) (rev ms)); by apply Forall2_rev|].
  intros n c g [_ Hloop]. repeat wp_step. enter.
  eapply (Hloop [] _ slots names L0 pc σ L s a r); [done|lia|done|done|done|exact Hr|].
  intros vals σ1 L1 HL1 Hl Hr1. rewrite length_rev in Hl. cbn [Nat.add] in Hl.
  eapply fin_give; [exact Hr1|done|eassumption|lia|]. intros v Hv. rewrite <- Hl in *.
  destruct (tree_new_spec (length vals) false) as (t & Ht & _). destruct (Hempty t Ht) as [xs Hxs]. by apply (exec_fields vals t empty xs).
Qed.

Lemma struct_sound es ms di : Forall2 expr_sound es ms → expr_sound (struct_gen es di) (sem_struct ms).
Proof using Type.
  intros Hms nl locals pre gs. unfold struct_gen. wp_step. wp_step. apply fields_sound; [done|]. intros t Ht.
  pose proof (tree_new_inv _ _ _ Ht) as [Hok _]. assert (a = t) as -> by congruence. rewrite make_empty_leaves; eauto.
Qed.

Lemma small_tuple n t : n <= TUPLE_SIZE → tree_new n false = Some t →
  is_Some (leaves t (Value.new_tuple (replicate n Value.none))).
Proof using Type.
  unfold TUPLE_SIZE. intros Hn Ht. do 9 (destruct n as [|n]; [by vm_compute in Ht; injection Ht as <-; eexists|]). lia.
Qed.

Lemma tuple_sound es ms di : Forall2 expr_sound es ms → expr_sound (tuple_gen es di) (sem_tuple ms).
Proof using Type.
  intros Hms. pose proof (Forall2_length Hms) as Hl. unfold sem_tuple.
  destruct (Nat.leb_spec (length ms) TUPLE_SIZE) as [Hle|Hgt].
  - apply fields_sound; [done|]. intros t. apply small_tuple. lia.
  - intros nl locals pre gs. unfold tuple_gen, fields_gen. apply wp_bind.
    eapply wp_mono; [apply (operands_step (rev es) (rev ms)); by apply Forall2_rev|].
    intros n c g [_ _]. repeat wp_step. split; [lia|]. by intros ? ? ? ? ? ? ? ? ? _ _ _ _.
Qed.

Lemma exec_tuple_set size i di v y w s a g : tuple_set size i v y = Some w →
  exec_list [vop_imm (Opcode.TupleSet size) (slot_val i) di] (v :: y :: s, a, g) = Some (w :: s, a, g).
Proof using Type.
  intros Hw. cbn [CodegenRuns.exec_list]. change (is_jump _) with false. cbn iota. unfold vm_exec. cbn.
  unfold Uint256.from_usize. by rewrite Nat2Z.id, Hw.
Qed.

Lemma struct_mod_sound e1 e2 m1 m2 i t di : expr_sound e1 m1 → expr_sound e2 m2 →
  expr_sound (struct_mod_gen e1 i e2 t di) (sem_struct_mod t i m1 m2).
Proof using Type.
  intros H1 H2 nl locals pre gs. unfold struct_mod_gen. part H2. part H1. wp_step. destruct t; try apply wp_panic.
  repeat wp_step. enter. value Hrun Hr (@nil Value.t). intros y σ1 L1 HL1 Hr1. value Hrun0 Hr1 [y]. intros v σ2 L2 HL2 Hr2.
  eapply fin_give; [exact Hr2|done|eassumption|lia|]. intros w Hw. by apply exec_tuple_set.
Qed.

(** *** Fixed-size arrays *)
Lemma array_get_ok fuel : ∀ size i v w di s a r, size < fuel → i < size → array_get fuel size i v = Some w →
  ∃ c, array_code fuel size di = Some c ∧ run_code c (mkView (slot_val i :: v :: s) a r) = Some (mkView (w :: s) a r).
Proof using Type.
  induction fuel as [|fuel IH]; intros size i v w di s a r Hf Hi Hv; [lia|]. destruct v as [|l| | |]; try discriminate.
  cbn [array_get array_code] in *. destruct (Nat.leb_spec size TUPLE_SIZE) as [Hle|Hgt].
  - destruct (Nat.ltb_spec TUPLE_SIZE size); [lia|]. eexists; split; [done|].
    by erewrite run_op by (apply (tget_slot l _ w); [lia|done]).
  - destruct (Nat.ltb_spec TUPLE_SIZE size); [|lia]. apply bind_Some in Hv as (u & Hu & Hv).
    destruct (IH (part_size size) (i / TUPLE_SIZE) u w di s a r) as (c & Hc & Hrun);
      [pose proof (part_size_lt _ Hgt); lia|by apply part_index|done|].
    fold (part_size size). rewrite Hc. cbn [mbind option_bind]. eexists. split; [done|].
    by erewrite run_code_app by (by apply array_level_ok).
Qed.

Lemma array_set_ok fuel : ∀ size i y v w di s a r, size < fuel → i < size → array_set fuel size i y v = Some w →
  ∃ c, codegen_fixed_array_mod_2 fuel size di = Some c ∧
    run_code c (mkView (slot_val i :: v :: y :: s) a r) = Some (mkView (w :: s) a r).
Proof using Type.
  induction fuel as [|fuel IH]; intros size i y v w di s a r Hf Hi Hv; [lia|]. destruct v as [|l| | |]; try discriminate.
  cbn [array_set codegen_fixed_array_mod_2] in *. change 8 with TUPLE_SIZE.
  destruct (Nat.leb_spec size TUPLE_SIZE) as [Hle|Hgt]; apply bind_Some in Hv as (u & Hu & Hv).
  - injection Hv as <-. eexists; split; [done|]. by erewrite run_op by (apply (tset_slot l _ u); [lia|done]).
  - apply bind_Some in Hv as (w' & Hw' & [= <-]).
    destruct (IH (part_size size) (i / TUPLE_SIZE) y u w' di s (slot_val (i mod TUPLE_SIZE) :: Value.Tuple l :: a) r)
      as (c & Hc & Hrun); [pose proof (part_size_lt _ Hgt); lia|by apply part_index|done|].
    fold (part_size size). rewrite Hc. cbn [mbind option_bind]. eexists. split; [done|].
    rewrite (mod_enter l i u) by done. erewrite run_code_app by exact Hrun. by apply (mod_leave l _ u); [apply slot_bound|].
Qed.

Lemma with_index_inv size v k w : with_index size v k = Some w →
  ∃ i, v = slot_val i ∧ i < size ∧ k i = Some w.
Proof using Type.
  unfold with_index. destruct v as [z| | | |]; try discriminate. destruct (Z.leb_spec 0 z), (Z.ltb_spec z (Z.of_nat size));
    try discriminate. cbn. intros Hk. exists (Z.to_nat z). split; [|split; [lia|done]].
  unfold slot_val, Uint256.from_usize. by rewrite Z2Nat.id.
Qed.

Lemma array_mod_insns fuel : ∀ size di c, codegen_fixed_array_mod_2 fuel size di = Some c → forallb view_insn c = true.
Proof using Type.
  induction fuel as [|fuel IH]; intros size di c Hc; [done|]. cbn [codegen_fixed_array_mod_2] in Hc.
  destruct (Nat.leb size 8); [by injection Hc as <-|]. apply bind_Some in Hc as (c' & Hc' & [= <-]).
  cbn [app forallb]. rewrite !andb_true_l, forallb_app, (IH _ _ _ Hc'). done.
Qed.

(** A test that an index passes. *)
Lemma bounds_check_ok size di g : wp (bounds_check size di) g (λ _ c _,
  ∀ P pc i s1 a1 g1 pc' s a r, code_is pc c → i < size →
    finishes P (mkVm (pc + length c) (slot_val i :: s1) a1 g1) pc' s a r →
    finishes P (mkVm pc (slot_val i :: s1) a1 g1) pc' s a r).
Proof using labels_unique.
  unfold bounds_check. destruct (Nat.eqb size 8); repeat wp_step; intros P pc i s1 a1 g1 pc' s a r Hc Hi Hf.
  - by rewrite Nat.add_0_r in Hf.
  - cbn [app] in *. flat. insn. insn. cjump.
    assert ((Z.of_nat i <? Z.of_nat size)%Z = true) as E by (apply Z.ltb_lt; lia).
    unfold Uint256.from_usize. rewrite E. cbn [Z.eqb]. by insn.
Qed.

Lemma fixed_array_ref_sound e1 e2 m1 m2 size di : expr_sound e1 m1 → expr_sound e2 m2 →
  expr_sound (fixed_array_ref_gen e1 e2 size di) (sem_array_ref size m1 m2).
Proof using labels_unique.
  intros H1 H2 nl locals pre gs. unfold fixed_array_ref_gen. part H1. part H2.
  apply wp_bind. eapply wp_mono; [apply bounds_check_ok|]. intros u cb gb Hb. repeat wp_step. enter.
  value Hrun Hr (@nil Value.t). intros arr σ1 L1 HL1 Hr1. value Hrun0 Hr1 [arr]. intros idx σ2 L2 HL2 Hr2.
  apply give_inv in Hr2 as (w & Hw & ->). apply with_index_inv in Hw as (i & -> & Hi & Hw).
  apply Hb; [done|done|].
  eapply fin_code; [eassumption| |eapply fin_pc; [|by apply (fin_val _ (Some w))]; lia].
  destruct (array_get_ok (S size) size i arr w di s [] Value.none) as (c' & Hc' & Hrc); [lia|done|done|].
  cbn [CodegenRuns.exec_list]. change (is_jump _) with false. cbn iota. unfold vm_exec.
  cbn [Instruction.opcode Instruction.debug_info vop Instruction.from_opcode Instruction.new].
  rewrite Hc'. cbn [mbind option_bind]. rewrite Hrc. done.
Qed.

Lemma fixed_array_mod_sound e1 e2 e3 m1 m2 m3 size di : expr_sound e1 m1 → expr_sound e2 m2 → expr_sound e3 m3 →
  expr_sound (codegen_fixed_array_mod e1 e2 e3 size di) (sem_array_mod size m1 m2 m3).
Proof using labels_unique.
  intros H1 H2 H3 nl locals pre gs. unfold codegen_fixed_array_mod. part H3. part H1. part H2.
  apply wp_bind. eapply wp_mono; [apply bounds_check_ok|]. intros u cb gb Hb.
  apply wp_bind, wp_get_or_panic. intros cm Hcm. repeat wp_step. enter.
  value Hrun Hr (@nil Value.t). intros y σ1 L1 HL1 Hr1. value Hrun0 Hr1 [y]. intros v σ2 L2 HL2 Hr2.
  value Hrun1 Hr2 [v; y]. intros idx σ3 L3 HL3 Hr3.
  apply give_inv in Hr3 as (w & Hw & ->). apply with_index_inv in Hw as (i & -> & Hi & Hw).
  apply Hb; [done|done|].
  destruct (array_set_ok (S size) size i y v w di s [] Value.none) as (c' & Hc' & Hrc); [lia|done|done|].
  assert (c' = cm) as -> by congruence.
  eapply fin_code; [eassumption|eapply exec_values; [by apply (array_mod_insns (S size) size di)|exact Hrc]|].
  eapply fin_pc; [|by apply (fin_val _ (Some w))]. lia.
Qed.

Lemma levels_depth fuel : ∀ ts sz di c d x s a r, fixed_array_levels (S fuel) ts sz di = Some c →
  run_code c (mkView (full d x :: s) a r) = Some (mkView (full (array_depth fuel ts sz + d) x :: s) a r).
Proof using Type.
  induction fuel as [|fuel IH]; intros ts sz di c d x s a r; rewrite levels_S; cbn [array_depth];
    destruct (Nat.ltb ts sz); intros Hc; try (by injection Hc as <-); [done|].
  apply bind_Some in Hc as (c' & Hc' & Hc). apply (inj Some) in Hc as <-. erewrite run_code_app by apply fill_tuple_ok.
  rewrite Nat.add_succ_comm. exact (IH _ _ _ _ (S d) x s a r Hc').
Qed.

Lemma levels_insns fuel : ∀ ts sz di c, fixed_array_levels fuel ts sz di = Some c → forallb view_insn c = true.
Proof using Type.
  induction fuel as [|fuel IH]; intros ts sz di c Hc; [done|]. cbn [fixed_array_levels] in Hc.
  destruct (Nat.ltb ts sz); [|by injection Hc as <-]. apply bind_Some in Hc as (c' & Hc' & Hc).
  apply (inj Some) in Hc as <-. rewrite forallb_app, (IH _ _ _ _ Hc'). done.
Qed.

Lemma exec_levels size di c x s a g : fixed_array_levels (S size) 8 size di = Some c →
  exec_list c (Value.Tuple (replicate 8 x) :: s, a, g) = Some (new_array_val size x :: s, a, g).
Proof using Type.
  intros Hc. apply exec_values; [by eapply levels_insns|].
  pose proof (levels_depth size 8 size di c 1 x s [] Value.none Hc) as Hrun.
  unfold new_array_val. by rewrite Nat.add_1_r in Hrun.
Qed.

Lemma new_fixed_array_sound size o om di :
  match o, om with Some e, Some m => expr_sound e m | None, None => True | _, _ => False end →
  expr_sound (new_fixed_array_gen size o di) (sem_new_array size om).
Proof using Type.
  intros Ho nl locals pre gs. unfold new_fixed_array_gen. apply wp_bind.
  destruct o as [e|], om as [m|]; try done.
  - part Ho. repeat wp_step. rename a into cl. enter. value Hrun Hr (@nil Value.t). intros x σ1 L1 HL1 Hr1.
    eapply fin_code; [eassumption|by apply exec_values, fill_tuple_ok|].
    eapply fin_give; [exact Hr1|done|eassumption|lia|]. intros w [= <-]. by apply (exec_levels _ di).
  - repeat wp_step. rename a into cl. enter.
    eapply fin_code; [eassumption|reflexivity|].
    eapply fin_give; [exact Hr|done|eassumption|lia|]. intros w [= <-]. by apply (exec_levels _ di).
Qed.

(** *** Control flow *)
Lemma exec_tget l j x di s a g : j < TUPLE_SIZE → l !! j = Some x →
  exec_list [op_imm AVMOpcode.Tget (slot_val j) di] (Value.Tuple l :: s, a, g) = Some (x :: s, a, g).
Proof using Type.
  intros Hj Hx. apply exec_values; [done|]. erewrite run_op_imm; [done|]. by apply tget_slot.
Qed.

Lemma option_parts_inv v tag held : option_parts v = Some (tag, held) →
  ∃ rest, v = Value.Tuple (Value.Int tag :: rest) ∧ held = rest !! 0.
Proof using Type.
  destruct v as [|[|[z| | | |] rest]| | |]; try discriminate. cbn. intros [= <- <-]. eauto.
Qed.

Lemma if_sound cond b o mc mb mo di :
  expr_sound cond mc → expr_sound b mb →
  match o with Some e => expr_sound e mo | None => mo = skip end →
  expr_sound (if_gen cond b o di) (sem_if mc mb mo).
Proof using labels_unique.
  intros Hcond Hb Ho nl locals pre gs. unfold if_gen. part Hcond. do 6 wp_step. part Hb. do 2 wp_step.
  unfold else_gen. destruct o as [e|].
  - part Ho. repeat wp_step. enter. flat. value Hrun Hr (@nil Value.t). intros v σ1 L1 HL1 Hr1.
    destruct v as [x| | | |]; try discriminate. apply choose_inv in Hr1 as [Hx Hr1].
    zero_test Hx. cjump. eapply fin_label; [eassumption|]. destruct (x =? 0)%Z; cbn [Z.eqb].
    + insn. last_part Hrun1.
    + eapply fin_then_jump; [eassumption|eapply label_at; eassumption|last_part Hrun0].
  - subst mo. repeat wp_step. enter. flat. value Hrun Hr (@nil Value.t). intros v σ1 L1 HL1 Hr1.
    destruct v as [x| | | |]; try discriminate. apply choose_inv in Hr1 as [Hx Hr1].
    zero_test Hx. cjump. eapply fin_label; [eassumption|]. eapply fin_label; [eassumption|].
    destruct (x =? 0)%Z; cbn [Z.eqb].
    + injection Hr1 as <-. by apply (fin_val _ None).
    + last_part Hrun0.
Qed.

(** Clearing the pending operands. *)
Lemma exec_pops junk di s a g : exec_list (replicate (length junk) (op_ AVMOpcode.Pop di)) (junk ++ s, a, g) = Some (s, a, g).
Proof using Type. induction junk as [|x junk IH]; [done|]. exact IH. Qed.

Lemma exec_drop pre di v junk s a g : length junk = pre →
  exec_list (drop_prepushed pre di) (v :: junk ++ s, a, g) = Some (v :: s, a, g).
Proof using Type.
  intros <-. unfold drop_prepushed. destruct junk as [|x junk]; [done|]. cbn [length Nat.ltb Nat.leb].
  change (S (length junk)) with (length (x :: junk)).
  change (exec_list ([op_ AVMOpcode.AuxPush di] ++ replicate (length (x :: junk)) (op_ AVMOpcode.Pop di)
    ++ [op_ AVMOpcode.AuxPop di]) (v :: (x :: junk) ++ s, a, g) = Some (v :: s, a, g)).
  rewrite exec_list_app. change (exec_list [op_ AVMOpcode.AuxPush di] _) with (Some ((x :: junk) ++ s, Plain v :: a, g)).
  cbn [mbind option_bind]. rewrite exec_list_app, exec_pops. done.
Qed.

Lemma fin_return P di pc v σ L pc' s a : code_is pc (drop_prepushed (p_pre P) di ++ [vop Opcode.Return di]) →
  finishes P (mkVm pc (v :: s) (Frame L :: a) (globals σ)) pc' s a (RRet (Some v) σ).
Proof using Type.
  intros Hc junk s0 -> Hj. apply body_is_app in Hc as [Hd Hr]. apply body_is_cons in Hr as [Hr _].
  eexists _, di, L. split; [exact Hr|]. by eapply star_list; [exact Hd|apply exec_drop].
Qed.

Lemma try_sound e m di : expr_sound e m → expr_sound (try_gen e di) (sem_try m).
Proof using labels_unique.
  intros He nl locals pre gs. unfold try_gen. part He. repeat wp_step. unfold try_code. enter.
  value Hrun Hr (@nil Value.t). intros v σ1 L1 HL1 Hr1.
  apply bind_Some in Hr1 as ([tag held] & Hp & Hr1). apply option_parts_inv in Hp as (rest & -> & ->).
  flat. insn. eapply fin_insn; [eassumption|eassumption|apply (exec_tget _ 0); [unfold TUPLE_SIZE; lia|done]|]. cjump. destruct (tag =? 0)%Z.
  - injection Hr1 as <-. apply (fin_return (mkPlace nl slots names L0 pre) di). apply body_is_app. split; [done|].
    by apply body_is_one.
  - insn. apply give_inv in Hr1 as (w & Hw & ->). eapply fin_insn; [eassumption|eassumption|apply (exec_tget _ 1); [unfold TUPLE_SIZE; lia|done]|].
    by apply (fin_val _ (Some w)).
Qed.

(** *** Calls *)
Lemma func_ref_sound import_func_map name di :
  expr_sound (func_ref_gen import_func_map name di) (sem_func_ref import_func_map name).
Proof using Type. apply const_sound. Qed.

Section calls.
Context (callf : Label.t → list Value.t → list Value.t → option (option Value.t * list Value.t)).

(** Code that does what [callf] says: it takes the arguments and the return
    address from the stack, leaves the result and jumps back. *)
Definition call_ok : Prop := ∀ l vals g v g', callf l vals g = Some (v, g') →
  ∃ p, find_label l = Some p ∧ ∀ ret pr s a, find_label ret = Some pr →
    star (mkVm p (Value.Label ret :: vals ++ s) a g) (mkVm pr (option_list v ++ s) a g').
Hypothesis callf_ok : call_ok.

Lemma call_sound f mf args ms t di : expr_sound f mf → Forall2 expr_sound args ms →
  expr_sound (call_gen f args t di) (sem_call callf mf ms t).
Proof using labels_unique callf_ok.
  intros Hf Hms nl locals pre gs. unfold call_gen, sem_call. wp_step. wp_step. apply wp_bind.
  eapply wp_mono; [apply (operands_step (rev args) (rev ms)); by apply Forall2_rev|].
  intros n c g [_ Hloop]. wp_step. wp_step. part Hf. repeat wp_step.
  destruct (type_eq Tipe.Every t); [split; [lia|]; by intros ? ? ? ? ? ? ? ? ? _ _ _ _|].
  enter. eapply (Hloop [] _ slots names L0 pc σ L s a r); [done|lia|done|done|done|exact Hr|].
  intros vals σ1 L1 HL1 Hl Hr1. rewrite length_rev in Hl. cbn [Nat.add] in Hl. flat.
  insn. change (Value.Label ?l :: vals ++ s) with ((Value.Label l :: vals) ++ s).
  value Hrun Hr1 (Value.Label (Label.Anon (next gs)) :: vals). intros fv σ2 L2 HL2 Hr2.
  destruct fv as [| | | |l]; try discriminate. apply bind_Some in Hr2 as ([v g'] & Hcall & [= <-]).
  destruct (callf_ok _ _ _ _ _ Hcall) as (p & Hp & Hrun_call).
  eapply fin_label; [eassumption|]. eapply fin_star; [eapply star_jump_to; [eassumption|exact Hp]|].
  eapply fin_star; [apply Hrun_call; eapply label_at; eassumption|].
  by apply (fin_val _ v (mkSt (env σ2) g')).
Qed.

Context `{Crypto} (string_table : StringTable.t) (import_func_map : gmap nat Label.t).

Lemma builtin_sound name args ms t loc : Forall2 expr_sound args ms →
  expr_sound (builtin_gen string_table import_func_map name args t loc)
    (sem_builtin callf string_table import_func_map name ms t).
Proof using labels_unique callf_ok.
  intros Hms nl locals pre gs. unfold builtin_gen, sem_builtin. apply wp_bind, wp_get_or_panic. intros id ->.
  apply call_sound; [apply func_ref_sound|done].
Qed.

Lemma new_array_sound e m bt at_ di : expr_sound e m →
  expr_sound (new_array_gen string_table import_func_map e bt at_ di)
    (sem_new_heap_array callf string_table import_func_map m bt at_).
Proof using labels_unique callf_ok.
  intros He nl locals pre gs. unfold new_array_gen, sem_new_heap_array. apply wp_bind, wp_get_or_panic. intros [d b] ->.
  apply builtin_sound. apply List.Forall2_cons; [done|]. apply List.Forall2_cons; [apply const_sound|constructor].
Qed.
End calls.
End machine.
