(* ===== verification/CodegenStatements.v ===== *)
(** * The code generator is correct: statements, blocks and patterns

    Every generator of a statement (src/src/compile/codegen.rs) against the
    matching combinator of Semantics.v; then blocks, [if let] and loops, which
    open scopes. *)

From Stdlib Require Import ZArith Lia.
From stdpp Require Import relations.
From S2P Require Import Prelude U256 StringTab Pos Opcodes Crypto BufferTree Values Insns StraightLine TupleTree StripLabels Types TypedAst Link Codegen CodegenThms TypecheckOps FixedArray VirtualMachine Semantics CodegenRuns CodegenSound.

#[local] Set Warnings "-clear-no-such-hyp".

Lemma pattern_ind (P : MatchPattern → Prop) :
  (∀ id di t, P (mkMatchPattern (PBind id) di t)) → (∀ id di t, P (mkMatchPattern (PAssign id) di t)) →
  (∀ pats di t, Forall P pats → P (mkMatchPattern (PTuple pats) di t)) → ∀ p, P p.
Proof.
  intros HB HA HT. fix IH 1. intros [[id|id|pats] di t]; [apply HB|apply HA|]. apply HT.
  induction pats as [|p pats IHp]; constructor; [apply IH|apply IHp].
Qed.

(** ** Frames *)
Lemma holds_insert_ne e slots L k v : holds e slots L → k ∉ slots → holds e slots (<[k := v]> L).
Proof.
  induction 1 as [|xv j e slots Hv Hh IH]; intros Hk; constructor.
  - rewrite list_lookup_insert_ne; [done|]. intros ->. apply Hk. by left.
  - apply IH. intros ?. apply Hk. by right.
Qed.

Lemma holds_same e slots L L' : holds e slots L → (∀ k, k ∈ slots → L' !! k = L !! k) → holds e slots L'.
Proof.
  induction 1 as [|xv j e slots Hv Hh IH]; intros Hk; constructor.
  - rewrite Hk; [done|by left].
  - apply IH. intros k ?. apply Hk. by right.
Qed.

Lemma holds_update x v e slots L e' : holds e slots L → NoDup slots → update x v e = Some e' →
  ∃ k, assoc x (zip e.*1 slots) = Some k ∧ k ∈ slots ∧ is_Some (L !! k) ∧ holds e' slots (<[k := v]> L) ∧ e'.*1 = e.*1.
Proof.
  intros Hh. revert e'. induction Hh as [|[y b] j e slots Hv Hh IH]; intros e' Hnd Hu; [done|].
  apply list.NoDup_cons in Hnd as [Hj Hnd]. cbn in Hu |- *. destruct (Nat.eqb x y).
  - injection Hu as <-. exists j. split; [done|]. split; [by left|]. split; [by eexists|]. split; [|done].
    constructor; [|by apply holds_insert_ne]. cbn. apply list_lookup_insert_eq. by apply lookup_lt_Some in Hv.
  - apply bind_Some in Hu as (e1 & Hu & [= <-]). destruct (IH e1 Hnd Hu) as (k & Hk & Hks & HL & Hh' & Hn).
    exists k. split; [done|]. split; [by right|]. split; [done|]. split; [|cbn; congruence].
    constructor; [|done]. cbn. rewrite list_lookup_insert_ne; [done|]. by intros ->.
Qed.

Lemma update_none x v e (slots : list nat) : length slots = length e → update (A := Value.t) x v e = None →
  assoc x (zip e.*1 slots) = None.
Proof.
  revert slots. induction e as [|[y b] e IH]; intros [|j slots] Hl Hu; try done. cbn in Hu |- *.
  destruct (Nat.eqb x y); [done|]. apply IH; [by injection Hl|]. by destruct (update x v e).
Qed.

Lemma keeps_insert nl slots L L' k v : keeps nl slots L L' → nl <= k ∨ k ∈ slots → keeps nl slots L (<[k := v]> L').
Proof.
  intros [Hl Hk] Hi. split; [by rewrite length_insert|]. intros j Hj Hs.
  rewrite list_lookup_insert_ne; [auto|]. intros ->. destruct Hi; [lia|done].
Qed.

Lemma keeps_weaken nl nl' new slots L L' : keeps nl' (new ++ slots) L L' → nl <= nl' → (∀ k, k ∈ new → nl <= k) →
  keeps nl slots L L'.
Proof.
  intros [Hl Hk] Hle Hnew. split; [done|]. intros k Hlt Hs. apply Hk; [lia|]. rewrite elem_of_app. intros [Hin|?]; [|done].
  specialize (Hnew k Hin). lia.
Qed.

Lemma shape_le locals nl n names slots : shape locals nl names slots → nl <= n → shape locals n names slots.
Proof. intros [H1 H2 H3 H4] Hle. split; [done..| |done]. intros k Hk. specialize (H3 k Hk). lia. Qed.

Lemma fits_length P σ L : fits_frame P σ L → length L = length (p_frame P).
Proof. by intros (_ & _ & ? & _). Qed.

(** A variable set to a value. *)
Lemma fits_update P σ L locals x v e : shape locals (p_nl P) (p_names P) (p_slots P) → fits_frame P σ L →
  update x v (env σ) = Some e →
  ∃ k, locals !! x = Some k ∧ is_Some (L !! k) ∧ ∀ g, fits_frame P (mkSt e g) (<[k := v]> L).
Proof.
  intros Hsh (Hh & Hn & Hk) Hu. destruct (holds_update _ _ _ _ _ _ Hh (sh_nodup _ _ _ _ Hsh) Hu) as (k & Ha & Hs & HL & Hh' & Hn').
  exists k. rewrite (sh_map _ _ _ _ Hsh), <- Hn. split; [done|]. split; [done|]. intros g. split; [done|].
  split; [cbn; congruence|]. apply keeps_insert; [done|by right].
Qed.

Lemma exec_set_local fsz k di v L s a g : length L = fsz → is_Some (L !! k) →
  exec_list fsz [vop_imm Opcode.SetLocal (slot_val k) di] (v :: s, Frame L :: a, g) = Some (s, Frame (<[k := v]> L) :: a, g).
Proof. intros <- [x Hk]. cbn. unfold vm_exec. cbn. unfold Uint256.from_usize. by rewrite Nat.eqb_refl, Nat2Z.id, Hk. Qed.

Lemma exec_set_global fsz idx di v s a g : is_Some (g !! idx) →
  exec_list fsz [vop (Opcode.SetGlobalVar idx) di] (v :: s, a, g) = Some (s, a, <[idx := v]> g).
Proof. intros [x Hk]. cbn. unfold vm_exec. cbn. by rewrite Hk. Qed.

Section machine.
Context {code : list insn} {fsz : nat}.
Hypothesis labels_unique : NoDup (defined_labels code).

Abbreviation star := (star code).
Abbreviation code_is := (body_is code fsz).
Abbreviation exec_list := (exec_list fsz).
Abbreviation find_label := (find_label code).
Abbreviation finishes := (@finishes code).
Abbreviation expr_runs := (@expr_runs code fsz).
Abbreviation expr_sound := (@expr_sound code fsz).
Abbreviation stat_finishes := (@stat_finishes code).
Abbreviation stat_runs := (@stat_runs code fsz).
Abbreviation stat_sound := (@stat_sound code fsz).
Abbreviation stats_sound := (@stats_sound code fsz).

(** ** Statements that add no variables *)
Definition no_value (r : res) : Prop := match r with RVal (Some _) _ => False | _ => True end.

Lemma value_no_value pend m k σ r : value_of pend m k σ = Some r → (∀ v σ r, k v σ = Some r → no_value r) → no_value r.
Proof using Type.
  unfold value_of. intros Hr Hk. apply bind_Some in Hr as ([[v|] ?|[v|] ?] & _ & Hr); try discriminate; eauto.
  - by injection Hr as <-.
  - destruct pend; [discriminate|]. by injection Hr as <-.
Qed.

Lemma stat_plain nl slots names L0 pre locals n m pc' s a r :
  no_value r → shape locals nl names slots → nl <= n →
  finishes (mkPlace nl slots names L0 pre) m pc' s a r →
  stat_finishes (mkPlace nl slots names L0 pre) (∅ ∪ locals) n m pc' s a r.
Proof using Type.
  intros Hv Hsh Hle. destruct r as [v σ|v σ]; [|done]. destruct v; [done|].
  intros (L & Hs & Hh & Hn & Hk). split; [done|]. exists L, [], []. cbn [app p_slots p_names p_nl p_frame] in *.
  split; [done|]. split; [done|]. split; [done|]. split; [|split; [by intros k ?%elem_of_nil|done]].
  rewrite (left_id_L ∅ (∪)). by apply (shape_le _ nl).
Qed.

(** The code of a statement, split into its pieces. *)
Ltac enter_stat :=
  intros slots names L0 pc σ L s a r Hc Hn Hsh HL Hr; cbn [fst snd] in *;
  rewrite ?app_nil_r, ?app_nil_l in *; rewrite ?body_is_app in Hc; rewrite ?length_app, ?Nat.add_assoc in *; destruct_and? Hc;
  unfold sem_return, sem_assign_local, sem_assign_global, sem_let in Hr.
Ltac plain := apply stat_plain; [|eassumption|lia|].

Lemma return_sound e m di : expr_sound e m → stat_sound (return_gen e di) (sem_return m).
Proof using Type.
  intros He nl locals pre gs. unfold return_gen. part He. repeat wp_step. enter_stat. plain.
  - eapply value_no_value; [exact Hr|]. by intros v σ' r' [= <-].
  - value Hrun Hr (@nil Value.t). intros v σ1 L1 HL1 [= <-].
    apply (fin_return (fsz := fsz) (mkPlace nl slots names L0 pre) di). by apply body_is_app.
Qed.

Lemma return_void_sound di : stat_sound (λ _ _ _, emit [vop Opcode.Return di];; mret (0, ∅)) (λ σ, Some (RRet None σ)).
Proof using Type.
  intros nl locals pre gs. repeat wp_step. enter_stat. injection Hr as <-. plain; [done|].
  intros junk s0 _ _. exists pc, di, L. apply body_is_cons in Hc as [Hc _]. split; [done|]. apply rtc_refl.
Qed.

Lemma noop_sound : stat_sound (λ _ _ _, mret (0, ∅)) skip.
Proof using Type.
  intros nl locals pre gs. repeat wp_step. enter_stat. injection Hr as <-. plain; [done|].
  cbn [length]. rewrite Nat.add_0_r. by apply (fin_val _ None).
Qed.

Lemma assign_local_sound x e m di : expr_sound e m → stat_sound (assign_local_gen x e di) (sem_assign_local x m).
Proof using Type.
  intros He nl locals pre gs. unfold assign_local_gen. destruct (locals !! x) as [k|] eqn:Ek; [|apply wp_throw].
  part He. repeat wp_step. enter_stat. plain.
  - eapply value_no_value; [exact Hr|]. by intros v σ' r' (? & _ & [= <-])%bind_Some.
  - value Hrun Hr (@nil Value.t). intros v σ1 L1 HL1 Hr1. apply bind_Some in Hr1 as (e' & Hu & [= <-]).
    destruct (fits_update (mkPlace nl slots names L0 pre) σ1 L1 locals x v e' Hsh HL1 Hu) as (k' & Hk' & HLk & HL2).
    assert (k' = k) as -> by congruence.
    eapply fin_code; [eassumption|apply exec_set_local; [eapply fits_size; [eassumption|lia]|done]|]. by apply (fin_val _ None (mkSt e' (globals σ1))).
Qed.

Lemma assign_global_sound idx e m di : expr_sound e m →
  stat_sound (consume_gen e (vop (Opcode.SetGlobalVar idx) di)) (sem_assign_global idx m).
Proof using Type.
  intros He nl locals pre gs. unfold consume_gen. part He. repeat wp_step. enter_stat. plain.
  - eapply value_no_value; [exact Hr|]. by intros v σ' r' (? & _ & [= <-])%bind_Some.
  - value Hrun Hr (@nil Value.t). intros v σ1 L1 HL1 Hr1. apply bind_Some in Hr1 as (old & Hg & [= <-]).
    eapply fin_code; [eassumption|by apply exec_set_global|].
    by apply (fin_val _ None (mkSt (env σ1) (<[idx := v]> (globals σ1)))).
Qed.

Lemma expression_sound e m t di : expr_sound e m → stat_sound (expression_gen e t di) (sem_expression t m).
Proof using Type.
  intros He nl locals pre gs. unfold expression_gen, sem_expression. part He.
  destruct (type_eq t Tipe.Void || type_eq t Tipe.Every).
  - repeat wp_step. enter_stat. apply bind_Some in Hr as (r1 & Hr1 & Hr). plain; [by destruct r1 as [[]|]; simplify_eq/=|].
    assert (r1 = r) as -> by (by destruct r1 as [[]|]; simplify_eq/=). last_part Hrun.
  - assert (wp (emit [op_ AVMOpcode.Pop di];;
                if type_eq t (Tipe.Tuple []) then mret ()
                else warn (CompileError_new_warning "Compile warning"
                       "expression statement returns value of type, which is discarded" (option_list (location di)))) g
             (λ _ c _, c = [op_ AVMOpcode.Pop di])) as Hpop
      by (wp_step; wp_step; destruct (type_eq t (Tipe.Tuple [])); by wp_step).
    apply wp_bind. eapply wp_mono; [exact Hpop|]. intros u c' g' ->. repeat wp_step. enter_stat. plain.
    + eapply value_no_value; [exact Hr|]. by intros v σ' r' [= <-].
    + value Hrun Hr (@nil Value.t). intros v σ1 L1 HL1 [= <-].
      eapply fin_code; [eassumption|reflexivity|]. by apply (fin_val _ None).
Qed.

(** ** Sequences *)
Lemma stat_star P locals n m m' pc' s a r : star m m' → stat_finishes P locals n m' pc' s a r →
  stat_finishes P locals n m pc' s a r.
Proof using Type.
  intros Hm. destruct r as [v σ|v σ]; [|by apply fin_star].
  intros (-> & L & nn & ns & Hs & HL). split; [done|]. exists L, nn, ns. split; [by transitivity m'|done].
Qed.

(** The result of what follows a statement, seen from before the statement. *)
Lemma stat_after nl n1 slots names new_slots new_names L0 L1 pre locals n2 m pc' s a r :
  nl <= n1 → (∀ k, k ∈ new_slots → nl <= k) → keeps nl slots L0 L1 →
  stat_finishes (mkPlace n1 (new_slots ++ slots) (new_names ++ names) L1 pre) locals n2 m pc' s a r →
  stat_finishes (mkPlace nl slots names L0 pre) locals n2 m pc' s a r.
Proof using Type.
  intros Hle Hnew Hk. destruct r as [v σ|v σ]; [|done].
  intros (-> & L & nn & ns & Hs & Hh & Hn & Hsh & Hns & Hk2). split; [done|]. exists L, (nn ++ new_names), (ns ++ new_slots).
  cbn [p_slots p_names p_nl p_frame] in *. rewrite <- !app_assoc. split; [done|]. split; [done|]. split; [done|].
  split; [done|]. split.
  - intros k [Hin|Hin]%elem_of_app; [|auto]. specialize (Hns k Hin). lia.
  - eapply keeps_trans; [exact Hk|]. by eapply keeps_weaken.
Qed.

Lemma stat_then m k nl n1 n2 l1 l2 l3 pre c1 c2 : nl <= n1 → n1 <= n2 →
  stat_runs m nl l1 l2 pre n1 c1 → stat_runs k n1 l2 l3 pre n2 c2 → stat_runs (then_sem m k) nl l1 l3 pre n2 (c1 ++ c2).
Proof using Type.
  intros H1 H2 Hm Hk. enter_stat. unfold then_sem in Hr. apply bind_Some in Hr as (r1 & Hr1 & Hr).
  specialize (Hm slots names L0 pc σ L s a r1 ltac:(done) ltac:(lia) Hsh HL Hr1).
  destruct r1 as [v σ1|v σ1]; [|by injection Hr as <-].
  destruct Hm as (-> & L1 & nn & ns & Hs & Hh & Hnm & Hsh1 & Hns & Hkp). cbn [p_slots p_names p_nl p_frame] in *.
  eapply stat_star; [exact Hs|]. eapply (stat_after nl n1 slots names ns nn L0 L1); [done..|].
  apply Hk; [done| |done|done|done]. destruct Hkp as [-> _]. done.
Qed.

Lemma stats_loop_sound f locals ss ms : Forall2 (λ st m, stat_sound (f st) m) ss ms → ∀ nl bindings pre gs,
  wp (statements_loop f locals pre ss nl bindings) gs (λ r c _, nl <= r.1 ∧
    stat_runs (sequence ms) nl (bindings ∪ locals) (r.2 ∪ locals) pre r.1 c).
Proof using Type.
  induction 1 as [|st m ss ms Hs Hss IH]; intros nl bindings pre gs.
  - cbn [statements_loop]. wp_step. split; [done|]. intros slots names L0 pc σ L s a r Hc Hn Hsh (Hh & Hnm & Hk) [= <-].
    split; [done|]. exists L, [], []. cbn [app length p_slots p_names p_nl p_frame fst snd] in *. rewrite Nat.add_0_r.
    split; [apply rtc_refl|]. split; [done|]. split; [done|]. split; [done|]. split; [by intros k ?%elem_of_nil|done].
  - cbn [statements_loop]. apply wp_bind. eapply wp_mono; [apply Hs|]. intros [n1 b1] c1 g1 H1. cbn [fst snd] in H1.
    eapply wp_mono; [apply IH|]. intros [n2 b2] c2 g2 [Hle H2]. cbn [fst snd] in *. split; [lia|].
    rewrite (assoc_L (∪)) in H1. eapply stat_then; [|exact Hle|exact H1|exact H2]. lia.
Qed.

(** ** Blocks *)

(** Leaving a scope: its variables are forgotten. *)
Lemma fin_scope nl n1 slots names new_slots new_names L0 L1 pre m pc' s a r σ0 :
  nl <= n1 → length new_names = length new_slots → (∀ k, k ∈ new_slots → nl <= k) → keeps nl slots L0 L1 →
  (env σ0).*1 = names →
  finishes (mkPlace n1 (new_slots ++ slots) (new_names ++ names) L1 pre) m pc' s a r →
  finishes (mkPlace nl slots names L0 pre) m pc' s a
    (match r with
     | RVal v σ => RVal v (mkSt (drop (length (env σ) - length (env σ0)) (env σ)) (globals σ))
     | RRet v σ => RRet v σ
     end).
Proof using Type.
  intros Hle Hl Hnew Hk Hn0. destruct r as [v σ|v σ]; [|done]. intros (L & Hs & Hh & Hn & Hk2). exists L.
  cbn [p_slots p_names p_nl p_frame env globals] in *. split; [done|].
  assert (length (env σ) - length (env σ0) = length new_slots) as ->.
  { rewrite <- (length_fmap fst (env σ)), <- (length_fmap fst (env σ0)), Hn, Hn0, length_app. lia. }
  split; [|split].
  - unfold holds in *. rewrite <- (drop_app_length new_slots slots). by apply Forall2_drop.
  - by rewrite fmap_drop, Hn, <- Hl, drop_app_length.
  - eapply keeps_trans; [exact Hk|]. by eapply keeps_weaken.
Qed.

Lemma scoped_inv m σ r : scoped m σ = Some r → ∃ r1, m σ = Some r1 ∧
  r = match r1 with
      | RVal v σ' => RVal v (mkSt (drop (length (env σ') - length (env σ)) (env σ')) (globals σ'))
      | RRet v σ' => RRet v σ'
      end.
Proof using Type. unfold scoped. intros Hr. apply bind_Some in Hr as (r1 & H1 & Hr). exists r1. split; [done|]. by destruct r1; simplify_eq/=. Qed.

(** Statements, then an expression, in a scope of their own. *)
Lemma block_runs m k nl n1 n2 l1 l2 pre c1 c2 : nl <= n1 → n1 <= n2 →
  stat_runs m nl l1 l2 pre n1 c1 → expr_runs k n1 l2 pre n2 c2 →
  expr_runs (scoped (then_sem m k)) nl l1 pre n2 (c1 ++ c2).
Proof using Type.
  intros H1 H2 Hm Hk. enter_stat. apply scoped_inv in Hr as (r' & Hr & ->). unfold then_sem in Hr.
  apply bind_Some in Hr as (r1 & Hr1 & Hr).
  specialize (Hm slots names L0 pc σ L s a r1 ltac:(done) ltac:(lia) Hsh HL Hr1).
  destruct r1 as [v σ1|v σ1]; [|by injection Hr as <-].
  destruct Hm as (-> & L1 & nn & ns & Hs & Hh & Hnm & Hsh1 & Hns & Hkp). cbn [p_slots p_names p_nl p_frame] in *.
  eapply fin_star; [exact Hs|].
  apply (fin_scope nl n1 slots names ns nn L0 L1); [done| |done|done|by destruct HL as (_ & ? & _)|].
  - pose proof (sh_length _ _ _ _ Hsh) as E. pose proof (sh_length _ _ _ _ Hsh1) as E1. rewrite !length_app in E1. lia.
  - apply Hk; [done| |done|done|done]. destruct Hkp as [-> _]. done.
Qed.

Lemma skip_runs nl locals pre n : expr_runs skip nl locals pre n [].
Proof using Type.
  intros slots names L0 pc σ L s a r Hc Hn Hsh HL [= <-]. cbn [length]. rewrite Nat.add_0_r. by apply (fin_val _ None).
Qed.

Lemma runs_label m nl locals pre n c l di : expr_runs m nl locals pre n c → expr_runs m nl locals pre n (c ++ [label_ l di]).
Proof using Type.
  intros Hm. enter_stat. apply body_is_cons in H0 as [H0 _]. cbn [length]. rewrite Nat.add_1_r.
  eapply fin_label; [eassumption|]. by apply Hm.
Qed.

Lemma runs_le m nl locals pre n n' c : expr_runs m nl locals pre n c → n <= n' → expr_runs m nl locals pre n' c.
Proof using Type. intros Hm Hle. enter_stat. apply Hm; [done|lia|done..]. Qed.

Lemma code_block_sound body mbody ret mret scope di : stats_sound body (sequence mbody) →
  match ret, mret with Some e, Some m => expr_sound e m | None, None => True | _, _ => False end →
  expr_sound (code_block_gen body ret scope di) (sem_block mbody mret).
Proof using Type.
  intros Hb Hret nl locals pre gs. unfold code_block_gen, sem_block. do 4 wp_step. apply wp_bind.
  eapply wp_mono; [apply Hb|]. intros [n1 b1] c1 g1 [Hle1 H1]. cbn [fst snd] in *.
  destruct ret as [e|], mret as [m|]; try done.
  - part Hret. repeat wp_step. rewrite ?app_nil_l, ?app_nil_r. split; [lia|]. rewrite app_assoc. apply runs_label.
    eapply (runs_le _ _ _ _ n); [|lia]. eapply block_runs; [done| |exact H1|exact Hrun]. done.
  - repeat wp_step. rewrite ?app_nil_l, ?app_nil_r. split; [lia|]. apply runs_label.
    rewrite <- (app_nil_r c1). eapply (runs_le _ _ _ _ n1); [|lia].
    eapply block_runs; [done| |exact H1|apply skip_runs]. done.
Qed.

(** ** A new variable *)
Lemma shape_bind locals nl names slots x : shape locals nl names slots →
  shape (<[x := nl]> locals) (S nl) (x :: names) (nl :: slots).
Proof using Type.
  intros [H1 H2 H3 H4]. split.
  - cbn. by rewrite H1.
  - apply list.NoDup_cons. split; [|done]. intros Hin. specialize (H3 _ Hin). lia.
  - intros k [->|Hin]%elem_of_cons; [lia|]. specialize (H3 _ Hin). lia.
  - intros y. cbn. destruct (Nat.eqb_spec y x) as [->|Hne]; [by rewrite lookup_insert_eq|].
    rewrite lookup_insert_ne by congruence. apply H4.
Qed.

Lemma bind_local_runs m nl locals pre n c x v slots names L0 pc σ L s a r :
  expr_runs m (S nl) (<[x := nl]> locals) pre n c → code_is pc c → n <= length L0 ∧ length L0 = fsz → nl < length L0 →
  shape locals nl names slots → fits_frame (mkPlace nl slots names L0 pre) σ L → bind_local x v m σ = Some r →
  finishes (mkPlace nl slots names L0 pre) (mkVm pc s (Frame (<[nl := v]> L) :: a) (globals σ)) (pc + length c) s a r.
Proof using Type.
  intros Hm Hc Hn Hlt Hsh (Hh & Hnm & Hk) Hr. unfold bind_local in Hr. apply scoped_inv in Hr as (r' & Hr & ->).
  cbn [p_slots p_names p_nl p_frame] in *.
  apply (fin_scope nl (S nl) slots names [nl] [x] L0 (<[nl := v]> L)); [lia|done|by intros k ->%list_elem_of_singleton| |done|].
  - apply keeps_insert; [done|by left].
  - eapply (Hm (nl :: slots) (x :: names) (<[nl := v]> L) pc (mkSt ((x, v) :: env σ) (globals σ))); [done| | | |done].
    + rewrite length_insert. destruct Hk as [-> _]. done.
    + by apply shape_bind.
    + split; [|split; [cbn; by rewrite Hnm|done]]. constructor; cbn [env p_slots].
      * apply list_lookup_insert_eq. destruct Hk as [-> _]. done.
      * apply holds_insert_ne; [done|]. intros Hin. pose proof (sh_below _ _ _ _ Hsh _ Hin). lia.
Qed.

Lemma if_let_sound x e b o me mb mo di :
  expr_sound e me → expr_sound b mb →
  match o with Some e => expr_sound e mo | None => mo = skip end →
  expr_sound (if_let_gen x e b o di) (sem_if_let x me mb mo).
Proof using labels_unique.
  intros He Hb Ho nl locals pre gs. unfold if_let_gen. wp_step. wp_step. part He. do 2 wp_step. part Hb.
  do 4 wp_step.
  apply wp_bind. apply (wp_mono _ _ (λ n c _, expr_runs mo nl locals pre n c)).
  { unfold else_gen. destruct o as [e'|]; [eapply wp_mono; [apply Ho|]; by intros ? ? ? [_ ?]|].
    subst mo. wp_step. apply skip_runs. }
  intros n1 c1 g1 Helse. repeat wp_step. enter. flat.
  value Hrun Hr (@nil Value.t). intros v σ1 L1 HL1 Hr1.
  apply bind_Some in Hr1 as ([tag held] & Hp & Hr1). apply option_parts_inv in Hp as (rest & -> & ->).
  insn. eapply fin_insn; [eassumption|eassumption|apply (exec_tget _ 0); [unfold TUPLE_SIZE; lia|done]|].
  apply choose_inv in Hr1 as [Hx Hr1]. zero_test Hx. cjump.
  eapply fin_label; [eassumption|].
  destruct (tag =? 0)%Z; cbn [Z.eqb].
  - insn. insn. last_part Helse.
  - apply bind_Some in Hr1 as (y & Hy & Hr1).
    eapply fin_insn; [eassumption|eassumption|apply (exec_tget _ 1); [unfold TUPLE_SIZE; lia|done]|].
    eapply fin_insn; [eassumption|eassumption|apply exec_set_local; [eapply fits_size; [eassumption|lia]|]|].
    { apply lookup_lt_is_Some. rewrite (fits_length _ _ _ HL1). cbn [p_frame]. lia. }
    eapply fin_then_jump; [eassumption|eapply label_at; eassumption|].
    eapply fin_pc; [|eapply bind_local_runs; [exact Hrun0|eassumption|lia|lia|eassumption..]]. cbn [length]; lia.
Qed.

(** ** Loops *)
Lemma fin_weaken nl nl' slots names L0 L1 pre m pc' s a r : nl <= nl' → keeps nl slots L0 L1 →
  finishes (mkPlace nl' slots names L1 pre) m pc' s a r → finishes (mkPlace nl slots names L0 pre) m pc' s a r.
Proof using Type.
  intros Hle Hk. destruct r as [v σ|v σ]; [|done]. intros (L & Hs & Hh & Hn & Hk2). exists L.
  cbn [p_slots p_names p_nl p_frame] in *. split; [done|]. split; [done|]. split; [done|].
  eapply keeps_trans; [exact Hk|]. apply (keeps_weaken nl nl' []); [done..|]. by intros k ?%elem_of_nil.
Qed.

Lemma runs_antitone m nl nl' locals pre n c : expr_runs m nl' locals pre n c → nl <= nl' → expr_runs m nl locals pre n c.
Proof using Type.
  intros Hm Hle slots names L0 pc σ L s a r Hc Hn Hsh HL Hr. pose proof HL as (Hh & Hnm & Hk).
  apply (fin_weaken nl nl' slots names L0 L); [done|done|]. apply Hm; [done| | |done|done].
  - destruct Hk as [-> _]. done.
  - by apply (shape_le _ nl).
Qed.

(** A body run in a scope of its own. *)
Lemma scoped_runs m nl l1 l2 pre n c slots names L0 pc σ L s a r : nl <= n → stat_runs m nl l1 l2 pre n c →
  code_is pc c → n <= length L0 ∧ length L0 = fsz → shape l1 nl names slots → fits_frame (mkPlace nl slots names L0 pre) σ L →
  scoped m σ = Some r →
  no_value r ∧ finishes (mkPlace nl slots names L0 pre) (mkVm pc s (Frame L :: a) (globals σ)) (pc + length c) s a r.
Proof using Type.
  intros Hle Hm Hc Hn Hsh HL Hr. apply scoped_inv in Hr as (r1 & Hr & ->).
  specialize (Hm slots names L0 pc σ L s a r1 Hc Hn Hsh HL Hr).
  destruct r1 as [v σ1|v σ1]; [|done]. destruct Hm as (-> & L1 & nn & ns & Hs & Hh & Hnm & Hsh1 & Hns & Hkp).
  cbn [p_slots p_names p_nl p_frame] in *. split; [done|]. eapply fin_star; [exact Hs|].
  apply (fin_scope nl n slots names ns nn L0 L1 pre _ _ _ _ (RVal None σ1)); [done| |done|done|by destruct HL as (_ & ? & _)|].
  - pose proof (sh_length _ _ _ _ Hsh) as E. pose proof (sh_length _ _ _ _ Hsh1) as E1. rewrite !length_app in E1. lia.
  - by apply (fin_val _ None).
Qed.

Lemma star_cjump_to pc l di p x s a g : code !! pc = Some (op_ AVMOpcode.Cjump di) → find_label l = Some p →
  star (mkVm pc (Value.Label l :: Value.Int x :: s) a g) (mkVm (if (x =? 0)%Z then S pc else p) s a g).
Proof using Type. intros Hi Hl. apply star_one. erewrite vm_step_insn by exact Hi. cbn. by rewrite Hl. Qed.

(** The loop at its condition, with the label of its top in slot [nl]. *)
Lemma while_runs fuel mc mb nl locals locals' pre n nc cb cc top cond di slots names L1 p s a r :
  let pcond := S p + length cb in
  let pend := S (S (S pcond + length cc)) in
  code !! p = Some (label_ top di) → code_is (S p) cb → code !! pcond = Some (label_ cond di) → code_is (S pcond) cc →
  code !! (S pcond + length cc) = Some (vop_imm Opcode.GetLocal (slot_val nl) di) → frame_size code (S pcond + length cc) = fsz →
  code !! S (S pcond + length cc) = Some (op_ AVMOpcode.Cjump di) →
  stat_runs mb (S nl) locals locals' pre n cb → expr_runs mc (S nl) locals pre nc cc →
  S nl <= n → n <= length L1 ∧ length L1 = fsz → nc <= length L1 ∧ length L1 = fsz → shape locals nl names slots → L1 !! nl = Some (Value.Label top) →
  ∀ σ L, fits_frame (mkPlace (S nl) slots names L1 pre) σ L → sem_while fuel mc mb σ = Some r →
    finishes (mkPlace (S nl) slots names L1 pre) (mkVm pcond s (Frame L :: a) (globals σ)) pend s a r.
Proof using labels_unique.
  intros pcond pend Htop Hcb Hcl Hcc Hget Hfs Hj Hmb Hmc Hle Hn Hnc Hsh Hl.
  assert (shape locals (S nl) names slots) as Hsh' by (apply (shape_le _ nl); [done|lia]).
  induction fuel as [|fuel IH]; intros σ L HL Hr; [done|]. cbn [sem_while] in Hr. unfold sem_if in Hr.
  eapply fin_star; [by eapply star_label|].
  eapply (value_step _ _ _ _ _ _ _ _ _ _ _ _ _ _ _ _ [] _ _ _ Hmc); [done|done|done|done|exact Hr|cbn; lia|done|].
  cbn [app]. intros v σ1 L2 HL2 Hr1. destruct v as [x| | | |]; try discriminate.
  apply choose_inv in Hr1 as [_ Hr1].
  eapply fin_insn; [exact Hget|exact Hfs|apply (exec_get_local nl di (Value.Label top)); [eapply fits_size; [exact HL2|tauto]|]|].
  { destruct HL2 as (_ & _ & _ & Hk). rewrite Hk; [done|cbn; lia|]. cbn. intros Hin.
    pose proof (sh_below _ _ _ _ Hsh _ Hin). lia. }
  eapply fin_star; [eapply star_cjump_to; [exact Hj|by eapply label_at]|]. destruct (x =? 0)%Z.
  - injection Hr1 as <-. by apply (fin_val _ None).
  - eapply fin_star; [by eapply star_label|]. unfold then_sem in Hr1. apply bind_Some in Hr1 as (r1 & Hr1 & Hr2).
    destruct (scoped_runs mb (S nl) locals locals' pre n cb slots names L1 (S p) σ1 L2 s a r1) as [Hnv Hf]; [done..|].
    destruct r1 as [[v|] σ2|v σ2]; [done| |by injection Hr2 as <-].
    destruct Hf as (L3 & Hs & HL3). eapply fin_star; [exact Hs|]. by apply IH.
Qed.

Lemma while_no_value fuel mc mb : ∀ σ r, sem_while fuel mc mb σ = Some r → no_value r.
Proof using Type.
  induction fuel as [|fuel IH]; intros σ r Hr; [done|]. cbn [sem_while] in Hr. unfold sem_if in Hr.
  eapply value_no_value; [exact Hr|].
  intros [x| | | |] σ1 r1 Hr1; try discriminate. apply choose_inv in Hr1 as [_ Hr1]. destruct (x =? 0)%Z; [by injection Hr1 as <-|].
  unfold then_sem in Hr1. apply bind_Some in Hr1 as ([v σ2|v σ2] & _ & Hr1); [eauto|by injection Hr1 as <-].
Qed.

Lemma while_sound cond mc body mb fuel di : expr_sound cond mc → stats_sound body mb →
  stat_sound (while_gen cond body di) (sem_while fuel mc mb).
Proof using labels_unique.
  intros Hcond Hbody nl locals pre gs. unfold while_gen. do 6 wp_step. apply wp_bind.
  eapply wp_mono; [apply Hbody|]. intros [n1 b1] cb g1 [Hle1 Hb]. cbn [fst snd] in *. do 2 wp_step.
  part Hcond. repeat wp_step. enter_stat. plain.
  - by eapply while_no_value.
  - flat. insn. eapply fin_insn; [eassumption|eassumption|apply exec_set_local; [eapply fits_size; [eassumption|lia]|]|].
    { apply lookup_lt_is_Some. rewrite (fits_length _ _ _ HL). cbn [p_frame]. lia. }
    jump. destruct HL as (Hh & Hnm & Hk). cbn [p_slots p_names p_nl p_frame] in *.
    assert (nl < length L) as Hlt by (destruct Hk as [-> _]; lia).
    set (L1 := <[nl := Value.Label (Label.Anon (next gs))]> L).
    assert (length L1 = length L0) as HL1 by (unfold L1; rewrite length_insert; by destruct Hk).
    apply (fin_weaken nl (S nl) slots names L0 L1); [lia|by apply keeps_insert; [|left]|].
    apply (while_runs fuel mc mb nl locals (b1 ∪ locals) pre n1 n cb c (Label.Anon (next gs)) (Label.Anon (next (drawn gs))) di
             slots names L1 (S (S (S pc)))); try done; try lia.
    + by apply (runs_antitone mc (S nl) n1).
    + by apply list_lookup_insert_eq.
    + split; [|split; [done|apply keeps_refl]]. apply holds_insert_ne; [done|]. intros Hin.
      pose proof (sh_below _ _ _ _ Hsh _ Hin). lia.
Qed.

(** ** Patterns *)

(** The variables a pattern introduces, in the order of their slots. *)
Fixpoint bound (p : MatchPattern) : list nat :=
  match p with
  | mkMatchPattern (PBind id) _ _ => [id]
  | mkMatchPattern (PAssign _) _ _ => []
  | mkMatchPattern (PTuple pats) _ _ => flat_map bound pats
  end.

(** Code that stores values in variables of the frame and in the new slots
    [base], [base + 1], ..., one for each of [names']. *)
Definition stores (F : list (nat * Value.t) → st → option (list (nat * Value.t) * st)) (names' : list nat) (base : nat)
    (locals : gmap nat nat) (c : list insn) (s1 s2 : list Value.t) : Prop :=
  ∀ nl slots names pc σ L new new' σ' a, code_is pc c → shape locals nl names slots → nl <= base →
    base + length names' <= length L ∧ length L = fsz → holds (env σ) slots L → (env σ).*1 = names → F new σ = Some (new', σ') →
    ∃ L' bs, star (mkVm pc s1 (Frame L :: a) (globals σ)) (mkVm (pc + length c) s2 (Frame L' :: a) (globals σ')) ∧
      new' = bs ++ new ∧ bs.*1 = rev names' ∧ holds bs (rev (seq base (length names'))) L' ∧
      holds (env σ') slots L' ∧ (env σ').*1 = names ∧ length L' = length L ∧
      ∀ k, k ∉ slots → k < base ∨ base + length names' <= k → L' !! k = L !! k.

Lemma elem_of_rev_seq k b n : k ∈ rev (seq b n) ↔ b <= k < b + n.
Proof using Type. by rewrite list_elem_of_In, <- in_rev, in_seq. Qed.

(** One after the other. *)
Lemma stores_app F1 F2 n1 n2 base locals c1 c2 s1 s2 s3 :
  stores F1 n1 base locals c1 s1 s2 → stores F2 n2 (base + length n1) locals c2 s2 s3 →
  stores (λ new σ, '(new, σ) ← F1 new σ; F2 new σ) (n1 ++ n2) base locals (c1 ++ c2) s1 s3.
Proof using Type.
  intros H1 H2 nl slots names pc σ L new new' σ' a Hc Hsh Hle Hlen Hh Hn HF.
  apply body_is_app in Hc as [Hc1 Hc2]. rewrite length_app in Hlen. apply bind_Some in HF as ([new1 σ1] & HF1 & HF2).
  destruct (H1 nl slots names pc σ L new new1 σ1 a Hc1 Hsh Hle ltac:(lia) Hh Hn HF1)
    as (L1 & bs1 & Hs1 & -> & Hb1 & Hh1 & He1 & Hn1 & Hl1 & Ho1).
  destruct (H2 nl slots names _ σ1 L1 (bs1 ++ new) new' σ' a Hc2 Hsh ltac:(lia) ltac:(lia) He1 Hn1 HF2)
    as (L2 & bs2 & Hs2 & -> & Hb2 & Hh2 & He2 & Hn2 & Hl2 & Ho2).
  exists L2, (bs2 ++ bs1). rewrite !length_app, Nat.add_assoc. split; [by etransitivity|]. split; [by rewrite app_assoc|].
  split; [by rewrite fmap_app, rev_app_distr, Hb1, Hb2|].
  assert (∀ k, k < base + length n1 → k ∉ slots → L2 !! k = L1 !! k) as Hkeep by (intros k Hk Hs; apply Ho2; [done|lia]).
  split; [|split; [done|split; [done|split; [congruence|]]]].
  - rewrite seq_app, rev_app_distr. apply List.Forall2_app; [done|]. eapply holds_same; [exact Hh1|].
    intros k Hk. apply elem_of_rev_seq in Hk. apply Hkeep; [lia|]. intros Hin. pose proof (sh_below _ _ _ _ Hsh _ Hin). lia.
  - intros k Hs Hk. rewrite Ho2, Ho1; try done; lia.
Qed.

Lemma stores_ext F F' n base locals c s1 s2 : (∀ new σ, F new σ = F' new σ) →
  stores F n base locals c s1 s2 → stores F' n base locals c s1 s2.
Proof using Type.
  intros HF Hc nl slots names pc σ L new new' σ' a H1 H2 H3 H4 H5 H6 H7. apply (Hc nl slots names pc σ L new new' σ' a); try done.
  by rewrite HF.
Qed.

(** Code that only changes the stack. *)
Lemma stores_code base locals c s1 s2 : (∀ a g, exec_list c (s1, a, g) = Some (s2, a, g)) →
  stores (λ new σ, Some (new, σ)) [] base locals c s1 s2.
Proof using Type.
  intros He nl slots names pc σ L new new' σ' a Hc Hsh Hle Hlen Hh Hn [= <- <-]. exists L, [].
  split; [by eapply star_list; [exact Hc|]|]. repeat split; try done; constructor.
Qed.

Lemma assoc_app {A} x (l1 l2 : list (nat * A)) : assoc x (l1 ++ l2) = assoc x l1 ∪ assoc x l2.
Proof using Type. induction l1 as [|[y a] l1 IH]; cbn; [by destruct (assoc x l2)|]. destruct (Nat.eqb x y); [by destruct (assoc x l2)|done]. Qed.

Lemma assoc_slots x n1 n2 base :
  assoc x (zip (rev (n1 ++ n2)) (rev (seq base (length (n1 ++ n2))))) =
  assoc x (zip (rev n2) (rev (seq (base + length n1) (length n2)))) ∪ assoc x (zip (rev n1) (rev (seq base (length n1)))).
Proof using Type.
  rewrite length_app, seq_app, !rev_app_distr, zip_with_app, assoc_app; [done|]. by rewrite !length_rev, length_seq.
Qed.

Section patterns.
Context (string_table : StringTable.t) (global_var_map : gmap nat nat).

Definition pattern_sound (p : MatchPattern) : Prop :=
  ∀ base locals di g, wp (codegen_tuple_pattern string_table global_var_map p base locals di) g (λ r c _,
    r.1.1 = length (bound p) ∧
    (∀ x, r.1.2 !! x = assoc x (zip (rev (bound p)) (rev (seq base (length (bound p)))))) ∧
    ∀ v s, stores (bind_pattern global_var_map p v) (bound p) base locals c (v :: s) s).

Lemma bind_sound id pdi t : pattern_sound (mkMatchPattern (PBind id) pdi t).
Proof using Type.
  intros base locals di g. cbn [codegen_tuple_pattern]. repeat wp_step. cbn [fst snd bound length]. split; [done|]. split.
  { intros x. cbn. destruct (Nat.eqb_spec x id) as [->|Hne]; [by rewrite lookup_singleton_eq|].
    by rewrite lookup_singleton_ne. }
  intros v s nl slots names pc σ L new new' σ' a Hc Hsh Hle Hlen Hh Hn [= <- <-]. cbn [length] in Hlen.
  assert (is_Some (L !! base)) as HL by (apply lookup_lt_is_Some; lia).
  exists (<[base := v]> L), [(id, v)]. split; [by eapply star_list; [exact Hc|apply exec_set_local; [lia|]]|].
  split; [done|]. split; [done|].
  split; [constructor; [|constructor]; apply list_lookup_insert_eq; by apply lookup_lt_is_Some|].
  split; [apply holds_insert_ne; [done|]; intros Hin; pose proof (sh_below _ _ _ _ Hsh _ Hin); lia|].
  split; [done|]. split; [by rewrite length_insert|]. intros k Hk Hb. apply list_lookup_insert_ne. cbn [length] in Hb. lia.
Qed.

Lemma assign_sound id pdi t : pattern_sound (mkMatchPattern (PAssign id) pdi t).
Proof using Type.
  intros base locals di g. cbn [codegen_tuple_pattern].
  assert (∀ c, (∀ v s nl slots names pc σ L new new' σ' a, code_is pc c → shape locals nl names slots → length L = fsz →
      holds (env σ) slots L → (env σ).*1 = names →
      bind_pattern global_var_map (mkMatchPattern (PAssign id) pdi t) v new σ = Some (new', σ') →
      ∃ L', exec_list c (v :: s, Frame L :: a, globals σ) = Some (s, Frame L' :: a, globals σ') ∧ new' = new ∧
        holds (env σ') slots L' ∧ (env σ').*1 = names ∧ length L' = length L ∧ ∀ k, k ∉ slots → L' !! k = L !! k) →
    ∀ v s, stores (bind_pattern global_var_map (mkMatchPattern (PAssign id) pdi t) v) [] base locals c (v :: s) s) as Hstores.
  { intros c Hx v s nl slots names pc σ L new new' σ' a Hc Hsh Hle Hlen Hh Hn HF.
    destruct (Hx v s nl slots names pc σ L new new' σ' a Hc Hsh (proj2 Hlen) Hh Hn HF) as (L' & He & -> & Hh' & Hn' & Hl' & Ho').
    exists L', []. split; [by eapply star_list; [exact Hc|]|]. split; [done|]. split; [done|]. split; [constructor|]. auto 6. }
  destruct (locals !! id) as [k|] eqn:Ek.
  - repeat wp_step. split; [done|]. split; [done|]. apply Hstores. rewrite app_nil_r.
    intros v s nl slots names pc σ L new new' σ' a Hc Hsh Hlen Hh Hn HF. cbn [bind_pattern] in HF.
    rewrite (sh_map _ _ _ _ Hsh), <- Hn in Ek. destruct (update id v (env σ)) as [e|] eqn:Eu.
    + injection HF as <- <-. destruct (holds_update _ _ _ _ _ _ Hh (sh_nodup _ _ _ _ Hsh) Eu) as (k' & Ha & Hs & HL & Hh' & Hn').
      assert (k' = k) as -> by congruence. exists (<[k := v]> L). split; [by apply exec_set_local|].
      split; [done|]. split; [done|]. split; [cbn; congruence|]. split; [by rewrite length_insert|].
      intros j Hj. apply list_lookup_insert_ne. by intros ->.
    + rewrite (update_none _ _ _ _ (eq_sym (Forall2_length Hh)) Eu) in Ek. discriminate.
  - destruct (global_var_map !! id) as [idx|] eqn:Ei; [|wp_step; apply wp_throw]. repeat wp_step. split; [done|]. split; [done|].
    apply Hstores. rewrite app_nil_r. intros v s nl slots names pc σ L new new' σ' a Hc Hsh Hlen Hh Hn HF. cbn [bind_pattern] in HF.
    rewrite (sh_map _ _ _ _ Hsh), <- Hn in Ek. destruct (update id v (env σ)) as [e|] eqn:Eu.
    + destruct (holds_update _ _ _ _ _ _ Hh (sh_nodup _ _ _ _ Hsh) Eu) as (k' & Ha & _). congruence.
    + rewrite Ei in HF. cbn [mbind option_bind] in HF. apply bind_Some in HF as (old & Ho & [= <- <-]).
      exists L. split; [by apply exec_set_global|]. done.
Qed.

Lemma bind_loop_cons f size v i p pats new σ : bind_loop f size v i (p :: pats) new σ =
  (x ← tuple_get size i v; '(new, σ) ← f p x new σ; bind_loop f size v (S i) pats new σ).
Proof using Type. done. Qed.

Lemma pattern_loop_sound size di locals base pats : Forall pattern_sound pats → ∀ i nb bindings asg g,
  i + length pats = size →
  wp (pattern_loop (λ pat base, codegen_tuple_pattern string_table global_var_map pat base locals di)
        string_table size base di i pats nb bindings asg) g
    (λ r c _, r.1.1 = nb + length (flat_map bound pats) ∧
      (∀ x, r.1.2 !! x = assoc x (zip (rev (flat_map bound pats))
                                   (rev (seq (base + nb) (length (flat_map bound pats))))) ∪ bindings !! x) ∧
      ∀ v s, stores (bind_loop (bind_pattern global_var_map) size v i pats) (flat_map bound pats) (base + nb) locals c
               (if is_empty pats then s else v :: s) s).
Proof using Type.
  induction 1 as [|p pats Hp Hps IH]; intros i nb bindings asg g Hi.
  - cbn [pattern_loop]. wp_step. cbn [fst snd flat_map length is_empty]. split; [lia|].
    split; [intros x; cbn; by destruct (bindings !! x)|]. intros v s. by apply stores_code.
  - rewrite pattern_loop_cons. repeat wp_step. eapply wp_mono; [apply Hp|].
    intros [[n b] asg'] c1 g1 (Hn & Hb & Hst). cbn [fst snd] in *. repeat wp_step.
    eapply wp_mono; [apply insert_assignments_good|]. intros asg2 c2 g2 [-> ->].
    eapply wp_mono; [apply IH; cbn [length] in Hi; lia|]. intros [[n' b'] asg''] c3 g3 (Hn' & Hb' & Hst').
    cbn [fst snd flat_map is_empty] in *. rewrite !length_app. split; [lia|]. split.
    { intros x. rewrite Hb', lookup_union, Hb, <- length_app, assoc_slots, Hn, Nat.add_assoc.
      repeat destruct (assoc _ _); by destruct (bindings !! x). }
    intros v s. rewrite app_nil_l. destruct (tuple_get size i v) as [x|] eqn:Ex.
    2: { intros nl slots names pc σ L new new' σ' a _ _ _ _ _ _ HF. rewrite bind_loop_cons, Ex in HF. discriminate. }
    eapply (stores_ext (λ new σ, '(new, σ) ← Some (new, σ); '(new, σ) ← bind_pattern global_var_map p x new σ;
              bind_loop (bind_pattern global_var_map) size v (S i) pats new σ)).
    { intros new σ. by rewrite bind_loop_cons, Ex. }
    apply (stores_app _ _ [] _ _ _ _ _ _ (x :: if is_empty pats then s else v :: s)).
    + apply stores_code. intros a g'. rewrite exec_list_app.
      assert (exec_list (if Nat.ltb i (size - 1) then [op_ AVMOpcode.Dup0 di] else []) (v :: s, a, g') =
              Some (v :: (if is_empty pats then s else v :: s), a, g')) as ->.
      { cbn [length] in Hi. destruct pats; cbn [is_empty length] in *;
          [destruct (Nat.ltb_spec i (size - 1)); [lia|done]|destruct (Nat.ltb_spec i (size - 1)); [done|lia]]. }
      cbn [mbind option_bind]. apply exec_tuple_get. unfold Uint256.from_usize. by rewrite Nat2Z.id.
    + cbn [length]. rewrite Nat.add_0_r. eapply (stores_app _ _ (bound p)); [apply Hst|].
      rewrite <- Nat.add_assoc, <- Hn. apply Hst'.
Qed.

Lemma pattern_all_sound p : pattern_sound p.
Proof using Type.
  induction p as [id di t|id di t|pats pdi t Hp] using pattern_ind; [apply bind_sound|apply assign_sound|].
  intros base locals di g. cbn [codegen_tuple_pattern]. eapply wp_mono; [apply pattern_loop_sound; [exact Hp|done]|].
  intros [[n b] asg] c g' (Hn & Hb & Hst). cbn [fst snd bound] in *. rewrite Nat.add_0_r in *.
  split; [done|]. split; [intros x; rewrite Hb, lookup_empty; by destruct (assoc _ _)|].
  intros v s. specialize (Hst v s).
  destruct pats as [|p pats]; [by intros nl slots names pc σ L new new' σ' a _ _ _ _ _ _|]. exact Hst.
Qed.

Lemma shape_bindings locals nl names slots new b n : shape locals nl names slots → nl + length new <= n →
  (∀ x, b !! x = assoc x (zip (rev new) (rev (seq nl (length new))))) →
  shape (b ∪ locals) n (rev new ++ names) (rev (seq nl (length new)) ++ slots).
Proof using Type.
  intros [H1 H2 H3 H4] Hn Hb. split.
  - by rewrite !length_app, !length_rev, length_seq, H1.
  - apply list.NoDup_app. split; [apply NoDup_ListNoDup, List.NoDup_rev, seq_NoDup|]. split; [|done].
    intros k Hk Hs. apply elem_of_rev_seq in Hk. specialize (H3 k Hs). lia.
  - intros k [Hk|Hk]%elem_of_app; [apply elem_of_rev_seq in Hk; lia|]. specialize (H3 k Hk). lia.
  - intros x. rewrite lookup_union, Hb, H4, zip_with_app, assoc_app; [done|]. by rewrite !length_rev, length_seq.
Qed.

Lemma stat_value m k nl locals pre n c slots names L0 locals' n' σ L r pc pc' s a :
  expr_runs m nl locals pre n c → code_is pc c → n <= length L0 ∧ length L0 = fsz → shape locals nl names slots →
  fits_frame (mkPlace nl slots names L0 pre) σ L → value_of false m k σ = Some r →
  (∀ v σ1 L1, fits_frame (mkPlace nl slots names L0 pre) σ1 L1 → k v σ1 = Some r →
     stat_finishes (mkPlace nl slots names L0 pre) locals' n'
       (mkVm (pc + length c) (v :: s) (Frame L1 :: a) (globals σ1)) pc' s a r) →
  stat_finishes (mkPlace nl slots names L0 pre) locals' n' (mkVm pc s (Frame L :: a) (globals σ)) pc' s a r.
Proof using Type.
  intros Hm Hc Hn Hsh HL Hr Hk. unfold value_of in Hr. apply bind_Some in Hr as (r1 & H1 & Hr).
  specialize (Hm slots names L0 pc σ L s a r1 Hc Hn Hsh HL H1). destruct r1 as [[v|] σ1|[v|] σ1]; try discriminate.
  - destruct Hm as (L1 & Hs & HL1). eapply stat_star; [exact Hs|]. by apply Hk.
  - by injection Hr as <-.
  - by injection Hr as <-.
Qed.

Lemma let_sound p e m di : expr_sound e m →
  stat_sound (let_gen string_table global_var_map p e di) (sem_let global_var_map p m).
Proof using Type.
  intros He nl locals pre gs. unfold let_gen. part He. apply wp_bind. eapply wp_mono; [apply pattern_all_sound|].
  intros [[k b] asg] cp gp (Hk & Hb & Hst). cbn [fst snd] in *. repeat wp_step. enter_stat.
  eapply stat_value; [exact Hrun|done|lia|done|done|exact Hr|]. intros v σ1 L1 (Hh1 & Hn1 & Hk1) Hr1.
  apply bind_Some in Hr1 as ([new σ2] & HF & [= <-]). cbn [p_slots p_names p_nl p_frame] in *.
  destruct (Hst v s nl slots names (pc + length c) σ1 L1 [] new σ2 a) as (L2 & bs & Hs & -> & Hb2 & Hh2 & He2 & Hn2 & Hl2 & Ho2);
    try done; [destruct Hk1 as [-> _]; lia|].
  rewrite app_nil_r. split; [done|]. exists L2, (rev (bound p)), (rev (seq nl (length (bound p)))).
  cbn [env globals p_slots p_names p_nl p_frame]. split; [done|]. split; [by apply List.Forall2_app|].
  split; [by rewrite fmap_app, Hb2, Hn2|]. split; [apply (shape_bindings _ nl); [done|lia|done]|].
  split; [intros j Hj; apply elem_of_rev_seq in Hj; lia|].
  eapply keeps_trans; [exact Hk1|]. split; [done|]. intros j Hj Hs'. apply Ho2; [done|]. lia.
Qed.
End patterns.
End machine.
