(* ===== verification/CodegenCorrect.v ===== *)
(** * The code generator is correct: programs

    All generators together: the code of every expression, statement and block
    does what the reference semantics says ([all_sound]); the code of a module
    does for every function what a call of it does in the semantics
    ([codegen_correct]). *)

From Stdlib Require Import ZArith Lia.
From stdpp Require Import relations.
From S2P Require Import Prelude U256 StringTab Pos Opcodes Crypto BufferTree Values Insns StraightLine TupleTree StripLabels Types TypedAst Link Codegen CodegenThms CodegenModules TypecheckOps FixedArray VirtualMachine Semantics CodegenRuns CodegenSound CodegenStatements.

#[local] Set Warnings "-clear-no-such-hyp".

Create HintDb sound.

Section machine.
Context {code : list insn} {fsz : nat}.
Hypothesis labels_unique : NoDup (defined_labels code).

Abbreviation star := (star code).
Abbreviation code_is := (body_is code fsz).
Abbreviation exec_list := (exec_list fsz).
Abbreviation find_label := (find_label code).
Abbreviation expr_sound := (@expr_sound code fsz).
Abbreviation stat_sound := (@stat_sound code fsz).
Abbreviation stats_sound := (@stats_sound code fsz).

(** ** Trees without a meaning *)
Definition bounded (e : expr_gen) : Prop := ∀ nl locals pre gs, wp (e nl locals pre) gs (λ n _ _, nl <= n).

Lemma wp_any {A} (m : Gen A) g : wp m g (λ _ _ _, True).
Proof using Type. by intros a c g' _. Qed.

Lemma none_expr e : bounded e → expr_sound e (λ _, None).
Proof using Type.
  intros He nl locals pre gs. eapply wp_mono; [apply He|]. intros n c g Hn. split; [done|].
  by intros ? ? ? ? ? ? ? ? ? _ _ _ _.
Qed.

Lemma none_stat g : stat_sound g (λ _, None).
Proof using Type. intros nl locals pre gs r c g' _. by intros ? ? ? ? ? ? ? ? ? _ _ _ _. Qed.

Ltac bound_tac :=
  repeat first [wp_step | apply wp_bind | eapply wp_mono; [apply wp_any|]; intros ? ? ? _]; cbn; lia.

Lemma simple_bounded c : bounded (simple_gen c).
Proof using Type. intros nl locals pre gs. unfold simple_gen. bound_tac. Qed.
Lemma set_gas_bounded e di : bounded (set_gas_gen e di).
Proof using Type. intros nl locals pre gs. unfold set_gas_gen, then_code. bound_tac. Qed.
Lemma trinary_bounded op e1 e2 e3 di : bounded (trinary_gen op e1 e2 e3 di).
Proof using Type. intros nl locals pre gs. unfold trinary_gen. bound_tac. Qed.
Lemma asm_bounded insns args : bounded (asm_gen insns args).
Proof using Type. intros nl locals pre gs. unfold asm_gen. bound_tac. Qed.
Lemma loop_bounded body di : bounded (loop_gen body di).
Proof using Type.
  intros nl locals pre gs. unfold loop_gen. do 8 wp_step. apply wp_bind. eapply wp_mono; [apply wp_any|].
  intros [n b] c g _. bound_tac.
Qed.

(** ** All trees *)
Section trees.
Context (callf : Label.t → list Value.t → list Value.t → option (option Value.t * list Value.t)).
Hypothesis callf_ok : @call_ok code callf.
Context `{Crypto}.
Context (string_table : StringTable.t) (import_func_map : gmap nat Label.t) (global_var_map : gmap nat nat)
        (release_build : bool) (fuel : nat).

Abbreviation cg_expr := (mavm_codegen_expr string_table import_func_map global_var_map release_build).
Abbreviation cg_stat := (mavm_codegen_statement string_table import_func_map global_var_map release_build).
Abbreviation cg_block := (mavm_codegen_code_block string_table import_func_map global_var_map release_build).
Abbreviation ev_expr := (eval_expr callf string_table import_func_map global_var_map release_build fuel).
Abbreviation ev_stat := (eval_statement callf string_table import_func_map global_var_map release_build fuel).
Abbreviation ev_block := (eval_block callf string_table import_func_map global_var_map release_build fuel).

Definition sound_expr (e : TypeCheckedExpr) : Prop := expr_sound (cg_expr e) (ev_expr e).
Definition sound_stat (st : TypeCheckedStatement) : Prop := stat_sound (cg_stat st) (ev_stat st).
Definition sound_block (b : TypeCheckedCodeBlock) : Prop := ∀ di, expr_sound (cg_block b di) (ev_block b).

Lemma assert_sound e m di : expr_sound e m →
  stat_sound (assert_gen string_table import_func_map release_build e di)
    (sem_assert callf string_table import_func_map release_build m).
Proof using labels_unique callf_ok.
  intros He nl locals pre gs. unfold assert_gen, sem_assert. destruct release_build; [apply noop_sound|].
  apply wp_bind. eapply wp_mono; [apply (builtin_sound (fsz := fsz) labels_unique callf callf_ok); by apply List.Forall2_cons; [apply He|constructor]|].
  intros n c g [Hle Hrun]. repeat wp_step.
  intros slots names L0 pc σ L s a r Hc Hn Hsh HL Hr. cbn [fst snd] in *. rewrite app_nil_r in *.
  apply bind_Some in Hr as (r1 & Hr1 & Hr).
  assert (no_value r ∧ r1 = r) as [Hnv ->] by (by destruct r1 as [[]|]; simplify_eq/=).
  apply stat_plain; [done|done|lia|]. apply Hrun; [done|lia|done..].
Qed.

Lemma args_sound (l : list TypeCheckedExpr) : Forall sound_expr l →
  Forall2 expr_sound (map cg_expr l) (map ev_expr l).
Proof using Type. induction 1; cbn; by constructor. Qed.

Lemma field_args_sound (l : list (FieldInitializer TypeCheckedExpr)) : Forall sound_expr (fi_value <$> l) →
  Forall2 expr_sound (map (λ f, cg_expr (fi_value f)) l) (map (λ f, ev_expr (fi_value f)) l).
Proof using Type. rewrite Forall_fmap. induction 1; cbn; by constructor. Qed.

Lemma body_sound ss : Forall sound_stat ss →
  stats_sound (λ nl locals pre, statements_loop cg_stat locals pre ss nl ∅) (sequence (map ev_stat ss)).
Proof using Type.
  intros Hss nl locals pre gs. eapply wp_mono.
  - apply (@stats_loop_sound code fsz cg_stat locals ss (map ev_stat ss)). induction Hss; cbn; by constructor.
  - intros r c g. by rewrite (left_id_L ∅ (∪)).
Qed.

Lemma else_sound o di : Forall sound_block (olist o) →
  match (match o with Some b => Some (cg_block b di) | None => None end) with
  | Some e => expr_sound e (match o with Some b => ev_block b | None => skip end)
  | None => (match o with Some b => ev_block b | None => skip end) = skip
  end.
Proof using Type. destruct o; [|done]. intros Ho%List.Forall_inv. apply Ho. Qed.

Lemma option_sound o : Forall sound_expr (olist o) →
  match (match o with Some e => Some (cg_expr e) | None => None end),
        (match o with Some e => Some (ev_expr e) | None => None end) with
  | Some e, Some m => expr_sound e m
  | None, None => True
  | _, _ => False
  end.
Proof using Type. destruct o; [|done]. by intros Ho%List.Forall_inv. Qed.

#[local] Hint Resolve simple_bounded set_gas_bounded trinary_bounded asm_bounded loop_bounded none_expr none_stat : sound.
#[local] Hint Resolve unary_sound variant_sound binary_sound shortcut_or_sound shortcut_and_sound local_ref_sound
  global_ref_sound func_ref_sound tuple_ref_sound field_sound const_sound call_sound struct_sound tuple_sound
  fixed_array_ref_sound fixed_array_mod_sound struct_mod_sound try_sound
  builtin_sound new_array_sound args_sound field_args_sound body_sound
  noop_sound return_sound return_void_sound expression_sound let_sound assign_local_sound assign_global_sound while_sound
  assert_sound List.Forall2_cons List.Forall2_nil : sound.

Ltac forall_inv :=
  repeat match goal with
  | Hf : Forall _ (_ :: _) |- _ =>
      let h := fresh "Hg" in let t := fresh "Ht" in
      pose proof (List.Forall_inv Hf) as h; pose proof (List.Forall_inv_tail Hf) as t; clear Hf; cbn beta in h
  | Hf : Forall _ [] |- _ => clear Hf
  end.

Lemma sound_expr_kind k di : Forall sound_expr (sub_exprs k) → Forall sound_stat (sub_stats k) →
  Forall sound_block (sub_blocks k) → sound_expr (mkExpr k di).
Proof using labels_unique callf_ok.
  intros He Hs Hb. unfold sound_expr.
  destruct k; cbn [sub_exprs sub_stats sub_blocks] in *; forall_inv; cbn [mavm_codegen_expr eval_expr];
    unfold dot_ref_gen, array_ref_gen, map_ref_gen, new_map_gen, array_mod_gen, map_mod_gen;
    try (solve [eauto 7 with sound]).
  - by apply new_fixed_array_sound, option_sound.
  - apply (if_sound labels_unique); [exact Hg0|apply Hg|by apply else_sound].
  - apply (if_let_sound labels_unique); [exact Hg0|apply Hg|by apply else_sound].
Qed.

Lemma sound_stat_kind k di : Forall sound_expr (stat_exprs k) → Forall sound_stat (stat_stats k) →
  sound_stat (mkStatement k di).
Proof using labels_unique callf_ok.
  intros He Hs. unfold sound_stat.
  destruct k; cbn [stat_exprs stat_stats] in *; forall_inv; cbn [mavm_codegen_statement eval_statement];
    solve [eauto 6 with sound].
Qed.

Lemma all_sound : (∀ e, sound_expr e) ∧ (∀ st, sound_stat st) ∧ (∀ b, sound_block b).
Proof using labels_unique callf_ok.
  apply tc_ind; [apply sound_expr_kind|apply sound_stat_kind|].
  intros body ret scope Hs He di. apply code_block_sound; [by apply body_sound|by apply option_sound].
Qed.

(** ** Functions *)
Lemma arg_slots_assoc args : ∀ i m x, arg_slots i args m !! x =
  assoc x (zip (rev (fa_name <$> args)) (rev (seq i (length (fa_name <$> args))))) ∪ m !! x.
Proof using Type.
  induction args as [|arg args IH]; intros i m x; [cbn; by destruct (m !! x)|].
  cbn [arg_slots]. rewrite IH, fmap_cons. change (fa_name arg :: (fa_name <$> args)) with ([fa_name arg] ++ (fa_name <$> args)).
  rewrite assoc_slots. cbn [length]. rewrite Nat.add_1_r.
  change (assoc x (zip (rev [fa_name arg]) _)) with (if Nat.eqb x (fa_name arg) then Some i else None).
  destruct (assoc x _) as [k|], (Nat.eqb_spec x (fa_name arg)) as [->|Hne];
    rewrite ?lookup_insert_eq, ?lookup_insert_ne by congruence; try done; by destruct (m !! _).
Qed.

Lemma args_shape args : shape (arg_slots 0 args ∅) (length args) (rev (fa_name <$> args)) (rev (seq 0 (length args))).
Proof using Type.
  split.
  - by rewrite !length_rev, length_fmap, length_seq.
  - apply NoDup_ListNoDup, List.NoDup_rev, seq_NoDup.
  - intros k Hk%elem_of_rev_seq. lia.
  - intros x. rewrite arg_slots_assoc, lookup_empty, length_fmap. by destruct (assoc _ _).
Qed.

Lemma args_hold names vals n : length names = length vals →
  holds (rev (zip names vals)) (rev (seq 0 (length vals))) (vals ++ replicate n Value.none).
Proof using Type.
  intros Hl. apply Forall2_rev, Forall2_same_length_lookup_2; [rewrite length_zip_with, length_seq; lia|].
  intros i [x v] k (x' & v' & [= -> ->] & _ & Hv)%lookup_zip_with_Some [-> _]%lookup_seq. by apply lookup_app_l_Some.
Qed.

Lemma args_fit args vals n g : length vals = length args →
  let L := vals ++ replicate n Value.none in
  fits_frame (mkPlace (length args) (rev (seq 0 (length args))) (rev (fa_name <$> args)) L 0)
             (mkSt (rev (zip (fa_name <$> args) vals)) g) L.
Proof using Type.
  intros Hl L. split; [|split]; [|cbn|apply keeps_refl].
  - cbn [p_slots env]. rewrite <- Hl. apply args_hold. by rewrite length_fmap.
  - change (map fst (rev (zip (fa_name <$> args) vals)) = rev (fa_name <$> args)). rewrite map_rev. f_equal. apply fst_zip. rewrite length_fmap. lia.
Qed.

End trees.
End machine.

Section functions.
Context {code : list insn}.
Hypothesis labels_unique : NoDup (defined_labels code).
Context (callf : Label.t → list Value.t → list Value.t → option (option Value.t * list Value.t)).
Hypothesis callf_ok : @call_ok code callf.
Context `{Crypto}.
Context (string_table : StringTable.t) (import_func_map : gmap nat Label.t) (global_var_map : gmap nat nat)
        (release_build : bool) (fuel : nat).

Abbreviation star := (star code).
Abbreviation find_label := (find_label code).
Abbreviation ev_stat := (eval_statement callf string_table import_func_map global_var_map release_build fuel).

(** The code of a function that returns. *)
Lemma func_code f lg w lg' fc w' :
  mavm_codegen_func string_table import_func_map global_var_map release_build f lg w = Ok (lg', fc, w') →
  returns f = true →
  ∃ di n locals body, fc = label_ (Label.Func (f_name f)) di :: vop (Opcode.MakeFrame (length (f_args f)) n true) di :: body ∧
    length (f_args f) <= n ∧
    stat_runs (code := code) (fsz := n) (sequence (map ev_stat (with_final_return f))) (length (f_args f))
      (arg_slots 0 (f_args f) ∅) locals 0 n body.
Proof using labels_unique callf_ok.
  unfold mavm_codegen_func, returns.
  destruct (statements_loop _ _ _ _ _ _ _) as [[[[n b] body] gs]| |] eqn:E; cbn [mbind outcome_bind]; try discriminate.
  destruct (f_tipe f); try discriminate. intros [= <- <- <-] ->.
  destruct (body_sound (fsz := n) callf string_table import_func_map global_var_map release_build fuel _
    (Forall_true _ _ (proj1 (proj2 (all_sound labels_unique callf callf_ok string_table import_func_map global_var_map
       release_build fuel)))) _ _ _ _ _ _ _ E) as [Hn Hrun].
  exists (f_debug_info f), n, (b ∪ arg_slots 0 (f_args f) ∅), body. done.
Qed.

(** A function: from its label, with the return address and the arguments on
    the stack, to the return address. *)
Lemma func_run f lg w lg' fc w' p vals g v σ :
  mavm_codegen_func string_table import_func_map global_var_map release_build f lg w = Ok (lg', fc, w') →
  plain_func f → code_is code p fc → returns f = true → length vals = length (f_args f) →
  sequence (map ev_stat (with_final_return f)) (mkSt (rev (zip (fa_name <$> f_args f) vals)) g) = Some (RRet v σ) →
  find_label (Label.Func (f_name f)) = Some p ∧ ∀ ret pr s a, find_label ret = Some pr →
    star (mkVm p (Value.Label ret :: vals ++ s) a g) (mkVm pr (option_list v ++ s) a (globals σ)).
Proof using labels_unique callf_ok.
  intros E Hp Hc Hret Hl Hr. destruct (func_code _ _ _ _ _ _ E Hret) as (di & n & locals & body & -> & Hn & Hrun).
  assert (Forall (λ i, made_frame i = None) body) as Hf.
  { destruct (func_shape _ _ _ _ _ _ _ _ _ _ Hp E) as (di' & n' & ra & body' & g' & Eq & _ & _ & F).
    injection Eq as _ _ _ _ <-. eapply Forall_impl; [|exact (frag_insns _ _ _ _ _ F)]. intros i Hi.
    pose proof (ok_frame _ _ _ _ _ Hi) as Ho. unfold made_frame. destruct (Instruction.opcode i); try done. by destruct (Ho nargs ntotal return_address). }
  apply code_is_cons in Hc as [Hlab Hc]. apply code_is_cons in Hc as [Hmk Hc].
  pose proof (body_after_frame code _ _ n _ Hmk eq_refl Hc Hf) as Hbody.
  split; [by eapply label_at|]. intros ret pr s a Hpr.
  set (L := vals ++ replicate (n - length (f_args f)) Value.none).
  assert (n <= length L ∧ length L = n) as HL by (unfold L; rewrite length_app, length_replicate; lia).
  destruct (Hrun _ _ L _ _ L s (Plain (Value.Label ret) :: a) _ Hbody HL (args_shape (f_args f))
              (args_fit (f_args f) vals _ g Hl) Hr [] s eq_refl eq_refl) as (pret & di' & L' & Hi & Hstar).
  eapply rtc_l; [|eapply rtc_l; [|etransitivity; [apply Hstar|apply star_one]]].
  - unfold vm_rel. erewrite vm_step_insn by exact Hlab. reflexivity.
  - unfold vm_rel. erewrite vm_step_insn by exact Hmk. cbn. rewrite length_app, Hl. 
    rewrite !(proj2 (Nat.leb_le _ _)) by lia. cbn. unfold L. by rewrite <- Hl, take_app_length, drop_app_length.
  - erewrite vm_step_insn by exact Hi. cbn. rewrite Hpr. by destruct v.
Qed.
End functions.

(** ** Modules *)
Section module.
Context `{Crypto}.

(** Every function has its code. *)
Lemma codegen_funcs_code st imps gvs rb funcs : ∀ lg w fc0 fc w',
  codegen_funcs st imps gvs rb funcs lg w fc0 = Ok (fc, w') →
  NoDup (fc0.*1 ++ ((λ kf, f_name kf.2) <$> funcs)) →
  (∀ x, x ∈ fc0 → x ∈ fc) ∧
  ∀ f, f ∈ funcs.*2 → ∃ lg1 w1 lg2 c w2, mavm_codegen_func st imps gvs rb f lg1 w1 = Ok (lg2, c, w2) ∧ (f_name f, c) ∈ fc.
Proof.
  induction funcs as [|[k f] funcs IH]; intros lg w fc0 fc w' E Hnd.
  { injection E as <- <-. split; [done|]. by intros f Hf%elem_of_nil. }
  cbn [codegen_funcs] in E. destruct (mavm_codegen_func _ _ _ _ f lg w) as [[[lg1 c] w1]| |] eqn:Ef; try discriminate.
  cbn [mbind outcome_bind] in E. rewrite fmap_cons in Hnd. cbn [snd] in Hnd.
  assert (f_name f ∉ fc0.*1) as Hfresh.
  { intros Hin. apply list.NoDup_app in Hnd as (_ & Hd & _). apply (Hd _ Hin). by left. }
  pose proof (btree_insert_perm (f_name f) c fc0 Hfresh) as Hp.
  apply IH in E as [Hkeep Hfuncs].
  2: { rewrite Hp. cbn [fmap list_fmap fst app]. by rewrite Permutation_middle. }
  split.
  - intros x Hx. apply Hkeep. rewrite Hp. by right.
  - intros f' [->|Hf']%elem_of_cons; [|by apply Hfuncs]. do 5 eexists. split; [exact Ef|].
    apply Hkeep. rewrite Hp. by left.
Qed.

Lemma code_is_concat code k cs c : code_is code k (concat cs) → c ∈ cs → ∃ p, code_is code p c.
Proof.
  revert k. induction cs as [|c' cs IH]; intros k Hc Hin; [by apply elem_of_nil in Hin|].
  cbn [concat] in Hc. apply code_is_app in Hc as [H1 H2]. apply elem_of_cons in Hin as [->|Hin]; [by exists k|by eapply IH].
Qed.

Lemma find_func_elem funcs l f : find_func funcs l = Some f → f ∈ funcs ∧ l = Label.Func (f_name f).
Proof.
  unfold find_func. destruct l; try discriminate. intros ([j f'] & Hf & [= ->])%bind_Some.
  apply list_find_Some in Hf as (Hj & <- & _). split; [by eapply list_elem_of_lookup_2|done].
Qed.

Section correct.
Context (funcs : list (nat * TypeCheckedFunc)) (st : StringTable.t) (imps : list ImportedFunc) (gvs : list GlobalVarDecl)
        (rb : bool) (w w' : list CompileError) (gencode code : list insn) (k : nat).
Hypothesis generated : mavm_codegen funcs st imps gvs w rb = Ok (gencode, w').
Hypothesis names_unique : NoDup ((λ kf, f_name kf.2) <$> funcs).
Hypothesis funcs_plain : Forall (λ kf, plain_func kf.2) funcs.
Hypothesis placed : code_is code k gencode.
Hypothesis labels_unique : NoDup (defined_labels code).

Lemma calls_ok n : call_ok (code := code) (call st (import_map imps ∅) (global_map 0 gvs ∅) rb funcs.*2 n).
Proof using generated names_unique funcs_plain placed labels_unique.
  induction n as [|n IH]; intros l vals g v g' Hcall; [discriminate|]. cbn [call] in Hcall.
  apply bind_Some in Hcall as (f & [Hf ->]%find_func_elem & Hcall).
  destruct (returns f && _) eqn:Eb; [|discriminate]. apply andb_prop in Eb as [Hret Hl%Nat.eqb_eq].
  apply bind_Some in Hcall as ([|v1 σ] & Hr & [= <- <-]).
  unfold mavm_codegen in generated. destruct (codegen_funcs _ _ _ _ _ _ _ _) as [[fc w1]| |] eqn:E; try discriminate.
  cbn [mbind outcome_bind] in generated. injection generated as <- <-.
  destruct (codegen_funcs_code _ _ _ _ _ _ _ _ _ _ E names_unique) as [_ Hcode].
  destruct (Hcode f Hf) as (lg1 & w2 & lg2 & c & w3 & Ec & Hin).
  destruct (code_is_concat code k fc.*2 c placed) as [p Hp]; [by apply (list_elem_of_fmap_2 snd _ (f_name f, c))|].
  apply list_elem_of_fmap in Hf as ([id f'] & -> & Hf). cbn [snd] in *.
  pose proof (proj1 (list.Forall_forall _ _) funcs_plain _ Hf) as Hplain.
  exists p. by apply (func_run labels_unique _ IH st (import_map imps ∅) (global_map 0 gvs ∅) rb n f' lg1 w2 lg2 c w3).
Qed.
End correct.

(** C3: the code generator is correct.  Whenever a call of a function of a
    module has a meaning in the reference semantics, the code of the module,
    placed anywhere in a program whose labels are defined once, does it: started
    at the function's label with a return address and the arguments on the
    stack, it arrives at the return address with the result in their place,
    the globals as the semantics leaves them, and the stack below and the
    auxiliary stack as they were. *)
Theorem codegen_correct funcs st imps gvs rb w w' gencode code k n l vals g v g' ret pr s a :
  mavm_codegen funcs st imps gvs w rb = Ok (gencode, w') → Forall (λ kf, plain_func kf.2) funcs → NoDup ((λ kf, f_name kf.2) <$> funcs) →
  code_is code k gencode → NoDup (defined_labels code) →
  call st (import_map imps ∅) (global_map 0 gvs ∅) rb funcs.*2 n l vals g = Some (v, g') →
  find_label code ret = Some pr →
  ∃ p, find_label code l = Some p ∧
    star code (mkVm p (Value.Label ret :: vals ++ s) a g) (mkVm pr (option_list v ++ s) a g').
Proof.
  intros E Hp Hnd Hc Hu Hcall Hret.
  destruct (calls_ok _ _ _ _ _ _ _ _ _ _ E Hnd Hp Hc Hu n _ _ _ _ _ Hcall) as (p & Hlab & Hrun). exists p. auto.
Qed.
End module.

(** ** An example: recursion *)

(** [func fact(n) { calls = calls + 1; if n > 0 { return n * fact(n - 1); } return 1; }] *)
Definition fact_f : TypeCheckedFunc :=
  mkFunc 1 [mkFuncArg 10 Tipe.Uint dbg] Tipe.Uint
    [st_ (SAssignGlobal 0 (ex (Binary BinaryOp.Plus (ex (GlobalVariableRef 0 Tipe.Uint)) (num 1) Tipe.Uint)));
     st_ (SExpression (ex (If (ex (Binary BinaryOp.GreaterThan (var 10) (num 0) Tipe.Bool))
       (mkBlock [st_ (SReturn (ex (Binary BinaryOp.Times (var 10)
          (ex (FunctionCall (ex (FuncRef 1 (Tipe.Func false [Tipe.Uint] Tipe.Uint)))
                 [ex (Binary BinaryOp.Minus (var 10) (num 1) Tipe.Uint)] Tipe.Uint (mkPropertiesList true))) Tipe.Uint)))]
          None None) None Tipe.Void)));
     st_ (SReturn (num 1))]
    (Tipe.Func false [Tipe.Uint] Tipe.Uint) Public dbg (mkPropertiesList false).
Definition fact_globals : list GlobalVarDecl := [mkGlobalVarDecl 20 "calls" Tipe.Uint None].
Definition fact_code : list insn :=
  Eval vm_compute in
  match mavm_codegen (H := toy_crypto) [(1, fact_f)] StringTable.new [] fact_globals [] false with
  | Ok (c, _) => c
  | _ => []
  end.
(** The module after one instruction and before the label of a caller. *)
Definition fact_program : list insn := op_ AVMOpcode.Noop dbg :: fact_code ++ [label_ (Label.Evm 0) dbg].

Lemma fact_plain : Forall (λ kf, plain_func kf.2) [(1, fact_f)].
Proof. repeat first [reflexivity | constructor]. Qed.

Lemma codegen_correct_witness :
  ∃ p, find_label fact_program (Label.Func 1) = Some p ∧
    star fact_program (mkVm p [Value.Label (Label.Evm 0); Value.Int 5; Value.Int 77] [] [Value.Int 0])
      (mkVm (S (length fact_code)) [Value.Int 120; Value.Int 77] [] [Value.Int 6]).
Proof.
  apply (codegen_correct (H := toy_crypto) [(1, fact_f)] StringTable.new [] fact_globals false [] [] fact_code fact_program
           1 10 (Label.Func 1) [Value.Int 5] [Value.Int 0] (Some (Value.Int 120)) [Value.Int 6] (Label.Evm 0)
           (S (length fact_code)) [Value.Int 77] []).
  - reflexivity.
  - apply fact_plain.
  - apply (bool_decide_unpack _). vm_compute. done.
  - intros j i Hj. cbn [Nat.add]. apply (lookup_app_l_Some fact_code [label_ (Label.Evm 0) dbg]) in Hj. exact Hj.
  - apply (bool_decide_unpack _). vm_compute. done.
  - vm_compute. reflexivity.
  - vm_compute. reflexivity.
Defined.
