(* ===== verification/LabelMaps.v ===== *)
(** * Values whose labels are replaced

    The linker replaces labels twice: it renames those of a module, and in the
    end it puts code points for them.  The instructions of the virtual machine
    do not notice: they move values around and take tuples apart, but they do not
    look at labels.  [vm_exec_map] says so for the instructions of a program,
    [vm_renamed] for its runs. *)

From Stdlib Require Import ZArith Lia.
From stdpp Require Import relations.
From S2P Require Import Prelude U256 StringTab Pos Opcodes Crypto BufferTree Values StraightLine TupleTree Peephole StripLabels Types TypedAst Link Assembly Codegen FixedArray VirtualMachine Semantics CodegenRuns CodegenSound.

#[local] Set Warnings "-clear-no-such-hyp".

Section maps.
Context (f : Label.t → Value.t).

(** A label becomes a label or a code point. *)
Definition atomic (v : Value.t) : Prop := match v with Value.Label _ | Value.CodePoint _ => True | _ => False end.
Hypothesis f_atomic : ∀ l, atomic (f l).

Abbreviation F := (vmap f).

Lemma vmap_free v : value_labels v = [] → F v = v.
Proof using Type.
  revert v. apply value_no_labels_ind.
  - intros [] Hn Hl; try done. by destruct (Hn v).
  - intros vs Hvs. cbn [vmap]. f_equal. induction Hvs as [|v vs Hv _ IH]; [done|]. rewrite fmap_cons, Hv. f_equal. exact IH.
Qed.

Lemma vmap_label_free v : label_free v = true → F v = v.
Proof using Type. unfold label_free. intros Hv%bool_decide_eq_true. by apply vmap_free. Qed.

Lemma leaves_vmap t v xs : leaves t v = Some xs → leaves t (F v) = Some (F <$> xs).
Proof using Type.
  revert v xs. induction t as [|sz ts IH] using tuple_tree_ind; intros v xs Hv; [by injection Hv as <-|].
  destruct v as [|vs| | |]; try done. cbn [leaves vmap] in *. revert vs xs Hv.
  induction IH as [|t ts Ht _ IHts]; intros [|v vs] xs Hv; try done; [by injection Hv as <-|].
  apply leaves_list_cons in Hv as (ys & zs & Hy & Hz & ->). rewrite fmap_cons, leaves_list_eq, (Ht v ys Hy). cbn [mbind option_bind].
  rewrite (IHts vs zs Hz). cbn. by rewrite fmap_app.
Qed.

Lemma lookup_z_vmap t i x : lookup_z t i = Some x → lookup_z (F <$> t) i = Some (F x).
Proof using Type. unfold lookup_z. rewrite length_fmap. intros Hx. destruct (_ && _); [|done]. by rewrite list_lookup_fmap, Hx. Qed.

Lemma insert_z_vmap t i x : insert_z (F <$> t) i (F x) = F <$> insert_z t i x.
Proof using Type. unfold insert_z. rewrite length_fmap. destruct (_ && _); [|done]. by rewrite list_fmap_insert. Qed.

(** Instructions on the stack. *)
Lemma view_alu_map op s v : view_alu op (mkView s [] Value.none) = Some v →
  view_alu op (mkView (F <$> s) [] Value.none) = Some (mkView (F <$> v_stack v) [] Value.none).
Proof using Type.
  unfold view_alu. cbn [v_stack]. destruct s as [|[x| | | |] [|[y| | | |] s]]; try done. cbn.
  intros (z & -> & [= <-])%bind_Some. done.
Qed.

Lemma view_op_map op s v : stack_op op = true → op ≠ AVMOpcode.Equal → view_op op (mkView s [] Value.none) = Some v →
  view_op op (mkView (F <$> s) [] Value.none) = Some (mkView (F <$> v_stack v) [] Value.none).
Proof using Type.
  intros Hs Hne Hv.
  destruct op; try discriminate Hs; try done; try (by apply view_alu_map);
    try (destruct s as [|x [|y [|z s]]]; first [by injection Hv as <- | exact (view_alu_map _ _ _ Hv)]).
  all: destruct s as [|[i| | | |] s]; try done; try (by injection Hv as <-).
  all: destruct s as [|[|t| | |] s]; try done; cbn [view_op] in Hv.
  - destruct (i <? two64)%Z eqn:Ei; [|done]. apply bind_Some in Hv as (x & Hx & [= <-]). cbn. rewrite Ei.
    by rewrite (lookup_z_vmap _ _ _ Hx).
  - destruct s as [|x s]; [done|]. destruct (_ && _) eqn:Ei; [|done]. injection Hv as <-. cbn. rewrite length_fmap, Ei.
    unfold Value.new_tuple. cbn. by rewrite insert_z_vmap.
Qed.

Lemma on_values_map op s s' : on_values op s = Some s' → on_values op (F <$> s) = Some (F <$> s').
Proof using Type.
  unfold on_values. destruct (stack_op op) eqn:Hs; [|done]. intros (v & Hv & [= <-])%bind_Some.
  assert (untested op = true → tame_op op (mkView (F <$> s) [] Value.none) = Some (mkView (F <$> v_stack v) [] Value.none)) as Hu.
  { intros Hu. rewrite tame_untested in * by done. apply view_op_map; [done|by intros ->|done]. }
  destruct (untested op) eqn:Eu; [by rewrite Hu|]. clear Hu. destruct op; try discriminate Eu.
  - destruct s as [|x [|y s]]; try done. cbn [tame_op v_stack] in Hv. destruct (label_free x && label_free y) eqn:El; [|done].
    pose proof El as [Hx Hy]%andb_prop. rewrite !fmap_cons, !vmap_label_free by done. cbn [tame_op v_stack]. rewrite El.
    by injection Hv as <-.
  - destruct s as [|[x| | | |] s]; try done. cbn in *. destruct (_ || _); [|done]. by injection Hv as <-.
Qed.

(** In any context. *)
Lemma on_values_bool op s s' a r : on_values op s = Some s' → bool_view_op op (mkView s a r) = Some (mkView s' a r).
Proof using Type.
  unfold on_values. destruct (stack_op op) eqn:Hs; [|done]. intros (v & Hv & [= <-])%bind_Some.
  assert (view_op op (mkView s [] Value.none) = Some v) as Hview.
  { destruct op; try exact Hv; cbn in Hv |- *; destruct s as [|x s]; try done.
    - destruct s as [|y s]; [done|]. by destruct (_ && _).
    - destruct x as [x| | | |]; try done. by destruct (_ || _). }
  destruct (view_op_frame _ _ Hs _ _ _ Hview) as (_ & _ & Hf). specialize (Hf a r).
  destruct op; try exact Hf. cbn in Hv |- *. destruct s as [|[x| | | |] s]; try done. destruct (_ || _); [|done].
  exact Hf.
Qed.

(** ** Sequences of instructions on the stack *)
Definition value_insn (i : insn) : bool :=
  match Instruction.opcode i with Opcode.AVM op => stack_op op && untested op | _ => false end
  && match Instruction.immediate i with Some v => label_free v | None => true end.

Lemma value_insn_map i s v a r : value_insn i = true → step (lift_sem view_op) i (mkView s [] Value.none) = Some v →
  v = mkView (v_stack v) [] Value.none ∧
  step (lift_sem bool_view_op) i (mkView (F <$> s) a r) = Some (mkView (F <$> v_stack v) a r).
Proof using Type.
  unfold value_insn, step. destruct i as [op imm di]. cbn. intros [Hop Hi]%andb_prop Hv. destruct op as [ | | | | | | | | | | | | | | | | op]; try done.
  apply andb_prop in Hop as [Hs Hu].
  assert (∀ s a r, push_imm (Instruction.mk (Opcode.AVM op) imm di) (mkView s a r) = mkView (option_list imm ++ s) a r) as Hp
    by (by destruct imm).
  cbn [lift_sem] in *. rewrite Hp in *.
  assert (F <$> (option_list imm ++ s) = option_list imm ++ (F <$> s)) as HF.
  { destruct imm as [x|]; [|done]. cbn. by rewrite vmap_label_free. }
  destruct (view_op_frame _ _ Hs _ _ _ Hv) as (Ha & Hr & _). split; [destruct v; cbn in *; by subst|].
  rewrite <- HF. apply on_values_bool, on_values_map. unfold on_values. rewrite Hs, tame_untested by done. by rewrite Hv.
Qed.

Lemma value_code_map c a r : forallb value_insn c = true → ∀ s v, run_code c (mkView s [] Value.none) = Some v →
  v = mkView (v_stack v) [] Value.none ∧
  steps (lift_sem bool_view_op) c (mkView (F <$> s) a r) = Some (mkView (F <$> v_stack v) a r).
Proof using Type.
  induction c as [|i c IH]; intros Hc s v Hv; [by injection Hv as <-|]. cbn [forallb] in Hc. apply andb_prop in Hc as [Hi Hc].
  cbn [steps] in *. apply bind_Some in Hv as (w & Hw & Hv). destruct (value_insn_map i s w a r Hi Hw) as [Ew ->].
  rewrite Ew in Hv. cbn [mbind option_bind]. by apply IH.
Qed.

Lemma array_code_values fuel : ∀ size di c, array_code fuel size di = Some c → forallb value_insn c = true.
Proof using Type.
  induction fuel as [|fuel IH]; intros size di c Hc; [done|]. cbn [array_code] in Hc.
  destruct (Nat.ltb TUPLE_SIZE size); [|by injection Hc as <-]. apply bind_Some in Hc as (c' & Hc' & [= <-]).
  exact (IH _ _ _ Hc').
Qed.
End maps.

(** ** Renamed programs *)
Definition aux_map (f : Label.t → Value.t) (x : aux_item) : aux_item :=
  match x with Plain v => Plain (vmap f v) | Frame l => Frame (vmap f <$> l) end.

Section rename.
Context (ρ : Label.t → Label.t).

Definition rename : Value.t → Value.t := vmap (λ l, Value.Label (ρ l)).
Definition rename_op (op : Opcode.t) : Opcode.t :=
  match op with Opcode.Label l => Opcode.Label (ρ l) | op => op end.
Definition rename_insn (i : insn) : insn :=
  Instruction.mk (rename_op (Instruction.opcode i)) (rename <$> Instruction.immediate i) (Instruction.debug_info i).
Abbreviation A := (aux_map (λ l, Value.Label (ρ l))).

Lemma slot_of_map imm k : slot_of imm = Some k → slot_of (rename <$> imm) = Some k.
Proof. by destruct imm as [[]|]. Qed.

Lemma tuple_get_map f size k v x : tuple_get size k v = Some x → tuple_get size k (vmap f v) = Some (vmap f x).
Proof.
  unfold tuple_get. intros (t & -> & Hx)%bind_Some. apply bind_Some in Hx as (xs & Hl & Hx). cbn [mbind option_bind].
  rewrite (leaves_vmap f _ _ _ Hl). cbn [mbind option_bind]. by rewrite list_lookup_fmap, Hx.
Qed.

Lemma tuple_set_map f size k v y x : tuple_set size k v y = Some x → tuple_set size k (vmap f v) (vmap f y) = Some (vmap f x).
Proof.
  unfold tuple_set. intros (t & Ht & Hx)%bind_Some. apply bind_Some in Hx as (xs & Hl & Hx). apply bind_Some in Hx as (z & Hz & Hx).
  rewrite Ht. cbn [mbind option_bind]. rewrite (leaves_vmap f _ _ _ Hl). cbn [mbind option_bind].
  rewrite list_lookup_fmap, Hz. cbn [fmap option_fmap option_map mbind option_bind]. rewrite <- list_fmap_insert.
  pose proof (tree_new_inv _ _ _ Ht) as [Hok Hsz]. pose proof (leaves_length _ _ _ Hok Hl) as Hlen.
  assert (length (<[k := y]> xs) = tsize t) as Hlen' by (by rewrite length_insert).
  destruct (make_value_ok t (vmap f <$> <[k := y]> xs) Hok) as (w & Hw & Hwl); [by rewrite length_fmap|].
  rewrite Hw. f_equal. apply (leaves_inj t _ _ _ Hok Hwl). apply leaves_vmap. by apply leaves_make.
Qed.

Lemma imm_app (imm : option Value.t) s : rename <$> (option_list imm ++ s) = option_list (rename <$> imm) ++ (rename <$> s).
Proof. by destruct imm. Qed.

Lemma exec_avm size op imm di s a g : op ≠ AVMOpcode.AuxPush → op ≠ AVMOpcode.AuxPop →
  vm_exec size (Instruction.mk (Opcode.AVM op) imm di) s a g = (s ← on_values op (option_list imm ++ s); Some (s, a, g)).
Proof. by destruct op. Qed.

Lemma avm_exec_map size op imm di s a g s' a' g' extra :
  vm_exec size (Instruction.mk (Opcode.AVM op) imm di) s a g = Some (s', a', g') →
  vm_exec size (rename_insn (Instruction.mk (Opcode.AVM op) imm di)) (rename <$> s) (A <$> a) ((rename <$> g) ++ extra)
  = Some (rename <$> s', A <$> a', (rename <$> g') ++ extra).
Proof.
  unfold rename_insn. cbn [Instruction.opcode Instruction.immediate Instruction.debug_info rename_op]. intros He.
  destruct (decide (op = AVMOpcode.AuxPush)) as [->|H1].
  { unfold vm_exec in *. cbn [Instruction.opcode Instruction.immediate] in *. rewrite <- imm_app.
    destruct (option_list imm ++ s); [done|]. by injection He as <- <- <-. }
  destruct (decide (op = AVMOpcode.AuxPop)) as [->|H2].
  { unfold vm_exec in *. cbn [Instruction.opcode Instruction.immediate] in *.
    destruct a as [|[v|l] a]; try done. injection He as <- <- <-. cbn. by rewrite imm_app. }
  rewrite exec_avm in * by done. apply bind_Some in He as (s1 & Hs & [= <- <- <-]).
  rewrite <- imm_app. unfold rename. by rewrite (on_values_map _ _ _ _ Hs).
Qed.

(** Virtual instructions. *)
Lemma vm_exec_map size i s a g s' a' g' extra : vm_exec size i s a g = Some (s', a', g') →
  vm_exec size (rename_insn i) (rename <$> s) (A <$> a) ((rename <$> g) ++ extra)
  = Some (rename <$> s', A <$> a', (rename <$> g') ++ extra).
Proof.
  destruct i as [op imm di]. destruct op as [| |nargs ntotal ra|l| |sz|sz| |sz|idx|idx| | | | | |op];
    [..|by apply avm_exec_map]; unfold vm_exec, rename_insn;
    cbn [Instruction.opcode Instruction.immediate Instruction.debug_info rename_op]; intros He; try done.
  - destruct a as [|[v|l] a]; try done. cbn. rewrite length_fmap. destruct (Nat.eqb (length l) size); [|done].
    apply bind_Some in He as (k & Hk & He). apply bind_Some in He as (v & Hv & [= <- <- <-]).
    rewrite (slot_of_map _ _ Hk). cbn. by rewrite list_lookup_fmap, Hv.
  - destruct a as [|[v|l] a]; try done. destruct s as [|v s]; [done|]. cbn. rewrite length_fmap. destruct (Nat.eqb (length l) size); [|done].
    apply bind_Some in He as (k & Hk & He). apply bind_Some in He as (v1 & Hv & [= <- <- <-]).
    rewrite (slot_of_map _ _ Hk). cbn. rewrite list_lookup_fmap, Hv. cbn. by rewrite list_fmap_insert.
  - destruct imm; [done|]. cbn. destruct ra.
    + destruct s as [|r s]; [done|]. cbn. rewrite length_fmap. destruct (Nat.leb nargs (length s) && Nat.leb nargs ntotal); [|done]. injection He as <- <- <-.
      by rewrite <- fmap_drop, fmap_cons; cbn; rewrite fmap_app, fmap_take, fmap_replicate.
    + rewrite length_fmap. destruct (Nat.leb nargs (length s) && Nat.leb nargs ntotal); [|done]. injection He as <- <- <-.
      by rewrite <- fmap_drop, fmap_cons; cbn; rewrite fmap_app, fmap_take, fmap_replicate.
  - destruct imm; [done|]. by injection He as <- <- <-.
  - destruct s as [|v s]; [done|]. apply bind_Some in He as (k & Hk & He). apply bind_Some in He as (x & Hx & [= <- <- <-]).
    cbn. rewrite (slot_of_map _ _ Hk). cbn. unfold rename. by rewrite (tuple_get_map _ _ _ _ _ Hx).
  - destruct s as [|v [|y s]]; try done. apply bind_Some in He as (k & Hk & He). apply bind_Some in He as (x & Hx & [= <- <- <-]).
    cbn. rewrite (slot_of_map _ _ Hk). cbn. unfold rename. by rewrite (tuple_set_map _ _ _ _ _ _ Hx).
  - destruct imm; [done|]. apply bind_Some in He as (c & Hc & He). apply bind_Some in He as (v & Hv & [= <- <- <-]).
    cbn [fmap option_fmap option_map Instruction.debug_info]. rewrite Hc. cbn [mbind option_bind].
    destruct (value_code_map (λ l, Value.Label (ρ l)) c [] Value.none (array_code_values _ _ _ _ Hc) _ _ Hv) as [_ Hr].
    apply (steps_mono _ (lift_sem view_op)) in Hr; [|by intros []; try done; apply bool_view_op_view].
    unfold rename. by rewrite Hr.
  - destruct imm; [done|]. apply bind_Some in He as (v & Hv & [= <- <- <-]). cbn.
    erewrite lookup_app_l_Some; [done|]. by rewrite list_lookup_fmap, Hv.
  - destruct imm; [done|]. destruct s as [|v s]; [done|]. apply bind_Some in He as (w & Hv & [= <- <- <-]). cbn.
    erewrite lookup_app_l_Some; [|by rewrite list_lookup_fmap, Hv]. cbn.
    rewrite list_fmap_insert, insert_app_l; [done|]. rewrite length_fmap. by eapply lookup_lt_Some.
Qed.

(** The size of the frame matters for locals only. *)
Definition local_access (i : insn) : bool :=
  match Instruction.opcode i with Opcode.GetLocal | Opcode.SetLocal => true | _ => false end.

Lemma vm_exec_size n n' i s a g : local_access i = false → vm_exec n i s a g = vm_exec n' i s a g.
Proof. unfold local_access, vm_exec. by destruct (Instruction.opcode i). Qed.

(** [code'] contains the instructions of [code], renamed, at the positions that
    [π] gives them; the globals of [code] are the first ones. *)
Context (code code' : list insn) (π : nat → nat) (extra : list Value.t).

Record renamed : Prop := {
  ren_code p i : code !! p = Some i → (∀ k, Instruction.opcode i ≠ Opcode.PushExternal k) →
    code' !! π p = Some (rename_insn i) ∧ π (S p) = S (π p) ∧
    (local_access i = true → frame_size code' (π p) = frame_size code p);
  ren_label l p : find_label code l = Some p → find_label code' (ρ l) = Some (π p);
}.

Definition ren_vm (m : vm) : vm :=
  mkVm (π (vm_pc m)) (rename <$> vm_stack m) (A <$> vm_aux m) ((rename <$> vm_globals m) ++ extra).

Lemma vm_step_renamed m m' : renamed → vm_step code m = Some m' → vm_step code' (ren_vm m) = Some (ren_vm m').
Proof.
  intros [Hcode Hlabel] (i & Hi & Hs)%bind_Some. destruct m as [pc s a g]. cbn [vm_pc vm_stack vm_aux vm_globals] in *.
  destruct (Hcode pc i Hi) as (Hi' & Hpc & Hf).
  { intros k Hk. unfold vm_step_at, vm_exec in Hs. by rewrite Hk in Hs. }
  unfold vm_step, ren_vm. cbn [vm_pc vm_stack vm_aux vm_globals]. rewrite Hi'. cbn [mbind option_bind].
  assert ((x ← vm_exec (frame_size code pc) i s a g; let '(s, a, g) := x in Some (mkVm (S pc) s a g)) = Some m' →
    (x ← vm_exec (frame_size code' (π pc)) (rename_insn i) (rename <$> s) (A <$> a) ((rename <$> g) ++ extra);
     let '(s, a, g) := x in Some (mkVm (S (π pc)) s a g)) = Some (ren_vm m')) as Hexec.
  { intros ([[s1 a1] g1] & He & [= <-])%bind_Some. unfold ren_vm. cbn [vm_pc vm_stack vm_aux vm_globals]. rewrite Hpc.
    destruct (local_access i) eqn:El.
    - rewrite Hf by done. by rewrite (vm_exec_map _ _ _ _ _ _ _ _ extra He).
    - rewrite (vm_exec_size _ (frame_size code pc)) by (unfold local_access, rename_insn in *; cbn; by destruct (Instruction.opcode i)).
      by rewrite (vm_exec_map _ _ _ _ _ _ _ _ extra He). }
  unfold vm_step_at in *. destruct i as [op imm di]. unfold rename_insn in *.
  cbn [Instruction.opcode Instruction.immediate] in *. destruct op as [| |nargs ntotal ra|l| |sz|sz| |sz|idx|idx| | | | | |op];
    cbn [rename_op] in *; try (by apply Hexec).
  - destruct imm; [by destruct a as [|[] [|[[]|] a]]|]. destruct a as [|[|fr] [|[[| | |l|]|] a]]; try done. cbn.
    apply bind_Some in Hs as (p & Hp & [= <-]). by rewrite (Hlabel _ _ Hp).
  - destruct op; try (by apply Hexec); rewrite <- imm_app.
    + destruct (option_list imm ++ s) as [|[| | |l|] s1]; try done. cbn. apply bind_Some in Hs as (p & Hp & [= <-]).
      by rewrite (Hlabel _ _ Hp).
    + destruct (option_list imm ++ s) as [|[| | |l|] [|[c| | | |] s1]]; try done. cbn. apply bind_Some in Hs as (p & Hp & [= <-]).
      rewrite (Hlabel _ _ Hp). cbn. unfold ren_vm. cbn. by destruct (c =? 0)%Z; rewrite ?Hpc.
Qed.

Lemma vm_renamed m m' : renamed → star code m m' → star code' (ren_vm m) (ren_vm m').
Proof.
  intros Hr. induction 1 as [m|m1 m2 m3 Hs _ IH]; [apply rtc_refl|]. eapply rtc_l; [|exact IH]. by apply vm_step_renamed.
Qed.
End rename.
