(* ===== verification/Lowering.v ===== *)
(** * From the virtual machine to labelled assembly

    What [fix_nonforward_labels] and [fix_tuple_size] (src/src/link/striplabels.rs,
    src/src/link/xformcode.rs) make of a program does what the virtual
    machine does: frames become nested tuples on the auxiliary stack, globals a
    nested tuple in the register, references to labels that lie behind go through
    the jump table ([lowering_simulates]). *)

From Stdlib Require Import ZArith Lia.
From stdpp Require Import relations.
From S2P Require Import Prelude U256 StringTab Pos Opcodes Crypto BufferTree Values StraightLine TupleTree Peephole StripLabels Types TypedAst Link Codegen FixedArray VirtualMachine Semantics CodegenRuns CodegenSound LabelMaps Assembly.

#[local] Set Warnings "-clear-no-such-hyp".

(** ** Emitted code *)

(** Machine instructions that neither jump nor mention labels, and no [IsZero]. *)
Definition emitted (i : insn) : bool :=
  match Instruction.opcode i with
  | Opcode.AVM op => negb (Assembly.is_jump op) && negb (bool_decide (op = AVMOpcode.IsZero))
  | _ => false
  end && match Instruction.immediate i with Some v => label_free v | None => true end.

Lemma emitted_straight i : emitted i = true → straight i = true.
Proof. unfold emitted, straight. destruct (Instruction.opcode i); try done. intros [[H _]%andb_prop _]%andb_prop. done. Qed.

Lemma emitted_resolve lm i : emitted i = true → resolve_insn lm i = i.
Proof.
  unfold emitted, resolve_insn. destruct i as [op [v|] di]; cbn; [|done]. intros [_ Hv]%andb_prop.
  unfold resolve. by rewrite vmap_label_free.
Qed.

Lemma emitted_code lm c v v' : forallb emitted c = true → run_code c v = Some v' →
  Forall (λ i, straight i = true) (resolve_insn lm <$> c) ∧ steps (lift_sem bool_view_op) (resolve_insn lm <$> c) v = Some v'.
Proof.
  revert v. induction c as [|i c IH]; intros v Hc Hv; [by split|]. cbn [forallb] in Hc. apply andb_prop in Hc as [Hi Hc].
  cbn [steps] in Hv. apply bind_Some in Hv as (w & Hw & Hv). destruct (IH w Hc Hv) as [Hs Hr].
  rewrite fmap_cons, (emitted_resolve lm i Hi). split; [by constructor; [apply emitted_straight|]|].
  cbn [steps].
  assert (step (lift_sem bool_view_op) i v = Some w) as ->; [|exact Hr].
  unfold step, emitted in *. destruct (Instruction.opcode i) as [ | | | | | | | | | | | | | | | | op]; try done.
  apply andb_prop in Hi as [[_ Hz]%andb_prop _]. cbn in *. by destruct op.
Qed.

Lemma in_slot_emitted {A} body (oob : outcome CompileError A) (P : A → Prop) ts : (∀ c, oob ≠ Ok c) →
  (∀ slot t index c, t ∈ ts → body slot t index = Ok c → P c) →
  ∀ slot index c, in_slot body oob slot ts index = Ok c → P c.
Proof.
  intros Ho. induction ts as [|t ts IH]; intros Hb slot index c Hc; [by apply Ho in Hc|]. cbn [in_slot] in Hc.
  destruct (Nat.ltb index (tsize t)); [by apply (Hb slot t index c); [left|]|].
  apply (IH (λ slot t' index c Hin, Hb slot t' index c (list_elem_of_further t' t ts Hin)) _ _ _ Hc).
Qed.

Lemma read_code_emitted t di : ∀ (is_local : bool) index c, read_code t is_local index di = Ok c → forallb emitted c = true.
Proof.
  induction t as [|sz ts IH] using tuple_tree_ind; intros is_local index c Hc.
  { injection Hc as <-. by destruct is_local. }
  cbn [read_code] in Hc. eapply (in_slot_emitted _ _ (λ c, forallb emitted c = true)); [| |exact Hc]; [done|].
  cbv beta. intros slot t i c' Hin Hb. rewrite list.Forall_forall in IH.
  destruct (read_code t false i di) as [rest| |] eqn:E; try done. cbn [mbind outcome_bind] in Hb. injection Hb as <-. cbn [forallb].
  rewrite (IH t Hin _ _ _ E). by destruct is_local.
Qed.

Lemma write_code_emitted t di : ∀ (is_local : bool) index c, write_code t is_local index di = Ok c → forallb emitted c = true.
Proof.
  induction t as [|sz ts IH] using tuple_tree_ind; intros is_local index c Hc; [by injection Hc as <-|].
  cbn [write_code] in Hc. eapply (in_slot_emitted _ _ (λ c, forallb emitted c = true)); [| |exact Hc]; [done|].
  cbv beta. intros slot t i c' Hin Hb. rewrite list.Forall_forall in IH. specialize (IH t Hin). destruct t as [|sz' ts'].
  { injection Hb as <-. by destruct is_local. }
  destruct (write_code (Tree sz' ts') false i di) as [rest| |] eqn:E; try done. cbn [mbind outcome_bind] in Hb. injection Hb as <-.
  destruct is_local; cbn [forallb]; rewrite forallb_app, (IH _ _ _ E); done.
Qed.

Lemma write_args_emitted t di n : ∀ lnum c, write_args t lnum n di = Ok c → forallb emitted c = true.
Proof.
  induction n as [|n IH]; intros lnum c Hc; [by injection Hc as <-|]. cbn [write_args] in Hc.
  destruct (write_code t true lnum di) as [c1| |] eqn:E1; try done. cbn [mbind outcome_bind] in Hc.
  destruct (write_args t (S lnum) n di) as [c2| |] eqn:E2; try done. cbn [mbind outcome_bind] in Hc. injection Hc as <-.
  by rewrite forallb_app, (write_code_emitted _ _ _ _ _ E1), (IH _ _ E2).
Qed.

Lemma array_code_emitted fuel size di c : array_code fuel size di = Some c → forallb emitted c = true.
Proof.
  revert size c. induction fuel as [|fuel IH]; intros size c Hc; [done|]. cbn [array_code] in Hc.
  destruct (Nat.ltb TUPLE_SIZE size); [|by injection Hc as <-]. apply bind_Some in Hc as (c' & Hc' & [= <-]).
  exact (IH _ _ Hc').
Qed.

(** ** Virtual instructions *)
Ltac open_insn He Hf :=
  unfold vm_exec in He; unfold fix_insn in Hf; cbn [Instruction.opcode Instruction.immediate Instruction.debug_info] in He, Hf.

Section lowering.
Context (lm : gmap Label.t CodePt.t) (gt : TupleTree) (jtv : Value.t).
Hypothesis gt_ok : tree_ok gt.

Abbreviation R := (resolve lm).

(** A frame is a nested tuple; the globals are one too, with the jump table at the end. *)
Definition aux_rel (x : aux_item) (w : Value.t) : Prop :=
  match x with
  | Plain v => w = R v
  | Frame l => ∃ t, tree_new (length l) true = Some t ∧ leaves t w = Some (R <$> l)
  end.

Definition view_rel (s : list Value.t) (a : list aux_item) (g : list Value.t) (v : view) : Prop :=
  v_stack v = R <$> s ∧ Forall2 aux_rel a (v_aux v) ∧ leaves gt (v_reg v) = Some ((R <$> g) ++ [jtv]).

Lemma index_of_slot_of imm di e1 e2 k iu : slot_of imm = Some k → index_of imm di e1 e2 = Ok iu → iu = k.
Proof using Type.
  destruct imm as [[i| | | |]|]; try done. cbn. unfold Uint256.to_usize. intros [= <-]. destruct (i <? two64)%Z; [|done].
  by intros [= <-].
Qed.

Lemma lower_get_local size lt i s a g s' a' g' v c lt' : tree_new size true = Some lt →
  Instruction.opcode i = Opcode.GetLocal → vm_exec size i s a g = Some (s', a', g') → fix_insn gt lt i = Ok (c, lt') →
  view_rel s a g v → ∃ v', run_code c v = Some v' ∧ view_rel s' a' g' v' ∧ forallb emitted c = true.
Proof using Type.
  intros Hlt Hop He Hf Hv. destruct i as [op imm di]. cbn in Hop. subst op. open_insn He Hf.
  destruct a as [|[|l] a]; try done. destruct (Nat.eqb_spec (length l) size) as [Hl|]; [|done].
  apply bind_Some in He as (k & Hk & He). apply bind_Some in He as (x & Hx & [= <- <- <-]).
  destruct (index_of imm di _ _) as [iu| |] eqn:Ei; try done. apply (index_of_slot_of _ _ _ _ k) in Ei as ->; [|done].
  cbn [mbind outcome_bind] in Hf. destruct v as [vs va vr]. destruct Hv as (Hs & Ha & Hg). cbn in Hs, Ha, Hg. subst vs.
  destruct va as [|w va]; [by apply Forall2_cons_nil_inv in Ha|].
  apply Forall2_cons_1 in Ha as [(t & Ht & Hw) Ha]. assert (t = lt) as -> by congruence.
  destruct (tree_new_inv _ _ _ Hlt) as [Hok _].
  destruct (read_code_ok lt true k di w (R <$> l) (R x) (R <$> s) va vr Hok Hw) as (c' & Hc & Hrun);
    [by rewrite list_lookup_fmap, Hx|].
  rewrite Hc in Hf. injection Hf as <- <-. exists (mkView (R x :: (R <$> s)) (w :: va) vr). split; [done|].
  split; [|by eapply read_code_emitted]. split_and!; [done| |done]. constructor; [by exists lt|done].
Qed.

Lemma lower_set_local size lt i s a g s' a' g' v c lt' : tree_new size true = Some lt →
  Instruction.opcode i = Opcode.SetLocal → vm_exec size i s a g = Some (s', a', g') → fix_insn gt lt i = Ok (c, lt') →
  view_rel s a g v → ∃ v', run_code c v = Some v' ∧ view_rel s' a' g' v' ∧ forallb emitted c = true.
Proof using Type.
  intros Hlt Hop He Hf Hv. destruct i as [op imm di]. cbn in Hop. subst op. open_insn He Hf.
  destruct a as [|[|l] a]; try done. destruct s as [|y s]; [done|]. destruct (Nat.eqb_spec (length l) size) as [Hl|]; [|done].
  apply bind_Some in He as (k & Hk & He). apply bind_Some in He as (x & Hx & [= <- <- <-]).
  destruct (index_of imm di _ _) as [iu| |] eqn:Ei; try done. apply (index_of_slot_of _ _ _ _ k) in Ei as ->; [|done].
  cbn [mbind outcome_bind] in Hf. destruct v as [vs va vr]. destruct Hv as (Hs & Ha & Hg). cbn in Hs, Ha, Hg. subst vs.
  destruct va as [|w va]; [by apply Forall2_cons_nil_inv in Ha|].
  apply Forall2_cons_1 in Ha as [(t & Ht & Hw) Ha]. assert (t = lt) as -> by congruence.
  destruct (tree_new_inv _ _ _ Hlt) as [Hok _]. pose proof (tree_new_local _ _ Hlt) as Hns.
  destruct (write_code_ok lt true k di w (R <$> l) (R x) (R y) (R <$> s) va vr Hok) as (c' & w' & Hc & Hw' & Hrun);
    [done|done|by rewrite list_lookup_fmap, Hx|].
  rewrite Hc in Hf. injection Hf as <- <-. exists (mkView (R <$> s) (w' :: va) vr). split; [done|].
  split; [|by eapply write_code_emitted]. split_and!; [done| |done]. constructor; [|done].
  exists lt. rewrite length_insert, list_fmap_insert. done.
Qed.

Lemma lower_globals size lt i idx s a g s' a' g' v c lt' :
  Instruction.opcode i = Opcode.GetGlobalVar idx ∨ Instruction.opcode i = Opcode.SetGlobalVar idx →
  vm_exec size i s a g = Some (s', a', g') → fix_insn gt lt i = Ok (c, lt') →
  view_rel s a g v → ∃ v', run_code c v = Some v' ∧ view_rel s' a' g' v' ∧ forallb emitted c = true.
Proof using gt_ok.
  intros Hop He Hf Hv. destruct i as [op imm di]. cbn in Hop. destruct v as [vs va vr]. destruct Hv as (Hs & Ha & Hg). cbn in Hs, Ha, Hg. subst vs.
  destruct Hop as [-> | ->]; open_insn He Hf; destruct imm; try done.
  - apply bind_Some in He as (x & Hx & [= <- <- <-]).
    destruct (read_code_ok gt false idx di vr _ (R x) (R <$> s) va vr gt_ok Hg) as (c' & Hc & Hrun);
      [apply lookup_app_l_Some; by rewrite list_lookup_fmap, Hx|].
    rewrite Hc in Hf. injection Hf as <- <-. eexists (mkView (R x :: (R <$> s)) va vr). split; [by erewrite run_op|].
    split; [by split_and!|]. cbn [forallb]. by rewrite (read_code_emitted _ _ _ _ _ Hc).
  - destruct s as [|y s]; [done|]. apply bind_Some in He as (x & Hx & [= <- <- <-]).
    destruct (write_code_ok gt false idx di vr ((R <$> g) ++ [jtv]) (R x) (R y) (R <$> s) va vr gt_ok) as (c' & w' & Hc & Hw' & Hrun);
      [done|exact Hg|apply lookup_app_l_Some; by rewrite list_lookup_fmap, Hx|].
    rewrite Hc in Hf. cbn [mbind outcome_bind] in Hf. injection Hf as <- <-. eexists (mkView (R <$> s) va w'). split.
    { erewrite run_op by reflexivity. cbn [holding] in Hrun. by erewrite run_code_app by exact Hrun. }
    split; [|cbn [forallb]; rewrite forallb_app, (write_code_emitted _ _ _ _ _ Hc); done].
    split_and!; [done|done|]. cbn. rewrite Hw', list_fmap_insert, insert_app_l; [done|]. rewrite length_fmap. by eapply lookup_lt_Some.
Qed.

Lemma lower_tuples size lt i n s a g s' a' g' v c lt' :
  Instruction.opcode i = Opcode.TupleGet n ∨ Instruction.opcode i = Opcode.TupleSet n →
  vm_exec size i s a g = Some (s', a', g') → fix_insn gt lt i = Ok (c, lt') →
  view_rel s a g v → ∃ v', run_code c v = Some v' ∧ view_rel s' a' g' v' ∧ forallb emitted c = true.
Proof using Type.
  intros Hop He Hf Hv. destruct i as [op imm di]. cbn in Hop. destruct v as [vs va vr]. destruct Hv as (Hs & Ha & Hg). cbn in Hs, Ha, Hg. subst vs.
  destruct (tree_new_spec n false) as (t & Ht & Hok & Hsz).
  destruct Hop as [-> | ->]; open_insn He Hf; rewrite Ht in Hf; cbn [unwrap mbind outcome_bind] in Hf;
    (destruct (index_of imm di _ _) as [iu| |] eqn:Ei; try done); cbn [mbind outcome_bind] in Hf.
  - destruct s as [|w s]; [done|]. apply bind_Some in He as (k & Hk & He). apply bind_Some in He as (x & Hx & [= <- <- <-]).
    apply (index_of_slot_of _ _ _ _ k) in Ei as ->; [|done]. unfold tuple_get in Hx. rewrite Ht in Hx. cbn [mbind option_bind] in Hx.
    apply bind_Some in Hx as (xs & Hl & Hx). apply (leaves_vmap (code_point lm)) in Hl.
    destruct (read_code_ok t false k di (R w) _ (R x) (R <$> s) va vr Hok Hl) as (c' & Hc & Hrun);
      [by rewrite list_lookup_fmap, Hx|].
    rewrite Hc in Hf. injection Hf as <- <-. eexists (mkView (R x :: (R <$> s)) va vr). split; [exact Hrun|].
    split; [by split_and!|by eapply read_code_emitted].
  - destruct s as [|w [|y s]]; try done. apply bind_Some in He as (k & Hk & He). apply bind_Some in He as (x & Hx & [= <- <- <-]).
    apply (index_of_slot_of _ _ _ _ k) in Ei as ->; [|done]. unfold tuple_set in Hx. rewrite Ht in Hx. cbn [mbind option_bind] in Hx.
    apply bind_Some in Hx as (xs & Hl & Hx). apply bind_Some in Hx as (z & Hz & Hx).
    pose proof (leaves_vmap (code_point lm) _ _ _ Hl) as Hl'.
    destruct (write_code_ok t false k di (R w) (R <$> xs) (R z) (R y) (R <$> s) va vr Hok) as (c' & w' & Hc & Hw' & Hrun);
      [done|exact Hl'|by rewrite list_lookup_fmap, Hz|].
    assert (w' = R x) as ->.
    { apply (leaves_inj t _ _ _ Hok Hw'). rewrite <- list_fmap_insert. apply leaves_vmap. apply leaves_make; [done| |done].
      rewrite length_insert. by apply leaves_length in Hl. }
    rewrite Hc in Hf. injection Hf as <- <-. eexists (mkView (R x :: (R <$> s)) va vr). split; [exact Hrun|].
    split; [by split_and!|by eapply write_code_emitted].
Qed.

Lemma lower_array size lt i n s a g s' a' g' v c lt' : Instruction.opcode i = Opcode.UncheckedFixedArrayGet n →
  vm_exec size i s a g = Some (s', a', g') → fix_insn gt lt i = Ok (c, lt') →
  view_rel s a g v → ∃ v', run_code c v = Some v' ∧ view_rel s' a' g' v' ∧ forallb emitted c = true.
Proof using Type.
  intros Hop He Hf Hv. destruct i as [op imm di]. cbn in Hop. subst op. open_insn He Hf. destruct imm; [done|].
  apply bind_Some in He as (c' & Hc & He). apply bind_Some in He as (w & Hw & [= <- <- <-]). rewrite Hc in Hf.
  injection Hf as <- <-. destruct v as [vs va vr]. destruct Hv as (Hs & Ha & Hg). cbn in Hs, Ha, Hg. subst vs.
  destruct (value_code_map (code_point lm) c' va vr (array_code_values _ _ _ _ Hc) _ _ Hw) as [_ Hr].
  apply (steps_mono _ (lift_sem view_op)) in Hr; [|by intros []; try done; apply bool_view_op_view].
  eexists. split; [exact Hr|]. split; [by split_and!|by eapply array_code_emitted].
Qed.

Lemma lower_make_frame size lt i nargs ntotal ra s a g s' a' g' v c lt' :
  Instruction.opcode i = Opcode.MakeFrame nargs ntotal ra →
  vm_exec size i s a g = Some (s', a', g') → fix_insn gt lt i = Ok (c, lt') →
  view_rel s a g v → ∃ v', run_code c v = Some v' ∧ view_rel s' a' g' v' ∧ forallb emitted c = true.
Proof using Type.
  intros Hop He Hf Hv. destruct i as [op imm di]. cbn in Hop. subst op. open_insn He Hf. destruct imm; [done|].
  destruct (tree_new_spec ntotal true) as (t & Ht & Hok & Hsz). rewrite Ht in Hf. cbn [unwrap mbind outcome_bind] in Hf.
  destruct (write_args t 0 nargs di) as [args| |] eqn:Eargs; try done. cbn [mbind outcome_bind app] in Hf. injection Hf as <- _.
  destruct v as [vs va vr]. destruct Hv as (Hs & Ha & Hg). cbn in Hs, Ha, Hg. subst vs.
  assert (∀ s va, nargs <= length s → nargs <= ntotal → ∃ w,
    leaves t w = Some (R <$> take nargs s ++ replicate (ntotal - nargs) Value.none) ∧
    run_code (op_imm AVMOpcode.AuxPush (make_empty t) di :: args) (mkView (R <$> s) va vr)
    = Some (mkView (R <$> drop nargs s) (w :: va) vr)) as Hrun.
  { intros s0 va0 Hl Hle.
    assert (length (R <$> take nargs s0) = nargs) as Hlen by (rewrite length_fmap, length_take; lia).
    destruct (write_args_ok t di (R <$> take nargs s0) Hok (tree_new_local _ _ Ht) 0 (make_empty t) (replicate ntotal Value.none)
      (R <$> drop nargs s0) va0 vr) as (c & w & Hc & Hw & Hr).
    { by rewrite make_empty_leaves, Hsz. }
    { rewrite Hlen, length_replicate. lia. }
    rewrite Hlen, Eargs in Hc. injection Hc as <-. exists w. split.
    - rewrite Hw. rewrite <- (Nat.sub_add nargs ntotal) at 1 by done. rewrite Nat.add_comm, replicate_add.
      rewrite list_inserts_0_r by (by rewrite length_replicate). by rewrite fmap_app, fmap_replicate.
    - erewrite run_op_imm by reflexivity. rewrite <- fmap_app, take_drop in Hr. exact Hr. }
  assert (forallb emitted (op_imm AVMOpcode.AuxPush (make_empty t) di :: args) = true) as Hem.
  { cbn [forallb]. rewrite (write_args_emitted _ _ _ _ _ Eargs). unfold emitted, label_free. cbn. by rewrite make_empty_no_labels. }
  assert (nargs <= ntotal → ∀ s w, nargs <= length s → leaves t w = Some (R <$> take nargs s ++ replicate (ntotal - nargs) Value.none) →
    aux_rel (Frame (take nargs s ++ replicate (ntotal - nargs) Value.none)) w) as Haux.
  { intros Hle s0 w Hl Hw. exists t. split; [|done]. rewrite <- Ht. f_equal. rewrite length_app, length_take, length_replicate. lia. }
  destruct ra.
  - destruct s as [|r s]; [done|]. destruct (Nat.leb_spec nargs (length s)) as [Hl|], (Nat.leb_spec nargs ntotal) as [Hle|]; try done.
    injection He as <- <- <-. destruct (Hrun s (R r :: va) Hl Hle) as (w & Hw & Hr).
    eexists. split; [cbn [app]; erewrite run_op by reflexivity; exact Hr|]. split; [|exact Hem].
    split_and!; [done| |done]. constructor; [by apply Haux|]. by constructor.
  - destruct (Nat.leb_spec nargs (length s)) as [Hl|], (Nat.leb_spec nargs ntotal) as [Hle|]; try done.
    injection He as <- <- <-. destruct (Hrun s va Hl Hle) as (w & Hw & Hr).
    eexists. split; [exact Hr|]. split; [|exact Hem]. split_and!; [done| |done]. constructor; [by apply Haux|done].
Qed.

(** Every virtual instruction that goes on to the next one. *)
Lemma lower_virtual size lt i s a g s' a' g' v c lt' : tree_new size true = Some lt →
  Instruction.get_label i = None → (∀ op, Instruction.opcode i ≠ Opcode.AVM op) →
  vm_exec size i s a g = Some (s', a', g') → fix_insn gt lt i = Ok (c, lt') →
  view_rel s a g v → ∃ v', run_code c v = Some v' ∧ view_rel s' a' g' v' ∧ forallb emitted c = true.
Proof using gt_ok.
  intros Hlt Hl Hop He Hf Hv. unfold Instruction.get_label in Hl.
  destruct (Instruction.opcode i) eqn:E; try done; try (unfold vm_exec in He; by rewrite E in He).
  - by eapply lower_get_local.
  - by eapply lower_set_local.
  - by eapply lower_make_frame.
  - eapply lower_tuples; [by left|done..].
  - eapply lower_tuples; [by right|done..].
  - by eapply lower_array.
  - eapply lower_globals; [by left|done..].
  - eapply lower_globals; [by right|done..].
  - by destruct (Hop op).
Qed.

(** ** Programs *)

(** [outs] are the pieces of [C3] that come from the instructions of [C]. *)
Context (C C3 : list insn) (jt : list Label.t) (gidx : nat) (cps : list CodePt.t) (outs : list (list insn)).

Record lowered : Prop := {
  lw_code : C3 = concat outs;
  lw_piece p (i : insn) : C !! p = Some i → ∃ lt grp out, tree_new (frame_size C p) true = Some lt ∧
    via_table jt gidx i grp ∧ fix_tuple_size_loop gt lt grp = Ok out ∧ outs !! p = Some out;
  lw_table k l : jt !! k = Some l → ∃ cp, cps !! k = Some cp ∧ lm !! l = Some cp;
  lw_labels l p : find_label C l = Some p → is_Some (lm !! l);
  lw_bare p (i : insn) l : C !! p = Some i → Instruction.get_label i = Some l → Instruction.immediate i = None;
  lw_value : ∃ t, tree_new (length jt) false = Some t ∧ leaves t jtv = Some (Value.CodePoint <$> cps);
  lw_globals : tsize gt = S gidx;
}.
Hypothesis low : lowered.

Definition pos (p : nat) : nat := length (concat (take p outs)).
Abbreviation D := (resolve_insn lm <$> C3).

Lemma pos_split p out : outs !! p = Some out →
  D = (resolve_insn lm <$> concat (take p outs)) ++ (resolve_insn lm <$> out) ++ (resolve_insn lm <$> concat (drop (S p) outs)) ∧
  pos (S p) = pos p + length out.
Proof using low.
  intros Ho. pose proof (take_drop_middle outs p out Ho) as Hm. split.
  - rewrite (lw_code low). rewrite <- Hm at 1. rewrite concat_app. cbn [concat]. by rewrite !fmap_app.
  - unfold pos. rewrite (take_S_r outs p out Ho), concat_app, length_app. cbn. by rewrite app_nil_r.
Qed.

(** A prefix of a piece that is emitted code. *)
Lemma run_piece p out c rest v v' : outs !! p = Some out → out = c ++ rest → forallb emitted c = true → run_code c v = Some v' →
  asm_star lm D (mkAsm (pos p) v) (mkAsm (pos p + length c) v').
Proof using low.
  intros Ho -> Hc Hv. destruct (pos_split p _ Ho) as [HD _]. destruct (emitted_code lm c v v' Hc Hv) as [Hs Hr].
  rewrite fmap_app, <- app_assoc in HD.
  pose proof (asm_steps lm D _ _ _ v v' HD Hs Hr) as Hrun. by rewrite !length_fmap in Hrun.
Qed.

Lemma piece_lookup p out k (i : insn) : outs !! p = Some out → out !! k = Some i → D !! (pos p + k) = Some (resolve_insn lm i).
Proof using low.
  intros Ho Hk. destruct (pos_split p out Ho) as [-> _].
  rewrite lookup_app_r by (rewrite length_fmap; unfold pos; lia). rewrite length_fmap.
  replace (pos p + k - length (concat (take p outs))) with k by (unfold pos; lia).
  apply lookup_app_l_Some. by rewrite list_lookup_fmap, Hk.
Qed.

(** Labels stay where they are. *)
Lemma label_piece p (i : insn) l : C !! p = Some i → Instruction.get_label i = Some l → outs !! p = Some [i].
Proof using low.
  intros Hi Hl. pose proof (lw_bare low p i l Hi Hl) as Hb.
  destruct (lw_piece low p i Hi) as (lt & grp & out & _ & Hg & Hf & Ho). rewrite Ho. f_equal.
  destruct i as [op imm di]. unfold Instruction.get_label in Hl. cbn in Hl, Hb. subst imm. destruct op; try done.
  destruct Hg as [->|(l' & k & Hi' & _)]; [|done]. by injection Hf as <-.
Qed.

Lemma label_target l p : find_label C l = Some p → ∃ cp, lm !! l = Some cp ∧ target lm D cp (pos p).
Proof using low.
  intros Hl. destruct (lw_labels low l p Hl) as [cp Hcp]. exists cp. split; [done|].
  assert (∃ i, C !! p = Some i ∧ Instruction.get_label i = Some l) as (i & Hi & Hg).
  { clear -Hl. revert p Hl. induction C as [|i c IH]; intros p Hl; [done|]. cbn [find_label] in Hl.
    case_bool_decide as E; [injection Hl as <-; by exists i|]. apply bind_Some in Hl as (n & Hn & [= <-]). by apply IH. }
  exists (resolve_insn lm i), l. split_and!; [|done|done].
  rewrite <- (Nat.add_0_r (pos p)). by apply (piece_lookup p [i]); [eapply label_piece|].
Qed.

(** A machine instruction, with its immediate on the stack: a label behind it
    has been fetched from the jump table. *)
Lemma fetch p op imm di s a g v : C !! p = Some (Instruction.mk (Opcode.AVM op) imm di) → view_rel s a g v →
  ∃ q (i' : insn) v1, asm_star lm D (mkAsm (pos p) v) (mkAsm q v1) ∧ D !! q = Some i' ∧ Instruction.opcode i' = Opcode.AVM op ∧
    push_imm i' v1 = mkView (R <$> option_list imm ++ s) (v_aux v) (v_reg v) ∧ pos (S p) = S q.
Proof using low gt_ok.
  intros Hi (Hs & Ha & Hg). destruct v as [vs va vr]. cbn in Hs, Ha, Hg. subst vs.
  destruct (lw_piece low _ _ Hi) as (lt & grp & out & Hlt & Hgrp & Hf & Ho). destruct (pos_split p out Ho) as [_ Hpos].
  destruct Hgrp as [->|(l & k & Himm & Hk & ->)].
  - injection Hf as <-. exists (pos p), (resolve_insn lm (Instruction.mk (Opcode.AVM op) imm di)), (mkView (R <$> s) va vr).
    split_and!; [apply rtc_refl| |done| |rewrite Hpos; cbn; lia].
    + rewrite <- (Nat.add_0_r (pos p)). by apply (piece_lookup p [Instruction.mk (Opcode.AVM op) imm di]).
    + by destruct imm.
  - cbn in Himm. subst imm. destruct (lw_table low k l Hk) as (cp & Hcps & Hcp).
    destruct (lw_value low) as (t & Ht & Htv). destruct (tree_new_inv _ _ _ Ht) as [Htok _].
    assert (((R <$> g) ++ [jtv]) !! gidx = Some jtv) as Hj.
    { pose proof (leaves_length _ _ _ gt_ok Hg) as Hlen. rewrite (lw_globals low), length_app in Hlen. cbn in Hlen.
      rewrite lookup_app_r by lia. by replace (gidx - length (R <$> g)) with 0 by lia. }
    destruct (read_code_ok gt false gidx di vr _ jtv (R <$> s) va vr gt_ok Hg Hj) as (c1 & Hc1 & Hr1).
    destruct (read_code_ok t false k di jtv _ (Value.CodePoint cp) (R <$> s) va vr Htok Htv) as (c2 & Hc2 & Hr2);
      [by rewrite list_lookup_fmap, Hcps|].
    assert (out = (op_ AVMOpcode.Rpush di :: c1 ++ c2) ++ [Instruction.from_opcode (Opcode.AVM op) di]) as ->.
    { cbn [app fix_tuple_size_loop fix_insn Instruction.opcode Instruction.immediate Instruction.debug_info
        Instruction.from_opcode Instruction.from_opcode_imm Instruction.new xform_external mbind outcome_bind] in Hf.
      rewrite Hc1 in Hf. cbn [mbind outcome_bind] in Hf. rewrite Ht in Hf. cbn [unwrap mbind outcome_bind] in Hf.
      destruct (index_of (Some (slot_val k)) di _ _) as [iu| |] eqn:Ei; try done.
      apply (index_of_slot_of _ _ _ _ k) in Ei as ->; [|cbn; unfold Uint256.from_usize; by rewrite Nat2Z.id].
      cbn [mbind outcome_bind] in Hf. rewrite Hc2 in Hf. cbn [mbind outcome_bind] in Hf. injection Hf as <-.
      cbn [app]. by rewrite <- app_assoc. }
    assert (forallb emitted (op_ AVMOpcode.Rpush di :: c1 ++ c2) = true) as Hem.
    { cbn [forallb]. rewrite forallb_app, (read_code_emitted _ _ _ _ _ Hc1), (read_code_emitted _ _ _ _ _ Hc2). done. }
    exists (pos p + length (op_ AVMOpcode.Rpush di :: c1 ++ c2)), (Instruction.from_opcode (Opcode.AVM op) di),
      (mkView (Value.CodePoint cp :: (R <$> s)) va vr). split_and!.
    + eapply run_piece; [exact Ho|reflexivity|exact Hem|]. erewrite run_op by reflexivity. erewrite run_code_app by exact Hr1. exact Hr2.
    + apply (piece_lookup p _ _ (Instruction.from_opcode (Opcode.AVM op) di) Ho). by apply list_lookup_middle.
    + done.
    + cbn. unfold resolve. cbn. unfold code_point. by rewrite Hcp.
    + rewrite Hpos, length_app. cbn [length]. lia.
Qed.

(** The two machines stand at the same instruction with the same data. *)
Definition low_rel (m : vm) (m' : asm) : Prop :=
  a_pc m' = pos (vm_pc m) ∧ view_rel (vm_stack m) (vm_aux m) (vm_globals m) (a_view m').

Lemma resolve_label l cp : lm !! l = Some cp → R (Value.Label l) = Value.CodePoint cp.
Proof using Type. intros Hl. cbn. unfold code_point. by rewrite Hl. Qed.

(** A machine instruction that goes on to the next one. *)
Lemma low_avm p op imm di s a g s' a' g' v : C !! p = Some (Instruction.mk (Opcode.AVM op) imm di) →
  Assembly.is_jump op = false → vm_exec (frame_size C p) (Instruction.mk (Opcode.AVM op) imm di) s a g = Some (s', a', g') →
  view_rel s a g v → ∃ v', asm_star lm D (mkAsm (pos p) v) (mkAsm (pos (S p)) v') ∧ view_rel s' a' g' v'.
Proof using low gt_ok.
  intros Hi Hj He Hv. destruct (fetch p op imm di s a g v Hi Hv) as (q & i' & v1 & Hstar & Hq & Hop & Himm & Hpos).
  rewrite Hpos. destruct Hv as (Hs & Ha & Hg).
  assert (straight i' = true) as Hst by (unfold straight; by rewrite Hop, Hj).
  assert (∀ v', bool_view_op op (mkView (R <$> option_list imm ++ s) (v_aux v) (v_reg v)) = Some v' →
    asm_star lm D (mkAsm (pos p) v) (mkAsm (S q) v')) as Hgo.
  { intros v' Hv'. eapply rtc_r; [exact Hstar|]. eapply asm_op; [exact Hq|exact Hst|]. unfold step. rewrite Hop, Himm. exact Hv'. }
  destruct (decide (op = AVMOpcode.AuxPush)) as [->|H1].
  { unfold vm_exec in He. cbn [Instruction.opcode Instruction.immediate] in He.
    destruct (option_list imm ++ s) as [|x s1]; [done|]. injection He as <- <- <-.
    eexists. split; [by apply Hgo|]. split_and!; [done|by constructor|done]. }
  destruct (decide (op = AVMOpcode.AuxPop)) as [->|H2].
  { unfold vm_exec in He. cbn [Instruction.opcode Instruction.immediate] in He.
    destruct a as [|[x|fr] a]; try done. injection He as <- <- <-. destruct v as [vs va vr]. cbn in Ha, Hg, Hgo.
    destruct va as [|w va]; [by apply Forall2_cons_nil_inv in Ha|]. apply Forall2_cons_1 in Ha as [Hw Ha].
    cbn in Hw. subst w. eexists. split; [by apply Hgo|]. by split_and!. }
  rewrite exec_avm in He by done. apply bind_Some in He as (s1 & Hs1 & [= <- <- <-]).
  eexists. split; [apply Hgo, on_values_bool; exact (on_values_map (code_point lm) _ _ _ Hs1)|]. by split_and!.
Qed.

(** A virtual one. *)
Lemma low_virtual p (i : insn) s a g s' a' g' v : C !! p = Some i → Instruction.get_label i = None →
  (∀ op, Instruction.opcode i ≠ Opcode.AVM op) → vm_exec (frame_size C p) i s a g = Some (s', a', g') →
  view_rel s a g v → ∃ v', asm_star lm D (mkAsm (pos p) v) (mkAsm (pos (S p)) v') ∧ view_rel s' a' g' v'.
Proof using low gt_ok.
  intros Hi Hl Hop He Hv. destruct (lw_piece low p i Hi) as (lt & grp & out & Hlt & Hgrp & Hf & Ho).
  assert (grp = [i]) as ->.
  { destruct Hgrp as [->|(l & k & Himm & _)].
    - unfold xform_external. destruct (Instruction.opcode i) eqn:E; try done. unfold vm_exec in He. by rewrite E in He.
    - unfold vm_exec in He. rewrite Himm in He. destruct (Instruction.opcode i) eqn:E; try done; try (by destruct (Hop op)).
      + by destruct a as [|[] ?]; try destruct (Nat.eqb _ _).
      + by destruct a as [|[] ?], s; try destruct (Nat.eqb _ _).
      + by destruct s.
      + by destruct s as [|? []]. }
  cbn [fix_tuple_size_loop] in Hf. destruct (fix_insn gt lt i) as [[c lt']| |] eqn:Ef; try done.
  cbn [mbind outcome_bind] in Hf. rewrite app_nil_r in Hf. injection Hf as <-.
  destruct (lower_virtual _ lt i s a g s' a' g' v c lt' Hlt Hl Hop He Ef Hv) as (v' & Hrun & Hv' & Hem).
  exists v'. split; [|done]. destruct (pos_split p c Ho) as [_ ->].
  eapply run_piece; [exact Ho|by rewrite app_nil_r|done|done].
Qed.

(** A return: the frame goes, the address below it is the target. *)
Lemma low_return p (i : insn) fr l pr s a g v : C !! p = Some i → Instruction.opcode i = Opcode.Return →
  Instruction.immediate i = None → find_label C l = Some pr → view_rel s (Frame fr :: Plain (Value.Label l) :: a) g v →
  ∃ v', asm_star lm D (mkAsm (pos p) v) (mkAsm (pos pr) v') ∧ view_rel s a g v'.
Proof using low.
  intros Hi Hop Himm Hl (Hs & Ha & Hg). destruct (label_target l pr Hl) as (cp & Hcp & Ht).
  destruct v as [vs va vr]. cbn in Hs, Ha, Hg. subst vs.
  destruct va as [|w va]; [by apply Forall2_cons_nil_inv in Ha|]. apply Forall2_cons_1 in Ha as [_ Ha].
  destruct va as [|w' va]; [by apply Forall2_cons_nil_inv in Ha|]. apply Forall2_cons_1 in Ha as [Hw Ha].
  change (w' = R (Value.Label l)) in Hw. rewrite (resolve_label l cp Hcp) in Hw. subst w'.
  destruct i as [op imm di]. cbn in Hop, Himm. subst op imm.
  destruct (lw_piece low p _ Hi) as (lt & grp & out & _ & [->|(l' & k & Himm & _)] & Hf & Ho); [|done].
  injection Hf as <-.
  exists (mkView (R <$> s) va vr). split; [|by split_and!].
  eapply rtc_r.
  - eapply (run_piece p _ [op_ AVMOpcode.AuxPop di; op_ AVMOpcode.Pop di; op_ AVMOpcode.AuxPop di] [op_ AVMOpcode.Jump di]);
      [exact Ho|done|done|reflexivity].
  - eapply (asm_jump _ _ _ (mkView (Value.CodePoint cp :: (R <$> s)) va vr) (op_ AVMOpcode.Jump di) cp (R <$> s));
      [|done|done|done]. by apply (piece_lookup p _ 3 (op_ AVMOpcode.Jump di) Ho).
Qed.

Lemma push_imm_rest (i : insn) v : v_aux (push_imm i v) = v_aux v ∧ v_reg (push_imm i v) = v_reg v.
Proof using Type. unfold push_imm. by destruct (Instruction.immediate i). Qed.

Lemma low_step m m1 m' : vm_step C m = Some m1 → low_rel m m' → ∃ m1', asm_star lm D m' m1' ∧ low_rel m1 m1'.
Proof using low gt_ok.
  intros (i & Hi & Hs)%bind_Some [Hpc Hv]. destruct m as [p s a g], m' as [pc v]. cbn in Hpc, Hv, Hi, Hs. subst pc.
  assert (Instruction.opcode i ≠ Opcode.AVM AVMOpcode.Jump → Instruction.opcode i ≠ Opcode.AVM AVMOpcode.Cjump →
    (x ← vm_exec (frame_size C p) i s a g; let '(s, a, g) := x in Some (mkVm (S p) s a g)) = Some m1 →
    ∃ m1', asm_star lm D (mkAsm (pos p) v) m1' ∧ low_rel m1 m1') as Hexec.
  { intros Hj Hcj ([[s1 a1] g1] & He & [= <-])%bind_Some. destruct (Instruction.get_label i) as [l|] eqn:Hl.
    - pose proof (label_piece p i l Hi Hl) as Ho. destruct (pos_split p _ Ho) as [_ Hpos].
      assert ((s1, a1, g1) = (s, a, g)) as [= -> -> ->].
      { unfold vm_exec in He. rewrite (lw_bare low p i l Hi Hl) in He. unfold Instruction.get_label in Hl.
        destruct (Instruction.opcode i); try done. congruence. }
      exists (mkAsm (pos (S p)) v). split; [|by split]. rewrite Hpos. cbn [length]. rewrite Nat.add_1_r. apply rtc_once.
      apply (asm_label _ _ _ _ (resolve_insn lm i) l); [|done]. rewrite <- (Nat.add_0_r (pos p)). by apply (piece_lookup p [i]).
    - destruct i as [op imm di]. cbn in Hj, Hcj.
      assert (∃ v', asm_star lm D (mkAsm (pos p) v) (mkAsm (pos (S p)) v') ∧ view_rel s1 a1 g1 v') as (v' & Hstar & Hv').
      { destruct op as [ | | | | | | | | | | | | | | | | op]; try (by eapply low_virtual). eapply low_avm; [exact Hi|by destruct op|done|done]. }
      by exists (mkAsm (pos (S p)) v'). }
  unfold vm_step_at in Hs. destruct i as [op imm di]. cbn [Instruction.opcode Instruction.immediate] in *.
  destruct op as [ | | | | | | | | | | | | | | | | op]; try (by apply Hexec).
  - destruct a as [|[|fr] [|[[| | |l|]|] a]], imm; try done. apply bind_Some in Hs as (pr & Hpr & [= <-]).
    destruct (low_return p _ fr l pr s a g v Hi eq_refl eq_refl Hpr Hv) as (v' & Hstar & Hv'). by exists (mkAsm (pos pr) v').
  - destruct op; try (by apply Hexec);
      destruct (fetch p _ imm di s a g v Hi Hv) as (q & i' & v1 & Hstar & Hq & Hop & Himm & Hpos); destruct Hv as (_ & Ha & Hg).
    + destruct (option_list imm ++ s) as [|[| | |l|] s1] eqn:Es; try done. apply bind_Some in Hs as (pr & Hpr & [= <-]).
      destruct (label_target l pr Hpr) as (cp & Hcp & Ht). rewrite fmap_cons, (resolve_label l cp Hcp) in Himm.
      eexists. split; [eapply rtc_r; [exact Hstar|]; eapply asm_jump; [exact Hq|exact Hop|by rewrite Himm|exact Ht]|].
      split; [done|]. assert (v_aux v1 = v_aux v ∧ v_reg v1 = v_reg v) as [E1 E2].
      { destruct (push_imm_rest i' v1) as [<- <-]. by rewrite Himm. }
      split_and!; [done|cbn; by rewrite E1|cbn; by rewrite E2].
    + destruct (option_list imm ++ s) as [|[| | |l|] [|[c| | | |] s1]] eqn:Es; try done. apply bind_Some in Hs as (pr & Hpr & [= <-]).
      destruct (label_target l pr Hpr) as (cp & Hcp & Ht). rewrite !fmap_cons, (resolve_label l cp Hcp) in Himm.
      assert (v_aux v1 = v_aux v ∧ v_reg v1 = v_reg v) as [E1 E2].
      { destruct (push_imm_rest i' v1) as [<- <-]. by rewrite Himm. }
      destruct (Z.eqb_spec c 0) as [->|Hc].
      * eexists. split; [eapply rtc_r; [exact Hstar|]; eapply asm_cjump_not; [exact Hq|exact Hop|by rewrite Himm]|].
        split; [done|]. split_and!; [done|cbn; by rewrite E1|cbn; by rewrite E2].
      * eexists. split; [eapply rtc_r; [exact Hstar|]; eapply asm_cjump; [exact Hq|exact Hop|by rewrite Himm|exact Hc|exact Ht]|].
        split; [done|]. split_and!; [done|cbn; by rewrite E1|cbn; by rewrite E2].
Qed.

(** What the virtual machine does, the lowered program does. *)
Lemma lowering_simulates m m1 m' : star C m m1 → low_rel m m' → ∃ m1', asm_star lm D m' m1' ∧ low_rel m1 m1'.
Proof using low gt_ok.
  intros Hs. revert m'. induction Hs as [m|m m1 m2 Hstep _ IH]; intros m' Hr; [exists m'; split; [apply rtc_refl|done]|].
  destruct (low_step _ _ _ Hstep Hr) as (m1' & H1 & Hr1). destruct (IH _ Hr1) as (m2' & H2 & Hr2).
  exists m2'. split; [by etrans|done].
Qed.
End lowering.

(** ** The passes *)

(** The shape of the locals after a piece of code. *)
Definition locals_after (lt : TupleTree) (c : list insn) : TupleTree :=
  foldl (λ lt i, match made_frame i with Some n => default lt (tree_new n true) | None => lt end) lt c.

Lemma fix_insn_locals gt lt i c lt' : fix_insn gt lt i = Ok (c, lt') → lt' = locals_after lt [i].
Proof.
  unfold fix_insn, locals_after, made_frame. cbn [foldl]. destruct (Instruction.opcode i); intros Hf;
    repeat match type of Hf with
    | mbind _ ?x = _ => let E := fresh "E" in destruct x eqn:E; try discriminate Hf; cbn [mbind outcome_bind] in Hf
    end; injection Hf as <- <-; try done.
  unfold unwrap in E. destruct (tree_new ntotal true); [by injection E as <-|done].
Qed.

Lemma fix_loop_app gt lt c1 c2 out : fix_tuple_size_loop gt lt (c1 ++ c2) = Ok out →
  ∃ o1 o2, fix_tuple_size_loop gt lt c1 = Ok o1 ∧ fix_tuple_size_loop gt (locals_after lt c1) c2 = Ok o2 ∧ out = o1 ++ o2.
Proof.
  revert lt out. induction c1 as [|i c1 IH]; intros lt out Hf; [by exists [], out|]. cbn [app fix_tuple_size_loop] in *.
  destruct (fix_insn gt lt i) as [[c lt']| |] eqn:E; try done. cbn [mbind outcome_bind] in *.
  pose proof (fix_insn_locals _ _ _ _ _ E) as ->.
  destruct (fix_tuple_size_loop gt _ (c1 ++ c2)) as [rest| |] eqn:Er; try done. cbn [mbind outcome_bind] in Hf. injection Hf as <-.
  destruct (IH _ _ Er) as (o1 & o2 & H1 & H2 & ->). exists (c ++ o1), o2. rewrite H1. split_and!; [done|exact H2|by rewrite app_assoc].
Qed.

Lemma fix_loop_groups gt groups : ∀ lt out, fix_tuple_size_loop gt lt (concat groups) = Ok out →
  ∃ outs, out = concat outs ∧ ∀ p grp, groups !! p = Some grp → ∃ o, outs !! p = Some o ∧
    fix_tuple_size_loop gt (locals_after lt (concat (take p groups))) grp = Ok o.
Proof.
  induction groups as [|g groups IH]; intros lt out Hf; [injection Hf as <-; by exists []|]. cbn [concat] in Hf.
  apply fix_loop_app in Hf as (o1 & o2 & H1 & H2 & ->). destruct (IH _ _ H2) as (outs & -> & Ho).
  exists (o1 :: outs). split; [done|]. intros [|p] grp Hp; [injection Hp as <-; by exists o1|].
  destruct (Ho p grp Hp) as (o & Hop & Hfo). exists o. split; [done|]. cbn [take concat]. unfold locals_after in *. by rewrite foldl_app.
Qed.

(** A group reserves the frame that its instruction reserves. *)
Lemma group_locals jt gidx (i : insn) grp lt : via_table jt gidx i grp → locals_after lt grp = locals_after lt [i].
Proof.
  assert (∀ lt j, locals_after lt (xform_external (length jt) j) = locals_after lt [j]) as Hx.
  { intros lt0 [op imm di]. unfold xform_external, locals_after. cbn [Instruction.opcode].
    destruct op; try done. by destruct imm. }
  intros [->|(l & k & _ & _ & ->)]; [apply Hx|]. unfold locals_after in *. rewrite foldl_app. cbn [foldl].
  rewrite Hx. done.
Qed.

Lemma locals_size jt gidx code groups : Forall2 (via_table jt gidx) code groups → ∀ n lt, tree_new n true = Some lt →
  tree_new (foldl (λ n i, default n (made_frame i)) n code) true = Some (locals_after lt (concat groups)).
Proof.
  induction 1 as [|i g code groups Hg _ IH]; intros n lt Hn; [done|]. cbn [foldl concat].
  change (locals_after lt (g ++ concat groups)) with (foldl (λ lt i, match made_frame i with Some n => default lt (tree_new n true) | None => lt end) lt (g ++ concat groups)).
  rewrite foldl_app. apply IH. change (tree_new (default n (made_frame i)) true = Some (locals_after lt g)).
  rewrite (group_locals _ _ _ _ lt Hg). unfold locals_after. cbn [foldl]. destruct (made_frame i) as [k|]; [|exact Hn].
  change (default n (Some k)) with k. destruct (tree_new_spec k true) as (t & Ht & _). by rewrite Ht.
Qed.

Lemma passes_lowered lm gt jtv C C2 C3 imps jt gidx cps :
  fix_nonforward_labels C imps gidx = (C2, jt) → fix_tuple_size C2 (S gidx) = Ok C3 → tree_new (S gidx) false = Some gt →
  lookup_all jt lm = Ok cps → jump_table_to_value cps = Some jtv →
  (∀ l p, find_label C l = Some p → is_Some (lm !! l)) →
  (∀ p (i : insn) l, C !! p = Some i → Instruction.get_label i = Some l → Instruction.immediate i = None) →
  ∃ outs, lowered lm gt jtv C C3 jt gidx cps outs.
Proof.
  intros Hfix Htup Hgt Hcps Hjtv Hlm Hbare. destruct (fix_nonforward_groups _ _ _ _ _ Hfix) as (_ & groups & -> & Hg).
  unfold fix_tuple_size in Htup. destruct (tree_new_spec 1 true) as (lt & Hlt & _). rewrite Hlt, Hgt in Htup.
  cbn [unwrap mbind outcome_bind] in Htup. destruct (fix_loop_groups _ _ _ _ Htup) as (outs & -> & Ho).
  apply lookup_all_ok in Hcps. exists outs. split; try done.
  - intros p i Hi. destruct (Forall2_lookup_l _ _ _ _ _ Hg Hi) as (grp & Hgrp & Hv). destruct (Ho p grp Hgrp) as (o & Hop & Hf).
    eexists _, grp, o. split_and!; [|done|exact Hf|done]. unfold frame_size.
    exact (locals_size jt gidx (take p C) (take p groups) (Forall2_take _ _ _ p Hg) 1 lt Hlt).
  - intros k l Hk. destruct (Forall2_lookup_l _ _ _ _ _ Hcps Hk) as (cp & Hcp & Hl). by exists cp.
  - destruct (tree_new_spec (length cps) false) as (t & Ht & Hok & Hsz). exists t.
    rewrite (Forall2_length Hcps). split; [done|]. unfold jump_table_to_value in Hjtv. rewrite Ht in Hjtv.
    cbn [mbind option_bind] in Hjtv. apply leaves_make; [done|by rewrite length_fmap|done].
  - by destruct (tree_new_inv _ _ _ Hgt).
Qed.

(** ** Labels through the passes *)
Lemma defined_labels_app c1 c2 : defined_labels (c1 ++ c2) = defined_labels c1 ++ defined_labels c2.
Proof. apply omap_app. Qed.

Lemma emitted_labels c : forallb emitted c = true → defined_labels c = [].
Proof.
  induction c as [|i c IH]; [done|]. cbn [forallb]. intros [Hi Hc]%andb_prop. rewrite defined_labels_cons, (IH Hc).
  unfold emitted, Instruction.get_label in *. by destruct (Instruction.opcode i).
Qed.

Lemma fix_insn_labels gt lt (i : insn) c lt' : fix_insn gt lt i = Ok (c, lt') → defined_labels c = option_list (Instruction.get_label i).
Proof.
  unfold fix_insn, Instruction.get_label. destruct (Instruction.opcode i) eqn:Eop; intros Hf;
    repeat match type of Hf with
    | mbind _ ?x = _ => let E := fresh "E" in destruct x eqn:E; try discriminate Hf; cbn [mbind outcome_bind] in Hf
    end; injection Hf as <- <-;
    try (rewrite defined_labels_cons; unfold Instruction.get_label; by rewrite Eop).
  - by eapply emitted_labels, read_code_emitted.
  - by eapply emitted_labels, write_code_emitted.
  - destruct return_address, (Instruction.immediate i); cbn [app];
      by rewrite !defined_labels_cons, (emitted_labels _ (write_args_emitted _ _ _ _ _ E0)).
  - by eapply emitted_labels, read_code_emitted.
  - by eapply emitted_labels, write_code_emitted.
  - unfold unwrap in E. destruct (array_code _ _ _) eqn:Ea; [|done]. injection E as <-. by eapply emitted_labels, array_code_emitted.
  - rewrite defined_labels_cons. by rewrite (emitted_labels _ (read_code_emitted _ _ _ _ _ E)).
  - rewrite defined_labels_cons, defined_labels_app. by rewrite (emitted_labels _ (write_code_emitted _ _ _ _ _ E)).
  - done.
Qed.

Lemma fix_loop_labels gt c : ∀ lt out, fix_tuple_size_loop gt lt c = Ok out → defined_labels out = defined_labels c.
Proof.
  induction c as [|i c IH]; intros lt out Hf; [by injection Hf as <-|]. cbn [fix_tuple_size_loop] in Hf.
  destruct (fix_insn gt lt i) as [[c' lt']| |] eqn:E; try done. cbn [mbind outcome_bind] in Hf.
  destruct (fix_tuple_size_loop gt lt' c) as [rest| |] eqn:Er; try done. cbn [mbind outcome_bind] in Hf. injection Hf as <-.
  by rewrite defined_labels_app, defined_labels_cons, (fix_insn_labels _ _ _ _ _ E), (IH _ _ Er).
Qed.

(** The optimiser does not touch labels. *)
Lemma rewrite_top_labels i1 i2 l : rewrite_top i1 i2 [] = Some l →
  defined_labels l = [] ∧ Instruction.get_label i1 = None ∧ Instruction.get_label i2 = None.
Proof.
  unfold rewrite_top, Instruction.get_label. intros Hl. destruct (Instruction.opcode i1) as [ | | | | | | | | | | | | | | | | op1]; try done.
  assert (∀ op imm, avm_imm op i2 = Some imm → match Instruction.opcode i2 with Opcode.Label l => Some l | _ => None end = None) as H2.
  { intros op imm Hi. apply avm_imm_Some in Hi as ->. done. }
  destruct op1, (Instruction.immediate i1); try discriminate;
  repeat match type of Hl with context [avm_imm ?op i2] => let E := fresh "E" in destruct (avm_imm op i2) as [[|]|] eqn:E end;
  simplify_eq; split_and!; try done; by eapply H2.
Qed.

Lemma rewrite_loop_labels fuel l : defined_labels (rewrite_loop fuel l) = defined_labels l.
Proof.
  revert l. induction fuel as [|fuel IH]; intros [|i1 [|i2 rest]]; try done. cbn [rewrite_loop]. rewrite rewrite_top_rest.
  destruct (rewrite_top i1 i2 []) as [l|] eqn:E; [|done]. cbn [fmap option_fmap option_map]. rewrite IH.
  apply rewrite_top_labels in E as (H0 & H1 & H2). rewrite defined_labels_app, !defined_labels_cons, H0, H1, H2. done.
Qed.

Lemma peephole_labels c : defined_labels (peephole c) = defined_labels c.
Proof.
  assert (∀ l, defined_labels (rev l) = rev (defined_labels l)) as Hrev.
  { intros l. induction l as [|i l IH]; [done|]. cbn [rev]. rewrite defined_labels_app, IH, !defined_labels_cons.
    destruct (Instruction.get_label i); cbn; [done|by rewrite app_nil_r]. }
  rewrite peephole_out, Hrev.
  assert (∀ c out, rev (defined_labels (foldl peephole_push out (useless_opcodes_layer c))) = rev (defined_labels out) ++ defined_labels c) as Hfold.
  { clear c. induction c as [|i c IH]; intros out; [by rewrite app_nil_r|]. unfold useless_opcodes_layer. cbn [List.filter].
    fold (useless_opcodes_layer c). rewrite defined_labels_cons. destruct (useless i) eqn:Eu; cbn [negb].
    - rewrite IH. f_equal. unfold useless, Instruction.get_label in *. by destruct (Instruction.opcode i).
    - cbn [foldl]. rewrite IH. unfold peephole_push. rewrite rewrite_loop_labels, defined_labels_cons, app_assoc. f_equal.
      destruct (Instruction.get_label i); cbn; [done|by rewrite app_nil_r]. }
  unfold fold_out. by rewrite Hfold.
Qed.

Lemma passes_labels C imps gidx C2 jt n C3 : fix_nonforward_labels C imps gidx = (C2, jt) → fix_tuple_size C2 n = Ok C3 →
  defined_labels (peephole C3) = defined_labels C.
Proof.
  intros Hfix Htup. rewrite peephole_labels. destruct (fix_nonforward_groups _ _ _ _ _ Hfix) as (_ & groups & -> & Hg).
  rewrite <- (via_table_labels _ _ _ _ Hg). unfold fix_tuple_size in Htup.
  destruct (unwrap (tree_new 1 true)) as [lt| |]; try done. cbn [mbind outcome_bind] in Htup.
  destruct (unwrap (tree_new n false)) as [t| |]; try done. cbn [mbind outcome_bind] in Htup. by eapply fix_loop_labels.
Qed.
