(* ===== verification/Executables.v ===== *)
(** * The compiler is correct: executables

    The whole back end, from type-checked functions to the emulator:
    [mavm_codegen] (src/src/compile/codegen.rs), [link] and [postlink_compile]
    with all their passes (src/src/link/), and [run_one] (src/src/run/emulator.rs).
    [executable_correct]: a call that has a meaning in the reference semantics is
    done by the emulator on the executable.  It composes [calls_ok] (code
    generator), [vm_renamed] (relocation), [lowering_simulates] (jump table,
    variables), [peephole_simulates] (optimiser) and [emulator_simulates]
    (labels, emulator). *)

From Stdlib Require Import ZArith Lia.
From stdpp Require Import relations.
From S2P Require Import Prelude U256 StringTab Pos Opcodes Crypto BufferTree Values RuntimeEnv Machine Insns Emulator EmulatorSafe EmulatorThms StraightLine TupleTree Peephole StripLabels Types TypedAst Link Codegen CodegenThms CodegenModules FixedArray VirtualMachine Semantics CodegenRuns CodegenSound CodegenStatements CodegenCorrect LabelMaps Assembly Lowering.

#[local] Set Warnings "-clear-no-such-hyp".

(** ** Linked programs *)

(** Label instructions carry no immediate. *)
Definition bare_label (i : insn) : bool :=
  match Instruction.opcode i, Instruction.immediate i with Opcode.Label _, Some _ => false | _, _ => true end.

Lemma find_label_defined code l p : find_label code l = Some p → l ∈ defined_labels code ∧
  ∃ i : insn, code !! p = Some i ∧ Instruction.get_label i = Some l.
Proof.
  revert p. induction code as [|i c IH]; intros p Hl; [done|]. cbn [find_label] in Hl. rewrite defined_labels_cons, elem_of_app.
  case_bool_decide as E; [injection Hl as <-; rewrite E; split; [left; by left|by exists i]|].
  apply bind_Some in Hl as (n & Hn & [= <-]). destruct (IH n Hn) as [Hin Hi]. split; [by right|done].
Qed.

Lemma collected code m0 m l : collect_labels code 0 m0 = Ok m → l ∈ defined_labels code → is_Some (m !! l).
Proof.
  intros (_ & _ & Hpos & _)%collect_labels_ok Hl. apply list_elem_of_omap in Hl as (i & Hi & Hl).
  apply list_elem_of_split in Hi as (c1 & c2 & Hc). rewrite (Hpos c1 i c2 l Hc Hl). by eexists.
Qed.

Section program.
Context `{HC : Crypto, HV : Curve}.
Context (progs : list CompiledProgram) (test_mode : bool) (w w' : list CompileError) (program : CompiledProgram) (lp : LinkedProgram).
Hypothesis linked : link progs test_mode w = Some (program, w').
Hypothesis compiled : postlink_compile program test_mode = Ok lp.
Hypothesis labels_bare : forallb bare_label (cp_code program) = true.

(** A run of the virtual machine between two labels is one of the emulator. *)
Lemma vm_program_runs :
  ∃ lm t jtv reg, tree_new (length (Link.globals program)) false = Some t ∧
    leaves t reg = Some (replicate (length (Link.globals program) - 1) Value.none ++ [jtv]) ∧
    (∀ s a r, steps view_op (take (if test_mode then 2 else 3) (lp_code lp)) (mkView s a r)
      = Some (mkView (Value.none :: if test_mode then s else r :: s) a reg)) ∧
    NoDup (defined_labels (cp_code program)) ∧
    ∀ l1 p1 s1 a1 g1 l2 p2 s2 a2 g2 v1,
      find_label (cp_code program) l1 = Some p1 → find_label (cp_code program) l2 = Some p2 →
      star (cp_code program) (mkVm p1 s1 a1 g1) (mkVm p2 s2 a2 g2) → view_rel lm t jtv s1 a1 g1 v1 →
      ∃ k1 k2 cost n v2, lm !! l1 = Some (CodePt.Internal k1) ∧ lm !! l2 = Some (CodePt.Internal k2) ∧
        view_rel lm t jtv s2 a2 g2 v2 ∧
        ∀ M, state M = Running (CodePt.Internal k1) → code M !! 0 = Some (lp_code lp) → view_of M = v1 →
          Uint256.wf (arb_gas_remaining M) → (cost <= arb_gas_remaining M)%Z →
          ∃ total, run_n n M = (Ok true, moved M v2 k2 (arb_gas_remaining M - cost) total).
Proof using linked compiled labels_bare.
  destruct (assembled_code_runs _ _ _ _ _ _ linked compiled)
    as (t & code_2 & jt & code_3 & lm & cps & jtv & reg & Ht & Hreg & Hinit & Hfix & Htup & Hcol & Hcps & Hjtv & Hrun).
  destruct (link_init _ _ _ _ _ linked) as [Hn _]. set (n := length (Link.globals program)) in *.
  pose proof (passes_labels _ _ _ _ _ _ _ Hfix Htup) as Hlabels.
  exists lm, t, jtv, reg. split_and!; [done|done|done|rewrite <- Hlabels; by eapply collect_labels_ok|].
  intros l1 p1 s1 a1 g1 l2 p2 s2 a2 g2 v1 Hl1 Hl2 Hstar Hv1.
  assert (n = S (n - 1)) as En by lia. rewrite En in Htup, Ht.
  assert (∀ p (i : insn) l, cp_code program !! p = Some i → Instruction.get_label i = Some l → Instruction.immediate i = None) as Hbare.
  { intros p i l Hi Hl. pose proof (proj1 (forallb_forall _ _) labels_bare i (proj1 (list_elem_of_In _ _) (list_elem_of_lookup_2 _ _ _ Hi))) as Hb.
    unfold bare_label, Instruction.get_label in *. destruct (Instruction.opcode i), (Instruction.immediate i); done. }
  destruct (passes_lowered lm t jtv _ _ _ _ jt (n - 1) cps Hfix Htup Ht Hcps Hjtv) as (outs & low); [|exact Hbare|].
  { intros l p Hl. eapply collected; [exact Hcol|]. rewrite Hlabels. by apply find_label_defined in Hl as [? _]. }
  destruct (tree_new_inv _ _ _ Ht) as [Hok _].
  destruct (lowering_simulates lm t jtv Hok _ _ _ _ _ _ low _ _ (mkAsm (pos outs p1) v1) Hstar) as ([q2 v2] & Hasm & Hq & Hv2); [by split|].
  cbn in Hq, Hv2. subst q2.
  assert (∀ l p, find_label (cp_code program) l = Some p → ∃ i : insn, code_3 !! pos outs p = Some i ∧ Instruction.get_label i = Some l) as Hat.
  { intros l p Hl. apply find_label_defined in Hl as (_ & i & Hi & Hl). exists i. split; [|done].
    pose proof (label_piece _ _ _ _ _ _ _ _ _ low p i l Hi Hl) as Ho.
    assert (code_3 = List.concat (take p outs) ++ i :: List.concat (drop (S p) outs)) as ->; [|by apply list_lookup_middle].
    rewrite (lw_code _ _ _ _ _ _ _ _ _ low). pose proof (f_equal (@List.concat insn) (take_drop_middle outs p [i] Ho)) as Hc.
    rewrite concat_app in Hc. by symmetry. }
  destruct (Hat l1 p1 Hl1) as (i1 & Hi1 & Hg1), (Hat l2 p2 Hl2) as (i2 & Hi2 & Hg2).
  destruct (Hrun _ i1 l1 v1 _ i2 l2 v2 Hi1 Hg1 Hi2 Hg2 Hasm) as (k1 & k2 & cost & m & Hk1 & Hk2 & Hgo).
  exists k1, k2, cost, m, v2. done.
Qed.
End program.

(** ** The first module of a program *)
Fixpoint no_code_points (v : Value.t) : bool :=
  match v with
  | Value.CodePoint _ => false
  | Value.Tuple vs => forallb no_code_points vs
  | _ => true
  end.
Definition relocatable (i : insn) : bool :=
  match Instruction.immediate i with Some v => no_code_points v | None => true end.

(** What becomes of a label of the first module. *)
Definition first_label (xm : gmap Label.t Label.t) (l : Label.t) : Label.t :=
  let l' := (Label.relocate l 3 0 0).1 in default l' (xm !! l').

Lemma relocate_vmap io eo fo v : ∀ v' m, no_code_points v = true → Value.relocate io eo fo v = Some (v', m) →
  v' = vmap (λ l, Value.Label (Label.relocate l io eo fo).1) v.
Proof.
  induction v as [i|vs IH|cp|l|b] using Value.tree_ind; intros v' m Hn Hr; cbn [Value.relocate] in Hr; try done; try by simplify_eq.
  - apply bind_Some in Hr as ([ws k] & Hr & [= <- _]). apply relocate_list_ok in Hr as [_ Hr]. cbn [vmap]. unfold Value.new_tuple. f_equal.
    cbn [no_code_points] in Hn. revert Hn. induction Hr as [|v w vs ws (j & Hv & _) _ IHr]; [done|].
    cbn [forallb]. intros [H1 H2]%andb_prop. apply Forall_cons_iff in IH as [IH1 IH2].
    rewrite fmap_cons. f_equal; [by eapply IH1|by apply IHr].
  - destruct (Label.relocate l io eo fo) as [l' k] eqn:E. injection Hr as <- _. cbn. by rewrite E.
Qed.

Lemma xlate_vmap xm ρ v : Value.xlate_labels xm (vmap (λ l, Value.Label (ρ l)) v) = vmap (λ l, Value.Label (default (ρ l) (xm !! ρ l))) v.
Proof.
  induction v as [i|vs IH|cp|l|b] using Value.tree_ind; try done.
  - cbn [vmap Value.xlate_labels]. unfold Value.new_tuple. f_equal. induction IH as [|v vs Hv _ IHvs]; [done|].
    cbn [fmap list_fmap List.map]. by rewrite Hv, IHvs.
  - cbn. by destruct (xm !! ρ l).
Qed.

(** Only labels of imports are translated. *)
Definition externals_only (xm : gmap Label.t Label.t) : Prop := ∀ l l', xm !! l = Some l' → ∃ k, l = Label.External k.

Lemma xlate_map_externals em imports : ∀ m ws, externals_only m → externals_only (xlate_map em imports m ws).1.
Proof.
  induction imports as [|imp imports IH]; intros m ws Hm; [done|]. cbn [xlate_map]. destruct (em !! if_name imp); apply IH; [|done].
  intros l l'. destruct (decide (l = Label.External (slot_num imp))) as [->|Hne]; [by eauto|].
  rewrite lookup_insert_ne by done. apply Hm.
Qed.

Lemma relocate_insn xm (i i' : insn) m : externals_only xm → relocatable i = true → Instruction.relocate i 3 0 0 0 = Some (i', m) →
  (∀ k, Instruction.get_label i ≠ Some (Label.External k)) →
  Instruction.xlate_labels i' xm = rename_insn (first_label xm) i.
Proof.
  intros Hx Hn Hr Hl. destruct i as [op imm di]. unfold Instruction.relocate, relocatable, rename_insn, Instruction.get_label in *.
  cbn [Instruction.opcode Instruction.immediate Instruction.debug_info] in *.
  destruct (match op with Opcode.PushExternal _ => _ | _ => _ end) as [op' mx] eqn:Eop.
  assert (op' = rename_op (first_label xm) op) as ->.
  { destruct op; cbn [rename_op]; try (by injection Eop as <- _); try (injection Eop as <- _; f_equal; lia).
    destruct (Label.relocate l 3 0 0) as [l' k] eqn:El. injection Eop as <- _. f_equal. unfold first_label. rewrite El. cbn.
    destruct (xm !! l') as [l2|] eqn:E2; [|done]. apply Hx in E2 as [j ->]. destruct l; try done. by destruct (Hl slot). }
  destruct imm as [v|]; [|by injection Hr as <- _]. apply bind_Some in Hr as ([v' j] & Hv & [= <- _]).
  apply relocate_vmap in Hv as ->; [|done]. unfold Instruction.xlate_labels. cbn. by rewrite xlate_vmap.
Qed.

Lemma xlate_defined xm c : defined_labels ((λ i : insn, Instruction.xlate_labels i xm) <$> c) = defined_labels c.
Proof.
  induction c as [|i c IH]; [done|]. rewrite fmap_cons, !defined_labels_cons, IH. f_equal.
  unfold Instruction.xlate_labels. by destruct (Instruction.immediate i).
Qed.

(** Modules are relocated behind the instructions that [link] puts in front. *)
Lemma relocated_labels progs : ∀ i e sfm offs sfm' f gs rps gs' l, 3 <= i →
  assign_offsets progs i e sfm = Some (offs, sfm') → relocate_all (zip progs offs) f gs = Some (rps, gs') →
  l ∈ defined_labels (List.concat (cp_code <$> rps)) → ∃ l', (Label.relocate l' 3 0 0).1 = l.
Proof.
  induction progs as [|p progs IH]; intros i e sfm offs sfm' f gs rps gs' l Hi Ho Hr Hl.
  { cbn in Ho. injection Ho as <- _. cbn in Hr. injection Hr as <- _. by apply elem_of_nil in Hl. }
  cbn [assign_offsets] in Ho. apply bind_Some in Ho as (path & _ & Ho). apply bind_Some in Ho as ([offs' sfm1] & Ho & [= <- _]).
  cbn [zip zip_with relocate_all] in Hr. apply bind_Some in Hr as ([p' m] & Hp & Hr). apply bind_Some in Hr as ([rest gs1] & Hr & [= <- _]).
  rewrite fmap_cons in Hl. cbn [List.concat] in Hl. rewrite defined_labels_app in Hl.
  apply elem_of_app in Hl as [Hl|Hl]; [|eapply (IH (i + length (cp_code p))); [lia|exact Ho|exact Hr|exact Hl]].
  unfold CompiledProgram_relocate in Hp. apply bind_Some in Hp as ([c k] & Hc & Hp). apply bind_Some in Hp as ([x k'] & _ & [= <- _]).
  cbn [cp_code] in Hl. apply relocate_list_ok in Hc as [_ Hc]. apply list_elem_of_omap in Hl as (j & Hj & Hl).
  apply list_elem_of_lookup in Hj as [q Hq]. destruct (Forall2_lookup_r _ _ _ _ _ Hc Hq) as (j0 & _ & n & Hrel & _).
  destruct j0 as [op imm di]. unfold Instruction.relocate, Instruction.get_label in *. cbn [Instruction.opcode Instruction.immediate Instruction.debug_info] in *.
  destruct (match op with Opcode.PushExternal _ => _ | _ => _ end) as [op' mx] eqn:Eop.
  assert (Instruction.opcode j = op') as Hop.
  { destruct imm; [|by injection Hrel as <- _]. apply bind_Some in Hrel as ([v' j'] & _ & [= <- _]). done. }
  rewrite Hop in Hl. destruct op; try (injection Eop as <- _; done). destruct (Label.relocate l0 i e f) as [l' mx'] eqn:El.
  injection Eop as <- _. injection Hl as <-. destruct l0; cbn in El; injection El as <- _.
  - exists (Label.Func (sid + f)). cbn. f_equal. lia.
  - exists (Label.Anon (n0 + i - 3)). cbn. f_equal. lia.
  - exists (Label.External (slot + e)). cbn. f_equal. lia.
  - by exists (Label.Evm pc).
Qed.

Lemma link_first p progs test_mode w program w' : link (p :: progs) test_mode w = Some (program, w') →
  forallb relocatable (cp_code p) = true → (∀ k, Label.External k ∉ defined_labels (cp_code p)) →
  ∃ t xm rest, externals_only xm ∧
    cp_code program = init_insns test_mode (make_empty t) ++ (rename_insn (first_label xm) <$> cp_code p) ++ rest ∧
    (∀ l, l ∈ defined_labels rest → ∃ l', (Label.relocate l' 3 0 0).1 = l).
Proof.
  intros Hl Hrel Hext. unfold link in Hl. cbn [head mbind option_bind] in Hl.
  apply bind_Some in Hl as ([offs sfm] & Hoffs & Hl). apply bind_Some in Hl as ([rps gs] & Hrps & Hl).
  apply bind_Some in Hl as (init & Hi & Hl).
  pose proof (xlate_map_externals (exports_map (concat (exported_funcs <$> rps))) (concat (imported_funcs <$> rps)) ∅ w) as Hxm.
  destruct (xlate_map _ _ _ _) as [xm w1]. cbn [fst] in Hxm. specialize (Hxm (λ l l' Hl, ltac:(by rewrite lookup_empty in Hl))).
  injection Hl as <- _. cbn [cp_code].
  destruct (tree_new_spec (length (gs ++ [jump_table_decl])) false) as (t & Ht & _).
  rewrite (init_code_eq _ _ t Ht) in Hi. injection Hi as <-.
  cbn [assign_offsets] in Hoffs. apply bind_Some in Hoffs as (path & _ & Hoffs). apply bind_Some in Hoffs as ([offs' sfm1] & Hoffs & [= <- _]).
  cbn [zip zip_with relocate_all] in Hrps. apply bind_Some in Hrps as ([p' m] & Hp & Hrps).
  apply bind_Some in Hrps as ([rest gs1] & Hrest & [= <- _]).
  unfold CompiledProgram_relocate in Hp. apply bind_Some in Hp as ([c k] & Hc & Hp). apply bind_Some in Hp as ([x k'] & _ & [= <- _]).
  exists t, xm. cbn [fmap list_fmap concat cp_code]. eexists. split; [done|]. rewrite !fmap_app. split.
  - f_equal; [|f_equal].
    + rewrite <- (list_fmap_id (init_insns _ _)) at 2. apply list_fmap_ext.
      intros j i Hj. apply plain_xlate. by eapply Forall_lookup_1; [apply init_plain|exact Hj].
    + apply relocate_list_ok in Hc as [_ Hc]. clear -Hc Hrel Hext Hxm. induction Hc as [|i i' l l' (j & Hi & _) _ IH]; [done|].
      cbn [forallb] in Hrel. apply andb_prop in Hrel as [H1 H2]. rewrite !fmap_cons. f_equal.
      * eapply relocate_insn; [done|done|exact Hi|]. intros kx E. apply (Hext kx). rewrite defined_labels_cons, E. by left.
      * apply IH; [done|]. intros kx Hk. apply (Hext kx). rewrite defined_labels_cons. apply elem_of_app. by right.
  - intros l Hl. rewrite xlate_defined in Hl. eapply (relocated_labels progs (3 + length (cp_code p))); [lia|exact Hoffs|exact Hrest|exact Hl].
Qed.

(** ** Calls in a linked program *)
Lemma find_label_total code l : l ∈ defined_labels code → ∃ p, find_label code l = Some p.
Proof.
  induction code as [|i c IH]; intros Hl; [by apply elem_of_nil in Hl|]. cbn [find_label]. rewrite defined_labels_cons, elem_of_app in Hl.
  case_bool_decide as E; [by exists 0|]. destruct Hl as [Hl|Hl].
  - destruct (Instruction.get_label i) as [l'|] eqn:El; [|by apply elem_of_nil in Hl]. apply list_elem_of_singleton in Hl as ->. done.
  - destruct (IH Hl) as [p ->]. by exists (S p).
Qed.

Lemma plain_rename ρ i : plain i → rename_insn ρ i = i.
Proof.
  destruct i as [op imm di]. intros [Hv Hl]. unfold rename_insn. cbn in *. f_equal; [by destruct op|].
  destruct imm as [v|]; [|done]. cbn. f_equal. by apply vmap_free.
Qed.

Lemma plain_label i : plain i → Instruction.get_label i = None.
Proof. intros [Hv _]. unfold virtual, Instruction.get_label in *. by destruct (Instruction.opcode i). Qed.

Lemma rename_label ρ i : Instruction.get_label (rename_insn ρ i) = ρ <$> Instruction.get_label i.
Proof. unfold Instruction.get_label, rename_insn. cbn. by destruct (Instruction.opcode i). Qed.

Lemma rename_frame ρ i : made_frame (rename_insn ρ i) = made_frame i.
Proof. unfold made_frame, rename_insn. cbn. by destruct (Instruction.opcode i). Qed.

Lemma rename_frame_size ρ B rest tl q : q <= length B → frame_size ((rename_insn ρ <$> B) ++ rest) q = frame_size (B ++ tl) q.
Proof.
  intros Hq. unfold frame_size. rewrite !take_app_le by (rewrite ?length_fmap; lia). rewrite <- fmap_take.
  generalize 1. induction (take q B) as [|i c IH]; intros n; [done|]. rewrite fmap_cons. cbn [foldl]. rewrite rename_frame. apply IH.
Qed.

(** A program that begins with the renamed code [B], and the code [B] alone, with
    a label for the place in the program where the run shall end. *)
Section placement.
Context (ρ : Label.t → Label.t) (B rest : list insn) (pr : nat) (end_label : Label.t) (di : DebugInfo).

Abbreviation C := ((rename_insn ρ <$> B) ++ rest).
Hypothesis C_unique : NoDup (defined_labels C).
Hypothesis at_end : C !! pr = Some (Instruction.mk (Opcode.Label (ρ end_label)) None di).

(** The machine stops at the instruction in between. *)
Definition placed_code : list insn :=
  B ++ if bool_decide (end_label ∈ defined_labels B) then []
       else [Instruction.from_opcode (Opcode.PushExternal 0) DebugInfo_default; Instruction.mk (Opcode.Label end_label) None di].
Definition placement (q : nat) : nat := if Nat.leb q (length B) then q else pr + (q - S (length B)).

Lemma placed_lookup q (i : insn) : placed_code !! q = Some i →
  (q < length B ∧ B !! q = Some i) ∨ (q = length B ∧ ∃ k, Instruction.opcode i = Opcode.PushExternal k) ∨
  (q = S (length B) ∧ i = Instruction.mk (Opcode.Label end_label) None di).
Proof using Type.
  unfold placed_code. intros Hi. apply lookup_app_Some in Hi as [Hi|[Hge Hi]]; [left; split; [by eapply lookup_lt_Some|done]|].
  right. case_bool_decide; [by rewrite lookup_nil in Hi|]. destruct (q - length B) as [|[|q']] eqn:Eq; try done; injection Hi as <-.
  - left. split; [lia|by eexists].
  - right. split; [lia|done].
Qed.

Lemma placed_renamed : renamed ρ placed_code C placement.
Proof using C_unique at_end.
  assert (∀ q (i : insn), B !! q = Some i → C !! q = Some (rename_insn ρ i)) as Hin.
  { intros q i Hi. apply lookup_app_l_Some. by rewrite list_lookup_fmap, Hi. }
  split.
  - intros q i Hi Hne. destruct (placed_lookup q i Hi) as [[Hq Hb]|[[_ [k Hk]]|[-> ->]]]; [|by destruct (Hne k)|].
    + unfold placement. rewrite !(proj2 (Nat.leb_le _ _)) by lia. split_and!; [by apply Hin|done|]. intros _.
      apply rename_frame_size. lia.
    + unfold placement. rewrite !(proj2 (Nat.leb_gt _ _)) by lia. replace (pr + (S (length B) - S (length B))) with pr by lia.
      split_and!; [exact at_end|lia|done].
  - intros l q Hl. apply find_label_defined in Hl as (_ & i & Hi & Hl).
    destruct (placed_lookup q i Hi) as [[Hq Hb]|[[_ [k Hk]]|[-> ->]]].
    + unfold placement. rewrite (proj2 (Nat.leb_le _ _)) by lia. eapply find_label_at; [done|by apply Hin|]. by rewrite rename_label, Hl.
    + unfold Instruction.get_label in Hl. by rewrite Hk in Hl.
    + injection Hl as <-. unfold placement. rewrite (proj2 (Nat.leb_gt _ _)) by lia.
      replace (pr + (S (length B) - S (length B))) with pr by lia. by eapply find_label_at.
Qed.

Lemma placed_unique : NoDup (defined_labels B) → NoDup (defined_labels placed_code).
Proof using Type.
  intros Hu. unfold placed_code. rewrite defined_labels_app. case_bool_decide as E; [by rewrite app_nil_r|].
  apply list.NoDup_app. split; [done|]. split; [|apply NoDup_singleton]. intros l Hl Hin%list_elem_of_singleton. by subst.
Qed.

Lemma placed_end : ∃ q, find_label placed_code end_label = Some q ∧ placement q = pr.
Proof using C_unique at_end.
  destruct (find_label_total placed_code end_label) as [q Hq].
  { unfold placed_code. rewrite defined_labels_app. apply elem_of_app. case_bool_decide; [by left|right; by left]. }
  exists q. split; [done|]. pose proof (ren_label _ _ _ _ placed_renamed _ _ Hq) as H1.
  pose proof (find_label_at _ C_unique _ _ _ at_end eq_refl) as H2. congruence.
Qed.
End placement.

Section calls.
Context `{HC : Crypto}.
Context (funcs : list (nat * TypeCheckedFunc)) (st : StringTable.t) (gvs : list GlobalVarDecl) (rb : bool) (w1 w1' : list CompileError)
        (p : CompiledProgram) (progs : list CompiledProgram) (test_mode : bool) (w w' : list CompileError) (program : CompiledProgram).
Hypothesis generated : mavm_codegen funcs st (imported_funcs p) gvs w1 rb = Ok (cp_code p, w1').
Hypothesis funcs_plain : Forall (λ kf, plain_func kf.2) funcs.
Hypothesis names_unique : NoDup ((λ kf, f_name kf.2) <$> funcs).
Hypothesis code_relocatable : forallb relocatable (cp_code p) = true.
Hypothesis linked : link (p :: progs) test_mode w = Some (program, w').
Hypothesis labels_bare : forallb bare_label (cp_code program) = true.
Hypothesis labels_unique : NoDup (defined_labels (cp_code program)).

Abbreviation calls := (call st (import_map (imported_funcs p) ∅) (global_map 0 gvs ∅) rb funcs.*2).

(** A call of a function of the first module, from anywhere in the program. *)
Lemma module_runs : ∃ xm, externals_only xm ∧
  let F := rename (first_label xm) in
  ∀ n l vals g v g' ret pr s a extra, calls n l vals g = Some (v, g') → find_label (cp_code program) ret = Some pr →
    (∀ k, ret ≠ Label.External k) →
    ∃ pl, find_label (cp_code program) l = Some pl ∧
      star (cp_code program)
        (mkVm pl (Value.Label ret :: (F <$> vals) ++ (F <$> s)) (aux_map (λ l, Value.Label (first_label xm l)) <$> a) ((F <$> g) ++ extra))
        (mkVm pr (option_list (F <$> v) ++ (F <$> s)) (aux_map (λ l, Value.Label (first_label xm l)) <$> a) ((F <$> g') ++ extra)).
Proof using generated funcs_plain names_unique code_relocatable linked labels_bare labels_unique.
  destruct (codegen_facts _ _ _ _ _ _ _ _ funcs_plain names_unique generated) as (Hgu & (names & m & Hdef & _) & _).
  destruct (link_first _ _ _ _ _ _ linked code_relocatable) as (t & xm & rest & Hxm & HC' & Hrest).
  { intros k Hk. rewrite Hdef in Hk. apply elem_of_app in Hk as [(? & ? & _)%list_elem_of_fmap|(? & ? & _)%list_elem_of_fmap]; done. }
  exists xm. split; [done|]. intros F n l vals g v g' ret pr s a extra Hcall Hret Hext.
  set (ρ := first_label xm) in *. set (init := init_insns test_mode (make_empty t)) in *.
  assert (Forall plain init) as Hinit by apply init_plain.
  assert (∀ c, Forall plain c → defined_labels c = []) as Hnolabels.
  { induction 1 as [|i c Hi _ IH]; [done|]. by rewrite defined_labels_cons, (plain_label i Hi), IH. }
  assert (cp_code program = (rename_insn ρ <$> (init ++ cp_code p)) ++ rest) as HC2.
  { rewrite HC', fmap_app, <- app_assoc. f_equal. rewrite <- (list_fmap_id init) at 1. symmetry. apply list_fmap_ext.
    intros j i Hj. apply plain_rename. by eapply Forall_lookup_1. }
  assert (∃ ret', ρ ret' = ret) as (ret' & Hret').
  { apply find_label_defined in Hret as (Hin & _). rewrite HC2, defined_labels_app in Hin. apply elem_of_app in Hin as [Hin|Hin].
    - apply list_elem_of_omap in Hin as (i & Hi & Hl). apply list_elem_of_fmap in Hi as (i0 & -> & _). rewrite rename_label in Hl.
      apply fmap_Some in Hl as (l0 & _ & ->). by exists l0.
    - destruct (Hrest ret Hin) as (l0 & Hl0). exists l0. unfold ρ, first_label. rewrite Hl0. cbn.
      destruct (xm !! ret) as [x|] eqn:Ex; [|done]. destruct (Hxm _ _ Ex) as [k Hk]. by destruct (Hext k). }
  pose proof (find_label_defined _ _ _ Hret) as (_ & [op imm di] & Hi & Hl).
  assert (cp_code program !! pr = Some (Instruction.mk (Opcode.Label (ρ ret')) None di)) as Hat.
  { pose proof (proj1 (forallb_forall _ _) labels_bare _ (proj1 (list_elem_of_In _ _) (list_elem_of_lookup_2 _ _ _ Hi))) as Hb.
    unfold bare_label, Instruction.get_label in Hb, Hl. cbn in Hb, Hl. destruct op; try done. injection Hl as ->. rewrite Hret'.
    by destruct imm. }
  rewrite HC2 in labels_unique, Hat, Hret |- *.
  pose proof (placed_renamed ρ (init ++ cp_code p) rest pr ret' di labels_unique Hat) as Hren.
  destruct (placed_end ρ (init ++ cp_code p) rest pr ret' di labels_unique Hat) as (q & Hq & Hpq).
  set (code' := placed_code (init ++ cp_code p) ret' di) in *.
  assert (NoDup (defined_labels code')) as Hu.
  { apply placed_unique. by rewrite defined_labels_app, (Hnolabels _ Hinit). }
  assert (code_is code' (length init) (cp_code p)) as Hplaced.
  { intros j i Hj. unfold code', placed_code. apply lookup_app_l_Some. rewrite lookup_app_r by lia.
    by replace (length init + j - length init) with j by lia. }
  destruct (calls_ok _ _ _ _ _ _ _ _ _ _ generated names_unique funcs_plain Hplaced Hu n _ _ _ _ _ Hcall) as (pl & Hpl & Hrun).
  pose proof (vm_renamed ρ code' _ _ extra _ _ Hren (Hrun ret' q s a Hq)) as Hstar.
  exists (placement (init ++ cp_code p) pr pl). split.
  - pose proof (ren_label _ _ _ _ Hren _ _ Hpl) as Hlab. assert (ρ l = l) as El; [|by rewrite El in Hlab].
    assert (∃ x, l = Label.Func x) as [x ->].
    { destruct n as [|n]; [done|]. cbn [call] in Hcall. apply bind_Some in Hcall as (f & [_ ->]%find_func_elem & _). by eexists. }
    unfold ρ, first_label. cbn. rewrite Nat.add_0_r. destruct (xm !! Label.Func x) as [y|] eqn:Ey; [|done].
    by destruct (Hxm _ _ Ey).
  - unfold ren_vm in Hstar. cbn [vm_pc vm_stack vm_aux vm_globals] in Hstar. rewrite Hpq, fmap_cons, (fmap_app _ vals s), (fmap_app _ (option_list v) s) in Hstar.
    change (rename ρ (Value.Label ret')) with (Value.Label (ρ ret')) in Hstar. rewrite Hret' in Hstar.
    replace (option_list (F <$> v)) with (rename ρ <$> option_list v) by (by destruct v). exact Hstar.
Qed.
End calls.

(** ** The theorem *)
Lemma vmap_compose f f' v : vmap f (vmap (λ l, Value.Label (f' l)) v) = vmap (λ l, f (f' l)) v.
Proof.
  induction v as [i|vs IH|cp|l|b] using Value.tree_ind; try done. cbn [vmap]. f_equal.
  induction IH as [|v vs Hv _ IHvs]; [done|]. rewrite !fmap_cons, Hv. f_equal. exact IHvs.
Qed.

Lemma resolve_rename lm ρ (l : list Value.t) : resolve lm <$> (rename ρ <$> l) = vmap (λ l, code_point lm (ρ l)) <$> l.
Proof. rewrite <- list_fmap_compose. apply list_fmap_ext. intros j v _. apply vmap_compose. Qed.

Lemma free_values f (l : list Value.t) : forallb label_free l = true → vmap f <$> l = l.
Proof.
  induction l as [|v l IH]; [done|]. cbn [forallb]. intros [Hv Hl]%andb_prop. rewrite fmap_cons, (vmap_label_free f v Hv). f_equal. by apply IH.
Qed.

(** The values of the caller on the auxiliary stack. *)
Lemma plain_aux lm ρ a va : forallb label_free a = true →
  Forall2 (aux_rel lm) (aux_map (λ l, Value.Label (ρ l)) <$> (Plain <$> a)) va ↔ va = a.
Proof.
  intros Ha. assert (∀ x, label_free x = true → resolve lm (vmap (λ l, Value.Label (ρ l)) x) = x) as Hx.
  { intros x Hx. rewrite vmap_label_free by done. unfold resolve. by apply vmap_label_free. }
  revert va Ha. induction a as [|x a IH]; intros va Ha.
  - split; [by intros ?%Forall2_nil_inv_l|intros ->; constructor].
  - cbn [forallb] in Ha. apply andb_prop in Ha as [H1 H2]. rewrite !fmap_cons. split.
    + intros Hf. apply Forall2_cons_inv_l in Hf as (y & va' & Hy & Hf & ->). cbn in Hy. rewrite Hx in Hy by done. subst y.
      by apply IH in Hf as ->.
    + intros ->. constructor; [cbn; by rewrite Hx|]. by apply IH.
Qed.

(** C1: the compiler is correct, from type-checked functions to the emulator.
    Let a module be generated from functions and be linked, as the first of any
    number of modules, into an executable.  There are a representation [repr] of
    values, which only puts code points for labels, a shape for the register and
    a jump table, such that whenever a call of a function of the module has a
    meaning in the reference semantics, the emulator does it: started at the
    function's code point, with the address of any label of the program and the
    arguments on the stack and the globals in the register, and with enough gas,
    it arrives after a fixed number of instructions at that label with the result
    in place of the arguments, the globals as the semantics leaves them, and the
    stack below, the auxiliary stack and the globals of the other modules as they
    were.  The first instructions of the executable load a register of this
    shape.  So code generation, relocation, the jump table, the layout of
    variables in nested tuples, the optimiser and the removal of labels together
    preserve the meaning of programs. *)
Theorem executable_correct `{HC : Crypto, HV : Curve} funcs st gvs rb w1 w1' p progs test_mode w w' program lp :
  mavm_codegen funcs st (imported_funcs p) gvs w1 rb = Ok (cp_code p, w1') →
  Forall (λ kf, plain_func kf.2) funcs → NoDup ((λ kf, f_name kf.2) <$> funcs) → forallb relocatable (cp_code p) = true →
  link (p :: progs) test_mode w = Some (program, w') → forallb bare_label (cp_code program) = true →
  postlink_compile program test_mode = Ok lp →
  ∃ (lm : gmap Label.t CodePt.t) repr shape jump_table reg0,
    (∀ name cp, lm !! Label.Func name = Some cp → repr (Label.Func name) = Value.CodePoint cp) ∧
    tree_new (length (Link.globals program)) false = Some shape ∧
    leaves shape reg0 = Some (replicate (length (Link.globals program) - 1) Value.none ++ [jump_table]) ∧
    (∀ s a r, steps view_op (take (if test_mode then 2 else 3) (lp_code lp)) (mkView s a r)
      = Some (mkView (Value.none :: if test_mode then s else r :: s) a reg0)) ∧
    ∀ n l vals g v g' ret s a extra reg,
      call st (import_map (imported_funcs p) ∅) (global_map 0 gvs ∅) rb funcs.*2 n l vals g = Some (v, g') →
      ret ∈ defined_labels (cp_code program) → (∀ k, ret ≠ Label.External k) →
      forallb label_free (s ++ a ++ extra) = true →
      leaves shape reg = Some ((vmap repr <$> g) ++ extra ++ [jump_table]) →
      ∃ kf kr cost k reg', lm !! l = Some (CodePt.Internal kf) ∧ lm !! ret = Some (CodePt.Internal kr) ∧
        leaves shape reg' = Some ((vmap repr <$> g') ++ extra ++ [jump_table]) ∧
        ∀ M, state M = Running (CodePt.Internal kf) → code M !! 0 = Some (lp_code lp) →
          view_of M = mkView (Value.CodePoint (CodePt.Internal kr) :: (vmap repr <$> vals) ++ s) a reg →
          Uint256.wf (arb_gas_remaining M) → (cost <= arb_gas_remaining M)%Z →
          ∃ total, run_n k M = (Ok true, moved M (mkView (option_list (vmap repr <$> v) ++ s) a reg') kr
                                           (arb_gas_remaining M - cost) total).
Proof.
  intros Hgen Hplain Hnames Hrel Hlink Hbare Hpost.
  destruct (vm_program_runs _ _ _ _ _ _ Hlink Hpost Hbare) as (lm & t & jtv & reg0 & Ht & Hreg0 & Hinit & Hu & Hruns).
  destruct (module_runs _ _ _ _ _ _ _ _ _ _ _ _ Hgen Hplain Hnames Hrel Hlink Hbare Hu) as (xm & Hxm & Hmod).
  exists lm, (λ l, code_point lm (first_label xm l)), t, jtv, reg0. split_and!; [|done|done|done|].
  { intros name cp Hcp. unfold first_label. cbn. rewrite Nat.add_0_r.
    destruct (xm !! Label.Func name) as [x|] eqn:Ex; [by destruct (Hxm _ _ Ex)|]. cbn. unfold code_point. by rewrite Hcp. }
  intros n l vals g v g' ret s a extra reg Hcall Hret Hext Hfree Hreg. rewrite !forallb_app in Hfree.
  apply andb_prop in Hfree as [Hs [Ha Hx]%andb_prop]. destruct (find_label_total _ _ Hret) as [pr Hpr].
  set (ρ := first_label xm) in *. set (repr := λ l, code_point lm (ρ l)) in *.
  destruct (Hmod n l vals g v g' ret pr s (Plain <$> a) extra Hcall Hpr Hext) as (pl & Hpl & Hstar).
  assert (resolve lm <$> (rename ρ <$> s) = s) as Es by (rewrite resolve_rename; by apply free_values).
  assert (∀ g, resolve lm <$> ((rename ρ <$> g) ++ extra) = (vmap repr <$> g) ++ extra) as Eg.
  { intros g0. rewrite fmap_app, resolve_rename. f_equal. by apply free_values. }
  destruct (Hruns l pl _ _ _ ret pr _ _ _ (mkView (code_point lm ret :: (vmap repr <$> vals) ++ s) a reg) Hpl Hpr Hstar)
    as (kf & kr & cost & k & [s2 a2 reg'] & Hkf & Hkr & (Hs2 & Ha2 & Hg2) & Hgo).
  { split_and!; cbn [v_stack v_aux v_reg].
    - rewrite fmap_cons, fmap_app, resolve_rename, Es. done.
    - by apply plain_aux.
    - by rewrite Eg, <- app_assoc. }
  cbn [v_stack v_aux v_reg] in Hs2, Ha2, Hg2. apply plain_aux in Ha2 as ->; [|done].
  exists kf, kr, cost, k, reg'. split_and!; [done|done|by rewrite Hg2, Eg, <- app_assoc|].
  intros M Hst Hc Hv Hwf Hle. destruct (Hgo M) as (total & Hrun); try done.
  { rewrite Hv. unfold code_point. by rewrite Hkr. }
  exists total. rewrite Hrun, Hs2, fmap_app, Es. destruct v as [x|]; [|done].
  assert (resolve lm (rename ρ x) = vmap repr x) as Ex by exact (vmap_compose (code_point lm) ρ x). cbn [option_list fmap option_fmap option_map].
  by rewrite <- Ex.
Qed.

(** ** An example *)

(** The recursive factorial, linked with a second module whose loop the call
    returns to. *)
Definition fact_module : CompiledProgram :=
  mkCompiledProgram fact_code [] [] fact_globals (Some (SourceFileMap.new (length fact_code) "fact.mini")) ∅.
Definition fact_progs : list CompiledProgram := [fact_module; demo_module Value.none [] []].
Definition fact_linked : CompiledProgram := default fact_module (fst <$> link fact_progs false []).
Definition fact_executable : LinkedProgram :=
  match postlink_compile fact_linked false with
  | Ok lp => lp
  | _ => mkLinkedProgram [] Value.none [] ∅
  end.

(** [fact(5)] is 120 on the emulator, after six calls. *)
Lemma executable_correct_witness :
  ∃ kf kr jump_table cost k, ∀ M, state M = Running (CodePt.Internal kf) → code M !! 0 = Some (lp_code fact_executable) →
    view_of M = mkView [Value.CodePoint (CodePt.Internal kr); Value.Int 5; Value.Int 77] []
                  (Value.Tuple [Value.Int 0; Value.none; jump_table]) →
    Uint256.wf (arb_gas_remaining M) → (cost <= arb_gas_remaining M)%Z →
    ∃ total, @run_n toy_crypto toy_curve k M
      = (Ok true, moved M (mkView [Value.Int 120; Value.Int 77] [] (Value.Tuple [Value.Int 6; Value.none; jump_table])) kr
                    (arb_gas_remaining M - cost) total).
Proof.
  destruct (executable_correct (HC := toy_crypto) (HV := toy_curve) [(1, fact_f)] StringTable.new fact_globals false [] []
              fact_module [demo_module Value.none [] []] false [] [] fact_linked fact_executable)
    as (lm & repr & shape & jt & reg0 & _ & Hshape & _ & _ & Hcalls).
  - vm_compute. reflexivity.
  - apply fact_plain.
  - apply (bool_decide_unpack _). vm_compute. done.
  - vm_compute. reflexivity.
  - vm_compute. reflexivity.
  - vm_compute. reflexivity.
  - vm_compute. reflexivity.
  - vm_compute in Hshape. injection Hshape as <-.
    destruct (Hcalls 10 (Label.Func 1) [Value.Int 5] [Value.Int 0] (Some (Value.Int 120)) [Value.Int 6]
                (Label.Func 2) [Value.Int 77] [] [Value.none] (Value.Tuple [Value.Int 0; Value.none; jt]))
      as (kf & kr & cost & k & reg' & _ & _ & Hreg & Hgo).
    + vm_compute. reflexivity.
    + apply (bool_decide_unpack _). vm_compute. done.
    + done.
    + reflexivity.
    + reflexivity.
    + exists kf, kr, jt, cost, k. assert (reg' = Value.Tuple [Value.Int 6; Value.none; jt]) as Er; [|by rewrite Er in Hgo].
      apply (leaves_inj (Tree 3 [Single; Single; Single]) _ _ [Value.Int 6; Value.none; jt]); [|done|done].
      destruct (tree_new_ok 3 false) as (t & Ht & Hok & _); [lia..|]. vm_compute in Ht. by injection Ht as <-.
Defined.

