(* ===== verification/TypeSoundness.v ===== *)
(** * Type soundness of modules (src/src/compile/typecheck.rs)

    The declarations of a file are sorted and type checked; then a call of any
    of its functions with arguments of the declared types, from well-typed
    globals, gives a value of the declared type and leaves the globals well
    typed.  With the correctness of the code generator the same holds of the
    compiled code. *)

From Stdlib Require Import ZArith Lia Sorted.
From S2P Require Import Prelude U256 StringTab Pos Opcodes Crypto BufferTree Values Insns InsnFacts StraightLine TupleTree StripLabels Types TypesThms TypedAst Ast Link Codegen CodegenThms CodegenModules TypecheckOps Typecheck FixedArray ValueTypes VirtualMachine Semantics TypeSound TypecheckSound CodegenRuns CodegenSound CodegenStatements CodegenCorrect.

#[local] Set Warnings "-clear-no-such-hyp,-register-all".

(** ** What the declarations become *)
Lemma btree_insert_elem {A} k (a : A) l x : x ∈ btree_insert k a l → x = (k, a) ∨ x ∈ l.
Proof.
  induction l as [|[k' a'] l IH]; cbn [btree_insert]; [set_solver|]. destruct (Nat.ltb k k'); [set_solver|].
  destruct (Nat.eqb k k'); set_solver.
Qed.

(** The parser makes functions with [Func::new]. *)
Definition func_declared (f : Ast.Func) : Prop :=
  ∃ impure, Ast.tipe f = Tipe.Func impure (fa_tipe <$> Ast.args f) (Ast.ret_type f).
Definition decl_ok (d : Ast.TopLevelDecl) : Prop := match d with Ast.FuncDecl f => func_declared f | _ => True end.

(** Every function is in the table with its type. *)
Definition sorted_ok (d : sorted_decls) : Prop := ∀ id f, (id, f) ∈ sd_funcs d →
  id = Ast.name f ∧ func_declared f ∧ sd_func_table d !! Ast.name f = Some (Ast.tipe f).

Lemma btree_insert_replaces {A} k (a : A) l x : StronglySorted (λ x y, x.1 < y.1) l → x ∈ btree_insert k a l →
  x = (k, a) ∨ x ∈ l ∧ x.1 ≠ k.
Proof.
  induction 1 as [|[k' a'] l Hs IH Hf]; cbn [btree_insert]; [set_solver|].
  rewrite list.Forall_forall in Hf. cbn in Hf.
  destruct (Nat.ltb_spec k k'); [|destruct (Nat.eqb_spec k k')].
  - intros [->|Hx]%elem_of_cons; [by left|right; split; [done|]].
    apply elem_of_cons in Hx as [->|Hx]; [cbn; lia|]. specialize (Hf _ Hx). lia.
  - intros [->|Hx]%elem_of_cons; [by left|right; split; [by right|]]. specialize (Hf _ Hx). lia.
  - intros [->|Hx]%elem_of_cons; [right; split; [by left|cbn; lia]|]. apply IH in Hx as [->|[Hx Hne]]; [by left|right].
    split; [by right|done].
Qed.

Lemma btree_insert_sorted {A} k (a : A) l : StronglySorted (λ x y, x.1 < y.1) l →
  StronglySorted (λ x y : nat * A, x.1 < y.1) (btree_insert k a l).
Proof.
  induction 1 as [|[k' a'] l Hs IH Hf]; cbn [btree_insert]; [repeat constructor|].
  destruct (Nat.ltb_spec k k'); [|destruct (Nat.eqb_spec k k') as [->|]].
  - repeat (constructor; try done). eapply list.Forall_impl; [exact Hf|]. cbn. lia.
  - by constructor.
  - constructor; [done|]. apply list.Forall_forall. intros x Hx. apply btree_insert_elem in Hx as [->|Hx]; [cbn; lia|].
    rewrite list.Forall_forall in Hf. by apply Hf.
Qed.

Lemma sort_ok decls d : Forall decl_ok decls → StronglySorted (λ x y, x.1 < y.1) (sd_funcs d) → sorted_ok d →
  sorted_ok (foldl sort_decl d decls) ∧ StronglySorted (λ x y, x.1 < y.1) (sd_funcs (foldl sort_decl d decls)).
Proof.
  intros Hd. revert d. induction Hd as [|decl decls Hdecl _ IH]; intros d Hs Hok; [done|]. cbn [foldl].
  apply IH; destruct decl as [|f| | |]; try done; cbn [sort_decl sd_funcs]; [by apply btree_insert_sorted|].
  intros id f' Hf. apply btree_insert_replaces in Hf as [[= -> ->]|[Hf Hne]]; [|cbn in Hne|done].
  - cbn [sd_func_table]. by rewrite lookup_insert_eq.
  - destruct (Hok id f' Hf) as (-> & Hd' & Ht). cbn [sd_func_table]. by rewrite lookup_insert_ne by congruence.
Qed.

Lemma sort_top_level_ok decls path builtins : Forall decl_ok decls →
  sorted_ok (sort_top_level_decls decls path builtins) ∧
  StronglySorted (λ x y, x.1 < y.1) (sd_funcs (sort_top_level_decls decls path builtins)).
Proof. intros Hd. apply sort_ok; [done|constructor|]. by intros id f Hf%elem_of_nil. Qed.

(** The places of the globals are distinct. *)
Lemma global_vars_map_spec gvs : ∀ idx m x t i,
  (∀ x t i, m !! x = Some (t, i) → i < idx) → global_vars_map idx gvs m !! x = Some (t, i) →
  m !! x = Some (t, i) ∨ idx <= i ∧ ∃ gv, gvs !! (i - idx) = Some gv ∧ t = gv_tipe gv.
Proof.
  induction gvs as [|gv gvs IH]; intros idx m x t i Hm Hx; [by left|]. cbn [global_vars_map] in Hx.
  apply IH in Hx as [Hx|(Hi & gv' & Hgv & ->)].
  - rewrite lookup_insert in Hx. case_decide; [|by left]. injection Hx as <- <-. right. rewrite Nat.sub_diag. eauto.
  - right. split; [lia|]. exists gv'. by replace (i - idx) with (S (i - S idx)) by lia.
  - intros y t' j Hy. rewrite lookup_insert in Hy. case_decide; [injection Hy as <- <-; lia|]. apply Hm in Hy. lia.
Qed.

Lemma global_places gvs x y t1 t2 i : global_vars_map 0 gvs ∅ !! x = Some (t1, i) →
  global_vars_map 0 gvs ∅ !! y = Some (t2, i) → t1 = t2.
Proof.
  intros Hx Hy. apply global_vars_map_spec in Hx as [|(_ & g1 & H1 & ->)], Hy as [|(_ & g2 & H2 & ->)]; try done. congruence.
Qed.

Lemma import_map_foreign imps : ∀ m name l, (∀ n l, m !! n = Some l → ∃ s, l = Label.External s) →
  import_map imps m !! name = Some l → ∃ s, l = Label.External s.
Proof.
  induction imps as [|f imps IH]; intros m name l Hm Hl; [by eapply Hm|]. eapply IH; [|exact Hl].
  intros n l' Hn. rewrite lookup_insert in Hn. case_decide; [injection Hn as <-; eauto|by eapply Hm].
Qed.

(** ** Checked functions *)
Section checked.
Context `{Crypto} (parse : string → Z → option Z) (fuel : nat) (string_table : StringTable.t).
Context (named_types : gmap nat Tipe.t) (gvm : gmap nat (Tipe.t * nat)) (func_map : gmap nat Tipe.t) (tt : TypeTree).

Definition checks (fd : Ast.Func) (f : TypeCheckedFunc) : Prop := ∃ ids ids',
  typecheck_function parse fuel string_table fd named_types gvm func_map tt ids = Some (Ok (f, ids')).

Lemma typecheck_functions_ok funcs : ∀ ids ex ch ex' ch',
  typecheck_functions parse fuel string_table funcs named_types gvm func_map tt ids ex ch = Some (Ok (ex', ch')) →
  ∀ id f, (id, f) ∈ ch' → (id, f) ∈ ch ∨ ∃ fd, (id, fd) ∈ funcs ∧ checks fd f.
Proof.
  induction funcs as [|[id0 fd] funcs IH]; intros ids ex ch ex' ch' Hk id f Hf; cbn [typecheck_functions] in Hk.
  { injection Hk as <- <-. by left. }
  apply bind_Some in Hk as ([[f0 ids']| |] & Hfd & Hk); try done.
  assert (∃ ids ex, typecheck_functions parse fuel string_table funcs named_types gvm func_map tt ids ex
            (btree_insert id0 f0 ch) = Some (Ok (ex', ch'))) as (ids1 & ex1 & Hk').
  { destruct (Ast.kind fd); [destruct (ExportedFunc_new _ _ _ _); [|done]|]; eauto. }
  destruct (IH _ _ _ _ _ Hk' id f Hf) as [Hin|(fd' & Hin & Hc)].
  - apply btree_insert_elem in Hin as [[= -> ->]|Hin]; [right|by left]. exists fd. split; [by left|by do 2 eexists].
  - right. exists fd'. split; [by right|done].
Qed.

Lemma named_error_ok {A} d ids locs (a : A) : named_error string_table d ids locs = Some (Ok a) → False.
Proof. unfold named_error. by destruct (mapM (StringTable.name_from_id string_table) ids). Qed.

Lemma check_func_args_ok name args ids : ∀ hm hm', check_func_args string_table name args tt ids hm = Some (Ok hm') →
  hm' = extend hm ((λ a, (fa_name a, fa_tipe a)) <$> args).
Proof.
  induction args as [|arg args IH]; intros hm hm' Hk; cbn [check_func_args] in Hk; [by injection Hk|].
  apply bind_Some in Hk as ([r| |] & _ & Hk); [|by apply named_error_ok in Hk|done].
  destruct (ids !! fa_name arg); [by apply named_error_ok in Hk|]. by apply IH in Hk.
Qed.

Lemma checks_spec fd f : checks fd f →
  f_name f = Ast.name fd ∧ f_args f = Ast.args fd ∧ f_ret_type f = Ast.ret_type fd ∧ f_tipe f = Ast.tipe fd ∧
  ∃ ids scopes, typecheck_statement_sequence parse fuel tt (Ast.ret_type fd) gvm func_map ids (Ast.code fd)
    (extend ∅ ((λ a, (fa_name a, fa_tipe a)) <$> Ast.args fd) ∪ named_types) [] = Some (Ok (f_code f, scopes)).
Proof.
  intros (ids & ids' & Hk). unfold typecheck_function, check_last_return in Hk.
  set (k := match ids !! Ast.name fd with Some _ => _ | None => _ end) in Hk.
  assert (k = Some (Ok (f, ids'))) as Hk'.
  { destruct (type_eq _ _); [done|]. destruct (list.last _) as [stat|]; [|by apply named_error_ok in Hk].
    destruct (Ast.statement_kind stat); try done; by apply named_error_ok in Hk. }
  subst k. clear Hk. destruct (ids !! Ast.name fd); [by apply named_error_ok in Hk'|].
  apply bind_Some in Hk' as ([hm| |] & Hargs & Hk); try done. apply check_func_args_ok in Hargs as ->.
  apply bind_Some in Hk as ([[code scopes]| |] & Hseq & [= <- _]). by do 4 (split; [done|]); eauto.
Qed.
End checked.

(** ** Calls *)
Section sound.
Context `{Crypto} (parse : string → Z → option Z) (fuel : nat) (string_table : StringTable.t).
Context (named_types : gmap nat Tipe.t) (gvm : gmap nat (Tipe.t * nat)) (func_map : gmap nat Tipe.t) (tt : TypeTree).
Context (checked : list TypeCheckedFunc) (imports : gmap nat Label.t) (gmap_ : gmap nat nat) (release : bool).

Abbreviation has_type := (has_type tt).
Abbreviation run := (call string_table imports gmap_ release checked).

Definition libraries : list string :=
  ["builtin_arrayNew"; "builtin_arrayGet"; "builtin_arraySet"; "builtin_kvsNew"; "builtin_kvsGet"; "builtin_kvsSet"].

Hypothesis no_void_names : ∀ k t n, tt !! k = Some (t, n) → t ≠ Tipe.Void.
Hypothesis functions_only : ∀ name t, func_map !! name = Some t → ∃ impure ts ret, t = Tipe.Func impure ts ret.
Hypothesis from_declarations : ∀ f, f ∈ checked → ∃ fd, checks parse fuel string_table named_types gvm func_map tt fd f ∧
  func_declared fd ∧ func_map !! Ast.name fd = Some (Ast.tipe fd).
Hypothesis all_careful : ∀ f, f ∈ checked → Forall (careful_stat fuel tt) (f_code f).
Hypothesis imported : ∀ name l, imports !! name = Some l → ∃ s, l = Label.External s.
Hypothesis not_libraries : ∀ b id f, b ∈ "builtin_assert" :: libraries →
  StringTable.get_if_exists string_table b = Some id → f ∈ checked → f_name f ≠ id.
Hypothesis globals_distinct : ∀ x y t1 t2 i, gvm !! x = Some (t1, i) → gvm !! y = Some (t2, i) → t1 = t2.

Lemma run_known n name vals g v g' : run n (func_label imports name) vals g = Some (v, g') →
  ∃ f, f ∈ checked ∧ f_name f = name ∧ func_label imports name = Label.Func name.
Proof using imported.
  intros Hr. destruct n as [|n]; [done|]. cbn [call] in Hr. apply bind_Some in Hr as (f & [Hf Hl]%find_func_elem & _).
  unfold func_label in *. destruct (imports !! name) as [l|] eqn:Ei; [destruct (imported _ _ Ei); congruence|].
  injection Hl as ->. eauto.
Qed.

Lemma args_env args vals : Forall2 has_type vals (fa_tipe <$> args) →
  env_ok tt (rev (zip (fa_name <$> args) vals)) (rev ((λ a, (fa_name a, fa_tipe a)) <$> args)).
Proof using Type.
  intros Hv. apply Forall2_rev. revert vals Hv. induction args as [|a args IH]; intros vals Hv; [constructor|].
  inversion Hv as [|v ? vals' ? Hv1 Hvs]; subst. constructor; [done|]. by apply IH.
Qed.

Lemma sequence_app ms1 ms2 σ : sequence (ms1 ++ ms2) σ = then_sem (sequence ms1) (sequence ms2) σ.
Proof using Type.
  revert σ. induction ms1 as [|m ms1 IH]; intros σ; [done|]. cbn [app sequence]. unfold then_sem at 1 2 3.
  destruct (m σ) as [[o σ1|o σ1]|]; cbn; [apply IH|done|done].
Qed.

Lemma final_return_ok fd f sem_stat tbl tbl' : f_ret_type f = Ast.ret_type fd →
  (∀ di σ, sem_stat (mkStatement SReturnVoid di) σ = Some (RRet None σ)) →
  stats_ok tt (Ast.ret_type fd) gvm tbl tbl' (sequence (map sem_stat (f_code f))) →
  ∃ tbl'', stats_ok tt (Ast.ret_type fd) gvm tbl tbl'' (sequence (map sem_stat (with_final_return f))).
Proof using Type.
  intros Hret Hvoid Hs. unfold with_final_return. destruct (_ && _) eqn:Eb; [|eauto]. apply andb_prop in Eb as [Ev _].
  apply type_eq_spec in Ev. exists tbl'. rewrite map_app. cbn [map].
  intros Δ σ r Ht Hσ Hr. rewrite sequence_app in Hr. revert Δ σ r Ht Hσ Hr. eapply stats_cons; [exact Hs|].
  apply (stats_plain _ _ _ _ Tipe.Void). intros Δ σ r _ [_ Hg] (r1 & Hr1 & Hr)%bind_Some. rewrite Hvoid in Hr1.
  injection Hr1 as <-. injection Hr as <-.
  split; [|done]. left. congruence.
Qed.

(** A function of the table gives what its type says. *)
Lemma run_ok n : ∀ name impure ts ret vals g v g', func_map !! name = Some (Tipe.Func impure ts ret) →
  Forall2 has_type vals ts → globals_ok tt gvm g → run n (func_label imports name) vals g = Some (v, g') →
  gives tt ret v ∧ globals_ok tt gvm g'.
Proof using All.
  induction n as [|n IH]; intros name impure ts ret vals g v g' Hname Hvals Hg Hr; [done|].
  destruct (run_known _ _ _ _ _ _ Hr) as (_ & _ & _ & Hlabel). rewrite Hlabel in Hr. cbn [call] in Hr.
  apply bind_Some in Hr as (f & [Hf [= Hfn]]%find_func_elem & Hr).
  destruct (returns f && _) eqn:Eb; [|done]. apply andb_prop in Eb as [Hret _].
  destruct (from_declarations f Hf) as (fd & Hc & [imp Hd] & Ht).
  destruct (checks_spec _ _ _ _ _ _ _ _ _ Hc) as (Hn & Hargs & Hrt & Htipe & ids & scopes & Hseq).
  rewrite <- Hn, <- Hfn, Hname, Hd in Ht. injection Ht as -> -> ->.
  apply bind_Some in Hr as ([|o σ] & Hrun & [= <- <-]).
  unfold typecheck_statement_sequence, statement_sequence in Hseq. apply tc_bind_ok in Hseq as ([out tbl'] & s1 & Hloop & [= -> ->]).
  destruct (tc_all_ok parse fuel tt (Ast.ret_type fd) gvm func_map ids (run n) string_table imports gmap_ release n) as (_ & Hstat & _);
    [done|done|exact IH| | |done|].
  { intros b id vals' g1 Hb Hid. destruct (run n _ vals' g1) as [[v' g2]|] eqn:Er; [|done].
    destruct (run_known _ _ _ _ _ _ Er) as (f' & Hf' & Hn' & _). by destruct (not_libraries b id f' (list_elem_of_further _ _ _ Hb) Hid Hf'). }
  { intros id vals' g1 v' g2 Hid _ Er. destruct (run_known _ _ _ _ _ _ Er) as (f' & Hf' & Hn' & _).
    by destruct (not_libraries "builtin_assert" id f' (list_elem_of_here _ _) Hid Hf'). }
  set (tbl := extend _ _ ∪ named_types) in Hloop.
  assert (stats_ok tt (Ast.ret_type fd) gvm tbl tbl'
            (sequence (map (eval_statement (run n) string_table imports gmap_ release n) (f_code f)))) as Hbody.
  { eapply sequence_loop_ok; [|exact Hloop|by apply all_careful]. apply list.Forall_forall. intros st _. exact (Hstat st). }
  eapply final_return_ok in Hbody as [tbl'' Hbody]; [|exact Hrt|done].
  set (bs := (λ a, (fa_name a, fa_tipe a)) <$> Ast.args fd) in *.
  assert (table_of tbl (rev bs)) as Htbl.
  { intros x t Hx. apply lookup_union_Some_l. rewrite <- (app_nil_r (rev bs)) in Hx. by apply (table_extend ∅ bs []) in Hx. }
  rewrite Hargs in Hrun. destruct (Hbody (rev bs) _ _ Htbl (conj (args_env (Ast.args fd) vals Hvals) Hg : state_ok tt gvm (rev bs) (mkSt _ g)) Hrun) as [Ho Hgl].
  split; [|done]. destruct o as [w|]; [done|]. destruct Ho as [Ho|Ho]; [done|]. unfold returns in Hret.
  rewrite Htipe, Hd, Ho in Hret. done.
Qed.
End sound.

(** ** Modules *)
Section module.
Context `{Crypto} (parse : string → Z → option Z) (fuel : nat) (string_table : StringTable.t).

Lemma typecheck_functions_sorted nt gvm fm tt funcs : ∀ ids ex ch ex' ch',
  typecheck_functions parse fuel string_table funcs nt gvm fm tt ids ex ch = Some (Ok (ex', ch')) →
  StronglySorted (λ x y, x.1 < y.1) ch → StronglySorted (λ x y : nat * TypeCheckedFunc, x.1 < y.1) ch'.
Proof.
  induction funcs as [|[id0 fd] funcs IH]; intros ids ex ch ex' ch' Hk Hs; cbn [typecheck_functions] in Hk.
  { by injection Hk as <- <-. }
  apply bind_Some in Hk as ([[f0 ids']| |] & Hfd & Hk); try done. pose proof (btree_insert_sorted id0 f0 ch Hs).
  destruct (Ast.kind fd); [destruct (ExportedFunc_new _ _ _ _); [|done]|]; by eapply IH.
Qed.

Lemma sorted_keys {A} (l : list (nat * A)) : StronglySorted (λ x y, x.1 < y.1) l → NoDup l.*1.
Proof.
  induction 1 as [|[k a] l Hs IH Hf]; [constructor|]. constructor; [|done]. intros ([k' a'] & Hk & Hin)%list_elem_of_fmap.
  rewrite list.Forall_forall in Hf. specialize (Hf _ Hin). cbn in *. lia.
Qed.

Context (decls : list Ast.TopLevelDecl) (path : list string) (builtins : bool) (func_map : gmap nat Tipe.t) (tt : TypeTree).

(** The checker's result on the sorted declarations. *)
Definition checked_as (exported : list ExportedFunc) (checked : list (nat * TypeCheckedFunc)) (gvs : list GlobalVarDecl) : Prop :=
  let d := sort_top_level_decls decls path builtins in
  typecheck_top_level_decls parse fuel string_table (sd_funcs d) (sd_named_types d) (sd_global_vars d) (sd_imports d)
    func_map [] tt = Some (Ok (exported, checked, gvs)).

Definition is_func (t : Tipe.t) : bool := match t with Tipe.Func _ _ _ => true | _ => false end.

(** The table of functions has those of the file; what else it has are functions, imported from other files. *)
Definition table_ok : Prop :=
  sd_func_table (sort_top_level_decls decls path builtins) ⊆ func_map ∧
  map_Forall (λ _ t, is_func t = true) func_map.

(** The file is not one of the libraries that implement arrays, maps and assertions. *)
Definition no_libraries (checked : list (nat * TypeCheckedFunc)) : Prop :=
  Forall (λ b, StringTable.get_if_exists string_table b ∉ (λ kf, Some (f_name kf.2)) <$> checked) ("builtin_assert" :: libraries).

Context (exported : list ExportedFunc) (checked : list (nat * TypeCheckedFunc)) (gvs : list GlobalVarDecl).
Hypothesis declared : Forall decl_ok decls.
Hypothesis accepted : checked_as exported checked gvs.
Hypothesis table : table_ok.

Lemma checked_from id f : (id, f) ∈ checked → ∃ fd,
  checks parse fuel string_table (sd_named_types (sort_top_level_decls decls path builtins)) (global_vars_map 0 gvs ∅) func_map tt fd f ∧
  func_declared fd ∧ func_map !! Ast.name fd = Some (Ast.tipe fd) ∧ id = f_name f.
Proof using declared accepted table.
  intros Hf. unfold checked_as, typecheck_top_level_decls in accepted.
  destruct (import_ids string_table _ ∅) as [ids|]; [|done].
  apply bind_Some in accepted as ([[ex ch]| |] & Hfuncs & Hres); try done. injection Hres as <- <- <-.
  destruct (typecheck_functions_ok _ _ _ _ _ _ _ _ _ _ _ _ _ Hfuncs id f Hf) as [[]%elem_of_nil|(fd & Hin & Hc)].
  destruct (sort_top_level_ok decls path builtins declared) as [Hok _].
  destruct (Hok id fd Hin) as (-> & Hd & Ht). exists fd. split; [done|]. split; [done|]. split.
  - destruct table as [Hsub _]. by eapply lookup_weaken.
  - destruct (checks_spec _ _ _ _ _ _ _ _ _ Hc) as [-> _]. done.
Qed.

Lemma checked_names : NoDup ((λ kf, f_name kf.2) <$> checked).
Proof using declared accepted table.
  assert (((λ kf, f_name kf.2) <$> checked) = checked.*1) as ->.
  { apply list_fmap_ext. intros i [id f] Hi%list_elem_of_lookup_2. by destruct (checked_from id f Hi) as (fd & _ & _ & _ & ->). }
  apply sorted_keys. unfold checked_as, typecheck_top_level_decls in accepted.
  destruct (import_ids string_table _ ∅) as [ids|]; [|done].
  apply bind_Some in accepted as ([[ex ch]| |] & Hfuncs & Hres); try done. injection Hres as <- <- <-.
  eapply typecheck_functions_sorted; [exact Hfuncs|constructor].
Qed.

Hypothesis no_void_names : map_Forall (λ _ tn, tn.1 ≠ Tipe.Void) tt.
Hypothesis all_careful : Forall (λ kf, Forall (careful_stat fuel tt) (f_code kf.2)) checked.
Hypothesis not_a_library : no_libraries checked.

Lemma calls_typed imps gm release n name impure ts ret vals g v g' :
  func_map !! name = Some (Tipe.Func impure ts ret) → Forall2 (has_type tt) vals ts →
  globals_ok tt (global_vars_map 0 gvs ∅) g →
  call string_table (import_map imps ∅) gm release checked.*2 n (func_label (import_map imps ∅) name) vals g = Some (v, g') →
  gives tt ret v ∧ globals_ok tt (global_vars_map 0 gvs ∅) g'.
Proof using All.
  apply (run_ok parse fuel string_table (sd_named_types (sort_top_level_decls decls path builtins))).
  - intros k t nm Hk. exact (no_void_names k (t, nm) Hk).
  - intros nm t Hnm. destruct table as [_ Ht]. specialize (Ht nm t Hnm). destruct t; try done. eauto.
  - intros f ([id f'] & -> & Hf)%list_elem_of_fmap. destruct (checked_from id f' Hf) as (fd & ? & ? & ? & _). eauto.
  - intros f (kf & -> & Hf)%list_elem_of_fmap. rewrite list.Forall_forall in all_careful. by apply all_careful.
  - intros nm l. apply import_map_foreign. intros ? ?. by rewrite lookup_empty.
  - intros b id f Hb Hid (kf & -> & Hf)%list_elem_of_fmap Hne. unfold no_libraries in not_a_library.
    rewrite list.Forall_forall in not_a_library. apply (not_a_library b Hb). rewrite Hid, <- Hne. by apply (list_elem_of_fmap_2 (λ kf, Some (f_name kf.2))).
  - apply global_places.
Qed.
End module.

(** C4: the type checker is sound for careful programs.  Let the declarations of a
    file be accepted, and let the accepted functions be careful
    ([careful_stat]): a cast goes to a supertype or into a union, an update of a
    fixed-size array stores a value that can be assigned to the type of its
    elements, patterns bind variables and assign to none, constants have their
    types, calls are of named functions, and no length of a run-time array is
    taken.  The checker accepts programs that break the first three of these and
    are not sound (TypecheckGaps.v).  Let the file not be one of the libraries
    ([no_libraries]), the table of functions hold those of the file and else only
    functions ([table_ok]), and no named type be void.  Then in the reference
    semantics a call of any function of the table, with arguments of its declared
    types and well-typed globals, gives a value of its declared result type, if
    it gives any, and leaves the globals well typed. *)
Theorem type_soundness `{Crypto} parse fuel st decls path builtins func_map tt exported checked gvs imps gm release n name
    impure ts ret vals g v g' :
  Forall decl_ok decls →
  checked_as parse fuel st decls path builtins func_map tt exported checked gvs →
  table_ok decls path builtins func_map →
  map_Forall (λ _ tn, tn.1 ≠ Tipe.Void) tt →
  Forall (λ kf, Forall (careful_stat fuel tt) (f_code kf.2)) checked →
  no_libraries st checked →
  func_map !! name = Some (Tipe.Func impure ts ret) → Forall2 (has_type tt) vals ts →
  globals_ok tt (global_vars_map 0 gvs ∅) g →
  call st (import_map imps ∅) gm release checked.*2 n (func_label (import_map imps ∅) name) vals g = Some (v, g') →
  gives tt ret v ∧ globals_ok tt (global_vars_map 0 gvs ∅) g'.
Proof. intros. by eapply calls_typed. Qed.

(** C5: compiled code respects the types of the source.  Under the conditions of
    [type_soundness] (an accepted file of careful functions that is not a library,
    with a table of functions and no void named types), let the accepted
    functions be compiled, with inline assembly and constants that mention no
    labels and no local slots ([plain_func]), and their code be placed anywhere in
    a program whose labels are defined once.  Then a call with arguments of the
    declared types and well-typed globals that has a meaning in the reference
    semantics runs from the function's label to its return address, with the
    result on the stack in place of the arguments; the result has the declared
    type and the globals it leaves are well typed. *)
Theorem compiled_code_typed `{Crypto} parse fuel st decls path builtins func_map tt exported checked gvs imps release w w' gencode
    code k n name impure ts ret vals g v g' raddr pr s a :
  Forall decl_ok decls →
  checked_as parse fuel st decls path builtins func_map tt exported checked gvs →
  table_ok decls path builtins func_map →
  map_Forall (λ _ tn, tn.1 ≠ Tipe.Void) tt →
  Forall (λ kf, Forall (careful_stat fuel tt) (f_code kf.2)) checked →
  no_libraries st checked → Forall (λ kf, plain_func kf.2) checked →
  mavm_codegen checked st imps gvs w release = Ok (gencode, w') →
  code_is code k gencode → NoDup (defined_labels code) → find_label code raddr = Some pr →
  func_map !! name = Some (Tipe.Func impure ts ret) → Forall2 (has_type tt) vals ts →
  globals_ok tt (global_vars_map 0 gvs ∅) g →
  call st (import_map imps ∅) (global_map 0 gvs ∅) release checked.*2 n (func_label (import_map imps ∅) name) vals g = Some (v, g') →
  ∃ p, find_label code (func_label (import_map imps ∅) name) = Some p ∧
    star code (mkVm p (Value.Label raddr :: vals ++ s) a g) (mkVm pr (option_list v ++ s) a g') ∧
    gives tt ret v ∧ globals_ok tt (global_vars_map 0 gvs ∅) g'.
Proof.
  intros Hd Ha Ht Hv Hc Hl Hpl Hgen Hcode Hu Hret Hn Hvals Hg Hcall.
  pose proof (checked_names _ _ _ _ _ _ _ _ _ _ _ Hd Ha Ht) as Hnames.
  destruct (calls_ok _ _ _ _ _ _ _ _ _ _ Hgen Hnames Hpl Hcode Hu n _ _ _ _ _ Hcall) as (p & Hp & Hrun).
  exists p. split; [done|]. split; [by apply Hrun|]. by eapply calls_typed.
Qed.

(** ** An example *)

(** [var calls: uint;
     public func fact(n: uint) -> uint { calls = calls + 1; if (n > 0) { return n * fact(n - 1); } return 1; }] *)
Definition source_expr (k : Ast.ExprKind) : Ast.Expr := Ast.mkExpr k dbg.
Definition source_num (n : Z) : Ast.Expr := source_expr (Ast.Const (Ast.CUint n)).
Definition source_var (x : nat) : Ast.Expr := source_expr (Ast.VariableRef x).
Definition fact_body : list Ast.Statement :=
  [Ast.mkStatement (Ast.SAssign 2 (source_expr (Ast.Binary BinaryOp.Plus (source_var 2) (source_num 1)))) dbg;
   Ast.mkStatement (Ast.SExpression (source_expr (Ast.If (source_expr (Ast.Binary BinaryOp.GreaterThan (source_var 1) (source_num 0)))
     (Ast.mkBlock [Ast.mkStatement (Ast.SReturn (source_expr (Ast.Binary BinaryOp.Times (source_var 1)
        (source_expr (Ast.FunctionCall (source_var 0) [source_expr (Ast.Binary BinaryOp.Minus (source_var 1) (source_num 1))]))))) dbg]
        None) None))) dbg;
   Ast.mkStatement (Ast.SReturn (source_num 1)) dbg].
Definition fact_decls : list Ast.TopLevelDecl :=
  [Ast.VarDecl (mkGlobalVarDecl 2 "calls" Tipe.Uint None);
   Ast.FuncDecl (Ast.Func_new 0 true [mkFuncArg 1 Tipe.Uint dbg] Tipe.Uint fact_body true dbg)].
Definition fact_names : StringTable.t := snd (StringTable.get (snd (StringTable.get (snd (StringTable.get StringTable.new "fact")) "n")) "calls").
Definition fact_table : gmap nat Tipe.t := sd_func_table (sort_top_level_decls fact_decls ["main"] false).
Definition fact_checked : list ExportedFunc * list (nat * TypeCheckedFunc) * list GlobalVarDecl :=
  Eval vm_compute in
  let d := sort_top_level_decls fact_decls ["main"] false in
  match typecheck_top_level_decls (H := toy_crypto) (λ _ _, None) 10 fact_names (sd_funcs d) (sd_named_types d) (sd_global_vars d)
          (sd_imports d) fact_table [] ∅ with
  | Some (Ok r) => r
  | _ => ([], [], [])
  end.
Definition fact_compiled : list insn :=
  Eval vm_compute in
  match mavm_codegen (H := toy_crypto) fact_checked.1.2 fact_names [] fact_checked.2 [] false with
  | Ok (c, _) => c
  | _ => []
  end.
Definition fact_placed : list insn := fact_compiled ++ [label_ (Label.Evm 0) dbg].

Lemma fact_careful : Forall (λ kf, Forall (careful_stat 10 ∅) (f_code kf.2)) fact_checked.1.2.
Proof. repeat constructor. Qed.

Lemma fact_funcs_plain : Forall (λ kf, plain_func kf.2) fact_checked.1.2.
Proof. repeat first [reflexivity | constructor]. Qed.

Lemma fact_globals_ok : globals_ok ∅ (global_vars_map 0 fact_checked.2 ∅) [Value.Int 0].
Proof.
  intros x t i v Hx Hv. apply global_vars_map_spec in Hx as [Hx|(_ & gv & Hgv & ->)]; [done| |done].
  rewrite Nat.sub_0_r in Hgv. apply list_lookup_singleton_Some in Hgv as [-> <-].
  injection Hv as <-. exists 1, 0%Z. by split.
Qed.

Lemma type_soundness_witness : has_type ∅ (Value.Int 120) Tipe.Uint ∧
  globals_ok ∅ (global_vars_map 0 fact_checked.2 ∅) [Value.Int 6].
Proof.
  apply (type_soundness (H := toy_crypto) (λ _ _, None) 10 fact_names fact_decls ["main"] false fact_table ∅ fact_checked.1.1
           fact_checked.1.2 fact_checked.2 [] ∅ false 10 0 true [Tipe.Uint] Tipe.Uint [Value.Int 5] [Value.Int 0] (Some (Value.Int 120)) [Value.Int 6]).
  - repeat constructor. by exists true.
  - vm_compute. reflexivity.
  - split; [done|]. apply (bool_decide_unpack _). vm_compute. done.
  - apply map_Forall_empty.
  - apply fact_careful.
  - apply (bool_decide_unpack _). vm_compute. done.
  - vm_compute. reflexivity.
  - repeat constructor. exists 1, 5%Z. by split.
  - apply fact_globals_ok.
  - vm_compute. reflexivity.
Defined.

Lemma compiled_code_typed_witness : ∃ p, find_label fact_placed (Label.Func 0) = Some p ∧
  star fact_placed (mkVm p [Value.Label (Label.Evm 0); Value.Int 5; Value.Int 77] [] [Value.Int 0])
    (mkVm (length fact_compiled) [Value.Int 120; Value.Int 77] [] [Value.Int 6]) ∧
  has_type ∅ (Value.Int 120) Tipe.Uint ∧ globals_ok ∅ (global_vars_map 0 fact_checked.2 ∅) [Value.Int 6].
Proof.
  apply (compiled_code_typed (H := toy_crypto) (λ _ _, None) 10 fact_names fact_decls ["main"] false fact_table ∅ fact_checked.1.1
           fact_checked.1.2 fact_checked.2 [] false [] [] fact_compiled fact_placed 0 10 0 true [Tipe.Uint] Tipe.Uint
           [Value.Int 5] [Value.Int 0] (Some (Value.Int 120)) [Value.Int 6] (Label.Evm 0) (length fact_compiled) [Value.Int 77] []).
  - repeat constructor. by exists true.
  - vm_compute. reflexivity.
  - split; [done|]. apply (bool_decide_unpack _). vm_compute. done.
  - apply map_Forall_empty.
  - apply fact_careful.
  - apply (bool_decide_unpack _). vm_compute. done.
  - apply fact_funcs_plain.
  - vm_compute. reflexivity.
  - intros j i Hj. cbn [Nat.add]. by apply lookup_app_l_Some.
  - apply (bool_decide_unpack _). vm_compute. done.
  - vm_compute. reflexivity.
  - vm_compute. reflexivity.
  - repeat constructor. exists 1, 5%Z. by split.
  - apply fact_globals_ok.
  - vm_compute. reflexivity.
Defined.
