(* ===== verification/TypecheckGaps.v ===== *)
(** * What the type checker lets through, and what it should not stop

    Small programs, checked by computation.  The first three show that each
    exclusion of [careful_expr] is needed: the checker accepts the program and
    its meaning is a value that is not of the declared type.  The others are
    accepted or refused against the intent of the code. *)

From Stdlib Require Import ZArith Lia.
From S2P Require Import Prelude U256 StringTab Pos Opcodes Crypto BufferTree Values Insns StraightLine TupleTree StripLabels Types TypedAst Ast Link Codegen CodegenModules TypecheckOps Typecheck FixedArray ValueTypes VirtualMachine Semantics TypeSoundness.

#[local] Existing Instance toy_crypto.

(** [func main(x: arg) -> ret { body }] with some named types; names of variables start at 10. *)
Definition main_func (arg ret : Tipe.t) (body : list Ast.Statement) : Ast.Func :=
  Ast.Func_new 1 false [mkFuncArg 10 arg dbg] ret body false dbg.
Definition check_main (named : gmap nat Tipe.t) (arg ret : Tipe.t) (body : list Ast.Statement)
    : option (outcome CompileError TypeCheckedFunc) :=
  r ← typecheck_function (λ _ _, None) 20 StringTable.new (main_func arg ret body) named ∅ ∅ ∅ ∅;
  Some ('(f, _) ← r; Ok f).

(** The result of the accepted function on an argument. *)
Definition main_result (arg ret : Tipe.t) (body : list Ast.Statement) (v : Value.t) : option Value.t :=
  match check_main ∅ arg ret body with
  | Some (Ok f) => '(o, _) ← call StringTable.new ∅ ∅ false [f] 5 (Label.Func 1) [v] []; o
  | _ => None
  end.

Definition source_stat (k : Ast.StatementKind) : Ast.Statement := Ast.mkStatement k dbg.
Definition source_return (e : Ast.ExprKind) : Ast.Statement := source_stat (Ast.SReturn (source_expr e)).
Definition source_let (x : nat) (e : Ast.ExprKind) : Ast.Statement :=
  source_stat (Ast.SLet (Ast.mkPattern (Ast.PBind x) dbg) (source_expr e)).
Definition pair : Ast.ExprKind := Ast.Tuple [source_num 1; source_num 2].
Definition pair_val : Value.t := Value.Tuple [Value.Int 1; Value.Int 2].

Lemma pair_not_uint tt : ¬ has_type tt pair_val Tipe.Uint.
Proof. by intros [[|n] Hv]; [|destruct Hv as (z & ? & _)]. Qed.

(** [let a = newfixedarray(2, x); let b = a with { [0] = (1, 2) }; return b[0];] in a function that returns a [uint] *)
Definition array_update : list Ast.Statement :=
  [source_let 11 (Ast.NewFixedArray 2 (Some (source_var 10)));
   source_let 12 (Ast.ArrayOrMapMod (source_var 11) (source_num 0) (source_expr pair));
   source_return (Ast.ArrayOrMapRef (source_var 12) (source_num 0))].

(** The value stored into a fixed-size array is not compared with the type of its elements. *)
Theorem fixed_array_update_unchecked : ∃ v,
  main_result Tipe.Uint Tipe.Uint array_update (Value.Int 7) = Some v ∧ ¬ has_type ∅ v Tipe.Uint.
Proof. exists pair_val. split; [vm_compute; reflexivity|apply pair_not_uint]. Qed.

(** [let ( *x, y) = ((1, 2), 3); return x;] *)
Definition pattern_assign : list Ast.Statement :=
  [source_stat (Ast.SLet (Ast.mkPattern (Ast.PTuple [Ast.mkPattern (Ast.PAssign 10) dbg; Ast.mkPattern (Ast.PBind 11) dbg]) dbg)
     (source_expr (Ast.Tuple [source_expr pair; source_num 3])));
   source_return (Ast.VariableRef 10)].

(** An assignment inside a pattern is not compared with the type of the variable. *)
Theorem pattern_assignment_unchecked : ∃ v,
  main_result Tipe.Uint Tipe.Uint pattern_assign (Value.Int 7) = Some v ∧ ¬ has_type ∅ v Tipe.Uint.
Proof. exists pair_val. split; [vm_compute; reflexivity|apply pair_not_uint]. Qed.

(** [return unioncast(newunion<uint, (uint, uint)>((1, 2)), uint);] *)
Definition union_down : list Ast.Statement :=
  [source_return (Ast.UnionCast (source_expr (Ast.NewUnion [Tipe.Uint; Tipe.Tuple [Tipe.Uint; Tipe.Uint]] (source_expr pair))) Tipe.Uint)].

(** A union may be cast to any of its members, whichever the value is. *)
Theorem union_cast_unchecked : ∃ v,
  main_result Tipe.Uint Tipe.Uint union_down (Value.Int 7) = Some v ∧ ¬ has_type ∅ v Tipe.Uint.
Proof. exists pair_val. split; [vm_compute; reflexivity|apply pair_not_uint]. Qed.

(** An assignment inside a pattern to a name that is not a variable is accepted,
    and refused only by the code generator. *)
Definition pattern_unknown : list Ast.Statement :=
  [source_stat (Ast.SLet (Ast.mkPattern (Ast.PTuple [Ast.mkPattern (Ast.PAssign 99) dbg]) dbg)
     (source_expr (Ast.Tuple [source_num 3])));
   source_return (Ast.VariableRef 10)].
Definition codegen_of (r : option (outcome CompileError TypeCheckedFunc)) : bool :=
  match r with
  | Some (Ok f) => match mavm_codegen [(1, f)] StringTable.new [] [] [] false with Err _ => false | _ => true end
  | _ => true
  end.
Theorem pattern_unknown_variable :
  (∃ f, check_main ∅ Tipe.Uint Tipe.Uint pattern_unknown = Some (Ok f)) ∧
  codegen_of (check_main ∅ Tipe.Uint Tipe.Uint pattern_unknown) = false.
Proof. split; [eexists; vm_compute; reflexivity|vm_compute; reflexivity]. Qed.

(** The table of variables starts with the named types: a type's name is
    accepted as a variable, and refused only by the code generator. *)
Theorem type_name_as_variable :
  (∃ f, check_main {[50 := Tipe.Uint]} Tipe.Uint Tipe.Uint [source_return (Ast.VariableRef 50)] = Some (Ok f)) ∧
  codegen_of (check_main {[50 := Tipe.Uint]} Tipe.Uint Tipe.Uint [source_return (Ast.VariableRef 50)]) = false.
Proof. split; [eexists; vm_compute; reflexivity|vm_compute; reflexivity]. Qed.

(** A look-up in a [map<any, uint>] with a [uint] key: the types differ but do
    not mismatch, so instead of an error there is a panic. *)
Theorem map_key_panics :
  check_main ∅ (Tipe.Map Tipe.Any Tipe.Uint) (Tipe.Option Tipe.Uint)
    [source_return (Ast.ArrayOrMapRef (source_var 10) (source_num 5))] = Some Panic.
Proof. vm_compute. reflexivity. Qed.

(** [xloop { break; }] *)
Definition loop_break : Ast.Statement := source_stat (Ast.SExpression (source_expr (Ast.Loop [source_stat (Ast.SBreak None None)]))).
(** [if (true) {}] *)
Definition empty_if : Ast.Statement :=
  source_stat (Ast.SExpression (source_expr (Ast.If (source_expr (Ast.Const (Ast.CBool true))) (Ast.mkBlock [] None) None))).

(** A loop does not open a scope, so a [break] in it is refused; and a block
    does not close the scope it opens, so the same loop after an empty [if] is
    accepted. *)
Theorem loop_break_scopes :
  (∃ e, check_main ∅ Tipe.Uint Tipe.Uint [loop_break; source_return (Ast.VariableRef 10)] = Some (Err e)) ∧
  (∃ f, check_main ∅ Tipe.Uint Tipe.Uint [empty_if; loop_break; source_return (Ast.VariableRef 10)] = Some (Ok f)).
Proof. split; eexists; vm_compute; reflexivity. Qed.
