(* ===== verification/Flow.v ===== *)
(** * Walking type-checked trees (src/src/compile/typecheck.rs)

    [AbstractSyntaxTree]: the direct children of a node, purity, propagation of
    attributes, and the control flow analysis that gives the warnings of a
    module: unused imports, unreachable statements, assigned values that are
    never used.

    The source recurses through [child_nodes], which is not structural here, so
    every walk has [fuel]; [fits fuel n] says that the tree below [n] is less
    than [fuel] deep, [fits_some] that every node fits some fuel, and each walk
    is shown to end with a result on nodes that fit.  [BTreeMap]s whose order
    matters are sorted association lists, [BTreeSet]s finite sets. *)

From Stdlib Require Import ZArith Lia.
From S2P Require Import Prelude U256 StringTab Pos Opcodes Crypto BufferTree Values Insns InsnFacts StraightLine TupleTree StripLabels Types TypesThms TypedAst Ast Link Codegen.

#[local] Set Warnings "-clear-no-such-hyp".

(** A computation that may run out of fuel ([None]), fail or panic. *)
Definition FM (A : Type) : Type := option (outcome CompileError A).
#[global] Instance fm_ret : MRet FM := λ A a, Some (Ok a).
#[global] Instance fm_bind : MBind FM := λ A B k m,
  match m with
  | Some (Ok a) => k a
  | Some (Err e) => Some (Err e)
  | Some Panic => Some Panic
  | None => None
  end.
Definition fm_panic {A} : FM A := Some Panic.
Definition unwrap_fm {A} (o : option A) : FM A := match o with Some a => mret a | None => fm_panic end.

(** ** Nodes *)
Inductive node :=
| NStat (s : TypeCheckedStatement)
| NExpr (e : TypeCheckedExpr)
| NField (f : FieldInitializer TypeCheckedExpr)
| NType (t : Tipe.t).

(** [TypeCheckedCodeBlock::child_nodes] *)
Definition block_nodes (b : TypeCheckedCodeBlock) : list node :=
  let '(mkBlock body ret_expr _) := b in (NStat <$> body) ++ (NExpr <$> olist ret_expr).

(** [TypeCheckedExpr::child_nodes] *)
Definition expr_nodes (e : TypeCheckedExpr) : list node :=
  match expr_kind e with
  | LocalVariableRef _ _ | GlobalVariableRef _ _ | FuncRef _ _ | Const _ _ | NewBuffer | NewMap _ | GetGas | Error => []
  | Unary _ exp _ | Variant exp | SetGas exp | TupleRef exp _ _ | DotRef exp _ _ _ | NewArray exp _ _ | Cast exp _
  | Try exp _ => [NExpr exp]
  | Trinary _ a b c _ => [NExpr a; NExpr b; NExpr c]
  | Binary _ lexp rexp _ | ShortcutOr lexp rexp | ShortcutAnd lexp rexp | ArrayRef lexp rexp _
  | FixedArrayRef lexp rexp _ _ | MapRef lexp rexp _ | StructMod lexp _ rexp _ => [NExpr lexp; NExpr rexp]
  | FunctionCall name_exp arg_exps _ _ => NExpr name_exp :: (NExpr <$> arg_exps)
  | CodeBlock block => block_nodes block
  | StructInitializer fields _ => NField <$> fields
  | TupleExpr exps _ | Asm _ _ exps => NExpr <$> exps
  | NewFixedArray _ oexp _ => NExpr <$> olist oexp
  | ArrayMod exp1 exp2 exp3 _ | FixedArrayMod exp1 exp2 exp3 _ _ | MapMod exp1 exp2 exp3 _ =>
      [NExpr exp1; NExpr exp2; NExpr exp3]
  | If cond block else_block _ | IfLet _ cond block else_block _ =>
      NExpr cond :: block_nodes block ++ flat_map block_nodes (olist else_block)
  | Loop stats => NStat <$> stats
  end.

Definition statement_kind (s : TypeCheckedStatement) : TypeCheckedStatementKind := let '(mkStatement k _) := s in k.
Definition statement_debug_info (s : TypeCheckedStatement) : DebugInfo := let '(mkStatement _ di) := s in di.

(** [TypeCheckedStatement::child_nodes]: of a [break] the children of its expression *)
Definition stat_nodes (s : TypeCheckedStatement) : list node :=
  match statement_kind s with
  | SNoop | SReturnVoid => []
  | SReturn exp | SExpression exp | SLet _ exp | SAssignLocal _ exp | SAssignGlobal _ exp | SAssert exp
  | SDebugPrint exp => [NExpr exp]
  | SWhile exp stats => NExpr exp :: (NStat <$> stats)
  | SAsm _ exps => NExpr <$> exps
  | SBreak oexp _ => flat_map expr_nodes (olist oexp)
  end.

(** [Type::child_nodes] *)
Definition type_nodes (t : Tipe.t) : list node :=
  match t with
  | Tipe.Void | Tipe.Uint | Tipe.Int | Tipe.Bool | Tipe.Bytes32 | Tipe.EthAddress | Tipe.Buffer | Tipe.Any | Tipe.Every
  | Tipe.Nominal _ _ => []
  | Tipe.Tuple types | Tipe.Union types => NType <$> types
  | Tipe.Array t | Tipe.FixedArray t _ | Tipe.Option t => [NType t]
  | Tipe.Struct fields => (λ f, NType (sf_tipe f)) <$> fields
  | Tipe.Func _ args ret => NType ret :: (NType <$> args)
  | Tipe.Map key value => [NType key; NType value]
  end.

Definition child_nodes (n : node) : list node :=
  match n with
  | NStat s => stat_nodes s
  | NExpr e => expr_nodes e
  | NField f => [NExpr (fi_value f)]
  | NType t => type_nodes t
  end.

(** [TypeCheckedFunc::child_nodes] *)
Definition func_nodes (f : TypeCheckedFunc) : list node := NStat <$> f_code f.

(** ** Depth *)

(** The children as the syntax has them: of a [break] its expression. *)
Definition parts (n : node) : list node :=
  match n with
  | NStat (mkStatement (SBreak oexp _) _) => NExpr <$> olist oexp
  | _ => child_nodes n
  end.

Fixpoint fits (fuel : nat) (n : node) : Prop :=
  match fuel with
  | O => False
  | S fuel => Forall (fits fuel) (parts n)
  end.

Lemma fits_mono fuel : ∀ fuel' n, fuel <= fuel' → fits fuel n → fits fuel' n.
Proof.
  induction fuel as [|fuel IH]; intros fuel' n Hle Hf; [done|]. destruct fuel' as [|fuel']; [lia|].
  cbn [fits] in *. eapply list.Forall_impl; [exact Hf|]. intros c. apply IH. lia.
Qed.

Lemma fits_more fuel fuel' ns : fuel <= fuel' → Forall (fits fuel) ns → Forall (fits fuel') ns.
Proof. intros Hle Hf. eapply list.Forall_impl; [exact Hf|]. intros n. by apply fits_mono. Qed.

Lemma fits_child fuel n : fits (S fuel) n → Forall (fits fuel) (child_nodes n).
Proof.
  cbn [fits]. destruct n as [[k di]|e|f|t]; try done. destruct k as [| | |o sc| | | | | | | |]; try done.
  cbn [parts child_nodes stat_nodes statement_kind]. destruct o as [e|]; [|done]. intros [He _]%list.Forall_cons.
  destruct fuel as [|fuel]; [done|]. cbn [olist flat_map]. rewrite app_nil_r. by apply (fits_more fuel); [lia|].
Qed.

Lemma fits_all ns : Forall (λ n, ∃ fuel, fits fuel n) ns → ∃ fuel, Forall (fits fuel) ns.
Proof.
  induction 1 as [|n ns [f1 H1] _ [f2 H2]]; [by exists 0|]. exists (Nat.max f1 f2). constructor.
  - eapply fits_mono; [|exact H1]. lia.
  - by apply (fits_more f2); [lia|].
Qed.

Lemma fits_parts n : Forall (λ c, ∃ fuel, fits fuel c) (parts n) → ∃ fuel, fits fuel n.
Proof. intros [fuel Hf]%fits_all. by exists (S fuel). Qed.

Lemma fits_types t : ∃ fuel, fits fuel (NType t).
Proof.
  revert t. fix IH 1. intros t. apply fits_parts. destruct t; cbn [parts child_nodes type_nodes];
    repeat first [apply List.Forall_nil | apply List.Forall_cons; [apply IH|]].
  - induction ts; cbn; constructor; [apply IH|assumption].
  - induction fields as [|[]]; cbn; constructor; [apply IH|assumption].
  - induction args; cbn; constructor; [apply IH|assumption].
  - induction ts; cbn; constructor; [apply IH|assumption].
Qed.

Lemma fits_trees : (∀ e, ∃ fuel, fits fuel (NExpr e)) ∧ (∀ s, ∃ fuel, fits fuel (NStat s)) ∧
  (∀ b, Forall (λ n, ∃ fuel, fits fuel n) (block_nodes b)).
Proof.
  apply tc_ind.
  - intros k di He Hs Hb. apply fits_parts.
    destruct k; cbn [parts child_nodes expr_nodes expr_kind sub_exprs sub_stats sub_blocks] in *;
      repeat match goal with Hf : Forall _ (_ :: _) |- _ => apply list.Forall_cons in Hf as [? ?] end;
      repeat first [apply List.Forall_nil | apply List.Forall_cons; [done|] | apply list.Forall_app; split];
      try done; try (by apply list.Forall_fmap).
    + apply list.Forall_fmap. eapply list.Forall_impl; [exact (proj1 (list.Forall_fmap _ _ _) He)|].
      intros f Hf. apply fits_parts. by repeat constructor.
    + destruct else_block; [|constructor]. cbn [olist flat_map] in *. rewrite app_nil_r.
      by match goal with Hf : Forall _ [_] |- _ => apply list.Forall_cons in Hf as [? _] end.
    + destruct else_block; [|constructor]. cbn [olist flat_map] in *. rewrite app_nil_r.
      by match goal with Hf : Forall _ [_] |- _ => apply list.Forall_cons in Hf as [? _] end.
  - intros k di He Hs. apply fits_parts.
    destruct k; cbn [parts child_nodes stat_nodes statement_kind stat_exprs stat_stats] in *;
      repeat match goal with Hf : Forall _ (_ :: _) |- _ => apply list.Forall_cons in Hf as [? ?] end;
      repeat first [apply List.Forall_nil | apply List.Forall_cons; [done|]]; try done; try (by apply list.Forall_fmap).
  - intros body ret scope Hs He. cbn [block_nodes]. apply list.Forall_app. split; by apply list.Forall_fmap.
Qed.

Lemma fits_some n : ∃ fuel, fits fuel n.
Proof.
  destruct n as [s|e|f|t].
  - apply fits_trees.
  - apply fits_trees.
  - apply fits_parts. repeat constructor. apply fits_trees.
  - apply fits_types.
Qed.

Lemma fits_list ns : ∃ fuel, Forall (fits fuel) ns.
Proof. apply fits_all. apply list.Forall_forall. intros n _. apply fits_some. Qed.

(** ** Purity *)

(** [iter_mut().all(..)]: stops at the first [false] *)
Fixpoint all_fm {A} (f : A → FM bool) (l : list A) : FM bool :=
  match l with
  | [] => mret true
  | a :: l => b ← f a; if (b : bool) then all_fm f l else mret false
  end.

(** [is_pure] of a node; a reference to a function without a function type panics. *)
Fixpoint is_pure (fuel : nat) (n : node) : FM bool :=
  match fuel with
  | O => None
  | S fuel =>
      match n with
      | NStat s =>
          match statement_kind s with
          | SNoop | SReturnVoid => mret true
          | SAssignGlobal _ _ => mret false
          | SAsm insns _ => if forallb Instruction.is_pure insns then all_fm (is_pure fuel) (child_nodes n) else mret false
          | _ => all_fm (is_pure fuel) (child_nodes n)
          end
      | NExpr e =>
          match expr_kind e with
          | FuncRef _ t => match t with Tipe.Func impure _ _ => mret (negb impure) | _ => fm_panic end
          | Asm _ insns _ => if forallb Instruction.is_pure insns then all_fm (is_pure fuel) (child_nodes n) else mret false
          | GlobalVariableRef _ _ | GetGas | SetGas _ => mret false
          | _ => all_fm (is_pure fuel) (child_nodes n)
          end
      | NField f => is_pure fuel (NExpr (fi_value f))
      | NType _ => mret true
      end
  end.

(** [TypeCheckedFunc::is_pure] *)
Definition func_is_pure (fuel : nat) (f : TypeCheckedFunc) : FM bool := all_fm (is_pure fuel) (func_nodes f).

(** ** Attributes *)

Definition set_codegen_print (di : DebugInfo) (b : bool) : DebugInfo :=
  mkDebugInfo (location di) (mkAttributes (breakpoint (attributes di)) (inline (attributes di)) b).
Definition inherit_print (di : DebugInfo) (parent : Attributes) : DebugInfo :=
  set_codegen_print di (codegen_print (attributes di) || codegen_print parent).
Definition expr_attributes (e : TypeCheckedExpr) : Attributes := attributes (expr_debug_info e).

(** [propagate_attributes]: the flag for printing generated code is passed down
    to expressions, statements and the instructions of [asm] statements; of a
    [break] only the children of its expression are visited. *)
Fixpoint propagate_expr (attributes_ : Attributes) (e : TypeCheckedExpr) : TypeCheckedExpr :=
  let '(mkExpr kind di) := e in
  let di := inherit_print di attributes_ in
  mkExpr (propagate_kind (attributes di) kind) di
with propagate_kind (a : Attributes) (k : TypeCheckedExprKind) : TypeCheckedExprKind :=
  let go := propagate_expr a in
  match k with
  | NewBuffer | LocalVariableRef _ _ | GlobalVariableRef _ _ | FuncRef _ _ | Const _ _ | NewMap _ | GetGas | Error => k
  | Unary op e t => Unary op (go e) t
  | Binary op e1 e2 t => Binary op (go e1) (go e2) t
  | Trinary op e1 e2 e3 t => Trinary op (go e1) (go e2) (go e3) t
  | ShortcutOr e1 e2 => ShortcutOr (go e1) (go e2)
  | ShortcutAnd e1 e2 => ShortcutAnd (go e1) (go e2)
  | Variant e => Variant (go e)
  | TupleRef e idx t => TupleRef (go e) idx t
  | DotRef e slot size t => DotRef (go e) slot size t
  | FunctionCall f args t p => FunctionCall (go f) (map go args) t p
  | CodeBlock b => CodeBlock (propagate_block a b)
  | StructInitializer fields t =>
      StructInitializer (map (λ f, mkFieldInitializer (fi_name f) (go (fi_value f))) fields) t
  | ArrayRef e1 e2 t => ArrayRef (go e1) (go e2) t
  | FixedArrayRef e1 e2 size t => FixedArrayRef (go e1) (go e2) size t
  | MapRef e1 e2 t => MapRef (go e1) (go e2) t
  | TupleExpr es t => TupleExpr (map go es) t
  | NewArray e b t => NewArray (go e) b t
  | NewFixedArray sz o t => NewFixedArray sz (match o with Some e => Some (go e) | None => None end) t
  | ArrayMod e1 e2 e3 t => ArrayMod (go e1) (go e2) (go e3) t
  | FixedArrayMod e1 e2 e3 size t => FixedArrayMod (go e1) (go e2) (go e3) size t
  | MapMod e1 e2 e3 t => MapMod (go e1) (go e2) (go e3) t
  | StructMod e1 i e2 t => StructMod (go e1) i (go e2) t
  | Cast e t => Cast (go e) t
  | Asm t insns es => Asm t insns (map go es)
  | SetGas e => SetGas (go e)
  | Try e t => Try (go e) t
  | If e b o t => If (go e) (propagate_block a b) (match o with Some b => Some (propagate_block a b) | None => None end) t
  | IfLet x e b o t =>
      IfLet x (go e) (propagate_block a b) (match o with Some b => Some (propagate_block a b) | None => None end) t
  | Loop stats => Loop (map (propagate_statement a) stats)
  end
with propagate_statement (attributes_ : Attributes) (s : TypeCheckedStatement) : TypeCheckedStatement :=
  let '(mkStatement kind di) := s in
  let di := inherit_print di attributes_ in
  let a := attributes di in
  let go := propagate_expr a in
  mkStatement
    (match kind with
     | SNoop | SReturnVoid => kind
     | SReturn e => SReturn (go e)
     | SBreak (Some (mkExpr k edi)) scope => SBreak (Some (mkExpr (propagate_kind a k) edi)) scope
     | SBreak None scope => kind
     | SExpression e => SExpression (go e)
     | SLet pat e => SLet pat (go e)
     | SAssignLocal x e => SAssignLocal x (go e)
     | SAssignGlobal idx e => SAssignGlobal idx (go e)
     | SWhile e body => SWhile (go e) (map (propagate_statement a) body)
     | SAsm insns es =>
         SAsm (map (λ i, Instruction.mk (Instruction.opcode i) (Instruction.immediate i)
                           (set_codegen_print (Instruction.debug_info i) (codegen_print a || codegen_print attributes_))) insns)
              (map go es)
     | SDebugPrint e => SDebugPrint (go e)
     | SAssert e => SAssert (go e)
     end) di
with propagate_block (a : Attributes) (b : TypeCheckedCodeBlock) : TypeCheckedCodeBlock :=
  let '(mkBlock body ret scope) := b in
  mkBlock (map (propagate_statement a) body) (match ret with Some e => Some (propagate_expr a e) | None => None end) scope.

(** ** Maps in the order of their keys *)
Fixpoint btree_get {A} (k : nat) (l : list (nat * A)) : option A :=
  match l with
  | [] => None
  | (k', a) :: l => if Nat.eqb k k' then Some a else btree_get k l
  end.
Definition btree_remove {A} (k : nat) (l : list (nat * A)) : list (nat * A) := filter (λ x, x.1 ≠ k) l.
Definition btree_extend {A} (l new : list (nat * A)) : list (nat * A) := foldl (λ l x, btree_insert x.1 x.2 l) l new.

(** A loop over a vector. *)
Fixpoint fold_fm {A S} (f : A → S → FM S) (l : list A) (s : S) : FM S :=
  match l with
  | [] => mret s
  | a :: l => s ← f a s; fold_fm f l s
  end.

(** ** Used names *)
Definition use_node {A} (n : node) (imports : list (nat * A)) : list (nat * A) :=
  match n with
  | NExpr expr =>
      let nominals :=
        match expr_kind expr with
        | Cast _ tipe | Const _ tipe | NewArray _ _ tipe => find_nominals tipe
        | _ => []
        end in
      let imports := foldl (λ imports nominal, btree_remove nominal imports) imports nominals in
      match expr_kind expr with
      | FuncRef id _ => btree_remove id imports
      | _ => imports
      end
  | _ => imports
  end.

(** [flowcheck_imports]: removes what is used from the imports. *)
Fixpoint flowcheck_imports {A} (fuel : nat) (nodes : list node) (imports : list (nat * A)) : FM (list (nat * A)) :=
  match fuel with
  | O => None
  | S fuel => fold_fm (λ n imports, flowcheck_imports fuel (child_nodes n) (use_node n imports)) nodes imports
  end.

(** [determine_funcs_used] *)
Fixpoint determine_funcs_used (fuel : nat) (nodes : list node) : FM (gset nat) :=
  match fuel with
  | O => None
  | S fuel =>
      fold_fm (λ n calls,
        let calls :=
          match n with
          | NExpr expr => match expr_kind expr with FuncRef id _ => {[id]} ∪ calls | _ => calls end
          | _ => calls
          end in
        more ← determine_funcs_used fuel (child_nodes n);
        mret (calls ∪ more)) nodes ∅
  end.

(** ** Unreachable statements *)
Definition stat_location (n : node) : list Location.t :=
  match n with
  | NStat s => option_list (location (statement_debug_info s))
  | _ => []
  end.

(** What the iterator gives after the loop was left: the next and the last child. *)
Definition next_and_last (rest : list node) : list Location.t :=
  match rest with
  | [] => []
  | next :: rest => stat_location next ++ match list.last rest with Some l => stat_location l | None => [] end
  end.

Definition is_return (n : node) : bool :=
  match n with
  | NStat (mkStatement (SReturn _) _) | NStat (mkStatement SReturnVoid _) => true
  | _ => false
  end.

(** The blocks of an [if] statement. *)
Definition if_blocks (n : node) : option (list TypeCheckedCodeBlock) :=
  match n with
  | NStat (mkStatement (SExpression (mkExpr (If _ block else_block _) _)) _)
  | NStat (mkStatement (SExpression (mkExpr (IfLet _ _ block else_block _) _)) _) => Some (block :: olist else_block)
  | _ => None
  end.

Definition reachability_loop (rec_ : list node → FM (list CompileError)) :=
  fix go (children : list node) (warnings : list CompileError) : FM (list CompileError * list Location.t) :=
    match children with
    | [] => mret (warnings, [])
    | child :: rest =>
        if is_return child then mret (warnings, stat_location child ++ next_and_last rest)
        else
          warnings ←
            (match if_blocks child with
             | Some blocks => fold_fm (λ block warnings, w ← rec_ (block_nodes block); mret (warnings ++ w)) blocks warnings
             | None => w ← rec_ (child_nodes child); mret (warnings ++ w)
             end);
          go rest warnings
    end.

(** [flowcheck_reachability] of a node with these children: everything after a
    return is reported, with the return, the next and the last statement. *)
Fixpoint flowcheck_reachability (fuel : nat) (children : list node) : FM (list CompileError) :=
  match fuel with
  | O => None
  | S fuel =>
      '(warnings, locations) ← reachability_loop (flowcheck_reachability fuel) children [];
      if Nat.leb (length locations) 1 then mret warnings
      else mret (warnings ++ [CompileError_new_warning "Compile warning"
                   (if Nat.eqb (length locations) 2 then "found unreachable statement" else "found unreachable statements")
                   locations])
  end.

(** ** Values that are never used *)
Definition problems_t : Type := list (Location.t * nat).

Record live := mkLive {
  alive : list (nat * Location.t);   (* values that need to be used in this scope *)
  reborn : list (nat * Location.t);  (* values of outer scopes assigned here *)
  born : gset nat;                   (* variables of this scope *)
  killed : gset nat;                 (* values used in this scope *)
  rescue : gset nat;                 (* values of outer scopes that this scope overwrites before any use *)
}.

Definition changes : Type := gset nat * list (nat * Location.t).

Definition remove_all (ids : gset nat) (l : list (nat * Location.t)) : list (nat * Location.t) := filter (λ x, x.1 ∉ ids) l.

(** The macro [process!] on the changes of a child. *)
Definition process (c : changes) (st : live) : live :=
  let '(child_killed, child_reborn) := c in
  let st := mkLive (remove_all child_killed (alive st)) (remove_all child_killed (reborn st)) (born st) (killed st) (rescue st) in
  let st := foldl (λ st x,
    if bool_decide (x.1 ∈ born st)
    then mkLive (btree_insert x.1 x.2 (alive st)) (reborn st) (born st) (killed st) (rescue st)
    else mkLive (alive st) (btree_insert x.1 x.2 (reborn st)) (born st) (killed st) (rescue st)) st child_reborn in
  mkLive (alive st) (reborn st) (born st) (killed st ∪ child_killed) (rescue st).

(** A value that is overwritten while alive is a problem. *)
Definition overwritten (id : nat) (st : live) (problems : problems_t) : problems_t :=
  match btree_get id (alive st) with
  | Some loc => problems ++ [(loc, id)]
  | None => problems
  end.

Definition add_rescue (id : nat) (st : live) : live :=
  if bool_decide (btree_get id (alive st) = None) && bool_decide (id ∉ born st) && bool_decide (id ∉ killed st)
  then mkLive (alive st) (reborn st) (born st) (killed st) ({[id]} ∪ rescue st)
  else st.

(** An assignment to a variable: [loc] is where it became alive, [stat_loc] the statement's place. *)
Definition assign_var (id : nat) (loc : Location.t) (stat_loc : option Location.t) (st : live) (problems : problems_t)
    : FM (live * problems_t) :=
  let problems := overwritten id st problems in
  st ← (if bool_decide (id ∈ born st) then mret st
        else l ← unwrap_fm stat_loc;
             mret (mkLive (alive st) (btree_insert id l (reborn st)) (born st) (killed st) (rescue st)));
  let st := add_rescue id st in
  mret (mkLive (btree_insert id loc (alive st)) (reborn st) (born st) (killed st) (rescue st), problems).

(** A new variable. *)
Definition bind_var (id : nat) (loc : Location.t) (st : live) (problems : problems_t) : live * problems_t :=
  let problems := if bool_decide (id ∈ born st) then overwritten id st problems else problems in
  let st := add_rescue id st in
  (mkLive (btree_insert id loc (alive st)) (reborn st) ({[id]} ∪ born st) (killed st) (rescue st), problems).

(** A pattern that assigns starts with a star: the column is one to the right. *)
Definition pattern_location (assigns : bool) (loc : Location.t) : Location.t :=
  Location.mk (Location.line loc) ((Location.column loc + (if assigns then 1 else 0)) mod 2 ^ 32)%Z
    (Location.absolute loc) (Location.file_id loc).

Fixpoint pattern_ids (ids : list (nat * bool * DebugInfo)) : FM (list (nat * bool * Location.t)) :=
  match ids with
  | [] => mret []
  | (id, assigns, di) :: ids =>
      loc ← unwrap_fm (location di);
      rest ← pattern_ids ids;
      mret ((id, assigns, pattern_location assigns loc) :: rest)
  end.

(** The value of a variable is used. *)
Definition use_var (id : nat) (st : live) : live :=
  mkLive (btree_remove id (alive st)) (btree_remove id (reborn st)) (born st) ({[id]} ∪ killed st) (rescue st).

(** The variable a node reads; the slot of a field counts as a variable. *)
Definition read_var (k : TypeCheckedExprKind) : option nat :=
  match k with
  | DotRef _ id _ _ | LocalVariableRef id _ => Some id
  | _ => None
  end.

(** Whether the children of a node are a loop. *)
Definition is_loop (n : node) : bool :=
  match n with
  | NStat (mkStatement (SWhile _ _) _) | NExpr (mkExpr (Loop _) _) => true
  | _ => false
  end.

Section liveliness.
Context (rec_ : list node → problems_t → bool → FM (problems_t * changes)).

Definition process_nodes (nodes : list node) (loop_pass : bool) (st : live) (problems : problems_t) : FM (live * problems_t) :=
  '(problems, c) ← rec_ nodes problems loop_pass;
  mret (process c st, problems).

(** The parts of a condition, one after the other; [extend!] *)
Definition branch_changes (parts : list (list node)) (problems : problems_t) : FM (problems_t * changes) :=
  fold_fm (λ part acc,
    let '(problems, (if_killed, if_reborn)) := acc in
    '(problems, (child_killed, child_reborn)) ← rec_ part problems false;
    mret (problems, (if_killed ∪ child_killed, btree_extend if_reborn child_reborn))) parts (problems, (∅, [])).

(** The first pass on one node. *)
Definition live_node (n : node) (acc : live * problems_t) : FM (live * problems_t) :=
  let '(st, problems) := acc in
  match n with
  | NStat (mkStatement (SAssignLocal id expr) di) =>
      '(st, problems) ← process_nodes [NExpr expr] false st problems;
      loc ← unwrap_fm (location di);
      assign_var id loc (location di) st problems
  | NStat (mkStatement (SLet pat expr) di) =>
      '(st, problems) ← process_nodes [NExpr expr] false st problems;
      ids ← pattern_ids (collect_identifiers pat);
      fold_fm (λ i acc,
        let '(st, problems) := acc in
        let '(id, assigns, loc) := i in
        if (assigns : bool) then assign_var id loc (location di) st problems
        else mret (bind_var id loc st problems)) ids (st, problems)
  | NStat (mkStatement (SBreak optional_expr _) _) => process_nodes (NExpr <$> olist optional_expr) false st problems
  | NExpr (mkExpr (If cond block else_block _) _) | NExpr (mkExpr (IfLet _ cond block else_block _) _) =>
      '(problems, c) ← branch_changes ([NExpr cond] :: block_nodes block :: (block_nodes <$> olist else_block)) problems;
      mret (process c st, problems)
  | NField field => process_nodes [NExpr (fi_value field)] false st problems
  | NExpr e =>
      let st := match read_var (expr_kind e) with Some id => use_var id st | None => st end in
      process_nodes (child_nodes n) (is_loop n) st problems
  | _ => process_nodes (child_nodes n) (is_loop n) st problems
  end.

(** The second pass of a loop: only variables of outer scopes get another chance. *)
Definition forget (ids : gset nat) (st : live) : live :=
  mkLive (remove_all (ids ∖ born st) (alive st)) (remove_all (ids ∖ born st) (reborn st)) (born st) (killed st) (rescue st).
Definition loop_node (n : node) (st : live) : FM live :=
  let st :=
    match n with
    | NExpr e => match read_var (expr_kind e) with Some id => forget {[id]} st | None => st end
    | _ => st
    end in
  '(_, (child_killed, _)) ← rec_ (child_nodes n) [] (is_loop n);
  mret (forget child_killed st).
End liveliness.

(** [flowcheck_liveliness] of a scope: the problems, the values it has used
    and those it has assigned. *)
Fixpoint flowcheck_liveliness (fuel : nat) (nodes : list node) (problems : problems_t) (loop_pass : bool)
    : FM (problems_t * changes) :=
  match fuel with
  | O => None
  | S fuel =>
      let rec_ := flowcheck_liveliness fuel in
      '(st, problems) ← fold_fm (live_node rec_) nodes (mkLive [] [] ∅ ∅ ∅, problems);
      st ← (if loop_pass then fold_fm (loop_node rec_) nodes st else mret st);
      let problems := problems ++ ((λ x, (x.2, x.1)) <$> filter (λ x, x.1 ∈ born st) (alive st)) in
      mret (problems, (killed st ∖ rescue st, reborn st))
  end.

(** ** Functions *)
(** [starts_with('_')] *)
Definition starts_with_underscore (s : string) : bool := match s with String c _ => Nat.eqb (Ascii.nat_of_ascii c) 95 | EmptyString => false end.

Definition warning (description : string) (locations : list Location.t) : CompileError :=
  CompileError_new_warning "Compile warning" description locations.

(** The warnings about the arguments of a function. *)
Definition arg_warnings (string_table : StringTable.t) (name : nat) (c : changes) (arg : FuncArg) (warnings : list CompileError)
    : FM (list CompileError) :=
  arg_name ← unwrap_fm (StringTable.name_from_id string_table (fa_name arg));
  if starts_with_underscore arg_name then mret warnings
  else
    warnings ← (if bool_decide (fa_name arg ∈ c.1) then mret warnings
                else _ ← unwrap_fm (StringTable.name_from_id string_table name);
                     mret (warnings ++ [warning "func's argument is declared but never used"
                                          (option_list (location (fa_debug_info arg)))]));
    match btree_get (fa_name arg) c.2 with
    | Some loc =>
        _ ← unwrap_fm (StringTable.name_from_id string_table name);
        mret (warnings ++ [warning "func's argument is assigned but never used" [loc]])
    | None => mret warnings
    end.

Definition unused_warning (string_table : StringTable.t) (p : Location.t * nat) (warnings : list CompileError)
    : FM (list CompileError) :=
  name ← unwrap_fm (StringTable.name_from_id string_table p.2);
  mret (if starts_with_underscore name then warnings
        else warnings ++ [warning "value is assigned but never used" [p.1]]).

(** [TypeCheckedFunc::flowcheck]: the imports left and the warnings. *)
Definition flowcheck {A} (fuel : nat) (f : TypeCheckedFunc) (imports : list (nat * A)) (string_table : StringTable.t)
    : FM (list (nat * A) * list CompileError) :=
  imports ← flowcheck_imports fuel (func_nodes f) imports;
  let imports := foldl (λ imports id, btree_remove id imports) imports (find_nominals (f_tipe f)) in
  warnings ← flowcheck_reachability fuel (func_nodes f);
  '(unused_assignments, c) ← flowcheck_liveliness fuel (func_nodes f) [] false;
  warnings ← fold_fm (arg_warnings string_table (f_name f) c) (f_args f) warnings;
  warnings ← fold_fm (unused_warning string_table) unused_assignments warnings;
  mret (imports, warnings).

(** ** The walks end *)
Lemma fm_bind_ok {A B} (m : FM A) (k : A → FM B) b : mbind k m = Some (Ok b) → ∃ a, m = Some (Ok a) ∧ k a = Some (Ok b).
Proof. destruct m as [[a| |]|]; try done. eauto. Qed.

Lemma fm_bind_ends {A B} (m : FM A) (k : A → FM B) : m ≠ None → (∀ a, k a ≠ None) → mbind k m ≠ None.
Proof. destruct m as [[a| |]|]; try done. intros _ Hk. apply Hk. Qed.

Lemma unwrap_ends {A} (o : option A) : unwrap_fm o ≠ None.
Proof. by destruct o. Qed.

Lemma fold_fm_ends {A S} (f : A → S → FM S) l : ∀ s, Forall (λ a, ∀ s, f a s ≠ None) l → fold_fm f l s ≠ None.
Proof.
  induction l as [|a l IH]; intros s Hl; [done|]. apply list.Forall_cons in Hl as [Ha Hl]. cbn [fold_fm].
  apply fm_bind_ends; [apply Ha|]. intros s'. by apply IH.
Qed.

Lemma all_fm_ends {A} (f : A → FM bool) l : Forall (λ a, f a ≠ None) l → all_fm f l ≠ None.
Proof.
  induction 1 as [|a l Ha _ IH]; [done|]. cbn [all_fm]. apply fm_bind_ends; [done|]. by intros [].
Qed.

Lemma is_pure_ends fuel : ∀ n, fits fuel n → is_pure fuel n ≠ None.
Proof.
  induction fuel as [|fuel IH]; intros n Hn; [done|]. apply fits_child in Hn.
  assert (all_fm (is_pure fuel) (child_nodes n) ≠ None) as Hall.
  { apply all_fm_ends. eapply list.Forall_impl; [exact Hn|]. exact IH. }
  cbn [is_pure]. destruct n as [s|e|f|t]; cbn [child_nodes] in *.
  - destruct (statement_kind s); try done. by destruct (forallb _ _).
  - destruct (expr_kind e); try done; [by destruct t|by destruct (forallb _ _)].
  - apply list.Forall_cons in Hn as [Hn _]. by apply IH.
  - done.
Qed.

Lemma flowcheck_imports_ends {A} fuel : ∀ nodes (imports : list (nat * A)), Forall (fits fuel) nodes →
  flowcheck_imports (S fuel) nodes imports ≠ None.
Proof.
  induction fuel as [|fuel IH]; intros nodes imports Hn; cbn [flowcheck_imports]; apply fold_fm_ends.
  - destruct nodes; [constructor|]. by apply list.Forall_cons in Hn as [? _].
  - eapply list.Forall_impl; [exact Hn|]. intros n Hf s. by apply (IH (child_nodes n)), fits_child.
Qed.

Lemma determine_funcs_used_ends fuel : ∀ nodes, Forall (fits fuel) nodes → determine_funcs_used (S fuel) nodes ≠ None.
Proof.
  induction fuel as [|fuel IH]; intros nodes Hn; cbn [determine_funcs_used]; apply fold_fm_ends.
  - destruct nodes; [constructor|]. by apply list.Forall_cons in Hn as [? _].
  - eapply list.Forall_impl; [exact Hn|]. intros n Hf s. apply fm_bind_ends; [by apply (IH (child_nodes n)), fits_child|done].
Qed.

(** The nodes of a block of an [if] statement lie below it. *)
Lemma if_blocks_fit fuel n blocks : fits (S (S fuel)) n → if_blocks n = Some blocks →
  Forall (λ b, Forall (fits fuel) (block_nodes b)) blocks.
Proof.
  intros Hn Hb. destruct n as [[k di]| | |]; try done. destruct k; try done. destruct e as [k' di'].
  destruct k'; try done; injection Hb as <-; apply fits_child in Hn;
    apply list.Forall_cons in Hn as [Hn _]; apply fits_child in Hn;
    apply list.Forall_cons in Hn as [_ Hn]; apply list.Forall_app in Hn as [H1 H2]; constructor; try done;
    destruct else_block; repeat constructor; cbn in H2; by rewrite app_nil_r in H2.
Qed.

Lemma reachability_loop_ends rec_ children : Forall (λ n, rec_ (child_nodes n) ≠ None ∧
  ∀ bs, if_blocks n = Some bs → Forall (λ b, rec_ (block_nodes b) ≠ None) bs) children →
  ∀ w, reachability_loop rec_ children w ≠ None.
Proof.
  induction 1 as [|n rest [Hn Hb] _ IH]; intros w; [done|]. cbn [reachability_loop]. destruct (is_return n); [done|].
  apply fm_bind_ends; [|done]. destruct (if_blocks n) as [bs|].
  - apply fold_fm_ends. eapply list.Forall_impl; [by apply Hb|]. intros b Hr s. by apply fm_bind_ends.
  - by apply fm_bind_ends.
Qed.

Lemma flowcheck_reachability_ends fuel : ∀ children, Forall (fits fuel) children →
  flowcheck_reachability (S fuel) children ≠ None.
Proof.
  induction fuel as [fuel IH] using lt_wf_ind; intros children Hn. cbn [flowcheck_reachability].
  apply fm_bind_ends; [|intros [w l]; by destruct (Nat.leb _ _)]. apply reachability_loop_ends.
  destruct fuel as [|fuel]; [destruct children; [constructor|by apply list.Forall_cons in Hn as [? _]]|].
  eapply list.Forall_impl; [exact Hn|]. intros n Hf. split; [apply IH; [lia|by apply fits_child]|]. intros bs Hbs.
  destruct fuel as [|fuel].
  { destruct n as [[k di]| | |]; try done. destruct k; try done. apply fits_child in Hf.
    by apply list.Forall_cons in Hf as [? _]. }
  eapply list.Forall_impl; [by eapply if_blocks_fit|]. intros b Hfb. apply IH; [lia|].
  by apply (fits_more fuel); [lia|].
Qed.

Lemma process_ends rec_ nodes b st problems : rec_ nodes problems b ≠ None → process_nodes rec_ nodes b st problems ≠ None.
Proof. intros Hr. apply fm_bind_ends; [done|]. by intros [p c]. Qed.

Lemma assign_var_ends id loc sl st problems : assign_var id loc sl st problems ≠ None.
Proof.
  apply fm_bind_ends; [|done]. destruct (bool_decide _); [done|]. apply fm_bind_ends; [apply unwrap_ends|done].
Qed.

Lemma pattern_ids_ends ids : pattern_ids ids ≠ None.
Proof.
  induction ids as [|[[id a] di] ids IH]; [done|]. cbn [pattern_ids]. apply fm_bind_ends; [apply unwrap_ends|]. intros l.
  by apply fm_bind_ends.
Qed.

Lemma condition_ends rec_ n cond block else_block problems :
  child_nodes n = NExpr cond :: block_nodes block ++ flat_map block_nodes (olist else_block) →
  (∀ ns problems b, (∀ x, x ∈ ns → x ∈ parts n ∨ x ∈ child_nodes n) → rec_ ns problems b ≠ None) →
  branch_changes rec_ ([NExpr cond] :: block_nodes block :: (block_nodes <$> olist else_block)) problems ≠ None.
Proof.
  intros Hn Hr. apply fold_fm_ends, list.Forall_forall. intros part Hpart [p [ik ir]].
  apply fm_bind_ends; [|by intros [? [? ?]]]. apply Hr. intros x Hx. right. rewrite Hn.
  apply elem_of_cons in Hpart as [->|[->|Hpart]%elem_of_cons]; [rewrite ?elem_of_cons, ?elem_of_app; set_solver..|].
  apply elem_of_cons. right. apply elem_of_app. right. destruct else_block; [|by apply elem_of_nil in Hpart].
  apply list_elem_of_singleton in Hpart as ->. cbn. by rewrite app_nil_r.
Qed.

(** A node is analysed if everything below it is. *)
Lemma live_node_ends rec_ n : (∀ ns problems b, (∀ x, x ∈ ns → x ∈ parts n ∨ x ∈ child_nodes n) → rec_ ns problems b ≠ None) →
  ∀ acc, live_node rec_ n acc ≠ None.
Proof.
  intros Hr [st problems].
  assert (process_nodes rec_ (child_nodes n) (is_loop n) st problems ≠ None) as Hdefault.
  { apply process_ends, Hr. auto. }
  destruct n as [[k di]|[k di]|f|t]; cbn [live_node].
  - destruct k; try done.
    + apply process_ends, Hr. auto.
    + apply fm_bind_ends; [apply process_ends, Hr; auto|]. intros [st' p']. apply fm_bind_ends; [apply pattern_ids_ends|].
      intros ids. apply fold_fm_ends, list.Forall_forall. intros [[id a] l] _ [st2 p2].
      destruct a; [apply assign_var_ends|done].
    + apply fm_bind_ends; [apply process_ends, Hr; auto|]. intros [st' p']. apply fm_bind_ends; [apply unwrap_ends|].
      intros l. apply assign_var_ends.
  - destruct k; try done; try (apply process_ends, Hr; auto; fail).
    + apply fm_bind_ends; [|by intros [p c]]. eapply condition_ends; [|exact Hr]; done.
    + apply fm_bind_ends; [|by intros [p c]]. eapply condition_ends; [|exact Hr]; done.
  - apply process_ends, Hr. auto.
  - apply process_ends, Hr. auto.
Qed.

Lemma flowcheck_liveliness_ends fuel : ∀ nodes problems b, Forall (fits fuel) nodes →
  flowcheck_liveliness (S fuel) nodes problems b ≠ None.
Proof.
  induction fuel as [|fuel IH]; intros nodes problems b Hn.
  { destruct nodes; [by destruct b|by apply list.Forall_cons in Hn as [? _]]. }
  rewrite list.Forall_forall in Hn.
  assert (∀ n, n ∈ nodes → ∀ ns p b', (∀ x, x ∈ ns → x ∈ parts n ∨ x ∈ child_nodes n) →
            flowcheck_liveliness (S fuel) ns p b' ≠ None) as Hrec.
  { intros n Hin ns p b' Hns. apply IH, list.Forall_forall. intros x Hx. specialize (Hn n Hin).
    destruct (Hns x Hx) as [Hp|Hc].
    - cbn [fits] in Hn. rewrite list.Forall_forall in Hn. by apply Hn.
    - apply fits_child in Hn. rewrite list.Forall_forall in Hn. by apply Hn. }
  cbn [flowcheck_liveliness]. apply fm_bind_ends.
  { apply fold_fm_ends, list.Forall_forall. intros n Hin acc. apply live_node_ends. by apply Hrec. }
  intros [st p]. apply fm_bind_ends; [|done]. destruct b; [|done].
  apply fold_fm_ends, list.Forall_forall. intros n Hin st'. apply fm_bind_ends; [|by intros [? [? ?]]].
  apply (Hrec n Hin). auto.
Qed.

(** Control flow analysis ends on every function. *)
Lemma flowcheck_ends {A} f (imports : list (nat * A)) st : ∃ fuel, ∀ fuel', fuel <= fuel' → flowcheck fuel' f imports st ≠ None.
Proof.
  destruct (fits_list (func_nodes f)) as [fuel Hf]. exists (S fuel). intros [|fuel'] Hle; [lia|].
  apply (fits_more _ fuel') in Hf; [|lia]. unfold flowcheck.
  apply fm_bind_ends; [by apply flowcheck_imports_ends|]. intros imps.
  apply fm_bind_ends; [by apply flowcheck_reachability_ends|]. intros w.
  apply fm_bind_ends; [by apply flowcheck_liveliness_ends|]. intros [un c].
  apply fm_bind_ends.
  { apply fold_fm_ends, list.Forall_forall. intros a _ s. apply fm_bind_ends; [apply unwrap_ends|]. intros nm.
    destruct (starts_with_underscore nm); [done|]. apply fm_bind_ends.
    - destruct (bool_decide _); [done|]. apply fm_bind_ends; [apply unwrap_ends|done].
    - intros w'. destruct (btree_get _ _); [|done]. apply fm_bind_ends; [apply unwrap_ends|done]. }
  intros w'. apply fm_bind_ends; [|done].
  apply fold_fm_ends, list.Forall_forall. intros p _ s. apply fm_bind_ends; [apply unwrap_ends|done].
Qed.
