(* ===== verification/Purity.v ===== *)
(** * Pure functions do not touch globals

    The compiler marks functions as pure or impure and warns when the mark and
    [is_pure] disagree.  In the reference semantics a function that is pure in
    this sense neither depends on the globals nor changes them, provided that
    calls name their function and patterns bind new variables only: a call
    through a variable and an assignment to a global inside a pattern are not
    seen by [is_pure]. *)

From Stdlib Require Import ZArith Lia.
From S2P Require Import Prelude U256 StringTab Pos Opcodes Crypto BufferTree Values Insns InsnFacts StraightLine TupleTree StripLabels Types TypesThms TypedAst Ast Link Codegen TypecheckOps Typecheck FixedArray ValueTypes VirtualMachine Semantics TypeSound TypecheckSound CodegenThms CodegenModules CodegenRuns CodegenSound CodegenStatements CodegenCorrect TypeSoundness Flow.

#[local] Set Warnings "-clear-no-such-hyp,-register-all".

(** ** Computations that do not touch the globals *)
Definition with_globals (g : list Value.t) (r : res) : res :=
  match r with
  | RVal v σ => RVal v (mkSt (env σ) g)
  | RRet v σ => RRet v (mkSt (env σ) g)
  end.
Definition res_globals (r : res) : list Value.t := match r with RVal _ σ | RRet _ σ => globals σ end.

Definition indep (m : sem) : Prop := ∀ e g r, m (mkSt e g) = Some r →
  res_globals r = g ∧ ∀ g', m (mkSt e g') = Some (with_globals g' r).

Lemma indep_at m σ r : indep m → m σ = Some r → res_globals r = globals σ ∧ ∀ g', m (mkSt (env σ) g') = Some (with_globals g' r).
Proof. destruct σ as [e g]. intros Hm. apply Hm. Qed.

Lemma indep_none : indep (λ _, None).
Proof. done. Qed.
Lemma indep_give o : indep (give o).
Proof. intros e g r (v & -> & [= <-])%bind_Some. done. Qed.
Lemma indep_skip : indep skip.
Proof. by intros e g r [= <-]. Qed.
Lemma indep_local x : indep (sem_local x).
Proof. intros e g r Hr. by apply (indep_give (assoc x e) e). Qed.

Lemma indep_value b m k : indep m → (∀ v, indep (k v)) → indep (value_of b m k).
Proof.
  intros Hm Hk e g r (r1 & H1 & Hr)%bind_Some. destruct (Hm _ _ _ H1) as [Hg Hall].
  destruct r1 as [[v|] [e1 g1]|[v|] [e1 g1]]; cbn in Hg; subst; try done.
  - destruct (Hk v _ _ _ Hr) as [Hg' Hall']. split; [done|]. intros g'. unfold value_of. rewrite Hall. apply Hall'.
  - injection Hr as <-. split; [done|]. intros g'. unfold value_of. by rewrite Hall.
  - destruct b; [done|]. injection Hr as <-. split; [done|]. intros g'. unfold value_of. by rewrite Hall.
Qed.

Lemma indep_then m k : indep m → indep k → indep (then_sem m k).
Proof.
  intros Hm Hk e g r (r1 & H1 & Hr)%bind_Some. destruct (Hm _ _ _ H1) as [Hg Hall].
  destruct r1 as [v [e1 g1]|v [e1 g1]]; cbn in Hg; subst.
  - destruct (Hk _ _ _ Hr) as [Hg' Hall']. split; [done|]. intros g'. unfold then_sem. rewrite Hall. apply Hall'.
  - injection Hr as <-. split; [done|]. intros g'. unfold then_sem. by rewrite Hall.
Qed.

Lemma indep_scoped m : indep m → indep (scoped m).
Proof.
  intros Hm e g r (r1 & H1 & Hr)%bind_Some. destruct (Hm _ _ _ H1) as [Hg Hall].
  destruct r1 as [v [e1 g1]|v [e1 g1]]; cbn in Hg; subst; injection Hr as <-; (split; [done|]); intros g'; unfold scoped;
    by rewrite Hall.
Qed.

Lemma indep_operands ms : ∀ vals k, Forall indep ms → (∀ vals, indep (k vals)) → indep (operands ms vals k).
Proof.
  induction ms as [|m ms IH]; intros vals k Hms Hk; cbn [operands]; [done|]. apply list.Forall_cons in Hms as [Hm Hms].
  apply indep_value; [done|]. intros v. by apply IH.
Qed.

Lemma indep_sequence ms : Forall indep ms → indep (sequence ms).
Proof. induction 1; cbn [sequence]; [apply indep_skip|by apply indep_then]. Qed.

Lemma indep_match_int v (k : Z → sem) : (∀ z, indep (k z)) → indep (match v with Value.Int z => k z | _ => λ _, None end).
Proof. intros Hk. destruct v; try apply indep_none. apply Hk. Qed.

Lemma indep_choose c t e : indep t → indep e → indep (choose c t e).
Proof. intros Ht He. unfold choose. destruct (is_truth c); [|apply indep_none]. by destruct (c =? 0)%Z. Qed.

Lemma indep_held (o : option Value.t) (k : Value.t → sem) : (∀ y, indep (k y)) → indep (λ σ, y ← o; k y σ).
Proof. intros Hk. destruct o as [y|]; [apply Hk|apply indep_none]. Qed.

Lemma indep_if c t e : indep c → indep t → indep e → indep (sem_if c t e).
Proof. intros Hc Ht He. apply indep_value; [done|]. intros v. apply indep_match_int. intros z. by apply indep_choose. Qed.

Lemma indep_or m1 m2 : indep m1 → indep m2 → indep (sem_or m1 m2).
Proof.
  intros H1 H2. apply indep_value; [done|]. intros v. destruct v; try apply indep_none. destruct (_ =? 0)%Z; [done|apply indep_give].
Qed.
Lemma indep_and m1 m2 : indep m1 → indep m2 → indep (sem_and m1 m2).
Proof.
  intros H1 H2. apply indep_value; [done|]. intros v. destruct v; try apply indep_none. by apply indep_choose; [|apply indep_give].
Qed.

Lemma indep_bind x v m : indep m → indep (bind_local x v m).
Proof. intros Hm. apply (indep_scoped (λ σ, m (mkSt ((x, v) :: env σ) (globals σ)))). intros e g r. apply Hm. Qed.

Lemma indep_while n c b : indep c → indep b → indep (sem_while n c b).
Proof.
  intros Hc Hb. induction n as [|n IH]; cbn [sem_while]; [apply indep_none|]. apply indep_if; [done| |apply indep_skip].
  apply indep_then; [by apply indep_scoped|done].
Qed.

Lemma indep_try m : indep m → indep (sem_try m).
Proof.
  intros Hm. apply indep_value; [done|]. intros v e g r ([tag held] & Hp & Hr)%bind_Some. rewrite Hp. cbn.
  destruct (tag =? 0)%Z; [by injection Hr as <-|]. by apply indep_give.
Qed.

Lemma indep_if_let x m t e : indep m → indep t → indep e → indep (sem_if_let x m t e).
Proof.
  intros Hm Ht He. apply indep_value; [done|]. intros v e' g r ([tag held] & Hp & Hr)%bind_Some. rewrite Hp. cbn.
  revert Hr. apply indep_choose; [|done]. apply indep_held. intros y. by apply indep_bind.
Qed.

(** ** Calls *)
Section pure.
Context `{Crypto}.
Context (callf : Label.t → list Value.t → list Value.t → option (option Value.t * list Value.t))
        (string_table : StringTable.t) (imports : gmap nat Label.t) (global_map : gmap nat nat) (release : bool) (sfuel : nat)
        (declared : nat → Tipe.t → Prop).

Abbreviation ev_expr := (eval_expr callf string_table imports global_map release sfuel).
Abbreviation ev_stat := (eval_statement callf string_table imports global_map release sfuel).
Abbreviation ev_block := (eval_block callf string_table imports global_map release sfuel).

(** A function that does not touch the globals. *)
Definition pure_label (l : Label.t) : Prop := ∀ vals g v g', callf l vals g = Some (v, g') →
  g' = g ∧ ∀ g2, callf l vals g2 = Some (v, g2).

Hypothesis pure_functions : ∀ id ts ret, declared id (Tipe.Func false ts ret) → pure_label (func_label imports id).
Hypothesis pure_builtins : ∀ b id, b ∈ "builtin_assert" :: libraries → StringTable.get_if_exists string_table b = Some id →
  pure_label (func_label imports id).

Lemma indep_call id args t : pure_label (func_label imports id) → Forall indep args →
  indep (sem_call callf (sem_func_ref imports id) args t).
Proof using Type.
  intros Hl Hargs. unfold sem_call. destruct (type_eq _ _); [apply indep_none|].
  apply indep_operands; [by apply List.Forall_rev|]. intros vals e g r Hr. cbn in Hr.
  apply bind_Some in Hr as ([v g1] & Hcall & [= <-]). destruct (Hl _ _ _ _ Hcall) as [-> Hall]. split; [done|]. intros g'.
  cbn. fold (func_label imports id). by rewrite Hall.
Qed.

Lemma indep_builtin b args t : b ∈ "builtin_assert" :: libraries → Forall indep args →
  indep (sem_builtin callf string_table imports b args t).
Proof using pure_builtins.
  intros Hb Hargs. unfold sem_builtin. destruct (StringTable.get_if_exists string_table b) as [id|] eqn:Eid; [|apply indep_none].
  apply indep_call; [by eapply pure_builtins|done].
Qed.

(** ** What [is_pure] says of a tree *)
Definition pure_tree (n : node) : Prop := ∃ fuel, is_pure fuel n = Some (Ok true).

Lemma all_fm_true {A} (f : A → FM bool) l : all_fm f l = Some (Ok true) → Forall (λ a, f a = Some (Ok true)) l.
Proof using Type.
  induction l as [|a l IH]; [constructor|]. cbn [all_fm]. intros (b & Hb & Hl)%fm_bind_ok. destruct b; [|done].
  constructor; [done|]. by apply IH.
Qed.

Definition pure_here (n : node) : Prop :=
  match n with
  | NStat (mkStatement (SAssignGlobal _ _) _) | NExpr (mkExpr (GlobalVariableRef _ _) _) => False
  | NExpr (mkExpr (FuncRef _ t) _) => ∃ ts ret, t = Tipe.Func false ts ret
  | _ => True
  end.

Lemma pure_tree_inv n : pure_tree n → pure_here n ∧
  (match n with NStat (mkStatement (SBreak _ _) _) | NType _ => True | _ => Forall pure_tree (parts n) end).
Proof using Type.
  intros [[|fuel] Hp]; [done|]. cbn [is_pure] in Hp.
  assert (all_fm (is_pure fuel) (child_nodes n) = Some (Ok true) → Forall pure_tree (child_nodes n)) as Hall.
  { intros Ha%all_fm_true. eapply list.Forall_impl; [exact Ha|]. intros x Hx. by exists fuel. }
  destruct n as [[k di]|[k di]|f|t]; cbn [parts] in *.
  - destruct k; cbn [statement_kind] in Hp; try done; try (split; [done|]; first [by auto | by constructor]).
    destruct (forallb _ _); [|done]. split; [done|auto].
  - destruct k; cbn [expr_kind] in Hp; try done; try (split; [done|]; by auto).
    + destruct t; try done. injection Hp as Hi. destruct impure; [done|]. split; [by do 2 eexists|constructor].
    + destruct (forallb _ _); [|done]. split; [done|auto].
  - split; [done|]. repeat constructor. by exists fuel.
  - done.
Qed.

(** ** Trees in which purity means what it should *)

(** Calls name their function, references to functions have their declared
    types, patterns bind new variables only. *)
Definition direct (n : node) : Prop :=
  match n with
  | NExpr (mkExpr (FunctionCall f _ _ _) _) => match expr_kind f with FuncRef _ _ => True | _ => False end
  | NExpr (mkExpr (FuncRef id t) _) => declared id t
  | NStat (mkStatement (SLet pat _) _) => binds_only pat = true
  | _ => True
  end.

Inductive everywhere (P : node → Prop) : node → Prop :=
| everywhere_intro n : P n → Forall (everywhere P) (parts n) → everywhere P n.

Lemma everywhere_inv P n : everywhere P n → P n ∧ Forall (everywhere P) (parts n).
Proof using Type. by inversion 1. Qed.

Definition good (n : node) : Prop := everywhere direct n ∧ pure_tree n.

Lemma good_inv n : good n → direct n ∧ pure_here n ∧
  (match n with NStat (mkStatement (SBreak _ _) _) | NType _ => True | _ => Forall good (parts n) end).
Proof using Type.
  intros [[Hd Hparts]%everywhere_inv [Hp Hpure]%pure_tree_inv]. split; [done|]. split; [done|].
  assert (Forall pure_tree (parts n) → Forall good (parts n)) as Hboth.
  { intros Ht. rewrite list.Forall_forall in Hparts, Ht |- *. intros x Hx. split; auto. }
  destruct n as [[[] ?]|[[] ?]| |]; auto.
Qed.

Lemma bind_pattern_globals : ∀ p, binds_only p = true → ∀ v new σ new' σ',
  bind_pattern global_map p v new σ = Some (new', σ') →
  σ' = σ ∧ ∀ σ2, bind_pattern global_map p v new σ2 = Some (new', σ2).
Proof using Type.
  fix IH 1. intros [[x|x|pats] di t] Hb v new σ new' σ' Hr; cbn [binds_only bind_pattern] in *; [by injection Hr as <- <-|done|].
  destruct (is_empty pats); [done|]. revert Hb Hr. generalize 0, (length pats). intros i size.
  revert i new σ. induction pats as [|p pats IHp]; intros i new σ Hb Hr; [by injection Hr as <- <-|].
  cbn [forallb bind_loop] in *. apply andb_prop in Hb as [Hb Hbs]. apply bind_Some in Hr as (x & Hx & Hr).
  apply bind_Some in Hr as ([new1 σ1] & Hp & Hr). destruct (IH p Hb _ _ _ _ _ Hp) as [-> Hall].
  destruct (IHp _ _ _ Hbs Hr) as [-> Hall2]. split; [done|]. intros σ2. rewrite Hx. cbn. rewrite Hall. cbn. apply Hall2.
Qed.

Lemma indep_let p m : binds_only p = true → indep m → indep (sem_let global_map p m).
Proof using Type.
  intros Hb Hm. apply indep_value; [done|]. intros v e g r ([new σ] & Hp & [= <-])%bind_Some.
  destruct (bind_pattern_globals p Hb _ _ _ _ _ Hp) as [-> Hall]. split; [done|]. intros g'. by rewrite Hall.
Qed.

Lemma indep_assign x m : indep m → indep (sem_assign_local x m).
Proof using Type.
  intros Hm. apply indep_value; [done|]. intros v e g r (e' & He & [= <-])%bind_Some. split; [done|]. intros g'. cbn in *.
  by rewrite He.
Qed.

Lemma indep_expression t m : indep m → indep (sem_expression t m).
Proof using Type.
  intros Hm. unfold sem_expression. destruct (_ || _); [|apply indep_value; [done|intros; apply indep_skip]].
  intros e g r (r1 & H1 & Hr)%bind_Some. destruct (Hm _ _ _ H1) as [Hg Hall].
  destruct r1 as [[v|] σ1|o σ1]; try done; injection Hr as <-; (split; [done|]); intros g'; by rewrite Hall.
Qed.

Lemma indep_assert m : indep m → indep (sem_assert callf string_table imports release m).
Proof using pure_builtins.
  intros Hm. unfold sem_assert. destruct release; [apply indep_skip|]. intros e g r (r1 & H1 & Hr)%bind_Some.
  eapply (indep_builtin "builtin_assert" [m]) in H1 as [Hg Hall]; [|by left|by apply List.Forall_cons, List.Forall_nil].
  destruct r1 as [[v|] σ1|o σ1]; try done; injection Hr as <-; (split; [done|]); intros g'; by rewrite Hall.
Qed.

Lemma indep_block body ret : Forall indep body → indep (from_option id skip ret) → indep (sem_block body ret).
Proof using Type.
  intros Hb Hr. apply indep_scoped, indep_then; [by apply indep_sequence|]. by destruct ret.
Qed.

Ltac good_parts Hg := let Hd := fresh "Hd" in let Hh := fresh "Hh" in let Hp := fresh "Hp" in
  apply good_inv in Hg as (Hd & Hh & Hp); cbn [parts child_nodes expr_nodes stat_nodes statement_kind expr_kind] in Hp.

Definition good_block (b : TypeCheckedCodeBlock) : Prop := Forall good (block_nodes b).

Lemma indep_values es (f : TypeCheckedExpr → sem) : Forall (λ e, good (NExpr e) → indep (f e)) es →
  Forall good (NExpr <$> es) → Forall indep (map f es).
Proof using Type.
  induction 1 as [|e es He _ IH]; intros Hg; [constructor|]. apply list.Forall_cons in Hg as [Hg Hgs]. constructor; auto.
Qed.

Lemma indep_struct ms : Forall indep ms → indep (sem_struct ms).
Proof using Type. intros Hms. apply indep_operands; [by apply List.Forall_rev|]. intros. apply indep_give. Qed.

Lemma indep_fields fields : Forall (λ e, good (NExpr e) → indep (ev_expr e)) (fi_value <$> fields) →
  Forall good (NField <$> fields) → Forall indep (map (λ f, ev_expr (fi_value f)) fields).
Proof using Type.
  induction fields as [|f fields IH]; intros He Hg; [constructor|]. apply list.Forall_cons in He as [He Hes], Hg as [Hg Hgs].
  constructor; [|by apply IH]. apply He. good_parts Hg. by apply list.Forall_cons in Hp as [? _].
Qed.

Lemma indep_direct_call f args t : direct (NExpr (mkExpr (FunctionCall f args t (mkPropertiesList true)) DebugInfo_default)) →
  good (NExpr f) → Forall indep (map ev_expr args) → indep (sem_call callf (ev_expr f) (map ev_expr args) t).
Proof using pure_functions.
  intros Hd Hg Hargs. destruct f as [k di]. destruct k; try done. good_parts Hg. destruct Hh as (ts & ret & ->).
  apply indep_call; [by eapply pure_functions|done].
Qed.

Lemma indep_stats stats (f : TypeCheckedStatement → sem) : Forall (λ st, good (NStat st) → indep (f st)) stats →
  Forall good (NStat <$> stats) → Forall indep (map f stats).
Proof using Type.
  induction 1 as [|st stats He _ IH]; intros Hg; [constructor|]. apply list.Forall_cons in Hg as [Hg Hgs]. constructor; auto.
Qed.

Lemma indep_else o : Forall (λ b, good_block b → indep (ev_block b)) (olist o) →
  Forall good (flat_map block_nodes (olist o)) → indep (match o with Some b => ev_block b | None => skip end).
Proof using Type.
  destruct o as [b|]; [|intros; apply indep_skip]. cbn [olist flat_map]. rewrite app_nil_r. intros [Hb _]%list.Forall_cons Hg.
  by apply Hb.
Qed.

Ltac indep_step := repeat first
  [ assumption | apply indep_none | apply indep_give | apply indep_skip | apply indep_local
  | match goal with Hi : good ?n → indep ?m |- indep ?m => apply Hi; assumption end
  | match goal with Hi : good_block ?b → indep ?m |- indep ?m => apply Hi; assumption end
  | apply indep_or | apply indep_and | apply indep_try | apply indep_struct
  | apply indep_if | apply indep_if_let | (apply indep_value; [|intro]) ].
Ltac library := apply indep_builtin;
  [apply list_elem_of_further; repeat first [apply list_elem_of_here | apply list_elem_of_further]
  |repeat first [apply List.Forall_nil | apply List.Forall_cons]].

Lemma indep_all : (∀ e, good (NExpr e) → indep (ev_expr e)) ∧ (∀ st, good (NStat st) → indep (ev_stat st)) ∧
  (∀ b, good_block b → indep (ev_block b)).
Proof using pure_functions pure_builtins.
  apply tc_ind.
  - intros k di He Hs Hb Hg. good_parts Hg.
    destruct k; cbn [sub_exprs sub_stats sub_blocks olist] in *; cbn [expr_nodes expr_kind] in Hp;
      repeat match goal with Hf : Forall _ (_ :: _) |- _ => apply list.Forall_cons in Hf as [? ?] end;
      cbn [eval_expr]; try (indep_step; fail).
    + done.
    + unfold sem_tuple_ref. destruct (get_type e); indep_step.
    + apply (indep_direct_call f args t Hd); [done|]. by apply indep_values.
    + apply indep_struct. by apply indep_fields.
    + library; indep_step.
    + library; indep_step.
    + unfold sem_tuple. destruct (Nat.leb _ _); [|apply indep_none]. apply indep_struct. by apply indep_values.
    + unfold sem_new_heap_array. destruct (default_value _) as [[d b]|]; [|apply indep_none]. library; indep_step.
    + destruct e as [e|]; [|apply indep_give]. cbn [olist] in He. apply list.Forall_cons in He as [He _].
      apply list.Forall_cons in Hp as [Hp _]. indep_step.
    + library; indep_step.
    + library; indep_step.
    + library; indep_step.
    + apply indep_value; [indep_step|]. intros y. apply indep_value; [indep_step|]. intros v. destruct t; indep_step.
    + match goal with Hp : Forall good (_ ++ _) |- _ => apply list.Forall_app in Hp as [? ?] end.
      apply indep_if; [indep_step..|]. by apply indep_else.
    + match goal with Hp : Forall good (_ ++ _) |- _ => apply list.Forall_app in Hp as [? ?] end.
      apply indep_if_let; [indep_step..|]. by apply indep_else.
  - intros k di He Hs Hg. good_parts Hg.
    destruct k; cbn [stat_exprs stat_stats olist] in *; cbn [stat_nodes statement_kind] in Hp;
      repeat match goal with Hf : Forall _ (_ :: _) |- _ => apply list.Forall_cons in Hf as [? ?] end;
      cbn [eval_statement eval_expr]; try (indep_step; fail).
    + by intros e g r [= <-].
    + apply indep_value; [indep_step|]. by intros v e' g r [= <-].
    + apply indep_expression. indep_step.
    + apply indep_let; [done|]. indep_step.
    + apply indep_assign. indep_step.
    + done.
    + apply indep_while; [indep_step|]. by apply indep_sequence, indep_stats.
    + apply indep_assert. indep_step.
  - intros body ret scope Hs He Hg. apply list.Forall_app in Hg as [Hg1 Hg2]. cbn [eval_block eval_expr]. apply indep_block.
    + by apply indep_stats.
    + destruct ret as [e|]; [|apply indep_skip]. apply list.Forall_cons in He as [He _], Hg2 as [Hg2 _]. by apply He.
Qed.
End pure.

(** ** Modules *)
Section module.
Context `{Crypto} (string_table : StringTable.t) (imps : list ImportedFunc) (global_map : gmap nat nat) (release : bool)
        (funcs : list TypeCheckedFunc).

Abbreviation run := (call string_table (import_map imps ∅) global_map release funcs).

(** The type a module declares for a name. *)
Definition declared_as (id : nat) (t : Tipe.t) : Prop := Forall (λ f, f_name f = id → f_tipe f = t) funcs.

(** A function marked pure is found to be pure: there is no warning about it. *)
Definition marks_agree (fuel : nat) (f : TypeCheckedFunc) : Prop :=
  match f_tipe f with
  | Tipe.Func false _ _ => func_is_pure fuel f = Some (Ok true)
  | _ => True
  end.

Hypothesis marks : ∃ fuel, Forall (marks_agree fuel) funcs.
Hypothesis all_direct : Forall (λ f, Forall (everywhere (direct declared_as)) (func_nodes f)) funcs.
Hypothesis not_libraries : Forall (λ b, StringTable.get_if_exists string_table b ∉ (λ f, Some (f_name f)) <$> funcs)
  ("builtin_assert" :: libraries).

Lemma imports_foreign name l : import_map imps ∅ !! name = Some l → ∃ s, l = Label.External s.
Proof using Type. apply import_map_foreign. intros ? ?. by rewrite lookup_empty. Qed.

(** The body of a pure function. *)
Lemma pure_body n f ts ret : f ∈ funcs → f_tipe f = Tipe.Func false ts ret →
  (∀ id ts ret, declared_as id (Tipe.Func false ts ret) → pure_label (run n) (func_label (import_map imps ∅) id)) →
  (∀ b id, b ∈ "builtin_assert" :: libraries → StringTable.get_if_exists string_table b = Some id →
     pure_label (run n) (func_label (import_map imps ∅) id)) →
  indep (sequence (map (eval_statement (run n) string_table (import_map imps ∅) global_map release n) (with_final_return f))).
Proof using marks all_direct.
  intros Hf Ht Hpure Hlib. destruct marks as [fuel Hmarks]. rewrite list.Forall_forall in Hmarks, all_direct.
  specialize (Hmarks f Hf). unfold marks_agree in Hmarks. rewrite Ht in Hmarks. apply all_fm_true in Hmarks.
  assert (Forall (good declared_as) (func_nodes f)) as Hgood.
  { rewrite list.Forall_forall in Hmarks. apply list.Forall_forall. intros x Hx. split.
    - specialize (all_direct f Hf). rewrite list.Forall_forall in all_direct. by apply all_direct.
    - exists fuel. by apply Hmarks. }
  destruct (indep_all (run n) string_table (import_map imps ∅) global_map release n declared_as Hpure Hlib) as (_ & Hstat & _).
  apply indep_sequence.
  assert (Forall indep (map (eval_statement (run n) string_table (import_map imps ∅) global_map release n) (f_code f))) as Hcode.
  { eapply indep_stats; [|exact Hgood]. apply list.Forall_forall. intros st _. apply Hstat. }
  unfold with_final_return. destruct (_ && _); [|done]. rewrite map_app. apply list.Forall_app. split; [done|].
  apply List.Forall_cons; [|constructor]. by intros e g r [= <-].
Qed.

Lemma run_pure n : ∀ name ts ret, declared_as name (Tipe.Func false ts ret) → pure_label (run n) (func_label (import_map imps ∅) name).
Proof using All.
  induction n as [|n IH]; intros name ts ret Hdecl vals g v g' Hr; [done|].
  destruct (run_known string_table funcs (import_map imps ∅) global_map release imports_foreign _ _ _ _ _ _ Hr)
    as (_ & _ & _ & Hlabel).
  rewrite Hlabel in Hr |- *. cbn [call] in Hr. apply bind_Some in Hr as (f & Hfind & Hr).
  destruct (find_func_elem _ _ _ Hfind) as [Hf [= Hfn]]. destruct (returns f && _) eqn:Eb; [|done].
  apply bind_Some in Hr as ([|o σ] & Hrun & [= <- <-]).
  assert (f_tipe f = Tipe.Func false ts ret) as Ht.
  { unfold declared_as in Hdecl. rewrite list.Forall_forall in Hdecl. by apply Hdecl. }
  apply pure_body with (ts := ts) (ret := ret) in Hrun as [Hg Hall]; [|done|done|exact IH|].
  - split; [done|]. intros g2. cbn [call]. rewrite Hfind. cbn. rewrite Eb, Hall. done.
  - intros b id Hb Hid vals' g1 v' g2 Hr'.
    destruct (run_known string_table funcs (import_map imps ∅) global_map release imports_foreign _ _ _ _ _ _ Hr')
      as (f' & Hf' & Hn' & _).
    rewrite list.Forall_forall in not_libraries. destruct (not_libraries b Hb). rewrite Hid, <- Hn'.
    by apply (list_elem_of_fmap_2 (λ f, Some (f_name f))).
Qed.
End module.

(** C8: purity means what it says.  In a module without purity warnings, whose
    calls name their functions and whose patterns bind new variables only, a
    call of a function marked pure leaves the globals as they are and gives the
    same result whatever the globals hold. *)
Theorem pure_functions_independent `{Crypto} st imps gm release funcs fuel n name ts ret vals g v g' :
  Forall (marks_agree fuel) funcs →
  Forall (λ f, Forall (everywhere (direct (declared_as funcs))) (func_nodes f)) funcs →
  Forall (λ b, StringTable.get_if_exists st b ∉ (λ f, Some (f_name f)) <$> funcs) ("builtin_assert" :: libraries) →
  declared_as funcs name (Tipe.Func false ts ret) →
  call st (import_map imps ∅) gm release funcs n (func_label (import_map imps ∅) name) vals g = Some (v, g') →
  g' = g ∧ ∀ g2, call st (import_map imps ∅) gm release funcs n (func_label (import_map imps ∅) name) vals g2 = Some (v, g2).
Proof.
  intros Hm Hd Hl Hn Hcall. by eapply (run_pure st imps gm release funcs (ex_intro _ fuel Hm) Hd Hl n name ts ret Hn).
Qed.

(** ** Examples *)
Definition uint_func (impure : bool) : Tipe.t := Tipe.Func impure [Tipe.Uint] Tipe.Uint.
Definition call_of (name : nat) (impure : bool) (arg : TypeCheckedExpr) : TypeCheckedExpr :=
  ex (FunctionCall (ex (FuncRef name (uint_func impure))) [arg] Tipe.Uint (mkPropertiesList (negb impure))).
Definition func_of (name : nat) (impure : bool) (body : list TypeCheckedStatement) : TypeCheckedFunc :=
  mkFunc name [mkFuncArg 10 Tipe.Uint dbg] Tipe.Uint body (uint_func impure) Private dbg (mkPropertiesList (negb impure)).

(** [double(x) = x + x], [quad(x) = double(double(x))], and [tick], which counts its calls. *)
Definition double_f := func_of 1 false [st_ (SReturn (ex (Binary BinaryOp.Plus (var 10) (var 10) Tipe.Uint)))].
Definition quad_f := func_of 2 false [st_ (SReturn (call_of 1 false (call_of 1 false (var 10))))].
Definition tick_f := func_of 3 true
  [st_ (SAssignGlobal 0 (ex (Binary BinaryOp.Plus (ex (GlobalVariableRef 0 Tipe.Uint)) (num 1) Tipe.Uint)));
   st_ (SReturn (call_of 2 false (var 10)))].

Lemma pure_functions_independent_witness :
  call (H := toy_crypto) StringTable.new (import_map [] ∅) ∅ false [double_f; quad_f; tick_f] 5 (Label.Func 2) [Value.Int 3] [Value.Int 9]
  = Some (Some (Value.Int 12), [Value.Int 9]).
Proof.
  eapply (proj2 (pure_functions_independent (H := toy_crypto) StringTable.new [] ∅ false [double_f; quad_f; tick_f] 10 5 2 [Tipe.Uint]
           Tipe.Uint [Value.Int 3] [Value.Int 7] (Some (Value.Int 12)) [Value.Int 7] _ _ _ _ _) [Value.Int 9]).
  Unshelve.
  - repeat constructor.
  - repeat constructor; try done.
  - apply (bool_decide_unpack _). vm_compute. done.
  - repeat constructor; done.
  - vm_compute. reflexivity.
Defined.

(** [let ( *g) = (x,); return x;] for a global [g] *)
Definition pattern_write := func_of 4 false
  [st_ (SLet (mkMatchPattern (PTuple [mkMatchPattern (PAssign 20) dbg Tipe.Uint]) dbg (Tipe.Tuple [Tipe.Uint]))
         (ex (TupleExpr [var 10] (Tipe.Tuple [Tipe.Uint])))); st_ (SReturn (var 10))].

(** A global that is assigned inside a pattern is not seen by [is_pure]. *)
Theorem pattern_write_is_pure :
  func_is_pure 10 pattern_write = Some (Ok true) ∧
  call (H := toy_crypto) StringTable.new ∅ {[20 := 0]} false [pattern_write] 5 (Label.Func 4) [Value.Int 3] [Value.Int 7]
  = Some (Some (Value.Int 3), [Value.Int 3]).
Proof. split; vm_compute; reflexivity. Qed.

(** A function that calls its argument, an impure function. *)
Definition call_argument :=
  mkFunc 5 [mkFuncArg 11 (uint_func true) dbg] Tipe.Uint
    [st_ (SReturn (ex (FunctionCall (ex (LocalVariableRef 11 (uint_func true))) [num 3] Tipe.Uint (mkPropertiesList false))))]
    (Tipe.Func false [uint_func true] Tipe.Uint) Private dbg (mkPropertiesList true).

(** A call of an impure function through a variable is not seen by [is_pure]. *)
Theorem indirect_call_is_pure :
  func_is_pure 10 call_argument = Some (Ok true) ∧
  call (H := toy_crypto) StringTable.new ∅ ∅ false [double_f; quad_f; tick_f; call_argument] 5 (Label.Func 5)
    [Value.Label (Label.Func 3)] [Value.Int 7] = Some (Some (Value.Int 12), [Value.Int 8]).
Proof. split; vm_compute; reflexivity. Qed.
