(* ===== verification/Inline.v ===== *)
(** * Inlining (src/src/compile/typecheck.rs)

    [strip_returns] and [inline], applied to all nodes below a node by
    [recursive_apply], and the inlining of a function.  The source changes the
    nodes in place; here a node is rebuilt from its changed children by
    [map_children].  A walk has [fuel], as in Flow.v. *)

From Stdlib Require Import ZArith Lia.
From S2P Require Import Prelude U256 StringTab Pos Opcodes Crypto BufferTree Values Insns InsnFacts StraightLine TupleTree StripLabels Types TypesThms TypedAst Ast Link Codegen Flow.

#[local] Set Warnings "-clear-no-such-hyp".

(** ** Rebuilding a node *)
Fixpoint map_fm {A B} (f : A → FM B) (l : list A) : FM (list B) :=
  match l with
  | [] => mret []
  | a :: l => b ← f a; bs ← map_fm f l; mret (b :: bs)
  end.
Definition option_fm {A B} (f : A → FM B) (o : option A) : FM (option B) :=
  match o with
  | Some a => b ← f a; mret (Some b)
  | None => mret None
  end.

(** What is done to a child: a statement, an expression, a field. *)
Record visitor := mkVisitor {
  visit_stat : TypeCheckedStatement → FM TypeCheckedStatement;
  visit_expr : TypeCheckedExpr → FM TypeCheckedExpr;
  visit_field : FieldInitializer TypeCheckedExpr → FM (FieldInitializer TypeCheckedExpr);
}.

Definition map_block (v : visitor) (b : TypeCheckedCodeBlock) : FM TypeCheckedCodeBlock :=
  let '(mkBlock body ret scope) := b in
  body ← map_fm (visit_stat v) body;
  ret ← option_fm (visit_expr v) ret;
  mret (mkBlock body ret scope).

(** The children of an expression, in the order of [child_nodes]. *)
Definition map_kind (v : visitor) (k : TypeCheckedExprKind) : FM TypeCheckedExprKind :=
  let f := visit_expr v in
  match k with
  | LocalVariableRef _ _ | GlobalVariableRef _ _ | FuncRef _ _ | Const _ _ | NewBuffer | NewMap _ | GetGas | Error => mret k
  | Unary op e t => e ← f e; mret (Unary op e t)
  | Variant e => e ← f e; mret (Variant e)
  | SetGas e => e ← f e; mret (SetGas e)
  | TupleRef e idx t => e ← f e; mret (TupleRef e idx t)
  | DotRef e slot size t => e ← f e; mret (DotRef e slot size t)
  | NewArray e b t => e ← f e; mret (NewArray e b t)
  | Cast e t => e ← f e; mret (Cast e t)
  | Try e t => e ← f e; mret (Try e t)
  | Trinary op e1 e2 e3 t => e1 ← f e1; e2 ← f e2; e3 ← f e3; mret (Trinary op e1 e2 e3 t)
  | Binary op e1 e2 t => e1 ← f e1; e2 ← f e2; mret (Binary op e1 e2 t)
  | ShortcutOr e1 e2 => e1 ← f e1; e2 ← f e2; mret (ShortcutOr e1 e2)
  | ShortcutAnd e1 e2 => e1 ← f e1; e2 ← f e2; mret (ShortcutAnd e1 e2)
  | ArrayRef e1 e2 t => e1 ← f e1; e2 ← f e2; mret (ArrayRef e1 e2 t)
  | FixedArrayRef e1 e2 size t => e1 ← f e1; e2 ← f e2; mret (FixedArrayRef e1 e2 size t)
  | MapRef e1 e2 t => e1 ← f e1; e2 ← f e2; mret (MapRef e1 e2 t)
  | StructMod e1 i e2 t => e1 ← f e1; e2 ← f e2; mret (StructMod e1 i e2 t)
  | FunctionCall name args t p => name ← f name; args ← map_fm f args; mret (FunctionCall name args t p)
  | CodeBlock b => b ← map_block v b; mret (CodeBlock b)
  | StructInitializer fields t => fields ← map_fm (visit_field v) fields; mret (StructInitializer fields t)
  | TupleExpr es t => es ← map_fm f es; mret (TupleExpr es t)
  | Asm t insns es => es ← map_fm f es; mret (Asm t insns es)
  | NewFixedArray size o t => o ← option_fm f o; mret (NewFixedArray size o t)
  | ArrayMod e1 e2 e3 t => e1 ← f e1; e2 ← f e2; e3 ← f e3; mret (ArrayMod e1 e2 e3 t)
  | FixedArrayMod e1 e2 e3 size t => e1 ← f e1; e2 ← f e2; e3 ← f e3; mret (FixedArrayMod e1 e2 e3 size t)
  | MapMod e1 e2 e3 t => e1 ← f e1; e2 ← f e2; e3 ← f e3; mret (MapMod e1 e2 e3 t)
  | If cond b o t => cond ← f cond; b ← map_block v b; o ← option_fm (map_block v) o; mret (If cond b o t)
  | IfLet x cond b o t => cond ← f cond; b ← map_block v b; o ← option_fm (map_block v) o; mret (IfLet x cond b o t)
  | Loop stats => stats ← map_fm (visit_stat v) stats; mret (Loop stats)
  end.

Definition map_expr (v : visitor) (e : TypeCheckedExpr) : FM TypeCheckedExpr :=
  let '(mkExpr k di) := e in k ← map_kind v k; mret (mkExpr k di).

Definition map_statement (v : visitor) (s : TypeCheckedStatement) : FM TypeCheckedStatement :=
  let '(mkStatement k di) := s in
  let f := visit_expr v in
  k ← (match k with
       | SNoop | SReturnVoid => mret k
       | SReturn e => e ← f e; mret (SReturn e)
       | SExpression e => e ← f e; mret (SExpression e)
       | SLet pat e => e ← f e; mret (SLet pat e)
       | SAssignLocal x e => e ← f e; mret (SAssignLocal x e)
       | SAssignGlobal idx e => e ← f e; mret (SAssignGlobal idx e)
       | SAssert e => e ← f e; mret (SAssert e)
       | SDebugPrint e => e ← f e; mret (SDebugPrint e)
       | SWhile cond body => cond ← f cond; body ← map_fm (visit_stat v) body; mret (SWhile cond body)
       | SAsm insns es => es ← map_fm f es; mret (SAsm insns es)
       | SBreak o scope => o ← option_fm (map_expr v) o; mret (SBreak o scope)
       end);
  mret (mkStatement k di).

Definition map_field (v : visitor) (fi : FieldInitializer TypeCheckedExpr) : FM (FieldInitializer TypeCheckedExpr) :=
  e ← visit_expr v (fi_value fi); mret (mkFieldInitializer (fi_name fi) e).

(** ** [recursive_apply] *)

(** A transformation: the changed node, the state for its children and whether
    to go on with them.  Fields only pass the state on. *)
Record transform (MS : Type) := mkTransform {
  on_stat : TypeCheckedStatement → MS → FM (TypeCheckedStatement * MS * bool);
  on_expr : TypeCheckedExpr → MS → FM (TypeCheckedExpr * MS * bool);
}.
Arguments mkTransform {MS}.
Arguments on_stat {MS}.
Arguments on_expr {MS}.

(** The visitor of the children with the state [s]; [rec_] goes on below a child. *)
Definition apply_visitor {MS} (t : transform MS) (rec_ : MS → visitor) (s : MS) : visitor :=
  mkVisitor
    (λ st, '(st, s, recurse) ← on_stat t st s; if (recurse : bool) then map_statement (rec_ s) st else mret st)
    (λ e, '(e, s, recurse) ← on_expr t e s; if (recurse : bool) then map_expr (rec_ s) e else mret e)
    (map_field (rec_ s)).

Fixpoint visitor_of {MS} (t : transform MS) (fuel : nat) (s : MS) : visitor :=
  match fuel with
  | O => mkVisitor (λ _, None) (λ _, None) (λ _, None)
  | S fuel => apply_visitor t (visitor_of t fuel) s
  end.

(** [node.recursive_apply(func, state, mut_state)] *)
Definition apply_expr {MS} (t : transform MS) (fuel : nat) (s : MS) (e : TypeCheckedExpr) : FM TypeCheckedExpr :=
  map_expr (visitor_of t fuel s) e.
Definition apply_stat {MS} (t : transform MS) (fuel : nat) (s : MS) (st : TypeCheckedStatement) : FM TypeCheckedStatement :=
  map_statement (visitor_of t fuel s) st.

(** ** [strip_returns] *)
Definition asm_expr (t : Tipe.t) (insns : list (Instruction.t Opcode.t)) (args : list TypeCheckedExpr) (di : DebugInfo)
    : TypeCheckedExpr := mkExpr (Asm t insns args) di.

(** [e?] inside an inlined function: the option is left on the stack. *)
Definition strip_try (inner : TypeCheckedExpr) (tipe : Tipe.t) : TypeCheckedExprKind :=
  let di := expr_debug_info inner in
  CodeBlock (mkBlock []
    (Some (mkExpr
       (If (asm_expr Tipe.Bool [Instruction.mk (Opcode.AVM AVMOpcode.Dup0) None di;
                                Instruction.mk (Opcode.AVM AVMOpcode.Tget) (Some (Value.Int Uint256.zero)) di] [inner] di)
           (mkBlock [] (Some (asm_expr tipe [Instruction.mk (Opcode.AVM AVMOpcode.Tget) (Some (Value.Int Uint256.one)) di] [] di)) None)
           (Some (mkBlock [mkStatement (SBreak (Some (asm_expr (Tipe.Option tipe) [] [] di)) "_inline") di]
                          (Some (mkExpr Error di)) None))
           tipe) di)) None).

Definition strip_stat (s : TypeCheckedStatement) : TypeCheckedStatement :=
  let '(mkStatement k di) := s in
  mkStatement (match k with
               | SReturn exp => SBreak (Some exp) "_inline"
               | SReturnVoid => SBreak None "_inline"
               | _ => k
               end) di.
Definition strip_expr (e : TypeCheckedExpr) : TypeCheckedExpr :=
  let '(mkExpr k di) := e in
  mkExpr (match k with
          | Try inner tipe => strip_try inner tipe
          | _ => k
          end) di.

Definition strip_returns : transform unit :=
  mkTransform (λ s _, mret (strip_stat s, (), true)) (λ e _, mret (strip_expr e, (), true)).

(** ** [inline] *)
Inductive InliningHeuristic := HAll | HNone.

(** [InliningMode::and] *)
Definition mode_and (self other : InliningMode) : InliningMode := if bool_decide (self = InlineAuto) then other else self.

Section inline.
Context (fuel : nat) (funcs : list TypeCheckedFunc) (heuristic : InliningHeuristic).

(** Whether a call of the function stays a call. *)
Definition refused (mode : InliningMode) (func : TypeCheckedFunc) : bool :=
  let m := mode_and mode (inline (attributes (f_debug_info func))) in
  match heuristic with
  | HAll => bool_decide (m = InlineNever)
  | HNone => bool_decide (m ≠ InlineAlways)
  end.

(** [let (arg, ..) = (args, ..);] *)
Definition args_type (func : TypeCheckedFunc) : Tipe.t := Tipe.Tuple (fa_tipe <$> f_args func).
Definition bind_args (func : TypeCheckedFunc) (args : list TypeCheckedExpr) : list TypeCheckedStatement :=
  if Nat.eqb (length (f_args func)) 0 then []
  else
    [mkStatement
       (SLet (new_tuple ((λ arg, new_bind (fa_name arg) (fa_debug_info arg) (fa_tipe arg)) <$> f_args func)
                (f_debug_info func) (args_type func))
             (mkExpr (TupleExpr args (args_type func)) DebugInfo_default)) DebugInfo_default].

(** The block that replaces a call. *)
Definition inline_block (func : TypeCheckedFunc) (args : list TypeCheckedExpr) : FM TypeCheckedCodeBlock :=
  args ← (if Nat.eqb (length (f_args func)) 0 then mret args else map_fm (apply_expr strip_returns fuel ()) args);
  let code := bind_args func args ++ f_code func in
  '(code, block_exp) ←
    (match list.last code with
     | Some (mkStatement (SReturn exp) _) =>
         exp ← apply_expr strip_returns fuel () exp;
         mret (removelast code, Some exp)
     | _ => mret (code, None)
     end);
  code ← map_fm (apply_stat strip_returns fuel ()) code;
  mret (mkBlock code block_exp (Some "_inline")).

Definition inline_expr (exp : TypeCheckedExpr) (s : InliningMode * list nat) : FM (TypeCheckedExpr * (InliningMode * list nat) * bool) :=
  match exp with
  | mkExpr (FunctionCall (mkExpr (FuncRef id _) _) args _ _) di =>
      match list_find (λ func, f_name func = id) funcs with
      | Some (_, func) =>
          if refused s.1 func || bool_decide (f_name func ∈ s.2) then mret (exp, s, false)
          else
            block ← inline_block func args;
            mret (mkExpr (CodeBlock block) di, (s.1, s.2 ++ [f_name func]), true)
      | None => mret (exp, s, true)
      end
  | _ => mret (exp, s, true)
  end.

Definition inline_stat (st : TypeCheckedStatement) (s : InliningMode * list nat) : FM (TypeCheckedStatement * (InliningMode * list nat) * bool) :=
  mret (st, (inline (attributes (statement_debug_info st)), s.2), true).

Definition inlining : transform (InliningMode * list nat) := mkTransform inline_stat inline_expr.

(** [TypeCheckedFunc::inline] *)
Definition inline_func (f : TypeCheckedFunc) : FM TypeCheckedFunc :=
  code ← map_fm (visit_stat (visitor_of inlining fuel (InlineAuto, []))) (f_code f);
  mret (mkFunc (f_name f) (f_args f) (f_ret_type f) code (f_tipe f) (f_kind f) (f_debug_info f) (f_properties f)).

(** [TypeCheckedModule::inline] *)
Definition inline_module (checked_funcs : list (nat * TypeCheckedFunc)) : FM (list (nat * TypeCheckedFunc)) :=
  map_fm (λ kf, f ← inline_func kf.2; mret (kf.1, f)) checked_funcs.
End inline.
