(* ===== verification/InlineCorrect.v ===== *)
(** * Inlining preserves the meaning of programs

    In the reference semantics a call of a function that returns only at its end
    and the block that replaces it do the same, so the functions of a module
    mean after [inline_module] what they meant before.  The conditions are those
    without which the transformation goes wrong: examples at the end. *)

From Stdlib Require Import ZArith Lia.
From S2P Require Import Prelude U256 StringTab Pos Opcodes Crypto BufferTree Values Insns InsnFacts StraightLine TupleTree StripLabels Types TypesThms TypedAst Ast Link Codegen TypecheckOps Typecheck FixedArray ValueTypes VirtualMachine Semantics TypeSound TypecheckSound CodegenThms CodegenModules CodegenRuns CodegenSound CodegenStatements CodegenCorrect TypeSoundness Flow Purity Inline.

#[local] Set Warnings "-clear-no-such-hyp,-register-all".

(** ** Simulation with more variables below *)
Definition add_env (rest : list (nat * Value.t)) (r : res) : res :=
  match r with
  | RVal v σ => RVal v (mkSt (env σ ++ rest) (globals σ))
  | RRet v σ => RRet v (mkSt (env σ ++ rest) (globals σ))
  end.

Section sim.
Context (rest : list (nat * Value.t)).

Definition sim (m m' : sem) : Prop := ∀ e g r, m (mkSt e g) = Some r → m' (mkSt (e ++ rest) g) = Some (add_env rest r).

Lemma sim_none m : sim (λ _, None) m.
Proof. done. Qed.
Lemma sim_give o : sim (give o) (give o).
Proof. intros e g r (v & -> & [= <-])%bind_Some. done. Qed.
Lemma sim_skip : sim skip skip.
Proof. by intros e g r [= <-]. Qed.

Lemma assoc_below x (e : list (nat * Value.t)) v : assoc x e = Some v → assoc x (e ++ rest) = Some v.
Proof. induction e as [|[y w] e IH]; [done|]. cbn. by destruct (Nat.eqb x y). Qed.
Lemma update_app x v (e e' : list (nat * Value.t)) : update x v e = Some e' → update x v (e ++ rest) = Some (e' ++ rest).
Proof.
  revert e'. induction e as [|[y w] e IH]; intros e'; [done|]. cbn. destruct (Nat.eqb x y); [by intros [= <-]|].
  intros (e1 & He & [= <-])%bind_Some. by rewrite (IH e1 He).
Qed.

Lemma sim_local x : sim (sem_local x) (sem_local x).
Proof. intros e g r (v & Hv & [= <-])%bind_Some. unfold sem_local. cbn [env] in *. by rewrite (assoc_below _ _ _ Hv). Qed.
Lemma sim_global idx : sim (sem_global idx) (sem_global idx).
Proof. intros e g r (v & Hv & [= <-])%bind_Some. unfold sem_global. cbn [globals] in *. by rewrite Hv. Qed.

Lemma sim_value b m m' k k' : sim m m' → (∀ v, sim (k v) (k' v)) → sim (value_of b m k) (value_of b m' k').
Proof.
  intros Hm Hk e g r (r1 & H1 & Hr)%bind_Some. unfold value_of. rewrite (Hm _ _ _ H1). cbn.
  destruct r1 as [[v|] [e1 g1]|[v|] [e1 g1]]; try done; cbn in *.
  - by apply Hk.
  - by injection Hr as <-.
  - destruct b; [done|]. by injection Hr as <-.
Qed.

Lemma sim_then m m' k k' : sim m m' → sim k k' → sim (then_sem m k) (then_sem m' k').
Proof.
  intros Hm Hk e g r (r1 & H1 & Hr)%bind_Some. unfold then_sem. rewrite (Hm _ _ _ H1). cbn.
  destruct r1 as [v [e1 g1]|v [e1 g1]]; cbn in *; [by apply Hk|by injection Hr as <-].
Qed.

Lemma sim_scoped m m' : sim m m' → sim (scoped m) (scoped m').
Proof.
  intros Hm e g r (r1 & H1 & Hr)%bind_Some. unfold scoped. rewrite (Hm _ _ _ H1). cbn.
  destruct r1 as [v [e1 g1]|v [e1 g1]]; cbn in *; injection Hr as <-; [|done]. cbn. rewrite !length_app.
  replace (length e1 + length rest - (length e + length rest)) with (length e1 - length e) by lia.
  by rewrite drop_app_le by lia.
Qed.

Lemma sim_operands ms ms' : ∀ vals k k', Forall2 sim ms ms' → (∀ vals, sim (k vals) (k' vals)) →
  sim (operands ms vals k) (operands ms' vals k').
Proof.
  intros vals k k' Hms. revert vals. induction Hms as [|m m' ms ms' Hm _ IH]; intros vals Hk; cbn [operands]; [done|].
  apply sim_value; [done|]. intros v. by apply IH.
Qed.

Lemma sim_sequence ms ms' : Forall2 sim ms ms' → sim (sequence ms) (sequence ms').
Proof. induction 1; cbn [sequence]; [apply sim_skip|by apply sim_then]. Qed.

Lemma sim_struct ms ms' : Forall2 sim ms ms' → sim (sem_struct ms) (sem_struct ms').
Proof. intros Hms. apply sim_operands; [by apply Forall2_rev|]. intros. apply sim_give. Qed.

Lemma sim_int v (k k' : Z → sem) : (∀ z, sim (k z) (k' z)) →
  sim (match v with Value.Int z => k z | _ => λ _, None end) (match v with Value.Int z => k' z | _ => λ _, None end).
Proof. intros Hk. destruct v; try apply sim_none. apply Hk. Qed.

Lemma sim_choose c t t' e e' : sim t t' → sim e e' → sim (choose c t e) (choose c t' e').
Proof. intros Ht He. unfold choose. destruct (is_truth c); [|apply sim_none]. by destruct (c =? 0)%Z. Qed.
Lemma sim_held (o : option Value.t) (k k' : Value.t → sem) : (∀ y, sim (k y) (k' y)) →
  sim (λ σ, y ← o; k y σ) (λ σ, y ← o; k' y σ).
Proof. intros Hk. destruct o as [y|]; [apply Hk|apply sim_none]. Qed.

Lemma sim_if c c' t t' e e' : sim c c' → sim t t' → sim e e' → sim (sem_if c t e) (sem_if c' t' e').
Proof. intros Hc Ht He. apply sim_value; [done|]. intros v. apply sim_int. intros z. by apply sim_choose. Qed.
Lemma sim_or m1 m1' m2 m2' : sim m1 m1' → sim m2 m2' → sim (sem_or m1 m2) (sem_or m1' m2').
Proof.
  intros H1 H2. apply sim_value; [done|]. intros v. destruct v; try apply sim_none. destruct (_ =? 0)%Z; [done|apply sim_give].
Qed.
Lemma sim_and m1 m1' m2 m2' : sim m1 m1' → sim m2 m2' → sim (sem_and m1 m2) (sem_and m1' m2').
Proof.
  intros H1 H2. apply sim_value; [done|]. intros v. destruct v; try apply sim_none. by apply sim_choose; [|apply sim_give].
Qed.

Lemma sim_bind x v m m' : sim m m' → sim (bind_local x v m) (bind_local x v m').
Proof. intros Hm. apply sim_scoped. intros e g r. apply (Hm ((x, v) :: e)). Qed.

Lemma sim_while n n' c c' b b' : n <= n' → sim c c' → sim b b' → sim (sem_while n c b) (sem_while n' c' b').
Proof.
  intros Hle Hc Hb. revert n' Hle. induction n as [|n IH]; intros n' Hle; [apply sim_none|]. destruct n' as [|n']; [lia|].
  cbn [sem_while]. apply sim_if; [done| |apply sim_skip]. apply sim_then; [by apply sim_scoped|]. apply IH. lia.
Qed.

Lemma sim_try m m' : sim m m' → sim (sem_try m) (sem_try m').
Proof.
  intros Hm. apply sim_value; [done|]. intros v e g r ([tag held] & Hp & Hr)%bind_Some. rewrite Hp. cbn.
  destruct (tag =? 0)%Z; [by injection Hr as <-|]. by apply sim_give.
Qed.

Lemma sim_if_let x m m' t t' e e' : sim m m' → sim t t' → sim e e' → sim (sem_if_let x m t e) (sem_if_let x m' t' e').
Proof.
  intros Hm Ht He. apply sim_value; [done|]. intros v e1 g r ([tag held] & Hp & Hr)%bind_Some. rewrite Hp. cbn.
  revert Hr. apply sim_choose; [|done]. apply sim_held. intros y. by apply sim_bind.
Qed.

Lemma sim_expression t m m' : sim m m' → sim (sem_expression t m) (sem_expression t m').
Proof.
  intros Hm. unfold sem_expression. destruct (_ || _); [|apply sim_value; [done|intros; apply sim_skip]].
  intros e g r (r1 & H1 & Hr)%bind_Some. rewrite (Hm _ _ _ H1). cbn.
  destruct r1 as [[v|] σ1|o σ1]; try done; by injection Hr as <-.
Qed.

Lemma sim_assign x m m' : sim m m' → sim (sem_assign_local x m) (sem_assign_local x m').
Proof.
  intros Hm. apply sim_value; [done|]. intros v e g r (e' & He & [= <-])%bind_Some. cbn in *. by rewrite (update_app _ _ _ _ He).
Qed.
Lemma sim_assign_global idx m m' : sim m m' → sim (sem_assign_global idx m) (sem_assign_global idx m').
Proof.
  intros Hm. apply sim_value; [done|]. intros v e g r (w & Hw & [= <-])%bind_Some. cbn in *. by rewrite Hw.
Qed.
Lemma sim_return m m' : sim m m' → sim (sem_return m) (sem_return m').
Proof. intros Hm. apply sim_value; [done|]. by intros v e g r [= <-]. Qed.

Lemma sim_block body body' ret ret' : Forall2 sim body body' → sim (from_option id skip ret) (from_option id skip ret') →
  sim (sem_block body ret) (sem_block body' ret').
Proof.
  intros Hb Hr. apply sim_scoped, sim_then; [by apply sim_sequence|]. by destruct ret, ret'.
Qed.

(** Patterns that assign to old variables need the same variables. *)
Definition pattern_fits (p : MatchPattern) : Prop := rest = [] ∨ binds_only p = true.

Lemma sim_let gm p m m' : pattern_fits p → sim m m' → sim (sem_let gm p m) (sem_let gm p m').
Proof.
  intros Hp Hm. apply sim_value; [done|]. intros v e g r ([new σ] & Hb & [= <-])%bind_Some. destruct Hp as [->|Hp].
  - rewrite app_nil_r, Hb. cbn. by rewrite app_nil_r.
  - destruct (bind_pattern_globals gm p Hp _ _ _ _ _ Hb) as [-> Hall]. rewrite Hall. cbn. by rewrite app_assoc.
Qed.
End sim.

(** ** Related trees *)
Section related.
Context `{Crypto} (rest : list (nat * Value.t)) (string_table : StringTable.t) (imports : gmap nat Label.t) (global_map : gmap nat nat)
        (release : bool).
Context (callf callf' : Label.t → list Value.t → list Value.t → option (option Value.t * list Value.t)) (n n' : nat).
Hypothesis calls_more : ∀ l vals g r, callf l vals g = Some r → callf' l vals g = Some r.
Hypothesis fuel_more : n <= n'.

Abbreviation ev := (eval_expr callf string_table imports global_map release n).
Abbreviation ev' := (eval_expr callf' string_table imports global_map release n').
Abbreviation evs := (eval_statement callf string_table imports global_map release n).
Abbreviation evs' := (eval_statement callf' string_table imports global_map release n').
Abbreviation evb := (eval_block callf string_table imports global_map release n).
Abbreviation evb' := (eval_block callf' string_table imports global_map release n').

Lemma sim_call f f' args args' t : sim rest f f' → Forall2 (sim rest) args args' →
  sim rest (sem_call callf f args t) (sem_call callf' f' args' t).
Proof using calls_more.
  intros Hf Hargs. unfold sem_call. destruct (type_eq _ _); [apply sim_none|].
  apply sim_operands; [by apply Forall2_rev|]. intros vals. apply sim_value; [done|]. intros fv e g r Hr.
  destruct fv; try done. apply bind_Some in Hr as ([v g1] & Hc & [= <-]). cbn in *. by rewrite (calls_more _ _ _ _ Hc).
Qed.

Lemma sim_builtin b args args' t : Forall2 (sim rest) args args' →
  sim rest (sem_builtin callf string_table imports b args t) (sem_builtin callf' string_table imports b args' t).
Proof using calls_more.
  intros Hargs. unfold sem_builtin. destruct (StringTable.get_if_exists _ _); [|apply sim_none].
  apply sim_call; [apply sim_give|done].
Qed.

Lemma sim_assert m m' : sim rest m m' →
  sim rest (sem_assert callf string_table imports release m) (sem_assert callf' string_table imports release m').
Proof using calls_more.
  intros Hm. unfold sem_assert. destruct release; [apply sim_skip|]. intros e g r (r1 & H1 & Hr)%bind_Some.
  eapply (sim_builtin "builtin_assert" [m] [m']) in H1; [|by repeat constructor]. rewrite H1. cbn.
  destruct r1 as [[v|] σ1|o σ1]; try done; by injection Hr as <-.
Qed.

(** An expression of the same type that does the same. *)
Definition same_expr (e e' : TypeCheckedExpr) : Prop := get_type e' = get_type e ∧ sim rest (ev e) (ev' e').
Definition same_stat (s s' : TypeCheckedStatement) : Prop := sim rest (evs s) (evs' s').
Definition same_block (b b' : TypeCheckedCodeBlock) : Prop := block_type b' = block_type b ∧ sim rest (evb b) (evb' b').

Lemma map_fm_rel {A B} (f : A → FM B) (R : A → B → Prop) l : ∀ l', map_fm f l = Some (Ok l') →
  (∀ a b, a ∈ l → f a = Some (Ok b) → R a b) → Forall2 R l l'.
Proof using Type.
  induction l as [|a l IH]; intros l' Hl HR; cbn [map_fm] in Hl; [injection Hl as <-; constructor|].
  apply fm_bind_ok in Hl as (b & Hb & Hl). apply fm_bind_ok in Hl as (bs & Hbs & Hl). injection Hl as <-.
  constructor; [apply HR; [by left|done]|]. apply IH; [done|]. intros x y Hx. apply HR. by right.
Qed.

Lemma option_fm_rel {A B} (f : A → FM B) (R : A → B → Prop) o : ∀ o', option_fm f o = Some (Ok o') →
  (∀ a b, a ∈ olist o → f a = Some (Ok b) → R a b) → option_Forall2 R o o'.
Proof using Type.
  intros o' Ho HR. destruct o as [a|]; cbn [option_fm] in Ho; [|injection Ho as <-; constructor].
  apply fm_bind_ok in Ho as (b & Hb & Ho). injection Ho as <-. constructor. apply HR; [by left|done].
Qed.

Lemma same_list es es' : Forall2 same_expr es es' → Forall2 (sim rest) (map ev es) (map ev' es').
Proof using Type. induction 1 as [|e e' es es' [_ He] _ IH]; constructor; done. Qed.
Lemma same_stats l l' : Forall2 same_stat l l' → Forall2 (sim rest) (map evs l) (map evs' l').
Proof using Type. induction 1; constructor; done. Qed.

Lemma same_else o o' : option_Forall2 same_block o o' →
  sim rest (match o with Some b => evb b | None => skip end) (match o' with Some b => evb' b | None => skip end).
Proof using Type. destruct 1 as [b b' [_ Hb]|]; [done|apply sim_skip]. Qed.

Section visit.
Context (v : visitor).

Lemma map_block_same b b' : map_block v b = Some (Ok b') →
  (∀ s s', NStat s ∈ block_nodes b → visit_stat v s = Some (Ok s') → same_stat s s') →
  (∀ e e', NExpr e ∈ block_nodes b → visit_expr v e = Some (Ok e') → same_expr e e') → same_block b b'.
Proof using Type.
  destruct b as [body ret scope]. intros Hm Hs He. cbn [map_block] in Hm. apply fm_bind_ok in Hm as (body' & Hbody & Hm).
  apply fm_bind_ok in Hm as (ret' & Hret & Hm). injection Hm as <-.
  apply (map_fm_rel _ same_stat) in Hbody.
  2: { intros s s' Hin. apply Hs. apply elem_of_app. left. by apply list_elem_of_fmap_2. }
  apply (option_fm_rel _ same_expr) in Hret.
  2: { intros e e' Hin. apply He. apply elem_of_app. right. by apply list_elem_of_fmap_2. }
  split.
  - by destruct Hret as [e e' [Ht _]|].
  - cbn [eval_block eval_expr]. apply sim_block; [by apply same_stats|]. destruct Hret as [e e' [_ Hsim]|]; [done|apply sim_skip].
Qed.

(** Everything below the node is changed into something that does the same. *)
Definition visit_same (nd : node) : Prop :=
  match nd with
  | NStat s => ∀ s', visit_stat v s = Some (Ok s') → same_stat s s'
  | NExpr e => ∀ e', visit_expr v e = Some (Ok e') → same_expr e e'
  | NField f => ∀ f', visit_field v f = Some (Ok f') → same_expr (fi_value f) (fi_value f')
  | NType _ => True
  end.

Lemma visit_same_block b b' nodes : Forall visit_same nodes → (∀ x, x ∈ block_nodes b → x ∈ nodes) →
  map_block v b = Some (Ok b') → same_block b b'.
Proof using Type.
  intros Hn Hin Hm. rewrite list.Forall_forall in Hn.
  apply (map_block_same b b' Hm); intros x x' Hx; apply (Hn _ (Hin _ Hx)).
Qed.

Ltac fm_next Hm := let x := fresh "x" in let Hx := fresh "Hx" in apply fm_bind_ok in Hm as (x & Hx & Hm).
(** Uses what is known of a changed child. *)
Ltac child := match goal with
  | Hv : visit_same (NExpr ?e), Hx : visit_expr v ?e = Some (Ok ?x) |- _ =>
      let Ht := fresh "Ht" in let Hs := fresh "Hs" in destruct (Hv x Hx) as [Ht Hs]; clear Hv Hx
  end.
Ltac children := repeat match goal with Hf : Forall visit_same (_ :: _) |- _ => apply list.Forall_cons in Hf as [? Hf] end;
  repeat child.
Ltac sim_step := repeat first
  [ assumption | apply sim_none | apply sim_give | apply sim_skip | apply sim_local | apply sim_global
  | apply sim_or | apply sim_and | apply sim_try | apply sim_struct | apply sim_if | apply sim_if_let
  | (apply sim_value; [|intro]) ].

Lemma visit_list es es' : Forall visit_same (NExpr <$> es) → map_fm (visit_expr v) es = Some (Ok es') → Forall2 same_expr es es'.
Proof using Type.
  intros Hn Hm. apply (map_fm_rel _ same_expr) in Hm; [done|]. intros e e' Hin. rewrite list.Forall_forall in Hn.
  apply (Hn (NExpr e)). by apply list_elem_of_fmap_2.
Qed.

Lemma visit_stats l l' : Forall visit_same (NStat <$> l) → map_fm (visit_stat v) l = Some (Ok l') → Forall2 same_stat l l'.
Proof using Type.
  intros Hn Hm. apply (map_fm_rel _ same_stat) in Hm; [done|]. intros e e' Hin. rewrite list.Forall_forall in Hn.
  apply (Hn (NStat e)). by apply list_elem_of_fmap_2.
Qed.

Lemma visit_fields l l' : Forall visit_same (NField <$> l) → map_fm (visit_field v) l = Some (Ok l') →
  Forall2 (sim rest) (map (λ f, ev (fi_value f)) l) (map (λ f, ev' (fi_value f)) l').
Proof using Type.
  intros Hn Hm. apply (map_fm_rel _ (λ f f', same_expr (fi_value f) (fi_value f'))) in Hm.
  - induction Hm as [|f f' l l' [_ Hf] _ IH]; constructor; [done|]. apply IH. by apply list.Forall_cons in Hn as [_ Hn].
  - intros f f' Hin. rewrite list.Forall_forall in Hn. apply (Hn (NField f)). by apply list_elem_of_fmap_2.
Qed.

Lemma visit_else o o' nodes : Forall visit_same nodes → (∀ x, x ∈ flat_map block_nodes (olist o) → x ∈ nodes) →
  option_fm (map_block v) o = Some (Ok o') → option_Forall2 same_block o o'.
Proof using Type.
  intros Hn Hin Hm. apply (option_fm_rel _ same_block) in Hm; [done|]. intros b b' Hb Hbb.
  apply (visit_same_block b b' nodes); [done| |done]. intros x Hx. apply Hin. destruct o; [|by apply elem_of_nil in Hb].
  apply list_elem_of_singleton in Hb as ->. cbn. by rewrite app_nil_r.
Qed.

Lemma map_kind_same k k' di : map_kind v k = Some (Ok k') → Forall visit_same (expr_nodes (mkExpr k di)) →
  same_expr (mkExpr k di) (mkExpr k' di).
Proof using calls_more.
  intros Hm Hn.
  destruct k; cbn [map_kind expr_nodes expr_kind] in Hm, Hn; repeat fm_next Hm; injection Hm as <-; children;
    (split; [try done|cbn [eval_expr]; try (sim_step; fail)]);
    try (apply sim_builtin; by repeat constructor).
  - cbn. by rewrite Ht.
  - rewrite Ht. unfold sem_tuple_ref. destruct (get_type e); sim_step.
  - apply sim_call; [done|]. by apply same_list, visit_list.
  - by apply (visit_same_block b x (block_nodes b)) in Hx as [Ht _].
  - by apply (visit_same_block b x (block_nodes b)) in Hx as [_ Hs].
  - apply sim_struct. by apply visit_fields.
  - apply (visit_list fields x Hn), same_list in Hx. unfold sem_tuple. rewrite (Forall2_length Hx). destruct (Nat.leb _ _); sim_step.
  - unfold sem_new_heap_array. destruct (default_value base_type) as [[d b]|]; [|apply sim_none]. apply sim_builtin.
    repeat constructor; [done|apply sim_give].
  - apply (option_fm_rel _ same_expr) in Hx.
    2: { intros a b Ha. rewrite list.Forall_forall in Hn. apply (Hn (NExpr a)). by apply list_elem_of_fmap_2. }
    destruct Hx as [a b [_ Hs]|]; sim_step.
  - rewrite Ht, Ht0, Ht1. apply sim_builtin. by repeat constructor.
  - rewrite Ht, Ht0, Ht1. apply sim_builtin. by repeat constructor.
  - apply sim_value; [done|]. intros y. apply sim_value; [done|]. intros w. destruct t; sim_step.
  - change (sim rest (sem_if (ev cond) (evb block) (match else_block with Some b => evb b | None => skip end))
             (sem_if (ev' x) (evb' x0) (match x1 with Some b => evb' b | None => skip end))).
    apply (visit_same_block block x0 _ Hn) in Hx0 as [_ Hb]; [|intros y Hy; apply elem_of_app; by left]. apply sim_if; [done..|]. apply same_else.
    eapply visit_else; [exact Hn|intros y Hy; apply elem_of_app; by right|done].
  - change (sim rest (sem_if_let name (ev e) (evb block) (match else_block with Some b => evb b | None => skip end))
             (sem_if_let name (ev' x) (evb' x0) (match x1 with Some b => evb' b | None => skip end))).
    apply (visit_same_block block x0 _ Hn) in Hx0 as [_ Hb]; [|intros y Hy; apply elem_of_app; by left]. apply sim_if_let; [done..|]. apply same_else.
    eapply visit_else; [exact Hn|intros y Hy; apply elem_of_app; by right|done].
Qed.

Lemma map_statement_same s s' : map_statement v s = Some (Ok s') → Forall visit_same (stat_nodes s) →
  (match statement_kind s with SLet p _ => pattern_fits rest p | _ => True end) → same_stat s s'.
Proof using calls_more fuel_more.
  destruct s as [k di]. intros Hm Hn Hp. cbn [map_statement] in Hm. fm_next Hm. injection Hm as <-. unfold same_stat.
  destruct k; cbn [stat_nodes statement_kind] in Hn, Hp; repeat fm_next Hx; injection Hx as <-; children;
    cbn [eval_statement eval_expr]; try (sim_step; fail).
  - by intros e g r [= <-].
  - by apply sim_return.
  - rewrite Ht. by apply sim_expression.
  - by apply sim_let.
  - by apply sim_assign.
  - by apply sim_assign_global.
  - apply sim_while; [done..|]. by apply sim_sequence, same_stats, visit_stats.
  - by apply sim_assert.
Qed.
End visit.

End related.

(** Children that are not changed. *)
Definition visit_id (v : visitor) (nd : node) : Prop :=
  match nd with
  | NStat s => visit_stat v s = Some (Ok s)
  | NExpr e => visit_expr v e = Some (Ok e)
  | NField f => visit_field v f = Some (Ok f)
  | NType _ => True
  end.

Lemma map_fm_id {A} (f : A → FM A) (c : A → node) (P : node → Prop) l : (∀ a, P (c a) → f a = Some (Ok a)) →
  Forall P (c <$> l) → map_fm f l = Some (Ok l).
Proof.
  intros Hf. induction l as [|a l IH]; [done|]. intros [Ha Hl]%list.Forall_cons. cbn [map_fm]. rewrite (Hf a Ha). cbn.
  change (list_fmap _ _ c l) with (c <$> l) in Hl. by rewrite (IH Hl).
Qed.

Lemma map_block_id v b : Forall (visit_id v) (block_nodes b) → map_block v b = Some (Ok b).
Proof.
  destruct b as [body ret scope]. cbn [block_nodes map_block]. intros [Hb Hr]%list.Forall_app.
  rewrite (map_fm_id _ NStat (visit_id v)) by done. cbn.
  destruct ret as [e|]; [|done]. apply list.Forall_cons in Hr as [He _]. cbn in *. by rewrite He.
Qed.

Lemma map_kind_id v k di : Forall (visit_id v) (expr_nodes (mkExpr k di)) → map_kind v k = Some (Ok k).
Proof.
  intros Hn. destruct k; cbn [map_kind expr_nodes expr_kind] in *;
    repeat match goal with Hf : Forall _ (_ :: _) |- _ => apply list.Forall_cons in Hf as [? Hf] end;
    repeat match goal with Hv : visit_id v (NExpr ?e) |- _ => cbn [visit_id] in Hv; rewrite Hv; clear Hv; cbn [mbind fm_bind] end;
    try done;
    try (rewrite (map_fm_id _ NExpr (visit_id v)) by done; done);
    try (rewrite (map_fm_id _ NStat (visit_id v)) by done; done);
    try (rewrite (map_fm_id _ NField (visit_id v)) by done; done).
  - by rewrite map_block_id.
  - destruct e; [|done]. apply list.Forall_cons in Hn as [He _]. cbn in *. by rewrite He.
  - apply list.Forall_app in Hn as [Hb Ho]. rewrite map_block_id by done. cbn. destruct else_block; [|done]. cbn in *.
    rewrite app_nil_r in Ho. by rewrite map_block_id.
  - apply list.Forall_app in Hn as [Hb Ho]. rewrite map_block_id by done. cbn. destruct else_block; [|done]. cbn in *.
    rewrite app_nil_r in Ho. by rewrite map_block_id.
Qed.

Lemma map_expr_id v e : Forall (visit_id v) (expr_nodes e) → map_expr v e = Some (Ok e).
Proof. destruct e as [k di]. intros Hn. cbn [map_expr]. by rewrite (map_kind_id v k di). Qed.

Lemma map_statement_id v s : Forall (visit_id v) (stat_nodes s) → map_statement v s = Some (Ok s).
Proof.
  destruct s as [k di]. intros Hn. destruct k; cbn [map_statement stat_nodes statement_kind] in *;
    repeat match goal with Hf : Forall _ (_ :: _) |- _ => apply list.Forall_cons in Hf as [? Hf] end;
    repeat match goal with Hv : visit_id v (NExpr ?e) |- _ => cbn [visit_id] in Hv; rewrite Hv; clear Hv; cbn [mbind fm_bind] end;
    try done;
    try (rewrite (map_fm_id _ NExpr (visit_id v)) by done; done);
    try (rewrite (map_fm_id _ NStat (visit_id v)) by done; done).
  destruct e as [e|]; [|done]. cbn in Hn. rewrite app_nil_r in Hn. cbn [option_fm]. by rewrite map_expr_id.
Qed.

(** ** More variables, calls and fuel *)
Definition id_visitor : visitor := mkVisitor (λ s, mret s) (λ e, mret e) (λ f, mret f).

Lemma everywhere_child P n : everywhere P n → Forall (everywhere P) (child_nodes n).
Proof.
  intros [_ Hp]%everywhere_inv. destruct n as [[k di]| | |]; try done. destruct k as [| | |o sc| | | | | | | |]; try done.
  destruct o as [e|]; [|constructor]. apply list.Forall_cons in Hp as [He _]. cbn. rewrite app_nil_r.
  by apply everywhere_inv in He as [_ He].
Qed.

Lemma everywhere_always P n : (∀ n, P n) → everywhere P n.
Proof.
  intros HP. destruct (fits_some n) as [fuel Hf]. revert n Hf. induction fuel as [|fuel IH]; intros n Hf; [done|].
  constructor; [done|]. eapply list.Forall_impl; [exact Hf|]. exact IH.
Qed.

(** The patterns of a tree. *)
Definition lets_fit (rest : list (nat * Value.t)) (nd : node) : Prop :=
  match nd with
  | NStat (mkStatement (SLet p _) _) => pattern_fits rest p
  | _ => True
  end.

Lemma lets_fit_nil n : everywhere (lets_fit []) n.
Proof.
  apply everywhere_always. intros [[k di]| | |]; try done. destruct k; try done. by left.
Qed.

Section weaken.
Context `{Crypto} (rest : list (nat * Value.t)) (string_table : StringTable.t) (imports : gmap nat Label.t) (global_map : gmap nat nat)
        (release : bool).
Context (callf callf' : Label.t → list Value.t → list Value.t → option (option Value.t * list Value.t)) (n n' : nat).
Hypothesis calls_more : ∀ l vals g r, callf l vals g = Some r → callf' l vals g = Some r.
Hypothesis fuel_more : n <= n'.

Abbreviation same_expr := (same_expr rest string_table imports global_map release callf callf' n n').
Abbreviation same_stat := (same_stat rest string_table imports global_map release callf callf' n n').

Definition self_same (nd : node) : Prop :=
  match nd with
  | NStat s => same_stat s s
  | NExpr e => same_expr e e
  | NField f => same_expr (fi_value f) (fi_value f)
  | NType _ => True
  end.

Lemma self_same_all nd : everywhere (lets_fit rest) nd → self_same nd.
Proof using calls_more fuel_more.
  destruct (fits_some nd) as [fuel Hf]. revert nd Hf. induction fuel as [|fuel IH]; intros nd Hf Hl; [done|].
  assert (Forall self_same (child_nodes nd)) as Hc.
  { apply fits_child in Hf. apply everywhere_child in Hl. rewrite list.Forall_forall in Hf, Hl |- *. auto. }
  assert (Forall (visit_same rest string_table imports global_map release callf callf' n n' id_visitor) (child_nodes nd)) as Hv.
  { eapply list.Forall_impl; [exact Hc|]. by intros [] Hx; cbn in *; try intros ? [= <-]. }
  assert (Forall (visit_id id_visitor) (child_nodes nd)) as Hid.
  { apply list.Forall_forall. by intros []. }
  destruct nd as [s|[k di]|f|t]; cbn [child_nodes self_same] in *.
  - eapply map_statement_same; [done|done|by apply map_statement_id|done|].
    apply everywhere_inv in Hl as [Hl _]. destruct s as [k di]. by destruct k.
  - eapply map_kind_same; [done|by apply (map_kind_id _ _ di)|done].
  - by apply list.Forall_cons in Hc as [? _].
  - done.
Qed.

Lemma self_same_stats l : Forall (everywhere (lets_fit rest)) (NStat <$> l) →
  sim rest (sequence (map (eval_statement callf string_table imports global_map release n) l))
    (sequence (map (eval_statement callf' string_table imports global_map release n') l)).
Proof using calls_more fuel_more.
  intros Hl. apply sim_sequence. induction l as [|s l IH]; [constructor|]. apply list.Forall_cons in Hl as [Hs Hl].
  constructor; [|by apply IH]. by apply (self_same_all (NStat s)).
Qed.
End weaken.

(** ** Trees without returns *)
Definition no_exit (nd : node) : Prop :=
  match nd with
  | NStat (mkStatement (SReturn _) _) | NStat (mkStatement SReturnVoid _) | NExpr (mkExpr (Try _ _) _) => False
  | _ => True
  end.
Abbreviation exit_free := (everywhere no_exit).

(** A computation that does not return from the function and leaves no new
    variables, and one that may leave some. *)
Definition stays (m : sem) : Prop := ∀ σ r, m σ = Some r → ∃ v σ', r = RVal v σ' ∧ length (env σ') = length (env σ).
Definition goes (m : sem) : Prop := ∀ σ r, m σ = Some r → ∃ v σ', r = RVal v σ' ∧ length (env σ) <= length (env σ').

Lemma stays_goes m : stays m → goes m.
Proof. intros Hm σ r Hr. destruct (Hm σ r Hr) as (v & σ' & -> & Hl). exists v, σ'. split; [done|lia]. Qed.
Lemma stays_value b m k : stays m → (∀ v, stays (k v)) → stays (value_of b m k).
Proof.
  intros Hm Hk σ r (r1 & H1 & Hr)%bind_Some. destruct (Hm _ _ H1) as ([w|] & σ1 & -> & Hl); [|done].
  destruct (Hk w _ _ Hr) as (v & σ' & -> & Hl'). exists v, σ'. split; [done|lia].
Qed.
Lemma goes_value b m k : stays m → (∀ v, goes (k v)) → goes (value_of b m k).
Proof.
  intros Hm Hk σ r (r1 & H1 & Hr)%bind_Some. destruct (Hm _ _ H1) as ([w|] & σ1 & -> & Hl); [|done].
  destruct (Hk w _ _ Hr) as (v & σ' & -> & Hl'). exists v, σ'. split; [done|lia].
Qed.
Lemma stays_then m k : stays m → stays k → stays (then_sem m k).
Proof.
  intros Hm Hk σ r (r1 & H1 & Hr)%bind_Some. destruct (Hm _ _ H1) as (w & σ1 & -> & Hl).
  destruct (Hk _ _ Hr) as (v & σ' & -> & Hl'). exists v, σ'. split; [done|lia].
Qed.
Lemma goes_then m k : goes m → goes k → goes (then_sem m k).
Proof.
  intros Hm Hk σ r (r1 & H1 & Hr)%bind_Some. destruct (Hm _ _ H1) as (w & σ1 & -> & Hl).
  destruct (Hk _ _ Hr) as (v & σ' & -> & Hl'). exists v, σ'. split; [done|lia].
Qed.
Lemma stays_scoped m : goes m → stays (scoped m).
Proof.
  intros Hm σ r (r1 & H1 & Hr)%bind_Some. destruct (Hm _ _ H1) as (w & σ1 & -> & Hl). injection Hr as <-.
  do 2 eexists. split; [done|]. cbn. rewrite length_drop. lia.
Qed.
Lemma stays_give o : stays (give o).
Proof. intros σ r (w & _ & [= <-])%bind_Some. eauto. Qed.
Lemma stays_skip : stays skip.
Proof. intros σ r [= <-]. eauto. Qed.
Lemma stays_none : stays (λ _, None).
Proof. done. Qed.
Lemma stays_operands ms : ∀ vals k, Forall stays ms → (∀ vals, stays (k vals)) → stays (operands ms vals k).
Proof.
  induction ms as [|m ms IH]; intros vals k Hms Hk; cbn [operands]; [done|]. apply list.Forall_cons in Hms as [Hm Hms].
  apply stays_value; [done|]. intros w. by apply IH.
Qed.
Lemma goes_sequence ms : Forall goes ms → goes (sequence ms).
Proof. induction 1; cbn [sequence]; [apply stays_goes, stays_skip|by apply goes_then]. Qed.

Section stays.
Context `{Crypto} (string_table : StringTable.t) (imports : gmap nat Label.t) (global_map : gmap nat nat) (release : bool).
Context (callf : Label.t → list Value.t → list Value.t → option (option Value.t * list Value.t)) (n : nat).

Abbreviation ev := (eval_expr callf string_table imports global_map release n).
Abbreviation evs := (eval_statement callf string_table imports global_map release n).
Abbreviation evb := (eval_block callf string_table imports global_map release n).

Definition stays_node (nd : node) : Prop :=
  match nd with
  | NStat s => goes (evs s)
  | NExpr e => stays (ev e)
  | NField f => stays (ev (fi_value f))
  | NType _ => True
  end.

Lemma update_length {A} x (a : A) l l' : update x a l = Some l' → length l' = length l.
Proof using Type.
  revert l'. induction l as [|[y b] l IH]; intros l'; [done|]. cbn. destruct (Nat.eqb x y); [by intros [= <-]|].
  intros (l1 & Hl & [= <-])%bind_Some. cbn. by rewrite (IH _ Hl).
Qed.

Lemma bind_pattern_env p : ∀ v new σ new' σ', bind_pattern global_map p v new σ = Some (new', σ') →
  length (env σ') = length (env σ).
Proof using Type.
  revert p. fix IH 1. intros [[x|x|pats] di t] v new σ new' σ' Hr; cbn [bind_pattern] in Hr; [by injection Hr as <- <-| |].
  - destruct (update x v (env σ)) as [e|] eqn:Eu; [injection Hr as <- <-; by apply update_length in Eu|].
    apply bind_Some in Hr as (idx & _ & Hr). by apply bind_Some in Hr as (w & _ & [= <- <-]).
  - destruct (is_empty pats); [done|]. revert Hr. generalize 0, (length pats). intros i size. revert i new σ.
    induction pats as [|p pats IHp]; intros i new σ Hr; [by injection Hr as <- <-|]. cbn [bind_loop] in Hr.
    apply bind_Some in Hr as (y & _ & Hr). apply bind_Some in Hr as ([new1 σ1] & Hp & Hr).
    rewrite (IHp _ _ _ Hr). by eapply IH.
Qed.

Lemma stays_call f args t : stays f → Forall stays args → stays (sem_call callf f args t).
Proof using Type.
  intros Hf Hargs. unfold sem_call. destruct (type_eq _ _); [done|]. apply stays_operands; [by apply List.Forall_rev|].
  intros vals. apply stays_value; [done|]. intros fv σ r Hr. destruct fv; try done.
  apply bind_Some in Hr as ([w g] & _ & [= <-]). eauto.
Qed.
Lemma stays_builtin b args t : Forall stays args → stays (sem_builtin callf string_table imports b args t).
Proof using Type.
  intros Hargs. unfold sem_builtin. destruct (StringTable.get_if_exists _ _); [|done]. apply stays_call; [apply stays_give|done].
Qed.
Lemma stays_struct ms : Forall stays ms → stays (sem_struct ms).
Proof using Type. intros Hms. apply stays_operands; [by apply List.Forall_rev|]. intros. apply stays_give. Qed.
Lemma stays_choose c t e : stays t → stays e → stays (choose c t e).
Proof using Type. intros Ht He. unfold choose. destruct (is_truth c); [|done]. by destruct (c =? 0)%Z. Qed.
Lemma stays_if c t e : stays c → stays t → stays e → stays (sem_if c t e).
Proof using Type. intros Hc Ht He. apply stays_value; [done|]. intros v. destruct v; try done. by apply stays_choose. Qed.
Lemma stays_if_let x m t e : stays m → stays t → stays e → stays (sem_if_let x m t e).
Proof using Type.
  intros Hm Ht He. apply stays_value; [done|]. intros v σ r ([tag held] & _ & Hr)%bind_Some.
  revert σ r Hr. apply stays_choose; [|done]. intros σ r (y & _ & Hr)%bind_Some. revert σ r Hr. apply stays_scoped.
  intros σ r Hr. destruct (Ht _ _ Hr) as (w & σ' & -> & Hl). do 2 eexists. split; [done|]. cbn in Hl. lia.
Qed.
Lemma stays_while k c b : stays c → goes b → stays (sem_while k c b).
Proof using Type.
  intros Hc Hb. induction k as [|k IH]; [done|]. cbn [sem_while]. apply stays_if; [done| |apply stays_skip].
  apply stays_then; [by apply stays_scoped|done].
Qed.
Lemma stays_filter m : stays m → stays (λ σ, r ← m σ; match r with RVal (Some _) _ => None | r => Some r end).
Proof using Type.
  intros Hm σ r (r1 & Hr & Hk)%bind_Some. destruct (Hm _ _ Hr) as ([w|] & σ1 & -> & Hl); [done|]. injection Hk as <-. eauto.
Qed.

Lemma stays_list es : Forall stays_node (NExpr <$> es) → Forall stays (map ev es).
Proof using Type. induction es; [constructor|]. intros [? ?]%list.Forall_cons. constructor; auto. Qed.
Lemma stays_stats l : Forall stays_node (NStat <$> l) → Forall goes (map evs l).
Proof using Type. induction l; [constructor|]. intros [? ?]%list.Forall_cons. constructor; auto. Qed.
Lemma stays_fields l : Forall stays_node (NField <$> l) → Forall stays (map (λ f, ev (fi_value f)) l).
Proof using Type. induction l; [constructor|]. intros [? ?]%list.Forall_cons. constructor; auto. Qed.
Lemma stays_block b : Forall stays_node (block_nodes b) → stays (evb b).
Proof using Type.
  destruct b as [body ret scope]. intros [Hb Hr]%list.Forall_app. cbn [eval_block eval_expr].
  apply stays_scoped, goes_then; [by apply goes_sequence, stays_stats|]. apply stays_goes. destruct ret; [|apply stays_skip].
  by apply list.Forall_cons in Hr as [? _].
Qed.
Lemma stays_else o : Forall stays_node (flat_map block_nodes (olist o)) → stays (match o with Some b => evb b | None => skip end).
Proof using Type. destruct o as [b|]; [|intros; apply stays_skip]. cbn. rewrite app_nil_r. apply stays_block. Qed.

Ltac stays_step := repeat first
  [ assumption | apply stays_give | apply stays_struct | apply stays_if | apply stays_if_let | apply stays_none | (apply stays_value; [|intro]) ].

Lemma stays_all nd : exit_free nd → stays_node nd.
Proof using Type.
  destruct (fits_some nd) as [fuel Hf]. revert nd Hf. induction fuel as [|fuel IH]; intros nd Hf Hl; [done|].
  assert (Forall stays_node (child_nodes nd)) as Hc.
  { apply fits_child in Hf. apply everywhere_child in Hl. rewrite list.Forall_forall in Hf, Hl |- *. auto. }
  apply everywhere_inv in Hl as [Hl _].
  destruct nd as [[k di]|[k di]|f|t]; cbn [child_nodes stays_node stat_nodes statement_kind] in *.
  - destruct k; cbn [stat_nodes statement_kind] in Hc; try done;
      repeat match goal with Hf : Forall stays_node (_ :: _) |- _ => apply list.Forall_cons in Hf as [? Hf] end;
      cbn [stays_node] in *; cbn [eval_statement eval_expr].
    + apply stays_goes, stays_skip.
    + apply stays_goes. unfold sem_expression. destruct (_ || _); [by apply stays_filter|]. apply stays_value; [done|].
      intros. apply stays_skip.
    + apply goes_value; [done|]. intros v σ r ([new σ1] & Hp & [= <-])%bind_Some. do 2 eexists. split; [done|]. cbn.
      rewrite length_app, (bind_pattern_env pat v [] σ new σ1 Hp). lia.
    + apply stays_goes, stays_value; [done|]. intros v σ r (e' & He & [= <-])%bind_Some. do 2 eexists. split; [done|]. cbn.
      by eapply update_length.
    + apply stays_goes, stays_value; [done|]. intros v σ r (e' & _ & [= <-])%bind_Some. eauto.
    + apply stays_goes, stays_while; [done|]. by apply goes_sequence, stays_stats.
    + apply stays_goes. unfold sem_assert. destruct release; [apply stays_skip|]. apply stays_filter, stays_builtin. by repeat constructor.
  - destruct k; cbn [expr_nodes expr_kind] in Hc; try done;
      repeat match goal with Hf : Forall stays_node (_ :: _) |- _ => apply list.Forall_cons in Hf as [? Hf] end;
      cbn [stays_node] in *; cbn [eval_expr]; try (stays_step; fail); try (apply stays_builtin; by repeat constructor).
    + apply stays_value; [done|]. intros v. destruct v; try done. destruct (_ =? 0)%Z; stays_step.
    + apply stays_value; [done|]. intros v. destruct v; try done. apply stays_choose; stays_step.
    + intros σ. apply stays_give.
    + intros σ. apply stays_give.
    + unfold sem_tuple_ref. destruct (get_type e); stays_step.
    + apply stays_call; [done|by apply stays_list].
    + by apply stays_block.
    + by apply stays_struct, stays_fields.
    + unfold sem_tuple. destruct (Nat.leb _ _); [|done]. by apply stays_struct, stays_list.
    + unfold sem_new_heap_array. destruct (default_value _) as [[d b]|]; [|done]. apply stays_builtin.
      repeat constructor; [done|apply stays_give].
    + destruct e as [e|]; [|apply stays_give]. apply list.Forall_cons in Hc as [? _]. cbn [stays_node] in *. stays_step.
    + apply stays_value; [done|]. intros y. apply stays_value; [done|]. intros w. destruct t; stays_step.
    + apply list.Forall_app in Hc as [Hb Ho]. apply stays_if; [done|by apply stays_block|by apply stays_else].
    + apply list.Forall_app in Hc as [Hb Ho]. apply stays_if_let; [done|by apply stays_block|by apply stays_else].
  - by apply list.Forall_cons in Hc as [? _].
  - done.
Qed.
End stays.

(** ** [strip_returns] does nothing to trees without returns *)
Definition visited (v : visitor) (nd : node) : Prop :=
  match nd with
  | NStat s => ∃ s', visit_stat v s = Some (Ok s')
  | NExpr e => ∃ e', visit_expr v e = Some (Ok e')
  | NField f => ∃ f', visit_field v f = Some (Ok f')
  | NType _ => True
  end.

Lemma map_fm_visits {A B} (f : A → FM B) (c : A → node) (P : node → Prop) l l' : (∀ a b, f a = Some (Ok b) → P (c a)) →
  map_fm f l = Some (Ok l') → Forall P (c <$> l).
Proof.
  intros HP. revert l'. induction l as [|a l IH]; intros l' Hl; [constructor|]. cbn [map_fm] in Hl.
  apply fm_bind_ok in Hl as (b & Hb & Hl). apply fm_bind_ok in Hl as (bs & Hbs & _).
  apply List.Forall_cons; [by eapply HP|by eapply IH].
Qed.

Lemma map_block_visits v b b' : map_block v b = Some (Ok b') → Forall (visited v) (block_nodes b).
Proof.
  destruct b as [body ret scope]. intros Hm. cbn [map_block] in Hm. apply fm_bind_ok in Hm as (body' & Hb & Hm).
  apply fm_bind_ok in Hm as (ret' & Hr & _). apply list.Forall_app. split.
  - eapply map_fm_visits; [|exact Hb]. intros a x Ha. by exists x.
  - destruct ret as [e|]; [|constructor]. apply fm_bind_ok in Hr as (e' & He & _). apply List.Forall_cons; [by exists e'|constructor].
Qed.

Ltac fm_next Hm := let x := fresh "x" in let Hx := fresh "Hx" in apply fm_bind_ok in Hm as (x & Hx & Hm).
Ltac visits := repeat match goal with
  | |- Forall _ [] => apply List.Forall_nil
  | |- Forall _ (NExpr ?e :: _) => apply List.Forall_cons; [by eexists|]
  | |- Forall _ (_ ++ _) => apply list.Forall_app; split
  | Hx : map_fm _ ?l = _ |- Forall _ (_ <$> ?l) => eapply map_fm_visits; [|exact Hx]; intros ? y ?; by exists y
  | Hx : map_block _ ?b = _ |- Forall _ (block_nodes ?b) => by eapply map_block_visits
  end.

Lemma else_visits v o o' : option_fm (map_block v) o = Some (Ok o') → Forall (visited v) (flat_map block_nodes (olist o)).
Proof.
  destruct o as [b|]; [|constructor]. intros Ho. apply fm_bind_ok in Ho as (b' & Hb & _). cbn. rewrite app_nil_r. visits.
Qed.

Lemma map_kind_visits v k k' di : map_kind v k = Some (Ok k') → Forall (visited v) (expr_nodes (mkExpr k di)).
Proof.
  intros Hm. destruct k; cbn [map_kind expr_nodes expr_kind] in *; repeat fm_next Hm; visits; try (by eapply else_visits).
  destruct e; [|constructor]. apply fm_bind_ok in Hx as (e' & He & _). apply List.Forall_cons; [by exists e'|constructor].
Qed.

Lemma map_expr_visits v e e' : map_expr v e = Some (Ok e') → Forall (visited v) (expr_nodes e).
Proof. destruct e as [k di]. intros (k' & Hk & _)%fm_bind_ok. by eapply map_kind_visits. Qed.

Lemma map_statement_visits v s s' : map_statement v s = Some (Ok s') → Forall (visited v) (stat_nodes s).
Proof.
  destruct s as [k di]. intros (k' & Hm & _)%fm_bind_ok. destruct k; cbn [stat_nodes statement_kind]; repeat fm_next Hm; visits.
  destruct e as [e|]; [|constructor]. apply fm_bind_ok in Hx as (e' & He & _). cbn. rewrite app_nil_r. by eapply map_expr_visits.
Qed.

Abbreviation strip_visitor := (visitor_of strip_returns).

Lemma strip_id fuel : ∀ nd, exit_free nd → visited (strip_visitor fuel ()) nd → visit_id (strip_visitor fuel ()) nd.
Proof.
  induction fuel as [|fuel IH]; intros nd Hx Hv; [by destruct nd as [| | |]; try destruct Hv|].
  assert (∀ nodes, Forall exit_free nodes → Forall (visited (strip_visitor fuel ())) nodes →
            Forall (visit_id (strip_visitor fuel ())) nodes) as Hall.
  { intros nodes Hn Hvs. rewrite list.Forall_forall in Hn, Hvs |- *. auto. }
  pose proof (everywhere_child _ _ Hx) as Hc. apply everywhere_inv in Hx as [Hx _].
  destruct nd as [[k di]|[k di]|f|t]; cbn [child_nodes visited visit_id visitor_of apply_visitor visit_stat visit_expr visit_field
      strip_returns on_stat on_expr mret fm_ret mbind fm_bind] in *.
  - assert (strip_stat (mkStatement k di) = mkStatement k di) as Hs by (by destruct k). rewrite Hs in *.
    destruct Hv as [s' Hv]. apply map_statement_id, Hall; [done|]. by eapply map_statement_visits.
  - assert (strip_expr (mkExpr k di) = mkExpr k di) as Hs by (by destruct k). rewrite Hs in *.
    destruct Hv as [e' Hv]. apply map_expr_id, Hall; [done|]. by eapply map_expr_visits.
  - destruct Hv as [f' Hv]. apply fm_bind_ok in Hv as (e' & He & _). apply list.Forall_cons in Hc as [Hc _].
    specialize (IH (NExpr (fi_value f)) Hc (ex_intro _ e' He)). cbn in IH. unfold map_field. rewrite IH. by destruct f.
  - done.
Qed.

Lemma strip_expr_id fuel e e' : exit_free (NExpr e) → apply_expr strip_returns fuel () e = Some (Ok e') → e' = e.
Proof.
  intros Hx Ha. unfold apply_expr in Ha. pose proof (map_expr_visits _ _ _ Ha) as Hv.
  rewrite map_expr_id in Ha; [congruence|]. pose proof (everywhere_child _ _ Hx) as Hc.
  rewrite list.Forall_forall in Hc, Hv |- *. intros c Hin. apply strip_id; [by apply Hc|by apply Hv].
Qed.
Lemma strip_stat_id fuel s s' : exit_free (NStat s) → apply_stat strip_returns fuel () s = Some (Ok s') → s' = s.
Proof.
  intros Hx Ha. unfold apply_stat in Ha. pose proof (map_statement_visits _ _ _ Ha) as Hv.
  rewrite map_statement_id in Ha; [congruence|]. pose proof (everywhere_child _ _ Hx) as Hc.
  rewrite list.Forall_forall in Hc, Hv |- *. intros c Hin. apply strip_id; [by apply Hc|by apply Hv].
Qed.

Lemma strip_list_id {A} (f : A → FM A) (c : A → node) l l' : (∀ a b, exit_free (c a) → f a = Some (Ok b) → b = a) →
  Forall exit_free (c <$> l) → map_fm f l = Some (Ok l') → l' = l.
Proof.
  intros Hf. revert l'. induction l as [|a l IH]; intros l' Hl Hm; cbn [map_fm] in Hm; [by injection Hm as <-|].
  apply list.Forall_cons in Hl as [Ha Hl]. apply fm_bind_ok in Hm as (b & Hb & Hm). apply fm_bind_ok in Hm as (bs & Hbs & Hm).
  injection Hm as <-. f_equal; [by apply Hf|by apply IH].
Qed.

(** ** Functions that return only at their end *)
Definition plain (nd : node) : Prop :=
  no_exit nd ∧ match nd with NStat (mkStatement (SLet p _) _) => binds_only p = true | _ => True end.

Definition body_is (f : TypeCheckedFunc) (stats : list TypeCheckedStatement) (ret : option TypeCheckedExpr) : Prop :=
  match ret with
  | Some e => ∃ di, f_code f = stats ++ [mkStatement (SReturn e) di]
  | None => f_code f = stats
  end.

(** Statements without returns, then one return, or none in a function that
    gives no value; the value has exactly the declared type; at most eight
    arguments. *)
Definition simple_body (f : TypeCheckedFunc) (stats : list TypeCheckedStatement) (ret : option TypeCheckedExpr) : Prop :=
  body_is f stats ret ∧ Forall (everywhere plain) (NStat <$> stats) ∧ Forall (everywhere plain) (NExpr <$> olist ret) ∧
  from_option get_type Tipe.Void ret = f_ret_type f ∧ length (f_args f) <= TUPLE_SIZE.
Definition simple (f : TypeCheckedFunc) : Prop := ∃ stats ret, simple_body f stats ret.

Lemma everywhere_mono (P Q : node → Prop) n : (∀ n, P n → Q n) → everywhere P n → everywhere Q n.
Proof.
  intros HPQ. destruct (fits_some n) as [fuel Hf]. revert n Hf. induction fuel as [|fuel IH]; intros n Hf Hp; [done|].
  apply everywhere_inv in Hp as [Hn Hp]. constructor; [by apply HPQ|]. cbn [fits] in Hf.
  rewrite list.Forall_forall in Hf, Hp |- *. auto.
Qed.
Lemma plain_exit_free l : Forall (everywhere plain) l → Forall exit_free l.
Proof. intros Hl. eapply list.Forall_impl; [exact Hl|]. intros n. apply everywhere_mono. by intros x [? _]. Qed.
Lemma plain_lets_fit rest l : Forall (everywhere plain) l → Forall (everywhere (lets_fit rest)) l.
Proof.
  intros Hl. eapply list.Forall_impl; [exact Hl|]. intros n. apply everywhere_mono.
  intros [[k di]| | |] [_ Hx]; try done. destruct k; try done. by right.
Qed.

Lemma exit_free_bind f args : Forall exit_free (NExpr <$> args) → Forall exit_free (NStat <$> bind_args f args).
Proof.
  intros Ha. unfold bind_args. destruct (Nat.eqb _ 0); [constructor|]. repeat (constructor; try done).
Qed.

Lemma exit_free_last l s : Forall exit_free (NStat <$> l) → list.last l = Some s → no_exit (NStat s).
Proof.
  intros Hl Hs. apply last_Some_elem_of in Hs. rewrite list.Forall_forall in Hl.
  specialize (Hl (NStat s) (list_elem_of_fmap_2 NStat l s Hs)). by apply everywhere_inv in Hl as [? _].
Qed.

(** The block that replaces a call. *)
Lemma inline_block_spec fuel f stats ret args b : simple_body f stats ret → Forall exit_free (NExpr <$> args) →
  inline_block fuel f args = Some (Ok b) → b = mkBlock (bind_args f args ++ stats) ret (Some "_inline").
Proof.
  intros (Hbody & Hs & Hr & _) Ha Hb. apply plain_exit_free in Hs, Hr. pose proof (exit_free_bind f args Ha) as Hbind.
  unfold inline_block in Hb. apply fm_bind_ok in Hb as (args' & Hargs & Hb).
  assert (args' = args) as ->.
  { destruct (Nat.eqb _ 0); [by injection Hargs|].
    apply (strip_list_id _ NExpr _ _ (λ e e', strip_expr_id fuel e e') Ha Hargs). }
  clear Hargs. apply fm_bind_ok in Hb as ([code be] & Hcode & Hb). apply fm_bind_ok in Hb as (code' & Hstrip & Hb).
  injection Hb as <-.
  assert (code = bind_args f args ++ stats ∧ be = ret) as [-> ->].
  { destruct ret as [e|]; cbn [body_is] in Hbody.
    - destruct Hbody as [di Hc]. rewrite Hc, app_assoc, last_snoc in Hcode. rewrite removelast_last in Hcode.
      apply fm_bind_ok in Hcode as (e' & He & [= <- <-]). split; [done|]. apply list.Forall_cons in Hr as [Hr _].
      by apply strip_expr_id in He as ->.
    - rewrite Hbody in Hcode. destruct (list.last (bind_args f args ++ stats)) as [s|] eqn:El; [|by injection Hcode as <- <-].
      apply exit_free_last in El; [|rewrite fmap_app; by apply list.Forall_app]. destruct s as [[] di]; try done; by injection Hcode as <- <-. }
  apply (strip_list_id _ NStat _ _ (λ s s', strip_stat_id fuel s s')) in Hstrip as ->; [done|].
  rewrite fmap_app. by apply list.Forall_app.
Qed.

(** ** A call and its block do the same *)

(** Operands that do not return: their values and the state after them. *)
Lemma operands_inv ms : ∀ vals k σ r, Forall stays ms → operands ms vals k σ = Some r →
  ∃ vals' σ', length vals' = length ms + length vals ∧ length (env σ') = length (env σ) ∧ k vals' σ' = Some r ∧
    ∀ k', operands ms vals k' σ = k' vals' σ'.
Proof.
  induction ms as [|m ms IH]; intros vals k σ r Hms Hr; cbn [operands] in *; [by exists vals, σ|].
  apply list.Forall_cons in Hms as [Hm Hms]. apply bind_Some in Hr as (r1 & H1 & Hr).
  destruct (Hm _ _ H1) as ([v|] & σ1 & -> & Hl); [|done].
  destruct (IH _ _ _ _ Hms Hr) as (vals' & σ' & Hlen & Hl' & Hk & Hall). exists vals', σ'. cbn in Hlen.
  split_and!; [cbn; lia|lia|done|]. intros k'. unfold value_of. rewrite H1. apply Hall.
Qed.

Lemma fields_value vals : ∃ v, value_from_field_list vals = Some v ∧ ∀ i, tuple_get (length vals) i v = vals !! i.
Proof.
  destruct (tree_new_spec (length vals) false) as (tree & Ht & Hok & Hs).
  destruct (make_value_ok tree vals Hok) as (v & Hv & Hl); [done|]. exists v. unfold value_from_field_list. rewrite Ht.
  split; [done|]. intros i. unfold tuple_get. rewrite Ht. cbn. by rewrite Hl.
Qed.

(** The pattern of the arguments binds them to their values. *)
Lemma bind_args_loop gm v args : ∀ i size vals new σ, (∀ j, tuple_get size (i + j) v = vals !! j) → length vals = length args →
  bind_loop (bind_pattern gm) size v i
    ((λ arg, new_bind (fa_name arg) (fa_debug_info arg) (fa_tipe arg)) <$> args) new σ =
  Some (rev (zip (fa_name <$> args) vals) ++ new, σ).
Proof.
  induction args as [|arg args IH]; intros i size vals new σ Hv Hl; [done|]. destruct vals as [|x vals]; [done|].
  cbn [fmap list_fmap bind_loop]. pose proof (Hv 0) as H0. rewrite Nat.add_0_r in H0. rewrite H0. cbn.
  rewrite (IH (S i) size vals); [by rewrite <- app_assoc| |by injection Hl].
  intros j. specialize (Hv (S j)). by rewrite <- plus_n_Sm in Hv.
Qed.

Section block.
Context `{Crypto} (string_table : StringTable.t) (imports : gmap nat Label.t) (global_map : gmap nat nat) (release : bool).
Context (callf : Label.t → list Value.t → list Value.t → option (option Value.t * list Value.t)) (n : nat).
Abbreviation ev := (eval_expr callf string_table imports global_map release n).
Abbreviation evs := (eval_statement callf string_table imports global_map release n).

Lemma bind_args_eval f args k σ r : Forall exit_free (NExpr <$> args) → length (f_args f) <= TUPLE_SIZE →
  operands (rev (map ev args)) [] k σ = Some r →
  ∃ vals σ1, length (env σ1) = length (env σ) ∧ k vals σ1 = Some r ∧ (length vals = length (f_args f) →
    sequence (map evs (bind_args f args)) σ =
    Some (RVal None (mkSt (rev (zip (fa_name <$> f_args f) vals) ++ env σ1) (globals σ1)))).
Proof using Type.
  intros Ha Hsize Hr.
  assert (Forall stays (rev (map ev args))) as Hst.
  { apply List.Forall_rev, (stays_list string_table imports global_map release callf n). eapply list.Forall_impl; [exact Ha|].
    intros nd. apply stays_all. }
  destruct (operands_inv _ _ _ _ _ Hst Hr) as (vals & σ1 & Hl & He & Hk & Hall).
  rewrite length_rev, length_map in Hl. cbn in Hl. rewrite Nat.add_0_r in Hl. exists vals, σ1.
  split_and!; [done..|]. intros Hlen. rewrite Hl in Hlen. unfold bind_args. destruct (Nat.eqb_spec (length (f_args f)) 0) as [Hz|Hz].
  - assert (args = []) as -> by (by destruct args; cbn in *; [|lia]). destruct vals; [|done]. cbn in Hr, Hall.
    destruct (f_args f); [|done]. specialize (Hall (λ _ σ, Some (RVal None σ))). cbn in Hall. injection Hall as ->.
    by destruct σ1.
  - cbn [map sequence]. unfold then_sem at 1. cbn [eval_statement eval_expr]. unfold sem_let, value_of at 1.
    unfold sem_tuple. rewrite length_map, Hlen, (proj2 (Nat.leb_le _ _) Hsize). unfold sem_struct. rewrite Hall.
    destruct (fields_value vals) as (v & Hv & Hget). unfold give. rewrite Hv. cbn [mbind option_bind].
    cbn [bind_pattern new_tuple]. destruct (is_empty _) eqn:Ee; [by destruct (f_args f)|].
    rewrite length_fmap, (bind_args_loop global_map v (f_args f) 0 (length (f_args f)) vals [] σ1); [|..|congruence].
    + cbn. by rewrite app_nil_r.
    + intros j. rewrite <- Hlen, <- Hl. apply Hget.
Qed.

(** The body of a function up to its return. *)
Lemma body_result f stats ret σ v σ2 : simple_body f stats ret →
  sequence (map evs (with_final_return f)) σ = Some (RRet v σ2) →
  ∃ o σ1, sequence (map evs stats) σ = Some (RVal o σ1) ∧
    (match ret with Some e => ev e | None => skip end) σ1 = Some (RVal v σ2).
Proof using Type.
  intros (Hbody & Hs & Hr & Ht & _) Hseq. apply plain_exit_free in Hs, Hr.
  assert (∃ tl, with_final_return f = stats ++ tl ∧
            match ret with Some e => ∃ di tl', tl = mkStatement (SReturn e) di :: tl' | None => ∃ di, tl = [mkStatement SReturnVoid di] end)
    as (tl & Htl & Hshape).
  { unfold with_final_return. destruct ret as [e|]; cbn [body_is] in Hbody.
    - destruct Hbody as [di ->]. destruct (_ && _); rewrite <- ?app_assoc; eauto 6.
    - rewrite Hbody, <- Ht. cbn [from_option]. unfold ends_with_return_void.
      destruct (list.last stats) as [s|] eqn:El; [apply exit_free_last in El; [|done]; destruct s as [[] di]; try done; eauto|eauto]. }
  rewrite Htl, map_app, sequence_app in Hseq. apply bind_Some in Hseq as (r1 & H1 & Hseq).
  assert (goes (sequence (map evs stats))) as Hgo.
  { apply goes_sequence, (stays_stats string_table imports global_map release callf n). eapply list.Forall_impl; [exact Hs|].
    intros nd. apply stays_all. }
  destruct (Hgo _ _ H1) as (o & σ1 & -> & _). exists o, σ1. split; [done|].
  destruct ret as [e|]; [destruct Hshape as (di & tl' & ->)|destruct Hshape as (di & ->)].
  - apply list.Forall_cons in Hr as [Hr _]. apply bind_Some in Hseq as (r2 & H2 & Hseq).
    apply bind_Some in H2 as (r3 & H3 & H2).
    destruct (stays_all string_table imports global_map release callf n (NExpr e) Hr _ _ H3) as ([w|] & σ3 & -> & _); [|done].
    injection H2 as <-. injection Hseq as <- <-. exact H3.
  - injection Hseq as <- <-. done.
Qed.
End block.

Lemma add_env_nil r : add_env [] r = r.
Proof. by destruct r as [v [e g]|v [e g]]; cbn; rewrite app_nil_r. Qed.

Section program.
Context `{Crypto} (string_table : StringTable.t) (imps : list ImportedFunc) (global_map : gmap nat nat) (release : bool)
        (funcs : list TypeCheckedFunc).
Abbreviation imports := (import_map imps ∅).
Abbreviation run := (call string_table imports global_map release funcs).
Abbreviation ev n := (eval_expr (run n) string_table imports global_map release n).
Abbreviation evs n := (eval_statement (run n) string_table imports global_map release n).

(** More fuel changes no result. *)
Lemma call_mono m : ∀ n l vals g r, m <= n → run m l vals g = Some r → run n l vals g = Some r.
Proof using Type.
  induction m as [|m IH]; intros n l vals g r Hle Hr; [done|]. destruct n as [|n]; [lia|]. cbn [call] in *.
  apply bind_Some in Hr as (f & Hf & Hr). rewrite Hf. cbn. destruct (returns f && _); [|done].
  apply bind_Some in Hr as (r1 & H1 & Hr).
  eapply (self_same_stats [] string_table imports global_map release (run m) (run n) m n) in H1; [| |lia|].
  - rewrite app_nil_r, add_env_nil in H1. rewrite H1. exact Hr.
  - intros l' vals' g' r'. apply IH. lia.
  - apply list.Forall_forall. intros nd _. apply lets_fit_nil.
Qed.

Lemma inline_call_sound n id t0 di0 args t p di di' j f stats ret sc σ r :
  list_find (λ f, f_name f = id) funcs = Some (j, f) → simple_body f stats ret → Forall exit_free (NExpr <$> args) →
  ev n (mkExpr (FunctionCall (mkExpr (FuncRef id t0) di0) args t p) di) σ = Some r →
  ev n (mkExpr (CodeBlock (mkBlock (bind_args f args ++ stats) ret sc)) di') σ = Some r.
Proof using Type.
  intros Hfind Hsimple Ha Hr. pose proof Hsimple as (Hbody & Hs & Hre & _ & Hsize). cbn [eval_expr] in Hr. unfold sem_call in Hr.
  destruct (type_eq _ _); [done|].
  destruct (bind_args_eval string_table imports global_map release (run n) n f args _ σ r Ha Hsize Hr)
    as (vals & σ1 & Hlen & Hk & Hbind).
  cbn in Hk. apply bind_Some in Hk as ([v g'] & Hcall & [= <-]).
  fold (func_label imports id) in Hcall. destruct (run_known string_table funcs imports global_map release
    (imports_foreign imps) _ _ _ _ _ _ Hcall) as (_ & _ & _ & Hlabel). rewrite Hlabel in Hcall.
  destruct n as [|m]; [done|]. cbn [call find_func] in Hcall. rewrite Hfind in Hcall. cbn in Hcall.
  destruct (returns f && _) eqn:Eb; [|done]. apply andb_prop in Eb as [_ Hl%Nat.eqb_eq].
  apply bind_Some in Hcall as ([|w σ2] & Hrun & [= <- <-]).
  destruct (body_result string_table imports global_map release (run m) m f stats ret _ _ _ Hsimple Hrun) as (o & σa & Hst & Hret).
  assert (∀ l vals g r, run m l vals g = Some r → run (S m) l vals g = Some r) as Hmono by (intros; by eapply call_mono; [|done]; lia).
  eapply (self_same_stats (env σ1) string_table imports global_map release (run m) (run (S m)) m (S m) Hmono) in Hst;
    [|lia|by apply plain_lets_fit].
  assert ((match ret with Some e => ev (S m) e | None => skip end) (mkSt (env σa ++ env σ1) (globals σa)) =
          Some (RVal w (mkSt (env σ2 ++ env σ1) (globals σ2)))) as Hret'.
  { destruct ret as [e|]; [|by injection Hret as <- <-]. apply (plain_lets_fit (env σ1)) in Hre. apply list.Forall_cons in Hre as [Hre _].
    destruct (self_same_all (env σ1) string_table imports global_map release (run m) (run (S m)) m (S m) Hmono ltac:(lia) (NExpr e))
      as [_ Hsim]; [exact Hre|].
    destruct σa as [ea ga]. exact (Hsim ea ga _ Hret). }
  change (sem_block (map (evs (S m)) (bind_args f args ++ stats)) (match ret with Some e => Some (ev (S m) e) | None => None end) σ
          = Some (RVal w (mkSt (env σ1) (globals σ2)))).
  unfold sem_block, scoped, then_sem. rewrite map_app, sequence_app. unfold then_sem. rewrite (Hbind Hl). cbn [mbind option_bind]. rewrite Hst. cbn [mbind option_bind add_env env globals].
  assert ((match match ret with Some e => Some (ev (S m) e) | None => None end with Some m => m | None => skip end) =
          (match ret with Some e => ev (S m) e | None => skip end)) as -> by (by destruct ret).
  rewrite Hret'. cbn [mbind option_bind env globals]. rewrite length_app, Hlen. replace (length (env σ2) + length (env σ) - length (env σ)) with (length (env σ2)) by lia.
  by rewrite drop_app_length.
Qed.
End program.

(** ** The whole pass *)
Section pass.
Context `{Crypto} (string_table : StringTable.t) (imps : list ImportedFunc) (global_map : gmap nat nat) (release : bool)
        (funcs : list TypeCheckedFunc) (fuel : nat) (heuristic : InliningHeuristic).
Abbreviation imports := (import_map imps ∅).
Abbreviation run := (call string_table imports global_map release funcs).

(** A function of which calls are replaced. *)
Definition inlined (f : TypeCheckedFunc) : Prop := refused heuristic InlineAuto f = false.

(** A call of a function that is inlined does not return from inside an
    argument and has the declared type; no statement forces inlining. *)
Definition regular (nd : node) : Prop :=
  match nd with
  | NExpr (mkExpr (FunctionCall (mkExpr (FuncRef id _) _) args t _) _) =>
      Forall (λ f, f_name f = id → inlined f → Forall exit_free (NExpr <$> args) ∧ t = f_ret_type f) funcs
  | NStat (mkStatement _ di) => inline (attributes di) ≠ InlineAlways
  | _ => True
  end.

Hypothesis simple_functions : Forall (λ f, inlined f → simple f) funcs.
Hypothesis regular_functions : Forall (λ f, Forall (everywhere regular) (func_nodes f)) funcs.

Context (callf' : Label.t → list Value.t → list Value.t → option (option Value.t * list Value.t)) (n : nat).
Hypothesis calls_more : ∀ l vals g r, run n l vals g = Some r → callf' l vals g = Some r.

Abbreviation same_expr := (same_expr [] string_table imports global_map release (run n) callf' n n).
Abbreviation visit_same := (visit_same [] string_table imports global_map release (run n) callf' n n).
Abbreviation inliner := (visitor_of (inlining fuel funcs heuristic)).

Lemma refused_modes mode f : mode ≠ InlineAlways → refused heuristic mode f = false → mode = InlineAuto.
Proof using Type.
  intros Hm Hr. destruct mode; [done..|]. unfold refused in Hr. change (mode_and InlineNever _) with InlineNever in Hr.
  destruct heuristic; apply bool_decide_eq_false in Hr; [by destruct Hr|]. by destruct Hr.
Qed.

Lemma map_expr_same v e e' : Forall (visit_same v) (expr_nodes e) → map_expr v e = Some (Ok e') → same_expr e e'.
Proof using calls_more.
  destruct e as [k di]. intros Hn (k' & Hk & [= <-])%fm_bind_ok. by eapply map_kind_same.
Qed.

(** The parts of the block that replaces a call are regular. *)
Lemma inlined_regular f args stats ret sc t0 id di0 t p di : f ∈ funcs → simple_body f stats ret →
  everywhere regular (NExpr (mkExpr (FunctionCall (mkExpr (FuncRef id t0) di0) args t p) di)) →
  Forall (everywhere regular) (block_nodes (mkBlock (bind_args f args ++ stats) ret sc)).
Proof using regular_functions.
  intros Hf (Hbody & _) [_ Hargs]%everywhere_inv. cbn [parts child_nodes expr_nodes expr_kind] in Hargs.
  apply list.Forall_cons in Hargs as [_ Hargs]. rewrite list.Forall_forall in regular_functions.
  specialize (regular_functions f Hf). unfold func_nodes in regular_functions. cbn [block_nodes]. rewrite fmap_app.
  assert (Forall (everywhere regular) (NStat <$> stats) ∧ Forall (everywhere regular) (NExpr <$> olist ret)) as [Hs Hr].
  { destruct ret as [e|]; cbn [body_is] in Hbody; [|by rewrite <- Hbody].
    destruct Hbody as [di' Hc]. rewrite Hc, fmap_app in regular_functions. apply list.Forall_app in regular_functions as [Hs He].
    split; [done|]. apply list.Forall_cons in He as [He _]. by apply everywhere_inv in He as [_ He]. }
  repeat (apply list.Forall_app; split); try done. unfold bind_args. destruct (Nat.eqb _ 0); [constructor|].
  apply List.Forall_cons; [|constructor]. constructor; [done|]. apply List.Forall_cons; [|constructor]. by constructor.
Qed.

(** The three outcomes of [inline] on an expression. *)
Lemma inline_expr_cases e s e1 s1 rec_ : inline_expr fuel funcs heuristic e s = Some (Ok (e1, s1, rec_)) →
  (e1 = e ∧ s1 = s ∧ rec_ = true) ∨ (e1 = e ∧ rec_ = false) ∨
  ∃ id t0 di0 args t p di j f b, e = mkExpr (FunctionCall (mkExpr (FuncRef id t0) di0) args t p) di ∧
    list_find (λ f, f_name f = id) funcs = Some (j, f) ∧ refused heuristic s.1 f = false ∧
    inline_block fuel f args = Some (Ok b) ∧ e1 = mkExpr (CodeBlock b) di ∧ s1 = (s.1, s.2 ++ [f_name f]) ∧ rec_ = true.
Proof using Type.
  intros Hx. destruct e as [k di]. destruct k; try (injection Hx as <- <- <-; by left).
  destruct f as [kf di0]. destruct kf as [| | | | | | | | |id t0| | | | | | | | | | | | | | | | | | | | | | | | | |];
    try (injection Hx as <- <- <-; by left).
  cbn [inline_expr] in Hx. destruct (list_find _ funcs) as [[j f]|] eqn:Ef; [|injection Hx as <- <- <-; by left].
  destruct (refused heuristic s.1 f || _) eqn:Er; [injection Hx as <- <- <-; right; by left|]. apply orb_false_elim in Er as [Er _].
  apply fm_bind_ok in Hx as (b & Hb & [= <- <- <-]). right. right. by do 10 eexists.
Qed.

Lemma inline_visit_same fuel' : ∀ s nd, s.1 ≠ InlineAlways → everywhere regular nd → visit_same (inliner fuel' s) nd.
Proof using All.
  induction fuel' as [|fuel' IH]; intros s nd Hmode Hreg; [by destruct nd|].
  assert (∀ s nodes, s.1 ≠ InlineAlways → Forall (everywhere regular) nodes → Forall (visit_same (inliner fuel' s)) nodes) as Hall.
  { intros s' nodes Hm Hn. eapply list.Forall_impl; [exact Hn|]. intros x. by apply IH. }
  pose proof (everywhere_child _ _ Hreg) as Hc. pose proof Hreg as [Hhere _]%everywhere_inv.
  destruct nd as [[k di]|e|f|t]; cbn [InlineCorrect.visit_same child_nodes] in *; [..|done].
  - intros s' (x & [= <-] & Hs)%fm_bind_ok. eapply map_statement_same; [done|done|exact Hs|by apply Hall|].
    by destruct k; try done; left.
  - intros e' ([[e1 s1] rec_] & Hx & Hm)%fm_bind_ok.
    assert (∀ s2, s2.1 ≠ InlineAlways → map_expr (inliner fuel' s2) e = Some (Ok e') → same_expr e e') as Hgo.
    { intros s2 Hm2. apply map_expr_same. by apply Hall. }
    destruct (inline_expr_cases e s e1 s1 rec_ Hx) as [(-> & -> & ->)|[(-> & ->)|(id & t0 & di0 & args & t & p & di & j & f & b & -> & Hf & Href & Hb & -> & -> & ->)]].
    + by apply (Hgo s).
    + injection Hm as <-. by apply (self_same_all [] string_table imports global_map release (run n) callf' n n calls_more (le_n n) (NExpr e)), lets_fit_nil.
    + assert (f ∈ funcs ∧ f_name f = id) as [Hin Hname].
      { apply list_find_Some in Hf as (Hj & Hn & _). split; [by eapply list_elem_of_lookup_2|done]. }
      pose proof (refused_modes _ _ Hmode Href) as Hauto. rewrite Hauto in Href.
      rewrite list.Forall_forall in simple_functions. destruct (simple_functions f Hin Href) as (stats & ret & Hsimple).
      cbn [regular] in Hhere. rewrite list.Forall_forall in Hhere. destruct (Hhere f Hin Hname Href) as [Hexit ->].
      apply (inline_block_spec _ _ _ _ _ _ Hsimple Hexit) in Hb as ->.
      apply map_expr_same in Hm as [Ht Hsim]; [|by apply Hall; [|eapply inlined_regular]].
      split.
      * rewrite Ht. destruct Hsimple as (_ & _ & _ & Hty & _). cbn. rewrite <- Hty. by destruct ret.
      * intros e0 g r Hr. apply Hsim. by eapply inline_call_sound.
  - intros f' (e' & He & [= <-])%fm_bind_ok. apply list.Forall_cons in Hc as [Hc _]. exact (IH s _ Hmode Hc e' He).
Qed.
(** The final statement stays a [return;] or none. *)
Lemma map_statement_void v s s' : map_statement v s = Some (Ok s') → ends_with_return_void [s'] = ends_with_return_void [s].
Proof using Type.
  destruct s as [k di]. intros (k' & Hk & [= <-])%fm_bind_ok.
  destruct k; cbn in Hk; repeat (apply fm_bind_ok in Hk as (? & ? & Hk)); by injection Hk as <-.
Qed.
Lemma ends_void_last l : ends_with_return_void l = from_option (λ s, ends_with_return_void [s]) false (list.last l).
Proof using Type. unfold ends_with_return_void. by destruct (list.last l). Qed.
Lemma ends_void_rel l l' : Forall2 (λ s s', ends_with_return_void [s'] = ends_with_return_void [s]) l l' →
  ends_with_return_void l' = ends_with_return_void l.
Proof using Type.
  intros Hl. rewrite !ends_void_last, !last_lookup, (Forall2_length Hl).
  apply (Forall2_lookup _ l l') with (i := Nat.pred (length l')) in Hl. by destruct Hl.
Qed.

Lemma visit_stat_void fuel' s st st' : visit_stat (inliner fuel' s) st = Some (Ok st') →
  ends_with_return_void [st'] = ends_with_return_void [st].
Proof using Type. destruct fuel' as [|fuel']; [done|]. intros (x & [= <-] & Hs)%fm_bind_ok. by eapply map_statement_void. Qed.

(** The inlined function does what the function did. *)
Lemma inline_func_same f f' : Forall (everywhere regular) (func_nodes f) → inline_func fuel funcs heuristic f = Some (Ok f') →
  sim [] (sequence (map (eval_statement (run n) string_table imports global_map release n) (with_final_return f)))
         (sequence (map (eval_statement callf' string_table imports global_map release n) (with_final_return f'))).
Proof using All.
  intros Hreg (code & Hcode & [= <-])%fm_bind_ok. unfold with_final_return. cbn [f_code f_ret_type f_debug_info].
  assert (Forall2 (λ s s', ends_with_return_void [s'] = ends_with_return_void [s]) (f_code f) code) as ->%ends_void_rel.
  { apply (map_fm_rel _ _ _ _ Hcode). intros s s' _. apply visit_stat_void. }
  assert (Forall2 (sim []) (map (eval_statement (run n) string_table imports global_map release n) (f_code f))
            (map (eval_statement callf' string_table imports global_map release n) code)) as Hsim.
  { apply same_stats. eapply visit_stats; [|exact Hcode]. eapply list.Forall_impl; [exact Hreg|]. intros nd. by apply inline_visit_same. }
  apply sim_sequence. destruct (_ && _); [|done]. rewrite !map_app. apply Forall2_app; [done|].
  repeat constructor. by intros e g r [= <-].
Qed.
End pass.

(** ** A module after the pass *)
Section inlined_module.
Context `{Crypto} (string_table : StringTable.t) (imps : list ImportedFunc) (global_map : gmap nat nat) (release : bool)
        (funcs : list TypeCheckedFunc) (fuel : nat) (heuristic : InliningHeuristic) (checked checked' : list (nat * TypeCheckedFunc)).
Abbreviation imports := (import_map imps ∅).
Abbreviation run := (call string_table imports global_map release).

(** The module consists of the functions that the pass may inline. *)
Hypothesis all_functions : funcs = checked.*2.
Hypothesis simple_functions : Forall (λ f, inlined heuristic f → simple f) funcs.
Hypothesis regular_functions : Forall (λ f, Forall (everywhere (regular funcs heuristic)) (func_nodes f)) funcs.
Hypothesis inlined_ok : inline_module fuel funcs heuristic checked = Some (Ok checked').

Definition inlines (f f' : TypeCheckedFunc) : Prop := inline_func fuel funcs heuristic f = Some (Ok f').

Lemma inline_signature f f' : inlines f f' →
  f_name f' = f_name f ∧ f_args f' = f_args f ∧ returns f' = returns f.
Proof using Type. by intros (code & _ & [= <-])%fm_bind_ok. Qed.

Lemma module_inlines : Forall2 inlines funcs checked'.*2.
Proof using all_functions inlined_ok.
  rewrite all_functions. apply Forall2_fmap_2. apply (map_fm_rel _ _ _ _ inlined_ok).
  by intros kf kf' _ (f' & Hf & [= <-])%fm_bind_ok.
Qed.

Lemma find_inlined l f : find_func funcs l = Some f → ∃ f', find_func (checked'.*2) l = Some f' ∧ inlines f f' ∧ f ∈ funcs.
Proof using all_functions inlined_ok.
  destruct l as [name| | |]; try done. cbn [find_func]. pose proof module_inlines as Hall. intros ([j f1] & Hf & [= <-])%bind_Some.
  cbn. revert j Hf. clear all_functions simple_functions regular_functions inlined_ok.
  assert (∀ l l' j, Forall2 inlines l l' → list_find (λ f, f_name f = name) l = Some (j, f1) →
    ∃ f', list_find (λ f, f_name f = name) l' ≫= (λ kf, Some kf.2) = Some f' ∧ inlines f1 f' ∧ f1 ∈ l) as Hfind.
  { induction l as [|a l IH]; intros l' j Hl Hj; [done|]. inversion Hl as [|? a' ? l1 Ha Hl1]; subst. cbn [list_find] in *.
    destruct (inline_signature _ _ Ha) as [Hn _]. rewrite Hn. destruct (decide (f_name a = name)).
    - injection Hj as <- <-. exists a'. split_and!; [done..|by left].
    - apply fmap_Some in Hj as ([j1 f2] & Hj & [= -> ->]). destruct (IH _ _ Hl1 Hj) as (f' & Hf' & Hi & Hin). exists f'.
      split_and!; [|done|by right]. apply bind_Some in Hf' as ([j2 f3] & -> & [= <-]). done. }
  intros j Hf. by eapply Hfind.
Qed.

Lemma inlined_calls n : ∀ l vals g r, run funcs n l vals g = Some r → run (checked'.*2) n l vals g = Some r.
Proof using All.
  induction n as [|n IH]; intros l vals g r Hr; [done|]. cbn [call] in *. apply bind_Some in Hr as (f & Hf & Hr).
  destruct (find_inlined _ _ Hf) as (f' & -> & Hin & Helem). cbn.
  destruct (inline_signature _ _ Hin) as (_ & -> & ->). destruct (returns f && _); [|done].
  apply bind_Some in Hr as (r1 & H1 & Hr). rewrite list.Forall_forall in regular_functions.
  eapply inline_func_same in H1; [| |apply list.Forall_forall; exact regular_functions|exact IH|by apply regular_functions|exact Hin]; [|done].
  rewrite app_nil_r, add_env_nil in H1. by rewrite H1.
Qed.
End inlined_module.

(** C6: inlining preserves the meaning of a module of regular functions.  Let every
    function that is inlined be simple ([simple]): it has at most eight arguments,
    returns only at its end, with a value of exactly its declared type, and its
    patterns bind variables and assign to none (a pattern that assigns can
    capture a variable of the caller, [inlined_pattern_captured]).  Let every call
    of such a function carry its declared result type and no return in its
    arguments, and let no statement be marked as always inlined ([regular]).  Then
    a call that gives a result before [inline_module] gives the same result and
    the same globals after it. *)
Theorem inline_correct `{Crypto} st imps gm release heuristic fuel checked checked' n l vals g r :
  Forall (λ f, inlined heuristic f → simple f) checked.*2 →
  Forall (λ f, Forall (everywhere (regular checked.*2 heuristic)) (func_nodes f)) checked.*2 →
  inline_module fuel checked.*2 heuristic checked = Some (Ok checked') →
  call st (import_map imps ∅) gm release checked.*2 n l vals g = Some r →
  call st (import_map imps ∅) gm release checked'.*2 n l vals g = Some r.
Proof. intros Hs Hr Hi. by eapply inlined_calls. Qed.

(** ** Examples *)

(** [tick(x)] calls [quad(x)], which calls [double(double(x))]; all calls of
    other functions are inlined. *)
Definition demo_module : list (nat * TypeCheckedFunc) := [(1, double_f); (2, quad_f); (3, tick_f)].
Definition demo_inlined : list (nat * TypeCheckedFunc) :=
  match inline_module 20 demo_module.*2 HAll demo_module with Some (Ok l) => l | _ => [] end.

Lemma inline_correct_witness :
  call (H := toy_crypto) StringTable.new (import_map [] ∅) ∅ false demo_inlined.*2 5 (Label.Func 3) [Value.Int 3] [Value.Int 7]
  = Some (Some (Value.Int 12), [Value.Int 8]).
Proof.
  apply (inline_correct (H := toy_crypto) StringTable.new [] ∅ false HAll 20 demo_module demo_inlined 5 (Label.Func 3)
           [Value.Int 3] [Value.Int 7] (Some (Value.Int 12), [Value.Int 8])).
  - repeat (apply List.Forall_cons; [intros _|]); [..|constructor].
    + exists [], (Some (ex (Binary BinaryOp.Plus (var 10) (var 10) Tipe.Uint))). split_and!; try (by repeat constructor).
      by exists dbg.
    + exists [], (Some (call_of 1 false (call_of 1 false (var 10)))). split_and!; try (by repeat constructor). by exists dbg.
    + exists (removelast (f_code tick_f)), (Some (call_of 2 false (var 10))). split_and!; try (by repeat constructor). by exists dbg.
  - repeat constructor; try done.
  - vm_compute. reflexivity.
  - vm_compute. reflexivity.
Defined.

(** ** Functions that are not simple *)
Definition after_inlining (l : list TypeCheckedFunc) : list TypeCheckedFunc :=
  match map_fm (inline_func 20 l HAll) l with Some (Ok l') => l' | _ => [] end.
Definition run_demo (l : list TypeCheckedFunc) (name : nat) : option (option Value.t * list Value.t) :=
  call (H := toy_crypto) StringTable.new ∅ {[20 := 0]} false l 9 (Label.Func name) [Value.Int 3] [Value.Int 7].

(** [store(x) { g = x; return; }] and [main(x) { store(x); return 5; }] *)
Definition store_f := mkFunc 6 [mkFuncArg 10 Tipe.Uint dbg] Tipe.Void
  [st_ (SAssignGlobal 0 (var 10)); st_ SReturnVoid] (Tipe.Func true [Tipe.Uint] Tipe.Void) Private dbg (mkPropertiesList false).
Definition store_main := func_of 7 true
  [st_ (SExpression (ex (FunctionCall (ex (FuncRef 6 (f_tipe store_f))) [var 10] Tipe.Void (mkPropertiesList false))));
   st_ (SReturn (num 5))].

(** [recursive_apply] changes what is below a statement, never the statement: a
    [return;] at the end of an inlined function returns from the caller. *)
Theorem inlined_return_void_escapes :
  run_demo [store_f; store_main] 7 = Some (Some (Value.Int 5), [Value.Int 3]) ∧
  run_demo (after_inlining [store_f; store_main]) 7 = Some (None, [Value.Int 3]).
Proof. split; vm_compute; reflexivity. Qed.

(** [inner(x) { return e?; }] with [e = None] and [outer(x) { inner(x); return 5; }] *)
Definition option_func : Tipe.t := Tipe.Func false [Tipe.Uint] (Tipe.Option Tipe.Uint).
Definition inner_f := mkFunc 8 [mkFuncArg 10 Tipe.Uint dbg] (Tipe.Option Tipe.Uint)
  [st_ (SReturn (ex (Try (ex (Const (Value.new_tuple [Value.Int 0]) (Tipe.Option (Tipe.Option Tipe.Uint)))) (Tipe.Option Tipe.Uint))))]
  option_func Private dbg (mkPropertiesList true).
Definition outer_f := func_of 9 false
  [st_ (SExpression (ex (FunctionCall (ex (FuncRef 8 option_func)) [var 10] (Tipe.Option Tipe.Uint) (mkPropertiesList true))));
   st_ (SReturn (num 5))].

(** The value of the final return is not changed itself either: a [?] there
    returns from the caller. *)
Theorem inlined_try_escapes :
  run_demo [inner_f; outer_f] 9 = Some (Some (Value.Int 5), [Value.Int 7]) ∧
  run_demo (after_inlining [inner_f; outer_f]) 9 = Some (Some (Value.Tuple [Value.Int 0]), [Value.Int 7]).
Proof. split; vm_compute; reflexivity. Qed.

(** [set(x) { let ( *g) = (x,); return x; }] for the global [g], and
    [hide(x) { let g = 1; set(x); return g; }] *)
Definition hide_f := func_of 5 true
  [st_ (SLet (new_bind 20 dbg Tipe.Uint) (num 1)); st_ (SExpression (call_of 4 true (var 10))); st_ (SReturn (var 20))].

(** A global that the inlined function assigns in a pattern becomes the local
    variable of that name in the caller. *)
Theorem inlined_pattern_captured :
  run_demo [pattern_write; hide_f] 5 = Some (Some (Value.Int 1), [Value.Int 3]) ∧
  run_demo (after_inlining [pattern_write; hide_f]) 5 = Some (Some (Value.Int 3), [Value.Int 7]).
Proof. split; vm_compute; reflexivity. Qed.

Definition none_of (t : Tipe.t) : TypeCheckedExpr := ex (Const (Value.new_tuple [Value.Int 0]) (Tipe.Option t)).
(** The call [double(1 + e?)] where [e?] returns from the caller. *)
Definition try_sum (inner : TypeCheckedExpr) : TypeCheckedExpr :=
  ex (Binary BinaryOp.Plus (num 1) (ex (Try inner Tipe.Uint)) Tipe.Uint).

(** After inlining it leaves the block of the inlined function instead, with
    the option as the value of the call. *)
Theorem inlined_argument_breaks :
  let inner := none_of Tipe.Uint in
  inline_expr 20 [double_f] HAll (call_of 1 false (try_sum inner)) (InlineAuto, []) =
  Some (Ok (ex (CodeBlock (mkBlock
      (bind_args double_f [ex (Binary BinaryOp.Plus (num 1) (ex (strip_try inner Tipe.Uint)) Tipe.Uint)])
      (Some (ex (Binary BinaryOp.Plus (var 10) (var 10) Tipe.Uint))) (Some "_inline"))), (InlineAuto, [1]), true)).
Proof. vm_compute. reflexivity. Qed.
