(* ===== verification/Modules.v ===== *)
(** * Modules (src/src/compile/mod.rs)

    A source file after parsing and after type checking, and the passes over
    them up to code generation: imports are resolved by name, the named types of
    all modules form the type tree, modules are checked, analysed, inlined and
    compiled.

    [HashMap]s are [gmap]s; where the source iterates over one, the order of
    [map_to_list] stands for the unspecified order of the source, unless the
    order is an argument.  Modules are checked in parallel: which of several
    errors is reported is unspecified, here it is the first.  Of formatted
    texts the fixed part is kept. *)

From Stdlib Require Import ZArith Lia Ascii.
From S2P Require Import Prelude U256 StringTab Pos Opcodes Crypto BufferTree Values Insns InsnFacts StraightLine TupleTree StripLabels Types TypesThms TypedAst Ast Link Codegen TypecheckOps Typecheck Flow Inline.

#[local] Set Warnings "-clear-no-such-hyp".

Abbreviation path_t := (list string).

(** [Module]: a source file after parsing. *)
Record SourceModule := mkModule {
  m_imported_funcs : list ImportedFunc;
  m_funcs : list (nat * Ast.Func);
  m_named_types : gmap nat Tipe.t;
  m_constants : gset string;
  m_global_vars : list GlobalVarDecl;
  m_imports : list Ast.Import;
  m_string_table : StringTable.t;
  m_func_table : gmap nat Tipe.t;
  m_path : path_t;
  m_name : string;
}.

(** A source file after type checking. *)
Record TypeCheckedModule := mkTypeCheckedModule {
  tm_checked_funcs : list (nat * TypeCheckedFunc);
  tm_string_table : StringTable.t;
  tm_imported_funcs : list ImportedFunc;
  tm_exported_funcs : list ExportedFunc;
  tm_named_types : gmap nat Tipe.t;
  tm_constants : gset string;
  tm_global_vars : list GlobalVarDecl;
  tm_imports : list Ast.Import;
  tm_path : path_t;
  tm_name : string;
}.

(** The assignment [module.checked_funcs = funcs] *)
Definition set_checked_funcs (m : TypeCheckedModule) (funcs : list (nat * TypeCheckedFunc)) : TypeCheckedModule :=
  mkTypeCheckedModule funcs (tm_string_table m) (tm_imported_funcs m) (tm_exported_funcs m) (tm_named_types m)
    (tm_constants m) (tm_global_vars m) (tm_imports m) (tm_path m) (tm_name m).

(** ** Names of paths *)
Definition path_display (path : path_t) : string :=
  match path with
  | [] => ""
  | first :: items => foldl (λ s item, String.append (String.append s "::") item) first items
  end.

Definition comma_list (input : list string) : string :=
  match input with
  | [] => ""
  | _ =>
      String.append (foldl (λ base object, String.append (String.append base object) ", ") "" (removelast input))
        (List.last input "")
  end.

(** ** Imports *)
Abbreviation programs_t := (gmap path_t SourceModule).

Definition with_table (m : SourceModule) (st : StringTable.t) : SourceModule :=
  mkModule (m_imported_funcs m) (m_funcs m) (m_named_types m) (m_constants m) (m_global_vars m) (m_imports m) st
    (m_func_table m) (m_path m) (m_name m).

(** The named type and the function that an import stands for in its target;
    the name is entered into the target's table. *)
Definition look_up_import (programs : programs_t) (import : Ast.Import)
    : outcome CompileError (programs_t * option Tipe.t * option Tipe.t) :=
  match programs !! Ast.i_path import with
  | Some program =>
      let '(index, st) := StringTable.get (m_string_table program) (Ast.i_name import) in
      Ok (<[Ast.i_path import := with_table program st]> programs, m_named_types program !! index, m_func_table program !! index)
  | None =>
      Err (CompileError_new "Compile error: Internal error" "Can not find target file for import"
             (option_list (Ast.i_location import)))
  end.

Definition resolve_import (name : path_t) (import : Ast.Import) (acc : programs_t * list CompileError)
    : outcome CompileError (programs_t * list CompileError) :=
  let '(programs, warnings) := acc in
  '(programs, named_type, imp_func) ← look_up_import programs import;
  match programs !! name with
  | None =>
      Err (CompileError_new "Compile error: Internal error" "Can not find originating file for import"
             (option_list (Ast.i_location import)))
  | Some origin =>
      let '(index, st) := StringTable.get (m_string_table origin) (Ast.i_name import) in
      match named_type, imp_func with
      | Some named_type, _ =>
          Ok (<[name := mkModule (m_imported_funcs origin) (m_funcs origin) (<[index := named_type]> (m_named_types origin))
                          (m_constants origin) (m_global_vars origin) (m_imports origin) st (m_func_table origin)
                          (m_path origin) (m_name origin)]> programs, warnings)
      | None, Some imp_func =>
          imported ← unwrap (ImportedFunc_new (length (m_imported_funcs origin)) index st);
          Ok (<[name := mkModule (m_imported_funcs origin ++ [imported]) (m_funcs origin) (m_named_types origin)
                          (m_constants origin) (m_global_vars origin) (m_imports origin) st
                          (<[index := imp_func]> (m_func_table origin)) (m_path origin) (m_name origin)]> programs, warnings)
      | None, None =>
          Ok (<[name := with_table origin st]> programs,
              warnings ++ [CompileError_new_warning "Compile warning" "import does not correspond to a type or function"
                             (option_list (Ast.i_location import))])
      end
  end.

Fixpoint fold_outcome {A S E} (f : A → S → outcome E S) (l : list A) (s : S) : outcome E S :=
  match l with
  | [] => Ok s
  | a :: l => s ← f a s; fold_outcome f l s
  end.

(** [import_map] in the order in which it is iterated. *)
Definition resolve_imports (programs : programs_t) (import_map : list (path_t * list Ast.Import)) (warnings : list CompileError)
    : outcome CompileError (programs_t * list CompileError) :=
  fold_outcome (λ entry, fold_outcome (resolve_import entry.1) entry.2) import_map (programs, warnings).

(** ** Named types *)
Definition module_types (path : path_t) (program : SourceModule) (tt : TypeTree) : outcome CompileError TypeTree :=
  fold_outcome (λ entry tt,
    name ← unwrap (StringTable.name_from_id (m_string_table program) entry.1);
    Ok (<[(path, entry.1) := (entry.2, name)]> tt)) (map_to_list (m_named_types program)) tt.

Definition create_type_tree (program_tree : programs_t) : outcome CompileError TypeTree :=
  fold_outcome (λ entry, module_types entry.1 entry.2) (map_to_list program_tree) ∅.

(** ** Type checking *)
Section typecheck.
Context `{Crypto} (biguint_parse_bytes : string → Z → option Z) (fuel : nat).

(** The warnings about functions whose purity is not the declared one. *)
Definition purity_warning (string_table : StringTable.t) (entry : nat * TypeCheckedFunc) (warnings : list CompileError)
    : FM (list CompileError) :=
  let '(id, func) := entry in
  detected_purity ← func_is_pure fuel func;
  let declared_purity := pure (f_properties func) in
  if bool_decide (detected_purity ≠ declared_purity) then
    _ ← unwrap_fm (StringTable.name_from_id string_table id);
    mret (warnings ++ [warning (if declared_purity then "is impure but not marked impure"
                                else "is declared impure but does not contain impure code")
                         (option_list (location (f_debug_info func)))])
  else mret warnings.

Definition typecheck_module (type_tree : TypeTree) (m : SourceModule) : FM (TypeCheckedModule * list CompileError) :=
  '(exported_funcs, checked_funcs, global_vars) ←
    (typecheck_top_level_decls biguint_parse_bytes fuel (m_string_table m) (m_funcs m) (m_named_types m) (m_global_vars m)
       (m_imports m) (m_func_table m) [] type_tree : FM _);
  typecheck_warnings ← fold_fm (purity_warning (m_string_table m)) checked_funcs [];
  mret (mkTypeCheckedModule checked_funcs (m_string_table m) (m_imported_funcs m) exported_funcs (m_named_types m)
          (m_constants m) global_vars (m_imports m) (m_path m) (m_name m), typecheck_warnings).

Definition typecheck_programs (type_tree : TypeTree) (modules : list SourceModule) (warnings : list CompileError)
    : FM (list TypeCheckedModule * list CompileError) :=
  l ← map_fm (typecheck_module type_tree) modules;
  mret (l.*1, warnings ++ concat l.*2).
End typecheck.

(** ** Constants that are never used *)
Definition check_global_constants (modules : list TypeCheckedModule) (global_constants : gmap string Z) (warnings : list CompileError)
    : list CompileError :=
  let left := foldl (λ m constant, delete constant m) global_constants (m ← modules; elements (tm_constants m)) in
  warnings ++ ((λ _, warning "global constant is never used" []) <$>
                 filter (λ entry, starts_with_underscore entry.1 = false) (map_to_list left)).

(** ** Control flow *)
(** [import.path[0]], a panic without it *)
Definition path_head (path : path_t) : FM string := unwrap_fm (head path).

(** The imports by id, without those of [core], and the warnings about duplicates. *)
Definition collect_import (string_table : StringTable.t) (import : Ast.Import) (acc : list (nat * Ast.Import) * list CompileError)
    : FM (list (nat * Ast.Import) * list CompileError) :=
  let '(imports, warnings) := acc in
  id ← unwrap_fm (StringTable.get_if_exists string_table (Ast.i_name import));
  let warnings :=
    match btree_get id imports with
    | Some prior =>
        warnings ++ [warning "use statement is a duplicate" (option_list (Ast.i_location prior) ++ option_list (Ast.i_location import))]
    | None => warnings
    end in
  first ← path_head (Ast.i_path import);
  mret (if bool_decide (first = "core") then imports else btree_insert id import imports, warnings).

Definition remove_nominals {A} (tipe : Tipe.t) (imports : list (nat * A)) : list (nat * A) :=
  foldl (λ imports nominal, btree_remove nominal imports) imports (find_nominals tipe).

(** [sort_by] of the line of the last location, a stable sort; a warning
    without location panics when it is compared. *)
Fixpoint insert_warning (key : CompileError → Z) (w : CompileError) (l : list CompileError) : list CompileError :=
  match l with
  | [] => [w]
  | w' :: l' => if Z.leb (key w) (key w') then w :: l else w' :: insert_warning key w l'
  end.
Definition warning_line (w : CompileError) : Z := from_option Location.line 0%Z (list.last (locations w)).
Definition sort_warnings (l : list CompileError) : FM (list CompileError) :=
  if bool_decide (2 <= length l ∧ Exists (λ w, locations w = []) l) then fm_panic
  else mret (foldr (insert_warning warning_line) [] l).

(** [TypeCheckedModule::flowcheck] *)
Definition module_flowcheck (fuel : nat) (m : TypeCheckedModule) (warnings : list CompileError) : FM (list CompileError) :=
  '(imports, flow_warnings) ← fold_fm (collect_import (tm_string_table m)) (tm_imports m) ([], []);
  let imports := foldl (λ imports global, remove_nominals (gv_tipe global) imports) imports (tm_global_vars m) in
  let imports := foldl (λ imports tipe, remove_nominals tipe imports) imports ((map_to_list (tm_named_types m)).*2) in
  '(imports, flow_warnings) ←
    fold_fm (λ entry acc,
      '(imports, new) ← flowcheck fuel entry.2 acc.1 (tm_string_table m);
      mret (imports, acc.2 ++ new)) (tm_checked_funcs m) (imports, flow_warnings);
  let flow_warnings :=
    flow_warnings ++ ((λ entry : nat * Ast.Import, warning "use statement is unnecessary" (option_list (Ast.i_location entry.2)))
                        <$> imports) in
  flow_warnings ← sort_warnings flow_warnings;
  mret (warnings ++ flow_warnings).

(** ** Inlining and attributes *)
Definition inline_all (fuel : nat) (heuristic : InliningHeuristic) (m : TypeCheckedModule) : FM TypeCheckedModule :=
  funcs ← inline_module fuel (tm_checked_funcs m).*2 heuristic (tm_checked_funcs m);
  mret (set_checked_funcs m funcs).

Definition propagate_func (f : TypeCheckedFunc) : TypeCheckedFunc :=
  mkFunc (f_name f) (f_args f) (f_ret_type f) (propagate_statement (attributes (f_debug_info f)) <$> f_code f) (f_tipe f) (f_kind f)
    (f_debug_info f) (f_properties f).
Definition propagate_attributes (m : TypeCheckedModule) : TypeCheckedModule :=
  set_checked_funcs m ((λ entry, (entry.1, propagate_func entry.2)) <$> tm_checked_funcs m).

(** ** Code *)
(** [folder.join(name)] on a system with [/] between the parts *)
Definition join_path (folder name : string) : string :=
  match name with
  | String "/"%char _ => name
  | _ =>
      match String.get (String.length folder - 1) folder with
      | None => name
      | Some c => if Ascii.eqb c "/"%char then String.append folder name else String.append folder (String.append "/" name)
      end
  end.

Definition codegen_program `{Crypto} (type_tree : TypeTree) (folder : string) (release_build : bool) (m : TypeCheckedModule)
    (acc : list CompiledProgram * list CompileError) : outcome CompileError (list CompiledProgram * list CompileError) :=
  let '(progs, warnings) := acc in
  match mavm_codegen (tm_checked_funcs m) (tm_string_table m) (tm_imported_funcs m) (tm_global_vars m) warnings release_build with
  | Ok (code_out, warnings) =>
      Ok (progs ++ [mkCompiledProgram code_out (tm_exported_funcs m) (tm_imported_funcs m) (tm_global_vars m)
                      (Some (SourceFileMap.new (length code_out) (join_path folder (tm_name m)))) type_tree], warnings)
  | Err e => Err (CompileError_new "Codegen error" (reason e) (option_list (error_location e)))
  | Panic => Panic
  end.

Definition codegen_programs `{Crypto} (modules : list TypeCheckedModule) (type_tree : TypeTree) (folder : string) (release_build : bool)
    (warnings : list CompileError) : outcome CompileError (list CompiledProgram * list CompileError) :=
  fold_outcome (codegen_program type_tree folder release_build) modules ([], warnings).
