(* ===== verification/TypeText.v ===== *)
(** * Types as text

    - [display_indented] (src/src/compile/ast.rs) prints a type as Mini source
      and collects the named types it mentions ([display_nominals]); [mismatch_display]
      prints the mismatch of two types.
    - [SerializableTypeTree] (src/src/link/mod.rs): an executable keeps the named
      types in a map whose keys are texts, a path and a number separated by
      commas; [type_tree_roundtrip] shows that nothing is lost unless the name of
      a path contains a comma and a space. *)

From Stdlib Require Import ZArith Lia Ascii.
From stdpp Require Import sorting.
From S2P Require Import Prelude U256 Pos StraightLine TupleTree Types Profiler Typecheck Modules.
From stdpp Require Import list_basics list.

#[local] Set Warnings "-clear-no-such-hyp".

Import Profiler (parse_digits, parse_uint, parse_usize).

(** ** Decimal numbers *)
Definition digit (d : Z) : ascii := ascii_of_nat (Z.to_nat (48 + d)).

(** The digits of [n] in front of [s]; [fuel] bounds their number. *)
Fixpoint decimal_loop (fuel : nat) (n : Z) (s : string) : string :=
  match fuel with
  | O => s
  | S fuel =>
      let s := String (digit (n mod 10)) s in
      if (n / 10 =? 0)%Z then s else decimal_loop fuel (n / 10) s
  end.
(** [format!("{}", n)] of a usize. *)
Definition decimal (n : Z) : string := decimal_loop 20 n EmptyString.

Lemma digit_code d : (0 <= d < 10)%Z → Z.of_nat (nat_of_ascii (digit d)) = (48 + d)%Z.
Proof. intros Hd. unfold digit. rewrite nat_ascii_embedding by lia. lia. Qed.

Lemma parse_digit limit d s acc : (0 <= d < 10)%Z → (acc * 10 + d < limit)%Z →
  parse_digits limit (String (digit d) s) acc = parse_digits limit s (acc * 10 + d).
Proof.
  intros Hd Hl. cbn [parse_digits]. rewrite (digit_code d Hd). rewrite (proj2 (Z.leb_le 48 _)), (proj2 (Z.leb_le _ 57)) by lia. cbn [andb].
  replace (acc * 10 + (48 + d - 48))%Z with (acc * 10 + d)%Z by lia. by rewrite (proj2 (Z.ltb_lt _ _)).
Qed.

Lemma parse_decimal_loop limit fuel n s : (0 <= n < 10 ^ Z.of_nat fuel)%Z → 0 < fuel → (n < limit)%Z →
  parse_digits limit (decimal_loop fuel n s) 0 = parse_digits limit s n.
Proof.
  revert n s. induction fuel as [|fuel IH]; intros n s Hn Hf Hl; [lia|]. cbn [decimal_loop].
  pose proof (Z.mod_pos_bound n 10 ltac:(lia)) as Hm. pose proof (Z.div_mod n 10 ltac:(lia)) as Hdiv.
  destruct (Z.eqb_spec (n / 10) 0) as [H0|H0].
  - rewrite parse_digit by lia. f_equal. lia.
  - assert (0 < n / 10)%Z as Hpos by (pose proof (Z.div_pos n 10); lia).
    rewrite Nat2Z.inj_succ, Z.pow_succ_r in Hn by lia.
    assert (n / 10 < 10 ^ Z.of_nat fuel)%Z as Hq by (apply Z.div_lt_upper_bound; lia).
    rewrite IH; [|lia|destruct fuel; [cbn in Hq; lia|lia]|lia]. rewrite parse_digit by lia. f_equal. lia.
Qed.

Lemma decimal_loop_head fuel n s : 0 < fuel → ∃ d s', (0 <= d < 10)%Z ∧ decimal_loop fuel n s = String (digit d) s'.
Proof.
  revert n s. induction fuel as [|fuel IH]; intros n s Hf; [lia|]. cbn [decimal_loop].
  pose proof (Z.mod_pos_bound n 10 ltac:(lia)) as Hm. destruct (n / 10 =? 0)%Z; [by eexists _, _|].
  destruct fuel as [|fuel]; [by eexists _, _|]. apply IH. lia.
Qed.

Lemma parse_decimal n : (0 <= n < two64)%Z → parse_usize (decimal n) = Some n.
Proof.
  intros Hn. assert (parse_digits two64 (decimal n) 0 = Some n) as Hp.
  { unfold decimal. rewrite parse_decimal_loop; [done| |apply Nat.lt_0_succ|apply Hn]. split; [apply Hn|]. eapply Z.lt_le_trans; [apply Hn|].
    by vm_compute. }
  destruct (decimal_loop_head 20 n EmptyString) as (d & s' & Hd & He); [lia|]. fold (decimal n) in He. rewrite He in *.
  assert (digit d ≠ "+"%char) as Hplus.
  { intros E. pose proof (digit_code d Hd) as Hc. rewrite E in Hc. change (Z.of_nat (nat_of_ascii "+")) with 43%Z in Hc. lia. }
  unfold parse_usize, parse_uint. revert Hp. generalize dependent (digit d). intros c Hplus Hp.
  destruct c as [[] [] [] [] [] [] [] []]; try exact Hp; by destruct Hplus.
Qed.

(** ** Keys of the serialized type tree *)

(** [path.split(", ")] *)
Fixpoint split_commas (s : string) : list string :=
  match s with
  | EmptyString => [EmptyString]
  | String a s' =>
      let rest := match split_commas s' with x :: xs => String a x :: xs | [] => [String a EmptyString] end in
      match a, s' with
      | ","%char, String " "%char s'' => EmptyString :: split_commas s''
      | _, _ => rest
      end
  end.

Definition is_comma (a : ascii) : bool := Ascii.eqb a ",".
Definition starts_with_space (s : string) : bool := match s with String a _ => Ascii.eqb a " " | EmptyString => false end.

Lemma split_commas_cons a s : is_comma a && starts_with_space s = false →
  split_commas (String a s) = match split_commas s with x :: xs => String a x :: xs | [] => [String a EmptyString] end.
Proof.
  intros H. cbn [split_commas]. destruct s as [|b s]; [by destruct a as [[] [] [] [] [] [] [] []]|].
  destruct (is_comma a) eqn:Ea.
  - apply Ascii.eqb_eq in Ea as ->. cbn [andb starts_with_space] in H. destruct b as [[] [] [] [] [] [] [] []]; done.
  - destruct a as [[] [] [] [] [] [] [] []]; done.
Qed.

(** A text without a comma and a space after it. *)
Fixpoint no_separator (s : string) : bool :=
  match s with
  | EmptyString => true
  | String a s => negb (is_comma a && starts_with_space s) && no_separator s
  end.

Lemma split_commas_end s : no_separator s = true → split_commas s = [s].
Proof.
  induction s as [|a s IH]; [done|]. cbn [no_separator]. intros [Ha%negb_true_iff Hs]%andb_prop. rewrite split_commas_cons by done.
  by rewrite IH.
Qed.

Lemma split_commas_app s rest : no_separator s = true → split_commas (s +:+ ", " +:+ rest) = s :: split_commas rest.
Proof.
  induction s as [|a s IH]; intros Hs; [done|]. cbn [no_separator] in Hs. apply andb_prop in Hs as [Ha%negb_true_iff Hs].
  change (String a s +:+ ", " +:+ rest) with (String a (s +:+ ", " +:+ rest)). rewrite split_commas_cons; [by rewrite IH|].
  destruct s as [|b s]; [|done]. cbn. apply andb_false_r.
Qed.

Definition type_key (path : list string) (id : nat) : string := comma_list path +:+ ", " +:+ decimal (Z.of_nat id).

(** The keys of a [BTreeMap] are inserted one after the other. *)
Definition from_type_tree (tree : TypeTree) : gmap string (Tipe.t * string) :=
  list_to_map ((λ '((path, id), tipe), (type_key path id, tipe)) <$> map_to_list tree).

(** [None] for the panic on a key without a number at its end. *)
Definition parse_key (key : string) : option (list string * nat) :=
  let x := split_commas key in
  id ← head (reverse x) ≫= parse_usize;
  Some (removelast x, Z.to_nat id).

Definition into_type_tree (inner : gmap string (Tipe.t * string)) : option TypeTree :=
  l ← mapM (λ '(key, tipe), k ← parse_key key; Some (k, tipe)) (map_to_list inner);
  Some (list_to_map l).

Definition path_ok (path : list string) : bool := negb (bool_decide (path = [])) && forallb no_separator path.

Lemma string_app_assoc (a b c : string) : (a +:+ b) +:+ c = a +:+ b +:+ c.
Proof. induction a as [|x a IH]; [done|]. change (String x ((a +:+ b) +:+ c) = String x (a +:+ b +:+ c)). by rewrite IH. Qed.

Lemma comma_list_cons x xs : comma_list (x :: xs) = match xs with [] => x | _ => x +:+ ", " +:+ comma_list xs end.
Proof.
  destruct xs as [|y ys]; [done|]. unfold comma_list. change (removelast (x :: y :: ys)) with (x :: removelast (y :: ys)).
  change (List.last (x :: y :: ys) "") with (List.last (y :: ys) ""). cbn [foldl].
  assert (∀ l b, foldl (λ base object, String.append (String.append base object) ", ") b l
    = b +:+ foldl (λ base object, String.append (String.append base object) ", ") "" l) as Hf.
  { induction l as [|z l IH]; intros b; cbn [foldl].
    - induction b as [|c b IHb]; [done|]. change (String c b = String c (b +:+ "")). by rewrite <- IHb.
    - rewrite IH. rewrite (IH (String.append (String.append "" z) ", ")). by rewrite !string_app_assoc. }
  rewrite Hf, !string_app_assoc. done.
Qed.

Lemma split_key path s : path_ok path = true → no_separator s = true → split_commas (comma_list path +:+ ", " +:+ s) = path ++ [s].
Proof.
  unfold path_ok. intros [Hne%negb_true_iff Hp]%andb_prop Hs. apply bool_decide_eq_false in Hne.
  induction path as [|x path IH]; [done|]. cbn [forallb] in Hp. apply andb_prop in Hp as [Hx Hp]. rewrite comma_list_cons.
  destruct path as [|y path].
  - rewrite split_commas_app by done. by rewrite split_commas_end.
  - rewrite !string_app_assoc, split_commas_app by done. by rewrite IH.
Qed.

Lemma decimal_no_separator n : no_separator (decimal n) = true.
Proof.
  assert (∀ fuel n s, no_separator s = true → no_separator (decimal_loop fuel n s) = true) as Hl; [|by apply Hl].
  induction fuel as [|fuel IH]; intros m s Hs; [done|]. cbn [decimal_loop].
  pose proof (Z.mod_pos_bound m 10 ltac:(lia)) as Hm.
  assert (is_comma (digit (m mod 10)) = false) as Hc.
  { unfold is_comma. apply Ascii.eqb_neq. intros E. pose proof (digit_code _ Hm) as Hd. rewrite E in Hd.
    change (Z.of_nat (nat_of_ascii ",")) with 44%Z in Hd. lia. }
  assert (no_separator (String (digit (m mod 10)) s) = true) as Hn by (cbn [no_separator]; by rewrite Hc).
  destruct (m / 10 =? 0)%Z; [done|by apply IH].
Qed.

Lemma parse_type_key path id : path_ok path = true → (Z.of_nat id < two64)%Z → parse_key (type_key path id) = Some (path, id).
Proof.
  intros Hp Hid. unfold parse_key, type_key. rewrite split_key by (done || apply decimal_no_separator).
  rewrite reverse_snoc. cbn [head mbind option_bind]. rewrite parse_decimal by lia. cbn [mbind option_bind].
  by rewrite removelast_last, Nat2Z.id.
Qed.

(** C33: the named types of an executable survive being written and read.  The
    keys of the serialized type tree are read back as the same paths and numbers,
    so that [into_type_tree] undoes [from_type_tree], provided that no path is
    empty, no name of a path contains a comma followed by a space, and numbers
    fit a [usize]. *)
Theorem type_tree_roundtrip (tree : TypeTree) :
  map_Forall (λ k _, path_ok k.1 = true ∧ (Z.of_nat k.2 < two64)%Z) tree → into_type_tree (from_type_tree tree) = Some tree.
Proof.
  intros Hok. unfold into_type_tree, from_type_tree. set (f := λ '((path, id), tipe), (type_key path id, tipe)).
  set (g := λ '(key, tipe), k ← parse_key key; Some (k, tipe)).
  assert (∀ x, x ∈ map_to_list tree → g (f x) = Some x) as Hgf.
  { intros [[path id] tipe] Hx%elem_of_map_to_list. destruct (Hok _ _ Hx) as [Hp Hid]. cbn. by rewrite parse_type_key. }
  assert (NoDup (f <$> map_to_list tree).*1) as Hnd.
  { rewrite <- list_fmap_compose. apply NoDup_fmap_2_strong; [|apply NoDup_map_to_list].
    intros x y Hx Hy E. assert (x.1 = y.1) as E1.
    { destruct x as [[p i] t], y as [[q j] u]. cbn in E. apply elem_of_map_to_list in Hx, Hy.
      destruct (Hok _ _ Hx) as [Hp Hi], (Hok _ _ Hy) as [Hq Hj]. cbn in Hp, Hi, Hq, Hj.
      pose proof (parse_type_key p i Hp Hi) as H1. pose proof (parse_type_key q j Hq Hj) as H2. rewrite E in H1. cbn. congruence. }
    destruct x as [k t], y as [k' u]. cbn in E1. subst k'. apply elem_of_map_to_list in Hx, Hy. congruence. }
  pose proof (map_to_list_to_map (M := gmap string) _ Hnd) as Hperm. apply Permutation_map_inv in Hperm as (l & Hl & Hperm). rewrite Hl.
  assert (mapM g (map f l) = Some l) as ->.
  { assert (∀ x, x ∈ l → g (f x) = Some x) as Hg by (intros x Hx; apply Hgf; by rewrite Hperm).
    clear Hl Hperm. induction l as [|x l IH]; [done|]. cbn [map mapM]. rewrite (Hg x) by (by left). cbn [mbind option_bind].
    rewrite IH; [done|]. intros y Hy. apply Hg. by right. }
  cbn [mbind option_bind]. f_equal. rewrite <- (list_to_map_to_list tree). symmetry.
  apply list_to_map_proper; [apply NoDup_fst_map_to_list|done].
Qed.

(** A name that contains the separator is read back as two. *)
Example type_tree_separator :
  into_type_tree (from_type_tree {[ (["a, b"], 1) := (Tipe.Uint, "t") ]}) = Some {[ (["a"; "b"], 1) := (Tipe.Uint, "t") ]}.
Proof. vm_compute. reflexivity. Qed.

Lemma type_tree_roundtrip_witness :
  let tree : TypeTree := {[ (["std"; "bytearray,"], 3) := (Tipe.Array Tipe.Uint, "ByteArray"); (["main"], 12) := (Tipe.Nominal ["std"; "bytearray,"] 3, "Text") ]} in
  into_type_tree (from_type_tree tree) = Some tree.
Proof.
  intros tree. apply (type_tree_roundtrip tree). apply map_Forall_to_list. apply (bool_decide_unpack _). vm_compute. exact I.
Defined.

(** ** Types as Mini source *)

(** A [HashSet] as the list of its elements. *)
Section hash_set.
Context `{EqDecision A}.
Definition set_add (s : list A) (x : A) : list A := if decide (x ∈ s) then s else s ++ [x].
Definition set_extend (s l : list A) : list A := foldl set_add s l.

Lemma elem_of_set_add s x y : y ∈ set_add s x ↔ y ∈ s ∨ y = x.
Proof. unfold set_add. case_decide; set_solver. Qed.
Lemma elem_of_set_extend s l y : y ∈ set_extend s l ↔ y ∈ s ∨ y ∈ l.
Proof.
  unfold set_extend. revert s. induction l as [|x l IH]; intros s; cbn [foldl]; [set_solver|]. rewrite IH, elem_of_set_add. set_solver.
Qed.
Lemma set_extend_NoDup s l : NoDup s → NoDup (set_extend s l).
Proof.
  unfold set_extend. revert s. induction l as [|x l IH]; intros s Hs; [done|]. cbn [foldl]. apply IH. unfold set_add. case_decide; [done|].
  apply NoDup_app. split; [done|]. split; [set_solver|apply NoDup_singleton].
Qed.
End hash_set.

Abbreviation tset := (list (Tipe.t * string)).

Definition indentation (n : nat) : string := foldr String.append "" (replicate n "    ").
Definition newline : string := String (ascii_of_nat 10) EmptyString.

(** The name a type is known by in the type tree. *)
Definition nominal_name (missing : string) (tt : TypeTree) (path : list string) (id : nat) : string :=
  match tt !! (path, id) with
  | Some (_, name) => name
  | None => missing
  end.

Section display.
Variables (prefix : option string) (include_pathname : bool) (tt : TypeTree).

Definition nominal_string (path : list string) (id : nat) : string :=
  default "" prefix +:+ (if include_pathname then foldr (λ name s, name +:+ "_" +:+ s) "" path else "") +:+
  nominal_name ("Failed to resolve type name: " +:+ path_display path) tt path id.

Fixpoint display_indented (indent_level : nat) (t : Tipe.t) : string * tset :=
  let items indent := foldl (λ '(out, type_set) s, let '(displayed, subtypes) := display_indented indent s in
                              (out +:+ displayed +:+ ", ", set_extend type_set subtypes)) in
  match t with
  | Tipe.Void => ("void", [])
  | Tipe.Uint => ("uint", [])
  | Tipe.Int => ("int", [])
  | Tipe.Bool => ("bool", [])
  | Tipe.Bytes32 => ("bytes32", [])
  | Tipe.EthAddress => ("address", [])
  | Tipe.Buffer => ("buffer", [])
  | Tipe.Tuple subtypes =>
      let '(out, type_set) := items indent_level ("(", []) subtypes in
      (out +:+ ")", type_set)
  | Tipe.Array e => let '(displayed, subtypes) := display_indented indent_level e in ("[]" +:+ displayed, subtypes)
  | Tipe.FixedArray e size =>
      let '(displayed, subtypes) := display_indented indent_level e in
      ("[" +:+ decimal (Z.of_nat size) +:+ "]" +:+ displayed, subtypes)
  | Tipe.Struct fields =>
      let '(out, type_set) :=
        foldl (λ '(out, type_set) field,
                 let '(displayed, subtypes) := display_indented (S indent_level) (sf_tipe field) in
                 (out +:+ "    " +:+ sf_name field +:+ ": " +:+ displayed +:+ "," +:+ newline +:+ indentation indent_level,
                  set_extend type_set subtypes))
          ("struct {" +:+ newline +:+ indentation indent_level, []) fields in
      (out +:+ "}", type_set)
  | Tipe.Nominal path id => (nominal_string path id, [(t, nominal_name "bad" tt path id)])
  | Tipe.Func impure args ret =>
      let '(out, type_set) := items indent_level ((if impure then "impure " else "") +:+ "func(", []) args in
      let out := out +:+ ")" in
      if type_eq ret Tipe.Void then (out, type_set)
      else
        let '(displayed, subtypes) := display_indented indent_level ret in
        (out +:+ " -> " +:+ displayed, set_extend type_set subtypes)
  | Tipe.Map key val =>
      let '(key_display, key_subtypes) := display_indented indent_level key in
      let '(val_display, val_subtypes) := display_indented indent_level val in
      ("map<" +:+ key_display +:+ "," +:+ val_display +:+ ">", set_extend (set_extend [] key_subtypes) val_subtypes)
  | Tipe.Any => ("any", [])
  | Tipe.Every => ("every", [])
  | Tipe.Option e => let '(display, subtypes) := display_indented indent_level e in ("option<" +:+ display +:+ "> ", subtypes)
  | Tipe.Union types =>
      let '(s, subtypes) := items (S indent_level) ("union<", []) types in
      (s +:+ ">", subtypes)
  end.
End display.

Definition display (t : Tipe.t) : string := (display_indented None false ∅ 0 t).1.
Definition display_separator (prefix : option string) (include_pathname : bool) (tt : TypeTree) (t : Tipe.t) : string * tset :=
  display_indented prefix include_pathname tt 0 t.

(** The named types that occur in a type, without looking into them. *)
Inductive mentions : Tipe.t → list string → nat → Prop :=
| mentions_nominal p i : mentions (Tipe.Nominal p i) p i
| mentions_tuple ts t p i : t ∈ ts → mentions t p i → mentions (Tipe.Tuple ts) p i
| mentions_array t p i : mentions t p i → mentions (Tipe.Array t) p i
| mentions_fixed t n p i : mentions t p i → mentions (Tipe.FixedArray t n) p i
| mentions_struct fs f p i : f ∈ fs → mentions (sf_tipe f) p i → mentions (Tipe.Struct fs) p i
| mentions_arg b args ret t p i : t ∈ args → mentions t p i → mentions (Tipe.Func b args ret) p i
| mentions_ret b args ret p i : mentions ret p i → mentions (Tipe.Func b args ret) p i
| mentions_key k v p i : mentions k p i → mentions (Tipe.Map k v) p i
| mentions_value k v p i : mentions v p i → mentions (Tipe.Map k v) p i
| mentions_option t p i : mentions t p i → mentions (Tipe.Option t) p i
| mentions_union ts t p i : t ∈ ts → mentions t p i → mentions (Tipe.Union ts) p i.

(** The set that comes with the text of a type. *)
Definition displayed_ok (tt : TypeTree) (t : Tipe.t) (s : tset) : Prop :=
  ∀ x, x ∈ s ↔ ∃ p i, x = (Tipe.Nominal p i, nominal_name "bad" tt p i) ∧ mentions t p i.

Lemma fold_set {A S} (f : A → S * tset) (g : S → A → S → S) (l : list A) s0 set0 x :
  x ∈ (foldl (λ '(out, set) a, let '(d, sub) := f a in (g out a d, set_extend set sub)) (s0, set0) l).2
  ↔ x ∈ set0 ∨ ∃ a, a ∈ l ∧ x ∈ (f a).2.
Proof.
  revert s0 set0. induction l as [|a l IH]; intros s0 set0; cbn [foldl]; [set_solver|]. destruct (f a) as [d sub] eqn:E. rewrite IH.
  rewrite elem_of_set_extend. split.
  - intros [[?|?]|(b & Hb & Hx)]; [by left| |]; right; [exists a; rewrite E; set_solver|exists b; set_solver].
  - intros [?|(b & [->|Hb]%elem_of_cons & Hx)]; [by left; left| |]; [rewrite E in Hx; by left; right|right; by exists b].
Qed.

Lemma displayed_items tt (f : Tipe.t → string * tset) (g : string → Tipe.t → string → string) ts s0 t :
  Forall (λ t, displayed_ok tt t (f t).2) ts → (∀ p i, mentions t p i ↔ ∃ t', t' ∈ ts ∧ mentions t' p i) →
  displayed_ok tt t (foldl (λ '(out, set) a, let '(d, sub) := f a in (g out a d, set_extend set sub)) (s0, []) ts).2.
Proof.
  intros Hts Hm x. rewrite fold_set. rewrite Forall_forall in Hts. split.
  - intros [?%elem_of_nil|(a & Ha & Hx)]; [done|]. apply (Hts a Ha) in Hx as (p & i & -> & ?). exists p, i. rewrite Hm. eauto.
  - intros (p & i & -> & (a & Ha & ?)%Hm). right. exists a. split; [done|]. apply (Hts a Ha). eauto.
Qed.

Lemma displayed_none tt t : (∀ p i, ¬ mentions t p i) → displayed_ok tt t [].
Proof. intros Ht x. split; [by intros ?%elem_of_nil|intros (p & i & _ & Hm); by apply Ht in Hm]. Qed.

Lemma displayed_same tt t t' s : (∀ p i, mentions t' p i ↔ mentions t p i) → displayed_ok tt t s → displayed_ok tt t' s.
Proof. intros Hm Hs x. rewrite (Hs x). by setoid_rewrite Hm. Qed.

Lemma displayed_both tt t t1 t2 s1 s2 : (∀ p i, mentions t p i ↔ mentions t1 p i ∨ mentions t2 p i) →
  displayed_ok tt t1 s1 → displayed_ok tt t2 s2 → displayed_ok tt t (set_extend s1 s2).
Proof. intros Hm H1 H2 x. rewrite elem_of_set_extend, (H1 x), (H2 x). setoid_rewrite Hm. naive_solver. Qed.

Ltac mention_inv := intros p i; split; [intros Hm; inversion Hm; subst; eauto|].

(** Printing a type collects exactly the named types it mentions. *)
Lemma display_nominals prefix path tt t : ∀ n, displayed_ok tt t (display_indented prefix path tt n t).2.
Proof.
  induction t as [| | | | | | |ts IH|e IH|e k IH|fs IH|q j|b args ret IHa IHr|k v IHk IHv| | |e IH|ts IH] using Tipe.nested_ind; intros n;
    cbn [display_indented]; try (apply displayed_none; intros p i Hm; inversion Hm; fail).
  - pose proof (displayed_items tt (display_indented prefix path tt n) (λ out _ d, out +:+ d +:+ ", ") ts "(" (Tipe.Tuple ts)) as Hi.
    destruct (foldl _ _ ts) as [out set]. apply Hi; [by eapply Forall_impl|]. mention_inv. intros (t & ? & ?). by eapply mentions_tuple.
  - specialize (IH n). destruct (display_indented _ _ _ n e). apply (displayed_same _ e); [|done]. mention_inv. apply mentions_array.
  - specialize (IH n). destruct (display_indented _ _ _ n e). apply (displayed_same _ e); [|done]. mention_inv. apply mentions_fixed.
  - match goal with |- context [foldl _ (?s0, _) fs] =>
      pose proof (λ x, fold_set (λ f, display_indented prefix path tt (S n) (sf_tipe f))
        (λ out f d, out +:+ "    " +:+ sf_name f +:+ ": " +:+ d +:+ "," +:+ newline +:+ indentation n) fs s0 [] x) as Hi end.
    destruct (foldl _ _ fs) as [out set]. cbn [snd] in *. rewrite Forall_forall in IH. intros x. rewrite Hi. split.
    + intros [?%elem_of_nil|(f & Hf & Hx)]; [done|]. apply (IH f Hf) in Hx as (p & i & -> & ?). exists p, i. split; [done|]. by eapply mentions_struct.
    + intros (p & i & -> & Hm). inversion Hm as [| | | |? f ? ? Hf Hm' | | | | | |]; subst. right. exists f. split; [done|]. apply (IH f Hf). eauto.
  - intros x. cbn [snd]. rewrite list_elem_of_singleton. split; [intros ->; eauto using mentions_nominal|].
    intros (p & i & -> & Hm). by inversion Hm.
  - pose proof (displayed_items tt (display_indented prefix path tt n) (λ out _ d, out +:+ d +:+ ", ") args
      ((if b then "impure " else "") +:+ "func(") (Tipe.Tuple args)) as Hi.
    destruct (foldl _ _ args) as [out set]. specialize (IHr n).
    assert (displayed_ok tt (Tipe.Tuple args) set) as Hs.
    { apply Hi; [by eapply Forall_impl|]. mention_inv. intros (t & ? & ?). by eapply mentions_tuple. }
    assert (∀ p i, mentions (Tipe.Func b args ret) p i ↔ mentions (Tipe.Tuple args) p i ∨ mentions ret p i) as Hm.
    { intros p i. split.
      - intros Hm. inversion Hm; subst; [left; by eapply mentions_tuple|by right].
      - intros [Hm|Hm]; [inversion Hm; subst; by eapply mentions_arg|by apply mentions_ret]. }
    destruct (type_eq ret Tipe.Void) eqn:Ev.
    + apply type_eq_spec in Ev as ->. apply (displayed_same _ (Tipe.Tuple args)); [|done]. intros p i. rewrite Hm. split; [|by left].
      intros [?|Hv]; [done|inversion Hv].
    + destruct (display_indented _ _ _ n ret). by eapply displayed_both.
  - specialize (IHk n). specialize (IHv n). destruct (display_indented _ _ _ n k) as [kd ks], (display_indented _ _ _ n v) as [vd vs].
    apply (displayed_both _ _ k v); [|apply (displayed_both _ _ Tipe.Void k); [|by apply displayed_none; intros p i Hm; inversion Hm|done]|done].
    + intros p i. split; [intros Hm; inversion Hm; subst; auto|]. intros [?|?]; [by apply mentions_key|by apply mentions_value].
    + intros p i. split; [by right|]. intros [Hm|?]; [inversion Hm|done].
  - specialize (IH n). destruct (display_indented _ _ _ n e). apply (displayed_same _ e); [|done]. mention_inv. apply mentions_option.
  - pose proof (displayed_items tt (display_indented prefix path tt (S n)) (λ out _ d, out +:+ d +:+ ", ") ts "union<" (Tipe.Union ts)) as Hi.
    destruct (foldl _ _ ts) as [out set]. apply Hi; [by eapply Forall_impl|]. mention_inv. intros (t & ? & ?). by eapply mentions_union.
Qed.

Definition quoted (s : string) : string := String (ascii_of_nat 34) (s +:+ String (ascii_of_nat 34) EmptyString).

(** [Display for TypeMismatch] *)
Fixpoint mismatch_display (m : TypeMismatch) : string :=
  let num n := decimal (Z.of_nat n) in
  match m with
  | MType l r => "expected " +:+ display l +:+ " got " +:+ display r
  | FieldType name problem => "in field " +:+ quoted name +:+ ": " +:+ mismatch_display problem
  | FieldName l r => "expected field name " +:+ quoted l +:+ ", got " +:+ quoted r
  | UnresolvedRight tipe => "could not resolve right-hand type " +:+ quoted (display tipe)
  | UnresolvedLeft tipe => "could not resolve left-hand type " +:+ quoted (display tipe)
  | UnresolvedBoth l r =>
      "could not resolve both right hand type " +:+ quoted (display l) +:+ " and left hand type" +:+ quoted (display r)
  | MLength l r => "structs of different lengths: expected length " +:+ num l +:+ " got length " +:+ num r
  | ArrayLength l r => "arrays of different lengths: expected length " +:+ num l +:+ " got length " +:+ num r
  | ArrayMismatch mismatch => "inner array type mismatch " +:+ mismatch_display mismatch
  | MTuple index mismatch => "in tuple field " +:+ num (index + 1) +:+ ": " +:+ mismatch_display mismatch
  | TupleLength l r => "tuples of different lengths: expected length " +:+ num l +:+ " got length " +:+ num r
  | FuncArg index mismatch => "in function argument " +:+ num (index + 1) +:+ ": " +:+ mismatch_display mismatch
  | FuncArgLength l r => "left func has " +:+ num l +:+ " args but right func has " +:+ num r +:+ " args"
  | FuncReturn mismatch => "in function return type: " +:+ mismatch_display mismatch
  | MMap is_key inner => "in map " +:+ (if is_key then "key" else "value") +:+ ": " +:+ mismatch_display inner
  | MOption mismatch => "in inner option type: " +:+ mismatch_display mismatch
  | MUnion index mismatch => "In type " +:+ num (index + 1) +:+ " of union: " +:+ mismatch_display mismatch
  | UnionLength l r => "left func has " +:+ num l +:+ " args but right func has " +:+ num r +:+ " args"
  | Purity => "assigning impure function to pure function"
  end.

(** A type without components. *)
Definition is_simple (t : Tipe.t) : bool :=
  match t with
  | Tipe.Any | Tipe.Void | Tipe.Uint | Tipe.Int | Tipe.Bool | Tipe.Bytes32 | Tipe.EthAddress | Tipe.Buffer | Tipe.Every => true
  | _ => false
  end.

(** The outer [None] is lack of fuel. *)
Definition mismatch_text (fuel : nat) (self rhs : Tipe.t) (tt : TypeTree) : option (option string) :=
  l ← get_representation tt self;
  r ← get_representation tt rhs;
  match l, r with
  | Ok l, Ok r =>
      m ← first_mismatch fuel tt [] self rhs;
      Some (option_map (λ mismatch,
              (if is_simple l || is_simple r then ""
               else newline +:+ "left: " +:+ display l +:+ newline +:+ "right " +:+ display r +:+ newline +:+ "First mismatch: ")
              +:+ mismatch_display mismatch) m)
  | _, _ => Some None
  end.

(** There is a text exactly when the type checker's [mismatch_string] says so. *)
Lemma mismatch_text_some fuel self rhs tt :
  option_map (λ m, match m with Some _ => true | None => false end) (mismatch_text fuel self rhs tt)
  = Typecheck.mismatch_string fuel tt self rhs.
Proof.
  unfold mismatch_text, Typecheck.mismatch_string.
  destruct (get_representation tt self) as [[| |]|], (get_representation tt rhs) as [[| |]|]; try done.
  simpl. by destruct (first_mismatch fuel tt [] self rhs) as [[|]|].
Qed.
