(* ===== verification/GenCode.v ===== *)
(** * The generator of upgrade code (src/src/gen_code/mod.rs)

    From the globals and the named types of two executables [gen_upgrade_code]
    writes a Mini module with the types of the globals before and after, and a
    function that maps the ones to the others.  Reading the executables and the
    configuration file, and writing the text, are input and output: the
    definitions here take the programs and the names in the configuration, and
    give the lines of the text.

    The named types in the globals are unfolded once along each path
    ([replace_node]); [to_render] is a set that the source shares between all
    calls through a reference, and is passed on here.

    [write_subtypes_total] and [upgrade_complete]: the type declarations are
    written in finitely many steps, each once, and declare every named type that
    the text mentions; the function binds every global once. *)

From Stdlib Require Import ZArith Lia Ascii.
From stdpp Require Import sorting.
From S2P Require Import Prelude U256 Pos Types Profiler Modules TypeText.
From stdpp Require Import list_basics list.

#[local] Set Warnings "-clear-no-such-hyp".

(** ** Unfolding named types *)

(** Apply [f] to the children of a type in the order of [child_nodes]. *)
Definition visit_list {A} (f : A → tset → option (A * tset)) : list A → tset → option (list A * tset) :=
  fix go l s :=
    match l with
    | [] => Some ([], s)
    | x :: l => '(x, s) ← f x s; '(l, s) ← go l s; Some (x :: l, s)
    end.

Definition visit_field (f : Tipe.t → tset → option (Tipe.t * tset)) (fd : StructField Tipe.t) (s : tset)
    : option (StructField Tipe.t * tset) :=
  '(t, s) ← f (sf_tipe fd) s; Some (mkStructField (sf_name fd) t, s).

Definition visit_children (f : Tipe.t → tset → option (Tipe.t * tset)) (t : Tipe.t) (s : tset) : option (Tipe.t * tset) :=
  match t with
  | Tipe.Tuple ts => '(ts, s) ← visit_list f ts s; Some (Tipe.Tuple ts, s)
  | Tipe.Union ts => '(ts, s) ← visit_list f ts s; Some (Tipe.Union ts, s)
  | Tipe.Array e => '(e, s) ← f e s; Some (Tipe.Array e, s)
  | Tipe.FixedArray e n => '(e, s) ← f e s; Some (Tipe.FixedArray e n, s)
  | Tipe.Option e => '(e, s) ← f e s; Some (Tipe.Option e, s)
  | Tipe.Struct fields => '(fields, s) ← visit_list (visit_field f) fields s; Some (Tipe.Struct fields, s)
  | Tipe.Func impure args ret => '(ret, s) ← f ret s; '(args, s) ← visit_list f args s; Some (Tipe.Func impure args ret, s)
  | Tipe.Map key value => '(key, s) ← f key s; '(value, s) ← f value s; Some (Tipe.Map key value, s)
  | _ => Some (t, s)
  end.

Section types.
Variable tt : TypeTree.

(** [replace_nominal] on a node, and the recursion below it; [seen] is the part
    of the state that every child has a copy of.  [None] is lack of fuel. *)
Fixpoint replace_node (fuel : nat) (seen : list Tipe.t) (t : Tipe.t) (to_render : tset) : option (Tipe.t * tset) :=
  match fuel with
  | O => None
  | S fuel =>
      if decide (t ∈ seen) then
        let name := match t with Tipe.Nominal path id => nominal_name "Bad" tt path id | _ => "Bad" end in
        Some (t, set_add to_render (t, name))
      else
        match t with
        | Tipe.Nominal path id =>
            let seen := seen ++ [t] in
            let to_render := set_add to_render (t, nominal_name "Bad" tt path id) in
            let t := match tt !! (path, id) with Some (t, _) => t | None => Tipe.Any end in
            visit_children (replace_node fuel seen) t to_render
        | _ => visit_children (replace_node fuel seen) t to_render
        end
  end.

(** [tipe.recursive_apply(replace_nominal, &type_tree, &mut state)] *)
Definition replace_below (fuel : nat) (t : Tipe.t) (to_render : tset) : option (Tipe.t * tset) :=
  visit_children (replace_node fuel []) t to_render.

(** The type of a global that is a name is looked up once before. *)
Definition global_tipe (g : GlobalVarDecl) : Tipe.t :=
  match gv_tipe g with
  | Tipe.Nominal path id => match tt !! (path, id) with Some (t, _) => t | None => Tipe.Any end
  | t => t
  end.

(** The loop over the globals of [get_globals_and_version_from_file].  The loop
    that follows it in the source compares the state with a copy that shares the
    same set, so it ends at once without a change. *)
Fixpoint get_globals (fuel : nat) (globals : list GlobalVarDecl) (to_render : tset) : option (list (StructField Tipe.t) * tset) :=
  match globals with
  | [] => Some ([], to_render)
  | g :: globals =>
      if (gv_name_id g =? two64 - 1)%Z then get_globals fuel globals to_render
      else
        '(t, to_render) ← replace_below fuel (global_tipe g) to_render;
        '(fields, to_render) ← get_globals fuel globals to_render;
        Some (mkStructField (gv_name g) t :: fields, to_render)
  end.

(** ** Declarations of types *)
Record TypeDecl := mkTypeDecl { decl_type : Tipe.t * string; decl_body : string }.

Definition decl_string (prefix : option string) (d : TypeDecl) : string :=
  "type " +:+ default "" prefix +:+
  match (decl_type d).1 with
  | Tipe.Nominal a _ => foldr (λ name s, name +:+ "_" +:+ s) "" a
  | _ => ""
  end +:+ (decl_type d).2 +:+ " = " +:+ decl_body d.

Definition declare (prefix : option string) (subtype : Tipe.t * string) : outcome string (TypeDecl * tset) :=
  match subtype.1 with
  | Tipe.Nominal a b =>
      '(t, _) ← unwrap (tt !! (a, b));
      let '(displayed, subtypes) := display_separator prefix true tt t in
      Ok (mkTypeDecl subtype displayed, subtypes)
  | t => Err ("Encountered non nominal type in subtypes list: " +:+ quoted (display t))
  end.

Fixpoint declare_all (prefix : option string) (l : tset) (new_subtypes : tset) : outcome string (list TypeDecl * tset) :=
  match l with
  | [] => Ok ([], new_subtypes)
  | x :: l =>
      '(d, subtypes) ← declare prefix x;
      '(ds, new_subtypes) ← declare_all prefix l (set_extend new_subtypes subtypes);
      Ok (d :: ds, new_subtypes)
  end.

(** [sort_by] on texts. *)
Definition text_le {A} (key : A → string) : relation A := λ x y, String.leb (key x) (key y) = true.
#[global] Instance text_le_dec {A} (key : A → string) : RelDecision (text_le key).
Proof. intros x y. unfold text_le. apply _. Defined.

(** [None] is lack of fuel. *)
Fixpoint write_subtypes_loop (fuel : nat) (prefix : option string) (subtypes total_subtypes : tset) : option (outcome string (list TypeDecl)) :=
  match subtypes with
  | [] => Some (Ok [])
  | _ =>
      match fuel with
      | O => None
      | S fuel =>
          let vec_subtypes := merge_sort (text_le (λ x, (display_separator None true tt x.1).1)) subtypes in
          match declare_all prefix vec_subtypes [] with
          | Ok (ds, new_subtypes) =>
              let subtypes := filter (λ x, x ∉ total_subtypes) new_subtypes in
              r ← write_subtypes_loop fuel prefix subtypes (set_extend total_subtypes new_subtypes);
              Some (rest ← r; Ok (ds ++ rest))
          | Err e => Some (Err e)
          | Panic => Some Panic
          end
      end
  end.
Definition write_subtypes (fuel : nat) (prefix : option string) (subtypes : tset) : option (outcome string (list TypeDecl)) :=
  write_subtypes_loop fuel prefix subtypes subtypes.
End types.

(** ** The text *)
Record GenUpgrade := mkGenUpgrade {
  from_globals : list GlobalVarDecl;
  from_types : TypeTree;
  from_version : Z;
  to_globals : list GlobalVarDecl;
  to_types : TypeTree;
  impl_file : string;
  config : list string;
}.

Definition jump_table_field : StructField Tipe.t := mkStructField "_jump_table" Tipe.Any.

#[global] Instance StructField_eq_dec : EqDecision (StructField Tipe.t).
Proof. solve_decision. Defined.

Definition by_name (fields : list (StructField Tipe.t)) : list (StructField Tipe.t) := merge_sort (text_le sf_name) fields.

(** The globals that stay, without the jump table, and those that are new. *)
Definition intersection_fields (input_fields output_fields : list (StructField Tipe.t)) : list (StructField Tipe.t) :=
  by_name (filter (λ f, f ∈ output_fields ∧ f ≠ jump_table_field) (set_extend [] input_fields)).
Definition output_only_fields (input_fields output_fields : list (StructField Tipe.t)) : list (StructField Tipe.t) :=
  by_name (filter (λ f, f ∉ input_fields) (set_extend [] output_fields)).

Definition type_decl_string (type_name : string) (tipe : Tipe.t) (prefix : option string) (tt : TypeTree) : string :=
  "type " +:+ type_name +:+ " = " +:+ (display_separator prefix true tt tipe).1.
Definition let_string (name expr : string) : string := "let " +:+ name +:+ " = " +:+ expr +:+ ";".

Definition setter (name : string) : string := "set_" +:+ name +:+ "_onUpgrade".
Definition use_line (impl_file name : string) : string := "use " +:+ impl_file +:+ "::" +:+ name +:+ ";".

(** What a global is bound to. *)
Definition kept_expr (config : list string) (name : string) : string :=
  if decide (name ∈ config) then setter name +:+ "(input_globals)" else "input_globals." +:+ name.

(** The [let]s of the generated function: names and expressions. *)
Definition bindings (g : GenUpgrade) (input_fields output_fields : list (StructField Tipe.t)) : list (string * string) :=
  ((λ f, (sf_name f, kept_expr (config g) (sf_name f))) <$> intersection_fields input_fields output_fields) ++
  ((λ f, (sf_name f, setter (sf_name f) +:+ "(input_globals)")) <$> output_only_fields input_fields output_fields) ++
  [("_jump_table", if decide ("_jump_table" ∈ config g) then "set_jump_table(input_globals)"
                   else "(asm() GlobalsAfterUpgrade { rget })._jump_table")].

(** The functions that are imported. *)
Definition uses (g : GenUpgrade) (input_fields output_fields : list (StructField Tipe.t)) : list string :=
  (setter ∘ sf_name <$> output_only_fields input_fields output_fields) ++
  (setter ∘ sf_name <$> filter (λ f, sf_name f ∈ config g) (intersection_fields input_fields output_fields)) ++
  (if decide ("_jump_table" ∈ config g) then ["set_jump_table"] else []).

(** The lines of the module. *)
Definition upgrade_text (g : GenUpgrade) (input_fields output_fields : list (StructField Tipe.t)) (before after : list TypeDecl) : list string :=
  [""; "// This file is machine-generated. Don't edit it unless you know what you're doing."; ""] ++
  (use_line (impl_file g) <$> uses g input_fields output_fields) ++
  [""] ++
  (decl_string (Some "before__") <$> before) ++
  (decl_string (Some "after__") <$> after) ++
  [""; type_decl_string "GlobalsBeforeUpgrade" (Tipe.Struct input_fields) (Some "before__") (from_types g);
   ""; type_decl_string "GlobalsAfterUpgrade" (Tipe.Struct output_fields) (Some "after__") (to_types g); "";
   "public " +:+ (if decide ("_jump_table" ∈ config g) then "" else "impure ") +:+
   "func remapGlobalsForUpgrade(input_globals: GlobalsBeforeUpgrade) -> (GlobalsAfterUpgrade, uint) {"] ++
  ((λ b, "    " +:+ let_string b.1 b.2) <$> bindings g input_fields output_fields) ++
  ["    return (struct {"] ++
  ((λ f, "        " +:+ sf_name f +:+ ": " +:+ sf_name f +:+ ",") <$> output_fields) ++
  ["    }, " +:+ decimal (from_version g) +:+ ");"; "}"; ""; ""; "func __dummy__() { return; }"; ""; ""].

Definition gen_upgrade_code (fuel : nat) (g : GenUpgrade) : option (outcome string (list string)) :=
  '(input_fields, in_recursers) ← get_globals (from_types g) fuel (from_globals g) [];
  '(output_fields, out_recursers) ← get_globals (to_types g) fuel (to_globals g) [];
  let output_fields := output_fields ++ [jump_table_field] in
  let input_fields := input_fields ++ [jump_table_field] in
  before ← write_subtypes (from_types g) fuel (Some "before__") in_recursers;
  after ← write_subtypes (to_types g) fuel (Some "after__") out_recursers;
  Some (before ← before; after ← after; Ok (upgrade_text g input_fields output_fields before after)).

(** ** Unfolding terminates *)

(** Enough fuel for one node. *)
Definition ends (tt : TypeTree) (seen : list Tipe.t) (t : Tipe.t) : Prop :=
  ∃ F, ∀ fuel s, F <= fuel → is_Some (replace_node tt fuel seen t s).

Lemma visit_list_total {A} (f : A → tset → option (A * tset)) l : Forall (λ x, ∀ s, is_Some (f x s)) l → ∀ s, is_Some (visit_list f l s).
Proof.
  induction 1 as [|x l Hx _ IH]; intros s; cbn [visit_list]; [by eexists|]. destruct (Hx s) as [[x' s'] ->]. cbn [mbind option_bind].
  fold (visit_list f). destruct (IH s') as [[l' s''] Hl]. rewrite Hl. by eexists.
Qed.

(** The children of a type. *)
Definition children (t : Tipe.t) : list Tipe.t :=
  match t with
  | Tipe.Tuple ts | Tipe.Union ts => ts
  | Tipe.Array e | Tipe.FixedArray e _ | Tipe.Option e => [e]
  | Tipe.Struct fields => sf_tipe <$> fields
  | Tipe.Func _ args ret => ret :: args
  | Tipe.Map key value => [key; value]
  | _ => []
  end.

Lemma visit_children_total f t s : Forall (λ c, ∀ s, is_Some (f c s)) (children t) → is_Some (visit_children f t s).
Proof.
  intros Hc. destruct t; cbn [visit_children children] in *; try (by eexists).
  - destruct (visit_list_total f ts Hc s) as [[] ->]. by eexists.
  - rewrite Forall_singleton in Hc. destruct (Hc s) as [[] ->]. by eexists.
  - rewrite Forall_singleton in Hc. destruct (Hc s) as [[] ->]. by eexists.
  - destruct (visit_list_total (visit_field f) fields) with (s := s) as [[] ->]; [|by eexists]. apply Forall_fmap in Hc.
    eapply Forall_impl; [exact Hc|]. intros fd Hfd s'. unfold visit_field. destruct (Hfd s') as [[] ->]. by eexists.
  - apply Forall_cons in Hc as [Hr Ha]. destruct (Hr s) as [[r s'] ->]. cbn [mbind option_bind]. destruct (visit_list_total f args Ha s') as [[] ->]. by eexists.
  - apply Forall_cons in Hc as [Hk Hv]. rewrite Forall_singleton in Hv. destruct (Hk s) as [[k s'] ->]. cbn [mbind option_bind]. destruct (Hv s') as [[] ->]. by eexists.
  - rewrite Forall_singleton in Hc. destruct (Hc s) as [[] ->]. by eexists.
  - destruct (visit_list_total f ts Hc s) as [[] ->]. by eexists.
Qed.

(** One bound for a list of nodes. *)
Lemma ends_all tt seen l : Forall (ends tt seen) l → ∃ F, ∀ fuel, F <= fuel → Forall (λ c, ∀ s, is_Some (replace_node tt fuel seen c s)) l.
Proof.
  induction 1 as [|c l [F1 H1] _ [F2 H2]]; [by exists 0|]. exists (F1 + F2). intros fuel Hf. constructor; [intros s; apply H1; lia|apply H2; lia].
Qed.

Lemma replace_node_children tt fuel seen t s : (∀ p i, t ≠ Tipe.Nominal p i) →
  Forall (λ c, ∀ s, is_Some (replace_node tt fuel seen c s)) (children t) → is_Some (replace_node tt (S fuel) seen t s).
Proof.
  intros Hn Hc. pose proof (visit_children_total (replace_node tt fuel seen) t s Hc) as Hv. cbn [replace_node].
  case_decide; [by eexists|]. destruct t; try exact Hv. by destruct (Hn path id).
Qed.

Lemma ends_structural tt seen t : (∀ p i, ends tt seen (Tipe.Nominal p i)) → ends tt seen t.
Proof.
  intros Hn. assert (∀ t, (∀ p i, t ≠ Tipe.Nominal p i) → Forall (ends tt seen) (children t) → ends tt seen t) as Hstep.
  { intros t0 Ht Hc. destruct (ends_all _ _ _ Hc) as [F HF]. exists (S F). intros [|fuel] s Hf; [lia|].
    apply replace_node_children; [done|]. apply HF. lia. }
  induction t using Tipe.nested_ind; try apply Hn; apply Hstep; try done; cbn [children]; repeat constructor; try done.
  by apply Forall_fmap.
Qed.

(** The names that are not yet unfolded. *)
Definition unseen (tt : TypeTree) (seen : list Tipe.t) : nat :=
  length (filter (λ k, Tipe.Nominal k.1 k.2 ∉ seen) (map_to_list tt).*1).

Lemma unseen_less tt seen p i : is_Some (tt !! (p, i)) → Tipe.Nominal p i ∉ seen → unseen tt (seen ++ [Tipe.Nominal p i]) < unseen tt seen.
Proof.
  intros [x Hx] Hs. unfold unseen. assert ((p, i) ∈ (map_to_list tt).*1) as Hin.
  { apply list_elem_of_fmap. exists ((p, i), x). split; [done|]. by apply elem_of_map_to_list. }
  assert (NoDup (map_to_list tt).*1) as Hnd by apply NoDup_fst_map_to_list. revert Hin Hnd. generalize ((map_to_list tt).*1). clear Hx.
  intros l Hin Hnd. apply list_elem_of_split in Hin as (l1 & l2 & ->). rewrite !filter_app, !length_app.
  assert (∀ l, length (filter (λ k, Tipe.Nominal k.1 k.2 ∉ seen ++ [Tipe.Nominal p i]) l) <= length (filter (λ k, Tipe.Nominal k.1 k.2 ∉ seen) l)) as Hle.
  { induction l as [|k l IH]; [done|]. rewrite !filter_cons. destruct (decide (_ ∉ seen ++ _)) as [H1|H1], (decide (_ ∉ seen)) as [H2|H2]; cbn [length]; [lia| |lia|lia].
    exfalso. apply H2. set_solver. }
  rewrite !filter_cons. destruct (decide (Tipe.Nominal (p, i).1 (p, i).2 ∉ seen ++ _)) as [H1|_]; [exfalso; apply H1; set_solver|].
  destruct (decide (Tipe.Nominal (p, i).1 (p, i).2 ∉ seen)) as [_|H2]; [|by destruct H2]. cbn [length]. pose proof (Hle l1). pose proof (Hle l2). lia.
Qed.

Lemma replace_node_ends tt seen t : ends tt seen t.
Proof.
  remember (unseen tt seen) as k eqn:Hk. revert seen t Hk. induction k as [k IH] using lt_wf_ind. intros seen t ->. apply ends_structural. intros p i.
  destruct (decide (Tipe.Nominal p i ∈ seen)) as [Hin|Hin].
  { exists 1. intros [|fuel] s Hf; [lia|]. cbn [replace_node]. rewrite decide_True by done. by eexists. }
  destruct (tt !! (p, i)) as [[d n]|] eqn:Hd.
  - pose proof (unseen_less tt seen p i ltac:(by rewrite Hd) Hin) as Hlt.
    destruct (ends_all tt (seen ++ [Tipe.Nominal p i]) (children d)) as [F HF].
    { apply Forall_forall. intros c _. by eapply IH. }
    exists (S F). intros [|fuel] s Hf; [lia|]. cbn [replace_node]. rewrite decide_False by done. rewrite Hd.
    apply visit_children_total, HF. lia.
  - exists 1. intros [|fuel] s Hf; [lia|]. cbn [replace_node]. rewrite decide_False by done. rewrite Hd. by eexists.
Qed.

Lemma get_globals_total tt globals : ∃ F, ∀ fuel s, F <= fuel → is_Some (get_globals tt fuel globals s).
Proof.
  induction globals as [|g globals [F2 IH]]; [exists 0; intros; by eexists|].
  destruct (ends_all tt [] (children (global_tipe tt g))) as [F1 H1]; [apply Forall_forall; intros c _; apply replace_node_ends|].
  exists (F1 + F2). intros fuel s Hf. cbn [get_globals]. destruct (_ =? _)%Z; [apply IH; lia|].
  destruct (visit_children_total (replace_node tt fuel []) (global_tipe tt g) s) as [[t s'] Ht]; [apply H1; lia|]. unfold replace_below. rewrite Ht.
  cbn [mbind option_bind]. destruct (IH fuel s' ltac:(lia)) as [[] ->]. by eexists.
Qed.

(** ** Declarations *)
Section declarations.
Variables (tt : TypeTree) (prefix : option string).

(** The named types in the definition of a named type, with their names. *)
Definition used_by (y x : Tipe.t * string) : Prop :=
  ∃ a b t n p i, y.1 = Tipe.Nominal a b ∧ tt !! (a, b) = Some (t, n) ∧ mentions t p i ∧ x = (Tipe.Nominal p i, nominal_name "bad" tt p i).

Definition in_tree (y : Tipe.t * string) : Prop := ∃ a b, y.1 = Tipe.Nominal a b ∧ is_Some (tt !! (a, b)).

(** A named type of the tree with the name it has there. *)
Definition named (y : Tipe.t * string) : Prop :=
  ∃ p i, y = (Tipe.Nominal p i, nominal_name "bad" tt p i) ∧ is_Some (tt !! (p, i)).

Lemma declare_spec y d sub : declare tt prefix y = Ok (d, sub) → decl_type d = y ∧ in_tree y ∧ ∀ x, x ∈ sub ↔ used_by y x.
Proof.
  unfold declare. destruct y as [[] name] eqn:Ey; try done. cbn [fst]. destruct (tt !! (path, id)) as [[t n]|] eqn:Ht; [|done]. cbn.
  pose proof (display_nominals prefix true tt t 0) as Hd. unfold display_separator. destruct (display_indented prefix true tt 0 t) as [s set]. cbn [snd] in Hd.
  intros [= <- <-]. split; [done|]. split; [exists path, id; cbn; by rewrite Ht|]. intros x. rewrite (Hd x). split.
  - intros (p & i & -> & Hm). by exists path, id, t, n, p, i.
  - intros (a & b & t' & n' & p & i & [= <- <-] & Ht' & Hm & ->). rewrite Ht in Ht'. injection Ht' as <- <-. eauto.
Qed.

Lemma declare_all_spec l new ds new' : declare_all tt prefix l new = Ok (ds, new') →
  decl_type <$> ds = l ∧ Forall in_tree l ∧ (NoDup new → NoDup new') ∧ ∀ x, x ∈ new' ↔ x ∈ new ∨ ∃ y, y ∈ l ∧ used_by y x.
Proof.
  revert new ds. induction l as [|y l IH]; intros new ds E; cbn [declare_all] in E.
  - injection E as <- <-. split_and!; [done..|]. set_solver.
  - destruct (declare tt prefix y) as [[d sub]| |] eqn:Ed; cbn in E; [|done|done].
    destruct (declare_all tt prefix l _) as [[ds' n']| |] eqn:El; cbn in E; [|done|done]. injection E as <- <-.
    destruct (declare_spec _ _ _ Ed) as (Hd & Hin & Hsub). destruct (IH _ _ El) as (Hl & Hall & Hnd & Hnew). split_and!.
    + rewrite fmap_cons. by rewrite Hd, Hl.
    + by constructor.
    + intros Hn. by apply Hnd, set_extend_NoDup.
    + intros x. rewrite Hnew, elem_of_set_extend, Hsub. set_solver.
Qed.

(** Everything that can come up after the first round. *)
Definition universe : tset := (map_to_list tt).*2 ≫= (λ tn, (display_separator prefix true tt tn.1).2).

Lemma used_by_universe y x : used_by y x → x ∈ universe.
Proof.
  intros (a & b & t & n & p & i & _ & Ht & Hm & ->). unfold universe. apply list_elem_of_bind. exists (t, n). split.
  - apply display_nominals. eauto.
  - apply list_elem_of_fmap. exists ((a, b), (t, n)). split; [done|]. by apply elem_of_map_to_list.
Qed.

Definition remaining (total : tset) : nat := length (filter (λ x, x ∉ total) universe).

Lemma remaining_less total new x : x ∈ new → x ∉ total → x ∈ universe → remaining (set_extend total new) < remaining total.
Proof.
  intros Hn Ht Hu. unfold remaining. apply list_elem_of_split in Hu as (l1 & l2 & ->). rewrite !filter_app, !length_app.
  assert (∀ l, length (filter (λ x, x ∉ set_extend total new) l) <= length (filter (λ x, x ∉ total) l)) as Hle.
  { induction l as [|z l IH]; [done|]. rewrite !filter_cons. destruct (decide (z ∉ set_extend total new)) as [H1|H1], (decide (z ∉ total)) as [H2|H2]; cbn [length]; [lia| |lia|lia].
    exfalso. apply H2. intros H. apply H1. apply elem_of_set_extend. by left. }
  rewrite !filter_cons. destruct (decide (x ∉ set_extend total new)) as [H1|_]; [exfalso; apply H1, elem_of_set_extend; by right|].
  rewrite (decide_True (P := x ∉ total)) by done. cbn [length]. pose proof (Hle l1). pose proof (Hle l2). lia.
Qed.

Lemma write_subtypes_loop_total fuel subtypes total : remaining total < fuel → is_Some (write_subtypes_loop tt fuel prefix subtypes total).
Proof.
  revert subtypes total. induction fuel as [|fuel IH]; intros subtypes total Hf; [lia|]. cbn [write_subtypes_loop].
  destruct subtypes as [|s subtypes]; [by eexists|]. destruct (declare_all _ _ _ _) as [[ds new]| |] eqn:E; [|by eexists..].
  destruct (declare_all_spec _ _ _ _ E) as (_ & _ & _ & Hnew).
  destruct (filter (λ x, x ∉ total) new) as [|x l] eqn:Ef; [destruct fuel; by eexists|].
  assert (x ∈ filter (λ x, x ∉ total) new) as [Hx Hxn]%list_elem_of_filter by (rewrite Ef; by left).
  destruct (IH (x :: l) (set_extend total new)) as [r ->]; [|by eexists].
  enough (x ∈ universe) as Hu by (pose proof (remaining_less total new x Hxn Hx Hu); lia).
  apply Hnew in Hxn as [?%elem_of_nil|(y & _ & Hy)]; [done|]. by eapply used_by_universe.
Qed.

(** The declarations end, whatever the types refer to: at most one round more
    than there are mentions of named types in the tree. *)
Lemma write_subtypes_total fuel subtypes : length universe < fuel → is_Some (write_subtypes tt fuel prefix subtypes).
Proof.
  intros Hf. apply write_subtypes_loop_total. unfold remaining. pose proof (length_filter (λ x, x ∉ subtypes) universe). lia.
Qed.

Lemma write_subtypes_loop_closed fuel subtypes total ds : NoDup subtypes → (∀ x, x ∈ subtypes → x ∈ total) →
  write_subtypes_loop tt fuel prefix subtypes total = Some (Ok ds) →
  NoDup (decl_type <$> ds) ∧ (∀ x, x ∈ subtypes → x ∈ decl_type <$> ds) ∧ Forall in_tree (decl_type <$> ds) ∧
  (∀ x, x ∈ decl_type <$> ds → x ∈ subtypes ∨ ((x ∉ total) ∧ ∃ y, used_by y x)) ∧
  ∀ y x, y ∈ decl_type <$> ds → used_by y x → x ∈ total ∨ x ∈ decl_type <$> ds.
Proof.
  revert subtypes total ds. induction fuel as [|fuel IH]; intros subtypes total ds Hnd Hsub E.
  { destruct subtypes; [|done]. injection E as <-. split_and!; [constructor|set_solver..]. }
  cbn [write_subtypes_loop] in E. destruct subtypes as [|s subtypes]; [injection E as <-; split_and!; [constructor|set_solver..]|].
  set (S := s :: subtypes) in *. destruct (declare_all _ _ _ _) as [[ds1 new]| |] eqn:Ed; [|done|done].
  destruct (declare_all_spec _ _ _ _ Ed) as (H1 & Hin & Hnew & Hused). specialize (Hnew (NoDup_nil_2)).
  apply bind_Some in E as (r & Hr & [= E]). destruct r as [rest| |]; cbn in E; [|done|done]. injection E as <-.
  destruct (IH (filter (λ x, x ∉ total) new) (set_extend total new) rest) as (Hnd' & Hsub' & Hin' & Hold & Hcl).
  { by apply NoDup_filter. }
  { intros x [_ Hx]%list_elem_of_filter. apply elem_of_set_extend. by right. }
  { exact Hr. }
  assert (∀ x, x ∈ decl_type <$> ds1 ↔ x ∈ S) as HS by (intros x; rewrite H1, merge_sort_Permutation; done).
  rewrite fmap_app. split_and!.
  - apply NoDup_app. split_and!; [rewrite H1, merge_sort_Permutation; done| |done]. intros x Hx%HS Hx'.
    apply Hsub in Hx. destruct (Hold x Hx') as [[Hn _]%list_elem_of_filter|[Hn _]]; [done|]. apply Hn, elem_of_set_extend. by left.
  - intros x Hx. apply elem_of_app. left. by apply HS.
  - apply Forall_app. split; [by rewrite H1|done].
  - intros x [Hx|Hx]%elem_of_app; [left; by apply HS|right]. destruct (Hold x Hx) as [[Hn Hx']%list_elem_of_filter|[Hn Hy]].
    + split; [done|]. apply Hused in Hx' as [?%elem_of_nil|(y & _ & ?)]; [done|by exists y].
    + split; [|done]. intros Ht. apply Hn, elem_of_set_extend. by left.
  - assert (∀ x, x ∈ new → x ∈ total ∨ x ∈ (decl_type <$> ds1) ++ (decl_type <$> rest)) as Hn.
    { intros x Hx. destruct (decide (x ∈ total)); [by left|]. right. apply elem_of_app. right. apply Hsub'. by apply list_elem_of_filter. }
    intros y x [Hy|Hy]%elem_of_app Hyx.
    + apply Hn, Hused. right. exists y. by rewrite <- H1.
    + destruct (Hcl y x Hy Hyx) as [[?|?]%elem_of_set_extend|?]; [by left|by apply Hn|right; apply elem_of_app; by right].
Qed.

Lemma write_subtypes_closed fuel subtypes ds : NoDup subtypes → write_subtypes tt fuel prefix subtypes = Some (Ok ds) →
  NoDup (decl_type <$> ds) ∧ (∀ x, x ∈ subtypes → x ∈ decl_type <$> ds) ∧
  (∀ x, x ∈ decl_type <$> ds → x ∈ subtypes ∨ ∃ y, used_by y x) ∧
  ∀ y x, y ∈ decl_type <$> ds → used_by y x → x ∈ decl_type <$> ds.
Proof.
  intros Hnd E. destruct (write_subtypes_loop_closed _ _ _ _ Hnd (λ x Hx, Hx) E) as (H1 & H2 & _ & H3 & H4). split_and!; [done..| |].
  - intros x Hx. destruct (H3 x Hx) as [?|[_ ?]]; auto.
  - intros y x Hy Hyx. destruct (H4 y x Hy Hyx) as [?|?]; auto.
Qed.
End declarations.

(** ** The named types that stay after unfolding *)
Section unfolding.
Variable tt : TypeTree.

Definition rendered (s : tset) (p : list string) (i : nat) : Prop := (Tipe.Nominal p i, nominal_name "Bad" tt p i) ∈ s.

(** A named type is to be rendered, or is the definition of one that is. *)
Definition covered (s : tset) (p : list string) (i : nat) : Prop :=
  rendered s p i ∨ ∃ q j n, rendered s q j ∧ tt !! (q, j) = Some (Tipe.Nominal p i, n).

Definition good (s : tset) (t : Tipe.t) : Prop := ∀ p i, mentions t p i → covered s p i.

Record extends (s s' : tset) : Prop := {
  ex_sub : ∀ x, x ∈ s → x ∈ s';
  ex_nodup : NoDup s → NoDup s';
  ex_named : ∀ x, x ∈ s' → x ∈ s ∨ named tt x;
}.

#[local] Instance extends_preorder : PreOrder extends.
Proof. split; [split; auto|]. intros s1 s2 s3 [] []. split; [eauto..|]. intros x Hx. naive_solver. Qed.

Lemma extends_add s p i : is_Some (tt !! (p, i)) → extends s (set_add s (Tipe.Nominal p i, nominal_name "Bad" tt p i)).
Proof.
  intros Hp. split; [intros x ?; apply elem_of_set_add; by left|intros Hs; by apply (set_extend_NoDup s [_])|].
  intros x [?| ->]%elem_of_set_add; [by left|right]. exists p, i. split; [|done]. unfold nominal_name. by destruct Hp as [[] ->].
Qed.

Lemma covered_mono s s' p i : extends s s' → covered s p i → covered s' p i.
Proof. intros He [?|(q & j & n & ? & ?)]; [left; by apply He|right; exists q, j, n; split; [by apply He|done]]. Qed.
Lemma good_mono s s' t : extends s s' → good s t → good s' t.
Proof. intros He Hg p i Hm. eapply covered_mono; [done|by apply Hg]. Qed.

(** The named types that a type mentions are in the tree. *)
Definition known (t : Tipe.t) : Prop := ∀ p i, mentions t p i → is_Some (tt !! (p, i)).

Definition step_ok {A} (pre : A → Prop) (good' : tset → A → Prop) (f : A → tset → option (A * tset)) : Prop :=
  ∀ t s t' s', pre t → f t s = Some (t', s') → extends s s' ∧ good' s' t'.

Lemma visit_list_ok {A} pre (good' : tset → A → Prop) f l s l' s' : (∀ s s' x, extends s s' → good' s x → good' s' x) → step_ok pre good' f →
  Forall pre l → visit_list f l s = Some (l', s') → extends s s' ∧ Forall (good' s') l'.
Proof.
  intros Hmono Hf Hl. revert s l'. induction Hl as [|x l Hx Hl IH]; intros s l' E; cbn [visit_list] in E; [injection E as <- <-; by split|].
  apply bind_Some in E as ([x1 s1] & E1 & E). apply bind_Some in E as ([l1 s2] & E2 & [= <- <-]).
  destruct (Hf _ _ _ _ Hx E1) as [He1 Hg1]. destruct (IH _ _ E2) as [He2 Hg2]. split; [by etrans|]. constructor; [by eapply Hmono|done].
Qed.

Lemma visit_children_ok f t s t' s' : step_ok known good f → known t → visit_children f t s = Some (t', s') →
  extends s s' ∧ (∀ p i, t = Tipe.Nominal p i → t' = t) ∧ ((∀ p i, t ≠ Tipe.Nominal p i) → good s' t').
Proof.
  intros Hf Hk E. assert (step_ok (λ fd, known (sf_tipe fd)) (λ s fd, good s (sf_tipe fd)) (visit_field f)) as Hff.
  { intros fd s1 fd' s2 Hfd E1. unfold visit_field in E1. apply bind_Some in E1 as ([t1 s3] & E1 & [= <- <-]). by apply Hf in E1. }
  destruct t; cbn [visit_children] in E; try (injection E as <- <-; split; [done|]; split; [done|]; intros _ p i Hm; inversion Hm; fail).
  - apply bind_Some in E as ([ts' s1] & E & [= <- <-]). apply (visit_list_ok known good) in E as [He Hg]; [|apply good_mono|done|].
    + split_and!; [done..|]. intros _ p i Hm. inversion Hm as [|? ? ? ? Hin Hm'| | | | | | | | |]; subst. rewrite Forall_forall in Hg. by eapply Hg.
    + apply Forall_forall. intros c Hc p i Hm. apply Hk. by eapply mentions_tuple.
  - apply bind_Some in E as ([e' s1] & E & [= <- <-]). apply Hf in E as [He Hg]; [|intros p i Hm; by apply Hk, mentions_array].
    split_and!; [done..|]. intros _ p i Hm. inversion Hm; subst. by apply Hg.
  - apply bind_Some in E as ([e' s1] & E & [= <- <-]). apply Hf in E as [He Hg]; [|intros p i Hm; by apply Hk, mentions_fixed].
    split_and!; [done..|]. intros _ p i Hm. inversion Hm; subst. by apply Hg.
  - apply bind_Some in E as ([fs' s1] & E & [= <- <-]).
    apply (visit_list_ok (λ fd, known (sf_tipe fd)) (λ s fd, good s (sf_tipe fd))) in E as [He Hg]; [|intros s2 s3 x; apply good_mono|done|].
    + split_and!; [done..|]. intros _ p i Hm. inversion Hm as [| | | |? ? ? ? Hin Hm'| | | | | |]; subst. rewrite Forall_forall in Hg. by eapply Hg.
    + apply Forall_forall. intros fd Hfd p i Hm. apply Hk. by eapply mentions_struct.
  - injection E as <- <-. split; [done|]. split; [by intros p i [= -> ->]|]. intros Hn. by destruct (Hn path id).
  - apply bind_Some in E as ([r' s1] & E1 & E). apply bind_Some in E as ([as' s2] & E2 & [= <- <-]).
    apply Hf in E1 as [He1 Hg1]; [|intros p i Hm; by apply Hk, mentions_ret].
    apply (visit_list_ok known good) in E2 as [He2 Hg2]; [|apply good_mono|done|].
    + split_and!; [by etrans|done|]. intros _ p i Hm. rewrite Forall_forall in Hg2.
      inversion Hm; subst; [by eapply Hg2|]. eapply covered_mono; [done|by apply Hg1].
    + apply Forall_forall. intros c Hc p i Hm. apply Hk. by eapply mentions_arg.
  - apply bind_Some in E as ([k' s1] & E1 & E). apply bind_Some in E as ([v' s2] & E2 & [= <- <-]).
    apply Hf in E1 as [He1 Hg1]; [|intros p i Hm; by apply Hk, mentions_key]. apply Hf in E2 as [He2 Hg2]; [|intros p i Hm; by apply Hk, mentions_value].
    split_and!; [by etrans|done|]. intros _ p i Hm. inversion Hm; subst; [|by apply Hg2]. eapply covered_mono; [done|by apply Hg1].
  - apply bind_Some in E as ([e' s1] & E & [= <- <-]). apply Hf in E as [He Hg]; [|intros p i Hm; by apply Hk, mentions_option].
    split_and!; [done..|]. intros _ p i Hm. inversion Hm; subst. by apply Hg.
  - apply bind_Some in E as ([ts' s1] & E & [= <- <-]). apply (visit_list_ok known good) in E as [He Hg]; [|apply good_mono|done|].
    + split_and!; [done..|]. intros _ p i Hm. inversion Hm as [| | | | | | | | | |? ? ? ? Hin Hm']; subst. rewrite Forall_forall in Hg. by eapply Hg.
    + apply Forall_forall. intros c Hc p i Hm. apply Hk. by eapply mentions_union.
Qed.

(** The definitions in the tree mention names in the tree only. *)
Definition tree_closed : Prop := ∀ k t n, tt !! k = Some (t, n) → known t.

Lemma replace_node_ok fuel seen : tree_closed → Forall (λ t, ∃ p i, t = Tipe.Nominal p i) seen → step_ok known good (replace_node tt fuel seen).
Proof.
  intros Hcl. revert seen. induction fuel as [|fuel IH]; intros seen Hseen t s t' s' Hk E; [done|]. cbn [replace_node] in E. case_decide as Hin.
  - rewrite Forall_forall in Hseen. destruct (Hseen t Hin) as (p & i & ->). injection E as <- <-. split; [apply extends_add, Hk, mentions_nominal|].
    intros q j Hm. inversion Hm; subst. left. apply elem_of_set_add. by right.
  - destruct t; try (apply visit_children_ok in E as (He & _ & Hg); [split; [done|by apply Hg]|by apply IH|done]; fail).
    assert (step_ok known good (replace_node tt fuel (seen ++ [Tipe.Nominal path id]))) as Hok.
    { apply IH, Forall_app. split; [done|]. repeat constructor. by eexists _, _. }
    destruct (Hk _ _ (mentions_nominal path id)) as [[d n] Ht]. rewrite Ht in E.
    set (s1 := set_add s _) in E. pose proof (extends_add s path id ltac:(by rewrite Ht)) as He1. fold s1 in He1.
    assert (rendered s1 path id) as Hr by (apply elem_of_set_add; by right).
    destruct (visit_children_ok _ _ _ _ _ Hok (Hcl _ _ _ Ht) E) as (He2 & Hnom & Hg). split; [by etrans|].
    destruct d eqn:Hd; try (apply Hg; by intros ? ? [=]; fail).
    rewrite (Hnom _ _ eq_refl). intros q j Hm. inversion Hm; subst. right. exists path, id, n. split; [by apply He2|done].
Qed.

(** A global that is not the alias of a named type. *)
Definition direct (g : GlobalVarDecl) : Prop := ∀ p i, global_tipe tt g ≠ Tipe.Nominal p i.

Lemma global_tipe_known g : tree_closed → known (gv_tipe g) → known (global_tipe tt g).
Proof.
  intros Hcl Hk. unfold global_tipe. destruct (gv_tipe g); try done. destruct (Hk _ _ (mentions_nominal path id)) as [[t n] Ht]. rewrite Ht. by eapply Hcl.
Qed.

Lemma get_globals_ok fuel globals s fields s' : tree_closed → Forall (λ g, direct g ∧ known (gv_tipe g)) globals →
  get_globals tt fuel globals s = Some (fields, s') → extends s s' ∧ Forall (λ f, good s' (sf_tipe f)) fields.
Proof.
  intros Hcl. revert s fields. induction globals as [|g globals IH]; intros s fields Hd E; cbn [get_globals] in E; [injection E as <- <-; by split|].
  apply Forall_cons in Hd as [[Hg Hk] Hd]. destruct (_ =? _)%Z; [by apply IH|].
  apply bind_Some in E as ([t s1] & E1 & E). apply bind_Some in E as ([fs s2] & E2 & [= <- <-]).
  apply visit_children_ok in E1 as (He1 & _ & Hg1); [|apply replace_node_ok; [done|constructor]|by apply global_tipe_known].
  destruct (IH _ _ Hd E2) as [He2 Hf]. split; [by etrans|].
  constructor; [|done]. cbn [sf_tipe]. eapply good_mono; [done|by apply Hg1].
Qed.

(** ** Complete declarations *)

(** The declared types are different, and the fields and the definitions of
    declared types mention declared types only. *)
Record complete (fields : list (StructField Tipe.t)) (ds : list TypeDecl) : Prop := {
  co_once : NoDup (fst ∘ decl_type <$> ds);
  co_fields : ∀ f p i, f ∈ fields → mentions (sf_tipe f) p i → Tipe.Nominal p i ∈ (fst ∘ decl_type <$> ds);
  co_decls : ∀ q j t n p i, Tipe.Nominal q j ∈ (fst ∘ decl_type <$> ds) → tt !! (q, j) = Some (t, n) → mentions t p i →
    Tipe.Nominal p i ∈ (fst ∘ decl_type <$> ds);
}.

Lemma used_by_named y x : tree_closed → used_by tt y x → named tt x.
Proof. intros Hcl (a & b & t & n & p & i & _ & Ht & Hm & ->). exists p, i. split; [done|]. by eapply Hcl. Qed.

Lemma named_in_tree x : named tt x → in_tree tt x.
Proof. intros (p & i & -> & Hi). by exists p, i. Qed.

Lemma named_fst x y : named tt x → named tt y → x.1 = y.1 → x = y.
Proof. intros (p & i & -> & _) (q & j & -> & _) [= -> ->]. done. Qed.

Lemma declare_all_ok prefix l new : Forall (in_tree tt) l → ∃ r, declare_all tt prefix l new = Ok r.
Proof.
  intros Hl. revert new. induction Hl as [|x l (a & b & Hx & [[t n] Ht]) _ IH]; intros new; cbn [declare_all]; [by eexists|].
  unfold declare. rewrite Hx, Ht. cbn. destruct (display_separator prefix true tt t) as [d sub]. cbn.
  destruct (IH (set_extend new sub)) as [[ds n'] ->]. by eexists.
Qed.

Lemma write_subtypes_ok prefix fuel subtypes total r : tree_closed → Forall (in_tree tt) subtypes →
  write_subtypes_loop tt fuel prefix subtypes total = Some r → ∃ ds, r = Ok ds.
Proof.
  intros Hcl. revert subtypes total r. induction fuel as [|fuel IH]; intros subtypes total r Hs E.
  { destruct subtypes; [|done]. injection E as <-. by eexists. }
  cbn [write_subtypes_loop] in E. destruct subtypes as [|x subtypes]; [injection E as <-; by eexists|].
  destruct (declare_all_ok prefix (merge_sort (text_le (λ x, (display_separator None true tt x.1).1)) (x :: subtypes)) []) as [[ds new] Ed].
  { by rewrite merge_sort_Permutation. }
  rewrite Ed in E. apply bind_Some in E as (r' & Hr & [= <-]).
  destruct (IH (filter (λ x, x ∉ total) new) (set_extend total new) r') as [rest ->]; [|done|by eexists].
  apply Forall_forall. intros z [_ Hz]%list_elem_of_filter. destruct (declare_all_spec _ _ _ _ _ _ Ed) as (_ & _ & _ & Hused).
  apply Hused in Hz as [?%elem_of_nil|(y & _ & Hy)]; [done|]. by eapply named_in_tree, used_by_named.
Qed.

(** What the globals of a program give. *)
Lemma declarations_complete prefix fuel globals fields s ds : tree_closed → Forall (λ g, direct g ∧ known (gv_tipe g)) globals →
  get_globals tt fuel globals [] = Some (fields, s) → write_subtypes tt fuel prefix s = Some (Ok ds) → complete fields ds.
Proof.
  intros Hcl Hg Eg Ew. destruct (get_globals_ok _ _ _ _ _ Hcl Hg Eg) as [[_ Hnd Hnamed] Hgood]. specialize (Hnd NoDup_nil_2).
  destruct (write_subtypes_closed _ _ _ _ _ Hnd Ew) as (Honce & Hsub & Hfrom & Hclosed).
  assert (∀ x, x ∈ s → named tt x) as Hs by (intros x Hx; destruct (Hnamed x Hx) as [?%elem_of_nil|?]; done).
  assert (∀ x, x ∈ decl_type <$> ds → named tt x) as Hds.
  { intros x Hx. destruct (Hfrom x Hx) as [?|[y Hy]]; [by apply Hs|by eapply used_by_named]. }
  rewrite Forall_forall in Hgood.
  assert (∀ q j t n p i, Tipe.Nominal q j ∈ (fst ∘ decl_type <$> ds) → tt !! (q, j) = Some (t, n) → mentions t p i →
    Tipe.Nominal p i ∈ (fst ∘ decl_type <$> ds)) as Hdecls.
  { intros q j t n p i Hq Ht Hm. rewrite list_fmap_compose in *. apply list_elem_of_fmap in Hq as (y & Hy & Hyd).
    apply list_elem_of_fmap. exists (Tipe.Nominal p i, nominal_name "bad" tt p i). split; [done|]. apply (Hclosed y); [done|].
    by exists q, j, t, n, p, i. }
  assert (∀ p i, rendered s p i → Tipe.Nominal p i ∈ (fst ∘ decl_type <$> ds)) as Hr.
  { intros p i Hr. rewrite list_fmap_compose. apply list_elem_of_fmap. eexists. split; [|by apply Hsub]. done. }
  split; [| |done].
  - rewrite list_fmap_compose. apply NoDup_fmap_2_strong; [|done]. intros x y Hx Hy. apply named_fst; by apply Hds.
  - intros f p i Hf Hm. destruct (Hgood f Hf p i Hm) as [?|(q & j & n & Hq & Ht)]; [by apply Hr|].
    eapply (Hdecls q j); [by apply Hr|done|apply mentions_nominal].
Qed.
End unfolding.

(** ** The remapping function *)
Lemma bindings_names g input_fields output_fields : jump_table_field ∈ input_fields → NoDup (sf_name <$> output_fields ++ [jump_table_field]) →
  (bindings g input_fields (output_fields ++ [jump_table_field])).*1 ≡ₚ sf_name <$> output_fields ++ [jump_table_field].
Proof.
  intros Hj Hnd. set (out := output_fields ++ [jump_table_field]) in *. unfold bindings. rewrite !fmap_app, <- !list_fmap_compose.
  change (fst ∘ (λ f, (sf_name f, kept_expr (config g) (sf_name f)))) with (@sf_name Tipe.t).
  change (fst ∘ (λ f, (sf_name f, setter (sf_name f) +:+ "(input_globals)"))) with (@sf_name Tipe.t).
  unfold intersection_fields, output_only_fields, by_name. rewrite !merge_sort_Permutation.
  change (["_jump_table"]) with (sf_name <$> [jump_table_field]).
  match goal with |- _ ++ _ ++ ?l ≡ₚ _ => change l with (sf_name <$> [jump_table_field]) end.
  rewrite <- !fmap_app. apply fmap_Permutation.
  assert (NoDup out) as Hout by (by eapply NoDup_fmap_1).
  apply NoDup_Permutation; [| done|].
  - apply NoDup_app. split_and!; [apply NoDup_filter, set_extend_NoDup; constructor| |].
    + intros f [[Hf Hne] Hfi]%list_elem_of_filter [Hfo|Hfo]%elem_of_app.
      * apply list_elem_of_filter in Hfo as [Hn _]. apply Hn. by apply elem_of_set_extend in Hfi as [?%elem_of_nil|?].
      * by apply list_elem_of_singleton in Hfo.
    + apply NoDup_app. split_and!; [apply NoDup_filter, set_extend_NoDup; constructor| |apply NoDup_singleton].
      intros f [Hn _]%list_elem_of_filter ->%list_elem_of_singleton. done.
  - intros f. rewrite !elem_of_app, !list_elem_of_filter, !elem_of_set_extend, list_elem_of_singleton.
    assert (f ∉ ([] : list (StructField Tipe.t))) as Hnil by set_solver.
    assert (f = jump_table_field → f ∈ out) as Hjo by (intros ->; unfold out; set_solver).
    destruct (decide (f ∈ input_fields)), (decide (f = jump_table_field)); naive_solver.
Qed.

Lemma get_globals_names tt fuel globals s fields s' : get_globals tt fuel globals s = Some (fields, s') →
  sf_name <$> fields = gv_name <$> filter (λ v, gv_name_id v ≠ (two64 - 1)%Z) globals.
Proof.
  revert s fields. induction globals as [|g globals IH]; intros s fields E; cbn [get_globals] in E; [by injection E as <- <-|].
  rewrite filter_cons. destruct (Z.eqb_spec (gv_name_id g) (two64 - 1)) as [Hid|Hid].
  - rewrite decide_False by (intros H; by apply H). by eapply IH.
  - rewrite decide_True by done. apply bind_Some in E as ([t s1] & _ & E). apply bind_Some in E as ([fs s2] & E & [= <- <-]).
    rewrite !fmap_cons. f_equal. by eapply IH.
Qed.

(** C32: the upgrade code is complete.  Take two programs whose globals and named
    types mention only named types of their own program, in which no global has a
    type that is only another name of a named type ([direct]; such a type is not
    declared, [alias_not_declared]), and let the names of the globals of the new
    program be different from each other and from [_jump_table].  Then
    [gen_upgrade_code] ends with a module, in which the types of the globals before
    and after the upgrade and the type declarations mention declared types only,
    no type is declared twice, and the function binds every global of the new
    program, and its jump table, exactly once. *)
Theorem upgrade_complete g :
  tree_closed (from_types g) → Forall (λ v, direct (from_types g) v ∧ known (from_types g) (gv_tipe v)) (from_globals g) →
  tree_closed (to_types g) → Forall (λ v, direct (to_types g) v ∧ known (to_types g) (gv_tipe v)) (to_globals g) →
  NoDup ("_jump_table" :: (gv_name <$> filter (λ v, gv_name_id v ≠ (two64 - 1)%Z) (to_globals g))) →
  ∃ F, ∀ fuel, F <= fuel → ∃ input_fields output_fields before after,
    gen_upgrade_code fuel g = Some (Ok (upgrade_text g (input_fields ++ [jump_table_field]) (output_fields ++ [jump_table_field]) before after)) ∧
    complete (from_types g) input_fields before ∧ complete (to_types g) output_fields after ∧
    sf_name <$> output_fields = gv_name <$> filter (λ v, gv_name_id v ≠ (two64 - 1)%Z) (to_globals g) ∧
    (bindings g (input_fields ++ [jump_table_field]) (output_fields ++ [jump_table_field])).*1 ≡ₚ sf_name <$> output_fields ++ [jump_table_field].
Proof.
  intros Hcf Hgf Hct Hgt Hnd. destruct (get_globals_total (from_types g) (from_globals g)) as [F1 H1].
  destruct (get_globals_total (to_types g) (to_globals g)) as [F2 H2].
  exists (F1 + F2 + S (length (universe (from_types g) (Some "before__"))) + S (length (universe (to_types g) (Some "after__")))).
  intros fuel Hf. destruct (H1 fuel [] ltac:(lia)) as [[input_fields s1] E1]. destruct (H2 fuel [] ltac:(lia)) as [[output_fields s2] E2].
  destruct (write_subtypes_total (from_types g) (Some "before__") fuel s1 ltac:(lia)) as [r1 W1].
  destruct (write_subtypes_total (to_types g) (Some "after__") fuel s2 ltac:(lia)) as [r2 W2].
  assert (∀ tt fuel gs fs s, tree_closed tt → Forall (λ v, direct tt v ∧ known tt (gv_tipe v)) gs → get_globals tt fuel gs [] = Some (fs, s) →
    Forall (in_tree tt) s) as Htree.
  { intros tt n gs fs s Hcl Hg E. destruct (get_globals_ok tt _ _ _ _ _ Hcl Hg E) as [[_ _ Hn] _]. apply Forall_forall. intros x Hx.
    destruct (Hn x Hx) as [?%elem_of_nil|?]; [done|by apply named_in_tree]. }
  destruct (write_subtypes_ok _ _ _ _ _ _ Hcf (Htree _ _ _ _ _ Hcf Hgf E1) W1) as [before ->].
  destruct (write_subtypes_ok _ _ _ _ _ _ Hct (Htree _ _ _ _ _ Hct Hgt E2) W2) as [after ->].
  pose proof (get_globals_names _ _ _ _ _ _ E2) as Hnames.
  exists input_fields, output_fields, before, after. split_and!; [| | |done|].
  - unfold gen_upgrade_code. rewrite E1, E2. cbn [mbind option_bind]. rewrite W1, W2. done.
  - by eapply declarations_complete.
  - by eapply declarations_complete.
  - apply bindings_names; [set_solver|]. rewrite fmap_app, Hnames. by rewrite Permutation_app_comm.
Qed.

(** ** Examples *)

(** The type of a global that is only another name of a named type is looked up
    once, so the type it stands for is neither unfolded nor declared. *)
Definition alias_types : TypeTree := {[ (["m"], 1) := (Tipe.Nominal ["m"] 2, "A"); (["m"], 2) := (Tipe.Struct [mkStructField "x" Tipe.Uint], "B") ]}.
Definition alias_upgrade : GenUpgrade :=
  mkGenUpgrade [mkGlobalVarDecl 5 "v" (Tipe.Nominal ["m"] 1) None] alias_types 7 [] ∅ "impl" [].

Theorem alias_not_declared :
  get_globals alias_types 10 (from_globals alias_upgrade) [] = Some ([mkStructField "v" (Tipe.Nominal ["m"] 2)], []) ∧
  ∃ text, gen_upgrade_code 10 alias_upgrade = Some (Ok text) ∧
    (("type GlobalsBeforeUpgrade = struct {" +:+ newline +:+ "    v: before__m_B," +:+ newline +:+ "    _jump_table: any," +:+ newline +:+ "}")%string ∈ text) ∧
    Forall (λ l, String.prefix "type before__m_B" l = false) text.
Proof.
  split; [vm_compute; reflexivity|]. eexists. split; [vm_compute; reflexivity|]. split; [apply (bool_decide_unpack _); vm_compute; exact I|].
  apply (bool_decide_unpack _). vm_compute. exact I.
Qed.

(** A tree type that mentions itself, in both programs; the new one has one
    global more. *)
Definition tree_types : TypeTree :=
  {[ (["m"], 1) := (Tipe.Struct [mkStructField "left" (Tipe.Option (Tipe.Nominal ["m"] 1)); mkStructField "key" Tipe.Uint], "Tree") ]}.
Definition tree_upgrade : GenUpgrade :=
  mkGenUpgrade [mkGlobalVarDecl 5 "root" (Tipe.Nominal ["m"] 1) None] tree_types 7
    [mkGlobalVarDecl 5 "root" (Tipe.Nominal ["m"] 1) None; mkGlobalVarDecl 6 "size" Tipe.Uint None] tree_types "impl" [].

Lemma tree_types_closed : tree_closed tree_types.
Proof.
  intros k t n Hk p i Hm. unfold tree_types in Hk. apply lookup_singleton_Some in Hk as [<- [= <- <-]]. inversion Hm as [| | | |? f ? ? Hf Hm'| | | | | |]; subst.
  apply elem_of_cons in Hf as [->|Hf]; cbn in Hm'.
  - inversion Hm' as [| | | | | | | | |? ? ? Hn|]; subst. inversion Hn; subst. by eexists.
  - apply list_elem_of_singleton in Hf as ->. inversion Hm'.
Qed.

Lemma tree_globals_ok : Forall (λ v, direct tree_types v ∧ known tree_types (gv_tipe v)) (to_globals tree_upgrade).
Proof.
  repeat constructor; try (intros p i Hm; inversion Hm; subst; by eexists); intros p i; vm_compute; discriminate.
Qed.

Lemma upgrade_complete_witness : ∃ F, ∀ fuel, F <= fuel → ∃ input_fields output_fields before after,
  gen_upgrade_code fuel tree_upgrade
    = Some (Ok (upgrade_text tree_upgrade (input_fields ++ [jump_table_field]) (output_fields ++ [jump_table_field]) before after)) ∧
  complete tree_types input_fields before ∧
  (bindings tree_upgrade (input_fields ++ [jump_table_field]) (output_fields ++ [jump_table_field])).*1 ≡ₚ ["root"; "size"; "_jump_table"].
Proof.
  destruct (upgrade_complete tree_upgrade) as [F HF].
  - exact tree_types_closed.
  - pose proof tree_globals_ok as H. apply Forall_cons in H as [H _]. constructor; [exact H|constructor].
  - exact tree_types_closed.
  - exact tree_globals_ok.
  - apply (bool_decide_unpack _). vm_compute. exact I.
  - exists F. intros fuel Hf. destruct (HF fuel Hf) as (i & o & b & a & Hgen & Hb & _ & Hnames & Hbind). exists i, o, b, a. split; [done|]. split; [done|].
    rewrite Hbind, fmap_app, Hnames. vm_compute. reflexivity.
Defined.
