(* ===== verification/ContractTemplates.v ===== *)
(** * Code for contract templates (src/src/contracttemplates.rs)

    A Mini module with the code of a contract, as an expression for the byte
    array that holds it.  Reading the file of the contract and writing the module
    are input and output; the hex crate is the parameter of [BufferText].

    [template_lossless]: every byte string has such an expression, and different
    byte strings have different ones, although numbers are printed in decimal or
    hexadecimal notation as their size demands. *)

From Stdlib Require Import ZArith Lia Ascii.
From S2P Require Import Prelude U256 Crypto BufferTree BufferText Values RuntimeEnv Profiler TypeText.
From stdpp Require Import list_basics list.

#[local] Set Warnings "-clear-no-such-hyp,-register-all".

Import Profiler (parse_digits).

(** ** Numbers as text *)

(** [format!("{:x}", n)] in front of [s]; [fuel] bounds the number of digits. *)
Fixpoint hex_loop (fuel : nat) (n : Z) (s : string) : string :=
  match fuel with
  | O => s
  | S fuel =>
      let s := String (hex_char (n mod 16)) s in
      if (n / 16 =? 0)%Z then s else hex_loop fuel (n / 16) s
  end.

(** [Display for Uint256] *)
Definition uint_display (n : Z) : string :=
  if (n <? 2 ^ 32)%Z then decimal n else "0x" +:+ hex_loop 64 n EmptyString.

(** ** The text of a value *)

(** [None] is the panic on other values than integers and tuples. *)
Fixpoint mini_code_for_avm_value (val : Value.t) : option string :=
  match val with
  | Value.Int ui => Some (uint_display ui)
  | Value.Tuple tup =>
      items ← (fix go l := match l with
                           | [] => Some ""
                           | t :: l => s ← mini_code_for_avm_value t; rest ← go l; Some (s +:+ "," +:+ rest)
                           end) tup;
      Some ("(" +:+ items +:+ ")")
  | _ => None
  end.

Definition mini_code_for_bytes (b : list Z) : option string :=
  v ← _bytestack_from_bytes b; mini_code_for_avm_value v.

Definition mini_code_getter_for_bytes (name : string) (b : list Z) : option string :=
  body ← mini_code_for_bytes b;
  Some ("public func " +:+ name +:+ "() -> MarshalledBytes {" +:+ newline +:+
        "  return unsafecast<MarshalledBytes>(" +:+ body +:+ ");" +:+ newline +:+ "}" +:+ newline +:+ newline).

(** [b] is the code of the contract ArbInfo. *)
Definition mini_code_for_arbinfo (b : list Z) : option string :=
  getter ← mini_code_getter_for_bytes "getArbInfoCode" b;
  Some (getter +:+ "public func getArbInfoStorage() -> StorageMap {" +:+ newline +:+ " return storageMap_new();" +:+ newline +:+ "}" +:+ newline +:+ newline +:+
        "public func getArbInfoAddress() -> address {" +:+ newline +:+ "  return address(0x65);" +:+ newline +:+ "}" +:+ newline +:+ newline).

Definition mini_code_for_templates (b : list Z) : option string :=
  info ← mini_code_for_arbinfo b;
  Some ("// DO NOT EDIT -- this is machine-generated code." +:+ newline +:+ newline +:+
        "use std::bytearray::MarshalledBytes;" +:+ newline +:+ "use std::storageMap::StorageMap;" +:+ newline +:+ newline +:+
        "use std::storageMap::storageMap_new;" +:+ newline +:+ newline +:+ info).

(** The code from the text of the JSON string: without the quotes and [0x]. *)
Definition deployed_bytecode `{Hex} (code_str : string) : option (list Z) :=
  let n := String.length code_str in
  if 3 <=? n - 1 then hex_bytes (String.substring 3 (n - 4) code_str) else None.

(** ** Numbers are read back *)
Fixpoint read_hex (s : string) (acc : Z) : option Z :=
  match s with
  | EmptyString => Some acc
  | String a s => d ← hex_value a; read_hex s (16 * acc + d)
  end.
Definition read_uint (s : string) : option Z :=
  match s with
  | String "0" (String "x" s) => read_hex s 0
  | s => parse_digits two64 s 0
  end.

Lemma read_hex_loop fuel n s : (0 <= n < 16 ^ Z.of_nat fuel)%Z → 0 < fuel → read_hex (hex_loop fuel n s) 0 = read_hex s n.
Proof.
  revert n s. induction fuel as [|fuel IH]; intros n s Hn Hf; [lia|]. cbn [hex_loop].
  pose proof (Z.mod_pos_bound n 16 ltac:(lia)) as Hm. pose proof (Z.div_mod n 16 ltac:(lia)) as Hdiv.
  destruct (Z.eqb_spec (n / 16) 0) as [H0|H0].
  - cbn [read_hex]. rewrite hex_value_char by lia. cbn [mbind option_bind]. f_equal. lia.
  - assert (0 < n / 16)%Z as Hpos by (pose proof (Z.div_pos n 16); lia).
    rewrite Nat2Z.inj_succ, Z.pow_succ_r in Hn by lia.
    assert (n / 16 < 16 ^ Z.of_nat fuel)%Z as Hq by (apply Z.div_lt_upper_bound; lia).
    rewrite IH; [|lia|destruct fuel; [cbn in Hq; lia|lia]]. cbn [read_hex]. rewrite hex_value_char by lia. cbn [mbind option_bind]. f_equal. lia.
Qed.

Lemma read_uint_display n : (0 <= n < two256)%Z → read_uint (uint_display n) = Some n.
Proof.
  intros Hn. unfold uint_display. destruct (Z.ltb_spec n (2 ^ 32)) as [Hlt|Hge].
  - assert (parse_digits two64 (decimal n) 0 = Some n) as Hp.
    { unfold decimal. rewrite parse_decimal_loop; [done| |lia|]; [|unfold two64; lia]. split; [lia|]. etrans; [exact Hlt|]. by vm_compute. }
    unfold read_uint. destruct (decimal n) as [|a s]; [done|]. destruct s as [|b s]; [by destruct a as [[] [] [] [] [] [] [] []]|].
    destruct (decide (b = "x"%char)) as [->|Hb].
    + exfalso. cbn [parse_digits] in Hp. destruct (_ && _); [|done]. by destruct (_ <? _)%Z.
    + destruct a as [[] [] [] [] [] [] [] []]; try exact Hp. destruct b as [[] [] [] [] [] [] [] []]; try exact Hp. done.
  - change (read_hex (hex_loop 64 n EmptyString) 0 = Some n). rewrite read_hex_loop; [done| |lia]. by change (16 ^ Z.of_nat 64)%Z with two256.
Qed.

(** ** Values are determined by their text *)

Definition number_char (a : ascii) : bool := match hex_value a with Some _ => true | None => Ascii.eqb a "x" end.
Fixpoint number_text (s : string) : bool :=
  match s with EmptyString => true | String a s => number_char a && number_text s end.

(** A text that cannot continue a number. *)
Definition stops (s : string) : bool := match s with EmptyString => true | String a _ => negb (number_char a) end.

Lemma digit_number d : (0 <= d < 10)%Z → number_char (digit d) = true.
Proof.
  intros Hd. unfold number_char, hex_value. rewrite digit_code by done.
  by rewrite (proj2 (Z.leb_le 48 _)), (proj2 (Z.leb_le _ 57)) by lia.
Qed.

Lemma decimal_loop_text fuel n s : number_text s = true → number_text (decimal_loop fuel n s) = true.
Proof.
  revert n s. induction fuel as [|fuel IH]; intros n s Hs; [done|]. cbn [decimal_loop].
  assert (number_text (String (digit (n mod 10)) s) = true) by (cbn [number_text]; by rewrite digit_number by (apply Z.mod_pos_bound; lia)).
  destruct (_ =? _)%Z; [done|by apply IH].
Qed.

Lemma hex_loop_text fuel n s : number_text s = true → number_text (hex_loop fuel n s) = true.
Proof.
  revert n s. induction fuel as [|fuel IH]; intros n s Hs; [done|]. cbn [hex_loop].
  assert (number_text (String (hex_char (n mod 16)) s) = true).
  { cbn [number_text]. unfold number_char. by rewrite hex_value_char by (apply Z.mod_pos_bound; lia). }
  destruct (_ =? _)%Z; [done|by apply IH].
Qed.

Lemma uint_display_text n : number_text (uint_display n) = true ∧ uint_display n ≠ EmptyString.
Proof.
  unfold uint_display. destruct (n <? 2 ^ 32)%Z.
  - split; [by apply decimal_loop_text|]. destruct (decimal_loop_head 20 n EmptyString) as (d & s & _ & He); [lia|]. unfold decimal. by rewrite He.
  - split; [|done]. change (number_text (hex_loop 64 n EmptyString) = true). by apply hex_loop_text.
Qed.

Lemma number_text_split s1 s2 t1 t2 : number_text s1 = true → number_text s2 = true → stops t1 = true → stops t2 = true →
  s1 +:+ t1 = s2 +:+ t2 → s1 = s2 ∧ t1 = t2.
Proof.
  revert s2. induction s1 as [|a s1 IH]; intros [|b s2] H1 H2 Ht1 Ht2 E; cbn [number_text] in *.
  - done.
  - exfalso. change (t1 = String b (s2 +:+ t2)) in E. subst t1. cbn [stops] in Ht1. by destruct (number_char b).
  - exfalso. change (String a (s1 +:+ t1) = t2) in E. subst t2. cbn [stops] in Ht2. by destruct (number_char a).
  - change (String a (s1 +:+ t1) = String b (s2 +:+ t2)) in E. injection E as -> E.
    apply andb_true_iff in H1 as [_ H1], H2 as [_ H2]. by destruct (IH _ H1 H2 Ht1 Ht2 E) as [-> ->].
Qed.

(** Integers in range and tuples of them. *)
Inductive plain : Value.t → Prop :=
| plain_int n : (0 <= n < two256)%Z → plain (Value.Int n)
| plain_tuple l : Forall plain l → plain (Value.Tuple l).

(** The text of the items of a tuple. *)
Fixpoint items_code (l : list Value.t) : option string :=
  match l with
  | [] => Some ""
  | t :: l => s ← mini_code_for_avm_value t; rest ← items_code l; Some (s +:+ "," +:+ rest)
  end.
Lemma tuple_code l : mini_code_for_avm_value (Value.Tuple l) = (items ← items_code l; Some ("(" +:+ items +:+ ")")).
Proof. reflexivity. Qed.

Lemma str_assoc (s1 s2 s3 : string) : (s1 +:+ s2) +:+ s3 = s1 +:+ (s2 +:+ s3).
Proof. induction s1 as [|a s1 IH]; [done|]. change (String a ((s1 +:+ s2) +:+ s3) = String a (s1 +:+ (s2 +:+ s3))). by rewrite IH. Qed.

Lemma code_head v s : mini_code_for_avm_value v = Some s → ∃ a s', s = String a s' ∧ a ≠ ")"%char ∧
  match v with Value.Int _ => number_char a = true | _ => a = "("%char end.
Proof.
  destruct v as [n|l| | |]; intros Hs; try done.
  - injection Hs as <-. destruct (uint_display_text n) as [Ht Hne]. destruct (uint_display n) as [|a s]; [done|]. cbn [number_text] in Ht.
    apply andb_true_iff in Ht as [Ha _]. exists a, s. split; [done|]. split; [intros ->; by vm_compute in Ha|done].
  - rewrite tuple_code in Hs. apply bind_Some in Hs as (items & _ & [= <-]). by exists "("%char, (items +:+ ")").
Qed.

Lemma code_inj v : ∀ v' s s' t t', plain v → plain v' → mini_code_for_avm_value v = Some s → mini_code_for_avm_value v' = Some s' →
  stops t = true → stops t' = true → s +:+ t = s' +:+ t' → v = v' ∧ t = t'.
Proof.
  induction v as [n|l IH| | |] using Value.tree_ind; intros v' s s' t t' Hv Hv' Hs Hs' Ht Ht' E; try (by inversion Hv).
  - destruct Hv' as [n' Hn'|l' _].
    + inversion Hv; subst. injection Hs as <-. injection Hs' as <-.
      apply number_text_split in E as [E ->]; [|by apply uint_display_text..|done|done]. split; [|done]. f_equal.
      assert (Some n = Some n') as [= ?]; [|done]. by rewrite <- (read_uint_display n), <- (read_uint_display n'), E.
    + exfalso. destruct (code_head _ _ Hs) as (a & s1 & -> & _ & Ha). destruct (code_head _ _ Hs') as (b & s2 & -> & _ & ->).
      injection E as -> _. by vm_compute in Ha.
  - destruct Hv' as [n' _|l' Hl'].
    { exfalso. destruct (code_head _ _ Hs) as (a & s1 & -> & _ & ->). destruct (code_head _ _ Hs') as (b & s2 & -> & _ & Hb).
      injection E as <- _. by vm_compute in Hb. }
    inversion Hv as [|? Hl]; subst. rewrite tuple_code in Hs, Hs'. apply bind_Some in Hs as (i & Hi & [= <-]). apply bind_Some in Hs' as (i' & Hi' & [= <-]).
    rewrite !str_assoc in E. change (String "(" (i +:+ ")" +:+ t) = String "(" (i' +:+ ")" +:+ t')) in E. injection E as E.
    enough (l = l' ∧ t = t') as [-> ->] by done. clear Hv Ht Ht'. revert l' i i' Hl' Hi Hi' E.
    induction IH as [|v l IHv _ IH]; intros [|v' l'] i i' Hl' Hi Hi' E; cbn [items_code] in Hi, Hi'.
    + injection Hi as <-. injection Hi' as <-. change (String ")" t = String ")" t') in E. by injection E as ->.
    + exfalso. injection Hi as <-. apply bind_Some in Hi' as (s & Hs & Hi'). apply bind_Some in Hi' as (rest & _ & [= <-]).
      destruct (code_head _ _ Hs) as (a & s1 & -> & Ha & _). by injection E as <- _.
    + exfalso. injection Hi' as <-. apply bind_Some in Hi as (s & Hs & Hi). apply bind_Some in Hi as (rest & _ & [= <-]).
      destruct (code_head _ _ Hs) as (a & s1 & -> & Ha & _). by injection E as -> _.
    + apply bind_Some in Hi as (s & Hs & Hi). apply bind_Some in Hi as (rest & Hr & [= <-]).
      apply bind_Some in Hi' as (s' & Hs' & Hi'). apply bind_Some in Hi' as (rest' & Hr' & [= <-]). rewrite !str_assoc in E.
      apply Forall_cons in Hl as [Hpv Hl], Hl' as [Hpv' Hl'].
      destruct (IHv v' s s' ("," +:+ rest +:+ ")" +:+ t) ("," +:+ rest' +:+ ")" +:+ t') Hpv Hpv' Hs Hs' eq_refl eq_refl E) as [-> Ec]. change (String "," (rest +:+ ")" +:+ t) = String "," (rest' +:+ ")" +:+ t')) in Ec. injection Ec as Ec. by destruct (IH Hl l' _ _ Hl' Hr Hr' Ec) as [-> ->].
Qed.

Lemma plain_code v : plain v → ∃ s, mini_code_for_avm_value v = Some s.
Proof.
  induction v as [n|l IH| | |] using Value.tree_ind; intros Hv; inversion Hv as [|? Hl]; subst; [by eexists|]. rewrite tuple_code.
  enough (∃ s, items_code l = Some s) as [s ->] by by eexists. clear Hv.
  induction IH as [|v l IHv _ IH]; [by eexists|]. apply Forall_cons in Hl as [Hv Hl]. cbn [items_code].
  destruct (IHv Hv) as [s ->], (IH Hl) as [rest ->]. by eexists.
Qed.

Lemma build_uint_plain b : digits_ok 256 b → length b <= 32 → plain (_bytestack_build_uint b).
Proof.
  intros Hd Hl. rewrite build_uint_eq by done. constructor.
  pose proof (undigits_be_bound 256 ltac:(lia) b Hd) as Hb.
  assert (0 < 256 ^ Z.of_nat (32 - length b))%Z by (apply Z.pow_pos_nonneg; lia). split; [nia|].
  apply (Z.lt_le_trans _ (256 ^ Z.of_nat (length b) * 256 ^ Z.of_nat (32 - length b))); [nia|].
  rewrite <- Z.pow_add_r by lia. replace (Z.of_nat (length b) + Z.of_nat (32 - length b))%Z with 32%Z by lia. by vm_compute.
Qed.

Lemma plain_pair v v' : plain v → plain v' → plain (Value.new_tuple [v; v']).
Proof. intros. constructor. by repeat constructor. Qed.

Lemma bytestack_plain fuel b so_far v : digits_ok 256 b → plain so_far → _bytestack_from_bytes_2 fuel b so_far = Some v → plain v.
Proof.
  revert b so_far. induction fuel as [|fuel IH]; intros b so_far Hd Hs Hv; [done|]. cbn [_bytestack_from_bytes_2] in Hv.
  destruct (Nat.ltb_spec 32 (length b)) as [Hlt|Hle].
  - apply (IH _ _ (Forall_drop _ _ _ Hd)) in Hv; [done|]. apply plain_pair; [|done]. apply build_uint_plain; [by apply Forall_take|]. rewrite length_take. lia.
  - injection Hv as <-. by apply plain_pair; [apply build_uint_plain|].
Qed.

(** The value of a byte string, and the byte string of the value. *)
Lemma bytestack_value b : digits_ok 256 b → (Z.of_nat (length b) < two64)%Z →
  ∃ v, _bytestack_from_bytes b = Some v ∧ plain v ∧ _bytes_from_bytestack v = Some (Some b).
Proof.
  intros Hd Hl. unfold _bytestack_from_bytes.
  destruct (from_bytes_2_eq (S (length b)) b [] Value.none Hd ltac:(lia) ltac:(done) ltac:(by right) ltac:(done)) as (v & Hv & Hr). rewrite Hv.
  cbn [mbind option_bind]. eexists. split; [done|]. assert (two64 < two256)%Z by done. split.
  - apply plain_pair; [constructor; unfold Uint256.from_usize; lia|]. eapply bytestack_plain; [exact Hd| |exact Hv]. repeat constructor.
  - unfold _bytes_from_bytestack, Value.new_tuple. cbn. unfold Uint256.to_usize, Uint256.from_usize. rewrite (proj2 (Z.ltb_lt _ _)) by done. exact Hr.
Qed.

(** Templates keep the code of a contract: every byte string has an expression,
    and the expression determines the byte string. *)
Theorem template_lossless b b' : digits_ok 256 b → digits_ok 256 b' →
  (Z.of_nat (length b) < two64)%Z → (Z.of_nat (length b') < two64)%Z →
  is_Some (mini_code_for_bytes b) ∧ (mini_code_for_bytes b = mini_code_for_bytes b' → b = b').
Proof.
  intros Hd Hd' Hl Hl'. destruct (bytestack_value b Hd Hl) as (v & Hv & Hp & Hr). destruct (bytestack_value b' Hd' Hl') as (v' & Hv' & Hp' & Hr').
  unfold mini_code_for_bytes. rewrite Hv, Hv'. cbn [mbind option_bind]. destruct (plain_code v Hp) as [s Hs], (plain_code v' Hp') as [s' Hs'].
  split; [by eexists|]. intros E. rewrite Hs, Hs' in E. injection E as ->.
  destruct (code_inj v v' s' s' "" "" Hp Hp' Hs Hs' eq_refl eq_refl eq_refl) as [-> _]. rewrite Hr in Hr'. by injection Hr'.
Qed.

(** One byte and a long number. *)
Example template_examples :
  mini_code_for_bytes [7%Z] = Some "(1,(0x700000000000000000000000000000000000000000000000000000000000000,(),),)" ∧
  mini_code_for_bytes [] = Some "(0,(0,(),),)" ∧
  @deployed_bytecode lower_hex (String (ascii_of_nat 34) ("0x60ff" +:+ String (ascii_of_nat 34) EmptyString)) = Some [96; 255]%Z.
Proof. vm_compute. done. Qed.
