(* ===== verification/Constants.v ===== *)
(** * Constants (src/src/compile/miniconstants.rs)

    The table of constants that every source file can use, made from a
    constants file: integers, hex numbers, parameters with their hashes and
    defaults, the function codes and event topics of contracts.  Reading and
    decoding the file and the ABI of a contract (serde_json, ethabi) are
    arguments. *)

From Stdlib Require Import ZArith Lia.
From S2P Require Import Prelude U256 StringTab Pos SourceLines Opcodes Crypto BufferTree Values StraightLine TupleTree Types Modules.

(** [s.as_bytes()] *)
Definition string_bytes (s : string) : list Z := (λ c, Z.of_nat (Ascii.nat_of_ascii c)) <$> String.list_ascii_of_string s.

(** [BTreeMap]s and the [BTreeSet] as lists in the order of their keys. *)
Record ConstantsFile := mkConstantsFile {
  arbos_version : Z;
  integer : list (string * Z);
  hex : list (string * string);
  contract_folder : string;
  contract : list string;
  parameters_int : list (string * Z);
  parameters_hex : list (string * string);
}.
Definition ConstantsFile_default : ConstantsFile := mkConstantsFile 0 [] [] "" [] [] [].

Inductive constants_result := ConstantsNotOpened | ConstantsNotRead | ConstantsNotParsed | ConstantsParsed (c : ConstantsFile).

(** An ABI: its functions by name with their signatures, its events with theirs. *)
Record abi := mkAbi {
  abi_functions : list string;
  abi_signature : string → option string;
  abi_events : list (string * list Z);
}.

Section constants.
Context `{Crypto} (biguint_parse_bytes : string → Z → option Z).
Context (read_constants : string → constants_result) (read_abi : string → option abi).
(** [hex::encode] *)
Context (hex_encode : list Z → string).

Definition contract_path (folder contract_name : string) : string :=
  String.append folder (String.append "/" (String.append contract_name (String.append ".sol/" (String.append contract_name ".json")))).

(** The text before the first [:] *)
Fixpoint before_colon (s : string) : string :=
  match s with
  | EmptyString => EmptyString
  | String c s => if Nat.eqb (Ascii.nat_of_ascii c) 58 then EmptyString else String c (before_colon s)
  end.
Definition short_signature_for_function (a : abi) (func_name : string) : option (list Z) :=
  long_sig ← abi_signature a func_name; Some (take 4 (keccak256 (string_bytes (before_colon long_sig)))).

Definition underscored (prefix contract_name name : string) : string :=
  String.append prefix (String.append contract_name (String.append "_" name)).

Definition func_codes_for_builtin_contract (folder contract_name : string) : option (list (string * Z)) :=
  cabi ← read_abi (contract_path folder contract_name);
  mapM (λ func_name, sig ← short_signature_for_function cabi func_name;
                     Some (underscored "funcCode_" contract_name func_name, Uint256.from_bytes sig)) (abi_functions cabi).

Definition event_topics_for_builtin_contract (folder contract_name : string) : option (list (string * Z)) :=
  cabi ← read_abi (contract_path folder contract_name);
  Some ((λ event, (underscored "eventTopic_" contract_name event.1, Uint256.from_bytes event.2)) <$> abi_events cabi).

Definition insert_all (l : list (string * Z)) (m : gmap string Z) : gmap string Z := foldl (λ m x, <[x.1 := x.2]> m) m l.

(** Numbers that are not hexadecimal panic. *)
Definition insert_hex (x : string * string) (m : gmap string Z) : outcome CompileError (gmap string Z) :=
  v ← unwrap (Uint256.from_string_hex biguint_parse_bytes x.2); Ok (<[x.1 := v]> m).
Definition insert_param_int (x : string * Z) (m : gmap string Z) : gmap string Z :=
  <[String.append "Default_Param_" x.1 := x.2]>
    (<[String.append "Atom_Param_" x.1 := Uint256.from_bytes (keccak256 (string_bytes x.1))]> m).
Definition insert_param_hex (x : string * string) (m : gmap string Z) : outcome CompileError (gmap string Z) :=
  let m := <[String.append "Atom_Param_" x.1 := Uint256.from_bytes (keccak256 (string_bytes x.1))]> m in
  v ← unwrap (Uint256.from_string_hex biguint_parse_bytes x.2); Ok (<[String.append "Default_Param_" x.1 := v]> m).

Definition insert_contract (folder builtin : string) (m : gmap string Z) : outcome CompileError (gmap string Z) :=
  match func_codes_for_builtin_contract folder builtin with
  | None => Err (CompileError_new "Compile error" "Error accessing builtin function" [])
  | Some fcodes =>
      match event_topics_for_builtin_contract folder builtin with
      | None => Err (CompileError_new "Compile error" "Error accessing builtin event" [])
      | Some etopics => Ok (insert_all etopics (insert_all fcodes m))
      end
  end.

Definition read_consts (constants_path : option string) : outcome CompileError ConstantsFile :=
  match constants_path with
  | None => Ok ConstantsFile_default
  | Some consts_file =>
      match read_constants consts_file with
      | ConstantsNotOpened => Err (CompileError_new "Compile error" "Could not open constants file" [])
      | ConstantsNotRead => Err (CompileError_new "Compile error" "Could not read file to a string" [])
      | ConstantsNotParsed => Err (CompileError_new "Compile error" "Could not parse as constants file" [])
      | ConstantsParsed c => Ok c
      end
  end.

Definition init_constant_table (constants_path : option string) : outcome CompileError (gmap string Z) :=
  consts ← read_consts constants_path;
  let ret := insert_all (integer consts) ∅ in
  ret ← fold_outcome insert_hex (hex consts) ret;
  let ret := foldl (λ m x, insert_param_int x m) ret (parameters_int consts) in
  ret ← fold_outcome insert_param_hex (parameters_hex consts) ret;
  ret ← fold_outcome (insert_contract (contract_folder consts)) (contract consts) ret;
  Ok (<["ArbosVersionNumber" := arbos_version consts]> ret).

Definition make_parameters_list (constants_path : option string) : outcome CompileError (gmap string string) :=
  consts ← read_consts constants_path;
  let add m s := <[s := hex_encode (keccak256 (string_bytes s))]> m in
  Ok (foldl add (foldl add ∅ (parameters_int consts).*1) (parameters_hex consts).*1).

(** ** Parameters *)
Lemma append_inj p s t : String.append p s = String.append p t → s = t.
Proof using Type. induction p as [|c p IH]; cbn; [done|]. by intros [= ?%IH]. Qed.

(** Names that begin like those of parameters are only given by parameters. *)
Definition param_name (s name : string) : Prop := name = String.append "Default_Param_" s ∨ name = String.append "Atom_Param_" s.

Lemma insert_all_other l m name : Forall (λ x, x.1 ≠ name) l → insert_all l m !! name = m !! name.
Proof using Type.
  intros Hl. unfold insert_all. revert m. induction Hl as [|x l Hx _ IH]; intros m; [done|]. cbn. rewrite IH. by apply lookup_insert_ne.
Qed.

Lemma insert_contract_other folder builtin m m' s name : param_name s name → insert_contract folder builtin m = Ok m' → m' !! name = m !! name.
Proof using Type.
  intros Hn Hc. unfold insert_contract in Hc.
  destruct (func_codes_for_builtin_contract folder builtin) as [fs|] eqn:Ef; [|done].
  destruct (event_topics_for_builtin_contract folder builtin) as [es|] eqn:Ee; [|done]. injection Hc as <-.
  rewrite !insert_all_other; [done|..].
  - unfold func_codes_for_builtin_contract in Ef. apply bind_Some in Ef as (a & _ & Ef). apply mapM_Some_1 in Ef.
    apply list.Forall_forall. intros x Hx. apply list_elem_of_lookup in Hx as [i Hi]. destruct (Forall2_lookup_r _ _ _ _ _ Ef Hi) as (f & _ & Hf).
    apply bind_Some in Hf as (sig & _ & [= <-]). by destruct Hn as [-> | ->].
  - unfold event_topics_for_builtin_contract in Ee. apply bind_Some in Ee as (a & _ & [= <-]).
    apply list.Forall_fmap, list.Forall_forall. intros e _. by destruct Hn as [-> | ->].
Qed.

Lemma insert_param_hex_other x m m' s name : param_name s name → x.1 ≠ s → insert_param_hex x m = Ok m' → m' !! name = m !! name.
Proof using Type.
  intros Hn Hx Hi. unfold insert_param_hex in Hi. destruct (Uint256.from_string_hex biguint_parse_bytes x.2); [|done]. injection Hi as <-.
  rewrite !lookup_insert_ne; [done|..]; destruct Hn as [-> | ->]; try done; by intros ?%append_inj.
Qed.
Lemma insert_param_int_other x m s name : param_name s name → x.1 ≠ s → insert_param_int x m !! name = m !! name.
Proof using Type.
  intros Hn Hx. unfold insert_param_int. rewrite !lookup_insert_ne; [done|..]; destruct Hn as [-> | ->]; try done; by intros ?%append_inj.
Qed.

Lemma fold_outcome_other {A} (f : A → gmap string Z → outcome CompileError (gmap string Z)) l name : ∀ m m',
  (∀ x m m', x ∈ l → f x m = Ok m' → m' !! name = m !! name) → fold_outcome f l m = Ok m' → m' !! name = m !! name.
Proof using Type.
  induction l as [|x l IH]; intros m m' Hf Hl; cbn [fold_outcome] in Hl; [by injection Hl as <-|].
  destruct (f x m) as [m1| |] eqn:E1; try done. cbn [mbind outcome_bind] in Hl.
  rewrite (IH m1 m'); [|intros; eapply Hf; [by right|done]|done]. eapply Hf; [by left|done].
Qed.

(** An integer parameter gives two constants: its default value and its
    atom, the hash of its name, whatever else the constants file holds, as long
    as it is not also a hex parameter. *)
Theorem integer_parameter constants_path consts table s i :
  read_consts constants_path = Ok consts → init_constant_table constants_path = Ok table →
  NoDup (parameters_int consts).*1 → (s, i) ∈ parameters_int consts → s ∉ (parameters_hex consts).*1 →
  table !! String.append "Default_Param_" s = Some i ∧
  table !! String.append "Atom_Param_" s = Some (Uint256.from_bytes (keccak256 (string_bytes s))).
Proof using Type.
  intros Hread Ht Hnd Hin Hhex. unfold init_constant_table in Ht. rewrite Hread in Ht. cbn [mbind outcome_bind] in Ht.
  destruct (fold_outcome insert_hex _ _) as [m1| |]; try done. cbn [mbind outcome_bind] in Ht.
  destruct (fold_outcome insert_param_hex _ _) as [m3| |] eqn:E3; try done. cbn [mbind outcome_bind] in Ht.
  destruct (fold_outcome (insert_contract _) _ _) as [m4| |] eqn:E4; try done. cbn [mbind outcome_bind] in Ht. injection Ht as <-.
  assert (∀ name, param_name s name →
    <["ArbosVersionNumber" := arbos_version consts]> m4 !! name = foldl (λ m x, insert_param_int x m) m1 (parameters_int consts) !! name) as Hlook.
  { intros name Hn. rewrite lookup_insert_ne by (by destruct Hn as [-> | ->]).
    rewrite (fold_outcome_other _ _ _ _ _ (λ x m m' _, insert_contract_other _ x m m' s name Hn) E4).
    apply (fold_outcome_other _ _ _ _ _ (λ x m m' Hx, insert_param_hex_other x m m' s name Hn
      (λ Heq, Hhex (eq_ind x.1 (λ k, k ∈ (parameters_hex consts).*1) (list_elem_of_fmap_2 fst _ x Hx) s Heq))) E3). }
  rewrite !Hlook by (by left + by right). clear Hlook E3 E4 Hread. revert m1.
  induction (parameters_int consts) as [|x l IH]; intros m1; [by apply elem_of_nil in Hin|]. cbn [foldl].
  cbn [fmap list_fmap] in Hnd. apply list.NoDup_cons in Hnd as [Hx Hnd]. apply elem_of_cons in Hin as [<-|Hin]; [|by apply IH].
  assert (∀ l m name, param_name s name → s ∉ l.*1 → foldl (λ m x, insert_param_int x m) m l !! name = m !! name) as Hskip.
  { clear. induction l as [|x l IH]; intros m name Hn Hs; [done|]. cbn [fmap list_fmap] in Hs. apply not_elem_of_cons in Hs as [Hne Hs]. cbn [foldl].
    rewrite IH by done. by apply (insert_param_int_other x m s). }
  rewrite !Hskip by (done || by left + by right). unfold insert_param_int. cbn [fst snd]. rewrite lookup_insert_eq. split; [done|].
  rewrite lookup_insert_ne by done. apply lookup_insert_eq.
Qed.
End constants.
