(* ===== verification/ModulesThms.v ===== *)
(** * Resolving imports

    [resolve_imports] on modules that are closed under imports: it always gives
    a result, keeps the imported functions of every module numbered in order,
    and makes every import known in its module or warns about it.  The result
    depends on the order in which modules are visited only where a module
    imports what its target imports itself: an example shows that it does. *)

From Stdlib Require Import ZArith Lia.
From S2P Require Import Prelude U256 StringTab Pos Opcodes Crypto BufferTree Values Insns InsnFacts StraightLine TupleTree StripLabels Types TypesThms TypedAst Ast Link Codegen TypecheckOps Typecheck Flow Inline Modules.

#[local] Set Warnings "-clear-no-such-hyp".

(** The imported functions are numbered in order, under their names, and have types. *)
Record module_wf (m : SourceModule) : Prop := {
  mw_table : StringTable.wf (m_string_table m);
  mw_slots i f : m_imported_funcs m !! i = Some f →
    slot_num f = i ∧ StringTable.name_from_id (m_string_table m) (name_id f) = Some (if_name f) ∧
    is_Some (m_func_table m !! name_id f);
}.

(** What a module knows is not lost. *)
Record grows (m m' : SourceModule) : Prop := {
  gr_table s i : StringTable.table (m_string_table m) !! s = Some i → StringTable.table (m_string_table m') !! s = Some i;
  gr_types i : is_Some (m_named_types m !! i) → is_Some (m_named_types m' !! i);
  gr_funcs i : is_Some (m_func_table m !! i) → is_Some (m_func_table m' !! i);
  gr_imported f : f ∈ m_imported_funcs m → f ∈ m_imported_funcs m';
}.

Lemma grows_refl m : grows m m.
Proof. by split. Qed.
Lemma grows_trans m1 m2 m3 : grows m1 m2 → grows m2 m3 → grows m1 m3.
Proof. intros [] []. split; eauto. Qed.

Lemma grows_table m name : grows m (with_table m (snd (StringTable.get (m_string_table m) name))).
Proof. split; try done. intros s i. apply StringTable.get_preserves. Qed.

(** An import is a type or an imported function of its module, or there is a warning. *)
Definition import_warning (imp : Ast.Import) : CompileError :=
  CompileError_new_warning "Compile warning" "import does not correspond to a type or function" (option_list (Ast.i_location imp)).
Definition resolved (imp : Ast.Import) (m : SourceModule) (warnings : list CompileError) : Prop :=
  ∃ id, StringTable.get_if_exists (m_string_table m) (Ast.i_name imp) = Some id ∧
    (is_Some (m_named_types m !! id) ∨
     (is_Some (m_func_table m !! id) ∧ ∃ f, f ∈ m_imported_funcs m ∧ name_id f = id ∧ if_name f = Ast.i_name imp) ∨
     import_warning imp ∈ warnings).

Lemma resolved_grows imp m m' w w' : grows m m' → (∀ x, x ∈ w → x ∈ w') → resolved imp m w → resolved imp m' w'.
Proof.
  intros [Ht Hn Hf Hi] Hw (id & Hid & Hcase). exists id. split; [by apply Ht|].
  destruct Hcase as [?|[(? & f & ? & ? & ?)|?]]; [left; auto| |right; right; auto]. right. left. split; [by apply Hf|]. exists f. auto.
Qed.

Definition all_wf (P : programs_t) : Prop := ∀ p m, P !! p = Some m → module_wf m.
Definition all_grow (P P' : programs_t) : Prop := ∀ p m, P !! p = Some m → ∃ m', P' !! p = Some m' ∧ grows m m'.

Lemma all_grow_refl P : all_grow P P.
Proof. intros p m Hm. eauto using grows_refl. Qed.
Lemma all_grow_trans P1 P2 P3 : all_grow P1 P2 → all_grow P2 P3 → all_grow P1 P3.
Proof.
  intros H12 H23 p m Hm. destruct (H12 p m Hm) as (m2 & Hm2 & ?). destruct (H23 p m2 Hm2) as (m3 & Hm3 & ?). eauto using grows_trans.
Qed.
Lemma all_grow_insert P p m m' : P !! p = Some m → grows m m' → all_grow P (<[p := m']> P).
Proof.
  intros Hp Hg q x Hx. destruct (decide (p = q)) as [<-|Hne]; [rewrite lookup_insert_eq|rewrite lookup_insert_ne by done; eauto using grows_refl].
  exists m'. split; [done|]. by simplify_eq.
Qed.
Lemma all_wf_insert P p m : all_wf P → module_wf m → all_wf (<[p := m]> P).
Proof. intros HP Hm q x. destruct (decide (p = q)) as [<-|Hne]; [rewrite lookup_insert_eq; by intros [= <-]|rewrite lookup_insert_ne by done; eauto]. Qed.

Lemma name_stays st name i s : StringTable.wf st → StringTable.name_from_id st i = Some s →
  StringTable.name_from_id (snd (StringTable.get st name)) i = Some s.
Proof.
  intros Hwf Hi. pose proof (StringTable.wf_get st name Hwf) as Hwf'. apply (StringTable.wf_inv _ Hwf'), StringTable.get_preserves.
  by apply (StringTable.wf_inv _ Hwf).
Qed.

Lemma wf_with_table m name : module_wf m → module_wf (with_table m (snd (StringTable.get (m_string_table m) name))).
Proof.
  intros [Ht Hs]. split; cbn; [by apply StringTable.wf_get|]. intros i f Hf. destruct (Hs i f Hf) as (? & ? & ?).
  split_and!; [done|by apply name_stays|done].
Qed.

(** ** One import *)
Section step.
Context (p : path_t) (imp : Ast.Import) (P : programs_t) (w : list CompileError).
Hypothesis P_wf : all_wf P.

Lemma look_up_import_ok : is_Some (P !! Ast.i_path imp) →
  ∃ P1 nt f, look_up_import P imp = Ok (P1, nt, f) ∧ all_wf P1 ∧ all_grow P P1 ∧ dom P1 = dom P.
Proof using P_wf.
  intros [T HT]. unfold look_up_import. rewrite HT. destruct (StringTable.get _ _) as [index st] eqn:Eg.
  assert (st = snd (StringTable.get (m_string_table T) (Ast.i_name imp))) as -> by (by rewrite Eg). do 3 eexists. split; [done|].
  split_and!; [|by eapply all_grow_insert, grows_table|].
  - apply all_wf_insert; [done|]. by eapply wf_with_table, P_wf.
  - apply dom_insert_lookup_L. by eexists.
Qed.

(** What one import changes in a module. *)
Lemma add_import_ok (m : SourceModule) (t : Tipe.t) : module_wf m →
  let '(index, st) := StringTable.get (m_string_table m) (Ast.i_name imp) in
  ∃ f, ImportedFunc_new (length (m_imported_funcs m)) index st = Some f ∧
    let m' := mkModule (m_imported_funcs m ++ [f]) (m_funcs m) (m_named_types m) (m_constants m) (m_global_vars m) (m_imports m) st
                (<[index := t]> (m_func_table m)) (m_path m) (m_name m) in
    module_wf m' ∧ grows m m' ∧ resolved imp m' w.
Proof using Type.
  intros Hwf. pose proof (StringTable.wf_get _ (Ast.i_name imp) (mw_table _ Hwf)) as Hwf'.
  pose proof (StringTable.get_fst_table (m_string_table m) (Ast.i_name imp)) as Hid.
  pose proof (λ s i, StringTable.get_preserves (m_string_table m) (Ast.i_name imp) s i) as Hold.
  pose proof (λ i s, name_stays (m_string_table m) (Ast.i_name imp) i s (mw_table _ Hwf)) as Hnames.
  destruct (StringTable.get _ _) as [index st]. cbn [fst snd] in *.
  assert (StringTable.name_from_id st index = Some (Ast.i_name imp)) as Hname by (by apply (StringTable.wf_inv _ Hwf')).
  unfold ImportedFunc_new. rewrite Hname. cbn. eexists. split; [done|]. split_and!.
  - split; [done|]. cbn. intros i f Hf. apply lookup_app_Some in Hf as [Hf|[Hle Hf]].
    + destruct (mw_slots _ Hwf i f Hf) as (? & ? & Ht). split_and!; [done|by apply Hnames|].
      destruct (decide (index = name_id f)) as [->|]; [rewrite lookup_insert_eq; by eexists|by rewrite lookup_insert_ne].
    + apply list_lookup_singleton_Some in Hf as [Hi <-]. cbn. split_and!; [lia|done|]. rewrite lookup_insert_eq. by eexists.
  - split; cbn; [done|done| |by intros f ?; apply elem_of_app; left]. intros i Hi.
    destruct (decide (index = i)) as [->|]; [rewrite lookup_insert_eq; by eexists|by rewrite lookup_insert_ne].
  - exists index. split; [done|]. right. left. cbn. split; [rewrite lookup_insert_eq; by eexists|]. eexists. split; [by apply elem_of_app; right; left|done].
Qed.

Lemma resolve_import_ok : is_Some (P !! p) → is_Some (P !! Ast.i_path imp) →
  ∃ P' w', resolve_import p imp (P, w) = Ok (P', w') ∧ all_wf P' ∧ all_grow P P' ∧ dom P' = dom P ∧ (∀ x, x ∈ w → x ∈ w') ∧
    ∃ m, P' !! p = Some m ∧ resolved imp m w'.
Proof using P_wf.
  intros Hp HT. destruct (look_up_import_ok HT) as (P1 & nt & fn & Hlook & Hwf1 & Hg1 & Hdom).
  unfold resolve_import. rewrite Hlook. cbn [mbind outcome_bind]. destruct Hp as [m0 Hm0]. destruct (Hg1 p m0 Hm0) as (m & Hm & _).
  rewrite Hm. pose proof (Hwf1 p m Hm) as Hwfm. assert (p ∈ dom P1) as Hin by (apply elem_of_dom; by eexists).
  assert (∀ m' w', module_wf m' → grows m m' → resolved imp m' w' → (∀ x, x ∈ w → x ∈ w') →
    ∃ P' w'', Ok (<[p := m']> P1, w') = Ok (E := CompileError) (P', w'') ∧ all_wf P' ∧ all_grow P P' ∧ dom P' = dom P ∧
      (∀ x, x ∈ w → x ∈ w'') ∧ ∃ m, P' !! p = Some m ∧ resolved imp m w'') as Hdone.
  { intros m' w' Hwf' Hg' Hr Hw. exists (<[p := m']> P1), w'. split_and!; [done|by apply all_wf_insert| | |done|].
    - eapply all_grow_trans; [exact Hg1|]. by eapply all_grow_insert.
    - rewrite dom_insert_lookup_L by (by apply elem_of_dom). done.
    - exists m'. by rewrite lookup_insert_eq. }
  pose proof (wf_with_table m (Ast.i_name imp) Hwfm) as Hwt. pose proof (grows_table m (Ast.i_name imp)) as Hgt.
  pose proof (StringTable.get_fst_table (m_string_table m) (Ast.i_name imp)) as Hid.
  pose proof (add_import_ok m) as Hadd.
  destruct (StringTable.get (m_string_table m) (Ast.i_name imp)) as [index st] eqn:Eget. cbn [fst snd] in *.
  destruct nt as [t|]; [|destruct fn as [t|]].
  - apply Hdone; [| |exists index; split; [done|left; cbn; rewrite lookup_insert_eq; by eexists]|done].
    + destruct Hwt as [Ht Hs]. split; [done|]. cbn in *. done.
    + destruct Hgt as [Ht Hn Hf Hi]. split; [done| |done|done]. cbn in *. intros i Hi'.
      destruct (decide (index = i)) as [->|]; [rewrite lookup_insert_eq; by eexists|by rewrite lookup_insert_ne].
  - destruct (Hadd t Hwfm) as (f & -> & Hwf' & Hg' & Hr). cbn [unwrap mbind outcome_bind]. by apply Hdone.
  - apply Hdone; [done|done| |set_solver]. exists index. split; [done|]. right. right. set_solver.
Qed.
End step.

(** ** All imports *)
Lemma fold_outcome_all {A S E} (f : A → S → outcome E S) (I : S → Prop) (R : S → S → Prop) (Q : A → S → Prop) l :
  (∀ s, R s s) → (∀ s1 s2 s3, R s1 s2 → R s2 s3 → R s1 s3) → (∀ a s s', R s s' → Q a s → Q a s') →
  (∀ a s, a ∈ l → I s → ∃ s', f a s = Ok s' ∧ I s' ∧ R s s' ∧ Q a s') →
  ∀ s, I s → ∃ s', fold_outcome f l s = Ok s' ∧ I s' ∧ R s s' ∧ ∀ a, a ∈ l → Q a s'.
Proof.
  intros Hrefl Htrans HQ. induction l as [|a l IH]; intros Hf s Hs; cbn [fold_outcome].
  - exists s. split_and!; [done..|]. by intros a ?%elem_of_nil.
  - destruct (Hf a s ltac:(by left) Hs) as (s1 & -> & H1 & HR1 & HQ1). cbn [mbind outcome_bind].
    destruct (IH ltac:(intros b t Hb; apply Hf; by right) s1 H1) as (s2 & -> & H2 & HR2 & HQ2).
    exists s2. split_and!; [done|done|by eapply Htrans|]. intros b [->|Hb]%elem_of_cons; [by eapply HQ|by apply HQ2].
Qed.

Definition acc_grows (s s' : programs_t * list CompileError) : Prop := all_grow s.1 s'.1 ∧ ∀ x, x ∈ s.2 → x ∈ s'.2.
Definition import_done (p : path_t) (imp : Ast.Import) (s : programs_t * list CompileError) : Prop :=
  ∃ m, s.1 !! p = Some m ∧ resolved imp m s.2.

Lemma acc_grows_trans s1 s2 s3 : acc_grows s1 s2 → acc_grows s2 s3 → acc_grows s1 s3.
Proof. intros [H1 H1'] [H2 H2']. split; [by eapply all_grow_trans|]. auto. Qed.
Lemma import_done_grows p imp s s' : acc_grows s s' → import_done p imp s → import_done p imp s'.
Proof.
  intros [Hg Hw] (m & Hm & Hr). destruct (Hg p m Hm) as (m' & Hm' & Hgm). exists m'. split; [done|]. by eapply resolved_grows.
Qed.

(** When every import names a module of the program, [resolve_imports] gives a
    result: no module loses a name, a type or a function, the imported functions
    of each module are numbered in order under their names, and every import is a
    type or an imported function of its module afterwards, or has a warning. *)
Lemma resolve_imports_correct programs import_map warnings :
  all_wf programs →
  (∀ p imports imp, (p, imports) ∈ import_map → imp ∈ imports → is_Some (programs !! p) ∧ is_Some (programs !! Ast.i_path imp)) →
  ∃ programs' warnings', resolve_imports programs import_map warnings = Ok (programs', warnings') ∧
    all_wf programs' ∧ all_grow programs programs' ∧ dom programs' = dom programs ∧
    ∀ p imports imp, (p, imports) ∈ import_map → imp ∈ imports → ∃ m, programs' !! p = Some m ∧ resolved imp m warnings'.
Proof.
  intros Hwf Hclosed. set (I := λ s : programs_t * list CompileError, all_wf s.1 ∧ dom s.1 = dom programs).
  assert (∀ s, acc_grows s s) as Hrefl by (intros s; split; [apply all_grow_refl|done]).
  destruct (fold_outcome_all (λ entry, fold_outcome (resolve_import entry.1) entry.2) I acc_grows
              (λ entry s, ∀ imp, imp ∈ entry.2 → import_done entry.1 imp s) import_map Hrefl acc_grows_trans
              ltac:(intros e s s' Hs Hd imp Himp; eapply import_done_grows; [exact Hs|by apply Hd]))
    with (s := (programs, warnings)) as ([P' w'] & Hfold & [Hwf' Hdom] & [Hg _] & Hdone); [|done|].
  - intros [p imports] s Hin Hs. cbn [fst snd].
    apply (fold_outcome_all (resolve_import p) I acc_grows (import_done p) imports Hrefl acc_grows_trans
             ltac:(intros imp s1 s2; apply import_done_grows)); [|done].
    intros imp [P w] Himp [HP Hd]. cbn [fst snd] in *. destruct (Hclosed p imports imp Hin Himp) as [Hp HT].
    rewrite <- elem_of_dom, <- Hd, elem_of_dom in Hp, HT.
    destruct (resolve_import_ok p imp P w HP Hp HT) as (P1 & w1 & H1 & Hwf1 & Hg1 & Hd1 & Hw1 & Hm1).
    exists (P1, w1). split_and!; [done|split; [done|exact (eq_trans Hd1 Hd)]|done|done].
  - exists P', w'. split_and!; [done..|]. intros p imports imp Hin Himp. exact (Hdone (p, imports) Hin imp Himp).
Qed.

(** ** Examples *)
Definition module_of (imports : list Ast.Import) (names : list string) (types : gmap nat Tipe.t) (path : path_t) : SourceModule :=
  mkModule [] [] types ∅ [] imports (foldl (λ st name, snd (StringTable.get st name)) StringTable.new names) ∅ path "".
Definition use_ (path : path_t) (name : string) : Ast.Import := Ast.mkImport path name None None.

(** [c] declares the type [t], [b] imports it from [c] and [a] from [b]. *)
Definition chain : programs_t :=
  {[ ["a"] := module_of [use_ ["b"] "t"] ["t"] ∅ ["a"];
     ["b"] := module_of [use_ ["c"] "t"] ["t"] ∅ ["b"];
     ["c"] := module_of [] ["t"] {[ 0 := Tipe.Uint ]} ["c"] ]}.
Definition chain_imports : list (path_t * list Ast.Import) :=
  [(["a"], [use_ ["b"] "t"]); (["b"], [use_ ["c"] "t"]); (["c"], [])].

Definition types_of (p : path_t) (r : outcome CompileError (programs_t * list CompileError)) : option (list (nat * Tipe.t)) :=
  match r with Ok (P, _) => m ← P !! p; Some (map_to_list (m_named_types m)) | _ => None end.

(** The maps of the source are visited in an unspecified order.  An import of
    what another module imports itself is resolved in one order and not in another. *)
Theorem reexport_depends_on_order :
  types_of ["a"] (resolve_imports chain chain_imports []) = Some [] ∧
  types_of ["a"] (resolve_imports chain (rev chain_imports) []) = Some [(0, Tipe.Uint)].
Proof. split; vm_compute; reflexivity. Qed.
