(* ===== verification/CallGraph.v ===== *)
(** * The call graph (src/src/compile/mod.rs)

    Which functions use which, across modules, and the removal of those that
    the main function cannot reach.  A walk over the graph removes the functions
    it meets, so it ends: each step of depth takes one function out
    ([descend_total]). *)

From Stdlib Require Import ZArith Lia.
From S2P Require Import Prelude U256 StringTab Pos Opcodes Crypto BufferTree Values Insns InsnFacts StraightLine TupleTree StripLabels Types TypesThms TypedAst Ast Link Codegen TypecheckOps Typecheck Flow Inline Modules.

#[local] Set Warnings "-clear-no-such-hyp".

(** The functions a function uses, with the import that brings them in. *)
Abbreviation calls_t := (list (nat * option Ast.Import)).
(** A [BTreeMap] from the functions of a module to their calls and locations. *)
Abbreviation callgraph_t := (list (nat * (calls_t * Location.t))).
Abbreviation program_graph := (gmap path_t callgraph_t).

Definition is_library (first : string) : bool := bool_decide (first = "core") || bool_decide (first = "std").

(** ** Building the graph *)
Definition ids_of_imports (imports : list Ast.Import) : gmap nat Ast.Import :=
  foldl (λ m import, match Ast.i_id import with Some id => <[id := import]> m | None => m end) ∅ imports.

Definition add_call (import_ids : gmap nat Ast.Import) (id : nat) (calls : calls_t) : FM calls_t :=
  match import_ids !! id with
  | None => mret (calls ++ [(id, None)])
  | Some import =>
      first ← path_head (Ast.i_path import);
      mret (if is_library first then calls else calls ++ [(id, Some import)])
  end.

Definition build_callgraph (fuel : nat) (m : TypeCheckedModule) : FM callgraph_t :=
  let import_ids := ids_of_imports (tm_imports m) in
  fold_fm (λ entry call_graph,
    let func := entry.2 in
    call_ids ← determine_funcs_used fuel (func_nodes func);
    calls ← fold_fm (add_call import_ids) (elements call_ids) [];
    loc ← unwrap_fm (location (f_debug_info func));
    mret (btree_insert (f_name func) (calls, loc) call_graph)) (tm_checked_funcs m) [].

(** ** Walking the graph *)
Section walk.
Context (paths_to_modules : gmap path_t TypeCheckedModule).

(** One call of a function of [module]; [descend] walks on. *)
Definition descend_call (descend : nat → TypeCheckedModule → program_graph → FM program_graph) (module : TypeCheckedModule)
    (call : nat * option Ast.Import) (program_callgraph : program_graph) : FM program_graph :=
  match call.2 with
  | None => descend call.1 module program_callgraph
  | Some import =>
      other_module ← unwrap_fm (paths_to_modules !! Ast.i_path import);
      other_func ← unwrap_fm (StringTable.get_if_exists (tm_string_table other_module) (Ast.i_name import));
      descend other_func other_module program_callgraph
  end.

Fixpoint callgraph_descend (fuel : nat) (func : nat) (module : TypeCheckedModule) (program_callgraph : program_graph)
    : FM program_graph :=
  match fuel with
  | O => None
  | S fuel =>
      first ← path_head (tm_path module);
      if is_library first then mret program_callgraph
      else
        module_callgraph ← unwrap_fm (program_callgraph !! tm_path module);
        match btree_get func module_callgraph with
        | None => mret program_callgraph
        | Some (calls, _) =>
            fold_fm (descend_call (callgraph_descend fuel) module) calls
              (<[tm_path module := btree_remove func module_callgraph]> program_callgraph)
        end
  end.
End walk.

(** ** Removing unreachable functions *)
Definition index_modules (modules : list TypeCheckedModule) : gmap path_t TypeCheckedModule :=
  foldl (λ m x, <[tm_path x := x]> m) ∅ modules.

(** The modules by path, the last of several with one path. *)
Definition module_indices (modules : list TypeCheckedModule) : gmap path_t nat :=
  list_to_map (rev (imap (λ i m, (tm_path m, i)) modules)).

Definition remove_func (path : path_t) (entry : nat * (calls_t * Location.t)) (acc : list TypeCheckedModule * list CompileError)
    : FM (list TypeCheckedModule * list CompileError) :=
  let '(modules, warnings) := acc in
  let '(func, (_, loc)) := entry in
  i ← unwrap_fm (module_indices modules !! path);
  module ← unwrap_fm (modules !! i);
  func_name ← unwrap_fm (StringTable.name_from_id (tm_string_table module) func);
  let warnings := if starts_with_underscore func_name then warnings else warnings ++ [warning "func is unreachable" [loc]] in
  mret (<[i := set_checked_funcs module (btree_remove func (tm_checked_funcs module))]> modules, warnings).

Definition remove_unreachable (entry : path_t * callgraph_t) (acc : list TypeCheckedModule * list CompileError)
    : FM (list TypeCheckedModule * list CompileError) :=
  first ← path_head entry.1;
  if is_library first then mret acc else fold_fm (remove_func entry.1) entry.2 acc.

Definition consume_program_callgraph (fuel : nat) (program_callgraph : program_graph) (modules : list TypeCheckedModule)
    (warnings : list CompileError) : FM (list TypeCheckedModule * list CompileError) :=
  main_module ← unwrap_fm (head modules);
  main_func ← unwrap_fm (head (tm_checked_funcs main_module).*1);
  let paths_to_modules := index_modules modules in
  first ← path_head (tm_path main_module);
  if is_library first then mret (modules, warnings)
  else
    program_callgraph ← callgraph_descend paths_to_modules fuel main_func main_module program_callgraph;
    fold_fm remove_unreachable (map_to_list program_callgraph) (modules, warnings).

(** ** What the walk removes *)
Abbreviation fnode := (path_t * nat)%type.
Definition entry (g : program_graph) (x : fnode) : option (calls_t * Location.t) := mcg ← g !! x.1; btree_get x.2 mcg.
Definition in_library (p : path_t) : bool := match head p with Some first => is_library first | None => false end.

Lemma btree_get_remove {A} k k' (l : list (nat * A)) :
  btree_get k (btree_remove k' l) = if Nat.eqb k k' then None else btree_get k l.
Proof.
  unfold btree_remove. induction l as [|[j a] l IH]; [by destruct (Nat.eqb k k')|]. rewrite filter_cons. cbn [fst].
  destruct (decide (j ≠ k')) as [Hj|Hj].
  - cbn [btree_get]. rewrite IH. destruct (Nat.eqb_spec k j); [|done]. subst. by destruct (Nat.eqb_spec j k').
  - rewrite IH. cbn [btree_get]. destruct (Nat.eqb_spec k k') as [|Hk]; [done|]. destruct (Nat.eqb_spec k j) as [->|]; [|done]. by destruct Hj.
Qed.

Lemma entry_remove g p mcg f x : g !! p = Some mcg →
  entry (<[p := btree_remove f mcg]> g) x = if bool_decide (x = (p, f)) then None else entry g x.
Proof.
  intros Hg. unfold entry. destruct x as [p' f']. cbn. destruct (decide (p = p')) as [<-|Hp].
  - rewrite lookup_insert_eq, Hg. cbn. rewrite btree_get_remove.
    destruct (Nat.eqb_spec f' f) as [->|Hf]; [by rewrite bool_decide_eq_true_2|]. by rewrite bool_decide_eq_false_2 by congruence.
  - rewrite lookup_insert_ne by done. by rewrite bool_decide_eq_false_2 by congruence.
Qed.

Section reach.
Context (paths_to_modules : gmap path_t TypeCheckedModule) (g0 : program_graph).

(** The function [y] that a call in the module [p] goes to. *)
Definition call_target (p : path_t) (call : nat * option Ast.Import) (y : fnode) : Prop :=
  match call.2 with
  | None => y = (p, call.1)
  | Some import => ∃ other f, paths_to_modules !! Ast.i_path import = Some other ∧
      StringTable.get_if_exists (tm_string_table other) (Ast.i_name import) = Some f ∧ y = (tm_path other, f)
  end.

(** [x] calls [y], in the graph [g0]. *)
Definition calls_to (x y : fnode) : Prop :=
  in_library x.1 = false ∧ ∃ calls loc call, entry g0 x = Some (calls, loc) ∧ call ∈ calls ∧ call_target x.1 call y.

Definition shrunk (g g' : program_graph) : Prop := ∀ x, entry g' x = entry g x ∨ entry g' x = None.
Definition removed (g g' : program_graph) (x : fnode) : Prop := entry g x ≠ None ∧ entry g' x = None.

(** From [g] to [g'] a walk has removed what can be reached from [starts]. *)
Record walked (starts : list fnode) (g g' : program_graph) : Prop := {
  walked_shrunk : shrunk g g';
  walked_sound x : removed g g' x → in_library x.1 = false ∧ ∃ s, s ∈ starts ∧ rtc calls_to s x;
  walked_starts s : s ∈ starts → in_library s.1 = false → entry g' s = None;
  walked_closed x y : removed g g' x → calls_to x y → in_library y.1 = false → entry g' y = None;
}.

Lemma shrunk_gone g g' x : shrunk g g' → entry g x = None → entry g' x = None.
Proof using Type. intros Hs Hx. destruct (Hs x) as [->|]; done. Qed.

Lemma walked_nil g : walked [] g g.
Proof using Type.
  split.
  - by left.
  - intros x [Hx Hn]. congruence.
  - intros s Hs. by apply elem_of_nil in Hs.
  - intros x y [Hx Hn]. congruence.
Qed.

Lemma removed_split g1 g2 g3 x : shrunk g1 g2 → removed g1 g3 x → removed g1 g2 x ∨ removed g2 g3 x.
Proof using Type. intros H12 [Hx Hn]. destruct (entry g2 x) eqn:E; [right|left]; split; congruence. Qed.

Lemma walked_app s1 s2 g1 g2 g3 : walked s1 g1 g2 → walked s2 g2 g3 → walked (s1 ++ s2) g1 g3.
Proof using Type.
  intros [Hsh1 Hso1 Hst1 Hcl1] [Hsh2 Hso2 Hst2 Hcl2]. split.
  - intros x. destruct (Hsh2 x) as [->|]; [apply Hsh1|by right].
  - intros x [Hx|Hx]%(removed_split g1 g2 g3); [..|done].
    + destruct (Hso1 x Hx) as (Hl & s & Hs & Hr). split; [done|]. exists s. split; [set_solver|done].
    + destruct (Hso2 x Hx) as (Hl & s & Hs & Hr). split; [done|]. exists s. split; [set_solver|done].
  - intros s [Hs|Hs]%elem_of_app Hl; [|by apply Hst2]. eapply shrunk_gone; [exact Hsh2|by apply Hst1].
  - intros x y [Hx|Hx]%(removed_split g1 g2 g3) Hc Hl; [..|done]; [|by eapply Hcl2].
    eapply shrunk_gone; [exact Hsh2|]. by eapply Hcl1.
Qed.

(** A function that is there: it is removed, then what it calls is walked. *)
Lemma walked_node p f mcg calls loc targets g g' : in_library p = false → g !! p = Some mcg →
  btree_get f mcg = Some (calls, loc) → entry g0 (p, f) = Some (calls, loc) →
  (∀ call, call ∈ calls → ∃ y, y ∈ targets ∧ call_target p call y) → (∀ y, y ∈ targets → ∃ call, call ∈ calls ∧ call_target p call y) →
  walked targets (<[p := btree_remove f mcg]> g) g' → walked [(p, f)] g g'.
Proof using Type.
  intros Hl Hg Hf H0 Htg Hcall [Hsh Hso Hst Hcl]. pose proof (entry_remove g p mcg f) as Hrem.
  assert (entry (<[p := btree_remove f mcg]> g) (p, f) = None) as Hself by (rewrite Hrem by done; by rewrite bool_decide_eq_true_2).
  assert (∀ x, removed g g' x → x = (p, f) ∨ removed (<[p := btree_remove f mcg]> g) g' x) as Hcase.
  { intros x [Hx Hn]. destruct (decide (x = (p, f))) as [|Hne]; [by left|]. right. split; [|done]. rewrite Hrem by done.
    by rewrite bool_decide_eq_false_2. }
  split.
  - intros x. destruct (Hsh x) as [Hx|]; [|by right]. rewrite Hx, Hrem by done. case_bool_decide; [by right|by left].
  - intros x [->|Hx]%Hcase.
    + split; [done|]. exists (p, f). split; [by left|done].
    + destruct (Hso x Hx) as (Hlx & s & Hs & Hr). split; [done|]. exists (p, f). split; [by left|].
      destruct (Hcall s Hs) as (call & Hc & Ht). eapply rtc_l; [|exact Hr]. split; [done|]. by exists calls, loc, call.
  - intros s ->%list_elem_of_singleton _. by eapply shrunk_gone.
  - intros x y [->|Hx]%Hcase Hxy Hly; [|by eapply Hcl].
    destruct Hxy as (_ & calls' & loc' & call & He & Hc & Ht). rewrite H0 in He. injection He as <- <-.
    destruct (Htg call Hc) as (y' & Hy' & Ht'). apply Hst; [|done]. replace y with y'; [done|].
    unfold call_target in *. destruct call as [c [import|]]; cbn in *; [|congruence]. destruct Ht as (o & f1 & Ho & Hf1 & ->), Ht' as (o' & f1' & Ho' & Hf1' & ->).
    congruence.
Qed.

Lemma walked_lib p f g : in_library p = true → walked [(p, f)] g g.
Proof using Type.
  intros Hl. split.
  - by left.
  - intros x [Hx Hn]. congruence.
  - intros s ->%list_elem_of_singleton Hs. cbn in Hs. congruence.
  - intros x y [Hx Hn]. congruence.
Qed.
Lemma walked_gone p f g : entry g (p, f) = None → walked [(p, f)] g g.
Proof using Type.
  intros Hl. split.
  - by left.
  - intros x [Hx Hn]. congruence.
  - by intros s ->%list_elem_of_singleton _.
  - intros x y [Hx Hn]. congruence.
Qed.

Lemma walk_calls (step : nat * option Ast.Import → program_graph → FM program_graph) p calls : ∀ g g',
  (∀ call g g', call ∈ calls → shrunk g0 g → step call g = Some (Ok g') → ∃ y, call_target p call y ∧ walked [y] g g') →
  shrunk g0 g → fold_fm step calls g = Some (Ok g') →
  ∃ targets, (∀ call, call ∈ calls → ∃ y, y ∈ targets ∧ call_target p call y) ∧
    (∀ y, y ∈ targets → ∃ call, call ∈ calls ∧ call_target p call y) ∧ walked targets g g'.
Proof using Type.
  induction calls as [|call calls IH]; intros g g' Hstep Hsh Hfold; cbn [fold_fm] in Hfold.
  - injection Hfold as <-. exists []. split_and!; [set_solver..|apply walked_nil].
  - apply fm_bind_ok in Hfold as (g1 & H1 & Hfold). destruct (Hstep call g g1 ltac:(by left) Hsh H1) as (y & Hy & Hw).
    assert (shrunk g0 g1) as Hsh1.
    { intros x. destruct (walked_shrunk _ _ _ Hw x) as [->|]; [apply Hsh|by right]. }
    destruct (IH g1 g') as (targets & Ht1 & Ht2 & Hws); [|done|done|].
    { intros c h h' Hc. apply Hstep. by right. }
    exists (y :: targets). split_and!.
    + intros c [->|Hc]%elem_of_cons; [exists y; split; [by left|done]|]. destruct (Ht1 c Hc) as (z & Hz & Hcz). exists z. split; [by right|done].
    + intros z [->|Hz]%elem_of_cons; [exists call; split; [by left|done]|]. destruct (Ht2 z Hz) as (c & Hc & Hcz). exists c. split; [by right|done].
    + by eapply (walked_app [y]).
Qed.

Lemma descend_walked fuel : ∀ f m g g', shrunk g0 g → callgraph_descend paths_to_modules fuel f m g = Some (Ok g') →
  walked [(tm_path m, f)] g g'.
Proof using Type.
  induction fuel as [|fuel IH]; intros f m g g' Hsh Hd; [done|]. cbn [callgraph_descend] in Hd.
  apply fm_bind_ok in Hd as (first & Hfirst & Hd). unfold path_head, unwrap_fm in Hfirst.
  destruct (head (tm_path m)) as [first'|] eqn:Eh; [|done]. injection Hfirst as ->.
  assert (in_library (tm_path m) = is_library first) as Hl by (unfold in_library; by rewrite Eh).
  destruct (is_library first); [injection Hd as <-; by apply walked_lib|].
  apply fm_bind_ok in Hd as (mcg & Hm & Hd). unfold unwrap_fm in Hm. destruct (g !! tm_path m) as [mcg'|] eqn:Eg; [|done].
  injection Hm as ->. destruct (btree_get f mcg) as [[calls loc]|] eqn:Ef.
  2: { injection Hd as <-. apply walked_gone. unfold entry. cbn [fst snd]. by rewrite Eg. }
  assert (entry g (tm_path m, f) = Some (calls, loc)) as He by (unfold entry; cbn [fst snd]; by rewrite Eg).
  apply (walk_calls _ (tm_path m)) in Hd as (targets & Ht1 & Ht2 & Hw).
  - eapply walked_node; [done..| |exact Ht1|exact Ht2|done]. destruct (Hsh (tm_path m, f)); congruence.
  - intros call h h' _ Hh Hstep. unfold descend_call in Hstep. unfold call_target. destruct (call.2) as [import|]; [|eexists; split; [done|by apply IH]].
    apply fm_bind_ok in Hstep as (other & Ho & Hstep). apply fm_bind_ok in Hstep as (f' & Hf' & Hstep). unfold unwrap_fm in Ho, Hf'.
    destruct (paths_to_modules !! _) as [o|] eqn:Eo; [|done]. injection Ho as ->.
    destruct (StringTable.get_if_exists _ _) as [f1|] eqn:E1; [|done]. injection Hf' as ->.
    eexists. split; [by exists other, f'|]. by apply IH.
  - intros x. rewrite entry_remove by done. case_bool_decide; [by right|apply Hsh].
Qed.

(** What is removed stays removed along calls. *)
Lemma walked_reach starts g' s y : walked starts g0 g' → rtc calls_to s y → entry g0 y ≠ None → in_library y.1 = false →
  entry g' s = None → entry g' y = None.
Proof using Type.
  intros [Hsh Hso Hst Hcl] Hr. induction Hr as [y|s z y Hsz Hzy IH]; intros Hy Hly Hs; [done|].
  assert (in_library z.1 = false) as Hlz.
  { destruct Hzy as [|z w y Hzw _]; [done|]. by destruct Hzw as [Hlz _]. }
  apply IH; [done|done|]. eapply Hcl; [|exact Hsz|done]. split; [|done].
  destruct Hsz as (_ & c & l & ? & Hez & _). by rewrite Hez.
Qed.

(** From the whole graph the walk removes exactly what its start reaches. *)
Lemma descend_exact fuel f m g' : in_library (tm_path m) = false →
  callgraph_descend paths_to_modules fuel f m g0 = Some (Ok g') →
  ∀ x, entry g0 x ≠ None → entry g' x = None ↔ in_library x.1 = false ∧ rtc calls_to (tm_path m, f) x.
Proof using Type.
  intros Hl Hd x Hx. apply descend_walked in Hd as Hw; [|by left]. pose proof Hw as [Hsh Hso Hst Hcl].
  assert (entry g' (tm_path m, f) = None) as Hstart by (apply Hst; [by left|done]). split.
  - intros Hn. by destruct (Hso x) as (Hlx & s & ->%list_elem_of_singleton & Hr).
  - intros [Hlx Hr]. by apply (walked_reach _ _ _ _ Hw Hr Hx Hlx Hstart).
Qed.

(** ** The walk ends *)
Definition total (g : program_graph) : nat := map_fold (λ _ l n, length l + n) 0 g.

Lemma total_lookup g p l : g !! p = Some l → total g = length l + total (delete p g).
Proof using Type. intros Hg. unfold total. apply (map_fold_delete_L (λ (_ : path_t) (l : callgraph_t) n, length l + n)); [intros; lia|done]. Qed.
Lemma total_insert g p l : total (<[p := l]> g) = length l + total (delete p g).
Proof using Type.
  rewrite (total_lookup _ p l) by apply lookup_insert_eq. by rewrite delete_insert_eq.
Qed.

Lemma btree_remove_length {A} k (l : list (nat * A)) : btree_get k l ≠ None → length (btree_remove k l) < length l.
Proof using Type.
  unfold btree_remove. induction l as [|[j a] l IH]; [done|]. rewrite filter_cons. cbn [btree_get fst].
  destruct (Nat.eqb_spec k j) as [->|Hk].
  - intros _. destruct (decide (j ≠ j)) as [|_]; [done|]. pose proof (length_filter (λ x : nat * A, x.1 ≠ j) l). cbn. lia.
  - intros Hg. specialize (IH Hg). destruct (decide (j ≠ k)) as [_|Hn]; [cbn; lia|]. by destruct Hn.
Qed.

(** The modules are in the graph and the imports that are called can be found. *)
Definition module_known (m : TypeCheckedModule) : Prop :=
  tm_path m ≠ [] ∧ (in_library (tm_path m) = false → is_Some (g0 !! tm_path m)).
Definition imports_known : Prop :=
  ∀ x calls loc c import, entry g0 x = Some (calls, loc) → (c, Some import) ∈ calls →
    ∃ other f, paths_to_modules !! Ast.i_path import = Some other ∧
      StringTable.get_if_exists (tm_string_table other) (Ast.i_name import) = Some f ∧ module_known other.

Definition below (g g' : program_graph) : Prop := total g' <= total g ∧ shrunk g0 g' ∧ ∀ p, is_Some (g0 !! p) → is_Some (g' !! p).

Lemma calls_total descend m x calls loc g1 : imports_known → entry g0 x = Some (calls, loc) → module_known m →
  (∀ f m g, module_known m → below g1 g → ∃ g', descend f m g = Some (Ok g') ∧ below g g') →
  ∀ cs g, (∀ c, c ∈ cs → c ∈ calls) → below g1 g →
  ∃ g', fold_fm (descend_call paths_to_modules descend m) cs g = Some (Ok g') ∧ below g1 g'.
Proof using Type.
  intros Himp He Hm Hdesc. induction cs as [|[c o] cs IH]; intros g Hcs Hg; [by exists g|]. cbn [fold_fm].
  assert (∃ g', descend_call paths_to_modules descend m (c, o) g = Some (Ok g') ∧ below g g') as (g' & -> & Hg').
  { unfold descend_call. cbn [fst snd]. destruct o as [import|]; [|by apply Hdesc].
    destruct (Himp _ _ _ c import He (Hcs _ ltac:(by left))) as (other & f' & -> & Hf' & Hk). cbn. rewrite Hf'. by apply Hdesc. }
  cbn [mbind fm_bind]. apply IH; [set_solver|]. destruct Hg as (? & _), Hg' as (? & ? & ?). split_and!; [lia|done..].
Qed.

Lemma descend_total fuel : ∀ f m g, imports_known → module_known m → below g g → total g < fuel →
  ∃ g', callgraph_descend paths_to_modules fuel f m g = Some (Ok g') ∧ below g g'.
Proof using Type.
  induction fuel as [|fuel IH]; intros f m g Himp Hm Hg Hfuel; [lia|]. cbn [callgraph_descend]. pose proof Hm as [Hpath Hknown].
  unfold path_head, in_library in *. destruct (head (tm_path m)) as [first|] eqn:Eh; [|by destruct (tm_path m)].
  cbn [unwrap_fm mret fm_ret mbind fm_bind]. destruct (is_library first) eqn:El; [by exists g|].
  destruct Hg as (_ & Hsh & Hdom). destruct (Hdom _ (Hknown eq_refl)) as [mcg Emcg]. rewrite Emcg.
  cbn [unwrap_fm mret fm_ret mbind fm_bind].
  destruct (btree_get f mcg) as [[calls loc]|] eqn:Ef; [|by exists g].
  assert (entry g0 (tm_path m, f) = Some (calls, loc)) as He.
  { assert (entry g (tm_path m, f) = Some (calls, loc)) as Hgf by (unfold entry; cbn [fst snd]; by rewrite Emcg).
    destruct (Hsh (tm_path m, f)); congruence. }
  assert (total (<[tm_path m := btree_remove f mcg]> g) < total g) as Hlt.
  { rewrite total_insert, (total_lookup g _ _ Emcg). pose proof (btree_remove_length f mcg ltac:(by rewrite Ef)). lia. }
  destruct (calls_total (callgraph_descend paths_to_modules fuel) m _ _ _ (<[tm_path m := btree_remove f mcg]> g) Himp He Hm)
    with (cs := calls) (g := <[tm_path m := btree_remove f mcg]> g) as (g' & Hg' & Hb); [|done| |].
  - intros f1 m1 g1 Hm1 (Ht1 & Hs1 & Hd1). apply IH; [done|done|by split_and!|lia].
  - split_and!; [done|..].
    + intros x. rewrite entry_remove by done. case_bool_decide; [by right|apply Hsh].
    + intros p Hp. destruct (decide (tm_path m = p)) as [<-|Hne]; [rewrite lookup_insert_eq; eauto|].
      rewrite lookup_insert_ne by done. by apply Hdom.
  - exists g'. split; [exact Hg'|]. destruct Hb as (? & ? & ?). split_and!; [lia|done..].
Qed.
End reach.

(** ** What is left of the modules *)
Definition pruned (gone : list fnode) (m : TypeCheckedModule) : TypeCheckedModule :=
  set_checked_funcs m (filter (λ e, (tm_path m, e.1) ∉ gone) (tm_checked_funcs m)).

Lemma pruned_nil (l : list TypeCheckedModule) : pruned [] <$> l = l.
Proof.
  rewrite <- (list_fmap_id l) at 2. apply list_fmap_ext. intros i m _. unfold pruned.
  replace (filter _ _) with (tm_checked_funcs m); [by destruct m|].
  induction (tm_checked_funcs m) as [|e fs IH]; [done|]. rewrite filter_cons, decide_True by apply not_elem_of_nil. by rewrite <- IH.
Qed.

Lemma module_index modules p i : module_indices modules !! p = Some i → ∃ m, modules !! i = Some m ∧ tm_path m = p.
Proof.
  unfold module_indices. intros Hi%elem_of_list_to_map_2. apply list_elem_of_In, in_rev, list_elem_of_In, elem_of_lookup_imap in Hi as (j & m & [= -> ->] & Hm).
  eauto.
Qed.

Lemma pruned_cons gone x l i m : NoDup (tm_path <$> l) → l !! i = Some m → tm_path m = x.1 →
  <[i := set_checked_funcs (pruned gone m) (btree_remove x.2 (tm_checked_funcs (pruned gone m)))]> (pruned gone <$> l) =
  pruned (x :: gone) <$> l.
Proof.
  intros Hnd Hm Hp. apply list_eq. intros j. destruct (decide (i = j)) as [<-|Hij].
  - rewrite list_lookup_insert_eq by (rewrite length_fmap; by eapply lookup_lt_Some). rewrite list_lookup_fmap, Hm. cbn. f_equal.
    unfold pruned, set_checked_funcs, btree_remove. cbn [tm_checked_funcs tm_path]. f_equal. rewrite list_filter_filter.
    apply list_filter_iff. intros [id f]. rewrite elem_of_cons. cbn. destruct x as [p k]. cbn in *. subst p. split.
    + intros [Hne Hg] [[= ->]|?]; done.
    + intros Hn. split; [|by intros ?; apply Hn; right]. intros ->. apply Hn. by left.
  - rewrite list_lookup_insert_ne by done. rewrite !list_lookup_fmap. destruct (l !! j) as [m'|] eqn:Ej; [|done]. cbn. f_equal.
    unfold pruned. f_equal. apply list_filter_iff. intros e. rewrite elem_of_cons.
    assert (tm_path m' ≠ x.1) as Hne.
    { intros Heq. apply Hij. eapply (NoDup_lookup _ _ _ (tm_path m) Hnd); rewrite list_lookup_fmap; [by rewrite Hm|].
      rewrite Ej. cbn. congruence. }
    split; [|by intros Hn ?; apply Hn; right]. intros Hn [<-|?]; [|done]. by destruct Hne.
Qed.

Lemma remove_func_pruned p e modules gone warnings modules' warnings' : NoDup (tm_path <$> modules) →
  remove_func p e (pruned gone <$> modules, warnings) = Some (Ok (modules', warnings')) →
  modules' = pruned ((p, e.1) :: gone) <$> modules.
Proof.
  intros Hnd Hr. destruct e as [f [calls loc]]. cbn [remove_func] in Hr.
  apply fm_bind_ok in Hr as (i & Hi & Hr). apply fm_bind_ok in Hr as (m & Hm & Hr). apply fm_bind_ok in Hr as (name & _ & Hr).
  injection Hr as <- _. unfold unwrap_fm in Hi, Hm. destruct (module_indices _ !! p) as [i'|] eqn:Ei; [|done]. injection Hi as ->.
  destruct ((pruned gone <$> modules) !! i) as [m'|] eqn:Em; [|done]. injection Hm as ->.
  apply module_index in Ei as (m2 & Hm2 & Hp). rewrite Em in Hm2. injection Hm2 as <-.
  rewrite list_lookup_fmap in Em. apply fmap_Some in Em as (m0 & Hm0 & ->). by apply (pruned_cons gone (p, f) modules i m0).
Qed.

Lemma remove_funcs_pruned p l : ∀ modules gone warnings modules' warnings', NoDup (tm_path <$> modules) →
  fold_fm (remove_func p) l (pruned gone <$> modules, warnings) = Some (Ok (modules', warnings')) →
  modules' = pruned (rev (pair p <$> l.*1) ++ gone) <$> modules.
Proof.
  induction l as [|e l IH]; intros modules gone warnings modules' warnings' Hnd Hf; cbn [fold_fm] in Hf; [by injection Hf as <-|].
  apply fm_bind_ok in Hf as ([m1 w1] & H1 & Hf). apply remove_func_pruned in H1 as ->; [|done].
  apply IH in Hf as ->; [|done]. cbn. by rewrite <- app_assoc.
Qed.

(** The functions in the graph, of modules that are not libraries. *)
Definition graph_funcs (l : list (path_t * callgraph_t)) : list fnode :=
  flat_map (λ entry, if in_library entry.1 then [] else pair entry.1 <$> entry.2.*1) l.

Lemma remove_all_pruned l : ∀ modules gone warnings modules' warnings', NoDup (tm_path <$> modules) →
  fold_fm remove_unreachable l (pruned gone <$> modules, warnings) = Some (Ok (modules', warnings')) →
  ∃ gone', modules' = pruned gone' <$> modules ∧ ∀ x, x ∈ gone' ↔ x ∈ gone ∨ x ∈ graph_funcs l.
Proof.
  induction l as [|[p cg] l IH]; intros modules gone warnings modules' warnings' Hnd Hf; cbn [fold_fm] in Hf.
  - injection Hf as <- _. exists gone. split; [done|]. set_solver.
  - apply fm_bind_ok in Hf as ([m1 w1] & H1 & Hf). apply fm_bind_ok in H1 as (first & Hfirst & H1). cbn [fst snd] in *.
    unfold path_head, unwrap_fm in Hfirst. destruct (head p) as [first'|] eqn:Eh; [|done]. injection Hfirst as ->.
    assert (in_library p = is_library first) as Hl by (unfold in_library; by rewrite Eh). unfold graph_funcs. cbn [flat_map fst snd].
    fold (graph_funcs l). rewrite Hl. destruct (is_library first).
    + injection H1 as <- _. apply IH in Hf as (gone' & -> & Hg); [|done]. by exists gone'.
    + apply remove_funcs_pruned in H1 as ->; [|done]. apply IH in Hf as (gone' & -> & Hg); [|done]. exists gone'. split; [done|].
      intros x. rewrite Hg, !elem_of_app, (list_elem_of_In (rev _)), <- in_rev, <- list_elem_of_In. tauto.
Qed.

Lemma btree_get_elem {A} k (l : list (nat * A)) : btree_get k l ≠ None ↔ k ∈ l.*1.
Proof.
  induction l as [|[j a] l IH]; cbn; [by rewrite elem_of_nil|]. rewrite elem_of_cons, <- IH.
  destruct (Nat.eqb_spec k j); [by split; [left|]|]. split; [by right|]. by intros [?|?].
Qed.

Lemma graph_funcs_elem g x : x ∈ graph_funcs (map_to_list g) ↔ in_library x.1 = false ∧ entry g x ≠ None.
Proof.
  unfold graph_funcs, entry. rewrite list_elem_of_In, in_flat_map. setoid_rewrite <- list_elem_of_In. split.
  - intros ([p cg] & Hg%elem_of_map_to_list & Hx). cbn [fst snd] in Hx. destruct (in_library p) eqn:El; [by apply elem_of_nil in Hx|].
    apply list_elem_of_fmap in Hx as (k & -> & Hk). cbn [fst snd]. split; [done|]. rewrite Hg. by apply btree_get_elem.
  - intros [Hl He]. destruct (g !! x.1) as [cg|] eqn:Eg; [|done]. exists (x.1, cg). split; [by apply elem_of_map_to_list|].
    cbn [fst snd]. rewrite Hl. apply list_elem_of_fmap. exists x.2. split; [by destruct x|]. by apply btree_get_elem.
Qed.

(** ** The graph of a module *)
Lemma btree_get_insert {A} k k' (a : A) l : btree_get k (btree_insert k' a l) = if Nat.eqb k k' then Some a else btree_get k l.
Proof.
  induction l as [|[j b] l IH]; [done|]. cbn [btree_insert btree_get].
  destruct (Nat.ltb_spec k' j); [done|]. destruct (Nat.eqb_spec k' j) as [->|Hj]; cbn [btree_get].
  - by destruct (Nat.eqb k j).
  - rewrite IH. destruct (Nat.eqb_spec k j) as [->|]; [|done]. by destruct (Nat.eqb_spec j k') as [->|].
Qed.

(** The call of [g] is among the calls, unless it is imported from a library. *)
Definition call_known (import_ids : gmap nat Ast.Import) (calls : calls_t) (g : nat) : Prop :=
  match import_ids !! g with
  | None => (g, None) ∈ calls
  | Some import => in_library (Ast.i_path import) = true ∨ (g, Some import) ∈ calls
  end.

Lemma add_call_known ids id calls calls' : add_call ids id calls = Some (Ok calls') →
  call_known ids calls' id ∧ ∀ c, c ∈ calls → c ∈ calls'.
Proof.
  unfold add_call, call_known. destruct (ids !! id) as [import|].
  - intros (first & Hf & [= <-])%fm_bind_ok. unfold path_head, unwrap_fm in Hf. unfold in_library.
    destruct (head (Ast.i_path import)); [|done]. injection Hf as ->. destruct (is_library first); [by split; [left|]|set_solver].
  - intros [= <-]. set_solver.
Qed.

Lemma add_calls_known ids l : ∀ calls calls', fold_fm (add_call ids) l calls = Some (Ok calls') →
  (∀ g, g ∈ l → call_known ids calls' g) ∧ ∀ c, c ∈ calls → c ∈ calls'.
Proof.
  induction l as [|id l IH]; intros calls calls' Hf; cbn [fold_fm] in Hf; [injection Hf as <-; set_solver|].
  apply fm_bind_ok in Hf as (c1 & H1 & Hf). apply add_call_known in H1 as [Hk H1]. apply IH in Hf as [Hall H2].
  split; [|by auto]. intros g [->|Hg]%elem_of_cons; [|by auto]. unfold call_known in *. destruct (ids !! id); [|by auto].
  destruct Hk; auto.
Qed.

(** Every function has its entry, with all functions it uses. *)
Lemma callgraph_entries fuel ids fs : ∀ cg0 cg, NoDup ((λ e : nat * TypeCheckedFunc, f_name e.2) <$> fs) →
  fold_fm (λ entry call_graph,
    let func := entry.2 in
    call_ids ← determine_funcs_used fuel (func_nodes func);
    calls ← fold_fm (add_call ids) (elements call_ids) [];
    loc ← unwrap_fm (location (f_debug_info func));
    mret (btree_insert (f_name func) (calls, loc) call_graph)) fs cg0 = Some (Ok cg) →
  (∀ k, k ∉ (λ e, f_name e.2) <$> fs → btree_get k cg = btree_get k cg0) ∧
  ∀ id f, (id, f) ∈ fs → ∃ used calls loc, determine_funcs_used fuel (func_nodes f) = Some (Ok used) ∧
    btree_get (f_name f) cg = Some (calls, loc) ∧ ∀ g, g ∈ used → call_known ids calls g.
Proof.
  induction fs as [|[id f] fs IH]; intros cg0 cg Hnd Hf; cbn [fold_fm fmap list_fmap] in *.
  - injection Hf as <-. set_solver.
  - apply list.NoDup_cons in Hnd as [Hnew Hnd]. apply fm_bind_ok in Hf as (cg1 & H1 & Hf).
    apply fm_bind_ok in H1 as (used & Hu & H1). apply fm_bind_ok in H1 as (calls & Hc & H1).
    apply fm_bind_ok in H1 as (loc & _ & H1). injection H1 as <-. apply IH in Hf as [Hold Hall]; [|done].
    split.
    + intros k Hk. apply not_elem_of_cons in Hk as [Hk1 Hk2]. rewrite Hold by done. rewrite btree_get_insert.
      by destruct (Nat.eqb_spec k (f_name f)).
    + intros id' f' [[= -> ->]|Hin]%elem_of_cons; [|by eapply Hall]. exists used, calls, loc. split; [done|].
      rewrite Hold by done. rewrite btree_get_insert, Nat.eqb_refl. split; [done|]. intros g Hg.
      apply add_calls_known in Hc as [Hc _]. apply Hc. by apply elem_of_elements.
Qed.

(** ** Pruning *)

(** The functions of a module are filed under their names. *)
Definition keyed (m : TypeCheckedModule) : Prop :=
  NoDup (tm_checked_funcs m).*1 ∧ Forall (λ e, f_name e.2 = e.1) (tm_checked_funcs m).
Definition graph_of (fuel : nat) (graph : program_graph) (m : TypeCheckedModule) : Prop :=
  ∃ cg, graph !! tm_path m = Some cg ∧ build_callgraph fuel m = Some (Ok cg).

Lemma keyed_names m : keyed m → ((λ e, f_name e.2) <$> tm_checked_funcs m) = (tm_checked_funcs m).*1.
Proof. intros [_ Hk]. induction Hk as [|e l He _ IH]; [done|]. cbn. by rewrite He, IH. Qed.

Lemma module_entries fuel graph m id f : keyed m → graph_of fuel graph m → (id, f) ∈ tm_checked_funcs m →
  ∃ used calls loc, determine_funcs_used fuel (func_nodes f) = Some (Ok used) ∧ entry graph (tm_path m, id) = Some (calls, loc) ∧
    ∀ g, g ∈ used → call_known (ids_of_imports (tm_imports m)) calls g.
Proof.
  intros Hk (cg & Hg & Hb) Hin. apply callgraph_entries in Hb as [_ Hall]; [|by rewrite keyed_names; [destruct Hk|]].
  destruct (Hall id f Hin) as (used & calls & loc & Hu & Hc & Hg'). exists used, calls, loc. split_and!; [done| |done].
  unfold entry. cbn [fst snd]. rewrite Hg. cbn. destruct Hk as [_ Hk]. rewrite list.Forall_forall in Hk. specialize (Hk _ Hin). cbn in Hk. by rewrite <- Hk.
Qed.

Section pruning.
Context (fuel : nat) (graph : program_graph) (main : TypeCheckedModule) (rest : list TypeCheckedModule)
        (main_func : TypeCheckedFunc) (main_id : nat) (others : list (nat * TypeCheckedFunc)) (warnings : list CompileError).
Abbreviation modules := (main :: rest).

(** What the main function, the first of its module, reaches. *)
Definition used_by_main (p : path_t) (id : nat) : Prop :=
  rtc (calls_to (index_modules modules) graph) (tm_path main, main_id) (p, id).
Definition keeps (m m' : TypeCheckedModule) : Prop :=
  ∃ funcs, m' = set_checked_funcs m funcs ∧
    ∀ e, e ∈ funcs ↔ e ∈ tm_checked_funcs m ∧ (in_library (tm_path m) = true ∨ used_by_main (tm_path m) e.1).

Hypothesis first_function : tm_checked_funcs main = (main_id, main_func) :: others.
Hypothesis distinct : NoDup (tm_path <$> modules).
Hypothesis not_library : in_library (tm_path main) = false.
Hypothesis keyed_modules : Forall keyed modules.
Hypothesis graphs : Forall (graph_of fuel graph) modules.

Lemma consume_keeps modules' warnings' :
  consume_program_callgraph fuel graph modules warnings = Some (Ok (modules', warnings')) → Forall2 keeps modules modules'.
Proof using All.
  intros Hc. unfold consume_program_callgraph in Hc. cbn [head unwrap_fm mret fm_ret mbind fm_bind] in Hc.
  rewrite first_function in Hc. cbn [fmap list_fmap fst head unwrap_fm mret fm_ret mbind fm_bind] in Hc.
  apply fm_bind_ok in Hc as (first & Hfirst & Hc). unfold path_head, unwrap_fm in Hfirst.
  destruct (head (tm_path main)) as [first'|] eqn:Eh; [|done]. injection Hfirst as ->.
  assert (is_library first = false) as Hl by (unfold in_library in not_library; by rewrite Eh in not_library). rewrite Hl in Hc.
  apply fm_bind_ok in Hc as (g' & Hd & Hc). pose proof (descend_exact _ _ _ _ _ _ not_library Hd) as Hexact.
  rewrite <- (pruned_nil modules) in Hc. apply remove_all_pruned in Hc as (gone & -> & Hgone); [|done].
  apply Forall2_fmap_r, Forall_Forall2_diag. apply list.Forall_forall. intros m Hm.
  rewrite list.Forall_forall in keyed_modules, graphs. eexists. split; [done|]. intros [id f]. rewrite list_elem_of_filter. cbn [fst].
  rewrite Hgone, graph_funcs_elem. cbn [fst snd].
  assert ((id, f) ∈ tm_checked_funcs m → entry graph (tm_path m, id) ≠ None) as He.
  { intros Hin. destruct (module_entries fuel graph m id f (keyed_modules m Hm) (graphs m Hm) Hin) as (u & c & l & _ & -> & _). done. }
  split.
  - intros [Hn Hin]. split; [done|]. destruct (in_library (tm_path m)) eqn:Elm; [by left|]. right.
    apply (Hexact (tm_path m, id) (He Hin)). destruct (entry g' (tm_path m, id)) eqn:Eg'; [|done]. destruct Hn. by right.
  - intros [Hin Hcase]. split; [|done]. intros [Hno%elem_of_nil|[Hlm Hg']]; [done|]. destruct Hcase as [?|Hr]; [congruence|].
    apply Hg', (Hexact (tm_path m, id) (He Hin)). done.
Qed.
End pruning.

(** C7: pruning keeps exactly what is used.  After [consume_program_callgraph]
    every module has the functions that the main function, the first of the
    first module, reaches through the call graph, and no others; modules of the
    libraries keep all of theirs. *)
Theorem pruning_exact fuel graph main rest main_id main_func others warnings modules' warnings' :
  tm_checked_funcs main = (main_id, main_func) :: others → NoDup (tm_path <$> main :: rest) → in_library (tm_path main) = false →
  Forall keyed (main :: rest) → Forall (graph_of fuel graph) (main :: rest) →
  consume_program_callgraph fuel graph (main :: rest) warnings = Some (Ok (modules', warnings')) →
  Forall2 (keeps graph main rest main_id) (main :: rest) modules'.
Proof. intros. by eapply consume_keeps. Qed.

Lemma index_modules_lookup modules j m : NoDup (tm_path <$> modules) → modules !! j = Some m →
  index_modules modules !! tm_path m = Some m.
Proof.
  unfold index_modules. revert j. induction modules as [|x modules IH] using rev_ind; intros j Hnd Hm; [done|].
  rewrite foldl_snoc. rewrite fmap_app in Hnd. apply list.NoDup_app in Hnd as (Hnd & Hdis & _).
  apply lookup_app_Some in Hm as [Hm|[_ Hm]].
  - rewrite lookup_insert_ne; [by eapply IH|]. intros Heq. apply (Hdis (tm_path m)).
    + apply list_elem_of_fmap_2. by eapply list_elem_of_lookup_2.
    + rewrite <- Heq. by left.
  - apply list_lookup_singleton_Some in Hm as [_ ->]. apply lookup_insert_eq.
Qed.

(** Pruning removes nothing that is referenced.  What the body of a kept
    function of a module refers to is kept: a function of the same module, or
    the function behind an import from another module. *)
Theorem pruning_closed fuel graph main rest main_id main_func others warnings modules' warnings' i m m' id f used g :
  tm_checked_funcs main = (main_id, main_func) :: others → NoDup (tm_path <$> main :: rest) → in_library (tm_path main) = false →
  Forall keyed (main :: rest) → Forall (graph_of fuel graph) (main :: rest) →
  consume_program_callgraph fuel graph (main :: rest) warnings = Some (Ok (modules', warnings')) →
  (main :: rest) !! i = Some m → modules' !! i = Some m' → in_library (tm_path m) = false → (id, f) ∈ tm_checked_funcs m' →
  determine_funcs_used fuel (func_nodes f) = Some (Ok used) → g ∈ used →
  match ids_of_imports (tm_imports m) !! g with
  | None => ∀ h, (g, h) ∈ tm_checked_funcs m → (g, h) ∈ tm_checked_funcs m'
  | Some import => ∀ j o o' k h, (main :: rest) !! j = Some o → modules' !! j = Some o' → tm_path o = Ast.i_path import →
      StringTable.get_if_exists (tm_string_table o) (Ast.i_name import) = Some k →
      (k, h) ∈ tm_checked_funcs o → (k, h) ∈ tm_checked_funcs o'
  end.
Proof.
  intros Hfirst Hnd Hmain Hkeyed Hgraph Hc Hm Hm' Hl Hin Hused Hg.
  pose proof (consume_keeps _ _ _ _ _ _ _ _ Hfirst Hnd Hmain Hkeyed Hgraph _ _ Hc) as Hkeeps.
  assert (∀ j o o' k h, (main :: rest) !! j = Some o → modules' !! j = Some o' → (k, h) ∈ tm_checked_funcs o →
    in_library (tm_path o) = true ∨ used_by_main graph main rest main_id (tm_path o) k → (k, h) ∈ tm_checked_funcs o') as Hkept.
  { intros j o o' k h Ho Ho' Hk Hr. destruct (Forall2_lookup_lr _ _ _ _ _ _ Hkeeps Ho Ho') as (fs & -> & Hfs). by apply Hfs. }
  destruct (Forall2_lookup_lr _ _ _ _ _ _ Hkeeps Hm Hm') as (fs & -> & Hfs). apply Hfs in Hin as [Hin [?|Hr]]; [congruence|]. cbn in Hr.
  rewrite list.Forall_forall in Hkeyed, Hgraph. pose proof (list_elem_of_lookup_2 _ _ _ Hm) as Helem.
  destruct (module_entries fuel graph m id f (Hkeyed m Helem) (Hgraph m Helem) Hin) as (used' & calls & loc & Hu & He & Hall).
  rewrite Hused in Hu. injection Hu as <-. specialize (Hall g Hg). unfold call_known in Hall.
  assert (∀ y call, call ∈ calls → call_target (index_modules (main :: rest)) (tm_path m) call y →
    used_by_main graph main rest main_id y.1 y.2) as Hstep.
  { intros y call Hcall Hy. eapply rtc_r; [exact Hr|]. rewrite <- surjective_pairing. split; [done|]. by exists calls, loc, call. }
  destruct (ids_of_imports (tm_imports m) !! g) as [import|].
  - intros j o o' k h Ho Ho' Hp Hk Hkin. eapply Hkept; [done..|].
    destruct Hall as [Hlib|Hcall]; [left; by rewrite Hp|]. right. apply (Hstep (tm_path o, k) (g, Some import) Hcall).
    exists o, k. split_and!; [|done|done]. rewrite <- Hp. by eapply index_modules_lookup.
  - intros h Hh. eapply Hkept; [exact Hm|exact Hm'|done|]. right. by apply (Hstep (tm_path m, g) (g, None)).
Qed.

(** ** Example *)

(** [main] calls [first] and the imported [helper]; [second] and [unused] are
    not called. *)
Definition demo_info : DebugInfo := mkDebugInfo (Some (Location.mk 1 2 3 4)) (attributes DebugInfo_default).
Definition demo_call (name : nat) : TypeCheckedStatement :=
  mkStatement (SExpression (mkExpr (FunctionCall (mkExpr (FuncRef name (Tipe.Func false [] Tipe.Void)) demo_info) [] Tipe.Void
                                      (mkPropertiesList true)) demo_info)) demo_info.
Definition demo_func (name : nat) (callees : list nat) : nat * TypeCheckedFunc :=
  (name, mkFunc name [] Tipe.Void (demo_call <$> callees) (Tipe.Func false [] Tipe.Void) Private demo_info (mkPropertiesList true)).
Definition demo_table (names : list string) : StringTable.t := foldl (λ st name, snd (StringTable.get st name)) StringTable.new names.

Definition demo_main : TypeCheckedModule :=
  mkTypeCheckedModule [demo_func 0 [1; 3]; demo_func 1 []; demo_func 2 [1]] (demo_table ["main"; "first"; "second"; "helper"])
    [] [] ∅ ∅ [] [Ast.mkImport ["other"] "helper" (Some 3) None] ["main"] "main.mini".
Definition demo_other : TypeCheckedModule :=
  mkTypeCheckedModule [demo_func 0 []; demo_func 1 [2]; demo_func 2 []] (demo_table ["unused"; "helper"; "below"])
    [] [] ∅ ∅ [] [] ["other"] "other.mini".
Definition demo_graph : program_graph :=
  match build_callgraph 9 demo_main, build_callgraph 9 demo_other with
  | Some (Ok a), Some (Ok b) => {[ ["main"] := a; ["other"] := b ]}
  | _, _ => ∅
  end.

Definition demo_kept : list (list nat) :=
  match consume_program_callgraph 9 demo_graph [demo_main; demo_other] [] with
  | Some (Ok (modules, _)) => (λ m, (tm_checked_funcs m).*1) <$> modules
  | _ => []
  end.
Example demo_pruned : demo_kept = [[0; 1]; [1; 2]].
Proof. vm_compute. reflexivity. Qed.

Definition demo_left : list TypeCheckedModule :=
  match consume_program_callgraph 9 demo_graph [demo_main; demo_other] [] with Some (Ok (l, _)) => l | _ => [] end.
Definition demo_left_warnings : list CompileError :=
  match consume_program_callgraph 9 demo_graph [demo_main; demo_other] [] with Some (Ok (_, w)) => w | _ => [] end.

Lemma demo_keyed : Forall keyed [demo_main; demo_other].
Proof.
  repeat (apply List.Forall_cons; [split; [apply (bool_decide_unpack _); vm_compute; done|by repeat constructor]|]). constructor.
Qed.
Lemma demo_graphs : Forall (graph_of 9 demo_graph) [demo_main; demo_other].
Proof.
  apply List.Forall_cons; [|apply List.Forall_cons; [|constructor]].
  - eexists. split; vm_compute; reflexivity.
  - eexists. split; vm_compute; reflexivity.
Qed.

Lemma pruning_exact_witness : Forall2 (keeps demo_graph demo_main [demo_other] 0) [demo_main; demo_other] demo_left.
Proof.
  apply (pruning_exact 9 demo_graph demo_main [demo_other] 0 (demo_func 0 [1; 3]).2 [demo_func 1 []; demo_func 2 [1]] [] demo_left demo_left_warnings).
  - reflexivity.
  - apply (bool_decide_unpack _). vm_compute. done.
  - reflexivity.
  - exact demo_keyed.
  - exact demo_graphs.
  - vm_compute. reflexivity.
Defined.

Lemma pruning_closed_witness : ∃ o', demo_left !! 1 = Some o' ∧ demo_func 1 [2] ∈ tm_checked_funcs o'.
Proof.
  destruct (demo_left !! 1) as [o'|] eqn:Ho'; [exists o'; split; [reflexivity|]|vm_compute in Ho'; discriminate].
  destruct (demo_left !! 0) as [m'|] eqn:Em; [|vm_compute in Em; discriminate].
  assert ((0, (demo_func 0 [1; 3]).2) ∈ tm_checked_funcs m') as Hin by (vm_compute in Em; injection Em as <-; by left).
  pose proof (pruning_closed 9 demo_graph demo_main [demo_other] 0 (demo_func 0 [1; 3]).2 [demo_func 1 []; demo_func 2 [1]] []
    demo_left demo_left_warnings 0 demo_main m' 0 (demo_func 0 [1; 3]).2 {[1; 3]} 3 eq_refl
    ltac:(apply (bool_decide_unpack _); vm_compute; done) eq_refl demo_keyed demo_graphs ltac:(vm_compute; reflexivity)
    eq_refl Em eq_refl Hin ltac:(vm_compute; reflexivity) ltac:(set_solver)) as Hkept.
  assert (ids_of_imports (tm_imports demo_main) !! 3 = Some (Ast.mkImport ["other"] "helper" (Some 3) None)) as Himport by reflexivity.
  rewrite Himport in Hkept. apply (Hkept 1 demo_other); [reflexivity|exact Ho'|reflexivity|reflexivity|right; by left].
Defined.
