(* ===== verification/Pipeline.v ===== *)
(** * The compiler (src/src/compile/mod.rs)

    From source files to an executable: the files of a program are found by
    following imports, parsed, and passed through the stages of Modules.v and
    CallGraph.v; the result is linked (Link.v).

    The file system, the generated parser and the hash that makes file ids are
    arguments.  [fuel] bounds the walks, and [files] the number of files that
    are opened. *)

From Stdlib Require Import ZArith Lia.
From S2P Require Import Prelude U256 StringTab Pos SourceLines Opcodes Crypto BufferTree Values Insns InsnFacts StraightLine TupleTree StripLabels Types TypesThms TypedAst Ast Link Codegen TypecheckOps Typecheck TypeSoundness Flow Inline Modules ModulesThms CallGraph.

#[local] Set Warnings "-clear-no-such-hyp".

(** ** Parsing *)

(** [lalrpop_util::ParseError] *)
Inductive ParseError :=
| UnrecognizedToken (offset end_ : Z) (expected : list string)
| InvalidToken (location : Z)
| UnrecognizedEOF (location : Z) (expected : list string)
| ExtraToken (offset end_ : Z)
| UserError (error : string).

(** What parsing gives: the declarations, the string table, the constants that
    are declared and those that are used, errors and warnings. *)
Record parsed := mkParsed {
  p_decls : list Ast.TopLevelDecl;
  p_string_table : StringTable.t;
  p_local_constants : gmap string Location.t;
  p_used_constants : gset string;
  p_errors : list CompileError;
  p_warnings : list CompileError;
}.

Record error_system := mkErrorSystem { errors : list CompileError; warnings : list CompileError }.

Inductive file_result := NotOpened | NotRead | Contents (source : list Z).

(** The options of [CompileStruct]. *)
Record options := mkOptions {
  o_debug_mode : bool;
  o_test_mode : bool;
  o_warnings_are_errors : bool;
  o_inline : option InliningHeuristic;
  o_must_use_global_consts : bool;
  o_release_build : bool;
  o_no_builtins : bool;
}.

Section compiler.
Context `{Crypto} (biguint_parse_bytes : string → Z → option Z).
(** [init_constant_table] for the constants file of the options, see Constants.v *)
Context (constants : outcome CompileError (gmap string Z)).
(** [DeclsParser::new().parse(..)] on the text, the file id, the path, the constants *)
Context (parser : list Z → Z → path_t → StringTable.t → gmap string Z → gset string → error_system → sum ParseError parsed).
(** [File::open] and [read_to_string] *)
Context (read_file : string → file_result).
(** [DefaultHasher] *)
Context (file_hash : path_t → Z).
Context (fuel : nat).

Definition parse_error (lines : Lines.t) (file_id : Z) (e : ParseError) : outcome CompileError parsed :=
  match e with
  | UnrecognizedToken offset _ expected =>
      loc ← unwrap (Lines.location lines (as_u32 offset) file_id);
      Err (CompileError_new "Compile error: unexpected token" (String.append ", expected one of: " (comma_list expected)) [loc])
  | InvalidToken location =>
      Err (CompileError_new "Compile error" "found invalid token" (option_list (Lines.location lines (as_u32 location) file_id)))
  | UnrecognizedEOF location expected =>
      Err (CompileError_new "Compile error: unexpected end of file" (String.append "expected one of: " (comma_list expected))
             (option_list (Lines.location lines (as_u32 location) file_id)))
  | ExtraToken offset _ =>
      loc ← unwrap (Lines.location lines (as_u32 offset) file_id);
      Err (CompileError_new "Compile error: extra token" "" [loc])
  | UserError error =>
      Err (CompileError_new "Internal error" (String.append "This should be impossible under the new error system " error) [])
  end.

(** The declarations, the string table, the used constants and the error system after it. *)
Definition parse_from_source (source : list Z) (file_id : Z) (file_path : path_t) (es : error_system)
    : outcome CompileError (list Ast.TopLevelDecl * StringTable.t * gset string * error_system) :=
  let source := strip_comments false source in
  let lines := Lines.new source in
  consts ← constants;
  p ← (match parser source file_id file_path StringTable.new consts ∅ es with
       | inl e => parse_error lines file_id e
       | inr p => Ok p
       end);
  let unused := filter (λ entry : string * Location.t, entry.1 ∉ p_used_constants p) (map_to_list (p_local_constants p)) in
  Ok (p_decls p, p_string_table p, p_used_constants p,
      mkErrorSystem (p_errors p)
        (p_warnings p ++ ((λ entry : string * Location.t, warning "Constant is never used" [entry.2]) <$> unused))).

(** ** Files *)

(** The name of the file of a module; without a first component a panic. *)
Definition file_name (path : path_t) : outcome CompileError string :=
  match path with
  | [] => Panic
  | [first] => Ok (String.append first ".mini")
  | first :: second :: _ =>
      Ok (String.append
            (if bool_decide (first = "std") then String.append "../stdlib/" second
             else if bool_decide (first = "core") then String.append "../builtin/" second
             else first) ".mini")
  end.

Record tree := mkTree {
  t_programs : gmap path_t SourceModule;
  t_import_map : list (path_t * list Ast.Import);
  t_seen : gset path_t;
}.

(** One file that has not been seen. *)
Definition add_file (folder : string) (builtins : bool) (path : path_t) (t : tree) (es : error_system)
    : outcome CompileError (tree * list path_t * error_system) :=
  name ← file_name path;
  match read_file (join_path folder name) with
  | NotOpened => Err (CompileError_new "Compile error" "Can not open" [])
  | NotRead => Err (CompileError_new "Compile error" "Can not read" [])
  | Contents source =>
      '(decls, string_table, used_constants, es) ← parse_from_source source (file_hash path) path es;
      let d := sort_top_level_decls decls path builtins in
      Ok (mkTree (<[path := mkModule [] (sd_funcs d) (sd_named_types d) used_constants (sd_global_vars d) (sd_imports d)
                              string_table (sd_func_table d) path name]> (t_programs t))
                 (t_import_map t ++ [(path, sd_imports d)]) ({[path]} ∪ t_seen t),
          Ast.i_path <$> sd_imports d, es)
  end.

(** The loop over the paths to visit; the last one is taken first. *)
Fixpoint program_tree_loop (files : nat) (folder : string) (builtins : bool) (paths : list path_t) (t : tree) (es : error_system)
    : FM (tree * error_system) :=
  match files with
  | O => None
  | S files =>
      match list.last paths with
      | None => mret (t, es)
      | Some path =>
          let paths := removelast paths in
          if bool_decide (path ∈ t_seen t) then program_tree_loop files folder builtins paths t es
          else
            '(t, imported, es) ← Some (add_file folder builtins path t es);
            program_tree_loop files folder builtins (paths ++ imported) t es
      end
  end.

Definition main_path (library : option string) (main : string) : path_t :=
  match library with Some lib => [lib; main] | None => [main] end.

Definition create_program_tree (files : nat) (folder : string) (library : option string) (main : string) (builtins : bool)
    (es : error_system) : FM (tree * error_system) :=
  program_tree_loop files folder builtins [main_path library main] (mkTree ∅ [] ∅) es.

(** ** The stages *)

(** [String::cmp]: by bytes *)
Fixpoint string_leb (a b : string) : bool :=
  match a, b with
  | EmptyString, _ => true
  | _, EmptyString => false
  | String x a, String y b =>
      if Nat.ltb (Ascii.nat_of_ascii x) (Ascii.nat_of_ascii y) then true
      else if Nat.eqb (Ascii.nat_of_ascii x) (Ascii.nat_of_ascii y) then string_leb a b else false
  end.
Fixpoint insert_module (m : SourceModule) (l : list SourceModule) : list SourceModule :=
  match l with
  | [] => [m]
  | m' :: l' => if string_leb (m_name m') (m_name m) then m :: l else m' :: insert_module m l'
  end.

(** The main module, then the others by descending name; without a main module a panic. *)
Definition order_modules (programs : gmap path_t SourceModule) (main : path_t) : FM (list SourceModule) :=
  first ← unwrap_fm (programs !! main);
  mret (first :: foldr insert_module [] (map_to_list (delete main programs)).*2).

Definition set_warnings (es : error_system) (w : list CompileError) : error_system := mkErrorSystem (errors es) w.

(** Control flow analysis: the warnings and the call graph of each module. *)
Definition flow_stage (modules : list TypeCheckedModule) (w : list CompileError) : FM (program_graph * list CompileError) :=
  fold_fm (λ m acc,
    w ← module_flowcheck fuel m acc.2;
    cg ← build_callgraph fuel m;
    mret (<[tm_path m := cg]> acc.1, w)) modules (∅, w).

Definition compile_from_folder (files : nat) (o : options) (folder : string) (library : option string) (main : string)
    (es : error_system) : FM (list CompiledProgram * error_system) :=
  '(t, es) ← create_program_tree files folder library main (negb (o_no_builtins o)) es;
  '(programs, w) ← Some (resolve_imports (t_programs t) (t_import_map t) (warnings es));
  type_tree ← Some (create_type_tree programs);
  modules ← order_modules programs (main_path library main);
  '(checked, w) ← typecheck_programs biguint_parse_bytes fuel type_tree modules w;
  w ← (if o_must_use_global_consts o
       then match constants with Ok consts => mret (check_global_constants checked consts w) | _ => fm_panic end
       else mret w);
  '(graph, w) ← flow_stage checked w;
  '(checked, w) ← consume_program_callgraph fuel graph checked w;
  checked ← (match o_inline o with Some h => map_fm (inline_all fuel h) checked | None => mret checked end);
  let checked := propagate_attributes <$> checked in
  '(progs, w) ← Some (codegen_programs checked type_tree folder (o_release_build o) w);
  mret (progs, set_warnings es w).

(** ** [CompileStruct::invoke] *)

(** A program with so many globals that the first is not at the top of its tuple. *)
Definition max_globals : nat := 58.

(** The program after all input files; errors end up in the error system. *)
Definition link_stage (o : options) (progs : list CompiledProgram) (es : error_system) : FM (sum error_system (LinkedProgram * error_system)) :=
  '(linked, w) ← unwrap_fm (link progs (o_test_mode o) (warnings es));
  if Nat.leb max_globals (length (globals linked)) then fm_panic
  else
    match postlink_compile linked (o_test_mode o) with
    | Panic => fm_panic
    | Err e => mret (inl (mkErrorSystem (errors es ++ [e]) w))
    | Ok prog =>
        if negb (Nat.eqb (length w) 0) && o_warnings_are_errors o
        then mret (inl (mkErrorSystem (errors es ++ [CompileError_new "Compile Error" "Found warning with -w on" []]) w))
        else mret (inr (prog, mkErrorSystem (errors es) w))
    end.

(** What [std::path] says of an input: its text, whether it is a directory, its
    parent and the name of it, its name without extension; names that are not
    UTF-8 are an inner [None]. *)
Record input := mkInput {
  in_path : string;
  in_is_dir : bool;
  in_parent : option string;
  in_parent_name : option (option string);
  in_file_stem : option (option string);
}.

Definition library_of (parent_name : option (option string)) : option string :=
  match parent_name with
  | Some (Some name) => if bool_decide (name = "builtin") then Some "core" else if bool_decide (name = "stdlib") then Some "std" else None
  | _ => None
  end.

Definition compile_from_file (files : nat) (o : options) (i : input) (es : error_system) : FM (list CompiledProgram * error_system) :=
  let library := library_of (in_parent_name i) in
  if in_is_dir i then compile_from_folder files o (in_path i) library "main" es
  else
    match in_parent i, in_file_stem i with
    | Some parent, Some (Some file_name) => compile_from_folder files o parent library file_name es
    | Some _, Some None => Some (Err (CompileError_new "Compile error" "File name must be UTF-8" []))
    | _, _ => Some (Err (CompileError_new "Compile error" "Could not parse as valid path" []))
    end.

(** The warnings that a stage gave before it failed are not kept here. *)
Fixpoint compile_inputs (files : nat) (o : options) (inputs : list input) (progs : list CompiledProgram)
    (es : error_system) : FM (sum error_system (list CompiledProgram * error_system)) :=
  match inputs with
  | [] => mret (inr (progs, es))
  | i :: inputs =>
      match compile_from_file files o i es with
      | Some (Ok (new, es)) => compile_inputs files o inputs (progs ++ new) es
      | Some (Err e) => mret (inl (mkErrorSystem (errors es ++ [e]) (warnings es)))
      | Some Panic => fm_panic
      | None => None
      end
  end.

Definition invoke (files : nat) (o : options) (inputs : list input)
    : FM (sum error_system (LinkedProgram * error_system)) :=
  r ← compile_inputs files o inputs [] (mkErrorSystem [] []);
  match r with
  | inl es => mret (inl es)
  | inr (progs, es) => link_stage o progs es
  end.

(** ** The program tree *)

(** The modules are those that have been seen; what they import has been seen
    or is still to be visited. *)
Record tree_ok (paths : list path_t) (t : tree) : Prop := {
  to_seen : dom (t_programs t) = t_seen t;
  to_files p imports : (p, imports) ∈ t_import_map t → p ∈ t_seen t;
  to_closed p imports imp : (p, imports) ∈ t_import_map t → imp ∈ imports → Ast.i_path imp ∈ t_seen t ∨ Ast.i_path imp ∈ paths;
  to_wf : all_wf (t_programs t);
}.

(** The parser only adds to the string table it is given. *)
Definition parser_interns : Prop := ∀ source file_id path consts used es p,
  parser source file_id path StringTable.new consts used es = inr p → StringTable.wf (p_string_table p).

Lemma parse_table source file_id path es decls st used es' : parser_interns →
  parse_from_source source file_id path es = Ok (decls, st, used, es') → StringTable.wf st.
Proof using Type.
  intros Hp Hs. unfold parse_from_source in Hs. destruct constants; try done. cbn [mbind outcome_bind] in Hs.
  destruct (parser _ _ _ _ _ _ _) as [e|p] eqn:Ep.
  - destruct e; cbn [parse_error] in Hs; try done; by destruct (Lines.location _ _ _).
  - injection Hs as <- <- <- <-. by eapply Hp.
Qed.

Lemma add_file_ok folder builtins path t es t' imported es' paths : parser_interns → tree_ok (paths ++ [path]) t →
  add_file folder builtins path t es = Ok (t', imported, es') → tree_ok (paths ++ imported) t' ∧ t_seen t' = {[path]} ∪ t_seen t.
Proof using Type.
  clear biguint_parse_bytes fuel. intros Hp [Hseen Hfiles Hclosed Hwf] Ha. unfold add_file in Ha. destruct (file_name path); try done. cbn [mbind outcome_bind] in Ha.
  destruct (read_file _) as [| |source]; try done. destruct (parse_from_source _ _ _ _) as [[[[decls st] used] es1]| |] eqn:Eparse; try done.
  cbn [mbind outcome_bind] in Ha. injection Ha as <- <- <-. split; [|done]. split; cbn [t_programs t_import_map t_seen].
  - by rewrite dom_insert_L, Hseen.
  - intros p imports [Hin|Hin]%elem_of_app; [apply elem_of_union; right; by eapply Hfiles|].
    apply list_elem_of_singleton in Hin as [= -> ->]. set_solver.
  - intros p imports imp [Hin|Hin]%elem_of_app Himp.
    + destruct (Hclosed p imports imp Hin Himp) as [?|[?|?%list_elem_of_singleton]%elem_of_app]; [set_solver..|].
      left. apply elem_of_union. left. by apply elem_of_singleton.
    + apply list_elem_of_singleton in Hin as [= -> ->]. right. apply elem_of_app. right. by apply list_elem_of_fmap_2.
  - apply all_wf_insert; [done|]. split; cbn; [by eapply parse_table|done].
Qed.

Lemma tree_ok_less paths path t : path ∈ t_seen t → tree_ok (paths ++ [path]) t → tree_ok paths t.
Proof using Type.
  intros Hp [? ? Hc ?]. split; try done. intros p imports imp Hin Himp.
  destruct (Hc p imports imp Hin Himp) as [?|[?|Heq%list_elem_of_singleton]%elem_of_app]; [auto..|]. left. by rewrite Heq.
Qed.

Lemma last_split (paths : list path_t) path : list.last paths = Some path → paths = removelast paths ++ [path].
Proof using Type. intros Hl. apply last_Some in Hl as (l & ->). by rewrite removelast_last. Qed.

Lemma tree_loop_ok files folder builtins : ∀ paths t es t' es', parser_interns → tree_ok paths t →
  program_tree_loop files folder builtins paths t es = Some (Ok (t', es')) → tree_ok [] t'.
Proof using Type.
  induction files as [|files IH]; intros paths t es t' es' Hp Ht Hl; [done|]. cbn [program_tree_loop] in Hl.
  destruct (list.last paths) as [path|] eqn:El.
  - apply last_split in El. rewrite El in Ht. case_bool_decide as Hseen; [by eapply (IH (removelast paths)); [|eapply tree_ok_less|]|].
    apply fm_bind_ok in Hl as ([[t1 imported] es1] & Ha & Hl). injection Ha as Ha.
    by apply (add_file_ok _ _ _ _ _ _ _ _ _ Hp Ht) in Ha as [Ha _]; eapply IH.
  - injection Hl as <- <-. by apply last_None in El as ->.
Qed.

Lemma program_tree_ok files folder library main builtins es t es' : parser_interns →
  create_program_tree files folder library main builtins es = Some (Ok (t, es')) → tree_ok [] t.
Proof using Type.
  intros Hp Hc. eapply tree_loop_ok in Hc; [done|done|]. split; cbn; [done|..].
  - by intros p imports ?%elem_of_nil.
  - by intros p imports imp ?%elem_of_nil.
  - intros p m. by rewrite lookup_empty.
Qed.

(** ** Reading files ends *)
Lemma add_file_seen folder builtins path t es t' imported es' :
  add_file folder builtins path t es = Ok (t', imported, es') → t_seen t' = {[path]} ∪ t_seen t.
Proof using Type.
  unfold add_file. destruct (file_name path); try done. cbn [mbind outcome_bind]. destruct (read_file _) as [| |source]; try done.
  destruct (parse_from_source _ _ _ _) as [[[[decls st] used] es1]| |]; try done. cbn [mbind outcome_bind]. by intros [= <- <- <-].
Qed.

(** All files that are reached are in [P], and none has more than [K] imports. *)
Definition files_bounded (folder : string) (builtins : bool) (P : gset path_t) (K : nat) : Prop :=
  ∀ path t es t' imported es', path ∈ P → add_file folder builtins path t es = Ok (t', imported, es') →
    (∀ q, q ∈ imported → q ∈ P) ∧ length imported <= K.

Lemma tree_loop_ends folder builtins P K files : files_bounded folder builtins P K → ∀ paths t es,
  (∀ q, q ∈ paths → q ∈ P) → length paths + S K * size (P ∖ t_seen t) < files →
  program_tree_loop files folder builtins paths t es ≠ None.
Proof using Type.
  clear biguint_parse_bytes fuel. intros HP. induction files as [|files IH]; intros paths t es Hpaths Hfiles; [lia|].
  cbn [program_tree_loop]. destruct (list.last paths) as [path|] eqn:El; [|done]. apply last_split in El.
  assert (length paths = S (length (removelast paths))) as Hlen by (rewrite El at 1; rewrite length_app; cbn; lia).
  assert (path ∈ P) as Hpath by (apply Hpaths; rewrite El; set_solver).
  assert (∀ q, q ∈ removelast paths → q ∈ P) as Hrest by (intros q Hq; apply Hpaths; rewrite El; set_solver).
  case_bool_decide as Hseen; [apply IH; [done|lia]|].
  destruct (add_file folder builtins path t es) as [[[t1 imported] es1]| |] eqn:Ea; [|done..]. cbn [mbind fm_bind].
  destruct (HP path t es t1 imported es1 Hpath Ea) as [Himp HK]. apply IH; [set_solver|].
  rewrite (add_file_seen _ _ _ _ _ _ _ _ Ea), length_app.
  assert (size (P ∖ t_seen t) = S (size (P ∖ ({[path]} ∪ t_seen t)))) as Hsize.
  { assert (P ∖ t_seen t = {[path]} ∪ (P ∖ ({[path]} ∪ t_seen t))) as ->.
    { apply leibniz_equiv. intros x. destruct (decide (x = path)); set_solver. }
    rewrite size_union by set_solver. by rewrite size_singleton. }
  rewrite Hsize in Hfiles. lia.
Qed.
End compiler.

(** ** What the stages rely on *)

(** C9: no import of a program is missing.  When reading the files of a program
    gives modules, [resolve_imports] gives a result for them, whatever order the
    files came in: every imported file is there, no module loses a name, the
    imported functions of each module are numbered in order, and every import is
    a type or an imported function of its module or has a warning. *)
Theorem program_imports_resolve constants parser read_file file_hash files folder library main builtins es t es' :
  parser_interns parser →
  create_program_tree constants parser read_file file_hash files folder library main builtins es = Some (Ok (t, es')) →
  ∃ programs' w', resolve_imports (t_programs t) (t_import_map t) (warnings es') = Ok (programs', w') ∧
    dom programs' = dom (t_programs t) ∧ all_wf programs' ∧ all_grow (t_programs t) programs' ∧
    ∀ p imports imp, (p, imports) ∈ t_import_map t → imp ∈ imports → ∃ m, programs' !! p = Some m ∧ resolved imp m w'.
Proof.
  intros Hp Hc. apply program_tree_ok in Hc as [Hseen Hfiles Hclosed Hwf]; [|done].
  destruct (resolve_imports_correct (t_programs t) (t_import_map t) (warnings es')) as (P' & w' & Hr & Hwf' & Hg & Hd & Hall); [done| |by exists P', w'].
  intros p imports imp Hin Himp. rewrite <- !elem_of_dom, Hseen. split; [by eapply Hfiles|].
  by destruct (Hclosed p imports imp Hin Himp) as [?|?%elem_of_nil].
Qed.

(** C24: the files of a program are read in finitely many steps: if the paths
    that can be reached are in [P] and no file has more than [K] imports, the
    loop ends within [1 + (K + 1) * |P|] rounds, one for the end of the list. *)
Theorem create_program_tree_ends constants parser read_file file_hash files folder library main builtins es P K :
  files_bounded constants parser read_file file_hash folder builtins P K → main_path library main ∈ P →
  2 + S K * size P <= files →
  create_program_tree constants parser read_file file_hash files folder library main builtins es ≠ None.
Proof.
  intros HP Hmain Hfiles. eapply tree_loop_ends; [exact HP| |].
  - by intros q ->%list_elem_of_singleton.
  - cbn [length t_seen]. rewrite difference_empty_L. lia.
Qed.

(** The control flow stage builds the graph of every module. *)
Lemma flow_stage_graphs fuel modules w graph w' : NoDup (tm_path <$> modules) →
  flow_stage fuel modules w = Some (Ok (graph, w')) → Forall (graph_of fuel graph) modules.
Proof.
  unfold flow_stage. intros Hnd Hf.
  assert (∀ l g0 w0, NoDup (tm_path <$> l) → fold_fm (λ m acc, w ← module_flowcheck fuel m acc.2; cg ← build_callgraph fuel m;
             mret (<[tm_path m := cg]> acc.1, w)) l (g0, w0) = Some (Ok (graph, w')) →
           Forall (graph_of fuel graph) l ∧ ∀ p, p ∉ tm_path <$> l → graph !! p = g0 !! p) as Hall; [|by eapply Hall].
  clear. induction l as [|m l IH]; intros g0 w0 Hnd Hf; cbn [fold_fm] in Hf; [by injection Hf as <- <-|].
  apply fm_bind_ok in Hf as ([g1 w1] & H1 & Hf). apply fm_bind_ok in H1 as (w2 & _ & H1). apply fm_bind_ok in H1 as (cg & Hcg & [= <- <-]).
  cbn [fmap list_fmap] in Hnd |- *. apply list.NoDup_cons in Hnd as [Hm Hnd]. destruct (IH _ _ Hnd Hf) as [Hl Hout]. split.
  - apply List.Forall_cons; [|done]. exists cg. split; [|done]. rewrite Hout by done. cbn. apply lookup_insert_eq.
  - intros p Hp. apply not_elem_of_cons in Hp as [Hne Hp]. rewrite Hout by done. cbn. by rewrite lookup_insert_ne.
Qed.

(** The warnings about purity are those about functions that are not as declared. *)
Lemma purity_warnings_none fuel st l w w' : fold_fm (purity_warning fuel st) l w = Some (Ok w') →
  length w <= length w' ∧ (length w' = length w ↔ Forall (λ e, func_is_pure fuel e.2 = Some (Ok (pure (f_properties e.2)))) l).
Proof.
  revert w. induction l as [|[id f] l IH]; intros w Hf; cbn [fold_fm] in Hf; [injection Hf as <-; split; [done|by split]|].
  apply fm_bind_ok in Hf as (w1 & H1 & Hf). cbn [purity_warning] in H1. apply fm_bind_ok in H1 as (b & Hb & H1).
  destruct (IH _ Hf) as [Hle Hiff]. case_bool_decide as Hne.
  - apply fm_bind_ok in H1 as (? & _ & [= <-]). rewrite length_app in Hle. cbn [length] in Hle. split; [lia|]. split; [lia|].
    intros [Hf1 _]%list.Forall_cons. cbn in Hf1. rewrite Hb in Hf1. congruence.
  - injection H1 as <-. split; [done|]. rewrite Hiff, list.Forall_cons. cbn. rewrite Hb. rewrite Hne. by split; [|intros []].
Qed.

(** The purity of functions is checked.  Type checking the modules adds no
    warning exactly when every function is found pure if and only if it is
    declared so. *)
Theorem purity_checked `{Crypto} biguint_parse_bytes fuel type_tree modules w checked w' :
  typecheck_programs biguint_parse_bytes fuel type_tree modules w = Some (Ok (checked, w')) →
  w' = w ↔ Forall (λ m, Forall (λ e, func_is_pure fuel e.2 = Some (Ok (pure (f_properties e.2)))) (tm_checked_funcs m)) checked.
Proof.
  intros (l & Hl & [= <- <-])%fm_bind_ok.
  assert (Forall (λ mw, mw.2 = [] ↔ Forall (λ e, func_is_pure fuel e.2 = Some (Ok (pure (f_properties e.2)))) (tm_checked_funcs mw.1)) l) as Hall.
  { revert l Hl. induction modules as [|m modules IH]; intros l Hl; cbn [map_fm] in Hl; [by injection Hl as <-|].
    apply fm_bind_ok in Hl as (mw & Hmw & Hl). apply fm_bind_ok in Hl as (l1 & Hl1 & [= <-]). constructor; [|by apply IH].
    apply fm_bind_ok in Hmw as ([[ef cf] gv] & _ & Hmw). apply fm_bind_ok in Hmw as (ws & Hws & [= <-]).
    apply purity_warnings_none in Hws as [_ Hws]. cbn [fst snd tm_checked_funcs]. rewrite <- Hws. cbn [length]. destruct ws; [done|]. by split. }
  rewrite list.Forall_fmap. clear Hl. induction Hall as [|mw l Hmw _ IH]; cbn [fmap list_fmap concat].
  - rewrite app_nil_r. by split.
  - rewrite list.Forall_cons. cbn [compose]. rewrite <- Hmw, <- IH. split.
    + intros Hw. assert (length mw.2 = 0 ∧ length (concat l.*2) = 0) as [H1 H2].
      { apply (f_equal length) in Hw. rewrite !length_app in Hw. lia. }
      apply nil_length_inv in H1, H2. rewrite H1, H2. by rewrite app_nil_r.
    + intros [-> Hw]. done.
Qed.

(** ** Examples *)

(** Two files: [main] uses [helper] of [other]. *)
Definition toy_parser (source : list Z) (file_id : Z) (path : path_t) (st : StringTable.t) (consts : gmap string Z) (used : gset string)
    (es : error_system) : sum ParseError parsed :=
  inr (mkParsed (if bool_decide (path = ["main"]) then [Ast.UseDecl (use_ ["other"] "helper")]
                 else [Ast.TypeDecl 0 Tipe.Uint]) (snd (StringTable.get st "helper")) ∅ ∅ [] []).
Definition toy_tree : FM (tree * error_system) :=
  create_program_tree (Ok ∅) toy_parser (λ _, Contents []) (λ _, 0%Z) 6 "src" None "main" false (mkErrorSystem [] []).
Definition toy_program : tree := match toy_tree with Some (Ok (t, _)) => t | _ => mkTree ∅ [] ∅ end.

Lemma toy_interns : parser_interns toy_parser.
Proof. intros source file_id path consts used es p [= <-]. apply StringTable.wf_get, StringTable.wf_new. Qed.

Lemma program_imports_resolve_witness : ∃ programs' w',
  resolve_imports (t_programs toy_program) (t_import_map toy_program) [] = Ok (programs', w') ∧
  ∃ m, programs' !! ["main"] = Some m ∧ resolved (use_ ["other"] "helper") m w'.
Proof.
  destruct (program_imports_resolve (Ok ∅) toy_parser (λ _, Contents []) (λ _, 0%Z) 6 "src" None "main" false (mkErrorSystem [] [])
              toy_program (mkErrorSystem [] []) toy_interns) as (P' & w' & Hr & _ & _ & _ & Hall); [vm_compute; reflexivity|].
  exists P', w'. split; [exact Hr|]. apply (Hall ["main"] [use_ ["other"] "helper"]); [vm_compute|]; by left.
Defined.

Lemma create_program_tree_ends_witness : toy_tree ≠ None.
Proof.
  apply (create_program_tree_ends (Ok ∅) toy_parser (λ _, Contents []) (λ _, 0%Z) 6 "src" None "main" false (mkErrorSystem [] [])
           {[ ["main"]; ["other"] ]} 1).
  - intros path t es t' imported es' [->%elem_of_singleton| ->%elem_of_singleton]%elem_of_union [= <- <- <-]; cbn.
    + split; [by intros q ->%list_elem_of_singleton; set_solver|lia].
    + split; [by intros q ?%elem_of_nil|lia].
  - apply elem_of_union. left. by apply elem_of_singleton.
  - vm_compute. lia.
Defined.

(** The module of TypeSoundness.v, whose function counts in a global. *)
Definition fact_module : SourceModule :=
  let d := sort_top_level_decls fact_decls ["main"] false in
  mkModule [] (sd_funcs d) (sd_named_types d) ∅ (sd_global_vars d) (sd_imports d) fact_names (sd_func_table d) ["main"] "main.mini".
Definition fact_modules : list TypeCheckedModule * list CompileError :=
  match typecheck_programs (H := toy_crypto) (λ _ _, None) 20 ∅ [fact_module] [] with Some (Ok r) => r | _ => ([], []) end.

Lemma purity_checked_witness : length fact_modules.1 = 1 ∧
  (fact_modules.2 = [] ↔
   Forall (λ m, Forall (λ e, func_is_pure 20 e.2 = Some (Ok (pure (f_properties e.2)))) (tm_checked_funcs m)) fact_modules.1).
Proof.
  split; [vm_compute; reflexivity|].
  apply (purity_checked (H := toy_crypto) (λ _ _, None) 20 ∅ [fact_module] [] fact_modules.1 fact_modules.2). vm_compute. reflexivity.
Defined.
